(* ===== verification/_CoqProject ===== *)
-Q . S2P
Prelude.v
CLib.v
GetNum.v
ErrorFunctions.v
Proc.v
Args.v
Getopt.v
Ugid.v
AclParse.v
Acl.v
SemOps.v
BinarySems.v
Conc.v
UsernsOpts.v
UsernsExec.v
NsCapable.v
ThreadIncr.v
FileRaces.v
CondVar.v
MultiJoin.v
NameTsd.v
OneTime.v
ShmTransfer.v
SemInit.v
FifoSeqnum.v
PidFile.v
Execlp.v
Setenv.v
System.v
Descriptors.v
Signals.v
TextFns.v
Substitutes.v
ItimerSpec.v
Daemon.v
Pty.v
Scm.v
FileServer.v
ByteIO.v
ReadLine.v
Rdwrn.v
Sendfile.v
Sockets.v
InetSeqnum.v
YisSeqnum.v
Transfer.v
Datagrams.v
Bpf.v
SeccompFilters.v
SeccompNotify.v
SeccompSupervisor.v
Inotify.v
InotifyCache.v
InotifyEvents.v
InotifyMain.v
InotifyToy.v
