(* ===== verification/Prelude.v ===== *)
(** * Verification of the TLPI program library

    The repository holds the example programs of "The Linux Programming
    Interface": a support library ([lib/]) used by all of them, and one
    directory of programs per chapter.  This development models the support
    library's own logic and the programs with the most behaviour of their own:
    the line and block I/O routines of [sockets/], the seccomp programs of
    [seccomp/], the directory-tree monitor of [inotify/], the programs of
    [threads/], [psem/], [svsem/], [svshm/], [pipes/], [svmsg/] and [filelock/]
    that synchronise threads or processes, the functions of [procexec/],
    [daemons/], [tty/] and [pty/] that start processes and set up their
    terminals, the ACL editor of [acl/], and the user-namespace tools of
    [namespaces/].

    ** The parts and the files that model them

    Foundations:

    - [Prelude] (this file): the effect monad [M] (state, and a reason for
      stopping), loops with fuel, Hoare-style [triple]s, invariants
      ([preserves]) and result properties ([returns]), and general lemmas.
    - [CLib]: integer widths, character classes, string functions, decimal
      printing, [snprintf] and the [strtol] family, with the grammar [strtol]
      accepts as a specification.
    - [Proc]: the state of a whole program (process part, variables, trace of
      system calls, outside world), the reporting routines lifted to it, and
      the two ways its runs are specified ([post], [finishes]).
    - [Args], [Getopt]: the number parsers lifted to a program, and
      [getopt(3)].
    - [Conc]: threads and processes as code trees that interleave at every
      action, with invariants by induction on runs, inevitability of a final
      state under any scheduling, and properties of one process over its own
      history ([respects]).

    The library:

    - [GetNum]: [lib/get_num.c] and [lib/tryGet_num.c], all functions.
    - [ErrorFunctions]: [lib/error_functions.c] and [lib/ename.c.inc], all
      functions.  The state is [errno], the environment, the two stdio buffers
      and the writes delivered so far.
    - [Sockets]: [lib/unix_sockets.c], [lib/yunix_sockets.c] and
      [lib/inet_sockets.c].
    - [Signals]: [lib/signal_functions.c], [alt_functions.c] and [y_iofunc.c].
    - [Ugid]: [users_groups/ugid_functions.c].  [ItimerSpec]:
      [timers/itimerspec_from_str.c].

    Input and output:

    - [ByteIO]: [read(2)] and [write(2)] as classes over an abstract world, with
      their laws and a concrete world that satisfies them.
    - [ReadLine]: [sockets/read_line.c], [yread_line.c], [ybio.c] and
      [read_line_buf.c].  [Rdwrn]: [sockets/rdwrn.c].  [Sendfile]:
      [sockets/sendfile.c].

    Threads, semaphores and shared memory:

    - [ThreadIncr]: the eight programs [thread_incr*.c] and [ythread_incr*.c] of
      [threads/] and [psem/], one [Module] each, over a class of locks.
    - [ShmTransfer]: [svshm/svshm_xfr_writer.c] and [svshm_xfr_reader.c] as two
      processes.  [BinarySems]: [svsem/binary_sems.c] and [event_flags.c].
    - [SemInit]: [svsem/svsem_good_init.c] and [svsem_bad_init.c], any number of
      processes.
    - [SemOps]: [svsem/svsem_op.c], parser and [main].
    - [CondVar]: [threads/prod_condvar.c] and [prod_no_condvar.c], any number of
      producers and the consumer, with a mutex, a condition variable and
      spurious wake-ups.  [MultiJoin]: [thread_multijoin.c] and
      [ythread_multijoin.c], any number of threads that end in any order.
      [NameTsd]: [threads/name_tsd.c], as one thread calls it.
      [OneTime]: [threads/one_time_init.c], [exr3101.c] and [exr3101_test.c],
      with any number of threads.
    - [FileRaces]: [fileio/atomic_append.c], [yatomicappend.c],
      [bad_exclusive_open.c], [ybadoexcl.c] and [yoexcl.c], any number of
      processes over one file system.
    - [FifoSeqnum]: [pipes/fifo_seqnum_server.c] and [fifo_seqnum_client.c], any
      number of clients.  [FileServer]: [svmsg/svmsg_file_server.c] and
      [svmsg_file_client.c].
    - [InetSeqnum]: [sockets/is_seqnum_sv.c], [is_seqnum_cl.c] and their second
      versions, over [Sockets], [ReadLine] and [Args].  [YisSeqnum]:
      [yis_seqnum_sv.c] and [yis_seqnum_cl.c], which check less.
    - [Transfer]: the stream programs [us_xfr*.c], [yus_xfr*.c], [exr5702*.c],
      [exr5903_us_xfr*.c] and [exr5903_a_us_xfr*.c] of [sockets/], and the echo
      programs [is_echo*.c], around one loop that copies a stream.
    - [Datagrams]: the programs that answer datagrams, [ud_ucase*.c],
      [yud_ucase*.c], [exr5903_ud_ucase*.c], [i6d_ucase*.c], [yi6d_ucase*.c] and
      [id_echo*.c].
    - [PidFile]: [filelock/region_locking.c] and [create_pid_file.c], any number
      of processes over files with record locks.
    - [Scm]: [sockets/scm_functions.c], [scm_multi_send.c] and
      [scm_multi_recv.c]; control messages are bytes, read and written by the
      kernel as well.

    Processes and terminals:

    - [Execlp]: [procexec/execlp.c] with its vectors and buffers.
      [System]: [procexec/system.c], [simple_system.c] and
      [print_wait_status.c].  [Setenv]: [proc/setenv.c], refined to a finite map.
    - [Descriptors]: a process with its descriptor table, session and terminal,
      on which [Daemon] ([daemons/become_daemon.c]) and [Pty]
      ([tty/tty_functions.c], [pty/pty_master_open.c], [pty/pty_fork.c]) run.
    - [Substitutes]: [signals/siginterrupt.c], [signals/yabort.c],
      [pty/pty_master_open_bsd.c] and [tty/ttyname.c].  [TextFns]:
      [files/file_perms.c], [threads/strerror.c], [strerror_tls.c] and
      [strerror_tsd.c], and [time/curr_time.c].

    Access control lists and namespaces:

    - [AclParse], [Acl]: [acl/acl_update.c]; the text form, and the editing of a
      file's ACL through the library, refined to a finite map.
    - [UsernsOpts], [UsernsExec]: [namespaces/userns_child_exec.c],
      [userns_functions.c] and [cap/cap_functions.c]; the option parser, and
      the parent and child that a pipe synchronises.
    - [NsCapable]: [namespaces/ns_capable.c].

    Seccomp:

    - [Bpf]: classic BPF over [struct seccomp_data], and the kernel's checks on
      a program.  [SeccompFilters]: the filters of eleven programs of [seccomp/],
      one [Module] each, including the one [seccomp_bench.c] builds in a loop.
    - [SeccompNotify]: [seccomp_functions.c] and the notification loops of
      [seccomp_unotify_mkdir.c] and [seccomp_unotify_openat.c].
      [SeccompSupervisor]: the option parser, target process and supervisor of
      these programs, and [seccomp_launch.c].

    Directory monitor:

    - [Inotify], [InotifyCache], [InotifyEvents], [InotifyMain]: the whole of
      [inotify/inotify_dtree.c] (cache operations; their correctness; event
      loop; commands and [main]).  [InotifyToy]: a machine on which its theorems
      are run.

    ** How code becomes definitions

    A C function is a definition of the same name.  Functions that return
    without effects are plain functions; the others are computations of the
    monad [M] over a record of the state they touch.  A computation ends in a
    value or in a [halt]: [exit], [_exit], [abort], undefined behaviour of the
    C code ([HUndef]), or lack of fuel ([HFuel]), always with the state reached,
    so that a theorem about results never hides a crash.  The concurrent
    programs are code trees of [Conc] instead: each call and each access to
    shared data is one action, loops are jumps to labels that carry the live
    variables, and a theorem quantifies over every schedule.  Integers are [Z],
    with wrap-around written where the C type can overflow; a C string is the
    string before its null byte where the code treats it as such, and a list of
    bytes, some of them uninitialised, where the code can see more.  The kernel,
    the file system, the ACL library and the allocator are classes over an
    abstract world, or machines that take the results of their calls from an
    arbitrary list; what the proofs need of a class is a separate class of laws
    stating documented behaviour, and each such class has an instance.

    ** What the theorems show

    The properties of the manifest, by the names of their theorems.

    - Numbers ([getInt_spec], [getInt_roundtrip], [tryGetInt_getInt]): [getInt]
      accepts exactly the arguments its description names, reading back a printed
      number gives the number, [tryGetInt] agrees with [getInt].  Further theorems
      of [GetNum] show inputs that the [tryGet] functions accept against their
      description.
    - Reporting ([reports_run]): what reaches the kernel, in which order, and how
      the process ends.
    - Threads and processes, under every schedule.  The locked programs count every
      increment and end ([locked_programs_count]); without a lock they can lose
      all but two.  The shared-memory transfer copies its input and both sides
      end ([shm_transfer_copies]).  No wake-up of the producers is lost, so the
      consumer ends having taken every unit ([every_unit_is_consumed]); these
      three as long as the [int] totals do not overflow.  And
      every thread is joined once, after it has ended, before [main] ends
      ([every_thread_is_joined]).  The sequences a FIFO server hands out are disjoint
      ([fifo_sequences_disjoint]), as are those of the socket servers, each of the
      length asked for ([inet_sequences_disjoint]), and at most one process holds a
      PID file while nobody removes it ([createPidFile_excludes]).  An initialisation runs once and before anything
      that needs it ([initialisation_once]).  Processes that append to a file with
      [O_APPEND] lose no byte ([appends_lose_nothing]), and one at most creates a file exclusively
      ([exclusive_creation]); the programs that seek first, or look first, fail at
      this.  The good initialisation of a semaphore loses
      no operation ([good_init_loses_nothing]) and the bad one does.
    - Requests over sockets, in further theorems: the client prints the number the
      server has reached, and the server moves on by the length asked for; every client of [Transfer] with every server of it copies
      the client's input to the server's output; the echo services return what
      they read, in order; the servers of [Datagrams] answer the datagrams they
      receive in order; and the sequences of [YisSeqnum] are disjoint while the
      lengths are positive, which it does not check.
    - Message queues ([file_transfer]): the client gets the whole file, byte for
      byte, however the server's reads are split.
    - Descriptors over sockets ([multi_transfer], [recvfd_spec]): the receiver
      writes the contents of the files the sender opened, when no call fails, and
      has closed what it was given; what [recvfd] returns, and leaves open, for any packet.
    - Semaphore operations ([parseOps_spec]): [svsem_op] accepts exactly its
      grammar, and (a further theorem) performs each group once.
    - Program execution ([execlp_searches_path], [argument_vector_bounds],
      [system_keeps_signals]): the files that are tried and the error that is
      reported, the bounds of the vectors and the array that is too small, and the
      signal state around and inside a shell command.  A further theorem gives the
      text for each way a child can end.
    - Environment ([setenv_refines]): on the map of names to values that [environ]
      stands for, [setenv] and [unsetenv] are insertion and deletion, but for
      the case without memory, where the old value is lost.
    - Daemons and terminals ([becomeDaemon_spec], [ptyFork_child_spec]): the
      session, terminal and descriptors of the process that results.  Further
      theorems show that nothing stays open in the parent of [ptyFork] when
      something fails, and that raw mode changes the bits it names and can be
      undone.
    - Own versions of library functions, in further theorems: what [sendfile]
      sends and where it leaves the offset; the directory and last part of every
      path; the permission text reads back; [yabort] ends the process whatever
      the disposition of the signal; the terminal name that is found.
    - ACLs ([updateACL_refines], [parseACL_spec]): every ACL written is the one the
      specification on maps gives; the text form is accepted exactly by its
      grammar, and what the parser does to its text.
    - Namespaces ([userns_terminates], [maps_before_exec], [ns_capable_spec]): the
      two processes come to an end if the command does, and otherwise to the parent
      waiting for it; the command runs only after the maps
      are written, unless the parent failed; the report of [ns_capable] is the
      true one and it leaks no descriptor.  Further theorems give the command lines
      accepted, and a run in which the parent fails and the command runs without
      the maps.
    - Lines and blocks ([readLine_spec], [ybio_readl_spec]; further theorems of
      [ReadLine] and [Rdwrn]): each reader returns, and consumes exactly one line
      or [n] bytes and stores exactly that, whatever partial transfers and
      interruptions the kernel makes.  The four line readers are proved against
      one specification.
    - Filters ([multiarch_decision], [filters_accepted]): the decision of a filter
      on every system call (the other filters' decisions are further theorems of
      [SeccompFilters]), and that the kernel accepts each of them.
    - Notifications ([getTargetPathname_spec], [mkdir_handle_answers]; a further
      theorem says which filters the target has installed): the path
      read from the target is that of a live notification; what the supervisor
      answers on every branch, and that it answers exactly once.
    - Directory monitor ([addWatchToCache_spec],
      [processInotifyEvents_terminates], [main_inv]; further theorems on removal,
      renaming and the bytes an event takes): what the operations do to the cache;
      that event handling advances through the buffer and terminates; the cache
      invariant for the whole program under any options, commands and events, and
      that a directory reported deleted leaves the cache.
    - Socket libraries ([inet_descriptors]): which addresses are tried, which one a
      socket is connected or bound to, and which descriptors stay open.

    ** Fuel

    [loop] takes a bound on the number of turns.  The theorems about the readers
    and writers assume fuel larger than the bytes pending plus the interruptions
    still to come, which bounds the turns because each turn uses up one of
    them; [processInotifyEvents] needs two turns per event still to come, for a
    hanging event is examined at most twice; the search of an ACL needs more
    than its entries, the walk of [ns_capable] more than the namespaces above
    the target, and [reserveSem] more than the interruptions to come.  The
    parsers, the search of [execlp] and the loop that sends a file take the
    length of their text.  The server loops (notifications,
    the monitor's [main]) run for ever in the code; their theorems hold for
    every amount of fuel, that is at every turn.  BPF programs run by structural
    recursion since jumps only go forward, and the concurrent programs need no
    fuel.

    ** What is not modelled

    Programs that only call the kernel and print (most chapter examples);
    signal handlers interleaving with the code, other than as interrupted
    calls; the contents behind [getaddrinfo], [nftw], [/proc] and the user
    databases, which are parameters; variadic formats, which are represented
    by the text they expand to; [setjmp] and memory mappings.  Where C leaves the
    order of evaluation open and it matters ([OneTime], [NsCapable]), the theorems
    hold for every order.  In [SemInit] the
    argument of a process is taken as read; in [UsernsExec] the capability library
    is known by the results it gives; in [FileServer] the handler that reaps
    children is left out, and a client and the child that serves it run one after
    the other, since the queue between them is private.  Left out altogether are
    [pty/script.c], whose behaviour is its terminal's, the interactive locking
    program of [filelock/] and the minimal init of [namespaces/], which works in a
    signal handler. *)
From Stdlib Require Export Ascii.
From stdpp Require Export base list strings numbers sets.
From Stdlib Require Export ZArith Lia.

(** ** Program effects

    The modelled programs thread a state record through calls that may end the
    process.  A computation over states [St] takes a state and produces either
    a value or a reason why the process stopped, with the state reached. *)

Inductive halt : Type :=
| HExit (status : Z)      (** [exit(3)]: handlers run, streams are flushed *)
| HExitNow (status : Z)   (** [_exit(2)]: the process ends at once *)
| HExec                   (** [execve(2)]: the process runs another program *)
| HAbort                  (** [abort(3)] *)
| HUndef                  (** the C code has undefined behaviour here *)
| HFuel.                  (** the model ran out of fuel *)

#[global] Instance halt_eq_dec : EqDecision halt.
Proof. solve_decision. Defined.

Inductive res (A : Type) : Type :=
| Ok (a : A)
| Halt (h : halt).
Arguments Ok {A} a.
Arguments Halt {A} h.

Definition M (St A : Type) : Type := St → res A * St.

#[global] Instance M_ret {St} : MRet (M St) := λ A a s, (Ok a, s).

#[global] Instance M_bind {St} : MBind (M St) := λ A B k m s,
  match m s with
  | (Ok a, s') => k a s'
  | (Halt h, s') => (Halt h, s')
  end.

Section effects.
Context {St : Type}.

Definition stop {A} (h : halt) : M St A := λ s, (Halt h, s).
Definition gets {A} (f : St → A) : M St A := λ s, (Ok (f s), s).
Definition modify (f : St → St) : M St unit := λ s, (Ok tt, f s).
Definition skip : M St unit := mret tt.

(** [if (b) m] *)
Definition when (b : bool) (m : M St unit) : M St unit := if b then m else skip.

(** [for (x in l) body(x)] *)
Fixpoint for_each {A} (l : list A) (body : A → M St unit) : M St unit :=
  match l with
  | [] => skip
  | x :: l => body x;; for_each l body
  end.

(** [for (;;) body], where the body either continues with a new loop variable
    or leaves the loop with a result. *)
Fixpoint loop {A B} (fuel : nat) (body : A → M St (A + B)) (a : A) : M St B :=
  match fuel with
  | O => stop HFuel
  | S fuel =>
      r ← body a;
      match r with
      | inl a' => loop fuel body a'
      | inr b => mret b
      end
  end.
End effects.

(** ** Triples

    [triple P m Q E]: from a state satisfying [P] the computation either
    returns a value and state satisfying [Q], or stops the process in a state
    satisfying [E]. *)

Section triples.
Context {St : Type}.

Definition triple {A} (P : St → Prop) (m : M St A)
    (Q : A → St → Prop) (E : halt → St → Prop) : Prop :=
  ∀ s, P s → match m s with
             | (Ok a, s') => Q a s'
             | (Halt h, s') => E h s'
             end.

(** The computation keeps [I], however it ends. *)
Definition preserves {A} (I : St → Prop) (m : M St A) : Prop :=
  triple I m (λ _, I) (λ _, I).

(** The computation always returns. *)
Definition total {A} (m : M St A) : Prop := ∀ s, ∃ a s', m s = (Ok a, s').

Lemma triple_bind {A B} P (m : M St A) R (k : A → M St B) Q E :
  triple P m R E → (∀ a, triple (R a) (k a) Q E) → triple P (m ≫= k) Q E.
Proof.
  intros Hm Hk s HP. unfold mbind, M_bind. specialize (Hm s HP).
  destruct (m s) as [[a|h] s']; [by apply Hk|done].
Qed.

Lemma triple_weaken {A} (P P' : St → Prop) (m : M St A) Q Q' E E' :
  triple P m Q E → (∀ s, P' s → P s) → (∀ a s, Q a s → Q' a s) →
  (∀ h s, E h s → E' h s) → triple P' m Q' E'.
Proof.
  intros Hm HP HQ HE s Hs. specialize (Hm s (HP s Hs)).
  destruct (m s) as [[a|h] s']; eauto.
Qed.

Lemma triple_pre_pure {A} (φ : Prop) P (m : M St A) Q E :
  (φ → triple P m Q E) → triple (λ s, φ ∧ P s) m Q E.
Proof. intros H s [Hφ HP]. by apply H. Qed.

Lemma preserves_ret {A} (I : St → Prop) (a : A) : preserves I (mret a : M St A).
Proof. by intros s. Qed.

Lemma preserves_skip (I : St → Prop) : preserves I skip.
Proof. by intros s. Qed.

Lemma preserves_stop {A} (I : St → Prop) h : preserves I (stop h : M St A).
Proof. by intros s. Qed.

Lemma preserves_gets {A} (I : St → Prop) (f : St → A) : preserves I (gets f).
Proof. by intros s. Qed.

Lemma preserves_modify (I : St → Prop) f :
  (∀ s, I s → I (f s)) → preserves I (modify f).
Proof. intros H s. apply H. Qed.

Lemma preserves_bind {A B} (I : St → Prop) (m : M St A) (k : A → M St B) :
  preserves I m → (∀ a, preserves I (k a)) → preserves I (m ≫= k).
Proof. intros Hm Hk. by apply (triple_bind I m (λ _, I)). Qed.

Lemma preserves_when (I : St → Prop) b m : preserves I m → preserves I (when b m).
Proof. destruct b; [done|intros _; apply preserves_skip]. Qed.

Lemma preserves_for_each {A} (I : St → Prop) (l : list A) body :
  (∀ x, preserves I (body x)) → preserves I (for_each l body).
Proof.
  intros Hb. induction l; simpl; [apply preserves_skip|].
  by apply preserves_bind.
Qed.

Lemma preserves_loop {A B} (I : St → Prop) fuel (body : A → M St (A + B)) a :
  (∀ a, preserves I (body a)) → preserves I (loop fuel body a).
Proof.
  intros Hb. revert a. induction fuel as [|fuel IH]; intros a; simpl.
  { apply preserves_stop. }
  apply preserves_bind; [done|]. intros [a'|b]; [apply IH|apply preserves_ret].
Qed.
End triples.

Create HintDb presv discriminated.
#[export] Hint Resolve preserves_ret preserves_skip preserves_stop preserves_gets
  preserves_when preserves_bind preserves_for_each preserves_loop : presv.

(** Splits a [preserves] goal along the structure of the program: binds, loops,
    conditionals and matches; the component's lemmas come from [presv]. *)
Ltac presv :=
  repeat first
    [ progress intros
    | solve [eauto with presv]
    | apply preserves_bind
    | apply preserves_when
    | apply preserves_for_each
    | apply preserves_loop
    | match goal with
      | |- preserves _ (match ?x with _ => _ end) => destruct x eqn:?
      | |- preserves _ (if ?x then _ else _) => destruct x eqn:?
      | |- preserves _ (let '(_, _) := ?x in _) => destruct x eqn:?
      end ].

(** Runs the head computation of a bind whose result is known. *)
Lemma run_bind {St A B} (m : M St A) (k : A → M St B) s a s' :
  m s = (Ok a, s') → (m ≫= k) s = k a s'.
Proof. unfold mbind, M_bind. by intros ->. Qed.

Lemma run_bind_halt {St A B} (m : M St A) (k : A → M St B) s h s' :
  m s = (Halt h, s') → (m ≫= k) s = (Halt h, s').
Proof. unfold mbind, M_bind. by intros ->. Qed.

(** A turn of a loop. *)
Lemma loop_S {St A B} fuel (body : A → M St (A + B)) a :
  loop (S fuel) body a = (r ← body a; match r with inl a' => loop fuel body a' | inr b => mret b end).
Proof. done. Qed.

(** Inverts a run of a bind that returned a value. *)
Lemma bind_Ok {St A B} (m : M St A) (k : A → M St B) s b s' :
  (m ≫= k) s = (Ok b, s') → ∃ a s1, m s = (Ok a, s1) ∧ k a s1 = (Ok b, s').
Proof.
  unfold mbind, M_bind. destruct (m s) as [[a|h] s1]; [eauto|done].
Qed.

(** Every value the computation can return satisfies [Q]. *)
Definition returns {St A} (Q : A → Prop) (m : M St A) : Prop :=
  ∀ s r s', m s = (Ok r, s') → Q r.

Lemma returns_bind {St A B} Q (m : M St A) (k : A → M St B) :
  (∀ a, returns Q (k a)) → returns Q (m ≫= k).
Proof. intros Hk s r s' (a & s1 & _ & H)%bind_Ok. by eapply Hk. Qed.

Lemma returns_bind_with {St A B} R Q (m : M St A) (k : A → M St B) :
  returns R m → (∀ a, R a → returns Q (k a)) → returns Q (m ≫= k).
Proof. intros Hm Hk s r s' (a & s1 & Ha & H)%bind_Ok. eapply Hk; [by eapply Hm|done]. Qed.

Lemma returns_ret {St A} (Q : A → Prop) (a : A) : Q a → returns Q (mret a : M St A).
Proof. by intros H s r s' [= <- <-]. Qed.

Lemma returns_stop {St A} (Q : A → Prop) h : returns Q (stop h : M St A).
Proof. by intros s r s'. Qed.

(** Case analysis on the innermost discriminee of the goal or a hypothesis. *)
Ltac case_hyp H :=
  match type of H with
  | context [match ?x with _ => _ end] => destruct x eqn:?
  end.

(** ** Booleans and integers *)

(** Turns boolean comparisons of the context into propositions. *)
Ltac bool_facts :=
  repeat match goal with
  | H : (_ && _)%bool = true |- _ => apply andb_true_iff in H as [? ?]
  | H : (_ || _)%bool = false |- _ => apply orb_false_iff in H as [? ?]
  | H : negb _ = true |- _ => apply negb_true_iff in H
  | H : negb _ = false |- _ => apply negb_false_iff in H
  | H : (_ =? _)%Z = true |- _ => apply Z.eqb_eq in H
  | H : (_ =? _)%Z = false |- _ => apply Z.eqb_neq in H
  | H : (_ <? _)%Z = true |- _ => apply Z.ltb_lt in H
  | H : (_ <? _)%Z = false |- _ => apply Z.ltb_ge in H
  | H : (_ <=? _)%Z = true |- _ => apply Z.leb_le in H
  | H : (_ <=? _)%Z = false |- _ => apply Z.leb_gt in H
  | H : (_ =? _)%nat = true |- _ => apply Nat.eqb_eq in H
  | H : (_ =? _)%nat = false |- _ => apply Nat.eqb_neq in H
  | H : (_ <? _)%nat = true |- _ => apply Nat.ltb_lt in H
  | H : (_ <? _)%nat = false |- _ => apply Nat.ltb_ge in H
  | H : (_ <=? _)%nat = true |- _ => apply Nat.leb_le in H
  | H : (_ <=? _)%nat = false |- _ => apply Nat.leb_gt in H
  end.

(** [flags & bit] used as a condition *)
Definition has (flags bit : Z) : bool := negb (Z.land flags bit =? 0)%Z.

(** ** Strings *)

(** The characters of a string and back. *)
Fixpoint chars (s : string) : list Ascii.ascii :=
  match s with
  | EmptyString => []
  | String c t => c :: chars t
  end.

Fixpoint of_chars (l : list Ascii.ascii) : string :=
  match l with
  | [] => EmptyString
  | c :: l => String c (of_chars l)
  end.

Lemma chars_of_chars l : chars (of_chars l) = l.
Proof. induction l; simpl; congruence. Qed.

Lemma of_chars_chars s : of_chars (chars s) = s.
Proof. induction s; simpl; congruence. Qed.

Lemma chars_app s t : chars (s +:+ t) = chars s ++ chars t.
Proof.
  induction s as [|c s IH]; [done|].
  change (c :: chars (s +:+ t) = c :: (chars s ++ chars t)). by rewrite IH.
Qed.

Lemma chars_inj s t : chars s = chars t → s = t.
Proof. intros H. by rewrite <- (of_chars_chars s), H, of_chars_chars. Qed.

Lemma length_chars s : length (chars s) = String.length s.
Proof. induction s; simpl; congruence. Qed.

Lemma append_nil_r s : s +:+ "" = s.
Proof. apply chars_inj. by rewrite chars_app, app_nil_r. Qed.

Lemma append_assoc (s t u : string) : s +:+ (t +:+ u) = (s +:+ t) +:+ u.
Proof. apply chars_inj. by rewrite !chars_app, app_assoc. Qed.

Lemma length_append s t :
  String.length (s +:+ t) = (String.length s + String.length t)%nat.
Proof.
  rewrite <- !length_chars. rewrite chars_app. by rewrite length_app.
Qed.

Lemma append_inj_l (s t u : string) : s +:+ t = s +:+ u → t = u.
Proof.
  intros H. apply chars_inj. apply (f_equal chars) in H.
  rewrite !chars_app in H. by apply app_inv_head in H.
Qed.

(** Every character of the string satisfies [p]. *)
Definition all_chars (p : Ascii.ascii → bool) (s : string) : bool :=
  forallb p (chars s).

Lemma all_chars_cons p c s : all_chars p (String c s) = p c && all_chars p s.
Proof. done. Qed.

Lemma all_chars_app p s t :
  all_chars p (s +:+ t) = all_chars p s && all_chars p t.
Proof. unfold all_chars. by rewrite chars_app, forallb_app. Qed.
