(* ===== verification/CLib.v ===== *)
(** What the modelled sources use of C and of its standard library: integer
    widths, character classes, string searches, bounded printing and the
    [strtol] family.

    A C string is the Coq string of its characters before the terminating null
    byte; a pointer into a string is the suffix that starts there, so that
    advancing a pointer is taking a tail and [*p == '\0'] is [p = ""]. *)
From S2P Require Import Prelude.
Local Open Scope Z_scope.

(** ** Integer widths (LP64, as on x86-64 Linux) *)

Definition INT_MIN : Z := - 2 ^ 31.
Definition INT_MAX : Z := 2 ^ 31 - 1.
Definition UINT_MAX : Z := 2 ^ 32 - 1.
Definition LONG_MIN : Z := - 2 ^ 63.
Definition LONG_MAX : Z := 2 ^ 63 - 1.
Definition ULONG_MAX : Z := 2 ^ 64 - 1.
Definition LLONG_MIN : Z := - 2 ^ 63.
Definition LLONG_MAX : Z := 2 ^ 63 - 1.
Definition ULLONG_MAX : Z := 2 ^ 64 - 1.

(** Conversion to an unsigned and to a two's-complement type of [w] bits. *)
Definition to_unsigned (w z : Z) : Z := z mod 2 ^ w.
Definition to_signed (w z : Z) : Z := (z + 2 ^ (w - 1)) mod 2 ^ w - 2 ^ (w - 1).

Lemma to_unsigned_range w z : 0 <= w → 0 <= to_unsigned w z < 2 ^ w.
Proof. intros Hw. apply Z.mod_pos_bound. lia. Qed.

Lemma to_unsigned_small w z : 0 <= z < 2 ^ w → to_unsigned w z = z.
Proof. apply Z.mod_small. Qed.

Lemma to_signed_range w z : 1 <= w → - 2 ^ (w - 1) <= to_signed w z < 2 ^ (w - 1).
Proof.
  intros Hw. unfold to_signed.
  assert (2 ^ w = 2 * 2 ^ (w - 1)) as E.
  { rewrite <- Z.pow_succ_r by lia. f_equal. lia. }
  pose proof (Z.mod_pos_bound (z + 2 ^ (w - 1)) (2 ^ w)). lia.
Qed.

Lemma to_signed_small w z :
  1 <= w → - 2 ^ (w - 1) <= z < 2 ^ (w - 1) → to_signed w z = z.
Proof.
  intros Hw Hz. unfold to_signed.
  assert (2 ^ w = 2 * 2 ^ (w - 1)) as E.
  { rewrite <- Z.pow_succ_r by lia. f_equal. lia. }
  rewrite Z.mod_small; lia.
Qed.

(** ** [errno] values and exit statuses used by the sources *)

Definition EPERM : Z := 1.
Definition ENOENT : Z := 2.
Definition ESRCH : Z := 3.
Definition EINTR : Z := 4.
Definition EBADF : Z := 9.
Definition EAGAIN : Z := 11.
Definition ENOMEM : Z := 12.
Definition EACCES : Z := 13.
Definition EEXIST : Z := 17.
Definition EINVAL : Z := 22.
Definition ESPIPE : Z := 29.
Definition EPIPE : Z := 32.
Definition ERANGE : Z := 34.
Definition ENAMETOOLONG : Z := 36.
Definition ENOSYS : Z := 38.
Definition ENOTSUP : Z := 95.
Definition EXIT_SUCCESS : Z := 0.
Definition EXIT_FAILURE : Z := 1.
Definition PATH_MAX : nat := Z.to_nat 4096.
Definition NAME_MAX : nat := 255.

(** ** Characters *)

Definition code (c : Ascii.ascii) : Z := Z.of_N (Ascii.N_of_ascii c).
Definition newline : Ascii.ascii := Ascii.ascii_of_nat 10.
Definition tab : Ascii.ascii := Ascii.ascii_of_nat 9.
Definition dquote : Ascii.ascii := Ascii.ascii_of_nat 34.
Definition nl : string := String newline "".

Definition isspace (c : Ascii.ascii) : bool :=
  (code c =? 32) || ((9 <=? code c) && (code c <=? 13)).
Definition isdigit (c : Ascii.ascii) : bool := (48 <=? code c) && (code c <=? 57).

(** The value of an alphanumeric digit, as [strtol] reads it; 36 when the
    character is not one. *)
Definition digit_value (c : Ascii.ascii) : Z :=
  let k := code c in
  if (48 <=? k) && (k <=? 57) then k - 48
  else if (97 <=? k) && (k <=? 122) then k - 87
  else if (65 <=? k) && (k <=? 90) then k - 55
  else 36.

Definition is_base_digit (base : Z) (c : Ascii.ascii) : bool :=
  digit_value c <? base.

(** ** Searching and copying *)

(** [strchr(s, c)] for [c] other than the null byte *)
Fixpoint strchr (s : string) (c : Ascii.ascii) : option string :=
  match s with
  | EmptyString => None
  | String d t => if decide (c = d) then Some s else strchr t c
  end.

(** The characters before the first [c]: what remains of [s] once the null byte
    has been stored over that occurrence. *)
Fixpoint before (s : string) (c : Ascii.ascii) : string :=
  match s with
  | EmptyString => EmptyString
  | String d t => if decide (c = d) then EmptyString else String d (before t c)
  end.

(** [*p], with [None] for the null byte *)
Definition deref (p : string) : option Ascii.ascii :=
  match p with EmptyString => None | String c _ => Some c end.

(** [p + 1] *)
Definition advance (p : string) : string :=
  match p with EmptyString => EmptyString | String _ t => t end.

Definition take_str (n : nat) (s : string) : string := of_chars (take n (chars s)).
Definition drop_str (n : nat) (s : string) : string := of_chars (drop n (chars s)).

(** [strncmp(s, t, n) == 0] *)
Definition strncmp_eq (s t : string) (n : nat) : bool :=
  bool_decide (take_str n s = take_str n t).

(** The string left in a buffer of [size > 0] bytes by [snprintf] *)
Definition snprintf (size : nat) (s : string) : string := take_str (size - 1) s.

(** The string in a [size]-byte array after [strncpy(dst, src, size)] *)
Definition strncpy (src : string) (size : nat) : string := take_str size src.

(** ** Printing integers: [%d], [%ld] *)

Definition digit_char (d : Z) : Ascii.ascii :=
  Ascii.ascii_of_N (Z.to_N (48 + d)).

Fixpoint dec_digits (fuel : nat) (n : Z) (acc : string) : string :=
  match fuel with
  | O => acc
  | S fuel =>
      let acc := String (digit_char (n mod 10)) acc in
      if n <? 10 then acc else dec_digits fuel (n / 10) acc
  end.

Definition dec_nonneg (n : Z) : string := dec_digits (S (Z.to_nat (Z.log2 n))) n "".

Definition fmt_d (z : Z) : string :=
  if z <? 0 then "-" +:+ dec_nonneg (- z) else dec_nonneg z.

(** [%4d]: padded with blanks on the left *)
Definition pad_left (w : nat) (s : string) : string :=
  of_chars (replicate (w - String.length s) " "%char) +:+ s.

(** ** The [strtol] family *)

Fixpoint skip_spaces (s : string) : string :=
  match s with
  | EmptyString => EmptyString
  | String c t => if isspace c then skip_spaces t else s
  end.

(** The value of a digit string, most significant digit first, continuing from
    the value [acc] of the digits already read. *)
Fixpoint digits_value (base acc : Z) (s : string) : Z :=
  match s with
  | EmptyString => acc
  | String c t => digits_value base (acc * base + digit_value c) t
  end.

(** The longest prefix of base-[base] digits and what follows it. *)
Fixpoint span_digits (base : Z) (s : string) : string * string :=
  match s with
  | EmptyString => ("", "")
  | String c t =>
      if is_base_digit base c
      then let '(ds, rest) := span_digits base t in (String c ds, rest)
      else ("", s)
  end.

(** The optional sign. *)
Definition split_sign (s : string) : bool * string :=
  match s with
  | String c t =>
      if decide (c = "-"%char) then (true, t)
      else if decide (c = "+"%char) then (false, t)
      else (false, s)
  | EmptyString => (false, s)
  end.

(** Does a hexadecimal prefix start here? The [x] counts only when a hexadecimal
    digit follows it. *)
Definition hex_prefix (s : string) : option string :=
  match s with
  | String z (String x t) =>
      match t with
      | String d _ =>
          if decide (z = "0"%char) then
            if decide (x = "x"%char ∨ x = "X"%char) then
              if is_base_digit 16 d then Some t else None
            else None
          else None
      | EmptyString => None
      end
  | _ => None
  end.

(** Resolves base 0 and the hexadecimal prefix: the base to read the digits in
    and the position of the first digit. *)
Definition resolve_base (base : Z) (s : string) : Z * string :=
  match (if (base =? 0) || (base =? 16) then hex_prefix s else None) with
  | Some t => (16, t)
  | None =>
      if base =? 0 then
        match s with
        | String c _ => if decide (c = "0"%char) then (8, s) else (10, s)
        | EmptyString => (10, s)
        end
      else (base, s)
  end.

(** The subject sequence: its sign, its magnitude and the position after it;
    [None] when no digit was found. *)
Definition strto_scan (s : string) (base : Z) : option (bool * Z * string) :=
  let '(neg, body) := split_sign (skip_spaces s) in
  let '(b, p) := resolve_base base body in
  let '(ds, rest) := span_digits b p in
  match ds with
  | EmptyString => None
  | _ => Some (neg, digits_value b 0 ds, rest)
  end.

(** [strtoll(s, &endptr, base)]: the value, [endptr] and the value left in
    [errno] (0 when the call succeeds). *)
Definition strtoll (s : string) (base : Z) : Z * string * Z :=
  match strto_scan s base with
  | None => (0, s, 0)
  | Some (neg, mag, rest) =>
      let v := if neg then - mag else mag in
      if v <? LLONG_MIN then (LLONG_MIN, rest, ERANGE)
      else if LLONG_MAX <? v then (LLONG_MAX, rest, ERANGE)
      else (v, rest, 0)
  end.

(** [strtoull]: a magnitude that fits is negated in the unsigned type when a
    minus sign precedes it. *)
Definition strtoull (s : string) (base : Z) : Z * string * Z :=
  match strto_scan s base with
  | None => (0, s, 0)
  | Some (neg, mag, rest) =>
      if ULLONG_MAX <? mag then (ULLONG_MAX, rest, ERANGE)
      else (to_unsigned 64 (if neg then - mag else mag), rest, 0)
  end.

(** [atoi]: [(int) strtol(s, NULL, 10)], as glibc defines it *)
Definition atoi (s : string) : Z := let '(v, _, _) := strtoll s 10 in to_signed 32 v.

(** ** Lemmas on strings *)

Lemma append_cons c s t : String c s +:+ t = String c (s +:+ t).
Proof. done. Qed.

Lemma strchr_before s c p :
  strchr s c = Some p → s = before s c +:+ p ∧ ∃ q, p = String c q.
Proof.
  induction s as [|d s IH]; simpl; [done|].
  destruct (decide (c = d)) as [->|Hne].
  - intros [= <-]. split; [done|by eexists].
  - intros H. destruct (IH H) as [Hs Hq]. split; [|done].
    by rewrite append_cons, <- Hs.
Qed.

Lemma strchr_None_before s c : strchr s c = None → before s c = s.
Proof.
  induction s as [|d s IH]; simpl; [done|]. case_decide; [done|].
  intros Hs. by rewrite IH.
Qed.

Lemma skip_spaces_split s :
  ∃ ws, s = ws +:+ skip_spaces s ∧ all_chars isspace ws = true.
Proof.
  induction s as [|c s (ws & Hs & Hw)]; simpl; [by exists ""|].
  destruct (isspace c) eqn:E.
  - exists (String c ws). rewrite append_cons, <- Hs, all_chars_cons, E. done.
  - by exists "".
Qed.

Lemma skip_spaces_app ws t :
  all_chars isspace ws = true → skip_spaces (ws +:+ t) = skip_spaces t.
Proof.
  induction ws as [|c ws IH]; [done|]. rewrite all_chars_cons, append_cons.
  simpl. intros [-> Hw]%andb_true_iff. by apply IH.
Qed.

Lemma span_digits_split b s ds rest :
  span_digits b s = (ds, rest) →
  s = ds +:+ rest ∧ all_chars (is_base_digit b) ds = true.
Proof.
  revert ds rest. induction s as [|c s IH]; intros ds rest; simpl.
  { by intros [= <- <-]. }
  destruct (is_base_digit b c) eqn:E; [|by intros [= <- <-]].
  destruct (span_digits b s) as [ds' rest'] eqn:E'. intros [= <- <-].
  destruct (IH _ _ eq_refl) as [-> ?].
  by rewrite append_cons, all_chars_cons, E.
Qed.

Lemma span_digits_all b s :
  all_chars (is_base_digit b) s = true → span_digits b s = (s, "").
Proof.
  induction s as [|c s IH]; [done|]. rewrite all_chars_cons. simpl.
  intros [-> Hs]%andb_true_iff. by rewrite IH.
Qed.

(** ** The numerals the [strtol] family accepts *)

Definition valid_base (base : Z) : Prop :=
  base = 0 ∨ base = 8 ∨ base = 10 ∨ base = 16.

Definition digits_of (b : Z) (s : string) (mag : Z) : Prop :=
  s ≠ "" ∧ all_chars (is_base_digit b) s = true ∧ mag = digits_value b 0 s.

Definition starts_with (c : ascii) (s : string) : Prop := ∃ t, s = String c t.

(** [body] is a numeral without sign, of magnitude [mag], when read in [base]. *)
Definition magnitude (base : Z) (body : string) (mag : Z) : Prop :=
  (∃ x t, (base = 0 ∨ base = 16) ∧ body = String "0" (String x t) ∧
          (x = "x"%char ∨ x = "X"%char) ∧ digits_of 16 t mag) ∨
  (base ≠ 0 ∧ digits_of base body mag) ∨
  (base = 0 ∧ starts_with "0" body ∧ digits_of 8 body mag) ∨
  (base = 0 ∧ ¬ starts_with "0" body ∧ digits_of 10 body mag).

Definition sign_of (neg : bool) (sg : string) : Prop :=
  if neg then sg = "-" else sg = "" ∨ sg = "+".

(** [s] is white space, a sign and a numeral: nothing precedes or follows. *)
Definition numeral (base : Z) (s : string) (neg : bool) (mag : Z) : Prop :=
  ∃ ws sg body, s = ws +:+ sg +:+ body ∧ all_chars isspace ws = true ∧
    sign_of neg sg ∧ magnitude base body mag.

Lemma digit_value_range b c :
  b <= 36 → is_base_digit b c = true → isspace c = false ∧ c ≠ "-"%char ∧ c ≠ "+"%char.
Proof.
  intros Hb. unfold is_base_digit, digit_value, isspace. intros H%Z.ltb_lt.
  split_and!.
  - destruct ((48 <=? code c) && (code c <=? 57)) eqn:E1; [bool_facts; lia|].
    destruct ((97 <=? code c) && (code c <=? 122)) eqn:E2; [bool_facts; lia|].
    destruct ((65 <=? code c) && (code c <=? 90)) eqn:E3; bool_facts; lia.
  - intros ->. change (36 < b) in H. lia.
  - intros ->. change (36 < b) in H. lia.
Qed.

Lemma split_sign_split s neg body :
  split_sign s = (neg, body) → ∃ sg, s = sg +:+ body ∧ sign_of neg sg.
Proof.
  destruct s as [|c s]; simpl; [intros [= <- <-]; exists ""; simpl; auto|].
  repeat case_decide; intros [= <- <-]; subst.
  - by exists "-".
  - exists "+"; simpl; auto.
  - exists ""; simpl; auto.
Qed.

Lemma hex_prefix_Some s t :
  hex_prefix s = Some t ↔
  ∃ x d u, s = String "0" (String x t) ∧ (x = "x"%char ∨ x = "X"%char) ∧
    t = String d u ∧ is_base_digit 16 d = true.
Proof.
  split.
  - destruct s as [|z [|x [|d u]]]; simpl; try done.
    repeat case_decide; try done. destruct (is_base_digit 16 d) eqn:E; [|done].
    intros [= <-]. subst. by exists x, d, u.
  - intros (x & d & u & -> & Hx & -> & Hd). simpl.
    rewrite decide_True by done. by rewrite Hd.
Qed.

Lemma digits_of_head b s mag :
  b <= 36 → digits_of b s mag →
  ∃ c t, s = String c t ∧ isspace c = false ∧ c ≠ "-"%char ∧ c ≠ "+"%char.
Proof.
  intros Hb (Hs & Hd & _). destruct s as [|c t]; [done|].
  rewrite all_chars_cons in Hd. apply andb_true_iff in Hd as [Hc _].
  exists c, t. split; [done|]. by apply (digit_value_range b).
Qed.

Lemma magnitude_head base body mag :
  valid_base base → magnitude base body mag →
  ∃ c t, body = String c t ∧ isspace c = false ∧ c ≠ "-"%char ∧ c ≠ "+"%char.
Proof.
  intros Hb [(x & t & _ & -> & _)|[[_ H]|[(_ & _ & H)|(_ & _ & H)]]].
  - exists "0"%char, (String x t). by split_and!.
  - eapply digits_of_head; [|done]. unfold valid_base in Hb. lia.
  - eapply digits_of_head; [|done]. lia.
  - eapply digits_of_head; [|done]. lia.
Qed.

(** Reading the digits at the position and in the base [resolve_base] finds
    accepts exactly the numerals without sign. *)
Lemma resolve_base_magnitude base body b p mag :
  valid_base base → resolve_base base body = (b, p) →
  digits_of b p mag ↔ magnitude base body mag.
Proof.
  intros Hb. unfold resolve_base.
  destruct (if (base =? 0) || (base =? 16) then hex_prefix body else None)
    as [t|] eqn:Ehex.
  - destruct ((base =? 0) || (base =? 16)) eqn:E0; [|done].
    apply hex_prefix_Some in Ehex as (x & d & u & -> & Hx & -> & Hd).
    intros [= <- <-]. split.
    + intros H. left. exists x, (String d u). split_and!; try done. lia.
    + assert (∀ b, b <= 16 → ¬ digits_of b (String "0" (String x (String d u))) mag) as Hno.
      { intros b Hb' (_ & Hall & _). rewrite !all_chars_cons in Hall.
        apply andb_true_iff in Hall as [_ [Hall _]%andb_true_iff].
        unfold is_base_digit in Hall. destruct Hx as [-> | ->];
          apply Z.ltb_lt in Hall; change (33 < b) in Hall; lia. }
      intros [(x' & t' & _ & [= <- <-] & _ & H)|[[_ H]|[(_ & _ & H)|(_ & _ & H)]]];
        [done|exfalso; eapply Hno; [|exact H]; unfold valid_base in Hb; lia..].
  - assert (∀ x t, (base = 0 ∨ base = 16) → body = String "0" (String x t) →
      (x = "x"%char ∨ x = "X"%char) → ¬ digits_of 16 t mag) as Hno.
    { intros x t Hb' -> Hx (Ht & Hall & _). destruct t as [|d u]; [done|].
      rewrite all_chars_cons in Hall. apply andb_true_iff in Hall as [Hd _].
      replace ((base =? 0) || (base =? 16)) with true in Ehex by lia.
      assert (hex_prefix (String "0" (String x (String d u))) = Some (String d u)) as E.
      { apply hex_prefix_Some. by exists x, d, u. }
      congruence. }
    destruct (base =? 0) eqn:E0; bool_facts.
    + subst base. destruct body as [|c t].
      { intros [= <- <-]. split; [by intros [? _]|].
        intros H. by apply magnitude_head in H as (? & ? & ? & _). }
      destruct (decide (c = "0"%char)) as [->|Hc]; intros [= <- <-].
      * split.
        -- intros H. right; right; left. split_and!; [done|by eexists|done].
        -- intros [(x & t' & Hb' & [= ->] & Hx & H)|[[? _]|[(_ & _ & H)|(_ & H & _)]]];
             [by destruct (Hno x t')|done|done|]. destruct H. by eexists.
      * split.
        -- intros H. right; right; right. split_and!; [done| |done].
           by intros [? [= ?]].
        -- intros [(x & t' & _ & [= Hx0 Ht0] & _)|[[Hz _]|[(_ & [u [= Hu _]] & _)|(_ & _ & Hd)]]];
             done.
    + intros [= <- <-]. split.
      * intros H. right; left. done.
      * intros [(x & t & Hb' & ? & Hx & H)|[[_ H]|[(? & _)|(? & _)]]]; [|done..].
        by destruct (Hno x t).
Qed.

(** [strto_scan] consumes its whole argument exactly on numerals. *)
Lemma strto_scan_numeral s base neg mag :
  valid_base base → strto_scan s base = Some (neg, mag, "") ↔ numeral base s neg mag.
Proof.
  intros Hb. unfold strto_scan, numeral. split.
  - destruct (split_sign (skip_spaces s)) as [neg' body] eqn:Esign.
    destruct (resolve_base base body) as [b p] eqn:Eb.
    destruct (span_digits b p) as [ds rest] eqn:Ed. destruct ds as [|d ds]; [done|].
    intros [= -> <- ->].
    apply span_digits_split in Ed as [-> Hall]. rewrite append_nil_r in Eb.
    destruct (skip_spaces_split s) as (ws & Hs & Hws).
    apply split_sign_split in Esign as (sg & Hsg & Hneg).
    exists ws, sg, body. rewrite Hs at 1. rewrite Hsg. split_and!; try done.
    eapply resolve_base_magnitude; [done..|]. by repeat split.
  - intros (ws & sg & body & -> & Hws & Hsg & Hm).
    destruct (magnitude_head _ _ _ Hb Hm) as (c & t & -> & Hsp & Hm1 & Hp1).
    rewrite skip_spaces_app by done.
    assert (split_sign (skip_spaces (sg +:+ String c t)) = (neg, String c t)) as ->.
    { destruct neg; simpl in Hsg; [subst sg; done|].
      destruct Hsg as [-> | ->]; [|done]. simpl. rewrite Hsp. simpl.
      by rewrite !decide_False. }
    destruct (resolve_base base (String c t)) as [b p] eqn:Eb.
    eapply resolve_base_magnitude in Eb as Em; [|done]. apply Em in Hm.
    destruct Hm as (Hne & Hall & ->). rewrite span_digits_all by done.
    by destruct p.
Qed.

(** ** Decimal printing is read back by [strtol] *)

Lemma digits_value_app b acc s t :
  digits_value b acc (s +:+ t) = digits_value b (digits_value b acc s) t.
Proof.
  revert acc. induction s as [|c s IH]; intros acc; [done|].
  rewrite append_cons. simpl. apply IH.
Qed.

Lemma digit_char_value d :
  0 <= d < 10 → digit_value (digit_char d) = d ∧ is_base_digit 10 (digit_char d) = true.
Proof.
  intros Hd.
  assert (d = 0 ∨ d = 1 ∨ d = 2 ∨ d = 3 ∨ d = 4 ∨ d = 5 ∨ d = 6 ∨ d = 7 ∨
          d = 8 ∨ d = 9) as Hcases by lia.
  destruct_or! Hcases; subst d; by split.
Qed.

Lemma dec_digits_spec fuel n acc :
  0 <= n < 2 ^ Z.of_nat fuel → (0 < fuel)%nat →
  ∃ ds, dec_digits fuel n acc = ds +:+ acc ∧ digits_of 10 ds n.
Proof.
  revert n acc. induction fuel as [|fuel IH]; intros n acc Hn Hf; [lia|].
  simpl. pose proof (Z.mod_pos_bound n 10).
  destruct (digit_char_value (n mod 10)) as [Hv Hd]; [lia|].
  destruct (n <? 10) eqn:E; bool_facts.
  - exists (String (digit_char (n mod 10)) ""). split; [done|].
    split_and!; [done|by rewrite all_chars_cons, Hd|].
    cbn [digits_value]. rewrite Hv, Z.mod_small by lia. lia.
  - assert (0 < fuel)%nat as Hf' by (destruct fuel; simpl in Hn; lia).
    destruct (IH (n / 10) (String (digit_char (n mod 10)) acc)) as (ds & -> & Hds & Hall & Hval).
    { rewrite Nat2Z.inj_succ, Z.pow_succ_r in Hn by lia.
      pose proof (Z.div_mod n 10). split; [apply Z.div_pos; lia|].
      apply Z.div_lt_upper_bound; lia. }
    { done. }
    exists (ds +:+ String (digit_char (n mod 10)) "").
    split; [by rewrite <- append_assoc|]. split_and!.
    + intros E'. apply (f_equal chars) in E'. rewrite chars_app in E'.
      by apply app_eq_nil in E' as [_ ?].
    + by rewrite all_chars_app, all_chars_cons, Hd, Hall.
    + rewrite digits_value_app, <- Hval. cbn [digits_value]. rewrite Hv.
      pose proof (Z.div_mod n 10). lia.
Qed.

Lemma dec_nonneg_spec n : 0 <= n → digits_of 10 (dec_nonneg n) n.
Proof.
  intros Hn. unfold dec_nonneg.
  destruct (dec_digits_spec (S (Z.to_nat (Z.log2 n))) n "") as (ds & -> & H).
  - split; [done|]. rewrite Nat2Z.inj_succ, Z2Nat.id by apply Z.log2_nonneg.
    destruct (decide (n = 0)) as [-> | Hne]; [done|].
    apply Z.log2_spec. lia.
  - lia.
  - by rewrite append_nil_r.
Qed.

Lemma fmt_d_numeral z : numeral 10 (fmt_d z) (z <? 0) (Z.abs z).
Proof.
  unfold fmt_d. destruct (z <? 0) eqn:E; bool_facts.
  - exists "", "-", (dec_nonneg (- z)). split_and!; try done.
    right; left. split; [lia|]. replace (Z.abs z) with (- z) by lia.
    apply dec_nonneg_spec. lia.
  - exists "", "", (dec_nonneg z). split_and!; try done; [by left|].
    right; left. split; [lia|]. rewrite Z.abs_eq by lia.
    apply dec_nonneg_spec. lia.
Qed.

(** A numeral followed by a character that is not a digit is read up to that
    character. *)
Lemma fmt_d_inj z z' : fmt_d z = fmt_d z' → z = z'.
Proof.
  intros E. pose proof (fmt_d_numeral z) as H. pose proof (fmt_d_numeral z') as H'.
  apply strto_scan_numeral in H, H'; try (by right; right; left).
  rewrite E, H' in H. injection H as Hn Ha.
  destruct (z <? 0) eqn:E1, (z' <? 0) eqn:E2; bool_facts; lia.
Qed.

Lemma dec_digits_length fuel n acc k :
  0 <= n < 10 ^ Z.of_nat k → (0 < k)%nat →
  (String.length (dec_digits fuel n acc) <= k + String.length acc)%nat.
Proof.
  revert n acc k. induction fuel as [|fuel IH]; intros n acc k Hn Hk; simpl; [lia|].
  destruct (Z.ltb_spec n 10); simpl; [lia|].
  destruct k as [|[|k]]; [lia|simpl in Hn; lia|].
  specialize (IH (n / 10) (String (digit_char (n mod 10)) acc) (S k)). simpl String.length in IH.
  enough (0 <= n / 10 < 10 ^ Z.of_nat (S k)) by (specialize (IH ltac:(done)); lia).
  rewrite Nat2Z.inj_succ, Z.pow_succ_r in Hn by lia.
  split; [apply Z.div_pos; lia|apply Z.div_lt_upper_bound; lia].
Qed.

(** A 64-bit integer prints as at most 20 characters. *)
Lemma fmt_d_length z : LONG_MIN <= z <= LONG_MAX → (String.length (fmt_d z) <= 20)%nat.
Proof.
  intros Hz. change LONG_MIN with (- 2 ^ 63) in Hz. change LONG_MAX with (2 ^ 63 - 1) in Hz.
  unfold fmt_d, dec_nonneg. destruct (Z.ltb_spec z 0); [rewrite length_append|].
  all: match goal with |- context [dec_digits ?f ?n ""] =>
    pose proof (dec_digits_length f n "" 19 ltac:(lia) ltac:(lia)) end; simpl in *; lia.
Qed.

Lemma span_digits_app b ds c t :
  all_chars (is_base_digit b) ds = true → is_base_digit b c = false →
  span_digits b (ds +:+ String c t) = (ds, String c t).
Proof.
  intros Hall Hc. induction ds as [|d ds IH]; [simpl; by rewrite Hc|].
  rewrite all_chars_cons in Hall. apply andb_true_iff in Hall as [Hd Hall].
  rewrite append_cons. simpl. by rewrite Hd, IH.
Qed.

Lemma isspace_not_digit c : isspace c = true → is_base_digit 10 c = false.
Proof.
  intros H. destruct (is_base_digit 10 c) eqn:E; [|done].
  apply digit_value_range in E as [E _]; [congruence|lia].
Qed.

Lemma strto_scan_dec pre sg n c t :
  all_chars isspace pre = true → sg = "" ∨ sg = "+" ∨ sg = "-" →
  0 <= n → isspace c = true →
  strto_scan (pre +:+ sg +:+ dec_nonneg n +:+ String c t) 10 =
    Some (bool_decide (sg = "-"), n, String c t).
Proof.
  intros Hpre Hsg Hn Hc. unfold strto_scan. rewrite skip_spaces_app by done.
  destruct (dec_nonneg_spec n Hn) as (Hne & Hall & Hval).
  destruct (digits_of_head 10 (dec_nonneg n) n) as (d & u & Hd & Hsp & Hm & Hp);
    [lia|by repeat split|].
  assert (split_sign (skip_spaces (sg +:+ dec_nonneg n +:+ String c t)) =
    (bool_decide (sg = "-"), dec_nonneg n +:+ String c t)) as ->.
  { rewrite Hd. rewrite !append_cons. destruct Hsg as [-> | [-> | ->]]; [|done..].
    simpl. rewrite Hsp. simpl. by rewrite !decide_False. }
  simpl. rewrite span_digits_app by (done || by apply isspace_not_digit).
  destruct (dec_nonneg n); [done|]. by rewrite <- Hval.
Qed.

(** ** Bounded copies *)

Lemma length_take_str n s : String.length (take_str n s) = Nat.min n (String.length s).
Proof. unfold take_str. by rewrite <- !length_chars, chars_of_chars, length_take. Qed.

Lemma take_str_ge n s : (String.length s <= n)%nat → take_str n s = s.
Proof.
  intros H. unfold take_str. rewrite take_ge by (by rewrite length_chars).
  apply of_chars_chars.
Qed.

Lemma snprintf_bound size s :
  (0 < size)%nat → (String.length (snprintf size s) < size)%nat.
Proof. intros H. unfold snprintf. rewrite length_take_str. lia. Qed.

Lemma snprintf_fits size s : (String.length s < size)%nat → snprintf size s = s.
Proof. intros H. apply take_str_ge. lia. Qed.

Lemma take_str_app_ge n s t :
  (String.length s <= n)%nat →
  take_str n (s +:+ t) = s +:+ take_str (n - String.length s) t.
Proof.
  intros H. apply chars_inj. unfold take_str.
  rewrite chars_app, !chars_of_chars, chars_app, take_app, length_chars.
  rewrite (take_ge (chars s)) by (by rewrite length_chars). by rewrite chars_of_chars.
Qed.

(** ** Splitting at a character *)

Definition no_char (x c : ascii) : bool := bool_decide (c ≠ x).

Lemma all_chars_impl (p q : ascii → bool) s :
  (∀ c, p c = true → q c = true) → all_chars p s = true → all_chars q s = true.
Proof.
  intros H. induction s as [|c s IH]; [done|]. rewrite !all_chars_cons.
  intros [Hc Hs]%andb_true_iff. by rewrite (H c Hc), IH.
Qed.

Lemma strchr_skip x s r :
  all_chars (no_char x) s = true →
  strchr (s +:+ r) x = strchr r x ∧ before (s +:+ r) x = s +:+ before r x.
Proof.
  induction s as [|c s IH]; [done|]. rewrite all_chars_cons.
  intros [Hc Hs]%andb_true_iff. rewrite append_cons. simpl. unfold no_char in Hc.
  apply bool_decide_eq_true in Hc. rewrite !decide_False by done.
  destruct (IH Hs) as [-> ->]. done.
Qed.

(** The string up to the character is ended by it, or has none. *)
Lemma strchr_split x s :
  (strchr s x = None ∧ all_chars (no_char x) s = true) ∨
  ∃ t r, s = t +:+ String x r ∧ all_chars (no_char x) t = true ∧
    strchr s x = Some (String x r) ∧ before s x = t.
Proof.
  induction s as [|c s IH]; [by left|]. simpl. destruct (decide (x = c)) as [->|Hne].
  - right. by exists "", s.
  - assert (Hc : no_char x c = true) by (apply bool_decide_eq_true; congruence).
    destruct IH as [[H1 H2]|(t & r & -> & Ht & -> & ->)].
    + left. split; [done|]. by rewrite all_chars_cons, Hc.
    + right. exists (String c t), r. split_and!; [done| |done|done]. by rewrite all_chars_cons, Hc.
Qed.

Lemma strchr_at x t r :
  all_chars (no_char x) t = true →
  strchr (t +:+ String x r) x = Some (String x r) ∧ before (t +:+ String x r) x = t.
Proof.
  intros Ht. destruct (strchr_skip x t (String x r) Ht) as [-> ->]. simpl.
  rewrite !decide_True by done. by rewrite append_nil_r.
Qed.

Lemma strchr_none x t :
  all_chars (no_char x) t = true → strchr t x = None ∧ before t x = t.
Proof.
  intros Ht. destruct (strchr_skip x t "" Ht) as [H1 H2]. rewrite !append_nil_r in *. done.
Qed.

(** A printed number has only digits and a sign. *)
Lemma fmt_d_without c n :
  is_base_digit 10 c = false → c ≠ "-"%char → all_chars (no_char c) (fmt_d n) = true.
Proof.
  intros Hc Hm. assert (Hd : ∀ k, 0 <= k → all_chars (no_char c) (dec_nonneg k) = true).
  { intros k Hk. destruct (dec_nonneg_spec k Hk) as (_ & Hd & _). eapply all_chars_impl; [|exact Hd].
    intros d H. apply bool_decide_eq_true. intros ->. congruence. }
  unfold fmt_d. destruct (Z.ltb_spec n 0); [|by apply Hd].
  change ("-" +:+ dec_nonneg (- n)) with (String "-" (dec_nonneg (- n))).
  rewrite all_chars_cons, Hd by lia. rewrite andb_true_r. apply bool_decide_eq_true. done.
Qed.


(** Strings with commas between them. *)
Fixpoint join_commas (ts : list string) : string :=
  match ts with
  | [] => ""
  | [t] => t
  | t :: ts => t +:+ String "," (join_commas ts)
  end.

Lemma join_commas_cons t ts :
  ts ≠ [] → join_commas (t :: ts) = t +:+ String "," (join_commas ts).
Proof. by destruct ts. Qed.

(** ** Bytes of integers *)

(** The [n] bytes of a little-endian integer, in two's complement, and the
    unsigned integer of some bytes. *)
Fixpoint le (n : nat) (v : Z) : list Z :=
  match n with
  | O => []
  | S n => v mod 256 :: le n (v / 256)
  end.
Fixpoint unle (l : list Z) : Z :=
  match l with
  | [] => 0
  | b :: l => b + 256 * unle l
  end.

Lemma length_le n v : length (le n v) = n.
Proof. revert v. induction n as [|n IH]; intros v; simpl; [done|]. by rewrite IH. Qed.

Lemma unle_app l l' : unle (l ++ l') = unle l + 256 ^ Z.of_nat (length l) * unle l'.
Proof.
  induction l as [|b l IH]; cbn [unle app length]; [lia|].
  rewrite IH, Nat2Z.inj_succ, Z.pow_succ_r by lia. lia.
Qed.

Lemma unle_le n v : unle (le n v) = v mod 256 ^ Z.of_nat n.
Proof.
  revert v. induction n as [|n IH]; intros v; cbn [le unle].
  - by rewrite Z.mod_1_r.
  - rewrite IH, Nat2Z.inj_succ, Z.pow_succ_r by lia.
    rewrite Z.rem_mul_r by lia. done.
Qed.

Definition is_int (z : Z) : Prop := INT_MIN <= z <= INT_MAX.

Lemma int_back n : is_int n → to_signed 32 (unle (le 4 n)) = n.
Proof.
  intros Hn. rewrite unle_le. change (256 ^ Z.of_nat 4) with (2 ^ 32).
  unfold to_signed. rewrite Zplus_mod_idemp_l. apply (to_signed_small 32); [lia|].
  unfold is_int, INT_MIN, INT_MAX in Hn. lia.
Qed.
