(* ===== verification/GetNum.v ===== *)
(** Numeric command-line arguments: [lib/get_num.c], whose functions print a
    diagnostic and terminate on a bad argument, and [lib/tryGet_num.c], whose
    functions report a status instead.

    A [char *] argument is an [option string], [None] being the null pointer;
    an output pointer is an [option Z], [None] being the null pointer and
    [Some v] a cell holding [v]. *)
From S2P Require Import Prelude CLib.
Local Open Scope Z_scope.

(** ** Flags of [tlpi_hdr.h] (octal in the source) *)

Definition GN_NONNEG : Z := 1.
Definition GN_GT_0 : Z := 2.
Definition TGN_IGN_TRAILGB : Z := 8.
Definition TGN_IGN_TRAILWS : Z := 16.
Definition GN_ANY_BASE : Z := 64.
Definition GN_BASE_8 : Z := 128.
Definition GN_BASE_16 : Z := 256.

Inductive tgn_t := TGN_SUCCESS | TGN_FAILURE.

#[global] Instance tgn_t_eq_dec : EqDecision tgn_t.
Proof. solve_decision. Defined.

(** The process state these functions touch. *)
Record nst := NSt { errno : Z; stderr : string }.

Definition set_errno (e : Z) (s : nst) : nst := NSt e s.(stderr).
Definition print_err (t : string) (s : nst) : nst := NSt s.(errno) (s.(stderr) +:+ t).

(** ** The fatal variants, [lib/get_num.c] *)

Definition diag_head (fname : string) (name : option string) (msg : string) : string :=
  fname +:+ " error" +:+
  match name with Some n => " (in " +:+ n +:+ ")" | None => "" end +:+
  ": " +:+ msg +:+ nl.

Definition gnFail {A} (fname msg : string) (arg name : option string) : M nst A :=
  modify (print_err (diag_head fname name msg));;
  modify (print_err
    match arg with
    | Some (String c a) => "        offending text: " +:+ String c a +:+ nl
    | _ => ""
    end);;
  stop (HExit EXIT_FAILURE).

(** [base = (flags & GN_ANY_BASE) ? 0 : ...] *)
Definition base_of (flags : Z) : Z :=
  if has flags GN_ANY_BASE then 0
  else if has flags GN_BASE_8 then 8
  else if has flags GN_BASE_16 then 16
  else 10.

(** [errno = 0], the call, and [errno] as the call leaves it. *)
Definition call_strto (r : Z * string * Z) : M nst (Z * string) :=
  modify (set_errno 0);;
  let '(v, endptr, e) := r in
  when (negb (e =? 0)) (modify (set_errno e));;
  mret (v, endptr).

Definition getNum (fname : string) (arg : option string) (flags : Z)
    (name : option string) : M nst Z :=
  match arg with
  | None | Some EmptyString => gnFail fname "null or empty string" arg name
  | Some a =>
      let base := base_of flags in
      '(res, endptr) ← call_strto (strtoll a base);
      e ← gets errno;
      if negb (e =? 0) then gnFail fname "strtol() failed" arg name
      else if bool_decide (endptr ≠ "") then
        gnFail fname "nonnumeric characters" arg name
      else if has flags GN_NONNEG && (res <? 0) then
        gnFail fname "negative value not allowed" arg name
      else if has flags GN_GT_0 && (res <=? 0) then
        gnFail fname "value must be > 0" arg name
      else mret res
  end.

Definition getLLong (arg : option string) (flags : Z) (name : option string) : M nst Z :=
  getNum "getLLong" arg flags name.

Definition getLong (arg : option string) (flags : Z) (name : option string) : M nst Z :=
  res ← getNum "getLong" arg flags name;
  if (LONG_MAX <? res) || (res <? LONG_MIN)
  then gnFail "getLong" "long integer out of range" arg name
  else mret (to_signed 64 res).

Definition getInt (arg : option string) (flags : Z) (name : option string) : M nst Z :=
  res ← getNum "getInt" arg flags name;
  if (INT_MAX <? res) || (res <? INT_MIN)
  then gnFail "getInt" "integer out of range" arg name
  else mret (to_signed 32 res).

(** ** The status-returning variants, [lib/tryGet_num.c] *)

Fixpoint hasNonWhitespace (ptr : string) : bool :=
  match ptr with
  | EmptyString => false
  | String c ptr => if negb (isspace c) then true else hasNonWhitespace ptr
  end.

Definition gnWarn (fname msg : string) (arg name : option string) : M nst unit :=
  modify (print_err (diag_head fname name msg));;
  modify (print_err
    match arg with
    | Some (String c a) =>
        String tab ("offending text: " +:+ String dquote (String c a +:+ String dquote nl))
    | _ => ""
    end).

Section tryGet.
(** [strerror(3)]: the message text for an error number. *)
Context (strerror : Z → string).

(** The value transported by [privres_t]: its [pr_u] member when
    [is_unsigned], its [pr_s] member otherwise; [None] when [*out] was not
    written. *)
Definition tryGetNum (fname : string) (arg : option string) (flags : Z)
    (name : option string) (is_unsigned : bool) : M nst (tgn_t * option Z) :=
  match arg with
  | None | Some EmptyString =>
      gnWarn fname "null or empty string" arg name;;
      mret (TGN_FAILURE, None)
  | Some a =>
      if is_unsigned && bool_decide (deref a = Some "-"%char) then
        gnWarn fname "negative value not allowed for unsigned type" arg name;;
        mret (TGN_FAILURE, None)
      else
        let base := base_of flags in
        '(res, endptr) ← call_strto
          (if is_unsigned then strtoull a base else strtoll a base);
        e ← gets errno;
        exception ←
          (if negb (e =? 0) then
             gnWarn fname (strerror e) arg name;; mret true
           else if bool_decide (endptr = a) then
             gnWarn fname "no digits found" arg name;; mret true
           else if bool_decide (endptr ≠ "") && negb (has flags TGN_IGN_TRAILGB) then
             if negb (has flags TGN_IGN_TRAILWS) || hasNonWhitespace endptr then
               gnWarn fname "nonnumeric characters" arg name;; mret true
             else mret false
           else if negb is_unsigned then
             if has flags GN_NONNEG && (res <? 0) then
               gnWarn fname "negative value not allowed" arg name;; mret true
             else if has flags GN_GT_0 && (res <=? 0) then
               gnWarn fname "value must be > 0" arg name;; mret true
             else mret false
           else mret false);
        if (exception : bool) then mret (TGN_FAILURE, None)
        else mret (TGN_SUCCESS, Some res)
  end.

(** The cell [*out] after a successful call: unchanged when [out == NULL]. *)
Definition store (out : option Z) (v : Z) : option Z :=
  match out with None => None | Some _ => Some v end.

Definition tryGetLLong (arg : option string) (flags : Z) (name : option string)
    (out : option Z) : M nst (tgn_t * option Z) :=
  '(status, temp) ← tryGetNum "tryGetLLong" arg flags name false;
  match status, temp with
  | TGN_SUCCESS, Some t => mret (status, store out t)
  | _, _ => mret (status, out)
  end.

Definition tryGetLong (arg : option string) (flags : Z) (name : option string)
    (out : option Z) : M nst (tgn_t * option Z) :=
  '(status, temp) ← tryGetNum "tryGetLong" arg flags name false;
  match status, temp with
  | TGN_SUCCESS, Some t =>
      if (LONG_MAX <? t) || (t <? LONG_MIN) then
        gnWarn "tryGetLong" "value out of range for 'long'" arg name;;
        mret (TGN_FAILURE, out)
      else mret (status, store out (to_signed 64 t))
  | _, _ => mret (status, out)
  end.

Definition tryGetInt (arg : option string) (flags : Z) (name : option string)
    (out : option Z) : M nst (tgn_t * option Z) :=
  '(status, temp) ← tryGetNum "tryGetInt" arg flags name false;
  match status, temp with
  | TGN_SUCCESS, Some t =>
      if (INT_MAX <? t) || (t <? INT_MIN) then
        gnWarn "tryGetInt" "value out of range for 'int'" arg name;;
        mret (TGN_FAILURE, out)
      else mret (status, store out (to_signed 32 t))
  | _, _ => mret (status, out)
  end.

Definition tryGetULLong (arg : option string) (flags : Z) (name : option string)
    (out : option Z) : M nst (tgn_t * option Z) :=
  '(status, temp) ← tryGetNum "tryGetLLong" arg flags name true;
  match status, temp with
  | TGN_SUCCESS, Some t => mret (status, store out t)
  | _, _ => mret (status, out)
  end.

Definition tryGetULong (arg : option string) (flags : Z) (name : option string)
    (out : option Z) : M nst (tgn_t * option Z) :=
  '(status, temp) ← tryGetNum "tryGetLong" arg flags name true;
  match status, temp with
  | TGN_SUCCESS, Some t =>
      if ULONG_MAX <? t then
        gnWarn "tryGetLong" "value out of range for 'long'" arg name;;
        mret (TGN_FAILURE, out)
      else mret (status, store out (to_unsigned 64 t))
  | _, _ => mret (status, out)
  end.

Definition tryGetUInt (arg : option string) (flags : Z) (name : option string)
    (out : option Z) : M nst (tgn_t * option Z) :=
  '(status, temp) ← tryGetNum "tryGetInt" arg flags name true;
  match status, temp with
  | TGN_SUCCESS, Some t =>
      if UINT_MAX <? t then
        gnWarn "tryGetInt" "value out of range for 'int'" arg name;;
        mret (TGN_FAILURE, out)
      else mret (status, store out (to_unsigned 32 t))
  | _, _ => mret (status, out)
  end.
End tryGet.

(** ** What the functions accept *)

Definition signed (neg : bool) (mag : Z) : Z := if neg then - mag else mag.

(** The sign constraints the flags ask for. *)
Definition gn_admits (flags v : Z) : Prop :=
  (has flags GN_NONNEG = true → 0 <= v) ∧ (has flags GN_GT_0 = true → 0 < v).

(** [a] is a numeral, in the base the flags select, of a value that fits in a
    [long long] and meets the sign constraints. *)
Definition gn_accepts (flags : Z) (a : string) (v : Z) : Prop :=
  ∃ neg mag, numeral (base_of flags) a neg mag ∧ v = signed neg mag ∧
    LLONG_MIN <= v <= LLONG_MAX ∧ gn_admits flags v.

Lemma base_of_valid flags : valid_base (base_of flags).
Proof. unfold base_of, valid_base. repeat case_match; lia. Qed.

Lemma numeral_nonempty base neg mag : valid_base base → ¬ numeral base "" neg mag.
Proof.
  intros Hb H. apply strto_scan_numeral in H; [|done].
  unfold strto_scan in H. simpl in H. unfold resolve_base in H.
  destruct Hb as [-> | [-> | [-> | ->]]]; done.
Qed.

Lemma strtoll_numeral a base v :
  valid_base base → a ≠ "" →
  strtoll a base = (v, "", 0) ↔
  ∃ neg mag, numeral base a neg mag ∧ v = signed neg mag ∧ LLONG_MIN <= v <= LLONG_MAX.
Proof.
  intros Hb Ha. unfold strtoll. split.
  - destruct (strto_scan a base) as [[[neg mag] rest]|] eqn:E; [|by intros [= <- ?]].
    fold (signed neg mag). repeat case_match; bool_facts; intros [= <- ->].
    exists neg, mag. apply strto_scan_numeral in E; [|done].
    split_and!; [done|done|lia|lia].
  - intros (neg & mag & H & -> & Hr). apply strto_scan_numeral in H; [|done].
    rewrite H. fold (signed neg mag).
    destruct (signed neg mag <? LLONG_MIN) eqn:E1; bool_facts; [lia|].
    destruct (LLONG_MAX <? signed neg mag) eqn:E2; bool_facts; [lia|]. done.
Qed.

Lemma gnFail_halts {A} fname msg arg name s :
  ∃ s' t, gnFail (A:=A) fname msg arg name s = (Halt (HExit EXIT_FAILURE), s') ∧
    stderr s' = stderr s +:+ t ∧ t ≠ "".
Proof.
  eexists _, (diag_head fname name msg +:+ _). split; [done|].
  simpl. split; [by rewrite append_assoc|].
  unfold diag_head. intros E. apply (f_equal String.length) in E.
  rewrite !length_append in E. simpl in E. lia.
Qed.

(** A run of [getNum]: either the numeral's value, with [errno] cleared, or the
    diagnostic and [exit(EXIT_FAILURE)]. *)
Definition gn_result (ok : Z → Prop) (s : nst) (r : res Z * nst) : Prop :=
  match r with
  | (Ok v, s') => s' = set_errno 0 s ∧ ok v
  | (Halt h, s') => h = HExit EXIT_FAILURE ∧ (∃ t, stderr s' = stderr s +:+ t ∧ t ≠ "") ∧
                    ∀ v, ¬ ok v
  end.

Lemma gnFail_result ok fname msg arg name s s0 :
  stderr s0 = stderr s → (∀ v, ¬ ok v) → gn_result ok s (gnFail fname msg arg name s0).
Proof.
  intros Hs Hno. destruct (@gnFail_halts Z fname msg arg name s0) as (s' & t & -> & Ht & Hne).
  simpl. split_and!; [done| |done]. exists t. by rewrite Ht, Hs.
Qed.

Lemma getNum_result fname arg flags name s :
  gn_result (λ v, ∃ a, arg = Some a ∧ gn_accepts flags a v) s
    (getNum fname arg flags name s).
Proof.
  unfold getNum. pose proof (base_of_valid flags) as Hb.
  destruct arg as [[|c a]|]; [apply gnFail_result; [done|]| |apply gnFail_result; [done|]].
  { intros v (a & [= <-] & neg & mag & H & _). by eapply numeral_nonempty. }
  2: { by intros v (a & ? & _). }
  set (arg := String c a). unfold call_strto.
  destruct (strtoll arg (base_of flags)) as [[v endptr] e] eqn:E.
  assert (∀ v', gn_accepts flags arg v' → e = 0 ∧ endptr = "" ∧ v' = v) as Hdet.
  { intros v' (neg & mag & Hn & Hv & Hr & _).
    assert (strtoll arg (base_of flags) = (v', "", 0)) as E' by
      (apply strtoll_numeral; [done|done|by exists neg, mag]).
    rewrite E in E'. by injection E'. }
  assert (gn_accepts flags arg v ↔ e = 0 ∧ endptr = "" ∧ gn_admits flags v) as Hacc.
  { split; [intros H; destruct (Hdet v H) as (? & ? & _); by destruct H as (?&?&?&?&?&?)|].
    intros (-> & -> & Ha). apply strtoll_numeral in E as (neg & mag & ? & ? & ?); [|done|done].
    by exists neg, mag. }
  assert (¬ gn_accepts flags arg v →
    ∀ v', ¬ ∃ a, Some arg = Some a ∧ gn_accepts flags a v') as Hno.
  { intros H v' (a' & [= <-] & Hv'). destruct (Hdet v' Hv') as (_ & _ & ->). by apply H. }
  unfold gn_admits in Hacc.
  cbv [mbind M_bind modify when gets mret M_ret skip stop set_errno].
  destruct (e =? 0) eqn:Ee; simpl; bool_facts.
  2: { replace (negb (e =? 0)) with true by lia. apply gnFail_result; [done|].
       apply Hno. intros H. by apply Hacc in H as [? _]. }
  case_bool_decide as Hend.
  { apply gnFail_result; [done|]. apply Hno. intros H. by apply Hacc in H as (_ & ? & _). }
  destruct (has flags GN_NONNEG && (v <? 0)) eqn:E1.
  { apply gnFail_result; [done|]. apply Hno. intros H. apply Hacc in H as (_ & _ & H & _).
    bool_facts. specialize (H ltac:(done)). lia. }
  destruct (has flags GN_GT_0 && (v <=? 0)) eqn:E2.
  { apply gnFail_result; [done|]. apply Hno. intros H. apply Hacc in H as (_ & _ & _ & H).
    bool_facts. specialize (H ltac:(done)). lia. }
  simpl. split; [done|]. exists arg. split; [done|]. apply Hacc.
  split_and!; [done|done| |]; intros Hf; rewrite Hf in *;
    simpl in *; bool_facts; lia.
Qed.

Lemma gn_accepts_det flags a v v' :
  gn_accepts flags a v → gn_accepts flags a v' → v = v'.
Proof.
  intros (n & m & H & -> & _) (n' & m' & H' & -> & _).
  apply strto_scan_numeral in H, H'; try apply base_of_valid. congruence.
Qed.

(** The range test of the narrower variants. *)
Lemma gn_narrow fname msg arg name s lo hi w ok (m : M nst Z) :
  (∀ v v', ok v → ok v' → v = v') →
  1 <= w → lo = - 2 ^ (w - 1) → hi = 2 ^ (w - 1) - 1 →
  gn_result ok s (m s) →
  gn_result (λ v, ok v ∧ lo <= v <= hi) s
    ((v ← m; if (hi <? v) || (v <? lo) then gnFail fname msg arg name
             else mret (to_signed w v)) s).
Proof.
  intros Hdet Hw -> -> Hm. unfold mbind, M_bind.
  destruct (m s) as [[v|h] s'] eqn:E; simpl in Hm.
  2: { destruct Hm as (-> & Ht & Hno). simpl. split_and!; [done|done|].
       intros v [Hv _]. by apply (Hno v). }
  destruct Hm as [-> Hok]. destruct (_ || _) eqn:Er.
  - apply gnFail_result; [done|]. intros v' [Hv' ?].
    rewrite (Hdet v' v Hv' Hok) in *. lia.
  - bool_facts. simpl. rewrite to_signed_small by lia. split_and!; [done|done|lia|lia].
Qed.

Lemma getInt_result arg flags name s :
  gn_result (λ v, (∃ a, arg = Some a ∧ gn_accepts flags a v) ∧ INT_MIN <= v <= INT_MAX) s
    (getInt arg flags name s).
Proof.
  apply gn_narrow; [|lia|done|done|apply getNum_result].
  intros v v' (a & -> & H) (a' & [= <-] & H'). by eapply gn_accepts_det.
Qed.

(** C1: [getInt] returns a value exactly when its argument is a non-null string
    consisting of optional white space, an optional sign and a numeral in the
    base selected by the flags, whose value fits in an [int] and meets the sign
    constraints of the flags; it then returns that value with [errno] cleared
    and prints nothing.  In every other case it appends a diagnostic to
    [stderr] and terminates the process with [EXIT_FAILURE]. *)
Theorem getInt_spec arg flags name s :
  gn_result (λ v, (∃ a, arg = Some a ∧ gn_accepts flags a v) ∧ INT_MIN <= v <= INT_MAX) s
    (getInt arg flags name s).
Proof. apply getInt_result. Qed.

(** The same for [long]. *)
Lemma getLong_spec arg flags name s :
  gn_result (λ v, (∃ a, arg = Some a ∧ gn_accepts flags a v) ∧ LONG_MIN <= v <= LONG_MAX) s
    (getLong arg flags name s).
Proof.
  apply gn_narrow; [|lia|done|done|apply getNum_result].
  intros v v' (a & -> & H) (a' & [= <-] & H'). by eapply gn_accepts_det.
Qed.

Lemma gn_result_run ok s r v : gn_result ok s r → (∀ v', ok v' → v' = v) → ok v →
  r = (Ok v, set_errno 0 s).
Proof.
  destruct r as [[v'|h] s']; simpl.
  - intros [-> Hok] Hdet Hv. by rewrite (Hdet v').
  - intros (_ & _ & Hno) _ Hv. by destruct (Hno v).
Qed.

(** C2: printing an [int] in decimal and reading it back with [getInt] gives the
    same integer, whenever the sign constraints of the flags allow it and the
    flags select base ten. *)
Theorem getInt_roundtrip z flags name s :
  INT_MIN <= z <= INT_MAX → base_of flags = 10 → gn_admits flags z →
  getInt (Some (fmt_d z)) flags name s = (Ok z, set_errno 0 s).
Proof.
  intros Hz Hb Ha. pose proof (getInt_result (Some (fmt_d z)) flags name s) as H.
  assert (gn_accepts flags (fmt_d z) z) as Hacc.
  { exists (z <? 0), (Z.abs z). rewrite Hb. split_and!; [apply fmt_d_numeral| |..|done].
    - unfold signed. destruct (z <? 0) eqn:E; bool_facts; lia.
    - unfold INT_MIN, LLONG_MIN in *. lia.
    - unfold INT_MAX, LLONG_MAX in *. lia. }
  eapply gn_result_run; [exact H| |].
  - intros v' ((a & [= <-] & Hv') & _). by eapply gn_accepts_det.
  - split; [by exists (fmt_d z)|done].
Qed.

Lemma getInt_roundtrip_witness :
  getInt (Some (fmt_d (-45))) 0 None (NSt 7 "") = (Ok (-45), NSt 0 "").
Proof.
  apply (getInt_roundtrip (-45) 0 None (NSt 7 "")).
  - vm_compute. split; discriminate.
  - reflexivity.
  - split; discriminate.
Defined.

(** ** The status-returning variants *)

Section tryGet_facts.
Context (strerror : Z → string).

(** Without the trailing-text flags, [tryGetNum] succeeds exactly when [getNum]
    does, with the same value and state, and otherwise reports failure. *)
Lemma tryGetNum_getNum fname fname' arg flags name s :
  has flags TGN_IGN_TRAILGB = false → has flags TGN_IGN_TRAILWS = false →
  match getNum fname' arg flags name s with
  | (Ok v, s1) =>
      tryGetNum strerror fname arg flags name false s = (Ok (TGN_SUCCESS, Some v), s1)
  | (Halt _, _) =>
      ∃ s1, tryGetNum strerror fname arg flags name false s = (Ok (TGN_FAILURE, None), s1)
  end.
Proof.
  intros Hgb Hws. unfold getNum, tryGetNum.
  destruct arg as [[|c a]|]; [by eexists| |by eexists].
  cbn [andb]. unfold call_strto.
  destruct (strtoll (String c a) (base_of flags)) as [[v endptr] e].
  rewrite Hgb, Hws. cbv [mbind M_bind modify when gets mret M_ret skip stop set_errno].
  destruct (e =? 0) eqn:Ee; cbn -[has gnFail gnWarn]; bool_facts.
  2: { replace (negb (e =? 0)) with true by lia. by eexists. }
  repeat case_bool_decide; simplify_eq/=; try by eexists.
  repeat case_match; simplify_eq/=; by eexists.
Qed.

(** C3: in the absence of the [TGN_IGN_*] flags, [tryGetInt] accepts the same
    arguments as [getInt] and stores the same value; where [getInt] terminates
    the process, [tryGetInt] returns [TGN_FAILURE] and leaves [*out] alone. *)
Theorem tryGetInt_getInt arg flags name out s :
  has flags TGN_IGN_TRAILGB = false → has flags TGN_IGN_TRAILWS = false →
  match getInt arg flags name s with
  | (Ok v, s1) =>
      tryGetInt strerror arg flags name out s = (Ok (TGN_SUCCESS, store out v), s1)
  | (Halt _, _) =>
      ∃ s1, tryGetInt strerror arg flags name out s = (Ok (TGN_FAILURE, out), s1)
  end.
Proof.
  intros Hgb Hws. unfold getInt, tryGetInt.
  pose proof (tryGetNum_getNum "tryGetInt" "getInt" arg flags name s Hgb Hws) as H.
  unfold mbind, M_bind. destruct (getNum "getInt" arg flags name s) as [[v|h] s1].
  - rewrite H. destruct (_ || _); [|done]. by eexists.
  - destruct H as [s2 ->]. by eexists.
Qed.

Lemma strtoll_dec_blank z c t :
  LLONG_MIN <= z <= LLONG_MAX → isspace c = true →
  strtoll (fmt_d z +:+ String c t) 10 = (z, String c t, 0).
Proof.
  intros Hz Hc. unfold strtoll.
  assert (strto_scan (fmt_d z +:+ String c t) 10 = Some (z <? 0, Z.abs z, String c t)) as ->.
  { unfold fmt_d. destruct (z <? 0) eqn:E; bool_facts.
    - rewrite Z.abs_neq by lia.
      apply (strto_scan_dec "" "-" (- z) c t); [done|auto|lia|done].
    - rewrite Z.abs_eq by lia.
      apply (strto_scan_dec "" "" z c t); [done|auto|lia|done]. }
  assert ((if z <? 0 then - Z.abs z else Z.abs z) = z) as ->.
  { destruct (z <? 0) eqn:E; bool_facts; lia. }
  destruct (z <? LLONG_MIN) eqn:E1; bool_facts; [lia|].
  destruct (LLONG_MAX <? z) eqn:E2; bool_facts; [lia|]. done.
Qed.

(** With [TGN_IGN_TRAILWS], a decimal numeral followed by white space is
    accepted whatever its sign: the constraints [GN_NONNEG] and [GN_GT_0] are
    not applied to it, because the branch that tolerates the white space
    skips the branch that checks them. *)
Theorem tryGetLLong_blank_unchecked z c t flags name v0 s :
  LLONG_MIN <= z <= LLONG_MAX → isspace c = true → all_chars isspace t = true →
  base_of flags = 10 → has flags TGN_IGN_TRAILWS = true →
  has flags TGN_IGN_TRAILGB = false →
  tryGetLLong strerror (Some (fmt_d z +:+ String c t)) flags name (Some v0) s =
    (Ok (TGN_SUCCESS, Some z), set_errno 0 s).
Proof.
  intros Hz Hc Ht Hb Hws Hgb. unfold tryGetLLong, tryGetNum, call_strto.
  destruct (fmt_d z +:+ String c t) as [|d u] eqn:Ea.
  { apply (f_equal String.length) in Ea. rewrite length_append in Ea. simpl in Ea. lia. }
  rewrite Hb, Hws, Hgb, <- Ea, strtoll_dec_blank by done.
  assert (String c t ≠ fmt_d z +:+ String c t) as Hne.
  { intros E. apply (f_equal String.length) in E. rewrite length_append in E.
    destruct (fmt_d_numeral z) as (ws & sg & body & Hf & _ & _ & Hm).
    rewrite Hf in E. apply magnitude_head in Hm as (d' & u' & -> & _); [|right; right; by left].
    rewrite !length_append in E. simpl in E. lia. }
  assert (hasNonWhitespace (String c t) = false) as Hn.
  { clear -Hc Ht. revert c Hc. induction t as [|d t IH]; intros c Hc; simpl; rewrite Hc; [done|].
    simpl. rewrite all_chars_cons in Ht. apply andb_true_iff in Ht as [Hd Ht].
    by apply (IH Ht d). }
  cbv [mbind M_bind modify when gets mret M_ret skip]. cbn -[bool_decide hasNonWhitespace].
  rewrite (bool_decide_false (String c t = _)) by done.
  rewrite (bool_decide_true (String c t ≠ "")) by done. by rewrite Hn.
Qed.
End tryGet_facts.

Lemma tryGetInt_getInt_witness :
  tryGetInt (λ _, "") (Some "  42") GN_NONNEG None (Some 0) (NSt 0 "") =
    (Ok (TGN_SUCCESS, Some 42), NSt 0 "").
Proof.
  exact (tryGetInt_getInt (λ _, "") (Some "  42") GN_NONNEG None (Some 0) (NSt 0 "")
           eq_refl eq_refl).
Defined.

Lemma tryGetLLong_blank_unchecked_witness :
  tryGetLLong (λ _, "") (Some "-5 ") (GN_NONNEG + TGN_IGN_TRAILWS) None (Some 0) (NSt 0 "") =
    (Ok (TGN_SUCCESS, Some (-5)), NSt 0 "").
Proof.
  apply (tryGetLLong_blank_unchecked (λ _, "") (-5) " "%char "" (GN_NONNEG + TGN_IGN_TRAILWS));
    try reflexivity. vm_compute. split; discriminate.
Defined.

(** The test that rejects a minus sign for the unsigned variants looks only
    at the first character, so a negative numeral preceded by a blank is
    accepted and wraps around: [" -m"] yields [2^64 - m]. *)
Theorem tryGetULLong_blank_minus strerror m name v0 s :
  0 < m <= ULLONG_MAX →
  tryGetULLong strerror (Some (" -" +:+ dec_nonneg m)) 0 name (Some v0) s =
    (Ok (TGN_SUCCESS, Some (2 ^ 64 - m)), set_errno 0 s).
Proof.
  intros Hm.
  assert (strtoull (" -" +:+ dec_nonneg m) 10 = (2 ^ 64 - m, "", 0)) as E.
  { unfold strtoull.
    assert (strto_scan (" -" +:+ dec_nonneg m) 10 = Some (true, m, "")) as ->.
    { apply strto_scan_numeral; [right; right; by left|].
      exists " ", "-", (dec_nonneg m). split_and!; try done.
      right; left. split; [lia|]. apply dec_nonneg_spec. lia. }
    destruct (ULLONG_MAX <? m) eqn:E; bool_facts; [lia|].
    unfold to_unsigned, ULLONG_MAX in *. rewrite <- (Z.mod_add (- m) 1) by lia.
    rewrite Z.mod_small by lia. repeat f_equal. lia. }
  unfold tryGetULLong, tryGetNum, call_strto.
  change (base_of 0) with 10. rewrite E. done.
Qed.

Lemma tryGetULLong_blank_minus_witness :
  tryGetULLong (λ _, "") (Some " -1") 0 None (Some 0) (NSt 0 "") =
    (Ok (TGN_SUCCESS, Some 18446744073709551615), NSt 0 "").
Proof. apply (tryGetULLong_blank_minus (λ _, "") 1). vm_compute. split; congruence. Defined.
