(* ===== verification/ErrorFunctions.v ===== *)
(** The error-reporting routines of [lib/error_functions.c] and the table of
    error names of [lib/ename.c.inc].

    The state keeps [errno], the environment, what each standard stream still
    holds in its user-space buffer, and the writes already delivered to the
    kernel, in order.  The variadic format of the routines is represented by
    the text it expands to. *)
From S2P Require Import Prelude CLib.
Local Open Scope Z_scope.

(** ** Streams and process termination *)

Inductive stream := Sout | Serr.

#[global] Instance stream_eq_dec : EqDecision stream.
Proof. solve_decision. Defined.

Record proc := Proc {
  errno : Z;
  environ : list (string * string);
  out_buf : string;                       (* buffered on [stdout] *)
  err_buf : string;                       (* buffered on [stderr] *)
  delivered : list (stream * string)      (* seen by the kernel, oldest first *)
}.

Definition set_errno (e : Z) (s : proc) : proc :=
  Proc e s.(environ) s.(out_buf) s.(err_buf) s.(delivered).

Fixpoint lookup_env (env : list (string * string)) (name : string) : option string :=
  match env with
  | [] => None
  | (n, v) :: env => if decide (n = name) then Some v else lookup_env env name
  end.

(** One [write(2)] per flush of a non-empty buffer. *)
Definition chunk (c : stream) (t : string) : list (stream * string) :=
  match t with EmptyString => [] | _ => [(c, t)] end.

(** ** The table of error names *)

Definition ename : list string :=
  [""; "EPERM"; "ENOENT"; "ESRCH"; "EINTR"; "EIO"; "ENXIO"; "E2BIG";
   "ENOEXEC"; "EBADF"; "ECHILD"; "EAGAIN/EWOULDBLOCK"; "ENOMEM"; "EACCES";
   "EFAULT"; "ENOTBLK"; "EBUSY"; "EEXIST"; "EXDEV"; "ENODEV"; "ENOTDIR";
   "EISDIR"; "EINVAL"; "ENFILE"; "EMFILE"; "ENOTTY"; "ETXTBSY"; "EFBIG";
   "ENOSPC"; "ESPIPE"; "EROFS"; "EMLINK"; "EPIPE"; "EDOM"; "ERANGE";
   "EDEADLK/EDEADLOCK"; "ENAMETOOLONG"; "ENOLCK"; "ENOSYS"; "ENOTEMPTY";
   "ELOOP"; ""; "ENOMSG"; "EIDRM"; "ECHRNG"; "EL2NSYNC"; "EL3HLT"; "EL3RST";
   "ELNRNG"; "EUNATCH"; "ENOCSI"; "EL2HLT"; "EBADE"; "EBADR"; "EXFULL";
   "ENOANO"; "EBADRQC"; "EBADSLT"; ""; "EBFONT"; "ENOSTR"; "ENODATA";
   "ETIME"; "ENOSR"; "ENONET"; "ENOPKG"; "EREMOTE"; "ENOLINK"; "EADV";
   "ESRMNT"; "ECOMM"; "EPROTO"; "EMULTIHOP"; "EDOTDOT"; "EBADMSG";
   "EOVERFLOW"; "ENOTUNIQ"; "EBADFD"; "EREMCHG"; "ELIBACC"; "ELIBBAD";
   "ELIBSCN"; "ELIBMAX"; "ELIBEXEC"; "EILSEQ"; "ERESTART"; "ESTRPIPE";
   "EUSERS"; "ENOTSOCK"; "EDESTADDRREQ"; "EMSGSIZE"; "EPROTOTYPE";
   "ENOPROTOOPT"; "EPROTONOSUPPORT"; "ESOCKTNOSUPPORT"; "EOPNOTSUPP/ENOTSUP";
   "EPFNOSUPPORT"; "EAFNOSUPPORT"; "EADDRINUSE"; "EADDRNOTAVAIL"; "ENETDOWN";
   "ENETUNREACH"; "ENETRESET"; "ECONNABORTED"; "ECONNRESET"; "ENOBUFS";
   "EISCONN"; "ENOTCONN"; "ESHUTDOWN"; "ETOOMANYREFS"; "ETIMEDOUT";
   "ECONNREFUSED"; "EHOSTDOWN"; "EHOSTUNREACH"; "EALREADY"; "EINPROGRESS";
   "ESTALE"; "EUCLEAN"; "ENOTNAM"; "ENAVAIL"; "EISNAM"; "EREMOTEIO";
   "EDQUOT"; "ENOMEDIUM"; "EMEDIUMTYPE"; "ECANCELED"; "ENOKEY";
   "EKEYEXPIRED"; "EKEYREVOKED"; "EKEYREJECTED"; "EOWNERDEAD";
   "ENOTRECOVERABLE"; "ERFKILL"; "EHWPOISON"].

Definition MAX_ENAME : Z := 133.

Section errors.
(** [strerror(3)], and the value stdio may leave in [errno]. *)
Context (strerror : Z → string) (io_errno : Z → Z).

Definition fflush_stdout : M proc unit := modify (λ s,
  Proc (io_errno s.(errno)) s.(environ) "" s.(err_buf)
    (s.(delivered) ++ chunk Sout s.(out_buf))).

Definition fflush_stderr : M proc unit := modify (λ s,
  Proc (io_errno s.(errno)) s.(environ) s.(out_buf) ""
    (s.(delivered) ++ chunk Serr s.(err_buf))).

Definition fputs_stderr (t : string) : M proc unit := modify (λ s,
  Proc (io_errno s.(errno)) s.(environ) s.(out_buf) (s.(err_buf) +:+ t) s.(delivered)).

(** [exit(3)] flushes the streams; [_exit(2)] and [abort(3)] do not. *)
Definition exit {A} (status : Z) : M proc A :=
  fflush_stdout;; fflush_stderr;; stop (HExit status).

(** ** [lib/error_functions.c] *)

Definition BUF_SIZE : nat := 500.

Definition terminate {A} (useExit3 : bool) : M proc A :=
  s ← gets (λ s, lookup_env s.(environ) "EF_DUMPCORE");
  match s with
  | Some (String _ _) => stop HAbort
  | _ => if useExit3 then exit EXIT_FAILURE else stop (HExitNow EXIT_FAILURE)
  end.

Definition err_name (err : Z) : string :=
  if (0 <? err) && (err <=? MAX_ENAME)
  then default "" (ename !! Z.to_nat err) else "?UNKNOWN?".

(** The line [outputError] builds in [buf]. *)
Definition error_text (useErr : bool) (err : Z) (msg : string) : string :=
  let userMsg := snprintf BUF_SIZE msg in
  let errText :=
    if useErr
    then snprintf BUF_SIZE (" [" +:+ err_name err +:+ " " +:+ strerror err +:+ "]")
    else snprintf BUF_SIZE ":" in
  snprintf BUF_SIZE ("ERROR" +:+ errText +:+ " " +:+ userMsg +:+ nl).

Definition outputError (useErr : bool) (err : Z) (flushStdout : bool)
    (msg : string) : M proc unit :=
  let buf := error_text useErr err msg in
  when flushStdout fflush_stdout;;
  fputs_stderr buf;;
  fflush_stderr.

Definition systmWrn (msg : string) : M proc unit :=
  savedErrno ← gets errno;
  outputError true savedErrno true msg;;
  modify (set_errno savedErrno).

Definition systmErr {A} (msg : string) : M proc A :=
  e ← gets errno;
  outputError true e true msg;;
  terminate true.

Definition _systmerr {A} (msg : string) : M proc A :=
  e ← gets errno;
  outputError true e false msg;;
  terminate false.

Definition nmsysErr {A} (errnum : Z) (msg : string) : M proc A :=
  outputError true errnum true msg;;
  terminate true.

Definition custmErr {A} (msg : string) : M proc A :=
  outputError false 0 true msg;;
  terminate true.

Definition usageErr {A} (msg : string) : M proc A :=
  fflush_stdout;;
  fputs_stderr "Usage: ";;
  fputs_stderr msg;;
  fflush_stderr;;
  exit EXIT_FAILURE.

Definition cmdLineErr {A} (msg : string) : M proc A :=
  fflush_stdout;;
  fputs_stderr "Command-line usage error: ";;
  fputs_stderr msg;;
  fflush_stderr;;
  exit EXIT_FAILURE.
End errors.

Arguments fflush_stdout : simpl never.

Section facts.
Context (strerror : Z → string) (io_errno : Z → Z).
Local Abbreviation error_text := (error_text strerror).
Local Abbreviation systmErr := (systmErr strerror io_errno).
Local Abbreviation _systmerr := (_systmerr strerror io_errno).

(** How the process ends: [EF_DUMPCORE] turns the normal end into an abort. *)
Definition ending (s : proc) (normal : halt) : halt :=
  match lookup_env s.(environ) "EF_DUMPCORE" with
  | Some (String _ _) => HAbort
  | _ => normal
  end.

Lemma error_text_head useErr err msg :
  ∃ t, error_text useErr err msg = "ERROR" +:+ t.
Proof.
  unfold ErrorFunctions.error_text, snprintf at 1. eexists.
  rewrite take_str_app_ge by (simpl; unfold BUF_SIZE; lia). done.
Qed.

Lemma chunk_error pending useErr err msg :
  chunk Serr (pending +:+ error_text useErr err msg) =
    [(Serr, pending +:+ error_text useErr err msg)].
Proof. destruct (error_text_head useErr err msg) as [t ->]. by destruct pending. Qed.

(** The writes an error report causes, with and without the flush of [stdout]. *)
Lemma outputError_run useErr err flush msg s :
  ∃ e, outputError strerror io_errno useErr err flush msg s =
    (Ok tt, Proc e s.(environ) (if flush then "" else s.(out_buf)) ""
      (s.(delivered) ++ (if flush then chunk Sout s.(out_buf) else []) ++
       [(Serr, s.(err_buf) +:+ error_text useErr err msg)])).
Proof.
  rewrite <- chunk_error. unfold outputError.
  destruct flush; eexists; cbv [mbind M_bind when skip mret M_ret fflush_stdout modify
    fputs_stderr fflush_stderr]; cbn -[error_text chunk];
    rewrite ?app_nil_l, <- ?app_assoc; reflexivity.
Qed.

(** What a report that flushes [stdout] first has delivered. *)
Definition reported (e : Z) (text : string) (s : proc) : proc :=
  Proc e s.(environ) "" ""
    (s.(delivered) ++ chunk Sout s.(out_buf) ++ [(Serr, s.(err_buf) +:+ text)]).

Lemma fatal_run {A} useErr err msg s :
  ∃ e, (outputError strerror io_errno useErr err true msg;; terminate io_errno true) s =
    (Halt (A:=A) (ending s (HExit EXIT_FAILURE)), reported e (error_text useErr err msg) s).
Proof.
  destruct (outputError_run useErr err true msg s) as [e He].
  unfold ending, reported, terminate, exit.
  cbv [mbind M_bind gets]. rewrite He. cbn -[app chunk error_text].
  destruct (lookup_env _ _) as [[|c t]|]; eexists;
    cbv [fflush_stdout fflush_stderr modify stop]; cbn -[error_text];
    rewrite ?app_nil_r; reflexivity.
Qed.

(** C23: [systmErr], [nmsysErr] and [custmErr] first deliver whatever [stdout]
    still buffered, then the diagnostic (for the value of [errno] at the call,
    for the given error number, and without an error number), leave no stream
    with undelivered text, and end the process by [exit(EXIT_FAILURE)], or by
    [abort()] when [EF_DUMPCORE] is set to a non-empty string.  [systmWrn]
    delivers the same and returns, with [errno] exactly as it found it whatever
    stdio did to it in between. *)
Theorem reports_run {A} errnum msg s :
  let dies (m : M proc A) text :=
    ∃ e, m s = (Halt (ending s (HExit EXIT_FAILURE)), reported e text s) in
  dies (systmErr msg) (error_text true s.(errno) msg) ∧
  dies (nmsysErr strerror io_errno errnum msg) (error_text true errnum msg) ∧
  dies (custmErr strerror io_errno msg) (error_text false 0 msg) ∧
  systmWrn strerror io_errno msg s =
    (Ok tt, reported s.(errno) (error_text true s.(errno) msg) s).
Proof.
  intros dies. split_and!; [apply fatal_run..|].
  destruct (outputError_run true (errno s) true msg s) as [e He].
  unfold systmWrn. cbv [mbind M_bind gets]. by rewrite He.
Qed.

(** [_systmerr] delivers the diagnostic and nothing else: the text that
    [stdout] still buffers stays in the buffer and is lost with the process,
    which ends by [_exit] (or [abort()]), without the flush of [exit(3)]. *)
Theorem systmerr_run {A} msg s :
  ∃ e, _systmerr msg s =
    (Halt (A:=A) (ending s (HExitNow EXIT_FAILURE)),
     Proc e s.(environ) s.(out_buf) ""
       (s.(delivered) ++ [(Serr, s.(err_buf) +:+ error_text true s.(errno) msg)])).
Proof.
  destruct (outputError_run true (errno s) false msg s) as [e He].
  unfold _systmerr, ending, terminate. cbv [mbind M_bind gets]. rewrite He.
  cbn -[app chunk error_text].
  destruct (lookup_env _ _) as [[|c t]|]; by eexists.
Qed.

(** The diagnostic never exceeds the 499 characters its buffer can hold,
    and when nothing has to be cut it reads
    ["ERROR [" name " " strerror "] " message newline], with the table's name
    for the error numbers 1..133 and ["?UNKNOWN?"] for all others. *)
Theorem error_text_exact err msg :
  let full := "ERROR" +:+ (" [" +:+ err_name err +:+ " " +:+ strerror err +:+ "]") +:+
              " " +:+ msg +:+ nl in
  (String.length (error_text true err msg) < BUF_SIZE)%nat ∧
  ((String.length full < BUF_SIZE)%nat → error_text true err msg = full) ∧
  (1 <= err <= MAX_ENAME → ename !! Z.to_nat err = Some (err_name err)) ∧
  (¬ (1 <= err <= MAX_ENAME) → err_name err = "?UNKNOWN?").
Proof.
  intros full. split_and!.
  - apply snprintf_bound. unfold BUF_SIZE. lia.
  - intros Hl. unfold full in *. rewrite !length_append in Hl.
    unfold ErrorFunctions.error_text.
    rewrite (snprintf_fits _ msg) by lia.
    rewrite (snprintf_fits _ (" [" +:+ _)) by (rewrite !length_append; lia).
    apply snprintf_fits. rewrite !length_append. lia.
  - intros He. unfold err_name.
    replace ((0 <? err) && (err <=? MAX_ENAME)) with true by lia.
    destruct (ename !! Z.to_nat err) as [n|] eqn:E; [done|].
    apply lookup_ge_None in E. change (length ename) with (Z.to_nat 134) in E.
    unfold MAX_ENAME in He. lia.
  - intros He. unfold err_name.
    replace ((0 <? err) && (err <=? MAX_ENAME)) with false by lia. done.
Qed.
End facts.
