(* ===== verification/Proc.v ===== *)
(** The state of a whole program and its calls to the outside.

    A program's state has the process part of [ErrorFunctions] (errno, streams,
    environment), the program's own variables, the history of the system calls
    it made, and the world [W] those calls act on.  The reporting routines are
    lifted to this state. *)
From S2P Require Import Prelude CLib ErrorFunctions.
Local Open Scope Z_scope.

(** What the programs take from the C library without it being modelled. *)
Class Libc := { strerror : Z → string; io_errno : Z → Z }.

Record pst (V C W : Type) := Pst {
  pr : proc;                  (* errno, environment, streams *)
  vars : V;                   (* the program's variables *)
  trace : list C;             (* system calls made, oldest first *)
  world : W
}.
Arguments Pst {V C W}.
Arguments pr {V C W}.
Arguments vars {V C W}.
Arguments trace {V C W}.
Arguments world {V C W}.

Section calls.
Context {L : Libc} {V C W : Type}.
Local Abbreviation P := (M (pst V C W)).

Definition lift {A} (m : M proc A) : P A := λ s,
  let '(r, p) := m s.(pr) in (r, Pst p s.(vars) s.(trace) s.(world)).

Definition get_errno : P Z := gets (λ s, s.(pr).(errno)).
Definition put_errno (e : Z) : P unit := lift (modify (set_errno e)).
Definition get_vars : P V := gets vars.
Definition put_vars (f : V → V) : P unit :=
  modify (λ s, Pst s.(pr) (f s.(vars)) s.(trace) s.(world)).

(** A system call: it is recorded, and when it fails sets [errno]. *)
Definition call {A} (c : C) (f : W → (Z + A) * W) : P (Z + A) := λ s,
  match f s.(world) with
  | (inl e, w) => (Ok (inl e), Pst (set_errno e s.(pr)) s.(vars) (s.(trace) ++ [c]) w)
  | (inr a, w) => (Ok (inr a), Pst s.(pr) s.(vars) (s.(trace) ++ [c]) w)
  end.

(** [printf], [fprintf(stderr)] and [perror] of the text they produce. *)
Definition printf (t : string) : P unit := lift (modify (λ p,
  Proc (io_errno p.(errno)) p.(environ) (p.(out_buf) +:+ t) p.(err_buf) p.(delivered))).
Definition eprintf (t : string) : P unit := lift (fputs_stderr io_errno t).
Definition perror (msg : string) : P unit :=
  e ← get_errno; eprintf (msg +:+ ": " +:+ strerror e +:+ nl).

Definition p_exit {A} (status : Z) : P A := lift (exit io_errno status).
Definition p_systmErr {A} (msg : string) : P A := lift (systmErr strerror io_errno msg).
Definition p_systmWrn (msg : string) : P unit := lift (systmWrn strerror io_errno msg).
Definition p_custmErr {A} (msg : string) : P A := lift (custmErr strerror io_errno msg).
Definition p_usageErr {A} (msg : string) : P A := lift (usageErr io_errno msg).

(** [perror(msg); exit(EXIT_FAILURE);], the local definition of [systmErr] in
    the programs that do not use the library. *)
Definition perror_exit {A} (msg : string) : P A := perror msg;; p_exit EXIT_FAILURE.

(** *** What the lifted routines leave unchanged *)

(** The process part is all that differs. *)
Definition same_but_proc (s s' : pst V C W) : Prop :=
  s'.(vars) = s.(vars) ∧ s'.(trace) = s.(trace) ∧ s'.(world) = s.(world).

#[global] Instance same_but_proc_preorder : PreOrder same_but_proc.
Proof.
  split; [by intros s|]. intros a b c (H1 & H2 & H3) (H4 & H5 & H6).
  split_and!; congruence.
Qed.

Lemma lift_same {A} (m : M proc A) s r s' : lift m s = (r, s') → same_but_proc s s'.
Proof. unfold lift. destruct (m (pr s)) as [r' p]. by intros [= <- <-]. Qed.

Lemma p_exit_halts {A} status s :
  ∃ s', @p_exit A status s = (Halt (HExit status), s') ∧ same_but_proc s s'.
Proof. eexists; split; [reflexivity|done]. Qed.

Lemma perror_run msg s : ∃ s', perror msg s = (Ok tt, s') ∧ same_but_proc s s'.
Proof. eexists; split; [reflexivity|done]. Qed.

Lemma perror_exit_halts {A} msg s :
  ∃ s', @perror_exit A msg s = (Halt (HExit EXIT_FAILURE), s') ∧ same_but_proc s s'.
Proof. eexists; split; [reflexivity|done]. Qed.

Lemma printf_run t s : ∃ s', printf t s = (Ok tt, s') ∧ same_but_proc s s'.
Proof. eexists; split; [reflexivity|done]. Qed.

(** The fatal routines never return. *)
Definition fatal_end (h : halt) : Prop := h = HExit EXIT_FAILURE ∨ h = HAbort.

Lemma terminate_halts {A} (p : proc) :
  ∃ h p', @terminate io_errno A true p = (Halt h, p') ∧ fatal_end h.
Proof.
  unfold terminate, gets, fatal_end. cbv [mbind M_bind].
  destruct (lookup_env _ _) as [[|]|]; do 2 eexists; (split; [reflexivity|auto]).
Qed.

Lemma p_systmErr_halts {A} msg s :
  ∃ h s', @p_systmErr A msg s = (Halt h, s') ∧ fatal_end h ∧ same_but_proc s s'.
Proof.
  unfold p_systmErr, lift, systmErr. simpl.
  destruct (outputError_run strerror io_errno true (errno (pr s)) true msg (pr s)) as [e He].
  unfold mbind, M_bind, gets. rewrite He.
  match goal with |- context [terminate _ _ ?p] =>
    destruct (@terminate_halts A p) as (h & p' & -> & Hh) end.
  by do 2 eexists.
Qed.

Lemma p_systmWrn_run msg s : ∃ s', p_systmWrn msg s = (Ok tt, s') ∧ same_but_proc s s'.
Proof.
  unfold p_systmWrn, lift, systmWrn, mbind, M_bind, gets.
  destruct (outputError_run strerror io_errno true (errno (pr s)) true msg (pr s)) as [e ->].
  by eexists.
Qed.

(** *** Results *)

(** [m] returns with [Q], or reports an error and ends the process with [E]. *)
Definition post {A} (m : P A) (s : pst V C W) (Q : A → pst V C W → Prop)
    (E : pst V C W → Prop) : Prop :=
  match m s with
  | (Ok x, s') => Q x s'
  | (Halt h, s') => fatal_end h ∧ E s'
  end.

Lemma post_ret {A} (x : A) s (Q : A → pst V C W → Prop) E : Q x s → post (mret x) s Q E.
Proof. done. Qed.

Lemma post_eq {A} (m m' : P A) s Q E : m s = m' s → post m' s Q E → post m s Q E.
Proof. unfold post. by intros ->. Qed.

Lemma post_bind {A B} (m : P A) (k : A → P B) s Q E :
  post m s (λ x s', post (k x) s' Q E) E → post (m ≫= k) s Q E.
Proof. unfold post, mbind, M_bind. by destruct (m s) as [[x|h] s']. Qed.

Lemma post_mono {A} (m : P A) s (Q Q' : A → pst V C W → Prop) (E E' : pst V C W → Prop) :
  post m s Q E → (∀ x s', Q x s' → Q' x s') → (∀ s', E s' → E' s') → post m s Q' E'.
Proof. unfold post. destruct (m s) as [[x|h] s']; [by auto|]. intros [? ?]; auto. Qed.

Lemma post_seq {A B} (m : P A) (k : A → P B) s (R : A → pst V C W → Prop) Q E :
  post m s R E → (∀ x s', R x s' → post (k x) s' Q E) → post (m ≫= k) s Q E.
Proof. intros Hm Hk. apply post_bind. by eapply post_mono. Qed.

(** [m] ends the process, by a report, when [lost], or by [exit(EXIT_SUCCESS)]
    with [R]. *)
Definition finishes {A} (lost : Prop) (m : P A) (s : pst V C W) (R : pst V C W → Prop) : Prop :=
  ∃ h s', m s = (Halt h, s') ∧ (fatal_end h ∧ lost ∨ h = HExit EXIT_SUCCESS ∧ R s').

Lemma finishes_seq {A B} lost (m : P A) (k : A → P B) s (Q : A → pst V C W → Prop) R :
  post m s Q (λ _, lost) → (∀ x s', Q x s' → finishes lost (k x) s' R) →
  finishes lost (m ≫= k) s R.
Proof.
  unfold post, finishes, mbind, M_bind. destruct (m s) as [[x|h] s']; [by auto|].
  intros [Hh Hl] _. do 2 eexists. split; [done|]. by left.
Qed.

Lemma finishes_assoc {A B D} lost (m : P A) (f : A → P B) (g : B → P D) s R :
  finishes lost ((m ≫= f) ≫= g) s R → finishes lost (m ≫= λ x, f x ≫= g) s R.
Proof. unfold finishes, mbind, M_bind. by destruct (m s) as [[x|h] s']. Qed.

(** *** Histories *)

(** [s'] is reached from [s] by making only calls that satisfy [φ]. *)
Definition extends (φ : C → Prop) (s s' : pst V C W) : Prop :=
  ∃ l, s'.(trace) = s.(trace) ++ l ∧ Forall φ l.

#[global] Instance extends_preorder φ : PreOrder (extends φ).
Proof.
  split.
  - intros s. exists []. by rewrite app_nil_r.
  - intros a b c (l & H1 & F1) (l' & H2 & F2). exists (l ++ l').
    rewrite H2, H1, app_assoc. by rewrite Forall_app.
Qed.

Lemma extends_same φ s s' : same_but_proc s s' → extends φ s s'.
Proof. intros (_ & H & _). exists []. by rewrite H, app_nil_r. Qed.

(** All the computation does to the history is to add calls satisfying [φ],
    and to the variables is to keep [I]; it never has undefined behaviour. *)
Definition emits {A} (I : V → Prop) (φ : C → Prop) (m : P A) : Prop := ∀ s,
  I s.(vars) →
  extends φ s (m s).2 ∧ I (m s).2.(vars) ∧ (m s).1 ≠ Halt HUndef.

Lemma emits_ret {A} I φ (a : A) : emits I φ (mret a).
Proof. intros s HI. by split. Qed.

Lemma emits_skip I φ : emits I φ skip.
Proof. intros s HI. by split. Qed.

Lemma emits_bind {A B} I φ (m : P A) (k : A → P B) :
  emits I φ m → (∀ a, emits I φ (k a)) → emits I φ (m ≫= k).
Proof.
  intros Hm Hk s HI. unfold mbind, M_bind. specialize (Hm s HI).
  destruct (m s) as [[a|h] s']; simpl in *; destruct Hm as (He & HI' & Hu0).
  2:{ split_and!; [done|done|]. intros [= ->]. by apply Hu0. } destruct (Hk a s' HI') as (He' & HI'' & Hu).
  split_and!; [by etransitivity|done|done].
Qed.

Lemma emits_when I φ b m : emits I φ m → emits I φ (when b m).
Proof. destruct b; [done|intros _; apply emits_skip]. Qed.

Lemma emits_lift {A} (I : V → Prop) φ (m : M proc A) :
  (∀ p, (m p).1 ≠ Halt HUndef) → emits I φ (lift m).
Proof.
  intros Hm s HI. unfold lift. specialize (Hm (pr s)).
  destruct (m (pr s)) as [r p]. simpl in *. split_and!; [|done|done].
  exists []. by rewrite app_nil_r.
Qed.

Lemma emits_call {A} I (φ : C → Prop) c (f : W → (Z + A) * W) :
  φ c → emits I φ (call c f).
Proof.
  intros Hc s HI. unfold call. destruct (f (world s)) as [[e|a] w]; simpl;
    (split_and!; [exists [c]; auto|done|done]).
Qed.

Lemma emits_printf I φ t : emits I φ (printf t).
Proof. by apply emits_lift. Qed.
Lemma emits_perror I φ t : emits I φ (perror t).
Proof. by apply emits_bind; [|intros; apply emits_lift]. Qed.
Lemma emits_exit {A} I φ z : emits I φ (@p_exit A z).
Proof. by apply emits_lift. Qed.
Lemma emits_systmErr {A} I φ t : emits I φ (@p_systmErr A t).
Proof.
  intros s HI. destruct (@p_systmErr_halts A t s) as (h & s' & -> & Hh & Hs). simpl.
  split_and!; [by apply extends_same| |].
  - destruct Hs as (-> & _). done.
  - intros [= ->]. by destruct Hh.
Qed.
Lemma emits_get_errno I φ : emits I φ get_errno.
Proof. intros s HI. by split. Qed.
End calls.

Create HintDb emits discriminated.
#[export] Hint Resolve emits_ret emits_skip emits_printf emits_perror emits_exit
  emits_systmErr emits_get_errno emits_call : emits.

(** Splits an [emits] goal along the structure of the program. *)
Ltac emits :=
  repeat first
    [ progress intros
    | solve [eauto with emits]
    | apply emits_bind
    | apply emits_when
    | match goal with
      | |- emits _ _ (match ?x with _ => _ end) => destruct x eqn:?
      | |- emits _ _ (if ?x then _ else _) => destruct x eqn:?
      end ].

#[export] Hint Resolve p_exit_halts perror_exit_halts p_systmErr_halts : core.
