(* ===== verification/Args.v ===== *)
(** Number arguments and usage errors within a whole program.

    [GetNum] models the number parsers over their own small state.  Here they
    and the remaining reporting routines are lifted to the state of a program
    ([Proc]), for the programs that read their command line with them. *)
From S2P Require Import Prelude CLib.
From S2P Require GetNum.
From S2P Require Import ErrorFunctions Proc.
Local Open Scope Z_scope.

Section args.
Context {L : Libc} {V C W : Type}.
Local Abbreviation P := (M (pst V C W)).

(** A number parser run in the program: it gets [errno], and what it prints goes
    to the standard error stream; when it ends the process, by [exit]. *)
Definition lift_num {A} (m : M GetNum.nst A) : P A :=
  e ← get_errno;
  match m (GetNum.NSt e "") with
  | (Ok a, n) => put_errno n.(GetNum.errno);; mret a
  | (Halt (HExit st), n) => eprintf n.(GetNum.stderr);; p_exit st
  | (Halt h, n) => eprintf n.(GetNum.stderr);; stop h
  end.

Definition p_getInt (arg : option string) (flags : Z) (name : string) : P Z :=
  lift_num (GetNum.getInt arg flags (Some name)).
Definition p_getLong (arg : option string) (flags : Z) (name : string) : P Z :=
  lift_num (GetNum.getLong arg flags (Some name)).

Definition p_cmdLineErr {A} (msg : string) : P A := lift (cmdLineErr io_errno msg).
Definition p_nmsysErr {A} (e : Z) (msg : string) : P A := lift (nmsysErr strerror io_errno e msg).

(** The strings [getInt] accepts, as a relation to their values. *)
Definition int_arg (flags : Z) (arg : option string) (v : Z) : Prop :=
  (∃ a, arg = Some a ∧ GetNum.gn_accepts flags a v) ∧ INT_MIN <= v <= INT_MAX.

Lemma p_getInt_run arg flags name s :
  (∃ v s', p_getInt arg flags name s = (Ok v, s') ∧ int_arg flags arg v ∧ same_but_proc s s') ∨
  (∃ s', p_getInt arg flags name s = (Halt (HExit EXIT_FAILURE), s') ∧
     (∀ v, ¬ int_arg flags arg v) ∧ same_but_proc s s').
Proof.
  unfold p_getInt, lift_num. erewrite run_bind by reflexivity.
  pose proof (GetNum.getInt_result arg flags (Some name)
                (GetNum.NSt (errno (pr s)) "")) as H.
  destruct (GetNum.getInt _ _ _ _) as [[v|h] n]; simpl in H.
  - left. destruct H as [-> Hok]. exists v. eexists; split; [reflexivity|]. by split.
  - right. destruct H as (-> & _ & Hno). eexists; split; [reflexivity|]. by split.
Qed.

Lemma int_arg_det flags arg v v' : int_arg flags arg v → int_arg flags arg v' → v = v'.
Proof.
  intros [(a & -> & H) _] [(a' & [= <-] & H') _]. by eapply GetNum.gn_accepts_det.
Qed.

(** A printed [int] is read back. *)
Lemma int_arg_fmt flags z :
  INT_MIN <= z <= INT_MAX → GetNum.base_of flags = 10 → GetNum.gn_admits flags z →
  int_arg flags (Some (fmt_d z)) z.
Proof.
  intros Hz Hb Ha. split; [|done]. exists (fmt_d z). split; [done|].
  exists (z <? 0), (Z.abs z). rewrite Hb. split_and!; [apply fmt_d_numeral| |..|done].
  - unfold GetNum.signed. destruct (z <? 0) eqn:E; bool_facts; lia.
  - unfold INT_MIN, LLONG_MIN in *. lia.
  - unfold INT_MAX, LLONG_MAX in *. lia.
Qed.

Lemma p_cmdLineErr_halts {A} msg s :
  ∃ s', @p_cmdLineErr A msg s = (Halt (HExit EXIT_FAILURE), s') ∧ same_but_proc s s'.
Proof. eexists; split; [reflexivity|done]. Qed.

Lemma p_usageErr_halts {A} msg s :
  ∃ s', @p_usageErr L V C W A msg s = (Halt (HExit EXIT_FAILURE), s') ∧ same_but_proc s s'.
Proof. eexists; split; [reflexivity|done]. Qed.

Lemma report_halts {A} useErr err msg s :
  ∃ h s', lift (outputError strerror io_errno useErr err true msg;;
                terminate io_errno true : M proc A) s = (Halt h, s') ∧
    fatal_end h ∧ same_but_proc (C := C) (V := V) (W := W) s s'.
Proof.
  unfold lift.
  destruct (outputError_run strerror io_errno useErr err true msg (pr s)) as [e He].
  unfold mbind, M_bind. rewrite He.
  match goal with |- context [terminate _ _ ?p] =>
    destruct (@terminate_halts _ A p) as (h & p' & -> & Hh) end.
  by do 2 eexists.
Qed.

Lemma p_custmErr_halts {A} msg s :
  ∃ h s', @p_custmErr L V C W A msg s = (Halt h, s') ∧ fatal_end h ∧ same_but_proc s s'.
Proof. apply report_halts. Qed.

Lemma p_nmsysErr_halts {A} e msg s :
  ∃ h s', @p_nmsysErr A e msg s = (Halt h, s') ∧ fatal_end h ∧ same_but_proc s s'.
Proof. apply report_halts. Qed.

(** What the emitted history can be: these routines call nothing. *)
Lemma emits_getInt I φ arg flags name : emits I φ (p_getInt arg flags name).
Proof.
  intros s HI. destruct (p_getInt_run arg flags name s)
    as [(v & s' & -> & _ & Hs)|(s' & -> & _ & Hs)]; simpl;
    (split_and!; [by apply extends_same|by destruct Hs as (-> & _)|done]).
Qed.
Lemma emits_cmdLineErr {A} I φ msg : emits I φ (@p_cmdLineErr A msg).
Proof. by apply emits_lift. Qed.
Lemma emits_usageErr {A} I φ msg : emits I φ (@p_usageErr L V C W A msg).
Proof. by apply emits_lift. Qed.
Lemma emits_custmErr {A} I φ msg : emits I φ (@p_custmErr L V C W A msg).
Proof.
  intros s HI. destruct (@p_custmErr_halts A msg s) as (h & s' & -> & Hh & Hs). simpl.
  split_and!; [by apply extends_same|by destruct Hs as (-> & _)|].
  intros [= ->]. by destruct Hh.
Qed.
Lemma emits_nmsysErr {A} I φ e msg : emits I φ (@p_nmsysErr A e msg).
Proof.
  intros s HI. destruct (@p_nmsysErr_halts A e msg s) as (h & s' & -> & Hh & Hs). simpl.
  split_and!; [by apply extends_same|by destruct Hs as (-> & _)|].
  intros [= ->]. by destruct Hh.
Qed.
End args.

#[export] Hint Resolve emits_getInt emits_cmdLineErr emits_usageErr emits_custmErr
  emits_nmsysErr : emits.
#[export] Hint Resolve p_cmdLineErr_halts p_usageErr_halts p_custmErr_halts
  p_nmsysErr_halts : core.
