(* ===== verification/Getopt.v ===== *)
(** [getopt(3)] as the programs use it.

    Short options, alone or grouped, with arguments attached or following; [--]
    ends the options.  Options may follow other arguments, which [getopt] moves
    to the end, unless the option string starts with [+].  The result is the
    sequence of values successive calls return, and the arguments from
    [optind] on; [POSIXLY_CORRECT] is taken to be unset. *)
From S2P Require Import Prelude CLib.
Local Open Scope Z_scope.

(** What a call returns: an option with the argument it takes, ['?'] for an
    option that is not in the string, or for one whose argument is missing. *)
Inductive opt_event :=
| Opt (c : ascii) (optarg : option string)
| BadOpt (c : ascii)
| MissingArg (c : ascii).

#[global] Instance opt_event_eq_dec : EqDecision opt_event.
Proof. solve_decision. Defined.

(** What [getopt] itself writes to the standard error, [opterr] being 1. *)
Definition getopt_message (prog : string) (ev : opt_event) : string :=
  match ev with
  | Opt _ _ => ""
  | BadOpt c => prog +:+ ": invalid option -- '" +:+ String c "" +:+ "'" +:+ nl
  | MissingArg c => prog +:+ ": option requires an argument -- '" +:+ String c "" +:+ "'" +:+ nl
  end.

(** Does the option string have the character, and does it take an argument? *)
Fixpoint opt_lookup (optstring : string) (c : ascii) : option bool :=
  match optstring with
  | EmptyString => None
  | String d t =>
      if decide (c = d) then
        if decide (c = ":"%char) then None
        else Some (match t with String e _ => bool_decide (e = ":"%char) | _ => false end)
      else opt_lookup t c
  end.

(** The options grouped in one argument, [rest] being the arguments after it. *)
Fixpoint scan_group (optstring group : string) (rest : list string) :
    list opt_event * list string :=
  match group with
  | EmptyString => ([], rest)
  | String c t =>
      match opt_lookup optstring c with
      | None => let '(es, r) := scan_group optstring t rest in (BadOpt c :: es, r)
      | Some false => let '(es, r) := scan_group optstring t rest in (Opt c None :: es, r)
      | Some true =>
          match t, rest with
          | String _ _, _ => ([Opt c (Some t)], rest)
          | EmptyString, a :: rest' => ([Opt c (Some a)], rest')
          | EmptyString, [] => ([MissingArg c], [])
          end
      end
  end.

(** [posix]: stop at the first argument that is not an option. *)
Fixpoint getopt_loop (fuel : nat) (posix : bool) (optstring : string) (args : list string) :
    list opt_event * list string :=
  match fuel, args with
  | S fuel, a :: rest =>
      match a with
      | String "-" (String c t) =>
          if decide (a = "--") then ([], rest)
          else
            let '(es, r) := scan_group optstring (String c t) rest in
            let '(es', r') := getopt_loop fuel posix optstring r in (es ++ es', r')
      | _ =>
          if posix then ([], args)
          else let '(es, r) := getopt_loop fuel posix optstring rest in (es, a :: r)
      end
  | _, _ => ([], args)
  end.

(** [args] are [argv[1]] and so on. *)
Definition getopt (optstring : string) (args : list string) : list opt_event * list string :=
  match optstring with
  | String "+" optstring => getopt_loop (S (length args)) true optstring args
  | _ => getopt_loop (S (length args)) false optstring args
  end.

(** An option argument never starts where there is none: with no argument
    beginning with a dash, all of them are left over. *)
Definition is_option (a : string) : bool :=
  match a with String "-" (String _ _) => true | _ => false end.

Lemma getopt_plain fuel posix o args :
  Forall (λ a, is_option a = false) args → getopt_loop fuel posix o args = ([], args).
Proof.
  revert fuel. induction args as [|a args IH]; intros fuel H; [by destruct fuel|].
  inversion H as [|? ? Ha Hargs]; subst. destruct fuel as [|fuel]; [done|]. simpl.
  rewrite (IH fuel Hargs). unfold is_option in Ha.
  repeat case_match; simplify_eq; done.
Qed.

Example getopt_example :
  getopt "m:x:kdnV:" ["-dn"; "file1"; "-m"; "u::r"; "--"; "-k"] =
  ([Opt "d" None; Opt "n" None; Opt "m" (Some "u::r")], ["file1"; "-k"]).
Proof. vm_compute. reflexivity. Qed.

Example getopt_posix_example :
  getopt "+ab:" ["-a"; "-bx"; "cmd"; "-q"] =
  ([Opt "a" None; Opt "b" (Some "x")], ["cmd"; "-q"]).
Proof. vm_compute. reflexivity. Qed.
