(* ===== verification/Ugid.v ===== *)
(** User and group names: [users_groups/ugid_functions.c], all functions.

    The password and group databases are a class; a name or an id is looked up
    in them.  Ids are 32-bit unsigned; -1 is 4294967295. *)
From S2P Require Import Prelude CLib.
Local Open Scope Z_scope.

Class UserDb := {
  getpwnam : string → option Z;     (* pw_uid *)
  getpwuid : Z → option string;     (* pw_name *)
  getgrnam : string → option Z;
  getgrgid : Z → option string
}.

Definition ID_ERROR : Z := UINT_MAX.     (* (uid_t) -1 *)

Section ugid.
Context {Db : UserDb}.

Definition userNameFromId (uid : Z) : option string := getpwuid uid.
Definition groupNameFromId (gid : Z) : option string := getgrgid gid.

(** A null pointer is [None]. *)
Definition userIdFromName (name : option string) : Z :=
  match name with
  | None | Some EmptyString => ID_ERROR
  | Some name =>
      let '(v, endptr, _) := strtoll name 10 in
      match endptr with
      | EmptyString => to_unsigned 32 v
      | _ => match getpwnam name with None => ID_ERROR | Some uid => uid end
      end
  end.

Definition groupIdFromName (name : option string) : Z :=
  match name with
  | None | Some EmptyString => ID_ERROR
  | Some name =>
      let '(v, endptr, _) := strtoll name 10 in
      match endptr with
      | EmptyString => to_unsigned 32 v
      | _ => match getgrnam name with None => ID_ERROR | Some gid => gid end
      end
  end.

(** *** Numbers and names *)

Lemma strtoll_fmt z : LLONG_MIN <= z <= LLONG_MAX → strtoll (fmt_d z) 10 = (z, "", 0).
Proof.
  intros Hz. assert (Hv : valid_base 10) by (right; right; left; done).
  unfold strtoll. rewrite (proj2 (strto_scan_numeral (fmt_d z) 10 (z <? 0) (Z.abs z) Hv) (fmt_d_numeral z)).
  assert (E : (if z <? 0 then - Z.abs z else Z.abs z) = z)
    by (destruct (Z.ltb_spec z 0); lia).
  rewrite E. rewrite (proj2 (Z.ltb_ge z LLONG_MIN)), (proj2 (Z.ltb_ge LLONG_MAX z)) by lia. done.
Qed.

Lemma fmt_d_nonempty z : ∃ c t, fmt_d z = String c t.
Proof.
  destruct (fmt_d z) as [|c t] eqn:E; [|eauto]. exfalso.
  pose proof (fmt_d_numeral z) as H. rewrite E in H.
  apply strto_scan_numeral in H; [done|]. right; right; left; done.
Qed.

(** A printed id is read back, by both functions; an id above the range is taken
    modulo 2^32. *)
Lemma id_of_number z :
  0 <= z <= LLONG_MAX →
  userIdFromName (Some (fmt_d z)) = to_unsigned 32 z ∧
  groupIdFromName (Some (fmt_d z)) = to_unsigned 32 z.
Proof.
  intros Hz. assert (Hr : LLONG_MIN <= z <= LLONG_MAX) by (unfold LLONG_MIN; lia).
  unfold userIdFromName, groupIdFromName.
  destruct (fmt_d_nonempty z) as (c & t & E). pose proof (strtoll_fmt z Hr) as Hs.
  rewrite E in *. by rewrite Hs.
Qed.

(** The id that a text stands for, in a database: a decimal numeral stands for its
    value, cut to the range of [long] and then to 32 bits, whatever the database
    says; any other text for the id of that name; the empty text for nothing. *)
Definition names_id (db : string → option Z) (q : string) (id : Z) : Prop :=
  q ≠ "" ∧
  ((∃ neg mag, numeral 10 q neg mag ∧
      id = to_unsigned 32 (Z.max LLONG_MIN (Z.min (if neg : bool then - mag else mag) LLONG_MAX))) ∨
   ((∀ neg mag, ¬ numeral 10 q neg mag) ∧ db q = Some id)).

(** What the two functions have in common. *)
Definition looked_up (db : string → option Z) (q : string) : Z :=
  let '(v, endptr, _) := strtoll q 10 in
  match endptr with
  | EmptyString => to_unsigned 32 v
  | _ => match db q with None => ID_ERROR | Some id => id end
  end.

Lemma looked_up_names db q id :
  q ≠ "" → to_signed 32 id ≠ -1 → id = looked_up db q ↔ names_id db q id.
Proof.
  intros Hq Hid. unfold looked_up, names_id, strtoll.
  assert (Hn : ∀ neg mag, strto_scan q 10 = Some (neg, mag, "") ↔ numeral 10 q neg mag)
    by (intros; apply strto_scan_numeral; right; right; left; done).
  assert (Herr : id = match db q with None => ID_ERROR | Some i => i end ↔ db q = Some id).
  { destruct (db q) as [i|]; [split; congruence|]. split; [by intros ->|done]. }
  assert (Hother : (∀ neg mag, strto_scan q 10 ≠ Some (neg, mag, "")) →
    id = match db q with None => ID_ERROR | Some i => i end ↔
    q ≠ "" ∧ ((∃ neg mag, numeral 10 q neg mag ∧
      id = to_unsigned 32 (Z.max LLONG_MIN (Z.min (if neg : bool then - mag else mag) LLONG_MAX))) ∨
      ((∀ neg mag, ¬ numeral 10 q neg mag) ∧ db q = Some id))).
  { intros Hno. rewrite Herr. split.
    - intros H. split; [done|]. right. split; [|done]. intros neg mag H'%Hn. by eapply Hno.
    - intros (_ & [(neg & mag & H'%Hn & _)|[_ H]]); [by destruct (Hno neg mag)|done]. }
  destruct (strto_scan q 10) as [[[neg mag] rest]|] eqn:E.
  2:{ destruct q; [done|]. by apply Hother. }
  set (v := if neg then - mag else mag).
  destruct rest as [|c rest].
  2:{ destruct (v <? LLONG_MIN); [|destruct (LLONG_MAX <? v)]; by apply Hother. }
  assert (Hv : ∀ v', v' = Z.max LLONG_MIN (Z.min v LLONG_MAX) → id = to_unsigned 32 v' ↔
    q ≠ "" ∧ ((∃ neg mag, numeral 10 q neg mag ∧
      id = to_unsigned 32 (Z.max LLONG_MIN (Z.min (if neg : bool then - mag else mag) LLONG_MAX))) ∨
      ((∀ neg mag, ¬ numeral 10 q neg mag) ∧ db q = Some id))).
  { intros v' ->. assert (Hnum : numeral 10 q neg mag) by by apply Hn. split.
    - intros ->. split; [done|]. left. by exists neg, mag.
    - intros (_ & [(neg' & mag' & H'%Hn & ->)|[H _]]); [by simplify_eq|by destruct (H neg mag)]. }
  unfold LLONG_MIN, LLONG_MAX in *.
  destruct (Z.ltb_spec v (- 2 ^ 63)); [|destruct (Z.ltb_spec (2 ^ 63 - 1) v)]; apply Hv; lia.
Qed.

(** The two functions give the id a text stands for; the error value -1 for every
    other text (and for a text that stands for that value). *)
Lemma userIdFromName_names q id :
  to_signed 32 id ≠ -1 → id = userIdFromName (Some q) ↔ names_id getpwnam q id.
Proof.
  intros Hid. destruct q as [|c q]; [|by apply (looked_up_names getpwnam)].
  split; [intros ->; done|by intros [? _]].
Qed.

Lemma groupIdFromName_names q id :
  to_signed 32 id ≠ -1 → id = groupIdFromName (Some q) ↔ names_id getgrnam q id.
Proof.
  intros Hid. destruct q as [|c q]; [|by apply (looked_up_names getgrnam)].
  split; [intros ->; done|by intros [? _]].
Qed.

(** [2^32] is the id of the superuser. *)
Theorem id_wraps_to_root : userIdFromName (Some "4294967296") = 0.
Proof. vm_compute. reflexivity. Qed.
End ugid.
