(* ===== verification/AclParse.v ===== *)
(** Access control lists as text: [parseEntrySpec] and [parseACL] of
    [acl/acl_update.c].

    The parsers store null bytes over the separators of the text they are given; they
    return the text as it is afterwards along with their result.  They are proved
    against a grammar of entries, and printing an entry
    and parsing it is proved to give it back. *)
From S2P Require Import Prelude CLib ErrorFunctions Proc Ugid.
Local Open Scope Z_scope.

(** [acl_tag_t] *)
Inductive acl_tag := ACL_USER_OBJ | ACL_USER | ACL_GROUP_OBJ | ACL_GROUP | ACL_MASK | ACL_OTHER.
#[global] Instance acl_tag_eq_dec : EqDecision acl_tag.
Proof. solve_decision. Defined.

Definition ACL_READ : Z := 4.
Definition ACL_WRITE : Z := 2.
Definition ACL_EXECUTE : Z := 1.
Definition MAX_ENTRIES : nat := Z.to_nat 10000.

(** [struct AccessControlEntry]; [perms] is [None] while the member has not been
    assigned. *)
Record ace := Ace { tag : acl_tag; qual : Z; perms : option Z }.
#[global] Instance ace_eq_dec : EqDecision ace.
Proof. solve_decision. Defined.

Definition NUL : ascii := Ascii.ascii_of_nat 0.

Section parse.
Context {L : Libc} {Db : UserDb} {V C W : Type}.
Local Abbreviation P := (M (pst V C W)).

(** The loop over the permission characters; [inl c] for a bad one. *)
Fixpoint parse_perms (acc : Z) (p : string) : ascii + Z :=
  match p with
  | EmptyString => inr acc
  | String c t =>
      if decide (c = "r"%char) then parse_perms (Z.lor acc ACL_READ) t
      else if decide (c = "w"%char) then parse_perms (Z.lor acc ACL_WRITE) t
      else if decide (c = "x"%char) then parse_perms (Z.lor acc ACL_EXECUTE) t
      else if decide (c = "-"%char) then parse_perms acc t
      else inl c
  end.

Definition tag_of (name : string) (hasQual : bool) : option acl_tag :=
  if bool_decide (name = "u" ∨ name = "user") then Some (if hasQual then ACL_USER else ACL_USER_OBJ)
  else if bool_decide (name = "g" ∨ name = "group") then
    Some (if hasQual then ACL_GROUP else ACL_GROUP_OBJ)
  else if bool_decide (name = "o" ∨ name = "other") then Some ACL_OTHER
  else if bool_decide (name = "m" ∨ name = "mask") then Some ACL_MASK
  else None.

(** Storing a null byte over the first [x] of a text. *)
Definition end_at (s : string) (x : ascii) : string :=
  match strchr s x with
  | Some p => before s x +:+ String NUL (advance p)
  | None => s
  end.

(** [colon1] and [colon2] are the positions of the first two colons; storing null
    bytes over them ends the tag and the qualifier.  The result comes with the text
    as it is left. *)
Definition parseEntrySpec (entryStr : string) (permsReqd : bool) : P (option ace * string) :=
  match strchr entryStr ":"%char with
  | None =>
      eprintf ("Missing initial colon in ACL entry: " +:+ entryStr +:+ nl);; mret (None, entryStr)
  | Some colon1 =>
      let after1 := advance colon1 in
      let hasQual := match deref after1 with
                     | None => false | Some c => negb (bool_decide (c = ":"%char)) end in
      let tagStr := before entryStr ":"%char in
      (* *colon1 = '\0' *)
      let text1 := tagStr +:+ String NUL after1 in
      let colon2 := strchr after1 ":"%char in
      let hasPerms := match colon2 with
                      | Some p => match deref (advance p) with None => false | Some _ => true end
                      | None => false
                      end in
      if hasPerms && negb permsReqd then
        eprintf ("Cannot specify permissions here" +:+ nl);; mret (None, text1)
      else if negb hasPerms && permsReqd then
        eprintf ("Must specify permissions" +:+ nl);; mret (None, text1)
      else
        match tag_of tagStr hasQual with
        | None => eprintf ("Bad tag: " +:+ tagStr +:+ nl);; mret (None, text1)
        | Some t =>
            (* *colon2 = '\0' *)
            let qualStr := before after1 ":"%char in
            let text2 := tagStr +:+ String NUL (end_at after1 ":") in
            let q := match t with
                     | ACL_USER => userIdFromName (Some qualStr)
                     | ACL_GROUP => groupIdFromName (Some qualStr)
                     | _ => 0
                     end in
            if bool_decide (t = ACL_USER) && (to_signed 32 q =? -1) then
              eprintf ("Bad user ID: " +:+ qualStr +:+ nl);; mret (None, text2)
            else if bool_decide (t = ACL_GROUP) && (to_signed 32 q =? -1) then
              eprintf ("Bad group ID: " +:+ qualStr +:+ nl);; mret (None, text2)
            else
              match colon2 with
              | Some p =>
                  if hasPerms then
                    match parse_perms 0 (advance p) with
                    | inl c =>
                        eprintf ("Bad character in permissions string: " +:+ String c "" +:+ nl);;
                        mret (None, text2)
                    | inr m => mret (Some (Ace t q (Some m)), text2)
                    end
                  else mret (Some (Ace t q None), text2)
              | None => mret (Some (Ace t q None), text2)
              end
        end
  end.

(** One turn of the loop of [parseACL]: the entries so far, the text before
    [nextEntry] as it is now, and the text from [nextEntry] on. *)
Definition parse_next (permsReqd : bool) (st : list ace * string * string)
    : P (list ace * string * string + option (list ace) * string) :=
  let '(aclist, done, nextEntry) := st in
  if (MAX_ENTRIES <=? length aclist)%nat then
    eprintf ("Too many entries in ACL" +:+ nl);; mret (inr (None, done +:+ nextEntry))
  else
    let comma := strchr nextEntry ","%char in
    (* *comma = '\0' *)
    let rest := match comma with Some p => String NUL (advance p) | None => "" end in
    r ← parseEntrySpec (before nextEntry ","%char) permsReqd;
    let '(e, text) := r in
    match e, comma with
    | None, _ => mret (inr (None, done +:+ text +:+ rest))
    | Some e, None => mret (inr (Some (aclist ++ [e]), done +:+ text))
    | Some e, Some p => mret (inl (aclist ++ [e], done +:+ text +:+ String NUL "", advance p))
    end.

Definition parseACL (aclStr : string) (permsReqd : bool) : P (option (list ace) * string) :=
  loop (S (String.length aclStr)) (parse_next permsReqd) ([], "", aclStr).
End parse.

(** ** The grammar *)

(** [tag:[qualifier][:[permissions]]]: the three parts, the last absent or given. *)
Definition entry_parts (s t q : string) (p : option string) : Prop :=
  all_chars (no_char ":") t = true ∧ all_chars (no_char ":") q = true ∧
  s = t +:+ String ":" (q +:+ match p with Some p => String ":" p | None => "" end).

Definition perm_bit (c : ascii) : Z :=
  if decide (c = "r"%char) then ACL_READ else if decide (c = "w"%char) then ACL_WRITE
  else if decide (c = "x"%char) then ACL_EXECUTE else 0.
Definition is_perm (c : ascii) : bool :=
  bool_decide (c = "r"%char ∨ c = "w"%char ∨ c = "x"%char ∨ c = "-"%char).
Definition perm_mask (p : string) : Z := foldl (λ m c, Z.lor m (perm_bit c)) 0 (chars p).

(** The words of a tag, without and with a qualifier after them, and the tag each
    stands for. *)
Definition acl_tags : list (string * bool * acl_tag) :=
  [("u", false, ACL_USER_OBJ); ("user", false, ACL_USER_OBJ);
   ("u", true, ACL_USER); ("user", true, ACL_USER);
   ("g", false, ACL_GROUP_OBJ); ("group", false, ACL_GROUP_OBJ);
   ("g", true, ACL_GROUP); ("group", true, ACL_GROUP);
   ("o", false, ACL_OTHER); ("other", false, ACL_OTHER);
   ("o", true, ACL_OTHER); ("other", true, ACL_OTHER);
   ("m", false, ACL_MASK); ("mask", false, ACL_MASK);
   ("m", true, ACL_MASK); ("mask", true, ACL_MASK)].

(** The id of the qualifier, for the tags that have one. *)
Definition qual_ok {Db : UserDb} (t : acl_tag) (q : string) (id : Z) : Prop :=
  match t with
  | ACL_USER => names_id getpwnam q id ∧ to_signed 32 id ≠ -1
  | ACL_GROUP => names_id getgrnam q id ∧ to_signed 32 id ≠ -1
  | _ => id = 0
  end.

(** The permissions are given exactly when they are asked for. *)
Definition perms_ok (permsReqd : bool) (p : option string) (m : option Z) : Prop :=
  if permsReqd
  then ∃ ps, p = Some ps ∧ ps ≠ "" ∧ all_chars is_perm ps = true ∧ m = Some (perm_mask ps)
  else (p = None ∨ p = Some "") ∧ m = None.

Definition entry_text {Db : UserDb} (permsReqd : bool) (s : string) (e : ace) : Prop :=
  ∃ t q p, entry_parts s t q p ∧
    (t, negb (bool_decide (q = "")), e.(tag)) ∈ acl_tags ∧ qual_ok e.(tag) q e.(qual) ∧
    perms_ok permsReqd p e.(perms).

(** The text between the commas. *)
Fixpoint split_commas (s : string) : list string :=
  match s with
  | EmptyString => [""]
  | String c t =>
      if decide (c = ","%char) then "" :: split_commas t
      else match split_commas t with
           | [] => [String c ""]
           | h :: r => String c h :: r
           end
  end.

Definition acl_text {Db : UserDb} (permsReqd : bool) (s : string) (l : list ace) : Prop :=
  Forall2 (entry_text permsReqd) (split_commas s) l ∧ (length l <= MAX_ENTRIES)%nat.

(** The text of an entry once its first [n] colons are null bytes, and that of a
    whole list: each comma and the first two colons of each entry are. *)
Fixpoint end_parts (n : nat) (s : string) : string :=
  match s with
  | EmptyString => ""
  | String c t =>
      if decide (c = ":"%char) then
        match n with O => s | S n => String NUL (end_parts n t) end
      else String c (end_parts n t)
  end.

Fixpoint join_nuls (l : list string) : string :=
  match l with [] => "" | [t] => t | t :: l => t +:+ String NUL (join_nuls l) end.

Definition ended_text (s : string) : string := join_nuls (end_parts 2 <$> split_commas s).

(** The two texts differ only in separators that became null bytes. *)
Definition blanked (s s' : string) : Prop :=
  Forall2 (λ c c', c' = c ∨ (c = ":"%char ∨ c = ","%char) ∧ c' = NUL) (chars s) (chars s').

Lemma blanked_refl s : blanked s s.
Proof. unfold blanked. induction (chars s); constructor; auto. Qed.
Lemma blanked_app s s' t t' : blanked s s' → blanked t t' → blanked (s +:+ t) (s' +:+ t').
Proof. unfold blanked. rewrite !chars_app. by apply Forall2_app. Qed.
Lemma blanked_sep c s s' :
  c = ":"%char ∨ c = ","%char → blanked s s' → blanked (String c s) (String NUL s').
Proof. intros Hc Hs. constructor; [by right|done]. Qed.
#[local] Hint Resolve blanked_refl blanked_app blanked_sep : core.

Lemma end_parts_none n s : all_chars (no_char ":") s = true → end_parts n s = s.
Proof.
  induction s as [|c s IH]; [done|]. rewrite all_chars_cons. intros [Hc Hs]%andb_true_iff.
  unfold no_char in Hc. apply bool_decide_eq_true in Hc. simpl.
  rewrite decide_False by done. by rewrite IH.
Qed.

Lemma end_parts_0 s : end_parts 0 s = s.
Proof. induction s as [|c s IH]; simpl; [done|]. case_decide; [done|]. by rewrite IH. Qed.

Lemma end_parts_at n t r :
  all_chars (no_char ":") t = true →
  end_parts (S n) (t +:+ String ":" r) = t +:+ String NUL (end_parts n r).
Proof.
  induction t as [|c t IH]; [done|]. rewrite all_chars_cons. intros [Hc Ht]%andb_true_iff.
  unfold no_char in Hc. apply bool_decide_eq_true in Hc. rewrite !append_cons. simpl.
  rewrite decide_False by done. by rewrite IH.
Qed.

Lemma end_at_parts s : end_at s ":" = end_parts 1 s.
Proof.
  unfold end_at. destruct (strchr_split ":" s) as [[-> Hs]|(t & r & -> & Ht & -> & ->)].
  - by rewrite end_parts_none.
  - rewrite end_parts_at by done. by rewrite end_parts_0.
Qed.

Lemma end_parts_blanked n s : blanked s (end_parts n s).
Proof.
  revert n. induction s as [|c s IH]; intros n; simpl; [constructor|]. case_decide as Hc.
  - subst. destruct n; [apply blanked_refl|]. apply blanked_sep; auto.
  - constructor; [by left|apply IH].
Qed.

Lemma tag_of_table t h tg : tag_of t h = Some tg ↔ (t, h, tg) ∈ acl_tags.
Proof.
  split.
  - unfold tag_of. repeat case_bool_decide; intros [= <-]; destruct_or!; subst; destruct h;
      apply list_elem_of_In; simpl; tauto.
  - intros H. apply list_elem_of_In in H. simpl in H.
    repeat destruct H as [H|H]; try done; by injection H as <- <- <-.
Qed.

Lemma split_commas_none s : all_chars (no_char ",") s = true → split_commas s = [s].
Proof.
  induction s as [|c s IH]; [done|]. rewrite all_chars_cons. intros [Hc Hs]%andb_true_iff.
  unfold no_char in Hc. apply bool_decide_eq_true in Hc. simpl.
  rewrite decide_False by done. by rewrite IH.
Qed.

Lemma split_commas_at t r :
  all_chars (no_char ",") t = true → split_commas (t +:+ String "," r) = t :: split_commas r.
Proof.
  induction t as [|c t IH]; [done|]. rewrite all_chars_cons. intros [Hc Ht]%andb_true_iff.
  unfold no_char in Hc. apply bool_decide_eq_true in Hc. rewrite append_cons. simpl.
  rewrite decide_False by done. by rewrite IH.
Qed.

(** *** The parts are determined by the text *)

Definition perms_text (p : option string) : string :=
  match p with Some p => String ":" p | None => "" end.

Lemma entry_parts_scan s t q p :
  entry_parts s t q p →
  strchr s ":"%char = Some (String ":" (q +:+ perms_text p)) ∧ before s ":"%char = t ∧
  strchr (q +:+ perms_text p) ":"%char = option_map (String ":") p ∧
  before (q +:+ perms_text p) ":"%char = q.
Proof.
  intros (Ht & Hq & ->). fold (perms_text p).
  destruct (strchr_at ":" t (q +:+ perms_text p) Ht) as [-> ->].
  destruct p as [p|]; simpl.
  - destruct (strchr_at ":" q p Hq) as [-> ->]. done.
  - rewrite append_nil_r. by destruct (strchr_none ":" q Hq) as [-> ->].
Qed.

Lemma entry_parts_exists s :
  strchr s ":"%char ≠ None → ∃ t q p, entry_parts s t q p.
Proof.
  intros Hs. destruct (strchr_split ":" s) as [[? _]|(t & r & -> & Ht & _)]; [done|].
  destruct (strchr_split ":" r) as [[_ Hr]|(q & p & -> & Hq & _)].
  - exists t, r, None. split_and!; [done..|]. by rewrite append_nil_r.
  - by exists t, q, (Some p).
Qed.

Lemma entry_parts_unique s t q p t' q' p' :
  entry_parts s t q p → entry_parts s t' q' p' → t = t' ∧ q = q' ∧ p = p'.
Proof.
  intros H H'. apply entry_parts_scan in H as (H1 & H2 & H3 & H4).
  apply entry_parts_scan in H' as (H1' & H2' & H3' & H4').
  rewrite H1 in H1'. injection H1' as E. rewrite E in H3, H4.
  rewrite H3 in H3'. rewrite H4 in H4'. split_and!; [congruence..|].
  destruct p, p'; simplify_eq/=; done.
Qed.

(** The texts that [parseEntrySpec] leaves. *)
Lemma entry_parts_ended s t q p :
  entry_parts s t q p →
  let rest := q +:+ perms_text p in
  blanked s (t +:+ String NUL rest) ∧ blanked s (t +:+ String NUL (end_at rest ":")) ∧
  t +:+ String NUL (end_at rest ":") = end_parts 2 s.
Proof.
  intros (Ht & Hq & ->). fold (perms_text p). split_and!.
  - apply blanked_app; [apply blanked_refl|apply blanked_sep; auto].
  - rewrite end_at_parts. apply blanked_app; [apply blanked_refl|].
    apply blanked_sep; [auto|apply end_parts_blanked].
  - by rewrite end_at_parts, end_parts_at.
Qed.

Lemma parse_perms_spec acc p :
  match parse_perms acc p with
  | inr m => all_chars is_perm p = true ∧ m = foldl (λ m c, Z.lor m (perm_bit c)) acc (chars p)
  | inl _ => all_chars is_perm p = false
  end.
Proof.
  revert acc. induction p as [|c p IH]; intros acc; [done|].
  rewrite all_chars_cons. cbn [parse_perms chars foldl].
  destruct (decide (c = "r"%char)) as [->|H1]; [apply IH|].
  destruct (decide (c = "w"%char)) as [->|H2]; [apply IH|].
  destruct (decide (c = "x"%char)) as [->|H3]; [apply IH|].
  destruct (decide (c = "-"%char)) as [->|H4].
  - change (perm_bit "-") with 0. rewrite Z.lor_0_r. apply IH.
  - unfold is_perm at 1. by rewrite bool_decide_eq_false_2 by tauto.
Qed.

Section runs.
Context {L : Libc} {Db : UserDb} {V C W : Type}.
Local Abbreviation state := (pst V C W).

(** The function returns, changing nothing but the standard error stream. *)
Definition gives {A} (m : M state A) (s : state) (r : A) : Prop :=
  ∃ s', m s = (Ok r, s') ∧ same_but_proc s s'.

Lemma gives_ret {A} (a : A) s : gives (mret a) s a.
Proof. by exists s. Qed.
Lemma gives_msg {A} t (a : A) s : gives (eprintf t;; mret a) s a.
Proof. by eexists. Qed.
Hint Resolve gives_ret gives_msg : core.

(** What [parseEntrySpec] promises: the entry that the text is, if any, and the text
    with null bytes for separators. *)
Definition entry_result (b : bool) (str : string) (rt : option ace * string) : Prop :=
  blanked str rt.2 ∧ (∀ e, rt.1 = Some e ↔ entry_text b str e) ∧
  (is_Some rt.1 → rt.2 = end_parts 2 str).

(** A failed parse, of a text that is not an entry. *)
Lemma gives_none (m : M state (option ace * string)) s b str text :
  gives m s (None, text) → blanked str text → (∀ e, ¬ entry_text b str e) →
  ∃ rt, gives m s rt ∧ entry_result b str rt.
Proof.
  intros Hm Hb HQ. exists (None, text). split; [done|]. split; [done|]. split; [|by intros []].
  intros e. split; [done|]. intros H. by destruct (HQ e).
Qed.

Lemma gives_some (m : M state (option ace * string)) s b str text e0 :
  gives m s (Some e0, text) → blanked str text → text = end_parts 2 str →
  (∀ e, e = e0 ↔ entry_text b str e) → ∃ rt, gives m s rt ∧ entry_result b str rt.
Proof.
  intros Hm Hb Ht HQ. exists (Some e0, text). split; [done|]. split; [done|]. split; [|done].
  intros e. rewrite <- HQ. split; [by intros [= ->]|by intros ->].
Qed.

Lemma ace_eta e : e = Ace e.(tag) e.(qual) e.(perms).
Proof. by destruct e. Qed.

Lemma parseEntrySpec_run str b s :
  ∃ rt, gives (parseEntrySpec str b) s rt ∧ entry_result b str rt.
Proof.
  unfold parseEntrySpec. destruct (strchr str ":"%char) as [c1|] eqn:E1.
  2:{ eapply gives_none; [apply gives_msg|apply blanked_refl|].
      intros e (t & q & p & Hp & _). by destruct (entry_parts_scan _ _ _ _ Hp) as [? _]; simplify_eq. }
  destruct (entry_parts_exists str) as (t & q & p & Hparts); [by rewrite E1|].
  destruct (entry_parts_scan _ _ _ _ Hparts) as (H1 & H2 & H3 & H4).
  rewrite E1 in H1. injection H1 as ->. cbn [advance]. rewrite H2, H3, H4.
  destruct (entry_parts_ended _ _ _ _ Hparts) as (B1 & B2 & Hend).
  assert (Htext : ∀ e, entry_text b str e ↔
    (t, negb (bool_decide (q = "")), e.(tag)) ∈ acl_tags ∧ qual_ok e.(tag) q e.(qual) ∧
    perms_ok b p e.(perms)).
  { intros e. split.
    - intros (t' & q' & p' & Hp' & Hrest).
      destruct (entry_parts_unique _ _ _ _ _ _ _ Hparts Hp') as (-> & -> & ->). exact Hrest.
    - intros H. by exists t, q, p. }
  assert (Hq : match deref (q +:+ perms_text p) with
               | None => false | Some c => negb (bool_decide (c = ":"%char)) end
             = negb (bool_decide (q = ""))).
  { destruct Hparts as (_ & Hq & _). destruct q as [|c q]; [by destruct p|]. simpl.
    rewrite all_chars_cons in Hq. apply andb_true_iff in Hq as [Hc _].
    unfold no_char in Hc. apply bool_decide_eq_true in Hc.
    by rewrite !bool_decide_eq_false_2. }
  rewrite Hq. clear Hq E1 H2 H3 H4 Hparts. set (hq := negb (bool_decide (q = ""))) in *.
  set (hasPerms := match option_map (String ":") p with Some _ => _ | None => _ end).
  assert (Hhp : hasPerms = match p with Some (String _ _) => true | _ => false end)
    by by destruct p as [[|]|].
  destruct (hasPerms && negb b) eqn:Eb1.
  { eapply gives_none; [apply gives_msg|done|]. intros e (_ & _ & Hp)%Htext.
    apply andb_true_iff in Eb1 as [E1 E2]. rewrite E1 in Hhp. destruct b; [done|].
    destruct Hp as [[->| ->] _]; done. }
  destruct (negb hasPerms && b) eqn:Eb2.
  { eapply gives_none; [apply gives_msg|done|]. intros e (_ & _ & Hp)%Htext.
    apply andb_true_iff in Eb2 as [E1 ->]. apply negb_true_iff in E1. rewrite E1 in Hhp.
    destruct Hp as (ps & -> & Hne & _). by destruct ps. }
  destruct (tag_of t hq) as [tg|] eqn:Etag.
  2:{ eapply gives_none; [apply gives_msg|done|]. intros e (H & _)%Htext.
      apply tag_of_table in H. congruence. }
  set (qv := match tg with ACL_USER => _ | ACL_GROUP => _ | _ => 0 end).
  assert (Hqual : ∀ id, qual_ok tg q id ↔ id = qv ∧
    (bool_decide (tg = ACL_USER) && (to_signed 32 qv =? -1) = false) ∧
    (bool_decide (tg = ACL_GROUP) && (to_signed 32 qv =? -1) = false)).
  { intros id. unfold qv. destruct tg; simpl; rewrite ?Z.eqb_neq; try naive_solver.
    - split; [intros [H Hid]; apply userIdFromName_names in H as ->; naive_solver|].
      intros (-> & Hid & _). split; [by apply userIdFromName_names|done].
    - split; [intros [H Hid]; apply groupIdFromName_names in H as ->; naive_solver|].
      intros (-> & _ & Hid). split; [by apply groupIdFromName_names|done]. }
  destruct (bool_decide (tg = ACL_USER) && _) eqn:Eu.
  { eapply gives_none; [apply gives_msg|done|]. intros e (Ht & Hq & _)%Htext.
    apply tag_of_table in Ht. simplify_eq. by apply Hqual in Hq as (_ & ? & _). }
  destruct (bool_decide (tg = ACL_GROUP) && _) eqn:Eg.
  { eapply gives_none; [apply gives_msg|done|]. intros e (Ht & Hq & _)%Htext.
    apply tag_of_table in Ht. simplify_eq. by apply Hqual in Hq as (_ & _ & ?). }
  assert (Hfin : ∀ m (Q : Prop), (∀ m', perms_ok b p m' ↔ m' = m ∧ Q) → Q →
    ∀ e, e = Ace tg qv m ↔ entry_text b str e).
  { intros m Q HQ Hy e. rewrite Htext. split.
    - intros ->. cbn [tag qual perms]. split; [by apply tag_of_table|]. split; [by apply Hqual|by apply HQ].
    - intros (Ht & Hq & Hp). rewrite (ace_eta e). apply HQ in Hp as [-> _]. apply tag_of_table in Ht.
      simplify_eq. apply Hqual in Hq as [-> _]. congruence. }
  destruct p as [[|c ps]|]; simpl option_map; cbv iota; rewrite ?Hhp in *.
  - assert (b = false) as -> by by destruct b.
    eapply gives_some; [apply gives_ret|done|done|]. apply (Hfin None True); [|done].
    intros m'. unfold perms_ok. naive_solver.
  - assert (b = true) as -> by by destruct b. cbn [advance].
    pose proof (parse_perms_spec 0 (String c ps)) as Hpp.
    destruct (parse_perms 0 (String c ps)) as [bad|m].
    + eapply gives_none; [apply gives_msg|done|]. intros e (_ & _ & Hp)%Htext.
      destruct Hp as (ps' & [= <-] & _ & Hall & _). congruence.
    + destruct Hpp as [Hall Hm]. eapply gives_some; [apply gives_ret|done|done|].
      apply (Hfin (Some m) True); [|done]. intros m'. unfold perms_ok.
      fold (perm_mask (String c ps)) in Hm. rewrite Hm. naive_solver.
  - assert (b = false) as -> by by destruct b.
    eapply gives_some; [apply gives_ret|done|done|]. apply (Hfin None True); [|done].
    intros m'. unfold perms_ok. naive_solver.
Qed.

Lemma gives_bind {A B} (m : M state A) (k : A → M state B) s a s' r :
  m s = (Ok a, s') → same_but_proc s s' → gives (k a) s' r → gives (m ≫= k) s r.
Proof.
  intros Hm Hs (s2 & Hk & Hs2). exists s2. split; [by erewrite run_bind|by etransitivity].
Qed.

Lemma split_commas_nonempty s : split_commas s ≠ [].
Proof.
  destruct s as [|c s]; simpl; [done|]. case_decide; [done|]. by destruct (split_commas s).
Qed.

Lemma ended_text_at t r :
  all_chars (no_char ",") t = true →
  ended_text (t +:+ String "," r) = end_parts 2 t +:+ String NUL (ended_text r).
Proof.
  intros Ht. unfold ended_text. rewrite split_commas_at by done. rewrite fmap_cons.
  pose proof (split_commas_nonempty r). by destruct (split_commas r).
Qed.

(** What the loop promises from the text [p] on, with [k] entries before it. *)
Definition list_result (b : bool) (acc : list ace) (p : string) (r : option (list ace))
    (text : string) : Prop :=
  blanked p text ∧ (is_Some r → text = ended_text p) ∧
  ∀ l, r = Some l ↔ ∃ l', l = acc ++ l' ∧ Forall2 (entry_text b) (split_commas p) l' ∧
                      (length acc + length l' <= MAX_ENTRIES)%nat.

Lemma list_result_none b acc p text :
  blanked p text →
  (∀ l', Forall2 (entry_text b) (split_commas p) l' → (length acc + length l' <= MAX_ENTRIES)%nat → False) →
  list_result b acc p None text.
Proof.
  intros Hb H. split_and!; [done|by intros []|]. intros l. split; [done|].
  intros (l' & _ & Hl & Hlen). by destruct (H l' Hl Hlen).
Qed.

(** The last entry. *)
Lemma list_result_last b acc p e text :
  (length acc < MAX_ENTRIES)%nat → all_chars (no_char ",") p = true →
  entry_result b p (Some e, text) → list_result b acc p (Some (acc ++ [e])) text.
Proof.
  intros Hk Hall (Hb & Hr & Ht). cbn [fst snd] in *. unfold list_result, ended_text.
  rewrite (split_commas_none p Hall). split_and!; [done|by intros _; apply Ht|].
  intros l. split.
  - intros [= <-]. exists [e]. split_and!; [done| |simpl; lia].
    constructor; [by apply Hr|constructor].
  - intros (l' & -> & H & _). apply Forall2_cons_inv_l in H as (e' & l'' & He & Hl & ->).
    inversion Hl; subst. apply Hr in He as [= ->]. done.
Qed.

(** An entry before a comma. *)
Lemma list_result_next b acc t rest e text r text' :
  all_chars (no_char ",") t = true → entry_result b t (Some e, text) →
  list_result b (acc ++ [e]) rest r text' →
  list_result b acc (t +:+ String "," rest) r (text +:+ String NUL text').
Proof.
  intros Hall (Hb & Hr & Ht) (Hb' & Ht' & Hr'). cbn [fst snd] in *. split_and!.
  - apply blanked_app; [done|]. by apply blanked_sep; [right|].
  - intros Hs. rewrite ended_text_at, Ht' by done. by rewrite Ht.
  - intros l. rewrite Hr', (split_commas_at t rest Hall), length_app. simpl. split.
    + intros (l' & -> & Hl & Hlen). exists (e :: l'). rewrite <- app_assoc.
      split_and!; [done| |simpl; lia]. constructor; [by apply Hr|done].
    + intros (l' & -> & H & Hlen). apply Forall2_cons_inv_l in H as (e' & l'' & He & Hl & ->).
      apply Hr in He as [= ->]. exists l''. rewrite <- app_assoc. simpl in Hlen.
      split_and!; [done..|lia].
Qed.

Lemma parse_next_full b acc don p s :
  (MAX_ENTRIES <= length acc)%nat → gives (parse_next b (acc, don, p)) s (inr (None, don +:+ p)).
Proof. intros H. unfold parse_next. rewrite (proj2 (Nat.leb_le _ _) H). apply gives_msg. Qed.

Lemma parse_next_last b acc don p s :
  (length acc < MAX_ENTRIES)%nat → all_chars (no_char ",") p = true →
  ∃ rt, entry_result b p rt ∧
    gives (parse_next b (acc, don, p)) s (inr ((λ e, acc ++ [e]) <$> rt.1, don +:+ rt.2)).
Proof.
  intros Hk Hall. unfold parse_next. rewrite (proj2 (Nat.leb_gt _ _) Hk).
  destruct (strchr_none "," p Hall) as [-> ->].
  destruct (parseEntrySpec_run p b s) as ([e text] & (s1 & H1 & Hs1) & Hr).
  exists (e, text). split; [done|]. eapply gives_bind; [exact H1|exact Hs1|].
  destruct e; simpl; rewrite ?append_nil_r; apply gives_ret.
Qed.

Lemma parse_next_comma b acc don t rest s :
  (length acc < MAX_ENTRIES)%nat → all_chars (no_char ",") t = true →
  ∃ rt, entry_result b t rt ∧
    gives (parse_next b (acc, don, t +:+ String "," rest)) s
      match rt.1 with
      | Some e => inl (acc ++ [e], don +:+ rt.2 +:+ String NUL "", rest)
      | None => inr (None, don +:+ rt.2 +:+ String NUL rest)
      end.
Proof.
  intros Hk Ht. unfold parse_next. rewrite (proj2 (Nat.leb_gt _ _) Hk).
  destruct (strchr_at "," t rest Ht) as [-> ->].
  destruct (parseEntrySpec_run t b s) as ([e text] & (s1 & H1 & Hs1) & Hr).
  exists (e, text). split; [done|]. eapply gives_bind; [exact H1|exact Hs1|].
  destruct e; apply gives_ret.
Qed.

Lemma parseACL_loop b fuel acc don p s :
  (String.length p < fuel)%nat →
  ∃ r text, gives (loop fuel (parse_next b) (acc, don, p)) s (r, don +:+ text) ∧
    list_result b acc p r text.
Proof.
  revert acc don p s. induction fuel as [|fuel IH]; intros acc don p s Hf; [lia|]. cbn [loop].
  destruct (decide (MAX_ENTRIES <= length acc)%nat) as [Hk|Hk].
  { destruct (parse_next_full b acc don p s Hk) as (s1 & H1 & Hs1). exists None, p. split.
    - eapply gives_bind; [exact H1|exact Hs1|]. apply gives_ret.
    - apply list_result_none; [apply blanked_refl|]. intros l' H Hlen.
      apply Forall2_length in H. pose proof (split_commas_nonempty p).
      destruct (split_commas p); simpl in *; [done|lia]. }
  apply Nat.nle_gt in Hk.
  destruct (strchr_split "," p) as [[_ Hall]|(t & rest & -> & Ht & _)].
  - destruct (parse_next_last b acc don p s Hk Hall) as ([e text] & He & (s1 & H1 & Hs1)).
    exists ((λ e, acc ++ [e]) <$> e), text. split.
    { eapply gives_bind; [exact H1|exact Hs1|]. apply gives_ret. }
    destruct e as [e|]; [by apply list_result_last|].
    apply list_result_none; [apply He|]. intros l' H _. rewrite (split_commas_none p Hall) in H.
    apply Forall2_cons_inv_l in H as (e' & l'' & He' & _). by apply He in He'.
  - destruct (parse_next_comma b acc don t rest s Hk Ht) as ([[e|] text] & He & (s1 & H1 & Hs1)).
    + rewrite length_append in Hf. simpl in Hf.
      destruct (IH (acc ++ [e]) (don +:+ text +:+ String NUL "") rest s1 ltac:(lia))
        as (r & text' & H2 & Hr).
      exists r, (text +:+ String NUL text'). split; [|by eapply list_result_next].
      eapply gives_bind; [exact H1|exact Hs1|].
      replace (don +:+ text +:+ String NUL text') with ((don +:+ text +:+ String NUL "") +:+ text')
        by by rewrite <- !append_assoc.
      exact H2.
    + exists None, (text +:+ String NUL rest). split.
      { eapply gives_bind; [exact H1|exact Hs1|]. apply gives_ret. }
      apply list_result_none.
      * apply blanked_app; [apply He|]. apply blanked_sep; [by right|apply blanked_refl].
      * intros l' H _. rewrite (split_commas_at t rest Ht) in H.
        apply Forall2_cons_inv_l in H as (e' & l'' & He' & _). by apply He in He'.
Qed.

Lemma parseACL_run str b s :
  ∃ r text, gives (parseACL str b) s (r, text) ∧ blanked str text ∧
    (is_Some r → text = ended_text str) ∧ ∀ l, r = Some l ↔ acl_text b str l.
Proof.
  destruct (parseACL_loop b (S (String.length str)) [] "" str s ltac:(lia))
    as (r & text & H & Hb & Ht & Hr).
  exists r, text. split_and!; [exact H|done|done|]. intros l. rewrite Hr. unfold acl_text. simpl.
  naive_solver.
Qed.
End runs.

(** C25: [parseACL] always returns, and of the process only the standard error
    stream can have changed.  It gives a list of entries exactly when the text is
    that list: up to [MAX_ENTRIES] entries separated by commas, each with a word of
    the table [acl_tags] (where user and group words stand for different tags with
    and without a qualifier), for the tags of named users and groups a qualifier
    that is a decimal numeral or a name in the database and does not stand for -1,
    and letters r, w, x or dashes exactly when permissions are required; in every other
    case it gives -1.  The text it was given differs afterwards only in separators
    that became null bytes; when the parse succeeds these are all the commas and
    the first two colons of each entry. *)
Theorem parseACL_spec {L : Libc} {Db : UserDb} {V C W} str b (s : pst V C W) :
  ∃ r text s', parseACL str b s = (Ok (r, text), s') ∧ same_but_proc s s' ∧
    (∀ l, r = Some l ↔ acl_text b str l) ∧
    blanked str text ∧ (is_Some r → text = ended_text str).
Proof.
  destruct (parseACL_run str b s) as (r & text & (s' & H & Hs) & Hb & Ht & Hr).
  exists r, text, s'. by split_and!.
Qed.

Definition no_users : UserDb :=
  {| getpwnam _ := None; getpwuid _ := None; getgrnam _ := None; getgrgid _ := None |}.
Definition demo_libc : Libc := {| strerror _ := "error"; io_errno e := e |}.
Definition demo_state : pst unit unit unit := Pst (Proc 0 [] "" "" []) tt [] tt.

Example parseACL_text :
  (parseACL (L := demo_libc) (Db := no_users) "u:7:rw,other::x,bad" true demo_state).1 =
  Ok (None, "u" +:+ String NUL ("7" +:+ String NUL ("rw" +:+ String NUL
        ("other" +:+ String NUL ("" +:+ String NUL ("x" +:+ String NUL "bad")))))).
Proof. vm_compute. reflexivity. Qed.

(** ** Printing entries *)

Definition tag_text (t : acl_tag) : string :=
  match t with
  | ACL_USER_OBJ | ACL_USER => "user"
  | ACL_GROUP_OBJ | ACL_GROUP => "group"
  | ACL_MASK => "mask"
  | ACL_OTHER => "other"
  end.
Definition has_qual (t : acl_tag) : bool :=
  match t with ACL_USER | ACL_GROUP => true | _ => false end.
Definition show_perms (m : Z) : string :=
  (if has m ACL_READ then "r" else "-") +:+ (if has m ACL_WRITE then "w" else "-") +:+
  (if has m ACL_EXECUTE then "x" else "-").
Definition show_ace (e : ace) : string :=
  tag_text e.(tag) +:+ String ":"
    ((if has_qual e.(tag) then fmt_d e.(qual) else "") +:+
     String ":" (show_perms (default 0 e.(perms)))).

(** An entry with permissions, and an id that is not the error value. *)
Definition ace_ok (e : ace) : Prop :=
  (∃ m, e.(perms) = Some m ∧ 0 <= m < 8) ∧
  (if has_qual e.(tag) then 0 <= e.(qual) < UINT_MAX else e.(qual) = 0).

Lemma fmt_d_digits z : 0 <= z → digits_of 10 (fmt_d z) z.
Proof.
  intros Hz. unfold fmt_d. rewrite (proj2 (Z.ltb_ge z 0)) by done. by apply dec_nonneg_spec.
Qed.

Lemma fmt_d_no_char x z :
  0 <= z → is_base_digit 10 x = false → all_chars (no_char x) (fmt_d z) = true.
Proof.
  intros Hz Hx. destruct (fmt_d_digits z Hz) as (_ & Hd & _).
  eapply all_chars_impl; [|exact Hd]. intros c Hc. apply bool_decide_eq_true.
  intros ->. congruence.
Qed.

Lemma show_perms_ok m :
  0 <= m < 8 →
  show_perms m ≠ "" ∧ all_chars is_perm (show_perms m) = true ∧
  perm_mask (show_perms m) = m ∧ all_chars (no_char ",") (show_perms m) = true.
Proof.
  intros Hm. assert (m = 0 ∨ m = 1 ∨ m = 2 ∨ m = 3 ∨ m = 4 ∨ m = 5 ∨ m = 6 ∨ m = 7) as Hc by lia.
  destruct_or! Hc; subst m; by split_and!.
Qed.

Section roundtrip.
Context {Db : UserDb}.

(** An id that is not the error value is given by its numeral. *)
Lemma id_not_error id :
  0 <= id < UINT_MAX →
  to_signed 32 id ≠ -1 ∧ id = userIdFromName (Some (fmt_d id)) ∧ id = groupIdFromName (Some (fmt_d id)).
Proof.
  intros Hq. unfold UINT_MAX in Hq.
  destruct (id_of_number id) as [-> ->]; [unfold LLONG_MAX; lia|].
  rewrite to_unsigned_small by lia. split; [|done].
  unfold to_signed. intros E.
  assert (Hx : (id + 2 ^ (32 - 1)) mod 2 ^ 32 = 2 ^ 31 - 1) by lia.
  destruct (Z.ltb_spec id (2 ^ 31)).
  - rewrite Z.mod_small in Hx by lia; lia.
  - rewrite (Z.mod_eq _ (2 ^ 32)) in Hx by lia.
    assert (Hd : (id + 2 ^ (32 - 1)) / 2 ^ 32 = 1)
      by (symmetry; apply (Z.div_unique _ _ _ (id - 2 ^ 31)); lia). lia.
Qed.

Lemma show_ace_text e : ace_ok e → entry_text true (show_ace e) e.
Proof.
  intros ((m & Hm & Hr) & Hq). destruct (show_perms_ok m Hr) as (Hp1 & Hp2 & Hp3 & _).
  exists (tag_text e.(tag)), (if has_qual e.(tag) then fmt_d e.(qual) else ""),
    (Some (show_perms m)). split; [|split; [|split]].
  - split; [by destruct (tag e)|]. split; [|by unfold show_ace; rewrite Hm].
    destruct (has_qual (tag e)); [|done]. apply fmt_d_no_char; [lia|done].
  - apply tag_of_table.
    destruct (fmt_d_nonempty (qual e)) as (c & t & E). destruct (tag e); simpl; rewrite ?E; done.
  - destruct (tag e) eqn:Et; simpl in Hq; try done.
    all: destruct (id_not_error (qual e) Hq) as (Hid & H1 & H2); simpl.
    all: split; [|done]; by first [apply userIdFromName_names|apply groupIdFromName_names].
  - exists (show_perms m). by rewrite Hm, Hp3.
Qed.

Lemma show_ace_no_comma e : ace_ok e → all_chars (no_char ",") (show_ace e) = true.
Proof.
  intros ((m & Hm & Hr) & Hq). destruct (show_perms_ok m Hr) as (_ & _ & _ & Hp).
  unfold show_ace. rewrite all_chars_app, all_chars_cons, all_chars_app, all_chars_cons.
  rewrite Hm. simpl default. rewrite Hp. rewrite !andb_true_r.
  apply andb_true_iff. split; [by destruct (tag e)|]. simpl.
  destruct (has_qual (tag e)); [|done].
  apply fmt_d_no_char; [lia|done].
Qed.

Lemma split_join l :
  Forall (λ t, all_chars (no_char ",") t = true) l → l ≠ [] → split_commas (join_commas l) = l.
Proof.
  induction 1 as [|t l Ht Hl IH]; [done|]. intros _. destruct l as [|t' l].
  - by apply split_commas_none.
  - rewrite join_commas_cons by done. rewrite split_commas_at by done. by rewrite IH.
Qed.
End roundtrip.

(** The text of a list of entries is parsed back to the same list. *)
Theorem parseACL_roundtrip {L : Libc} {Db : UserDb} {V C W} l (s : pst V C W) :
  Forall ace_ok l → l ≠ [] → (length l <= MAX_ENTRIES)%nat →
  ∃ text s', parseACL (join_commas (show_ace <$> l)) true s = (Ok (Some l, text), s') ∧ same_but_proc s s'.
Proof.
  intros Hok Hne Hlen.
  destruct (parseACL_run (join_commas (show_ace <$> l)) true s) as (r & text & (s' & H & Hs) & _ & _ & Hr).
  exists text, s'. split; [|done]. rewrite H. do 3 f_equal. apply Hr. split; [|done].
  rewrite split_join; [|apply Forall_fmap; eapply Forall_impl; [exact Hok|apply show_ace_no_comma]|by destruct l].
  apply Forall2_fmap_l, Forall_Forall2_diag. eapply Forall_impl; [exact Hok|apply show_ace_text].
Qed.

Definition demo_acl : list ace :=
  [Ace ACL_USER_OBJ 0 (Some 7); Ace ACL_USER 1000 (Some 6); Ace ACL_MASK 0 (Some 5)].

Lemma parseACL_roundtrip_witness :
  ∃ text s', parseACL (L := demo_libc) (Db := no_users) "user::rwx,user:1000:rw-,mask::r-x" true
          demo_state = (Ok (Some demo_acl, text), s') ∧ same_but_proc demo_state s'.
Proof.
  change "user::rwx,user:1000:rw-,mask::r-x" with (join_commas (show_ace <$> demo_acl)).
  apply (parseACL_roundtrip (L := demo_libc) (Db := no_users) demo_acl demo_state).
  - repeat constructor; simpl; try lia; eexists; split; done || lia.
  - done.
  - unfold MAX_ENTRIES. simpl length. lia.
Defined.
