(* ===== verification/Acl.v ===== *)
(** Changing access control lists: [findEntry], [setPerms], [updateACL], the
    options and [main] of [acl/acl_update.c].

    The ACL library is a class: an ACL in working storage is a value of an
    abstract type [A] with entries that handles [H] refer to.  The laws say what
    each call that succeeds does to the entries; the order of entries is not
    fixed, since the library may reorder them.  An ACL with distinct entries is
    a finite map from tag and qualifier to permissions, and [updateACL] is
    proved to be insertion into and deletion from that map. *)
From stdpp Require Import gmap.
From S2P Require Import Prelude CLib ErrorFunctions Proc Args Getopt Ugid AclParse.
Local Open Scope Z_scope.

#[global] Instance acl_tag_countable : Countable acl_tag.
Proof.
  apply (inj_countable'
    (λ t, match t with ACL_USER_OBJ => 0 | ACL_USER => 1 | ACL_GROUP_OBJ => 2 | ACL_GROUP => 3
          | ACL_MASK => 4 | ACL_OTHER => 5 end%nat)
    (λ n, match n with 0 => ACL_USER_OBJ | 1 => ACL_USER | 2 => ACL_GROUP_OBJ | 3 => ACL_GROUP
          | 4 => ACL_MASK | _ => ACL_OTHER end%nat)).
  by intros [].
Defined.

(** An entry of an ACL. *)
Record ent := Ent { etag : acl_tag; equal_ : Z; eperms : Z }.

(** What identifies an entry: the tag, and the qualifier where it has one. *)
Definition key : Type := acl_tag * Z.
Definition key_of (t : acl_tag) (q : Z) : key := (t, if has_qual t then q else 0).
Definition ent_key (e : ent) : key := key_of e.(etag) e.(equal_).

Class AclLib (A H W : Type) := {
  acl_get_file : string → bool → W → (Z + A) * W;
  acl_set_file : string → bool → A → W → (Z + Z) * W;
  acl_delete_def_file : string → W → (Z + Z) * W;
  acl_free : W → (Z + Z) * W;
  acl_get_entry : A → nat → Z + option H;        (* the [n]-th of the walk *)
  acl_get_tag_type : A → H → Z + acl_tag;
  acl_get_qualifier : A → H → Z + Z;
  acl_create_entry : A → Z + (A * H);
  acl_set_tag_type : A → H → acl_tag → Z + A;
  acl_set_qualifier : A → H → Z → Z + A;
  acl_get_permset : A → H → Z + Z;
  acl_clear_perms : Z → Z + Z;
  acl_add_perm : Z → Z → Z + Z;
  acl_set_permset : A → H → Z → Z + A;
  acl_delete_entry : A → H → Z + A;
  acl_calc_mask : A → Z + A;
  acl_valid : A → Z + unit
}.

(** The calls that concern files. *)
Inductive acl_call (A : Type) :=
| CGetFile (file : string) (dflt : bool)
| CSetFile (file : string) (dflt : bool) (a : A)
| CDelDef (file : string)
| CFree.
Arguments CGetFile {A}.
Arguments CSetFile {A}.
Arguments CDelDef {A}.
Arguments CFree {A}.

Inductive operation :=
| unspecifiedOp | modifyEntries | removeEntries | removeDefaultACL | checkValidACL.
#[global] Instance operation_eq_dec : EqDecision operation.
Proof. solve_decision. Defined.

Section acl_update.
Context {L : Libc} {Db : UserDb} {A H W : Type} `{!AclLib A H W}.
Local Abbreviation P := (M (pst unit (acl_call A) W)).

(** [if (call == -1) systmErr(msg);] for a call on working storage, and for one
    on files. *)
Definition lib {X} (msg : string) (r : Z + X) : P X :=
  match r with
  | inl e => put_errno e;; p_systmErr msg
  | inr x => mret x
  end.
Definition file_call {X} (msg : string) (c : acl_call A) (f : W → (Z + X) * W) : P X :=
  r ← call c f;
  match r with inl _ => p_systmErr msg | inr x => mret x end.

(** The [n]-th turn of [for (int ent = ACL_FIRST_ENTRY; ; ent = ACL_NEXT_ENTRY)]. *)
Definition find_step (acl : A) (t : acl_tag) (q : Z) (n : nat) : P (nat + option H) :=
  s ← lib "acl_get_entry" (acl_get_entry acl n);
  match s with
  | None => mret (inr None)
  | Some entry =>
      entryTag ← lib "acl_get_tag_type" (acl_get_tag_type acl entry);
      if bool_decide (t = entryTag) then
        if bool_decide (t = ACL_USER ∨ t = ACL_GROUP) then
          idp ← lib "acl_get_qualifier" (acl_get_qualifier acl entry);
          _ ← file_call "acl_free" CFree acl_free;
          if q =? idp then mret (inr (Some entry)) else mret (inl (S n))
        else mret (inr (Some entry))
      else mret (inl (S n))
  end.

Definition findEntry (fuel : nat) (acl : A) (t : acl_tag) (q : Z) : P (option H) :=
  loop fuel (find_step acl t q) 0%nat.

Definition add_if (m bit p : Z) : P Z :=
  if has m bit then lib "acl_add_perm" (acl_add_perm p bit) else mret p.

Definition setPerms (acl : A) (entry : H) (m : Z) : P A :=
  permset ← lib "acl_get_permset" (acl_get_permset acl entry);
  permset ← lib "acl_clear_perms" (acl_clear_perms permset);
  permset ← add_if m ACL_READ permset;
  permset ← add_if m ACL_WRITE permset;
  permset ← add_if m ACL_EXECUTE permset;
  lib "acl_set_permset" (acl_set_permset acl entry permset).

(** The entry for [e], created with its tag and qualifier when there is none. *)
Definition ensure_entry (acl : A) (entry : option H) (e : ace) : P (A * H) :=
  match entry with
  | Some h => mret (acl, h)
  | None =>
      ah ← lib "acl_create_entry" (acl_create_entry acl);
      acl ← lib "acl_set_tag_type" (acl_set_tag_type ah.1 ah.2 e.(tag));
      acl ← (if bool_decide (e.(tag) = ACL_USER ∨ e.(tag) = ACL_GROUP)
             then lib "acl_set_qualifier" (acl_set_qualifier acl ah.2 e.(qual))
             else mret acl);
      mret (acl, ah.2)
  end.

(** Removes the entry, or gives it its permissions. *)
Definition change_entry (op : operation) (acl : A) (entry : option H) (e : ace) : P A :=
  if bool_decide (op = removeEntries) then
    match entry with
    | Some h => lib "acl_delete_entry" (acl_delete_entry acl h)
    | None => mret acl
    end
  else
    ah ← ensure_entry acl entry e;
    match e.(perms) with
    | Some m => setPerms ah.1 ah.2 m
    | None => stop HUndef     (* the member was never assigned *)
    end.

(** One turn of the loop of [updateACL]. *)
Definition update_entry (fuel : nat) (op : operation) (recalcMask : bool) (file : string)
    (dflt : bool) (acl : A) (e : ace) : P A :=
  entry ← findEntry fuel acl e.(tag) e.(qual);
  acl ← change_entry op acl entry e;
  acl ← (if recalcMask then lib "acl_calc_mask" (acl_calc_mask acl) else mret acl);
  _ ← lib "acl_valid" (acl_valid acl);
  _ ← file_call "acl_set_file" (CSetFile file dflt acl) (acl_set_file file dflt acl);
  mret acl.

Fixpoint update_entries (fuel : nat) (op : operation) (recalcMask : bool) (file : string)
    (dflt : bool) (acl : A) (aclist : list ace) : P A :=
  match aclist with
  | [] => mret acl
  | e :: aclist =>
      acl ← update_entry fuel op recalcMask file dflt acl e;
      update_entries fuel op recalcMask file dflt acl aclist
  end.

Definition updateACL (fuel : nat) (file : string) (useDefaultACL : bool) (aclist : list ace)
    (op : operation) (recalcMask : bool) : P unit :=
  acl ← file_call "acl_get_file" (CGetFile file useDefaultACL) (acl_get_file file useDefaultACL);
  acl ← update_entries fuel op recalcMask file useDefaultACL acl aclist;
  _ ← file_call "acl_free" CFree acl_free;
  mret tt.

(** *** Options and [main] *)

Definition usageError {X} (progName : string) (msg : option string) (shortUsage : bool) : P X :=
  match msg with Some m => eprintf (m +:+ nl) | None => skip end;;
  if shortUsage then
    eprintf ("Type '" +:+ progName +:+ " --help' for usage information" +:+ nl);;
    p_exit EXIT_FAILURE
  else
    eprintf ("Usage: " +:+ progName +:+ " -m acl [-d] [-n] file..." +:+ nl);;
    eprintf ("   or: " +:+ progName +:+ " -x acl [-d] [-n] file..." +:+ nl);;
    eprintf ("   or: " +:+ progName +:+ " -k file..." +:+ nl +:+ nl);;
    eprintf ("   or: " +:+ progName +:+ " -V acl" +:+ nl +:+ nl);;
    eprintf ("      -m  Modify/create ACL entries" +:+ nl);;
    eprintf ("      -x  Remove ACL entries" +:+ nl);;
    eprintf ("      -k  Remove default ACL" +:+ nl +:+ nl);;
    eprintf ("      -V  Check validity of 'acl'" +:+ nl +:+ nl);;
    eprintf ("      'acl' consists of one or more comma-separated entries of the form:" +:+ nl);;
    eprintf ("      " +:+ nl +:+ "            tag:[qualifier][:[perms]]" +:+ nl +:+ nl);;
    eprintf ("            'perms' are specified only for -m" +:+ nl +:+ nl);;
    eprintf ("      -d  Apply operation to default ACL" +:+ nl);;
    eprintf ("      -n  Don't recalculate mask entry" +:+ nl);;
    eprintf ("            NOTE: if you specify this option and have specified" +:+ nl);;
    eprintf ("            the -m option, then you may encounter errors if the" +:+ nl);;
    eprintf ("            file does not already have a mask entry." +:+ nl);;
    p_exit EXIT_FAILURE.

Record options := Options {
  o_op : operation; recalc : bool; useDefault : bool; optCnt : Z; aclSpec : option string
}.

Definition option_step (progName : string) (o : options) (ev : opt_event) : P options :=
  let '(Options op r d n spec) := o in
  match ev with
  | Opt "m" arg => mret (Options modifyEntries r d (n + 1) arg)
  | Opt "x" arg => mret (Options removeEntries r d (n + 1) arg)
  | Opt "k" _ => mret (Options removeDefaultACL r d (n + 1) spec)
  | Opt "V" arg => mret (Options checkValidACL r d (n + 1) arg)
  | Opt "d" _ => mret (Options op r true n spec)
  | Opt "n" _ => mret (Options op false d n spec)
  | _ => eprintf (getopt_message progName ev);;
         usageError progName (Some ("Bad option" +:+ nl)) true
  end.

Fixpoint parse_options (progName : string) (o : options) (evs : list opt_event) : P options :=
  match evs with
  | [] => mret o
  | ev :: evs => o ← option_step progName o ev; parse_options progName o evs
  end.

Definition main (fuel : nat) (argv : list string) : P unit :=
  let progName := hd "" argv in
  when (bool_decide (length argv < 2)%nat || bool_decide (nth 1 argv "" = "--help"))
    (usageError progName None false);;
  let '(evs, files) := getopt "m:x:kdnV:" (tl argv) in
  o ← parse_options progName (Options unspecifiedOp true false 0 None) evs;
  when (negb (o.(optCnt) =? 1))
    (usageError progName (Some ("Specify exactly one of -m, -x, -k, or -V" +:+ nl)) true);;
  when (bool_decide (o.(o_op) = checkValidACL) && o.(useDefault))
    (usageError progName (Some ("Can't specify -d with -V" +:+ nl)) true);;
  when (bool_decide (o.(o_op) = checkValidACL))
    (r ← parseACL (default "" o.(aclSpec)) true;
     match r.1 with
     | None => p_custmErr "Bad ACL entry specification"
     | Some _ => printf ("ACL is valid" +:+ nl);; p_exit EXIT_SUCCESS
     end);;
  aclist ← (if bool_decide (o.(o_op) = modifyEntries ∨ o.(o_op) = removeEntries) then
              r ← parseACL (default "" o.(aclSpec)) (bool_decide (o.(o_op) = modifyEntries));
              match r.1 with
              | None => usageError progName (Some ("Bad ACL specification" +:+ nl)) true
              | Some l => mret l
              end
            else mret []);
  for_each files (λ f,
    if bool_decide (o.(o_op) = removeDefaultACL) then
      _ ← file_call ("acl_delete_def_file: " +:+ f) (CDelDef f) (acl_delete_def_file f); skip
    else if bool_decide (o.(o_op) = modifyEntries ∨ o.(o_op) = removeEntries) then
      updateACL fuel f o.(useDefault) aclist o.(o_op) o.(recalc)
    else p_custmErr "Bad logic!");;
  p_exit EXIT_SUCCESS.
End acl_update.

(** ** What the library does *)

(** [view a] are the entries of an ACL with their handles. *)
Class AclLaws (A H W : Type) `{!AclLib A H W} (view : A → list (H * ent)) : Prop := {
  view_handles a : NoDup ((view a).*1);
  get_entry_ok a n r : acl_get_entry a n = inr r → r = fst <$> view a !! n;
  get_tag_ok a h e t : (h, e) ∈ view a → acl_get_tag_type a h = inr t → t = e.(etag);
  get_qual_ok a h e q : (h, e) ∈ view a → acl_get_qualifier a h = inr q → q = e.(equal_);
  create_ok a a' h : acl_create_entry a = inr (a', h) →
    ∃ e, view a' ≡ₚ (h, e) :: view a;
  set_tag_ok a h t a' e l : acl_set_tag_type a h t = inr a' → view a ≡ₚ (h, e) :: l →
    view a' ≡ₚ (h, Ent t e.(equal_) e.(eperms)) :: l;
  set_qual_ok a h q a' e l : acl_set_qualifier a h q = inr a' → view a ≡ₚ (h, e) :: l →
    view a' ≡ₚ (h, Ent e.(etag) q e.(eperms)) :: l;
  clear_ok p p' : acl_clear_perms p = inr p' → p' = 0;
  add_ok p b p' : acl_add_perm p b = inr p' → p' = Z.lor p b;
  set_perms_ok a h p a' e l : acl_set_permset a h p = inr a' → view a ≡ₚ (h, e) :: l →
    view a' ≡ₚ (h, Ent e.(etag) e.(equal_) p) :: l;
  delete_ok a h a' e l : acl_delete_entry a h = inr a' → view a ≡ₚ (h, e) :: l → view a' ≡ₚ l;
  (* only mask entries change, and there is at most one *)
  calc_mask_ok a a' : acl_calc_mask a = inr a' →
    filter (λ e, etag e ≠ ACL_MASK) ((view a').*2) ≡ₚ
      filter (λ e, etag e ≠ ACL_MASK) ((view a).*2) ∧
    (length (filter (λ e, etag e = ACL_MASK) ((view a').*2)) <= 1)%nat
}.

(** ** ACLs as finite maps *)

Definition MASK : key := (ACL_MASK, 0).

Definition ent_pair (e : ent) : key * Z := (ent_key e, e.(eperms)).
Definition distinct (es : list ent) : Prop := NoDup (ent_key <$> es).
Definition to_map (es : list ent) : gmap key Z := list_to_map (ent_pair <$> es).

Lemma pair_keys es : (ent_pair <$> es).*1 = (ent_key <$> es).
Proof. by rewrite <- list_fmap_compose. Qed.

#[global] Instance distinct_proper : Proper (Permutation ==> iff) distinct.
Proof. intros l l' Hl. unfold distinct. by rewrite Hl. Qed.

Lemma to_map_perm es es' : distinct es → es ≡ₚ es' → to_map es = to_map es'.
Proof.
  intros Hd Hp. apply list_to_map_proper; [by rewrite pair_keys|by rewrite Hp].
Qed.

Lemma distinct_cons e es : distinct (e :: es) ↔ (ent_key e ∉ (ent_key <$> es)) ∧ distinct es.
Proof. unfold distinct. by rewrite fmap_cons, NoDup_cons. Qed.

Lemma to_map_lookup_None es k : k ∉ (ent_key <$> es) → to_map es !! k = None.
Proof. intros Hk. apply not_elem_of_list_to_map_1. by rewrite pair_keys. Qed.

Lemma to_map_cons e es : to_map (e :: es) = <[ent_key e := e.(eperms)]> (to_map es).
Proof. done. Qed.

(** The specification: an entry is added or replaced, or removed. *)
Definition entry_key (e : ace) : key := key_of e.(tag) e.(qual).
Definition spec_step (op : operation) (m : gmap key Z) (e : ace) : gmap key Z :=
  if bool_decide (op = removeEntries) then delete (entry_key e) m
  else <[entry_key e := default 0 e.(perms)]> m.

(** Only the mask may differ. *)
Definition mask_eq (recalc : bool) (m m' : gmap key Z) : Prop :=
  if recalc then delete MASK m = delete MASK m' else m = m'.

#[global] Instance mask_eq_equiv recalc : Equivalence (mask_eq recalc).
Proof.
  destruct recalc; split; try done; unfold mask_eq; intros x y z; congruence.
Qed.

#[global] Instance spec_step_proper recalc op :
  Proper (mask_eq recalc ==> eq ==> mask_eq recalc) (spec_step op).
Proof.
  intros m m' Hm e ? <-. unfold mask_eq in *. destruct recalc; [|congruence].
  unfold spec_step. destruct (decide (entry_key e = MASK)) as [->|Hne]; case_bool_decide.
  - by rewrite !delete_delete_eq.
  - rewrite !delete_insert_eq. done.
  - rewrite !(delete_delete _ MASK). by rewrite Hm.
  - rewrite !delete_insert_ne by done. by rewrite Hm.
Qed.

(** Entries other than masks. *)
Local Abbreviation non_masks := (filter (λ e, etag e ≠ ACL_MASK)).
Local Abbreviation masks := (filter (λ e, etag e = ACL_MASK)).

Lemma mask_key e : ent_key e = MASK ↔ e.(etag) = ACL_MASK.
Proof.
  unfold ent_key, key_of, MASK. split; [by intros [= ? _]|]. by intros ->.
Qed.

Lemma delete_mask es : delete MASK (to_map es) = to_map (non_masks es).
Proof.
  induction es as [|e es IH]; [done|]. rewrite to_map_cons, filter_cons.
  destruct (decide (etag e ≠ ACL_MASK)) as [Hm|Hm].
  - rewrite delete_insert_ne by (intros E; by apply Hm, mask_key). by rewrite IH, to_map_cons.
  - assert (Hk : ent_key e = MASK) by (apply mask_key; destruct (decide (etag e = ACL_MASK)); tauto).
    by rewrite Hk, delete_insert_eq.
Qed.

Lemma distinct_filter es : distinct es → distinct (non_masks es).
Proof.
  unfold distinct. intros Hd. eapply sublist_NoDup; [exact Hd|].
  induction es as [|e es IH]; [done|]. rewrite filter_cons. inversion Hd; subst.
  destruct (decide _); simpl; [by constructor; apply IH|by apply sublist_cons, IH].
Qed.

(** After the mask has been recalculated. *)
Lemma remask es es' :
  distinct es → non_masks es' ≡ₚ non_masks es → (length (masks es') <= 1)%nat →
  distinct es' ∧ delete MASK (to_map es') = delete MASK (to_map es) ∧
  (length es' <= S (length es))%nat.
Proof.
  intros Hd Hnm Hm. pose proof (filter_app_complement (λ e, etag e = ACL_MASK) es') as Hp.
  assert (Hlen : (length (non_masks es) <= length es)%nat) by apply length_filter.
  split_and!.
  - rewrite <- Hp. unfold distinct. rewrite fmap_app. apply NoDup_app. split_and!.
    + destruct (masks es') as [|x [|]]; simpl in *; [constructor|apply NoDup_singleton|lia].
    + intros k Hk Hk'. apply list_elem_of_fmap in Hk as (e & -> & He%list_elem_of_filter).
      apply list_elem_of_fmap in Hk' as (e' & Ee & He'%list_elem_of_filter).
      destruct He as [He _], He' as [He' _]. apply mask_key in He. rewrite He in Ee.
      symmetry in Ee. by apply mask_key in Ee.
    + change (distinct (non_masks es')). rewrite Hnm. by apply distinct_filter.
  - rewrite !delete_mask. symmetry. apply to_map_perm; [by apply distinct_filter|done].
  - rewrite <- Hp, length_app. change (λ x, ¬ etag x = ACL_MASK) with (λ x, etag x ≠ ACL_MASK).
    rewrite Hnm. lia.
Qed.

(** ** The functions keep to the specification *)

Section facts.
Context {L : Libc} {Db : UserDb} {A H W : Type} `{!AclLib A H W} {view : A → list (H * ent)}.
Context `{!AclLaws A H W view}.
Local Abbreviation state := (pst unit (acl_call A) W).

Definition ents (a : A) : list ent := (view a).*2.
Definition acl_map (a : A) : gmap key Z := to_map (ents a).

(** The ACLs given to [acl_set_file], in order. *)
Definition writes (s : state) : list A :=
  omap (λ c, match c with CSetFile _ _ a => Some a | _ => None end) s.(trace).

Local Abbreviation post := (@Proc.post unit (acl_call A) W _).

Definition same_writes (s s' : state) : Prop := writes s' = writes s.

Lemma post_lib {X} msg (r : Z + X) s :
  post (lib msg r) s (λ x s', r = inr x ∧ same_writes s s') (same_writes s).
Proof.
  unfold lib, post. destruct r as [e|x]; [|done].
  erewrite run_bind by reflexivity.
  match goal with |- context [p_systmErr ?m ?s4] =>
    destruct (@p_systmErr_halts L unit (acl_call A) W X m s4) as (h & s5 & -> & Hh & _ & Ht & _) end.
  split; [done|]. unfold same_writes, writes. by rewrite Ht.
Qed.

Lemma post_file_call {X} msg c (f : W → (Z + X) * W) s :
  post (file_call msg c f) s
    (λ _ s', s'.(trace) = s.(trace) ++ [c]) (λ s', s'.(trace) = s.(trace) ++ [c]).
Proof.
  unfold file_call, post. destruct (f (world s)) as [[e|x] w] eqn:Ef.
  - erewrite run_bind by (unfold call; rewrite Ef; reflexivity). cbv beta iota.
    match goal with |- context [p_systmErr ?m ?s4] =>
      destruct (@p_systmErr_halts L unit (acl_call A) W X m s4) as (h & s5 & -> & Hh & _ & Ht & _) end.
    split; [done|]. by rewrite Ht.
  - erewrite run_bind by (unfold call; rewrite Ef; reflexivity). done.
Qed.

Lemma post_free {X} msg (f : W → (Z + X) * W) s :
  post (file_call msg CFree f) s (λ _, same_writes s) (same_writes s).
Proof.
  eapply post_mono; [apply post_file_call| |]; simpl; intros;
    unfold same_writes, writes; match goal with E : trace _ = _ |- _ => rewrite E end;
    rewrite omap_app; simpl; by rewrite app_nil_r.
Qed.

Lemma key_of_match t q e :
  key_of t q = ent_key e ↔ t = e.(etag) ∧ (t = ACL_USER ∨ t = ACL_GROUP → q = e.(equal_)).
Proof.
  unfold ent_key, key_of. split.
  - intros [= -> Hq]. split; [done|]. intros [E|E]; rewrite E in *; done.
  - intros [-> Hq]. f_equal. destruct (etag e); simpl; auto.
Qed.

(** The entry for a tag and qualifier, or that there is none. *)
Definition found (acl : A) (t : acl_tag) (q : Z) (r : option H) : Prop :=
  match r with
  | Some h => ∃ e, (h, e) ∈ view acl ∧ ent_key e = key_of t q
  | None => key_of t q ∉ (ent_key <$> ents acl)
  end.


Lemma same_writes_trans s1 s2 s3 : same_writes s1 s2 → same_writes s2 s3 → same_writes s1 s3.
Proof. unfold same_writes. congruence. Qed.

Ltac step H := eapply post_mono; [apply H| |by intros; eapply same_writes_trans].

(** One turn finds the entry at its place, or that there is none left. *)
Lemma find_step_post acl t q n s :
  post (find_step acl t q n) s
    (λ r s', same_writes s s' ∧
       match r, view acl !! n with
       | inr None, None => True
       | inr (Some h), Some (h', e) => h' = h ∧ ent_key e = key_of t q
       | inl n', Some (_, e) => n' = S n ∧ ent_key e ≠ key_of t q
       | _, _ => False
       end) (same_writes s).
Proof.
  unfold find_step. apply post_bind. eapply post_mono; [apply post_lib| |done].
  intros r s1 [Hget Hs1]. apply get_entry_ok in Hget.
  destruct (view acl !! n) as [[h e]|] eqn:En; simpl in Hget; subst r; [|by apply post_ret].
  assert (Hin : (h, e) ∈ view acl) by by eapply list_elem_of_lookup_2.
  apply post_bind. step (@post_lib acl_tag). intros tg s2 [Ht Hs2].
  eapply get_tag_ok in Ht as ->; [|done].
  assert (Hs02 : same_writes s s2) by by eapply same_writes_trans.
  case_bool_decide as E1.
  2:{ apply post_ret. split; [done|]. split; [done|]. intros Hk. symmetry in Hk.
      by apply key_of_match in Hk as [? _]. }
  case_bool_decide as E2.
  2:{ apply post_ret. split; [done|]. split; [done|]. symmetry. by apply key_of_match. }
  apply post_bind. step (@post_lib Z). intros q' s3 [Hq Hs3].
  eapply get_qual_ok in Hq as ->; [|done].
  assert (Hs03 : same_writes s s3) by by eapply same_writes_trans.
  apply post_bind. step (@post_free Z). intros x s4 Hs4. simpl in Hs4.
  assert (Hs04 : same_writes s s4) by by eapply same_writes_trans.
  destruct (Z.eqb_spec q (equal_ e)) as [Eq|Eq]; apply post_ret; (split; [done|]); (split; [done|]).
  - symmetry. by apply key_of_match.
  - intros Hk. symmetry in Hk. apply key_of_match in Hk as [_ Hk]. auto.
Qed.

Lemma find_from fuel acl t q n s :
  (length (view acl) < n + fuel)%nat → (n <= length (view acl))%nat →
  (∀ i e, (i < n)%nat → (ents acl) !! i = Some e → ent_key e ≠ key_of t q) →
  post (loop fuel (find_step acl t q) n) s
    (λ r s', same_writes s s' ∧ found acl t q r) (same_writes s).
Proof.
  revert n s. induction fuel as [|fuel IH]; intros n s Hf Hn Hbefore; [lia|].
  cbn [loop]. apply post_bind. eapply post_mono; [apply find_step_post| |done].
  intros r s1 [Hs1 Hr]. destruct (view acl !! n) as [[h e]|] eqn:En.
  - assert (Hent : ents acl !! n = Some e) by (unfold ents; by rewrite list_lookup_fmap, En).
    destruct r as [n'|[h'|]]; [|apply post_ret; split; [done|]|done].
    + destruct Hr as [-> Hk]. pose proof (lookup_lt_Some _ _ _ En).
      eapply post_mono; [apply IH; [lia|lia|]| |].
      * intros i e' Hi Hie. destruct (decide (i = n)) as [->|]; [congruence|].
        apply (Hbefore i); [lia|done].
      * intros x s' [? ?]. split; [by eapply same_writes_trans|done].
      * intros. by eapply same_writes_trans.
    + destruct Hr as [-> Hk]. exists e. split; [by eapply list_elem_of_lookup_2|done].
  - destruct r as [n'|[h'|]]; [done|done|]. apply post_ret. split; [done|]. simpl.
    rewrite list_elem_of_fmap. intros (e & He & Hin). apply list_elem_of_lookup in Hin as [i Hi].
    apply lookup_ge_None in En. apply (Hbefore i e); [|done..].
    apply lookup_lt_Some in Hi. unfold ents in Hi. rewrite length_fmap in Hi. lia.
Qed.

Lemma findEntry_post fuel acl t q s :
  (length (view acl) < fuel)%nat →
  post (findEntry fuel acl t q) s (λ r s', same_writes s s' ∧ found acl t q r) (same_writes s).
Proof. intros Hf. apply find_from; [lia|lia|]. intros i e Hi. lia. Qed.

Lemma post_add_if m bit p s :
  post (add_if m bit p) s
    (λ p' s', same_writes s s' ∧ p' = if has m bit then Z.lor p bit else p) (same_writes s).
Proof.
  unfold add_if. destruct (has m bit); [|by apply post_ret].
  eapply post_mono; [apply post_lib| |done]. intros x s' [Hx Hs]. by apply add_ok in Hx.
Qed.

Lemma perm_bits m :
  0 <= m < 8 →
  (let p := if has m ACL_READ then Z.lor 0 ACL_READ else 0 in
   let p := if has m ACL_WRITE then Z.lor p ACL_WRITE else p in
   if has m ACL_EXECUTE then Z.lor p ACL_EXECUTE else p) = m.
Proof.
  intros Hm. assert (m = 0 ∨ m = 1 ∨ m = 2 ∨ m = 3 ∨ m = 4 ∨ m = 5 ∨ m = 6 ∨ m = 7) as Hc by lia.
  by destruct_or! Hc; subst m.
Qed.

Ltac step_as H x s' Hx := step H; intros x s' Hx; simpl in Hx.

Lemma setPerms_post acl h m s e l :
  view acl ≡ₚ (h, e) :: l → 0 <= m < 8 →
  post (setPerms acl h m) s
    (λ acl' s', same_writes s s' ∧ view acl' ≡ₚ (h, Ent e.(etag) e.(equal_) m) :: l) (same_writes s).
Proof.
  intros Hv Hm. unfold setPerms.
  apply post_bind. eapply post_mono; [apply post_lib| |done]. intros p0 s1 [_ H1].
  apply post_bind. step_as (@post_lib Z) p1 s2 H2. destruct H2 as [Hc%clear_ok H2]. subst p1.
  pose proof (same_writes_trans _ _ _ H1 H2) as H02.
  apply post_bind. step_as post_add_if p2 s3 H3. destruct H3 as [H3 E2].
  pose proof (same_writes_trans _ _ _ H02 H3) as H03.
  apply post_bind. step_as post_add_if p3 s4 H4. destruct H4 as [H4 E3].
  pose proof (same_writes_trans _ _ _ H03 H4) as H04.
  apply post_bind. step_as post_add_if p4 s5 H5. destruct H5 as [H5 E4].
  pose proof (same_writes_trans _ _ _ H04 H5) as H05.
  step_as (@post_lib A) acl' s6 H6. destruct H6 as [Hset H6].
  split; [by eapply same_writes_trans|].
  assert (p4 = m) as -> by (rewrite E4, E3, E2; by apply perm_bits).
  by eapply set_perms_ok.
Qed.

(** After [ensure_entry] there is an entry with the key wanted, next to the other
    entries. *)
Lemma ensure_entry_post acl r e s :
  found acl e.(tag) e.(qual) r →
  post (ensure_entry acl r e) s
    (λ ah s', same_writes s s' ∧ ∃ e0 l, view ah.1 ≡ₚ (ah.2, e0) :: l ∧
       ent_key e0 = entry_key e ∧
       match r with
       | Some h => ah = (acl, h)
       | None => l ≡ₚ view acl
       end) (same_writes s).
Proof.
  intros Hf. unfold ensure_entry. destruct r as [h|].
  { apply post_ret. split; [done|]. destruct Hf as (e0 & Hin & Hk).
    apply elem_of_Permutation in Hin as [l Hl]. exists e0, l. by split_and!. }
  apply post_bind. eapply post_mono; [apply post_lib| |done]. intros [a1 h] s1 [Hcr H1].
  apply create_ok in Hcr as [e0 Hv]. cbn [fst snd].
  apply post_bind. step_as (@post_lib A) a2 s2 H2. destruct H2 as [Ht H2].
  pose proof (set_tag_ok _ _ _ _ _ _ Ht Hv) as Hv2.
  pose proof (same_writes_trans _ _ _ H1 H2) as H02.
  apply post_bind. case_bool_decide as Eq.
  - step_as (@post_lib A) a3 s3 H3. destruct H3 as [Hq H3].
    pose proof (set_qual_ok _ _ _ _ _ _ Hq Hv2) as Hv3. apply post_ret.
    split; [by eapply same_writes_trans|]. eexists _, (view acl). split; [exact Hv3|]. done.
  - apply post_ret. apply post_ret. split; [done|]. eexists _, (view acl). split; [exact Hv2|].
    split; [|done]. unfold ent_key, entry_key, key_of. simpl.
    destruct (tag e); simpl; tauto.
Qed.

Definition ace_settable (op : operation) (e : ace) : Prop :=
  op = modifyEntries → ∃ m, e.(perms) = Some m ∧ 0 <= m < 8.

Lemma ents_perm a h e l : view a ≡ₚ (h, e) :: l → ents a ≡ₚ e :: l.*2.
Proof. intros Hv. unfold ents. by rewrite Hv. Qed.

Lemma change_entry_post op acl r e s :
  (op = modifyEntries ∨ op = removeEntries) → ace_settable op e →
  distinct (ents acl) → found acl e.(tag) e.(qual) r →
  post (change_entry op acl r e) s
    (λ acl' s', same_writes s s' ∧ distinct (ents acl') ∧
       acl_map acl' = spec_step op (acl_map acl) e ∧
       (length (view acl') <= S (length (view acl)))%nat) (same_writes s).
Proof.
  intros Hop Hset Hd Hf. unfold change_entry, spec_step, acl_map. case_bool_decide as E.
  - destruct r as [h|].
    + destruct Hf as (e0 & Hin & Hk). apply elem_of_Permutation in Hin as [l Hl].
      eapply post_mono; [apply post_lib| |done]. intros acl' s' [Hdel Hs].
      pose proof (delete_ok _ _ _ _ _ Hdel Hl) as Hv.
      pose proof (ents_perm _ _ _ _ Hl) as Hp. assert (Hp' : ents acl' ≡ₚ l.*2) by (unfold ents; by rewrite Hv).
      rewrite Hp in Hd. apply distinct_cons in Hd as [Hnk Hd].
      split; [done|]. split; [by rewrite Hp'|]. split; [|rewrite Hv, Hl; simpl; lia].
      rewrite (to_map_perm (ents acl) (e0 :: l.*2)); [|rewrite Hp; by apply distinct_cons|done].
      rewrite to_map_cons, Hk. unfold entry_key. rewrite <- Hk.
      rewrite delete_insert_id by by apply to_map_lookup_None.
      symmetry. by apply to_map_perm.
    + apply post_ret. split; [done|]. split; [done|]. split; [|lia].
      symmetry. apply delete_id. by apply to_map_lookup_None.
  - destruct Hop as [->|]; [|done]. destruct (Hset eq_refl) as (m & Hm & Hr). rewrite Hm.
    apply post_bind. eapply post_mono; [by apply ensure_entry_post| |done].
    intros [a1 h] s1 (H1 & e0 & l & Hv & Hk & Hl). cbn [fst snd] in *.
    eapply post_mono; [by apply setPerms_post| |by intros; eapply same_writes_trans].
    intros acl' s2 [H2 Hv2].
    split; [by eapply same_writes_trans|].
    pose proof (ents_perm _ _ _ _ Hv2) as Hp2. simpl default.
    set (e' := Ent (etag e0) (equal_ e0) m) in *.
    assert (Hk' : ent_key e' = entry_key e) by done.
    assert (Hrest : distinct (e' :: l.*2) ∧
      <[entry_key e := m]> (to_map (l.*2)) = <[entry_key e := m]> (to_map (ents acl)) ∧
      (length l <= length (view acl))%nat).
    { destruct r as [h'|].
      - simplify_eq. pose proof (ents_perm _ _ _ _ Hv) as Hp. split_and!.
        + rewrite Hp in Hd. apply distinct_cons in Hd. by apply distinct_cons.
        + rewrite (to_map_perm (ents acl) (e0 :: l.*2)) by done.
          rewrite to_map_cons, Hk. by rewrite insert_insert_eq.
        + rewrite Hv. simpl. lia.
      - assert (Hp : l.*2 ≡ₚ ents acl) by (unfold ents; by rewrite Hl). split_and!.
        + apply distinct_cons. rewrite Hp, Hk'. by split.
        + f_equal. by apply to_map_perm; [rewrite Hp|].
        + by rewrite Hl. }
    destruct Hrest as (Hd' & Hmap & Hlen). split; [by rewrite Hp2|]. split; [|rewrite Hv2; simpl; lia].
    rewrite (to_map_perm (ents acl') (e' :: l.*2)); [|by rewrite Hp2|done].
    rewrite to_map_cons, Hk'. exact Hmap.
Qed.

(** The ACL after one entry of the list was applied. *)
Definition updated (op : operation) (recalc : bool) (m : gmap key Z) (e : ace) (acl' : A) : Prop :=
  distinct (ents acl') ∧ mask_eq recalc (acl_map acl') (spec_step op m e).

Lemma post_mask (recalc : bool) acl s :
  distinct (ents acl) →
  post (if recalc then lib "acl_calc_mask" (acl_calc_mask acl) else mret acl : M state A) s
    (λ acl' s', same_writes s s' ∧ distinct (ents acl') ∧
       mask_eq recalc (acl_map acl') (acl_map acl) ∧
       (length (view acl') <= S (length (view acl)))%nat) (same_writes s).
Proof.
  intros Hd. destruct recalc; [|apply post_ret; split_and!; [done..|lia]].
  eapply post_mono; [apply post_lib| |done]. intros acl' s' [Hc Hs].
  apply calc_mask_ok in Hc as [H1 H2]. destruct (remask (ents acl) (ents acl')) as (? & ? & Hl); [done..|].
  unfold ents in Hl. rewrite !length_fmap in Hl. done.
Qed.

Lemma writes_set s s' f d acl :
  s'.(trace) = s.(trace) ++ [CSetFile f d acl] → writes s' = writes s ++ [acl].
Proof. intros E. unfold writes. by rewrite E, omap_app. Qed.

Lemma update_entry_post fuel op recalc file dflt acl e s :
  (op = modifyEntries ∨ op = removeEntries) → ace_settable op e → distinct (ents acl) →
  (length (view acl) < fuel)%nat →
  post (update_entry fuel op recalc file dflt acl e) s
    (λ acl' s', writes s' = writes s ++ [acl'] ∧ updated op recalc (acl_map acl) e acl' ∧
       (length (view acl') <= S (S (length (view acl))))%nat)
    (λ s', same_writes s s' ∨ ∃ acl', writes s' = writes s ++ [acl'] ∧ updated op recalc (acl_map acl) e acl').
Proof.
  intros Hop Hset Hd Hfuel. unfold update_entry.
  apply post_bind. eapply post_mono; [by apply findEntry_post| |by left]. intros r s1 [H1 Hf].
  apply post_bind. eapply post_mono; [by apply change_entry_post| |by left; eapply same_writes_trans].
  intros a1 s2 (H2 & Hd1 & Hm1 & Hl1). pose proof (same_writes_trans _ _ _ H1 H2) as H02.
  apply post_bind. eapply post_mono; [by apply post_mask| |by left; eapply same_writes_trans].
  intros a2 s3 (H3 & Hd2 & Hm2 & Hl2). pose proof (same_writes_trans _ _ _ H02 H3) as H03.
  assert (Hu : updated op recalc (acl_map acl) e a2) by (split; [done|by rewrite <- Hm1]).
  apply post_bind. eapply post_mono; [apply post_lib| |by left; eapply same_writes_trans].
  intros u s4 [_ H4]. pose proof (same_writes_trans _ _ _ H03 H4) as H04.
  apply post_bind. eapply post_mono; [apply post_file_call| |].
  - intros z s5 Ht. simpl in Ht. apply writes_set in Ht. rewrite H04 in Ht. apply post_ret.
    split_and!; [done..|lia].
  - intros s5 Ht. simpl in Ht. apply writes_set in Ht. rewrite H04 in Ht. right. eauto.
Qed.

(** The successive ACLs [l] are those the specification gives for the entries of
    the list, up to the mask when it is recalculated. *)
Definition follows (op : operation) (recalc : bool) (m : gmap key Z) (aclist : list ace)
    (l : list A) : Prop :=
  ∀ i acl, l !! i = Some acl →
    distinct (ents acl) ∧ (i < length aclist)%nat ∧
    mask_eq recalc (acl_map acl) (foldl (spec_step op) m (take (S i) aclist)).

Lemma follows_cons op recalc m e aclist l acl :
  updated op recalc m e acl →
  follows op recalc (acl_map acl) aclist l → follows op recalc m (e :: aclist) (acl :: l).
Proof.
  intros [Hd Hu] Hl [|i] a Hi; simpl in Hi.
  - simplify_eq. split; [done|]. split; [simpl; lia|]. done.
  - destruct (Hl i a Hi) as (Hda & Hlt & Hm). split; [done|]. split; [simpl; lia|].
    rewrite Hm. clear -Hu. cbn [take foldl].
    generalize (take (S i) aclist). intros l. revert Hu.
    generalize (acl_map acl), (spec_step op m e). induction l as [|x l IH]; intros m1 m2 Hu; [done|].
    simpl. apply IH. by rewrite Hu.
Qed.

Lemma update_entries_post fuel op recalc file dflt aclist acl s :
  (op = modifyEntries ∨ op = removeEntries) → Forall (ace_settable op) aclist →
  distinct (ents acl) → (length (view acl) + 2 * length aclist < fuel)%nat →
  post (update_entries fuel op recalc file dflt acl aclist) s
    (λ _ s', ∃ l, writes s' = writes s ++ l ∧ follows op recalc (acl_map acl) aclist l ∧
               length l = length aclist)
    (λ s', ∃ l, writes s' = writes s ++ l ∧ follows op recalc (acl_map acl) aclist l).
Proof.
  intros Hop Hall. revert acl s. induction Hall as [|e aclist He Hall IH]; intros acl s Hd Hf.
  { apply post_ret. exists []. rewrite app_nil_r. split_and!; [done| |done]. by intros i a. }
  simpl in Hf. cbn [update_entries]. apply post_bind.
  eapply post_mono; [apply update_entry_post; [done..|lia]| |].
  - intros a1 s1 (Hw & Hu & Hl). eapply post_mono; [apply IH; [apply Hu|lia]| |].
    + intros x s2 (l & Hw2 & Hfo & Hlen). exists (a1 :: l).
      split_and!; [by rewrite Hw2, Hw, <- app_assoc| |simpl; lia].
      by eapply follows_cons.
    + intros s2 (l & Hw2 & Hfo). exists (a1 :: l).
      split; [by rewrite Hw2, Hw, <- app_assoc|]. by eapply follows_cons.
  - intros s1 [Hw|(a1 & Hw & Hu)].
    + exists []. rewrite app_nil_r. split; [done|]. by intros i a.
    + exists [a1]. split; [done|]. eapply follows_cons; [done..|]. by intros i a.
Qed.
End facts.

(** Permissions that were parsed are three bits. *)
Lemma perm_mask_range p : 0 <= perm_mask p < 8.
Proof.
  unfold perm_mask. assert (Hg : ∀ acc l, acc ∈ [0; 1; 2; 3; 4; 5; 6; 7] →
    foldl (λ m c, Z.lor m (perm_bit c)) acc l ∈ [0; 1; 2; 3; 4; 5; 6; 7]).
  { intros acc l. revert acc. induction l as [|c l IH]; intros acc Ha; [done|]. simpl. apply IH.
    unfold perm_bit. repeat case_decide; rewrite !elem_of_cons, elem_of_nil in Ha;
      destruct_or! Ha; subst; try done; apply (bool_decide_unpack _); vm_compute; done. }
  assert (H0 : 0 ∈ [0; 1; 2; 3; 4; 5; 6; 7]) by by left.
  specialize (Hg 0 (chars p) H0). rewrite !elem_of_cons, elem_of_nil in Hg.
  destruct Hg as [H|[H|[H|[H|[H|[H|[H|[H|[]]]]]]]]]; rewrite H; lia.
Qed.

Lemma parsed_settable {Db : UserDb} op str l :
  acl_text (bool_decide (op = modifyEntries)) str l → Forall (ace_settable op) l.
Proof.
  intros [Hall _]. induction Hall as [|t e ts l He Hl IH]; constructor; [|done].
  intros ->. destruct He as (t' & q & p & _ & _ & _ & Hp). simpl in Hp.
  destruct Hp as (ps & -> & _ & _ & ->). eexists. split; [done|]. apply perm_mask_range.
Qed.

(** C24: [updateACL] on a file whose ACL has distinct entries: every ACL it
    gives to [acl_set_file] is, as a map from tag and qualifier to permissions,
    the file's ACL with the entries of the list up to that one inserted (for
    [-m]) or deleted (for [-x]); when the mask is recalculated, the mask alone
    may differ.  If it returns, it has done so for every entry of the list;
    otherwise the process ends with the report of a failed call. *)
Theorem updateACL_refines {L : Libc} {Db : UserDb} {A H W} `{!AclLib A H W} {view : A → list (H * ent)}
    `{!AclLaws A H W view} fuel file dflt aclist op (recalc : bool)
    (s : pst unit (acl_call A) W) acl w :
  (op = modifyEntries ∨ op = removeEntries) → Forall (ace_settable op) aclist →
  acl_get_file file dflt s.(world) = (inr acl, w) → distinct (ents (view := view) acl) →
  (length (view acl) + 2 * length aclist < fuel)%nat →
  post (updateACL fuel file dflt aclist op recalc) s
    (λ _ s', ∃ l, writes s' = writes s ++ l ∧ length l = length aclist ∧
       follows (view := view) op recalc (acl_map (view := view) acl) aclist l)
    (λ s', ∃ l, writes s' = writes s ++ l ∧
       follows (view := view) op recalc (acl_map (view := view) acl) aclist l).
Proof.
  intros Hop Hall Hget Hd Hfuel. unfold updateACL. apply post_bind.
  unfold post at 1, file_call, call. erewrite run_bind by (rewrite Hget; reflexivity).
  cbv beta iota. cbn [mret M_ret]. apply post_bind.
  match goal with |- post _ ?s1 _ _ => assert (Hw : writes s1 = writes s) by
    (unfold writes; simpl; rewrite omap_app; simpl; by rewrite app_nil_r) end.
  eapply post_mono; [by apply update_entries_post| |].
  - intros a1 s2 (l & Hw2 & Hf & Hlen). apply post_bind. rewrite Hw in Hw2.
    eapply post_mono; [apply post_free| |].
    + intros x s3 Hs3. apply post_ret. exists l. rewrite Hs3. by split_and!.
    + intros s3 Hs3. exists l. rewrite Hs3. by split_and!.
  - intros s2 (l & Hw2 & Hf). rewrite Hw in Hw2. by exists l.
Qed.

(** *** A concrete library *)

Abbreviation toy_acl := (gmap nat ent).
Definition toy_get {X} (o : option X) : Z + X := match o with Some x => inr x | None => inl EINVAL end.
Definition toy_masks (a : toy_acl) : list ent :=
  filter (λ e, etag e = ACL_MASK) (map_to_list a).*2.

#[global] Instance toy_lib : AclLib toy_acl nat (gmap (string * bool) toy_acl) := {|
  acl_get_file f d w := (toy_get (w !! (f, d)), w);
  acl_set_file f d a w := (inr 0, <[(f, d) := a]> w);
  acl_delete_def_file f w := (inr 0, delete (f, true) w);
  acl_free w := (inr 0, w);
  acl_get_entry a n := inr (fst <$> map_to_list a !! n);
  acl_get_tag_type a h := toy_get (etag <$> a !! h);
  acl_get_qualifier a h := toy_get (equal_ <$> a !! h);
  acl_create_entry a := let h := fresh (dom a) in inr (<[h := Ent ACL_OTHER 0 0]> a, h);
  acl_set_tag_type a h t := toy_get ((λ e, <[h := Ent t e.(equal_) e.(eperms)]> a) <$> a !! h);
  acl_set_qualifier a h q := toy_get ((λ e, <[h := Ent e.(etag) q e.(eperms)]> a) <$> a !! h);
  acl_get_permset a h := toy_get (eperms <$> a !! h);
  acl_clear_perms _ := inr 0;
  acl_add_perm p b := inr (Z.lor p b);
  acl_set_permset a h p := toy_get ((λ e, <[h := Ent e.(etag) e.(equal_) p]> a) <$> a !! h);
  acl_delete_entry a h := toy_get ((λ _, delete h a) <$> a !! h);
  acl_calc_mask a := if bool_decide (length (toy_masks a) <= 1)%nat then inr a else inl EINVAL;
  acl_valid _ := inr tt
|}.

Lemma map_to_list_split (a : toy_acl) h e l :
  map_to_list a ≡ₚ (h, e) :: l →
  a !! h = Some e ∧ map_to_list (delete h a) ≡ₚ l ∧ ∀ e', map_to_list (<[h := e']> a) ≡ₚ (h, e') :: l.
Proof.
  intros Hp. assert (Ha : a !! h = Some e).
  { apply elem_of_map_to_list. rewrite Hp. by left. }
  assert (Hdel : map_to_list (delete h a) ≡ₚ l).
  { apply (Permutation_cons_inv (a := (h, e))). rewrite <- Hp. by apply map_to_list_delete. }
  split_and!; [done..|]. intros e'. rewrite <- Hdel.
  rewrite <- (insert_delete_eq (M := gmap nat) a h e'). apply map_to_list_insert. apply lookup_delete_eq.
Qed.

#[global] Instance toy_acl_laws : AclLaws toy_acl nat (gmap (string * bool) toy_acl) map_to_list.
Proof.
  split; simpl; intros.
  - apply NoDup_fst_map_to_list.
  - congruence.
  - apply elem_of_map_to_list in H. rewrite H in H0. simpl in H0. congruence.
  - apply elem_of_map_to_list in H. rewrite H in H0. simpl in H0. congruence.
  - simplify_eq. eexists. apply map_to_list_insert. apply not_elem_of_dom, is_fresh.
  - apply map_to_list_split in H0 as (Ha & _ & Hi). rewrite Ha in H. simplify_eq/=. apply Hi.
  - apply map_to_list_split in H0 as (Ha & _ & Hi). rewrite Ha in H. simplify_eq/=. apply Hi.
  - congruence.
  - congruence.
  - apply map_to_list_split in H0 as (Ha & _ & Hi). rewrite Ha in H. simplify_eq/=. apply Hi.
  - apply map_to_list_split in H0 as (Ha & Hd & _). rewrite Ha in H. simplify_eq/=. apply Hd.
  - case_bool_decide; simplify_eq. done.
Qed.

Definition acl_demo_acl : toy_acl :=
  <[0%nat := Ent ACL_USER_OBJ 0 6]> (<[1%nat := Ent ACL_OTHER 0 4]> ∅).
Definition acl_demo_state : pst unit (acl_call toy_acl) (gmap (string * bool) toy_acl) :=
  Pst (Proc 0 [] "" "" []) tt [] {[ ("f", false) := acl_demo_acl ]}.

Lemma updateACL_refines_witness :
  post (updateACL (L := demo_libc) 100 "f" false [Ace ACL_USER 7 (Some 5)] modifyEntries false)
    acl_demo_state
    (λ _ s', ∃ l, writes s' = writes acl_demo_state ++ l ∧ length l = 1%nat ∧
       follows (view := map_to_list) modifyEntries false
         (acl_map (view := map_to_list) acl_demo_acl) [Ace ACL_USER 7 (Some 5)] l)
    (λ s', ∃ l, writes s' = writes acl_demo_state ++ l ∧
       follows (view := map_to_list) modifyEntries false
         (acl_map (view := map_to_list) acl_demo_acl) [Ace ACL_USER 7 (Some 5)] l).
Proof.
  apply (updateACL_refines (L := demo_libc) (Db := no_users) (view := map_to_list) 100 "f" false
           [Ace ACL_USER 7 (Some 5)] modifyEntries false acl_demo_state acl_demo_acl
           {[ ("f", false) := acl_demo_acl ]}).
  - by left.
  - constructor; [|constructor]. intros _. exists 5. split; [done|lia].
  - vm_compute. reflexivity.
  - apply (bool_decide_unpack _). vm_compute. exact I.
  - apply (bool_decide_unpack _). vm_compute. exact I.
Defined.
