(* ===== verification/SemOps.v ===== *)
(** System V semaphore operations from the command line.

    [svsem/svsem_op.c]: [parseOps] turns an argument such as [0+1,1-2un] into an
    array of operations, and [main] performs the group of each argument in one
    call.  The parser is proved against a grammar of the arguments. *)
From stdpp Require Import gmap.
From S2P Require Import Prelude CLib ErrorFunctions Proc Args.
Local Open Scope Z_scope.

Definition IPC_NOWAIT : Z := 2048.    (* 04000 *)
Definition SEM_UNDO : Z := 4096.      (* 0x1000 *)
Definition MAX_SEMOPS : nat := 1000.

(** [struct sembuf]: an [unsigned short] and two [short]s *)
Record sembuf := Sembuf { sem_num : Z; sem_op : Z; sem_flg : Z }.

#[global] Instance sembuf_eq_dec : EqDecision sembuf.
Proof. solve_decision. Defined.

(** What the program uses of the system. *)
Class SemSys (W : Type) := {
  sys_semop : Z → list sembuf → W → (Z + Z) * W;
  getpid : Z;
  currTime : string
}.

(** The calls it makes. *)
Inductive sem_call := CSemop (semid : Z) (sops : list sembuf).

Section svsem_op.
Context {L : Libc} {W : Type} `{!SemSys W}.
Local Abbreviation P := (M (pst unit sem_call W)).

Definition quoted (s : string) : string := String dquote "" +:+ s +:+ String dquote "".

(** [strtol(p, &end, 10)]; [long] has 64 bits *)
Definition call_strtol (p : string) : P (Z * string) :=
  let '(v, endp, e) := strtoll p 10 in
  when (negb (e =? 0)) (put_errno e);; mret (v, endp).

(** [for (;; flags++)]: the flags and the position after them. *)
Fixpoint parse_flags (flg : Z) (p : string) : Z * string :=
  match p with
  | String c t =>
      if decide (c = "n"%char) then parse_flags (Z.lor flg IPC_NOWAIT) t
      else if decide (c = "u"%char) then parse_flags (Z.lor flg SEM_UNDO) t
      else (flg, p)
  | EmptyString => (flg, p)
  end.

Definition is_sign (c : ascii) : bool :=
  match strchr "+-=" c with Some _ => true | None => false end.

(** One turn of the loop of [parseOps]: the operation at [remaining], and where
    the next one starts, if any. *)
Definition parse_op (arg remaining : string) (numOps : nat) : P (sembuf * option string) :=
  when (MAX_SEMOPS <=? numOps)%nat
    (p_cmdLineErr ("Too many operations (maximum=" +:+ fmt_d (Z.of_nat MAX_SEMOPS) +:+
                   "): " +:+ quoted arg +:+ nl));;
  match remaining with
  | EmptyString => p_custmErr ("Trailing comma or empty argument: " +:+ quoted arg)
  | String d _ =>
      if negb (isdigit d) then p_cmdLineErr ("Expected initial digit: " +:+ quoted arg +:+ nl)
      else
        r ← call_strtol remaining;
        let '(num, sign) := r in
        let num := to_unsigned 16 num in
        match sign with
        | String sg after =>
            if negb (is_sign sg) then
              p_cmdLineErr ("Expected '+', '-', or '=' in " +:+ quoted arg +:+ nl)
            else
              match deref after with
              | Some d' =>
                  if negb (isdigit d') then
                    p_cmdLineErr ("Expected digit after '" +:+ String sg "" +:+ "' in " +:+ quoted arg +:+ nl)
                  else
                    r ← call_strtol after;
                    let '(v, flags) := r in
                    let op := to_signed 16 v in
                    let op' := if decide (sg = "-"%char) then to_signed 16 (- op) else op in
                    when (bool_decide (sg = "="%char) && negb (op =? 0))
                      (p_cmdLineErr ("Expected " +:+ quoted "=0" +:+ " in " +:+ quoted arg +:+ nl));;
                    let '(flg, flags) := parse_flags 0 flags in
                    match deref flags with
                    | Some c =>
                        if decide (c = ","%char) then
                          (* comma = strchr(remaining, ',') *)
                          mret (Sembuf num op' flg, option_map advance (strchr remaining ","%char))
                        else
                          p_cmdLineErr ("Bad trailing character (" +:+ String c "" +:+ ") in " +:+
                                        quoted arg +:+ nl)
                    | None =>
                        mret (Sembuf num op' flg, option_map advance (strchr remaining ","%char))
                    end
              | None =>
                  p_cmdLineErr ("Expected digit after '" +:+ String sg "" +:+ "' in " +:+ quoted arg +:+ nl)
              end
        | EmptyString => p_cmdLineErr ("Expected '+', '-', or '=' in " +:+ quoted arg +:+ nl)
        end
  end.

(** [parseOps(arg, sops)]; the array is the list of its elements that were
    written.  Every turn but the last passes a comma, so the length of the
    argument bounds their number. *)
Definition parseOps (arg : string) : P (list sembuf) :=
  loop (S (String.length arg)) (λ '(sops, remaining),
    r ← parse_op arg remaining (length sops);
    match r with
    | (op, Some rest) => mret (inl (sops ++ [op], rest))
    | (op, None) => mret (inr (sops ++ [op]))
    end) ([], arg).

Definition usageError (progName : string) : P unit :=
  eprintf ("Usage: " +:+ progName +:+ " semid op[,op...] ..." +:+ nl +:+ nl);;
  eprintf ("'op' is either: <sem#>{+|-}<value>[n][u]" +:+ nl);;
  eprintf ("            or: <sem#>=0[n]" +:+ nl);;
  eprintf ("       " +:+ quoted "n" +:+ " means include IPC_NOWAIT in 'op'" +:+ nl);;
  eprintf ("       " +:+ quoted "u" +:+ " means include SEM_UNDO in 'op'" +:+ nl +:+ nl);;
  eprintf ("The operations in each argument are performed in a single semop() call" +:+ nl +:+ nl);;
  eprintf ("e.g.: " +:+ progName +:+ " 12345 0+1,1-2un" +:+ nl);;
  eprintf ("      " +:+ progName +:+ " 12345 0=0n 1+1,2-1u 1=0" +:+ nl);;
  p_exit EXIT_FAILURE.

(** [semop(semid, sops, nsops) == -1] *)
Definition do_semop (semid : Z) (sops : list sembuf) : P (Z + Z) :=
  call (CSemop semid sops) (sys_semop semid sops).

Definition stamp (what arg : string) : P unit :=
  printf (pad_left 5 (fmt_d getpid) +:+ ", " +:+ currTime +:+ ": " +:+ what +:+ " [" +:+ arg +:+ "]" +:+ nl).

Definition perform_group (semid_arg arg : string) : P unit :=
  sops ← parseOps arg;
  stamp "about to semop() " arg;;
  semid ← p_getInt (Some semid_arg) 0 "semid";
  r ← do_semop semid sops;
  match r with
  | inl _ => p_systmErr ("semop (PID=" +:+ fmt_d getpid +:+ ")")
  | inr _ => stamp "semop() completed" arg
  end.

Definition main (argv : list string) : P unit :=
  match argv with
  | _ :: semid_arg :: groups =>
      when (bool_decide (semid_arg = "--help")) (usageError (hd "" argv));;
      for_each groups (perform_group semid_arg);;
      p_exit EXIT_SUCCESS
  | _ => usageError (hd "" argv)
  end.
End svsem_op.

(** ** The grammar of arguments *)

Definition is_flag (c : ascii) : bool := bool_decide (c = "n"%char ∨ c = "u"%char).

(** The mask that the letters of a flag text stand for, whatever their order and
    however often they are repeated. *)
Definition flags_of (fl : string) : Z :=
  Z.lor (if bool_decide ("n"%char ∈ chars fl) then IPC_NOWAIT else 0)
        (if bool_decide ("u"%char ∈ chars fl) then SEM_UNDO else 0).

(** The signs an operation can have. *)
Definition op_signs : list ascii := ["+"; "-"; "="]%char.

(** The number stored for a digit string of value [v]: [strtol] stops at
    [LONG_MAX], and the assignment keeps the low 16 bits. *)
Definition stored_num (n : Z) : Z := to_unsigned 16 (Z.min n LONG_MAX).
Definition stored_op (sg : ascii) (v : Z) : Z :=
  let op := to_signed 16 (Z.min v LONG_MAX) in
  if decide (sg = "-"%char) then to_signed 16 (- op) else op.

(** An operation: digits, a sign, digits and flags.  After [=] the number that
    is stored must be 0. *)
Inductive op_text : string → sembuf → Prop :=
| Op_text num n sg val v fl :
    digits_of 10 num n → sg ∈ op_signs → digits_of 10 val v →
    all_chars is_flag fl = true → (sg = "="%char → stored_op sg v = 0) →
    op_text (num +:+ String sg (val +:+ fl))
      (Sembuf (stored_num n) (stored_op sg v) (flags_of fl)).

(** Operations separated by commas. *)
Local Abbreviation join_ops := join_commas.

Definition ops_arg (arg : string) (ops : list sembuf) : Prop :=
  ∃ ts, arg = join_ops ts ∧ Forall2 op_text ts ops ∧ ts ≠ [] ∧ (length ts <= MAX_SEMOPS)%nat.

(** *** Scanning *)

Lemma isdigit_base c : isdigit c = is_base_digit 10 c.
Proof. destruct c as [[] [] [] [] [] [] [] []]; reflexivity. Qed.

Lemma is_sign_spec c : is_sign c = true ↔ c ∈ op_signs.
Proof.
  unfold is_sign, op_signs. rewrite !elem_of_cons, elem_of_nil. simpl.
  repeat case_decide; subst; split; intros; try done; naive_solver.
Qed.

Lemma op_sign_cases c : c ∈ op_signs → c = "+"%char ∨ c = "-"%char ∨ c = "="%char.
Proof. unfold op_signs. rewrite !elem_of_cons, elem_of_nil. naive_solver. Qed.

(** [parse_flags] over letters collects their bits. *)
Lemma parse_flags_bits flg fl :
  all_chars is_flag fl = true → (parse_flags flg fl).1 = Z.lor flg (flags_of fl).
Proof.
  revert flg. induction fl as [|c fl IH]; intros flg.
  - intros _. cbn. by rewrite Z.lor_0_r.
  - rewrite all_chars_cons. intros [Hc Ha]%andb_true_iff.
    unfold is_flag in Hc. apply bool_decide_eq_true in Hc.
    destruct Hc as [->| ->]; simpl; rewrite IH by done; rewrite <- Z.lor_assoc; f_equal;
      unfold flags_of; cbn [chars];
      repeat case_bool_decide; try done; set_solver.
Qed.

Lemma parse_flags_letters fl :
  all_chars is_flag fl = true → (parse_flags 0 fl).1 = flags_of fl.
Proof. intros H. by rewrite parse_flags_bits. Qed.

Lemma span_digits_rest b s ds rest c t :
  span_digits b s = (ds, rest) → rest = String c t → is_base_digit b c = false.
Proof.
  revert ds rest. induction s as [|d s IH]; simpl; intros ds rest; [by intros [= <- <-]|].
  destruct (is_base_digit b d) eqn:E.
  - destruct (span_digits b s) as [ds' rest']. intros [= <- <-]. by eapply IH.
  - intros [= <- <-] [= <- <-]. done.
Qed.

Lemma span_digits_digits b s ds rest :
  span_digits b s = (ds, rest) → s = ds +:+ rest ∧ all_chars (is_base_digit b) ds = true.
Proof.
  revert ds rest. induction s as [|d s IH]; simpl; intros ds rest; [by intros [= <- <-]|].
  destruct (is_base_digit b d) eqn:E; [|by intros [= <- <-]].
  destruct (span_digits b s) as [ds' rest'] eqn:E'. intros [= <- <-].
  destruct (IH _ _ eq_refl) as [-> Ha]. by rewrite all_chars_cons, E, Ha.
Qed.

Lemma digits_value_nonneg b acc s : 0 <= b → 0 <= acc → 0 <= digits_value b acc s.
Proof.
  intros Hb. revert acc. induction s as [|c s IH]; intros acc Ha; simpl; [done|].
  apply IH. assert (0 <= digit_value c); [|nia].
  unfold digit_value. repeat case_match; bool_facts; lia.
Qed.

(** [strtol] at a digit reads the digits. *)
Lemma strtol_digits p d t ds rest :
  p = String d t → isdigit d = true → span_digits 10 p = (ds, rest) →
  ∃ e, strtoll p 10 = (Z.min (digits_value 10 0 ds) LONG_MAX, rest, e) ∧ ds ≠ "".
Proof.
  intros -> Hd Hs. rewrite isdigit_base in Hd.
  destruct (digit_value_range 10 d ltac:(lia) Hd) as (Hsp & Hm & Hp).
  assert (Hne : ds ≠ "").
  { simpl in Hs. rewrite Hd in Hs. destruct (span_digits 10 t). by injection Hs as <- <-. }
  assert (Hscan : strto_scan (String d t) 10 = Some (false, digits_value 10 0 ds, rest)).
  { unfold strto_scan. simpl skip_spaces. rewrite Hsp. simpl split_sign.
    rewrite !decide_False by done. change (resolve_base 10 (String d t)) with (10, String d t).
    cbv beta iota. rewrite Hs. by destruct ds. }
  unfold strtoll. rewrite Hscan.
  pose proof (digits_value_nonneg 10 0 ds ltac:(lia) ltac:(lia)).
  destruct (Z.ltb_spec (digits_value 10 0 ds) LLONG_MIN); [unfold LLONG_MIN in *; lia|].
  destruct (Z.ltb_spec LLONG_MAX (digits_value 10 0 ds)).
  - exists ERANGE. rewrite Z.min_r by (unfold LLONG_MAX, LONG_MAX in *; lia). done.
  - exists 0. rewrite Z.min_l by (unfold LLONG_MAX, LONG_MAX in *; lia). done.
Qed.

(** *** The parser as a function of the text *)

(** What [parse_op] gives when it returns. *)
Definition scan_op (p : string) : option (sembuf * option string) :=
  let '(num, r) := span_digits 10 p in
  match num, r with
  | String _ _, String sg after =>
      let '(val, r) := span_digits 10 after in
      let '(flg, r) := parse_flags 0 r in
      let op := stored_op sg (digits_value 10 0 val) in
      match val with
      | EmptyString => None
      | _ =>
          if negb (is_sign sg) then None
          else if bool_decide (sg = "="%char) && negb (op =? 0) then None
          else
            let o := Sembuf (stored_num (digits_value 10 0 num)) op flg in
            match r with
            | EmptyString => Some (o, None)
            | String c t => if decide (c = ","%char) then Some (o, Some t) else None
            end
      end
  | _, _ => None
  end.

Lemma parse_flags_spec flg p flg' r :
  parse_flags flg p = (flg', r) →
  ∃ fl, p = fl +:+ r ∧ all_chars is_flag fl = true ∧ flg' = (parse_flags flg fl).1 ∧
    (∀ c t, r = String c t → is_flag c = false).
Proof.
  revert flg. induction p as [|c p IH]; simpl; intros flg.
  - intros [= <- <-]. by exists "".
  - destruct (decide (c = "n"%char)) as [->|Hn]; [|destruct (decide (c = "u"%char)) as [->|Hu]].
    + intros H. destruct (IH _ H) as (fl & -> & Ha & -> & Hr). by exists (String "n" fl).
    + intros H. destruct (IH _ H) as (fl & -> & Ha & -> & Hr). by exists (String "u" fl).
    + intros [= <- <-]. exists "". split_and!; [done..|]. intros c' t [= <- <-].
      unfold is_flag. apply bool_decide_eq_false. tauto.
Qed.

Lemma parse_flags_app flg fl r :
  all_chars is_flag fl = true → (∀ c t, r = String c t → is_flag c = false) →
  parse_flags flg (fl +:+ r) = ((parse_flags flg fl).1, r).
Proof.
  intros Ha Hr. revert flg. induction fl as [|c fl IH]; intros flg.
  - simpl. destruct r as [|c t]; [done|]. specialize (Hr c t eq_refl). simpl.
    unfold is_flag in Hr. apply bool_decide_eq_false in Hr.
    rewrite !decide_False by tauto. done.
  - rewrite all_chars_cons in Ha. apply andb_true_iff in Ha as [Hc Ha].
    rewrite append_cons. simpl. repeat case_decide; try (by apply IH).
    unfold is_flag in Hc. apply bool_decide_eq_true in Hc. tauto.
Qed.

(** What follows an operation: nothing, or a comma and the rest. *)
Definition tail_text (next : option string) : string :=
  match next with None => "" | Some r => String "," r end.

Lemma span_digits_stop b ds r :
  all_chars (is_base_digit b) ds = true → (∀ c t, r = String c t → is_base_digit b c = false) →
  span_digits b (ds +:+ r) = (ds, r).
Proof.
  intros Ha Hr. destruct r as [|c t].
  - rewrite append_nil_r. by apply span_digits_all.
  - apply span_digits_app; [done|by eapply Hr].
Qed.

Lemma op_text_app num sg val fl r :
  (num +:+ String sg (val +:+ fl)) +:+ r = num +:+ String sg (val +:+ (fl +:+ r)).
Proof. by rewrite <- append_assoc, append_cons, <- append_assoc. Qed.

Lemma scan_op_spec p o next :
  scan_op p = Some (o, next) ↔ ∃ t, op_text t o ∧ p = t +:+ tail_text next.
Proof.
  split.
  - unfold scan_op. destruct (span_digits 10 p) as [num r] eqn:E1.
    destruct num as [|d num]; [done|]. destruct r as [|sg after]; [done|].
    destruct (span_digits 10 after) as [val r2] eqn:E2.
    destruct (parse_flags 0 r2) as [flg r3] eqn:E3.
    destruct val as [|d2 val]; [done|]. destruct (is_sign sg) eqn:Hsg; [|done]. cbn [negb].
    destruct (bool_decide (sg = "="%char) && _) eqn:Heq; [done|].
    apply span_digits_digits in E1 as [-> Hn]. apply span_digits_digits in E2 as [-> Hv].
    apply parse_flags_spec in E3 as (fl & -> & Hf & -> & _). intros Hres.
    exists (String d num +:+ String sg (String d2 val +:+ fl)). split.
    + rewrite parse_flags_letters in Hres by done. assert (Ho : o = Sembuf (stored_num (digits_value 10 0 (String d num)))
                 (stored_op sg (digits_value 10 0 (String d2 val))) (flags_of fl)).
      { destruct r3 as [|c t]; [by injection Hres|]. case_decide; [by injection Hres|done]. }
      rewrite Ho. constructor; try done; try by repeat split. { by apply is_sign_spec. }
      intros ->. apply andb_false_iff in Heq as [Heq|Heq]; [by apply bool_decide_eq_false in Heq|].
      apply negb_false_iff, Z.eqb_eq in Heq. done.
    + assert (Hr3 : r3 = tail_text next).
      { destruct r3 as [|c t]; [by injection Hres as <- <-|]. case_decide as Hc; [|done].
        rewrite Hc in *. by injection Hres as <- <-. }
      rewrite Hr3. symmetry. apply op_text_app.
  - intros (t & Ht & ->). destruct Ht as [num n sg val v fl Hn Hsg Hv Hf Heq].
    destruct Hn as (Hn1 & Hn2 & ->). destruct Hv as (Hv1 & Hv2 & ->).
    assert (Hsgd : is_base_digit 10 sg = false)
      by (by destruct (op_sign_cases sg Hsg) as [->|[->| ->]]).
    unfold scan_op.
    rewrite op_text_app.
    rewrite span_digits_app by done.
    assert (Hcomma : ∀ c t, tail_text next = String c t → c = ","%char)
      by (destruct next; simpl; intros c t [= <- <-]; done).
    rewrite span_digits_stop; [|done|].
    2:{ intros c t E. destruct fl as [|f fl].
        - by rewrite (Hcomma c t E).
        - rewrite append_cons in E. injection E as <- _.
          rewrite all_chars_cons in Hf. apply andb_true_iff in Hf as [Hf _].
          unfold is_flag in Hf. apply bool_decide_eq_true in Hf. by destruct Hf as [->| ->]. }
    rewrite parse_flags_app; [|done|by intros c t ->%Hcomma].
    destruct num as [|d num]; [done|]. destruct val as [|d2 val]; [done|].
    rewrite (proj2 (is_sign_spec sg) Hsg), parse_flags_letters by done. cbn [negb].
    assert (Hb : bool_decide (sg = "="%char) &&
                 negb (stored_op sg (digits_value 10 0 (String d2 val)) =? 0) = false).
    { case_bool_decide as E; [|done]. by rewrite Heq, Z.eqb_refl. }
    rewrite Hb. by destruct next.
Qed.

(** *** Commas *)

Local Abbreviation no_comma := (no_char ",").

Lemma op_text_no_comma t o : op_text t o → all_chars no_comma t = true.
Proof.
  destruct 1 as [num n sg val v fl (_ & Hn & _) Hsg (_ & Hv & _) Hf _].
  assert (Hd : ∀ c, is_base_digit 10 c = true → no_comma c = true)
    by (intros c Hc; apply bool_decide_eq_true; by intros ->).
  rewrite all_chars_app, all_chars_cons, all_chars_app.
  rewrite !(all_chars_impl _ _ _ Hd) by done.
  rewrite (all_chars_impl is_flag no_comma fl) by
    (try done; intros c Hc; apply bool_decide_eq_true; by intros ->).
  by destruct (op_sign_cases sg Hsg) as [->|[->| ->]].
Qed.

Lemma strchr_next t o next :
  op_text t o → option_map advance (strchr (t +:+ tail_text next) ","%char) = next.
Proof.
  intros Ht. destruct (strchr_skip "," t (tail_text next)) as [-> _]; [by eapply op_text_no_comma|].
  by destruct next.
Qed.

(** *** Runs of the parser *)

Section runs.
Context {L : Libc} {W : Type} `{!SemSys W}.
Local Abbreviation state := (pst unit sem_call W).

(** The computation reports an error and ends the process. *)
Definition rejects {A} (m : M state A) (s : state) : Prop :=
  ∃ h s', m s = (Halt h, s') ∧ fatal_end h ∧ same_but_proc s s'.

Lemma cmdLineErr_rejects {A} msg s : rejects (@p_cmdLineErr L unit sem_call W A msg) s.
Proof.
  destruct (@p_cmdLineErr_halts L unit sem_call W A msg s) as (s' & E & Hs).
  eexists _, s'. split; [exact E|]. split; [by left|done].
Qed.

Lemma call_strtol_run p v r e s :
  strtoll p 10 = (v, r, e) →
  ∃ s', call_strtol (W := W) p s = (Ok (v, r), s') ∧ same_but_proc s s'.
Proof.
  intros H. unfold call_strtol. rewrite H. destruct (negb (e =? 0)); by eexists.
Qed.

Lemma rejects_bind_l {A B} (m : M state A) (k : A → M state B) s :
  rejects m s → rejects (m ≫= k) s.
Proof. intros (h & s2 & Hk & Hh). exists h, s2. split; [by apply run_bind_halt|done]. Qed.

Lemma custmErr_rejects {A} msg s : rejects (@p_custmErr L unit sem_call W A msg) s.
Proof. exact (@p_custmErr_halts L unit sem_call W A msg s). Qed.

Hint Resolve cmdLineErr_rejects custmErr_rejects rejects_bind_l : core.

(** The computation gives the value, or reports an error when there is none. *)
Definition agrees {A} (r : option A) (m : M state A) (s : state) : Prop :=
  match r with
  | Some x => ∃ s', m s = (Ok x, s') ∧ same_but_proc s s'
  | None => rejects m s
  end.

Lemma agrees_bind {A B} (r : option B) (m : M state A) (k : A → M state B) s a s' :
  m s = (Ok a, s') → same_but_proc s s' → agrees r (k a) s' → agrees r (m ≫= k) s.
Proof.
  intros Hm Hs. destruct r as [x|]; simpl.
  - intros (s2 & Hk & Hs2). exists s2. split; [by erewrite run_bind|by etransitivity].
  - intros (h & s2 & Hk & Hh & Hs2). exists h, s2. split; [by erewrite run_bind|].
    split; [done|]. by etransitivity.
Qed.

(** The end of an operation: the character after the flags. *)
Lemma parse_op_end arg p o r3 s (Q : option (sembuf * option string)) :
  Q = match r3 with
      | EmptyString => Some (o, None)
      | String c t => if decide (c = ","%char) then Some (o, Some t) else None
      end →
  (∀ r, Q = Some r → option_map advance (strchr p ","%char) = r.2) →
  agrees Q
    (match deref r3 with
     | Some c =>
         if decide (c = ","%char) then mret (o, option_map advance (strchr p ","%char))
         else p_cmdLineErr ("Bad trailing character (" +:+ String c "" +:+ ") in " +:+
                            quoted arg +:+ nl)
     | None => mret (o, option_map advance (strchr p ","%char))
     end) s.
Proof.
  intros -> Hstr. destruct r3 as [|c t]; cbn [deref].
  - rewrite (Hstr _ eq_refl). by eexists.
  - destruct (decide (c = ","%char)); [|apply cmdLineErr_rejects].
    rewrite (Hstr _ eq_refl). by eexists.
Qed.

(** One operation: the parser agrees with [scan_op]. *)
Lemma parse_op_run arg p k s :
  (k < MAX_SEMOPS)%nat → agrees (scan_op p) (parse_op arg p k) s.
Proof.
  intros Hk. assert (Hlt : (MAX_SEMOPS <=? k)%nat = false) by (apply Nat.leb_gt; lia).
  assert (Hstr : ∀ r, scan_op p = Some r → option_map advance (strchr p ","%char) = r.2).
  { intros [o next] Ho. apply scan_op_spec in Ho as (t & Ht & ->). by eapply strchr_next. }
  unfold parse_op. rewrite Hlt. cbn [when].
  eapply agrees_bind; [reflexivity|reflexivity|].
  destruct p as [|d t]; [apply custmErr_rejects|].
  revert Hstr. unfold scan_op. set (p := String d t).
  destruct (span_digits 10 p) as [num r] eqn:E1.
  destruct (isdigit d) eqn:Hd; cbn [negb].
  2:{ unfold p in E1. simpl in E1. rewrite <- isdigit_base, Hd in E1.
      injection E1 as <- <-. intros _. apply cmdLineErr_rejects. }
  destruct (strtol_digits p d t num r eq_refl Hd E1) as (e & Hr & Hne).
  destruct (call_strtol_run _ _ _ _ s Hr) as (s1 & H1 & Hs1).
  intros Hstr. eapply agrees_bind; [exact H1|exact Hs1|]. cbv beta iota.
  destruct num as [|d1 num]; [done|]. destruct r as [|sg after]; [apply cmdLineErr_rejects|].
  destruct (span_digits 10 after) as [val r2] eqn:E2.
  destruct (is_sign sg) eqn:Hsg; cbn [negb] in *.
  2:{ destruct (parse_flags 0 r2) as [flg r3]. destruct val; apply cmdLineErr_rejects. }
  destruct after as [|d' after]; cbn [deref] in *.
  { simpl in E2. injection E2 as <- <-. simpl. apply cmdLineErr_rejects. }
  destruct (isdigit d') eqn:Hd'; cbn [negb].
  2:{ simpl in E2. rewrite <- isdigit_base, Hd' in E2. injection E2 as <- <-.
      destruct (parse_flags _ _). apply cmdLineErr_rejects. }
  destruct (strtol_digits _ d' after val r2 eq_refl Hd' E2) as (e2 & Hr2 & Hne2).
  destruct (call_strtol_run _ _ _ _ s1 Hr2) as (s2 & H2 & Hs2).
  destruct val as [|d2 val]; [done|].
  destruct (parse_flags 0 r2) as [flg r3] eqn:E3.
  eapply agrees_bind; [exact H2|exact Hs2|]. cbv beta iota.
  set (op := to_signed 16 (Z.min (digits_value 10 0 (String d2 val)) LONG_MAX)) in *.
  change (if decide (sg = "-"%char) then to_signed 16 (- op) else op)
    with (stored_op sg (digits_value 10 0 (String d2 val))) in *.
  assert (Hop : sg = "="%char → stored_op sg (digits_value 10 0 (String d2 val)) = op)
    by by intros ->.
  destruct (bool_decide_reflect (sg = "="%char)) as [Heq|Heq]; cbn [andb] in *.
  - rewrite (Hop Heq) in *. destruct (op =? 0); cbn [negb when] in *;
      [|apply rejects_bind_l, cmdLineErr_rejects].
    eapply agrees_bind; [reflexivity|reflexivity|]. rewrite E3. by apply parse_op_end.
  - cbn [when]. eapply agrees_bind; [reflexivity|reflexivity|]. rewrite E3. by apply parse_op_end.
Qed.

(** The whole argument. *)
Fixpoint scan_ops (fuel : nat) (p : string) (k : nat) : option (list sembuf) :=
  match fuel with
  | O => None
  | S fuel =>
      if (MAX_SEMOPS <=? k)%nat then None
      else match scan_op p with
           | Some (o, None) => Some [o]
           | Some (o, Some rest) => cons o <$> scan_ops fuel rest (S k)
           | None => None
           end
  end.

Lemma scan_op_shorter p o rest :
  scan_op p = Some (o, Some rest) → (String.length rest < String.length p)%nat.
Proof.
  intros (t & _ & ->)%scan_op_spec. rewrite length_append. simpl. lia.
Qed.

Lemma scan_ops_spec fuel p k ops :
  (String.length p < fuel)%nat →
  scan_ops fuel p k = Some ops ↔
  ∃ ts, p = join_ops ts ∧ Forall2 op_text ts ops ∧ ts ≠ [] ∧ (k + length ts <= MAX_SEMOPS)%nat.
Proof.
  revert p k ops. induction fuel as [|fuel IH]; intros p k ops Hf; [lia|]. cbn [scan_ops]. split.
  - destruct (MAX_SEMOPS <=? k)%nat eqn:Ek; [done|]. apply Nat.leb_gt in Ek.
    destruct (scan_op p) as [[o [rest|]]|] eqn:Eo; [| |done].
    + pose proof (scan_op_shorter _ _ _ Eo) as Hlt.
      intros (ops' & Hops & ->)%fmap_Some.
      apply IH in Hops as (ts & -> & Hts & Hne & Hlen); [|lia].
      apply scan_op_spec in Eo as (t & Ht & ->). exists (t :: ts).
      split_and!; [by rewrite join_commas_cons|by constructor|done|simpl; lia].
    + intros [= <-]. apply scan_op_spec in Eo as (t & Ht & ->). exists [t]. simpl.
      rewrite append_nil_r. split_and!; [done|by repeat constructor|done|lia].
  - intros (ts & -> & Hts & Hne & Hlen). destruct Hts as [|t o ts ops Ht Hts]; [done|].
    simpl in Hlen. rewrite (proj2 (Nat.leb_gt _ _)) by lia.
    destruct ts as [|t' ts].
    + inversion Hts; subst. assert (E : scan_op t = Some (o, None)).
      { apply scan_op_spec. exists t. split; [done|]. by rewrite append_nil_r. }
      simpl. by rewrite E.
    + assert (E : scan_op (join_ops (t :: t' :: ts)) = Some (o, Some (join_ops (t' :: ts)))).
      { apply scan_op_spec. by exists t. }
      rewrite E. pose proof (scan_op_shorter _ _ _ E) as Hlt.
      rewrite (proj2 (IH (join_ops (t' :: ts)) (S k) ops ltac:(lia))); [done|].
      exists (t' :: ts). split_and!; [done..|simpl in *; lia].
Qed.

Lemma agrees_weaken {A B} (f : A → B) (r : option A) (m : M state A) s :
  agrees r m s → agrees (f <$> r) (x ← m; mret (f x)) s.
Proof.
  destruct r as [x|]; simpl.
  - intros (s' & H & Hs). exists s'. split; [by erewrite run_bind|done].
  - apply rejects_bind_l.
Qed.

Lemma agrees_then {A B} (r : option A) (k : A → option B) (m : M state A) (f : A → M state B) s :
  agrees r m s → (∀ x s', r = Some x → agrees (k x) (f x) s') → agrees (r ≫= k) (m ≫= f) s.
Proof.
  destruct r as [x|]; simpl.
  - intros (s' & H & Hs) Hf. eapply agrees_bind; [exact H|exact Hs|by apply Hf].
  - intros H _. by apply rejects_bind_l.
Qed.

(** The loop of [parseOps] from any of its turns. *)
Lemma parseOps_loop arg fuel acc p s :
  (String.length p < fuel)%nat →
  agrees (app acc <$> scan_ops fuel p (length acc))
    (loop fuel (λ '(sops, remaining),
      r ← parse_op arg remaining (length sops);
      match r with
      | (op, Some rest) => mret (inl (sops ++ [op], rest))
      | (op, None) => mret (inr (sops ++ [op]))
      end) (acc, p)) s.
Proof.
  revert acc p s. induction fuel as [|fuel IH]; intros acc p s Hf; [lia|].
  rewrite loop_S. cbn [scan_ops]. destruct (MAX_SEMOPS <=? length acc)%nat eqn:Ek.
  { apply rejects_bind_l, rejects_bind_l. unfold parse_op. rewrite Ek. cbn [when].
    apply rejects_bind_l, cmdLineErr_rejects. }
  apply Nat.leb_gt in Ek. pose proof (parse_op_run arg p (length acc) s Ek) as Hrun.
  destruct (scan_op p) as [[o next]|] eqn:Eo; [|by apply rejects_bind_l, rejects_bind_l].
  destruct Hrun as (s1 & H1 & Hs1).
  destruct next as [rest|];
    (eapply agrees_bind; [erewrite run_bind by exact H1; reflexivity|exact Hs1|]);
    cbv beta iota.
  - pose proof (scan_op_shorter _ _ _ Eo).
    specialize (IH (acc ++ [o]) rest s1 ltac:(lia)). rewrite length_app in IH. simpl in IH.
    rewrite Nat.add_1_r in IH. destruct (scan_ops fuel rest (S (length acc))) as [ops|]; [|exact IH].
    simpl in IH |- *. by rewrite <- app_assoc in IH.
  - simpl. by eexists.
Qed.

Lemma parseOps_run arg s : agrees (scan_ops (S (String.length arg)) arg 0) (parseOps arg) s.
Proof.
  pose proof (parseOps_loop arg (S (String.length arg)) [] arg s ltac:(lia)) as H. simpl length in H.
  destruct (scan_ops _ _ _); exact H.
Qed.
End runs.

(** What the parser does with any argument, for the callers. *)
Lemma parseOps_result {L : Libc} {W} `{!SemSys W} arg (s : pst unit sem_call W) :
  (∃ ops s', parseOps arg s = (Ok ops, s') ∧ ops_arg arg ops ∧ same_but_proc s s') ∨
  (rejects (parseOps arg) s ∧ ∀ ops, ¬ ops_arg arg ops).
Proof.
  assert (Heq : ∀ ops, scan_ops (S (String.length arg)) arg 0 = Some ops ↔ ops_arg arg ops)
    by (intros ops; apply scan_ops_spec; lia).
  pose proof (parseOps_run arg s) as H.
  destruct (scan_ops (S (String.length arg)) arg 0) as [ops|] eqn:E.
  - left. destruct H as (s' & H & Hs). exists ops, s'. split_and!; [done|by apply Heq|done].
  - right. split; [done|]. intros ops Hops. by apply Heq in Hops.
Qed.

(** C30: [parseOps] returns exactly for the arguments of the grammar: one to
    [MAX_SEMOPS] operations separated by commas, each a semaphore number, one of
    the signs +, - and =, a value, which must be stored as 0 after =, and letters n
    and u, in any order and number, that stand for [IPC_NOWAIT] and [SEM_UNDO]; it then gives the operations in order, with the
    numbers as they are stored in the 16-bit members.  For any other argument
    it reports an error and the process ends. *)
Theorem parseOps_spec {L : Libc} {W} `{!SemSys W} arg (s : pst unit sem_call W) :
  (∃ ops s', parseOps arg s = (Ok ops, s') ∧ ops_arg arg ops ∧ same_but_proc s s') ∨
  (rejects (parseOps arg) s ∧ ∀ ops, ¬ ops_arg arg ops).
Proof. apply parseOps_result. Qed.

(** *** Printing *)

Definition sign_char (op : Z) : ascii :=
  if op =? 0 then "="%char else if op <? 0 then "-"%char else "+"%char.
Definition show_flags (flg : Z) : string :=
  (if has flg IPC_NOWAIT then "n" else "") +:+ (if has flg SEM_UNDO then "u" else "").

(** The argument text of an operation. *)
Definition show_op (o : sembuf) : string :=
  dec_nonneg o.(sem_num) +:+
  String (sign_char o.(sem_op)) (dec_nonneg (Z.abs o.(sem_op)) +:+ show_flags o.(sem_flg)).

(** An operation with members of the range of their types and no other flags. *)
Definition sembuf_ok (o : sembuf) : Prop :=
  0 <= o.(sem_num) < 2 ^ 16 ∧ - 2 ^ 15 <= o.(sem_op) < 2 ^ 15 ∧
  o.(sem_flg) ∈ [0; IPC_NOWAIT; SEM_UNDO; Z.lor IPC_NOWAIT SEM_UNDO].

Lemma stored_op_sign op :
  - 2 ^ 15 <= op < 2 ^ 15 → stored_op (sign_char op) (Z.abs op) = op.
Proof.
  intros Hop. unfold stored_op, sign_char.
  assert (Hm : Z.min (Z.abs op) LONG_MAX = Z.abs op) by (unfold LONG_MAX; lia). rewrite Hm.
  destruct (Z.eqb_spec op 0) as [->|Hne]; [done|]. destruct (Z.ltb_spec op 0).
  - rewrite decide_True by done. rewrite Z.abs_neq by lia.
    destruct (decide (op = - 2 ^ 15)) as [->|]; [done|].
    rewrite (to_signed_small 16 (- op)) by (simpl Z.sub; lia).
    rewrite Z.opp_involutive. apply to_signed_small; simpl Z.sub; lia.
  - rewrite decide_False by done. rewrite Z.abs_eq by lia. apply to_signed_small; simpl Z.sub; lia.
Qed.

Lemma show_op_text o : sembuf_ok o → op_text (show_op o) o.
Proof.
  intros (Hn & Hop & Hf). destruct o as [n op flg]. cbn [sem_num sem_op sem_flg] in *.
  unfold show_op. cbn [sem_num sem_op sem_flg].
  assert (Hfl : all_chars is_flag (show_flags flg) = true ∧ flags_of (show_flags flg) = flg).
  { rewrite !elem_of_cons, elem_of_nil in Hf. by destruct Hf as [->|[->|[->|[->|[]]]]]. }
  assert (Hnum : stored_num n = n).
  { unfold stored_num. rewrite Z.min_l by (unfold LONG_MAX; lia). by apply to_unsigned_small. }
  pose proof (Op_text (dec_nonneg n) n (sign_char op) (dec_nonneg (Z.abs op)) (Z.abs op)
                (show_flags flg)) as H.
  rewrite Hnum, (proj2 Hfl), (stored_op_sign op Hop) in H. apply H.
  - apply dec_nonneg_spec. lia.
  - apply is_sign_spec. unfold sign_char. by destruct (op =? 0), (op <? 0).
  - apply dec_nonneg_spec. lia.
  - apply Hfl.
  - unfold sign_char. destruct (Z.eqb_spec op 0); [done|]. by destruct (op <? 0).
Qed.

(** The text of one to [MAX_SEMOPS] operations, written with commas
    between them, is parsed back to the same operations. *)
Theorem parseOps_roundtrip {L : Libc} {W} `{!SemSys W} ops (s : pst unit sem_call W) :
  Forall sembuf_ok ops → ops ≠ [] → (length ops <= MAX_SEMOPS)%nat →
  ∃ s', parseOps (join_ops (show_op <$> ops)) s = (Ok ops, s') ∧ same_but_proc s s'.
Proof.
  intros Hok Hne Hlen. set (arg := join_ops _).
  assert (Hops : scan_ops (S (String.length arg)) arg 0 = Some ops).
  { apply scan_ops_spec; [lia|]. exists (show_op <$> ops). split_and!; [done| |by destruct ops|].
    - apply Forall2_fmap_l, Forall_Forall2_diag. eapply Forall_impl; [exact Hok|].
      intros o Ho. by apply show_op_text.
    - by rewrite length_fmap. }
  pose proof (parseOps_run arg s) as H. rewrite Hops in H. exact H.
Qed.

(** *** The whole program *)

Section main_facts.
Context {L : Libc} {W : Type} `{!SemSys W}.
Local Abbreviation state := (pst unit sem_call W).

(** A call performs the group of an argument on the set of the first argument. *)
Definition group_call (semid_arg group : string) (c : sem_call) : Prop :=
  ∃ semid ops, c = CSemop semid ops ∧ ops_arg group ops ∧ int_arg 0 (Some semid_arg) semid.

Lemma perform_group_run semid_arg g (s : state) :
  ∃ r s', perform_group semid_arg g s = (r, s') ∧ s'.(vars) = s.(vars) ∧
    ((r = Ok tt ∧ ∃ c, s'.(trace) = s.(trace) ++ [c] ∧ group_call semid_arg g c) ∨
     (∃ h, r = Halt h ∧ fatal_end h ∧
        (s'.(trace) = s.(trace) ∨ ∃ c, s'.(trace) = s.(trace) ++ [c] ∧ group_call semid_arg g c))).
Proof.
  unfold perform_group.
  destruct (parseOps_result g s) as [(ops & s1 & H1 & Hops & Hv1 & Ht1 & _)|[(h & s1 & H1 & Hh & Hv1 & Ht1 & _) _]].
  2:{ exists (Halt h), s1. split; [by apply run_bind_halt|]. split; [done|]. right. eauto. }
  erewrite run_bind by exact H1. erewrite run_bind by reflexivity.
  match goal with |- context [(p_getInt _ _ _ ≫= _) ?s2] => set (s2' := s2) end.
  assert (Hs2 : s2'.(vars) = s.(vars) ∧ s2'.(trace) = s.(trace)) by by split.
  destruct (p_getInt_run (Some semid_arg) 0 "semid" s2') as
    [(v & s3 & H3 & Hv & Hv3 & Ht3 & _)|(s3 & H3 & _ & Hv3 & Ht3 & _)].
  2:{ eexists _, s3. split; [by apply run_bind_halt|]. split; [destruct Hs2; congruence|].
      right. eexists; split; [done|]. split; [by left|]. left. destruct Hs2; congruence. }
  erewrite run_bind by exact H3. cbv beta iota. unfold do_semop, call.
  assert (Hc : group_call semid_arg g (CSemop v ops)) by by exists v, ops.
  destruct (sys_semop v ops (world s3)) as [[e|z] w] eqn:Esem.
  - erewrite run_bind by (rewrite Esem; reflexivity). cbv beta iota.
    match goal with |- context [p_systmErr ?m ?s4] =>
      destruct (@p_systmErr_halts L unit sem_call W unit m s4) as (h & s5 & -> & Hh & Hv5 & Ht5 & _) end.
    cbn in *. exists (Halt h), s5. split; [done|]. split; [destruct Hs2; congruence|]. right.
    exists h. split_and!; [done..|]. right. exists (CSemop v ops). split; [|done].
    destruct Hs2; congruence.
  - erewrite run_bind by (rewrite Esem; reflexivity). cbv beta iota.
    eexists _, _. split; [reflexivity|]. cbn in *. split; [destruct Hs2; congruence|]. left.
    split; [done|]. exists (CSemop v ops). split; [destruct Hs2; congruence|done].
Qed.

Lemma groups_run semid_arg groups (s : state) :
  ∃ r s' done calls, for_each groups (perform_group semid_arg) s = (r, s') ∧
    done `prefix_of` groups ∧ s'.(trace) = s.(trace) ++ calls ∧
    Forall2 (group_call semid_arg) done calls ∧
    (r = Ok tt ∧ done = groups ∨ ∃ h, r = Halt h ∧ fatal_end h).
Proof.
  revert s. induction groups as [|g groups IH]; intros s.
  { eexists _, _, [], []. split; [reflexivity|]. rewrite app_nil_r. split_and!; auto. }
  cbn [for_each].
  destruct (perform_group_run semid_arg g s) as
    (r & s1 & H1 & _ & [(-> & c & Ht & Hc)|(h & -> & Hh & Ht)]).
  - destruct (IH s1) as (r & s2 & done & calls & H2 & [k Hk] & Ht2 & Hall & Hr).
    exists r, s2, (g :: done), (c :: calls). split; [by erewrite run_bind by exact H1|].
    split; [exists k; simpl; by f_equal|]. split; [by rewrite Ht2, Ht, <- app_assoc|].
    split; [by constructor|]. destruct Hr as [[-> ->]|Hr]; auto.
  - assert (Hend : for_each (g :: groups) (perform_group semid_arg) s = (Halt h, s1))
      by by apply run_bind_halt.
    destruct Ht as [Ht|(c & Ht & Hc)].
    + eexists _, s1, [], []. split; [exact Hend|]. rewrite app_nil_r.
      split_and!; [apply prefix_nil|done|done|]. eauto.
    + eexists _, s1, [g], [c]. split; [exact Hend|].
      split_and!; [apply prefix_cons, prefix_nil|done|by repeat constructor|]. eauto.
Qed.
End main_facts.

(** [main] always ends the process.  The calls it makes are one for each of
    the first few groups, in order: the operations the group stands for, on the
    set the first argument names.  It exits successfully only after performing
    every group. *)
Theorem svsem_op_calls {L : Libc} {W} `{!SemSys W} prog semid_arg groups
    (s : pst unit sem_call W) :
  semid_arg ≠ "--help" →
  ∃ h s' done calls, main (prog :: semid_arg :: groups) s = (Halt h, s') ∧
    done `prefix_of` groups ∧ s'.(trace) = s.(trace) ++ calls ∧
    Forall2 (group_call semid_arg) done calls ∧
    (h = HExit EXIT_SUCCESS ∧ done = groups ∨ fatal_end h).
Proof.
  intros Hhelp. unfold main. rewrite bool_decide_eq_false_2 by done. cbn [when].
  erewrite run_bind by reflexivity.
  destruct (groups_run semid_arg groups s) as
    (r & s1 & done & calls & H1 & Hp & Ht & Hall & [[-> ->]|(h & -> & Hh)]).
  - erewrite run_bind by exact H1.
    destruct (@p_exit_halts L unit sem_call W unit EXIT_SUCCESS s1) as (s2 & H2 & _ & Ht2 & _).
    exists (HExit EXIT_SUCCESS), s2, groups, calls. split_and!; [exact H2|done| |done|auto].
    congruence.
  - exists h, s1, done, calls. split_and!; auto. by apply run_bind_halt.
Qed.

(** *** A concrete system *)

(** Semaphore values; a call succeeds when no operation of the group, in order,
    would block. *)
Definition toy_step (m : gmap Z Z) (o : sembuf) : option (gmap Z Z) :=
  let v := default 0 (m !! o.(sem_num)) in
  if o.(sem_op) =? 0 then (if v =? 0 then Some m else None)
  else if v + o.(sem_op) <? 0 then None else Some (<[o.(sem_num) := v + o.(sem_op)]> m).
Fixpoint toy_steps (m : gmap Z Z) (sops : list sembuf) : option (gmap Z Z) :=
  match sops with
  | [] => Some m
  | o :: sops => toy_step m o ≫= λ m, toy_steps m sops
  end.
#[global] Instance toy_sem : SemSys (gmap Z Z) := {|
  sys_semop _ sops m := match toy_steps m sops with
                        | Some m' => (inr 0, m') | None => (inl EAGAIN, m) end;
  getpid := 77;
  currTime := "12:00:00"
|}.
#[global] Instance toy_libc : Libc := {| strerror _ := "error"; io_errno e := e |}.

Definition toy_state : pst unit sem_call (gmap Z Z) :=
  Pst (Proc 0 [] "" "" []) tt [] ∅.

Example parse_example :
  (parseOps "0+1,1-2un" toy_state).1 =
  Ok [Sembuf 0 1 0; Sembuf 1 (-2) (Z.lor SEM_UNDO IPC_NOWAIT)].
Proof. vm_compute. reflexivity. Qed.

(** The check [sem_op != 0] after [=] comes after the number has been stored in
    a [short], so multiples of 65536 pass as 0. *)
Theorem parseOps_equals_wraps :
  (parseOps "0=65536" toy_state).1 = Ok [Sembuf 0 0 0] ∧
  (parseOps "65537+65535" toy_state).1 = Ok [Sembuf 1 (-1) 0].
Proof. split; vm_compute; reflexivity. Qed.

Lemma parseOps_roundtrip_witness :
  ∃ s', parseOps (join_ops (show_op <$> [Sembuf 3 (-7) SEM_UNDO; Sembuf 1 0 IPC_NOWAIT])) toy_state =
    (Ok [Sembuf 3 (-7) SEM_UNDO; Sembuf 1 0 IPC_NOWAIT], s') ∧ same_but_proc toy_state s'.
Proof.
  apply (parseOps_roundtrip [Sembuf 3 (-7) SEM_UNDO; Sembuf 1 0 IPC_NOWAIT] toy_state).
  - repeat constructor; simpl; try lia; apply elem_of_list_In; simpl; auto.
  - done.
  - apply Nat.leb_le. reflexivity.
Defined.

Lemma svsem_op_calls_witness :
  ∃ h s' done calls, main ["svsem_op"; "9"; "0+2"; "0-1"] toy_state = (Halt h, s') ∧
    done `prefix_of` ["0+2"; "0-1"] ∧ s'.(trace) = toy_state.(trace) ++ calls ∧
    Forall2 (group_call "9") done calls ∧
    (h = HExit EXIT_SUCCESS ∧ done = ["0+2"; "0-1"] ∨ fatal_end h).
Proof. apply (svsem_op_calls "svsem_op" "9" ["0+2"; "0-1"] toy_state). discriminate. Defined.
