(* ===== verification/BinarySems.v ===== *)
(** Binary semaphores and event flags over System V semaphores.

    [svsem/binary_sems.c] and [svsem/event_flags.c], all functions.  The system
    calls are a class; its laws say what a call that succeeds or fails has done,
    as an entry in the history of effects of this process.  Other processes may
    change the semaphores at any time, so nothing is said of their values. *)
From S2P Require Import Prelude CLib ErrorFunctions Proc SemOps.
Local Open Scope Z_scope.

(** What a call may have done to a semaphore. *)
Inductive effect :=
| EOp (semid : Z) (o : sembuf)            (* the operation was performed *)
| ESet (semid semnum v : Z).              (* the value was set *)

Class SemKernel (W : Type) := {
  k_semop : Z → sembuf → W → (Z + Z) * W;          (* semop(semid, &sop, 1) *)
  k_setval : Z → Z → Z → W → (Z + Z) * W;          (* semctl(.., SETVAL, arg) *)
  k_getval : Z → Z → W → (Z + Z) * W               (* semctl(.., GETVAL, dummy) *)
}.

(** [effects] is the history; [credit] bounds the interruptions to come. *)
Class SemLaws (W : Type) `{!SemKernel W} (effects : W → list effect) (credit : W → nat) : Prop := {
  semop_ok id o w r w' : k_semop id o w = (inr r, w') →
    effects w' = effects w ++ [EOp id o] ∧ r = 0 ∧ (credit w' <= credit w)%nat;
  semop_fails id o w e w' : k_semop id o w = (inl e, w') →
    effects w' = effects w ∧ e ≠ 0 ∧ (e = EINTR → (credit w' < credit w)%nat);
  setval_ok id n v w r w' : k_setval id n v w = (inr r, w') →
    effects w' = effects w ++ [ESet id n v] ∧ r = 0;
  setval_fails id n v w e w' : k_setval id n v w = (inl e, w') →
    effects w' = effects w ∧ e ≠ 0;
  getval_keeps id n w r w' : k_getval id n w = (r, w') → effects w' = effects w;
  getval_ok id n w v w' : k_getval id n w = (inr v, w') → 0 <= v
}.

(** The two control variables. *)
Record bs_vars := BsVars { bsUseSemUndo : bool; bsRetryOnEintr : bool }.

Section binary_sems.
Context {W : Type} `{!SemKernel W}.
Local Abbreviation P := (M (pst bs_vars unit W)).

(** The result of a call as C gives it: the value, or -1 with [errno] set. *)
Definition int_call (f : W → (Z + Z) * W) : P Z :=
  r ← call tt f;
  match r with inl _ => mret (-1) | inr v => mret v end.

Definition initSemAvailable (semId semNum : Z) : P Z := int_call (k_setval semId semNum 1).
Definition initSemInUse (semId semNum : Z) : P Z := int_call (k_setval semId semNum 0).

Definition undo_flag (v : bs_vars) : Z := if v.(bsUseSemUndo) then SEM_UNDO else 0.

(** [while (semop(...) == -1) if (errno != EINTR || !bsRetryOnEintr) return -1;] *)
Definition reserveSem (fuel : nat) (semId semNum : Z) : P Z :=
  v ← get_vars;
  let sops := Sembuf (to_unsigned 16 semNum) (-1) (undo_flag v) in
  loop fuel (λ _ : unit,
    r ← int_call (k_semop semId sops);
    if r =? -1 then
      e ← get_errno;
      v ← get_vars;
      if negb (e =? EINTR) || negb v.(bsRetryOnEintr) then mret (inr (-1)) else mret (inl tt)
    else mret (inr 0)) tt.

Definition releaseSem (semId semNum : Z) : P Z :=
  v ← get_vars;
  int_call (k_semop semId (Sembuf (to_unsigned 16 semNum) 1 (undo_flag v))).

(** *** event_flags.c *)

Definition waitForEventFlag (fuel : nat) (semId semNum : Z) : P Z :=
  let sops := Sembuf (to_unsigned 16 semNum) 0 0 in
  loop fuel (λ _ : unit,
    r ← int_call (k_semop semId sops);
    if r =? -1 then
      e ← get_errno;
      if negb (e =? EINTR) then mret (inr (-1)) else mret (inl tt)
    else mret (inr 0)) tt.

Definition clearEventFlag (semId semNum : Z) : P Z := int_call (k_setval semId semNum 1).
Definition setEventFlag (semId semNum : Z) : P Z := int_call (k_setval semId semNum 0).

(** The state stored through [isSet], if the call succeeds, and the result. *)
Definition getFlagState (semId semNum : Z) : P (option bool * Z) :=
  sem_val ← int_call (k_getval semId semNum);
  if sem_val =? -1 then mret (None, -1) else mret (Some (sem_val =? 0), 0).
End binary_sems.

(** ** What the functions do *)

Section facts.
Context {W : Type} `{!SemKernel W} {effects : W → list effect} {credit : W → nat}.
Context `{!SemLaws W effects credit}.
Local Abbreviation state := (pst bs_vars unit W).

Definition eff (s : state) : list effect := effects s.(world).

(** The call was performed once, or failed without effect. *)
Definition once (ef : effect) (s : state) (r : Z) (s' : state) : Prop :=
  s'.(vars) = s.(vars) ∧
  ((r = 0 ∧ eff s' = eff s ++ [ef]) ∨ (r = -1 ∧ eff s' = eff s ∧ s'.(pr).(errno) ≠ 0)).

Lemma semop_once id o (s : state) :
  ∃ r s', int_call (k_semop id o) s = (Ok r, s') ∧ once (EOp id o) s r s' ∧
    (r = -1 → s'.(pr).(errno) = EINTR → (credit s'.(world) < credit s.(world))%nat).
Proof.
  unfold int_call, call, once, eff.
  destruct (k_semop id o (world s)) as [[e|r] w'] eqn:E.
  - pose proof (semop_fails _ _ _ _ _ E) as (He & Hne & Hc). exists (-1). eexists. split.
    { erewrite run_bind by (rewrite E; reflexivity). reflexivity. }
    cbn. split; [by split; [|right]|by intros _].
  - pose proof (semop_ok _ _ _ _ _ E) as (He & -> & Hc). exists 0. eexists. split.
    { erewrite run_bind by (rewrite E; reflexivity). reflexivity. }
    cbn. split; [by split; [|left]|done].
Qed.

(** The loop of the two functions that retry: after a failure it stops when
    [stops] of the error holds, as it does for every error but [EINTR]. *)
Lemma retry_loop id o (stops : Z → bs_vars → bool) fuel (s : state) :
  (∀ e v, e ≠ EINTR → stops e v = true) → (credit s.(world) < fuel)%nat →
  ∃ r s', loop fuel (λ _ : unit,
      r ← int_call (k_semop id o);
      if r =? -1 then
        e ← get_errno; v ← get_vars;
        if stops e v then mret (inr (-1)) else mret (inl tt)
      else mret (inr 0)) tt s = (Ok r, s') ∧
    once (EOp id o) s r s' ∧ (r = -1 → stops s'.(pr).(errno) s'.(vars) = true).
Proof.
  intros Hstop. revert s. induction fuel as [|fuel IH]; intros s Hf; [lia|]. simpl loop.
  destruct (semop_once id o s) as (r & s1 & H1 & (Hv & Hr) & Hc).
  unfold mbind at 1, M_bind at 1. erewrite run_bind by exact H1.
  destruct Hr as [[-> He]|(-> & He & Hne)]; cbn [Z.eqb Pos.eqb]; cbv beta iota.
  - eexists _, s1. split; [reflexivity|]. split; [by split; [|left]|done].
  - erewrite run_bind by reflexivity. erewrite run_bind by reflexivity. cbv beta iota.
    destruct (stops (errno (pr s1)) (vars s1)) eqn:Es.
    + eexists _, s1. split; [reflexivity|]. split; [by split; [|right]|done].
    + assert (Heintr : errno (pr s1) = EINTR).
      { destruct (decide (errno (pr s1) = EINTR)) as [|Hn]; [done|]. by rewrite Hstop in Es. }
      specialize (Hc eq_refl Heintr).
      destruct (IH s1 ltac:(lia)) as (r & s2 & H2 & [Hv2 Hr2] & Hs2).
      exists r, s2. split; [exact H2|]. split; [|done]. split; [congruence|].
      unfold eff in *. rewrite <- He. done.
Qed.

(** *** The event flag functions *)

Lemma setval_once id n v (s : state) :
  ∃ r s', int_call (k_setval id n v) s = (Ok r, s') ∧ once (ESet id n v) s r s'.
Proof.
  unfold int_call, call, once, eff.
  destruct (k_setval id n v (world s)) as [[e|r] w'] eqn:E.
  - pose proof (setval_fails _ _ _ _ _ _ E) as (He & Hne). exists (-1). eexists. split.
    { erewrite run_bind by (rewrite E; reflexivity). reflexivity. }
    cbn. by split; [|right].
  - pose proof (setval_ok _ _ _ _ _ _ E) as (He & ->). exists 0. eexists. split.
    { erewrite run_bind by (rewrite E; reflexivity). reflexivity. }
    cbn. by split; [|left].
Qed.

(** [reserveSem], with more turns than interruptions to come, returns, and
    either gives 0 and has decremented the semaphore exactly once, or gives -1,
    has done nothing, and the error is one that is not retried: another than
    [EINTR], or any when retrying is off.  [releaseSem] increments it once or
    fails without effect, and the undo flag is the one asked for. *)
Theorem reserve_release_spec fuel id n (s : state) :
  (credit s.(world) < fuel)%nat →
  let num := to_unsigned 16 n in
  let flg := if s.(vars).(bsUseSemUndo) then SEM_UNDO else 0 in
  (∃ r s', reserveSem fuel id n s = (Ok r, s') ∧ once (EOp id (Sembuf num (-1) flg)) s r s' ∧
     (r = -1 → s'.(pr).(errno) ≠ EINTR ∨ s.(vars).(bsRetryOnEintr) = false)) ∧
  (∃ r s', releaseSem id n s = (Ok r, s') ∧ once (EOp id (Sembuf num 1 flg)) s r s').
Proof.
  intros Hf. cbv zeta. split.
  - unfold reserveSem. erewrite run_bind by reflexivity. cbv zeta.
    destruct (retry_loop id (Sembuf (to_unsigned 16 n) (-1) (undo_flag (vars s)))
                (λ e v, negb (e =? EINTR) || negb (bsRetryOnEintr v)) fuel s) as (r & s' & H & Ho & Hr).
    { intros e v Hne. by rewrite (proj2 (Z.eqb_neq e EINTR)). }
    { done. }
    exists r, s'. split; [exact H|]. split; [done|]. intros Hm. specialize (Hr Hm).
    destruct Ho as [Hv _]. rewrite Hv in Hr. apply orb_true_iff in Hr as [Hr|Hr].
    + left. apply negb_true_iff, Z.eqb_neq in Hr. done.
    + right. by apply negb_true_iff in Hr.
  - unfold releaseSem. erewrite run_bind by reflexivity.
    destruct (semop_once id (Sembuf (to_unsigned 16 n) 1 (undo_flag (vars s))) s)
      as (r & s' & H & Ho & _). eauto.
Qed.

(** [waitForEventFlag] returns 0 only after the semaphore was seen to be
    0, retrying whenever it is interrupted; setting and clearing the flag store
    0 and 1, as do the initialisers of a binary semaphore the other way round. *)
Theorem event_flag_spec fuel id n (s : state) :
  (credit s.(world) < fuel)%nat →
  (∃ r s', waitForEventFlag fuel id n s = (Ok r, s') ∧
     once (EOp id (Sembuf (to_unsigned 16 n) 0 0)) s r s' ∧ (r = -1 → s'.(pr).(errno) ≠ EINTR)) ∧
  (∃ r s', setEventFlag id n s = (Ok r, s') ∧ once (ESet id n 0) s r s') ∧
  (∃ r s', clearEventFlag id n s = (Ok r, s') ∧ once (ESet id n 1) s r s') ∧
  (∃ r s', initSemAvailable id n s = (Ok r, s') ∧ once (ESet id n 1) s r s') ∧
  (∃ r s', initSemInUse id n s = (Ok r, s') ∧ once (ESet id n 0) s r s').
Proof.
  intros Hf. split_and!; try apply setval_once.
  destruct (retry_loop id (Sembuf (to_unsigned 16 n) 0 0) (λ e _, negb (e =? EINTR)) fuel s)
    as (r & s' & H & Ho & Hr); [|done|].
  { intros e v Hne. by rewrite (proj2 (Z.eqb_neq e EINTR)). }
  exists r, s'. split; [exact H|]. split; [done|]. intros Hm.
  specialize (Hr Hm). by apply negb_true_iff, Z.eqb_neq in Hr.
Qed.
End facts.

(** *** A concrete kernel

    Interruptions to come, the values of the semaphores of one set, and the
    history. *)
Record toy := Toy { intr : nat; values : Z → Z; log : list effect }.
#[global] Instance toy_kernel : SemKernel toy := {|
  k_semop id o w :=
    match w.(intr) with
    | S k => (inl EINTR, Toy k w.(values) w.(log))
    | O =>
        let v := w.(values) o.(sem_num) in
        if (o.(sem_op) =? 0) && (v =? 0) || negb (o.(sem_op) =? 0) && (0 <=? v + o.(sem_op))
        then (inr 0, Toy 0 (λ n, if n =? o.(sem_num) then v + o.(sem_op) else w.(values) n)
                       (w.(log) ++ [EOp id o]))
        else (inl EAGAIN, w)
    end;
  k_setval id n v w :=
    (inr 0, Toy w.(intr) (λ m, if m =? n then v else w.(values) m) (w.(log) ++ [ESet id n v]));
  k_getval id n w := (inr (Z.max 0 (w.(values) n)), w)
|}.
#[global] Instance toy_laws : SemLaws toy log intr.
Proof.
  split; simpl; intros.
  - destruct (intr w) eqn:E; [|done]. destruct (_ || _); simplify_eq/=. split_and!; [done..|lia].
  - destruct (intr w) eqn:E.
    + destruct (_ || _); simplify_eq/=. by split_and!.
    + simplify_eq/=. split_and!; [done..|lia].
  - by simplify_eq/=.
  - done.
  - by simplify_eq/=.
  - simplify_eq/=. lia.
Qed.

Definition toy_start : pst bs_vars unit toy :=
  Pst (Proc 0 [] "" "" []) (BsVars true true) [] (Toy 3 (λ _, 1) []).

Lemma reserve_release_spec_witness :
  (intr toy_start.(world) < 10)%nat ∧
  ∃ r s', reserveSem 10 7 0 toy_start = (Ok r, s') ∧
    once (effects := log) (EOp 7 (Sembuf 0 (-1) SEM_UNDO)) toy_start r s'.
Proof.
  split; [simpl; lia|].
  destruct (reserve_release_spec 10 7 0 toy_start) as [(r & s' & H1 & H2 & _) _]; [simpl; lia|].
  exists r, s'. split; [exact H1|exact H2].
Defined.

Lemma event_flag_spec_witness :
  (intr toy_start.(world) < 10)%nat ∧
  ∃ r s', setEventFlag 7 2 toy_start = (Ok r, s') ∧ once (effects := log) (ESet 7 2 0) toy_start r s'.
Proof.
  split; [simpl; lia|].
  destruct (event_flag_spec 10 7 2 toy_start) as (_ & H & _); [simpl; lia|]. exact H.
Defined.
