(* ===== verification/Conc.v ===== *)
(** Programs of several threads or processes, and their interleavings.

    The control flow of a thread is a [code] tree: the atomic actions it makes
    on the shared world, the point where it ends, and jumps to labels.  The
    labels of a program are the heads of its loops and its start routines with
    the values of the variables that are live there, so a loop without a bound
    needs no fuel.  A [config] is a pool of such threads over one world;
    [sched_step i] lets thread [i] do its next action, and a blocked action is
    no step.  The last part has the two rules the programs are proved with:
    invariants by induction on runs, and inevitability of a final state from
    progress and a measure, whatever the scheduler does. *)
From stdpp Require Import relations.
From S2P Require Import Prelude CLib.
Local Open Scope Z_scope.

(** How a process ends: [exit(status)], one of the fatal reports with the error
    number and message it names, a signal it does not handle, or undefined
    behaviour. *)
Inductive fate :=
| Exited (status : Z) | Failed (err : Z) (msg : string) | Killed (sig : Z) | Undefined.

#[global] Instance fate_eq_dec : EqDecision fate.
Proof. solve_decision. Defined.

Inductive code (E L A : Type) : Type :=
| Ret (a : A)                        (* the thread returns *)
| End (h : fate)                   (* the process ends *)
| Goto (l : L)                       (* next iteration of a loop *)
| Act (e : E) (k : Z → code E L A).  (* an action and what follows its result *)
Arguments Ret {E L A}.
Arguments End {E L A}.
Arguments Goto {E L A}.
Arguments Act {E L A}.

#[global] Instance code_ret {E L} : MRet (code E L) := λ A a, Ret a.

Fixpoint code_seq {E L A B} (m : code E L A) (f : A → code E L B) : code E L B :=
  match m with
  | Ret a => f a
  | End h => End h
  | Goto l => Goto l
  | Act e k => Act e (λ z, code_seq (k z) f)
  end.

#[global] Instance code_bind {E L} : MBind (code E L) := λ A B f m, code_seq m f.

(** A single action with its result. *)
Definition act {E L} (e : E) : code E L Z := Act e Ret.
(** [s = f(...); if (s != 0) nmsysErr(s, msg);] *)
Definition check_status {E L} (s : Z) (msg : string) : code E L unit :=
  if s =? 0 then Ret tt else End (Failed s msg).

(** What an action does in a world: it gives a value, starts a thread at a label
    (the value is the new thread's number), or cannot happen yet. *)
Inductive outcome (L W : Type) :=
| Val (z : Z) (w : W)
| Spawn (l : L) (w : W)
| Blocked.
Arguments Val {L W}.
Arguments Spawn {L W}.
Arguments Blocked {L W}.

(** The meaning of a program's actions and labels.  An action sees its thread's
    number and which threads have returned. *)
Class Sys (E L W : Type) := {
  perform : nat → list bool → E → W → outcome L W;
  body : L → code E L unit;
  one_process : bool    (* an end of one member ends all *)
}.

Definition returned {E L A} (c : code E L A) : bool :=
  match c with Ret _ => true | _ => false end.

Record config (E L W : Type) := Config {
  pool : list (code E L unit);
  wld : W;
  ended : option fate
}.
Arguments Config {E L W}.
Arguments pool {E L W}.
Arguments wld {E L W}.
Arguments ended {E L W}.

Section semantics.
Context {E L W : Type} {Sy : Sys E L W}.

Definition sched_step (i : nat) (c : config E L W) : option (config E L W) :=
  match c.(ended), c.(pool) !! i with
  | Some _, _ | _, None | _, Some (Ret _) => None
  | None, Some (End h) =>
      if one_process then Some (Config c.(pool) c.(wld) (Some h)) else None
  | None, Some (Goto l) => Some (Config (<[i := body l]> c.(pool)) c.(wld) None)
  | None, Some (Act e k) =>
      match perform i (returned <$> c.(pool)) e c.(wld) with
      | Val z w => Some (Config (<[i := k z]> c.(pool)) w None)
      | Spawn l w =>
          Some (Config (<[i := k (Z.of_nat (length c.(pool)))]> c.(pool) ++ [Goto l]) w None)
      | Blocked => None
      end
  end.

Definition step (c c' : config E L W) : Prop := ∃ i, sched_step i c = Some c'.

(** Runs the threads in the given order; [None] when a scheduled one cannot move. *)
Fixpoint run_schedule (l : list nat) (c : config E L W) : option (config E L W) :=
  match l with
  | [] => Some c
  | i :: l => sched_step i c ≫= run_schedule l
  end.

Definition reachable : relation (config E L W) := rtc step.

Lemma run_schedule_reachable l c c' : run_schedule l c = Some c' → reachable c c'.
Proof.
  revert c. induction l as [|i l IH]; simpl; intros c; [intros [= ->]; constructor|].
  destruct (sched_step i c) as [c1|] eqn:H1; [|done]. simpl. intros H.
  eapply rtc_l; [by exists i|by apply IH].
Qed.

Lemma run_schedule_app l1 l2 c :
  run_schedule (l1 ++ l2) c = run_schedule l1 c ≫= run_schedule l2.
Proof.
  revert c. induction l1 as [|i l1 IH]; intros c; [done|].
  simpl. destruct (sched_step i c); [apply IH|done].
Qed.

Lemma run_schedule_reachable_iff c c' :
  reachable c c' ↔ ∃ l, run_schedule l c = Some c'.
Proof.
  split; [|intros [l H]; by eapply run_schedule_reachable].
  induction 1 as [c|c c1 c2 [i Hi] _ [l Hl]]; [by exists []|].
  exists (i :: l). simpl. by rewrite Hi.
Qed.

(** What can be seen of the state a schedule leads to. *)
Lemma run_schedule_view {A} (f : config E L W → A) l c a :
  f <$> run_schedule l c = Some a → ∃ c', reachable c c' ∧ f c' = a.
Proof.
  destruct (run_schedule l c) as [c'|] eqn:H; [|done]. intros [= <-]. exists c'.
  split; [by eapply run_schedule_reachable|done].
Qed.

(** ** Invariants *)

Lemma invariant_reachable (I : config E L W → Prop) c c' :
  (∀ i a b, I a → sched_step i a = Some b → I b) → I c → reachable c c' → I c'.
Proof. intros Hs Hc. induction 1 as [|c c1 c2 [i Hi] _ IH]; eauto. Qed.

(** ** Inevitability *)

(** Every run from the state, however scheduled, comes to a state where [P]
    holds, and does not stop before. *)
Inductive inevitably (P : config E L W → Prop) : config E L W → Prop :=
| inev_now c : P c → inevitably P c
| inev_later c : (∃ c', step c c') → (∀ c', step c c' → inevitably P c') → inevitably P c.

Lemma inevitably_weaken (P Q : config E L W → Prop) c :
  (∀ c, P c → Q c) → inevitably P c → inevitably Q c.
Proof. intros H. induction 1; [by apply inev_now; auto|by apply inev_later]. Qed.

(** [R k c]: the state satisfies the invariant, and [k] bounds the steps left.
    Every step lowers the bound, and a state without steps is final. *)
Lemma inevitably_measure (R : nat → config E L W → Prop) (P : config E L W → Prop) k c :
  (∀ k i a b, R k a → sched_step i a = Some b → ∃ k', (k' < k)%nat ∧ R k' b) →
  (∀ k a, R k a → P a ∨ ∃ b, step a b) →
  R k c → inevitably P c.
Proof.
  intros Hs Hp. revert c. induction k as [k IH] using lt_wf_ind; intros c Hc.
  destruct (Hp k c Hc) as [|Hstep]; [by apply inev_now|].
  apply inev_later; [done|]. intros b [i Hi].
  destruct (Hs k i c b Hc Hi) as (k' & Hlt & Hb). by eapply IH.
Qed.

(** The same where the invariant is not needed any more once [P] holds. *)
Lemma inevitably_rank (R : nat → config E L W → Prop) (P : config E L W → Prop) k c :
  (∀ k i a b, R k a → sched_step i a = Some b → P b ∨ ∃ k', (k' < k)%nat ∧ R k' b) →
  (∀ k a, R k a → P a ∨ ∃ b, step a b) →
  R k c → inevitably P c.
Proof.
  intros Hs Hp. revert c. induction k as [k IH] using lt_wf_ind; intros c Hc.
  destruct (Hp k c Hc) as [|Hstep]; [by apply inev_now|].
  apply inev_later; [done|]. intros b [i Hi].
  destruct (Hs k i c b Hc Hi) as [Hb|(k' & Hlt & Hb)]; [by apply inev_now|by eapply IH].
Qed.

(** Under the same conditions a run has at most [k] steps. *)
Lemma bounded_runs (R : nat → config E L W → Prop) k c l c' :
  (∀ k i a b, R k a → sched_step i a = Some b → ∃ k', (k' < k)%nat ∧ R k' b) →
  R k c → run_schedule l c = Some c' → (length l <= k)%nat.
Proof.
  intros Hs. revert k c. induction l as [|i l IH]; simpl; intros k c Hc; [lia|].
  destruct (sched_step i c) as [c1|] eqn:H1; [|done]. simpl. intros H.
  destruct (Hs k i c c1 Hc H1) as (k' & Hlt & Hb). specialize (IH k' c1 Hb H). lia.
Qed.

(** ** Steps of a known pool *)

Lemma sched_step_inv i c c' :
  sched_step i c = Some c' → ∃ p, c.(pool) !! i = Some p ∧ c.(ended) = None.
Proof.
  unfold sched_step. destruct (ended c); [done|].
  destruct (pool c !! i) as [p|]; [by exists p|done].
Qed.

Lemma step_goto p w i l :
  p !! i = Some (Goto l) → step (Config p w None) (Config (<[i := body l]> p) w None).
Proof. intros Hp. exists i. unfold sched_step. cbn [ended pool wld]. by rewrite Hp. Qed.

Lemma step_val p w i e k z w' :
  p !! i = Some (Act e k) → perform i (returned <$> p) e w = Val z w' →
  step (Config p w None) (Config (<[i := k z]> p) w' None).
Proof. intros Hp Ha. exists i. unfold sched_step. cbn [ended pool wld]. by rewrite Hp, Ha. Qed.

(** A thread at an action moves unless the action blocks. *)
Lemma act_or_blocked p w i e k :
  p !! i = Some (Act e k) →
  (∃ c', step (Config p w None) c') ∨ perform i (returned <$> p) e w = Blocked.
Proof.
  intros Hp. destruct (perform i (returned <$> p) e w) as [z w'|l w'|] eqn:Ea; [left..|by right];
    (eexists; exists i; unfold sched_step; cbn [ended pool wld]; rewrite Hp, Ea; reflexivity).
Qed.

(** ** Processes of a fixed pool *)

(** What one process does when it is scheduled. *)
Definition moves (c : code E L unit) (w : W) (c2 : code E L unit) (w2 : W) : Prop :=
  (∃ l, c = Goto l ∧ c2 = body l ∧ w2 = w) ∨
  ∃ i r e k z, c = Act e k ∧ c2 = k z ∧ perform i r e w = Val z w2.

(** Where processes end alone and no action starts one, a step is a move of one
    process. *)
Lemma sched_moves i p w c' :
  one_process = false → (∀ i r e w l w', perform i r e w ≠ Spawn l w') →
  sched_step i (Config p w None) = Some c' →
  ∃ c c2 w2, p !! i = Some c ∧ c' = Config (<[i := c2]> p) w2 None ∧ moves c w c2 w2.
Proof.
  intros Hop Hsp. unfold sched_step. cbn [ended pool wld]. destruct (p !! i) as [c|] eqn:Hi; [|done].
  destruct c as [|h|l|e k]; [done|by rewrite Hop|..].
  - intros [= <-]. exists (Goto l), (body l), w. split_and!; [done|done|]. left. by exists l.
  - destruct (perform i _ e w) as [z w2|l w2|] eqn:Hp; [|by destruct (Hsp _ _ _ _ _ _ Hp)|done].
    intros [= <-]. exists (Act e k), (k z), w2. split_and!; [done|done|]. right. by do 5 eexists.
Qed.
End semantics.

(** A property of every process, after one of them moved. *)
Lemma Forall2_update {A B} (P P' : A → B → Prop) l k i x y :
  Forall2 P l k → l !! i = Some x → P' x y →
  (∀ j x' y', j ≠ i → l !! j = Some x' → P x' y' → P' x' y') → Forall2 P' l (<[i := y]> k).
Proof.
  intros Hlk Hi Hxy Hother. apply Forall2_same_length_lookup. rewrite length_insert.
  split; [by eapply Forall2_length|]. intros j x' y' Hx' Hy'.
  apply list_lookup_insert_Some in Hy' as [(<- & <- & _)|[Hne Hy']]; [by simplify_eq|].
  eapply Hother; [done|done|]. exact (Forall2_lookup_lr _ _ _ _ _ _ Hlk Hx' Hy').
Qed.

(** ** Single processes over their history

    [respects G F J h c Q]: a process that has made the actions [h] with their
    results and goes on with [c] makes an action [e] only where [G] allows it,
    ends only where [F] allows it, jumps only where [J] allows it, and returns
    only where [Q] does, whatever results its actions have. *)
Section respects.
Context {E L : Type} (G : list (E * Z) → E → Prop) (F : list (E * Z) → fate → Prop).
Context (J : list (E * Z) → L → Prop).

Fixpoint respects {A} (h : list (E * Z)) (c : code E L A) (Q : list (E * Z) → A → Prop) : Prop :=
  match c with
  | Ret a => Q h a
  | End f => F h f
  | Goto l => J h l
  | Act e k => G h e ∧ ∀ z, respects (h ++ [(e, z)]) (k z) Q
  end.

Lemma respects_impl {A} h (c : code E L A) (Q Q' : list (E * Z) → A → Prop) :
  (∀ h' a, Q h' a → Q' h' a) → respects h c Q → respects h c Q'.
Proof.
  intros HQ. revert h. induction c as [a|f|l|e k IH]; intros h; simpl; [by apply HQ|done|done|].
  intros [HG Hk]. split; [done|]. intros z. by apply IH.
Qed.

Lemma respects_bind {A B} h (c : code E L A) (f : A → code E L B) Q :
  respects h c (λ h' a, respects h' (f a) Q) → respects h (c ≫= f) Q.
Proof.
  revert h. induction c as [a|r|l|e k IH]; intros h; simpl; [done|done|done|].
  intros [HG Hk]. split; [done|]. intros z. apply IH, Hk.
Qed.

(** With only the history growing, as known of a part of a program. *)
Lemma respects_seq {A B} h (c : code E L A) (f : A → code E L B) (R : list (E * Z) → A → Prop) Q :
  respects h c R → (∀ h' a, R h' a → respects h' (f a) Q) → respects h (c ≫= f) Q.
Proof. intros Hc Hf. apply respects_bind. by eapply respects_impl; [|exact Hc]. Qed.

Lemma respects_ret {A} h (a : A) (Q : list (E * Z) → A → Prop) :
  Q h a → respects h (mret a) Q.
Proof. done. Qed.

Lemma respects_step {B} h e (f : Z → code E L B) Q :
  G h e → (∀ z, respects (h ++ [(e, z)]) (f z) Q) → respects h (act e ≫= f) Q.
Proof. by split. Qed.

Lemma respects_act h e Q : G h e → (∀ z, Q (h ++ [(e, z)]) z) → respects h (act e) Q.
Proof. by split. Qed.
End respects.

(** For code without jumps. *)
Definition no_jump {E L} (_ : list (E * Z)) (_ : L) : Prop := False.

(** The next parts of a process without jumps are smaller, so it cannot go on
    for ever. *)
Inductive part {E L A} : relation (code E L A) :=
| part_act e k z : part (k z) (Act e k).

Lemma part_wf {E L A} : well_founded (@part E L A).
Proof.
  intros c. induction c as [a|f|l|e k IH]; constructor; intros c' Hc'; inversion Hc'; subst.
  apply IH.
Qed.

(** ** Sums over the processes *)

Fixpoint total {A} (f : A → Z) (l : list A) : Z :=
  match l with
  | [] => 0
  | x :: l => f x + total f l
  end.

Lemma total_app {A} (f : A → Z) l l' : total f (l ++ l') = total f l + total f l'.
Proof. induction l; simpl; lia. Qed.

Lemma total_insert {A} (f : A → Z) l i x y :
  l !! i = Some x → total f (<[i := y]> l) = total f l - f x + f y.
Proof.
  intros Hi. rewrite insert_take_drop by by eapply lookup_lt_Some.
  rewrite <- (take_drop_middle l i x Hi) at 3. rewrite !total_app. simpl. lia.
Qed.

Lemma total_nonneg {A} (f : A → Z) l : (∀ i x, l !! i = Some x → 0 <= f x) → 0 <= total f l.
Proof.
  induction l as [|x l IH]; intros H; simpl; [lia|].
  pose proof (H 0%nat x eq_refl). specialize (IH (λ i, H (S i))). lia.
Qed.

Lemma total_mono {A} (f g : A → Z) l :
  (∀ i x, l !! i = Some x → f x <= g x) → total f l <= total g l.
Proof.
  induction l as [|x l IH]; intros H; simpl; [lia|].
  pose proof (H 0%nat x eq_refl). specialize (IH (λ i, H (S i))). lia.
Qed.

(** A member below its bound leaves room in the sum. *)
Lemma total_room {A} (f g : A → Z) l i x :
  l !! i = Some x → (∀ i x, l !! i = Some x → f x <= g x) → total f l <= total g l - g x + f x.
Proof.
  revert i. induction l as [|a l IH]; intros i Hi H; [done|].
  pose proof (H 0%nat a eq_refl). destruct i as [|i]; simplify_eq/=.
  - pose proof (total_mono f g l (λ i, H (S i))). lia.
  - specialize (IH i Hi (λ i, H (S i))). lia.
Qed.

Lemma total_fmap {A B} (f : B → Z) (h : A → B) l : total f (h <$> l) = total (f ∘ h) l.
Proof. induction l as [|a l IH]; [done|]. simpl. by rewrite <- IH. Qed.

(** ** One lock

    Who is inside, of processes that hold the lock just while they are. *)

Definition mutex_ok (o : option nat) (inside : list bool) : Prop :=
  (∀ i b, inside !! i = Some b → b = bool_decide (o = Some i)) ∧
  ∀ i, o = Some i → (i < length inside)%nat.

Lemma mutex_holder o bs i :
  mutex_ok o bs → bs !! i = Some true →
  o = Some i ∧ ∀ j b, j ≠ i → bs !! j = Some b → b = false.
Proof.
  intros [H _] Hi. pose proof (H i true Hi) as Ho. symmetry in Ho.
  apply bool_decide_eq_true in Ho as ->. split; [done|]. intros j b Hj Hb.
  rewrite (H j b Hb). apply bool_decide_eq_false. congruence.
Qed.

(** The lock is taken on the way in and given back on the way out. *)
Lemma mutex_move o o' bs (i : nat) (b b' : bool) :
  mutex_ok o bs → bs !! i = Some b →
  o' = (if b' then Some i else if b then None else o) →
  (b' = true → b = false → o = None) → mutex_ok o' (<[i := b']> bs).
Proof.
  intros [H Hl] Hi -> Hfree. pose proof (H i b Hi) as Hb.
  assert (Hlt : (i < length bs)%nat) by by eapply lookup_lt_Some.
  split; [|intros j; rewrite length_insert; destruct b'; [by intros [= <-]|destruct b; [done|apply Hl]]].
  intros j c Hj. apply list_lookup_insert_Some in Hj as [(<- & <- & _)|[Hne Hj]].
  - destruct b'; [by rewrite bool_decide_eq_true_2|]. symmetry. apply bool_decide_eq_false.
    destruct b; [done|]. symmetry in Hb. by apply bool_decide_eq_false in Hb.
  - rewrite (H j c Hj). apply bool_decide_ext. destruct b', b; split; intros E; try congruence.
    + symmetry in Hb. apply bool_decide_eq_true in Hb. congruence.
    + by rewrite Hfree in E.
    + symmetry in Hb. apply bool_decide_eq_true in Hb. congruence.
Qed.

Lemma mutex_spawn o bs : mutex_ok o bs → mutex_ok o (bs ++ [false]).
Proof.
  intros [H Hl]. split.
  - intros i b [Hi|[Hge Hi]]%lookup_app_Some; [by apply H|].
    destruct (i - length bs)%nat; simplify_eq/=. symmetry. apply bool_decide_eq_false.
    intros ->. specialize (Hl i eq_refl). lia.
  - intros i ->. rewrite length_app. specialize (Hl i eq_refl). lia.
Qed.

(** A member with something left, where the sum is positive. *)
Lemma total_pos {A} (f : A → Z) l : 0 < total f l → ∃ i x, l !! i = Some x ∧ 0 < f x.
Proof.
  induction l as [|x l IH]; simpl; [lia|]. intros H. destruct (decide (0 < f x)) as [Hx|Hx].
  - by exists 0%nat, x.
  - destruct IH as (i & z & Hi & Hz); [lia|]. by exists (S i), z.
Qed.

(** ** Processes whose calls are recorded

    Where the world records each process's actions with their results, and every
    label's code [respects] what [J] says of the history there, each process does
    so at every point of every run; and a property of the world is kept that the
    actions [G] allows keep. *)
Section recorded.
Context {E L W : Type} {Sy : Sys E L W} (hist : W → nat → list (E * Z)).
Context (G : nat → list (E * Z) → E → Prop) (F : nat → list (E * Z) → fate → Prop).
Context (J : nat → list (E * Z) → L → Prop) (R : nat → list (E * Z) → Prop) (K : W → Prop).
Hypothesis records : ∀ i r e w z w', perform i r e w = Val z w' →
  hist w' i = hist w i ++ [(e, z)] ∧ ∀ j, j ≠ i → hist w' j = hist w j.
Hypothesis spawns : ∀ i r e w l w', (i < length r)%nat → perform i r e w = Spawn l w' →
  G i (hist w i) e → K w →
  hist w' i = hist w i ++ [(e, Z.of_nat (length r))] ∧ (∀ j, j ≠ i → hist w' j = hist w j) ∧
  J (length r) [] l.
Hypothesis unfolds : ∀ i h l, J i h l → respects (G i) (F i) (J i) h (body l) (λ h _, R i h).
Hypothesis world_kept : ∀ i r e w o, (i < length r)%nat → G i (hist w i) e → K w → perform i r e w = o →
  match o with Val _ w' | Spawn _ w' => K w' | Blocked => True end.

Definition abides (c : config E L W) : Prop :=
  K c.(wld) ∧ (∀ i, (length c.(pool) <= i)%nat → hist c.(wld) i = []) ∧
  ∀ i p, c.(pool) !! i = Some p → respects (G i) (F i) (J i) (hist c.(wld) i) p (λ h _, R i h).

Lemma abides_step i a b : abides a → sched_step i a = Some b → abides b.
Proof.
  destruct a as [p w o]. intros (HK & Hnew & Hp). unfold sched_step. cbn [ended wld pool] in *.
  destruct o; [done|]. destruct (p !! i) as [c|] eqn:Hi; [|done].
  pose proof (Hp i c Hi) as Hc. assert (Hlt : (i < length p)%nat) by by eapply lookup_lt_Some.
  destruct c as [x|f|l|e k]; [done| | |].
  - destruct one_process; [|done]. by intros [= <-].
  - intros [= <-]. split; [done|]. cbn [pool wld]. rewrite length_insert. split; [done|]. intros j c Hj.
    apply list_lookup_insert_Some in Hj as [(<- & <- & _)|[_ Hj]]; [by apply unfolds|by apply Hp].
  - destruct Hc as [HG Hk]. assert (Hr : (i < length (returned <$> p))%nat) by by rewrite length_fmap.
    pose proof (world_kept i (returned <$> p) e w _ Hr HG HK eq_refl) as HK'.
    destruct (perform i (returned <$> p) e w) as [z w2|l w2|] eqn:He; [| |done]; intros [= <-].
    + clear Hr. destruct (records _ _ _ _ _ _ He) as [Hr Hrs]. split; [done|]. cbn [pool wld]. rewrite length_insert.
      split; [intros j Hj; rewrite Hrs by lia; by apply Hnew|]. intros j c Hj.
      apply list_lookup_insert_Some in Hj as [(<- & <- & _)|[Hne Hj]]; [by rewrite Hr|].
      rewrite Hrs by done. by apply Hp.
    + pose proof (spawns _ _ _ _ _ _ Hr He HG HK) as HS. clear Hr. destruct HS as (Hr & Hrs & HJ). rewrite length_fmap in Hr, HJ.
      split; [done|]. cbn [pool wld]. rewrite length_app, length_insert.
      split; [intros j Hj; simpl in Hj; rewrite Hrs by lia; apply Hnew; lia|]. intros j c Hj.
      apply lookup_app_Some in Hj as [Hj|[Hge Hj]].
      * apply list_lookup_insert_Some in Hj as [(<- & <- & _)|[Hne Hj]]; [by rewrite Hr|].
        rewrite Hrs by done. by apply Hp.
      * rewrite length_insert in Hge, Hj. destruct (j - length p)%nat eqn:Hd; [|done]. injection Hj as <-.
        assert (j = length p) as -> by lia. rewrite Hrs by lia. rewrite Hnew by lia. exact HJ.
Qed.

Lemma abides_reachable c c' : abides c → reachable c c' → abides c'.
Proof. apply invariant_reachable. apply abides_step. Qed.

(** The start: every process at a label, with nothing done. *)
Lemma abides_start ls w :
  K w → (∀ i, hist w i = []) → (∀ i l, ls !! i = Some l → J i [] l) →
  abides (Config (Goto <$> ls) w None).
Proof.
  intros HK Hw HJ. split; [done|]. split; [intros i _; apply Hw|]. intros i p. cbn [pool wld].
  rewrite list_lookup_fmap. destruct (ls !! i) as [l|] eqn:Hl; [|done]. intros [= <-]. rewrite Hw.
  by apply HJ.
Qed.
End recorded.

(** What one process did, of a history of all. *)
Definition own {X} (i : nat) (H : list (nat * X)) : list X := snd <$> filter (λ x, x.1 = i) H.

Lemma own_snoc {X} i j (x : X) H : own i (H ++ [(j, x)]) = own i H ++ (if decide (j = i) then [x] else []).
Proof.
  unfold own. rewrite filter_app, fmap_app. f_equal. rewrite filter_cons. simpl.
  by destruct (decide (j = i)).
Qed.

(** ** Programs that come to an end

    [within c n]: [c] makes at most [n] steps, where a label has a bound of its
    own, and an action that starts a thread accounts for its steps ([cost]). *)
Section bounded.
Context {E L W : Type} {Sy : Sys E L W} (rank : L → nat) (cost : E → nat).

Fixpoint within {A} (c : code E L A) (n : nat) : Prop :=
  match c with
  | Ret _ | End _ => True
  | Goto l => (rank l < n)%nat
  | Act e k => match Nat.sub n (cost e) with O => False | S n => ∀ z, within (k z) n end
  end.

Hypothesis pays : ∀ i r e w l w', perform i r e w = Spawn l w' → (rank l < cost e)%nat.
Hypothesis ranked : ∀ l, within (body l) (rank l).

Definition has_ended (c : code E L unit) : bool :=
  match c with Ret _ | End _ => true | _ => false end.

Definition bounded_by (n : nat) (c : config E L W) : Prop :=
  ∃ ks : list nat, Forall2 (λ k p, within p k) ks c.(pool) ∧ n = sum_list ks.

Lemma sum_list_insert ks (i k k' : nat) :
  ks !! i = Some k → (k' <= k)%nat → (sum_list (<[i := k']> ks) + (k - k') = sum_list ks)%nat.
Proof.
  revert i. induction ks as [|x ks IH]; intros [|i] Hi Hlt; simplify_eq/=; [lia|].
  specialize (IH i Hi Hlt). lia.
Qed.

Lemma bounded_step n i a b :
  bounded_by n a → sched_step i a = Some b →
  (∃ f, b.(ended) = Some f) ∨ ∃ n', (n' < n)%nat ∧ bounded_by n' b.
Proof.
  destruct a as [p w o]. intros (ks & Hk & ->). unfold sched_step. cbn [ended wld pool] in *.
  destruct o; [done|]. destruct (p !! i) as [c|] eqn:Hi; [|done].
  destruct (Forall2_lookup_r _ _ _ _ _ Hk Hi) as (k & Hki & Hc).
  assert (Hgo : ∀ k' c' w', (k' < k)%nat → within c' k' →
    ∃ n', (n' < sum_list ks)%nat ∧ bounded_by n' (Config (<[i := c']> p) w' None)).
  { intros k' c' w' Hlt Hc'. exists (sum_list (<[i := k']> ks)).
    pose proof (sum_list_insert ks i k k' Hki). split; [lia|]. eexists. split; [|done].
    cbn [pool]. by apply Forall2_insert. }
  destruct c as [x|f|l|e kk]; [done|destruct one_process; [intros [= <-]; left; by eexists|done]|intros H; right..].
  - injection H as <-. by apply Hgo with (rank l); [|apply ranked].
  - simpl in Hc. destruct (k - cost e)%nat as [|m] eqn:Hm; [done|].
    destruct (perform i (returned <$> p) e w) as [z w'|l w'|] eqn:He; [| |done].
    + injection H as <-. apply Hgo with m; [lia|apply Hc].
    + injection H as <-. specialize (pays _ _ _ _ _ _ He).
      exists (sum_list (<[i := m]> ks ++ [S (rank l)])). pose proof (sum_list_insert ks i k m Hki).
      split; [rewrite sum_list_with_app; simpl; lia|]. eexists. split; [|done]. cbn [pool].
      apply Forall2_app; [by apply Forall2_insert|]. constructor; [simpl; lia|done].
Qed.

(** Where some thread can move until [P] holds, every run comes to a state where it
    does; and [I] holds there, if the steps keep it. *)
Lemma comes_to_end (I P : config E L W → Prop) n c :
  (∀ i a b, I a → sched_step i a = Some b → I b) →
  (∀ c, I c → P c ∨ ∃ b, step c b) → (∀ c f, I c → c.(ended) = Some f → P c) →
  I c → bounded_by n c → inevitably (λ c, P c ∧ I c) c.
Proof.
  intros HI Hp He Hc Hn. apply (inevitably_rank (λ n c, bounded_by n c ∧ I c)) with n; [| |done].
  - intros k i a b [Ha Hia] Hs. pose proof (HI i a b Hia Hs) as Hb.
    destruct (bounded_step k i a b Ha Hs) as [[f Hf]|(k' & Hlt & Hk)]; [left|right; by exists k'].
    split; [by eapply He|done].
  - intros k a [_ Hia]. destruct (Hp a Hia); [by left|by right].
Qed.

Lemma bounded_start ls w : ∃ n, bounded_by n (Config (Goto <$> ls) w None).
Proof.
  exists (sum_list ((λ l, S (rank l)) <$> ls)). eexists. split; [|done]. cbn [pool].
  induction ls as [|l ls IH]; simpl; constructor; [simpl; lia|done].
Qed.

(** Processes whose calls never block all end. *)
Lemma all_finish (I : config E L W → Prop) n c :
  one_process = false → (∀ i r e w, ∃ z w', perform i r e w = Val z w') → c.(ended) = None →
  (∀ i a b, I a → sched_step i a = Some b → I b) → I c → bounded_by n c →
  inevitably (λ c, Forall has_ended c.(pool) ∧ I c) c.
Proof.
  intros Halone Hnb Ho HI Hc Hn.
  eapply inevitably_weaken; [|apply (comes_to_end (λ c, I c ∧ c.(ended) = None)
    (λ c, Forall has_ended c.(pool))) with n; [| | |done|done]].
  - by intros d [Hd [Hi _]].
  - intros i [p w o] b [Ha Hao] Hs. split; [by eapply HI|]. cbn [ended] in Hao. subst o.
    apply sched_moves in Hs as (x & x2 & w2 & _ & -> & _); [done|done|].
    intros j r e w0 l w' Hsp. destruct (Hnb j r e w0) as (z & w2 & E'). congruence.
  - intros [p w o] [_ Hno]. cbn [ended] in Hno. subst o. cbn [pool].
    destruct (decide (Forall has_ended p)) as [|Hf]; [by left|right].
    apply not_Forall_Exists, Exists_exists in Hf as (x & [i Hi]%list_elem_of_lookup & Hx); [|apply _].
    destruct x as [y|f|l|e k]; [by destruct Hx..|eexists; by eapply step_goto|].
    destruct (Hnb i (returned <$> p) e w) as (z & w' & He). eexists. by eapply step_val.
  - intros d f [_ Hd]. congruence.
Qed.
End bounded.
