(* ===== verification/UsernsOpts.v ===== *)
(** The command line of [namespaces/userns_child_exec.c].

    [parse_command_options] with the messages it ends the process with, and the
    options it accepts, stated apart from the order in which it finds them.
    Also [printSecbits] of [cap/cap_functions.c] and the reading of the same
    letters by option [-b]. *)
From S2P Require Import Prelude CLib Getopt.
Local Open Scope Z_scope.

Definition CLONE_NEWNS : Z := 0x00020000.
Definition CLONE_NEWCGROUP : Z := 0x02000000.
Definition CLONE_NEWUTS : Z := 0x04000000.
Definition CLONE_NEWIPC : Z := 0x08000000.
Definition CLONE_NEWUSER : Z := 0x10000000.
Definition CLONE_NEWPID : Z := 0x20000000.
Definition CLONE_NEWNET : Z := 0x40000000.

Definition MAX_OPT : nat := 100.

(** [opt_cnt] is the length of [opt_list]. *)
Record cmd_options := CmdOptions {
  cmd_argv : list string;
  flags : Z;
  create_root_mappings : bool;
  deny_setgroups : bool;
  verbose : bool;
  uid_map : option string;
  gid_map : option string;
  projid_map : option string;
  opt_list : list (ascii * option string)
}.

(** The assignments the parser makes to the members. *)
Definition set_flag (f : Z) (o : cmd_options) : cmd_options :=
  CmdOptions o.(cmd_argv) (Z.lor o.(flags) f) o.(create_root_mappings) o.(deny_setgroups)
    o.(verbose) o.(uid_map) o.(gid_map) o.(projid_map) o.(opt_list).
Definition set_root (o : cmd_options) : cmd_options :=
  CmdOptions o.(cmd_argv) o.(flags) true o.(deny_setgroups)
    o.(verbose) o.(uid_map) o.(gid_map) o.(projid_map) o.(opt_list).
Definition set_no_deny (o : cmd_options) : cmd_options :=
  CmdOptions o.(cmd_argv) o.(flags) o.(create_root_mappings) false
    o.(verbose) o.(uid_map) o.(gid_map) o.(projid_map) o.(opt_list).
Definition set_verbose (o : cmd_options) : cmd_options :=
  CmdOptions o.(cmd_argv) o.(flags) o.(create_root_mappings) o.(deny_setgroups)
    true o.(uid_map) o.(gid_map) o.(projid_map) o.(opt_list).
Definition set_uid_map (m : option string) (o : cmd_options) : cmd_options :=
  CmdOptions o.(cmd_argv) o.(flags) o.(create_root_mappings) o.(deny_setgroups)
    o.(verbose) m o.(gid_map) o.(projid_map) o.(opt_list).
Definition set_gid_map (m : option string) (o : cmd_options) : cmd_options :=
  CmdOptions o.(cmd_argv) o.(flags) o.(create_root_mappings) o.(deny_setgroups)
    o.(verbose) o.(uid_map) m o.(projid_map) o.(opt_list).
Definition set_projid_map (m : option string) (o : cmd_options) : cmd_options :=
  CmdOptions o.(cmd_argv) o.(flags) o.(create_root_mappings) o.(deny_setgroups)
    o.(verbose) o.(uid_map) o.(gid_map) m o.(opt_list).
Definition add_option (c : ascii) (v : option string) (o : cmd_options) : cmd_options :=
  CmdOptions o.(cmd_argv) o.(flags) o.(create_root_mappings) o.(deny_setgroups)
    o.(verbose) o.(uid_map) o.(gid_map) o.(projid_map) (o.(opt_list) ++ [(c, v)]).
Definition set_argv (a : list string) (o : cmd_options) : cmd_options :=
  CmdOptions a o.(flags) o.(create_root_mappings) o.(deny_setgroups)
    o.(verbose) o.(uid_map) o.(gid_map) o.(projid_map) o.(opt_list).

(** *** Messages *)

(** What [referToHelp] writes before [exit(EXIT_FAILURE)]. *)
Definition referToHelp (pname : string) : string :=
  "For more information, use: " +:+ pname +:+ " -h" +:+ nl.

Definition fpe (str : string) : string := "    " +:+ str +:+ nl.
Definition lines (l : list string) : string := foldr (λ a b, fpe a +:+ b) "" l.
Definition quote (s : string) : string := String dquote (s +:+ String dquote "").

(** What [displayHelp] writes before [exit(EXIT_FAILURE)]. *)
Definition displayHelp (pname : string) : string :=
  "Usage: " +:+ pname +:+ " [options] cmd [arg...]" +:+ nl +:+ nl +:+
  "Create a child process that executes a shell command in (typically) a new user" +:+ nl +:+
  "namespace, and possibly also other new namespaces." +:+ nl +:+ nl +:+
  "Options can be:" +:+ nl +:+ nl +:+
  lines [
    "-C            New cgroup namespace";
    "-i            New IPC namespace";
    "-m            New mount namespace";
    "-n            New network namespace";
    "-p            New PID namespace";
    "-u            New UTS namespace";
    "-U            New user namespace";
    "-M uid_map    Specify UID map for user namespace";
    "-G gid_map    Specify GID map for user namespace";
    "-P projid_map Specify project ID map for user namespace";
    "-D            Do not write " +:+ quote "deny" +:+ " to /proc/PID/setgroups before";
    "              updating GID map";
    "-r            Create 'root' mappings: map user's UID and GID to 0 in user";
    "              namespace (equivalent to: -M '0 <uid> 1' -G '0 <gid> 1')";
    "-v            Display verbose messages" +:+ nl;
    "If -r, -M, -G, or -P is specified, -U is required." +:+ nl;
    "It is not permitted to specify both -r and either -M or -G.";
    "";
    "Map strings for -M -G, and -P consist of records of the form:";
    "";
    "    ID-inside-ns   ID-outside-ns   len";
    "";
    "A map string can contain multiple records, separated by commas;";
    "the commas are replaced by newlines before writing to map files."] +:+
  nl +:+ "The following additional options (primarily useful when experimenting with" +:+ nl +:+
  "user namespaces) are repeatable: they can appear multiple times and are" +:+ nl +:+
  "performed in the child in the order that they are specified, just before" +:+ nl +:+
  "'cmd' is execed:" +:+ nl +:+ nl +:+
  lines [
    "-I          Push all possible capabilities into inheritable set";
    "-A          Push all possible capabilities into inheritable and";
    "            ambient sets";
    "-s <uid>    Set all process UIDs to <uid>";
    "-S r,e,s    Set real/effective/saved-set UIDs";
    "-b <bits>   Set securebits flags; 'bits' can be '0' to clear the flags";
    "            or one or more of:";
    "                'a' - NO_CAP_AMBIENT_RAISE";
    "                'A' - NO_CAP_AMBIENT_RAISE_LOCKED";
    "                'k' - KEEP_CAPS";
    "                'K' - KEEP_CAPS_LOCKED";
    "                'r' - NOROOT";
    "                'R' - NOROOT_LOCKED";
    "                's' - NO_SETUID_FIXUP";
    "                'S' - NO_SETUID_FIXUP_LOCKED";
    "-d          Display process credentials and capabilities";
    "-w <nsecs>  Wait (sleep) for <nsecs> seconds";
    "-x <caps>   Set process capabilities; <caps> as per cap_from_text(3)";
    "-X [peiba]{+|-}<cap-name>";
    "            Modify one or more process sets by adding or removing";
    "            a capability.";
    "            Each set is modified as an individual operation";
    "            in the order specified before +/-."].

(** *** The parser *)

Definition repeatable (c : ascii) : bool :=
  bool_decide (c ∈ ["I"; "A"; "b"; "s"; "d"; "x"; "X"; "w"]%char).
(** The options whose argument is kept. *)
Definition with_value (c : ascii) : bool :=
  bool_decide (c ∈ ["s"; "S"; "x"; "X"; "w"; "b"]%char).

Definition too_many : string :=
  "Too many repeatable options (maximum: " +:+ fmt_d (Z.of_nat MAX_OPT) +:+ ")" +:+ nl.
Definition bad_option (pname : string) (opt : ascii) : string :=
  "Bad command-line option: -" +:+ String opt "" +:+ nl +:+ referToHelp pname.

(** One turn of the [getopt] loop.  [inl t]: the process writes [t] to the
    standard error and exits with [EXIT_FAILURE]. *)
Definition parse_option (pname : string) (o : cmd_options) (ev : opt_event) :
    string + cmd_options :=
  match ev with
  | Opt "C" _ => inr (set_flag CLONE_NEWCGROUP o)
  | Opt "i" _ => inr (set_flag CLONE_NEWIPC o)
  | Opt "m" _ => inr (set_flag CLONE_NEWNS o)
  | Opt "n" _ => inr (set_flag CLONE_NEWNET o)
  | Opt "p" _ => inr (set_flag CLONE_NEWPID o)
  | Opt "u" _ => inr (set_flag CLONE_NEWUTS o)
  | Opt "U" _ => inr (set_flag CLONE_NEWUSER o)
  | Opt "M" a => inr (set_uid_map a o)
  | Opt "G" a => inr (set_gid_map a o)
  | Opt "P" a => inr (set_projid_map a o)
  | Opt "r" _ => inr (set_root o)
  | Opt "D" _ => inr (set_no_deny o)
  | Opt "v" _ => inr (set_verbose o)
  | Opt "h" _ => inl (displayHelp pname)
  | Opt c a =>
      if repeatable c then
        if (MAX_OPT <=? length o.(opt_list))%nat then inl too_many
        else inr (add_option c (if with_value c then a else None) o)
      else inl (bad_option pname c)
  | _ => inl (getopt_message pname ev +:+ bad_option pname "?")
  end.

Fixpoint parse_loop (pname : string) (o : cmd_options) (evs : list opt_event) :
    string + cmd_options :=
  match evs with
  | [] => inr o
  | ev :: evs =>
      match parse_option pname o ev with
      | inl t => inl t
      | inr o => parse_loop pname o evs
      end
  end.

Definition initial_options : cmd_options :=
  CmdOptions [] 0 false true false None None None [].

Definition given {A} (m : option A) : bool := match m with Some _ => true | None => false end.

(** Does any option ask for a map? *)
Definition maps_given (o : cmd_options) : bool :=
  given o.(uid_map) || given o.(gid_map) || given o.(projid_map) || o.(create_root_mappings).

(** The checks after the loop. *)
Definition check_options (pname : string) (opts : cmd_options) (rest : list string) :
    string + cmd_options :=
  if maps_given opts && (Z.land opts.(flags) CLONE_NEWUSER =? 0)
  then inl ("-M, -G, -P, or -r specified without -U" +:+ nl +:+ referToHelp pname)
  else if opts.(create_root_mappings) && (given opts.(uid_map) || given opts.(gid_map))
  then inl ("Can't combine -r with -M or -G" +:+ nl +:+ referToHelp pname)
  else match rest with
       | [] => inl ("No command provided" +:+ nl +:+ referToHelp pname)
       | _ => inr (set_argv rest opts)
       end.

Definition parse_command_options (argv : list string) : string + cmd_options :=
  let pname := hd "" argv in
  let '(evs, rest) := getopt "+hCimnuUM:G:P:rDvpAIs:b:S:dx:X:w:" (tl argv) in
  match parse_loop pname initial_options evs with
  | inl t => inl t
  | inr opts => check_options pname opts rest
  end.

(** ** The options accepted *)

Definition accepted (ev : opt_event) : bool :=
  match ev with
  | Opt c _ => bool_decide (c ∈ ["C"; "i"; "m"; "n"; "p"; "u"; "U"; "M"; "G"; "P"; "r"; "D"; "v"]%char)
               || repeatable c
  | _ => false
  end.

(** Is option [c] among those given, its last argument, the namespaces of all the
    options, and the repeatable options in their order. *)
Definition has_opt (c : ascii) (evs : list opt_event) : bool :=
  existsb (λ ev, match ev with Opt d _ => bool_decide (d = c) | _ => false end) evs.
Definition last_arg (c : ascii) (evs : list opt_event) : option string :=
  foldl (λ m ev, match ev with Opt d a => if bool_decide (d = c) then a else m | _ => m end)
    None evs.
Definition namespace_flag (ev : opt_event) : Z :=
  match ev with
  | Opt "C" _ => CLONE_NEWCGROUP
  | Opt "i" _ => CLONE_NEWIPC
  | Opt "m" _ => CLONE_NEWNS
  | Opt "n" _ => CLONE_NEWNET
  | Opt "p" _ => CLONE_NEWPID
  | Opt "u" _ => CLONE_NEWUTS
  | Opt "U" _ => CLONE_NEWUSER
  | _ => 0
  end.
Definition namespaces (evs : list opt_event) : Z :=
  foldl (λ f ev, Z.lor f (namespace_flag ev)) 0 evs.
Definition actions_of (evs : list opt_event) : list (ascii * option string) :=
  omap (λ ev, match ev with
              | Opt c a => if repeatable c then Some (c, if with_value c then a else None) else None
              | _ => None end) evs.

Definition options_of (evs : list opt_event) (rest : list string) : cmd_options :=
  CmdOptions rest (namespaces evs) (has_opt "r" evs) (negb (has_opt "D" evs)) (has_opt "v" evs)
    (last_arg "M" evs) (last_arg "G" evs) (last_arg "P" evs) (actions_of evs).

Definition wants_map (o : cmd_options) : Prop :=
  o.(uid_map) ≠ None ∨ o.(gid_map) ≠ None ∨ o.(projid_map) ≠ None ∨
  o.(create_root_mappings) = true.

(** The conditions on the options together. *)
Definition consistent (o : cmd_options) : Prop :=
  (wants_map o → Z.land o.(flags) CLONE_NEWUSER ≠ 0) ∧
  (o.(create_root_mappings) = true → o.(uid_map) = None ∧ o.(gid_map) = None) ∧
  o.(cmd_argv) ≠ [] ∧ (length o.(opt_list) <= MAX_OPT)%nat.

(** A snoc of an event, member by member. *)
Lemma options_of_snoc evs ev :
  options_of (evs ++ [ev]) [] =
  CmdOptions [] (Z.lor (namespaces evs) (namespace_flag ev))
    (has_opt "r" evs || has_opt "r" [ev]) (negb (has_opt "D" evs || has_opt "D" [ev]))
    (has_opt "v" evs || has_opt "v" [ev])
    (match ev with Opt d a => if bool_decide (d = "M"%char) then a else last_arg "M" evs
     | _ => last_arg "M" evs end)
    (match ev with Opt d a => if bool_decide (d = "G"%char) then a else last_arg "G" evs
     | _ => last_arg "G" evs end)
    (match ev with Opt d a => if bool_decide (d = "P"%char) then a else last_arg "P" evs
     | _ => last_arg "P" evs end)
    (actions_of evs ++ actions_of [ev]).
Proof.
  unfold options_of, namespaces, has_opt, last_arg, actions_of.
  by rewrite !foldl_app, !existsb_app, omap_app.
Qed.

Lemma parse_option_run p evs ev :
  match parse_option p (options_of evs []) ev with
  | inr o => accepted ev = true ∧ o = options_of (evs ++ [ev]) [] ∧
      (actions_of [ev] = [] ∨ (length (actions_of (evs ++ [ev])) <= MAX_OPT)%nat)
  | inl _ => accepted ev = false ∨ (MAX_OPT < length (actions_of (evs ++ [ev])))%nat
  end.
Proof.
  rewrite options_of_snoc.
  assert (Happ : actions_of (evs ++ [ev]) = actions_of evs ++ actions_of [ev])
    by apply omap_app.
  rewrite Happ, length_app. destruct ev as [c a|c|c]; [|by left..].
  destruct c as [[] [] [] [] [] [] [] []]; first
    [ by left
    | split_and!; [reflexivity| |left; reflexivity];
      cbn; rewrite ?app_nil_r, ?orb_false_r, ?Z.lor_0_r, ?orb_true_r; reflexivity
    | cbn -[MAX_OPT Nat.leb]; destruct (Nat.leb_spec MAX_OPT (length (actions_of evs)));
      [right; simpl; lia|];
      split_and!; [reflexivity| |right; simpl; lia];
      cbn; rewrite ?orb_false_r, ?Z.lor_0_r; reflexivity ].
Qed.

Lemma actions_of_le evs evs' :
  (length (actions_of evs) <= length (actions_of (evs ++ evs')))%nat.
Proof. unfold actions_of. rewrite omap_app, length_app. lia. Qed.

Lemma parse_loop_run p evs evs' o :
  (length (actions_of evs) <= MAX_OPT)%nat →
  parse_loop p (options_of evs []) evs' = inr o ↔
  forallb accepted evs' = true ∧ (length (actions_of (evs ++ evs')) <= MAX_OPT)%nat ∧
  o = options_of (evs ++ evs') [].
Proof.
  revert evs. induction evs' as [|ev evs' IH]; intros evs Hlen; simpl.
  { rewrite app_nil_r. split; [by intros [= <-]|by intros (_ & _ & ->)]. }
  rewrite cons_middle, app_assoc. pose proof (parse_option_run p evs ev) as H.
  destruct (parse_option p (options_of evs []) ev) as [t|o'].
  - split; [done|]. intros (Ha & Hl & _). apply andb_true_iff in Ha as [Ha _].
    destruct H as [H|H]; [congruence|].
    pose proof (actions_of_le (evs ++ [ev]) evs'). lia.
  - destruct H as (Ha & -> & Hev). rewrite Ha. simpl. apply IH.
    destruct Hev as [Hev|Hev]; [|done].
    assert (E : actions_of (evs ++ [ev]) = actions_of evs ++ actions_of [ev]) by apply omap_app.
    by rewrite E, Hev, app_nil_r.
Qed.

Lemma maps_given_spec o : maps_given o = true ↔ wants_map o.
Proof.
  unfold maps_given, wants_map. destruct (uid_map o), (gid_map o), (projid_map o); simpl;
    intuition congruence.
Qed.

Lemma check_options_spec p o rest o' :
  check_options p o rest = inr o' ↔
  o' = set_argv rest o ∧ (wants_map o → Z.land o.(flags) CLONE_NEWUSER ≠ 0) ∧
  (o.(create_root_mappings) = true → o.(uid_map) = None ∧ o.(gid_map) = None) ∧ rest ≠ [].
Proof.
  unfold check_options. rewrite <- maps_given_spec.
  destruct (Z.eqb_spec (Z.land (flags o) CLONE_NEWUSER) 0), (maps_given o);
    simpl; (try by split; [done|intros (_ & H & _); by destruct H]);
    destruct (create_root_mappings o); simpl;
    destruct (uid_map o), (gid_map o); simpl; destruct rest; naive_solver.
Qed.

(** A command line is accepted exactly when every option before the
    command is one of those with a case in the parser, at most [MAX_OPT] of
    them are repeatable, a map is asked for only with a new user namespace, the
    root maps are not combined with others, and there is a command.  The
    options are then the union of the namespaces, the last map given of each
    kind, and the repeatable options in their order. *)
Theorem parse_command_options_spec argv o :
  parse_command_options argv = inr o ↔
  ∃ evs rest, getopt "+hCimnuUM:G:P:rDvpAIs:b:S:dx:X:w:" (tl argv) = (evs, rest) ∧
    forallb accepted evs = true ∧ o = options_of evs rest ∧ consistent o.
Proof.
  unfold parse_command_options. destruct (getopt _ _) as [evs rest].
  pose proof (λ o, parse_loop_run (hd "" argv) [] evs o ltac:(simpl; lia)) as Hrun.
  change (options_of [] []) with initial_options in Hrun. simpl app in Hrun.
  destruct (parse_loop _ _ _) as [t|o'].
  - split; [done|]. intros (? & ? & [= <- <-] & Ha & -> & _ & _ & _ & Hl).
    destruct (Hrun (options_of evs [])) as [_ Hr]. by discriminate Hr.
  - destruct (proj1 (Hrun o') eq_refl) as (Ha & Hl & ->). rewrite check_options_spec. split.
    + intros (-> & Hc). exists evs, rest. do 3 (split; [done|]). unfold consistent. naive_solver.
    + intros (? & ? & [= <- <-] & _ & -> & Hc). unfold consistent in Hc. naive_solver.
Qed.

(** Option [-S], which the option string and the help text have, has no case in
    the parser. *)
Theorem option_S_rejected :
  parse_command_options ["userns_child_exec"; "-U"; "-S"; "1,1,1"; "sh"] =
  inl ("Bad command-line option: -S" +:+ nl +:+
       "For more information, use: userns_child_exec -h" +:+ nl).
Proof. vm_compute. reflexivity. Qed.

(** ** Securebits *)

Definition SECBIT_NOROOT : Z := 1.
Definition SECBIT_NOROOT_LOCKED : Z := 2.
Definition SECBIT_NO_SETUID_FIXUP : Z := 4.
Definition SECBIT_NO_SETUID_FIXUP_LOCKED : Z := 8.
Definition SECBIT_KEEP_CAPS : Z := 16.
Definition SECBIT_KEEP_CAPS_LOCKED : Z := 32.
Definition SECBIT_NO_CAP_AMBIENT_RAISE : Z := 64.
Definition SECBIT_NO_CAP_AMBIENT_RAISE_LOCKED : Z := 128.

(** The loop of [set_securebits] over the letters; [inl c] for one it does not
    know. *)
Fixpoint secbits_of (secbits : Z) (p : string) : ascii + Z :=
  match p with
  | EmptyString => inr secbits
  | String c t =>
      match c with
      | "a" => secbits_of (Z.lor secbits SECBIT_NO_CAP_AMBIENT_RAISE) t
      | "A" => secbits_of (Z.lor secbits SECBIT_NO_CAP_AMBIENT_RAISE_LOCKED) t
      | "k" => secbits_of (Z.lor secbits SECBIT_KEEP_CAPS) t
      | "K" => secbits_of (Z.lor secbits SECBIT_KEEP_CAPS_LOCKED) t
      | "r" => secbits_of (Z.lor secbits SECBIT_NOROOT) t
      | "R" => secbits_of (Z.lor secbits SECBIT_NOROOT_LOCKED) t
      | "s" => secbits_of (Z.lor secbits SECBIT_NO_SETUID_FIXUP) t
      | "S" => secbits_of (Z.lor secbits SECBIT_NO_SETUID_FIXUP_LOCKED) t
      | "0" => secbits_of 0 t
      | _ => inl c
      end%char
  end.

Record secbitInfo := SecbitInfo { sb_flag : Z; sb_name : string; sb_letter : ascii }.
Definition secbitInfoList : list secbitInfo := [
  SecbitInfo SECBIT_NO_CAP_AMBIENT_RAISE "NO_CAP_AMBIENT_RAISE" "a";
  SecbitInfo SECBIT_NO_CAP_AMBIENT_RAISE_LOCKED "NO_CAP_AMBIENT_RAISE_LOCKED" "A";
  SecbitInfo SECBIT_KEEP_CAPS "KEEP_CAPS" "k";
  SecbitInfo SECBIT_KEEP_CAPS_LOCKED "KEEP_CAPS_LOCKED" "K";
  SecbitInfo SECBIT_NOROOT "NOROOT" "r";
  SecbitInfo SECBIT_NOROOT_LOCKED "NOROOT_LOCKED" "R";
  SecbitInfo SECBIT_NO_SETUID_FIXUP "NO_SETUID_FIXUP" "s";
  SecbitInfo SECBIT_NO_SETUID_FIXUP_LOCKED "NO_SETUID_FIXUP_LOCKED" "S"].

(** The loop of the long form, [printed] names written so far. *)
Fixpoint print_names (secbits : Z) (printed : nat) (l : list secbitInfo) : string :=
  match l with
  | [] => ""
  | p :: l =>
      if Z.land secbits p.(sb_flag) =? 0 then print_names secbits printed l
      else (if (0 <? printed)%nat then ", " else "") +:+ p.(sb_name) +:+
           print_names secbits (S printed) l
  end.

(** What [printSecbits] writes to the stream. *)
Definition printSecbits (secbits : Z) (verbose : bool) : string :=
  if verbose then "[" +:+ print_names secbits 0 secbitInfoList +:+ "]"
  else of_chars ((λ p, if Z.land secbits p.(sb_flag) =? 0 then "-"%char else p.(sb_letter))
                   <$> secbitInfoList).

Definition drop_dashes (s : string) : string :=
  of_chars (filter (λ c, c ≠ "-"%char) (chars s)).

(** Read back with option [-b], the short form gives the bits that were printed. *)
Theorem secbits_roundtrip secbits :
  0 <= secbits < 256 → secbits_of 0 (drop_dashes (printSecbits secbits false)) = inr secbits.
Proof.
  intros Hs. replace secbits with (Z.of_nat (Z.to_nat secbits)) by lia.
  assert (Hall : Forall (λ n, secbits_of 0 (drop_dashes (printSecbits (Z.of_nat n) false)) =
                              inr (Z.of_nat n)) (seq 0 256)).
  { apply (bool_decide_unpack _). vm_compute. exact I. }
  rewrite Forall_forall in Hall. apply Hall, elem_of_seq. lia.
Qed.

Lemma secbits_roundtrip_witness :
  secbits_of 0 (drop_dashes (printSecbits 0x35 false)) = inr 0x35.
Proof. apply (secbits_roundtrip 0x35). lia. Defined.
