(* ===== verification/UsernsExec.v ===== *)
(** The two processes of [namespaces/userns_child_exec.c].

    The parent creates the child in new namespaces, writes its ID maps and
    closes a pipe; the child waits for that, performs the repeatable options and
    executes the command.  Also [userns_functions.c] and [modifyCapSetting] of
    [cap/cap_functions.c], which they call.  The processes interleave at every
    call; the results of the calls are arbitrary, except that reading the pipe
    waits for the last writer and [waitpid] for the end of the child.  The command
    that the child executes is one action, [ACommand], which takes place when the command
    terminates, if it does. *)
From stdpp Require Import relations.
From S2P Require Import Prelude CLib Conc Getopt UsernsOpts.
Local Open Scope Z_scope.

Definition SIGCHLD : Z := 17.
Definition CAP_LAST_CAP : nat := 40.
Inductive cap_flag := CAP_EFFECTIVE | CAP_PERMITTED | CAP_INHERITABLE.

(** The calls.  A result below 0 is -1 with [errno] its negation; [AErrno] is
    the value of [errno], and [AReport t] writes [t] with its text after it.
    Capability states and texts are known by their addresses. *)
Inductive action :=
| AErrno | APrint (t : string) | AEprint (t : string) | AReport (t : string)
| ASetDumpable | APipe | AMmap | AMunmap | AClone (flags : Z) (arg : cmd_options) | AWaitpid
| AGeteuid | AGetegid
| AOpen (path : string) | AWrite (fd : Z) (data : string) | AClose (fd : Z)
| ACloseRd | ACloseWr | ARead
| ACapGet | ACapSetFlag (caps : Z) (flag : cap_flag) (cap : Z) (set : bool)
| ACapSetProc (caps : Z) | ACapFree (obj : Z) | ACapFromText (t : string)
| ACapToText (caps : Z) | APrintCaps (s : Z)
| AAmbient (raise : bool) (cap : Z) | ABsetDrop (cap : Z) | ASecurebits (bits : Z)
| ASetresuid (r e s : Z) | ASleep (n : Z)
| AExec (argv : list string)
| ACommand                       (* the command that was executed, up to its end *)
| AExit.                         (* the process ends: its descriptors are closed *)

Inductive label := Parent (argv : list string) | Child (opts : cmd_options).
Local Abbreviation prog := (code action label).

(** [exit], and the local macro [systmErr]. *)
Definition die {A} (f : fate) : prog A := _ ← act AExit; End f.
Definition systmErr {A} (msg : string) : prog A := e ← act AErrno; die (Failed e msg).
Definition eprint (t : string) : prog unit := _ ← act (AEprint t); mret tt.
Definition run_if (b : bool) (m : prog unit) : prog unit := if b then m else mret tt.
(** [if (call == -1) systmErr(msg);], giving the result of the call. *)
Definition try (msg : string) (a : action) : prog Z :=
  r ← act a; if r <? 0 then systmErr msg else mret r.
Fixpoint each {X} (l : list X) (f : X → prog unit) : prog unit :=
  match l with
  | [] => mret tt
  | x :: l => _ ← f x; each l f
  end.

(** *** cap/cap_functions.c *)

Definition modifyCapSetting (flag : cap_flag) (capability : Z) (setting : bool) : prog Z :=
  caps ← act ACapGet;
  if caps <? 0 then mret (-1) else
  r ← act (ACapSetFlag caps flag capability setting);
  if r <? 0 then _ ← act (ACapFree caps); mret (-1) else
  r ← act (ACapSetProc caps);
  if r <? 0 then _ ← act (ACapFree caps); mret (-1) else
  r ← act (ACapFree caps);
  if r <? 0 then mret (-1) else mret 0.

(** *** namespaces/userns_functions.c *)

Definition display_creds_and_caps (str : string) : prog unit :=
  euid ← act AGeteuid;
  egid ← act AGetegid;
  _ ← act (APrint (str +:+ "eUID = " +:+ fmt_d euid +:+ "; eGID = " +:+ fmt_d egid +:+ ";  "));
  caps ← try "cap_get_proc" ACapGet;
  s ← try "cap_to_text" (ACapToText caps);
  _ ← act (APrintCaps s);
  _ ← act (ACapFree caps);
  _ ← act (ACapFree s);
  mret tt.

Definition commas_to_newlines (s : string) : string :=
  of_chars ((λ c, if bool_decide (c = ","%char) then newline else c) <$> chars s).

Definition update_map (mapping map_file : string) : prog Z :=
  let mapping := commas_to_newlines mapping in
  let map_len := Z.of_nat (String.length mapping) in
  fd ← act (AOpen map_file);
  if fd <? 0 then
    _ ← act (AReport ("ERROR: open " +:+ map_file)); mret (-1)
  else
    n ← act (AWrite fd mapping);
    status ← (if negb (n =? map_len) then
                _ ← act (AReport ("ERROR: writing to " +:+ map_file)); mret (-1)
              else mret 0);
    _ ← act (AClose fd);
    mret status.

Definition proc_file (pid : Z) (name : string) : string := "/proc/" +:+ fmt_d pid +:+ "/" +:+ name.

Definition proc_setgroups_write (child_pid : Z) (str : string) : prog Z :=
  let setgroups_path := proc_file child_pid "setgroups" in
  fd ← act (AOpen setgroups_path);
  if fd <? 0 then
    e ← act AErrno;
    if e =? ENOENT then mret 0
    else _ ← act (AReport ("ERROR: open " +:+ setgroups_path)); mret (-1)
  else
    n ← act (AWrite fd str);
    status ← (if n <? 0 then
                _ ← act (AReport ("ERROR: writing to " +:+ setgroups_path)); mret (-1)
              else mret 0);
    _ ← act (AClose fd);
    mret status.

(** *** namespaces/userns_child_exec.c *)

Definition raiseInheritableAndAmbientCaps (doAmbient : bool) : prog unit :=
  each (seq 0 (S CAP_LAST_CAP)) (λ cap,
    _ ← modifyCapSetting CAP_INHERITABLE (Z.of_nat cap) true;
    run_if doAmbient (_ ← act (AAmbient true (Z.of_nat cap)); mret tt)).

(** The characters before the first [+] or [-], whether one of them is not a
    set letter, and the rest. *)
Fixpoint scan_sets (s : string) : string * bool * string :=
  match s with
  | EmptyString => ("", false, "")
  | String c t =>
      if bool_decide (c = "+"%char ∨ c = "-"%char) then ("", false, s)
      else
        let '(sets, bad, rest) := scan_sets t in
        (String c sets, negb (bool_decide (c ∈ chars "peiba")) || bad, rest)
  end.

Definition bad_exit {A} (msg : string) : prog A := _ ← eprint msg; die (Exited EXIT_FAILURE).

(** One letter of the loop over the sets; [plus] is [*op == '+']. *)
Definition modify_set (plus : bool) (name : string) (cap : Z) (p : ascii) : prog unit :=
  match p with
  | "p" | "i" | "e" =>
      let flag := match p with
                  | "p" => CAP_PERMITTED | "e" => CAP_EFFECTIVE | _ => CAP_INHERITABLE
                  end%char in
      r ← modifyCapSetting flag cap plus;
      if (r =? -1)%Z then
        bad_exit ("-X: modifyCapSetting() failed while " +:+
          (if plus then "raising" else "lowering") +:+ " '" +:+ name +:+ "' in '" +:+
          String p "" +:+ "'" +:+ nl)
      else mret tt
  | "b" =>
      if plus then bad_exit ("Can't add capabilities to the bounding set" +:+ nl)
      else _ ← try "-X: PR_CAPBSET_DROP" (ABsetDrop cap); mret tt
  | "a" => _ ← try "-X: PR_CAP_AMBIENT" (AAmbient plus cap); mret tt
  | _ => bad_exit ("Bad switch case ('-X'): " +:+ String p "" +:+ nl)
  end%char.

Section programs.
(** [cap_from_name] of the capability library, what [getuid] and [getgid]
    give in the parent, and the process id of the child. *)
Variable cap_from_name : string → option Z.
Variables uid gid child : Z.

Definition modify_individual_capability (optval : string) : prog unit :=
  let '(sets, bad_cap, rest) := scan_sets optval in
  match rest with
  | String op (String _ _ as name) =>
      if bad_cap then bad_exit ("Badly formed -X option" +:+ nl) else
      match cap_from_name name with
      | None => bad_exit ("-X: bad capability name" +:+ nl)
      | Some cap => each (chars sets) (modify_set (bool_decide (op = "+"%char)) name cap)
      end
  | _ => bad_exit ("Badly formed -X option" +:+ nl)
  end.

Definition set_securebits (optval : string) : prog unit :=
  match secbits_of 0 optval with
  | inl c => bad_exit ("Unexpected value for '-b' (securebits flag): " +:+ String c "" +:+ nl)
  | inr secbits => _ ← try "prctl-PR_SET_SECUREBITS" (ASecurebits secbits); mret tt
  end.

(** [atoi] to a [uid_t]. *)
Definition atouid (s : string) : Z := to_unsigned 32 (atoi s).

Definition set_process_uids (optval : string) : prog unit :=
  match strchr optval ","%char with
  | Some comma1 =>
      match strchr (advance comma1) ","%char with
      | Some comma2 =>
          _ ← try "-S failed (setresuid)"
                (ASetresuid (atouid (before optval ","%char))
                   (atouid (before (advance comma1) ","%char)) (atouid (advance comma2)));
          mret tt
      | None => bad_exit ("Expected three comma-separated UIDs: -S " +:+ optval +:+ nl)
      end
  | None => bad_exit ("Expected three comma-separated UIDs: -S " +:+ optval +:+ nl)
  end.

(** [buf] of the displays has 20 bytes. *)
Definition display_prefix (display_cnt : Z) : string :=
  snprintf 20 ("[-d " +:+ fmt_d display_cnt +:+ "] ").

(** One repeatable option; the value is that of [display_cnt].  A null [val] is
    never there for an option that uses it. *)
Definition perform_option (display_cnt : Z) (o : ascii * option string) : prog Z :=
  match o with
  | ("A"%char, _) => _ ← raiseInheritableAndAmbientCaps true; mret display_cnt
  | ("b"%char, Some val) => _ ← set_securebits val; mret display_cnt
  | ("d"%char, _) =>
      let display_cnt := display_cnt + 1 in
      _ ← display_creds_and_caps (display_prefix display_cnt); mret display_cnt
  | ("I"%char, _) => _ ← raiseInheritableAndAmbientCaps false; mret display_cnt
  | ("s"%char, Some val) =>
      let newuid := atouid val in
      _ ← try "setresuid" (ASetresuid newuid newuid newuid); mret display_cnt
  | ("S"%char, Some val) => _ ← set_process_uids val; mret display_cnt
  | ("w"%char, Some val) => _ ← act (ASleep (to_unsigned 32 (atoi val))); mret display_cnt
  | ("x"%char, Some val) =>
      caps ← try "-x: cap_from_text" (ACapFromText val);
      _ ← try "-x: cap_set_proc()" (ACapSetProc caps);
      _ ← act (ACapFree caps);
      mret display_cnt
  | ("X"%char, Some val) => _ ← modify_individual_capability val; mret display_cnt
  | ("b"%char, None) | ("s"%char, None) | ("S"%char, None) | ("w"%char, None)
  | ("x"%char, None) | ("X"%char, None) => die Undefined
  | (c, _) =>
      _ ← eprint ("Unexpected option (-" +:+ String c "" +:+ ") in perform_repeatable_options()" +:+ nl);
      mret display_cnt
  end.

Fixpoint perform_options (display_cnt : Z) (l : list (ascii * option string)) : prog unit :=
  match l with
  | [] => mret tt
  | o :: l => display_cnt ← perform_option display_cnt o; perform_options display_cnt l
  end.

Definition perform_repeatable_options (opts : cmd_options) : prog unit :=
  perform_options 0 opts.(opt_list).

Definition childFunc (opts : cmd_options) : prog unit :=
  _ ← act ACloseWr;
  r ← act ARead;
  if negb (r =? 0) then
    bad_exit ("Failure in child: read from pipe returned != 0" +:+ nl)
  else
    _ ← act ACloseRd;
    _ ← perform_repeatable_options opts;
    _ ← run_if opts.(verbose) (_ ← act (APrint ("About to exec: " +:+ hd "" opts.(cmd_argv) +:+ nl)); mret tt);
    r ← act (AExec opts.(cmd_argv));
    if r <? 0 then systmErr "execvp"
    else _ ← act ACommand; mret tt.                (* the command runs in the child *)

(** [if (update_map(map, path) == -1) systmErr(msg);] *)
Definition update_or_die (msg map name : string) : prog unit :=
  r ← update_map map (proc_file child name);
  if r =? -1 then systmErr msg else mret tt.

Definition root_map (id : Z) : string := "0 " +:+ fmt_d id +:+ " 1".

Definition update_child_maps (opts : cmd_options) : prog unit :=
  _ ← run_if (given opts.(uid_map) || opts.(create_root_mappings))
    (let map := if opts.(create_root_mappings) then root_map uid else default "" opts.(uid_map) in
     update_or_die "update_map: uid_map" map "uid_map");
  _ ← run_if (given opts.(gid_map) || opts.(create_root_mappings))
    (_ ← run_if opts.(deny_setgroups)
       (r ← proc_setgroups_write child "deny";
        if r =? -1 then systmErr "proc_setgroups_write" else mret tt);
     let map := if opts.(create_root_mappings) then root_map gid else default "" opts.(gid_map) in
     update_or_die "update_map: gid_map" map "gid_map");
  run_if (given opts.(projid_map))
    (update_or_die "update_map: projid_map" (default "" opts.(projid_map)) "projid_map").

Definition main (argv : list string) : prog unit :=
  match parse_command_options argv with
  | inl t => _ ← eprint t; die (Exited EXIT_FAILURE)
  | inr opts =>
      _ ← try "prctl-PR_SET_DUMPABLE" ASetDumpable;
      _ ← try "pipe" APipe;
      _ ← try "mmap" AMmap;
      _ ← try "clone" (AClone (Z.lor opts.(flags) SIGCHLD) opts);
      _ ← act AMunmap;
      _ ← run_if opts.(verbose)
            (_ ← act (APrint (hd "" argv +:+ ": PID of child created by clone() is " +:+
                              fmt_d child +:+ nl)); mret tt);
      _ ← update_child_maps opts;
      _ ← act ACloseWr;
      _ ← try "waitpid" AWaitpid;
      _ ← run_if opts.(verbose) (_ ← act (APrint (hd "" argv +:+ ": terminating" +:+ nl)); mret tt);
      die (Exited EXIT_SUCCESS)
  end.

(** *** The system *)

(** The results in store for the calls of the parent ([true]) and of the child,
    0 when there are none left; [errno] of each; whether each has the write end
    of the pipe; whether the child has ended, itself or as the command it executed;
    whether the command terminates once it runs; and the calls made, with
    their results. *)
Record world := World {
  results : bool → list Z;
  eno : bool → Z;
  wr_open : bool → bool;
  gone : bool;
  finishes : bool;
  history : list (bool * (action * Z))
}.

Definition upd {X} (f : bool → X) (b : bool) (x : X) (c : bool) : X :=
  if Bool.eqb c b then x else f c.

Definition next_result (p : bool) (w : world) : Z := hd 0 (w.(results) p).

(** The call [a] of [p] gives [z], with new pipe and child states. *)
Definition done (p : bool) (a : action) (z : Z) (wr : bool → bool) (gn : bool) (w : world) : world :=
  World (upd w.(results) p (tl (w.(results) p)))
    (if z <? 0 then upd w.(eno) p (- z) else w.(eno)) wr gn
    w.(finishes) (w.(history) ++ [(p, (a, z))]).

Definition do_action (i : nat) (_ : list bool) (a : action) (w : world) : outcome label world :=
  let p := (i =? 0)%nat in
  let z := next_result p w in
  match a with
  | AErrno => Val (w.(eno) p) (done p a (w.(eno) p) w.(wr_open) w.(gone) w)
  | APrint _ | AEprint _ | AReport _ => Val 0 (done p a 0 w.(wr_open) w.(gone) w)
  | APipe => Val z (done p a z (if z <? 0 then w.(wr_open) else upd w.(wr_open) p true) w.(gone) w)
  | AClone _ opts =>
      if z <? 0 then Val z (done p a z w.(wr_open) w.(gone) w)
      else Spawn (Child opts)
             (done p a 1 (upd w.(wr_open) false (w.(wr_open) p)) w.(gone) w)
  | ACloseWr => Val 0 (done p a 0 (upd w.(wr_open) p false) w.(gone) w)
  | ARead => if z <? 0 then Val z (done p a z w.(wr_open) w.(gone) w)
             else if w.(wr_open) true || w.(wr_open) false then Blocked
             else Val 0 (done p a 0 w.(wr_open) w.(gone) w)
  | AWaitpid => if z <? 0 then Val z (done p a z w.(wr_open) w.(gone) w)
                else if w.(gone) then Val 1 (done p a 1 w.(wr_open) w.(gone) w) else Blocked
  | AExec _ => if z <? 0 then Val z (done p a z w.(wr_open) w.(gone) w)
               else Val 0 (done p a 0 w.(wr_open) w.(gone) w)
  | ACommand => if w.(finishes) then Val 0 (done p a 0 w.(wr_open) (w.(gone) || negb p) w)
                else Blocked
  | AExit => Val 0 (done p a 0 (upd w.(wr_open) p false) (w.(gone) || negb p) w)
  | _ => Val z (done p a z w.(wr_open) w.(gone) w)
  end.

#[local] Instance userns_sys : Sys action label world := {|
  perform := do_action;
  body l := match l with Parent argv => main argv | Child opts => childFunc opts end;
  one_process := false
|}.

(** The parent about to start; [fin] tells whether the command terminates. *)
Definition start (argv : list string) (res : bool → list Z) (fin : bool) :
    config action label world :=
  Config [Goto (Parent argv)] (World res (λ _, 0) (λ _, false) false fin []) None.

(** ** What each process does, by its own history *)

Local Abbreviation hist := (list (action * Z)).

Definition seen (f : action * Z → bool) (h : hist) : bool := existsb f h.
Definition e_pipe (x : action * Z) : bool := match x with (APipe, z) => 0 <=? z | _ => false end.
Definition e_clone (x : action * Z) : bool :=
  match x with (AClone _ _, z) => 0 <=? z | _ => false end.
Definition e_close (x : action * Z) : bool := match x with (ACloseWr, _) => true | _ => false end.
Definition e_exit (x : action * Z) : bool := match x with (AExit, _) => true | _ => false end.
Definition e_eof (x : action * Z) : bool := match x with (ARead, z) => z =? 0 | _ => false end.
Definition e_exec (x : action * Z) : bool := match x with (AExec _, z) => 0 <=? z | _ => false end.

Definition e_run (x : action * Z) : bool := match x with (ACommand, _) => true | _ => false end.

Lemma seen_app f h l : seen f (h ++ l) = seen f h || seen f l.
Proof. apply existsb_app. Qed.

(** The file was opened, and then the data written to it whole. *)
Definition written (h : hist) (m : string * string) : Prop :=
  ∃ a b fd, h = a ++ [(AOpen m.1, fd); (AWrite fd m.2, Z.of_nat (String.length m.2))] ++ b.

Lemma written_app h l m : written h m → written (h ++ l) m.
Proof. intros (a & b & fd & ->). exists a, (b ++ l), fd. by rewrite <- !app_assoc. Qed.

(** The maps the options ask for: file and contents. *)
Definition requests (opts : cmd_options) : list (string * string) :=
  (if given opts.(uid_map) || opts.(create_root_mappings)
   then [(proc_file child "uid_map", commas_to_newlines
            (if opts.(create_root_mappings) then root_map uid else default "" opts.(uid_map)))]
   else []) ++
  (if given opts.(gid_map) || opts.(create_root_mappings)
   then [(proc_file child "gid_map", commas_to_newlines
            (if opts.(create_root_mappings) then root_map gid else default "" opts.(gid_map)))]
   else []) ++
  (if given opts.(projid_map)
   then [(proc_file child "projid_map", commas_to_newlines (default "" opts.(projid_map)))]
   else []).

Section processes.
Variable opts : cmd_options.

(** The parent creates the pipe, then the child, writes all the maps, closes the
    pipe and only then waits. *)
Definition parent_may (h : hist) (a : action) : Prop :=
  match a with
  | APipe => seen e_close h = false ∧ seen e_exit h = false
  | AClone _ o => o = opts ∧ seen e_pipe h = true ∧ seen e_clone h = false
  | ACloseWr => Forall (written h) (requests opts) ∧ seen e_exit h = false
  | AWaitpid => seen e_close h = true ∧ seen e_clone h = true
  | ARead | AExec _ | ACommand => False
  | _ => True
  end.
Definition parent_ends (h : hist) (f : fate) : Prop :=
  seen e_exit h = true ∧ (f = Exited EXIT_SUCCESS → seen e_close h = true).

(** The child reads the pipe once its own write end is closed, and executes the
    command only after it has seen the end of the file. *)
Definition child_may (h : hist) (a : action) : Prop :=
  match a with
  | APipe | AClone _ _ | AWaitpid => False
  | ARead => seen e_close h = true
  | AExec argv => seen e_eof h = true ∧ argv = opts.(cmd_argv)
  | ACommand => seen e_exec h = true
  | _ => True
  end.
Definition child_ends (h : hist) (f : fate) : Prop := seen e_exit h = true.

Local Abbreviation parent_respects := (respects parent_may parent_ends no_jump).
Local Abbreviation child_respects := (respects child_may child_ends no_jump).

(** *** The child *)

(** Code that leaves the pipe alone and returns or ends the process. *)
Definition calm {A} (c : prog A) : Prop :=
  ∀ h, child_respects h c (λ h' _, ∃ l, h' = h ++ l).

Lemma calm_ret {A} (a : A) : calm (mret a).
Proof. intros h. exists []. by rewrite app_nil_r. Qed.
Lemma calm_bind {A B} (c : prog A) (f : A → prog B) :
  calm c → (∀ a, calm (f a)) → calm (c ≫= f).
Proof.
  intros Hc Hf h. eapply respects_seq; [apply Hc|]. intros h' a [l ->]. simpl.
  eapply respects_impl; [|apply Hf]. intros h' b [l' ->]. exists (l ++ l').
  by rewrite app_assoc.
Qed.
Lemma calm_act a : (∀ h, child_may h a) → calm (act a).
Proof. intros Ha h. split; [apply Ha|]. intros z. by exists [(a, z)]. Qed.
Lemma calm_die {A} f : calm (@die A f).
Proof. intros h. split; [done|]. intros z.
  change (seen e_exit (h ++ [(AExit, z)]) = true). rewrite seen_app. apply orb_true_r.
Qed.
Lemma calm_each {X} (l : list X) f : (∀ x, calm (f x)) → calm (each l f).
Proof.
  intros Hf. induction l as [|x l IH]; [apply calm_ret|]. apply calm_bind; [apply Hf|by intros].
Qed.
Lemma calm_run_if b m : calm m → calm (run_if b m).
Proof. destruct b; [done|intros _; apply calm_ret]. Qed.
End processes.
End programs.

Create HintDb calm discriminated.
#[export] Hint Resolve calm_ret calm_die : calm.
#[export] Hint Extern 1 (calm _ (act _)) => apply calm_act; done : calm.

(** Splits a [calm] goal along the structure of the program. *)
Ltac calm :=
  repeat first
    [ progress intros
    | solve [eauto with calm]
    | apply calm_bind
    | apply calm_each
    | apply calm_run_if
    | match goal with
      | |- calm _ (match ?x with _ => _ end) => destruct x eqn:?
      end ].

Section facts.
Variable cap_from_name : string → option Z.
Variables uid gid child : Z.
Variable opts : cmd_options.

Lemma calm_systmErr {A} msg : calm opts (@systmErr A msg).
Proof. unfold systmErr. calm. Qed.
Lemma calm_try msg a : (∀ h, child_may opts h a) → calm opts (try msg a).
Proof. intros Ha. unfold try. apply calm_bind; [by apply calm_act|]. intros r. destruct (r <? 0); [apply calm_systmErr|apply calm_ret]. Qed.
Lemma calm_bad_exit {A} msg : calm opts (@bad_exit A msg).
Proof. unfold bad_exit, eprint. calm. Qed.
#[local] Hint Resolve calm_systmErr calm_bad_exit : calm.
#[local] Hint Extern 1 (calm _ (try _ _)) => apply calm_try; done : calm.

Lemma calm_modifyCapSetting flag cap b : calm opts (modifyCapSetting flag cap b).
Proof. unfold modifyCapSetting. calm. Qed.
#[local] Hint Resolve calm_modifyCapSetting : calm.

Lemma calm_raise b : calm opts (raiseInheritableAndAmbientCaps b).
Proof. unfold raiseInheritableAndAmbientCaps. calm. Qed.
Lemma calm_modify_set plus name cap p : calm opts (modify_set plus name cap p).
Proof. unfold modify_set. calm. Qed.
#[local] Hint Resolve calm_raise calm_modify_set : calm.

Lemma calm_perform_option n o : calm opts (perform_option cap_from_name n o).
Proof.
  unfold perform_option, display_creds_and_caps, set_securebits, set_process_uids,
    modify_individual_capability, eprint. calm.
Qed.
Lemma calm_perform_options n l : calm opts (perform_options cap_from_name n l).
Proof.
  revert n. induction l as [|o l IH]; intros n; [apply calm_ret|].
  apply calm_bind; [apply calm_perform_option|by intros].
Qed.

(** The fatal ends, with anything after them. *)
Lemma child_systmErr {A} h msg (Q : _ → A → Prop) :
  respects (child_may opts) child_ends no_jump h (systmErr msg) Q.
Proof.
  do 2 (apply respects_step; [done|]; intros ?).
  change (seen e_exit ((h ++ [(AErrno, z)]) ++ [(AExit, z0)]) = true).
  rewrite seen_app. apply orb_true_r.
Qed.
Lemma child_bad_exit {A} h msg (Q : _ → A → Prop) :
  respects (child_may opts) child_ends no_jump h (bad_exit msg) Q.
Proof.
  apply respects_step; [done|]; intros z. apply respects_step; [done|]; intros z'.
  change (seen e_exit ((h ++ [(AEprint msg, z)]) ++ [(AExit, z')]) = true).
  rewrite seen_app. apply orb_true_r.
Qed.

(** The whole child. *)
Lemma child_respects_start :
  respects (child_may opts) child_ends no_jump [] (childFunc cap_from_name opts)
    (λ h _, seen e_run h = true).
Proof.
  unfold childFunc. apply respects_step; [done|]; intros z0.
  apply respects_step; [done|]; intros r.
  destruct (Z.eqb_spec r 0) as [->|Hr]; simpl negb; cbv iota; [|apply child_bad_exit].
  apply respects_step; [done|]; intros z1.
  eapply respects_seq; [apply calm_perform_options|]. intros h1 [] [l1 ->]. simpl app.
  eapply respects_seq; [apply calm_run_if; calm|]. intros h2 [] [l2 ->]. simpl app.
  apply respects_step; [done|]; intros z2.
  destruct (Z.ltb_spec z2 0); [apply child_systmErr|].
  apply respects_step; [|intros z3; apply respects_ret; unfold seen; rewrite existsb_app; apply orb_true_r].
  change (seen e_exec ((ACloseWr, z0) :: (ARead, 0) :: (ACloseRd, z1) ::
    ((l1 ++ l2) ++ [(AExec (cmd_argv opts), z2)])) = true).
  cbn [seen existsb e_exec]. rewrite !existsb_app. cbn. by rewrite (proj2 (Z.leb_le 0 z2)), !orb_true_r.
Qed.
(** *** The parent *)

Definition plain (x : action * Z) : bool :=
  match x.1 with
  | APipe | AClone _ _ | ACloseWr | AWaitpid | ARead | AExec _ | ACommand | AExit => false
  | _ => true
  end.
Definition grows (h h' : list (action * Z)) : Prop := ∃ l, h' = h ++ l ∧ forallb plain l = true.

#[local] Instance grows_preorder : PreOrder grows.
Proof.
  split; [intros h; exists []; by rewrite app_nil_r|].
  intros a b c (l & -> & Hl) (l' & -> & Hl'). exists (l ++ l').
  by rewrite app_assoc, forallb_app, Hl, Hl'.
Qed.

Lemma grows_snoc h x : plain x = true → grows h (h ++ [x]).
Proof. intros Hx. exists [x]. simpl. by rewrite Hx. Qed.

Lemma grows_seen f h h' :
  (∀ x, plain x = true → f x = false) → grows h h' → seen f h' = seen f h.
Proof.
  intros Hf (l & -> & Hl). rewrite seen_app. assert (E : seen f l = false); [|by rewrite E, orb_false_r].
  induction l as [|x l IH]; [done|]. simpl in *. apply andb_true_iff in Hl as [Hx Hl].
  by rewrite (Hf x Hx), (IH Hl).
Qed.

Lemma written_grows h h' m : grows h h' → written h m → written h' m.
Proof. intros (l & -> & _). apply written_app. Qed.

Local Abbreviation pmay := (parent_may uid gid child opts).

Lemma parent_systmErr {A} h msg (Q : _ → A → Prop) :
  respects pmay parent_ends no_jump h (systmErr msg) Q.
Proof.
  apply respects_step; [done|]; intros z. apply respects_step; [done|]; intros z'.
  split; [rewrite seen_app; apply orb_true_r|discriminate].
Qed.

Lemma parent_try h msg a Q :
  pmay h a → (∀ z, 0 <= z → Q (h ++ [(a, z)]) z) → respects pmay parent_ends no_jump h (try msg a) Q.
Proof.
  intros Ha HQ. apply respects_step; [done|]; intros z.
  destruct (Z.ltb_spec z 0); [apply parent_systmErr|by apply HQ].
Qed.

(** The actions of a finished history are plain ones. *)
Ltac grow := repeat (etransitivity; [|by apply grows_snoc]); done.

Lemma parent_update_map h m f :
  respects pmay parent_ends no_jump h (update_map m f)
    (λ h' r, grows h h' ∧ (r = -1 ∨ written h' (f, commas_to_newlines m))).
Proof.
  unfold update_map. apply respects_step; [done|]; intros fd. destruct (fd <? 0).
  { apply respects_step; [done|]; intros z. apply respects_ret. split; [grow|by left]. }
  apply respects_step; [done|]; intros n.
  destruct (Z.eqb_spec n (Z.of_nat (String.length (commas_to_newlines m)))) as [->|Hn];
    simpl negb; cbv iota.
  - apply respects_step; [done|]; intros z. apply respects_ret. split; [grow|].
    right. exists h, [(AClose fd, z)], fd. by rewrite <- !app_assoc.
  - do 2 (apply respects_step; [done|]; intros ?). apply respects_ret. split; [grow|by left].
Qed.

Lemma parent_setgroups h pid str :
  respects pmay parent_ends no_jump h (proc_setgroups_write pid str) (λ h' _, grows h h').
Proof.
  unfold proc_setgroups_write. apply respects_step; [done|]; intros fd. destruct (fd <? 0).
  - apply respects_step; [done|]; intros e. destruct (e =? ENOENT);
      [|apply respects_step; [done|]; intros z]; apply respects_ret; grow.
  - apply respects_step; [done|]; intros n. destruct (n <? 0); cbv iota;
      [apply respects_step; [done|]; intros z'|]; (apply respects_step; [done|]; intros z);
      apply respects_ret; grow.
Qed.

Lemma parent_update_or_die h msg m name :
  respects pmay parent_ends no_jump h (update_or_die child msg m name)
    (λ h' _, grows h h' ∧ Forall (written h') [(proc_file child name, commas_to_newlines m)]).
Proof.
  unfold update_or_die. eapply respects_seq; [apply parent_update_map|].
  intros h' r [Hg Hw]. destruct (Z.eqb_spec r (-1)); [apply parent_systmErr|].
  apply respects_ret. split; [done|]. constructor; [by destruct Hw|done].
Qed.

Lemma parent_run_if h b m (R : list (action * Z) → Prop) :
  (b = true → respects pmay parent_ends no_jump h m (λ h' _, grows h h' ∧ R h')) →
  (b = false → R h) →
  respects pmay parent_ends no_jump h (run_if b m) (λ h' _, grows h h' ∧ R h').
Proof. intros Ht Hf. destruct b; [by apply Ht|]. split; [done|by apply Hf]. Qed.

(** A part that writes the maps [l] when [b] holds. *)
Lemma parent_writes h b m l :
  respects pmay parent_ends no_jump h m (λ h' _, grows h h' ∧ Forall (written h') l) →
  respects pmay parent_ends no_jump h (run_if b m)
    (λ h' _, grows h h' ∧ Forall (written h') (if b then l else [])).
Proof. intros Hm. destruct b; [done|]. by split. Qed.

Lemma Forall_written_grows h h' l : grows h h' → Forall (written h) l → Forall (written h') l.
Proof. intros Hg H. eapply Forall_impl; [exact H|]. intros m. by apply written_grows. Qed.

Lemma parent_update_child_maps h :
  respects pmay parent_ends no_jump h (update_child_maps uid gid child opts)
    (λ h' _, grows h h' ∧ Forall (written h') (requests uid gid child opts)).
Proof.
  unfold update_child_maps.
  eapply respects_seq; [apply parent_writes, parent_update_or_die|]. intros h1 [] [G1 W1].
  eapply respects_seq; [apply parent_writes|].
  { eapply respects_seq; [apply (parent_run_if _ _ _ (λ _, True)); [|done]|].
    - intros _. eapply respects_seq; [apply parent_setgroups|]. intros h2 r G2. simpl in G2.
      destruct (r =? -1); [apply parent_systmErr|by apply respects_ret].
    - intros h2 [] [G2 _]. eapply respects_impl; [|apply parent_update_or_die].
      intros h3 [] [G3 W3]. split; [by etransitivity|exact W3]. }
  intros h2 [] [G2 W2].
  eapply respects_impl; [|apply parent_writes, parent_update_or_die]. intros h3 [] [G3 W3].
  split; [by do 2 (etransitivity; [eassumption|])|].
  unfold requests. rewrite !Forall_app. split_and!; [|by eapply Forall_written_grows|done].
  by do 2 (eapply Forall_written_grows; [eassumption|]).
Qed.

(** Between the creation of the child and the closing of the pipe. *)
Definition has_child (h : list (action * Z)) : Prop :=
  seen e_pipe h = true ∧ seen e_clone h = true ∧ seen e_close h = false ∧ seen e_exit h = false.

Lemma has_child_grows h h' : grows h h' → has_child h → has_child h'.
Proof.
  intros Hg (H1 & H2 & H3 & H4). unfold has_child.
  rewrite !(λ f Hf, grows_seen f h h' Hf Hg) by (by intros [[] ?]). done.
Qed.

Lemma parent_print h b t :
  respects pmay parent_ends no_jump h (run_if b (_ ← act (APrint t); mret tt)) (λ h' _, grows h h').
Proof.
  destruct b; [|by apply respects_ret]. apply respects_step; [done|]; intros z.
  apply respects_ret. by apply grows_snoc.
Qed.

Lemma parent_respects_main argv :
  parse_command_options argv = inr opts →
  respects pmay parent_ends no_jump [] (main uid gid child argv) (λ _ _, False).
Proof.
  intros Hparse. unfold main. rewrite Hparse.
  eapply respects_seq; [by apply (parent_try _ _ _ (λ h z, h = [(ASetDumpable, z)]))|].
  intros h1 z1 ->.
  eapply respects_seq; [by apply (parent_try _ _ _ (λ h z, 0 <= z ∧
    h = [(ASetDumpable, z1); (APipe, z)]))|]. intros h2 z2 [Hz2 ->].
  eapply respects_seq; [by apply (parent_try _ _ _ (λ h z, 
    h = [(ASetDumpable, z1); (APipe, z2); (AMmap, z)]))|]. intros h3 z3 ->.
  eapply respects_seq; [apply (parent_try _ _ _ (λ h _, has_child h))|].
  { split; [done|]. cbn. by rewrite (proj2 (Z.leb_le 0 z2)). }
  { intros z4 Hz4. unfold has_child. cbn. by rewrite !(proj2 (Z.leb_le 0 _)). }
  intros h4 z4 H4. simpl in H4. apply respects_step; [done|]; intros z5.
  eapply respects_seq; [apply parent_print|]. intros h6 [] G6. simpl in G6.
  eapply respects_seq; [apply parent_update_child_maps|]. intros h7 [] [G7 W7].
  assert (H7 : has_child h7).
  { eapply has_child_grows; [|exact H4]. transitivity h6; [|done].
    etransitivity; [|exact G6]. by apply grows_snoc. }
  destruct H7 as (P7 & C7 & _ & E7).
  apply respects_step; [by split|]; intros z8.
  assert (C8 : seen e_close (h7 ++ [(ACloseWr, z8)]) = true)
    by (rewrite seen_app; apply orb_true_r).
  eapply respects_seq; [apply (parent_try _ _ _ (λ h _, seen e_close h = true))|].
  { split; [done|]. by rewrite seen_app, C7. }
  { intros z9 _. by rewrite seen_app, C8. }
  intros h9 z9 C9. simpl in C9.
  eapply respects_seq; [apply parent_print|]. intros h10 [] (l & -> & _).
  apply respects_step; [done|]; intros z11. split; rewrite !seen_app.
  - apply orb_true_r.
  - by rewrite C9.
Qed.

Lemma parent_respects_usage argv t :
  parse_command_options argv = inl t →
  respects pmay parent_ends no_jump [] (main uid gid child argv) (λ _ _, False).
Proof.
  intros Hparse. unfold main. rewrite Hparse.
  do 2 (apply respects_step; [done|]; intros ?). by split.
Qed.
End facts.

(** ** The two processes together *)

(** The calls of one process, with their results. *)
Definition mine (p : bool) (t : list (bool * (action * Z))) : list (action * Z) :=
  omap (λ x, if Bool.eqb x.1 p then Some x.2 else None) t.

Lemma mine_snoc p t q x :
  mine p (t ++ [(q, x)]) = if Bool.eqb q p then mine p t ++ [x] else mine p t.
Proof.
  unfold mine. rewrite omap_app. simpl. destruct (Bool.eqb q p); [done|apply app_nil_r].
Qed.

(** What a call that returned did to the world. *)
Lemma userns_val i r a w z w' :
  do_action i r a w = Val z w' →
  let p := (i =? 0)%nat in
  history w' = history w ++ [(p, (a, z))] ∧
  wr_open w' = (if e_pipe (a, z) then upd (wr_open w) p true
                else if e_close (a, z) || e_exit (a, z) then upd (wr_open w) p false
                else wr_open w) ∧
  gone w' = gone w || (negb p && (e_exit (a, z) || e_run (a, z))) ∧ finishes w' = finishes w ∧
  e_clone (a, z) = false ∧
  (e_eof (a, z) = true → wr_open w true = false ∧ wr_open w false = false).
Proof.
  intros H p. unfold do_action in H. fold p in H.
  generalize dependent (next_result p w). intros z0 H.
  destruct a; repeat case_match; simplify_eq/=; bool_facts;
    rewrite ?andb_false_r, ?orb_false_r, ?andb_true_r; try (by split_and!).
  all: split_and!; try done; repeat case_match; bool_facts; try lia; try done.
Qed.

Lemma do_action_spawn i r a w l w' :
  do_action i r a w = Spawn l w' →
  let p := (i =? 0)%nat in
  ∃ f o, a = AClone f o ∧ l = Child o ∧ history w' = history w ++ [(p, (a, 1))] ∧
    wr_open w' = upd (wr_open w) false (wr_open w p) ∧ gone w' = gone w ∧
    finishes w' = finishes w.
Proof.
  intros H p. unfold do_action in H. fold p in H.
  destruct a; repeat case_match; simplify_eq/=. by do 2 eexists.
Qed.

Lemma do_action_blocked i r a w :
  do_action i r a w = Blocked →
  a = ARead ∧ wr_open w true || wr_open w false = true ∨ a = AWaitpid ∧ gone w = false ∨
  a = ACommand ∧ finishes w = false.
Proof. unfold do_action. destruct a; repeat case_match; naive_solver. Qed.

Section system.
Variable cap_from_name : string → option Z.
Variables uid gid child : Z.
Variable opts : cmd_options.
Variable fin : bool.

#[local] Instance sys : Sys action label world := userns_sys cap_from_name uid gid child.
Local Abbreviation events := (list (bool * (action * Z))).
Local Abbreviation pmay := (parent_may uid gid child opts).
Local Abbreviation parent_at h p := (respects pmay parent_ends no_jump h p (λ _ _, False)).
Local Abbreviation child_at h c :=
  (respects (child_may opts) child_ends no_jump h c (λ h' _, seen e_run h' = true)).

(** When an event may come after the events [t]. *)
Definition in_order (t : events) (x : bool * (action * Z)) : Prop :=
  match x with
  | (true, (ACloseWr, _)) =>
      Forall (written (mine true t)) (requests uid gid child opts) ∧
      seen e_exit (mine true t) = false
  | (true, (AExec _, _)) => False
  | (false, (ARead, z)) =>
      z = 0 → seen e_close (mine true t) = true ∨ seen e_exit (mine true t) = true
  | (false, (AExec argv, _)) => seen e_eof (mine false t) = true ∧ argv = opts.(cmd_argv)
  | _ => True
  end.

Inductive timely : events → Prop :=
| timely_nil : timely []
| timely_snoc t x : timely t → in_order t x → timely (t ++ [x]).

Record inv (w : world) (p : prog unit) (q : option (prog unit)) : Prop := {
  i_parent : parent_at (mine true (history w)) p;
  i_child : match q with
            | None => seen e_clone (mine true (history w)) = false ∧ mine false (history w) = []
            | Some c => seen e_clone (mine true (history w)) = true ∧
                (c = Goto (Child opts) ∧ mine false (history w) = [] ∨
                 child_at (mine false (history w)) c)
            end;
  i_piped : seen e_clone (mine true (history w)) = true → seen e_pipe (mine true (history w)) = true;
  i_open : seen e_pipe (mine true (history w)) = true →
    wr_open w true = true ∨ seen e_close (mine true (history w)) = true ∨
    seen e_exit (mine true (history w)) = true;
  i_shut : seen e_close (mine true (history w)) = true ∨
           seen e_exit (mine true (history w)) = true → wr_open w true = false;
  i_own : seen e_close (mine false (history w)) = true → wr_open w false = false;
  i_gone : seen e_exit (mine false (history w)) = true ∨
           seen e_run (mine false (history w)) = true → gone w = true;
  i_finishes : finishes w = fin;
  i_timely : timely (history w)
}.

Lemma seen_snoc f h x : seen f (h ++ [x]) = seen f h || f x.
Proof. rewrite seen_app. simpl. by rewrite orb_false_r. Qed.

Lemma in_order_parent t a z : pmay (mine true t) a → in_order t (true, (a, z)).
Proof. by destruct a. Qed.

Lemma parent_val r a k z w w' q :
  inv w (Act a k) q → do_action 0 r a w = Val z w' → inv w' (k z) q.
Proof.
  intros [[HG Hk] Hc Hp Ho Hs Hw Hg Hfi Ht] Hval.
  apply userns_val in Hval as (Eh & Ew & Eg & Ef & Ec & _).
  cbn [Nat.eqb negb] in *.
  assert (M1 : mine true (history w') = mine true (history w) ++ [(a, z)])
    by (by rewrite Eh, mine_snoc).
  assert (M2 : mine false (history w') = mine false (history w)) by (by rewrite Eh, mine_snoc).
  split; rewrite ?M1, ?M2, ?seen_snoc.
  - apply Hk.
  - rewrite Ec, orb_false_r. exact Hc.
  - rewrite Ec, orb_false_r. intros H. by rewrite (Hp H).
  - rewrite Ew. destruct (e_pipe (a, z)) eqn:E1; [by left|]. rewrite orb_false_r. intros H.
    destruct (Ho H) as [Hop|[-> | ->]]; [|by auto..].
    destruct (e_close (a, z)), (e_exit (a, z)); simpl; rewrite ?orb_true_r; auto.
  - rewrite Ew. destruct (e_pipe (a, z)) eqn:E1.
    + destruct a; try done. destruct HG as [-> ->]. by intros [|].
    + destruct (e_close (a, z)), (e_exit (a, z)); simpl; [done..|]. by rewrite !orb_false_r.
  - rewrite Ew. by destruct (e_pipe (a, z)), (e_close (a, z) || e_exit (a, z)).
  - rewrite Eg, orb_false_r. done.
  - congruence.
  - rewrite Eh. constructor; [done|by apply in_order_parent].
Qed.

Lemma parent_spawn r a k l w w' q :
  inv w (Act a k) q → do_action 0 r a w = Spawn l w' →
  q = None ∧ l = Child opts ∧ inv w' (k 1) (Some (Goto (Child opts))).
Proof.
  intros [[HG Hk] Hc Hp Ho Hs Hw Hg Hfi Ht] Hsp.
  apply do_action_spawn in Hsp as (f & o & -> & -> & Eh & Ew & Eg & Ef).
  destruct HG as (-> & Hpipe & Hclone).
  destruct q as [c|]; [by destruct Hc as [Hc _]; rewrite Hclone in Hc|].
  destruct Hc as [_ Hc]. cbn [Nat.eqb] in *.
  assert (M1 : mine true (history w') = mine true (history w) ++ [(AClone f opts, 1)])
    by (by rewrite Eh, mine_snoc).
  assert (M2 : mine false (history w') = []) by (by rewrite Eh, mine_snoc).
  do 2 (split; [done|]). split; rewrite ?M1, ?M2, ?seen_snoc; cbn; rewrite ?orb_false_r, ?orb_true_r.
  - apply Hk.
  - auto.
  - done.
  - rewrite Ew. cbn. done.
  - rewrite Ew. cbn. done.
  - done.
  - by intros [|].
  - congruence.
  - rewrite Eh. by constructor.
Qed.

Lemma child_val i r a k z w w' p :
  inv w p (Some (Act a k)) → do_action (S i) r a w = Val z w' → inv w' p (Some (k z)).
Proof.
  intros [Hpar Hc Hp Ho Hs Hw Hg Hfi Ht] Hval.
  apply userns_val in Hval as (Eh & Ew & Eg & Ef & _ & Ee). cbn [Nat.eqb negb andb] in *.
  destruct Hc as [Hcl [[? _]|[HG Hk]]]; [done|].
  assert (M1 : mine false (history w') = mine false (history w) ++ [(a, z)])
    by (by rewrite Eh, mine_snoc).
  assert (M2 : mine true (history w') = mine true (history w)) by (by rewrite Eh, mine_snoc).
  assert (Epipe : e_pipe (a, z) = false) by by destruct a.
  assert (Ewt : wr_open w' true = wr_open w true).
  { rewrite Ew, Epipe. by destruct (e_close (a, z) || e_exit (a, z)). }
  split; rewrite ?M1, ?M2, ?seen_snoc, ?Ewt; try done.
  - split; [done|]. right. apply Hk.
  - rewrite Ew, Epipe. destruct (e_close (a, z)), (e_exit (a, z)); simpl; [done..|].
    by rewrite orb_false_r.
  - rewrite Eg. destruct (e_exit (a, z)), (e_run (a, z)); simpl; rewrite ?orb_true_r; try done.
    by rewrite !orb_false_r.
  - congruence.
  - rewrite Eh. constructor; [done|]. destruct a; try done. simpl in *. intros ->.
    destruct (Ee eq_refl) as [Et _]. destruct (Ho (Hp Hcl)) as [H|H]; [congruence|done].
Qed.

Definition conf (p : prog unit) (q : option (prog unit)) (w : world) : config action label world :=
  Config (p :: match q with Some c => [c] | None => [] end) w None.

(** A step makes one of the processes smaller. *)
Lemma step_cases p q w c' :
  inv w p q → step (conf p q w) c' →
  ∃ p' q' w', c' = conf p' q' w' ∧ inv w' p' q' ∧
    (part p' p ∨ p' = p ∧ ∃ c c1, q = Some c ∧ q' = Some c1 ∧
       child_at (mine false (history w')) c1 ∧ (part c1 c ∨ c = Goto (Child opts))).
Proof.
  intros Hinv [i Hi]. unfold sched_step in Hi. cbn [ended pool conf] in Hi.
  destruct i as [|i]; cbn in Hi.
  - destruct p as [a|f|l|a k]; [done|done|by destruct (i_parent _ _ _ Hinv)|].
    destruct (do_action 0 _ a w) as [z w'|l w'|] eqn:Ea; [| |done]; simplify_eq.
    + exists (k z), q, w'. split; [done|]. split; [by eapply parent_val|]. left. constructor.
    + destruct (parent_spawn _ _ _ _ _ _ _ Hinv Ea) as (-> & -> & Hinv').
      exists (k 1), (Some (Goto (Child opts))), w'. split; [done|]. split; [done|]. left. constructor.
  - destruct q as [c|]; [|done]. destruct i as [|i]; [|done]. cbn in Hi.
    destruct c as [a|f|l|a k]; [done|done| |].
    + destruct (i_child _ _ _ Hinv) as [Hcl [[[= ->] Hm]|[]]]. simplify_eq.
      assert (Hc1 : child_at (mine false (history w)) (childFunc cap_from_name opts))
        by (rewrite Hm; apply child_respects_start).
      exists p, (Some (childFunc cap_from_name opts)), w. split; [done|]. split.
      * destruct Hinv. split; auto.
      * right. split; [done|]. do 2 eexists. split_and!; [reflexivity|reflexivity|done|by right].
    + destruct (do_action 1 _ a w) as [z w'|l w'|] eqn:Ea; [| |done]; simplify_eq.
      * assert (Hinv' : inv w' p (Some (k z))) by by eapply child_val.
        exists p, (Some (k z)), w'. split; [done|]. split; [done|]. right. split; [done|].
        do 2 eexists. split_and!; [reflexivity|reflexivity| |left; constructor].
        apply userns_val in Ea as (Eh & _).
        destruct (i_child _ _ _ Hinv') as [_ [[_ Hm]|]]; [|done].
        rewrite Eh, mine_snoc in Hm. by destruct (mine false (history w)).
      * apply do_action_spawn in Ea as (f & o & -> & _).
        by destruct (i_child _ _ _ Hinv) as [_ [[? _]|[[] _]]].
Qed.

(** A process that has come to its end; one that is the command; and one that is in
    [waitpid]. *)
Definition over (p : prog unit) : Prop := match p with Ret _ | End _ => True | _ => False end.
Definition runs (p : prog unit) : Prop := ∃ k, p = Act ACommand k.
Definition waits (p : prog unit) : Prop := ∃ k, p = Act AWaitpid k.

(** The child, unless it is over or a command that does not terminate, can go on
    once the parent has closed the pipe. *)
Lemma child_steps p c w :
  inv w p (Some c) → wr_open w true = false →
  over c ∨ (runs c ∧ fin = false) ∨ ∃ c', step (conf p (Some c) w) c'.
Proof.
  intros Hinv Hwr. destruct c as [a|f|l|a k]; [by left|by left| |]; right.
  - right. eexists. exists 1%nat. reflexivity.
  - destruct (i_child _ _ _ Hinv) as [_ [[? _]|[HG _]]]; [done|].
    destruct (act_or_blocked [p; Act a k] w 1 a k eq_refl)
      as [|[[-> Hwo]|[[-> _]|[-> Hf]]]%do_action_blocked]; [by right| |done|].
    + simpl in HG. by rewrite Hwr, (i_own _ _ _ Hinv HG) in Hwo.
    + left. split; [by exists k|]. by rewrite (i_finishes _ _ _ Hinv) in Hf.
Qed.

Definition all_over (c : config action label world) : Prop := Forall over c.(pool).

(** Both processes are over; or the command runs for ever and the parent is over or
    waits for it. *)
Definition at_rest (c : config action label world) : Prop :=
  all_over c ∨ fin = false ∧ ∃ p q, c.(pool) = [p; q] ∧ runs q ∧ (over p ∨ waits p).

Lemma conf_progress p q w :
  inv w p q → at_rest (conf p q w) ∨ ∃ c', step (conf p q w) c'.
Proof.
  intros Hinv. pose proof (i_parent _ _ _ Hinv) as Hp.
  destruct p as [a|f|l|a k]; [done| |done|].
  - destruct q as [c|]; [|left; left; by repeat constructor].
    destruct (child_steps _ _ _ Hinv) as [Hc|[[Hc Hf]|Hc]]; [| | |by right].
    + apply (i_shut _ _ _ Hinv). right. apply Hp.
    + left; left. by repeat constructor.
    + left; right. split; [done|]. exists (End f), c. split_and!; [done|done|by left].
  - destruct Hp as [HG _].
    destruct (act_or_blocked (conf (Act a k) q w).(pool) w 0 a k eq_refl)
      as [|[[-> _]|[[-> Hgone]|[-> _]]]%do_action_blocked]; [by right|done| |done].
    destruct HG as [Hclose Hclone].
    pose proof (i_child _ _ _ Hinv) as Hc. destruct q as [c|]; [|destruct Hc; congruence].
    destruct (child_steps _ _ _ Hinv) as [Hov|[[Hrun Hf]|]];
      [by apply (i_shut _ _ _ Hinv); left| | |by right].
    + exfalso. assert (gone w = true); [|congruence]. apply (i_gone _ _ _ Hinv).
      destruct Hc as [_ [[-> _]|Hc]]; [done|]. destruct c; [by right|by left|done|done].
    + left; right. split; [done|]. eexists _, c. split_and!; [done|done|]. right. by exists k.
Qed.

Lemma conf_over p : ∀ q w, inv w p q → inevitably at_rest (conf p q w).
Proof.
  induction (part_wf p) as [p _ IHp].
  assert (Hone : ∀ q w,
    (∀ c c1 w', q = Some c → inv w' p (Some c1) → child_at (mine false (history w')) c1 →
       part c1 c ∨ c = Goto (Child opts) → inevitably at_rest (conf p (Some c1) w')) →
    inv w p q → inevitably at_rest (conf p q w)).
  { intros q w Hq Hinv. destruct (conf_progress p q w Hinv) as [|Hstep]; [by apply inev_now|].
    apply inev_later; [done|]. intros c' Hc'.
    destruct (step_cases p q w c' Hinv Hc')
      as (p' & q' & w' & -> & Hinv' & [Hpart|(-> & c & c1 & Hqc & -> & Hat & Hc1)]);
      [by apply IHp|by eapply Hq]. }
  assert (Hchild : ∀ c w, inv w p (Some c) → child_at (mine false (history w)) c →
    inevitably at_rest (conf p (Some c) w)).
  { intros c. induction (part_wf c) as [c _ IHc]. intros w Hinv Hat. apply Hone; [|done].
    intros c0 c1 w' [= <-] Hinv' Hat' [Hpart| ->]; [by apply IHc|done]. }
  intros q w. apply Hone. intros c c1 w' _ Hinv' Hat' _. by apply Hchild.
Qed.

(** *** The order of events *)

Lemma timely_split t t1 x t2 : timely t → t = t1 ++ x :: t2 → in_order t1 x ∧ timely t1.
Proof.
  intros Ht. revert t2. induction Ht as [|t y Ht IH Hy]; intros t2 H; [by destruct t1|].
  destruct t2 as [|z t2 _] using rev_ind.
  - by apply app_inj_tail in H as [-> ->].
  - change (t1 ++ x :: t2 ++ [z]) with (t1 ++ (x :: t2) ++ [z]) in H. rewrite app_assoc in H.
    apply app_inj_tail in H as [H _]. by eapply IH.
Qed.

(** An event of a process's own history, in the events of both. *)
Lemma seen_split f p t :
  seen f (mine p t) = true → ∃ t1 x t2, t = t1 ++ (p, x) :: t2 ∧ f x = true.
Proof.
  induction t as [|[q x] t IH] using rev_ind; [done|]. rewrite mine_snoc.
  destruct (Bool.eqb q p) eqn:Eq.
  - apply eqb_prop in Eq as ->. rewrite seen_snoc. destruct (f x) eqn:Ef.
    + intros _. by exists t, x, [].
    + rewrite orb_false_r. intros H. destruct (IH H) as (t1 & y & t2 & -> & Hy).
      exists t1, y, (t2 ++ [(p, x)]). by rewrite <- app_assoc.
  - intros H. destruct (IH H) as (t1 & y & t2 & -> & Hy).
    exists t1, y, (t2 ++ [(q, x)]). by rewrite <- app_assoc.
Qed.

Lemma mine_app p t t' : mine p (t ++ t') = mine p t ++ mine p t'.
Proof. apply omap_app. Qed.

(** Once the parent has closed the pipe, the maps are written. *)
Lemma closed_written t :
  timely t → seen e_close (mine true t) = true →
  Forall (written (mine true t)) (requests uid gid child opts) ∧
  ∃ t1 x t2, t = t1 ++ (true, x) :: t2 ∧ e_close x = true ∧ seen e_exit (mine true t1) = false.
Proof.
  intros Ht (t1 & [a z] & t2 & -> & Ha)%seen_split. destruct a; try done.
  destruct (timely_split _ t1 (true, (ACloseWr, z)) t2 Ht eq_refl) as [[Hw He] _]. split.
  - rewrite mine_app. eapply Forall_impl; [exact Hw|]. intros m. apply written_app.
  - by exists t1, (ACloseWr, z), t2.
Qed.

(** The command is executed after the parent closed the pipe or ended. *)
Lemma exec_after t t1 argv z t2 :
  timely t → t = t1 ++ (false, (AExec argv, z)) :: t2 →
  argv = opts.(cmd_argv) ∧
  (seen e_close (mine true t1) = true ∨ seen e_exit (mine true t1) = true).
Proof.
  intros Ht H. destruct (timely_split _ _ _ _ Ht H) as [[Heof ->] Ht1]. split; [done|].
  apply seen_split in Heof as (u1 & [a y] & u2 & -> & Ha). destruct a; try done.
  apply Z.eqb_eq in Ha as ->.
  destruct (timely_split _ u1 (false, (ARead, 0)) u2 Ht1 eq_refl) as [Hcl _].
  destruct (Hcl eq_refl) as [Hc|Hc]; [left|right]; by rewrite mine_app, seen_app, Hc.
Qed.

Lemma userns_inv_start argv res :
  parent_at [] (main uid gid child argv) →
  inv (start argv res fin).(wld) (main uid gid child argv) None.
Proof. intros Hmain. split; cbn; try done; [by intros []|constructor]. Qed.

Lemma inv_reachable argv res c :
  parse_command_options argv = inr opts → reachable (start argv res fin) c →
  c = start argv res fin ∨ ∃ p q w, c = conf p q w ∧ inv w p q.
Proof.
  intros Hparse Hr. eapply (invariant_reachable (λ c, c = start argv res fin ∨
    ∃ p q w, c = conf p q w ∧ inv w p q)); [|by left|exact Hr].
  intros i a b [->|(p & q & w & -> & Hinv)] Hi; right.
  - destruct i as [|i]; [|done]. cbn in Hi. simplify_eq.
    eexists _, None, _. split; [reflexivity|].
    by eapply userns_inv_start, parent_respects_main.
  - destruct (step_cases p q w b Hinv) as (p' & q' & w' & -> & Hinv' & _); [by exists i|].
    by do 3 eexists.
Qed.

(** C37: whatever the scheduling and the results of the calls, the command is
    executed with the arguments given, and when it is, either every map the
    options ask for has been written whole, or the parent has ended; and a
    parent that ends successfully had written them before. *)
Theorem maps_before_exec argv res c t1 cmd z t2 :
  parse_command_options argv = inr opts → reachable (start argv res fin) c →
  history c.(wld) = t1 ++ (false, (AExec cmd, z)) :: t2 →
  cmd = opts.(cmd_argv) ∧
  (Forall (written (mine true t1)) (requests uid gid child opts) ∨
   seen e_exit (mine true t1) = true ∧ c.(pool) !! 0%nat ≠ Some (End (Exited EXIT_SUCCESS))).
Proof.
  intros Hparse Hr Hh. destruct (inv_reachable argv res c Hparse Hr) as [->|(p & q & w & -> & Hinv)].
  { cbn in Hh. by destruct t1. }
  cbn in Hh. pose proof (i_timely _ _ _ Hinv) as Ht.
  destruct (exec_after _ _ _ _ _ Ht Hh) as [-> Hend]. split; [done|].
  assert (Ht1 : timely t1) by by destruct (timely_split _ _ _ _ Ht Hh).
  destruct (seen e_close (mine true t1)) eqn:Hc; [left; by apply closed_written|right].
  destruct Hend as [|He]; [done|]. split; [done|]. cbn. intros [= ->].
  destruct (i_parent _ _ _ Hinv) as [_ Hcl]. specialize (Hcl eq_refl).
  destruct (closed_written _ Ht Hcl) as (_ & v1 & x & v2 & Hv & Hx & Hne).
  rewrite Hh in Hv. destruct (app_eq_inv _ _ _ _ Hv) as [(k & -> & Hk)|(k & -> & Hk)].
  - rewrite mine_app, seen_app in Hc. apply orb_false_iff in Hc as [_ Hc].
    destruct k as [|y k]; simplify_eq/=. by rewrite Hx in Hc.
  - rewrite mine_app, seen_app in Hne. apply orb_false_iff in Hne as [Hne _]. congruence.
Qed.

Lemma start_over argv res :
  parent_at [] (main uid gid child argv) → inevitably at_rest (start argv res fin).
Proof.
  intros Hmain. apply inev_later.
  - eexists. exists 0%nat. reflexivity.
  - intros c' [i Hi]. destruct i as [|i]; [|done]. cbn in Hi. simplify_eq.
    by apply (conf_over _ None), (userns_inv_start argv res).
Qed.
End system.

(** C34: the two processes never wait for each other for ever: whatever the
    command line, the scheduling and the results of the calls, either the parent and
    the child, if it was created, come to their end, the child by exiting or at the end
    of the command it executed; or the child has executed a command that does not
    terminate ([fin] is false), and the parent has ended or waits in [waitpid] for
    that command, as it is meant to. *)
Theorem userns_terminates cap_from_name uid gid child argv res fin :
  @inevitably _ _ _ (userns_sys cap_from_name uid gid child)
    (λ c, all_over c ∨
       fin = false ∧ ∃ p q, c.(pool) = [p; q] ∧ runs q ∧ (over p ∨ waits p))
    (start argv res fin).
Proof.
  destruct (parse_command_options argv) as [t|opts] eqn:Hparse.
  - eapply (start_over _ _ _ _ initial_options), parent_respects_usage, Hparse.
  - by apply (start_over _ _ _ _ opts), parent_respects_main.
Qed.

(** *** Concrete runs *)

Definition no_caps (_ : string) : option Z := None.
Definition demo_argv : list string := ["userns_child_exec"; "-U"; "-r"; "sh"].
Definition demo_opts : cmd_options := options_of [Opt "U" None; Opt "r" None] ["sh"].
(** Calls that succeed, the maps of user 1000 and group 100 being written whole. *)
Definition demo_results (p : bool) : list Z :=
  if p then [0; 0; 0; 0; 0; 4; 8; 0; 4; 4; 0; 4; 7; 0] else [].
(** The first map file cannot be opened. *)
Definition refused (p : bool) : list Z := if p then [0; 0; 0; 0; 0; - EACCES] else [].

Section runs.
#[local] Instance demo_sys : Sys action label world := userns_sys no_caps 1000 100 77.

(** The configuration a schedule leads to. *)
Definition after (l : list nat) (res : bool → list Z) : config action label world :=
  default (start demo_argv res true) (run_schedule l (start demo_argv res true)).
Definition demo_end : config action label world :=
  after (replicate 16 0%nat ++ replicate 5 1%nat) demo_results.
Definition before_exec (c : config action label world) : list (bool * (action * Z)) :=
  take (length (history c.(wld)) - 1) (history c.(wld)).

Lemma maps_before_exec_witness :
  history demo_end.(wld) = before_exec demo_end ++ [(false, (AExec ["sh"], 0))] ∧
  ["sh"] = demo_opts.(cmd_argv) ∧
  (Forall (written (mine true (before_exec demo_end))) (requests 1000 100 77 demo_opts) ∨
   seen e_exit (mine true (before_exec demo_end)) = true ∧
   demo_end.(pool) !! 0%nat ≠ Some (End (Exited EXIT_SUCCESS))).
Proof.
  assert (H : history demo_end.(wld) = before_exec demo_end ++ [(false, (AExec ["sh"], 0))])
    by (vm_compute; reflexivity).
  split; [exact H|].
  apply (maps_before_exec no_caps 1000 100 77 demo_opts true demo_argv demo_results demo_end
           (before_exec demo_end) ["sh"] 0 []); [vm_compute; reflexivity| |exact H].
  apply (run_schedule_reachable (replicate 16 0%nat ++ replicate 5 1%nat)).
  vm_compute. reflexivity.
Defined.

(** The command can be executed without the maps.  When a map file
    cannot be opened the parent exits, which closes the pipe, and the child
    goes on as if the maps had been written. *)
Theorem exec_without_maps : ∃ c,
  reachable (start demo_argv refused true) c ∧
  c.(pool) !! 0%nat = Some (End (Failed EACCES "update_map: uid_map")) ∧
  (false, (AExec ["sh"], 0)) ∈ history c.(wld) ∧
  ∀ m, m ∈ requests 1000 100 77 demo_opts → ¬ written (mine true (history c.(wld))) m.
Proof.
  exists (after (replicate 10 0%nat ++ replicate 5 1%nat) refused). split_and!.
  - apply (run_schedule_reachable (replicate 10 0%nat ++ replicate 5 1%nat)). by vm_compute.
  - by vm_compute.
  - apply (list_elem_of_lookup_2 _ 12). by vm_compute.
  - intros m Hm (a & b & fd & H).
    assert (Hn : Forall (λ x, match x.1 with AWrite _ _ => False | _ => True end)
                   (mine true (history (after (replicate 10 0%nat ++ replicate 5 1%nat) refused).(wld))))
      by (vm_compute; repeat constructor).
    rewrite H, !Forall_app in Hn. destruct Hn as (_ & Hn & _).
    by inversion Hn as [|? ? _ Hn2]; inversion Hn2.
Qed.
End runs.
