(* ===== verification/NsCapable.v ===== *)
(** [namespaces/ns_capable.c]: has a process capabilities in a namespace?

    The program finds the user namespaces of the process and of the target,
    walks up from the target, and reports which of the rules of capabilities
    applies.  The kernel is a machine with a table of descriptors; user
    namespaces and the files that name them are parameters, and any call may
    fail with the next of a list of errors. *)
From stdpp Require Import gmap.
From S2P Require Import Prelude CLib ErrorFunctions Proc UsernsOpts.
Local Open Scope Z_scope.
Definition ENOTTY : Z := 25.

(** What a descriptor refers to: a user namespace, a namespace of another type,
    with the user namespace that owns it, or an ordinary file. *)
Inductive object (Ns : Type) := OUser (n : Ns) | OOther (type : Z) (n : Ns) | OFile.
Arguments OUser {Ns}.
Arguments OOther {Ns}.
Arguments OFile {Ns}.

Class NsSystem (Ns : Type) := {
  parent : Ns → option Ns;          (* of a user namespace, as far as can be seen *)
  owner : Ns → Z;                   (* the user who created it *)
  file_object : string → option (object Ns);
  st_id : object Ns → Z * Z;        (* device and inode number *)
  status_text : string → option string;   (* contents of /proc/PID/status *)
  caps_text : Z → option string;    (* capabilities of a process, as text *)
  fresh_fd : gmap Z (object Ns) → Z
}.

(** Documented behaviour: device and inode identify a namespace, a new descriptor
    is not in use, and the namespaces above one are finitely many. *)
Class NsLaws (Ns : Type) `{!NsSystem Ns} (depth : Ns → nat) : Prop := {
  st_id_inj n m : st_id (OUser n) = st_id (OUser m) → n = m;
  fresh_fd_ok fds : fds !! fresh_fd fds = None ∧ 0 <= fresh_fd fds;
  parent_depth n p : parent n = Some p → (depth p < depth n)%nat
}.

Record kernel (Ns : Type) := Kernel { fds : gmap Z (object Ns); errors : list Z }.
Arguments Kernel {Ns}.
Arguments fds {Ns}.
Arguments errors {Ns}.

Inductive ns_call := COpen (path : string) | CClose (fd : Z) | CFstat (fd : Z)
| CParent (fd : Z) | CNsType (fd : Z) | CUserns (fd : Z) | COwner (fd : Z)
| CFopen (path : string) | CFclose (fd : Z) | CCapGet (pid : Z) | CCapToText.

Section ns_capable.
Context {L : Libc} {Ns : Type} `{!NsSystem Ns}.
Local Abbreviation state := (pst unit ns_call (kernel Ns)).
Local Abbreviation P := (M state).

(** A call that does [f] unless the next error is not 0. *)
Definition sys {A} (f : kernel Ns → (Z + A) * kernel Ns) (k : kernel Ns) : (Z + A) * kernel Ns :=
  match k.(errors) with
  | [] => f k
  | e :: es => if e =? 0 then f (Kernel k.(fds) es) else (inl e, Kernel k.(fds) es)
  end.

Definition new_fd (o : object Ns) (k : kernel Ns) : (Z + Z) * kernel Ns :=
  let fd := fresh_fd k.(fds) in (inr fd, Kernel (<[fd := o]> k.(fds)) k.(errors)).
Definition with_fd {A} (fd : Z) (f : object Ns → kernel Ns → (Z + A) * kernel Ns)
    (k : kernel Ns) : (Z + A) * kernel Ns :=
  match k.(fds) !! fd with Some o => f o k | None => (inl EBADF, k) end.

Definition sys_open (path : string) : kernel Ns → (Z + Z) * kernel Ns := sys (λ k,
  match file_object path with Some o => new_fd o k | None => (inl ENOENT, k) end).
Definition sys_close (fd : Z) : kernel Ns → (Z + Z) * kernel Ns := sys (with_fd fd (λ _ k,
  (inr 0, Kernel (delete fd k.(fds)) k.(errors)))).
Definition sys_fstat (fd : Z) : kernel Ns → (Z + Z * Z) * kernel Ns := sys (with_fd fd (λ o k,
  (inr (st_id o), k))).
Definition ns_get_parent (fd : Z) : kernel Ns → (Z + Z) * kernel Ns := sys (with_fd fd (λ o k,
  match o with
  | OUser n => match parent n with Some p => new_fd (OUser p) k | None => (inl EPERM, k) end
  | OOther _ _ => (inl EINVAL, k)
  | OFile => (inl ENOTTY, k)
  end)).
Definition ns_get_nstype (fd : Z) : kernel Ns → (Z + Z) * kernel Ns := sys (with_fd fd (λ o k,
  match o with
  | OUser _ => (inr CLONE_NEWUSER, k)
  | OOther t _ => (inr t, k)
  | OFile => (inl ENOTTY, k)
  end)).
Definition ns_get_userns (fd : Z) : kernel Ns → (Z + Z) * kernel Ns := sys (with_fd fd (λ o k,
  match o with
  | OUser n => match parent n with Some p => new_fd (OUser p) k | None => (inl EPERM, k) end
  | OOther _ n => new_fd (OUser n) k
  | OFile => (inl ENOTTY, k)
  end)).
Definition ns_get_owner_uid (fd : Z) : kernel Ns → (Z + Z) * kernel Ns := sys (with_fd fd (λ o k,
  match o with
  | OUser n => (inr (owner n), k)
  | OOther _ _ => (inl EINVAL, k)
  | OFile => (inl ENOTTY, k)
  end)).
(** A stream is its descriptor and the text it has to give; that reading from it
    fails is not modelled.  [fclose] gives the descriptor up whatever it returns. *)
Definition sys_fopen (path : string) : kernel Ns → (Z + Z * string) * kernel Ns := sys (λ k,
  match status_text path with
  | Some t =>
      let fd := fresh_fd k.(fds) in
      (inr (fd, t), Kernel (<[fd := OFile]> k.(fds)) k.(errors))
  | None => (inl ENOENT, k)
  end).
Definition sys_fclose (fd : Z) (k : kernel Ns) : (Z + Z) * kernel Ns :=
  let k' := Kernel (delete fd k.(fds)) k.(errors) in sys (λ k, (inr 0, k)) k'.
(** A capability state is represented by its text. *)
Definition cap_get_pid (pid : Z) : kernel Ns → (Z + string) * kernel Ns := sys (λ k,
  match caps_text pid with Some t => (inr t, k) | None => (inl EINVAL, k) end).
Definition cap_to_text (caps : string) : kernel Ns → (Z + string) * kernel Ns := sys (λ k, (inr caps, k)).

(** [if (call == -1) systmErr(msg);], the local macro, giving the result. *)
Definition checked {A} (msg : string) (c : ns_call) (f : kernel Ns → (Z + A) * kernel Ns) : P A :=
  r ← call c f;
  match r with inl _ => perror_exit msg | inr a => mret a end.

(** *** The functions *)

Definition display_process_capabilities (pid : Z) : P unit :=
  caps ← checked "cap_get_proc" (CCapGet pid) (cap_get_pid pid);
  cap_string ← checked "cap_to_text" CCapToText (cap_to_text caps);
  printf ("    Capabilities: " +:+ cap_string +:+ nl).

(** [fgets(line, size, fp)] on the text left in the stream. *)
Fixpoint fgets (size : nat) (text : string) : string * string :=
  match size, text with
  | S (S _ as size'), String c t =>
      if bool_decide (c = newline) then (String c "", t)
      else let '(l, r) := fgets size' t in (String c l, r)
  | _, _ => ("", text)
  end.

(** [sscanf(line, "Uid: %*d %d %*d %*d", &uid)], [None] when [uid] is not stored. *)
Definition scan_uid (line : string) : option Z :=
  match strto_scan (drop_str 4 line) 10 with
  | Some (_, _, r) =>
      match strto_scan r 10 with
      | Some (neg, mag, _) => Some (to_signed 32 (if neg then - mag else mag))
      | None => None
      end
  | None => None
  end.

(** One turn of the scan, [rest] being what is left to read from [fp]. *)
Definition status_step (path : string) (fp : Z) (rest : string) : P (string + Z) :=
  match rest with
  | EmptyString =>
      eprintf ("Failure scanning for 'Uid:' in " +:+ path +:+ nl);; p_exit EXIT_FAILURE
  | _ =>
      let '(line, rest) := fgets 1024 rest in
      if strncmp_eq line "Uid:" 4 then
        match scan_uid line with
        | Some uid => call (CFclose fp) (sys_fclose fp);; mret (inr (to_unsigned 32 uid))
        | None => stop HUndef
        end
      else mret (inl rest)
  end.

Definition euid_of_process (pid : Z) : P Z :=
  let path := snprintf PATH_MAX ("/proc/" +:+ fmt_d pid +:+ "/status") in
  stream ← checked "fopen-/proc/PID/status" (CFopen path) (sys_fopen path);
  let '(fp, text) := stream in
  loop (S (String.length text)) (status_step path fp) text.

Definition ns_equal (nsfd1 nsfd2 : Z) : P bool :=
  sb1 ← checked "fstat-nsfd1" (CFstat nsfd1) (sys_fstat nsfd1);
  sb2 ← checked "fstat-nsfd2" (CFstat nsfd2) (sys_fstat nsfd2);
  mret ((sb1.1 =? sb2.1) && (sb1.2 =? sb2.2)).

Definition ns_type (ns_fd : Z) : P Z :=
  checked "ioctl-NS_GET_NSTYPE" (CNsType ns_fd) (ns_get_nstype ns_fd).
Definition owning_userns_of (ns_fd : Z) : P Z :=
  checked "ioctl-NS_GET_USERNS" (CUserns ns_fd) (ns_get_userns ns_fd).
Definition uid_of_userns (userns_fd : Z) : P Z :=
  checked "ioctl-NS_GET_OWNER_UID" (COwner userns_fd) (ns_get_owner_uid userns_fd).
Definition close (msg : string) (fd : Z) : P unit :=
  _ ← checked msg (CClose fd) (sys_close fd); skip.

(** One turn of the walk, at the descriptor [child]. *)
Definition ancestor_step (source_userns target_userns child : Z) : P (Z + Z) :=
  parent ← call (CParent child) (ns_get_parent child);
  match parent with
  | inl e =>
      if negb (e =? EPERM) then perror_exit "ioctl-NS_GET_PARENT" else
      when (negb (child =? target_userns)) (close "close(child)" child);;
      mret (inr (-1))
  | inr parent =>
      same ← ns_equal parent source_userns;
      if (same : bool) then close "close(parent)" parent;; mret (inr child)
      else
        when (negb (child =? target_userns)) (close "close(child) [loop]" child);;
        mret (inl parent)
  end.

Definition is_ancestor_userns (fuel : nat) (source_userns target_userns : Z) : P Z :=
  loop fuel (ancestor_step source_userns target_userns) target_userns.

Definition userns_from_pid (pid : Z) : P Z :=
  let path := snprintf PATH_MAX ("/proc/" +:+ fmt_d pid +:+ "/ns/user") in
  checked "open-pid-userns" (COpen path) (sys_open path).

Definition get_userns_from (arg : string) : P Z :=
  if match deref arg with Some c => isdigit c | None => false end
  then userns_from_pid (atoi arg)
  else
    ns ← checked "open-ns-file" (COpen arg) (sys_open arg);
    t ← ns_type ns;
    if t =? CLONE_NEWUSER then mret ns
    else
      userns ← owning_userns_of ns;
      close "close-ns" ns;;
      mret userns.

Definition in_target_text (pid : Z) : string :=
  "PID " +:+ fmt_d pid +:+ " is in the target namespace. Subject to LSM checks, it has the" +:+ nl +:+
  "capabilities that are in its sets, which are:" +:+ nl +:+ nl.
Definition not_ancestor_text (pid : Z) : string :=
  "PID " +:+ fmt_d pid +:+ " is not in an ancestor user namespace." +:+ nl +:+
  "Therefore, it has no capabilities in the target namespace." +:+ nl.

(** What is said of a process above the target. *)
Definition report_ancestor (pid : Z) (is_owner : bool) : P unit :=
  printf ("PID " +:+ fmt_d pid +:+ " is in an ancestor user namespace");;
  (if is_owner then printf (" and its effective UID matches" +:+ nl)
   else printf (", but its effective UID does not match" +:+ nl));;
  printf ("the owner of the immediate child user namespace of that ancestor namespace." +:+ nl);;
  if is_owner
  then printf ("Therefore, subject to LSM checks, it has all capabilities in the target" +:+ nl +:+
               "namespace!" +:+ nl)
  else
    printf ("Therefore, subject to LSM checks, it has only the capabilities that are in its" +:+ nl +:+
            "sets, which are:" +:+ nl +:+ nl);;
    display_process_capabilities pid.

(** [euid_of_process(pid) == uid_of_userns(child_userns)]: which side is evaluated
    first is not specified. *)
Definition owner_matches (euid_first : bool) (pid child_userns : Z) : P bool :=
  if euid_first then
    euid ← euid_of_process pid; uid ← uid_of_userns child_userns; mret (euid =? uid)
  else
    uid ← uid_of_userns child_userns; euid ← euid_of_process pid; mret (euid =? uid).

Definition main (euid_first : bool) (fuel : nat) (argv : list string) : P unit :=
  match argv with
  | [_; arg1; arg2] =>
      let pid := atoi arg1 in
      source_userns ← userns_from_pid pid;
      target_userns ← get_userns_from arg2;
      same ← ns_equal source_userns target_userns;
      (if (same : bool) then
         printf (in_target_text pid);; display_process_capabilities pid
       else
         child_userns ← is_ancestor_userns fuel source_userns target_userns;
         if child_userns =? -1 then printf (not_ancestor_text pid)
         else
           is_owner ← owner_matches euid_first pid child_userns;
           report_ancestor pid is_owner;;
           when (negb (child_userns =? target_userns)) (close "close-child_userns" child_userns));;
      close "close-target_userns" target_userns;;
      close "close-source_userns" source_userns;;
      p_exit EXIT_SUCCESS
  | _ =>
      eprintf ("Usage: " +:+ hd "" argv +:+ " <source-PID> <ns-file|target-PID>" +:+ nl);;
      eprintf (String tab ("'ns-file' is a /proc/PID/ns/xxxx file" +:+ nl));;
      p_exit EXIT_FAILURE
  end.
End ns_capable.

(** ** What the program reports *)

(** [above s t c]: [s] is a proper ancestor of [t], and [c] its child on the way
    down to [t]. *)
Inductive above {Ns} `{!NsSystem Ns} (s : Ns) : Ns → Ns → Prop :=
| above_here t : parent t = Some s → above s t t
| above_up t p c : parent t = Some p → p ≠ s → above s p c → above s t c.

(** A line of a file, short enough for the buffer of [fgets]. *)
Definition is_line (l : string) : Prop :=
  ∃ b, l = b +:+ nl ∧ all_chars (no_char newline) b = true ∧ (String.length b < 1023)%nat.

(** The first line of the text that starts with [Uid:] has [u] as its second number. *)
Inductive uid_line : string → Z → Prop :=
| uid_here l rest u :
    is_line l → strncmp_eq l "Uid:" 4 = true → scan_uid l = Some u → uid_line (l +:+ rest) u
| uid_later l rest u :
    is_line l → strncmp_eq l "Uid:" 4 = false → uid_line rest u → uid_line (l +:+ rest) u.

Lemma fgets_cons n c t :
  fgets (S (S n)) (String c t) =
  if bool_decide (c = newline) then (String c "", t)
  else let '(l, r) := fgets (S n) t in (String c l, r).
Proof. done. Qed.

Lemma fgets_line n b rest :
  all_chars (no_char newline) b = true → (S (String.length b) < n)%nat →
  fgets n (b +:+ nl +:+ rest) = (b +:+ nl, rest).
Proof.
  revert n. induction b as [|c b IH]; intros n Hb Hn; simpl in Hb, Hn.
  - destruct n as [|[|n]]; [lia|lia|]. done.
  - apply andb_true_iff in Hb as [Hc Hb]. unfold no_char in Hc. apply bool_decide_eq_true in Hc.
    destruct n as [|[|n]]; [lia|lia|]. rewrite append_cons, fgets_cons.
    rewrite bool_decide_eq_false_2 by done. by rewrite (IH (S n) Hb) by lia.
Qed.

Section facts.
Context {L : Libc} {Ns : Type} `{!NsSystem Ns} {depth : Ns → nat} `{!NsLaws Ns depth}.
Local Abbreviation state := (pst unit ns_call (kernel Ns)).
Local Abbreviation post := (@Proc.post unit ns_call (kernel Ns) _).
Local Abbreviation table := (gmap Z (object Ns)).

(** When the process may end by a report. *)
Variable lost : Prop.

(** The descriptors are [m]; the standard output has [o] in its buffer and the
    kernel has seen [D]; no call will fail with [EPERM] by itself, and none with
    another error unless [lost]. *)
Definition st (D : list (stream * string)) (o : string) (m : table) (s : state) : Prop :=
  fds s.(world) = m ∧ (EPERM ∉ errors s.(world)) ∧ ((∃ e, e ∈ errors s.(world) ∧ e ≠ 0) → lost) ∧
  out_buf s.(pr) = o ∧ delivered s.(pr) = D.

Lemma perror_exit_post {A} msg s (Q : A → state → Prop) :
  lost → post (perror_exit msg) s Q (λ _, lost).
Proof.
  intros Hl. unfold Proc.post. destruct (@perror_exit_halts L unit ns_call (kernel Ns) A msg s) as (s' & -> & _).
  split; [by left|done].
Qed.

(** A call fails with an error that is not [EPERM], or is its action. *)
Lemma call_post {A} c (f : kernel Ns → (Z + A) * kernel Ns) D o m s :
  st D o m s →
  post (call c (sys f)) s (λ r s',
    (∃ e, r = inl e ∧ e ≠ EPERM ∧ lost ∧ st D o m s') ∨
    (∃ es k, f (Kernel m es) = (r, k) ∧ (k.(errors) = es → st D o k.(fds) s'))) (λ _, lost).
Proof.
  intros (Hm & He & Hl & Ho & HD). unfold Proc.post, call, sys.
  destruct (world s) as [fds0 es]. simpl in Hm, He, Hl. subst fds0. simpl.
  destruct es as [|e es]; [|apply not_elem_of_cons in He as [Hne He];
    assert (Hl' : (∃ e, e ∈ es ∧ e ≠ 0) → lost)
      by (intros (e' & ? & ?); apply Hl; exists e'; split; [by right|done]);
    destruct (Z.eqb_spec e 0) as [E|E]].
  1,2: destruct (f _) as [[e'|a] k] eqn:Ef; right; do 2 eexists; (split; [exact Ef|]);
    intros Hk; unfold st; simpl; by rewrite Hk.
  left. exists e. split_and!; [done..| |done].
  apply Hl. exists e. split; [by left|done].
Qed.

(** A checked call is its action on the descriptors, or the end of the process. *)
Lemma checked_post {A} msg c (f : kernel Ns → (Z + A) * kernel Ns) D o m s (Q : A → table → Prop) :
  st D o m s →
  (∀ es, match f (Kernel m es) with
         | (inr a, k) => Q a k.(fds) ∧ k.(errors) = es
         | (inl _, _) => lost
         end) →
  post (checked msg c (sys f)) s (λ a s', ∃ m', Q a m' ∧ st D o m' s') (λ _, lost).
Proof.
  intros Hs Hf. unfold checked. eapply post_seq; [by apply call_post|].
  intros r s' [(e & -> & _ & Hl & _)|(es & k & Ef & Hk)]; [by apply perror_exit_post|].
  specialize (Hf es). rewrite Ef in Hf. destruct r as [e|a]; [by apply perror_exit_post|].
  apply post_ret. destruct Hf as [HQ Hes]. eauto.
Qed.

Lemma ns_equal_post D o m s fd1 fd2 n1 n2 :
  st D o m s → m !! fd1 = Some (OUser n1) → m !! fd2 = Some (OUser n2) →
  post (ns_equal fd1 fd2) s (λ b s', (b = true ↔ n1 = n2) ∧ st D o m s') (λ _, lost).
Proof.
  intros Hs H1 H2. unfold ns_equal.
  eapply post_seq; [apply (checked_post _ _ _ D o m s (λ a m', a = st_id (OUser n1) ∧ m' = m) Hs)|].
  { intros es. unfold with_fd. simpl. by rewrite H1. }
  intros sb1 s1 (m' & [-> ->] & Hs1).
  eapply post_seq; [apply (checked_post _ _ _ D o m s1 (λ a m', a = st_id (OUser n2) ∧ m' = m) Hs1)|].
  { intros es. unfold with_fd. simpl. by rewrite H2. }
  intros sb2 s2 (m' & [-> ->] & Hs2). apply post_ret. split; [|done].
  rewrite andb_true_iff, !Z.eqb_eq. split.
  - intros [E1 E2]. apply st_id_inj. by apply injective_projections.
  - by intros ->.
Qed.

Lemma close_post D o m s msg fd ob :
  st D o m s → m !! fd = Some ob →
  post (close msg fd) s (λ _ s', st D o (delete fd m) s') (λ _, lost).
Proof.
  intros Hs H. unfold close.
  eapply post_seq; [apply (checked_post _ _ _ D o m s (λ _ m', m' = delete fd m) Hs)|].
  { intros es. unfold with_fd. simpl. by rewrite H. }
  intros z s1 (m' & -> & Hs1). exact Hs1.
Qed.

(** *** The walk *)

Section walk.
Variables (D : list (stream * string)) (o : string) (m : table) (source target : Z) (s t : Ns).
Hypothesis Hsource : m !! source = Some (OUser s).
Hypothesis Htarget : m !! target = Some (OUser t).
Hypothesis Hpos : 0 <= target.

(** The descriptor [child] of the walk: the target, or one more than [m] has. *)
Definition walk_at (child : Z) (c : Ns) (m' : table) : Prop :=
  (child = target ∧ c = t ∧ m' = m) ∨
  (child ≠ target ∧ 0 <= child ∧ m !! child = None ∧ m' = <[child := OUser c]> m).

Lemma walk_lookup child c m' :
  walk_at child c m' → m' !! child = Some (OUser c) ∧ m' !! source = Some (OUser s).
Proof.
  intros [(-> & -> & ->)|(_ & _ & Hn & ->)]; [done|]. rewrite lookup_insert_eq. split; [done|].
  rewrite lookup_insert_ne; [done|]. intros ->. congruence.
Qed.

(** Closing [child] unless it is the target leaves the descriptors there were. *)
Lemma walk_close msg child c m' z :
  walk_at child c m' → st D o m' z →
  post (when (negb (child =? target)) (close msg child)) z (λ _ z', st D o m z') (λ _, lost).
Proof.
  intros [(-> & -> & ->)|(Hne & _ & Hn & ->)] Hz.
  - by rewrite Z.eqb_refl.
  - rewrite (proj2 (Z.eqb_neq _ _)) by done. cbn [negb when].
    eapply post_mono; [eapply close_post; [done|apply lookup_insert_eq]| |done].
    intros ? z' Hz'. by rewrite delete_insert_id in Hz'.
Qed.

Definition walked (c : Ns) (r : Z + Z) (z : state) : Prop :=
  match r with
  | inl child => ∃ p m', parent c = Some p ∧ p ≠ s ∧ walk_at child p m' ∧ st D o m' z
  | inr r => (r = -1 ∧ parent c = None ∧ st D o m z) ∨
             (r ≠ -1 ∧ parent c = Some s ∧ ∃ m', walk_at r c m' ∧ st D o m' z)
  end.

Lemma ancestor_step_post child c m' z :
  walk_at child c m' → st D o m' z →
  post (ancestor_step source target child) z (walked c) (λ _, lost).
Proof.
  intros Hw Hz. destruct (walk_lookup _ _ _ Hw) as [Hc Hs].
  unfold ancestor_step. eapply post_seq; [apply (call_post _ _ D o m' z Hz)|].
  intros r z1 [(e & -> & He & Hl & Hz1)|(es & k & Ef & Hk)].
  { rewrite (proj2 (Z.eqb_neq _ _)) by done. by apply perror_exit_post. }
  unfold with_fd in Ef. cbn [fds] in Ef. rewrite Hc in Ef.
  destruct (parent c) as [p|] eqn:Ep; unfold new_fd in Ef; simplify_eq/=.
  2:{ specialize (Hk eq_refl). eapply post_seq; [by eapply walk_close|]. intros ? z2 Hz2.
      apply post_ret. by left. }
  specialize (Hk eq_refl). destruct (fresh_fd_ok m') as [Hfree Hfp].
  set (fd := fresh_fd m') in *.
  assert (Hfd : m !! fd = None ∧ fd ≠ source ∧ fd ≠ child).
  { split_and!; [|intros E; congruence..].
    destruct Hw as [(_ & _ & ->)|(_ & _ & _ & ->)]; [done|].
    by apply lookup_insert_None in Hfree as [? _]. }
  destruct Hfd as (Hfd & Hfs & Hfc).
  eapply post_seq; [eapply (ns_equal_post D o _ z1 fd source p s Hk)|].
  { apply lookup_insert_eq. }
  { by rewrite lookup_insert_ne. }
  intros b z2 [Hb Hz2]. destruct b.
  - eapply post_seq; [eapply close_post; [exact Hz2|apply lookup_insert_eq]|].
    intros ? z3 Hz3. simpl in Hz3. rewrite delete_insert_id in Hz3 by done.
    apply post_ret. right. split; [|by rewrite <- (proj1 Hb eq_refl); eauto].
    destruct Hw as [(-> & _)|(_ & ? & _)]; lia.
  - assert (Hps : p ≠ s) by (intros E; apply Hb in E; done).
    assert (Hnext : walk_at fd p (<[fd := OUser p]> m)).
    { right. split_and!; [|done..]. intros E. rewrite E in Hfd. congruence. }
    eapply (post_seq _ _ _ (λ _ z', st D o (<[fd := OUser p]> m) z')).
    2:{ intros ? z3 Hz3. apply post_ret. by exists p, (<[fd := OUser p]> m). }
    destruct Hw as [(-> & _ & ->)|(Hne & _ & Hn & ->)]; [by rewrite Z.eqb_refl|].
    rewrite (proj2 (Z.eqb_neq _ _)) by done. cbn [negb when].
    eapply post_mono; [eapply close_post; [exact Hz2|]| |done].
    + rewrite lookup_insert_ne by done. apply lookup_insert_eq.
    + intros ? z3. rewrite delete_insert_ne, delete_insert_id by done. done.
Qed.

(** The walk from a namespace below which [s] was not found. *)
Lemma is_ancestor_loop fuel child c m' z :
  (depth c < fuel)%nat → walk_at child c m' → st D o m' z →
  post (loop fuel (ancestor_step source target) child) z
    (λ r z', (r = -1 ∧ (∀ c', ¬ above s c c') ∧ st D o m z') ∨
             (r ≠ -1 ∧ ∃ c' m', above s c c' ∧ walk_at r c' m' ∧ st D o m' z')) (λ _, lost).
Proof.
  revert child c m' z. induction fuel as [|fuel IH]; intros child c m' z Hf Hw Hz; [lia|].
  cbn [loop]. eapply post_seq; [by eapply ancestor_step_post|].
  intros [child'|r] z1 H; simpl in H.
  - destruct H as (p & m1 & Hp & Hne & Hw1 & Hz1). pose proof (parent_depth (depth := depth) _ _ Hp) as Hlt.
    eapply post_mono; [eapply (IH child' p m1 z1); [lia|done|done]| |done].
    intros r z2 [(-> & Hno & Hz2)|(Hr & c' & m2 & Hab & Hw2)]; [left|right].
    + split_and!; [done| |done]. intros c' Hab. inversion Hab as [? E|? p' ? E Hn Hab']; simplify_eq.
      by eapply Hno.
    + split; [done|]. exists c', m2. split; [by eapply above_up|done].
  - apply post_ret. destruct H as [(-> & Hp & Hz1)|(Hr & Hp & m1 & Hw1 & Hz1)]; [left|right].
    + split_and!; [done| |done]. intros c' Hab. inversion Hab; congruence.
    + split; [done|]. exists c, m1. split; [by constructor|done].
Qed.
End walk.

(** *** The other functions *)

Definition userns_path (pid : Z) : string := snprintf PATH_MAX ("/proc/" +:+ fmt_d pid +:+ "/ns/user").

(** [m'] has one descriptor more than [m], for the user namespace [n]. *)
Definition opened (m : table) (n : Ns) (fd : Z) (m' : table) : Prop :=
  0 <= fd ∧ m !! fd = None ∧ m' = <[fd := OUser n]> m.

Lemma userns_from_pid_post D o m s pid n :
  st D o m s → file_object (userns_path pid) = Some (OUser n) →
  post (userns_from_pid pid) s (λ fd s', ∃ m', opened m n fd m' ∧ st D o m' s') (λ _, lost).
Proof.
  intros Hs Hf. unfold userns_from_pid.
  apply (checked_post _ _ _ D o m s (opened m n) Hs). intros es. unfold userns_path in Hf.
  rewrite Hf. simpl. destruct (fresh_fd_ok m). done.
Qed.

(** The user namespace an argument stands for: that of a process, a user
    namespace, or the owner of a namespace of another type. *)
Definition target_of (arg : string) (n : Ns) : Prop :=
  if match deref arg with Some c => isdigit c | None => false end
  then file_object (userns_path (atoi arg)) = Some (OUser n)
  else file_object arg = Some (OUser n) ∨
       ∃ t, file_object arg = Some (OOther t n) ∧ t ≠ CLONE_NEWUSER.

Lemma get_userns_from_post D o m s arg n :
  st D o m s → target_of arg n →
  post (get_userns_from arg) s (λ fd s', ∃ m', opened m n fd m' ∧ st D o m' s') (λ _, lost).
Proof.
  intros Hs Ht. unfold get_userns_from, target_of in *.
  destruct (match deref arg with Some c => isdigit c | None => false end);
    [by apply userns_from_pid_post|].
  assert (Ho : ∃ ob, file_object arg = Some ob) by (destruct Ht as [?|(? & ? & _)]; eauto).
  destruct Ho as [ob Hob].
  eapply post_seq; [apply (checked_post _ _ _ D o m s (λ fd m',
    0 <= fd ∧ m !! fd = None ∧ m' = <[fd := ob]> m) Hs)|].
  { intros es. rewrite Hob. simpl. by destruct (fresh_fd_ok m). }
  intros ns s1 (m1 & (Hp & Hn & ->) & Hs1).
  eapply post_seq; [apply (checked_post _ _ _ D o _ s1 (λ t m',
    t = (match ob with OOther t _ => t | _ => CLONE_NEWUSER end) ∧
    m' = <[ns := ob]> m) Hs1)|].
  { intros es. unfold with_fd. simpl. rewrite lookup_insert_eq.
    destruct ob; [done..|]. destruct Ht as [Ht|(? & Ht & _)]; congruence. }
  intros t s2 (m2 & [-> ->] & Hs2). destruct Ht as [Ht|(t & Ht & Hne)]; rewrite Hob in Ht; simplify_eq.
  { rewrite Z.eqb_refl. apply post_ret. by exists (<[ns := OUser n]> m). }
  rewrite (proj2 (Z.eqb_neq _ _)) by done.
  eapply post_seq; [apply (checked_post _ _ _ D o _ s2
    (opened (<[ns := OOther t n]> m) n) Hs2)|].
  { intros es. unfold with_fd. simpl. rewrite lookup_insert_eq. simpl.
    by destruct (fresh_fd_ok (<[ns := OOther t n]> m)). }
  intros fd s3 (m3 & (Hfp & Hfn & ->) & Hs3). apply lookup_insert_None in Hfn as [Hfn Hne'].
  eapply post_seq; [eapply close_post; [exact Hs3|]|].
  { by rewrite lookup_insert_ne, lookup_insert_eq. }
  intros ? s4 Hs4. simpl in Hs4. rewrite delete_insert_ne, delete_insert_id in Hs4 by done.
  apply post_ret. by exists (<[fd := OUser n]> m).
Qed.

Lemma printf_post D o m s t :
  st D o m s → post (printf t) s (λ _ s', st D (o +:+ t) m s') (λ _, lost).
Proof. intros (Hm & He & Hl & Ho & HD). unfold Proc.post, st. simpl. by rewrite Ho. Qed.

Definition caps_line (caps : string) : string := "    Capabilities: " +:+ caps +:+ nl.

Lemma display_post D o m s pid :
  (caps_text pid = None → lost) → st D o m s →
  post (display_process_capabilities pid) s
    (λ _ s', ∃ caps, caps_text pid = Some caps ∧ st D (o +:+ caps_line caps) m s') (λ _, lost).
Proof.
  intros Hcaps Hs. unfold display_process_capabilities.
  eapply post_seq; [apply (checked_post _ _ _ D o m s
    (λ caps m', caps_text pid = Some caps ∧ m' = m) Hs)|].
  { intros es. simpl. destruct (caps_text pid); [done|by apply Hcaps]. }
  intros caps s1 (? & [Hc ->] & Hs1).
  eapply post_seq; [apply (checked_post _ _ _ D o m s1 (λ t m', t = caps ∧ m' = m) Hs1); done|].
  intros t s2 (? & [-> ->] & Hs2).
  eapply post_mono; [by apply printf_post| |done]. intros ? s3 Hs3. by exists caps.
Qed.

Definition status_path (pid : Z) : string := snprintf PATH_MAX ("/proc/" +:+ fmt_d pid +:+ "/status").

Lemma status_step_line path fp b rest (s : state) :
  all_chars (no_char newline) b = true → (String.length b < 1023)%nat →
  status_step path fp (b +:+ nl +:+ rest) s =
  (if strncmp_eq (b +:+ nl) "Uid:" 4 then
     match scan_uid (b +:+ nl) with
     | Some uid => call (CFclose fp) (sys_fclose fp);; mret (inr (to_unsigned 32 uid))
     | None => stop HUndef
     end
   else mret (inl rest)) s.
Proof.
  intros Hb Hl. unfold status_step. rewrite fgets_line by (done || lia). by destruct b.
Qed.

(** [fclose] gives up the descriptor, even when it fails. *)
Lemma fclose_post D o m s fp :
  st D o m s → m !! fp = Some OFile →
  post (call (CFclose fp) (sys_fclose fp)) s (λ _ s', st D o (delete fp m) s') (λ _, lost).
Proof.
  intros (Hm & He & Hl & Ho & HD) _. unfold Proc.post, call, sys_fclose, sys.
  destruct (world s) as [fds0 es]. simpl in Hm, He, Hl. subst fds0. simpl.
  destruct es as [|e es]; [|apply not_elem_of_cons in He as [Hne He];
    assert (Hl' : (∃ e, e ∈ es ∧ e ≠ 0) → lost)
      by (intros (e' & ? & ?); apply Hl; exists e'; split; [by right|done]);
    destruct (e =? 0)]; done.
Qed.

Lemma status_loop D o m path fp t u fuel s :
  st D o m s → m !! fp = Some OFile → uid_line t u → (String.length t < fuel)%nat →
  post (loop fuel (status_step path fp) t) s
    (λ e s', e = to_unsigned 32 u ∧ st D o (delete fp m) s') (λ _, lost).
Proof.
  intros Hs Hfp Ht. revert fuel.
  induction Ht as [l rest u (b & -> & Hb & Hl) Hpre Hscan|l rest u (b & -> & Hb & Hl) Hpre Ht IH];
    intros fuel Hf; (destruct fuel as [|fuel]; [lia|]); rewrite loop_S; apply post_bind;
    rewrite <- append_assoc in *; (eapply post_eq; [by apply status_step_line|]); rewrite Hpre.
  - rewrite Hscan. eapply post_seq; [by apply fclose_post|]. intros ? s1 H1.
    by apply post_ret, post_ret.
  - apply post_ret, IH. rewrite !length_append in Hf. simpl in Hf. lia.
Qed.

Lemma euid_post D o m s pid u :
  st D o m s → (status_text (status_path pid) = None → lost) →
  (∀ t, status_text (status_path pid) = Some t → uid_line t u) →
  post (euid_of_process pid) s (λ e s', e = to_unsigned 32 u ∧ st D o m s') (λ _, lost).
Proof.
  intros Hs Hno Hu. unfold euid_of_process.
  eapply post_seq; [apply (checked_post _ _ _ D o m s (λ x m',
    uid_line x.2 u ∧ m !! x.1 = None ∧ m' = <[x.1 := OFile]> m) Hs)|].
  { intros es. unfold status_path in Hu, Hno. destruct (status_text _) as [t|]; [|by apply Hno].
    destruct (fresh_fd_ok m) as [Hn _]. split_and!; [by apply Hu|done..]. }
  intros [fp t] s1 (? & (Ht & Hn & ->) & Hs1). simpl in Ht, Hn, Hs1.
  eapply post_mono; [eapply status_loop; [exact Hs1|apply lookup_insert_eq|done|lia]| |done].
  intros e s2 [-> H2]. by rewrite delete_insert_id in H2.
Qed.

(** *** The report *)

Definition ancestor_text (pid : Z) (is_owner : bool) : string :=
  "PID " +:+ fmt_d pid +:+ " is in an ancestor user namespace" +:+
  (if is_owner then " and its effective UID matches" +:+ nl
   else ", but its effective UID does not match" +:+ nl) +:+
  "the owner of the immediate child user namespace of that ancestor namespace." +:+ nl +:+
  (if is_owner
   then "Therefore, subject to LSM checks, it has all capabilities in the target" +:+ nl +:+
        "namespace!" +:+ nl
   else "Therefore, subject to LSM checks, it has only the capabilities that are in its" +:+ nl +:+
        "sets, which are:" +:+ nl +:+ nl).

(** The text for a process of user namespace [s] and effective user [euid], and
    the target [t]. *)
Inductive says (s t : Ns) (euid pid : Z) : string → Prop :=
| says_in caps :
    s = t → caps_text pid = Some caps →
    says s t euid pid (in_target_text pid +:+ caps_line caps)
| says_no_ancestor :
    s ≠ t → (∀ c, ¬ above s t c) → says s t euid pid (not_ancestor_text pid)
| says_owner c :
    s ≠ t → above s t c → owner c = euid → says s t euid pid (ancestor_text pid true)
| says_ancestor c caps :
    s ≠ t → above s t c → owner c ≠ euid → caps_text pid = Some caps →
    says s t euid pid (ancestor_text pid false +:+ caps_line caps).

Lemma report_ancestor_post D o m s pid b :
  (caps_text pid = None → lost) → st D o m s →
  post (report_ancestor pid b) s
    (λ _ s', if b then st D (o +:+ ancestor_text pid true) m s'
             else ∃ caps, caps_text pid = Some caps ∧
                    st D (o +:+ ancestor_text pid false +:+ caps_line caps) m s') (λ _, lost).
Proof.
  intros Hcaps Hs. unfold report_ancestor, ancestor_text.
  eapply post_seq; [by apply printf_post|]. intros ? s1 H1. simpl in H1.
  destruct b;
    (eapply post_seq; [by apply printf_post|]; intros ? s2 H2; simpl in H2;
     eapply post_seq; [by apply printf_post|]; intros ? s3 H3; simpl in H3).
  - eapply post_mono; [by apply printf_post| |done]. intros ? s4 H4.
    rewrite !append_assoc in H4. rewrite !append_assoc. exact H4.
  - eapply post_seq; [by apply printf_post|]. intros ? s4 H4. simpl in H4.
    eapply post_mono; [by apply display_post| |done]. intros ? s5 (caps & Hc & H5).
    exists caps. split; [done|]. rewrite !append_assoc in H5. rewrite !append_assoc. exact H5.
Qed.

Lemma owner_matches_post euid_first D o m s pid child c u :
  st D o m s → m !! child = Some (OUser c) →
  (status_text (status_path pid) = None → lost) →
  (∀ t, status_text (status_path pid) = Some t → uid_line t u) →
  post (owner_matches euid_first pid child) s
    (λ b s', b = (to_unsigned 32 u =? owner c) ∧ st D o m s') (λ _, lost).
Proof.
  intros Hs Hc Hno Hu.
  assert (Huid : ∀ s1, st D o m s1 → post (uid_of_userns child) s1
    (λ uid s', uid = owner c ∧ st D o m s') (λ _, lost)).
  { intros s1 H1. eapply post_mono;
      [apply (checked_post _ _ _ D o m s1 (λ u m1, u = owner c ∧ m1 = m) H1)| |done].
    - intros es. unfold with_fd. simpl. by rewrite Hc.
    - by intros uid s2 (? & [-> ->] & H2). }
  unfold owner_matches. destruct euid_first.
  - eapply post_seq; [by eapply euid_post|]. intros e s1 [-> H1].
    eapply post_seq; [by apply Huid|]. intros uid s2 [-> H2]. by apply post_ret.
  - eapply post_seq; [by apply Huid|]. intros uid s1 [-> H1].
    eapply post_seq; [by eapply euid_post|]. intros e s2 [-> H2]. by apply post_ret.
Qed.

(** What lies between the opening and the closing of the two descriptors. *)
Lemma middle_post euid_first fuel D o m s pid sf tf src tgt u :
  st D o m s → m !! sf = Some (OUser src) → m !! tf = Some (OUser tgt) → 0 <= tf →
  (depth tgt < fuel)%nat →
  (status_text (status_path pid) = None ∨ caps_text pid = None → lost) →
  (∀ t, status_text (status_path pid) = Some t → uid_line t u) →
  post (same ← ns_equal sf tf;
        if (same : bool) then printf (in_target_text pid);; display_process_capabilities pid
        else
          child_userns ← is_ancestor_userns fuel sf tf;
          if child_userns =? -1 then printf (not_ancestor_text pid)
          else
            is_owner ← owner_matches euid_first pid child_userns;
            report_ancestor pid is_owner;;
            when (negb (child_userns =? tf)) (close "close-child_userns" child_userns)) s
    (λ _ s', ∃ txt, says src tgt (to_unsigned 32 u) pid txt ∧ st D (o +:+ txt) m s') (λ _, lost).
Proof.
  intros Hs Hsf Htf Hpos Hfuel Hlost Hu.
  assert (Hstat : status_text (status_path pid) = None → lost) by auto.
  assert (Hcaps : caps_text pid = None → lost) by auto.
  eapply post_seq; [by eapply ns_equal_post|]. intros b s1 [Hb H1]. destruct b.
  { eapply post_seq; [by apply printf_post|]. intros ? s2 H2. simpl in H2.
    eapply post_mono; [by apply display_post| |done]. intros ? s3 (caps & Hc & H3).
    eexists. split; [by apply says_in; [apply Hb|]|]. by rewrite append_assoc. }
  assert (Hne : src ≠ tgt) by (intros E; apply Hb in E; done).
  eapply post_seq; [eapply (is_ancestor_loop D o m sf tf src tgt Hsf Htf Hpos fuel tf tgt m s1);
    [done|by left|done]|].
  intros r s2 [(-> & Hno & H2)|(Hr & c & m' & Hab & Hw & H2)].
  { eapply post_mono; [by apply printf_post| |done]. intros ? s3 H3.
    eexists. split; [by apply says_no_ancestor|exact H3]. }
  rewrite (proj2 (Z.eqb_neq _ _)) by done.
  eapply post_seq; [eapply owner_matches_post; [exact H2| |done..]|].
  { by rewrite (proj1 (walk_lookup m sf tf src tgt Hsf Htf _ _ _ Hw)). }
  intros is_owner s4 [-> H4].
  eapply post_seq; [by apply report_ancestor_post|]. intros ? s5 H5.
  assert (Hend : ∃ txt, says src tgt (to_unsigned 32 u) pid txt ∧ st D (o +:+ txt) m' s5).
  { destruct (Z.eqb_spec (to_unsigned 32 u) (owner c)) as [E|E]; simpl in H5.
    - eexists. split; [by eapply says_owner|exact H5].
    - destruct H5 as (caps & Hc & H5). eexists. split; [eapply says_ancestor; eauto|exact H5]. }
  destruct Hend as (txt & Hsays & Hst).
  eapply post_mono; [by eapply (walk_close D _ m tf tgt)| |done]. intros ? s6 H6. by exists txt.
Qed.

End facts.

Section spec.
Context {L : Libc} {Ns : Type} `{!NsSystem Ns} {depth : Ns → nat} `{!NsLaws Ns depth}.
Local Abbreviation state := (pst unit ns_call (kernel Ns)).

End spec.

(** *** A concrete system *)

(** User namespaces 0, 1, 2 and so on, each the parent of the next.  Process 10
    is in the first, with effective user 1000; [/proc/20/ns/net] is owned by
    the third. *)
Definition demo_name : string := "Name:" +:+ String tab "sh".
Definition demo_uids : string :=
  "Uid:" +:+ String tab "0" +:+ String tab "1000" +:+ String tab "0" +:+ String tab "0".
Definition demo_status : string := (demo_name +:+ nl) +:+ ((demo_uids +:+ nl) +:+ "").

Definition demo_fresh {X} (m : gmap Z X) : Z := foldr Z.max 0 (map_to_list m).*1 + 1.

#[global] Instance demo_ns : NsSystem nat := {|
  parent n := match n with O => None | S n => Some n end;
  owner n := if (n =? 1)%nat then 1000 else 0;
  file_object p :=
    if bool_decide (p = "/proc/10/ns/user") then Some (OUser 0%nat)
    else if bool_decide (p = "/proc/20/ns/net") then Some (OOther CLONE_NEWNET 2%nat) else None;
  st_id ob := (4, match ob with OUser n => Z.of_nat n | _ => -1 end);
  status_text p := if bool_decide (p = "/proc/10/status") then Some demo_status else None;
  caps_text _ := Some "=";
  fresh_fd := demo_fresh
|}.

Lemma foldr_max_le (l : list Z) x : x ∈ l → x <= foldr Z.max 0 l.
Proof. induction 1; simpl; lia. Qed.
Lemma foldr_max_pos (l : list Z) : 0 <= foldr Z.max 0 l.
Proof. induction l; simpl; lia. Qed.

#[global] Instance demo_ns_laws : NsLaws nat (λ n, n).
Proof.
  split.
  - intros n m [= H]. lia.
  - intros m. simpl. unfold demo_fresh. pose proof (foldr_max_pos (map_to_list m).*1). split; [|lia].
    destruct (m !! _) as [x|] eqn:E; [|done]. exfalso.
    apply elem_of_map_to_list, (list_elem_of_fmap_2 fst) in E.
    apply foldr_max_le in E. simpl in E. lia.
  - intros [|n] p [= ->]. lia.
Qed.

#[global] Instance demo_libc : Libc := {| strerror _ := "error"; io_errno e := e |}.
Definition demo_ns_state : pst unit ns_call (kernel nat) :=
  Pst (Proc 0 [] "" "" []) tt [] (Kernel ∅ []).

Example ns_capable_example :
  delivered (main true 5 ["ns_capable"; "10"; "/proc/20/ns/net"] demo_ns_state).2.(pr) =
  [(Sout, ancestor_text 10 true)].
Proof. vm_compute. reflexivity. Qed.

Lemma demo_uid_line : uid_line demo_status 1000.
Proof.
  apply uid_later; [|reflexivity|apply uid_here; [|reflexivity|reflexivity]].
  - exists demo_name. split_and!; [done|reflexivity|apply Nat.ltb_lt; reflexivity].
  - exists demo_uids. split_and!; [done|reflexivity|apply Nat.ltb_lt; reflexivity].
Qed.

