(* ===== verification/ThreadIncr.v ===== *)
(** Two threads incrementing a shared counter.

    [threads/thread_incr.c], [thread_incr_mutex.c], [thread_incr_spinlock.c],
    [thread_incr_rwlock.c], [ythread_incr.c], [ythread_incr_mutex.c],
    [psem/thread_incr_psem.c] and [psem/ythread_incr_psem.c], with the wrappers
    of [threads/pthread_wrappers.c] and [psem/psem_wrappers.c] they call.

    The programs differ in the lock they use, in how they check the calls and in
    what [main] prints.  The lock is an interface ([Lock]): what a free and a
    held lock do when a thread takes or gives it up.  The theorems about the
    locked programs are proved from the interface; mutexes, spin locks,
    read-write locks and semaphores of value 1 are its instances. *)
From stdpp Require Import relations.
From S2P Require Import Prelude CLib GetNum Conc.
Local Open Scope Z_scope.

(** ** The lock interface *)

(** What a call that takes or releases a lock does. *)
Inductive lock_result (K : Type) := LOk (k : K) | LBlocks | LError (e : Z).
Arguments LOk {K}.
Arguments LBlocks {K}.
Arguments LError {K}.

Class Lock (K : Type) := {
  lock_init : K;
  acquire : nat → K → lock_result K;
  release : nat → K → lock_result K;
  (* the lock is free, or held by the given thread *)
  held_by : option nat → K → Prop;
  lock_init_free : held_by None lock_init;
  acquire_free t k : held_by None k → ∃ k', acquire t k = LOk k' ∧ held_by (Some t) k';
  acquire_held t u k : held_by (Some u) k → acquire t k = LBlocks;
  release_held t k : held_by (Some t) k → ∃ k', release t k = LOk k' ∧ held_by None k'
}.

(** A mutex or a spin lock: its owner, if any.  Unlocking by a thread that does
    not own it is an error. *)
Definition EPERM_ : Z := 1.
#[refine, global] Instance mutex_lock : Lock (option nat) := {|
  lock_init := None;
  acquire t k := match k with None => LOk (Some t) | Some _ => LBlocks end;
  release t k := if decide (k = Some t) then LOk None else LError EPERM_;
  held_by o k := k = o
|}.
Proof. all: intros; simplify_eq/=; rewrite ?decide_True by done; eauto. Defined.

(** A read-write lock: a writer, or a number of readers. *)
Inductive rwlock := Writer (t : nat) | Readers (n : nat).
#[refine, global] Instance rw_lock : Lock rwlock := {|
  lock_init := Readers 0;
  acquire t k := match k with Readers O => LOk (Writer t) | _ => LBlocks end;
  release t k :=
    match k with
    | Writer u => if decide (u = t) then LOk (Readers 0) else LError EPERM_
    | Readers (S n) => LOk (Readers n)
    | Readers O => LError EPERM_
    end;
  held_by o k := k = match o with Some t => Writer t | None => Readers 0 end
|}.
Proof. all: intros; simplify_eq/=; rewrite ?decide_True by done; eauto. Defined.

(** A semaphore initialised to 1.  It has no owner; it is held when its value
    is 0. *)
#[refine, global] Instance sem_lock : Lock nat := {|
  lock_init := 1%nat;
  acquire t k := match k with O => LBlocks | S n => LOk n end;
  release t k := LOk (S k);
  held_by o k := k = match o with Some _ => O | None => 1%nat end
|}.
Proof. all: intros; simplify_eq/=; eauto. Defined.

(** ** The programs *)

(** The actions on shared data: the lock, the counter, thread creation and
    joining, and standard output. *)
Inductive label := Main (loops : Z) | For (loops j : Z).
Inductive action :=
| ALock | AUnlock | AInit
| ALoad | AStore (v : Z)
| ACreate (l : label) | AJoin (tid : Z)
| APrint (t : string).

(** Shared memory, the lock, the output so far, and the status each of the
    calls that may fail is going to give (none left means success). *)
Record shared (K : Type) := Shared {
  glob : Z;
  lck : K;
  out : string;
  statuses : list Z
}.
Arguments Shared {K}.
Arguments glob {K}.
Arguments lck {K}.
Arguments out {K}.
Arguments statuses {K}.

Local Abbreviation prog := (code action label).

Definition pop_status {K} (w : shared K) : Z * shared K :=
  match w.(statuses) with
  | [] => (0, w)
  | s :: l => (s, Shared w.(glob) w.(lck) w.(out) l)
  end.

Definition set_lock {K} (k : K) (w : shared K) : shared K :=
  Shared w.(glob) k w.(out) w.(statuses).

(** The results are those of the [pthread] functions, an error number or 0; a
    creation gives the new thread's number, or the error number negated. *)
Definition do_action {K} `{Lock K} (i : nat) (ret : list bool) (a : action)
    (w : shared K) : outcome label (shared K) :=
  match a with
  | ALock => match acquire i w.(lck) with
             | LOk k => Val 0 (set_lock k w)
             | LBlocks => Blocked
             | LError e => Val e w
             end
  | AUnlock => match release i w.(lck) with
               | LOk k => Val 0 (set_lock k w)
               | LBlocks => Blocked
               | LError e => Val e w
               end
  | AInit => let '(s, w) := pop_status w in
             Val s (if s =? 0 then set_lock lock_init w else w)
  | ALoad => Val w.(glob) w
  | AStore v => Val 0 (Shared v w.(lck) w.(out) w.(statuses))
  | ACreate l => let '(s, w) := pop_status w in
                 if s =? 0 then Spawn l w else Val (- s) w
  | AJoin t => if nth (Z.to_nat t) ret false
               then let '(s, w) := pop_status w in Val s w else Blocked
  | APrint t => Val 0 (Shared w.(glob) w.(lck) (w.(out) +:+ t) w.(statuses))
  end.

(** *** Checked calls *)

(** [s = pthread_create(&t, NULL, f, &loops); if (s != 0) nmsysErr(s, msg);],
    giving [t]. *)
Definition create_checked (msg : string) (l : label) : prog Z :=
  t ← act (ACreate l); if t <? 0 then End (Failed (- t) msg) else mret t.
(** A call that gives an error number, or -1 with the number in [errno]. *)
Definition checked (msg : string) (a : action) : prog unit :=
  s ← act a; check_status s msg.

Definition Pthread_create : label → prog Z := create_checked "pthread_create() failed".
Definition Pthread_join (t : Z) : prog unit := checked "pthread_join() failed" (AJoin t).
Definition Pthread_mutex_lock : prog unit := checked "pthread_mutex_lock() failed" ALock.
Definition Pthread_mutex_unlock : prog unit :=
  checked "pthread_mutex_unlock() failed" AUnlock.
Definition Sem_Wait : prog unit := checked "Sem_Wait() failed" ALock.
Definition Sem_Post : prog unit := checked "Sem_Post() failed" AUnlock.
Definition Sem_Init : prog unit := checked "Sem_Init() failed" AInit.

(** [loc = glob; loc++; glob = loc;] with the overflow of [loc++]. *)
Definition increment : prog unit :=
  loc ← act ALoad;
  if loc =? INT_MAX then End Undefined
  else _ ← act (AStore (loc + 1)); mret tt.

(** [printf("glob = %d\n", glob); exit(EXIT_SUCCESS);] *)
Definition print_glob : prog unit :=
  g ← act ALoad;
  _ ← act (APrint ("glob = " +:+ fmt_d g +:+ nl)); End (Exited EXIT_SUCCESS).

(** [if (glob == 2 * n) printf(ok, glob); else printf(bad, glob); exit(...);] *)
Definition verdict (ok bad : string) (n : Z) : prog unit :=
  g ← act ALoad;
  if INT_MAX <? 2 * n then End Undefined
  else
    g' ← act ALoad;
    _ ← act (APrint ((if g =? 2 * n then ok else bad) +:+ fmt_d g' +:+ nl));
    End (Exited EXIT_SUCCESS).

(** The first argument, if there is one, as [main] of the programs reads it. *)
Definition loops_arg (name : string) (dflt : Z) (argv : list string) : M nst Z :=
  match argv with
  | _ :: a :: _ => getInt (Some a) GN_GT_0 (Some name)
  | _ => mret dflt
  end.

(** *** The files

    [threadFunc loops j] is the loop of the thread function at its test with
    [j]; [main loops] is [main] once [loops] is known. *)

Module thread_incr.
Definition threadFunc (loops j : Z) : prog unit :=
  if j <? loops then _ ← increment; Goto (For loops (j + 1)) else mret tt.
Definition main (loops : Z) : prog unit :=
  t1 ← create_checked "pthread_create" (For loops 0);
  t2 ← create_checked "pthread_create" (For loops 0);
  _ ← checked "pthread_join" (AJoin t1);
  _ ← checked "pthread_join" (AJoin t2);
  print_glob.
Definition loops := loops_arg "num-loops" 10000000.
End thread_incr.

Module ythread_incr.
Definition thread_routine (iterNum i : Z) : prog unit :=
  if i <? iterNum then _ ← increment; Goto (For iterNum (i + 1)) else mret tt.
Definition main (iterNum : Z) : prog unit :=
  tid1 ← Pthread_create (For iterNum 0);
  tid2 ← Pthread_create (For iterNum 0);
  _ ← Pthread_join tid1;
  _ ← Pthread_join tid2;
  verdict "OK   : " "BOOM!: " iterNum.
Definition loops := loops_arg "iters_num" 10000000.
End ythread_incr.

Module thread_incr_mutex.
Definition threadFunc (loops j : Z) : prog unit :=
  if j <? loops then
    _ ← checked "pthread_mutex_lock" ALock;
    _ ← increment;
    _ ← checked "pthread_mutex_unlock" AUnlock;
    Goto (For loops (j + 1))
  else mret tt.
Definition main (loops : Z) : prog unit :=
  t1 ← create_checked "pthread_create" (For loops 0);
  t2 ← create_checked "pthread_create" (For loops 0);
  _ ← checked "pthread_join" (AJoin t1);
  _ ← checked "pthread_join" (AJoin t2);
  print_glob.
Definition loops := loops_arg "num-loops" 10000000.
End thread_incr_mutex.

Module ythread_incr_mutex.
Definition threadFunc (loops j : Z) : prog unit :=
  if j <? loops then
    _ ← Pthread_mutex_lock;
    _ ← increment;
    _ ← Pthread_mutex_unlock;
    Goto (For loops (j + 1))
  else mret tt.
Definition main (loops : Z) : prog unit :=
  t1 ← Pthread_create (For loops 0);
  t2 ← Pthread_create (For loops 0);
  _ ← Pthread_join t1;
  _ ← Pthread_join t2;
  print_glob.
Definition loops := loops_arg "num-loops" 10000000.
End ythread_incr_mutex.

Module thread_incr_spinlock.
Definition threadFunc (loops j : Z) : prog unit :=
  if j <? loops then
    _ ← checked "pthread_spin_lock" ALock;
    _ ← increment;
    _ ← checked "pthread_spin_unlock" AUnlock;
    Goto (For loops (j + 1))
  else mret tt.
Definition main (loops : Z) : prog unit :=
  _ ← checked "pthread_spin_init" AInit;
  t1 ← create_checked "pthread_create" (For loops 0);
  t2 ← create_checked "pthread_create" (For loops 0);
  _ ← checked "pthread_join" (AJoin t1);
  _ ← checked "pthread_join" (AJoin t2);
  print_glob.
Definition loops := loops_arg "num-loops" 10000000.
End thread_incr_spinlock.

Module thread_incr_rwlock.
Definition threadFunc (loops j : Z) : prog unit :=
  if j <? loops then
    _ ← checked "pthread_rwlock_wrlock" ALock;
    _ ← increment;
    _ ← checked "pthread_rwlock_unlock" AUnlock;
    Goto (For loops (j + 1))
  else mret tt.
Definition main (loops : Z) : prog unit :=
  _ ← checked "pthread_rwlock_init" AInit;
  t1 ← create_checked "pthread_create" (For loops 0);
  t2 ← create_checked "pthread_create" (For loops 0);
  _ ← checked "pthread_join" (AJoin t1);
  _ ← checked "pthread_join" (AJoin t2);
  print_glob.
Definition loops := loops_arg "num-loops" 10000000.
End thread_incr_rwlock.

Module thread_incr_psem.
Definition threadFunc (loops j : Z) : prog unit :=
  if j <? loops then
    _ ← checked "sem_wait" ALock;
    _ ← increment;
    _ ← checked "sem_post" AUnlock;
    Goto (For loops (j + 1))
  else mret tt.
Definition main (loops : Z) : prog unit :=
  _ ← checked "sem_init" AInit;
  t1 ← create_checked "pthread_create" (For loops 0);
  t2 ← create_checked "pthread_create" (For loops 0);
  _ ← checked "pthread_join" (AJoin t1);
  _ ← checked "pthread_join" (AJoin t2);
  print_glob.
Definition loops := loops_arg "num-loops" 10000000.
End thread_incr_psem.

Module ythread_incr_psem.
Definition threadRoutine (iterNum i : Z) : prog unit :=
  if i <? iterNum then
    _ ← Sem_Wait;
    _ ← increment;
    _ ← Sem_Post;
    Goto (For iterNum (i + 1))
  else mret tt.
Definition main (iterNum : Z) : prog unit :=
  _ ← Sem_Init;
  tid1 ← Pthread_create (For iterNum 0);
  tid2 ← Pthread_create (For iterNum 0);
  _ ← Pthread_join tid1;
  _ ← Pthread_join tid2;
  verdict ("OK!:" +:+ String tab "") ("BOOM:" +:+ String tab "") iterNum.
Definition loops := loops_arg "iter-num" 1000000.
End ythread_incr_psem.

(** ** The programs as systems *)

Definition incr_sys {K} `{Lock K} (main : Z → prog unit) (thread : Z → Z → prog unit) :
    Sys action label (shared K) := {|
  perform := do_action;
  body l := match l with Main n => main n | For n j => thread n j end;
  one_process := true
|}.

(** The process at its start, [n] iterations asked for. *)
Definition start {K} (n : Z) (k : K) (st : list Z) : config action label (shared K) :=
  Config [Goto (Main n)] (Shared 0 k "" st) None.

(** *** Sums over the threads *)

Lemma total_bound {A} (f : A → Z) l b :
  (∀ i x, l !! i = Some x → f x <= b) → total f l <= b * Z.of_nat (length l).
Proof.
  induction l as [|a l IH]; intros Hb; simpl; [lia|].
  pose proof (Hb 0%nat a eq_refl). specialize (IH (λ i, Hb (S i))). lia.
Qed.

(** One member below the bound leaves that much room in the sum. *)
Lemma total_le {A} (f : A → Z) l i x b :
  l !! i = Some x → (∀ i x, l !! i = Some x → f x <= b) →
  total f l <= f x + b * (Z.of_nat (length l) - 1).
Proof.
  revert i. induction l as [|a l IH]; intros i Hi Hb; [done|].
  pose proof (Hb 0%nat a eq_refl). destruct i as [|i]; simplify_eq/=.
  - pose proof (total_bound f l b (λ i, Hb (S i))). lia.
  - specialize (IH i Hi (λ i, Hb (S i))). lia.
Qed.

(** ** Every lock *)

Section locked.
Context {K : Type} `{HK : Lock K}.
Context (mlock munlock mcreate mjoin : string).
Context (minit : option string) (rep : option (string * string)).

Definition thread_code (n j : Z) : prog unit :=
  if j <? n then
    _ ← checked mlock ALock; _ ← increment; _ ← checked munlock AUnlock;
    Goto (For n (j + 1))
  else mret tt.
Definition report_code (n : Z) : prog unit :=
  match rep with None => print_glob | Some (ok, bad) => verdict ok bad n end.
Definition join2_code n (t2 : Z) : prog unit :=
  _ ← checked mjoin (AJoin t2); report_code n.
Definition join1_code n (t1 t2 : Z) : prog unit :=
  _ ← checked mjoin (AJoin t1); join2_code n t2.
Definition create2_code n (t1 : Z) : prog unit :=
  t2 ← create_checked mcreate (For n 0); join1_code n t1 t2.
Definition create1_code n : prog unit :=
  t1 ← create_checked mcreate (For n 0); create2_code n t1.
Definition main_code n : prog unit :=
  match minit with Some m => _ ← checked m AInit; create1_code n | None => create1_code n end.

Local Instance locked_sys : Sys action label (shared K) := incr_sys main_code thread_code.

Variable n : Z.
Hypothesis Hn : 0 < n.
Hypothesis Hmax : 2 * n <= INT_MAX.

(** What [main] prints when the counter is [2 * n]. *)
Definition expected : string :=
  match rep with
  | None => "glob = " +:+ fmt_d (2 * n) +:+ nl
  | Some (ok, _) => ok +:+ fmt_d (2 * n) +:+ nl
  end.

(** *** Control points *)

Inductive tpc :=
| TFor (j : Z) | TLock (j : Z) | TLoad (j : Z) | TStore (j v : Z) | TUnlock (j : Z) | TRet.

Definition after_unlock (j : Z) : prog unit := Goto (For n (j + 1)).
Definition at_unlock (j : Z) : prog unit := _ ← checked munlock AUnlock; after_unlock j.
Definition at_load (j : Z) : prog unit := _ ← increment; at_unlock j.

Definition tcode (p : tpc) : prog unit :=
  match p with
  | TFor j => Goto (For n j)
  | TLock j => _ ← checked mlock ALock; at_load j
  | TLoad j => at_load j
  | TStore j v => Act (AStore v) (λ _, at_unlock j)
  | TUnlock j => at_unlock j
  | TRet => Ret tt
  end.

Inductive mpc :=
| MStart | MInit | MCreate1 | MCreate2 | MJoin1 | MJoin2
| MLoad | MLoad2 | MPrint | MEnd | MFail (e : Z) (msg : string).

Definition mcode (p : mpc) : prog unit :=
  match p with
  | MStart => Goto (Main n)
  | MInit => main_code n
  | MCreate1 => create1_code n
  | MCreate2 => create2_code n 1
  | MJoin1 => join1_code n 1 2
  | MJoin2 => join2_code n 2
  | MLoad => report_code n
  | MLoad2 =>
      match rep with
      | None => End Undefined
      | Some (ok, bad) => Act ALoad (λ g', Act (APrint (ok +:+ fmt_d g' +:+ nl))
                                               (λ _, End (Exited EXIT_SUCCESS)))
      end
  | MPrint => Act (APrint expected) (λ _, End (Exited EXIT_SUCCESS))
  | MEnd => End (Exited EXIT_SUCCESS)
  | MFail e msg => End (Failed e msg)
  end.

(** Iterations whose store was made. *)
Definition tdone (p : tpc) : Z :=
  match p with
  | TFor j | TLock j | TLoad j | TStore j _ => j
  | TUnlock j => j + 1
  | TRet => n
  end.
Definition critical (p : tpc) : bool :=
  match p with TLoad _ | TStore _ _ | TUnlock _ => true | _ => false end.

(** How many threads [main] has created, and how many it has joined. *)
Definition created (p : mpc) (c : nat) : Prop :=
  match p with
  | MStart | MInit | MCreate1 => c = 0%nat
  | MCreate2 => c = 1%nat
  | MFail _ _ => (c <= 2)%nat
  | _ => c = 2%nat
  end.
Definition joined (p : mpc) : nat :=
  match p with
  | MJoin2 => 1
  | MLoad | MLoad2 | MPrint | MEnd => 2
  | _ => 0
  end.

Definition tpc_ok (g : Z) (p : tpc) : Prop :=
  match p with
  | TFor j => 0 <= j <= n
  | TLock j | TLoad j | TUnlock j => 0 <= j < n
  | TStore j v => 0 <= j < n ∧ v = g + 1
  | TRet => True
  end.

(** The lock is held by the thread that is in its critical section and by no
    other. *)
Definition exclusive (k : K) (ts : list tpc) : Prop :=
  ∃ o, held_by o k ∧ (∀ u, o = Some u → ∃ i, u = S i ∧ (i < length ts)%nat) ∧
    ∀ i p, ts !! i = Some p → (critical p = true ↔ o = Some (S i)).

(** Before [main] initialises the lock only static initialisation is known. *)
Definition lock_ok (m : mpc) (k : K) (ts : list tpc) : Prop :=
  match m with
  | MStart | MInit => minit = None → held_by None k
  | MFail _ _ => ts ≠ [] → exclusive k ts
  | _ => exclusive k ts
  end.

Definition out_at (m : mpc) : string := match m with MEnd => expected | _ => "" end.

Definition point_ok (st0 : list Z) (m : mpc) : Prop :=
  match m with
  | MFail e _ => e ≠ 0 ∧ e ∈ st0
  | MInit => minit ≠ None
  | MLoad2 => rep ≠ None
  | _ => True
  end.

(** *** The invariant *)

(** The threads are at control points with the counter equal to the stores they
    made; [main] has created and joined the threads its own point says. *)
Record inv (st0 : list Z) (w : shared K) (m : mpc) (ts : list tpc) : Prop := {
  inv_created : created m (length ts);
  inv_joined i : (i < joined m)%nat → ts !! i = Some TRet;
  inv_glob : w.(glob) = total tdone ts;
  inv_ok i p : ts !! i = Some p → tpc_ok w.(glob) p;
  inv_lock : lock_ok m w.(lck) ts;
  inv_out : w.(out) = out_at m;
  inv_statuses : w.(statuses) ⊆ st0;
  inv_point : point_ok st0 m
}.

(** The pool that is at the given control points. *)
Definition conf (m : mpc) (ts : list tpc) (w : shared K) :=
  Config (mcode m :: (tcode <$> ts)) w None.

Definition trank (p : tpc) : Z :=
  match p with
  | TFor j => 5 * (n - j) + 1
  | TLock j => 5 * (n - j)
  | TLoad j => 5 * (n - j) - 1
  | TStore j _ => 5 * (n - j) - 2
  | TUnlock j => 5 * (n - j) - 3
  | TRet => 0
  end.

Lemma exclusive_one k ts i j p q :
  exclusive k ts → ts !! i = Some p → critical p = true →
  ts !! j = Some q → critical q = true → i = j.
Proof.
  intros (o & _ & _ & Ho) Hi Hp Hj Hq. apply (Ho i p Hi) in Hp. apply (Ho j q Hj) in Hq. congruence.
Qed.

Lemma exclusive_same k ts i p p' :
  exclusive k ts → ts !! i = Some p → critical p' = critical p →
  exclusive k (<[i := p']> ts).
Proof.
  intros (o & Ho & Hu & Hc) Hi E. exists o; split; [done|].
  rewrite length_insert. split; [done|]. intros j q Hj.
  destruct (decide (i = j)) as [->|Hne].
  - rewrite list_lookup_insert_eq in Hj by by eapply lookup_lt_Some. simplify_eq.
    rewrite E. by apply Hc.
  - rewrite list_lookup_insert_ne in Hj by done. by apply Hc.
Qed.

(** Taking the lock succeeds when no thread is in its critical section. *)
Lemma exclusive_acquire k ts i p p' :
  exclusive k ts → ts !! i = Some p → critical p = false → critical p' = true →
  acquire (S i) k = LBlocks ∨
  ∃ k', acquire (S i) k = LOk k' ∧ exclusive k' (<[i := p']> ts).
Proof.
  intros (o & Ho & Hu & Hc) Hi Hp Hp'. destruct o as [u|].
  { left. by eapply acquire_held. }
  right. destruct (acquire_free (S i) k Ho) as (k' & -> & Hk'). exists k'; split; [done|].
  exists (Some (S i)); split; [done|]. rewrite length_insert. split.
  { intros u [= <-]. exists i. split; [done|by eapply lookup_lt_Some]. }
  intros j q Hj.
  destruct (decide (i = j)) as [->|Hne].
  - rewrite list_lookup_insert_eq in Hj by by eapply lookup_lt_Some. by simplify_eq.
  - rewrite list_lookup_insert_ne in Hj by done. rewrite (Hc j q Hj). by split; intros; simplify_eq.
Qed.

Lemma exclusive_release k ts i p p' :
  exclusive k ts → ts !! i = Some p → critical p = true → critical p' = false →
  ∃ k', release (S i) k = LOk k' ∧ exclusive k' (<[i := p']> ts).
Proof.
  intros (o & Ho & Hu & Hc) Hi Hp Hp'. pose proof Hp as Hp1. apply (Hc i p Hi) in Hp1 as ->.
  destruct (release_held (S i) k Ho) as (k' & -> & Hk'). exists k'; split; [done|].
  exists None; split; [done|]. split; [done|]. intros j q Hj. destruct (decide (i = j)) as [->|Hne].
  - rewrite list_lookup_insert_eq in Hj by by eapply lookup_lt_Some. simplify_eq.
    rewrite Hp'. done.
  - rewrite list_lookup_insert_ne in Hj by done. rewrite (Hc j q Hj).
    by split; intros; simplify_eq.
Qed.

Lemma lock_ok_exclusive m k ts i p :
  created m (length ts) → ts !! i = Some p → lock_ok m k ts → exclusive k ts.
Proof. destruct m, ts; simpl; try done; intros _ _ H; by apply H. Qed.

Lemma exclusive_lock_ok m k ts i p :
  created m (length ts) → ts !! i = Some p → exclusive k ts → lock_ok m k ts.
Proof. destruct m, ts; simpl; by intros. Qed.

(** A thread moves to another control point. *)
Lemma inv_move st0 w m ts i p p' w' :
  inv st0 w m ts → ts !! i = Some p → p ≠ TRet →
  w'.(glob) = w.(glob) - tdone p + tdone p' →
  (w'.(glob) = w.(glob) ∨ critical p = true) →
  tpc_ok w'.(glob) p' → exclusive w'.(lck) (<[i := p']> ts) →
  w'.(out) = w.(out) → w'.(statuses) = w.(statuses) →
  inv st0 w' m (<[i := p']> ts).
Proof.
  intros HI Hi Hp Hg Hs Hok Hex Ho Hst. pose proof (lookup_lt_Some _ _ _ Hi) as Hlt.
  pose proof (lock_ok_exclusive _ _ _ _ _ (inv_created _ _ _ _ HI) Hi (inv_lock _ _ _ _ HI)) as Hex0.
  split.
  - rewrite length_insert. apply HI.
  - intros j Hj. pose proof (inv_joined _ _ _ _ HI j Hj) as Hj'.
    rewrite list_lookup_insert_ne; [done|]. intros ->. congruence.
  - rewrite (total_insert _ _ _ _ _ Hi). rewrite Hg. rewrite (inv_glob _ _ _ _ HI). lia.
  - intros j q Hj. destruct (decide (i = j)) as [->|Hne].
    { rewrite list_lookup_insert_eq in Hj by done. by simplify_eq. }
    rewrite list_lookup_insert_ne in Hj by done.
    pose proof (inv_ok _ _ _ _ HI j q Hj) as Hq. destruct Hs as [->|Hc]; [done|].
    destruct q; try done. exfalso. apply Hne. by eapply exclusive_one.
  - eapply exclusive_lock_ok; [|by apply list_lookup_insert_eq|done].
    rewrite length_insert. apply HI.
  - rewrite Ho. apply HI.
  - rewrite Hst. apply HI.
  - apply HI.
Qed.

Lemma tdone_le g p : tpc_ok g p → tdone p <= n.
Proof. destruct p; simpl; lia. Qed.

Lemma created_le m c : created m c → (c <= 2)%nat.
Proof. destruct m; simpl; lia. Qed.

(** The counter leaves room for a thread that has an iteration to go. *)
Lemma glob_room st0 w m ts i p :
  inv st0 w m ts → ts !! i = Some p → tdone p < n → w.(glob) < INT_MAX.
Proof.
  intros HI Hi Hp. rewrite (inv_glob _ _ _ _ HI).
  pose proof (created_le _ _ (inv_created _ _ _ _ HI)).
  pose proof (total_le tdone ts i p n Hi) as H1.
  assert (total tdone ts <= tdone p + n * (Z.of_nat (length ts) - 1)) as H2.
  { apply H1. intros j q Hq. eapply tdone_le. by eapply HI. }
  nia.
Qed.

(** One step of a thread. *)
Lemma thread_step st0 w m ts i p c' :
  inv st0 w m ts → ts !! i = Some p → sched_step (S i) (conf m ts w) = Some c' →
  ∃ p' w', c' = conf m (<[i := p']> ts) w' ∧ inv st0 w' m (<[i := p']> ts) ∧
    0 <= trank p' < trank p.
Proof.
  intros HI Hi. unfold sched_step, conf. cbn [ended pool wld].
  change ((mcode m :: (tcode <$> ts)) !! S i) with ((tcode <$> ts) !! i).
  rewrite list_lookup_fmap, Hi. cbn [fmap option_fmap option_map].
  pose proof (inv_ok _ _ _ _ HI i p Hi) as Hok.
  pose proof (lock_ok_exclusive _ _ _ _ _ (inv_created _ _ _ _ HI) Hi (inv_lock _ _ _ _ HI)) as Hex.
  destruct p as [j|j|j|j v|j|]; cbn [tcode]; [..|done].
  - intros [= <-]. exists (if j <? n then TLock j else TRet), w.
    assert (Hb : thread_code n j = tcode (if j <? n then TLock j else TRet)).
    { unfold thread_code. by destruct (j <? n). }
    split; [by unfold conf; rewrite list_fmap_insert, <- Hb|].
    split; [|destruct (Z.ltb_spec j n); simpl in *; lia].
    eapply inv_move; try done.
    + destruct (Z.ltb_spec j n); simpl in *; lia.
    + by left.
    + destruct (Z.ltb_spec j n); simpl in *; [lia|done].
    + eapply exclusive_same; [done..|]. by destruct (j <? n).
  - destruct (exclusive_acquire (lck w) ts i (TLock j) (TLoad j)) as [E|(k' & E & Hk')];
      [done..| |]; cbn; rewrite E; [done|]. intros [= <-].
    exists (TLoad j), (set_lock k' w). split; [by unfold conf; rewrite list_fmap_insert|].
    split; [|simpl in *; lia]. eapply inv_move; try done; simpl in *; [lia|by left].
  - cbn. assert (E : (glob w =? INT_MAX) = false).
    { apply Z.eqb_neq. pose proof (glob_room _ _ _ _ _ _ HI Hi). simpl in *. lia. }
    rewrite E. intros [= <-].
    exists (TStore j (glob w + 1)), w. split; [by unfold conf; rewrite list_fmap_insert|].
    split; [|simpl in *; lia]. eapply inv_move; try done; simpl in *; [lia|by left|].
    by eapply exclusive_same.
  - intros [= <-]. destruct Hok as [Hj ->].
    exists (TUnlock j), (Shared (glob w + 1) w.(lck) w.(out) w.(statuses)).
    split; [by unfold conf; rewrite list_fmap_insert|].
    split; [|simpl in *; lia]. eapply inv_move; try done; simpl in *; [lia|by right|].
    by eapply exclusive_same.
  - destruct (exclusive_release (lck w) ts i (TUnlock j) (TFor (j + 1))) as (k' & E & Hk');
      [done..|]; cbn; rewrite E. intros [= <-].
    exists (TFor (j + 1)), (set_lock k' w). split; [by unfold conf; rewrite list_fmap_insert|].
    split; [|simpl in *; lia]. eapply inv_move; try done; simpl in *; [lia|by left|lia].
Qed.

Definition mrank (p : mpc) : Z :=
  match p with
  | MStart => 10 * n + 14
  | MInit => 10 * n + 13
  | MCreate1 => 10 * n + 12
  | MCreate2 => 5 * n + 10
  | MJoin1 => 8
  | MJoin2 => 7
  | MLoad => 6
  | MLoad2 => 5
  | MPrint => 4
  | MEnd | MFail _ _ => 1
  end.

(** [main] moves and the threads stay where they are. *)
Lemma inv_main_move st0 w m ts m' w' :
  inv st0 w m ts → created m' (length ts) →
  (∀ i, (i < joined m')%nat → ts !! i = Some TRet) →
  w'.(glob) = w.(glob) → lock_ok m' w'.(lck) ts → w'.(out) = out_at m' →
  w'.(statuses) ⊆ st0 → point_ok st0 m' → inv st0 w' m' ts.
Proof. intros HI ?? E ????. split; rewrite ?E; try done; apply HI. Qed.

Lemma pop_status_spec st0 (w : shared K) s w' :
  pop_status w = (s, w') → w.(statuses) ⊆ st0 →
  ∃ l, w' = Shared w.(glob) w.(lck) w.(out) l ∧ l ⊆ st0 ∧ (s ≠ 0 → s ∈ st0).
Proof.
  unfold pop_status. destruct w as [g k o [|s0 l]]; simpl; intros [= <- <-] Hsub; simpl;
    eexists; split_and!; [done..| |]; [set_solver|]. intros _. apply Hsub. by left.
Qed.

Lemma ret_true ts i p :
  ts !! i = Some p → nth i (returned <$> (tcode <$> ts)) false = true → p = TRet.
Proof.
  intros Hi H. rewrite <- list_fmap_compose in H. erewrite nth_lookup_Some in H.
  2:{ rewrite list_lookup_fmap, Hi. reflexivity. }
  by destruct p.
Qed.

(** What a step of [main] leads to: another control point with the invariant and
    a lower rank, or the end of the process. *)
Definition main_next (st0 : list Z) (m : mpc) (ts : list tpc) (w : shared K)
    (c' : config action label (shared K)) : Prop :=
  (∃ m' ts' w', c' = conf m' ts' w' ∧ inv st0 w' m' ts' ∧
     (∀ i p, ts' !! i = Some p → 0 <= trank p) ∧ 0 <= mrank m' ∧
     mrank m' + total trank ts' < mrank m + total trank ts) ∨
  (∃ h, c' = Config (pool (conf m ts w)) w (Some h) ∧ mcode m = End h).

Lemma trank_nonneg g p : tpc_ok g p → 0 <= trank p.
Proof. destruct p; simpl; lia. Qed.

Lemma main_next_move st0 m ts w m' w' :
  inv st0 w m ts → created m' (length ts) →
  (∀ i, (i < joined m')%nat → ts !! i = Some TRet) →
  w'.(glob) = w.(glob) → lock_ok m' w'.(lck) ts → w'.(out) = out_at m' →
  w'.(statuses) ⊆ st0 → point_ok st0 m' → mrank m' < mrank m →
  main_next st0 m ts w (conf m' ts w').
Proof.
  intros HI. intros. left. exists m', ts, w'. split; [done|].
  split; [by eapply inv_main_move|]. split_and!.
  - intros i p Hi. eapply trank_nonneg. by eapply HI.
  - destruct m'; simpl; lia.
  - lia.
Qed.

(** [main] reports a failed call. *)
Lemma main_next_fail st0 m ts w msg e w' :
  inv st0 w m ts → m ≠ MEnd → 1 < mrank m → e ≠ 0 → e ∈ st0 →
  w'.(glob) = w.(glob) → w'.(lck) = w.(lck) → w'.(out) = w.(out) → w'.(statuses) ⊆ st0 →
  main_next st0 m ts w (conf (MFail e msg) ts w').
Proof.
  intros HI Hm Hr He Hin Hg Hk Ho Hs. apply main_next_move; try done.
  - simpl. eapply created_le, HI.
  - simpl; intros; lia.
  - simpl. intros Hts. rewrite Hk. destruct ts as [|p ts]; [done|].
    eapply (lock_ok_exclusive m _ _ 0 p); [apply HI|done|apply HI].
  - rewrite Ho, (inv_out _ _ _ _ HI). by destruct m.
Qed.

Lemma conf_fold m ts w : Config (mcode m :: (tcode <$> ts)) w None = conf m ts w.
Proof. done. Qed.

(** [main] joins thread [i], the next to be joined. *)
Lemma main_join st0 m m' ts w i (f : prog unit) :
  inv st0 w m ts → mcode m = (_ ← checked mjoin (AJoin (Z.of_nat (S i))); f) →
  f = mcode m' → joined m = i → joined m' = S i → (i < length ts)%nat →
  m ≠ MEnd → 1 < mrank m → mrank m' < mrank m →
  (∀ c, created m c → created m' c) → (∀ k l, lock_ok m k l → lock_ok m' k l) →
  out_at m' = out_at m → point_ok st0 m' →
  ∀ c', sched_step 0 (conf m ts w) = Some c' → main_next st0 m ts w c'.
Proof.
  intros HI Hm -> Hj Hj' Hlt Hne Hr Hr' Hcr Hlk Ho Hf c'.
  unfold sched_step, conf. cbn [ended pool wld lookup list_lookup].
  rewrite Hm. cbn -[Z.of_nat nth returned pop_status].
  destruct (nth _ _ _) eqn:En; [|done].
  destruct (pop_status w) as [s w'] eqn:Ep. unfold check_status. intros [= <-].
  destruct (pop_status_spec st0 _ _ _ Ep) as (l & -> & Hst & Hin); [apply HI|].
  destruct (lookup_lt_is_Some_2 ts i Hlt) as [p Hp].
  rewrite Nat2Z.id in En. apply (ret_true ts i p Hp) in En as ->.
  destruct (Z.eqb_spec s 0) as [->|Hs]; cbn.
  - rewrite conf_fold. apply main_next_move; cbn; try done.
    + by apply Hcr, HI.
    + rewrite Hj'. intros k Hk. destruct (decide (k = i)) as [->|]; [done|].
      apply (inv_joined _ _ _ _ HI). lia.
    + by apply Hlk, HI.
    + rewrite Ho. apply HI.
  - change (End (Failed s mjoin)) with (mcode (MFail s mjoin)). rewrite conf_fold.
    apply main_next_fail; cbn; auto.
Qed.

(** [main] creates the next thread. *)
Lemma main_create st0 m m' ts w (f : Z → prog unit) :
  inv st0 w m ts → mcode m = (t ← create_checked mcreate (For n 0); f t) →
  f (Z.of_nat (S (length ts))) = mcode m' →
  1 < mrank m → mrank m' + trank (TFor 0) < mrank m → 0 <= mrank m' →
  m ≠ MEnd → Forall (Z.le 0) st0 →
  created m' (S (length ts)) → joined m' = 0%nat →
  (∀ k l, exclusive k l → lock_ok m' k l) → exclusive (lck w) ts →
  out_at m' = out_at m → point_ok st0 m' →
  ∀ c', sched_step 0 (conf m ts w) = Some c' → main_next st0 m ts w c'.
Proof.
  intros HI Hm Hf Hr Hr' Hp Hne Hpos Hcr Hj Hlk Hex Ho Hfo c'.
  unfold sched_step, conf. cbn [ended pool wld lookup list_lookup].
  rewrite Hm. cbn -[Z.of_nat nth returned pop_status Z.opp].
  destruct (pop_status w) as [s w'] eqn:Ep.
  destruct (pop_status_spec st0 _ _ _ Ep) as (l & -> & Hst & Hin); [apply HI|].
  destruct (Z.eqb_spec s 0) as [->|Hs]; intros [= <-].
  - left. exists m', (ts ++ [TFor 0]). eexists.
    assert (Hlen : total trank (ts ++ [TFor 0]) = total trank ts + trank (TFor 0)).
    { rewrite total_app. simpl. lia. }
    split_and!.
    + unfold conf. rewrite fmap_app. rewrite length_fmap, Hf. done.
    + split; cbn; try done.
      * rewrite length_app. simpl. by rewrite Nat.add_1_r.
      * rewrite Hj. intros; lia.
      * rewrite total_app, (inv_glob _ _ _ _ HI). simpl. lia.
      * intros i p [Hi|(Hi & <-)]%lookup_snoc_Some; [|simpl; lia].
        eapply HI. apply Hi.
      * apply Hlk. destruct Hex as (o & Hoo & Hu & Hc). exists o; split; [done|]. split.
        { intros u ->. destruct (Hu u eq_refl) as (i & -> & Hi). exists i.
          rewrite length_app. simpl. split; [done|lia]. }
        intros i p [[Hi Hip]|(-> & <-)]%lookup_snoc_Some; [by apply Hc|].
        split; [done|]. intros ->. destruct (Hu _ eq_refl) as (i & [= <-] & Hi). lia.
      * rewrite Ho. apply HI.
    + intros i p [[Hi Hip]|(-> & <-)]%lookup_snoc_Some; [|simpl; lia].
      eapply trank_nonneg. by eapply HI.
    + done.
    + lia.
  - assert (0 < s). { pose proof (proj1 (Forall_forall _ _) Hpos s (Hin Hs)). lia. }
    assert (Hlt : (- s <? 0) = true) by (apply Z.ltb_lt; lia).
    rewrite Hlt. cbn. rewrite Z.opp_involutive.
    change (End (Failed s mcreate)) with (mcode (MFail s mcreate)). rewrite conf_fold.
    apply main_next_fail; cbn; auto.
Qed.


Lemma created_2 m (ts : list tpc) : created m (length ts) → joined m = 2%nat →
  length ts = 2%nat.
Proof. by destruct m. Qed.

(** Both threads have returned: the counter has its final value. *)
Lemma glob_final st0 w m ts : inv st0 w m ts → joined m = 2%nat → w.(glob) = 2 * n.
Proof.
  intros HI Hj. pose proof (created_2 _ _ (inv_created _ _ _ _ HI) Hj) as Hl.
  pose proof (inv_joined _ _ _ _ HI 0%nat) as H0. pose proof (inv_joined _ _ _ _ HI 1%nat) as H1.
  rewrite (inv_glob _ _ _ _ HI). rewrite Hj in *.
  destruct ts as [|p [|q [|]]]; try done. simpl in *.
  specialize (H0 ltac:(lia)). specialize (H1 ltac:(lia)). simplify_eq. simpl. lia.
Qed.

Lemma exclusive_free k : held_by None k → exclusive k [].
Proof. intros Hk. exists None. by split_and!. Qed.

(** [main] after both joins. *)
Lemma main_report st0 m ts w c' :
  inv st0 w m ts → m = MLoad ∨ m = MLoad2 ∨ m = MPrint →
  sched_step 0 (conf m ts w) = Some c' → main_next st0 m ts w c'.
Proof.
  intros HI Hm. assert (Hj : joined m = 2%nat) by by destruct Hm as [->|[->| ->]].
  pose proof (glob_final _ _ _ _ HI Hj) as Hg. pose proof (inv_joined _ _ _ _ HI) as Hjn.
  pose proof (inv_statuses _ _ _ _ HI). pose proof (inv_out _ _ _ _ HI) as Ho.
  pose proof (inv_lock _ _ _ _ HI). pose proof (inv_created _ _ _ _ HI).
  assert (Hb : (INT_MAX <? 2 * n) = false) by (apply Z.ltb_ge; lia).
  unfold sched_step, conf. cbn [ended pool wld lookup list_lookup].
  destruct Hm as [->|[->| ->]]; cbn [mcode].
  - unfold report_code. destruct rep as [[ok bad]|] eqn:Er; cbn -[String.append fmt_d].
    + rewrite Hg, Hb, Z.eqb_refl. intros [= <-].
      assert (E : mcode MLoad2 = Act ALoad (λ g', Act (APrint (ok +:+ fmt_d g' +:+ nl))
                                      (λ _, End (Exited EXIT_SUCCESS)))) by (simpl; by rewrite Er).
      rewrite <- E, conf_fold. apply main_next_move; try done. simpl. congruence.
    + rewrite Hg. intros [= <-].
      assert (E : mcode MPrint = Act (APrint ("glob = " +:+ fmt_d (2 * n) +:+ nl))
                                     (λ _, End (Exited EXIT_SUCCESS)))
        by (cbn [mcode]; unfold expected; by rewrite Er).
      rewrite <- E, conf_fold. by apply main_next_move.
  - destruct rep as [[ok bad]|] eqn:Er; [|by destruct (inv_point _ _ _ _ HI)]. cbn -[String.append fmt_d]. rewrite Hg.
    intros [= <-].
    assert (E : mcode MPrint = Act (APrint (ok +:+ fmt_d (2 * n) +:+ nl))
                                   (λ _, End (Exited EXIT_SUCCESS)))
      by (cbn [mcode]; unfold expected; by rewrite Er).
    rewrite <- E, conf_fold. by apply main_next_move.
  - cbn -[String.append]. intros [= <-]. change (End (Exited EXIT_SUCCESS)) with (mcode MEnd).
    rewrite conf_fold. apply main_next_move; cbn; try done. by rewrite Ho.
Qed.

Lemma main_step st0 w m ts c' :
  Forall (Z.le 0) st0 → inv st0 w m ts → sched_step 0 (conf m ts w) = Some c' →
  main_next st0 m ts w c'.
Proof.
  intros Hpos HI Hs. pose proof (inv_statuses _ _ _ _ HI) as Hst.
  pose proof (inv_out _ _ _ _ HI) as Ho. pose proof (inv_lock _ _ _ _ HI) as Hlk.
  pose proof (inv_created _ _ _ _ HI) as Hcr.
  destruct m.
  - injection Hs as <-. destruct ts; [|done].
    destruct minit as [mi|] eqn:Emi.
    + apply (main_next_move st0 MStart [] w MInit); simpl; try done; try lia.
      congruence.
    + assert (E : main_code n = mcode MCreate1) by (unfold main_code; by rewrite Emi).
      cbn [body locked_sys incr_sys]. rewrite E.
      apply (main_next_move st0 MStart [] w MCreate1); simpl; try done; try lia.
      apply exclusive_free; auto.
  - destruct ts; [|done]. revert Hs. unfold sched_step, conf.
    cbn [ended pool wld lookup list_lookup mcode]. unfold main_code.
    destruct minit as [mi|] eqn:Emi; [|by destruct (inv_point _ _ _ _ HI)].
    cbn -[pop_status returned]. destruct (pop_status w) as [s w'] eqn:Ep.
    destruct (pop_status_spec st0 _ _ _ Ep) as (l & -> & Hl & Hin); [done|].
    unfold check_status. destruct (Z.eqb_spec s 0) as [->|Hne]; intros [= <-].
    + apply (main_next_move st0 MInit [] w MCreate1); simpl; try done; try lia.
      apply exclusive_free, lock_init_free.
    + apply (main_next_fail st0 MInit [] w mi s); simpl; auto. lia.
  - eapply (main_create st0 MCreate1 MCreate2); try done; try (simpl; lia); by rewrite Hcr.
  - eapply (main_create st0 MCreate2 MJoin1); try done; try (simpl; lia); by rewrite Hcr.
  - eapply (main_join st0 MJoin1 MJoin2 ts w 0); try done. simpl in Hcr. lia.
  - eapply (main_join st0 MJoin2 MLoad ts w 1); try done. simpl in Hcr. lia.
  - eapply main_report; auto.
  - eapply main_report; auto.
  - eapply main_report; auto.
  - right. eexists; split; [|done]. by injection Hs.
  - right. eexists; split; [|done]. by injection Hs.
Qed.

(** *** Whole runs *)

Definition rank (m : mpc) (ts : list tpc) : Z := mrank m + total trank ts.

(** A state of the running process, or of the process that has ended. *)
Inductive good (st0 : list Z) : nat → config action label (shared K) → Prop :=
| good_running w m ts : inv st0 w m ts →
    good st0 (S (Z.to_nat (rank m ts))) (conf m ts w)
| good_ended w m ts h : inv st0 w m ts → mcode m = End h →
    good st0 0 (Config (pool (conf m ts w)) w (Some h)).

Lemma rank_nonneg st0 w m ts : inv st0 w m ts → 0 <= mrank m ∧ 0 <= total trank ts.
Proof.
  intros HI. split; [destruct m; simpl; lia|]. apply total_nonneg.
  intros i p Hi. eapply trank_nonneg. by eapply HI.
Qed.

Lemma good_step st0 k i c c' :
  Forall (Z.le 0) st0 → good st0 k c → sched_step i c = Some c' →
  ∃ k', (k' < k)%nat ∧ good st0 k' c'.
Proof.
  intros Hpos Hg Hs. destruct Hg as [w m ts HI|]; [|done].
  pose proof (rank_nonneg _ _ _ _ HI) as [Hm Ht]. destruct i as [|i].
  - destruct (main_step _ _ _ _ _ Hpos HI Hs) as
      [(m' & ts' & w' & -> & HI' & Hp & Hm' & Hlt)|(h & -> & Hh)].
    + eexists; split; [|by apply good_running].
      pose proof (rank_nonneg _ _ _ _ HI'). unfold rank in *. lia.
    + eexists; split; [|by apply good_ended]. lia.
  - assert (Hi : ∃ p, ts !! i = Some p).
    { destruct (sched_step_inv _ _ _ Hs) as (q & Hq & _).
      change ((tcode <$> ts) !! i = Some q) in Hq.
      rewrite list_lookup_fmap in Hq. destruct (ts !! i) as [p|]; [by exists p|done]. }
    destruct Hi as [p Hi].
    destruct (thread_step _ _ _ _ _ _ _ HI Hi Hs) as (p' & w' & -> & HI' & Hlt).
    eexists; split; [|by apply good_running].
    pose proof (rank_nonneg _ _ _ _ HI') as [_ Ht']. unfold rank in *.
    rewrite (total_insert _ _ _ _ _ Hi) in *. lia.
Qed.

(** A thread that has not returned can move, or the holder of the lock can. *)
Lemma thread_progress st0 w m ts i p :
  inv st0 w m ts → ts !! i = Some p → p ≠ TRet → ∃ c', step (conf m ts w) c'.
Proof.
  intros HI Hi Hp.
  pose proof (lock_ok_exclusive _ _ _ _ _ (inv_created _ _ _ _ HI) Hi (inv_lock _ _ _ _ HI)) as Hex.
  assert (Hcrit : ∀ j q, ts !! j = Some q → critical q = true ∨ (∃ v, q = TFor v) ∨
      (∃ v, q = TLock v) ∧ held_by None w.(lck) → ∃ c', step (conf m ts w) c').
  { intros j q Hj Hq. enough (∃ c', sched_step (S j) (conf m ts w) = Some c') as [c' Hc']
      by by exists c', (S j).
    unfold sched_step, conf. cbn [ended pool wld].
    change ((mcode m :: (tcode <$> ts)) !! S j) with ((tcode <$> ts) !! j).
    rewrite list_lookup_fmap, Hj. cbn [fmap option_fmap option_map].
    destruct Hq as [Hq|[[v ->]|[[v ->] Hfree]]]; [|by eexists|].
    - destruct q; try done; cbn; [by eexists..|].
      destruct (exclusive_release _ _ _ _ (TFor 0) Hex Hj) as (k' & -> & _); [done..|].
      by eexists.
    - cbn. destruct (acquire_free (S j) _ Hfree) as (k' & -> & _). by eexists. }
  destruct Hex as (o & Ho & Hu & Hc). destruct o as [u|].
  - destruct (Hu u eq_refl) as (j & -> & Hj). destruct (lookup_lt_is_Some_2 _ _ Hj) as [q Hq].
    apply (Hcrit j q Hq). left. by apply (Hc j q Hq).
  - apply (Hcrit i p Hi). destruct p; try done; eauto.
Qed.

Lemma pop_status_eq (w : shared K) : ∃ s w', pop_status w = (s, w').
Proof. destruct (pop_status w); eauto. Qed.

Lemma main_progress st0 w m ts :
  inv st0 w m ts → ∃ c', step (conf m ts w) c'.
Proof.
  intros HI. pose proof (inv_created _ _ _ _ HI) as Hcr.
  destruct (pop_status_eq w) as (s & w' & Ep).
  assert (H0 : (∃ c', sched_step 0 (conf m ts w) = Some c') → ∃ c', step (conf m ts w) c').
  { intros [c' Hc']. by exists c', 0%nat. }
  unfold sched_step, conf in H0. cbn [ended pool wld lookup list_lookup] in H0.
  destruct m; cbn [mcode] in H0; try (by apply H0; eexists).
  - pose proof (inv_point _ _ _ _ HI) as Hp. simpl in Hp. apply H0. unfold main_code.
    destruct minit; [|done]. cbn -[pop_status]. rewrite Ep. by eexists.
  - apply H0. cbn -[pop_status]. rewrite Ep. destruct (s =? 0); by eexists.
  - apply H0. cbn -[pop_status]. rewrite Ep. destruct (s =? 0); by eexists.
  - destruct ts as [|[] ts]; try done;
      try (by eapply (thread_progress _ _ _ _ 0)).
    apply H0. cbn -[pop_status]. rewrite Ep. by eexists.
  - destruct ts as [|p [|[] ts]]; try done;
      try (by eapply (thread_progress _ _ _ _ 1)).
    apply H0. cbn -[pop_status]. rewrite Ep. by eexists.
  - apply H0. unfold report_code. destruct rep as [[]|]; by eexists.
  - apply H0. pose proof (inv_point _ _ _ _ HI) as Hp. simpl in Hp. destruct rep as [[]|]; by eexists.
Qed.

(** The ends a run may come to: the report of the full count, or the report of
    a call that failed. *)
Definition finished (st0 : list Z) (c : config action label (shared K)) : Prop :=
  (c.(ended) = Some (Exited EXIT_SUCCESS) ∧ c.(wld).(out) = expected) ∨
  (∃ e msg, c.(ended) = Some (Failed e msg) ∧ e ≠ 0 ∧ e ∈ st0).

Lemma good_finished st0 k c : good st0 k c → finished st0 c ∨ ∃ c', step c c'.
Proof.
  destruct 1 as [w m ts HI|w m ts h HI Hh]; [right; by eapply main_progress|left].
  pose proof (inv_point _ _ _ _ HI) as Hp. pose proof (inv_out _ _ _ _ HI) as Ho.
  unfold finished. cbn. revert Hh.
  destruct m; simpl in Hp; cbn [mcode]; unfold main_code, report_code;
    try (destruct minit; try done); try (destruct rep as [[]|]; try done); try done.
  all: intros [= <-]; auto; right; destruct Hp; eauto.
Qed.

Lemma good_start st0 k0 : (minit = None → held_by None k0) → ∃ k, good st0 k (start n k0 st0).
Proof.
  intros Hk. eexists. apply (good_running st0 _ MStart []). split; simpl; try done; try lia.
Qed.

Lemma locked_inevitable st0 k0 :
  Forall (Z.le 0) st0 → (minit = None → held_by None k0) →
  inevitably (finished st0) (start n k0 st0).
Proof.
  intros Hpos Hk. destruct (good_start st0 k0 Hk) as [k Hg].
  eapply inevitably_measure; [|by apply good_finished|done].
  intros ???? H1 H2. by eapply good_step.
Qed.

(** No two threads are ever about to store. *)
Lemma locked_exclusive st0 k0 c i j v v' f f' :
  Forall (Z.le 0) st0 → (minit = None → held_by None k0) →
  reachable (start n k0 st0) c →
  c.(pool) !! i = Some (Act (AStore v) f) → c.(pool) !! j = Some (Act (AStore v') f') → i = j.
Proof.
  intros Hpos Hk Hr.
  assert (Hg : ∃ k, good st0 k c).
  { eapply (invariant_reachable (λ c, ∃ k, good st0 k c)); [|by apply good_start|done].
    intros x a b [k Ha] Hs. destruct (good_step _ _ _ _ _ Hpos Ha Hs) as (k' & _ & Hb). eauto. }
  destruct Hg as [k Hg].
  assert (Hpool : ∃ m ts w, inv st0 w m ts ∧ c.(pool) = mcode m :: (tcode <$> ts))
    by (destruct Hg; eauto 10).
  destruct Hpool as (m & ts & w & HI & ->).
  assert (Hm : ∀ v f, mcode m ≠ Act (AStore v) f).
  { intros v0 f0. destruct m; cbn [mcode]; unfold main_code, report_code;
      try (destruct minit; try done); try (destruct rep as [[]|]; try done); done. }
  assert (Hth : ∀ l v f, (mcode m :: (tcode <$> ts)) !! l = Some (Act (AStore v) f) →
            ∃ l' p, l = S l' ∧ ts !! l' = Some p ∧ critical p = true).
  { intros [|l'] v0 f0; [intros [= E]; by destruct (Hm v0 f0)|].
    change ((mcode m :: (tcode <$> ts)) !! S l') with ((tcode <$> ts) !! l').
    rewrite list_lookup_fmap. destruct (ts !! l') as [p|] eqn:E; [|done].
    intros [= Hp]. exists l', p. split_and!; [done..|]. by destruct p. }
  intros H1 H2. apply Hth in H1 as (i' & p & -> & Hi & Hp).
  apply Hth in H2 as (j' & q & -> & Hj & Hq). f_equal.
  eapply exclusive_one; [|exact Hi|exact Hp|exact Hj|exact Hq].
  eapply lock_ok_exclusive; [apply HI|exact Hi|apply HI].
Qed.
End locked.

(** Every run of the program ends, printing [text], or reporting a call that the
    environment made fail. *)
Definition always_prints {K} `{Lock K} (main : Z → prog unit) (thread : Z → Z → prog unit)
    (k0 : K) (text : string) (n : Z) (st : list Z) : Prop :=
  inevitably (Sy := incr_sys main thread)
    (λ c, (c.(ended) = Some (Exited EXIT_SUCCESS) ∧ c.(wld).(out) = text) ∨
          (∃ e msg, c.(ended) = Some (Failed e msg) ∧ e ≠ 0 ∧ e ∈ st))
    (start n k0 st).

(** C4: with a mutex, a spin lock, a read-write lock or a semaphore around the
    increment, and a number of loops [n] from 1 to [INT_MAX / 2] (the programs
    accept larger ones, for which the int counter overflows, [thread_incr_overflow]),
    every run of the program, in whatever order the threads are scheduled, ends; it
    prints twice the number of loops, and the checking versions print their success
    line, unless one of the calls that create, join or initialise reports an error
    (the results the environment gives those calls are 0 or an error number). *)
Theorem locked_programs_count n st :
  0 < n → 2 * n <= INT_MAX → Forall (Z.le 0) st →
  let glob_line := "glob = " +:+ fmt_d (2 * n) +:+ nl in
  always_prints thread_incr_mutex.main thread_incr_mutex.threadFunc None glob_line n st ∧
  always_prints ythread_incr_mutex.main ythread_incr_mutex.threadFunc None glob_line n st ∧
  (∀ k, always_prints (K := option nat) thread_incr_spinlock.main
          thread_incr_spinlock.threadFunc k glob_line n st) ∧
  (∀ k, always_prints (K := rwlock) thread_incr_rwlock.main
          thread_incr_rwlock.threadFunc k glob_line n st) ∧
  (∀ k, always_prints (K := nat) thread_incr_psem.main
          thread_incr_psem.threadFunc k glob_line n st) ∧
  (∀ k, always_prints (K := nat) ythread_incr_psem.main ythread_incr_psem.threadRoutine k
          (("OK!:" +:+ String tab "") +:+ fmt_d (2 * n) +:+ nl) n st).
Proof.
  intros Hn Hmax Hst. cbv zeta. split_and!; intros.
  - by apply (locked_inevitable (K := option nat) "pthread_mutex_lock" "pthread_mutex_unlock"
      "pthread_create" "pthread_join" None None n).
  - by apply (locked_inevitable (K := option nat) "pthread_mutex_lock() failed"
      "pthread_mutex_unlock() failed" "pthread_create() failed" "pthread_join() failed" None None n).
  - by apply (locked_inevitable (K := option nat) "pthread_spin_lock" "pthread_spin_unlock"
      "pthread_create" "pthread_join" (Some "pthread_spin_init") None n).
  - by apply (locked_inevitable (K := rwlock) "pthread_rwlock_wrlock" "pthread_rwlock_unlock"
      "pthread_create" "pthread_join" (Some "pthread_rwlock_init") None n).
  - by apply (locked_inevitable (K := nat) "sem_wait" "sem_post"
      "pthread_create" "pthread_join" (Some "sem_init") None n).
  - by apply (locked_inevitable (K := nat) "Sem_Wait() failed" "Sem_Post() failed"
      "pthread_create() failed" "pthread_join() failed" (Some "Sem_Init() failed")
      (Some ("OK!:" +:+ String tab "", "BOOM:" +:+ String tab "")) n).
Qed.

Lemma locked_programs_count_witness :
  always_prints thread_incr_mutex.main thread_incr_mutex.threadFunc None
    ("glob = 10" +:+ nl) 5 [0; 0; 11].
Proof.
  destruct (locked_programs_count 5 [0; 0; 11]) as [H _];
    [lia|by vm_compute|repeat constructor; lia|exact H].
Defined.

(** ** Without a lock *)

Section unlocked.
Local Instance unlocked_sys : Sys action label (shared (option nat)) :=
  incr_sys thread_incr.main thread_incr.threadFunc.
Local Abbreviation cfg := (config action label (shared (option nat))).

Definition at_count (p : list (prog unit)) (g : Z) : cfg := Config p (Shared g None "" []) None.

(** A thread at the head of its loop makes [m] whole iterations by itself. *)
Lemma run_alone n p i j m g :
  p !! i = Some (Goto (For n j)) → j + Z.of_nat m <= n → 0 <= g →
  g + Z.of_nat m <= INT_MAX →
  reachable (at_count p g)
    (at_count (<[i := Goto (For n (j + Z.of_nat m))]> p) (g + Z.of_nat m)).
Proof.
  revert p j g. induction m as [|m IH]; intros p j g Hp Hj Hg Hb.
  { rewrite !Z.add_0_r, list_insert_id by done. constructor. }
  pose proof (lookup_lt_Some _ _ _ Hp) as Hlt.
  assert (H1 : reachable (at_count p g) (at_count (<[i := Goto (For n (j + 1))]> p) (g + 1))).
  { eapply rtc_l; [by apply (step_goto _ _ i)|].
    cbn [body unlocked_sys incr_sys]. unfold thread_incr.threadFunc at 1.
    rewrite (proj2 (Z.ltb_lt j n)) by lia.
    eapply rtc_l; [eapply (step_val _ _ i); [by apply list_lookup_insert_eq|reflexivity]|].
    cbn -[returned]. rewrite (proj2 (Z.eqb_neq g INT_MAX)), list_insert_insert_eq by lia.
    eapply rtc_l; [eapply (step_val _ _ i); [by apply list_lookup_insert_eq|reflexivity]|].
    cbn -[returned]. rewrite list_insert_insert_eq. constructor. }
  etransitivity; [exact H1|].
  replace (j + Z.of_nat (S m)) with (j + 1 + Z.of_nat m) by lia.
  replace (g + Z.of_nat (S m)) with (g + 1 + Z.of_nat m) by lia.
  specialize (IH (<[i := Goto (For n (j + 1))]> p) (j + 1) (g + 1)).
  rewrite list_insert_insert_eq in IH. apply IH; [by apply list_lookup_insert_eq|lia..].
Qed.

(** Without a lock updates are lost: however many loops (at least two) are asked
    for, there is a run of [thread_incr] that ends normally and prints 2. *)
Theorem thread_incr_loses_updates n :
  2 <= n <= INT_MAX →
  ∃ c, reachable (start n None []) c ∧
    c.(ended) = Some (Exited EXIT_SUCCESS) ∧ c.(wld).(out) = "glob = 2" +:+ nl.
Proof.
  intros [Hn Hmax].
  (* both threads are created; the first loads 0 *)
  set (main3 := _ ← checked "pthread_join" (AJoin 1);
                _ ← checked "pthread_join" (AJoin 2); print_glob : prog unit).
  set (storing j v := Act (AStore v) (λ _, Goto (For n (j + 1))) : prog unit).
  assert (Hload : ∀ j, j < n →
            thread_incr.threadFunc n j = (_ ← increment; Goto (For n (j + 1)))).
  { intros j Hj. unfold thread_incr.threadFunc. by rewrite (proj2 (Z.ltb_lt j n)) by lia. }
  assert (H1 : reachable (start n None []) (at_count [main3; storing 0 1; Goto (For n 0)] 0)).
  { transitivity (at_count [main3; thread_incr.threadFunc n 0; Goto (For n 0)] 0).
    - by apply (run_schedule_reachable [0; 0; 0; 1]%nat).
    - rewrite Hload by lia. by apply (run_schedule_reachable [1]%nat). }
  (* the second makes all but one of its iterations, and the first stores 1 *)
  pose proof (run_alone n [main3; storing 0 1; Goto (For n 0)] 2 0 (Z.to_nat (n - 1)) 0) as H2.
  rewrite !Z2Nat.id, !Z.add_0_l in H2 by lia. specialize (H2 eq_refl ltac:(lia) ltac:(lia) ltac:(lia)).
  (* the second loads 1 *)
  assert (H3 : reachable (at_count [main3; storing 0 1; Goto (For n (n - 1))] (n - 1))
                 (at_count [main3; Goto (For n 1); storing (n - 1) 2] 1)).
  { transitivity (at_count [main3; Goto (For n 1); thread_incr.threadFunc n (n - 1)] 1).
    - by apply (run_schedule_reachable [1; 2]%nat).
    - rewrite Hload by lia. by apply (run_schedule_reachable [2]%nat). }
  (* the first finishes, and the second stores 2 *)
  pose proof (run_alone n [main3; Goto (For n 1); storing (n - 1) 2] 1 1 (Z.to_nat (n - 1)) 1) as H4.
  rewrite !Z2Nat.id in H4 by lia. specialize (H4 eq_refl ltac:(lia) ltac:(lia) ltac:(lia)).
  replace (1 + (n - 1)) with n in H4 by lia.
  assert (Hret : ∀ j, j = n → thread_incr.threadFunc n j = Ret tt).
  { intros j ->. unfold thread_incr.threadFunc. by rewrite Z.ltb_irrefl. }
  assert (H5 : reachable (at_count [main3; Goto (For n n); storing (n - 1) 2] n)
                 (at_count [main3; Ret tt; Ret tt] 2)).
  { transitivity (at_count [main3; thread_incr.threadFunc n n;
                            thread_incr.threadFunc n (n - 1 + 1)] 2).
    - by apply (run_schedule_reachable [2; 1; 2]%nat).
    - rewrite !Hret by lia. constructor. }
  exists (Config [End (Exited EXIT_SUCCESS); Ret tt; Ret tt]
            (Shared 2 None ("glob = 2" +:+ nl) []) (Some (Exited EXIT_SUCCESS))).
  split; [|done]. etransitivity; [exact H1|]. etransitivity; [exact H2|].
  etransitivity; [exact H3|]. etransitivity; [exact H4|]. etransitivity; [exact H5|].
  by apply (run_schedule_reachable [0; 0; 0; 0; 0]%nat).
Qed.

(** The argument is checked only to be a positive [int]; above half of its range
    the counter overflows, which is undefined. *)
Theorem thread_incr_overflow n :
  n <= INT_MAX < 2 * n →
  ∃ c, reachable (start n None []) c ∧ c.(ended) = Some Undefined.
Proof.
  intros Hn. assert (Hpos : 0 < INT_MAX) by by vm_compute.
  set (main3 := _ ← checked "pthread_join" (AJoin 1);
                _ ← checked "pthread_join" (AJoin 2); print_glob : prog unit).
  assert (H1 : reachable (start n None []) (at_count [main3; Goto (For n 0); Goto (For n 0)] 0))
    by by apply (run_schedule_reachable [0; 0; 0]%nat).
  pose proof (run_alone n [main3; Goto (For n 0); Goto (For n 0)] 1 0 (Z.to_nat n) 0) as H2.
  rewrite !Z2Nat.id, !Z.add_0_l in H2 by lia.
  specialize (H2 eq_refl ltac:(lia) ltac:(lia) ltac:(lia)).
  pose proof (run_alone n [main3; Goto (For n n); Goto (For n 0)] 2 0 (Z.to_nat (INT_MAX - n)) n) as H3.
  rewrite !Z2Nat.id, !Z.add_0_l in H3 by lia. replace (n + (INT_MAX - n)) with INT_MAX in H3 by lia.
  specialize (H3 eq_refl ltac:(lia) ltac:(lia) ltac:(lia)).
  exists (Config [main3; Goto (For n n); End Undefined] (Shared INT_MAX None "" []) (Some Undefined)).
  split; [|done]. etransitivity; [exact H1|]. etransitivity; [exact H2|].
  etransitivity; [exact H3|].
  transitivity (at_count [main3; Goto (For n n); thread_incr.threadFunc n (INT_MAX - n)] INT_MAX).
  - by apply (run_schedule_reachable [2]%nat).
  - unfold thread_incr.threadFunc. rewrite (proj2 (Z.ltb_lt (INT_MAX - n) n)) by lia.
    by apply (run_schedule_reachable [2; 2]%nat).
Qed.
End unlocked.

Lemma thread_incr_loses_updates_witness :
  ∃ c, reachable (Sy := unlocked_sys) (start 10000000 None []) c ∧
    c.(ended) = Some (Exited EXIT_SUCCESS) ∧ c.(wld).(out) = "glob = 2" +:+ nl.
Proof. apply (thread_incr_loses_updates 10000000). split; by vm_compute. Defined.
