(* ===== verification/FileRaces.v ===== *)
(** Processes that write to one file, or that want to be the one to create it.

    [AtomicAppend]: [fileio/atomic_append.c] and [yatomicappend.c].
    [ExclusiveOpen]: [fileio/bad_exclusive_open.c], [ybadoexcl.c] and [yoexcl.c].
    Any number of processes interleave at every call on one file system; calls can
    fail, and writes can be short. *)
From stdpp Require Import relations gmap strings.
From S2P Require Import Prelude CLib Conc.
From S2P Require GetNum.
Local Open Scope Z_scope.

(** ** The file system *)

Definition O_WRONLY : Z := 1.
Definition O_RDWR : Z := 2.
Definition O_CREAT : Z := 64.
Definition O_EXCL : Z := 128.
Definition O_APPEND : Z := 1024.

Abbreviation bytes := (list ascii).

(** An open file: its place in [inodes], its offset, and whether it was opened with
    [O_APPEND]. *)
Record ofile := OFile { o_inode : nat; o_offset : nat; o_append : bool }.

Inductive action :=
| AOpen (path : string) (flags : Z)
| ASeekEnd (fd : Z)                  (* lseek(fd, 0, SEEK_END) *)
| AWrite (fd : Z) (data : bytes)
| AClose (fd : Z)
| ASleep (n : Z)
| APrint (pid : Z) (t : string)      (* a line on the standard output *)
| AClaim (pid : Z) (t : string).     (* the line that says the file was created *)

(** [history] has the calls of all processes, by their places in the pool, with
    their results. *)
Record world := World {
  names : gmap string nat;
  inodes : list bytes;
  files : list ofile;
  statuses : list Z;      (* of calls to come: 0, an error, or minus the bytes a write takes *)
  history : list (nat * (action * Z))
}.

Definition pop (w : world) : Z * world :=
  match w.(statuses) with
  | [] => (0, w)
  | z :: l => (z, World w.(names) w.(inodes) w.(files) l w.(history))
  end.

Definition open_file (path : string) (flags : Z) (w : world) : Z * world :=
  let app := has flags O_APPEND in
  let fd := Z.of_nat (length w.(files)) in
  match w.(names) !! path with
  | Some n =>
      if has flags O_CREAT && has flags O_EXCL then (- EEXIST, w) else
      (fd, World w.(names) w.(inodes) (w.(files) ++ [OFile n 0 app]) w.(statuses) w.(history))
  | None =>
      if has flags O_CREAT then
        let n := length w.(inodes) in
        (fd, World (<[path := n]> w.(names)) (w.(inodes) ++ [[]]) (w.(files) ++ [OFile n 0 app])
               w.(statuses) w.(history))
      else (- ENOENT, w)
  end.

(** [data] stored at an offset, after null bytes if that is past the end. *)
Definition store_at (off : nat) (data c : bytes) : bytes :=
  take off (c ++ replicate (off - length c) Ascii.zero) ++ data ++ drop (off + length data) c.

Definition on_file (fd : Z) (f : ofile → bytes → world → Z * world) (w : world) : Z * world :=
  match (if fd <? 0 then None else w.(files) !! Z.to_nat fd) with
  | None => (- EBADF, w)
  | Some o => match w.(inodes) !! o.(o_inode) with
              | Some c => f o c w
              | None => (- EBADF, w)
              end
  end.

Definition set_offset (fd : Z) (o : ofile) (off : nat) (w : world) : world :=
  World w.(names) w.(inodes) (<[Z.to_nat fd := OFile o.(o_inode) off o.(o_append)]> w.(files))
    w.(statuses) w.(history).
Definition set_inode (n : nat) (c : bytes) (w : world) : world :=
  World w.(names) (<[n := c]> w.(inodes)) w.(files) w.(statuses) w.(history).

Definition do_call (a : action) (w : world) : Z * world :=
  match a with
  | ASleep _ | APrint _ _ | AClaim _ _ => (0, w)
  | _ =>
    let '(z, w) := pop w in
    if 0 <? z then (- z, w) else
    match a with
    | AOpen path flags => open_file path flags w
    | ASeekEnd fd => on_file fd (λ o c w, (Z.of_nat (length c), set_offset fd o (length c) w)) w
    | AWrite fd data => on_file fd (λ o c w,
        let data := if z <? 0 then take (Z.to_nat (- z)) data else data in
        let off := if o.(o_append) then length c else o.(o_offset) in
        (Z.of_nat (length data),
         set_inode o.(o_inode) (store_at off data c) (set_offset fd o (off + length data) w))) w
    | _ => (0, w)
    end
  end.

Definition record_call (i : nat) (a : action) (z : Z) (w : world) : world :=
  World w.(names) w.(inodes) w.(files) w.(statuses) (w.(history) ++ [(i, (a, z))]).

(** ** The programs *)

(** What the loop of a writer carries: the next byte as well, where it changes. *)
Inductive label :=
| AppendStart (pid : Z) (argv : list string)
| AppendFor (pid fd : Z) (useLseek : bool) (numBytes j : Z)
| YAppendStart (pid : Z) (argv : list string)
| YAppendFor (pid fd : Z) (useLseek : bool) (numBytes i c : Z)
| BadStart (pid : Z) (argv : list string)
| YBadStart (pid : Z) (argv : list string)
| ExclStart (pid : Z) (argv : list string).

Local Abbreviation prog := (code action label).

Definition or_systmErr (r : Z) (msg : string) : prog unit :=
  if r <? 0 then End (Failed (- r) msg) else mret tt.
Definition print (pid : Z) (t : string) : prog unit := _ ← act (APrint pid t); mret tt.

(** [usageErr] ends the process. *)
Definition usageErr : prog unit := End (Exited EXIT_FAILURE).

(** [strcmp("--help", h) == 0 || strcmp("-h", h) == 0] *)
Definition is_help (h : string) : bool := bool_decide (h = "--help") || bool_decide (h = "-h").

(** [getInt(arg, 0, name)]; [None] where it ends the process. *)
Definition get_count (arg name : string) : option Z :=
  match fst (GetNum.getInt (Some arg) 0 (Some name) (GetNum.NSt 0 "")) with
  | Ok v => Some v
  | Halt _ => None
  end.

Module atomic_append.
Definition main (pid : Z) (argv : list string) : prog unit :=
  match argv with
  | _ :: path :: num :: rest =>
      if bool_decide (path = "--help") then usageErr else
      let useLseek := match rest with [] => false | _ => true end in
      let flags := if useLseek then 0 else O_APPEND in
      match get_count num "num-bytes" with
      | None => End (Exited EXIT_FAILURE)
      | Some numBytes =>
          fd ← act (AOpen path (Z.lor (Z.lor O_RDWR O_CREAT) flags));
          _ ← or_systmErr fd "open";
          Goto (AppendFor pid fd useLseek numBytes 0)
      end
  | _ => usageErr
  end.

(** The loop at its test, and what follows it. *)
Definition for_loop (pid fd : Z) (useLseek : bool) (numBytes j : Z) : prog unit :=
  if j <? numBytes then
    _ ← (if useLseek then r ← act (ASeekEnd fd); or_systmErr r "lseek" else mret tt);
    n ← act (AWrite fd (chars "x"));
    if negb (n =? 1) then End (Failed 0 "write() failed") else
    Goto (AppendFor pid fd useLseek numBytes (j + 1))
  else
    _ ← print pid (fmt_d pid +:+ " done" +:+ nl);
    End (Exited EXIT_SUCCESS).
End atomic_append.

Module yatomicappend.
Definition main (pid : Z) (argv : list string) : prog unit :=
  match argv with
  | _ :: path :: num :: rest =>
      if is_help path then usageErr else
      let useLseek := match rest with [] => false | _ => true end in
      let flag := if useLseek then 0 else O_APPEND in
      match get_count num "num-Bytes" with
      | None => End (Exited EXIT_FAILURE)
      | Some numBytes =>
          fd ← act (AOpen path (Z.lor (Z.lor O_WRONLY O_CREAT) flag));
          _ ← or_systmErr fd "open() failed";
          Goto (YAppendFor pid fd useLseek numBytes 0 0x41)
      end
  | _ => usageErr
  end.

(** [c++; if (c > 0x5a) c = 0x41;] for an [unsigned char]. *)
Definition next_byte (c : Z) : Z :=
  let c := (c + 1) mod 256 in if 0x5a <? c then 0x41 else c.

(** A failed write is reported with [errno], a short one with what it was. *)
Definition for_loop (pid fd : Z) (useLseek : bool) (numBytes i c : Z) : prog unit :=
  if i <? numBytes then
    _ ← (if useLseek then r ← act (ASeekEnd fd); or_systmErr r "lseek() failed" else mret tt);
    n ← act (AWrite fd [ascii_of_N (Z.to_N c)]);
    if negb (n =? 1) then End (Failed (Z.max 0 (- n)) "write() failed") else
    Goto (YAppendFor pid fd useLseek numBytes (i + 1) (next_byte c))
  else
    _ ← print pid (fmt_d pid +:+ ": done." +:+ nl);
    End (Exited EXIT_SUCCESS).
End yatomicappend.

Definition quoted (path : string) : string := String "034"%char (path +:+ String "034"%char "").

Module bad_exclusive_open.
(** [[PID n] File "path" ...] *)
Definition line (pid : Z) (t : string) : string := "[PID " +:+ fmt_d pid +:+ "] " +:+ t +:+ nl.

Definition create (pid : Z) (path : string) : prog unit :=
  fd ← act (AOpen path (Z.lor O_WRONLY O_CREAT));
  _ ← or_systmErr fd "open";
  _ ← act (AClaim pid (line pid ("Created file " +:+ quoted path +:+ " exclusively")));
  End (Exited EXIT_SUCCESS).

Definition main (pid : Z) (argv : list string) : prog unit :=
  match argv with
  | _ :: path :: rest =>
      if bool_decide (path = "--help") then usageErr else
      fd ← act (AOpen path O_WRONLY);
      if 0 <=? fd then
        _ ← print pid (line pid ("File " +:+ quoted path +:+ " already exists"));
        _ ← act (AClose fd);
        End (Exited EXIT_SUCCESS)
      else if negb (- fd =? ENOENT) then End (Failed (- fd) "open")
      else
        _ ← print pid (line pid ("File " +:+ quoted path +:+ " doesn't exist yet"));
        _ ← match rest with
            | [] => mret tt
            | _ => _ ← act (ASleep 5); print pid (line pid "Done sleeping")
            end;
        create pid path
  | _ => usageErr
  end.
End bad_exclusive_open.

(** [buf], which the exercises write: [snprintf(buf, 128, "[PID:%ld] Written.\n", ...)]. *)
Definition buf (pid : Z) : string := snprintf 128 ("[PID:" +:+ fmt_d pid +:+ "] Written." +:+ nl).
Definition yline (pid : Z) (t : string) : string := "[PID:" +:+ fmt_d pid +:+ "] " +:+ t +:+ nl.

(** What they do with the file they take for their own. *)
Definition use_file (pid : Z) (path : string) (fd : Z) : prog unit :=
  _ ← act (AClaim pid (yline pid ("Created " +:+ quoted path +:+ " file exclusively.")));
  n ← act (AWrite fd (chars (buf pid)));
  if negb (n =? Z.of_nat (String.length (buf pid))) then End (Failed (Z.max 0 (- n)) "write() failed") else
  _ ← act (AClose fd);
  End (Exited EXIT_SUCCESS).

(** [if (argc > 2) { sleep(5); printf(...); }] *)
Definition delay (pid : Z) (rest : list string) : prog unit :=
  match rest with
  | [] => mret tt
  | _ => _ ← act (ASleep 5); print pid (yline pid "Done sleeping.")
  end.

Module ybadoexcl.
Definition main (pid : Z) (argv : list string) : prog unit :=
  match argv with
  | _ :: path :: rest =>
      if is_help path then usageErr else
      fd ← act (AOpen path O_WRONLY);
      if 0 <=? fd then
        _ ← print pid (yline pid ("File " +:+ quoted path +:+ " already exists."));
        _ ← act (AClose fd);
        End (Exited EXIT_SUCCESS)
      else if negb (- fd =? ENOENT) then End (Failed (- fd) "open() failed")
      else
        _ ← print pid (yline pid ("File " +:+ quoted path +:+ " doesn't exist yet."));
        _ ← delay pid rest;
        fd ← act (AOpen path (Z.lor (Z.lor O_WRONLY O_CREAT) O_APPEND));
        _ ← or_systmErr fd "open() failed";
        use_file pid path fd
  | _ => usageErr
  end.
End ybadoexcl.

Module yoexcl.
Definition main (pid : Z) (argv : list string) : prog unit :=
  match argv with
  | _ :: path :: rest =>
      if is_help path then usageErr else
      fd ← act (AOpen path (Z.lor (Z.lor O_WRONLY O_CREAT) O_EXCL));
      if fd <? 0 then
        if - fd =? EEXIST then
          _ ← print pid (yline pid ("File " +:+ quoted path +:+ " already exists. I am not the creator!"));
          End (Exited EXIT_SUCCESS)
        else End (Failed (- fd) "open() failed")
      else
        _ ← delay pid rest;
        use_file pid path fd
  | _ => usageErr
  end.
End yoexcl.

#[export] Instance sys : Sys action label world := {|
  perform := λ i _ a w, let '(z, w') := do_call a w in Val z (record_call i a z w');
  body l := match l with
            | AppendStart pid argv => atomic_append.main pid argv
            | AppendFor pid fd useLseek numBytes j => atomic_append.for_loop pid fd useLseek numBytes j
            | YAppendStart pid argv => yatomicappend.main pid argv
            | YAppendFor pid fd useLseek numBytes i c =>
                yatomicappend.for_loop pid fd useLseek numBytes i c
            | BadStart pid argv => bad_exclusive_open.main pid argv
            | YBadStart pid argv => ybadoexcl.main pid argv
            | ExclStart pid argv => yoexcl.main pid argv
            end;
  one_process := false
|}.

(** The file is there with a content, or not; nothing is open. *)
Definition fresh (path : string) (c0 : option bytes) (st : list Z) : world :=
  match c0 with
  | Some c => World {[path := O]} [c] [] st []
  | None => World ∅ [] [] st []
  end.
Definition launch (ls : list label) (w : world) : config action label world :=
  Config (Goto <$> ls) w None.

Definition file_content (path : string) (w : world) : option bytes :=
  w.(names) !! path ≫= λ n, w.(inodes) !! n.

(** ** The calls of each process *)

Lemma performs i r a w : ∃ z w', perform i r a w = Val z w'.
Proof. simpl. destruct (do_call a w) as [z w']. eauto. Qed.

Lemma performed i r a (w : world) z w2 :
  perform i r a w = Val z w2 → ∃ w', do_call a w = (z, w') ∧ w2 = record_call i a z w'.
Proof. simpl. destruct (do_call a w) as [z' w']. intros [= <- <-]. eauto. Qed.

Lemma not_spawned i r a (w : world) l w' : perform i r a w ≠ Spawn l w'.
Proof. destruct (performs i r a w) as (z & w2 & ->). done. Qed.

Lemma on_file_history fd f w :
  (∀ o c, history (f o c w).2 = history w) → history (on_file fd f w).2 = history w.
Proof.
  intros Hf. unfold on_file. destruct (if fd <? 0 then _ else _) as [o|]; [|done].
  destruct (inodes w !! o_inode o); [apply Hf|done].
Qed.

Lemma pop_history w : history (pop w).2 = history w.
Proof. unfold pop. by destruct (statuses w). Qed.

Lemma do_call_history a w : history (do_call a w).2 = history w.
Proof.
  pose proof (pop_history w) as Hp. unfold do_call.
  destruct a; try done; destruct (pop w) as [z w1]; simpl in Hp; destruct (0 <? z); try done.
  - unfold open_file. destruct (names w1 !! path); [by destruct (_ && _)|by destruct (has _ _)].
  - rewrite on_file_history; done.
  - rewrite on_file_history; done.
Qed.

Lemma recorded i r a (w : world) z w' :
  perform i r a w = Val z w' →
  own i (history w') = own i (history w) ++ [(a, z)] ∧
  ∀ j, j ≠ i → own j (history w') = own j (history w).
Proof.
  intros (w1 & Hd & ->)%performed. pose proof (do_call_history a w) as Hh. rewrite Hd in Hh. simpl in Hh.
  cbn [record_call history]. rewrite Hh. split; [by rewrite own_snoc, decide_True|].
  intros j Hj. by rewrite own_snoc, decide_False, app_nil_r.
Qed.

(** ** Every process comes to an end *)

Definition turns (n j : Z) : nat := Z.to_nat (n - j).

Definition rank (l : label) : nat :=
  match l with
  | AppendFor _ _ _ n j | YAppendFor _ _ _ n j _ => 4 + 4 * turns n j
  | AppendStart _ argv => 7 + 4 * match argv with _ :: _ :: num :: _ =>
      match get_count num "num-bytes" with Some n => turns n 0 | None => 0%nat end | _ => 0%nat end
  | YAppendStart _ argv => 7 + 4 * match argv with _ :: _ :: num :: _ =>
      match get_count num "num-Bytes" with Some n => turns n 0 | None => 0%nat end | _ => 0%nat end
  | _ => 12
  end.

Lemma turns_next n j : j < n → turns n j = S (turns n (j + 1)).
Proof. intros H. unfold turns. lia. Qed.

(** No call starts a process. *)
Definition no_cost (_ : action) : nat := O.

Ltac within_step := cbv beta iota delta [print or_systmErr usageErr no_cost Nat.sub Nat.add within code_bind code_seq mbind act code_ret mret].
Ltac within_auto :=
  repeat (within_step; match goal with
  | |- True => exact I
  | |- ∀ z : Z, _ => intros ?
  | |- context [if ?b then _ else _] => destruct b eqn:?
  | |- context [match ?r with [] => _ | _ => _ end] => destruct r
  | |- context [match ?o with Some _ => _ | None => _ end] => destruct o eqn:?
  end).

Lemma file_calls_ranked l : within rank no_cost (body l) (rank l).
Proof.
  destruct l; cbn [body sys].
  - unfold atomic_append.main. destruct argv as [|? [|path [|num rest]]]; try done.
    unfold rank at 2. destruct (get_count num "num-bytes"); within_auto; unfold rank; lia.
  - unfold atomic_append.for_loop, rank at 2. destruct (Z.ltb_spec j numBytes).
    + rewrite turns_next by done. within_auto; unfold rank; lia.
    + by within_auto.
  - unfold yatomicappend.main. destruct argv as [|? [|path [|num rest]]]; try done.
    unfold rank at 2. destruct (get_count num "num-Bytes"); within_auto; unfold rank; lia.
  - unfold yatomicappend.for_loop, rank at 2. destruct (Z.ltb_spec i numBytes).
    + rewrite turns_next by done. within_auto; unfold rank; lia.
    + by within_auto.
  - unfold bad_exclusive_open.main, bad_exclusive_open.create. destruct argv as [|? [|path rest]]; try done.
    unfold rank at 2. by within_auto.
  - unfold ybadoexcl.main, use_file, delay. destruct argv as [|? [|path rest]]; try done.
    unfold rank at 2. by within_auto.
  - unfold yoexcl.main, use_file, delay. destruct argv as [|? [|path rest]]; try done.
    unfold rank at 2. by within_auto.
Qed.

(** Whatever they do together, the processes end, and an invariant of the steps
    holds then. *)
Lemma all_end (I : config action label world → Prop) ls w :
  (∀ i a b, I a → sched_step i a = Some b → I b) → I (launch ls w) →
  inevitably (λ c, Forall has_ended c.(pool) ∧ I c) (launch ls w).
Proof.
  intros HI Hc. destruct (bounded_start (E := action) rank no_cost ls w) as [n Hn].
  apply (all_finish rank no_cost) with n; [|exact file_calls_ranked|done|exact performs|done|done|done|done].
  intros i r e w0 l w' H. by destruct (not_spawned _ _ _ _ _ _ H).
Qed.

(** ** Appending *)

(** The bytes a call has put into a file. *)
Definition data_of (x : action * Z) : bytes :=
  match x with
  | (AWrite _ data, n) => take (Z.to_nat n) data
  | _ => []
  end.

(** All bytes that were written, with their writers, in order; and those of one. *)
Definition written (H : list (nat * (action * Z))) : list (nat * ascii) :=
  H ≫= λ x, pair x.1 <$> data_of x.2.
Definition by_writer (i : nat) (l : list (nat * ascii)) : bytes := snd <$> filter (λ x, x.1 = i) l.
Definition wrote (h : list (action * Z)) : bytes := h ≫= data_of.

Lemma wrote_snoc h x : wrote (h ++ [x]) = wrote h ++ data_of x.
Proof. unfold wrote. rewrite bind_app. simpl. by rewrite app_nil_r. Qed.

Lemma by_writer_app i l l' : by_writer i (l ++ l') = by_writer i l ++ by_writer i l'.
Proof. unfold by_writer. by rewrite filter_app, fmap_app. Qed.

Lemma by_writer_own i H : by_writer i (written H) = wrote (own i H).
Proof.
  induction H as [|[j x] H IH] using rev_ind; [done|].
  rewrite own_snoc. unfold written. rewrite bind_app, by_writer_app. fold (written H). rewrite IH. clear IH.
  simpl. rewrite app_nil_r. unfold by_writer. destruct (decide (j = i)) as [->|Hj].
  - rewrite wrote_snoc. f_equal. induction (data_of x) as [|b l IH]; [done|].
    simpl. rewrite filter_cons_True by done. simpl. by f_equal.
  - unfold wrote. rewrite bind_app. simpl. f_equal.
    induction (data_of x) as [|b l IH]; [done|]. simpl. by rewrite filter_cons_False.
Qed.

(** One who appends: with which program, its process id, its name, and the argument
    for the number of bytes. *)
Record appender := Appender { own_version : bool; a_pid : Z; a_name : string; a_num : string }.

(** What [yatomicappend] writes from [c] on. *)
Fixpoint letters (n : nat) (c : Z) : bytes :=
  match n with
  | O => []
  | S n => ascii_of_N (Z.to_N c) :: letters n (yatomicappend.next_byte c)
  end.

(** What it is to write. *)
Definition output (a : appender) : bytes :=
  match get_count a.(a_num) (if a.(own_version) then "num-Bytes" else "num-bytes") with
  | None => []
  | Some n => if a.(own_version) then letters (Z.to_nat n) 0x41
              else replicate (Z.to_nat n) "x"%char
  end.

Section append.
Variables (path : string) (c0 : option bytes) (procs : list appender).

Definition append_start (a : appender) : label :=
  (if a.(own_version) then YAppendStart else AppendStart) a.(a_pid) [a.(a_name); path; a.(a_num)].

Definition out_of (i : nat) : bytes := default [] (output <$> procs !! i).

Definition only_appends (i : nat) (h : list (action * Z)) (a : action) : Prop :=
  match a with AOpen p fl => p = path ∧ has fl O_APPEND = true | _ => True end ∧
  wrote h `prefix_of` out_of i.

Definition appended_all (i : nat) (h : list (action * Z)) (f : fate) : Prop :=
  wrote h `prefix_of` out_of i ∧ (f = Exited EXIT_SUCCESS → wrote h = out_of i).

Definition append_at (i : nat) (h : list (action * Z)) (l : label) : Prop :=
  match l with
  | AppendFor _ _ useLseek n j =>
      useLseek = false ∧ wrote h ++ replicate (turns n j) "x"%char = out_of i
  | YAppendFor _ _ useLseek n j c =>
      useLseek = false ∧ wrote h ++ letters (turns n j) c = out_of i
  | _ => h = [] ∧ ∃ a, procs !! i = Some a ∧ l = append_start a
  end.

Local Abbreviation appends i h c :=
  (respects (A := unit) (only_appends i) (appended_all i) (append_at i) h c (λ _ _, False)).

Lemma appends_write i h fd b rest f l :
  wrote h ++ b :: rest = out_of i → (∀ z, f z ≠ Exited EXIT_SUCCESS) →
  (∀ h', wrote h' = wrote h ++ [b] → append_at i h' l) →
  appends i h (n ← act (AWrite fd [b]); if negb (n =? 1) then End (f n) else Goto l).
Proof.
  intros Hw Hf Hl. split; [split; [done|by eexists]|]. intros z. simpl.
  destruct (Z.eqb_spec z 1) as [->|]; simpl; [apply Hl, wrote_snoc|].
  split; [|intros Hz; by destruct (Hf z)]. rewrite wrote_snoc, <- Hw. apply prefix_app.
  apply (prefix_app_r (take (Z.to_nat z) [b]) [b]), prefix_take.
Qed.

Lemma appends_done i h pid t :
  wrote h = out_of i → appends i h (_ ← print pid t; End (Exited EXIT_SUCCESS)).
Proof.
  intros Hw. split; [split; [done|by rewrite Hw]|]. intros z. simpl.
  split; rewrite wrote_snoc, app_nil_r; [by rewrite Hw|done].
Qed.

Lemma appends_for i h pid fd n j :
  append_at i h (AppendFor pid fd false n j) → appends i h (atomic_append.for_loop pid fd false n j).
Proof.
  intros [_ Hw]. unfold atomic_append.for_loop. destruct (Z.ltb_spec j n) as [Hj|Hj].
  - rewrite (turns_next _ _ Hj) in Hw. eapply appends_write; [exact Hw|done|]. intros h' Hh'.
    split; [done|]. by rewrite Hh', <- app_assoc.
  - assert (Ht : turns n j = O) by (unfold turns; lia). rewrite Ht, app_nil_r in Hw. by apply appends_done.
Qed.

Lemma appends_yfor i h pid fd n j c :
  append_at i h (YAppendFor pid fd false n j c) → appends i h (yatomicappend.for_loop pid fd false n j c).
Proof.
  intros [_ Hw]. unfold yatomicappend.for_loop. destruct (Z.ltb_spec j n) as [Hj|Hj].
  - rewrite (turns_next _ _ Hj) in Hw. eapply appends_write; [exact Hw|done|]. intros h' Hh'.
    split; [done|]. by rewrite Hh', <- app_assoc.
  - assert (Ht : turns n j = O) by (unfold turns; lia). rewrite Ht, app_nil_r in Hw. by apply appends_done.
Qed.

(** A program that ends before it writes, or opens the file and goes to its loop. *)
Lemma appends_open i flags msg (l : Z → label) :
  has flags O_APPEND = true → (∀ fd h, wrote h = [] → append_at i h (l fd)) →
  appends i [] (fd ← act (AOpen path flags); _ ← or_systmErr fd msg; Goto (l fd)).
Proof.
  intros Hf Hl. split; [split; [done|apply prefix_nil]|]. intros z. unfold or_systmErr. simpl.
  destruct (z <? 0); simpl; [|by apply Hl]. split; [apply prefix_nil|done].
Qed.

Lemma appends_start i a :
  procs !! i = Some a → appends i [] (body (append_start a)).
Proof.
  intros Ha. destruct a as [[|] pid nm num]; cbn [append_start own_version a_pid a_name a_num body sys];
    unfold yatomicappend.main, atomic_append.main;
    (match goal with |- context [if ?b then usageErr else _] => destruct b end;
      [split; [apply prefix_nil|done]|]); cbv zeta;
    destruct (get_count num _) as [n|] eqn:Hn; try (split; [apply prefix_nil|done]);
    (apply appends_open; [done|]); intros fd h Hh; (split; [done|]);
    rewrite Hh; unfold out_of, turns; rewrite Ha; cbn [default fmap option_fmap option_map from_option];
    unfold output; cbn [own_version a_num]; rewrite Hn; by rewrite Z.sub_0_r.
Qed.

Lemma appends_body i h l : append_at i h l → appends i h (body l).
Proof.
  intros H. destruct l; try (destruct H as (-> & a & Ha & ->); by apply appends_start).
  - destruct H as [-> H]. by apply appends_for.
  - destruct H as [-> H]. by apply appends_yfor.
Qed.

(** The file, as long as every descriptor is open for appending. *)
Definition append_world (w : world) : Prop :=
  let all := default [] c0 ++ (written w.(history)).*2 in
  (w.(names) !! path = None ∧ w.(inodes) = [] ∧ w.(files) = [] ∧ all = []) ∨
  (w.(names) !! path = Some O ∧ w.(inodes) = [all] ∧
   Forall (λ f, f.(o_inode) = O ∧ f.(o_append) = true) w.(files)).

Lemma written_snoc H i x : written (H ++ [(i, x)]) = written H ++ (pair i <$> data_of x).
Proof. unfold written. rewrite bind_app. simpl. by rewrite app_nil_r. Qed.

Lemma store_at_end (data c : bytes) : store_at (length c) data c = c ++ data.
Proof.
  unfold store_at. rewrite Nat.sub_diag. simpl. rewrite app_nil_r, firstn_all, drop_ge by lia.
  by rewrite app_nil_r.
Qed.

(** A call that writes nothing adds nothing. *)
Lemma append_world_same w w' i a z :
  append_world w → data_of (a, z) = [] → names w' = names w → inodes w' = inodes w →
  history w' = history w →
  (files w' = files w ∨ names w !! path = Some O ∧
   Forall (λ f, f.(o_inode) = O ∧ f.(o_append) = true) (files w')) →
  append_world (record_call i a z w').
Proof.
  intros H Hd Hn Hi Hh Hf. unfold append_world, record_call. cbn [names inodes files history].
  rewrite Hh, written_snoc, Hd, app_nil_r, Hn, Hi. destruct H as [(H1 & H2 & H3 & H4)|(H1 & H2 & H3)].
  - left. destruct Hf as [Hf|[Hf _]]; [by rewrite Hf|congruence].
  - right. destruct Hf as [Hf|[_ Hf]]; [by rewrite Hf|done].
Qed.

Lemma pop_world w : append_world w → append_world (pop w).2.
Proof. unfold pop. destruct (statuses w); [done|]. intros H. exact H. Qed.

Lemma append_open i flags z w w' :
  has flags O_APPEND = true → append_world w → open_file path flags w = (z, w') →
  append_world (record_call i (AOpen path flags) z w').
Proof.
  intros Hf H. unfold open_file. rewrite Hf.
  assert (Hw : ∀ z, append_world (record_call i (AOpen path flags) z w)).
  { intros z'. apply (append_world_same w); auto. }
  destruct H as [(H1 & H2 & H3 & H4)|(H1 & H2 & H3)]; rewrite H1.
  - destruct (has flags O_CREAT); intros [= <- <-]; [|apply Hw].
    right. unfold record_call. cbn [names inodes files history].
    rewrite H2, H3, written_snoc. simpl. rewrite app_nil_r, H4, lookup_insert_eq.
    split_and!; [done|done|]. by repeat constructor.
  - destruct (_ && _); intros [= <- <-]; [apply Hw|].
    apply (append_world_same w); try done; [by right|]. right. split; [done|]. cbn [files].
    apply Forall_app. split; [done|]. by repeat constructor.
Qed.

(** What a call on a descriptor finds. *)
Lemma append_on_file fd f w z w' :
  append_world w → on_file fd f w = (z, w') → (z = - EBADF ∧ w' = w) ∨
  ∃ o c, names w !! path = Some O ∧ inodes w = [c] ∧ c = default [] c0 ++ (written (history w)).*2 ∧
    o.(o_inode) = O ∧ o.(o_append) = true ∧
    Forall (λ f, f.(o_inode) = O ∧ f.(o_append) = true) (files w) ∧ f o c w = (z, w').
Proof.
  intros H. unfold on_file. destruct (if fd <? 0 then None else _) as [o|] eqn:Ho;
    [|intros [= <- <-]; by left]. destruct (fd <? 0); [done|].
  destruct H as [(_ & _ & H3 & _)|(H1 & H2 & H3)]; [by rewrite H3 in Ho|].
  destruct (Forall_lookup_1 _ _ _ _ H3 Ho) as [Hi Ha]. rewrite Hi, H2. simpl. intros Hf. right.
  by exists o, (default [] c0 ++ (written (history w)).*2).
Qed.

Lemma append_write i fd data (k : bytes → bytes) w z w' :
  append_world w →
  on_file fd (λ o c w, (Z.of_nat (length (k data)),
    set_inode o.(o_inode) (store_at (if o.(o_append) then length c else o.(o_offset)) (k data) c)
      (set_offset fd o ((if o.(o_append) then length c else o.(o_offset)) + length (k data)) w))) w =
    (z, w') →
  take (Z.to_nat z) data = take (Z.to_nat z) (k data) →
  append_world (record_call i (AWrite fd data) z w').
Proof.
  intros H Hf Hk. destruct (append_on_file _ _ _ _ _ H Hf) as [[-> ->]|(o & c & H1 & H2 & H3 & Ho & Ha & Hfs & Heq)].
  { by apply (append_world_same w); auto. }
  rewrite Ho, Ha, store_at_end in Heq. injection Heq as <- <-. right.
  unfold record_call, set_inode, set_offset. cbn [names inodes files history].
  rewrite H2, written_snoc, fmap_app, app_assoc, <- H3. cbn [data_of]. rewrite Hk, Nat2Z.id, firstn_all.
  split_and!; [done| |].
  - simpl. do 2 f_equal. clear. induction (k data) as [|b l IH]; [done|]. simpl. f_equal. exact IH.
  - apply Forall_insert; [done|by split].
Qed.

Lemma append_call i r a w z w' :
  only_appends i (own i (history w)) a → append_world w → perform i r a w = Val z w' → append_world w'.
Proof.
  intros [Ha _] H (w1 & Hd & ->)%performed. pose proof (pop_world w H) as Hp.
  assert (Hfail : ∀ e w0, append_world w0 → 0 < e → append_world (record_call i a (- e) w0)).
  { intros e w0 H0 He. apply (append_world_same w0); auto. destruct a; try done. cbn [data_of].
    by replace (Z.to_nat (- e)) with O by lia. }
  unfold do_call in Hd. destruct a; try (injection Hd as <- <-; apply (append_world_same w); by auto);
    destruct (pop w) as [v w0]; simpl in Hp; destruct (Z.ltb_spec 0 v);
    try (injection Hd as <- <-; by apply Hfail).
  - destruct Ha as [-> Ha]. by eapply append_open.
  - destruct (append_on_file _ _ _ _ _ Hp Hd) as [[-> ->]|(o & c & H1 & H2 & H3 & Ho & Hap & Hf & Heq)].
    { by apply (append_world_same w0); auto. }
    injection Heq as <- <-. apply (append_world_same w0); try done. right. split; [done|].
    apply Forall_insert; [done|by split].
  - eapply (append_write i fd data (λ d, if v <? 0 then take (Z.to_nat (- v)) d else d)); [exact Hp|exact Hd|].
    destruct (append_on_file _ _ _ _ _ Hp Hd) as [[-> ->]|(o & c & H1 & H2 & H3 & Ho & Hap & Hf & Heq)].
    { by destruct (v <? 0). }
    injection Heq as <- _. rewrite Nat2Z.id. destruct (v <? 0); [|done].
    rewrite firstn_all, length_take. destruct (Nat.min_spec (Z.to_nat (- v)) (length data)) as [[? ->]|[? ->]]; [done|].
    by rewrite firstn_all, take_ge.
  - injection Hd as <- <-. by apply (append_world_same w0); auto.
Qed.

(** The file has, after what it held at first, what was written, and each process's
    part of that is a beginning of its output: all of it if the process succeeded. *)
Definition appended (c : config action label world) : Prop :=
  default [] (file_content path c.(wld)) = default [] c0 ++ (written c.(wld).(history)).*2 ∧
  ∀ i a, procs !! i = Some a →
    by_writer i (written c.(wld).(history)) `prefix_of` output a ∧
    (c.(pool) !! i = Some (End (Exited EXIT_SUCCESS)) →
     by_writer i (written c.(wld).(history)) = output a).

Local Abbreviation append_inv :=
  (abides (λ w i, own i (history w)) only_appends appended_all append_at (λ _ _, False) append_world).

Lemma append_inv_appended c :
  length c.(pool) = length procs → append_inv c → appended c.
Proof.
  intros Hl (Hw & _ & Hc). split.
  { unfold file_content. destruct Hw as [(-> & _ & _ & ->)|(-> & -> & _)]; done. }
  intros i a Ha. rewrite by_writer_own.
  assert (Ho : out_of i = output a) by (unfold out_of; by rewrite Ha).
  destruct (lookup_lt_is_Some_2 c.(pool) i) as [p Hp].
  { rewrite Hl. by eapply lookup_lt_Some. }
  specialize (Hc i p Hp). rewrite Hp, <- Ho. split.
  - destruct p as [x|f|l|e k]; [done|apply Hc| |apply Hc]. simpl in Hc.
    destruct l; try (destruct Hc as [-> _]; apply prefix_nil);
      (destruct Hc as [_ Hc]; by eexists).
  - intros [= ->]. by apply Hc.
Qed.

Lemma sched_step_pool i (a b : config action label world) :
  sched_step i a = Some b → length b.(pool) = length a.(pool).
Proof.
  destruct a as [p w [f|]]; [done|]. intros (c & c2 & w2 & _ & -> & _)%sched_moves.
  - cbn [pool]. by rewrite length_insert.
  - done.
  - apply not_spawned.
Qed.

Lemma append_inv_start st :
  append_inv (launch (append_start <$> procs) (fresh path c0 st)).
Proof.
  apply abides_start.
  - destruct c0 as [c|] eqn:Hc; [right|left].
    + rewrite Hc. cbn. by rewrite app_nil_r, lookup_singleton_eq.
    + by rewrite Hc.
  - intros i. by destruct c0.
  - intros i l. rewrite list_lookup_fmap. destruct (procs !! i) as [a|] eqn:Ha; [|done]. intros [= <-].
    unfold append_start.
    destruct a as [[|] pid nm num]; simpl; (split; [done|by eexists]).
Qed.
End append.

(** C9: however many processes append to one file with [atomic_append] and
    [yatomicappend], each run with the two arguments that make it open the file with
    [O_APPEND] (the file and the number of bytes; with a third argument the programs
    seek to the end before each write and do lose data, [lseek_loses]), however they
    are interleaved and whichever calls fail, at
    every point the file holds what it held at first and then every byte that was
    written, none of them lost or overwritten; what each process has written is a
    beginning of its output, in order, and all of it if the process reports
    success; and all processes end. *)
Theorem appends_lose_nothing path c0 procs st :
  let start := launch (append_start path <$> procs) (fresh path c0 st) in
  (∀ c, reachable start c → appended path c0 procs c) ∧
  inevitably (λ c, Forall has_ended c.(pool) ∧ appended path c0 procs c) start.
Proof.
  intros start.
  set (I c := length c.(pool) = length procs ∧
    abides (λ w i, own i (history w)) (only_appends path procs) (appended_all procs)
      (append_at path procs) (λ _ _, False) (append_world path c0) c).
  assert (HI : ∀ i a b, I a → sched_step i a = Some b → I b).
  { intros i a b [Hl Ha] Hs. split; [by rewrite (sched_step_pool _ _ _ Hs)|].
    refine (abides_step _ _ _ _ _ _ recorded _ _ _ i a b Ha Hs).
    - intros j r e w l w2 _ H. by destruct (not_spawned _ _ _ _ _ _ H).
    - apply appends_body.
    - intros j r e w o _ HG HK Ho. destruct (performs j r e w) as (z & w2 & He). rewrite He in Ho. subst o.
      by eapply append_call. }
  assert (Hs : I start).
  { split; [unfold start, launch; cbn [pool]; by rewrite !length_fmap|apply append_inv_start]. }
  assert (HA : ∀ c, I c → appended path c0 procs c) by (intros c [Hl Hc]; by apply append_inv_appended).
  split.
  - intros c Hr. apply HA. by apply (invariant_reachable I start c HI Hs).
  - eapply inevitably_weaken; [|by apply (all_end I)]. intros c [He Hc]. by auto.
Qed.

Definition two_appenders : list appender :=
  [Appender false 10 "atomic_append" "2"; Appender true 20 "yatomicappend" "3"].

(** Alternating writes; the first process is done, the second has one byte left. *)
Lemma appends_lose_nothing_witness :
  ∃ c, reachable (launch (append_start "f" <$> two_appenders) (fresh "f" (Some (chars "old")) [])) c ∧
    file_content "f" c.(wld) = Some (chars "oldxAxB") ∧ appended "f" (Some (chars "old")) two_appenders c ∧
    by_writer 1 (written c.(wld).(history)) = chars "AB".
Proof.
  destruct (run_schedule_view (λ c, (file_content "f" c.(wld), by_writer 1 (written c.(wld).(history))))
    [0; 0; 1; 1; 0; 0; 1; 1; 0; 0; 1; 1; 0; 0]%nat
    (launch (append_start "f" <$> two_appenders) (fresh "f" (Some (chars "old")) []))
    (Some (chars "oldxAxB"), chars "AB")) as (c & Hr & [= Hf Hb]); [vm_compute; reflexivity|].
  exists c. split; [exact Hr|]. split; [exact Hf|]. split; [|exact Hb].
  by apply (appends_lose_nothing "f" (Some (chars "old")) two_appenders []).
Defined.

(** Without [O_APPEND], seeking to the end and writing are two calls: both
    processes report success, and a byte of one is lost. *)
Example lseek_loses :
  ∃ c, reachable (launch [AppendStart 10 ["a"; "f"; "1"; "x"]; AppendStart 20 ["a"; "f"; "1"; "x"]]
                    (fresh "f" None [])) c ∧
    c.(pool) = [End (Exited EXIT_SUCCESS); End (Exited EXIT_SUCCESS)] ∧
    file_content "f" c.(wld) = Some (chars "x").
Proof.
  destruct (run_schedule_view (λ c, (c.(pool), file_content "f" c.(wld)))
    [0; 0; 1; 1; 0; 0; 1; 1; 0; 1; 0; 0; 1; 1]%nat
    (launch [AppendStart 10 ["a"; "f"; "1"; "x"]; AppendStart 20 ["a"; "f"; "1"; "x"]] (fresh "f" None []))
    ([End (Exited EXIT_SUCCESS); End (Exited EXIT_SUCCESS)], Some (chars "x")))
    as (c & Hr & [= Hp Hf]); [vm_compute; reflexivity|].
  by exists c.
Qed.

(** ** Exclusive creation *)

(** The processes that said they created the file; and how often one opened it. *)
Definition is_claim (x : action * Z) : bool := match x with (AClaim _ _, _) => true | _ => false end.
Definition is_created (x : action * Z) : bool :=
  match x with (AOpen _ _, fd) => 0 <=? fd | _ => false end.
Definition claims (H : list (nat * (action * Z))) : list nat :=
  fst <$> filter (λ x, is_claim x.2 = true) H.
Definition count (f : action * Z → bool) (h : list (action * Z)) : Z := total (λ x, if f x then 1 else 0) h.

Lemma count_snoc f h x : count f (h ++ [x]) = count f h + if f x then 1 else 0.
Proof. unfold count. rewrite total_app. simpl. lia. Qed.

(** A count over all processes is the sum of theirs. *)
Lemma count_all f n H :
  Forall (λ x, (x.1 < n)%nat) H → count f (snd <$> H) = total (λ i, count f (own i H)) (seq 0 n).
Proof.
  induction H as [|[i x] H IH] using rev_ind; intros Hn.
  { simpl. symmetry. clear. induction (seq 0 n) as [|j l IHl]; [done|]. simpl. exact IHl. }
  apply Forall_app in Hn as [Hn [Hi _]%Forall_cons]. simpl in Hi.
  rewrite fmap_app. simpl. rewrite count_snoc, (IH Hn). clear IH.
  assert (Hs : ∀ l, NoDup l → total (λ j, count f (own j (H ++ [(i, x)]))) l =
    total (λ j, count f (own j H)) l + if decide (i ∈ l) then if f x then 1 else 0 else 0).
  { induction l as [|j l IHl]; intros Hd; [done|]. apply NoDup_cons in Hd as [Hj Hd]. simpl.
    rewrite (IHl Hd), own_snoc. destruct (decide (i = j)) as [->|Hij].
    - rewrite count_snoc, decide_False by done. rewrite decide_True by by left. lia.
    - rewrite app_nil_r. destruct (decide (i ∈ l)).
      + rewrite decide_True by by right. lia.
      + rewrite decide_False; [lia|]. intros [|]%elem_of_cons; done. }
  rewrite Hs by apply NoDup_seq. rewrite decide_True; [done|]. apply elem_of_seq. lia.
Qed.

Lemma claims_count H : Z.of_nat (length (claims H)) = count is_claim (snd <$> H).
Proof.
  induction H as [|[i x] H IH]; [done|]. change (snd <$> _) with (x :: (snd <$> H)).
  change (count is_claim (x :: (snd <$> H))) with ((if is_claim x then 1 else 0) + count is_claim (snd <$> H)).
  rewrite <- IH. unfold claims. rewrite filter_cons. cbn [snd].
  destruct (is_claim x); [rewrite decide_True by done|rewrite decide_False by done]; [|done].
  rewrite fmap_cons. cbn [length]. lia.
Qed.

Section exclusive.
Variables (path : string) (c0 : option bytes) (procs : list (Z * string * list string)).

(** Process id, name and further arguments. *)
Definition excl_start (x : Z * string * list string) : label := ExclStart x.1.1 (x.1.2 :: path :: x.2).

Definition only_creates (i : nat) (h : list (action * Z)) (a : action) : Prop :=
  (i < length procs)%nat ∧ count is_claim h <= count is_created h ∧
  match a with
  | AOpen p fl => p = path ∧ has fl O_CREAT = true ∧ has fl O_EXCL = true
  | AClaim _ _ => count is_created h = 1 ∧ count is_claim h = 0
  | _ => True
  end.

(** Who created the file has said so, and no one else. *)
Definition told (i : nat) (h : list (action * Z)) (f : fate) : Prop := count is_claim h = count is_created h.

Definition excl_at (i : nat) (h : list (action * Z)) (l : label) : Prop :=
  h = [] ∧ ∃ x, procs !! i = Some x ∧ l = excl_start x.

Local Abbreviation creates i h c :=
  (respects (A := unit) (only_creates i) (told i) (excl_at i) h c (λ _ _, False)).

(** A call that is neither, which leaves the counts alone. *)
Lemma creates_call i h a (k : Z → prog unit) :
  (i < length procs)%nat → count is_claim h <= count is_created h →
  match a with AOpen _ _ | AClaim _ _ => False | _ => True end →
  (∀ h', count is_claim h' = count is_claim h → count is_created h' = count is_created h →
     ∀ z, creates i h' (k z)) →
  creates i h (z ← act a; k z).
Proof.
  intros Hi Hle Ha Hk. split; [by destruct a|]. intros z. apply Hk; rewrite count_snoc; destruct a; try done;
    simpl; lia.
Qed.

Lemma creates_use i h pid fd :
  (i < length procs)%nat → count is_claim h = 0 → count is_created h = 1 →
  creates i h (use_file pid path fd).
Proof.
  intros Hi Hc Ho. unfold use_file. split; [split; [done|split; [lia|done]]|]. intros z. simpl code_seq.
  set (h1 := h ++ _). assert (Hc1 : count is_claim h1 = 1) by (unfold h1; rewrite count_snoc; simpl; lia).
  assert (Ho1 : count is_created h1 = 1) by (unfold h1; rewrite count_snoc; simpl; lia). clearbody h1.
  apply (creates_call _ _ (AWrite fd _)); [done|lia|done|]. intros h2 Hc2 Ho2 n.
  destruct (negb _); [simpl; unfold told; lia|].
  apply (creates_call _ _ (AClose fd)); [done|lia|done|]. intros h3 Hc3 Ho3 m. simpl. unfold told. lia.
Qed.

Lemma creates_body i h l : excl_at i h l → creates i h (body l).
Proof.
  intros (-> & x & Hx & ->). assert (Hi : (i < length procs)%nat) by by eapply lookup_lt_Some.
  simpl body. unfold yoexcl.main. destruct (is_help path); [done|].
  split; [split; [done|split; [done|done]]|]. intros fd. simpl code_seq.
  destruct (Z.ltb_spec fd 0) as [Hfd|Hfd].
  - assert (Ho : count is_created ([] ++ [(AOpen path (Z.lor (Z.lor O_WRONLY O_CREAT) O_EXCL), fd)]) = 0).
    { rewrite count_snoc. simpl. destruct (Z.leb_spec 0 fd); [lia|done]. }
    assert (Hc : count is_claim ([] ++ [(AOpen path (Z.lor (Z.lor O_WRONLY O_CREAT) O_EXCL), fd)]) = 0) by done.
    revert Hc Ho. generalize ([] ++ [(AOpen path (Z.lor (Z.lor O_WRONLY O_CREAT) O_EXCL), fd)]).
    intros h Hc Ho. destruct (- fd =? EEXIST); [|simpl; unfold told; lia].
    apply (creates_call _ _ (APrint _ _)); [done|lia|done|]. intros h2 Hc2 Ho2 n. simpl. unfold told. lia.
  - assert (Ho : count is_created ([] ++ [(AOpen path (Z.lor (Z.lor O_WRONLY O_CREAT) O_EXCL), fd)]) = 1).
    { rewrite count_snoc. simpl. destruct (Z.leb_spec 0 fd); [done|lia]. }
    assert (Hc : count is_claim ([] ++ [(AOpen path (Z.lor (Z.lor O_WRONLY O_CREAT) O_EXCL), fd)]) = 0) by done.
    revert Hc Ho. generalize ([] ++ [(AOpen path (Z.lor (Z.lor O_WRONLY O_CREAT) O_EXCL), fd)]).
    intros h Hc Ho. unfold delay. destruct x.2 as [|r rest]; [by apply creates_use|].
    apply (creates_call _ _ (ASleep 5)); [done|lia|done|]. intros h2 Hc2 Ho2 n.
    apply (creates_call _ _ (APrint _ _)); [done|lia|done|]. intros h3 Hc3 Ho3 m.
    apply creates_use; [done|lia|lia].
Qed.

(** How often the file was created. *)
Definition excl_world (w : world) : Prop :=
  Forall (λ x, (x.1 < length procs)%nat) w.(history) ∧
  count is_created (snd <$> w.(history)) =
    match c0, w.(names) !! path with None, Some _ => 1 | _, _ => 0 end ∧
  (is_Some c0 → is_Some (w.(names) !! path)).

Lemma excl_world_same w w' i a z :
  (i < length procs)%nat → excl_world w → is_created (a, z) = false → names w' = names w →
  history w' = history w → excl_world (record_call i a z w').
Proof.
  intros Hi (H1 & H2 & H3) Ha Hn Hh. unfold excl_world, record_call. cbn [names history]. rewrite Hh, Hn.
  split_and!; [apply Forall_app; split; [done|by repeat constructor]| |done].
  rewrite fmap_app. simpl. rewrite count_snoc, Ha. lia.
Qed.

Lemma on_file_names fd f w :
  (∀ o c, names (f o c w).2 = names w) → names (on_file fd f w).2 = names w.
Proof.
  intros Hf. unfold on_file. destruct (if fd <? 0 then _ else _) as [o|]; [|done].
  destruct (inodes w !! o_inode o); [apply Hf|done].
Qed.

Lemma excl_open i flags w z w' :
  (i < length procs)%nat → has flags O_CREAT = true → has flags O_EXCL = true → excl_world w →
  open_file path flags w = (z, w') → excl_world (record_call i (AOpen path flags) z w').
Proof.
  intros Hi Hc He H. unfold open_file. rewrite Hc, He. destruct (names w !! path) as [n|] eqn:Hn; simpl.
  { intros [= <- <-]. by apply (excl_world_same w). }
  intros [= <- <-]. destruct H as (H1 & H2 & H3). unfold excl_world, record_call. cbn [names history].
  rewrite lookup_insert_eq, fmap_app. simpl. rewrite count_snoc. unfold is_created at 2.
  rewrite (proj2 (Z.leb_le 0 _)) by lia. rewrite H2, Hn.
  split_and!; [apply Forall_app; split; [done|by repeat constructor]| |by eexists].
  destruct c0; [|done]. destruct H3 as [? H3]; [by eexists|congruence].
Qed.

Lemma excl_call i r a w z w' :
  only_creates i (own i (history w)) a → excl_world w → perform i r a w = Val z w' → excl_world w'.
Proof.
  intros (Hi & _ & Ha) H (w1 & Hd & ->)%performed.
  assert (Hp : excl_world (pop w).2) by (unfold pop; destruct (statuses w); [done|exact H]).
  unfold do_call in Hd.
  destruct a; try (injection Hd as <- <-; by apply (excl_world_same w));
    destruct (pop w) as [v w0]; simpl in Hp; destruct (Z.ltb_spec 0 v);
    try (injection Hd as <- <-; apply (excl_world_same w0); try done; simpl; apply Z.leb_gt; lia).
  { destruct Ha as (-> & Hc & He). by eapply excl_open. }
  all: pose proof (f_equal (λ x, history x.2) Hd) as Hh; pose proof (f_equal (λ x, names x.2) Hd) as Hn;
    simpl in *; rewrite on_file_history in Hh by done; rewrite on_file_names in Hn by done;
    by apply (excl_world_same w0).
Qed.

Local Abbreviation excl_inv :=
  (abides (λ w i, own i (history w)) only_creates told excl_at (λ _ _, False) excl_world).

(** How many have said so: at most as many as created it, and just as many at the end. *)
Lemma excl_claims c :
  length c.(pool) = length procs → excl_inv c →
  Z.of_nat (length (claims c.(wld).(history))) <= count is_created (snd <$> c.(wld).(history)) ∧
  (Forall has_ended c.(pool) →
   Z.of_nat (length (claims c.(wld).(history))) = count is_created (snd <$> c.(wld).(history))).
Proof.
  intros Hl ((Hn & _ & _) & _ & Hc). rewrite claims_count, !(count_all _ _ _ Hn).
  set (le_all f g := ∀ i x, seq 0 (length procs) !! i = Some x →
    count f (own x (history (wld c))) <= count g (own x (history (wld c)))).
  assert (Hp : ∀ i x, seq 0 (length procs) !! i = Some x → ∃ p, pool c !! x = Some p ∧
    respects (only_creates x) (told x) (excl_at x) (own x (history (wld c))) p (λ _ _, False)).
  { intros i x [-> Hi]%lookup_seq. destruct (lookup_lt_is_Some_2 (pool c) (0 + i)) as [p Hp]; [lia|].
    exists p. split; [done|]. by apply Hc. }
  assert (Hle : le_all is_claim is_created).
  { intros i x Hx. destruct (Hp i x Hx) as (p & _ & H). destruct p as [?|f|l|e k]; [done|..].
    - simpl in H. unfold told in H. lia.
    - destruct H as [-> _]. done.
    - apply H. }
  split; [apply total_mono; exact Hle|]. intros He. apply Z.le_antisymm; apply total_mono; [exact Hle|].
  intros i x Hx. destruct (Hp i x Hx) as (p & Hpx & H). rewrite Forall_lookup in He. specialize (He x p Hpx).
  destruct p as [?|f|l|e k]; [done| |done|done]. simpl in H. unfold told in H. lia.
Qed.
End exclusive.

(** C10: however many processes run [yoexcl] for one file, however they are
    interleaved and whichever calls fail, at most one of them says that it has
    created the file; all of them end, and then one has said so just if the file
    was not there at first and is there now. *)
Theorem exclusive_creation path c0 procs st :
  let start := launch (excl_start path <$> procs) (fresh path c0 st) in
  (∀ c, reachable start c → (length (claims c.(wld).(history)) <= 1)%nat) ∧
  inevitably (λ c, Forall has_ended c.(pool) ∧
    length (claims c.(wld).(history)) =
      match c0, c.(wld).(names) !! path with None, Some _ => 1%nat | _, _ => 0%nat end) start.
Proof.
  intros start.
  set (I c := length c.(pool) = length procs ∧
    abides (λ w i, own i (history w)) (only_creates path procs) told (excl_at path procs)
      (λ _ _, False) (excl_world path c0 procs) c).
  assert (HI : ∀ i a b, I a → sched_step i a = Some b → I b).
  { intros i a b [Hl Ha] Hs. split; [by rewrite (sched_step_pool _ _ _ Hs)|].
    refine (abides_step _ _ _ _ _ _ recorded _ _ _ i a b Ha Hs).
    - intros j r e w l w2 _ H. by destruct (not_spawned _ _ _ _ _ _ H).
    - apply creates_body.
    - intros j r e w o _ HG HK Ho. destruct (performs j r e w) as (z & w2 & He). rewrite He in Ho. subst o.
      by eapply excl_call. }
  assert (Hs : I start).
  { split; [unfold start, launch; cbn [pool]; by rewrite !length_fmap|]. apply abides_start.
    - destruct c0 as [c|]; (split; [constructor|]); (split; [done|]); cbn [fresh names].
      + rewrite lookup_singleton_eq. by eexists.
      + by intros [].
    - intros i. by destruct c0.
    - intros i l. rewrite list_lookup_fmap. destruct (procs !! i) as [x|] eqn:Hx; [|done]. intros [= <-].
      split; [done|by eexists]. }
  split.
  - intros c Hr. destruct (invariant_reachable I start c HI Hs Hr) as [Hl Hc].
    destruct (excl_claims path c0 procs c Hl Hc) as [H _]. destruct Hc as ((_ & Hw & _) & _).
    rewrite Hw in H. destruct c0, (names (wld c) !! path); lia.
  - eapply inevitably_weaken; [|by apply (all_end I)]. intros c [He [Hl Hc]]. split; [done|].
    destruct (excl_claims path c0 procs c Hl Hc) as [_ H]. specialize (H He).
    destruct Hc as ((_ & Hw & _) & _). rewrite Hw in H. destruct c0, (names (wld c) !! path); lia.
Qed.

Definition three_creators : list (Z * string * list string) := [(10, "p", ["x"]); (20, "p", []); (30, "p", ["x"])].

(** The second process creates the file while the others are about to try. *)
Lemma exclusive_creation_witness :
  let start := launch (excl_start "f" <$> three_creators) (fresh "f" None []) in
  (∃ c, reachable start c ∧ claims c.(wld).(history) = [1%nat] ∧ (length (claims c.(wld).(history)) <= 1)%nat) ∧
  inevitably (λ c, Forall has_ended c.(pool) ∧
    length (claims c.(wld).(history)) =
      match None : option bytes, c.(wld).(names) !! "f" with None, Some _ => 1%nat | _, _ => 0%nat end) start.
Proof.
  intros start. destruct (exclusive_creation "f" None three_creators []) as [H1 H2]. split; [|exact H2].
  destruct (run_schedule_view (λ c, claims c.(wld).(history)) [0; 1; 2; 1; 1; 0; 0; 2]%nat start [1%nat])
    as (c & Hr & Hc); [vm_compute; reflexivity|]. exists c. split; [done|]. split; [done|]. by apply H1.
Defined.

(** Looking first and creating after is no such test: both processes take the file
    for their own, in the book's program and in the exercise, and in the latter
    both write to it. *)
Example bad_exclusive_open_both :
  ∃ c, reachable (launch [BadStart 10 ["p"; "f"; "x"]; BadStart 20 ["p"; "f"]] (fresh "f" None [])) c ∧
    Forall has_ended c.(pool) ∧ claims c.(wld).(history) = [1%nat; 0%nat].
Proof.
  destruct (run_schedule_view (λ c, (forallb has_ended c.(pool), claims c.(wld).(history)))
    [0; 0; 0; 1; 1; 1; 1; 1; 0; 0; 0; 0]%nat
    (launch [BadStart 10 ["p"; "f"; "x"]; BadStart 20 ["p"; "f"]] (fresh "f" None []))
    (true, [1%nat; 0%nat])) as (c & Hr & [= Hp Hc]); [vm_compute; reflexivity|].
  exists c. split; [done|]. split; [|done]. apply (forallb_True has_ended). by rewrite Hp.
Qed.

Example ybadoexcl_both :
  ∃ c, reachable (launch [YBadStart 10 ["p"; "f"; "x"]; YBadStart 20 ["p"; "f"]] (fresh "f" None [])) c ∧
    claims c.(wld).(history) = [1%nat; 0%nat] ∧
    file_content "f" c.(wld) = Some (chars ("[PID:20] Written." +:+ nl +:+ "[PID:10] Written." +:+ nl)).
Proof.
  destruct (run_schedule_view (λ c, (claims c.(wld).(history), file_content "f" c.(wld)))
    [0; 0; 0; 1; 1; 1; 1; 1; 1; 1; 0; 0; 0; 0; 0; 0]%nat
    (launch [YBadStart 10 ["p"; "f"; "x"]; YBadStart 20 ["p"; "f"]] (fresh "f" None []))
    ([1%nat; 0%nat], Some (chars ("[PID:20] Written." +:+ nl +:+ "[PID:10] Written." +:+ nl))))
    as (c & Hr & [= Hc Hf]); [vm_compute; reflexivity|]. by exists c.
Qed.
