(* ===== verification/CondVar.v ===== *)
(** Producers and a consumer: [threads/prod_condvar.c] and
    [threads/prod_no_condvar.c].

    Any number of producer threads make units, and [main] consumes them, waiting
    on a condition variable or polling.  Threads interleave at every call and at
    every access to the shared counter.  With the condition variable no wake-up
    is lost: under every schedule the process ends having consumed exactly what
    was asked for. *)
From stdpp Require Import relations.
From S2P Require Import Prelude CLib Conc.
Local Open Scope Z_scope.

(** ** Threads, a mutex and a condition variable *)

(** Nobody waits; [main] waits and was not woken; it was woken and has not
    returned from the wait. *)
Inductive cond := Idle | Waiting | Signalled.

(** [spurious] bounds the returns from a wait without a signal; [clock] is what
    [time] is going to return. *)
Record shared := Shared {
  avail : Z; mtx : option nat; cv : cond; lines : list string;
  spurious : nat; clock : list Z; statuses : list Z
}.

Inductive label :=
| Main (args : list string)
| Create (t : Z) (args : list string) (tot : Z)
| Outer (t tot n : Z) (done : bool)
| Wait (t tot n : Z) (done : bool)
| Consume (t tot n : Z) (done : bool)
| Produce (cnt j : Z).

Inductive action :=
| ALock | AUnlock
| AWait       (* pthread_cond_wait gives the mutex up and waits *)
| AWoken      (* and returns with the mutex taken again *)
| ASignal
| ALoad | AStore (v : Z)
| ACreate (l : label)
| ATime
| APrint (t : string).

Definition set_mtx (m : option nat) (w : shared) : shared :=
  Shared w.(avail) m w.(cv) w.(lines) w.(spurious) w.(clock) w.(statuses).
Definition set_cv (c : cond) (w : shared) : shared :=
  Shared w.(avail) w.(mtx) c w.(lines) w.(spurious) w.(clock) w.(statuses).

Definition do_action (i : nat) (_ : list bool) (a : action) (w : shared) : outcome label shared :=
  match a with
  | ALock => match w.(mtx) with
             | None => Val 0 (set_mtx (Some i) w)
             | Some _ => Blocked
             end
  | AUnlock => if decide (w.(mtx) = Some i) then Val 0 (set_mtx None w) else Val EPERM w
  | AWait => if decide (w.(mtx) = Some i) then Val 0 (set_cv Waiting (set_mtx None w))
             else Val EPERM w
  | AWoken =>
      match w.(mtx), w.(cv), w.(spurious) with
      | None, Signalled, _ => Val 0 (set_cv Idle (set_mtx (Some i) w))
      | None, Waiting, S k =>
          Val 0 (Shared w.(avail) (Some i) Idle w.(lines) k w.(clock) w.(statuses))
      | _, _, _ => Blocked
      end
  | ASignal => Val 0 (match w.(cv) with Waiting => set_cv Signalled w | _ => w end)
  | ALoad => Val w.(avail) w
  | AStore v => Val 0 (Shared v w.(mtx) w.(cv) w.(lines) w.(spurious) w.(clock) w.(statuses))
  | ACreate l =>
      match w.(statuses) with
      | [] => Spawn l w
      | s :: st =>
          let w := Shared w.(avail) w.(mtx) w.(cv) w.(lines) w.(spurious) w.(clock) st in
          if s =? 0 then Spawn l w else Val (- s) w
      end
  | ATime =>
      match w.(clock) with
      | [] => Val 0 w
      | t :: ts => Val t (Shared w.(avail) w.(mtx) w.(cv) w.(lines) w.(spurious) ts w.(statuses))
      end
  | APrint t =>
      Val 0 (Shared w.(avail) w.(mtx) w.(cv) (w.(lines) ++ [t]) w.(spurious) w.(clock) w.(statuses))
  end.

Local Abbreviation prog := (code action label).

(** ** [pthread_wrappers.c] *)

Definition checked (msg : string) (a : action) : prog unit :=
  s ← act a; check_status s msg.
Definition Pthread_create (l : label) : prog unit :=
  t ← act (ACreate l); if t <? 0 then End (Failed (- t) "pthread_create() failed") else mret tt.
Definition Pthread_mutex_lock : prog unit := checked "pthread_mutex_lock() failed" ALock.
Definition Pthread_mutex_unlock : prog unit := checked "pthread_mutex_unlock() failed" AUnlock.
Definition Pthread_cond_signal : prog unit := checked "pthread_cond_signal() failed" ASignal.
Definition Pthread_cond_wait : prog unit :=
  s ← act AWait;
  if s =? 0 then checked "pthread_cond_wait() failed" AWoken
  else End (Failed s "pthread_cond_wait() failed").

(** [avail++], [avail--], and [numConsumed++] of a variable that is [n]. *)
Definition avail_incr : prog unit :=
  v ← act ALoad; if v =? INT_MAX then End Undefined else _ ← act (AStore (v + 1)); mret tt.
Definition avail_decr : prog unit :=
  v ← act ALoad; if v =? INT_MIN then End Undefined else _ ← act (AStore (v - 1)); mret tt.
Definition consumed_incr (n : Z) : prog unit := if n =? INT_MAX then End Undefined else mret tt.

(** [for (j = 1; j < argc; j++) { totRequired += atoi(argv[j]); ... }], the same in
    both programs; [args] is what is left of [argv]. *)
Definition create_loop (t : Z) (args : list string) (tot : Z) : prog unit :=
  match args with
  | [] => Goto (Outer t tot 0 false)
  | a :: args =>
      let tot := tot + atoi a in
      if (tot <? INT_MIN) || (INT_MAX <? tot) then End Undefined else
      _ ← Pthread_create (Produce (atoi a) 0);
      Goto (Create t args tot)
  end.

(** [main] up to the loop: the usage check and [time]. *)
Definition main_start (args : list string) : prog unit :=
  match args with
  | [] => End (Exited EXIT_FAILURE)
  | _ => t ← act ATime; Goto (Create t args 0)
  end.

(** *** [prod_condvar.c] *)

Module prod_condvar.
Definition producer (cnt j : Z) : prog unit :=
  if j <? cnt then
    _ ← Pthread_mutex_lock;
    _ ← avail_incr;
    _ ← Pthread_mutex_unlock;
    _ ← Pthread_cond_signal;
    Goto (Produce cnt (j + 1))
  else mret tt.

(** [for (;;) {] and the lock; [while (avail == 0)]; [while (avail > 0)] and the
    end of the turn. *)
Definition outer (t tot n : Z) (done : bool) : prog unit :=
  _ ← Pthread_mutex_lock; Goto (Wait t tot n done).
Definition wait (t tot n : Z) (done : bool) : prog unit :=
  v ← act ALoad;
  if v =? 0 then _ ← Pthread_cond_wait; Goto (Wait t tot n done)
  else Goto (Consume t tot n done).
Definition consume (t tot n : Z) (done : bool) : prog unit :=
  v ← act ALoad;
  if 0 <? v then
    _ ← avail_decr;
    _ ← consumed_incr n;
    t' ← act ATime;
    _ ← act (APrint ("T=" +:+ fmt_d (t' - t) +:+ ": numConsumed=" +:+ fmt_d (n + 1) +:+ nl));
    Goto (Consume t tot (n + 1) (tot <=? n + 1))
  else
    _ ← Pthread_mutex_unlock;
    if done then End (Exited EXIT_SUCCESS) else Goto (Outer t tot n done).
End prod_condvar.

(** *** [prod_no_condvar.c] *)

Module prod_no_condvar.
Definition producer (cnt j : Z) : prog unit :=
  if j <? cnt then
    _ ← Pthread_mutex_lock;
    _ ← avail_incr;
    _ ← Pthread_mutex_unlock;
    Goto (Produce cnt (j + 1))
  else mret tt.

Definition outer (t tot n : Z) (done : bool) : prog unit :=
  _ ← Pthread_mutex_lock; Goto (Consume t tot n done).
Definition consume (t tot n : Z) (done : bool) : prog unit :=
  v ← act ALoad;
  if 0 <? v then
    _ ← consumed_incr n;
    _ ← avail_decr;
    t' ← act ATime;
    _ ← act (APrint ("Time=" +:+ fmt_d (t' - t) +:+ ": numConsumed=" +:+ fmt_d (n + 1) +:+ nl));
    Goto (Consume t tot (n + 1) (tot <=? n + 1))
  else
    _ ← Pthread_mutex_unlock;
    if done then End (Exited EXIT_SUCCESS) else Goto (Outer t tot n done).
End prod_no_condvar.

Definition condvar_sys : Sys action label shared := {|
  perform := do_action;
  body l := match l with
            | Main args => main_start args
            | Create t args tot => create_loop t args tot
            | Outer t tot n d => prod_condvar.outer t tot n d
            | Wait t tot n d => prod_condvar.wait t tot n d
            | Consume t tot n d => prod_condvar.consume t tot n d
            | Produce cnt j => prod_condvar.producer cnt j
            end;
  one_process := true
|}.

Definition no_condvar_sys : Sys action label shared := {|
  perform := do_action;
  body l := match l with
            | Main args => main_start args
            | Create t args tot => create_loop t args tot
            | Outer t tot n d => prod_no_condvar.outer t tot n d
            | Wait t tot n d | Consume t tot n d => prod_no_condvar.consume t tot n d
            | Produce cnt j => prod_no_condvar.producer cnt j
            end;
  one_process := true
|}.

(** The process at its start. *)
Definition start (args : list string) (sp : nat) (clk st : list Z) : config action label shared :=
  Config [Goto (Main args)] (Shared 0 None Idle [] sp clk st) None.

(** ** Both programs at once

    [wait] tells whether there is a condition variable, [pre] how a line starts. *)

Section producers.
Variable wait : bool.
Variable pre : string.

Definition line (dt k : Z) : string :=
  pre +:+ fmt_d dt +:+ ": numConsumed=" +:+ fmt_d k +:+ nl.

Definition producer_code (cnt j : Z) : prog unit :=
  if j <? cnt then
    _ ← Pthread_mutex_lock;
    _ ← avail_incr;
    _ ← Pthread_mutex_unlock;
    _ ← (if wait then Pthread_cond_signal else mret tt);
    Goto (Produce cnt (j + 1))
  else mret tt.

Definition print_code (t tot n t' : Z) : prog unit :=
  _ ← act (APrint (line (t' - t) (n + 1))); Goto (Consume t tot (n + 1) (tot <=? n + 1)).
Definition clock_code (t tot n : Z) : prog unit :=
  t' ← act ATime; print_code t tot n t'.
Definition unit_code (t tot n : Z) : prog unit :=
  _ ← (if wait then mret tt else consumed_incr n);
  _ ← avail_decr;
  _ ← (if wait then consumed_incr n else mret tt);
  clock_code t tot n.
Definition unlock_code (t tot n : Z) (d : bool) : prog unit :=
  _ ← Pthread_mutex_unlock;
  if d then End (Exited EXIT_SUCCESS) else Goto (Outer t tot n d).
Definition consume_code (t tot n : Z) (d : bool) : prog unit :=
  v ← act ALoad; if 0 <? v then unit_code t tot n else unlock_code t tot n d.
Definition outer_code (t tot n : Z) (d : bool) : prog unit :=
  _ ← Pthread_mutex_lock;
  Goto (if wait then Wait t tot n d else Consume t tot n d).

Local Instance producers_sys : Sys action label shared := {|
  perform := do_action;
  body l := match l with
            | Main args => main_start args
            | Create t args tot => create_loop t args tot
            | Outer t tot n d => outer_code t tot n d
            | Wait t tot n d =>
                if wait then prod_condvar.wait t tot n d else consume_code t tot n d
            | Consume t tot n d => consume_code t tot n d
            | Produce cnt j => producer_code cnt j
            end;
  one_process := true
|}.

(** What the arguments ask for. *)
Variable args : list string.
Definition cnts : list Z := atoi <$> args.
Definition units : Z := total id cnts.
Hypothesis args_given : args ≠ [].
Hypothesis cnts_nonneg : Forall (Z.le 0) cnts.
Hypothesis units_int : units <= INT_MAX.

(** *** Control points *)

Inductive tpc :=
| TFor (c j : Z) | TLock (c j : Z) | TLoad (c j : Z) | TStore (c j v : Z)
| TUnlock (c j : Z) | TSignal (c j : Z) | TRet (c : Z).

Definition at_signal (c j : Z) : prog unit :=
  _ ← (if wait then Pthread_cond_signal else mret tt); Goto (Produce c (j + 1)).
Definition at_unlock (c j : Z) : prog unit := _ ← Pthread_mutex_unlock; at_signal c j.
Definition at_load (c j : Z) : prog unit := _ ← avail_incr; at_unlock c j.

Definition tcode (p : tpc) : prog unit :=
  match p with
  | TFor c j => Goto (Produce c j)
  | TLock c j => _ ← Pthread_mutex_lock; at_load c j
  | TLoad c j => at_load c j
  | TStore c j v => Act (AStore v) (λ _, at_unlock c j)
  | TUnlock c j => at_unlock c j
  | TSignal c j => at_signal c j
  | TRet _ => Ret tt
  end.

(** [main]: [k] threads were created; [n] units were counted, some of them in
    this turn of the outer loop if [f]. *)
Inductive mpc :=
| MStart | MTime | MCreateG (k : nat) | MCreate (k : nat)
| MOuter (n : Z) | MLock (n : Z)
| MWaitG (n : Z) | MCheck (n : Z) | MWait (n : Z) | MWoken (n : Z)
| MConsG (n : Z) (f : bool) | MCons (n : Z) (f : bool) | MDec (n : Z) (f : bool)
| MStore (n v : Z) (f : bool) | MClock (n : Z) | MPrint (n t' : Z)
| MUnlock (n : Z) (f : bool) | MEnd (n : Z) | MFail (k : nat) (e : Z).

(** The variable [done]. *)
Definition dflag (n : Z) : bool := (0 <? n) && (units <=? n).
Definition sofar (k : nat) : Z := total id (take k cnts).

Definition mcode (t : Z) (p : mpc) : prog unit :=
  match p with
  | MStart => Goto (Main args)
  | MTime => main_start args
  | MCreateG k => Goto (Create t (drop k args) (sofar k))
  | MCreate k => create_loop t (drop k args) (sofar k)
  | MOuter n => Goto (Outer t units n (dflag n))
  | MLock n => outer_code t units n (dflag n)
  | MWaitG n => Goto (Wait t units n (dflag n))
  | MCheck n => prod_condvar.wait t units n (dflag n)
  | MWait n => _ ← Pthread_cond_wait; Goto (Wait t units n (dflag n))
  | MWoken n => _ ← checked "pthread_cond_wait() failed" AWoken; Goto (Wait t units n (dflag n))
  | MConsG n _ => Goto (Consume t units n (dflag n))
  | MCons n _ => consume_code t units n (dflag n)
  | MDec n _ => unit_code t units n
  | MStore n v _ => Act (AStore v) (λ _, _ ← (if wait then consumed_incr n else mret tt);
                                         clock_code t units n)
  | MClock n => clock_code t units n
  | MPrint n t' => print_code t units n t'
  | MUnlock n _ => unlock_code t units n (dflag n)
  | MEnd _ => End (Exited EXIT_SUCCESS)
  | MFail _ e => End (Failed e "pthread_create() failed")
  end.

Definition conf (t : Z) (m : mpc) (ts : list tpc) (w : shared) : config action label shared :=
  Config (mcode t m :: (tcode <$> ts)) w None.

Definition cnt_of (p : tpc) : Z :=
  match p with
  | TFor c _ | TLock c _ | TLoad c _ | TStore c _ _ | TUnlock c _ | TSignal c _ | TRet c => c
  end.
(** The units a thread has added. *)
Definition produced (p : tpc) : Z :=
  match p with
  | TFor _ j | TLock _ j | TLoad _ j | TStore _ j _ => j
  | TUnlock _ j | TSignal _ j => j + 1
  | TRet c => c
  end.
Definition tcrit (p : tpc) : bool :=
  match p with TLoad _ _ | TStore _ _ _ | TUnlock _ _ => true | _ => false end.
Definition mcrit (m : mpc) : bool :=
  match m with
  | MWaitG _ | MCheck _ | MWait _ | MConsG _ _ | MCons _ _ | MDec _ _ | MStore _ _ _
  | MClock _ | MPrint _ _ | MUnlock _ _ => true
  | _ => false
  end.
(** The thread is going to signal for a unit it has added. *)
Definition will_signal (p : tpc) : bool :=
  match p with TUnlock _ _ | TSignal _ _ => true | _ => false end.

(** Threads created, units taken and lines printed. *)
Definition made (m : mpc) : nat :=
  match m with
  | MStart | MTime => 0
  | MCreateG k | MCreate k | MFail k _ => k
  | _ => length args
  end.
Definition consumed (m : mpc) : Z :=
  match m with
  | MOuter n | MLock n | MWaitG n | MCheck n | MWait n | MWoken n | MConsG n _ | MCons n _
  | MDec n _ | MStore n _ _ | MUnlock n _ | MEnd n => n
  | MClock n | MPrint n _ => n + 1
  | _ => 0
  end.
Definition counted (m : mpc) : Z :=
  match m with MClock n | MPrint n _ => n | _ => consumed m end.

Definition tpc_ok (a : Z) (p : tpc) : Prop :=
  match p with
  | TFor c j => 0 <= j <= c
  | TLock c j | TLoad c j | TUnlock c j => 0 <= j < c
  | TStore c j v => 0 <= j < c ∧ v = a + 1
  | TSignal c j => 0 <= j < c ∧ wait = true
  | TRet c => 0 <= c
  end.

Definition mpc_ok (a : Z) (m : mpc) : Prop :=
  match m with
  | MStart | MTime => True
  | MCreateG k => (k <= length args)%nat
  | MCreate k => (k < length args)%nat
  | MOuter n | MLock n => dflag n = false
  | MWaitG n | MCheck n | MWoken n => dflag n = false ∧ wait = true
  | MWait n => dflag n = false ∧ wait = true ∧ a = 0
  | MConsG n f | MCons n f => f = false → wait = true → 0 < a
  | MDec n f => 0 < a
  | MStore n v f => 0 < a ∧ v = a - 1
  | MClock n | MPrint n _ => True
  | MUnlock n f => wait = true → f = true
  | MEnd n => dflag n = true
  | MFail k e => e ≠ 0
  end.

Definition cv_ok (c : cond) (a : Z) (m : mpc) (ts : list tpc) : Prop :=
  match m with
  | MWoken _ => c = Signalled ∨
      c = Waiting ∧ (a = 0 ∨ ∃ i p, ts !! i = Some p ∧ will_signal p = true)
  | _ => c = Idle
  end.

(** The mutex is held by the thread in its critical section and by no other. *)
Definition mtx_ok (o : option nat) (m : mpc) (ts : list tpc) : Prop :=
  mcrit m = bool_decide (o = Some 0%nat) ∧
  (∀ i p, ts !! i = Some p → tcrit p = bool_decide (o = Some (S i))) ∧
  (∀ i, o = Some (S i) → (i < length ts)%nat).

(** Lines that count from 1 to [n]. *)
Definition numbered (n : Z) (ls : list string) : Prop :=
  Forall2 (λ k l, ∃ dt, l = line dt k) (seqZ 1 n) ls.

Record inv (st0 : list Z) (w : shared) (m : mpc) (ts : list tpc) : Prop := {
  i_pool : cnt_of <$> ts = take (made m) cnts;
  i_balance : w.(avail) + consumed m = total produced ts;
  i_avail : 0 <= w.(avail) ∧ 0 <= counted m;
  i_threads i p : ts !! i = Some p → tpc_ok w.(avail) p;
  i_main : mpc_ok w.(avail) m;
  i_mtx : mtx_ok w.(mtx) m ts;
  i_cv : cv_ok w.(cv) w.(avail) m ts;
  i_lines : numbered (counted m) w.(lines);
  i_statuses : w.(statuses) ⊆ st0 ∧ ∀ k e, m = MFail k e → e ∈ st0
}.

(** *** Bounds *)

Lemma tpc_bound a p : tpc_ok a p → 0 <= produced p <= cnt_of p.
Proof. destruct p; simpl; lia. Qed.

Lemma take_cnts k : total id (take k cnts) <= units.
Proof.
  unfold units. rewrite <- (take_drop k cnts) at 2. rewrite total_app.
  enough (0 <= total id (drop k cnts)) by lia. apply total_nonneg. intros i x Hx.
  rewrite lookup_drop in Hx. rewrite Forall_lookup in cnts_nonneg. by apply (cnts_nonneg (k + i)%nat).
Qed.

Lemma pool_total st0 w m ts : inv st0 w m ts → total cnt_of ts <= units.
Proof.
  intros HI. pose proof (i_pool _ _ _ _ HI) as Hp.
  assert (E : total cnt_of ts = total id (cnt_of <$> ts)) by by rewrite total_fmap.
  rewrite E, Hp. apply take_cnts.
Qed.

Lemma produced_le st0 w m ts : inv st0 w m ts → total produced ts <= units.
Proof.
  intros HI. etransitivity; [|by eapply pool_total]. apply total_mono. intros i p Hi.
  apply (tpc_bound w.(avail)). by eapply i_threads.
Qed.

(** A thread with a unit to make leaves room in the counter. *)
Lemma avail_room st0 w m ts i p :
  inv st0 w m ts → ts !! i = Some p → produced p < cnt_of p → 0 <= consumed m → w.(avail) < INT_MAX.
Proof.
  intros HI Hi Hp Hc. pose proof (i_balance _ _ _ _ HI). pose proof (pool_total _ _ _ _ HI).
  assert (total produced ts <= total cnt_of ts - cnt_of p + produced p).
  { eapply total_room; [done|]. intros j q Hj. apply (tpc_bound w.(avail)). by eapply i_threads. }
  lia.
Qed.

Lemma consumed_nonneg st0 w m ts : inv st0 w m ts → 0 <= consumed m.
Proof. intros HI. destruct (i_avail _ _ _ _ HI) as [_ H]. destruct m; simpl in *; lia. Qed.

(** *** One thread in its critical section at a time *)

Lemma mtx_thread o m ts i p :
  mtx_ok o m ts → ts !! i = Some p → tcrit p = true →
  o = Some (S i) ∧ mcrit m = false ∧ ∀ j q, j ≠ i → ts !! j = Some q → tcrit q = false.
Proof.
  intros (Hm & Ht & _) Hi Hp. rewrite (Ht i p Hi) in Hp. apply bool_decide_eq_true in Hp as ->.
  split_and!; [done|by rewrite Hm|]. intros j q Hj Hq. rewrite (Ht j q Hq).
  apply bool_decide_eq_false. congruence.
Qed.

Lemma mtx_main o m ts :
  mtx_ok o m ts → mcrit m = true → o = Some 0%nat ∧ ∀ j q, ts !! j = Some q → tcrit q = false.
Proof.
  intros (Hm & Ht & _) Hc. rewrite Hm in Hc. apply bool_decide_eq_true in Hc as ->.
  split; [done|]. intros j q Hq. by rewrite (Ht j q Hq).
Qed.

Lemma tpc_ok_quiet a a' p : tcrit p = false → tpc_ok a p → tpc_ok a' p.
Proof. by destruct p. Qed.
Lemma mpc_ok_quiet a a' m : mcrit m = false → mpc_ok a m → mpc_ok a' m.
Proof. by destruct m. Qed.

(** The mutex after a move of thread [i] or of [main]. *)
Lemma mtx_thread_move o o' m ts i p p' :
  mtx_ok o m ts → ts !! i = Some p →
  o' = (if tcrit p' then Some (S i) else if tcrit p then None else o) →
  (tcrit p' = true → tcrit p = false → o = None) → mtx_ok o' m (<[i := p']> ts).
Proof.
  intros Ho Hi -> Hfree. pose proof Ho as (Hm & Ht & Hl).
  assert (Hlt : (i < length ts)%nat) by by eapply lookup_lt_Some.
  assert (Hp := Ht i p Hi).
  assert (Hcases : (tcrit p' = tcrit p) ∨ (tcrit p = false ∧ tcrit p' = true ∧ o = None) ∨
    (tcrit p = true ∧ tcrit p' = false ∧ o = Some (S i))).
  { destruct (tcrit p) eqn:E, (tcrit p') eqn:E'; [by left|right; right|right; left|by left].
    - split_and!; [done..|]. symmetry in Hp. by apply bool_decide_eq_true in Hp.
    - split_and!; [done..|by apply Hfree]. }
  set (o' := if tcrit p' then _ else _).
  assert (Hother : ∀ k, k ≠ S i → bool_decide (o' = Some k) = bool_decide (o = Some k)).
  { intros k Hk. apply bool_decide_ext. unfold o'. destruct (tcrit p'), (tcrit p); split; intros E;
      try congruence; destruct Hcases as [?|[(? & ? & ->)|(? & ? & ->)]]; try congruence.
    symmetry in Hp. apply bool_decide_eq_true in Hp. congruence. }
  split_and!.
  - by rewrite Hother.
  - intros j q Hj. apply list_lookup_insert_Some in Hj as [(<- & <- & _)|[Hne Hj]].
    + unfold o'. destruct (tcrit p') eqn:E'; [by rewrite bool_decide_eq_true_2|].
      symmetry. apply bool_decide_eq_false. destruct (tcrit p) eqn:E; [done|].
      symmetry in Hp. by apply bool_decide_eq_false in Hp.
    + rewrite Hother by congruence. by apply Ht.
  - intros j. rewrite length_insert. unfold o'. destruct (tcrit p'); [by intros [= <-]|].
    destruct (tcrit p); [done|apply Hl].
Qed.

Lemma mtx_main_move o o' m m' ts :
  mtx_ok o m ts → o' = (if mcrit m' then Some 0%nat else if mcrit m then None else o) →
  (mcrit m' = true → mcrit m = false → o = None) → mtx_ok o' m' ts.
Proof.
  intros Ho -> Hfree. pose proof Ho as (Hm & Ht & Hl).
  destruct (mcrit m) eqn:E, (mcrit m') eqn:E'; symmetry in Hm.
  - apply bool_decide_eq_true in Hm as ->. by split_and!.
  - apply bool_decide_eq_true in Hm as ->. by split_and!.
  - rewrite (Hfree eq_refl eq_refl) in *. by split_and!.
  - split_and!; [congruence|done|done].
Qed.

(** A thread that goes from [p] to [p']. *)
Lemma inv_thread st0 w m ts i p p' w' :
  inv st0 w m ts → ts !! i = Some p → cnt_of p' = cnt_of p → tpc_ok w'.(avail) p' →
  w'.(avail) - w.(avail) = produced p' - produced p →
  w'.(avail) = w.(avail) ∨ tcrit p = true ∧ w.(avail) <= w'.(avail) →
  w'.(mtx) = (if tcrit p' then Some (S i) else if tcrit p then None else w.(mtx)) →
  (tcrit p' = true → tcrit p = false → w.(mtx) = None) →
  cv_ok w'.(cv) w'.(avail) m (<[i := p']> ts) →
  w'.(lines) = w.(lines) → w'.(statuses) = w.(statuses) →
  inv st0 w' m (<[i := p']> ts).
Proof.
  intros HI Hi Hc Hok Hbal Hav Hmx Hfree Hcv Hln Hst. split.
  - rewrite list_fmap_insert, Hc, list_insert_id; [apply HI|]. by rewrite list_lookup_fmap, Hi.
  - rewrite (total_insert _ _ _ _ _ Hi). pose proof (i_balance _ _ _ _ HI). lia.
  - destruct (i_avail _ _ _ _ HI). lia.
  - intros j q Hj. apply list_lookup_insert_Some in Hj as [(<- & <- & _)|[Hne Hj]]; [done|].
    pose proof (i_threads _ _ _ _ HI j q Hj) as Hq. destruct Hav as [->|[Hcr _]]; [done|].
    destruct (mtx_thread _ _ _ _ _ (i_mtx _ _ _ _ HI) Hi Hcr) as (_ & _ & Ho).
    eapply tpc_ok_quiet; [|done]. by apply (Ho j).
  - destruct Hav as [->|[Hcr _]]; [apply HI|].
    destruct (mtx_thread _ _ _ _ _ (i_mtx _ _ _ _ HI) Hi Hcr) as (_ & Hm & _).
    eapply mpc_ok_quiet; [done|apply HI].
  - eapply mtx_thread_move; [apply HI|done..].
  - done.
  - rewrite Hln. apply HI.
  - rewrite Hst. apply HI.
Qed.

(** Where the thread does not signal and adds nothing, or adds a unit it is going
    to signal for. *)
Lemma cv_ok_thread c a a' m ts i p p' :
  cv_ok c a m ts → ts !! i = Some p →
  (a' = a ∧ (will_signal p = true → will_signal p' = true) ∨ will_signal p' = true) →
  cv_ok c a' m (<[i := p']> ts).
Proof.
  intros H Hi Hp. destruct m; try exact H. destruct H as [->|[-> H]]; [by left|right].
  split; [done|]. assert (Hlt : (i < length ts)%nat) by by eapply lookup_lt_Some.
  destruct (will_signal p') eqn:Ep'.
  { right. exists i, p'. by rewrite list_lookup_insert_eq. }
  destruct Hp as [[-> Hp]|]; [|done]. destruct H as [->|(j & q & Hj & Hq)]; [by left|right].
  destruct (decide (i = j)) as [<-|Hne].
  - simplify_eq. by specialize (Hp Hq).
  - exists j, q. by rewrite list_lookup_insert_ne.
Qed.

(** *** Steps of the threads *)

Definition trank (p : tpc) : Z :=
  match p with
  | TFor c j => 7 * (c - j) + 1
  | TLock c j => 7 * (c - j)
  | TLoad c j => 7 * (c - j) - 1
  | TStore c j _ => 7 * (c - j) - 2
  | TUnlock c j => 7 * (c - j) - 3
  | TSignal c j => 7 * (c - j) - 4
  | TRet _ => 0
  end.

(** Signals to come of a thread, and one that was made. *)
Definition signals (p : tpc) : Z :=
  match p with
  | TFor c j | TLock c j | TLoad c j | TStore c j _ | TUnlock c j | TSignal c j => c - j
  | TRet _ => 0
  end.
Definition wakeups (w : shared) : Z :=
  match w.(cv) with Signalled => 1 | _ => 0 end + Z.of_nat w.(spurious).

Definition thread_next (st0 : list Z) (t : Z) (w : shared) (m : mpc) (ts : list tpc) (i : nat)
    (p : tpc) (c' : config action label shared) : Prop :=
  ∃ p' w', c' = conf t m (<[i := p']> ts) w' ∧ inv st0 w' m (<[i := p']> ts) ∧
    0 <= trank p' < trank p ∧ 0 <= signals p' ∧
    signals p' + wakeups w' <= signals p + wakeups w.

Lemma conf_thread t m ts w i p' q :
  q = tcode p' →
  Config (mcode t m :: <[i := q]> (tcode <$> ts)) w None = conf t m (<[i := p']> ts) w.
Proof. intros ->. unfold conf. by rewrite list_fmap_insert. Qed.

(** A signal wakes who waits. *)
Lemma signal_spec w :
  let w' := match cv w with Waiting => set_cv Signalled w | _ => w end in
  avail w' = avail w ∧ mtx w' = mtx w ∧ lines w' = lines w ∧ statuses w' = statuses w ∧
  cv w' = match cv w with Idle => Idle | _ => Signalled end.
Proof. cbv zeta. by destruct (cv w) eqn:E. Qed.

Lemma producer_step st0 t w m ts i p c' :
  inv st0 w m ts → ts !! i = Some p → sched_step (S i) (conf t m ts w) = Some c' →
  thread_next st0 t w m ts i p c'.
Proof.
  intros HI Hi. unfold sched_step, conf. cbn [ended pool wld].
  change ((mcode t m :: (tcode <$> ts)) !! S i) with ((tcode <$> ts) !! i).
  rewrite list_lookup_fmap, Hi. cbn [fmap option_fmap option_map].
  pose proof (i_threads _ _ _ _ HI i p Hi) as Hok.
  pose proof (i_cv _ _ _ _ HI) as Hcv. pose proof (i_mtx _ _ _ _ HI) as Hmx.
  pose proof (consumed_nonneg _ _ _ _ HI) as Hcn.
  destruct p as [c j|c j|c j|c j v|c j|c j|c]; cbn [tcode]; [..|done].
  - intros [= <-]. set (p' := if j <? c then TLock c j else TRet c).
    assert (E : producer_code c j = tcode p') by (unfold p', producer_code; by destruct (j <? c)).
    cbn [body producers_sys]. rewrite (conf_thread _ _ _ _ _ p') by done. exists p', w.
    assert (Hp' : tpc_ok (avail w) p' ∧ cnt_of p' = c ∧ produced p' = j ∧ tcrit p' = false ∧
      0 <= trank p' < trank (TFor c j) ∧ 0 <= signals p' <= c - j).
    { unfold p'. simpl in Hok. destruct (Z.ltb_spec j c); simpl; [lia|]. assert (j = c) as -> by lia. lia. }
    destruct Hp' as (H1 & H2 & H3 & H4 & H5 & H6). split; [done|].
    split; [|split; [done|unfold wakeups; simpl; lia]].
    eapply inv_thread; try done; [rewrite H3; simpl; lia|by left|by rewrite H4|by rewrite H4|].
    eapply cv_ok_thread; [done..|]. by left.
  - cbn. destruct (mtx w) eqn:Em; [done|]. intros [= <-].
    rewrite (conf_thread _ _ _ _ _ (TLoad c j)) by done.
    exists (TLoad c j), (set_mtx (Some (S i)) w). split; [done|]. split; [|unfold wakeups; simpl in *; lia].
    eapply inv_thread; try done; [simpl; lia|by left|].
    eapply cv_ok_thread; [done..|]. by left.
  - cbn. intros [= <-]. pose proof (avail_room _ _ _ _ _ _ HI Hi) as Hr. simpl in Hr, Hok.
    assert (Ev : (avail w =? INT_MAX) = false) by (apply Z.eqb_neq; lia). rewrite Ev.
    rewrite (conf_thread _ _ _ _ _ (TStore c j (avail w + 1))) by done.
    exists (TStore c j (avail w + 1)), w. split; [done|]. split; [|unfold wakeups; simpl in *; lia].
    destruct (mtx_thread _ _ _ _ _ Hmx Hi eq_refl) as (Em & _ & _).
    eapply inv_thread; try done; [simpl; lia|by left|].
    eapply cv_ok_thread; [done..|]. by left.
  - cbn. intros [= <-]. simpl in Hok. destruct Hok as [Hj ->].
    rewrite (conf_thread _ _ _ _ _ (TUnlock c j)) by done.
    eexists (TUnlock c j), _. split; [done|]. split; [|unfold wakeups; simpl in *; lia].
    destruct (mtx_thread _ _ _ _ _ Hmx Hi eq_refl) as (Em & _ & _).
    eapply inv_thread; try done; simpl; [lia|right; split; [done|lia]|].
    eapply cv_ok_thread; [done..|]. by right.
  - destruct (mtx_thread _ _ _ _ _ Hmx Hi eq_refl) as (Em & _ & _).
    cbn. rewrite decide_True by done. intros [= <-].
    set (p' := if wait then TSignal c j else TFor c (j + 1)).
    assert (E : code_seq (check_status 0 "pthread_mutex_unlock() failed") (λ _, at_signal c j) = tcode p').
    { unfold p'. destruct wait eqn:Ew; cbn; [done|]. unfold at_signal. by rewrite Ew. }
    rewrite (conf_thread _ _ _ _ _ p') by done. exists p', (set_mtx None w).
    assert (Hp' : tpc_ok (avail w) p' ∧ cnt_of p' = c ∧ produced p' = j + 1 ∧ tcrit p' = false ∧
      0 <= trank p' < trank (TUnlock c j) ∧ 0 <= signals p' <= c - j ∧
      (will_signal p' = true ∨ wait = false)).
    { unfold p'. simpl in Hok. destruct wait eqn:Ew; simpl; rewrite ?Ew; split_and!; try done; try lia; auto. }
    destruct Hp' as (H1 & H2 & H3 & H4 & H5 & H6 & H7). split; [done|].
    split; [|split; [done|unfold wakeups; simpl; lia]].
    eapply inv_thread; try done; [rewrite H3; simpl; lia|by left|by rewrite H4|].
    destruct H7 as [H7|Hw]; [eapply cv_ok_thread; [done..|]; by right|].
    pose proof (i_main _ _ _ _ HI) as Hmain. destruct m; try exact Hcv. by destruct Hmain; congruence.
  - simpl in Hok. destruct Hok as [Hj Hw]. unfold at_signal. rewrite Hw. cbn. intros [= <-].
    rewrite (conf_thread _ _ _ _ _ (TFor c (j + 1))) by done.
    eexists (TFor c (j + 1)), _. split; [done|].
    destruct (signal_spec w) as (Ea & Em & El & Es & Ec). set (w' := match cv w with Waiting => _ | _ => _ end) in *.
    split; [|unfold wakeups; rewrite Ec; subst w'; simpl; destruct (cv w); simpl; lia].
    eapply inv_thread; try done; rewrite ?Ea, ?Ec; simpl; [lia|lia|by left|].
    destruct m; try by rewrite Hcv. simpl in Hcv |- *. destruct Hcv as [->|[-> _]]; by left.
Qed.

(** *** Steps of [main] *)

(** What the threads that are still to be created bring. *)
Definition uncreated (k : nat) : Z := total (λ c, 17 * c + 3) (drop k cnts).
Definition mrank (m : mpc) : Z :=
  50 * (units - consumed m) +
  match m with
  | MStart => uncreated 0 + 24
  | MTime => uncreated 0 + 23
  | MCreateG k => uncreated k + 22
  | MCreate k => uncreated k + 21
  | MOuter _ => 20
  | MLock _ => 19
  | MWaitG _ => 18
  | MCheck _ => 17
  | MWait _ => 16
  | MWoken _ => 15
  | MConsG _ f => if f then 48 else 14
  | MCons _ f => if f then 47 else 13
  | MDec _ f => if f then 46 else 12
  | MStore _ _ f => if f then 45 else 11
  | MClock _ => 50
  | MPrint _ _ => 49
  | MUnlock _ _ => 46
  | MEnd _ | MFail _ _ => 1
  end.

Definition end_of (m : mpc) : option fate :=
  match m with
  | MEnd _ => Some (Exited EXIT_SUCCESS)
  | MFail _ e => Some (Failed e "pthread_create() failed")
  | _ => None
  end.

(** A bound of the steps left: a wake-up may cost a turn of the waiting loop. *)
Definition rank (w : shared) (m : mpc) (ts : list tpc) : Z :=
  mrank m + total trank ts + 10 * (total signals ts + wakeups w).

Definition main_next (st0 : list Z) (t : Z) (w : shared) (m : mpc) (ts : list tpc)
    (c' : config action label shared) : Prop :=
  (∃ t' m' ts' w', c' = conf t' m' ts' w' ∧ inv st0 w' m' ts' ∧
     (wait = true → rank w' m' ts' < rank w m ts)) ∨
  ∃ h, c' = Config (pool (conf t m ts w)) w (Some h) ∧ end_of m = Some h.

Lemma inv_main st0 w m ts m' w' :
  inv st0 w m ts → made m' = made m →
  w'.(avail) + consumed m' = w.(avail) + consumed m → 0 <= w'.(avail) ∧ 0 <= counted m' →
  w'.(avail) = w.(avail) ∨ mcrit m = true → mpc_ok w'.(avail) m' →
  w'.(mtx) = (if mcrit m' then Some 0%nat else if mcrit m then None else w.(mtx)) →
  (mcrit m' = true → mcrit m = false → w.(mtx) = None) →
  cv_ok w'.(cv) w'.(avail) m' ts → numbered (counted m') w'.(lines) →
  (w'.(statuses) ⊆ st0 ∧ ∀ k e, m' = MFail k e → e ∈ st0) → inv st0 w' m' ts.
Proof.
  intros HI Hmd Hbal Hpos Hav Hok Hmx Hfree Hcv Hln Hst. split; try done.
  - rewrite Hmd. apply HI.
  - rewrite Hbal. apply HI.
  - intros j q Hj. pose proof (i_threads _ _ _ _ HI j q Hj) as Hq. destruct Hav as [->|Hcr]; [done|].
    destruct (mtx_main _ _ _ (i_mtx _ _ _ _ HI) Hcr) as [_ Ho].
    eapply tpc_ok_quiet; [by apply (Ho j)|done].
  - eapply mtx_main_move; [apply HI|done..].
Qed.

(** A move of [main] that creates no thread and ends nothing. *)
Lemma main_goes st0 t w m ts t' m' w' :
  inv st0 w m ts → made m' = made m →
  w'.(avail) + consumed m' = w.(avail) + consumed m → 0 <= w'.(avail) ∧ 0 <= counted m' →
  w'.(avail) = w.(avail) ∨ mcrit m = true → mpc_ok w'.(avail) m' →
  w'.(mtx) = (if mcrit m' then Some 0%nat else if mcrit m then None else w.(mtx)) →
  (mcrit m' = true → mcrit m = false → w.(mtx) = None) →
  cv_ok w'.(cv) w'.(avail) m' ts → numbered (counted m') w'.(lines) →
  (w'.(statuses) ⊆ st0 ∧ ∀ k e, m' = MFail k e → e ∈ st0) →
  (wait = true → mrank m' + 10 * wakeups w' < mrank m + 10 * wakeups w) →
  main_next st0 t w m ts (conf t' m' ts w').
Proof.
  intros HI ?????????? Hr. left. exists t', m', ts, w'. split; [done|].
  split; [by eapply inv_main|]. unfold rank. intros Hw. specialize (Hr Hw). lia.
Qed.

(** Where nothing shared changes. *)
Lemma main_goes_quietly st0 t w m ts t' m' :
  inv st0 w m ts → made m' = made m → consumed m' = consumed m → counted m' = counted m →
  mcrit m' = mcrit m → mpc_ok w.(avail) m' → cv_ok w.(cv) w.(avail) m' ts →
  (∀ k e, m' = MFail k e → e ∈ st0) → (wait = true → mrank m' < mrank m) →
  main_next st0 t w m ts (conf t' m' ts w).
Proof.
  intros HI Hmd Hc Hn Hcr Hok Hcv Hf Hr. eapply main_goes; try done.
  - lia.
  - rewrite Hn. apply HI.
  - by left.
  - rewrite Hcr. destruct (mcrit m) eqn:E; [|done]. by apply (mtx_main _ _ _ (i_mtx _ _ _ _ HI)).
  - congruence.
  - rewrite Hn. apply HI.
  - split; [apply HI|done].
  - intros Hw. specialize (Hr Hw). lia.
Qed.

Lemma numbered_snoc n ls dt :
  0 <= n → numbered n ls → numbered (n + 1) (ls ++ [line dt (n + 1)]).
Proof.
  intros Hn H. unfold numbered. replace (seqZ 1 (n + 1)) with (seqZ 1 n ++ [n + 1]).
  - apply Forall2_app; [done|]. repeat constructor. by exists dt.
  - rewrite seqZ_app by lia. f_equal. rewrite seqZ_cons by lia. simpl. by rewrite Z.add_comm.
Qed.

Lemma dflag_next n : 0 <= n → dflag (n + 1) = (units <=? n + 1).
Proof. intros Hn. unfold dflag. by rewrite (proj2 (Z.ltb_lt 0 (n + 1))) by lia. Qed.

(** The units counted are units that were made. *)
Lemma count_room st0 w m ts : inv st0 w m ts → 0 < w.(avail) → consumed m < INT_MAX ∧ w.(avail) ≠ INT_MIN.
Proof.
  intros HI Ha. pose proof (i_balance _ _ _ _ HI). pose proof (produced_le _ _ _ _ HI).
  split; [lia|]. unfold INT_MIN. lia.
Qed.

Lemma args_atoi k a l : drop k args = a :: l → cnts !! k = Some (atoi a) ∧ drop (S k) args = l ∧ (k < length args)%nat.
Proof.
  intros H. assert (Hk : args !! k = Some a).
  { rewrite <- (Nat.add_0_r k), <- lookup_drop, H. done. }
  split_and!; [unfold cnts; by rewrite list_lookup_fmap, Hk| |by eapply lookup_lt_Some].
  replace (S k) with (k + 1)%nat by lia. by rewrite <- drop_drop, H.
Qed.

Lemma sofar_succ k c : cnts !! k = Some c → sofar (S k) = sofar k + c.
Proof. intros H. unfold sofar. rewrite (take_S_r _ _ _ H), total_app. simpl. lia. Qed.

Lemma uncreated_succ k c : cnts !! k = Some c → uncreated k = uncreated (S k) + 17 * c + 3.
Proof. intros H. unfold uncreated. rewrite (drop_S _ _ _ H). simpl. lia. Qed.

Lemma uncreated_nonneg k : 0 <= uncreated k.
Proof.
  apply total_nonneg. intros i x Hx. rewrite lookup_drop in Hx.
  rewrite Forall_lookup in cnts_nonneg. specialize (cnts_nonneg _ _ Hx). simpl in *. lia.
Qed.

Lemma sofar_all : sofar (length args) = units.
Proof. unfold sofar, units. rewrite take_ge; [done|]. unfold cnts. by rewrite length_fmap. Qed.

(** A thread is created, or [main] reports that it cannot be. *)
Lemma create_step st0 t w k ts c' :
  Forall (Z.le 0) st0 → inv st0 w (MCreate k) ts →
  sched_step 0 (conf t (MCreate k) ts w) = Some c' → main_next st0 t w (MCreate k) ts c'.
Proof.
  intros Hst0 HI. pose proof (i_main _ _ _ _ HI) as Hk. simpl in Hk.
  destruct (drop k args) as [|a l] eqn:Ed.
  { apply (f_equal length) in Ed. rewrite length_drop in Ed. simpl in Ed. lia. }
  destruct (args_atoi _ _ _ Ed) as (Ha & Hl & _). pose proof (sofar_succ _ _ Ha) as Hs.
  assert (Hc : 0 <= atoi a) by (rewrite Forall_lookup in cnts_nonneg; by eapply cnts_nonneg).
  pose proof (take_cnts (S k)) as Hu. fold (sofar (S k)) in Hu.
  assert (Hpos : 0 <= sofar k).
  { apply total_nonneg. intros i x Hx. apply lookup_take_Some in Hx as [Hx _].
    rewrite Forall_lookup in cnts_nonneg. by apply (cnts_nonneg i). }
  unfold sched_step, conf. cbn [ended pool wld lookup list_lookup mcode]. rewrite Ed.
  unfold create_loop. rewrite (proj2 (Z.ltb_ge _ INT_MIN)), (proj2 (Z.ltb_ge INT_MAX _)) by (unfold INT_MIN; lia).
  cbn -[Z.of_nat]. rewrite <- Hs.
  assert (Hspawn : ∀ st w2, st ⊆ st0 →
    w2 = Shared w.(avail) w.(mtx) w.(cv) w.(lines) w.(spurious) w.(clock) st →
    main_next st0 t w (MCreate k) ts (conf t (MCreateG (S k)) (ts ++ [TFor (atoi a) 0]) w2)).
  { intros st w2 Hst ->. left. exists t, (MCreateG (S k)), (ts ++ [TFor (atoi a) 0]). eexists.
    split; [done|]. split.
    - destruct HI as [H1 H2 H3 H4 H5 H6 H7 H8 H9]. simpl in *. split; simpl; try done.
      + by rewrite fmap_app, H1, (take_S_r _ _ _ Ha).
      + rewrite total_app. simpl. lia.
      + intros i p [Hi|[_ Hi]]%lookup_app_Some; [by eapply H4|].
        destruct (i - length ts)%nat; simplify_eq/=. lia.
      + destruct H6 as (Hm & Ht & Ho). split_and!; [done|..].
        * intros i p [Hi|[Hle Hi]]%lookup_app_Some; [by eapply Ht|].
          destruct (i - length ts)%nat; simplify_eq/=. symmetry. apply bool_decide_eq_false.
          intros Hi'. apply Ho in Hi'. lia.
        * intros i Hi. rewrite length_app. specialize (Ho i Hi). simpl. lia.
    - intros _. unfold rank, mrank, wakeups. rewrite !total_app. pose proof (uncreated_succ _ _ Ha).
      cbn -[uncreated units]. lia. }
  assert (Hpool : ∀ w2, Config (Goto (Create t l (sofar (S k))) :: (tcode <$> ts) ++
      [Goto (Produce (atoi a) 0)]) w2 None = conf t (MCreateG (S k)) (ts ++ [TFor (atoi a) 0]) w2).
  { intros w2. unfold conf. cbn [mcode]. by rewrite Hl, fmap_app. }
  destruct (i_statuses _ _ _ _ HI) as [Hsub _].
  destruct (statuses w) as [|s st] eqn:Es.
  - intros [= <-]. rewrite Hpool. apply (Hspawn []); [set_solver|].
    rewrite <- Es. by destruct w.
  - assert (Hst : st ⊆ st0) by set_solver.
    destruct (Z.eqb_spec s 0) as [->|Hne]; cbn -[Z.of_nat]; intros [= <-].
    + rewrite Hpool. by apply (Hspawn st).
    + assert (Hs0 : s ∈ st0) by set_solver.
      assert (0 <= s) by by (rewrite Forall_forall in Hst0; apply Hst0).
      rewrite (proj2 (Z.ltb_lt (- s) 0)), Z.opp_involutive by lia. cbn.
      change (main_next st0 t w (MCreate k) ts (conf t (MFail k s) ts
        (Shared w.(avail) w.(mtx) w.(cv) w.(lines) w.(spurious) w.(clock) st))).
      pose proof (i_avail _ _ _ _ HI). pose proof (i_mtx _ _ _ _ HI) as Hmx.
      eapply main_goes; try done; simpl; [by left|apply HI|apply HI| |].
      * split; [done|]. by intros ? ? [= <- <-].
      * intros _. pose proof (uncreated_nonneg k). unfold mrank, wakeups. cbn -[uncreated units]. lia.
Qed.

Lemma main_start_args :
  main_start args = Act ATime (λ t, Goto (Create t args 0)).
Proof. unfold main_start. by destruct args. Qed.

Lemma mcode_create t k :
  (k <= length args)%nat →
  create_loop t (drop k args) (sofar k) = mcode t (if decide (k = length args) then MOuter 0 else MCreate k).
Proof.
  intros Hk. destruct (decide _) as [->|]; [|done]. cbn [mcode]. by rewrite drop_ge, sofar_all.
Qed.

Ltac rank_lia := unfold mrank, wakeups; cbn -[uncreated units]; try lia.

(** The points of [main] outside the loop that consumes. *)
Lemma wait_step st0 t w m ts c' :
  inv st0 w m ts → sched_step 0 (conf t m ts w) = Some c' →
  match m with
  | MStart | MTime | MCreateG _ | MOuter _ | MLock _ | MWaitG _ | MCheck _ | MWait _
  | MWoken _ => main_next st0 t w m ts c'
  | _ => True
  end.
Proof.
  intros HI. pose proof (i_main _ _ _ _ HI) as Hok. pose proof (i_avail _ _ _ _ HI) as [Ha Hn].
  pose proof (i_cv _ _ _ _ HI) as Hcv. pose proof (i_lines _ _ _ _ HI) as Hln.
  pose proof (i_statuses _ _ _ _ HI) as [Hst _].
  pose proof (λ H, proj1 (mtx_main _ m _ (i_mtx _ _ _ _ HI) H)) as Hmx.
  destruct m as [| |k|k|n|n|n|n|n|n|n f|n f|n f|n v f|n|n t'|n f|n|k e]; try done;
    simpl in Hok, Hcv, Hn, Hln, Hmx;
    unfold sched_step, conf; cbn [ended pool wld lookup list_lookup mcode].
  - intros [= <-]. apply (main_goes_quietly _ _ _ _ _ t MTime); try done. by rank_lia.
  - rewrite main_start_args. cbn.
    destruct (clock w) as [|t' ts']; intros [= <-].
    + apply (main_goes_quietly _ _ _ _ _ 0 (MCreateG 0)); try done; [simpl; lia|by rank_lia].
    + apply (main_goes _ _ _ _ _ t' (MCreateG 0)); try done; simpl; try (by left); [lia|by rank_lia].
  - intros [= <-]. cbn [body producers_sys]. rewrite mcode_create by done.
    destruct (decide _) as [->|Hne].
    + apply (main_goes_quietly _ _ _ _ _ t (MOuter 0)); try done. rank_lia.
      pose proof (uncreated_nonneg (length args)). lia.
    + apply (main_goes_quietly _ _ _ _ _ t (MCreate k)); try done; [simpl; lia|by rank_lia].
  - intros [= <-]. apply (main_goes_quietly _ _ _ _ _ t (MLock n)); try done. by rank_lia.
  - cbn. destruct (mtx w) eqn:Em; [done|]. intros [= <-].
    destruct wait eqn:Hw;
      [apply (main_goes _ _ _ _ _ t (MWaitG n))|apply (main_goes _ _ _ _ _ t (MConsG n false))];
      try done; simpl; auto; try congruence; rank_lia.
  - destruct Hok as [Hd Hw]. cbn [body producers_sys]. rewrite Hw. intros [= <-].
    apply (main_goes_quietly _ _ _ _ _ t (MCheck n)); try done. by rank_lia.
  - destruct Hok as [Hd Hw]. cbn. intros [= <-]. destruct (Z.eqb_spec (avail w) 0) as [E|E].
    + apply (main_goes_quietly _ _ _ _ _ t (MWait n)); try done. by rank_lia.
    + apply (main_goes_quietly _ _ _ _ _ t (MConsG n false)); try done; [simpl; lia|by rank_lia].
  - destruct Hok as (Hd & Hw & E). cbn. rewrite decide_True by auto. intros [= <-].
    apply (main_goes _ _ _ _ _ t (MWoken n)); try done; simpl; auto.
    rank_lia. rewrite Hcv. lia.
  - destruct Hok as [Hd Hw]. cbn. destruct (mtx w) eqn:Em; [done|].
    destruct (cv w) eqn:Ec; [done|destruct (spurious w) as [|sp] eqn:Es; [done|]|]; intros [= <-];
      apply (main_goes _ _ _ _ _ t (MWaitG n)); try done; simpl; auto; rank_lia;
      rewrite Ec, ?Es; lia.
Qed.

Lemma count_ok n : n < INT_MAX → consumed_incr n = Ret tt.
Proof. intros Hn. unfold consumed_incr. by rewrite (proj2 (Z.eqb_neq n INT_MAX)) by lia. Qed.

Lemma unit_code_eq t n :
  n < INT_MAX →
  unit_code t units n = (_ ← avail_decr; _ ← (if wait then consumed_incr n else mret tt); clock_code t units n).
Proof. intros Hn. unfold unit_code. rewrite !count_ok by done. by destruct wait. Qed.

Lemma after_store_eq t n :
  n < INT_MAX → (_ ← (if wait then consumed_incr n else mret tt); clock_code t units n) = clock_code t units n.
Proof. intros Hn. rewrite count_ok by done. by destruct wait. Qed.

(** The points of the loop that consumes, and after it. *)
Lemma consume_step st0 t w m ts c' :
  inv st0 w m ts → sched_step 0 (conf t m ts w) = Some c' →
  match m with
  | MConsG _ _ | MCons _ _ | MDec _ _ | MStore _ _ _ | MClock _ | MPrint _ _ | MUnlock _ _
  | MEnd _ | MFail _ _ => main_next st0 t w m ts c'
  | _ => True
  end.
Proof.
  intros HI. pose proof (i_main _ _ _ _ HI) as Hok. pose proof (i_avail _ _ _ _ HI) as [Ha Hn].
  pose proof (i_cv _ _ _ _ HI) as Hcv. pose proof (i_lines _ _ _ _ HI) as Hln.
  pose proof (i_statuses _ _ _ _ HI) as [Hst _]. pose proof (count_room _ _ _ _ HI) as Hroom.
  pose proof (λ H, proj1 (mtx_main _ m _ (i_mtx _ _ _ _ HI) H)) as Hmx.
  destruct m as [| |k|k|n|n|n|n|n|n|n f|n f|n f|n v f|n|n t'|n f|n|k e]; try done;
    simpl in Hok, Hcv, Hn, Hln, Hmx, Hroom;
    unfold sched_step, conf; cbn [ended pool wld lookup list_lookup mcode].
  - intros [= <-]. apply (main_goes_quietly _ _ _ _ _ t (MCons n f)); try done. by destruct f; rank_lia.
  - cbn -[unit_code unlock_code]. intros [= <-]. destruct (Z.ltb_spec 0 (avail w)) as [E|E].
    + apply (main_goes_quietly _ _ _ _ _ t (MDec n f)); try done. by destruct f; rank_lia.
    + assert (Hf : wait = true → f = true).
      { intros Hw. destruct f; [done|]. specialize (Hok eq_refl Hw). lia. }
      apply (main_goes_quietly _ _ _ _ _ t (MUnlock n f)); try done.
      intros Hw. rewrite (Hf Hw). by rank_lia.
  - destruct (Hroom Hok) as [Hmax Hmin]. rewrite unit_code_eq by done. cbn -[clock_code].
    rewrite (proj2 (Z.eqb_neq _ _) Hmin). intros [= <-].
    apply (main_goes_quietly _ _ _ _ _ t (MStore n (avail w - 1) f)); try done. by destruct f; rank_lia.
  - destruct Hok as [Hpos ->]. destruct (Hroom Hpos) as [Hmax Hmin]. rewrite after_store_eq by done.
    cbn -[clock_code]. intros [= <-].
    apply (main_goes _ _ _ _ _ t (MClock n)); try done; simpl; auto; [lia..|].
    by destruct f; rank_lia.
  - cbn. destruct (clock w) as [|t' ts']; intros [= <-].
    + apply (main_goes_quietly _ _ _ _ _ t (MPrint n 0)); try done. by rank_lia.
    + apply (main_goes _ _ _ _ _ t (MPrint n t')); try done; simpl; auto. by rank_lia.
  - cbn. intros [= <-]. rewrite <- dflag_next by done.
    apply (main_goes _ _ _ _ _ t (MConsG (n + 1) true)); try done; simpl; auto;
      [lia|by apply numbered_snoc|by rank_lia].
  - cbn. rewrite decide_True by auto. intros [= <-]. destruct (dflag n) eqn:Ed.
    + apply (main_goes _ _ _ _ _ t (MEnd n)); try done; simpl; auto. by rank_lia.
    + replace (Goto (Outer t units n false)) with (mcode t (MOuter n)) by (cbn; by rewrite Ed).
      apply (main_goes _ _ _ _ _ t (MOuter n)); try done; simpl; auto. by rank_lia.
  - intros [= <-]. right. by eexists.
  - intros [= <-]. right. by eexists.
Qed.

(** *** Whole runs *)

Inductive good (st0 : list Z) : nat → config action label shared → Prop :=
| good_running t w m ts : inv st0 w m ts → good st0 (Z.to_nat (rank w m ts)) (conf t m ts w)
| good_done t w m ts h : inv st0 w m ts → end_of m = Some h →
    good st0 0 (Config (pool (conf t m ts w)) w (Some h)).

Lemma consumed_le st0 w m ts : inv st0 w m ts → consumed m <= units.
Proof.
  intros HI. pose proof (i_balance _ _ _ _ HI). pose proof (produced_le _ _ _ _ HI).
  pose proof (i_avail _ _ _ _ HI). lia.
Qed.

Lemma rank_pos st0 w m ts : inv st0 w m ts → 0 < rank w m ts.
Proof.
  intros HI. pose proof (consumed_le _ _ _ _ HI). pose proof (i_threads _ _ _ _ HI) as Ht.
  assert (0 <= total trank ts).
  { apply total_nonneg. intros i p Hi. specialize (Ht i p Hi). destruct p; simpl in *; lia. }
  assert (0 <= total signals ts).
  { apply total_nonneg. intros i p Hi. specialize (Ht i p Hi). destruct p; simpl in *; lia. }
  assert (0 <= wakeups w) by (unfold wakeups; destruct (cv w); lia).
  enough (0 < mrank m) by (unfold rank; lia). unfold mrank.
  pose proof (uncreated_nonneg 0).
  destruct m as [| |k|k|n|n|n|n|n|n|n f|n f|n f|n v f|n|n t'|n f|n|k e]; try lia;
    try destruct f; try lia; pose proof (uncreated_nonneg k); lia.
Qed.

Lemma run_step st0 k i a b :
  Forall (Z.le 0) st0 → good st0 k a → sched_step i a = Some b →
  ∃ k', good st0 k' b ∧ (wait = true → (k' < k)%nat).
Proof.
  intros Hst0 Ha Hb. destruct Ha as [t w m ts HI|]; [|done].
  pose proof (rank_pos _ _ _ _ HI) as Hpos. destruct i as [|i].
  - assert (Hm : main_next st0 t w m ts b).
    { pose proof (wait_step _ _ _ _ _ _ HI Hb). pose proof (consume_step _ _ _ _ _ _ HI Hb).
      destruct m; try done. by apply create_step. }
    destruct Hm as [(t' & m' & ts' & w' & -> & HI' & Hr)|(h & -> & Hh)].
    + eexists. split; [by constructor|]. intros Hw. specialize (Hr Hw). lia.
    + exists 0%nat. split; [by constructor|lia].
  - destruct (ts !! i) as [p|] eqn:Hi.
    + destruct (producer_step _ _ _ _ _ _ _ _ HI Hi Hb) as (p' & w' & -> & HI' & Hr & Hs & Hsw).
      eexists. split; [by constructor|]. intros _. unfold rank in *.
      rewrite !(total_insert _ _ _ _ _ Hi). lia.
    + revert Hb. unfold sched_step, conf. cbn [ended pool wld].
      change ((mcode t m :: (tcode <$> ts)) !! S i) with ((tcode <$> ts) !! i).
      by rewrite list_lookup_fmap, Hi.
Qed.

(** A thread moves when it owns the mutex, or has work and the mutex is free. *)
Lemma thread_moves t w m ts i p :
  ts !! i = Some p → (tcrit p = true ∧ mtx w = Some (S i)) ∨ (mtx w = None ∧ ∀ c, p ≠ TRet c) →
  tcrit p = bool_decide (mtx w = Some (S i)) →
  ∃ c', step (conf t m ts w) c'.
Proof.
  intros Hi Hm Hc. enough (∃ c', sched_step (S i) (conf t m ts w) = Some c') as [c' Hc']
    by by exists c', (S i).
  unfold sched_step, conf. cbn [ended pool wld].
  change ((mcode t m :: (tcode <$> ts)) !! S i) with ((tcode <$> ts) !! i).
  rewrite list_lookup_fmap, Hi. cbn [fmap option_fmap option_map].
  destruct Hm as [[Hp Hm]|[Hm Hne]]; rewrite Hm in Hc.
  - destruct p; try done; cbn; [by eexists..|]. rewrite decide_True by done. by eexists.
  - destruct p; try done; cbn; [by eexists|rewrite Hm; by eexists| |by destruct (Hne c)].
    unfold at_signal. destruct wait; by eexists.
Qed.

(** [main] moves when it owns the mutex, and when it is free unless it waits. *)
Lemma main_moves st0 t w m ts :
  inv st0 w m ts → mtx w = (if mcrit m then Some 0%nat else None) →
  (∀ n, m = MWoken n → cv w = Signalled) → ∃ c', step (conf t m ts w) c'.
Proof.
  intros HI Ho Hcv. enough (∃ c', sched_step 0 (conf t m ts w) = Some c') as [c' Hc']
    by by exists c', 0%nat.
  pose proof (i_main _ _ _ _ HI) as Hok. pose proof (count_room _ _ _ _ HI) as Hroom.
  unfold sched_step, conf. cbn [ended pool wld lookup list_lookup].
  destruct m as [| |k|k|n|n|n|n|n|n|n f|n f|n f|n v f|n|n t'|n f|n|k e]; simpl in Hok, Hroom, Ho;
    cbn [mcode]; try by eexists.
  - rewrite main_start_args. cbn. destruct (clock w); by eexists.
  - unfold create_loop. destruct (drop k args); [by eexists|]. destruct (_ || _); [by eexists|]. cbn.
    destruct (statuses w); [by eexists|]. destruct (_ =? 0); by eexists.
  - cbn. rewrite Ho. by eexists.
  - cbn. destruct (decide _); by eexists.
  - cbn. rewrite Ho, (Hcv n) by done. by eexists.
  - rewrite unit_code_eq by by apply Hroom. by eexists.
  - cbn. destruct (clock w); by eexists.
  - cbn. destruct (decide _); by eexists.
Qed.

Definition is_ret (p : tpc) : bool := match p with TRet _ => true | _ => false end.

(** No wake-up is lost: where no thread can move, all units were consumed, so
    [main] is not waiting. *)
Lemma progress st0 t w m ts :
  wait = true → 0 < units → inv st0 w m ts → ∃ c', step (conf t m ts w) c'.
Proof.
  intros Hw Hu HI. pose proof (i_mtx _ _ _ _ HI) as (Hm & Ht & Hl).
  destruct (mtx w) as [[|i]|] eqn:Eo.
  - eapply main_moves; [done|by rewrite Hm|]. by intros n ->.
  - destruct (lookup_lt_is_Some_2 ts i (Hl i eq_refl)) as [p Hp]. specialize (Ht i p Hp).
    eapply thread_moves; [done|left|by rewrite Eo]. split; [|done]. rewrite Ht.
    by apply bool_decide_eq_true.
  - destruct (decide (Forall (λ p, is_ret p = true) ts)) as [Hall|Hsome].
    + eapply main_moves; [done|by rewrite Hm|]. intros n ->.
      destruct (i_cv _ _ _ _ HI) as [|[_ Hcase]]; [done|exfalso]. rewrite Forall_lookup in Hall.
      destruct Hcase as [Ha|(i & p & Hi & Hp)]; [|by specialize (Hall i p Hi); destruct p].
      destruct (i_main _ _ _ _ HI) as [Hd _]. pose proof (i_balance _ _ _ _ HI) as Hb.
      pose proof (i_pool _ _ _ _ HI) as Hpool. simpl in Hb, Hpool.
      assert (total produced ts = units); [|unfold dflag in Hd; lia].
      transitivity (total cnt_of ts).
      * apply Z.le_antisymm; apply total_mono; intros i p Hi; specialize (Hall i p Hi); by destruct p.
      * change cnt_of with (id ∘ cnt_of). rewrite <- total_fmap, Hpool, take_ge; [done|].
        unfold cnts. by rewrite length_fmap.
    + apply not_Forall_Exists in Hsome; [|apply _]. apply Exists_exists in Hsome as (p & Hp & Hr).
      apply list_elem_of_lookup in Hp as [i Hi].
      eapply thread_moves; [done|right|rewrite Eo; by apply Ht]. split; [done|].
      intros c ->. by apply Hr.
Qed.

(** The ends of the programs. *)
Definition finished (st0 : list Z) (c : config action label shared) : Prop :=
  (c.(ended) = Some (Exited EXIT_SUCCESS) ∧ numbered units c.(wld).(lines)) ∨
  ∃ e, c.(ended) = Some (Failed e "pthread_create() failed") ∧ e ≠ 0 ∧ e ∈ st0.

Lemma run_finished st0 k c h : good st0 k c → c.(ended) = Some h → finished st0 c.
Proof.
  destruct 1 as [|t w m ts h' HI Hm]; [done|]. intros [= ->].
  pose proof (consumed_le _ _ _ _ HI) as Hle. pose proof (i_main _ _ _ _ HI) as Hok.
  pose proof (i_lines _ _ _ _ HI) as Hln. pose proof (i_statuses _ _ _ _ HI) as [_ Hf].
  destruct m; simplify_eq/=; [left|right].
  - split; [done|]. unfold dflag in Hok. assert (n = units) as -> by lia. done.
  - eexists. split; [done|]. split; [done|by eapply Hf].
Qed.

Lemma run_start st0 sp clk : ∃ k, good st0 k (start args sp clk st0).
Proof.
  eexists. apply (good_running st0 0 _ MStart []). split; try done.
  constructor.
Qed.

Lemma always_finishes st0 sp clk :
  wait = true → 0 < units → Forall (Z.le 0) st0 → inevitably (finished st0) (start args sp clk st0).
Proof.
  intros Hw Hu Hst0. destruct (run_start st0 sp clk) as [k Hk].
  eapply inevitably_measure; [| |done].
  - intros ? ? ? ? Ha Hb. destruct (run_step _ _ _ _ _ Hst0 Ha Hb) as (k' & Hg & Hlt). eauto.
  - intros k' a Ha. destruct a as [p w [h|]] eqn:Ea; [left; by eapply run_finished|right].
    inversion Ha; subst. by eapply progress.
Qed.

Lemma only_finishes st0 sp clk c h :
  Forall (Z.le 0) st0 → reachable (start args sp clk st0) c → c.(ended) = Some h → finished st0 c.
Proof.
  intros Hst0 Hr Hh. destruct (run_start st0 sp clk) as [k Hk].
  assert (Hg : ∃ k, good st0 k c); [|destruct Hg as [k' Hg]; by eapply run_finished].
  eapply (invariant_reachable (λ c, ∃ k, good st0 k c)); [|by exists k|done].
  intros ??? [k' Ha] Hb. destruct (run_step _ _ _ _ _ Hst0 Ha Hb) as (k'' & Hg & _). eauto.
Qed.
End producers.

(** ** The programs *)

(** C6: with [n >= 0] units for each producer, not all 0 and of at most [INT_MAX]
    units together (the programs add them up in an int, [totRequired], which a larger
    sum overflows), [prod_condvar] ends under every
    schedule and with any spurious wake-ups, having printed one line for each
    unit asked for, numbered in order, unless a thread cannot be created: no
    wake-up is lost.  [prod_no_condvar], which polls, never ends otherwise. *)
Theorem every_unit_is_consumed args sp clk st :
  Forall (Z.le 0) (atoi <$> args) → 0 < total id (atoi <$> args) <= INT_MAX →
  Forall (Z.le 0) st →
  inevitably (Sy := condvar_sys) (finished "T=" args st) (start args sp clk st) ∧
  ∀ c h, reachable (Sy := no_condvar_sys) (start args sp clk st) c → c.(ended) = Some h →
    finished "Time=" args st c.
Proof.
  intros Hn [Hu Hmax] Hst. assert (args ≠ []) by by intros ->. split.
  - by apply (always_finishes true "T=").
  - intros c h Hr Hh. by eapply (only_finishes false "Time=").
Qed.

Lemma every_unit_is_consumed_witness :
  inevitably (Sy := condvar_sys) (finished "T=" ["3"; "0"; "5"] [0; 11])
    (start ["3"; "0"; "5"] 4 [100; 101; 103] [0; 11]).
Proof.
  destruct (every_unit_is_consumed ["3"; "0"; "5"] 4 [100; 101; 103] [0; 11]) as [H _];
    [repeat constructor; by vm_compute|split; by vm_compute|repeat constructor; lia|exact H].
Defined.

(** Where nothing is asked for, [main] of [prod_condvar] waits for ever: [done]
    is only set after a unit was consumed. *)
Example zero_units_wait_for_ever :
  ∃ c, reachable (Sy := condvar_sys) (start ["0"] 0 [] []) c ∧
    c.(ended) = None ∧ ∀ c', ¬ step (Sy := condvar_sys) c c'.
Proof.
  destruct (run_schedule (Sy := condvar_sys) [0; 0; 0; 0; 0; 0; 0; 0; 0; 0; 1]%nat (start ["0"] 0 [] []))
    as [c|] eqn:E; [|by vm_compute in E].
  exists c. split; [by eapply run_schedule_reachable|]. vm_compute in E. injection E as <-.
  split; [done|]. intros c' [i Hi]. destruct i as [|[|i]]; by vm_compute in Hi.
Qed.
