(* ===== verification/MultiJoin.v ===== *)
(** Joining threads as they end: [threads/thread_multijoin.c] and
    [ythread_multijoin.c].

    [main] creates a thread for each argument; each thread sleeps, marks its
    entry of a shared array and signals a condition variable, on which [main]
    waits to join it.  Under every schedule and with any spurious wake-ups each
    thread is joined exactly once, after it has ended, and the process ends. *)
From stdpp Require Import relations.
From S2P Require Import Prelude CLib GetNum Conc.
Local Open Scope Z_scope.

(** [enum tstate]; [TS_ZOMBIE] of the second program is [TS_TERMINATED]. *)
Definition TS_ALIVE : Z := 0.
Definition TS_TERMINATED : Z := 1.
Definition TS_JOINED : Z := 2.

(** An entry of the array [thread]; the first program has no [idx]. *)
Record slot := Slot { tid : Z; state : Z; sleepTime : Z; idx : Z }.

Inductive cond := Idle | Waiting | Signalled.

(** [joined] are the threads that were joined, [heap] tells whether [calloc]
    succeeds, [statuses] are the results of [pthread_create] to come, and
    [spurious] bounds the returns from a wait without a signal. *)
Record shared := Shared {
  thread : list slot; numUnjoined : Z; mtx : option nat; cv : cond;
  joined : list Z; lines : list string;
  spurious : nat; clock : list Z; statuses : list Z; heap : bool
}.

Inductive place := LUnjoined | LTid (i : nat) | LState (i : nat) | LSleep (i : nat) | LIdx (i : nat).

(** Loop heads with what is live there: [t], where the second program started;
    the arguments left; [totThreads]; [numLive]. *)
Inductive label :=
| Main (args : list string)
| Create (t : Z) (i : nat) (args : list string)
| Outer (t : Z) (tot : nat) (live : Z)
| Wait (t : Z) (tot : nat) (live : Z)
| Walk (t : Z) (tot : nat) (i : nat) (live : Z)
| Thread (i : nat).

Inductive action :=
| ALock | AUnlock
| AWait       (* pthread_cond_wait gives the mutex up and waits *)
| AWoken      (* and returns with the mutex taken again *)
| ASignal
| ACalloc (n : nat) | AFree
| AInit (i : nat) (sleep : Z)  (* the entry, before its thread exists *)
| ACreate (i : nat)            (* which also stores the new thread's number *)
| AJoin (t : Z)
| ALoad (p : place) | AStore (p : place) (v : Z)
| ASleep (n : Z)
| ATime
| APrint (t : string).

Definition set_mtx (m : option nat) (w : shared) : shared :=
  Shared w.(thread) w.(numUnjoined) m w.(cv) w.(joined) w.(lines) w.(spurious) w.(clock)
    w.(statuses) w.(heap).
Definition set_cv (c : cond) (sp : nat) (w : shared) : shared :=
  Shared w.(thread) w.(numUnjoined) w.(mtx) c w.(joined) w.(lines) sp w.(clock) w.(statuses) w.(heap).
Definition set_thread (l : list slot) (w : shared) : shared :=
  Shared l w.(numUnjoined) w.(mtx) w.(cv) w.(joined) w.(lines) w.(spurious) w.(clock)
    w.(statuses) w.(heap).
Definition set_unjoined (n : Z) (w : shared) : shared :=
  Shared w.(thread) n w.(mtx) w.(cv) w.(joined) w.(lines) w.(spurious) w.(clock) w.(statuses) w.(heap).
Definition set_joined (l : list Z) (w : shared) : shared :=
  Shared w.(thread) w.(numUnjoined) w.(mtx) w.(cv) l w.(lines) w.(spurious) w.(clock)
    w.(statuses) w.(heap).
Definition set_lines (l : list string) (w : shared) : shared :=
  Shared w.(thread) w.(numUnjoined) w.(mtx) w.(cv) w.(joined) l w.(spurious) w.(clock)
    w.(statuses) w.(heap).
Definition set_inputs (ts st : list Z) (w : shared) : shared :=
  Shared w.(thread) w.(numUnjoined) w.(mtx) w.(cv) w.(joined) w.(lines) w.(spurious) ts st w.(heap).

Definition with_tid (v : Z) (s : slot) : slot := Slot v s.(state) s.(sleepTime) s.(idx).
Definition with_state (v : Z) (s : slot) : slot := Slot s.(tid) v s.(sleepTime) s.(idx).

(** An access outside of the array goes no further. *)
Definition read (p : place) (w : shared) : outcome label shared :=
  match (match p with
         | LUnjoined => Some w.(numUnjoined)
         | LTid i => tid <$> w.(thread) !! i
         | LState i => state <$> w.(thread) !! i
         | LSleep i => sleepTime <$> w.(thread) !! i
         | LIdx i => idx <$> w.(thread) !! i
         end) with
  | Some v => Val v w
  | None => Blocked
  end.
Definition write (p : place) (v : Z) (w : shared) : outcome label shared :=
  let entry i f :=
    match w.(thread) !! i with
    | Some s => Val 0 (set_thread (<[i := f s]> w.(thread)) w)
    | None => Blocked
    end in
  match p with
  | LUnjoined => Val 0 (set_unjoined v w)
  | LTid i => entry i (with_tid v)
  | LState i => entry i (with_state v)
  | LSleep i => entry i (λ s, Slot s.(tid) s.(state) v s.(idx))
  | LIdx i => entry i (λ s, Slot s.(tid) s.(state) s.(sleepTime) v)
  end.

(** [pthread_join] waits until the thread has returned; a thread is joined once. *)
Definition join (ret : list bool) (t : Z) (w : shared) : outcome label shared :=
  if decide (t ∈ w.(joined)) then Val ESRCH w else
  match ret !! Z.to_nat t with
  | Some true => Val 0 (set_joined (w.(joined) ++ [t]) w)
  | Some false => Blocked
  | None => Val ESRCH w
  end.

Definition do_action (i : nat) (ret : list bool) (a : action) (w : shared) : outcome label shared :=
  match a with
  | ALock => match w.(mtx) with
             | None => Val 0 (set_mtx (Some i) w)
             | Some _ => Blocked
             end
  | AUnlock => if decide (w.(mtx) = Some i) then Val 0 (set_mtx None w) else Val EPERM w
  | AWait => if decide (w.(mtx) = Some i) then Val 0 (set_cv Waiting w.(spurious) (set_mtx None w))
             else Val EPERM w
  | AWoken =>
      match w.(mtx), w.(cv), w.(spurious) with
      | None, Signalled, k => Val 0 (set_cv Idle k (set_mtx (Some i) w))
      | None, Waiting, S k => Val 0 (set_cv Idle k (set_mtx (Some i) w))
      | _, _, _ => Blocked
      end
  | ASignal => Val 0 (match w.(cv) with Waiting => set_cv Signalled w.(spurious) w | _ => w end)
  | ACalloc n =>
      if w.(heap) then Val 1 (set_thread (replicate n (Slot 0 TS_ALIVE 0 0)) w) else Val 0 w
  | AFree => Val 0 (set_thread [] w)
  | AInit j n =>
      match w.(thread) !! j with
      | Some s => Val 0 (set_thread (<[j := Slot s.(tid) TS_ALIVE n (Z.of_nat j)]> w.(thread)) w)
      | None => Blocked
      end
  | ACreate j =>
      let s := default 0 (head w.(statuses)) in
      let w := set_inputs w.(clock) (tail w.(statuses)) w in
      if s =? 0 then
        match w.(thread) !! j with
        | Some e =>
            Spawn (Thread j) (set_thread (<[j := with_tid (Z.of_nat (length ret)) e]> w.(thread)) w)
        | None => Blocked
        end
      else Val (- s) w
  | AJoin t => join ret t w
  | ALoad p => read p w
  | AStore p v => write p v w
  | ASleep _ => Val 0 w
  | ATime => Val (default 0 (head w.(clock))) (set_inputs (tail w.(clock)) w.(statuses) w)
  | APrint t => Val 0 (set_lines (w.(lines) ++ [t]) w)
  end.

Local Abbreviation prog := (code action label).

(** ** [pthread_wrappers.c] *)

Definition checked (msg : string) (a : action) : prog unit :=
  s ← act a; check_status s msg.
Definition Pthread_create (i : nat) : prog unit :=
  t ← act (ACreate i); if t <? 0 then End (Failed (- t) "pthread_create() failed") else mret tt.
Definition Pthread_join (t : Z) : prog unit := checked "pthread_join() failed" (AJoin t).
Definition Pthread_mutex_lock : prog unit := checked "pthread_mutex_lock() failed" ALock.
Definition Pthread_mutex_unlock : prog unit := checked "pthread_mutex_unlock() failed" AUnlock.
Definition Pthread_cond_signal : prog unit := checked "pthread_cond_signal() failed" ASignal.
Definition Pthread_cond_wait : prog unit :=
  s ← act AWait;
  if s =? 0 then checked "pthread_cond_wait() failed" AWoken
  else End (Failed s "pthread_cond_wait() failed").

(** [getInt(a, GN_NONNEG, name)]; [None] where it ends the process. *)
Definition seconds (name : option string) (a : string) : option Z :=
  match fst (GetNum.getInt (Some a) GetNum.GN_NONNEG name (GetNum.NSt 0 "")) with
  | Ok v => Some v
  | Halt _ => None
  end.

(** [numUnjoined++], [numUnjoined--] and [numLive--]. *)
Definition unjoined_incr : prog unit :=
  v ← act (ALoad LUnjoined);
  if v =? INT_MAX then End Undefined else _ ← act (AStore LUnjoined (v + 1)); mret tt.
Definition unjoined_decr : prog unit :=
  v ← act (ALoad LUnjoined);
  if v =? INT_MIN then End Undefined else _ ← act (AStore LUnjoined (v - 1)); mret tt.
Definition live_decr (live : Z) : prog Z :=
  if live =? INT_MIN then End Undefined else mret (live - 1).

(** The parts that are the same in both programs: the start of [main], and the loop
    that waits. *)
Definition no_memory (timed : bool) : string := if timed then "calloc() failed" else "calloc".
Definition main_start (timed : bool) (args : list string) : prog unit :=
  match args with
  | [] => End (Exited EXIT_FAILURE)
  | a :: _ =>
      if bool_decide (a = "--help") then End (Exited EXIT_FAILURE) else
      p ← act (ACalloc (length args));
      if p =? 0 then End (Failed ENOMEM (no_memory timed)) else
      if timed then t ← act ATime; Goto (Create t 0 args) else Goto (Create 0 0 args)
  end.
Definition create_loop (name : option string) (t : Z) (i : nat) (args : list string) : prog unit :=
  match args with
  | [] => Goto (Outer t i (Z.of_nat i))
  | a :: args =>
      match seconds name a with
      | None => End (Exited EXIT_FAILURE)
      | Some n =>
          _ ← act (AInit i n);
          _ ← Pthread_create i;
          Goto (Create t (S i) args)
      end
  end.
Definition wait (t : Z) (tot : nat) (live : Z) : prog unit :=
  v ← act (ALoad LUnjoined);
  if v =? 0 then _ ← Pthread_cond_wait; Goto (Wait t tot live) else Goto (Walk t tot 0 live).

(** *** [thread_multijoin.c] *)

Module thread_multijoin.
Definition outer (t : Z) (tot : nat) (live : Z) : prog unit :=
  if 0 <? live then _ ← Pthread_mutex_lock; Goto (Wait t tot live) else End (Exited EXIT_SUCCESS).
Definition walk (t : Z) (tot i : nat) (live : Z) : prog unit :=
  if (i <? tot)%nat then
    s ← act (ALoad (LState i));
    if s =? TS_TERMINATED then
      n ← act (ALoad (LTid i));
      _ ← Pthread_join n;
      _ ← act (AStore (LState i) TS_JOINED);
      live ← live_decr live;
      _ ← unjoined_decr;
      _ ← act (APrint ("Reaped thread " +:+ fmt_d (Z.of_nat i) +:+ " (numLive=" +:+ fmt_d live +:+ ")" +:+ nl));
      Goto (Walk t tot (S i) live)
    else Goto (Walk t tot (S i) live)
  else
    _ ← Pthread_mutex_unlock;
    Goto (Outer t tot live).
Definition threadFunc (i : nat) : prog unit :=
  n ← act (ALoad (LSleep i));
  _ ← act (ASleep n);
  _ ← act (APrint ("Thread " +:+ fmt_d (Z.of_nat i) +:+ " terminating" +:+ nl));
  _ ← Pthread_mutex_lock;
  _ ← unjoined_incr;
  _ ← act (AStore (LState i) TS_TERMINATED);
  _ ← Pthread_mutex_unlock;
  _ ← Pthread_cond_signal;
  mret tt.
End thread_multijoin.

(** *** [ythread_multijoin.c] *)

Module ythread_multijoin.
Definition outer (t : Z) (tot : nat) (live : Z) : prog unit :=
  if 0 <? live then _ ← Pthread_mutex_lock; Goto (Wait t tot live)
  else _ ← act AFree; End (Exited EXIT_SUCCESS).
Definition walk (t : Z) (tot i : nat) (live : Z) : prog unit :=
  if (i <? tot)%nat then
    s ← act (ALoad (LState i));
    if s =? TS_TERMINATED then
      n ← act (ALoad (LTid i));
      _ ← Pthread_join n;
      _ ← act (AStore (LState i) TS_JOINED);
      _ ← unjoined_decr;
      live ← live_decr live;
      now ← act ATime;
      j ← act (ALoad (LIdx i));
      _ ← act (APrint ("Time=" +:+ fmt_d (now - t) +:+ ": Joined thread n°" +:+ fmt_d j +:+ nl));
      Goto (Walk t tot (S i) live)
    else Goto (Walk t tot (S i) live)
  else
    _ ← Pthread_mutex_unlock;
    Goto (Outer t tot live).
Definition thrdRoutine (i : nat) : prog unit :=
  j ← act (ALoad (LIdx i));
  n ← act (ALoad (LSleep i));
  _ ← act (ASleep n);
  _ ← act (APrint ("Thread[" +:+ fmt_d j +:+ "]: Terminating" +:+ nl));
  _ ← Pthread_mutex_lock;
  _ ← act (AStore (LState i) TS_TERMINATED);
  _ ← unjoined_incr;
  _ ← Pthread_mutex_unlock;
  _ ← Pthread_cond_signal;
  mret tt.
End ythread_multijoin.

Definition thread_multijoin_sys : Sys action label shared := {|
  perform := do_action;
  body l := match l with
            | Main args => main_start false args
            | Create t i args => create_loop None t i args
            | Outer t tot live => thread_multijoin.outer t tot live
            | Wait t tot live => wait t tot live
            | Walk t tot i live => thread_multijoin.walk t tot i live
            | Thread i => thread_multijoin.threadFunc i
            end;
  one_process := true
|}.

Definition ythread_multijoin_sys : Sys action label shared := {|
  perform := do_action;
  body l := match l with
            | Main args => main_start true args
            | Create t i args => create_loop (Some "sleept-time") t i args
            | Outer t tot live => ythread_multijoin.outer t tot live
            | Wait t tot live => wait t tot live
            | Walk t tot i live => ythread_multijoin.walk t tot i live
            | Thread i => ythread_multijoin.thrdRoutine i
            end;
  one_process := true
|}.

(** The process at its start. *)
Definition start (args : list string) (sp : nat) (clk st : list Z) (hp : bool) :
    config action label shared :=
  Config [Goto (Main args)] (Shared [] 0 None Idle [] [] sp clk st hp) None.

(** ** Both programs at once

    [y] tells the second program; [name] is what it passes to [getInt]. *)

Section multijoin.
Variable y : bool.
Variable name : option string.

Definition died_line (i : Z) : string :=
  if y then "Thread[" +:+ fmt_d i +:+ "]: Terminating" +:+ nl
  else "Thread " +:+ fmt_d i +:+ " terminating" +:+ nl.
Definition reaped_line (i : nat) (live dt j : Z) : string :=
  if y then "Time=" +:+ fmt_d dt +:+ ": Joined thread n°" +:+ fmt_d j +:+ nl
  else "Reaped thread " +:+ fmt_d (Z.of_nat i) +:+ " (numLive=" +:+ fmt_d live +:+ ")" +:+ nl.

Definition signal_code : prog unit := _ ← Pthread_cond_signal; mret tt.
Definition unlock_code : prog unit := _ ← Pthread_mutex_unlock; signal_code.
Definition last_mark_code (i : nat) : prog unit :=
  _ ← act (AStore (LState i) TS_TERMINATED); unlock_code.
Definition incr_code (i : nat) : prog unit :=
  _ ← unjoined_incr; if y then unlock_code else last_mark_code i.
Definition mark_code (i : nat) : prog unit :=
  _ ← act (AStore (LState i) TS_TERMINATED); if y then incr_code i else unlock_code.
Definition lock_code (i : nat) : prog unit :=
  _ ← Pthread_mutex_lock; if y then mark_code i else incr_code i.
Definition died_code (i : nat) (j : Z) : prog unit :=
  _ ← act (APrint (died_line j)); lock_code i.
Definition sleep_code (i : nat) (j n : Z) : prog unit := _ ← act (ASleep n); died_code i j.
Definition nap_code (i : nat) (j : Z) : prog unit := n ← act (ALoad (LSleep i)); sleep_code i j n.
Definition thread_code (i : nat) : prog unit :=
  if y then j ← act (ALoad (LIdx i)); nap_code i j else nap_code i (Z.of_nat i).

Definition reaped_code (t : Z) (tot i : nat) (live now j : Z) : prog unit :=
  _ ← act (APrint (reaped_line i live (now - t) j)); Goto (Walk t tot (S i) live).
Definition idx_code (t : Z) (tot i : nat) (live now : Z) : prog unit :=
  j ← act (ALoad (LIdx i)); reaped_code t tot i live now j.
Definition time_code (t : Z) (tot i : nat) (live : Z) : prog unit :=
  if y then now ← act ATime; idx_code t tot i live now else reaped_code t tot i live t (Z.of_nat i).
Definition decr_code (t : Z) (tot i : nat) (live : Z) : prog unit :=
  l ← (if y then mret live else live_decr live);
  _ ← unjoined_decr;
  l ← (if y then live_decr l else mret l);
  time_code t tot i l.
Definition joined_code (t : Z) (tot i : nat) (live : Z) : prog unit :=
  _ ← act (AStore (LState i) TS_JOINED); decr_code t tot i live.
Definition join_code (t : Z) (tot i : nat) (live n : Z) : prog unit :=
  _ ← Pthread_join n; joined_code t tot i live.
Definition tid_code (t : Z) (tot i : nat) (live : Z) : prog unit :=
  n ← act (ALoad (LTid i)); join_code t tot i live n.
Definition state_code (t : Z) (tot i : nat) (live : Z) : prog unit :=
  s ← act (ALoad (LState i));
  if s =? TS_TERMINATED then tid_code t tot i live else Goto (Walk t tot (S i) live).
Definition walked_code (t : Z) (tot : nat) (live : Z) : prog unit :=
  _ ← Pthread_mutex_unlock; Goto (Outer t tot live).
Definition walk_code (t : Z) (tot i : nat) (live : Z) : prog unit :=
  if (i <? tot)%nat then state_code t tot i live else walked_code t tot live.
Definition end_code : prog unit :=
  if y then _ ← act AFree; End (Exited EXIT_SUCCESS) else End (Exited EXIT_SUCCESS).
Definition outer_code (t : Z) (tot : nat) (live : Z) : prog unit :=
  if 0 <? live then _ ← Pthread_mutex_lock; Goto (Wait t tot live) else end_code.

Local Instance multijoin_sys : Sys action label shared := {|
  perform := do_action;
  body l := match l with
            | Main args => main_start y args
            | Create t i args => create_loop name t i args
            | Outer t tot live => outer_code t tot live
            | Wait t tot live => wait t tot live
            | Walk t tot i live => walk_code t tot i live
            | Thread i => thread_code i
            end;
  one_process := true
|}.

Variable args : list string.
Definition nthr : nat := length args.
Hypothesis args_int : Z.of_nat nthr < INT_MAX.

(** *** What is printed *)

Inductive event := Died (i : nat) | Reaped (i : nat) (live dt : Z).
Definition ev_line (e : event) : string :=
  match e with
  | Died i => died_line (Z.of_nat i)
  | Reaped i live dt => reaped_line i live dt (Z.of_nat i)
  end.
Definition died (evs : list event) : list nat :=
  omap (λ e, match e with Died i => Some i | _ => None end) evs.
Definition reaped (evs : list event) : list (nat * Z) :=
  omap (λ e, match e with Reaped i live _ => Some (i, live) | _ => None end) evs.
(** A thread is joined after it said that it ends. *)
Definition ordered (evs : list event) : Prop :=
  ∀ k i live dt, evs !! k = Some (Reaped i live dt) → ∃ j, (j < k)%nat ∧ evs !! j = Some (Died i).

(** Each of [k] threads ends once and is joined once after that, while the number
    of live threads counts down to 0. *)
Definition all_joined (k : nat) (evs : list event) : Prop :=
  died evs ≡ₚ seq 0 k ∧ (reaped evs).*1 ≡ₚ seq 0 k ∧
  (reaped evs).*2 = reverse (seqZ 0 (Z.of_nat k)) ∧ ordered evs.

(** Arguments that are not accepted. *)
Definition args_bad : Prop :=
  args = [] ∨ head args = Some "--help" ∨ ∃ a, a ∈ args ∧ seconds name a = None.

(** *** Control points *)

Inductive tpc :=
| TGo | TIdx | TNap | TSleep (v : Z) | TPrint | TLock | TIncr | TStore (v : Z) | TMark
| TUnlock | TSignal | TRet.

(** A thread with its entry of the array. *)
Record thr := Thr { num : nat; pc : tpc; st : Z; nap : Z }.
Definition slot_of (x : thr) : slot :=
  Slot (Z.of_nat (S x.(num))) x.(st) x.(nap) (Z.of_nat x.(num)).

Definition tcode (x : thr) : prog unit :=
  let i := x.(num) in
  match x.(pc) with
  | TGo => Goto (Thread i)
  | TIdx => thread_code i
  | TNap => nap_code i (Z.of_nat i)
  | TSleep v => sleep_code i (Z.of_nat i) v
  | TPrint => died_code i (Z.of_nat i)
  | TLock => lock_code i
  | TIncr => incr_code i
  | TStore v => Act (AStore LUnjoined v) (λ _, if y then unlock_code else last_mark_code i)
  | TMark => mark_code i
  | TUnlock => unlock_code
  | TSignal => signal_code
  | TRet => Ret tt
  end.

(** [main]: [l] threads are to be joined; [f]: some were joined in this walk. *)
Inductive mpc :=
| MStart | MUsage | MBad (k : nat) | MCalloc | MNoMem | MTimed
| MCreateG (k : nat) | MInit (k : nat) (v : Z) | MSpawn (k : nat) (v : Z) | MFail (k : nat) (v e : Z)
| MOuter (l : Z) | MLock (l : Z) | MWaitG (l : Z) | MCheck (l : Z) | MWait (l : Z) | MWoken (l : Z)
| MWalkG (j : nat) (l : Z) (f : bool) | MState (j : nat) (l : Z) (f : bool)
| MTid (j : nat) (l : Z) (f : bool) | MJoin (j : nat) (l : Z) (f : bool)
| MJoined (j : nat) (l : Z) (f : bool) | MDecr (j : nat) (l : Z) (f : bool)
| MStore (j : nat) (v l : Z) (f : bool) | MTime (j : nat) (l : Z) (f : bool)
| MIdx (j : nat) (now l : Z) (f : bool) | MPrint (j : nat) (now l : Z) (f : bool)
| MUnlock (l : Z) | MFree | MEnd.

Definition mcode (t : Z) (m : mpc) : prog unit :=
  let created k := _ ← Pthread_create k; Goto (Create t (S k) (drop (S k) args)) in
  match m with
  | MStart => Goto (Main args)
  | MUsage | MBad _ => End (Exited EXIT_FAILURE)
  | MCalloc => main_start y args
  | MNoMem => End (Failed ENOMEM (no_memory y))
  | MTimed => t ← act ATime; Goto (Create t 0 args)
  | MCreateG k => Goto (Create t k (drop k args))
  | MInit k v => _ ← act (AInit k v); created k
  | MSpawn k _ => created k
  | MFail _ _ e => End (Failed e "pthread_create() failed")
  | MOuter l => Goto (Outer t nthr l)
  | MLock l => _ ← Pthread_mutex_lock; Goto (Wait t nthr l)
  | MWaitG l => Goto (Wait t nthr l)
  | MCheck l => wait t nthr l
  | MWait l => _ ← Pthread_cond_wait; Goto (Wait t nthr l)
  | MWoken l => _ ← checked "pthread_cond_wait() failed" AWoken; Goto (Wait t nthr l)
  | MWalkG j l _ => Goto (Walk t nthr j l)
  | MState j l _ => state_code t nthr j l
  | MTid j l _ => tid_code t nthr j l
  | MJoin j l _ => join_code t nthr j l (Z.of_nat (S j))
  | MJoined j l _ => joined_code t nthr j l
  | MDecr j l _ => decr_code t nthr j l
  | MStore j v l _ => Act (AStore LUnjoined v) (λ _, time_code t nthr j (l - 1))
  | MTime j l _ => time_code t nthr j (l - 1)
  | MIdx j now l _ => idx_code t nthr j (l - 1) now
  | MPrint j now l _ => reaped_code t nthr j (l - 1) now (Z.of_nat j)
  | MUnlock l => walked_code t nthr l
  | MFree => end_code
  | MEnd => End (Exited EXIT_SUCCESS)
  end.

Definition conf (t : Z) (m : mpc) (xs : list thr) (w : shared) : config action label shared :=
  Config (mcode t m :: (tcode <$> xs)) w None.

(** *** What holds at each point *)

Definition marked (p : tpc) : bool :=
  match p with TUnlock | TSignal | TRet => true | TIncr | TStore _ => y | _ => false end.
Definition counted (p : tpc) : Z :=
  match p with TUnlock | TSignal | TRet => 1 | TMark => if y then 0 else 1 | _ => 0 end.
Definition printed (p : tpc) : bool :=
  match p with TGo | TIdx | TNap | TSleep _ | TPrint => false | _ => true end.
Definition tcrit (p : tpc) : bool :=
  match p with TIncr | TStore _ | TMark | TUnlock => true | _ => false end.
(** The thread is going to signal after it was counted. *)
Definition will_signal (p : tpc) : bool :=
  match p with TMark => negb y | TUnlock | TSignal => true | _ => false end.

Definition jn (x : thr) : Z := if x.(st) =? TS_JOINED then 1 else 0.
Definition due (x : thr) : Z := counted x.(pc) - jn x.
Definition alive (x : thr) : Z := 1 - jn x.

Definition thr_ok (u : Z) (x : thr) : Prop :=
  (if marked x.(pc) then x.(st) = TS_TERMINATED ∨ (x.(st) = TS_JOINED ∧ x.(pc) = TRet)
   else x.(st) = TS_ALIVE) ∧
  match x.(pc) with
  | TIdx => y = true
  | TStore v => v = u + 1
  | _ => True
  end.

Definition mcrit (m : mpc) : bool :=
  match m with
  | MWaitG _ | MCheck _ | MWait _ | MWalkG _ _ _ | MState _ _ _ | MTid _ _ _ | MJoin _ _ _
  | MJoined _ _ _ | MDecr _ _ _ | MStore _ _ _ _ | MTime _ _ _ | MIdx _ _ _ _ | MPrint _ _ _ _
  | MUnlock _ => true
  | _ => false
  end.
(** Threads created. *)
Definition made (m : mpc) : nat :=
  match m with
  | MStart | MUsage | MCalloc | MNoMem | MTimed => 0
  | MBad k | MCreateG k | MInit k _ | MSpawn k _ | MFail k _ _ => k
  | _ => nthr
  end.
(** The number last printed; threads whose entry is not [TS_JOINED]; what
    [numUnjoined] is too high by. *)
Definition shown (m : mpc) : Z :=
  match m with
  | MOuter l | MLock l | MWaitG l | MCheck l | MWait l | MWoken l | MWalkG _ l _ | MState _ l _
  | MTid _ l _ | MJoin _ l _ | MJoined _ l _ | MDecr _ l _ | MStore _ _ l _ | MTime _ l _
  | MIdx _ _ l _ | MPrint _ _ l _ | MUnlock l => l
  | MFree | MEnd => 0
  | _ => Z.of_nat nthr
  end.
Definition remaining (m : mpc) : Z :=
  match m with
  | MDecr _ l _ | MStore _ _ l _ | MTime _ l _ | MIdx _ _ l _ | MPrint _ _ l _ => l - 1
  | MStart | MUsage | MBad _ | MCalloc | MNoMem | MTimed | MCreateG _ | MInit _ _ | MSpawn _ _
  | MFail _ _ _ =>
      Z.of_nat (made m)
  | _ => shown m
  end.
Definition excess (m : mpc) : Z :=
  match m with MDecr _ _ _ | MStore _ _ _ _ => 1 | _ => 0 end.
(** Joined but not yet marked; marked but not yet reported. *)
Definition joining (m : mpc) : option nat :=
  match m with MJoined j _ _ => Some j | _ => None end.
Definition pending (m : mpc) : option nat :=
  match m with
  | MDecr j _ _ | MStore j _ _ _ | MTime j _ _ | MIdx j _ _ _ | MPrint j _ _ _ => Some j
  | _ => None
  end.

(** The entries no thread was created for yet. *)
Definition rest (m : mpc) : list slot :=
  let fresh k := replicate k (Slot 0 TS_ALIVE 0 0) in
  match m with
  | MTimed => fresh nthr
  | MBad k | MCreateG k | MInit k _ => fresh (nthr - k)%nat
  | MSpawn k v | MFail k v _ => Slot 0 TS_ALIVE v (Z.of_nat k) :: fresh (nthr - S k)%nat
  | _ => []
  end.

Definition entry (j : nat) (P : thr → Prop) (xs : list thr) : Prop :=
  ∃ x, xs !! j = Some x ∧ P x.
Definition ready (j : nat) (xs : list thr) : Prop :=
  ∃ i, (j <= i)%nat ∧ entry i (λ x, x.(st) = TS_TERMINATED) xs.

(** The first [k] arguments are accepted. *)
Definition accepted (k : nat) : Prop :=
  args ≠ [] ∧ head args ≠ Some "--help" ∧ Forall (λ a, is_Some (seconds name a)) (take k args).

Definition mpc_ok (u : Z) (xs : list thr) (m : mpc) : Prop :=
  match m with
  | MStart | MNoMem | MEnd | MCalloc | MUnlock _ => True
  | MUsage => args_bad
  | MBad k => args_bad ∧ (k < nthr)%nat
  | MTimed | MFree => y = true
  | MCreateG k => (k <= nthr)%nat
  | MInit k v | MSpawn k v => (k < nthr)%nat ∧ accepted (S k)
  | MFail k _ e => e ≠ 0 ∧ (k < nthr)%nat
  | MOuter l => 0 <= l
  | MLock l | MWaitG l | MCheck l | MWoken l => 0 < l
  | MWait l => 0 < l ∧ u = 0
  | MWalkG j _ f => (j <= nthr)%nat ∧ (f = false → ready j xs)
  | MState j _ f => (j < nthr)%nat ∧ (f = false → ready j xs)
  | MTid j _ _ | MJoin j _ _ => entry j (λ x, x.(st) = TS_TERMINATED) xs
  | MJoined j _ _ => entry j (λ x, x.(st) = TS_TERMINATED ∧ x.(pc) = TRet) xs
  | MDecr j _ _ | MPrint j _ _ _ => entry j (λ x, x.(st) = TS_JOINED) xs
  | MStore j v _ _ => entry j (λ x, x.(st) = TS_JOINED) xs ∧ v = u - 1
  | MTime j _ _ => y = true ∧ entry j (λ x, x.(st) = TS_JOINED) xs
  | MIdx j _ _ _ => y = true ∧ entry j (λ x, x.(st) = TS_JOINED) xs
  end.

Definition cv_ok (c : cond) (u : Z) (m : mpc) (xs : list thr) : Prop :=
  match m with
  | MWoken _ => c = Signalled ∨
      c = Waiting ∧ (u = 0 ∨ ∃ i, entry i (λ x, will_signal x.(pc) = true) xs)
  | _ => c = Idle
  end.

Record log_ok (w : shared) (m : mpc) (xs : list thr) (evs : list event) : Prop := {
  l_lines : w.(lines) = ev_line <$> evs;
  l_order : ordered evs;
  l_died : NoDup (died evs);
  l_died_in i : i ∈ died evs ↔ entry i (λ x, printed x.(pc) = true) xs;
  l_reaped : NoDup (reaped evs).*1;
  l_reaped_in i : i ∈ (reaped evs).*1 ↔ entry i (λ x, x.(st) = TS_JOINED) xs ∧ pending m ≠ Some i;
  l_lives : (reaped evs).*2 = reverse (seqZ (shown m) (Z.of_nat nthr - shown m));
  l_shown : shown m <= Z.of_nat nthr
}.

(** The arguments were not looked at, or one was refused. *)
Definition early (m : mpc) : bool :=
  match m with MStart | MUsage | MBad _ => true | _ => false end.

Record inv (st0 : list Z) (w : shared) (m : mpc) (xs : list thr) (evs : list event) : Prop := {
  i_len : length xs = made m;
  i_num i x : xs !! i = Some x → x.(num) = i;
  i_mem : m ≠ MEnd → w.(thread) = (slot_of <$> xs) ++ rest m;
  i_thr i x : xs !! i = Some x → thr_ok w.(numUnjoined) x;
  i_unjoined : w.(numUnjoined) = total due xs + excess m;
  i_alive : total alive xs = remaining m;
  i_main : mpc_ok w.(numUnjoined) xs m;
  i_mtx : mutex_ok w.(mtx) (mcrit m :: (tcrit ∘ pc <$> xs));
  i_cv : cv_ok w.(cv) w.(numUnjoined) m xs;
  i_joined z : z ∈ w.(joined) ↔
    ∃ i, z = Z.of_nat (S i) ∧ entry i (λ x, x.(st) = TS_JOINED ∨ joining m = Some i) xs;
  i_log : log_ok w m xs evs;
  i_statuses : w.(statuses) ⊆ st0 ∧ ∀ k v e, m = MFail k v e → e ∈ st0;
  i_args : early m = false → accepted (made m);
  i_heap : m = MNoMem → w.(heap) = false
}.

(** *** Entries and sums *)

Lemma entry_update {P : thr → Prop} xs i j x x' :
  xs !! i = Some x →
  entry j P (<[i := x']> xs) ↔ (j = i ∧ P x') ∨ (j ≠ i ∧ entry j P xs).
Proof.
  intros Hi. assert (Hlt : (i < length xs)%nat) by by eapply lookup_lt_Some.
  unfold entry. split.
  - intros (z & Hj & Hz). apply list_lookup_insert_Some in Hj as [(<- & <- & _)|[Hne Hj]];
      [by left|right; split; [done|by exists z]].
  - intros [[-> Hz]|[Hne (z & Hj & Hz)]].
    + exists x'. by rewrite list_lookup_insert_eq.
    + exists z. by rewrite list_lookup_insert_ne.
Qed.

(** A fact of an entry that the thread's move keeps. *)
Lemma entry_kept {P : thr → Prop} xs i j x x' :
  xs !! i = Some x → (P x → P x') → entry j P xs → entry j P (<[i := x']> xs).
Proof.
  intros Hi HP (z & Hj & Hz). apply (entry_update _ _ _ _ _ Hi).
  destruct (decide (j = i)) as [->|]; [left|right; split; [done|by exists z]].
  simplify_eq. split; [done|by apply HP].
Qed.

Lemma entry_same {P : thr → Prop} xs i j x x' :
  xs !! i = Some x → (P x ↔ P x') → entry j P (<[i := x']> xs) ↔ entry j P xs.
Proof.
  intros Hi HP. split; [|by eapply entry_kept; [done|apply HP]].
  rewrite (entry_update _ _ _ _ _ Hi). intros [[-> Hz]|[_ Hj]]; [|done].
  exists x. split; [done|by apply HP].
Qed.

Lemma entry_snoc {P : thr → Prop} xs j x :
  entry j P (xs ++ [x]) ↔ entry j P xs ∨ (j = length xs ∧ P x).
Proof.
  unfold entry. split.
  - intros (z & Hj & Hz). apply lookup_snoc_Some in Hj as [[_ Hj]|[-> ->]]; [left; by exists z|by right].
  - intros [(z & Hj & Hz)|[-> Hx]].
    + exists z. split; [|done]. by apply lookup_app_l_Some.
    + exists x. split; [|done]. by apply list_lookup_middle.
Qed.

Lemma total_ones {A} (l : list A) : total (λ _, 1) l = Z.of_nat (length l).
Proof. induction l as [|x l IH]; [done|]. cbn [total length]. lia. Qed.

Lemma due_bound u x : thr_ok u x → 0 <= due x <= 1.
Proof.
  intros [H _]. assert (Hc : 0 <= counted (pc x) <= 1) by (destruct (pc x); simpl; try destruct y; lia).
  unfold due, jn. destruct (marked (pc x)); [destruct H as [->|[-> Hp]]|rewrite H]; simpl; [lia| |lia].
  rewrite Hp. simpl. lia.
Qed.

Lemma jn_bound x : 0 <= jn x <= 1.
Proof. unfold jn. destruct (_ =? _); lia. Qed.

Lemma unjoined_bound st0 w m xs evs :
  inv st0 w m xs evs → excess m <= w.(numUnjoined) <= Z.of_nat (made m) + excess m.
Proof.
  intros HI. rewrite (i_unjoined _ _ _ _ _ HI).
  assert (0 <= total due xs).
  { apply total_nonneg. intros i x Hi. eapply due_bound. by eapply i_thr. }
  assert (total due xs <= total (λ _, 1) xs).
  { apply total_mono. intros i x Hi. eapply due_bound. by eapply i_thr. }
  rewrite total_ones, (i_len _ _ _ _ _ HI) in *. lia.
Qed.

Lemma made_le st0 w m xs evs : inv st0 w m xs evs → (made m <= nthr)%nat.
Proof. intros HI. pose proof (i_main _ _ _ _ _ HI) as H. destruct m; simpl in *; lia. Qed.

Lemma remaining_nonneg st0 w m xs evs : inv st0 w m xs evs → 0 <= remaining m.
Proof.
  intros HI. rewrite <- (i_alive _ _ _ _ _ HI). apply total_nonneg. intros i x _.
  unfold alive. pose proof (jn_bound x). lia.
Qed.

Lemma mj_mpc_ok_quiet u u' xs m : mcrit m = false → mpc_ok u xs m → mpc_ok u' xs m.
Proof. by destruct m. Qed.

(** *** Moves of the threads *)

Lemma mpc_ok_thread u xs m i x x' :
  xs !! i = Some x → (x.(st) = TS_TERMINATED → x'.(st) = TS_TERMINATED) →
  (x.(st) = TS_JOINED → x'.(st) = TS_JOINED) → (x.(pc) = TRet → x'.(pc) = TRet) →
  mpc_ok u xs m → mpc_ok u (<[i := x']> xs) m.
Proof.
  intros Hi Ht Hj Hr.
  assert (HE : ∀ (P : thr → Prop) j, (P x → P x') → entry j P xs → entry j P (<[i := x']> xs)).
  { intros P j HP. by eapply entry_kept. }
  assert (HR : ∀ j, ready j xs → ready j (<[i := x']> xs)).
  { intros j (k & Hk & He). exists k. split; [done|]. by eapply HE. }
  destruct m; simpl; try done; try (by apply HE); try (intros [H1 H2]; split; [done|]; auto; fail).
  - intros H. eapply HE, H. tauto.
  - intros [H ->]. split; [|done]. by apply HE.
Qed.

(** What a thread may do to the array, the counter and the output. *)
Definition goes (w w' : shared) (i : nat) (x x' : thr) (evs evs' : list event) : Prop :=
  x'.(num) = x.(num) ∧ x'.(nap) = x.(nap) ∧
  w'.(thread) = <[i := slot_of x']> w.(thread) ∧
  (x'.(st) = x.(st) ∨ x.(st) = TS_ALIVE ∧ x'.(st) = TS_TERMINATED) ∧
  w'.(numUnjoined) = w.(numUnjoined) + counted x'.(pc) - counted x.(pc) ∧
  (w'.(numUnjoined) = w.(numUnjoined) ∨ tcrit x.(pc) = true) ∧
  w'.(mtx) = (if tcrit x'.(pc) then Some (S i) else if tcrit x.(pc) then None else w.(mtx)) ∧
  (tcrit x'.(pc) = true → tcrit x.(pc) = false → w.(mtx) = None) ∧
  ((printed x'.(pc) = printed x.(pc) ∧ evs' = evs ∧ w'.(lines) = w.(lines)) ∨
   (printed x.(pc) = false ∧ printed x'.(pc) = true ∧ evs' = evs ++ [Died i] ∧
    w'.(lines) = w.(lines) ++ [died_line (Z.of_nat i)])) ∧
  w'.(joined) = w.(joined) ∧ w'.(statuses) = w.(statuses) ∧ w'.(heap) = w.(heap).

Lemma died_app a b : died (a ++ b) = died a ++ died b.
Proof. apply omap_app. Qed.
Lemma reaped_app a b : reaped (a ++ b) = reaped a ++ reaped b.
Proof. apply omap_app. Qed.

Lemma ordered_snoc evs e :
  ordered evs →
  match e with Reaped i _ _ => i ∈ died evs | Died _ => True end → ordered (evs ++ [e]).
Proof.
  intros Ho He k i live dt Hk. apply lookup_snoc_Some in Hk as [[Hlt Hk]|[-> Hk]]; [|subst e].
  - destruct (Ho k i live dt Hk) as (j & Hj & Hd). exists j. split; [done|].
    by apply lookup_app_l_Some.
  - apply list_elem_of_omap in He as ([j|] & He & ?); simplify_eq/=.
    apply list_elem_of_lookup in He as [j Hj]. exists j.
    split; [by eapply lookup_lt_Some|by apply lookup_app_l_Some].
Qed.

Lemma log_thread w w' m xs evs evs' i x x' :
  log_ok w m xs evs → xs !! i = Some x → goes w w' i x x' evs evs' →
  log_ok w' m (<[i := x']> xs) evs'.
Proof.
  intros [H1 H2 H3 H4 H5 H6 H7 H8] Hi (_ & _ & _ & Hst & _ & _ & _ & _ & Hlog & _).
  assert (HJ : ∀ j, entry j (λ x, st x = TS_JOINED) (<[i := x']> xs) ↔ entry j (λ x, st x = TS_JOINED) xs).
  { intros j. apply (entry_same _ _ _ _ _ Hi). destruct Hst as [->|[-> ->]]; done. }
  destruct Hlog as [(Hp & -> & Hl)|(Hp & Hp' & -> & Hl)].
  - split; [by rewrite Hl|done|done| |done|intros j; by rewrite HJ|done|done].
    intros j. rewrite H4. symmetry. apply (entry_same _ _ _ _ _ Hi). by rewrite Hp.
  - split; rewrite ?died_app, ?reaped_app; simpl; rewrite ?app_nil_r.
    + by rewrite fmap_app, Hl, H1.
    + by apply ordered_snoc.
    + apply NoDup_app. split; [done|]. split; [|apply NoDup_singleton].
      intros j Hj ->%list_elem_of_singleton. apply H4 in Hj as (z & ? & ?). simplify_eq. congruence.
    + intros j. rewrite elem_of_app, H4, list_elem_of_singleton, (entry_update _ _ _ _ _ Hi).
      destruct (decide (j = i)) as [->|]; intuition congruence.
    + done.
    + intros j. by rewrite H6, HJ.
    + done.
    + done.
Qed.

Lemma mj_inv_thread st0 w m xs evs i x x' w' evs' :
  inv st0 w m xs evs → xs !! i = Some x → goes w w' i x x' evs evs' →
  thr_ok w'.(numUnjoined) x' → (x.(pc) ≠ TRet) →
  cv_ok w'.(cv) w'.(numUnjoined) m (<[i := x']> xs) → inv st0 w' m (<[i := x']> xs) evs'.
Proof.
  intros HI Hi HG Hok Hpc Hcv.
  pose proof HG as (Hnum & Hnap & Hth & Hst & Hu & Huc & Hmx & Hfree & _ & Hj & Hss & Hh).
  assert (Hlt : (i < length xs)%nat) by by eapply lookup_lt_Some.
  assert (HJ : jn x' = jn x) by (unfold jn; destruct Hst as [->|[-> ->]]; done).
  assert (Hm : (mcrit m :: (tcrit ∘ pc <$> xs)) !! S i = Some (tcrit (pc x))).
  { simpl. by rewrite list_lookup_fmap, Hi. }
  pose proof (i_mtx _ _ _ _ _ HI) as HM.
  assert (Hexcl : tcrit (pc x) = true → mcrit m = false ∧ ∀ j z, j ≠ i → xs !! j = Some z → tcrit (pc z) = false).
  { intros Ht. rewrite Ht in Hm. destruct (mutex_holder _ _ _ HM Hm) as [_ Ho]. split.
    - by apply (Ho 0%nat).
    - intros j z Hne Hz. apply (Ho (S j)); [lia|]. simpl. by rewrite list_lookup_fmap, Hz. }
  split; try apply HI.
  - rewrite length_insert. apply HI.
  - intros j z Hz. apply list_lookup_insert_Some in Hz as [(<- & <- & _)|[_ Hz]];
      [rewrite Hnum|]; by eapply i_num.
  - intros Hm'. rewrite Hth, (i_mem _ _ _ _ _ HI Hm'), insert_app_l by by rewrite length_fmap.
    by rewrite list_fmap_insert.
  - intros j z Hz. apply list_lookup_insert_Some in Hz as [(<- & <- & _)|[Hne Hz]]; [done|].
    pose proof (i_thr _ _ _ _ _ HI j z Hz) as Hz'. destruct Huc as [->|Hc]; [done|].
    destruct (Hexcl Hc) as [_ Ho]. specialize (Ho j z (not_eq_sym Hne) Hz).
    destruct Hz' as [Ha Hb]. split; [done|]. by destruct (pc z).
  - rewrite (total_insert _ _ _ _ _ Hi), Hu, (i_unjoined _ _ _ _ _ HI). unfold due. rewrite HJ. lia.
  - rewrite (total_insert _ _ _ _ _ Hi), <- (i_alive _ _ _ _ _ HI). unfold alive. rewrite HJ. lia.
  - eapply (mpc_ok_thread _ _ _ _ _ _ Hi);
      [by destruct Hst as [->|[-> ->]]|by destruct Hst as [->|[-> ->]]|by intros|].
    destruct Huc as [->|Hc]; [apply HI|].
    eapply mj_mpc_ok_quiet; [by apply Hexcl|apply HI].
  - pose proof (mutex_move _ _ _ _ _ (tcrit (pc x')) HM Hm Hmx Hfree) as H. simpl in H.
    by rewrite list_fmap_insert.
  - done.
  - intros z. rewrite Hj, (i_joined _ _ _ _ _ HI). f_equiv. intros j. f_equiv.
    symmetry. apply (entry_same _ _ _ _ _ Hi). destruct Hst as [->|[-> ->]]; [done|]; split; intros [?|?]; auto; done.
  - eapply log_thread; [apply HI|done..].
  - rewrite Hss. apply HI.
  - rewrite Hh. apply HI.
Qed.

Definition trank (p : tpc) : Z :=
  match p with
  | TGo => 12 | TIdx => 11 | TNap => 10 | TSleep _ => 9 | TPrint => 8 | TLock => 7
  | TMark => if y then 6 else 4
  | TIncr => if y then 5 else 6
  | TStore _ => if y then 4 else 5
  | TUnlock => 3 | TSignal => 2 | TRet => 0
  end.
(** A signal to come of a thread, and those that were made or may come unasked. *)
Definition signals (p : tpc) : Z := match p with TRet => 0 | _ => 1 end.
Definition work (x : thr) : Z := trank x.(pc) + 10 * signals x.(pc).
Definition wakeups (w : shared) : Z :=
  match w.(cv) with Signalled => 1 | _ => 0 end + Z.of_nat w.(spurious).

Definition thread_next (st0 : list Z) (t : Z) (w : shared) (m : mpc) (xs : list thr)
    (i : nat) (x : thr) (c' : config action label shared) : Prop :=
  ∃ x' w' evs', c' = conf t m (<[i := x']> xs) w' ∧ inv st0 w' m (<[i := x']> xs) evs' ∧
    work x' + 10 * wakeups w' < work x + 10 * wakeups w.

(** Where all are joined no thread is left. *)
Lemma all_returned st0 w m xs evs i x :
  inv st0 w m xs evs → remaining m = 0 → xs !! i = Some x → x.(pc) = TRet.
Proof.
  intros HI Hr Hi. pose proof (i_alive _ _ _ _ _ HI) as Ha. rewrite Hr in Ha.
  assert (Hx : alive x = 0).
  { assert (0 <= alive x) by (unfold alive; pose proof (jn_bound x); lia).
    assert (0 <= total alive (delete i xs)).
    { apply total_nonneg. intros ? z _. unfold alive. pose proof (jn_bound z). lia. }
    rewrite <- (take_drop_middle xs i x Hi), total_app in Ha. cbn [total] in Ha.
    rewrite delete_take_drop, total_app in *. lia. }
  destruct (i_thr _ _ _ _ _ HI i x Hi) as [Hs _]. unfold alive, jn in Hx.
  destruct (Z.eqb_spec (st x) TS_JOINED) as [E|]; [|lia].
  destruct (marked (pc x)); [destruct Hs as [Hs|[_ Hs]]; [|done]|]; rewrite Hs in E; done.
Qed.

Lemma mem_lookup st0 w m xs evs i x :
  inv st0 w m xs evs → xs !! i = Some x → m ≠ MEnd → w.(thread) !! i = Some (slot_of x).
Proof.
  intros HI Hi Hm. rewrite (i_mem _ _ _ _ _ HI Hm). apply lookup_app_l_Some.
  by rewrite list_lookup_fmap, Hi.
Qed.
Lemma mem_thread st0 w m xs evs i x :
  inv st0 w m xs evs → xs !! i = Some x → x.(pc) ≠ TRet → w.(thread) !! i = Some (slot_of x).
Proof.
  intros HI Hi Hx. eapply mem_lookup; [done..|]. intros ->. apply Hx.
  by eapply all_returned.
Qed.

Lemma mj_conf_thread t m xs w i x' q :
  q = tcode x' →
  Config (mcode t m :: <[i := q]> (tcode <$> xs)) w None = conf t m (<[i := x']> xs) w.
Proof. intros ->. unfold conf. by rewrite list_fmap_insert. Qed.

(** The thread goes to [p'] and leaves what is shared as it is, or changes only the
    mutex and the condition variable. *)
Definition at_pc (x : thr) (p' : tpc) : thr := Thr x.(num) p' x.(st) x.(nap).
Definition same_data (w w' : shared) : Prop :=
  w'.(thread) = w.(thread) ∧ w'.(numUnjoined) = w.(numUnjoined) ∧ w'.(lines) = w.(lines) ∧
  w'.(joined) = w.(joined) ∧ w'.(statuses) = w.(statuses) ∧ w'.(heap) = w.(heap).

Lemma goes_quietly st0 w m xs evs i x p' w' :
  inv st0 w m xs evs → xs !! i = Some x → x.(pc) ≠ TRet → same_data w w' →
  counted p' = counted x.(pc) → printed p' = printed x.(pc) →
  w'.(mtx) = (if tcrit p' then Some (S i) else if tcrit x.(pc) then None else w.(mtx)) →
  (tcrit p' = true → tcrit x.(pc) = false → w.(mtx) = None) →
  goes w w' i x (at_pc x p') evs evs.
Proof.
  intros HI Hi Hpc (H1 & H2 & H3 & H4 & H5 & H6) Hc Hp Hm Hf. unfold goes, at_pc. cbn [num pc st nap].
  rewrite H1, H2, H3, H4, H5, H6, Hc, Hp. split_and!; try done; [|by left|lia|by left|by left].
  rewrite list_insert_id; [done|]. exact (mem_thread _ _ _ _ _ _ _ HI Hi Hpc).
Qed.

(** Nobody waits when [main] is at work, and a thread that goes on before its signal
    leaves a waiting [main] something to come. *)
Lemma mj_cv_ok_thread c u u' m xs i x x' :
  cv_ok c u m xs → xs !! i = Some x →
  (u' = u ∧ (will_signal x.(pc) = true → will_signal x'.(pc) = true) ∨ will_signal x'.(pc) = true) →
  cv_ok c u' m (<[i := x']> xs).
Proof.
  intros H Hi Hp. destruct m; try exact H. destruct H as [->|[-> H]]; [by left|right].
  split; [done|]. destruct (will_signal (pc x')) eqn:E.
  { right. exists i. apply (entry_update _ _ _ _ _ Hi). by left. }
  destruct Hp as [[-> Hp]|]; [|done]. destruct H as [->|[j Hj]]; [by left|right].
  exists j. eapply entry_kept; [done| |done]. intros Hx. specialize (Hp Hx). congruence.
Qed.

Lemma mj_mtx_thread st0 w m xs evs i x :
  inv st0 w m xs evs → xs !! i = Some x → tcrit x.(pc) = true →
  w.(mtx) = Some (S i) ∧ mcrit m = false.
Proof.
  intros HI Hi Hx. destruct (mutex_holder _ _ (S i) (i_mtx _ _ _ _ _ HI)) as [Hm Ho].
  - simpl. by rewrite list_lookup_fmap, Hi; simpl; rewrite Hx.
  - split; [done|]. by apply (Ho 0%nat).
Qed.

Lemma unjoined_room st0 w m xs evs i x :
  inv st0 w m xs evs → xs !! i = Some x → mcrit m = false → w.(numUnjoined) < INT_MAX.
Proof.
  intros HI Hi Hm. destruct (unjoined_bound _ _ _ _ _ HI) as [_ Hu].
  pose proof (made_le _ _ _ _ _ HI). destruct m; simpl in *; lia.
Qed.

Lemma thread_goes st0 t w m xs evs i x p' w' :
  inv st0 w m xs evs → xs !! i = Some x → x.(pc) ≠ TRet → same_data w w' →
  counted p' = counted x.(pc) → printed p' = printed x.(pc) → marked p' = marked x.(pc) →
  w'.(mtx) = (if tcrit p' then Some (S i) else if tcrit x.(pc) then None else w.(mtx)) →
  (tcrit p' = true → tcrit x.(pc) = false → w.(mtx) = None) →
  match p' with TIdx => y = true | TStore v => v = w.(numUnjoined) + 1 | _ => True end →
  cv_ok w'.(cv) w.(numUnjoined) m (<[i := at_pc x p']> xs) →
  trank p' + 10 * signals p' + 10 * wakeups w' < work x + 10 * wakeups w →
  thread_next st0 t w m xs i x (conf t m (<[i := at_pc x p']> xs) w').
Proof.
  intros HI Hi Hpc Hd Hc Hp Hk Hm Hf Hok Hcv Hr. exists (at_pc x p'), w', evs.
  destruct Hd as (H1 & H2 & H3). split; [done|]. split; [|done].
  eapply mj_inv_thread; [done|done|by eapply goes_quietly| |done|by rewrite H2].
  rewrite H2. destruct (i_thr _ _ _ _ _ HI i x Hi) as [Hx _]. unfold thr_ok. cbn [pc st at_pc].
  rewrite Hk. split; [|done]. destruct (marked (pc x)); [|done].
  destruct Hx as [?|[? ?]]; [by left|done].
Qed.

(** Where nothing shared changes at all. *)
Lemma thread_goes_on st0 t w m xs evs i x p' :
  inv st0 w m xs evs → xs !! i = Some x → x.(pc) ≠ TRet →
  counted p' = counted x.(pc) → printed p' = printed x.(pc) → marked p' = marked x.(pc) →
  tcrit p' = tcrit x.(pc) →
  match p' with TIdx => y = true | TStore v => v = w.(numUnjoined) + 1 | _ => True end →
  (will_signal x.(pc) = true → will_signal p' = true) →
  trank p' + 10 * signals p' < work x →
  thread_next st0 t w m xs i x (conf t m (<[i := at_pc x p']> xs) w).
Proof.
  intros HI Hi Hpc Hc Hp Hk Ht Hok Hs Hr. eapply thread_goes; try done.
  - rewrite Ht. destruct (tcrit (pc x)) eqn:E; [|done].
    by apply (mj_mtx_thread _ _ _ _ _ _ _ HI Hi).
  - congruence.
  - eapply mj_cv_ok_thread; [apply HI|done|]. by left.
  - lia.
Qed.

(** Moves up to the critical section. *)
Lemma start_step st0 t w m xs evs i x c' :
  inv st0 w m xs evs → xs !! i = Some x → sched_step (S i) (conf t m xs w) = Some c' →
  tcrit x.(pc) = false → printed x.(pc) = false → thread_next st0 t w m xs i x c'.
Proof.
  intros HI Hi. unfold sched_step, conf. cbn [ended pool wld].
  change ((mcode t m :: (tcode <$> xs)) !! S i) with ((tcode <$> xs) !! i).
  rewrite list_lookup_fmap, Hi. cbn [fmap option_fmap option_map].
  pose proof (i_num _ _ _ _ _ HI i x Hi) as Hn. pose proof (mem_thread _ _ _ _ _ _ _ HI Hi) as Hmem.
  destruct (i_thr _ _ _ _ _ HI i x Hi) as [Hst Hok].
  destruct x as [k p s v]. simpl in Hn, Hst, Hok. subst k.
  destruct p as [| | |b| | | |b| | | |]; try done; intros H _ _; revert H; cbn [tcode pc num].
  - intros [= <-]. cbn [body multijoin_sys].
    set (p' := if y then TIdx else TNap).
    assert (E : thread_code i = tcode (at_pc (Thr i TGo s v) p')).
    { unfold p'. destruct y eqn:Ey; [done|]. change (thread_code i = nap_code i (Z.of_nat i)).
      unfold thread_code. by rewrite Ey. }
    rewrite (mj_conf_thread _ _ _ _ _ _ _ E).
    eapply thread_goes_on; try done; unfold p'; destruct y; done.
  - unfold thread_code. rewrite Hok. cbn. unfold read. rewrite Hmem by done. cbn. intros [= <-].
    rewrite (mj_conf_thread _ _ _ _ _ (at_pc (Thr i TIdx s v) TNap)) by done.
    by eapply thread_goes_on.
  - cbn. unfold read. rewrite Hmem by done. cbn. intros [= <-].
    rewrite (mj_conf_thread _ _ _ _ _ (at_pc (Thr i TNap s v) (TSleep v))) by done.
    by eapply thread_goes_on.
  - cbn. intros [= <-].
    rewrite (mj_conf_thread _ _ _ _ _ (at_pc (Thr i (TSleep b) s v) TPrint)) by done.
    by eapply thread_goes_on.
  - cbn. intros [= <-].
    rewrite (mj_conf_thread _ _ _ _ _ (at_pc (Thr i TPrint s v) TLock)) by done.
    do 3 eexists. split; [done|]. split; [|unfold work, wakeups; simpl; lia].
    eapply (mj_inv_thread _ _ _ _ _ _ _ _ _ (evs ++ [Died i])); [done|done| |by split|done|].
    + unfold goes. simpl. split_and!; try done; try (by left); [|lia|by right].
      rewrite list_insert_id; [done|by apply Hmem].
    + eapply mj_cv_ok_thread; [apply HI|done|]. by left.
Qed.

Lemma last_mark_eq i : y = false → last_mark_code i = mark_code i.
Proof. intros Hy. unfold mark_code. by rewrite Hy. Qed.
Lemma lock_eq i : lock_code i = (_ ← Pthread_mutex_lock; if y then mark_code i else incr_code i).
Proof. done. Qed.

(** The mutex is taken, and the counter is read. *)
Lemma enter_step st0 t w m xs evs i x c' :
  inv st0 w m xs evs → xs !! i = Some x → sched_step (S i) (conf t m xs w) = Some c' →
  match x.(pc) with TLock | TIncr => thread_next st0 t w m xs i x c' | _ => True end.
Proof.
  intros HI Hi. unfold sched_step, conf. cbn [ended pool wld].
  change ((mcode t m :: (tcode <$> xs)) !! S i) with ((tcode <$> xs) !! i).
  rewrite list_lookup_fmap, Hi. cbn [fmap option_fmap option_map].
  pose proof (i_num _ _ _ _ _ HI i x Hi) as Hn.
  destruct x as [k p s v]. simpl in Hn. subst k.
  destruct p as [| | |b| | | |b| | | |]; try done; cbn [tcode pc num].
  - rewrite lock_eq. cbn -[mark_code incr_code]. destruct (mtx w) eqn:Em; [done|]. intros [= <-].
    set (p' := if y then TMark else TIncr).
    rewrite (mj_conf_thread _ _ _ _ _ (at_pc (Thr i TLock s v) p')) by by unfold p'; destruct y.
    eapply thread_goes; try done; unfold p'; try by (destruct y eqn:Ey; simpl; rewrite ?Ey).
    + eapply mj_cv_ok_thread; [apply HI|done|]. by left.
    + unfold work, wakeups. destruct y eqn:Ey; simpl; rewrite ?Ey; lia.
  - destruct (mj_mtx_thread _ _ _ _ _ _ _ HI Hi eq_refl) as [Em Hm].
    pose proof (unjoined_room _ _ _ _ _ _ _ HI Hi Hm) as Hmax.
    cbn -[unlock_code last_mark_code]. rewrite (proj2 (Z.eqb_neq _ INT_MAX)) by lia.
    cbn -[unlock_code last_mark_code]. intros [= <-].
    rewrite (mj_conf_thread _ _ _ _ _ (at_pc (Thr i TIncr s v) (TStore (numUnjoined w + 1)))) by done.
    eapply thread_goes_on; try done. unfold work. simpl. destruct y; lia.
Qed.

(** A move that changes the array or the counter. *)
Lemma thread_writes st0 t w m xs evs i x p' s' w' :
  inv st0 w m xs evs → xs !! i = Some x → tcrit x.(pc) = true → tcrit p' = true →
  w'.(thread) = <[i := slot_of (Thr i p' s' x.(nap))]> w.(thread) →
  (s' = x.(st) ∨ x.(st) = TS_ALIVE ∧ s' = TS_TERMINATED) →
  w'.(numUnjoined) = w.(numUnjoined) + counted p' - counted x.(pc) →
  w'.(mtx) = w.(mtx) → w'.(lines) = w.(lines) → w'.(joined) = w.(joined) →
  w'.(statuses) = w.(statuses) → w'.(heap) = w.(heap) → w'.(cv) = w.(cv) →
  w'.(spurious) = w.(spurious) →
  thr_ok w'.(numUnjoined) (Thr i p' s' x.(nap)) →
  (w'.(numUnjoined) = w.(numUnjoined) ∧ (will_signal x.(pc) = true → will_signal p' = true) ∨
   will_signal p' = true) →
  trank p' + 10 * signals p' < work x →
  thread_next st0 t w m xs i x (conf t m (<[i := Thr i p' s' x.(nap)]> xs) w').
Proof.
  intros HI Hi Hc Hc' Hth Hst Hu Hm Hl Hj Hss Hh Hcv Hsp Hok Hw Hr.
  destruct (mj_mtx_thread _ _ _ _ _ _ _ HI Hi Hc) as [Em _].
  pose proof (i_num _ _ _ _ _ HI i x Hi) as Hn.
  exists (Thr i p' s' (nap x)), w', evs. split; [done|].
  split; [|unfold work, wakeups in *; rewrite Hcv, Hsp; simpl; lia].
  eapply mj_inv_thread; [done|done| |done|by destruct (pc x)|].
  - unfold goes. cbn [num pc st nap]. split_and!; try done.
    + by right.
    + by rewrite Hm, Hc'.
    + intros _ Hf. congruence.
    + left. split_and!; try done. by destruct p', (pc x).
  - rewrite Hcv. eapply mj_cv_ok_thread; [apply HI|done|]. exact Hw.
Qed.

(** Moves in the critical section and after it. *)
Lemma crit_step st0 t w m xs evs i x c' :
  inv st0 w m xs evs → xs !! i = Some x → sched_step (S i) (conf t m xs w) = Some c' →
  match x.(pc) with TStore _ | TMark | TUnlock | TSignal => thread_next st0 t w m xs i x c' | _ => True end.
Proof.
  intros HI Hi. unfold sched_step, conf. cbn [ended pool wld].
  change ((mcode t m :: (tcode <$> xs)) !! S i) with ((tcode <$> xs) !! i).
  rewrite list_lookup_fmap, Hi. cbn [fmap option_fmap option_map].
  pose proof (i_num _ _ _ _ _ HI i x Hi) as Hn. pose proof (mem_thread _ _ _ _ _ _ _ HI Hi) as Hmem.
  pose proof (i_thr _ _ _ _ _ HI i x Hi) as [Hst Hok].
  destruct x as [k p s v]. simpl in Hn, Hst, Hok. subst k.
  destruct p as [| | |b| | | |b| | | |]; try done; cbn [tcode pc num].
  - subst b. cbn -[unlock_code last_mark_code]. intros [= <-].
    set (p' := if y then TUnlock else TMark).
    rewrite (mj_conf_thread _ _ _ _ _ (Thr i p' s v))
      by (unfold p'; destruct y eqn:Ey; [done|by apply last_mark_eq]).
    assert (Hcp : tcrit p' = true ∧ counted p' = 1 ∧ will_signal p' = true ∧ marked p' = y ∧
      trank p' + 10 * signals p' < work (Thr i (TStore (numUnjoined w + 1)) s v)).
    { unfold p', work. destruct y eqn:Ey; simpl; rewrite ?Ey; split_and!; try done; lia. }
    destruct Hcp as (H1 & H2 & H3 & H4 & H5).
    eapply (thread_writes _ _ _ _ _ _ _ (Thr i (TStore (numUnjoined w + 1)) s v)); try done; simpl.
    + rewrite list_insert_id; [done|]. by apply Hmem.
    + by left.
    + rewrite H2. lia.
    + unfold thr_ok. cbn [pc st]. rewrite H4. split; [|unfold p'; by destruct y].
      simpl in Hst. revert Hst. destruct y; [|done]. intros [?|[_ ?]]; [by left|done].
    + by right.
  - cbn -[unlock_code incr_code]. unfold write. rewrite Hmem by done. cbn -[unlock_code incr_code]. intros [= <-].
    set (p' := if y then TIncr else TUnlock).
    rewrite (mj_conf_thread _ _ _ _ _ (Thr i p' TS_TERMINATED v)) by by unfold p'; destruct y.
    assert (Hcp : tcrit p' = true ∧ counted p' = counted TMark ∧
      (will_signal TMark = true → will_signal p' = true) ∧ marked p' = true ∧
      trank p' + 10 * signals p' < work (Thr i TMark s v)).
    { unfold p', work. destruct y eqn:Ey; simpl; rewrite ?Ey; split_and!; try done; lia. }
    destruct Hcp as (H1 & H2 & H3 & H4 & H5).
    eapply (thread_writes _ _ _ _ _ _ _ (Thr i TMark s v)); try done; simpl.
    + by right.
    + rewrite H2. simpl. lia.
    + unfold thr_ok. cbn [pc st]. rewrite H4. split; [by left|]. unfold p'. by destruct y.
    + by left.
  - destruct (mj_mtx_thread _ _ _ _ _ _ _ HI Hi eq_refl) as [Em _].
    cbn -[signal_code]. rewrite decide_True by done. intros [= <-].
    rewrite (mj_conf_thread _ _ _ _ _ (at_pc (Thr i TUnlock s v) TSignal)) by done.
    eapply thread_goes; try done.
    + eapply mj_cv_ok_thread; [apply HI|done|]. by left.
    + unfold work, wakeups. simpl. lia.
  - cbn. intros [= <-].
    rewrite (mj_conf_thread _ _ _ _ _ (at_pc (Thr i TSignal s v) TRet)) by done.
    eapply thread_goes; try done.
    + by destruct (cv w).
    + by destruct (cv w).
    + pose proof (i_cv _ _ _ _ _ HI) as Hcv. destruct m; try (simpl in Hcv; by rewrite Hcv).
      simpl in Hcv |- *. left. by destruct (cv w) eqn:E, Hcv as [?|[? _]].
    + unfold work, wakeups. simpl. destruct (cv w) eqn:E; simpl; rewrite ?E; lia.
Qed.

Lemma mj_thread_step st0 t w m xs evs i x c' :
  inv st0 w m xs evs → xs !! i = Some x → sched_step (S i) (conf t m xs w) = Some c' →
  thread_next st0 t w m xs i x c'.
Proof.
  intros HI Hi Hs. pose proof (start_step _ _ _ _ _ _ _ _ _ HI Hi Hs) as H1.
  pose proof (enter_step _ _ _ _ _ _ _ _ _ HI Hi Hs) as H2.
  pose proof (crit_step _ _ _ _ _ _ _ _ _ HI Hi Hs) as H3.
  destruct (pc x) eqn:E; try done; try (by apply H1).
  revert Hs. unfold sched_step, conf. cbn [ended pool wld].
  change ((mcode t m :: (tcode <$> xs)) !! S i) with ((tcode <$> xs) !! i).
  rewrite list_lookup_fmap, Hi. cbn [fmap option_fmap option_map]. unfold tcode. by rewrite E.
Qed.

(** *** Moves of [main] *)

Definition width : Z := 20 * Z.of_nat nthr + 100.
Definition mrank (m : mpc) : Z :=
  let N := Z.of_nat nthr in
  let create k := width * N + 60 * (N - Z.of_nat k) + 20 * N + 60 in
  let walk j l (f : bool) := width * l + 20 * (N - Z.of_nat j) + (if f then 20 * N + 50 else 0) in
  match m with
  | MStart => create 0%nat + 9
  | MCalloc => create 0%nat + 8
  | MTimed => create 0%nat + 7
  | MCreateG k => create k + 6
  | MInit k _ => create k + 5
  | MSpawn k _ => create k + 4
  | MOuter l => width * l + 20 * N + 40
  | MLock l => width * l + 20 * N + 39
  | MWaitG l => width * l + 20 * N + 38
  | MCheck l => width * l + 20 * N + 37
  | MWait l => width * l + 20 * N + 36
  | MWoken l => width * l + 20 * N + 35
  | MWalkG j l f => walk j l f + 20
  | MState j l f => walk j l f + 19
  | MTid j l f => walk j l f + 18
  | MJoin j l f => walk j l f + 17
  | MJoined j l f => walk j l f + 16
  | MDecr j l f => walk j l f + 15
  | MStore j _ l f => walk j l f + 14
  | MTime j l f => walk j l f + 13
  | MIdx j _ l f => walk j l f + 12
  | MPrint j _ l f => walk j l f + 11
  | MUnlock l => width * l + 20 * N + 50
  | MFree => 5
  | MUsage | MBad _ | MNoMem | MFail _ _ _ | MEnd => 1
  end.
(** A bound of the steps left: a wake-up may cost a turn of the waiting loop. *)
Definition rank (w : shared) (m : mpc) (xs : list thr) : Z :=
  mrank m + total work xs + 10 * wakeups w.

Definition end_of (m : mpc) : option fate :=
  match m with
  | MUsage | MBad _ => Some (Exited EXIT_FAILURE)
  | MNoMem => Some (Failed ENOMEM (no_memory y))
  | MFail _ _ e => Some (Failed e "pthread_create() failed")
  | MEnd => Some (Exited EXIT_SUCCESS)
  | _ => None
  end.

Definition main_next (st0 : list Z) (t : Z) (w : shared) (m : mpc) (xs : list thr)
    (c' : config action label shared) : Prop :=
  (∃ t' m' xs' w' evs', c' = conf t' m' xs' w' ∧ inv st0 w' m' xs' evs' ∧
     rank w' m' xs' < rank w m xs) ∨
  ∃ h, c' = Config (pool (conf t m xs w)) w (Some h) ∧ end_of m = Some h.

(** *** What stays *)

Lemma mj_mtx_main st0 w m xs evs :
  inv st0 w m xs evs → mcrit m = true →
  w.(mtx) = Some 0%nat ∧ ∀ j x, xs !! j = Some x → tcrit x.(pc) = false.
Proof.
  intros HI Hm. destruct (mutex_holder _ _ 0 (i_mtx _ _ _ _ _ HI)) as [Ho Hx]; [simpl; by rewrite Hm|].
  split; [done|]. intros j x Hj. apply (Hx (S j)); [done|]. simpl. by rewrite list_lookup_fmap, Hj.
Qed.

Lemma thr_ok_quiet u u' x : tcrit x.(pc) = false → thr_ok u x → thr_ok u' x.
Proof. unfold thr_ok. by destruct (pc x). Qed.

Lemma log_main w w' m m' xs evs :
  log_ok w m xs evs → w'.(lines) = w.(lines) → pending m' = pending m → shown m' = shown m →
  log_ok w' m' xs evs.
Proof. intros [H1 H2 H3 H4 H5 H6 H7 H8] Hl Hp Hs. split; rewrite ?Hl, ?Hp, ?Hs; done. Qed.

(** [main] goes to [m'] and creates no thread. *)
Lemma mj_inv_main st0 w m xs evs m' w' evs' :
  inv st0 w m xs evs → made m' = made m →
  (m' ≠ MEnd → w'.(thread) = (slot_of <$> xs) ++ rest m') →
  w'.(numUnjoined) = w.(numUnjoined) + excess m' - excess m →
  (w'.(numUnjoined) = w.(numUnjoined) ∨ mcrit m = true) → remaining m' = remaining m →
  mpc_ok w'.(numUnjoined) xs m' →
  w'.(mtx) = (if mcrit m' then Some 0%nat else if mcrit m then None else w.(mtx)) →
  (mcrit m' = true → mcrit m = false → w.(mtx) = None) →
  cv_ok w'.(cv) w'.(numUnjoined) m' xs → w'.(joined) = w.(joined) → joining m' = joining m →
  log_ok w' m' xs evs' → (w'.(statuses) ⊆ st0 ∧ ∀ k v e, m' = MFail k v e → e ∈ st0) →
  (early m' = false → accepted (made m')) → (m' = MNoMem → w'.(heap) = false) →
  inv st0 w' m' xs evs'.
Proof.
  intros HI Hmd Hmem Hu Huc Hrem Hok Hmx Hfree Hcv Hj Hjg Hlog Hst Hargs Hheap. split; try done.
  - rewrite Hmd. apply HI.
  - apply HI.
  - intros i x Hi. pose proof (i_thr _ _ _ _ _ HI i x Hi) as Hx. destruct Huc as [->|Hc]; [done|].
    eapply thr_ok_quiet; [|done]. by eapply mj_mtx_main.
  - rewrite Hu, (i_unjoined _ _ _ _ _ HI). lia.
  - rewrite Hrem. apply HI.
  - exact (mutex_move _ _ _ 0 _ (mcrit m') (i_mtx _ _ _ _ _ HI) eq_refl Hmx Hfree).
  - intros z. rewrite Hj, Hjg. apply HI.
Qed.

(** Where nothing shared changes but the mutex and the condition variable. *)
Lemma mj_main_goes st0 t w m xs evs t' m' w' :
  inv st0 w m xs evs → same_data w w' → m ≠ MEnd →
  made m' = made m → rest m' = rest m → excess m' = excess m → remaining m' = remaining m →
  joining m' = joining m → pending m' = pending m → shown m' = shown m → early m = false →
  mpc_ok w.(numUnjoined) xs m' →
  w'.(mtx) = (if mcrit m' then Some 0%nat else if mcrit m then None else w.(mtx)) →
  (mcrit m' = true → mcrit m = false → w.(mtx) = None) →
  cv_ok w'.(cv) w.(numUnjoined) m' xs →
  (∀ k v e, m' = MFail k v e → e ∈ st0) → (m' = MNoMem → w'.(heap) = false) →
  mrank m' + 10 * wakeups w' < mrank m + 10 * wakeups w →
  main_next st0 t w m xs (conf t' m' xs w').
Proof.
  intros HI (D1 & D2 & D3 & D4 & D5 & D6) Hne Hmd Hr Hex Hrem Hjg Hp Hs He Hok Hmx Hf Hcv Hfl Hh Hrk.
  left. exists t', m', xs, w', evs. split; [done|]. split; [|unfold rank; lia].
  eapply mj_inv_main; try done.
  - intros _. rewrite D1, Hr. by apply HI.
  - rewrite D2. lia.
  - by left.
  - by rewrite D2.
  - by rewrite D2.
  - eapply log_main; [apply HI|done..].
  - rewrite D5. split; [apply HI|done].
  - intros _. rewrite Hmd. by apply HI.
Qed.

Lemma main_goes_on st0 t w m xs evs t' m' :
  inv st0 w m xs evs → m ≠ MEnd →
  made m' = made m → rest m' = rest m → excess m' = excess m → remaining m' = remaining m →
  joining m' = joining m → pending m' = pending m → shown m' = shown m → early m = false →
  mcrit m' = mcrit m → mpc_ok w.(numUnjoined) xs m' → cv_ok w.(cv) w.(numUnjoined) m' xs →
  (∀ k v e, m' = MFail k v e → e ∈ st0) → m' ≠ MNoMem → mrank m' < mrank m →
  main_next st0 t w m xs (conf t' m' xs w).
Proof.
  intros HI Hne Hmd Hr Hex Hrem Hjg Hp Hs He Hcr Hok Hcv Hfl Hh Hrk. eapply mj_main_goes; try done.
  - rewrite Hcr. destruct (mcrit m) eqn:E; [|done]. by eapply mj_mtx_main.
  - congruence.
  - lia.
Qed.

(** *** Creation *)

Lemma main_start_cases :
  (args_bad ∧ main_start y args = End (Exited EXIT_FAILURE)) ∨
  (accepted 0 ∧ main_start y args =
     Act (ACalloc nthr) (λ p, if p =? 0 then End (Failed ENOMEM (no_memory y))
                           else if y then t ← act ATime; Goto (Create t 0 args)
                           else Goto (Create 0 0 args))).
Proof.
  unfold accepted, args_bad, main_start, nthr. destruct args as [|a l]; [left; split; [by left|done]|].
  case_bool_decide as E; [left; split; [right; left; by rewrite E|done]|right].
  split; [|done]. split_and!; [done| |constructor]. simpl. congruence.
Qed.

Lemma drop_args k : drop k args = [] → (k <= nthr)%nat → k = nthr.
Proof. intros H Hk. apply (f_equal length) in H. rewrite length_drop in H. unfold nthr in *. simpl in H. lia. Qed.

Lemma accepted_succ k a l v :
  accepted k → drop k args = a :: l → seconds name a = Some v → accepted (S k).
Proof.
  intros (H1 & H2 & H3) Hd Hv. assert (Ha : args !! k = Some a).
  { rewrite <- (Nat.add_0_r k), <- lookup_drop, Hd. done. }
  split_and!; [done|done|]. rewrite (take_S_r _ _ _ Ha). apply Forall_app. split; [done|].
  repeat constructor. by exists v.
Qed.

Lemma drop_succ k a l : drop k args = a :: l → drop (S k) args = l ∧ (k < nthr)%nat.
Proof.
  intros H. split.
  - replace (S k) with (k + 1)%nat by lia. by rewrite <- drop_drop, H.
  - unfold nthr. rewrite <- (take_drop k args), length_app, H, length_take. simpl.
    assert (H' := f_equal length H). rewrite length_drop in H'. simpl in H'. lia.
Qed.

Lemma mj_create_step st0 t w m xs evs c' :
  inv st0 w m xs evs → sched_step 0 (conf t m xs w) = Some c' →
  match m with
  | MStart | MCalloc | MTimed | MCreateG _ | MInit _ _ => main_next st0 t w m xs c'
  | _ => True
  end.
Proof.
  intros HI. pose proof (i_main _ _ _ _ _ HI) as Hok. pose proof (i_cv _ _ _ _ _ HI) as Hcv.
  pose proof (i_mem _ _ _ _ _ HI) as Hmem. pose proof (i_statuses _ _ _ _ _ HI) as [Hst _].
  pose proof (i_len _ _ _ _ _ HI) as Hlen. pose proof (i_args _ _ _ _ _ HI) as Hacc.
  destruct m; try done; simpl in Hok, Hcv, Hmem, Hlen, Hacc;
    unfold sched_step, conf; cbn [ended pool wld lookup list_lookup mcode].
  - intros [= <-]. cbn [body multijoin_sys]. left.
    destruct main_start_cases as [[Hbad ->]|[Hgood E]].
    + exists t, MUsage, xs, w, evs. split; [done|]. split; [|unfold rank, mrank, width; lia].
      eapply mj_inv_main; try done; simpl; try apply HI; try (by left); try lia; try done;
        [intros _; by apply Hmem|eapply log_main; [apply HI|done..]].
    + exists t, MCalloc, xs, w, evs. split; [done|]. split; [|unfold rank, mrank; lia].
      eapply mj_inv_main; try done; simpl; try apply HI; try (by left); try lia; try done;
        [intros _; by apply Hmem|eapply log_main; [apply HI|done..]].
  - destruct main_start_cases as [[Hbad E]|[Hgood ->]].
    { exfalso. destruct Hacc as (H1 & H2 & _); [done|]. unfold main_start in E.
      destruct args as [|a l]; [done|]. case_bool_decide as Ea; [|done]. by rewrite Ea in H2. }
    cbn. destruct (heap w) eqn:Eh; intros [= <-].
    + left. exists 0, (if y then MTimed else MCreateG 0), xs, (set_thread (replicate nthr (Slot 0 TS_ALIVE 0 0)) w), evs.
      split; [unfold conf; by destruct y|]. apply length_zero_iff_nil in Hlen as ->.
      split; [|unfold rank, mrank; destruct y; change (wakeups (set_thread _ w)) with (wakeups w); lia].
      eapply mj_inv_main; try done; simpl; try apply HI; destruct y eqn:Ey; simpl; try (by left); try lia; try done;
        try (eapply log_main; [apply HI|done..]).
      intros _. by rewrite Nat.sub_0_r.
    + eapply (mj_main_goes _ _ _ _ _ _ t MNoMem); try done. unfold mrank, width. lia.
  - cbn. intros [= <-].
    eapply (mj_main_goes _ _ _ _ _ _ (default 0 (head (clock w))) (MCreateG 0)); try done; simpl; try lia.
    + by rewrite Nat.sub_0_r.
    + unfold wakeups. simpl. lia.
  - intros [= <-]. cbn [body multijoin_sys]. unfold create_loop.
    destruct (drop k args) as [|a l] eqn:Ed.
    { apply drop_args in Ed as ->; [|done]. eapply (main_goes_on _ _ _ _ _ _ t (MOuter (Z.of_nat nthr))); try done; simpl; try lia.
      by rewrite Nat.sub_diag. }
    destruct (drop_succ _ _ _ Ed) as [Hl Hk]. destruct (seconds name a) as [v|] eqn:Ev.
    + rewrite <- Hl. eapply (main_goes_on _ _ _ _ _ _ t (MInit k v)); try done; simpl; [|lia].
      split; [done|]. eapply accepted_succ; [by apply Hacc|done|done].
    + eapply (main_goes_on _ _ _ _ _ _ t (MBad k)); try done; simpl.
      * split; [|done]. right. right. exists a. split; [|done].
        rewrite <- (take_drop k args), Ed. apply elem_of_app. right. by left.
      * unfold width. lia.
  - cbn. assert (Hk : thread w !! k = Some (Slot 0 TS_ALIVE 0 0)).
    { rewrite Hmem by done. rewrite lookup_app_r, length_fmap, Hlen, Nat.sub_diag by (rewrite length_fmap; lia).
      apply lookup_replicate. split; [done|lia]. }
    rewrite Hk. cbn. intros [= <-]. left.
    exists t, (MSpawn k v), xs. do 2 eexists. split; [done|].
    split; [|unfold rank, mrank; change (wakeups (set_thread _ w)) with (wakeups w); lia].
    eapply mj_inv_main; try done; simpl; try apply HI; try (by left); try lia; try done;
      [|eapply log_main; [apply HI|done..]].
    intros _. rewrite Hmem, insert_app_r_alt, length_fmap, Hlen, Nat.sub_diag by (rewrite ?length_fmap; done || lia).
    by replace (nthr - k)%nat with (S (nthr - S k)) by lia.
Qed.

(** The new thread has its entry, and nothing to tell yet. *)
Lemma inv_spawn st0 w k v xs evs st' :
  inv st0 w (MSpawn k v) xs evs → st' ⊆ st0 →
  let x := Thr k TGo TS_ALIVE v in
  let w' := set_thread (<[k := slot_of x]> w.(thread)) (set_inputs w.(clock) st' w) in
  inv st0 w' (MCreateG (S k)) (xs ++ [x]) evs.
Proof.
  intros HI Hst x w'. pose proof (i_len _ _ _ _ _ HI) as Hlen. simpl in Hlen.
  destruct (i_main _ _ _ _ _ HI) as [Hk Hacc].
  assert (Hx : ∀ (P : thr → Prop) j, ¬ P x → entry j P (xs ++ [x]) ↔ entry j P xs).
  { intros P j HP. rewrite entry_snoc. intuition. }
  split.
  - rewrite length_app. simpl. lia.
  - intros i z Hi. apply lookup_snoc_Some in Hi as [[_ Hi]|[-> <-]]; [|done]. by eapply i_num.
  - intros _. subst w'. cbn [thread set_thread]. rewrite (i_mem _ _ _ _ _ HI) by done. cbn [rest].
    rewrite insert_app_r_alt, length_fmap, Hlen, Nat.sub_diag by (rewrite ?length_fmap; lia).
    rewrite fmap_app. simpl. by rewrite <- app_assoc.
  - intros i z Hi. apply lookup_snoc_Some in Hi as [[_ Hi]|[_ Hz]]; [exact (i_thr _ _ _ _ _ HI i z Hi)|].
    rewrite <- Hz. by split.
  - rewrite total_app, Z.add_0_r. exact (i_unjoined _ _ _ _ _ HI).
  - rewrite total_app, (i_alive _ _ _ _ _ HI). change (total alive [x]) with 1. simpl. lia.
  - simpl. lia.
  - rewrite fmap_app. exact (mutex_spawn _ _ (i_mtx _ _ _ _ _ HI)).
  - apply HI.
  - intros z. etransitivity; [exact (i_joined _ _ _ _ _ HI z)|]. f_equiv. intros j.
    by rewrite Hx by by intros [?|?].
  - destruct (i_log _ _ _ _ _ HI) as [H1 H2 H3 H4 H5 H6 H7 H8].
    split; try done; intros j; by rewrite Hx.
  - by split.
  - done.
  - done.
Qed.

Lemma spawn_step st0 t w k v xs evs c' :
  Forall (Z.le 0) st0 → inv st0 w (MSpawn k v) xs evs →
  sched_step 0 (conf t (MSpawn k v) xs w) = Some c' → main_next st0 t w (MSpawn k v) xs c'.
Proof.
  intros Hst0 HI. destruct (i_main _ _ _ _ _ HI) as [Hk Hacc].
  pose proof (i_len _ _ _ _ _ HI) as Hlen. simpl in Hlen.
  destruct (i_statuses _ _ _ _ _ HI) as [Hst _].
  unfold sched_step, conf. cbn [ended pool wld lookup list_lookup mcode].
  assert (Htl : tail (statuses w) ⊆ st0) by (destruct (statuses w); set_solver).
  assert (Hmem : thread w !! k = Some (Slot 0 TS_ALIVE v (Z.of_nat k))).
  { rewrite (i_mem _ _ _ _ _ HI) by done.
    by rewrite lookup_app_r, length_fmap, Hlen, Nat.sub_diag by (rewrite length_fmap; lia). }
  cbn -[Z.of_nat]. rewrite Hmem. destruct (Z.eqb_spec (default 0 (head (statuses w))) 0) as [E|E].
  - intros [= <-]. left. exists t, (MCreateG (S k)), (xs ++ [Thr k TGo TS_ALIVE v]). do 2 eexists.
    split; [|split; [exact (inv_spawn _ _ _ _ _ _ _ HI Htl)|]].
    + unfold conf. cbn [mcode]. rewrite fmap_app. f_equal. f_equal. unfold slot_of, with_tid. cbn.
      by rewrite !length_fmap, Hlen.
    + unfold rank, mrank. rewrite total_app. unfold wakeups. cbn. unfold work. simpl. lia.
  - intros [= <-]. left. set (e := default 0 (head (statuses w))) in *.
    assert (He : e ∈ st0) by (unfold e in *; destruct (statuses w); [done|]; simpl; set_solver).
    assert (0 <= e) by (rewrite Forall_forall in Hst0; by apply Hst0).
    exists t, (MFail k v e), xs, (set_inputs (clock w) (tail (statuses w)) w), evs.
    split; [|split].
    + unfold conf. cbn [mcode]. rewrite (proj2 (Z.ltb_lt (- e) 0)) by lia. by rewrite Z.opp_involutive.
    + eapply mj_inv_main; try done; simpl; try apply HI; try (by left); try lia; try done.
      * intros _. by apply (i_mem _ _ _ _ _ HI).
      * eapply log_main; [apply HI|done..].
      * split; [done|]. by intros ??? [= <- <- <-].
    + unfold rank, mrank, width, wakeups. simpl. lia.
Qed.

(** *** Waiting *)

(** Where the count is not 0 there is a thread to join. *)
Lemma some_ready st0 w m xs evs :
  inv st0 w m xs evs → mcrit m = true → excess m = 0 → w.(numUnjoined) ≠ 0 → ready 0 xs.
Proof.
  intros HI Hm Hex Hu. pose proof (unjoined_bound _ _ _ _ _ HI) as Hb.
  pose proof (i_unjoined _ _ _ _ _ HI) as Hd. rewrite Hex in *.
  destruct (total_pos due xs) as (i & x & Hi & Hx); [lia|].
  destruct (mj_mtx_main _ _ _ _ _ HI Hm) as [_ Hc]. specialize (Hc i x Hi).
  destruct (i_thr _ _ _ _ _ HI i x Hi) as [Hst _].
  exists i. split; [lia|]. exists x. split; [done|]. unfold due, jn in Hx.
  destruct (pc x); simpl in *; try done; try (destruct (_ =? _); lia);
    destruct Hst as [?|[E _]]; try done; rewrite E in Hx; simpl in Hx; lia.
Qed.

Lemma mj_wait_step st0 t w m xs evs c' :
  inv st0 w m xs evs → sched_step 0 (conf t m xs w) = Some c' →
  match m with
  | MOuter _ | MLock _ | MWaitG _ | MCheck _ | MWait _ | MWoken _ | MUnlock _ | MFree =>
      main_next st0 t w m xs c'
  | _ => True
  end.
Proof.
  intros HI. pose proof (i_main _ _ _ _ _ HI) as Hok. pose proof (i_cv _ _ _ _ _ HI) as Hcv.
  pose proof (mj_mtx_main _ _ _ _ _ HI) as Hmx.
  destruct m; try done; simpl in Hok, Hcv, Hmx;
    unfold sched_step, conf; cbn [ended pool wld lookup list_lookup mcode].
  - intros [= <-]. cbn [body multijoin_sys]. unfold outer_code. destruct (Z.ltb_spec 0 l) as [Hl|Hl].
    + eapply (main_goes_on _ _ _ _ _ _ t (MLock l)); try done. unfold mrank. lia.
    + assert (l = 0) as -> by lia. unfold end_code. destruct y eqn:Ey.
      * replace (_ ← act AFree; End (Exited EXIT_SUCCESS)) with (mcode t MFree)
          by (cbn [mcode]; unfold end_code; by rewrite Ey).
        eapply (main_goes_on _ _ _ _ _ _ t MFree); try done. unfold mrank. lia.
      * left. exists t, MEnd, xs, w, evs. split; [done|]. split; [|unfold rank, mrank; lia].
        eapply mj_inv_main; try done; simpl; try apply HI; try (by left); try lia; try done.
        -- eapply log_main; [apply HI|done..].
        -- split; [apply HI|done].
  - cbn. destruct (mtx w) eqn:Em; [done|]. intros [= <-].
    eapply (mj_main_goes _ _ _ _ _ _ t (MWaitG l)); try done. unfold mrank, wakeups. simpl. lia.
  - intros [= <-]. by eapply (main_goes_on _ _ _ _ _ _ t (MCheck l)); try (unfold mrank; lia).
  - cbn. intros [= <-]. destruct (Z.eqb_spec (numUnjoined w) 0) as [E|E].
    + eapply (main_goes_on _ _ _ _ _ _ t (MWait l)); try done. unfold mrank. lia.
    + eapply (main_goes_on _ _ _ _ _ _ t (MWalkG 0 l false)); try done; [|unfold mrank; lia].
      simpl. split; [lia|]. intros _. by eapply some_ready.
  - destruct Hok as [Hl Hu]. cbn. rewrite decide_True by by apply Hmx. intros [= <-].
    eapply (mj_main_goes _ _ _ _ _ _ t (MWoken l)); try done; simpl; [by right; split; [|left]|].
    unfold wakeups. simpl. rewrite Hcv. lia.
  - cbn. destruct (mtx w) eqn:Em; [done|].
    destruct (cv w) eqn:Ec; [done|destruct (spurious w) as [|sp] eqn:Es; [done|]|]; intros [= <-];
      (eapply (mj_main_goes _ _ _ _ _ _ t (MWaitG l)); try done; simpl; unfold wakeups; simpl;
        rewrite Ec, ?Es; lia).
  - cbn. rewrite decide_True by by apply Hmx. intros [= <-].
    eapply (mj_main_goes _ _ _ _ _ _ t (MOuter l)); try done; simpl.
    + exact (remaining_nonneg _ _ _ _ _ HI).
    + unfold wakeups. simpl. lia.
  - unfold end_code. rewrite Hok. cbn. intros [= <-]. left.
    exists t, MEnd, xs, (set_thread [] w), evs. split; [done|].
    split; [|unfold rank, mrank; change (wakeups (set_thread [] w)) with (wakeups w); lia].
    eapply mj_inv_main; try done; simpl; try apply HI; try (by left); try lia; try done.
    + eapply log_main; [apply HI|done..].
    + split; [apply HI|done].
Qed.

(** *** Joining *)

Definition at_ret (p : tpc) : bool := match p with TRet => true | _ => false end.
Lemma at_ret_true p : at_ret p = true → p = TRet.
Proof. by destruct p. Qed.
Lemma returned_tcode x : returned (tcode x) = at_ret x.(pc).
Proof.
  destruct x as [k p s v]. unfold tcode. cbn [pc num].
  destruct p; try done; unfold thread_code; by destruct y.
Qed.

Lemma ready_next j xs x :
  ready j xs → xs !! j = Some x → x.(st) ≠ TS_TERMINATED → ready (S j) xs.
Proof.
  intros (i & Hi & z & Hz & Hs) Hx Hne. exists i. split; [|by exists z].
  destruct (decide (i = j)) as [->|]; [by simplify_eq|lia].
Qed.

(** A thread that was joined is marked. *)
Lemma not_joined st0 w m xs evs j x :
  inv st0 w m xs evs → xs !! j = Some x → x.(st) = TS_TERMINATED → joining m = None →
  Z.of_nat (S j) ∉ w.(joined).
Proof.
  intros HI Hj Hs Hm Hin. apply (i_joined _ _ _ _ _ HI) in Hin as (i & Ei & z & Hz & Hzs).
  assert (i = j) as -> by lia. simplify_eq. destruct Hzs as [E|E]; [by rewrite Hs in E|congruence].
Qed.

(** The walk over the array, up to the join. *)
Lemma walk_step st0 t w m xs evs c' :
  inv st0 w m xs evs → sched_step 0 (conf t m xs w) = Some c' →
  match m with
  | MWalkG _ _ _ | MState _ _ _ | MTid _ _ _ => main_next st0 t w m xs c'
  | _ => True
  end.
Proof.
  intros HI. pose proof (i_main _ _ _ _ _ HI) as Hok. pose proof (i_cv _ _ _ _ _ HI) as Hcv.
  pose proof (i_len _ _ _ _ _ HI) as Hlen. pose proof (λ i x, mem_lookup _ _ _ _ _ i x HI) as Hmem.
  destruct m; try done;
    simpl in Hok, Hcv, Hlen;
    unfold sched_step, conf; cbn [ended pool wld lookup list_lookup mcode].
  - destruct Hok as [Hj Hf]. intros [= <-]. cbn [body multijoin_sys]. unfold walk_code.
    destruct (Nat.ltb_spec j nthr) as [Hlt|Hge].
    + eapply (main_goes_on _ _ _ _ _ _ t (MState j l f)); try done. unfold mrank. lia.
    + assert (j = nthr) as -> by lia. destruct f.
      * eapply (main_goes_on _ _ _ _ _ _ t (MUnlock l)); try done. unfold mrank. lia.
      * destruct (Hf eq_refl) as (i & Hi & x & Hx & _). apply lookup_lt_Some in Hx. lia.
  - destruct Hok as [Hj Hf]. destruct (lookup_lt_is_Some_2 xs j) as [x Hx]; [lia|].
    cbn -[tid_code]. unfold read. rewrite (Hmem _ _ Hx) by done. cbn -[tid_code]. intros [= <-].
    destruct (Z.eqb_spec (st x) TS_TERMINATED) as [E|E].
    + eapply (main_goes_on _ _ _ _ _ _ t (MTid j l f)); try done; [by exists x|unfold mrank; lia].
    + eapply (main_goes_on _ _ _ _ _ _ t (MWalkG (S j) l f)); try done; [|unfold mrank; lia].
      simpl. split; [done|]. intros ->. eapply ready_next; [by apply Hf|done|done].
  - destruct Hok as (x & Hx & Hs). cbn -[join_code]. unfold read. rewrite (Hmem _ _ Hx) by done.
    cbn -[join_code Z.of_nat]. intros [= <-]. rewrite (i_num _ _ _ _ _ HI _ _ Hx).
    eapply (main_goes_on _ _ _ _ _ _ t (MJoin j l f)); try done; [by exists x|unfold mrank; lia].
Qed.

(** The join waits for the thread's end. *)
Lemma join_step st0 t w j l f xs evs c' :
  inv st0 w (MJoin j l f) xs evs → sched_step 0 (conf t (MJoin j l f) xs w) = Some c' →
  main_next st0 t w (MJoin j l f) xs c'.
Proof.
  intros HI. destruct (i_main _ _ _ _ _ HI) as (x & Hx & Hs).
  unfold sched_step, conf. cbn [ended pool wld lookup list_lookup mcode].
  assert (E : ∀ b, join (b :: (returned <$> (tcode <$> xs))) (Z.of_nat (S j)) w =
    if at_ret (pc x) then Val 0 (set_joined (joined w ++ [Z.of_nat (S j)]) w) else Blocked).
  { intros b. unfold join. rewrite decide_False by by eapply not_joined.
    rewrite Nat2Z.id. change ((b :: (returned <$> (tcode <$> xs))) !! S j) with ((returned <$> (tcode <$> xs)) !! j).
    rewrite !list_lookup_fmap, Hx. simpl.
    rewrite returned_tcode. by destruct (at_ret (pc x)). }
  cbn -[joined_code Z.of_nat join]. rewrite E.
  destruct (at_ret (pc x)) eqn:Hp; [|done]. apply at_ret_true in Hp. intros [= <-]. left.
  exists t, (MJoined j l f), xs, (set_joined (joined w ++ [Z.of_nat (S j)]) w), evs.
  split; [done|]. split; [|unfold rank, mrank; change (wakeups (set_joined _ w)) with (wakeups w); lia].
  destruct HI as [H1 H2 H3 H4 H5 H6 H7 H8 H9 H10 H11 H12 H13 H14]. split; try done.
  - intros _. by apply H3.
  - by exists x.
  - intros z. cbn [joined set_joined joining]. rewrite elem_of_app, H10, list_elem_of_singleton.
    split.
    + intros [(i & -> & a & Ha & Has)| ->]; [exists i|exists j]; (split; [done|]).
      * exists a. split; [done|]. left. by destruct Has.
      * exists x. split; [done|]. by right.
    + intros (i & -> & a & Ha & [Has|[= <-]]); [left|by right].
      exists i. split; [done|]. exists a. split; [done|by left].
  - eapply log_main; [done..].
  - split; [apply H12|done].
Qed.

(** The entry is marked. *)
Lemma mark_step st0 t w j l f xs evs c' :
  inv st0 w (MJoined j l f) xs evs → sched_step 0 (conf t (MJoined j l f) xs w) = Some c' →
  main_next st0 t w (MJoined j l f) xs c'.
Proof.
  intros HI. destruct (i_main _ _ _ _ _ HI) as (x & Hx & Hs & Hp).
  pose proof (mem_lookup _ _ _ _ _ _ _ HI Hx) as Hmem.
  unfold sched_step, conf. cbn [ended pool wld lookup list_lookup mcode].
  cbn -[decr_code Z.of_nat]. unfold write. rewrite Hmem by done. cbn -[decr_code Z.of_nat].
  intros [= <-]. left.
  set (x' := Thr (num x) (pc x) TS_JOINED (nap x)).
  set (w' := set_thread (<[j := slot_of x']> (thread w)) w).
  assert (Hd : total due (<[j := x']> xs) = total due xs - 1).
  { rewrite (total_insert _ _ _ _ _ Hx). unfold due, jn, x'. cbn [pc st]. rewrite Hs. simpl. lia. }
  assert (Ha : total alive (<[j := x']> xs) = total alive xs - 1).
  { rewrite (total_insert _ _ _ _ _ Hx). unfold alive, jn, x'. cbn [pc st]. rewrite Hs. simpl. lia. }
  assert (HE : ∀ i, entry i (λ x, st x = TS_JOINED) (<[j := x']> xs) ↔
    i = j ∨ entry i (λ x, st x = TS_JOINED) xs).
  { intros i. rewrite (entry_update _ _ _ _ _ Hx). destruct (decide (i = j)) as [->|]; intuition. }
  assert (Hold : ¬ entry j (λ x, st x = TS_JOINED) xs).
  { intros (z & Hz & E). simplify_eq. by rewrite Hs in E. }
  exists t, (MDecr j l f), (<[j := x']> xs), w', evs.
  split; [|split].
  - unfold conf. rewrite list_fmap_insert, (list_insert_id (tcode <$> xs)); [done|].
    by rewrite list_lookup_fmap, Hx.
  - destruct HI as [H1 H2 H3 H4 H5 H6 H7 H8 H9 H10 H11 H12 H13 H14]. split; try done.
    + by rewrite length_insert.
    + intros i z Hz. apply list_lookup_insert_Some in Hz as [(<- & <- & _)|[_ Hz]];
        [exact (H2 _ _ Hx)|by eapply H2].
    + intros _. subst w'. cbn [thread set_thread]. rewrite H3 by done.
      rewrite insert_app_l by (rewrite length_fmap; by eapply lookup_lt_Some). by rewrite list_fmap_insert.
    + intros i z Hz. apply list_lookup_insert_Some in Hz as [(<- & <- & _)|[_ Hz]]; [|by eapply H4].
      unfold thr_ok, x'. cbn [pc st]. rewrite Hp. split; [by right|done].
    + rewrite Hd. cbn in *. lia.
    + rewrite Ha, H6. done.
    + apply HE. by left.
    + rewrite list_fmap_insert, list_insert_id; [done|]. by rewrite list_lookup_fmap, Hx.
    + intros z. etransitivity; [exact (H10 z)|]. f_equiv. intros i. f_equiv.
      rewrite (entry_update _ _ _ _ _ Hx). cbn [joining]. unfold entry. split.
      * intros (a & Ha' & Has). destruct (decide (i = j)) as [->|Hne]; [by left; split; [|left]|right].
        split; [done|]. exists a. split; [done|]. left. destruct Has as [?|[= <-]]; done.
      * intros [[-> _]|[_ (a & Ha' & Has)]]; [exists x; split; [done|by right]|].
        exists a. split; [done|]. left. by destruct Has.
    + destruct H11 as [G1 G2 G3 G4 G5 G6 G7 G8]. split; try done.
      * intros i. rewrite G4. symmetry. by apply (entry_same _ _ _ _ _ Hx).
      * intros i. rewrite G6, HE. cbn [pending]. split; [intros [He _]|intros [[->|He] Hne]].
        { split; [by right|]. intros [= <-]. done. }
        { done. }
        { split; [done|]. done. }
    + split; [apply H12|done].
  - unfold rank, mrank. rewrite (total_insert _ _ _ _ _ Hx).
    change (wakeups w') with (wakeups w). change (work x') with (work x). lia.
Qed.

Lemma decr_eq t i l : l ≠ INT_MIN → decr_code t nthr i l = (_ ← unjoined_decr; time_code t nthr i (l - 1)).
Proof.
  intros Hl. unfold decr_code, live_decr. destruct y; cbn -[unjoined_decr time_code INT_MIN];
    by rewrite (proj2 (Z.eqb_neq _ _) Hl).
Qed.

(** The line is printed. *)
Lemma log_reap w w' j l now t f xs evs :
  log_ok w (MPrint j now l f) xs evs → entry j (λ x, x.(st) = TS_JOINED) xs → j ∈ died evs →
  w'.(lines) = w.(lines) ++ [reaped_line j (l - 1) (now - t) (Z.of_nat j)] →
  log_ok w' (MWalkG (S j) (l - 1) true) xs (evs ++ [Reaped j (l - 1) (now - t)]).
Proof.
  intros [H1 H2 H3 H4 H5 H6 H7 H8] Hj Hd Hl. cbn [pending shown] in *.
  split; rewrite ?died_app, ?reaped_app, ?app_nil_r; try done.
  - by rewrite fmap_app, Hl, H1.
  - by apply ordered_snoc.
  - rewrite fmap_app. apply NoDup_app. split; [done|]. split; [|apply NoDup_singleton].
    intros i Hi ->%list_elem_of_singleton. apply H6 in Hi as [_ Hi]. by apply Hi.
  - intros i. rewrite fmap_app, elem_of_app, H6. cbn. rewrite list_elem_of_singleton.
    split; [intros [[? _]| ->]; by split|]. intros [He _].
    destruct (decide (i = j)) as [->|]; [by right|left]. split; [done|congruence].
  - rewrite fmap_app, H7. cbn [shown].
    rewrite (seqZ_cons (l - 1)) by lia. rewrite reverse_cons. f_equal. do 2 f_equal; lia.
  - simpl. lia.
Qed.

Lemma reap_step st0 t w m xs evs c' :
  inv st0 w m xs evs → sched_step 0 (conf t m xs w) = Some c' →
  match m with
  | MDecr _ _ _ | MStore _ _ _ _ | MTime _ _ _ | MIdx _ _ _ _ | MPrint _ _ _ _ =>
      main_next st0 t w m xs c'
  | _ => True
  end.
Proof.
  intros HI. pose proof (i_main _ _ _ _ _ HI) as Hok. pose proof (i_cv _ _ _ _ _ HI) as Hcv.
  pose proof (mj_mtx_main _ _ _ _ _ HI) as Hmx. pose proof (remaining_nonneg _ _ _ _ _ HI) as Hrem.
  pose proof (unjoined_bound _ _ _ _ _ HI) as Hu. pose proof (λ i x, mem_lookup _ _ _ _ _ i x HI) as Hmem.
  destruct m; try done; simpl in Hok, Hcv, Hmx, Hrem, Hu;
    unfold sched_step, conf; cbn [ended pool wld lookup list_lookup mcode].
  - rewrite decr_eq by (unfold INT_MIN; lia). cbn -[time_code].
    rewrite (proj2 (Z.eqb_neq _ _)) by (unfold INT_MIN; lia). intros [= <-].
    eapply (main_goes_on _ _ _ _ _ _ t (MStore j (numUnjoined w - 1) l f)); try done.
    unfold mrank. lia.
  - destruct Hok as [Hj ->]. cbn -[time_code]. intros [= <-].
    set (m' := if y then MTime j l f else MPrint j t l f). left.
    exists t, m', xs, (set_unjoined (numUnjoined w - 1) w), evs. split; [|split].
    + unfold conf. f_equal. f_equal. unfold m'. destruct y eqn:Ey; [done|].
      cbn [mcode]. unfold time_code. by rewrite Ey.
    + eapply mj_inv_main; try done; unfold m'; destruct y eqn:Ey; try done; try apply HI; simpl; try (by right); try lia;
        try (by intros _; apply (i_mem _ _ _ _ _ HI)); try by apply Hmx.
      all: try (eapply log_main; [apply HI|done..]). all: split; [apply HI|done].
    + unfold rank, mrank. change (wakeups (set_unjoined _ w)) with (wakeups w). unfold m'. destruct y; lia.
  - destruct Hok as [Hy Hj]. unfold time_code. rewrite Hy. cbn -[idx_code]. intros [= <-].
    eapply (mj_main_goes _ _ _ _ _ _ t (MIdx j (default 0 (head (clock w))) l f)); try done.
    + by apply Hmx.
    + unfold mrank, wakeups. simpl. lia.
  - destruct Hok as (Hy & x & Hx & Hs). cbn -[reaped_code]. unfold read. rewrite (Hmem _ _ Hx) by done.
    cbn -[reaped_code Z.of_nat]. rewrite (i_num _ _ _ _ _ HI _ _ Hx). intros [= <-].
    eapply (main_goes_on _ _ _ _ _ _ t (MPrint j now l f)); try done; [by exists x|unfold mrank; lia].
  - cbn -[Z.of_nat]. intros [= <-]. left. destruct Hok as (x & Hx & Hs).
    exists t, (MWalkG (S j) (l - 1) true), xs. do 2 eexists. split; [done|]. split.
    + eapply (mj_inv_main _ _ _ _ _ _ _ (evs ++ [Reaped j (l - 1) (now - t)])); try done; simpl; try apply HI; try lia.
      * intros _. by apply (i_mem _ _ _ _ _ HI).
      * split; [|done]. apply lookup_lt_Some in Hx. rewrite (i_len _ _ _ _ _ HI) in Hx. simpl in Hx. lia.
      * by apply Hmx.
      * eapply log_reap; [apply HI|by exists x| |done]. apply (l_died_in _ _ _ _ (i_log _ _ _ _ _ HI)).
        exists x. split; [done|]. destruct (i_thr _ _ _ _ _ HI _ _ Hx) as [Hm _].
        destruct (marked (pc x)); [destruct Hm as [E|[_ ->]]; [by rewrite Hs in E|done]|by rewrite Hs in Hm].
      * split; [apply HI|done].
    + unfold rank, mrank, wakeups, width. simpl. destruct f; lia.
Qed.

(** *** Whole runs *)

Inductive good (st0 : list Z) : nat → config action label shared → Prop :=
| good_running t w m xs evs : inv st0 w m xs evs → good st0 (Z.to_nat (rank w m xs)) (conf t m xs w)
| good_done t w m xs evs h : inv st0 w m xs evs → end_of m = Some h →
    good st0 0 (Config (pool (conf t m xs w)) w (Some h)).

Lemma entry_lt j P xs : entry j P xs → (j < length xs)%nat.
Proof. intros (x & Hx & _). by eapply lookup_lt_Some. Qed.

Lemma mj_rank_pos st0 w m xs evs : inv st0 w m xs evs → 0 < rank w m xs.
Proof.
  intros HI. pose proof (remaining_nonneg _ _ _ _ _ HI) as Hr. pose proof (made_le _ _ _ _ _ HI) as Hmd.
  pose proof (i_main _ _ _ _ _ HI) as Hok. pose proof (i_len _ _ _ _ _ HI) as Hlen.
  assert (0 <= total work xs).
  { apply total_nonneg. intros i x _. unfold work. destruct (pc x); simpl; try destruct y; lia. }
  assert (0 <= wakeups w) by (unfold wakeups; destruct (cv w); lia).
  enough (0 < mrank m) by (unfold rank; lia). unfold mrank, width.
  destruct m; simpl in *; try lia;
    repeat match goal with H : _ ∧ _ |- _ => destruct H end;
    repeat match goal with H : entry _ _ _ |- _ => apply entry_lt in H end;
    try match goal with |- context [if ?f then _ else _] => destruct f end; nia.
Qed.

Lemma mj_run_step st0 k i a b :
  Forall (Z.le 0) st0 → good st0 k a → sched_step i a = Some b → ∃ k', (k' < k)%nat ∧ good st0 k' b.
Proof.
  intros Hst0 Ha Hb. destruct Ha as [t w m xs evs HI|]; [|done].
  pose proof (mj_rank_pos _ _ _ _ _ HI) as Hpos. destruct i as [|i].
  - assert (Hm : main_next st0 t w m xs b).
    { pose proof (mj_create_step _ _ _ _ _ _ _ HI Hb). pose proof (mj_wait_step _ _ _ _ _ _ _ HI Hb).
      pose proof (walk_step _ _ _ _ _ _ _ HI Hb). pose proof (reap_step _ _ _ _ _ _ _ HI Hb).
      destruct m; try done; try (by eapply spawn_step); try (by eapply join_step);
        try (by eapply mark_step); revert Hb; intros [= <-]; right; by eexists. }
    destruct Hm as [(t' & m' & xs' & w' & evs' & -> & HI' & Hr)|(h & -> & Hh)].
    + eexists. split; [|by econstructor]. lia.
    + exists 0%nat. split; [lia|by econstructor].
  - destruct (xs !! i) as [x|] eqn:Hi.
    + destruct (mj_thread_step _ _ _ _ _ _ _ _ _ HI Hi Hb) as (x' & w' & evs' & -> & HI' & Hr).
      eexists. split; [|by econstructor]. unfold rank in *. rewrite (total_insert _ _ _ _ _ Hi). lia.
    + revert Hb. unfold sched_step, conf. cbn [ended pool wld].
      change ((mcode t m :: (tcode <$> xs)) !! S i) with ((tcode <$> xs) !! i).
      by rewrite list_lookup_fmap, Hi.
Qed.

Lemma mj_thread_moves st0 t w m xs evs i x :
  inv st0 w m xs evs → xs !! i = Some x → x.(pc) ≠ TRet →
  (x.(pc) = TLock → w.(mtx) = None) → ∃ c', step (conf t m xs w) c'.
Proof.
  intros HI Hi Hp Hl. enough (∃ c', sched_step (S i) (conf t m xs w) = Some c') as [c' Hc']
    by by exists c', (S i).
  pose proof (i_num _ _ _ _ _ HI i x Hi) as Hn. pose proof (mem_thread _ _ _ _ _ _ _ HI Hi Hp) as Hmem.
  destruct (i_thr _ _ _ _ _ HI i x Hi) as [_ Hok].
  unfold sched_step, conf. cbn [ended pool wld].
  change ((mcode t m :: (tcode <$> xs)) !! S i) with ((tcode <$> xs) !! i).
  rewrite list_lookup_fmap, Hi. cbn [fmap option_fmap option_map].
  destruct x as [k p s v]. simpl in Hn, Hp, Hl, Hok. subst k.
  destruct p as [| | |b| | | |b| | | |]; cbn [tcode pc num]; try done; try (by eexists).
  - unfold thread_code. rewrite Hok. cbn. unfold read. rewrite Hmem. by eexists.
  - cbn. unfold read. rewrite Hmem. by eexists.
  - cbn. rewrite Hl by done. by eexists.
  - cbn. unfold write. rewrite Hmem. by eexists.
  - cbn. destruct (decide _); by eexists.
Qed.

(** [main] moves with the mutex, or while it is free, unless it waits for a thread. *)
Lemma mj_main_moves st0 t w m xs evs :
  inv st0 w m xs evs → w.(mtx) = (if mcrit m then Some 0%nat else None) →
  (∀ l, m = MWoken l → w.(cv) = Signalled) →
  (∀ j l f, m = MJoin j l f → entry j (λ x, x.(pc) = TRet) xs) → ∃ c', step (conf t m xs w) c'.
Proof.
  intros HI Ho Hcv Hjn. enough (∃ c', sched_step 0 (conf t m xs w) = Some c') as [c' Hc']
    by by exists c', 0%nat.
  pose proof (i_main _ _ _ _ _ HI) as Hok. pose proof (remaining_nonneg _ _ _ _ _ HI) as Hrem.
  pose proof (i_len _ _ _ _ _ HI) as Hlen. pose proof (λ i x, mem_lookup _ _ _ _ _ i x HI) as Hmem.
  pose proof (i_mem _ _ _ _ _ HI) as Hall.
  unfold sched_step, conf. cbn [ended pool wld lookup list_lookup].
  destruct m; simpl in Hok, Hrem, Ho, Hlen, Hall; cbn [mcode]; try by eexists.
  - destruct main_start_cases as [[_ ->]|[_ ->]]; [by eexists|]. cbn. destruct (heap w); by eexists.
  - cbn. rewrite Hall by done. rewrite lookup_app_r, length_fmap, Hlen, Nat.sub_diag by (rewrite length_fmap; lia).
    replace (nthr - k)%nat with (S (nthr - S k)) by lia. by eexists.
  - cbn. rewrite Hall by done. rewrite lookup_app_r, length_fmap, Hlen, Nat.sub_diag by (rewrite length_fmap; lia).
    destruct (_ =? _); by eexists.
  - cbn. rewrite Ho. by eexists.
  - cbn. destruct (decide _); by eexists.
  - cbn. rewrite Ho, (Hcv l) by done. by eexists.
  - destruct (lookup_lt_is_Some_2 xs j) as [x Hx]; [lia|].
    cbn. unfold read. rewrite (Hmem _ _ Hx) by done. by eexists.
  - destruct Hok as (x & Hx & _). cbn. unfold read. rewrite (Hmem _ _ Hx) by done. by eexists.
  - destruct (Hjn _ _ _ eq_refl) as (x & Hx & Hp). cbn -[joined_code Z.of_nat join].
    assert (E : ∀ b, ∃ z w', join (b :: (returned <$> (tcode <$> xs))) (Z.of_nat (S j)) w = Val z w').
    { intros b. unfold join. destruct (decide _); [by do 2 eexists|]. rewrite Nat2Z.id.
      change ((b :: (returned <$> (tcode <$> xs))) !! S j) with ((returned <$> (tcode <$> xs)) !! j).
      rewrite !list_lookup_fmap, Hx. simpl. rewrite returned_tcode, Hp. by do 2 eexists. }
    match goal with |- context [join (?b :: _) _ _] => destruct (E b) as (z & w' & Ej) end.
    rewrite Ej. by eexists.
  - destruct Hok as (x & Hx & _). cbn. unfold write. rewrite (Hmem _ _ Hx) by done. by eexists.
  - rewrite decr_eq by (unfold INT_MIN; lia). by eexists.
  - destruct Hok as [Hy _]. unfold time_code. rewrite Hy. by eexists.
  - destruct Hok as (_ & x & Hx & _). cbn. unfold read. rewrite (Hmem _ _ Hx) by done. by eexists.
  - cbn. destruct (decide _); by eexists.
  - unfold end_code. rewrite Hok. by eexists.
Qed.

(** Where nothing else can move, [main] is not left waiting. *)
Lemma mj_progress st0 t w m xs evs : inv st0 w m xs evs → ∃ c', step (conf t m xs w) c'.
Proof.
  intros HI. pose proof (i_mtx _ _ _ _ _ HI) as [Hm Hl].
  assert (Hmain : mcrit m = bool_decide (mtx w = Some 0%nat)) by by apply (Hm 0%nat).
  assert (Ht : ∀ i x, xs !! i = Some x → tcrit (pc x) = bool_decide (mtx w = Some (S i))).
  { intros i x Hi. apply (Hm (S i)). simpl. by rewrite list_lookup_fmap, Hi. }
  destruct (mtx w) as [[|i]|] eqn:Eo.
  - rewrite bool_decide_eq_true_2 in Hmain by done.
    assert (Hc : (∃ j l f, m = MJoin j l f) ∨ ∀ j l f, m ≠ MJoin j l f)
      by (destruct m; first [by right|left; by eauto]).
    destruct Hc as [(j & l & f & ->)|Hne].
    + destruct (i_main _ _ _ _ _ HI) as (x & Hx & Hs). destruct (at_ret (pc x)) eqn:Er.
      * eapply mj_main_moves; [done|by rewrite Eo|done|]. intros ? ? ? [= <- <- <-].
        exists x. split; [done|by apply at_ret_true].
      * eapply (mj_thread_moves _ _ _ _ _ _ j x); [done|done|by intros E; rewrite E in Er|].
        intros E. destruct (i_thr _ _ _ _ _ HI j x Hx) as [Hst _]. rewrite E in Hst. simpl in Hst.
        by rewrite Hs in Hst.
    + eapply mj_main_moves; [done|by rewrite Eo, Hmain| |].
      * intros l ->. done.
      * intros j l f E. by destruct (Hne j l f).
  - specialize (Hl (S i) eq_refl). simpl in Hl. rewrite length_fmap in Hl.
    destruct (lookup_lt_is_Some_2 xs i) as [x Hx]; [lia|]. specialize (Ht i x Hx).
    rewrite bool_decide_eq_true_2 in Ht by done.
    eapply mj_thread_moves; [done|done|by intros E; rewrite E in Ht|by intros E; rewrite E in Ht].
  - rewrite bool_decide_eq_false_2 in Hmain by done.
    destruct (decide (Forall (λ x, at_ret (pc x) = true) xs)) as [Hall|Hsome].
    + eapply mj_main_moves; [done|by rewrite Eo, Hmain| |by intros j l f ->].
      intros l ->. destruct (i_cv _ _ _ _ _ HI) as [|[_ Hcase]]; [done|exfalso].
      rewrite Forall_lookup in Hall. destruct Hcase as [Hu|(j & x & Hx & Hw)].
      * pose proof (i_main _ _ _ _ _ HI) as Hpos. pose proof (i_unjoined _ _ _ _ _ HI) as Hd.
        pose proof (i_alive _ _ _ _ _ HI) as Ha. simpl in Hpos, Hd, Ha.
        assert (total alive xs <= total due xs); [|lia]. apply total_mono. intros j x Hx.
        unfold alive, due. specialize (Hall j x Hx). apply at_ret_true in Hall as ->. simpl. lia.
      * specialize (Hall j x Hx). apply at_ret_true in Hall. by rewrite Hall in Hw.
    + apply not_Forall_Exists in Hsome; [|apply _]. apply Exists_exists in Hsome as (x & Hx & Hr).
      apply list_elem_of_lookup in Hx as [i Hi].
      eapply mj_thread_moves; [done|done| |done]. intros E. apply Hr. simpl. by rewrite E.
Qed.

(** The ends of the programs. *)
Definition finished (st0 : list Z) (c : config action label shared) : Prop :=
  (c.(ended) = Some (Exited EXIT_SUCCESS) ∧ ¬ args_bad ∧
     ∃ evs, c.(wld).(lines) = ev_line <$> evs ∧ all_joined nthr evs) ∨
  (c.(ended) = Some (Exited EXIT_FAILURE) ∧ args_bad) ∨
  (c.(ended) = Some (Failed ENOMEM (no_memory y)) ∧ c.(wld).(heap) = false) ∨
  ∃ e, c.(ended) = Some (Failed e "pthread_create() failed") ∧ e ≠ 0 ∧ e ∈ st0.

Lemma entry_all j P xs :
  (∀ i x, xs !! i = Some x → P x) → entry j P xs ↔ j ∈ seq 0 (length xs).
Proof.
  intros HP. rewrite elem_of_seq. split.
  - intros Hj%entry_lt. lia.
  - intros [_ Hj]. destruct (lookup_lt_is_Some_2 xs j) as [x Hx]; [lia|].
    exists x. split; [done|by eapply HP].
Qed.

Lemma ended_joined st0 w xs evs : inv st0 w MEnd xs evs → all_joined nthr evs.
Proof.
  intros HI. pose proof (i_len _ _ _ _ _ HI) as Hlen. simpl in Hlen.
  destruct (i_log _ _ _ _ _ HI) as [H1 H2 H3 H4 H5 H6 H7 H8].
  pose proof (λ i x, all_returned _ _ _ _ _ i x HI eq_refl) as Hret.
  split_and!; [| | |done].
  - apply NoDup_Permutation; [done|apply NoDup_seq|]. intros i. rewrite H4, <- Hlen.
    apply entry_all. intros j x Hx. by rewrite (Hret j x Hx).
  - apply NoDup_Permutation; [done|apply NoDup_seq|]. intros i. rewrite H6, <- Hlen.
    rewrite <- (entry_all i (λ x, st x = TS_JOINED) xs).
    + split; [by intros [? _]|by split].
    + intros j x Hx. pose proof (i_alive _ _ _ _ _ HI) as Ha. simpl in Ha.
      destruct (decide (st x = TS_JOINED)) as [|Hne]; [done|exfalso].
      assert (Hpos : 0 < alive x) by (unfold alive, jn; by rewrite (proj2 (Z.eqb_neq _ _) Hne)).
      rewrite <- (take_drop_middle xs j x Hx), total_app in Ha. cbn [total] in Ha.
      assert (HN : ∀ l : list thr, 0 <= total alive l).
      { intros l. apply total_nonneg. intros ? z _. unfold alive. pose proof (jn_bound z). lia. }
      pose proof (HN (take j xs)). pose proof (HN (drop (S j) xs)). lia.
  - rewrite H7. simpl. by rewrite Z.sub_0_r.
Qed.

Lemma mj_run_finished st0 k c h : good st0 k c → c.(ended) = Some h → finished st0 c.
Proof.
  destruct 1 as [|t w m xs evs h' HI Hm]; [done|]. intros [= ->]. unfold finished. cbn [ended wld].
  pose proof (i_main _ _ _ _ _ HI) as Hok. pose proof (i_statuses _ _ _ _ _ HI) as [_ Hf].
  pose proof (i_args _ _ _ _ _ HI) as Hacc. pose proof (i_heap _ _ _ _ _ HI) as Hh.
  destruct m; simplify_eq/=.
  - right. left. done.
  - right. left. by destruct Hok.
  - right. right. left. split; [done|by apply Hh].
  - right. right. right. eexists. split; [done|]. split; [apply Hok|by eapply Hf].
  - left. split; [done|]. split.
    + destruct Hacc as (H1 & H2 & H3); [done|]. unfold nthr in H3. rewrite firstn_all, Forall_forall in H3.
      intros [|[|(a & Ha & E)]]; [done|done|]. destruct (H3 a Ha). congruence.
    + exists evs. split; [apply HI|by eapply ended_joined].
Qed.

Lemma mj_run_start st0 sp clk hp : ∃ k, good st0 k (start args sp clk st0 hp).
Proof.
  eexists. apply (good_running st0 0 _ MStart [] []). split; try done.
  - split; [|by intros [|[|i]]]. intros [|[|i]] b; simpl; by intros [= <-].
  - intros z. split; [by inversion 1|]. by intros (i & _ & x & ? & _).
  - split; try done; try (constructor; fail); try (by intros i; split; [inversion 1|intros (x & ? & _)]).
    + intros i. split; [by inversion 1|]. by intros [(x & ? & _) _].
    + simpl. by rewrite Z.sub_diag.
Qed.

Lemma mj_always_finishes st0 sp clk hp :
  Forall (Z.le 0) st0 → inevitably (finished st0) (start args sp clk st0 hp).
Proof.
  intros Hst0. destruct (mj_run_start st0 sp clk hp) as [k Hk].
  eapply inevitably_measure; [| |done].
  - intros ? ? ? ? Ha Hb. exact (mj_run_step _ _ _ _ _ Hst0 Ha Hb).
  - intros k' a Ha. destruct a as [p w [h|]] eqn:Ea; [left; by eapply mj_run_finished|right].
    inversion Ha; subst. by eapply mj_progress.
Qed.
End multijoin.

(** ** The programs *)

(** C7: whatever the arguments, the scheduling and the spurious wake-ups, both
    programs come to an end.  They end with success only if all arguments are
    numbers of seconds, and then every thread has said once that it ends and was
    joined once after that, while the count of live threads went down to 0; they
    end in failure where an argument is not accepted, and where memory or a
    thread cannot be had. *)
Theorem every_thread_is_joined args sp clk st hp :
  Z.of_nat (length args) < INT_MAX → Forall (Z.le 0) st →
  inevitably (Sy := thread_multijoin_sys) (finished false None args st) (start args sp clk st hp) ∧
  inevitably (Sy := ythread_multijoin_sys) (finished true (Some "sleept-time") args st)
    (start args sp clk st hp).
Proof.
  intros Hn Hst. split.
  - by apply (mj_always_finishes false None).
  - by apply (mj_always_finishes true (Some "sleept-time")).
Qed.

Lemma every_thread_is_joined_witness :
  inevitably (Sy := thread_multijoin_sys) (finished false None ["2"; "0"; "7"] [0; 0; 11])
    (start ["2"; "0"; "7"] 3 [] [0; 0; 11] true).
Proof.
  destruct (every_thread_is_joined ["2"; "0"; "7"] 3 [] [0; 0; 11] true) as [H _];
    [by vm_compute|repeat constructor; lia|exact H].
Defined.
