(* ===== verification/NameTsd.v ===== *)
(** [dirname] and [basename] over thread-specific data, [threads/name_tsd.c].

    Each thread has a buffer for each of the two functions; it is allocated at the
    first call, and a result points into it.  The text part is a function of the
    path; what it computes is shown for every path. *)
From S2P Require Import Prelude CLib ErrorFunctions Proc.
Local Open Scope Z_scope.

Definition MAX_PATH : nat := Z.to_nat 4096.
Definition slash : ascii := "/"%char.

(** ** The text part

    The buffer is the list of the characters before its null byte. *)

Abbreviation text := (list ascii).

(** [c = buf + strlen(buf); while (strlen(buf) > 1 && *--c == '/') *c = '\0';] *)
Fixpoint strip (fuel : nat) (buf : text) : text :=
  match fuel with
  | O => buf
  | S fuel =>
      if (1 <? length buf)%nat && bool_decide (last buf = Some slash) then strip fuel (removelast buf) else buf
  end.

(** [strrchr(buf, c)], as an index. *)
Fixpoint strrchr (buf : text) (c : ascii) : option nat :=
  match buf with
  | [] => None
  | d :: buf =>
      match strrchr buf c with
      | Some i => Some (S i)
      | None => if decide (d = c) then Some O else None
      end
  end.

(** The common start: [strncpy(buf, path, MAX_PATH - 1)] with the null byte after
    it, and the trailing slashes. *)
Definition copied (path : string) : text := take (MAX_PATH - 1) (chars path).
Definition stripped (buf : text) : text := strip (length buf) buf.

Definition dirname_text (path : option string) : text :=
  match path with
  | None | Some "" => ["."%char]
  | Some path =>
      let buf := copied path in
      if decide (buf = [slash]) then [slash] else
      let buf := stripped buf in
      match strrchr buf slash with
      | None => ["."%char]
      | Some c => let buf := take c buf in if decide (buf = []) then [slash] else buf
      end
  end.

(** What is in the buffer at the end, and where in it the result begins. *)
Definition basename_text (path : option string) : text * nat :=
  match path with
  | None | Some "" => (["."%char], O)
  | Some path =>
      let buf := copied path in
      if decide (buf = [slash]) then ([slash], O) else
      let buf := stripped buf in
      match strrchr buf slash with
      | None => (buf, O)
      | Some c =>
          if (length buf =? 1)%nat then (buf, O)
          else (<[c := Ascii.zero]> buf, S c)
      end
  end.
Definition basename_result (path : option string) : text := let '(buf, c) := basename_text path in drop c buf.

(** ** The thread's data *)

(** Which keys were made, and the buffers of this thread. *)
Record tsd := Tsd { dir_key : bool; base_key : bool; dir_buf : option text; base_buf : option text }.

Inductive tcall := TOnce | TKeyCreate | TCalloc (n : nat) | TSetspecific.

(** Calls of the threads library return an error number, [calloc] sets [errno]. *)
Class TsdSys (W : Type) := {
  sys_once : W → (Z + unit) * W;
  sys_key_create : W → (Z + unit) * W;
  sys_setspecific : W → (Z + unit) * W;
  sys_calloc : nat → W → (Z + unit) * W
}.

Section programs.
Context {L : Libc} {W : Type} `{!TsdSys W}.
Local Abbreviation P := (M (pst tsd tcall W)).

(** [s = f(...); if (s != 0) { fprintf(stderr, "f() failed: %s\n", strerror(s)); exit }] *)
Definition or_exit (c : tcall) (name : string) (f : W → (Z + unit) * W) : P unit :=
  r ← call c (λ w, let '(r, w) := f w in (inr r, w));
  match r with
  | inr (inl s) => eprintf (name +:+ "() failed: " +:+ strerror s +:+ nl);; p_exit EXIT_FAILURE
  | _ => skip
  end.

(** [pthread_once(&once, createKey)]: the key is made by the first call. *)
Definition createDirKey : P unit :=
  or_exit TKeyCreate "pthread_key_create" sys_key_create;;
  put_vars (λ d, Tsd true d.(base_key) d.(dir_buf) d.(base_buf)).
Definition createBasekey : P unit :=
  or_exit TKeyCreate "pthread_key_create" sys_key_create;;
  put_vars (λ d, Tsd d.(dir_key) true d.(dir_buf) d.(base_buf)).
Definition pthread_once (made : tsd → bool) (createKey : P unit) : P unit :=
  or_exit TOnce "pthread_once" sys_once;;
  d ← get_vars;
  if made d then skip else createKey.

Definition calloc_buf : P unit :=
  r ← call (TCalloc MAX_PATH) (sys_calloc MAX_PATH);
  match r with
  | inl _ => perror_exit "calloc() failed"
  | inr _ => skip
  end.
Definition setspecific : P unit := or_exit TSetspecific "pthread_setspecific" sys_setspecific.

Definition dirname_tsd (path : option string) : P text :=
  pthread_once dir_key createDirKey;;
  d ← get_vars;
  (match d.(dir_buf) with
   | None =>
       calloc_buf;;
       setspecific;;
       put_vars (λ d, Tsd d.(dir_key) d.(base_key) (Some []) d.(base_buf))
   | Some _ => skip
   end);;
  let r := dirname_text path in
  put_vars (λ d, Tsd d.(dir_key) d.(base_key) (Some r) d.(base_buf));;
  mret r.

(** The buffer is stored under the key at every call. *)
Definition basename_tsd (path : option string) : P text :=
  pthread_once base_key createBasekey;;
  d ← get_vars;
  (match d.(base_buf) with
   | None => calloc_buf
   | Some _ => skip
   end);;
  setspecific;;
  let '(buf, c) := basename_text path in
  put_vars (λ d, Tsd d.(dir_key) d.(base_key) d.(dir_buf) (Some buf));;
  mret (drop c buf).
End programs.

(** ** What they compute *)

Example name_examples :
  (λ p, (of_chars (dirname_text (Some p)), of_chars (basename_result (Some p)))) <$>
    ["/"; "///"; "/usr"; "usr/"; "/usr/lib///"; "a/b/c"; "."; ".."] =
    [("/", "/"); ("/", "/"); ("/", "usr"); (".", "usr"); ("/usr", "lib"); ("a/b", "c"); (".", "."); (".", "..")].
Proof. vm_compute. done. Qed.

(** A run of slashes inside of a path is not taken as one. *)
Example dirname_double_slash : dirname_text (Some "a//b") = chars "a/" ∧ dirname_text (Some "//usr") = [slash].
Proof. vm_compute. done. Qed.

Lemma strip_more fuel buf :
  buf ≠ [] → strip (S fuel) (buf ++ [slash]) = strip fuel buf.
Proof.
  intros Hb. cbn [strip]. rewrite last_snoc, bool_decide_true by done.
  rewrite (proj2 (Nat.ltb_lt _ _)) by (rewrite length_app; simpl; destruct buf; [done|simpl; lia]).
  cbn [andb]. by rewrite removelast_last.
Qed.
Lemma strip_stop fuel buf : last buf ≠ Some slash → strip fuel buf = buf.
Proof.
  intros Hl. destruct fuel; [done|]. cbn [strip]. by rewrite (bool_decide_eq_false_2 _ Hl), andb_false_r.
Qed.

Lemma strip_slashes n d fuel :
  d ≠ [] → last d ≠ Some slash → (n <= fuel)%nat → strip fuel (d ++ replicate n slash) = d.
Proof.
  intros Hd Hl. revert fuel. induction n as [|n IH]; intros fuel Hf.
  - rewrite app_nil_r. by apply strip_stop.
  - destruct fuel as [|fuel]; [lia|]. rewrite replicate_S_end, app_assoc, strip_more by (by destruct d).
    apply IH. lia.
Qed.

Lemma strip_all n fuel : (n <= fuel)%nat → strip fuel (replicate (S n) slash) = [slash].
Proof.
  revert fuel. induction n as [|n IH]; intros fuel Hf; [by destruct fuel|].
  destruct fuel as [|fuel]; [lia|]. rewrite replicate_S_end, strip_more by done. apply IH. lia.
Qed.

Lemma strrchr_none b : slash ∉ b → strrchr b slash = None.
Proof.
  induction b as [|c b IH]; [done|]. intros [Hc Hb]%not_elem_of_cons. simpl. rewrite IH by done. by case_decide.
Qed.
Lemma strrchr_app_none d b : slash ∉ b → strrchr (d ++ slash :: b) slash = Some (length d).
Proof. intros Hb. induction d as [|c d IH]; simpl; [by rewrite strrchr_none|by rewrite IH]. Qed.

(** Every path is empty, or only slashes, or a name with slashes after it and
    nothing before, or with a directory and a slash before. *)
Inductive shape : text → Prop :=
| shape_empty : shape []
| shape_root n : shape (replicate (S n) slash)
| shape_name b n : b ≠ [] → slash ∉ b → shape (b ++ replicate n slash)
| shape_path d b n : b ≠ [] → slash ∉ b → shape (d ++ [slash] ++ b ++ replicate n slash).

Lemma last_part b : b ≠ [] → slash ∉ b → last b ≠ Some slash.
Proof. intros Hb Hs Hl. apply Hs. by apply last_Some_elem_of. Qed.

Lemma every_shape p : shape p.
Proof.
  induction p as [|c p IH]; [constructor|]. destruct (decide (c = slash)) as [->|Hc].
  - destruct IH as [|n|b n Hb Hs|d b n Hb Hs].
    + apply (shape_root 0).
    + apply (shape_root (S n)).
    + by apply (shape_path []).
    + by apply (shape_path (slash :: d)).
  - destruct IH as [|n|b n Hb Hs|d b n Hb Hs].
    + apply (shape_name [c] 0); [done|]. intros [<-|H]%elem_of_cons; [done|by apply elem_of_nil in H].
    + apply (shape_name [c] (S n)); [done|]. intros [<-|H]%elem_of_cons; [done|by apply elem_of_nil in H].
    + apply (shape_name (c :: b) n); [done|]. by intros [<-|H]%elem_of_cons.
    + by apply (shape_path (c :: d)).
Qed.

Lemma copied_short p : (length p < MAX_PATH)%nat → copied (of_chars p) = p.
Proof. intros Hp. unfold copied. rewrite chars_of_chars. apply take_ge. lia. Qed.

(** The two functions on every path of at most 4095 bytes, by its shape. *)
Definition dirname_spec (p : text) (r : text) : Prop :=
  (p = [] → r = ["."%char]) ∧
  (∀ n, p = replicate (S n) slash → r = [slash]) ∧
  (∀ b n, b ≠ [] → slash ∉ b → p = b ++ replicate n slash → r = ["."%char]) ∧
  (∀ d b n, b ≠ [] → slash ∉ b → p = d ++ [slash] ++ b ++ replicate n slash →
     r = if decide (d = []) then [slash] else d).
Definition basename_spec (p : text) (r : text) : Prop :=
  (p = [] → r = ["."%char]) ∧
  (∀ n, p = replicate (S n) slash → r = [slash]) ∧
  (∀ b n, b ≠ [] → slash ∉ b → p = b ++ replicate n slash → r = b) ∧
  (∀ d b n, b ≠ [] → slash ∉ b → p = d ++ [slash] ++ b ++ replicate n slash → r = b).

Lemma of_chars_nonempty p : p ≠ [] → ∃ c s, of_chars p = String c s.
Proof. destruct p as [|c p]; [done|]. by do 2 eexists. Qed.

(** The text without its trailing slashes. *)
Lemma stripped_part d n : d ≠ [] → last d ≠ Some slash → stripped (d ++ replicate n slash) = d.
Proof. intros Hd Hl. apply strip_slashes; [done..|]. rewrite length_app, length_replicate. lia. Qed.
Lemma stripped_root n : stripped (replicate (S n) slash) = [slash].
Proof. apply strip_all. rewrite length_replicate. lia. Qed.

Lemma dirname_run p : p ≠ [] → (length p < MAX_PATH)%nat →
  dirname_text (Some (of_chars p)) =
    if decide (p = [slash]) then [slash] else
    match strrchr (stripped p) slash with
    | None => ["."%char]
    | Some c => if decide (take c (stripped p) = []) then [slash] else take c (stripped p)
    end.
Proof.
  intros Hp Hlen. unfold dirname_text. destruct (of_chars_nonempty p Hp) as (c & s & E).
  rewrite E. rewrite <- E, copied_short by done. done.
Qed.
Lemma basename_run p : p ≠ [] → (length p < MAX_PATH)%nat →
  basename_result (Some (of_chars p)) =
    if decide (p = [slash]) then [slash] else
    match strrchr (stripped p) slash with
    | None => stripped p
    | Some c => if (length (stripped p) =? 1)%nat then stripped p else drop (S c) (stripped p)
    end.
Proof.
  intros Hp Hlen. unfold basename_result, basename_text. destruct (of_chars_nonempty p Hp) as (c & s & E).
  rewrite E. rewrite <- E, copied_short by done. case_decide; [done|].
  destruct (strrchr (stripped p) slash) as [i|]; [|done]. destruct (_ =? 1)%nat; [done|].
  by rewrite drop_insert_lt by lia.
Qed.

Lemma last_after d b : b ≠ [] → slash ∉ b → last (d ++ slash :: b) ≠ Some slash.
Proof.
  destruct b as [|x b _] using rev_ind; [done|]. intros _ Hs.
  rewrite app_comm_cons, app_assoc, last_snoc. intros [= ->]. apply Hs. set_solver.
Qed.

Lemma names_of_root n : (S n < MAX_PATH)%nat →
  dirname_text (Some (of_chars (replicate (S n) slash))) = [slash] ∧
  basename_result (Some (of_chars (replicate (S n) slash))) = [slash].
Proof.
  intros Hn. rewrite dirname_run, basename_run by (done || by rewrite length_replicate).
  case_decide; [done|]. by rewrite stripped_root.
Qed.

Lemma names_of_name b n : (length (b ++ replicate n slash) < MAX_PATH)%nat → b ≠ [] → slash ∉ b →
  dirname_text (Some (of_chars (b ++ replicate n slash))) = ["."%char] ∧
  basename_result (Some (of_chars (b ++ replicate n slash))) = b.
Proof.
  intros Hlen Hb Hs. assert (b ++ replicate n slash ≠ []) by by destruct b.
  assert (b ++ replicate n slash ≠ [slash]).
  { destruct b as [|c b]; [done|]. intros [= -> _]. apply Hs. by left. }
  rewrite dirname_run, basename_run by done. rewrite decide_False by done.
  rewrite stripped_part by (done || by apply last_part). by rewrite strrchr_none, decide_False.
Qed.

Lemma names_of_path d b n :
  let p := d ++ [slash] ++ b ++ replicate n slash in
  (length p < MAX_PATH)%nat → b ≠ [] → slash ∉ b →
  dirname_text (Some (of_chars p)) = (if decide (d = []) then [slash] else d) ∧ basename_result (Some (of_chars p)) = b.
Proof.
  intros p Hlen Hb Hs. assert (p ≠ []) by by destruct d.
  assert (p ≠ [slash]) by (unfold p; destruct d as [|? [|]]; destruct b; done).
  rewrite dirname_run, basename_run by done. rewrite !(decide_False (P := p = [slash])) by done.
  assert (E : p = (d ++ slash :: b) ++ replicate n slash) by by unfold p; rewrite <- !app_assoc.
  rewrite E, stripped_part; [|by destruct d|by apply last_after].
  rewrite strrchr_app_none, take_app_length by done. split; [done|].
  rewrite (proj2 (Nat.eqb_neq _ _)) by (rewrite length_app; destruct b; [done|simpl; lia]).
  change (d ++ slash :: b) with (d ++ [slash] ++ b). rewrite app_assoc. apply drop_app_length'.
  rewrite length_app. simpl. lia.
Qed.

(** [dirname_tsd] and [basename_tsd] take a path apart: for every path that
    fits their buffer, a path without a directory gives "." and its name, one with a
    directory gives what is before the last slash that has a name after it, and
    the name; slashes at the end do not count; only slashes give "/" for both, and
    the empty path gives "." for both.  Every path has one of these shapes. *)
Theorem names_spec p :
  (length p < MAX_PATH)%nat →
  shape p ∧ dirname_spec p (dirname_text (Some (of_chars p))) ∧ basename_spec p (basename_result (Some (of_chars p))).
Proof.
  intros Hlen. split; [apply every_shape|]. split; split_and!; intros; subst; try done.
  all: try by apply names_of_root; rewrite length_replicate in Hlen.
  all: try by eapply names_of_name.
  all: by eapply names_of_path.
Qed.

Lemma names_spec_witness :
  of_chars (dirname_text (Some "/usr/local/bin//")) = "/usr/local" ∧ of_chars (basename_result (Some "/usr/local/bin//")) = "bin".
Proof.
  destruct (names_spec (chars "/usr/local/bin//")) as (_ & (_ & _ & _ & D) & (_ & _ & _ & B)).
  - apply Nat.ltb_lt. vm_compute. reflexivity.
  - specialize (D (chars "/usr/local") (chars "bin") 2%nat). specialize (B (chars "/usr/local") (chars "bin") 2%nat).
    assert (Hb : slash ∉ chars "bin") by (apply (bool_decide_eq_false (slash ∈ chars "bin")); vm_compute; reflexivity).
    rewrite of_chars_chars in D, B. split.
    + rewrite D; [reflexivity|done|exact Hb|reflexivity].
    + rewrite B; [reflexivity|done|exact Hb|reflexivity].
Defined.

(** The calls around it: with both keys and buffers there, each function gives the
    text it computes, and leaves the other's buffer alone. *)
Lemma names_tsd_run {L : Libc} {W : Type} `{!TsdSys W} path (s : pst tsd tcall W) b1 b2 :
  s.(vars) = Tsd true true (Some b1) (Some b2) →
  (∀ w, (sys_once w).1 = inr tt ∧ (sys_setspecific w).1 = inr tt) →
  (∃ s', dirname_tsd path s = (Ok (dirname_text path), s') ∧ s'.(vars) = Tsd true true (Some (dirname_text path)) (Some b2)) ∧
  (∃ s', basename_tsd path s = (Ok (basename_result path), s') ∧
     s'.(vars) = Tsd true true (Some b1) (Some (basename_text path).1)).
Proof.
  intros Hv Hw. split.
  - unfold dirname_tsd, pthread_once, or_exit, mbind, M_bind, call, get_vars, gets.
    destruct (Hw s.(world)) as [H1 _]. destruct (sys_once (world s)) as [r w]. simpl in H1. subst r. simpl.
    repeat (rewrite Hv; simpl). eexists. split; [reflexivity|]. simpl. by rewrite ?Hv.
  - unfold basename_tsd, basename_result, pthread_once, setspecific, or_exit, mbind, M_bind, call, get_vars, gets.
    destruct (Hw s.(world)) as [H1 _]. destruct (sys_once (world s)) as [r w]. simpl in H1. subst r. simpl.
    repeat (rewrite Hv; simpl).
    destruct (Hw w) as [_ H2]. destruct (sys_setspecific w) as [r w2]. simpl in H2. subst r. simpl.
    destruct (basename_text path) as [buf c]. eexists. split; [reflexivity|]. simpl. by rewrite ?Hv.
Qed.
