(* ===== verification/OneTime.v ===== *)
(** One-time initialisation: [threads/one_time_init.c], and [threads/exr3101.c] with
    its test program [threads/exr3101_test.c].

    Threads interleave at every access to what they share, and calls can fail.  The
    initialisation runs once, however many threads ask for it, and has run when a
    call returns; the first program relies on its calls not failing for this. *)
From stdpp Require Import relations.
From S2P Require Import Prelude CLib Conc.
From S2P Require NameTsd.
Local Open Scope Z_scope.

(** A control structure, of type [oncer_t] or [struct once_struct]: who holds its
    mutex, and its flag; and how often its function has run. *)
Record control := Control { holder : option nat; once : Z; inits : nat }.

(** There are two control structures at most. *)
Inductive which := First | Second.

Inductive label :=
| BookMain | BookThread
| TestMain (argv : list string)
| TestCreate (argv : list string) (i : nat)     (* the first loop of [main] *)
| TestJoin (argv : list string) (i : nat)       (* the second *)
| TestThread (str : string).

Inductive action :=
| ALock (k : which)
| AUnlock (k : which)
| ALoad (k : which)
| AStore (k : which)          (* the flag becomes true *)
| AInit (k : which)           (* the initialisation function runs *)
| AGetspecific (k : which)
| ACalloc
| ASetspecific (k : which)
| ACreate (l : label)
| AJoin (t : nat)
| APrint (t : string)
| AOrder.                      (* which argument is evaluated first *)

(** [statuses] are the results of calls to come, 0 or an error; after those listed
    calls succeed. *)
Record shared := Shared {
  ctl : which → control;
  statuses : list Z;
  printed : list string;
  history : list (nat * (action * Z))
}.

Definition which_eqb (k k' : which) : bool :=
  match k, k' with First, First | Second, Second => true | _, _ => false end.

Definition set_ctl (k : which) (c : control) (w : shared) : shared :=
  Shared (λ k', if which_eqb k k' then c else w.(ctl) k') w.(statuses) w.(printed) w.(history).

Definition pop (w : shared) : Z * shared :=
  match w.(statuses) with
  | [] => (0, w)
  | z :: l => (z, Shared w.(ctl) l w.(printed) w.(history))
  end.

Definition record_call (i : nat) (a : action) (z : Z) (w : shared) : shared :=
  Shared w.(ctl) w.(statuses) w.(printed) (w.(history) ++ [(i, (a, z))]).

(** A call with a status: what it does if that is 0. *)
Definition tries (f : shared → shared) (w : shared) : Z * shared :=
  let '(z, w) := pop w in if z =? 0 then (0, f w) else (z, w).

(** Threads have no value for a key at first, and set it once.  [None] is a call
    that has to wait. *)
Definition do_call (i : nat) (r : list bool) (a : action) (w : shared) : option (Z * shared) :=
  match a with
  | ALock k =>
      let c := w.(ctl) k in
      match c.(holder), w.(statuses) with
      | Some _, [] | Some _, 0 :: _ => None
      | _, _ => Some (tries (set_ctl k (Control (Some i) c.(once) c.(inits))) w)
      end
  | AUnlock k =>
      let c := w.(ctl) k in
      Some (tries (set_ctl k (Control None c.(once) c.(inits))) w)
  | ALoad k => Some ((w.(ctl) k).(once), w)
  | AStore k => let c := w.(ctl) k in Some (0, set_ctl k (Control c.(holder) 1 c.(inits)) w)
  | AInit k => let c := w.(ctl) k in Some (tries (set_ctl k (Control c.(holder) c.(once) (S c.(inits)))) w)
  | AGetspecific _ => Some (0, w)
  | ACalloc => let '(z, w) := pop w in Some (if z =? 0 then 1 else 0, w)
  | ASetspecific _ | ACreate _ | AOrder => Some (tries id w)
  | AJoin t =>
      match r !! t with
      | Some false => None
      | _ => Some (tries id w)
      end
  | APrint t => Some (0, Shared w.(ctl) w.(statuses) (w.(printed) ++ [t]) w.(history))
  end.

(** A thread's number is its place in the pool, which is positive but for [main]. *)
Definition do_action (i : nat) (r : list bool) (a : action) (w : shared) : outcome label shared :=
  match do_call i r a w with
  | None => Blocked
  | Some (z, w') =>
      match a with
      | ACreate l =>
          if z =? 0 then Spawn l (record_call i a (Z.of_nat (length r)) w')
          else Val (- Z.abs z) (record_call i a (- Z.abs z) w')
      | _ => Val z (record_call i a z w')
      end
  end.

Local Abbreviation prog := (code action label).

Definition print (t : string) : prog unit := _ ← act (APrint t); mret tt.

(** ** [one_time_init.c] *)

Module book.
(** [if (s == -1) nmsysErr(s, msg);] *)
Definition check (s : Z) (msg : string) : prog unit :=
  if s =? -1 then End (Failed s msg) else mret tt.

Definition one_time_init (k : which) (init : prog unit) : prog Z :=
  s ← act (ALock k);
  _ ← check s "pthread_mutex_lock";
  called ← act (ALoad k);
  _ ← (if called =? 0 then _ ← init; _ ← act (AStore k); mret tt else mret tt);
  s ← act (AUnlock k);
  _ ← check s "pthread_mutex_unlock";
  mret 0.

(** [printf("Called init_func()\n");], counted as the run of the function. *)
Definition init_func : prog unit := _ ← act (AInit First); print ("Called init_func()" +:+ nl).

Definition threadFunc : prog unit :=
  _ ← one_time_init First init_func;
  _ ← one_time_init First init_func;
  mret tt.

Definition create (l : label) : prog Z :=
  t ← act (ACreate l); if t <? 0 then End (Failed (- t) "pthread_create") else mret t.
Definition join (t : Z) : prog unit :=
  s ← act (AJoin (Z.to_nat t)); if negb (s =? 0) then End (Failed s "pthread_join") else mret tt.

Definition main : prog unit :=
  t1 ← create BookThread;
  t2 ← create BookThread;
  _ ← join t1;
  _ ← print ("First thread returned" +:+ nl);
  _ ← join t2;
  _ ← print ("Second thread returned" +:+ nl);
  End (Exited EXIT_SUCCESS).
End book.

(** ** [exr3101.c] *)

Definition one_time_init (k : which) (init : prog unit) : prog Z :=
  s ← act (ALock k);
  if negb (s =? 0) then mret s else
  called ← act (ALoad k);
  _ ← (if called =? 0 then _ ← init; _ ← act (AStore k); mret tt else mret tt);
  s ← act (AUnlock k);
  if negb (s =? 0) then mret s else mret s.

(** ** [exr3101_test.c] *)

Definition MAX_THREAD : nat := 32.

(** [pthread_wrappers.c]: a report and the end where the call fails. *)
Definition wrapper (s : Z) (msg : string) : prog unit :=
  if negb (s =? 0) then End (Failed s msg) else mret tt.
Definition Pthread_key_create (k : which) : prog unit :=
  s ← act (AInit k); wrapper s "pthread_key_create() failed".
Definition Pthread_setspecific (k : which) : prog unit :=
  s ← act (ASetspecific k); wrapper s "pthread_setspecific() failed".

Definition createDirKey : prog unit := Pthread_key_create First.
Definition createBasekey : prog unit := Pthread_key_create Second.

(** The buffer of this thread, made if there is none. *)
Definition thread_buffer (k : which) (create : prog unit) : prog unit :=
  s ← one_time_init k create;
  if negb (s =? 0) then End (Failed s "pthread_once() failed") else
  buf ← act (AGetspecific k);
  if buf =? 0 then
    b ← act ACalloc;
    if b =? 0 then End (Failed ENOMEM "calloc() failed") else
    Pthread_setspecific k
  else mret tt.

(** The text parts are those of [name_tsd.c], character by character. *)
Definition ydirname (path : string) : prog (list ascii) :=
  _ ← thread_buffer First createDirKey; mret (NameTsd.dirname_text (Some path)).
Definition ybasename (path : string) : prog (list ascii) :=
  _ ← thread_buffer Second createBasekey; mret (NameTsd.basename_result (Some path)).

Definition path_line (str : string) (d b : list ascii) : string :=
  "Path: '" +:+ str +:+ "'" +:+ String "009"%char ("Dirname: '" +:+ of_chars d +:+ "'" +:+
    String "009"%char ("Basename: '" +:+ of_chars b +:+ "'" +:+ nl)).

(** In which order the calls in the arguments of [printf] are made is not
    specified: it may be another in every thread. *)
Definition threadRoutine (str : string) : prog unit :=
  order ← act AOrder;
  if order =? 0 then
    d ← ydirname str;
    b ← ybasename str;
    print (path_line str d b)
  else
    b ← ybasename str;
    d ← ydirname str;
    print (path_line str d b).

Definition test_main (argv : list string) : prog unit :=
  if (length argv <? 2)%nat || (MAX_THREAD + 1 <? length argv)%nat then End (Exited EXIT_FAILURE)
  else Goto (TestCreate argv 0).

Definition create_loop (argv : list string) (i : nat) : prog unit :=
  match argv !! S i with
  | Some path =>
      t ← act (ACreate (TestThread path));
      if t <? 0 then End (Failed (- t) "pthread_create() failed") else Goto (TestCreate argv (S i))
  | None => Goto (TestJoin argv 0)
  end.

(** The threads were created in order, so [tids[i]] is thread [i + 1]. *)
Definition join_loop (argv : list string) (i : nat) : prog unit :=
  match argv !! S i with
  | Some _ =>
      s ← act (AJoin (S i));
      _ ← wrapper s "pthread_join() failed";
      Goto (TestJoin argv (S i))
  | None => End (Exited EXIT_SUCCESS)
  end.

#[export] Instance sys : Sys action label shared := {|
  perform := do_action;
  body l := match l with
            | BookMain => book.main
            | BookThread => book.threadFunc
            | TestMain argv => test_main argv
            | TestCreate argv i => create_loop argv i
            | TestJoin argv i => join_loop argv i
            | TestThread str => threadRoutine str
            end;
  one_process := true
|}.

Definition start (l : label) (st : list Z) : config action label shared :=
  Config [Goto l] (Shared (λ _, Control None 0 0) st [] []) None.

(** ** What a thread has done *)

(** Where a thread is in its call: outside; or it has the lock of a control, has
    seen its flag, has run the function, has set the flag. *)
Inductive phase := Out | In (k : which) | Saw (k : which) (v : Z) | Ran (k : which) | Stored (k : which).

Definition advance (ph : phase) (x : action * Z) : phase :=
  match ph, x.1 with
  | Out, ALock k => if x.2 =? 0 then In k else Out
  | In k, ALoad _ => Saw k x.2
  | Saw k v, AInit _ => if x.2 =? 0 then Ran k else Saw k v
  | Ran k, AStore _ => Stored k
  | Saw _ _, AUnlock _ | Stored _, AUnlock _ => if x.2 =? 0 then Out else ph
  | _, _ => ph
  end.
Definition phase_of (h : list (action * Z)) : phase := fold_left advance h Out.

Lemma stage_snoc h x : phase_of (h ++ [x]) = advance (phase_of h) x.
Proof. unfold phase_of. by rewrite fold_left_app. Qed.

Definition at_ctl (k : which) (ph : phase) : Prop :=
  match ph with Out => False | In k' | Saw k' _ | Ran k' | Stored k' => k' = k end.

Section inv.
(** Whether the calls are trusted not to fail. *)
Variable trust : bool.

(** A trusted call has succeeded; the number of a new thread is not 0. *)
Definition sound_call (x : action * Z) : Prop :=
  match x.1 with
  | ALock _ | AUnlock _ | AInit _ => trust = true → x.2 = 0
  | ACreate _ => x.2 ≠ 0
  | _ => True
  end.
Definition sound (h : list (action * Z)) : Prop := Forall sound_call h.

Lemma sound_snoc h x : sound (h ++ [x]) → sound h.
Proof. by intros [H _]%Forall_app. Qed.

Definition passed (k : which) (h : list (action * Z)) : Prop := (AUnlock k, 0) ∈ h.

Lemma passed_snoc k h x : passed k h → passed k (h ++ [x]).
Proof. intros H. apply elem_of_app. by left. Qed.

(** The threads of the two programs; the first one is [main]. *)
Definition starts (i : nat) (l : label) : Prop :=
  match l with
  | BookMain => trust = true ∧ i = O
  | BookThread => trust = true ∧ i ≠ O
  | TestThread _ => trust = false ∧ i ≠ O
  | _ => trust = false ∧ i = O
  end.

Definition allowed (i : nat) (h : list (action * Z)) (a : action) : Prop :=
  match a with
  | ALock _ => phase_of h = Out
  | ALoad k => phase_of h = In k
  | AInit k => phase_of h = Saw k 0
  | AStore k => phase_of h = Ran k
  | AUnlock k => (∃ v, v ≠ 0 ∧ phase_of h = Saw k v) ∨ phase_of h = Stored k
  | AGetspecific k | ASetspecific k => passed k h
  | ACreate l => starts 1 l
  | AJoin t => phase_of h = Out ∧ i = O ∧ t ≠ O
  | _ => True
  end.
Definition may (i : nat) (h : list (action * Z)) (a : action) : Prop := sound h → allowed i h a.

Definition outside (i : nat) (h : list (action * Z)) (l : label) : Prop :=
  (sound h → phase_of h = Out) ∧ starts i l.

(** A thread returns outside; [main] does not return. *)
Definition comes_back (i : nat) (h : list (action * Z)) : Prop := i ≠ O ∧ (sound h → phase_of h = Out).

Variable i : nat.
Local Abbreviation follows h c Q := (respects (may i) (λ _ _, True) (outside i) h c Q).

Lemma follows_act {B} h a (k : Z → prog B) Q :
  (sound h → allowed i h a) → (∀ z, follows (h ++ [(a, z)]) (k z) Q) → follows h (z ← act a; k z) Q.
Proof. intros Ha Hk. by split. Qed.

Lemma follows_print h t (Q : list (action * Z) → unit → Prop) :
  (∀ h', phase_of h' = phase_of h → (sound h' → sound h) → (∀ k, passed k h → passed k h') → Q h' tt) →
  follows h (print t) Q.
Proof.
  intros HQ. apply follows_act; [done|]. intros z. apply HQ.
  - rewrite stage_snoc. by destruct (phase_of h).
  - apply sound_snoc.
  - intros k. apply passed_snoc.
Qed.

(** The function, run by who has seen the flag unset. *)
Definition runs (k : which) (init : prog unit) : Prop :=
  ∀ h, (sound h → phase_of h = Saw k 0) → follows h init (λ h' _, sound h' → phase_of h' = Ran k).

(** What follows the lock. *)
Lemma follows_inside h k (init : prog unit) {B} (f : Z → prog B) Q :
  runs k init → (sound h → phase_of h = In k) →
  (∀ h0 s, let h' := h0 ++ [(AUnlock k, s)] in
     (sound h' → s = 0 → phase_of h' = Out ∧ passed k h') → follows h' (f s) Q) →
  follows h (called ← act (ALoad k);
    _ ← (if called =? 0 then _ ← init; _ ← act (AStore k); mret tt else mret tt);
    s ← act (AUnlock k); f s) Q.
Proof.
  intros Hinit Hh Hf. apply follows_act; [exact Hh|]. intros v. apply respects_bind.
  assert (Hlast : ∀ h', (sound h' → (∃ v, v ≠ 0 ∧ phase_of h' = Saw k v) ∨ phase_of h' = Stored k) →
    follows h' (s ← act (AUnlock k); f s) Q).
  { intros h' Hh'. apply follows_act; [exact Hh'|]. intros s. apply Hf. intros Hs ->.
    split; [|apply elem_of_app; right; by left]. rewrite stage_snoc.
    destruct (Hh' (sound_snoc _ _ Hs)) as [(w & _ & ->)| ->]; done. }
  assert (Hv : sound (h ++ [(ALoad k, v)]) → phase_of (h ++ [(ALoad k, v)]) = Saw k v).
  { intros Hs. by rewrite stage_snoc, (Hh (sound_snoc _ _ Hs)). }
  destruct (Z.eqb_spec v 0) as [->|Hne].
  - apply respects_bind. eapply respects_impl; [|by apply Hinit]. intros h1 [] H1. simpl in H1.
    apply follows_act; [exact H1|]. intros z. apply Hlast. intros Hs. right.
    by rewrite stage_snoc, (H1 (sound_snoc _ _ Hs)).
  - apply Hlast. intros Hs. left. exists v. split; [done|]. by apply Hv.
Qed.

(** Where the lock is taken only if its call succeeds. *)
Lemma follows_locked h k z : (sound h → phase_of h = Out) → z = 0 →
  sound (h ++ [(ALock k, z)]) → phase_of (h ++ [(ALock k, z)]) = In k.
Proof. intros Hh -> Hs. by rewrite stage_snoc, (Hh (sound_snoc _ _ Hs)). Qed.

Lemma follows_one_time_init h k init :
  runs k init → (sound h → phase_of h = Out) →
  follows h (one_time_init k init) (λ h' s, sound h' → s = 0 → phase_of h' = Out ∧ passed k h').
Proof.
  intros Hi Hh. unfold one_time_init. apply follows_act; [exact Hh|]. intros s.
  destruct (Z.eqb_spec s 0) as [->|Hs]; simpl negb; cbv iota; [|by intros _ ->].
  apply follows_inside; [exact Hi|by apply follows_locked|]. intros h0 s h' H'.
  by destruct (negb (s =? 0)).
Qed.

(** *** The programs *)

Lemma stays_out h a z :
  match a with ALock _ => False | _ => True end → (sound h → phase_of h = Out) →
  sound (h ++ [(a, z)]) → phase_of (h ++ [(a, z)]) = Out.
Proof. intros Ha Hh Hs. rewrite stage_snoc, (Hh (sound_snoc _ _ Hs)). by destruct a. Qed.

Lemma runs_key_create k : runs k (Pthread_key_create k).
Proof.
  intros h Hh. apply follows_act; [exact Hh|]. intros z. unfold wrapper.
  destruct (Z.eqb_spec z 0) as [->|]; simpl; [|done]. intros Hs. by rewrite stage_snoc, (Hh (sound_snoc _ _ Hs)).
Qed.

Lemma follows_thread_buffer h k create :
  runs k create → (sound h → phase_of h = Out) →
  follows h (thread_buffer k create) (λ h' _, sound h' → phase_of h' = Out).
Proof.
  intros Hc Hh. unfold thread_buffer. eapply respects_seq; [by apply follows_one_time_init|].
  intros h1 s H1. simpl in H1. destruct (Z.eqb_spec s 0) as [->|]; simpl negb; cbv iota; [|done].
  apply follows_act; [intros Hs; by apply (H1 Hs)|]. intros buf.
  assert (H2 : sound (h1 ++ [(AGetspecific k, buf)]) → phase_of (h1 ++ [(AGetspecific k, buf)]) = Out)
    by (apply stays_out; [done|]; intros Hs; by apply H1).
  destruct (buf =? 0); [|exact H2].
  apply follows_act; [done|]. intros b. destruct (b =? 0); [done|].
  apply follows_act.
  { intros Hs. do 2 apply passed_snoc. apply H1; [by do 2 apply sound_snoc in Hs|done]. }
  intros z. unfold wrapper. destruct (negb (z =? 0)); [done|]. simpl.
  apply stays_out; [done|]. by apply stays_out.
Qed.

Lemma follows_threadRoutine h str :
  (sound h → phase_of h = Out) → follows h (threadRoutine str) (λ h' _, sound h' → phase_of h' = Out).
Proof.
  intros Hh0. unfold threadRoutine, ydirname, ybasename. apply follows_act; [done|]. intros order.
  assert (Hh : sound (h ++ [(AOrder, order)]) → phase_of (h ++ [(AOrder, order)]) = Out)
    by by apply stays_out.
  destruct (order =? 0); apply respects_bind, respects_bind;
  (eapply respects_impl; [|apply follows_thread_buffer; [apply runs_key_create|exact Hh]]);
  intros h1 u1 H1; simpl in H1; apply respects_bind, respects_bind;
  (eapply respects_impl; [|apply follows_thread_buffer; [apply runs_key_create|exact H1]]);
  intros h2 u2 H2; simpl in H2; apply follows_print; intros h3 H3 Hs _ Hs3; rewrite H3; by apply H2, Hs.
Qed.

Lemma follows_test h l :
  outside i h l → trust = false → follows h (body l) (λ h _, comes_back i h).
Proof.
  intros [Hh Hl] Ht. destruct l as [| |argv|argv j|argv j|str]; simpl in Hl;
    try (destruct Hl as [Hl _]; congruence); destruct Hl as [_ Hi]; simpl body.
  - unfold test_main. by destruct (_ || _).
  - unfold create_loop. destruct (argv !! S j) as [path|]; [|done]. apply follows_act; [done|].
    intros t. destruct (t <? 0); [done|]. split; [|done]. exact (stays_out h (ACreate (TestThread path)) t I Hh).
  - unfold join_loop. destruct (argv !! S j) as [path|]; [|done]. apply follows_act.
    { intros Hs. split; [by apply Hh|done]. }
    intros t. unfold wrapper. destruct (negb (t =? 0)); [done|]. split; [|done].
    exact (stays_out h (AJoin (S j)) t I Hh).
  - eapply respects_impl; [|by apply follows_threadRoutine]. intros h' u H. by split.
Qed.
End inv.

(** The book's program, with the trust it has in its calls. *)
Section book.
Variable i : nat.
Local Abbreviation follows h c Q :=
  (respects (may true i) (λ _ _, True) (outside true i) h c Q).

Lemma sound_last h k z (a : which → action) :
  sound true (h ++ [(a k, z)]) → match a k with ALock _ | AUnlock _ | AInit _ => z = 0 | _ => True end.
Proof.
  intros [_ [H _]%Forall_cons]%Forall_app. unfold sound_call in H. simpl in H. by destruct (a k); auto.
Qed.

Lemma runs_init_func : runs true i First book.init_func.
Proof.
  intros h Hh. apply (follows_act true); [exact Hh|]. intros z. apply (follows_print true). intros h' Hp Hs _ Hs'.
  specialize (Hs Hs'). pose proof (sound_last h First z AInit Hs) as Hz. simpl in Hz. subst z.
  by rewrite Hp, stage_snoc, (Hh (sound_snoc _ _ _ Hs)).
Qed.

Lemma follows_book_init h init :
  runs true i First init → (sound true h → phase_of h = Out) →
  follows h (book.one_time_init First init) (λ h' _, sound true h' → phase_of h' = Out ∧ passed First h').
Proof.
  intros Hi Hh. unfold book.one_time_init. apply (follows_act true); [exact Hh|]. intros s. unfold book.check.
  destruct (s =? -1); [done|]. apply (follows_inside true); [exact Hi| |].
  - intros Hs. pose proof (sound_last h First s ALock Hs) as Hz. simpl in Hz. by apply (follows_locked true).
  - intros h0 s' h' H'. destruct (s' =? -1); [done|]. simpl. intros Hs. apply H'; [done|].
    exact (sound_last h0 First s' AUnlock Hs).
Qed.

Lemma follows_book_call h a (k : Z → prog unit) :
  match a with ACreate _ | AJoin _ | APrint _ => True | _ => False end →
  (sound true h → phase_of h = Out → allowed true i h a) → (sound true h → phase_of h = Out) →
  (∀ z, (sound true (h ++ [(a, z)]) → phase_of (h ++ [(a, z)]) = Out) →
     follows (h ++ [(a, z)]) (k z) (λ h' _, comes_back true i h')) →
  follows h (z ← act a; k z) (λ h' _, comes_back true i h').
Proof.
  intros Ha Hal Hh Hk. apply (follows_act true); [intros Hs; by apply Hal, Hh|]. intros z. apply Hk.
  apply (stays_out true); [by destruct a|done].
Qed.

Lemma follows_threadFunc h :
  outside true i h BookThread → follows h book.threadFunc (λ h' _, comes_back true i h').
Proof.
  intros [Hh [_ Hi]]. unfold book.threadFunc.
  eapply respects_seq; [apply follows_book_init; [apply runs_init_func|exact Hh]|]. intros h1 u1 H1. simpl in H1.
  eapply respects_seq; [apply follows_book_init; [apply runs_init_func|intros Hs; by apply H1]|].
  intros h2 u2 H2. split; [done|]. intros Hs. by apply H2.
Qed.

(** A thread's number, where the call that made it succeeded. *)
Lemma created_number h l t h' :
  sound true h' → h' = h ++ [(ACreate l, t)] → (t <? 0) = false → Z.to_nat t ≠ O.
Proof.
  intros Hs -> Ht. apply Forall_app in Hs as [_ [Hs _]%Forall_cons]. unfold sound_call in Hs. simpl in Hs. lia.
Qed.

Lemma follows_book_main h :
  outside true i h BookMain → follows h book.main (λ h' _, comes_back true i h').
Proof.
  intros [Hh [_ Hi]]. unfold book.main, book.create, book.join, print.
  apply (follows_book_call _ (ACreate _)); [done|done|done|]. intros t1 H1. destruct (t1 <? 0) eqn:E1; [done|].
  apply (follows_book_call _ (ACreate _)); [done|done|done|]. intros t2 H2. destruct (t2 <? 0) eqn:E2; [done|].
  apply (follows_book_call _ (AJoin _)); [done| |done|].
  { intros Hs Hp. split; [done|]. split; [done|].
    eapply created_number; [by eapply (sound_snoc true)|reflexivity|done]. }
  intros s1 H3. destruct (negb (s1 =? 0)); [done|].
  apply (follows_book_call _ (APrint _)); [done|done|done|]. intros p1 H4.
  apply (follows_book_call _ (AJoin _)); [done| |done|].
  { intros Hs Hp. split; [done|]. split; [done|].
    eapply created_number; [by do 2 eapply (sound_snoc true)|reflexivity|done]. }
  intros s2 H5. destruct (negb (s2 =? 0)); [done|]. by apply (follows_book_call _ (APrint _)).
Qed.
End book.

(** ** The controls *)

(** A control whose function has not run, and one whose function has. *)
Definition untouched (c : control) : Prop := c.(once) = 0 ∧ c.(inits) = 0%nat.
Definition done_with (c : control) : Prop := c.(once) = 1 ∧ c.(inits) = 1%nat.

(** A control as its holder has it. *)
Definition held_ok (ph : phase) (k : which) (c : control) : Prop :=
  match ph with
  | Out => False
  | In k' => k' = k ∧ (untouched c ∨ done_with c)
  | Saw k' v => k' = k ∧ c.(once) = v ∧ (untouched c ∨ done_with c)
  | Ran k' => k' = k ∧ c.(once) = 0 ∧ c.(inits) = 1%nat
  | Stored k' => k' = k ∧ done_with c
  end.

Section controls.
Variable trust : bool.

Local Abbreviation ph w i := (phase_of (own i (history w))).

Record controls_ok (w : shared) : Prop := {
  co_trust : trust = true → w.(statuses) = [];
  co_sound i : sound trust (own i w.(history));
  co_free k : (w.(ctl) k).(holder) = None → untouched (w.(ctl) k) ∨ done_with (w.(ctl) k);
  co_held k i : (w.(ctl) k).(holder) = Some i → held_ok (ph w i) k (w.(ctl) k);
  co_at k i : at_ctl k (ph w i) → (w.(ctl) k).(holder) = Some i;
  co_passed k i : passed k (own i w.(history)) → done_with (w.(ctl) k)
}.

Lemma own_record i j a z w :
  own j (history (record_call i a z w)) = own j (history w) ++ (if decide (i = j) then [(a, z)] else []).
Proof. apply own_snoc. Qed.

Lemma sound_add h a z :
  sound trust h → sound_call trust (a, z) →
  sound trust (h ++ [(a, z)]).
Proof. intros H Hz. apply Forall_app. split; [exact H|]. by constructor. Qed.

(** A step of thread [i] that changes the control [k] at most, of which it is the
    holder before or after. *)
Lemma controls_step i a z (k : which) w w1 :
  let ph' := advance (ph w i) (a, z) in
  controls_ok w → history w1 = history w → (trust = true → statuses w1 = []) →
  (∀ k', k' ≠ k → ctl w1 k' = ctl w k' ∧ ¬ at_ctl k' (ph w i) ∧ ¬ at_ctl k' ph') →
  (∀ j, holder (ctl w k) = Some j → j ≠ i → ctl w1 k = ctl w k) →
  (∀ j, holder (ctl w1 k) = Some j → j ≠ i → ctl w1 k = ctl w k) →
  (holder (ctl w1 k) = None → untouched (ctl w1 k) ∨ done_with (ctl w1 k)) →
  (holder (ctl w1 k) = Some i → held_ok ph' k (ctl w1 k)) →
  (at_ctl k ph' → holder (ctl w1 k) = Some i) →
  (done_with (ctl w k) ∨ a = AUnlock k ∧ z = 0 → done_with (ctl w1 k)) →
  (∀ k', k' ≠ k → a ≠ AUnlock k') →
  sound_call trust (a, z) →
  controls_ok (record_call i a z w1).
Proof.
  intros ph' [H1 H2 H3 H4 H5 H6] Hh Hst Hk Hj Hj' Hf Hi Ha Hd Hu Hz.
  assert (Hown : ∀ j, own j (history (record_call i a z w1)) =
    own j (history w) ++ (if decide (i = j) then [(a, z)] else [])) by (intros j; by rewrite own_record, Hh).
  assert (Hph : ∀ j, ph (record_call i a z w1) j = if decide (i = j) then ph' else ph w j).
  { intros j. rewrite Hown. destruct (decide (i = j)) as [<-|]; [apply stage_snoc|by rewrite app_nil_r]. }
  assert (Hdec : ∀ k', {k' = k} + {k' ≠ k}) by (intros [] ; destruct k; (left; congruence) || (right; congruence)).
  split; [exact Hst|..].
  - intros j. rewrite Hown. destruct (decide (i = j)) as [<-|]; [by apply sound_add|by rewrite app_nil_r].
  - intros k'. cbn [record_call ctl]. destruct (Hdec k') as [->|Hne]; [exact Hf|].
    destruct (Hk k' Hne) as [-> _]. apply H3.
  - intros k' j. rewrite Hph. cbn [record_call ctl]. destruct (Hdec k') as [->|Hne].
    + destruct (decide (i = j)) as [<-|Hij]; [exact Hi|]. intros Hw.
      pose proof (Hj' j Hw (not_eq_sym Hij)) as E. rewrite E in Hw |- *. by apply H4.
    + destruct (Hk k' Hne) as [-> [Hn _]]. intros Hw. destruct (decide (i = j)) as [<-|]; [|by apply H4].
      specialize (H4 k' i Hw). destruct Hn. destruct (ph w i); simpl in *; try done; by destruct H4.
  - intros k' j. rewrite Hph. cbn [record_call ctl]. destruct (Hdec k') as [->|Hne].
    + destruct (decide (i = j)) as [<-|Hij]; [exact Ha|]. intros Hw. specialize (H5 k j Hw).
      by rewrite (Hj j H5 (not_eq_sym Hij)).
    + destruct (Hk k' Hne) as [-> [_ Hn]]. destruct (decide (i = j)) as [<-|]; [done|apply H5].
  - intros k' j. rewrite Hown. cbn [record_call ctl]. intros [Hp|Hp]%elem_of_app.
    + destruct (Hdec k') as [->|Hne]; [apply Hd; left; by eapply H6|]. destruct (Hk k' Hne) as [-> _]. by eapply H6.
    + destruct (decide (i = j)) as [<-|]; [|by apply elem_of_nil in Hp].
      apply list_elem_of_singleton in Hp as [= <- <-]. destruct (Hdec k') as [->|Hne]; [apply Hd; by right|].
      by destruct (Hu k' Hne).
Qed.

(** A step that changes neither the controls nor where the thread is. *)
Lemma controls_same i a z w w1 :
  controls_ok w → ctl w1 = ctl w → history w1 = history w → (trust = true → statuses w1 = []) →
  advance (ph w i) (a, z) = ph w i → (∀ k, a = AUnlock k → z ≠ 0) →
  sound_call trust (a, z) →
  controls_ok (record_call i a z w1).
Proof.
  intros [H1 H2 H3 H4 H5 H6] Hc Hh Hst Ha Hu Hz.
  assert (Hown : ∀ j, own j (history (record_call i a z w1)) =
    own j (history w) ++ (if decide (i = j) then [(a, z)] else [])) by (intros j; by rewrite own_record, Hh).
  assert (Hph : ∀ j, ph (record_call i a z w1) j = ph w j).
  { intros j. rewrite Hown. destruct (decide (i = j)) as [<-|]; [by rewrite stage_snoc|by rewrite app_nil_r]. }
  split; [exact Hst|..].
  - intros j. rewrite Hown. destruct (decide (i = j)) as [<-|]; [by apply sound_add|by rewrite app_nil_r].
  - intros k. cbn [record_call ctl]. rewrite Hc. apply H3.
  - intros k j. rewrite Hph. cbn [record_call ctl]. rewrite Hc. apply H4.
  - intros k j. rewrite Hph. cbn [record_call ctl]. rewrite Hc. apply H5.
  - intros k j. rewrite Hown. cbn [record_call ctl]. rewrite Hc. intros [Hp|Hp]%elem_of_app; [by eapply H6|].
    destruct (decide (i = j)) as [<-|]; [|by apply elem_of_nil in Hp].
    apply list_elem_of_singleton in Hp as [= <- <-]. by destruct (Hu k eq_refl).
Qed.

(** A call with a status succeeds or changes nothing; trusted calls succeed. *)
Lemma tries_run f w z w1 :
  controls_ok w → tries f w = (z, w1) →
  ∃ w0, ctl w0 = ctl w ∧ history w0 = history w ∧ (trust = true → statuses w0 = []) ∧
    (z = 0 ∧ w1 = f w0 ∨ z ≠ 0 ∧ w1 = w0 ∧ trust = false).
Proof.
  intros H. unfold tries, pop. pose proof (co_trust w H) as Ht. destruct (statuses w) as [|s l] eqn:Hs.
  - intros [= <- <-]. exists w. split_and!; try done. by left.
  - assert (Hf : trust = false) by (destruct trust; [by specialize (Ht eq_refl)|done]).
    exists (Shared (ctl w) l (printed w) (history w)). split_and!; try done; [by rewrite Hf|].
    destruct (Z.eqb_spec s 0) as [->|]; simplify_eq; auto.
Qed.

Lemma tries_neutral i a z w f w1 :
  controls_ok w → tries f w = (z, w1) → (∀ w0, ctl (f w0) = ctl w0 ∧ history (f w0) = history w0 ∧
    statuses (f w0) = statuses w0) →
  match a with ASetspecific _ | ACreate _ | AJoin _ | AOrder => True | _ => False end →
  ∀ z', sound_call trust (a, z') → controls_ok (record_call i a z' w1).
Proof.
  intros H Ht Hf Ha z' Hz'. destruct (tries_run _ _ _ _ H Ht) as (w0 & Hc & Hh & Hs & Hw).
  destruct (Hf w0) as (F1 & F2 & F3).
  assert (ctl w1 = ctl w ∧ history w1 = history w ∧ (trust = true → statuses w1 = [])) as (E1 & E2 & E3).
  { destruct Hw as [[_ ->]|(_ & -> & _)]; [|done]. rewrite F1, F2, F3. done. }
  apply (controls_same i a z' w w1); try done; [|by destruct a]. destruct a; try done;
    by destruct (ph w i).
Qed.

Lemma set_ctl_other k k' c w : k' ≠ k → ctl (set_ctl k c w) k' = ctl w k'.
Proof. by destruct k, k'. Qed.
Lemma set_ctl_this k c w : ctl (set_ctl k c w) k = c.
Proof. by destruct k. Qed.

Lemma controls_lock i r k w z w1 :
  controls_ok w → phase_of (own i (history w)) = Out → do_call i r (ALock k) w = Some (z, w1) →
  controls_ok (record_call i (ALock k) z w1).
Proof.
  intros H Hp Hd. simpl in Hd.
  set (f := set_ctl k (Control (Some i) (once (ctl w k)) (inits (ctl w k)))) in Hd.
  assert (Ht : tries f w = (z, w1) ∧ (z = 0 → holder (ctl w k) = None)).
  { destruct (holder (ctl w k)) as [j|]; [|by injection Hd as ->].
    destruct (statuses w) as [|[|p|p] l] eqn:Hs; try done; injection Hd as Hd; rewrite Hd; (split; [done|]);
      intros ->; unfold tries, pop in Hd; by rewrite Hs in Hd. }
  destruct Ht as [Ht Hfree]. destruct (tries_run _ _ _ _ H Ht) as (w0 & Hc & Hh & Hs & [[-> ->]|(Hz & -> & Hf)]).
  - specialize (Hfree eq_refl). pose proof (co_free _ H k Hfree) as Hu.
    apply (controls_step i (ALock k) 0 k w (f w0)); rewrite ?Hp; try done; unfold f; rewrite ?set_ctl_this; try done.
    + intros k' Hne. rewrite set_ctl_other, Hc by done. split_and!; [done|by intros []|]. simpl. congruence.
    + by rewrite Hfree.
    + intros j Hj Hne. simpl in Hj. congruence.
    + by intros [?|[? _]].
  - apply (controls_same i (ALock k) z w w0); try done; [|by rewrite Hf]. rewrite Hp. simpl.
    by destruct (Z.eqb_spec z 0).
Qed.

(** A step of the holder, after which it is still that or lets go. *)
Lemma controls_holder i a z k c w w0 :
  let ph' := advance (ph w i) (a, z) in
  controls_ok w → at_ctl k (ph w i) → ctl w0 = ctl w → history w0 = history w →
  (trust = true → statuses w0 = []) →
  (c.(holder) = Some i ∧ held_ok ph' k c ∨ c.(holder) = None ∧ ph' = Out ∧ done_with c) →
  (done_with (ctl w k) ∨ a = AUnlock k → done_with c) → (∀ k', k' ≠ k → a ≠ AUnlock k') →
  sound_call trust (a, z) →
  controls_ok (record_call i a z (set_ctl k c w0)).
Proof.
  intros ph' H Hat Hc Hh Hst Hcase Hd Hu Hz. pose proof (co_at _ H k i Hat) as Hhold.
  assert (Hph : ph' = Out ∨ at_ctl k ph').
  { destruct Hcase as [[_ Ho]|(_ & -> & _)]; [right|by left]. destruct ph'; simpl in *; try done; by destruct Ho. }
  assert (Hother : ∀ k' p, k' ≠ k → at_ctl k p → ¬ at_ctl k' p) by (intros k' p Hne; destruct p; simpl; congruence).
  apply (controls_step i a z k w (set_ctl k c w0)); fold ph'; rewrite ?set_ctl_this; try done.
  - intros k' Hne. rewrite set_ctl_other, Hc by done. split; [done|]. split; [by eapply Hother|].
    destruct Hph as [->|Hp]; [by intros []|by eapply Hother].
  - intros j Hj Hne. congruence.
  - intros j Hj Hne. destruct Hcase as [[E _]|[E _]]; congruence.
  - intros E. right. destruct Hcase as [[E' _]|(_ & _ & E')]; [congruence|done].
  - intros E. destruct Hcase as [[_ E']|[E' _]]; [done|congruence].
  - intros E. destruct Hcase as [[E' _]|(_ & E' & _)]; [done|by rewrite E' in E].
  - intros [?|[? _]]; apply Hd; auto.
Qed.

Lemma set_ctl_same w k : controls_ok w →
  ∀ i a z, controls_ok (record_call i a z (set_ctl k (ctl w k) w)) → controls_ok (record_call i a z w).
Proof.
  intros _ i a z [H1 H2 H3 H4 H5 H6].
  assert (E : ∀ k', ctl (set_ctl k (ctl w k) w) k' = ctl w k') by (intros k'; by destruct k, k').
  cbn [record_call ctl history statuses] in *.
  split; [exact H1|exact H2|intros k'; specialize (H3 k'); by rewrite E in H3
    |intros k' j; specialize (H4 k' j); by rewrite E in H4|intros k' j; specialize (H5 k' j); by rewrite E in H5
    |intros k' j; specialize (H6 k' j); by rewrite E in H6].
Qed.

Lemma controls_load i k w :
  controls_ok w → phase_of (own i (history w)) = In k → controls_ok (record_call i (ALoad k) (once (ctl w k)) w).
Proof.
  intros H Hp. assert (Hat : at_ctl k (ph w i)) by by rewrite Hp.
  pose proof (co_at _ H k i Hat) as Hh. pose proof (co_held _ H k i Hh) as Ho. rewrite Hp in Ho.
  destruct Ho as [_ Ho]. apply (set_ctl_same w k H).
  apply (controls_holder i (ALoad k) _ k (ctl w k) w w); rewrite ?Hp; try done; [by apply co_trust|by left|].
  by intros [?|?].
Qed.

Lemma controls_store i k w :
  controls_ok w → phase_of (own i (history w)) = Ran k →
  controls_ok (record_call i (AStore k) 0 (set_ctl k (Control (holder (ctl w k)) 1 (inits (ctl w k))) w)).
Proof.
  intros H Hp. assert (Hat : at_ctl k (ph w i)) by by rewrite Hp.
  pose proof (co_at _ H k i Hat) as Hh. pose proof (co_held _ H k i Hh) as Ho. rewrite Hp in Ho.
  destruct Ho as (_ & Ho & Hi).
  apply (controls_holder i (AStore k) 0 k _ w w); rewrite ?Hp; try done; [by apply co_trust|by left].
Qed.

Lemma controls_init i k f w z w1 :
  controls_ok w → phase_of (own i (history w)) = Saw k 0 →
  f = set_ctl k (Control (holder (ctl w k)) (once (ctl w k)) (S (inits (ctl w k)))) →
  tries f w = (z, w1) → controls_ok (record_call i (AInit k) z w1).
Proof.
  intros H Hp -> Ht. assert (Hat : at_ctl k (ph w i)) by by rewrite Hp.
  pose proof (co_at _ H k i Hat) as Hh. pose proof (co_held _ H k i Hh) as Ho. rewrite Hp in Ho.
  destruct Ho as (_ & Ho & [[_ Hi]|[? _]]); [|congruence].
  destruct (tries_run _ _ _ _ H Ht) as (w0 & Hc & Hhi & Hs & [[-> ->]|(Hz & -> & Hf)]).
  - apply (controls_holder i (AInit k) 0 k _ w w0); rewrite ?Hp; try done.
    + left. simpl. rewrite Hi. done.
    + intros [[? _]|?]; [congruence|done].
  - apply (controls_same i (AInit k) z w w0); try done; [|by rewrite Hf]. rewrite Hp. simpl.
    by destruct (Z.eqb_spec z 0).
Qed.

Lemma controls_unlock i k f w z w1 :
  controls_ok w → (∃ v, v ≠ 0 ∧ phase_of (own i (history w)) = Saw k v) ∨ phase_of (own i (history w)) = Stored k →
  f = set_ctl k (Control None (once (ctl w k)) (inits (ctl w k))) →
  tries f w = (z, w1) → controls_ok (record_call i (AUnlock k) z w1).
Proof.
  intros H Hp -> Ht. assert (Hat : at_ctl k (ph w i)) by by destruct Hp as [(v & _ & ->)| ->].
  pose proof (co_at _ H k i Hat) as Hh. pose proof (co_held _ H k i Hh) as Ho.
  assert (Hd : done_with (ctl w k)).
  { destruct Hp as [(v & Hv & Hp)|Hp]; rewrite Hp in Ho; [|by destruct Ho].
    destruct Ho as (_ & Ho & [[? _]|?]); [congruence|done]. }
  destruct (tries_run _ _ _ _ H Ht) as (w0 & Hc & Hhi & Hs & [[-> ->]|(Hz & -> & Hf)]).
  - apply (controls_holder i (AUnlock k) 0 k _ w w0); try done;
      [right|intros k' Hne [= E]; by destruct Hne].
    destruct Hp as [(v & _ & ->)| ->]; done.
  - apply (controls_same i (AUnlock k) z w w0); try done; [|by rewrite Hf].
    destruct Hp as [(v & _ & ->)| ->]; simpl; by destruct (Z.eqb_spec z 0).
Qed.

(** Every call a thread may make keeps the controls in order. *)
Lemma controls_call i r a w o :
  (i < length r)%nat → may trust i (own i (history w)) a → controls_ok w → perform i r a w = o →
  match o with Val _ w' | Spawn _ w' => controls_ok w' | Blocked => True end.
Proof.
  intros Hr Ha H <-. specialize (Ha (co_sound _ H i)). cbn [perform sys]. unfold do_action.
  destruct (do_call i r a w) as [[z w1]|] eqn:Hd; [|done]. destruct a; simpl in Ha.
  - by eapply controls_lock.
  - injection Hd as Hd. by eapply controls_unlock.
  - injection Hd as <- <-. by apply controls_load.
  - injection Hd as <- <-. by apply controls_store.
  - injection Hd as Hd. by eapply controls_init.
  - injection Hd as <- <-. apply (controls_same i _ 0 w w); try done; [by apply co_trust|by destruct (ph w i)].
  - simpl in Hd. pose proof (co_trust _ H) as Ht. unfold pop in Hd.
    apply (controls_same i _ z w w1); try done; [by destruct (statuses w); simplify_eq|
      by destruct (statuses w); simplify_eq| |by destruct (ph w i)].
    intros E. specialize (Ht E). rewrite Ht in Hd. injection Hd as <- <-. exact Ht.
  - injection Hd as Hd. by eapply tries_neutral.
  - injection Hd as Hd. destruct (Z.eqb_spec z 0); (eapply tries_neutral; [exact H|exact Hd|done|done|]);
      unfold sound_call; simpl; lia.
  - simpl in Hd. destruct (r !! t) as [[|]|]; try done; injection Hd as Hd; by eapply tries_neutral.
  - injection Hd as <- <-. apply (controls_same i _ 0 w); try done; [exact (co_trust _ H)|by destruct (ph w i)].
  - injection Hd as Hd. by eapply tries_neutral.
Qed.
End controls.

(** ** Whole runs *)

Lemma once_call_history i r a w z w1 : do_call i r a w = Some (z, w1) → history w1 = history w.
Proof.
  assert (Hpop : history (pop w).2 = history w) by (unfold pop; by destruct (statuses w)).
  assert (Ht : ∀ f z' w', (∀ w0, history (f w0) = history w0) → tries f w = (z', w') → history w' = history w).
  { intros f z' w' Hf. unfold tries. destruct (pop w) as [s w0]. simpl in Hpop.
    destruct (s =? 0); intros [= <- <-]; [by rewrite Hf|done]. }
  destruct a; cbn [do_call].
  - destruct (holder _), (statuses w) as [|[]]; try done; intros [= E]; (eapply Ht; [|exact E]; done).
  - intros [= E]. (eapply Ht; [|exact E]; done).
  - by intros [= <- <-].
  - by intros [= <- <-].
  - intros [= E]. (eapply Ht; [|exact E]; done).
  - by intros [= <- <-].
  - destruct (pop w) as [s w0]. by intros [= <- <-].
  - intros [= E]. (eapply Ht; [|exact E]; done).
  - intros [= E]. (eapply Ht; [|exact E]; done).
  - destruct (r !! t) as [[]|]; intros [= E]; (eapply Ht; [|exact E]; done).
  - by intros [= <- <-].
  - intros [= E]. (eapply Ht; [|exact E]; done).
Qed.

Lemma performed_own i (r : list bool) a w z w' (w1 : shared) :
  w' = record_call i a z w1 → history w1 = history w →
  own i (history w') = own i (history w) ++ [(a, z)] ∧ ∀ j, j ≠ i → own j (history w') = own j (history w).
Proof.
  intros -> Hh. cbn [record_call history]. rewrite Hh. split; [by rewrite own_snoc, decide_True|].
  intros j Hj. by rewrite own_snoc, decide_False, app_nil_r.
Qed.

(** What an action leaves: a value or a new thread, or nothing happens. *)
Lemma perform_cases i r a (w : shared) :
  match perform i r a w with
  | Val z w' => ∃ w1, history w1 = history w ∧ w' = record_call i a z w1
  | Spawn l w' => a = ACreate l ∧ ∃ w1, history w1 = history w ∧ w' = record_call i a (Z.of_nat (length r)) w1
  | Blocked => do_call i r a w = None
  end.
Proof.
  cbn [perform sys]. unfold do_action. destruct (do_call i r a w) as [[z w1]|] eqn:Hd; [|done].
  pose proof (once_call_history _ _ _ _ _ _ Hd) as Hh.
  destruct a; try by exists w1. destruct (z =? 0); [split; [done|]|]; by exists w1.
Qed.

Section whole.
Variable trust : bool.

Local Abbreviation orderly :=
  (abides (λ w i, own i (history w)) (may trust) (λ _ _ _, True) (outside trust) (comes_back trust)
    (controls_ok trust)).

Lemma body_follows i h l :
  outside trust i h l →
  respects (may trust i) (λ _ _, True) (outside trust i) h (body l) (λ h _, comes_back trust i h).
Proof.
  intros H. destruct trust eqn:Ht.
  - destruct l; try (by destruct H as [_ [? _]]); simpl body.
    + by apply follows_book_main.
    + by apply follows_threadFunc.
  - apply follows_test; [done|]. done.
Qed.

Lemma orderly_step i a b : orderly a → sched_step i a = Some b → orderly b.
Proof.
  apply abides_step.
  - intros j r e w z w' He. pose proof (perform_cases j r e w) as H. rewrite He in H.
    destruct H as (w1 & Hh & Hw). by eapply performed_own.
  - intros j r e w l w' Hj He Ha HK. pose proof (perform_cases j r e w) as H. rewrite He in H.
    destruct H as (-> & w1 & Hh & Hw). destruct (performed_own _ r _ _ _ _ _ Hw Hh) as [H1 H2].
    split; [done|]. split; [done|]. split; [done|]. specialize (Ha (co_sound _ _ HK j)). simpl in Ha.
    destruct l; simpl in *; destruct Ha as [Ht Ha]; try done; split; [done|lia|done|lia].
  - apply body_follows.
  - intros j r e w o Hj. by apply controls_call.
Qed.

Lemma orderly_start l st :
  outside trust 0 [] l → (trust = true → st = []) → orderly (start l st).
Proof.
  intros Hl Hst. unfold start. apply (abides_start _ _ _ _ _ _ [l]).
  - split; simpl; try done; [intros i; constructor|by left|by intros k i ?%elem_of_nil].
  - done.
  - intros i l' Hi. destruct i as [|i]; [|done]. by injection Hi as <-.
Qed.

(** A thread inside has the lock and is not waiting. *)
Lemma inside_moves p w j :
  orderly (Config p w None) → phase_of (own j (history w)) ≠ Out → ∃ b, step (Config p w None) b.
Proof.
  intros (HK & Hnew & Hp) Hne. cbn [wld pool] in *.
  destruct (decide (j < length p)%nat) as [Hj|Hj]; [|by rewrite (Hnew j) in Hne by lia].
  destruct (lookup_lt_is_Some_2 p j Hj) as [c Hc]. specialize (Hp j c Hc).
  pose proof (co_sound _ _ HK j) as Hs. destruct c as [x|f|l|e k].
  - destruct Hp as [_ Hp]. by destruct Hne; apply Hp.
  - exists (Config p w (Some f)), j. unfold sched_step. cbn. by rewrite Hc.
  - eexists. by eapply step_goto.
  - destruct Hp as [Ha _]. specialize (Ha Hs).
    destruct (act_or_blocked p w j e k Hc) as [Hstep|Hb]; [done|].
    pose proof (perform_cases j (returned <$> p) e w) as H. rewrite Hb in H.
    destruct e; simpl in Ha, H; try done.
    + by destruct (pop w).
    + by destruct Ha as [Ha _].
Qed.

(** Who waits for a lock waits for a thread that moves. *)
Lemma some_thread_moves p w :
  orderly (Config p w None) → (0 < length p)%nat → ∃ b, step (Config p w None) b.
Proof.
  intros H Hlen. pose proof H as (HK & Hnew & Hp). cbn [wld pool] in *.
  assert (Hmove : ∀ j c, p !! j = Some c → returned c = false →
    (∃ b, step (Config p w None) b) ∨ j = O ∧ ∃ t k, c = Act (AJoin t) k ∧ t ≠ O ∧
      do_call j (returned <$> p) (AJoin t) w = None).
  { intros j c Hc Hr. specialize (Hp j c Hc). destruct c as [x|f|l|e k]; [done| | |].
    - left. exists (Config p w (Some f)), j. unfold sched_step. cbn. by rewrite Hc.
    - left. eexists. by eapply step_goto.
    - destruct (act_or_blocked p w j e k Hc) as [Hstep|Hb]; [by left|].
      pose proof (perform_cases j (returned <$> p) e w) as He. rewrite Hb in He.
      destruct Hp as [Ha _]. specialize (Ha (co_sound _ _ HK j)).
      destruct e; simpl in Ha; try done.
      + left. destruct (holder (ctl w k0)) as [j'|] eqn:Hh; [|simpl in He; by rewrite Hh in He].
        apply inside_moves with j'; [done|]. pose proof (co_held _ _ HK k0 j' Hh) as Ho.
        intros E. by rewrite E in Ho.
      + simpl in He. by destruct (pop w).
      + right. destruct Ha as (_ & -> & Ht). split; [done|]. by exists t, k. }
  destruct (lookup_lt_is_Some_2 p 0 Hlen) as [c Hc].
  destruct (returned c) eqn:Hr; [destruct c; try done; by destruct (Hp 0%nat _ Hc)|].
  destruct (Hmove 0%nat c Hc Hr) as [|(_ & t & k & -> & Ht & Hb)]; [done|].
  simpl in Hb. rewrite list_lookup_fmap in Hb. destruct (p !! t) as [c|] eqn:Hct; [|done]. simpl in Hb.
  destruct (returned c) eqn:Hrt; [done|]. destruct (Hmove t c Hct Hrt) as [|[? _]]; [done|congruence].
Qed.
End whole.

(** *** Every program comes to an end *)

Definition thread_rank : nat := 20.
Definition rank (l : label) : nat :=
  match l with
  | BookMain => 60
  | BookThread | TestThread _ => thread_rank
  | TestJoin argv i => 1 + 2 * (length argv - i)
  | TestCreate argv i => 3 + 2 * length argv + 24 * (length argv - i)
  | TestMain argv => 4 + 2 * length argv + 24 * length argv
  end.
Definition cost (a : action) : nat := match a with ACreate l => S (rank l) | _ => O end.

Lemma threads_paid i r e (w : shared) l w' : perform i r e w = Spawn l w' → (rank l < cost e)%nat.
Proof.
  intros He. pose proof (perform_cases i r e w) as H. rewrite He in H. destruct H as (-> & _). simpl. lia.
Qed.

Ltac within_auto :=
  repeat (cbv beta iota delta [book.one_time_init book.check book.init_func book.create book.join one_time_init
      wrapper Pthread_key_create Pthread_setspecific createDirKey createBasekey thread_buffer ydirname ybasename
      print cost rank thread_rank Nat.sub Nat.add within code_bind code_seq mbind act code_ret mret];
    match goal with
    | |- True => exact I
    | |- ∀ z : Z, _ => intros ?
    | |- context [if ?b then _ else _] => destruct b
    end).

Lemma once_ranked l : within rank cost (body l) (rank l).
Proof.
  destruct l; simpl body.
  - by unfold book.main; within_auto.
  - by unfold book.threadFunc; within_auto.
  - unfold test_main. destruct (_ || _); [done|]. simpl. lia.
  - unfold create_loop. destruct (argv !! S i) as [path|] eqn:Hi.
    + apply lookup_lt_Some in Hi.
      assert (E : rank (TestCreate argv i) = (22 + (2 + rank (TestCreate argv (S i))))%nat) by (simpl; lia).
      rewrite E. within_auto. simpl. lia.
    + simpl. lia.
  - unfold join_loop. destruct (argv !! S i) as [path|] eqn:Hi; [|done]. apply lookup_lt_Some in Hi.
    assert (E : rank (TestJoin argv i) = (2 + rank (TestJoin argv (S i)))%nat) by (simpl; lia).
    rewrite E. within_auto. simpl. lia.
  - by unfold threadRoutine; within_auto.
Qed.

(** The function of each control has run at most once; it has run when a call to
    [one_time_init] has returned, and when a thread is about to use its key; and no
    two threads are inside a call for the same control. *)
Definition initialised_once (c : config action label shared) : Prop :=
  (∀ k, ((c.(wld).(ctl) k).(inits) <= 1)%nat) ∧
  (∀ k i, passed k (own i c.(wld).(history)) → (c.(wld).(ctl) k).(inits) = 1%nat) ∧
  (∀ k i cont, c.(pool) !! i = Some (Act (AGetspecific k) cont) → (c.(wld).(ctl) k).(inits) = 1%nat) ∧
  (∀ k i j, at_ctl k (phase_of (own i c.(wld).(history))) → at_ctl k (phase_of (own j c.(wld).(history))) → i = j).

Definition a_program (l : label) (st : list Z) : Prop :=
  match l with BookMain => st = [] | TestMain _ => True | _ => False end.

Lemma pool_stays i (a b : config action label shared) :
  sched_step i a = Some b → (length a.(pool) <= length b.(pool))%nat.
Proof.
  destruct a as [p w [f|]]; [done|]. unfold sched_step. cbn [ended pool wld].
  destruct (p !! i) as [[x|f|l|e k]|]; try done; [by intros [= <-]|intros [= <-]; cbn; by rewrite length_insert|].
  destruct (perform i (returned <$> p) e w); try done; intros [= <-]; cbn;
    rewrite ?length_app, length_insert; lia.
Qed.

Lemma orderly_once trust c :
  abides (λ w i, own i (history w)) (may trust) (λ _ _ _, True) (outside trust) (comes_back trust)
    (controls_ok trust) c → initialised_once c.
Proof.
  intros (HK & _ & Hp). assert (Hd : ∀ k i, passed k (own i c.(wld).(history)) → (c.(wld).(ctl) k).(inits) = 1%nat).
  { intros k i H. by destruct (co_passed _ _ HK k i H). }
  split_and!; [|exact Hd| |].
  - intros k. destruct (holder (ctl (wld c) k)) as [j|] eqn:Hh.
    + pose proof (co_held _ _ HK k j Hh) as H.
      destruct (phase_of _); simpl in H; unfold untouched, done_with in H; intuition lia.
    + destruct (co_free _ _ HK k Hh) as [[_ ->]|[_ ->]]; lia.
  - intros k i cont Hi. destruct (Hp i _ Hi) as [Ha _]. apply (Hd k i). apply Ha. by apply (co_sound _ _ HK).
  - intros k i j Hi Hj. pose proof (co_at _ _ HK k i Hi). pose proof (co_at _ _ HK k j Hj). congruence.
Qed.

(** C8: in [one_time_init.c], where no call fails, and in [exr3101_test.c], with any
    paths and whichever calls fail: however the threads are interleaved, each
    initialisation function runs at most once, it has run when a call returns and
    before any thread uses its key, and two threads are never inside together; and
    the program always comes to its end. *)
Theorem initialisation_once l st :
  a_program l st →
  (∀ c, reachable (start l st) c → initialised_once c) ∧
  inevitably (λ c, is_Some c.(ended) ∧ initialised_once c) (start l st).
Proof.
  intros Hl. set (trust := match l with BookMain => true | _ => false end).
  set (I c := abides (λ w i, own i (history w)) (may trust) (λ _ _ _, True) (outside trust) (comes_back trust)
    (controls_ok trust) c ∧ (0 < length c.(pool))%nat).
  assert (HI : ∀ i a b, I a → sched_step i a = Some b → I b).
  { intros i a b [Ha Hlen] Hs. split; [by eapply orderly_step|]. apply pool_stays in Hs. lia. }
  assert (Hs : I (start l st)).
  { split; [|simpl; lia]. apply orderly_start; unfold trust; destruct l; try done; by split. }
  split.
  - intros c Hr. apply (orderly_once trust). by destruct (invariant_reachable I _ _ HI Hs Hr).
  - destruct (bounded_start (E := action) rank cost [l] (start l st).(wld)) as [n Hn].
    eapply inevitably_weaken; [|apply (comes_to_end rank cost threads_paid once_ranked I (λ c, is_Some c.(ended)) n)];
      [|exact HI| |by intros c f _ ->|exact Hs|exact Hn].
    + intros c [He [Hc _]]. split; [done|by eapply orderly_once].
    + intros [p w [f|]] [Hc Hlen]; [left; by eexists|right]. by eapply some_thread_moves.
Qed.

(** Two threads, of which the second waits while the first is inside, and a third
    in the exercise that finds everything made. *)
Lemma initialisation_once_witness :
  (∃ c, reachable (start BookMain []) c ∧ initialised_once c ∧
     c.(wld).(printed) = ["Called init_func()" +:+ nl; "First thread returned" +:+ nl;
                          "Second thread returned" +:+ nl] ∧ c.(ended) = Some (Exited EXIT_SUCCESS)) ∧
  inevitably (λ c, is_Some c.(ended) ∧ initialised_once c) (start (TestMain ["t"; "/usr/lib"; "a//b"]) [0; 0; 11]).
Proof.
  split.
  - destruct (run_schedule_view (λ c, (c.(wld).(printed), c.(ended)))
      ([0; 0; 0; 1; 1; 1; 2] ++ replicate 7 1 ++ [0; 0] ++ replicate 6 2 ++ replicate 3 0)%nat
      (start BookMain []) (["Called init_func()" +:+ nl; "First thread returned" +:+ nl;
        "Second thread returned" +:+ nl], Some (Exited EXIT_SUCCESS))) as (c & Hr & [= Hp He]);
      [vm_compute; reflexivity|].
    exists c. split_and!; [exact Hr| |exact Hp|exact He]. by apply (initialisation_once BookMain []).
  - by apply (initialisation_once (TestMain ["t"; "/usr/lib"; "a//b"]) [0; 0; 11]).
Defined.

(** The book's program tests for the result -1, which these calls do not give: where
    taking the lock fails it goes on without it, and two threads run the function. *)
Example lock_failure_unnoticed :
  ∃ c, reachable (start BookMain [0; 0; 11; 11]) c ∧ (c.(wld).(ctl) First).(inits) = 2%nat.
Proof.
  apply (run_schedule_view (λ c, (c.(wld).(ctl) First).(inits))
    ([0; 0; 0; 1; 1; 1; 2; 2; 2; 1; 2])%nat). vm_compute. reflexivity.
Qed.

(** A run of the exercise's program on two paths. *)
Example exr3101_test_run :
  ∃ c, reachable (start (TestMain ["t"; "/usr/lib"; "a//b"]) []) c ∧
    c.(wld).(printed) = [path_line "/usr/lib" (chars "/usr") (chars "lib"); path_line "a//b" (chars "a/") (chars "b")] ∧
    c.(ended) = Some (Exited EXIT_SUCCESS).
Proof.
  destruct (run_schedule_view (λ c, (c.(wld).(printed), c.(ended)))
    (replicate 7 0 ++ replicate 19 1 ++ [0; 0] ++ replicate 15 2 ++ replicate 3 0)%nat
    (start (TestMain ["t"; "/usr/lib"; "a//b"]) [])
    ([path_line "/usr/lib" (chars "/usr") (chars "lib"); path_line "a//b" (chars "a/") (chars "b")],
     Some (Exited EXIT_SUCCESS))) as (c & Hr & [= Hp He]); [vm_compute; reflexivity|]. by exists c.
Qed.
