(* ===== verification/ShmTransfer.v ===== *)
(** A stream copied through shared memory by two processes.

    [svshm/svshm_xfr_writer.c], [svshm_xfr_reader.c] and [svshm_xfr.h]: the two
    programs as members of a pool ([Conc]), each with its own list of what the
    calls that may fail are going to do.  The functions of
    [svsem/binary_sems.c] appear here as the actions they make; [BinarySems] has
    them as sequential code.

    The main theorem: every run of the pair, in any order of the processes'
    steps and with any interruptions of the semaphore calls, ends with the
    reader having written exactly the bytes the writer read, and both programs
    having exited successfully, unless one of them reports a failed call. *)
From stdpp Require Import relations.
From S2P Require Import Prelude CLib Conc.
Local Open Scope Z_scope.

Local Abbreviation bytes := (list ascii).

Definition WRITE_SEM : Z := 0.
Definition READ_SEM : Z := 1.
Definition BUF_SIZE : Z := 1024.
Definition EIDRM : Z := 43.
Definition EIO : Z := 5.

(** ** The programs *)

(** The labels are the points a process starts at or loops to: the heads of the
    two [for] loops and the writer's last [reserveSem], which is retried when it
    is interrupted. *)
Inductive label :=
| Writer | WFor (xfrs bytes : Z) | WLast (xfrs bytes : Z)
| Reader | RFor (xfrs bytes : Z).

Inductive action :=
| ASemget (create : bool) | AShmget (create : bool) | AShmat | AShmdt
| ASetval (sem v : Z) | ASemop (sem delta : Z) | ASemRm | AShmRm
| ARead | ASetCnt (v : Z) | AGetCnt | AWrite (n : Z)
| AEprint (t : string).

(** What both processes see: the two semaphores, the segment ([cnt] and [buf]),
    standard input as the blocks its [read]s are going to give, standard output;
    and of each process its messages and the statuses of its calls: 0 for
    success, [e > 0] for failure with that error.  [shorts] tells by how many
    bytes each [write] that does not fail is going to fall short. *)
Record shm := Shm {
  wsem : Z; rsem : Z; sem_ex : bool; shm_ex : bool;
  cnt : Z; buf : bytes;
  input : list bytes; out : bytes;
  shorts : list Z;
  statuses : bool → list Z; said : bool → string
}.

Definition upd {A} (f : bool → A) (b : bool) (a : A) (x : bool) : A :=
  if Bool.eqb x b then a else f x.

Definition set_sems a b s := Shm a b s.(sem_ex) s.(shm_ex) s.(cnt) s.(buf) s.(input) s.(out)
  s.(shorts) s.(statuses) s.(said).
Definition set_exist a b s := Shm s.(wsem) s.(rsem) a b s.(cnt) s.(buf) s.(input) s.(out)
  s.(shorts) s.(statuses) s.(said).
Definition set_cnt c s := Shm s.(wsem) s.(rsem) s.(sem_ex) s.(shm_ex) c s.(buf) s.(input) s.(out)
  s.(shorts) s.(statuses) s.(said).
Definition set_buf b i s := Shm s.(wsem) s.(rsem) s.(sem_ex) s.(shm_ex) s.(cnt) b i s.(out)
  s.(shorts) s.(statuses) s.(said).
Definition set_out o d s := Shm s.(wsem) s.(rsem) s.(sem_ex) s.(shm_ex) s.(cnt) s.(buf)
  s.(input) o d s.(statuses) s.(said).
Definition set_proc st m s := Shm s.(wsem) s.(rsem) s.(sem_ex) s.(shm_ex) s.(cnt) s.(buf)
  s.(input) s.(out) s.(shorts) st m.

(** Who is acting: the writer is member 0 of the pool, the reader member 1. *)
Definition is_writer (i : nat) : bool := (i =? 0)%nat.

(** The next status of the process, and the state with it used up. *)
Definition pop (p : bool) (s : shm) : Z * shm :=
  match s.(statuses) p with
  | [] => (0, s)
  | z :: l => (z, set_proc (upd s.(statuses) p l) s.(said) s)
  end.

(** A call that fails with error [e], which in C gives -1 and puts [e] in [errno],
    has the result [- e]. *)
Definition fails (e : Z) (s : shm) : outcome label shm := Val (- e) s.

(** A call that does [f] unless its status makes it fail. *)
Definition try_call (p : bool) (f : shm → outcome label shm) (s : shm) : outcome label shm :=
  let '(z, s') := pop p s in if z =? 0 then f s' else fails z s'.

Definition sem_value (sem : Z) (s : shm) : Z := if sem =? WRITE_SEM then s.(wsem) else s.(rsem).
Definition set_sem (sem v : Z) (s : shm) : shm :=
  if sem =? WRITE_SEM then set_sems v s.(rsem) s else set_sems s.(wsem) v s.

(** [semop] with a single operation of a non-zero amount: it waits until the
    value would not become negative, and a signal may interrupt it meanwhile. *)
Definition sys_semop (p : bool) (sem delta : Z) (s : shm) : outcome label shm :=
  let '(z, s') := pop p s in
  if z =? 0 then
    if negb s.(sem_ex) then fails EIDRM s'
    else if sem_value sem s + delta <? 0 then Blocked
    else Val 0 (set_sem sem (sem_value sem s + delta) s')
  else fails z s'.

Definition do_action (i : nat) (_ : list bool) (a : action) (s : shm) : outcome label shm :=
  let p := is_writer i in
  match a with
  | ASemget create => try_call p (λ s,
      if create then Val 0 (set_exist true s.(shm_ex) s)
      else if s.(sem_ex) then Val 0 s else fails ENOENT s) s
  | AShmget create => try_call p (λ s,
      if create then Val 0 (set_exist s.(sem_ex) true s)
      else if s.(shm_ex) then Val 0 s else fails ENOENT s) s
  | AShmat | AShmdt => try_call p (λ s, Val 0 s) s
  | ASetval sem v => try_call p (λ s, Val 0 (set_sem sem v s)) s
  | ASemop sem d => sys_semop p sem d s
  | ASemRm => try_call p (λ s, Val 0 (set_exist false s.(shm_ex) s)) s
  | AShmRm => try_call p (λ s, Val 0 (set_exist s.(sem_ex) false s)) s
  | ARead => try_call p (λ s,
      match s.(input) with
      | [] => Val 0 s
      | bs :: rest =>
          Val (Z.of_nat (length bs)) (set_buf (bs ++ drop (length bs) s.(buf)) rest s)
      end) s
  | ASetCnt v => Val 0 (set_cnt v s)
  | AGetCnt => Val s.(cnt) s
  | AWrite n => try_call p (λ s,
      let k := Z.max 0 (n - hd 0 s.(shorts)) in
      Val k (set_out (s.(out) ++ take (Z.to_nat k) s.(buf)) (tl s.(shorts)) s)) s
  | AEprint t => Val 0 (set_proc s.(statuses) (upd s.(said) p (s.(said) p +:+ t)) s)
  end.

Local Abbreviation prog := (code action label).

(** [if (call == -1) systmErr(msg);] *)
Definition checked (msg : string) (a : action) : prog unit :=
  r ← act a; if r <? 0 then End (Failed (- r) msg) else mret tt.

(** *** svsem/binary_sems.c *)

Definition initSemAvailable (sem : Z) : action := ASetval sem 1.
Definition initSemInUse (sem : Z) : action := ASetval sem 0.

(** [reserveSem] with the check its callers make.  [retry] is the point the
    retrying loop comes back to: the call itself. *)
Definition reserveSem (sem : Z) (retry : label) : prog unit :=
  r ← act (ASemop sem (-1));
  if r <? 0 then
    if - r =? EINTR then Goto retry else End (Failed (- r) "reserveSem")
  else mret tt.

Definition releaseSem (sem : Z) : action := ASemop sem 1.

(** *** svshm/svshm_xfr_writer.c *)

(** [x += y] in type [int] *)
Definition add_int {A} (x y : Z) (k : Z → prog A) : prog A :=
  if INT_MAX <? x + y then End Undefined else k (x + y).

Definition writer_start : prog unit :=
  _ ← checked "semget" (ASemget true);
  _ ← checked "initSemAvailable" (initSemAvailable WRITE_SEM);
  _ ← checked "initSemInUse" (initSemInUse READ_SEM);
  _ ← checked "shmget" (AShmget true);
  _ ← checked "shmat" AShmat;
  Goto (WFor 0 0).

Definition writer_for (xfrs bytes : Z) : prog unit :=
  _ ← reserveSem WRITE_SEM (WFor xfrs bytes);
  n ← act ARead;
  _ ← act (ASetCnt (if n <? 0 then -1 else n));
  c ← act AGetCnt;
  if c =? -1 then End (Failed (- n) "read")
  else
    _ ← checked "releaseSem" (releaseSem READ_SEM);
    c ← act AGetCnt;
    if c =? 0 then Goto (WLast xfrs bytes)
    else
      c ← act AGetCnt;
      add_int xfrs 1 (λ xfrs, add_int bytes c (λ bytes, Goto (WFor xfrs bytes))).

Definition sent_line (bytes xfrs : Z) : string :=
  "Sent " +:+ fmt_d bytes +:+ " bytes (" +:+ fmt_d xfrs +:+ " xfrs)" +:+ nl.

Definition writer_last (xfrs bytes : Z) : prog unit :=
  _ ← reserveSem WRITE_SEM (WLast xfrs bytes);
  _ ← checked "semctl" ASemRm;
  _ ← checked "shmdt" AShmdt;
  _ ← checked "shmctl" AShmRm;
  _ ← act (AEprint (sent_line bytes xfrs));
  End (Exited EXIT_SUCCESS).

(** *** svshm/svshm_xfr_reader.c *)

Definition reader_start : prog unit :=
  _ ← checked "semget" (ASemget false);
  _ ← checked "shmget" (AShmget false);
  _ ← checked "shmat" AShmat;
  Goto (RFor 0 0).

Definition received_line (bytes xfrs : Z) : string :=
  "Received " +:+ fmt_d bytes +:+ " bytes (" +:+ fmt_d xfrs +:+ " xfrs)" +:+ nl.

Definition reader_last (xfrs bytes : Z) : prog unit :=
  _ ← checked "shmdt" AShmdt;
  _ ← checked "releaseSem" (releaseSem WRITE_SEM);
  _ ← act (AEprint (received_line bytes xfrs));
  End (Exited EXIT_SUCCESS).

Definition reader_for (xfrs bytes : Z) : prog unit :=
  _ ← reserveSem READ_SEM (RFor xfrs bytes);
  c ← act AGetCnt;
  if c =? 0 then reader_last xfrs bytes
  else
    c ← act AGetCnt;
    add_int bytes c (λ bytes,
      n ← act AGetCnt;
      w ← act (AWrite n);
      c ← act AGetCnt;
      if negb (w =? c) then End (Failed 0 "partial/failed write")
      else
        _ ← checked "releaseSem" (releaseSem WRITE_SEM);
        add_int xfrs 1 (λ xfrs, Goto (RFor xfrs bytes))).

#[global] Instance xfr_sys : Sys action label shm := {|
  perform := do_action;
  body l := match l with
            | Writer => writer_start
            | WFor x b => writer_for x b
            | WLast x b => writer_last x b
            | Reader => reader_start
            | RFor x b => reader_for x b
            end;
  one_process := false
|}.

(** Both processes about to start, and no IPC objects. *)
Definition xfr_start (blocks : list bytes) (zeros : bytes) (short : list Z)
    (st : bool → list Z) : config action label shm :=
  Config [Goto Writer; Goto Reader]
    (Shm 0 0 false false 0 zeros blocks [] short st (λ _, "")) None.

(** ** Control points *)

Section transfer.
Variable blocks : list bytes.
Variable st0 : bool → list Z.
Variable short0 : list Z.
Hypothesis Hblocks : Forall (λ b, b ≠ [] ∧ (length b <= 1024)%nat) blocks.
Hypothesis Hsize : Z.of_nat (length (concat blocks)) <= INT_MAX.

Local Abbreviation N := (length blocks).

(** The [i]-th block read, empty from the end of the input on, and the number of
    bytes in the blocks before it. *)
Definition block (i : nat) : bytes := default [] (blocks !! i).
Definition size (i : nat) : Z := Z.of_nat (length (block i)).
Definition before_block (i : nat) : Z := Z.of_nat (length (concat (take i blocks))).

Inductive wpc :=
| WStart | WSemget | WSet1 | WSet0 | WShmget | WShmat
| WHead (k : nat) | WRes (k : nat) | WRead (k : nat)
| WSetCnt (k : nat) (n : Z) | WTestErr (k : nat) (n : Z)
| WRel (k : nat) | WTest (k : nat) | WAdd (k : nat)
| WLHead | WLRes | WRm | WDt | WShmRm | WPrint | WExit.

Definition w_add x b : prog unit :=
  c ← act AGetCnt;
  add_int x 1 (λ x, add_int b c (λ b, Goto (WFor x b))).
Definition w_test x b : prog unit :=
  c ← act AGetCnt; if c =? 0 then Goto (WLast x b) else w_add x b.
Definition w_rel x b : prog unit :=
  _ ← checked "releaseSem" (releaseSem READ_SEM); w_test x b.
Definition w_test_err x b n : prog unit :=
  c ← act AGetCnt; if c =? -1 then End (Failed (- n) "read") else w_rel x b.

Definition w_print x b : prog unit :=
  _ ← act (AEprint (sent_line b x)); End (Exited EXIT_SUCCESS).
Definition w_shmrm x b : prog unit := _ ← checked "shmctl" AShmRm; w_print x b.
Definition w_dt x b : prog unit := _ ← checked "shmdt" AShmdt; w_shmrm x b.
Definition w_rm x b : prog unit := _ ← checked "semctl" ASemRm; w_dt x b.

Definition wcode (p : wpc) : prog unit :=
  let at_k (k : nat) (f : Z → Z → prog unit) := f (Z.of_nat k) (before_block k) in
  match p with
  | WStart => Goto Writer
  | WSemget => writer_start
  | WSet1 => _ ← checked "initSemAvailable" (initSemAvailable WRITE_SEM);
             _ ← checked "initSemInUse" (initSemInUse READ_SEM);
             _ ← checked "shmget" (AShmget true); _ ← checked "shmat" AShmat; Goto (WFor 0 0)
  | WSet0 => _ ← checked "initSemInUse" (initSemInUse READ_SEM);
             _ ← checked "shmget" (AShmget true); _ ← checked "shmat" AShmat; Goto (WFor 0 0)
  | WShmget => _ ← checked "shmget" (AShmget true); _ ← checked "shmat" AShmat; Goto (WFor 0 0)
  | WShmat => _ ← checked "shmat" AShmat; Goto (WFor 0 0)
  | WHead k => at_k k (λ x b, Goto (WFor x b))
  | WRes k => at_k k writer_for
  | WRead k => at_k k (λ x b, n ← act ARead; _ ← act (ASetCnt (if n <? 0 then -1 else n));
                              w_test_err x b n)
  | WSetCnt k n => at_k k (λ x b, _ ← act (ASetCnt (if n <? 0 then -1 else n)); w_test_err x b n)
  | WTestErr k n => at_k k (λ x b, w_test_err x b n)
  | WRel k => at_k k w_rel
  | WTest k => at_k k w_test
  | WAdd k => at_k k w_add
  | WLHead => at_k N (λ x b, Goto (WLast x b))
  | WLRes => at_k N writer_last
  | WRm => at_k N w_rm
  | WDt => at_k N w_dt
  | WShmRm => at_k N w_shmrm
  | WPrint => at_k N w_print
  | WExit => End (Exited EXIT_SUCCESS)
  end.

Inductive rpc :=
| RStart | RSemget | RShmget | RShmat
| RHead (m : nat) | RRes (m : nat) | RTest (m : nat) | RAdd (m : nat) | RLen (m : nat)
| RWrite (m : nat) | RCmp (m : nat) (w : Z) | RRel (m : nat)
| RDt | RLRel | RPrint | RExit.

Definition r_rel x b : prog unit :=
  _ ← checked "releaseSem" (releaseSem WRITE_SEM); add_int x 1 (λ x, Goto (RFor x b)).
Definition r_cmp x b w : prog unit :=
  c ← act AGetCnt;
  if negb (w =? c) then End (Failed 0 "partial/failed write") else r_rel x b.
Definition r_len x b : prog unit := n ← act AGetCnt; w ← act (AWrite n); r_cmp x b w.
Definition r_add x b : prog unit := c ← act AGetCnt; add_int b c (λ b, r_len x b).
Definition r_print x b : prog unit :=
  _ ← act (AEprint (received_line b x)); End (Exited EXIT_SUCCESS).
Definition r_lrel x b : prog unit :=
  _ ← checked "releaseSem" (releaseSem WRITE_SEM); r_print x b.

Definition rcode (p : rpc) : prog unit :=
  let at_m (m : nat) (f : Z → Z → prog unit) := f (Z.of_nat m) (before_block m) in
  let in_m (m : nat) (f : Z → Z → prog unit) := f (Z.of_nat m) (before_block (S m)) in
  match p with
  | RStart => Goto Reader
  | RSemget => reader_start
  | RShmget => _ ← checked "shmget" (AShmget false); _ ← checked "shmat" AShmat; Goto (RFor 0 0)
  | RShmat => _ ← checked "shmat" AShmat; Goto (RFor 0 0)
  | RHead m => at_m m (λ x b, Goto (RFor x b))
  | RRes m => at_m m reader_for
  | RTest m => at_m m (λ x b, c ← act AGetCnt; if c =? 0 then reader_last x b else r_add x b)
  | RAdd m => at_m m r_add
  | RLen m => in_m m r_len
  | RWrite m => in_m m (λ x b, w ← act (AWrite (size m)); r_cmp x b w)
  | RCmp m w => in_m m (λ x b, r_cmp x b w)
  | RRel m => in_m m r_rel
  | RDt => at_m N reader_last
  | RLRel => at_m N r_lrel
  | RPrint => at_m N r_print
  | RExit => End (Exited EXIT_SUCCESS)
  end.

(** *** Counts along the two programs

    How often each process has taken and given up each semaphore, and read or
    written a block, at each of its control points. *)

Definition wres (p : wpc) : Z :=
  match p with
  | WHead k | WRes k => Z.of_nat k
  | WRead k | WSetCnt k _ | WTestErr k _ | WRel k | WTest k | WAdd k => Z.of_nat k + 1
  | WLHead | WLRes => Z.of_nat N + 1
  | WRm | WDt | WShmRm | WPrint | WExit => Z.of_nat N + 2
  | _ => 0
  end.
Definition wrel (p : wpc) : Z :=
  match p with
  | WHead k | WRes k | WRead k | WSetCnt k _ | WTestErr k _ | WRel k => Z.of_nat k
  | WTest k | WAdd k => Z.of_nat k + 1
  | WLHead | WLRes | WRm | WDt | WShmRm | WPrint | WExit => Z.of_nat N + 1
  | _ => 0
  end.
(** blocks moved from standard input to the segment, and lengths stored *)
Definition wreads (p : wpc) : nat :=
  match p with
  | WHead k | WRes k | WRead k => k
  | WSetCnt k n | WTestErr k n => if n <? 0 then k else S k
  | WRel k | WTest k | WAdd k => S k
  | WLHead | WLRes | WRm | WDt | WShmRm | WPrint | WExit => S N
  | _ => 0
  end.
Definition wcnt (p : wpc) : Z :=
  let last k := match k with O => 0 | S k => size k end in
  match p with
  | WHead k | WRes k | WRead k | WSetCnt k _ => last k
  | WTestErr k n => if n <? 0 then -1 else n
  | WRel k | WTest k | WAdd k => size k
  | _ => 0
  end.
Definition rres (p : rpc) : Z :=
  match p with
  | RHead m | RRes m => Z.of_nat m
  | RTest m | RAdd m | RLen m | RWrite m | RCmp m _ | RRel m => Z.of_nat m + 1
  | RDt | RLRel | RPrint | RExit => Z.of_nat N + 1
  | _ => 0
  end.
Definition rrel (p : rpc) : Z :=
  match p with
  | RHead m | RRes m | RTest m | RAdd m | RLen m | RWrite m | RCmp m _ | RRel m => Z.of_nat m
  | RDt | RLRel => Z.of_nat N
  | RPrint | RExit => Z.of_nat N + 1
  | _ => 0
  end.
Definition rwrites (p : rpc) : nat :=
  match p with
  | RHead m | RRes m | RTest m | RAdd m | RLen m | RWrite m => m
  | RCmp m _ | RRel m => S m
  | RDt | RLRel | RPrint | RExit => N
  | _ => 0
  end.

(** *** The invariant *)

Definition set_up (p : wpc) : bool := match p with WStart | WSemget => false | _ => true end.
Definition removed (p : wpc) : bool :=
  match p with WDt | WShmRm | WPrint | WExit => true | _ => false end.
Definition initial (p : wpc) : Z := match p with WStart | WSemget | WSet1 => 0 | _ => 1 end.
Definition attached (p : rpc) : bool := match p with RStart | RSemget => false | _ => true end.

(** A failed or successful [read] of block [k] gave [n]. *)
Definition read_gave (k : nat) (n : Z) : Prop :=
  if n <? 0 then - n ∈ st0 true else n = size k.

Definition wpc_ok (p : wpc) : Prop :=
  match p with
  | WHead k | WRes k | WRead k | WRel k | WTest k => (k <= N)%nat
  | WSetCnt k n | WTestErr k n => (k <= N)%nat ∧ read_gave k n
  | WAdd k => (k < N)%nat
  | _ => True
  end.
(** Some write was to fall short, or some call of the reader was to fail. *)
Definition write_excuse : Prop :=
  (∃ d, d ∈ short0 ∧ d ≠ 0) ∨ (∃ z, z ∈ st0 false ∧ z ≠ 0).
Definition rpc_ok (p : rpc) : Prop :=
  match p with
  | RHead m | RRes m | RTest m => (m <= N)%nat
  | RAdd m | RLen m | RWrite m | RRel m => (m < N)%nat
  | RCmp m w => (m < N)%nat ∧ (w = size m ∨ write_excuse)
  | _ => True
  end.
(** The last write was complete. *)
Definition complete (p : rpc) : bool :=
  match p with RCmp m w => w =? size m | _ => true end.

Record winv (w : wpc) (s : shm) : Prop := {
  w_ok : wpc_ok w;
  w_cnt : s.(cnt) = wcnt w;
  w_buf k : wreads w = S k → take (length (block k)) s.(buf) = block k;
  w_input : s.(input) = drop (wreads w) blocks;
  w_said : s.(said) true =
    match w with WExit => sent_line (before_block N) (Z.of_nat N) | _ => "" end
}.
Record rinv (r : rpc) (s : shm) : Prop := {
  r_ok : rpc_ok r;
  r_shorts : s.(shorts) ⊆ short0;
  r_out : complete r = true → s.(out) = concat (take (rwrites r) blocks);
  r_said : s.(said) false =
    match r with RExit => received_line (before_block N) (Z.of_nat N) | _ => "" end
}.
Record linv (w : wpc) (r : rpc) (s : shm) : Prop := {
  l_wsem : s.(wsem) = initial w + rrel r - wres w;
  l_rsem : s.(rsem) = wrel w - rres r;
  l_pos : 0 <= s.(wsem) ∧ 0 <= s.(rsem);
  l_sem : s.(sem_ex) = set_up w && negb (removed w);
  l_att : attached r = true → set_up w = true
}.
Definition status_ok (s : shm) : Prop :=
  ∀ b, s.(statuses) b ⊆ st0 b.

Definition conf (w : wpc) (r : rpc) (s : shm) := Config [wcode w; rcode r] s None.

(** A process reported a failed call: of status [e], or of an object that the
    reader found missing, or a write that was not complete. *)
Definition failed (c : config action label shm) : Prop :=
  ∃ i e msg, c.(pool) !! i = Some (End (Failed e msg)) ∧
    (e ∈ st0 (is_writer i) ∧ e ≠ 0 ∨
     i = 1%nat ∧ e = ENOENT ∧ (msg = "semget" ∨ msg = "shmget") ∨
     i = 1%nat ∧ e = 0 ∧ msg = "partial/failed write" ∧ write_excuse).

Definition wrank (p : wpc) : nat :=
  match p with
  | WStart => 9 * N + 24 | WSemget => 9 * N + 23 | WSet1 => 9 * N + 22
  | WSet0 => 9 * N + 21 | WShmget => 9 * N + 20 | WShmat => 9 * N + 19
  | WHead k => 9 * (N - k) + 18 | WRes k => 9 * (N - k) + 17
  | WRead k => 9 * (N - k) + 16 | WSetCnt k _ => 9 * (N - k) + 15
  | WTestErr k _ => 9 * (N - k) + 14 | WRel k => 9 * (N - k) + 13
  | WTest k => 9 * (N - k) + 12 | WAdd k => 9 * (N - k) + 11
  | WLHead => 9 | WLRes => 8 | WRm => 7 | WDt => 6 | WShmRm => 5 | WPrint => 4 | WExit => 0
  end.
Definition rrank (p : rpc) : nat :=
  match p with
  | RStart => 9 * N + 24 | RSemget => 9 * N + 23 | RShmget => 9 * N + 22 | RShmat => 9 * N + 21
  | RHead m => 9 * (N - m) + 19 | RRes m => 9 * (N - m) + 18 | RTest m => 9 * (N - m) + 17
  | RAdd m => 9 * (N - m) + 16 | RLen m => 9 * (N - m) + 15 | RWrite m => 9 * (N - m) + 14
  | RCmp m _ => 9 * (N - m) + 13 | RRel m => 9 * (N - m) + 12
  | RDt => 6 | RLRel => 5 | RPrint => 4 | RExit => 0
  end.
Definition left_over (s : shm) : nat :=
  length (s.(statuses) true) + length (s.(statuses) false).
Definition rank (w : wpc) (r : rpc) (s : shm) : nat := wrank w + rrank r + 2 * left_over s.

(** *** Blocks *)

Lemma before_block_S k : before_block (S k) = before_block k + size k.
Proof.
  unfold before_block, size, block. destruct (blocks !! k) as [b|] eqn:E; simpl.
  - rewrite (take_S_r _ _ _ E), concat_app, length_app. simpl. rewrite app_nil_r. lia.
  - apply lookup_ge_None in E. rewrite !take_ge by lia. lia.
Qed.

Lemma concat_take_S k : concat (take (S k) blocks) = concat (take k blocks) ++ block k.
Proof.
  unfold block. destruct (blocks !! k) as [b|] eqn:E; simpl.
  - rewrite (take_S_r _ _ _ E), concat_app. simpl. by rewrite app_nil_r.
  - apply lookup_ge_None in E. rewrite !take_ge by lia. by rewrite app_nil_r.
Qed.

Lemma before_block_le k : before_block k <= INT_MAX.
Proof.
  etransitivity; [|exact Hsize]. unfold before_block.
  rewrite <- (take_drop k blocks) at 2. rewrite concat_app, length_app. lia.
Qed.

Lemma size_pos k : (k < N)%nat → 0 < size k.
Proof.
  intros Hk. destruct (lookup_lt_is_Some_2 _ _ Hk) as [b Hb]. unfold size, block. rewrite Hb.
  destruct (Forall_lookup_1 _ _ _ _ Hblocks Hb) as [Hne _]. simpl.
  destruct b; [done|]. simpl. lia.
Qed.

Lemma size_nonneg k : 0 <= size k.
Proof. unfold size. lia. Qed.

Lemma size_end : size N = 0.
Proof. unfold size, block. by rewrite lookup_ge_None_2. Qed.

Lemma size_zero k : (k <= N)%nat → size k = 0 → k = N.
Proof.
  intros Hk Hz. destruct (decide (k = N)); [done|]. pose proof (size_pos k). lia.
Qed.

Lemma blocks_le : Z.of_nat N <= INT_MAX.
Proof.
  etransitivity; [|exact Hsize]. apply inj_le.
  enough (∀ l, Forall (λ b : bytes, b ≠ [] ∧ (length b <= 1024)%nat) l →
            (length l <= length (concat l))%nat) by auto.
  induction 1 as [|b l [Hb _] _ IH]; simpl; [lia|]. rewrite length_app.
  destruct b; [done|]. simpl. lia.
Qed.

(** *** Steps of a known form *)

Hypothesis Hst : ∀ b, Forall (Z.le 0) (st0 b).

Definition smaller (st' : bool → list Z) (s : shm) : Prop :=
  (∀ b, st' b ⊆ st0 b) ∧ (length (st' true) + length (st' false) <= left_over s)%nat.

Lemma pop_spec p s :
  status_ok s → ∃ z st', pop p s = (z, set_proc st' s.(said) s) ∧ smaller st' s ∧
    (z ≠ 0 → z ∈ st0 p ∧ 0 < z ∧ (length (st' true) + length (st' false) < left_over s)%nat).
Proof.
  intros Hok. unfold pop, smaller, left_over. destruct (statuses s p) as [|z l] eqn:E.
  - exists 0, (statuses s). split; [by destruct s|done].
  - assert (Hz : z ∈ st0 p) by (apply (Hok p); rewrite E; by left).
    exists z, (upd (statuses s) p l). split; [done|]. split.
    + split.
      * intros b x Hx. unfold upd in Hx. destruct (Bool.eqb_spec b p) as [->|]; [|by apply Hok].
        apply (Hok p). rewrite E. by right.
      * unfold upd. destruct p; simpl; rewrite E; simpl; lia.
    + intros Hne. split; [done|]. split.
      * pose proof (proj1 (Forall_forall _ _) (Hst p) z Hz). lia.
      * unfold upd. destruct p; simpl; rewrite E; simpl; lia.
Qed.

Lemma failed_at i e msg p s :
  (i < length p)%nat → e ∈ st0 (is_writer i) → 0 < e →
  failed (Config (<[i := End (Failed e msg)]> p) s None).
Proof.
  intros Hi He Hpos. exists i, e, msg. cbn. rewrite list_lookup_insert_eq by done.
  split; [done|]. left. split; [done|lia].
Qed.

(** A call that its status may make fail. *)
Lemma step_try i p s a g k c' :
  status_ok s → p !! i = Some (Act a k) →
  (∀ ret s, do_action i ret a s = try_call (is_writer i) g s) →
  sched_step i (Config p s None) = Some c' →
  ∃ st', smaller st' s ∧
    ((∃ r s2, g (set_proc st' s.(said) s) = Val r s2 ∧ c' = Config (<[i := k r]> p) s2 None) ∨
     (∃ z, z ∈ st0 (is_writer i) ∧ 0 < z ∧
       c' = Config (<[i := k (- z)]> p) (set_proc st' s.(said) s) None) ∨
     (∃ l s2, g (set_proc st' s.(said) s) = Spawn l s2)).
Proof.
  intros Hok Hp Ha. unfold sched_step. cbn [ended pool wld]. rewrite Hp.
  cbn [perform xfr_sys]. rewrite Ha. unfold try_call.
  destruct (pop_spec (is_writer i) s Hok) as (z & st' & -> & Hs & Hz).
  intros Hc. exists st'. split; [done|]. destruct (Z.eqb_spec z 0) as [->|Hne].
  - destruct (g _) as [r s2|l s2|]; [|by eauto|done]. left. injection Hc as <-. eauto.
  - right. left. injection Hc as <-. destruct (Hz Hne) as (? & ? & _). eauto.
Qed.

Lemma step_semop i p s sem d k c' :
  status_ok s → p !! i = Some (Act (ASemop sem d) k) → s.(sem_ex) = true →
  sched_step i (Config p s None) = Some c' →
  ∃ st', smaller st' s ∧
    ((0 <= sem_value sem s + d ∧
      c' = Config (<[i := k 0]> p) (set_sem sem (sem_value sem s + d) (set_proc st' s.(said) s)) None) ∨
     (∃ z, z ∈ st0 (is_writer i) ∧ 0 < z ∧
       (length (st' true) + length (st' false) < left_over s)%nat ∧
       c' = Config (<[i := k (- z)]> p) (set_proc st' s.(said) s) None)).
Proof.
  intros Hok Hp Hex. unfold sched_step. cbn [ended pool wld]. rewrite Hp.
  cbn [perform xfr_sys do_action]. unfold sys_semop.
  destruct (pop_spec (is_writer i) s Hok) as (z & st' & -> & Hs & Hz).
  rewrite Hex. intros Hc. exists st'. split; [done|]. destruct (Z.eqb_spec z 0) as [->|Hne].
  - left. cbn [negb] in Hc. destruct (Z.ltb_spec (sem_value sem s + d) 0); [done|].
    injection Hc as <-. done.
  - right. injection Hc as <-. destruct (Hz Hne) as (? & ? & ?). eauto 6.
Qed.

Record inv (w : wpc) (r : rpc) (s : shm) : Prop := {
  i_w : winv w s; i_r : rinv r s; i_l : linv w r s; i_st : status_ok s
}.

(** A step leads to control points with the invariant and a lower rank, or to a
    reported failure. *)
Definition next (w : wpc) (r : rpc) (s : shm) (c' : config action label shm) : Prop :=
  (∃ w' r' s', c' = conf w' r' s' ∧ inv w' r' s' ∧ (rank w' r' s' < rank w r s)%nat) ∨
  failed c'.

(** The invariant does not depend on the statuses still to come. *)
Lemma inv_statuses w r s st' :
  inv w r s → smaller st' s → inv w r (set_proc st' s.(said) s).
Proof. intros [[] [] [] Hs] [H1 H2]. split; [by split..|]. exact H1. Qed.

Lemma next_lower w r s w' r' s' :
  inv w' r' s' → smaller s'.(statuses) s → (wrank w' + rrank r' < wrank w + rrank r)%nat →
  next w r s (conf w' r' s').
Proof.
  intros Hi [_ Hs] Hr. left. exists w', r', s'. split_and!; [done..|].
  unfold rank. unfold left_over at 1. lia.
Qed.

Lemma next_same w r s w' r' s' :
  inv w' r' s' → s'.(statuses) = s.(statuses) → (wrank w' + rrank r' < wrank w + rrank r)%nat →
  next w r s (conf w' r' s').
Proof. intros Hi Hs Hr. left. exists w', r', s'. split_and!; [done..|]. unfold rank, left_over. rewrite Hs. lia. Qed.

Lemma set_proc_twice st' m s : set_proc st' s.(said) (set_proc m s.(said) s) = set_proc st' s.(said) s.
Proof. done. Qed.

(** The writer makes a checked call with effect [h] and goes on to [w']. *)
Lemma w_try w w' r s msg a h c' :
  inv w r s → wcode w = (_ ← checked msg a; wcode w') →
  (∀ ret s, do_action 0 ret a s = try_call true (λ s, Val 0 (h s)) s) →
  (∀ s, inv w r s → inv w' r (h s)) → (∀ s, (h s).(statuses) = s.(statuses)) →
  (wrank w' < wrank w)%nat →
  sched_step 0 (conf w r s) = Some c' → next w r s c'.
Proof.
  intros Hi Hw Ha Hinv Hst' Hr Hs. unfold conf in Hs. rewrite Hw in Hs.
  edestruct (step_try 0 [(_ ← checked msg a; wcode w'); rcode r] s a (λ s, Val 0 (h s))) as (st' & Hsm & [(x & s2 & Hv & ->)|[(z & Hz & Hpos & ->)|(l & s2 & Hv)]]);
    [apply Hi|reflexivity|exact Ha|exact Hs|..]; [|right|done].
  - injection Hv as <- <-. cbn. apply next_lower; [by apply Hinv, inv_statuses|by rewrite Hst'|lia].
  - cbn. assert (E : (- z <? 0) = true) by (apply Z.ltb_lt; lia). rewrite E. cbn.
    rewrite Z.opp_involutive. by apply (failed_at 0 z msg [Ret tt; rcode r]); simpl; try lia.
Qed.

Lemma r_counts r : 0 <= rrel r ∧ rrel r <= rres r <= rrel r + 1.
Proof. destruct r; simpl; lia. Qed.
Lemma w_counts w : 0 <= wrel w ∧ wrel w <= wres w <= wrel w + 1.
Proof. destruct w; simpl; lia. Qed.

(** Opens the invariant before a step and its parts after it. *)
Ltac fields := destruct_and?; match goal with H : inv _ _ _ |- _ => destruct H as [[] [] [] ?] end;
  split; [split|split|split|]; simpl in *; try done; unfold sem_value; simpl; try done; try lia.
Ltac w_fields r := intros s' Hs'; pose proof (r_counts r); fields.

(** The writer takes the write semaphore at [w], trying again from [w0] when it
    is interrupted. *)
Lemma w_reserve w w0 w' l r s c' :
  inv w r s → wcode w = (_ ← reserveSem WRITE_SEM l; wcode w') → wcode w0 = Goto l →
  s.(sem_ex) = true →
  (∀ s, inv w r s → inv w0 r s) →
  (∀ s, inv w r s → 0 <= s.(wsem) - 1 → inv w' r (set_sem WRITE_SEM (s.(wsem) - 1) s)) →
  (wrank w' < wrank w)%nat → (wrank w0 <= wrank w + 1)%nat →
  sched_step 0 (conf w r s) = Some c' → next w r s c'.
Proof.
  intros Hi Hw Hw0 Hex H0 H' Hr Hr0 Hs. unfold conf in Hs. rewrite Hw in Hs.
  edestruct (step_semop 0 [(_ ← reserveSem WRITE_SEM l; wcode w'); rcode r] s WRITE_SEM (-1))
    as (st' & Hsm & [(Hpos & ->)|(z & Hz & Hpos & Hlt & ->)]);
    [apply Hi|reflexivity|exact Hex|exact Hs|..].
  - cbn. apply next_lower; [|done|lia]. apply (H' (set_proc st' (said s) s)); [by apply inv_statuses|].
    exact Hpos.
  - cbn. assert (E : (- z <? 0) = true) by (apply Z.ltb_lt; lia). rewrite E. cbn.
    rewrite Z.opp_involutive. destruct (Z.eqb_spec z EINTR) as [->|Hne].
    + left. exists w0, r, (set_proc st' (said s) s). split.
      { unfold conf. by rewrite Hw0. }
      split; [by apply H0, inv_statuses|]. unfold rank. unfold left_over at 1. simpl. lia.
    + right. by apply (failed_at 0 z "reserveSem" [Ret tt; rcode r]); simpl; try lia.
Qed.

(** Member [i] releases a semaphore. *)
Lemma step_release i p s sem f c' :
  (i < length p)%nat → status_ok s → p !! i = Some (_ ← checked "releaseSem" (releaseSem sem); f) →
  s.(sem_ex) = true → 0 <= sem_value sem s →
  sched_step i (Config p s None) = Some c' →
  (∃ st', smaller st' s ∧
     c' = Config (<[i := f]> p) (set_sem sem (sem_value sem s + 1) (set_proc st' s.(said) s)) None) ∨
  failed c'.
Proof.
  intros Hlt Hok Hp Hex Hv Hs.
  edestruct (step_semop i p s sem 1) as (st' & Hsm & [(Hpos & ->)|(z & Hz & Hpos & _ & ->)]);
    [done|rewrite Hp; reflexivity|done|exact Hs|..].
  - left. exists st'. by split.
  - right. cbn. assert (E : (- z <? 0) = true) by (apply Z.ltb_lt; lia). rewrite E. cbn.
    rewrite Z.opp_involutive. by apply failed_at.
Qed.

(** The writer's [read] of block [k]. *)
Lemma w_read k r s c' :
  inv (WRead k) r s → sched_step 0 (conf (WRead k) r s) = Some c' → next (WRead k) r s c'.
Proof.
  intros Hi Hs. pose proof (i_w _ _ _ Hi) as Hw.
  edestruct (step_try 0 [wcode (WRead k); rcode r] s ARead)
    as (st' & Hsm & [(x & s2 & Hv & ->)|[(z & Hz & Hpos & ->)|(l & s2 & Hv)]]);
    [apply Hi|reflexivity|intros; reflexivity|exact Hs|..].
  - simpl in Hv. rewrite (w_input _ _ Hw) in Hv. simpl in Hv.
    apply (inv_statuses _ _ _ st') in Hi as Hi'; [|done].
    assert (Hx : x = size k ∧ s2.(statuses) = st' ∧ inv (WSetCnt k (size k)) r s2).
    { pose proof (size_nonneg k) as Hnn.
      assert (Hnn' : (size k <? 0) = false) by (apply Z.ltb_ge; lia).
      destruct (decide (k < N)%nat) as [Hk|Hk].
      - destruct (lookup_lt_is_Some_2 _ _ Hk) as [b Hb]. rewrite (drop_S _ _ _ Hb) in Hv.
        injection Hv as <- <-. assert (Hbk : block k = b) by (unfold block; by rewrite Hb).
        split; [by unfold size; rewrite Hbk|]. split; [done|].
        fields; rewrite ?Hnn'; try done.
        + unfold read_gave. rewrite Hnn'. split; [lia|done].
        + intros k' [= <-]. rewrite Hbk. by rewrite take_app_length.
      - pose proof (w_ok _ _ Hw) as Hle. simpl in Hle. assert (k = N) as -> by lia.
        rewrite drop_ge in Hv by lia. injection Hv as <- <-.
        split; [by rewrite size_end|]. split; [done|]. rewrite size_end in *.
        fields; rewrite ?drop_ge in * by lia; try done.
        + unfold read_gave. simpl. rewrite size_end. by split.
        + intros k' [= <-]. unfold block. by rewrite lookup_ge_None_2. }
    destruct Hx as (-> & Hst2 & Hinv). apply (next_lower _ _ _ (WSetCnt k (size k))); [done|by rewrite Hst2|simpl; lia].
  - apply (next_lower _ _ _ (WSetCnt k (- z))); [|done|simpl; lia].
    apply (inv_statuses _ _ _ st') in Hi as Hi'; [|done].
    assert (E : (- z <? 0) = true) by (apply Z.ltb_lt; lia).
    fields; rewrite ?E; try done. unfold read_gave. rewrite E, Z.opp_involutive. done.
  - simpl in Hv. by destruct (input s).
Qed.

Lemma w_test_err_step k n r s c' :
  inv (WTestErr k n) r s → sched_step 0 (conf (WTestErr k n) r s) = Some c' →
  next (WTestErr k n) r s c'.
Proof.
  intros Hi Hs. pose proof (i_w _ _ _ Hi) as Hw. pose proof (w_ok _ _ Hw) as [Hk Hn].
  unfold read_gave in Hn. cbn -[Z.opp] in Hs. rewrite (w_cnt _ _ Hw) in Hs. cbn -[Z.opp] in Hs.
  injection Hs as <-. destruct (Z.ltb_spec n 0) as [Hneg|Hpos].
  - right. apply (failed_at 0 (- n) "read" [Ret tt; rcode r]); simpl; [lia|done|lia].
  - assert (E : (n =? -1) = false) by (apply Z.eqb_neq; lia). rewrite E.
    apply (next_same _ _ _ (WRel k)); [|done|simpl; lia].
    assert (E' : (n <? 0) = false) by (apply Z.ltb_ge; lia).
    fields; rewrite E' in *; try done. congruence.
Qed.

Lemma w_add_step k r s c' :
  inv (WAdd k) r s → sched_step 0 (conf (WAdd k) r s) = Some c' → next (WAdd k) r s c'.
Proof.
  intros Hi Hs. pose proof (i_w _ _ _ Hi) as Hw. pose proof (w_ok _ _ Hw) as Hk. simpl in Hk.
  pose proof blocks_le. pose proof (before_block_le (S k)) as Hb. rewrite before_block_S in Hb.
  cbn -[Z.add Z.of_nat] in Hs. rewrite (w_cnt _ _ Hw) in Hs. cbn -[Z.add Z.of_nat] in Hs.
  injection Hs as <-. unfold add_int. rewrite !(proj2 (Z.ltb_ge INT_MAX _)) by lia.
  rewrite <- before_block_S. replace (Z.of_nat k + 1) with (Z.of_nat (S k)) by lia.
  apply (next_same _ _ _ (WHead (S k))); [|done|simpl; lia]. fields.
Qed.

Lemma writer_step w r s c' :
  inv w r s → sched_step 0 (conf w r s) = Some c' → next w r s c'.
Proof.
  intros Hi Hs. pose proof (i_w _ _ _ Hi) as Hw. pose proof (i_l _ _ _ Hi) as Hl.
  pose proof (r_counts r) as Hrc. pose proof (w_ok _ _ Hw) as Hk.
  destruct w.
  - injection Hs as <-. apply (next_same WStart r s WSemget); [fields|done|simpl; lia].
  - eapply (w_try _ WSet1 _ _ _ _ (λ s, set_exist true s.(shm_ex) s)); try done; [w_fields r|simpl; lia].
  - eapply (w_try _ WSet0 _ _ _ _ (set_sem WRITE_SEM 1)); try done; [w_fields r|simpl; lia].
  - eapply (w_try _ WShmget _ _ _ _ (set_sem READ_SEM 0)); try done; [w_fields r|simpl; lia].
  - eapply (w_try _ WShmat _ _ _ _ (λ s, set_exist s.(sem_ex) true s)); try done; [w_fields r|simpl; lia].
  - eapply (w_try _ (WHead 0) _ _ _ _ (λ s, s)); try done; [w_fields r|simpl; lia].
  - injection Hs as <-. apply (next_same (WHead k) r s (WRes k)); [fields|done|simpl; lia].
  - eapply (w_reserve _ (WHead k) (WRead k)); try done; [apply Hl|w_fields r..|simpl; lia|simpl; lia].
  - by apply w_read.
  - injection Hs as <-. apply (next_same (WSetCnt k n) r s (WTestErr k n)); [fields|done|simpl; lia].
  - by apply w_test_err_step.
  - destruct (step_release 0 [wcode (WRel k); rcode r] s READ_SEM (wcode (WTest k)) c')
      as [(st' & Hsm & ->)|]; try done; try apply Hi; [simpl; lia|apply Hl..| |by right].
    apply (next_lower _ _ _ (WTest k)); [|done|simpl; lia].
    apply (inv_statuses _ _ _ st') in Hi as Hi'; [|done]. fields.
  - cbn in Hs. rewrite (w_cnt _ _ Hw) in Hs. injection Hs as <-. cbn [wcnt].
    destruct (Z.eqb_spec (size k) 0) as [Hz|Hz].
    + apply size_zero in Hz as ->; [|done].
      apply (next_same _ _ _ WLHead); [|done|simpl; lia]. fields. by rewrite size_end in *.
    + apply (next_same _ _ _ (WAdd k)); [|done|simpl; lia]. fields.
      destruct (decide (k = N)) as [->|]; [by rewrite size_end in Hz|lia].
  - by apply w_add_step.
  - injection Hs as <-. apply (next_same WLHead r s WLRes); [fields|done|simpl; lia].
  - eapply (w_reserve _ WLHead WRm); try done; [apply Hl|w_fields r|w_fields r|simpl; lia].
  - eapply (w_try _ WDt _ _ _ _ (λ s, set_exist false s.(shm_ex) s)); try done; [w_fields r|simpl; lia].
  - eapply (w_try _ WShmRm _ _ _ _ (λ s, s)); try done; [w_fields r|simpl; lia].
  - eapply (w_try _ WPrint _ _ _ _ (λ s, set_exist s.(sem_ex) false s)); try done; [w_fields r|simpl; lia].
  - injection Hs as <-. apply (next_same WPrint r s WExit); [|done|simpl; lia]. fields.
    unfold upd, is_writer. cbn [Nat.eqb Bool.eqb]. by rewrite (w_said _ _ Hw).
  - done.
Qed.

(** *** The reader's steps *)

Lemma r_checked r f w s msg a g c' :
  inv w r s → rcode r = (_ ← checked msg a; f) →
  (∀ ret s, do_action 1 ret a s = try_call false g s) →
  sched_step 1 (conf w r s) = Some c' →
  (∃ st' x s2, smaller st' s ∧ g (set_proc st' s.(said) s) = Val x s2 ∧
     c' = Config [wcode w; if x <? 0 then End (Failed (- x) msg) else f] s2 None) ∨
  (∃ st' l s2, g (set_proc st' s.(said) s) = Spawn l s2) ∨ failed c'.
Proof.
  intros Hi Hr Ha Hs. unfold conf in Hs. rewrite Hr in Hs.
  edestruct (step_try 1 [wcode w; (_ ← checked msg a; f)] s a g)
    as (st' & Hsm & [(x & s2 & Hv & ->)|[(z & Hz & Hpos & ->)|(l & s2 & Hv)]]);
    [apply Hi|reflexivity|exact Ha|exact Hs|..].
  - left. exists st', x, s2. split_and!; [done..|]. cbn. by destruct (x <? 0).
  - right; right. cbn. assert (E : (- z <? 0) = true) by (apply Z.ltb_lt; lia). rewrite E. cbn.
    rewrite Z.opp_involutive. by apply (failed_at 1 z msg [wcode w; Ret tt]); simpl; try lia.
  - right; left. eauto.
Qed.

(** Looking up an IPC object that may not exist yet. *)
Lemma r_lookup r r' w s msg a (ex : shm → bool) c' :
  inv w r s → rcode r = (_ ← checked msg a; rcode r') →
  (∀ ret s, do_action 1 ret a s =
     try_call false (λ s, if ex s then Val 0 s else fails ENOENT s) s) →
  msg = "semget" ∨ msg = "shmget" →
  (∀ s, inv w r s → ex s = true → inv w r' s) → (rrank r' < rrank r)%nat →
  sched_step 1 (conf w r s) = Some c' → next w r s c'.
Proof.
  intros Hi Hr Ha Hmsg Hinv Hrk Hs.
  destruct (r_checked _ _ _ _ _ _ _ _ Hi Hr Ha Hs) as
    [(st' & x & s2 & Hsm & Hv & ->)|[(st' & l & s2 & Hv)|]]; [|by destruct (ex _)|by right].
  destruct (ex _) eqn:Hex; injection Hv as <- <-.
  - cbn. apply (next_lower _ _ _ w r'); [|done|lia]. by apply Hinv; [apply inv_statuses|].
  - right. cbn. exists 1%nat, ENOENT, msg. split; [done|]. right; left. done.
Qed.

Lemma r_try r r' w s msg a c' :
  inv w r s → rcode r = (_ ← checked msg a; rcode r') →
  (∀ ret s, do_action 1 ret a s = try_call false (λ s, Val 0 s) s) →
  (∀ s, inv w r s → inv w r' s) → (rrank r' < rrank r)%nat →
  sched_step 1 (conf w r s) = Some c' → next w r s c'.
Proof.
  intros Hi Hr Ha Hinv Hrk Hs.
  destruct (r_checked _ _ _ _ _ _ _ _ Hi Hr Ha Hs) as
    [(st' & x & s2 & Hsm & Hv & ->)|[(st' & l & s2 & Hv)|]]; [|done|by right].
  injection Hv as <- <-. cbn. apply (next_lower _ _ _ w r'); [|done|lia].
  by apply Hinv, inv_statuses.
Qed.

(** When the reader has its turn the segment holds the block it is to write. *)
Lemma reader_turn w r s m :
  inv w r s → rrel r = Z.of_nat m → rres r = Z.of_nat m + 1 → (m <= N)%nat →
  s.(cnt) = size m ∧ take (length (block m)) s.(buf) = block m ∧ s.(sem_ex) = true.
Proof.
  intros [Hw _ Hl _] Hrel Hres Hm. destruct Hl as [E1 E2 [P1 P2] E3 _].
  destruct Hw as [Hok Hcnt Hbuf _ _]. rewrite Hrel in E1. rewrite Hres in E2.
  rewrite Hcnt, E3.
  destruct w as [| | | | | |k|k|k|k n|k n|k|k|k| | | | | | |]; simpl in *; try lia.
  all: try (assert (k = S m) as -> by lia; eauto).
  all: try (assert (k = m) as -> by lia; eauto).
  all: assert (m = N) as -> by lia; rewrite size_end; eauto.
Qed.

(** The reader takes the read semaphore. *)
Lemma r_reserve m w s c' :
  inv w (RRes m) s → sched_step 1 (conf w (RRes m) s) = Some c' → next w (RRes m) s c'.
Proof.
  intros Hi Hs. pose proof (i_l _ _ _ Hi) as Hl.
  assert (Hex : s.(sem_ex) = true).
  { rewrite (l_sem _ _ _ Hl), (l_att _ _ _ Hl) by done. pose proof (r_ok _ _ (i_r _ _ _ Hi)).
    pose proof (l_pos _ _ _ Hl) as [P1 P2]. rewrite (l_wsem _ _ _ Hl) in P1.
    destruct w; simpl in *; try done; lia. }
  edestruct (step_semop 1 [wcode w; rcode (RRes m)] s READ_SEM (-1))
    as (st' & Hsm & [(Hpos & ->)|(z & Hz & Hpos & Hlt & ->)]);
    [apply Hi|reflexivity|exact Hex|exact Hs|..];
    apply (inv_statuses _ _ _ st') in Hi as Hi'; try done.
  - apply (next_lower _ _ _ w (RTest m)); [|done|simpl; lia]. unfold sem_value in Hpos. simpl in Hpos.
    fields.
  - cbn. assert (E : (- z <? 0) = true) by (apply Z.ltb_lt; lia). rewrite E. cbn.
    rewrite Z.opp_involutive. destruct (Z.eqb_spec z EINTR) as [->|Hne].
    + left. exists w, (RHead m), (set_proc st' (said s) s). split; [done|].
      split; [fields|]. unfold rank. unfold left_over at 1. simpl. lia.
    + right. by apply (failed_at 1 z "reserveSem" [wcode w; Ret tt]); simpl; try lia.
Qed.

Lemma r_write m w s c' :
  inv w (RWrite m) s → sched_step 1 (conf w (RWrite m) s) = Some c' → next w (RWrite m) s c'.
Proof.
  intros Hi Hs. pose proof (r_ok _ _ (i_r _ _ _ Hi)) as Hm. simpl in Hm.
  edestruct (step_try 1 [wcode w; rcode (RWrite m)] s (AWrite (size m)))
    as (st' & Hsm & [(x & s2 & Hv & ->)|[(z & Hz & Hpos & ->)|(l & s2 & Hv)]]);
    [apply Hi|reflexivity|intros; reflexivity|exact Hs|..]; [| |done];
    apply (inv_statuses _ _ _ st') in Hi as Hi'; try done.
  - injection Hv as <- <-. cbn -[Z.max Z.sub].
    apply (next_lower _ _ _ w (RCmp m _)); [|done|simpl; lia].
    destruct (reader_turn w (RWrite m) s m) as (_ & Hbuf & _); [done|done|done|lia|].
    pose proof (r_shorts _ _ (i_r _ _ _ Hi)) as Hsh. pose proof (size_nonneg m).
    fields.
    + split; [done|]. destruct (shorts s) as [|d l]; simpl; [left; lia|].
      destruct (Z.eqb_spec d 0) as [->|Hd]; [left; lia|]. right. left. exists d. split; [|done].
      apply Hsh. by left.
    + destruct (shorts s); [done|]. simpl. set_solver.
    + intros Hc%Z.eqb_eq. rewrite Hc. unfold size. rewrite Nat2Z.id, Hbuf, concat_take_S.
      f_equal. auto.
  - apply (next_lower _ _ _ w (RCmp m (- z))); [|done|simpl; lia].
    pose proof (size_nonneg m). fields.
    split; [done|]. right; right. exists z. split; [done|lia].
Qed.

Lemma reader_step w r s c' :
  inv w r s → sched_step 1 (conf w r s) = Some c' → next w r s c'.
Proof.
  intros Hi Hs. pose proof (i_r _ _ _ Hi) as Hr. pose proof (i_l _ _ _ Hi) as Hl.
  pose proof (w_counts w) as Hwc. pose proof (r_ok _ _ Hr) as Hk.
  assert (Hturn : ∀ m, rrel r = Z.of_nat m → rres r = Z.of_nat m + 1 → (m <= N)%nat →
    s.(cnt) = size m ∧ take (length (block m)) s.(buf) = block m ∧ s.(sem_ex) = true)
    by (intros; by eapply reader_turn).
  destruct r; simpl in Hk.
  - injection Hs as <-. apply (next_same w RStart s w RSemget); [fields|done|simpl; lia].
  - eapply (r_lookup _ RShmget _ _ _ _ sem_ex); try done; [by left| |simpl; lia].
    intros s' Hi' He. pose proof (l_sem _ _ _ (i_l _ _ _ Hi')) as Hse. rewrite He in Hse.
    symmetry in Hse. apply andb_true_iff in Hse as [Hse _]. clear Hi. fields.
  - eapply (r_lookup _ RShmat _ _ _ _ shm_ex); try done; [by right| |simpl; lia].
    intros s' Hi' He. fields.
  - eapply (r_try _ (RHead 0)); try done; [|simpl; lia]. intros s' Hi'. fields.
  - injection Hs as <-. apply (next_same w (RHead m) s w (RRes m)); [fields|done|simpl; lia].
  - by apply r_reserve.
  - destruct (Hturn m) as (Hc & _ & _); [done..|]. cbn in Hs. rewrite Hc in Hs. injection Hs as <-.
    destruct (Z.eqb_spec (size m) 0) as [Hz|Hz].
    + apply size_zero in Hz as ->; [|done].
      apply (next_same _ _ _ w RDt); [fields|done|simpl; lia].
    + apply (next_same _ _ _ w (RAdd m)); [fields|done|simpl; lia].
      destruct (decide (m = N)) as [->|]; [by rewrite size_end in Hz|lia].
  - destruct (Hturn m) as (Hc & _ & _); [done..|lia|]. cbn -[Z.add] in Hs. rewrite Hc in Hs.
    injection Hs as <-. unfold add_int. rewrite <- before_block_S.
    pose proof (before_block_le (S m)). rewrite (proj2 (Z.ltb_ge INT_MAX _)) by lia.
    apply (next_same _ _ _ w (RLen m)); [fields|done|simpl; lia].
  - destruct (Hturn m) as (Hc & _ & _); [done..|lia|]. cbn in Hs. rewrite Hc in Hs.
    injection Hs as <-. apply (next_same _ _ _ w (RWrite m)); [fields|done|simpl; lia].
  - by apply r_write.
  - destruct (Hturn m) as (Hc & _ & _); [done..|lia|]. cbn in Hs. rewrite Hc in Hs.
    injection Hs as <-. destruct (Z.eqb_spec w0 (size m)) as [->|Hne]; cbn [negb].
    + apply (next_same _ _ _ w (RRel m)); [fields|done|simpl; lia].
      intros _. match goal with H : _ → out s = _ |- _ => apply H end. by apply Z.eqb_refl.
    + right. exists 1%nat, 0, "partial/failed write". split; [done|]. right; right.
      destruct Hk as [_ [|]]; done.
  - destruct (Hturn m) as (_ & _ & Hex); [done..|lia|].
    destruct (step_release 1 [wcode w; rcode (RRel m)] s WRITE_SEM
                (add_int (Z.of_nat m) 1 (λ x, Goto (RFor x (before_block (S m))))) c')
      as [(st' & Hsm & ->)|]; try done; try apply Hi; [simpl; lia| |by right].
    cbn -[Z.add Z.of_nat add_int]. unfold add_int. pose proof blocks_le.
    rewrite (proj2 (Z.ltb_ge INT_MAX _)) by lia. replace (Z.of_nat m + 1) with (Z.of_nat (S m)) by lia.
    apply (next_lower _ _ _ w (RHead (S m))); [|done|simpl; lia].
    apply (inv_statuses _ _ _ st') in Hi as Hi'; [|done]. fields.
  - eapply (r_try _ RLRel); try done; [|simpl; lia]. intros s' Hi'. fields.
  - destruct (Hturn N) as (_ & _ & Hex); [done..|].
    destruct (step_release 1 [wcode w; rcode RLRel] s WRITE_SEM (rcode RPrint) c')
      as [(st' & Hsm & ->)|]; try done; try apply Hi; [simpl; lia| |by right].
    apply (next_lower _ _ _ w RPrint); [|done|simpl; lia].
    apply (inv_statuses _ _ _ st') in Hi as Hi'; [|done]. fields.
  - injection Hs as <-. apply (next_same w RPrint s w RExit); [|done|simpl; lia]. fields.
    unfold upd, is_writer. cbn [Nat.eqb Bool.eqb]. by rewrite (r_said _ _ Hr).
  - done.
Qed.

(** *** Whole runs *)

(** Only a semaphore operation can block. *)
Lemma do_action_val i ret a s :
  (∀ sem d, a = ASemop sem d → 0 <= sem_value sem s + d) →
  ∃ x s', do_action i ret a s = Val x s'.
Proof.
  intros Hsem. unfold do_action, try_call, sys_semop, fails.
  destruct a; repeat case_match; eauto.
  bool_facts. specialize (Hsem sem delta eq_refl). lia.
Qed.

Lemma act_can i p s a k :
  p !! i = Some (Act a k) → (∀ sem d, a = ASemop sem d → 0 <= sem_value sem s + d) →
  ∃ c', step (Config p s None) c'.
Proof.
  intros Hp Ha. destruct (do_action_val i (returned <$> p) a s Ha) as (x & s' & E).
  eexists. by eapply step_val.
Qed.

Lemma writer_can w r s :
  inv w r s → w ≠ WExit →
  (∀ k, w = WRes k → 0 < s.(wsem)) → (w = WLRes → 0 < s.(wsem)) →
  ∃ c', step (conf w r s) c'.
Proof.
  intros Hi Hw H1 H2. pose proof (i_l _ _ _ Hi) as Hl. pose proof (l_pos _ _ _ Hl) as [P1 P2].
  destruct w; try done; try (eexists; by apply (step_goto _ _ 0)).
  all: eapply (act_can 0); [reflexivity|]; intros sem d; try done; intros [= <- <-];
    unfold sem_value; simpl.
  1: specialize (H1 k eq_refl). 3: specialize (H2 eq_refl). all: lia.
Qed.

Lemma reader_can w r s :
  inv w r s → r ≠ RExit → (∀ m, r = RRes m → 0 < s.(rsem)) → ∃ c', step (conf w r s) c'.
Proof.
  intros Hi Hr H1. pose proof (i_l _ _ _ Hi) as Hl. pose proof (l_pos _ _ _ Hl) as [P1 P2].
  destruct r; try done; try (eexists; by apply (step_goto _ _ 1)).
  all: eapply (act_can 1); [reflexivity|]; intros sem d; try done; intros [= <- <-];
    unfold sem_value; simpl.
  1: specialize (H1 m eq_refl). all: lia.
Qed.

(** Both processes have exited successfully; the reader wrote what the writer
    read, and both report the same counts. *)
Definition transferred (c : config action label shm) : Prop :=
  c.(pool) = [End (Exited EXIT_SUCCESS); End (Exited EXIT_SUCCESS)] ∧
  c.(wld).(out) = concat blocks ∧
  c.(wld).(said) true = sent_line (Z.of_nat (length (concat blocks))) (Z.of_nat N) ∧
  c.(wld).(said) false = received_line (Z.of_nat (length (concat blocks))) (Z.of_nat N).

(** The pair never deadlocks. *)
Lemma xfr_progress w r s :
  inv w r s → transferred (conf w r s) ∨ ∃ c', step (conf w r s) c'.
Proof.
  intros Hi. pose proof (i_l _ _ _ Hi) as [E1 E2 [P1 P2] _ _].
  pose proof (w_ok _ _ (i_w _ _ _ Hi)) as Hw. pose proof (r_ok _ _ (i_r _ _ _ Hi)) as Hr.
  assert (Hcases : (w = WExit ∧ r = RExit) ∨
    (w ≠ WExit ∧ (∀ k, w = WRes k → 0 < s.(wsem)) ∧ (w = WLRes → 0 < s.(wsem))) ∨
    (r ≠ RExit ∧ (∀ m, r = RRes m → 0 < s.(rsem)))).
  { destruct (decide (0 < s.(wsem))) as [Hpos|Hpos].
    - assert (Hx : w = WExit ∨ w ≠ WExit) by (destruct w; auto).
      destruct Hx as [->|]; [|by right; left].
      destruct r; simpl in *; try lia; try (by right; right; split); by left.
    - destruct w; try (right; left; by split_and!).
      3: destruct r; simpl in *; try (right; right; split; [done|intros; first [done|lia]]); by left.
      all: right; right; split; [destruct r; simpl in *; try done; lia|].
      all: intros m ->; simpl in *; lia. }
  destruct Hcases as [[-> ->]|[(H1 & H2 & H3)|[H1 H2]]].
  - left. destruct Hi as [[] [] _ _]. unfold transferred, before_block in *. simpl in *.
    rewrite take_ge in * by lia. eauto.
  - right. by apply writer_can.
  - right. by apply reader_can.
Qed.

Lemma inv_start zeros :
  inv WStart RStart (wld (xfr_start blocks zeros short0 st0)).
Proof. split; [split|split|split|]; simpl; try done; try lia. by intros b. Qed.


Lemma xfr_inevitable zeros :
  inevitably (λ c, transferred c ∨ failed c) (xfr_start blocks zeros short0 st0).
Proof.
  pose (R k c := ∃ w r s, c = conf w r s ∧ inv w r s ∧ k = rank w r s).
  eapply (inevitably_rank R).
  - intros k i a b (w & r & s & -> & Hi & ->) Hs.
    assert (Hn : next w r s b).
    { destruct i as [|[|i]]; [by apply writer_step|by apply reader_step|].
      by destruct (sched_step_inv _ _ _ Hs) as (p & Hp & _). }
    destruct Hn as [(w' & r' & s' & -> & Hi' & Hlt)|Hf]; [|by left; right].
    right. exists (rank w' r' s'). split; [done|]. exists w', r', s'. done.
  - intros k a (w & r & s & -> & Hi & ->). destruct (xfr_progress w r s Hi); auto.
  - exists WStart, RStart. eexists. split; [reflexivity|]. split; [apply inv_start|done].
Qed.
End transfer.

(** C5: started together on an input that [read] returns in non-empty blocks of at
    most 1024 bytes, of at most [INT_MAX] bytes in all (the programs count the bytes
    in an int, which a longer input overflows), with any interruptions and failures
    of their calls, every run of the writer and the
    reader, however the two processes are scheduled, comes to an end in which
    both have exited successfully, the reader has written exactly the bytes of
    the input in order, and both report that number of bytes and of blocks; or
    a process has reported a call that failed (or the reader found the objects
    missing because it was first, or a write of
    it was made short or failed). *)
Theorem shm_transfer_copies blocks zeros short st :
  Forall (λ b, b ≠ [] ∧ (length b <= 1024)%nat) blocks →
  Z.of_nat (length (concat blocks)) <= INT_MAX → (∀ b, Forall (Z.le 0) (st b)) →
  inevitably (λ c, transferred blocks c ∨ failed st short c) (xfr_start blocks zeros short st).
Proof. intros. by apply xfr_inevitable. Qed.

Definition demo_blocks : list bytes := [chars "hello "; chars "world"].

Lemma shm_transfer_copies_witness :
  inevitably (λ c, transferred demo_blocks c ∨ failed (λ _, [0; 0; 4]) [] c)
    (xfr_start demo_blocks (replicate 1024 zero) [] (λ _, [0; 0; 4])).
Proof.
  apply (shm_transfer_copies demo_blocks (replicate 1024 zero) [] (λ _, [0; 0; 4])).
  - repeat constructor; simpl; try done; lia.
  - by vm_compute.
  - intros b. repeat constructor; lia.
Defined.
