(* ===== verification/SemInit.v ===== *)
(** Initialising a semaphore that several processes create.

    [svsem/svsem_good_init.c] and [svsem/svsem_bad_init.c], any number of
    processes of which run at once.  The first to create the set initialises it;
    in the good version the others wait until a semaphore operation has been
    made.  The good version is proved never to lose an operation; the bad one
    has a run that does. *)
From stdpp Require Import relations.
From S2P Require Import Prelude CLib Conc.
Local Open Scope Z_scope.

Definition MAX_TRIES : Z := 10.

(** A process starts with the operation of its argument; [Retry] is the head of
    its waiting loop. *)
Inductive label := Start (op : Z) | Retry (op j : Z).

Inductive action :=
| ACreate                (* semget(key, 1, IPC_CREAT | IPC_EXCL | perms) *)
| AGet                   (* semget(key, 1, perms) *)
| ASetval (v : Z)        (* semctl(semid, 0, SETVAL, arg) *)
| AStat                  (* semctl(semid, 0, IPC_STAT, arg), giving sem_otime != 0 *)
| ASemop (op : Z) (own : bool)  (* semop, of the initialiser's dummy or the real one *)
| APrint (t : string).

(** The set: whether it exists, its value, whether an operation has been made;
    the real operations made so far; what was printed; and the statuses of
    calls to come (0, or the error they fail with). *)
Record world := World {
  created : bool; value : Z; otime : bool;
  made : list Z; printed : string; statuses : list Z
}.

Definition pop (w : world) : Z * world :=
  match w.(statuses) with
  | [] => (0, w)
  | z :: l => (z, World w.(created) w.(value) w.(otime) w.(made) w.(printed) l)
  end.

(** A call that does [f], or fails with the error of its status; -1 with [errno]
    [e] is the result [- e]. *)
Definition try_call (f : world → outcome label world) (w : world) : outcome label world :=
  let '(z, w') := pop w in if z =? 0 then f w' else Val (- z) w'.

Definition do_action (_ : nat) (_ : list bool) (a : action) (w : world) : outcome label world :=
  match a with
  | ACreate => try_call (λ w, if w.(created) then Val (- EEXIST) w
      else Val 0 (World true w.(value) w.(otime) w.(made) w.(printed) w.(statuses))) w
  | AGet => try_call (λ w, if w.(created) then Val 0 w else Val (- ENOENT) w) w
  | ASetval v => try_call (λ w,
      Val 0 (World w.(created) v w.(otime) w.(made) w.(printed) w.(statuses))) w
  | AStat => try_call (λ w, Val (if w.(otime) then 1 else 0) w) w
  | ASemop op own => try_call (λ w,
      if op =? 0 then
        if w.(value) =? 0
        then Val 0 (World w.(created) w.(value) true
                      (if own then w.(made) ++ [op] else w.(made)) w.(printed) w.(statuses))
        else Blocked
      else if w.(value) + op <? 0 then Blocked
      else Val 0 (World w.(created) (w.(value) + op) true
                    (if own then w.(made) ++ [op] else w.(made)) w.(printed) w.(statuses))) w
  | APrint t => Val 0 (World w.(created) w.(value) w.(otime) w.(made) (w.(printed) +:+ t) w.(statuses))
  end.

Local Abbreviation prog := (code action label).

Definition checked (msg : string) (a : action) : prog unit :=
  r ← act a; if r <? 0 then End (Failed (- r) msg) else mret tt.
Definition say (t : string) : prog unit := _ ← act (APrint t); mret tt.

(** *** svsem_good_init.c

    [pid] is the text of the process id. *)

Section programs.
Variable pid : string.

(** "Now perform some operation on the semaphore" *)
Definition final_op (op : Z) : prog unit :=
  _ ← checked "semop" (ASemop op true); End (Exited EXIT_SUCCESS).

Definition good_start (op : Z) : prog unit :=
  r ← act ACreate;
  if 0 <=? r then
    _ ← say (pid +:+ ": created semaphore" +:+ nl);
    _ ← checked "semctl 1" (ASetval 0);
    _ ← say (pid +:+ ": initialized semaphore" +:+ nl);
    _ ← checked "semop" (ASemop 0 false);
    _ ← say (pid +:+ ": completed dummy semop()" +:+ nl);
    final_op op
  else if negb (- r =? EEXIST) then End (Failed (- r) "semget 1")
  else
    _ ← checked "semget 2" AGet;
    _ ← say (pid +:+ ": got semaphore key" +:+ nl);
    Goto (Retry op 0).

(** [for (j = 0; j < MAX_TRIES; j++)]; the loop is left with [sem_otime] still 0
    only when the tries are used up. *)
Definition good_retry (op j : Z) : prog unit :=
  if j <? MAX_TRIES then
    _ ← say ("Try " +:+ fmt_d j +:+ nl);
    r ← act AStat;
    if r <? 0 then End (Failed (- r) "semctl 2")
    else if negb (r =? 0) then final_op op
    else Goto (Retry op (j + 1))
  else End (Failed 0 "Existing semaphore not initialized").

Definition good_sys : Sys action label world := {|
  perform := do_action;
  body l := match l with Start op => good_start op | Retry op j => good_retry op j end;
  one_process := false
|}.

(** *** svsem_bad_init.c *)

Definition bad_start (op : Z) : prog unit :=
  r ← act ACreate;
  if 0 <=? r then
    _ ← checked "semctl" (ASetval 0);
    final_op op
  else if negb (- r =? EEXIST) then End (Failed (- r) "semget 1")
  else
    _ ← checked "semget 2" AGet;
    final_op op.

Definition bad_sys : Sys action label world := {|
  perform := do_action;
  body l := match l with Start op | Retry op _ => bad_start op end;
  one_process := false
|}.
End programs.

(** One process for each operation, and no semaphore set. *)
Definition launch (ops : list Z) (st : list Z) : config action label world :=
  Config ((λ op, Goto (Start op)) <$> ops) (World false 0 false [] "" st) None.

(** ** No operation is lost *)

Section good.
Variable pid : string.
Local Instance the_good_sys : Sys action label world := good_sys pid.

(** Where a process is. *)
Inductive pc :=
| PStart (op : Z) | PCreate (op : Z)
| CSay (op : Z) | CSet (op : Z) | CSaid (op : Z) | CDummy (op : Z)
| PGet (op : Z) | PGot (op : Z) | PRetry (op j : Z) | PTry (op j : Z) | PStat (op j : Z)
| PSayOp (op : Z) | POp (op : Z) | PDone | PFail (e : Z) (msg : string).

Definition c_dummy op : prog unit :=
  _ ← checked "semop" (ASemop 0 false);
  _ ← say (pid +:+ ": completed dummy semop()" +:+ nl); final_op op.
Definition c_set op : prog unit :=
  _ ← checked "semctl 1" (ASetval 0);
  _ ← say (pid +:+ ": initialized semaphore" +:+ nl); c_dummy op.
Definition p_stat op j : prog unit :=
  r ← act AStat;
  if r <? 0 then End (Failed (- r) "semctl 2")
  else if negb (r =? 0) then final_op op
  else Goto (Retry op (j + 1)).

Definition pcode (p : pc) : prog unit :=
  match p with
  | PStart op => Goto (Start op)
  | PCreate op => good_start pid op
  | CSay op => _ ← say (pid +:+ ": created semaphore" +:+ nl); c_set op
  | CSet op => c_set op
  | CSaid op => _ ← say (pid +:+ ": initialized semaphore" +:+ nl); c_dummy op
  | CDummy op => c_dummy op
  | PGet op => _ ← checked "semget 2" AGet;
               _ ← say (pid +:+ ": got semaphore key" +:+ nl); Goto (Retry op 0)
  | PGot op => _ ← say (pid +:+ ": got semaphore key" +:+ nl); Goto (Retry op 0)
  | PRetry op j => Goto (Retry op j)
  | PTry op j => _ ← say ("Try " +:+ fmt_d j +:+ nl); p_stat op j
  | PStat op j => p_stat op j
  | PSayOp op => _ ← say (pid +:+ ": completed dummy semop()" +:+ nl); final_op op
  | POp op => final_op op
  | PDone => End (Exited EXIT_SUCCESS)
  | PFail e msg => End (Failed e msg)
  end.

(** Initialising: created the set and not yet made the dummy operation. *)
Definition initialising (p : pc) : bool :=
  match p with CSay _ | CSet _ | CSaid _ | CDummy _ => true | _ => false end.
(** Has stored the initial value and not yet made the dummy operation. *)
Definition value_set (p : pc) : bool :=
  match p with CSaid _ | CDummy _ => true | _ => false end.
(** Knows that the semaphore is initialised. *)
Definition knows (p : pc) : bool :=
  match p with PSayOp _ | POp _ | PDone => true | _ => false end.

Definition sum (l : list Z) : Z := foldr Z.add 0 l.

Record inv (ps : list pc) (w : world) : Prop := {
  v_one i j p q : ps !! i = Some p → ps !! j = Some q →
    initialising p = true → initialising q = true → i = j;
  v_init i p : ps !! i = Some p → initialising p = true →
    w.(created) = true ∧ w.(otime) = false;
  v_set i p : ps !! i = Some p → value_set p = true → w.(value) = 0;
  v_knows i p : ps !! i = Some p → knows p = true → w.(otime) = true;
  v_time : w.(otime) = true → w.(created) = true ∧ w.(value) = sum w.(made);
  v_none : w.(otime) = false → w.(made) = []
}.

Definition same_sem (w w' : world) : Prop :=
  w'.(created) = w.(created) ∧ w'.(value) = w.(value) ∧ w'.(otime) = w.(otime) ∧
  w'.(made) = w.(made).

(** The elements of a list after one was replaced. *)
Lemma insert_cases {A} (l : list A) i j x y :
  <[i := x]> l !! j = Some y → (j = i ∧ y = x) ∨ (j ≠ i ∧ l !! j = Some y).
Proof. intros [(-> & -> & _)|[? ?]]%list_lookup_insert_Some; auto. Qed.

Ltac at_insert := repeat match goal with
  H : <[_ := _]> _ !! _ = Some _ |- _ => apply insert_cases in H as [[-> ->]|[? ?]] end.

(** A process moves without touching the semaphore. *)
Lemma inv_quiet ps w i p p' w' :
  inv ps w → ps !! i = Some p → same_sem w w' →
  (initialising p' = true → initialising p = true) →
  (value_set p' = true → value_set p = true) →
  (knows p' = true → knows p = true ∨ w.(otime) = true) →
  inv (<[i := p']> ps) w'.
Proof.
  intros [H1 H2 H3 H4 H5 H6] Hi (E1 & E2 & E3 & E4) Ha Hb Hc.
  split; rewrite ?E1, ?E2, ?E3, ?E4; intros; at_insert; eauto.
  destruct Hc; eauto.
Qed.

Lemma inv_create ps w i op w' :
  inv ps w → ps !! i = Some (PCreate op) → w.(created) = false →
  w'.(created) = true → w'.(otime) = w.(otime) → w'.(made) = w.(made) →
  inv (<[i := CSay op]> ps) w'.
Proof.
  intros [H1 H2 H3 H4 H5 H6] Hi Hcr E1 E3 E4.
  assert (Hno : ∀ j q, ps !! j = Some q → initialising q = true → False).
  { intros j q Hj Hq. destruct (H2 j q Hj Hq). congruence. }
  assert (Hot : w.(otime) = false) by (destruct (otime w) eqn:E; [destruct H5; congruence|done]).
  split; rewrite ?E1, ?E3, ?E4; intros; at_insert; eauto; try (exfalso; by eapply Hno).
  all: try done; try congruence.
  all: exfalso; eapply Hno; [eassumption|by destruct p].
Qed.

Lemma inv_setval ps w i op w' :
  inv ps w → ps !! i = Some (CSet op) → w'.(value) = 0 →
  w'.(created) = w.(created) → w'.(otime) = w.(otime) → w'.(made) = w.(made) →
  inv (<[i := CSaid op]> ps) w'.
Proof.
  intros [H1 H2 H3 H4 H5 H6] Hi E2 E1 E3 E4. destruct (H2 i _ Hi eq_refl) as [Hc Ho].
  split; rewrite ?E1, ?E2, ?E3, ?E4; intros; at_insert; eauto; congruence.
Qed.

Lemma inv_dummy ps w i op w' :
  inv ps w → ps !! i = Some (CDummy op) → w'.(value) = w.(value) →
  w'.(created) = w.(created) → w'.(otime) = true → w'.(made) = w.(made) →
  inv (<[i := PSayOp op]> ps) w'.
Proof.
  intros [H1 H2 H3 H4 H5 H6] Hi E2 E1 E3 E4. destruct (H2 i _ Hi eq_refl) as [Hc Ho].
  assert (Hno : ∀ j q, ps !! j = Some q → j ≠ i → initialising q = true → False).
  { intros j q Hj Hne Hq. apply Hne. by eapply (H1 j i). }
  split; rewrite ?E1, ?E2, ?E3, ?E4; intros; at_insert; eauto;
    try (exfalso; by eapply Hno); try done.
  - split; [done|]. rewrite (H6 Ho), (H3 i _ Hi eq_refl). done.
Qed.

Lemma sum_app l l' : sum (l ++ l') = sum l + sum l'.
Proof. unfold sum. induction l; simpl; lia. Qed.

Lemma inv_op ps w i op w' :
  inv ps w → ps !! i = Some (POp op) → w'.(value) = w.(value) + op →
  w'.(created) = w.(created) → w'.(otime) = true → w'.(made) = w.(made) ++ [op] →
  inv (<[i := PDone]> ps) w'.
Proof.
  intros [H1 H2 H3 H4 H5 H6] Hi E2 E1 E3 E4. pose proof (H4 i _ Hi eq_refl) as Ho.
  destruct (H5 Ho) as [Hc Hv].
  assert (Hno : ∀ j q, ps !! j = Some q → initialising q = true → False).
  { intros j q Hj Hq. destruct (H2 j q Hj Hq). congruence. }
  split; rewrite ?E1, ?E2, ?E3, ?E4; intros; at_insert; eauto;
    try (exfalso; by eapply Hno); try done.
  2: split; [done|]; rewrite sum_app, Hv; simpl; lia.
  all: exfalso; eapply Hno; [eassumption|by destruct p].
Qed.

Definition conf (ps : list pc) (w : world) := Config (pcode <$> ps) w None.

Lemma pop_same w z w' : pop w = (z, w') → same_sem w w'.
Proof. unfold pop. destruct (statuses w); intros [= <- <-]; done. Qed.

(** Statuses are error numbers; a call does not fail with [EEXIST] by itself. *)
Definition statuses_ok (w : world) : Prop := Forall (λ z, 0 <= z ∧ z ≠ EEXIST) w.(statuses).

Lemma pop_ok w z w' : pop w = (z, w') → statuses_ok w → statuses_ok w' ∧ 0 <= z ∧ z ≠ EEXIST.
Proof.
  unfold pop, statuses_ok. destruct (statuses w) as [|x l] eqn:E; intros [= <- <-] H; simpl.
  - rewrite E. split; [done|]. split; [lia|done].
  - by inversion H.
Qed.

(** A checked call goes on, or the process reports the failure. *)
Lemma checked_pc ps w i p msg a f g x w1 c :
  inv ps w → statuses_ok w → ps !! i = Some p →
  pcode p = (_ ← checked msg a; f) → (∀ j r w, do_action j r a w = try_call g w) →
  (∀ w' y w2, same_sem w w' → statuses_ok w' → g w' = Val y w2 → y < 0 →
     same_sem w w2 ∧ statuses_ok w2) →
  (∀ w' y w2, same_sem w w' → statuses_ok w' → g w' = Val y w2 → 0 <= y →
     ∃ p', f = pcode p' ∧ inv (<[i := p']> ps) w2 ∧ statuses_ok w2) →
  do_action i [] a w = Val x w1 →
  c = code_seq (if x <? 0 then End (Failed (- x) msg) else Ret tt) (λ _, f) →
  ∃ p', c = pcode p' ∧ inv (<[i := p']> ps) w1 ∧ statuses_ok w1.
Proof.
  intros Hi Hst Hp Hc Ha Hneg Hok Hx ->. rewrite Ha in Hx. unfold try_call in Hx.
  assert (Hfail : x < 0 → same_sem w w1 → statuses_ok w1 → ∃ p',
    code_seq (if x <? 0 then End (Failed (- x) msg) else Ret tt) (λ _, f) = pcode p' ∧
    inv (<[i := p']> ps) w1 ∧ statuses_ok w1).
  { intros Hx0 Hs Hs'. rewrite (proj2 (Z.ltb_lt x 0)) by done. exists (PFail (- x) msg).
    split; [done|]. split; [|done]. by eapply inv_quiet. }
  destruct (pop w) as [z w'] eqn:Ep. pose proof (pop_same _ _ _ Ep) as Hs.
  destruct (pop_ok _ _ _ Ep Hst) as (Hst' & Hz & _).
  destruct (Z.eqb_spec z 0) as [->|Hne].
  - destruct (Z.ltb_spec x 0) as [Hx0|Hx0].
    + destruct (Hneg w' x w1); auto.
    + cbn. by eapply Hok.
  - injection Hx as <- <-. apply Hfail; [lia|done..].
Qed.

Lemma same_sem_refl w : same_sem w w.
Proof. done. Qed.

(** One step of a process at a known place. *)
Lemma step_pc ps w i p c x w1 :
  inv ps w → statuses_ok w → ps !! i = Some p →
  match pcode p with
  | Goto l => c = body l ∧ w1 = w
  | Act e k => perform i [] e w = Val x w1 ∧ c = k x
  | _ => False
  end → ∃ p', c = pcode p' ∧ inv (<[i := p']> ps) w1 ∧ statuses_ok w1.
Proof.
  intros Hi Hst Hp. destruct p; cbn [pcode]; try done.
  - intros [-> ->]. exists (PCreate op). split; [done|]. split; [|done]. by eapply inv_quiet.
  - intros [H ->]. cbn in H. unfold try_call in H. destruct (pop w) as [z w'] eqn:Ep.
    pose proof (pop_same _ _ _ Ep) as Hs. destruct (pop_ok _ _ _ Ep Hst) as (Hst' & Hz & Hne).
    destruct (Z.eqb_spec z 0) as [->|Hz0].
    + destruct (created w') eqn:Hcr; injection H as <- <-.
      * exists (PGet op). split; [done|]. split; [|done]. by eapply inv_quiet.
      * exists (CSay op). split; [done|]. split; [|done].
        destruct Hs as (E1 & E2 & E3 & E4). eapply inv_create; try done. congruence.
    + injection H as <- <-. cbn. rewrite (proj2 (Z.leb_gt 0 (- z))) by lia.
      rewrite Z.opp_involutive, (proj2 (Z.eqb_neq z EEXIST)) by done. cbn [negb].
      exists (PFail z "semget 1"). split; [done|]. split; [|done]. by eapply inv_quiet.
  - intros [[= <- <-] ->]. exists (CSet op). split; [done|]. split; [|done]. by eapply inv_quiet.
  - intros [H ->]. eapply checked_pc; try done.
    + intros w' y w2 _ _ [= <- <-]. lia.
    + intros w' y w2 (E1 & E2 & E3 & E4) Hw [= <- <-] _. exists (CSaid op). split; [done|].
      split; [|done]. by eapply inv_setval.
  - intros [[= <- <-] ->]. exists (CDummy op). split; [done|]. split; [|done]. by eapply inv_quiet.
  - intros [H ->]. eapply checked_pc; try done.
    + intros w' y w2 _ _. cbn. destruct (value w' =? 0); [intros [= <- <-]; lia|done].
    + intros w' y w2 (E1 & E2 & E3 & E4) Hw. cbn.
      destruct (value w' =? 0); [|done]. intros [= <- <-] _. exists (PSayOp op).
      split; [done|]. split; [|done]. by eapply inv_dummy.
  - intros [H ->]. eapply checked_pc; try done.
    + intros w' y w2 Hs Hw. cbn. destruct (created w'); intros [= <- <-]; done.
    + intros w' y w2 Hs Hw. cbn. destruct (created w'); intros [= <- <-]; [|done]. intros _.
      exists (PGot op). split; [done|]. split; [|done]. by eapply inv_quiet.
  - intros [[= <- <-] ->]. exists (PRetry op 0). split; [done|]. split; [|done]. by eapply inv_quiet.
  - intros [-> ->]. cbn. unfold good_retry. destruct (j <? MAX_TRIES).
    + exists (PTry op j). split; [done|]. split; [|done]. by eapply inv_quiet.
    + exists (PFail 0 "Existing semaphore not initialized"). split; [done|]. split; [|done].
      by eapply inv_quiet.
  - intros [[= <- <-] ->]. exists (PStat op j). split; [done|]. split; [|done]. by eapply inv_quiet.
  - intros [H ->]. cbn in H. unfold try_call in H. destruct (pop w) as [z w'] eqn:Ep.
    pose proof (pop_same _ _ _ Ep) as Hs. destruct (pop_ok _ _ _ Ep Hst) as (Hst' & Hz & Hne).
    pose proof Hs as (_ & _ & E3 & _).
    destruct (Z.eqb_spec z 0) as [->|Hz0]; injection H as <- <-.
    + destruct (otime w') eqn:Ho; cbn.
      * exists (POp op). split; [done|]. split; [|done]. eapply inv_quiet; try done. right. congruence.
      * exists (PRetry op (j + 1)). split; [done|]. split; [|done]. by eapply inv_quiet.
    + cbn. rewrite (proj2 (Z.ltb_lt (- z) 0)) by lia. exists (PFail (- - z) "semctl 2").
      split; [done|]. split; [|done]. by eapply inv_quiet.
  - intros [[= <- <-] ->]. exists (POp op). split; [done|]. split; [|done]. eapply inv_quiet; try done. by left.
  - intros [H ->]. eapply checked_pc; try done.
    + intros w' y w2 _ _. cbn. repeat case_match; intros [= <- <-]; lia.
    + intros w' y w2 (E1 & E2 & E3 & E4) Hw. cbn.
      destruct (Z.eqb_spec op 0) as [->|Hop].
      * destruct (value w' =? 0); [|done]. intros [= <- <-] _. exists PDone. split; [done|].
        split; [|done]. eapply inv_op; try done; cbn; [lia|congruence].
      * destruct (value w' + op <? 0); [done|]. intros [= <- <-] _. exists PDone. split; [done|].
        split; [|done]. eapply inv_op; try done; cbn; congruence.
Qed.

Lemma step_good ps w i c' :
  inv ps w → statuses_ok w → sched_step i (conf ps w) = Some c' →
  ∃ ps' w', c' = conf ps' w' ∧ inv ps' w' ∧ statuses_ok w'.
Proof.
  intros Hi Hst. unfold sched_step, conf. cbn [ended pool wld].
  rewrite list_lookup_fmap. destruct (ps !! i) as [p|] eqn:Hp; [|done].
  cbn [fmap option_fmap option_map].
  enough (Hgoal : ∀ c x w1,
    match pcode p with
    | Goto l => c = body l ∧ w1 = w
    | Act e k => perform i [] e w = Val x w1 ∧ c = k x
    | _ => False
    end → ∃ p', c = pcode p' ∧ inv (<[i := p']> ps) w1 ∧ statuses_ok w1).
  { destruct (pcode p) as [|h|l|e k] eqn:Ep; [done..| |].
    - intros [= <-]. destruct (Hgoal _ 0 w (conj eq_refl eq_refl)) as (p' & E & Hi' & Hs').
      exists (<[i := p']> ps), w. split; [|done]. by rewrite list_fmap_insert, <- E.
    - cbn [perform the_good_sys good_sys] in *. unfold do_action in *.
      destruct (match e with ACreate => _ | _ => _ end) as [x w1|l w1|] eqn:Ea; [| |done].
      + intros [= <-]. destruct (Hgoal _ x w1 (conj eq_refl eq_refl)) as (p' & E & Hi' & Hs').
        exists (<[i := p']> ps), w1. split; [|done]. by rewrite list_fmap_insert, <- E.
      + exfalso. clear -Ea. unfold try_call in Ea. destruct e; repeat case_match; simplify_eq. }
  intros c x w1 H. eapply step_pc; [done..|exact H].
Qed.

Lemma inv_launch ops st :
  inv (PStart <$> ops) (World false 0 false [] "" st).
Proof.
  assert (H : ∀ i p, (PStart <$> ops) !! i = Some p → ∃ op, p = PStart op).
  { intros i p. rewrite list_lookup_fmap. destruct (ops !! i); [|done]. intros [= <-]. eauto. }
  split; try done; intros; repeat match goal with
    E : (PStart <$> ops) !! _ = Some _ |- _ => apply H in E as [? ->] end; done.
Qed.

Lemma good_reachable ops st c :
  Forall (λ z, 0 <= z ∧ z ≠ EEXIST) st → reachable (launch ops st) c →
  ∃ ps, c = conf ps c.(wld) ∧ inv ps c.(wld).
Proof.
  intros Hst Hr.
  enough (∃ ps w, c = conf ps w ∧ inv ps w ∧ statuses_ok w) as (ps & w & -> & Hi & _) by by exists ps.
  eapply (invariant_reachable (λ c, ∃ ps w, c = conf ps w ∧ inv ps w ∧ statuses_ok w)); [| |exact Hr].
  - intros i a b (ps & w & -> & Hi & Hs) H. by eapply step_good.
  - eexists (PStart <$> ops), _. split; [|split; [apply inv_launch|done]].
    unfold launch, conf. by rewrite <- list_fmap_compose.
Qed.
End good.

(** C29: in [svsem_good_init], however many processes run and however they are
    interleaved, the value of the semaphore is at all times the sum of the
    operations the processes have made: initialisation never comes after one of
    them. *)
Theorem good_init_loses_nothing pid ops st c :
  Forall (λ z, 0 <= z ∧ z ≠ EEXIST) st →
  reachable (Sy := good_sys pid) (launch ops st) c →
  c.(wld).(made) = [] ∨ c.(wld).(value) = sum c.(wld).(made).
Proof.
  intros Hst Hr. destruct (good_reachable pid ops st c Hst Hr) as (ps & _ & Hi).
  destruct (otime (wld c)) eqn:E; [right; by apply Hi|left; by apply Hi].
Qed.

Lemma good_init_loses_nothing_witness :
  ∃ c, reachable (Sy := good_sys "5") (launch [3; 1] []) c ∧ c.(wld).(made) = [1; 3] ∧
    (c.(wld).(made) = [] ∨ c.(wld).(value) = sum c.(wld).(made)).
Proof.
  eexists. split; [|split; [shelve|]].
  - apply (run_schedule_reachable [0; 0; 1; 1; 1; 1; 1; 1; 1; 0; 0; 0; 0; 1; 1; 1; 1; 0; 0]%nat).
    vm_compute. reflexivity.
  - apply (good_init_loses_nothing "5" [3; 1] []); [constructor|].
    apply (run_schedule_reachable [0; 0; 1; 1; 1; 1; 1; 1; 1; 0; 0; 0; 0; 1; 1; 1; 1; 0; 0]%nat).
    vm_compute. reflexivity.
  Unshelve. reflexivity.
Defined.

(** [svsem_bad_init] can lose an operation: two processes both exit
    successfully after adding 1, and the value is 1. *)
Theorem bad_init_loses_one :
  ∃ c, reachable (Sy := bad_sys) (launch [1; 1] []) c ∧
    c.(pool) = [End (Exited EXIT_SUCCESS); End (Exited EXIT_SUCCESS)] ∧
    c.(wld).(made) = [1; 1] ∧ c.(wld).(value) = 1.
Proof.
  eexists. split; [apply (run_schedule_reachable [0; 0; 1; 1; 1; 1; 0; 0]%nat); vm_compute; reflexivity|].
  done.
Qed.
