(* ===== verification/FifoSeqnum.v ===== *)
(** Sequence numbers over FIFOs: [pipes/fifo_seqnum_server.c],
    [pipes/fifo_seqnum_client.c] and [pipes/fifo_seqnum.h].

    The server and any number of clients run as processes that interleave at
    every system call.  FIFOs carry bytes; opening one waits for its other end.
    Every call can fail.  The clients are proved to be given disjoint sequences
    whatever happens; a client that is not the program's can break this. *)
From stdpp Require Import relations gmap strings.
From S2P Require Import Prelude CLib.
From S2P Require GetNum.
From S2P Require Import Conc.
Local Open Scope Z_scope.

(** ** FIFOs *)

(** The bytes not yet read; the ends open for reading and for writing; and how
    often the FIFO was opened for each. *)
Record fifo := Fifo { queue : list Z; rd : Z; wr : Z; rgen : Z; wgen : Z }.

Inductive mode := O_RDONLY | O_WRONLY.
Definition PIPE_CAPACITY : Z := 65536.
Definition SIGPIPE : Z := 13.

(** [open] is two actions: registering the new end, and waiting for the other. *)
Inductive action :=
| AMkfifo (name : string)
| AOpen (name : string) (m : mode)
| AOpened (name : string) (m : mode) (tok : Z)
| ARead (name : string) (n : nat)
| AWrite (name : string) (bs : list Z)
| AClose (name : string) (m : mode)
| AUnlink (name : string)
| ASignal
| AAtexit
| AWarn (err : Z) (msg : string)      (* a report on the standard error *)
| APrint (pid : Z) (t : string).      (* a line on the standard output *)

Record world := World {
  fifos : gmap string fifo;
  printed : list (Z * string);
  warnings : list (Z * string);
  statuses : list Z                   (* of calls to come: 0, or the error *)
}.

(** A server's loop has one variable, a client's start its process id and its
    argument.  [CRaw] is a client that asks for any length, unchecked. *)
Inductive label :=
| SStart | SLoop (seqNum : Z)
| CStart (pid : Z) (arg : option string)
| CRaw (pid seqLen : Z).

Definition pop (w : world) : Z * world :=
  match w.(statuses) with
  | [] => (0, w)
  | z :: l => (z, World w.(fifos) w.(printed) w.(warnings) l)
  end.

(** A call that does [f], or fails with the error of its status. *)
Definition try_call (f : world → outcome label world) (w : world) : outcome label world :=
  let '(z, w') := pop w in if z =? 0 then f w' else Val (- z) w'.

Definition set_fifo (name : string) (f : fifo) (w : world) : world :=
  World (<[name := f]> w.(fifos)) w.(printed) w.(warnings) w.(statuses).

Definition new_fifo : fifo := Fifo [] 0 0 0 0.

Definition open_end (m : mode) (f : fifo) : fifo :=
  match m with
  | O_RDONLY => Fifo f.(queue) (f.(rd) + 1) f.(wr) (f.(rgen) + 1) f.(wgen)
  | O_WRONLY => Fifo f.(queue) f.(rd) (f.(wr) + 1) f.(rgen) (f.(wgen) + 1)
  end.
Definition close_end (m : mode) (f : fifo) : fifo :=
  match m with
  | O_RDONLY => Fifo f.(queue) (f.(rd) - 1) f.(wr) f.(rgen) f.(wgen)
  | O_WRONLY => Fifo f.(queue) f.(rd) (f.(wr) - 1) f.(rgen) f.(wgen)
  end.
(** The ends on the other side: open now, and opened so far. *)
Definition partners (m : mode) (f : fifo) : Z :=
  match m with O_RDONLY => f.(wr) | O_WRONLY => f.(rd) end.
Definition partner_gen (m : mode) (f : fifo) : Z :=
  match m with O_RDONLY => f.(wgen) | O_WRONLY => f.(rgen) end.

(** [AOpen] gives 0 if the other side is open, and otherwise a number by which
    [AOpened] sees that it was opened later.  [ARead] gives the value of the
    bytes read if there were as many as asked for, and a negative number
    otherwise.  A FIFO goes with its name: only the process that reads it
    removes the name, as its last act. *)
Definition do_action (_ : nat) (_ : list bool) (a : action) (w : world) : outcome label world :=
  match a with
  | AMkfifo name => try_call (λ w,
      match w.(fifos) !! name with
      | Some _ => Val (- EEXIST) w
      | None => Val 0 (set_fifo name new_fifo w)
      end) w
  | AOpen name m => try_call (λ w,
      match w.(fifos) !! name with
      | None => Val (- ENOENT) w
      | Some f =>
          Val (if 0 <? partners m f then 0 else 1 + partner_gen m f)
              (set_fifo name (open_end m f) w)
      end) w
  | AOpened name m tok =>
      if tok =? 0 then Val 0 w else
      match w.(fifos) !! name with
      | Some f => if tok =? 1 + partner_gen m f then Blocked else Val 0 w
      | None => Blocked
      end
  | ARead name n => try_call (λ w,
      match w.(fifos) !! name with
      | None => Val (-1) w
      | Some f =>
          if (0 <? length f.(queue))%nat then
            Val (if (n <=? length f.(queue))%nat then unle (take n f.(queue)) else -1)
                (set_fifo name (Fifo (drop n f.(queue)) f.(rd) f.(wr) f.(rgen) f.(wgen)) w)
          else if 0 <? f.(wr) then Blocked else Val (-1) w
      end) w
  | AWrite name bs => try_call (λ w,
      match w.(fifos) !! name with
      | None => Val (- EPIPE) w
      | Some f =>
          if f.(rd) <=? 0 then Val (- EPIPE) w
          else if PIPE_CAPACITY <? Z.of_nat (length f.(queue) + length bs) then Blocked
          else Val (Z.of_nat (length bs))
                 (set_fifo name (Fifo (f.(queue) ++ bs) f.(rd) f.(wr) f.(rgen) f.(wgen)) w)
      end) w
  | AClose name m =>
      let '(z, w) := pop w in
      Val (- z) (match w.(fifos) !! name with
                 | Some f => set_fifo name (close_end m f) w
                 | None => w
                 end)
  | AUnlink name =>
      Val 0 (World (delete name w.(fifos)) w.(printed) w.(warnings) w.(statuses))
  | ASignal | AAtexit => try_call (Val 0) w
  | AWarn e msg => Val 0 (World w.(fifos) w.(printed) (w.(warnings) ++ [(e, msg)]) w.(statuses))
  | APrint pid t => Val 0 (World w.(fifos) (w.(printed) ++ [(pid, t)]) w.(warnings) w.(statuses))
  end.

(** ** [fifo_seqnum.h] *)

Definition SERVER_FIFO : string := "/tmp/seqnum_sv".
Definition CLIENT_FIFO_TEMPLATE : string := "/tmp/seqnum_cl.%ld".
Definition CLIENT_FIFO_NAME_LEN : nat := (String.length CLIENT_FIFO_TEMPLATE + 1) + 20.

(** [snprintf(clientFifo, CLIENT_FIFO_NAME_LEN, CLIENT_FIFO_TEMPLATE, (long) pid)] *)
Definition client_fifo (pid : Z) : string :=
  snprintf CLIENT_FIFO_NAME_LEN ("/tmp/seqnum_cl." +:+ fmt_d pid).

(** [struct request] in memory: [pid] and [seqLen]; and the fields of a request
    given as the number of its eight bytes. *)
Definition request (pid seqLen : Z) : list Z := le 4 pid ++ le 4 seqLen.
Definition req_pid (r : Z) : Z := to_signed 32 r.
Definition req_len (r : Z) : Z := to_signed 32 (r / 2 ^ 32).
Definition sizeof_request : nat := 8.
Definition sizeof_response : nat := 4.

Local Abbreviation prog := (code action label).

(** [open], which waits for the other end; a negative result is [- errno]. *)
Definition open (name : string) (m : mode) : prog Z :=
  r ← act (AOpen name m);
  if r <? 0 then mret r else act (AOpened name m r).

Definition or_fail (msg : string) (r : Z) : prog unit :=
  if r <? 0 then End (Failed (- r) msg) else mret tt.

(** ** [fifo_seqnum_server.c] *)

Definition server_start : prog unit :=
  r ← act (AMkfifo SERVER_FIFO);
  if (r <? 0) && negb (- r =? EEXIST) then End (Failed (- r) ("mkfifo " +:+ SERVER_FIFO)) else
  serverFd ← open SERVER_FIFO O_RDONLY;
  _ ← or_fail ("open " +:+ SERVER_FIFO) serverFd;
  dummyFd ← open SERVER_FIFO O_WRONLY;
  _ ← or_fail ("open " +:+ SERVER_FIFO) dummyFd;
  s ← act ASignal;
  _ ← or_fail "signal" s;
  Goto (SLoop 0).

Definition server_loop (seqNum : Z) : prog unit :=
  req ← act (ARead SERVER_FIFO sizeof_request);
  if req <? 0 then
    _ ← act (AWarn 0 ("Error reading request; discarding" +:+ nl)); Goto (SLoop seqNum)
  else
    let clientFifo := client_fifo (req_pid req) in
    clientFd ← open clientFifo O_WRONLY;
    if clientFd <? 0 then
      _ ← act (AWarn (- clientFd) ("open " +:+ clientFifo)); Goto (SLoop seqNum)
    else
      n ← act (AWrite clientFifo (le sizeof_response seqNum));
      _ ← (if negb (n =? Z.of_nat sizeof_response)
           then act (AWarn 0 ("Error writing to FIFO " +:+ clientFifo +:+ nl)) else mret 0);
      c ← act (AClose clientFifo O_WRONLY);
      _ ← (if c <? 0 then act (AWarn (- c) "close") else mret 0);
      let next := seqNum + req_len req in
      if (INT_MIN <=? next) && (next <=? INT_MAX) then Goto (SLoop next) else End Undefined.

(** ** [fifo_seqnum_client.c] *)

(** [exit] and the fatal reports run the handler [removeFifo] and close the
    descriptors [fds]. *)
Definition quit (clientFifo : string) (fds : list (string * mode)) (f : fate) : prog unit :=
  _ ← act (AUnlink clientFifo);
  foldr (λ d c, _ ← act (AClose d.1 d.2); c) (End f) fds.

(** From the construction of the request on. *)
Definition client_request (pid seqLen : Z) : prog unit :=
  let clientFifo := client_fifo pid in
  serverFd ← open SERVER_FIFO O_WRONLY;
  if serverFd <? 0 then quit clientFifo [] (Failed (- serverFd) ("open " +:+ SERVER_FIFO)) else
  n ← act (AWrite SERVER_FIFO (request pid seqLen));
  if n =? - EPIPE then _ ← act (AClose SERVER_FIFO O_WRONLY); End (Killed SIGPIPE) else
  if negb (n =? Z.of_nat sizeof_request)
  then quit clientFifo [(SERVER_FIFO, O_WRONLY)] (Failed 0 "Can't write to server") else
  clientFd ← open clientFifo O_RDONLY;
  if clientFd <? 0
  then quit clientFifo [(SERVER_FIFO, O_WRONLY)] (Failed (- clientFd) ("open " +:+ clientFifo)) else
  resp ← act (ARead clientFifo sizeof_response);
  let fds := [(clientFifo, O_RDONLY); (SERVER_FIFO, O_WRONLY)] in
  if resp <? 0 then quit clientFifo fds (Failed 0 "Can't read response from server") else
  _ ← act (APrint pid (fmt_d (to_signed 32 resp) +:+ nl));
  quit clientFifo fds (Exited EXIT_SUCCESS).

(** [(argc > 1) ? getInt(argv[1], GN_GT_0, "seq-len") : 1]; [None] where [getInt]
    ends the process. *)
Definition seq_len (arg : option string) : option Z :=
  match arg with
  | None => Some 1
  | Some a =>
      match fst (GetNum.getInt (Some a) GetNum.GN_GT_0 (Some "seq-len") (GetNum.NSt 0 "")) with
      | Ok v => Some v
      | Halt _ => None
      end
  end.

Definition client_start (pid : Z) (arg : option string) : prog unit :=
  if bool_decide (arg = Some "--help") then End (Exited EXIT_FAILURE) else
  let clientFifo := client_fifo pid in
  r ← act (AMkfifo clientFifo);
  if (r <? 0) && negb (- r =? EEXIST) then End (Failed (- r) ("mkfifo " +:+ clientFifo)) else
  a ← act AAtexit;
  if negb (a =? 0) then End (Failed (- a) "atexit") else
  match seq_len arg with
  | Some seqLen => client_request pid seqLen
  | None => quit clientFifo [] (Exited EXIT_FAILURE)
  end.

(** The other client makes its FIFO and sends what it likes. *)
Definition raw_start (pid seqLen : Z) : prog unit :=
  _ ← act (AMkfifo (client_fifo pid)); client_request pid seqLen.

#[export] Instance sys : Sys action label world := {|
  perform := do_action;
  body l := match l with
            | SStart => server_start
            | SLoop seqNum => server_loop seqNum
            | CStart pid arg => client_start pid arg
            | CRaw pid seqLen => raw_start pid seqLen
            end;
  one_process := false
|}.

(** Processes started together, without any FIFO. *)
Definition launch (ls : list label) (st : list Z) : config action label world :=
  Config (Goto <$> ls) (World ∅ [] [] st) None.

(** ** Bytes and names *)

Lemma response_back n : is_int n → to_signed 32 (unle (le sizeof_response n)) = n.
Proof. exact (int_back n). Qed.

Lemma request_value pid len :
  unle (request pid len) = pid mod 2 ^ 32 + 2 ^ 32 * (len mod 2 ^ 32).
Proof. unfold request. rewrite unle_app, length_le, !unle_le. done. Qed.

Lemma request_back pid len : is_int pid → is_int len →
  0 <= unle (request pid len) ∧ req_pid (unle (request pid len)) = pid ∧
  req_len (unle (request pid len)) = len.
Proof.
  intros Hp Hl. rewrite request_value.
  pose proof (Z.mod_pos_bound pid (2 ^ 32)). pose proof (Z.mod_pos_bound len (2 ^ 32)).
  unfold is_int, INT_MIN, INT_MAX in *. split_and!; [lia|..].
  - unfold req_pid, to_signed. rewrite (Z.mul_comm (2 ^ 32)), <- Z.add_assoc, (Z.add_comm (_ * _)).
    rewrite Z.add_assoc, Z_mod_plus_full, Zplus_mod_idemp_l.
    apply (to_signed_small 32); lia.
  - unfold req_len. rewrite (Z.mul_comm (2 ^ 32)), Z.div_add, Z.div_small by lia.
    unfold to_signed. rewrite Z.add_0_l, Zplus_mod_idemp_l. apply (to_signed_small 32); lia.
Qed.

Lemma client_fifo_eq pid : is_int pid → client_fifo pid = "/tmp/seqnum_cl." +:+ fmt_d pid.
Proof.
  intros Hp. apply snprintf_fits. rewrite length_append.
  assert (Hl : (String.length (fmt_d pid) <= 20)%nat).
  { apply fmt_d_length. unfold is_int, INT_MIN, INT_MAX in Hp. unfold LONG_MIN, LONG_MAX. lia. }
  change (CLIENT_FIFO_NAME_LEN) with 39%nat. cbn [String.length]. lia.
Qed.

Lemma client_fifo_inj pid pid' :
  is_int pid → is_int pid' → client_fifo pid = client_fifo pid' → pid = pid'.
Proof.
  intros Hp Hp'. rewrite !client_fifo_eq by done. intros H%append_inj_l. by apply fmt_d_inj.
Qed.

Lemma client_fifo_not_server pid : is_int pid → client_fifo pid ≠ SERVER_FIFO.
Proof. intros Hp. by rewrite client_fifo_eq. Qed.

(** The first of several blocks of one size. *)
Lemma take_blocks {A} (f : A → list Z) k x xs :
  length (f x) = k → take k (concat (f <$> x :: xs)) = f x.
Proof. intros <-. cbn. by rewrite take_app_length. Qed.
Lemma drop_blocks {A} (f : A → list Z) k x xs :
  length (f x) = k → drop k (concat (f <$> x :: xs)) = concat (f <$> xs).
Proof. intros <-. cbn. by rewrite drop_app_length. Qed.

Lemma snoc_blocks {A} (f : A → list Z) x xs :
  concat (f <$> xs ++ [x]) = concat (f <$> xs) ++ f x.
Proof. by rewrite fmap_app, concat_app, fmap_cons, fmap_nil, concat_cons, app_nil_r. Qed.

Lemma seq_len_pos arg len : seq_len arg = Some len → 0 < len <= INT_MAX.
Proof.
  destruct arg as [a|]; simpl; [|intros [= <-]; unfold INT_MAX; lia].
  pose proof (GetNum.getInt_result (Some a) GetNum.GN_GT_0 (Some "seq-len") (GetNum.NSt 0 "")) as H.
  destruct (GetNum.getInt _ _ _ _) as [[v|h] n]; simpl in *; [|done]. intros [= <-].
  destruct H as (_ & (a' & _ & ng & mag & _ & _ & _ & _ & Hpos) & Hr). split; [by apply Hpos|lia].
Qed.

(** ** What each process does, given the results of its calls *)

Local Abbreviation hist := (list (action * Z)).

Definition is_write (x : action * Z) : bool :=
  match x.1 with AWrite _ _ => true | _ => false end.
Definition wrote (h : hist) : bool := existsb is_write h.

(** The request of this turn of the server, and the length it takes. *)
Definition request_read (h : hist) : option Z :=
  match h with
  | (ARead _ _, z) :: _ => if 0 <=? z then Some z else None
  | _ => None
  end.
Definition taken (h : hist) : Z :=
  match request_read h with
  | Some z => if wrote h then req_len z else 0
  | None => 0
  end.

Definition may (l : label) (h : hist) (a : action) : Prop :=
  match a, l with
  | ARead name n, SLoop _ => h = [] ∧ name = SERVER_FIFO ∧ n = sizeof_request
  | ARead name n, CStart pid _ => name = client_fifo pid ∧ n = sizeof_response
  | ARead _ _, _ => False
  | AWrite name bs, SLoop s => wrote h = false ∧ ∃ z, request_read h = Some z ∧
      name = client_fifo (req_pid z) ∧ bs = le sizeof_response s
  | AWrite name bs, CStart pid arg => wrote h = false ∧ name = SERVER_FIFO ∧
      ∃ len, seq_len arg = Some len ∧ bs = request pid len
  | AWrite _ _, _ => False
  | APrint p t, CStart pid _ => p = pid ∧ ∃ z, (ARead (client_fifo pid) sizeof_response, z) ∈ h ∧
      0 <= z ∧ t = fmt_d (to_signed 32 z) +:+ nl
  | APrint _ _, _ => False
  | AUnlink name, CStart pid _ => name = client_fifo pid
  | AUnlink _, _ => False
  | _, _ => True
  end.

Definition ends (l : label) (h : hist) (f : fate) : Prop :=
  f = Undefined → ∃ s, l = SLoop s ∧ ¬ is_int (s + taken h).

Definition jumps (l : label) (h : hist) (l' : label) : Prop :=
  match l with
  | SStart => l' = SLoop 0
  | SLoop s => is_int (s + taken h) ∧ l' = SLoop (s + taken h)
  | _ => False
  end.

Definition follows (l : label) (h : hist) (c : prog unit) : Prop :=
  respects (may l) (ends l) (jumps l) h c (λ _ _, True).

Lemma taken_snoc h a z :
  (∀ n bs, a ≠ AWrite n bs) → (∀ n k, a ≠ ARead n k) → taken (h ++ [(a, z)]) = taken h.
Proof.
  intros Hw Hr. assert (Ew : is_write (a, z) = false) by (destruct a; try done; by destruct (Hw name bs)).
  unfold taken, wrote. rewrite existsb_app. cbn [existsb]. rewrite Ew, !orb_false_r.
  destruct h as [|x h]; [|done]. destruct a; try done. by destruct (Hr name n).
Qed.

Lemma request_read_app h h' z : request_read h = Some z → request_read (h ++ h') = Some z.
Proof. by destruct h. Qed.

(** Actions that neither read nor write, and histories of them. *)
Definition idle (a : action) : Prop :=
  match a with ARead _ _ | AWrite _ _ | APrint _ _ | AUnlink _ => False | _ => True end.

Local Ltac idles := repeat (apply Forall_cons_2; [exact I|]); apply Forall_nil_2.

#[local] Instance idle_dec a : Decision (idle a).
Proof. destruct a; apply _. Defined.

Lemma idle_may l h a : idle a → may l h a.
Proof. by destruct a, l. Qed.

Lemma wrote_app_idle h h' : Forall (λ x, idle x.1) h' → wrote (h ++ h') = wrote h.
Proof.
  intros H. unfold wrote. rewrite existsb_app. replace (existsb is_write h') with false;
    [by rewrite orb_false_r|].
  symmetry. induction H as [|[[] z] h' Hx _ IH]; simpl in *; done.
Qed.

(** The server's turn once it has a request: whether it has answered. *)
Definition serving (req : Z) (answered : bool) (h : hist) : Prop :=
  request_read h = Some req ∧ wrote h = answered.

Lemma serving_idle req b h h' :
  serving req b h → Forall (λ x, idle x.1) h' → serving req b (h ++ h').
Proof.
  intros [Hr Hw] Hi. split; [by apply request_read_app|]. by rewrite wrote_app_idle.
Qed.

Lemma serving_taken req b h : serving req b h → taken h = if b then req_len req else 0.
Proof. intros [Hr Hw]. unfold taken. by rewrite Hr, Hw. Qed.

Lemma follows_step l h a (k : Z → prog unit) :
  may l h a → (∀ z, follows l (h ++ [(a, z)]) (k z)) → follows l h (z ← act a; k z).
Proof. by split. Qed.
Lemma follows_idle l h a (k : Z → prog unit) :
  idle a → (∀ z, follows l (h ++ [(a, z)]) (k z)) → follows l h (z ← act a; k z).
Proof. intros Ha. by apply follows_step, idle_may. Qed.

(** Opening a FIFO adds only idle actions to the history. *)
Lemma follows_open l h name m (k : Z → prog unit) :
  (∀ h' z, Forall (λ x, idle x.1) h' → follows l (h ++ h') (k z)) →
  follows l h (z ← open name m; k z).
Proof.
  intros Hk. apply respects_bind. split; [by destruct l|]. intros z. simpl.
  destruct (z <? 0).
  - apply Hk. idles.
  - split; [by destruct l|]. intros z'. simpl. rewrite <- app_assoc. apply Hk.
    idles.
Qed.

(** So does a report made under a condition. *)
Lemma follows_warn l h (b : bool) e t (k : prog unit) :
  (∀ h', Forall (λ x, idle x.1) h' → follows l (h ++ h') k) →
  follows l h (_ ← (if b then act (AWarn e t) else mret 0); k).
Proof.
  intros Hk. destruct b; simpl.
  - split; [by destruct l|]. intros z. apply Hk. idles.
  - specialize (Hk [] (Forall_nil_2 _)). by rewrite app_nil_r in Hk.
Qed.

Lemma follows_fail l h e msg : follows l h (End (Failed e msg)).
Proof. done. Qed.

Lemma follows_quit l h name fds f :
  (∀ h', may l h' (AUnlink name)) → f ≠ Undefined → follows l h (quit name fds f).
Proof.
  intros Hu Hf. split; [apply Hu|]. intros z. simpl. generalize (h ++ [(AUnlink name, z)]).
  induction fds as [|d fds IH]; intros h'; simpl.
  - by intros ->.
  - split; [by apply (idle_may l h' (AClose d.1 d.2))|]. intros z'. apply IH.
Qed.

Lemma follows_or_fail l h msg r (k : prog unit) :
  follows l h k → follows l h (_ ← or_fail msg r; k).
Proof. intros Hk. unfold or_fail. by destruct (r <? 0). Qed.

Lemma follows_server_start : follows SStart [] server_start.
Proof.
  unfold server_start. apply follows_idle; [done|]; intros r.
  destruct ((r <? 0) && _); [apply follows_fail|].
  apply follows_open; intros h1 fd _. apply follows_or_fail.
  apply follows_open; intros h2 dfd _. apply follows_or_fail.
  apply follows_idle; [done|]; intros s. by apply follows_or_fail.
Qed.

Lemma follows_server_next s h req b :
  is_int s → serving req b h → b = false → follows (SLoop s) h (Goto (SLoop s)).
Proof.
  intros Hs Hh ->. unfold follows. simpl. rewrite (serving_taken _ _ _ Hh), Z.add_0_r. done.
Qed.

Lemma follows_server_loop s : is_int s → follows (SLoop s) [] (server_loop s).
Proof.
  intros Hs. unfold server_loop. apply follows_step; [done|]; intros req. simpl app.
  destruct (Z.ltb_spec req 0) as [Hreq|Hreq].
  { apply follows_idle; [done|]; intros z. unfold follows, taken. simpl. unfold taken. simpl.
    rewrite (proj2 (Z.leb_gt 0 req)), Z.add_0_r by done. done. }
  assert (H0 : serving req false [(ARead SERVER_FIFO sizeof_request, req)]).
  { split; simpl; [by rewrite (proj2 (Z.leb_le 0 req))|done]. }
  revert H0. generalize [(ARead SERVER_FIFO sizeof_request, req)]. intros h0 H0.
  apply follows_open; intros h1 fd H1. apply (serving_idle _ _ _ _ H0) in H1. clear H0.
  revert H1. generalize (h0 ++ h1). intros h2 H2. destruct (fd <? 0).
  { apply follows_idle; [done|]; intros z.
    by eapply follows_server_next; [done|apply (serving_idle _ _ _ _ H2); idles|]. }
  apply follows_step; [simpl; destruct H2; eauto 10|]; intros n.
  assert (H3 : serving req true (h2 ++ [(AWrite (client_fifo (req_pid req)) (le sizeof_response s), n)])).
  { destruct H2 as [Hr Hw]. split; [by apply request_read_app|].
    unfold wrote. rewrite existsb_app. simpl. apply orb_true_r. }
  revert H3. generalize (h2 ++ [(AWrite (client_fifo (req_pid req)) (le sizeof_response s), n)]).
  intros h3 H3. apply follows_warn. intros h4 H4. apply (serving_idle _ _ _ _ H3) in H4.
  apply follows_idle; [done|]; intros c. apply follows_warn. intros h5 H5.
  assert (H6 : serving req true (((h3 ++ h4) ++ [(AClose (client_fifo (req_pid req)) O_WRONLY, c)]) ++ h5)).
  { apply serving_idle; [|done]. apply serving_idle; [done|idles]. }
  apply serving_taken in H6. unfold follows. cbv zeta.
  destruct ((INT_MIN <=? s + req_len req) && (s + req_len req <=? INT_MAX)) eqn:E; simpl.
  - rewrite H6. unfold is_int. bool_facts. done.
  - intros _. exists s. split; [done|]. rewrite H6. unfold is_int.
    apply andb_false_iff in E as [?|?]; bool_facts; lia.
Qed.

Lemma follows_client pid arg : follows (CStart pid arg) [] (client_start pid arg).
Proof.
  unfold client_start. case_bool_decide; [done|].
  apply follows_idle; [done|]; intros r. destruct ((r <? 0) && _); [apply follows_fail|].
  apply follows_idle; [done|]; intros a. destruct (negb _); [apply follows_fail|].
  destruct (seq_len arg) as [len|] eqn:Hlen; [|by apply follows_quit].
  unfold client_request. simpl app.
  assert (Hw0 : wrote [(AMkfifo (client_fifo pid), r); (AAtexit, a)] = false) by done.
  revert Hw0. generalize [(AMkfifo (client_fifo pid), r); (AAtexit, a)]. intros h0 Hw0.
  apply follows_open; intros h1 fd H1. apply (wrote_app_idle h0) in H1.
  destruct (fd <? 0); [by apply follows_quit|].
  apply follows_step; [simpl; split_and!; [congruence|done|by eauto]|]; intros n.
  destruct (n =? - EPIPE); [by apply follows_idle; [done|]; intros z|].
  destruct (negb _); [by apply follows_quit|].
  apply follows_open; intros h2 cfd H2. destruct (cfd <? 0); [by apply follows_quit|].
  apply follows_step; [done|]; intros resp.
  destruct (Z.ltb_spec resp 0); [by apply follows_quit|].
  apply follows_step; [|by intros z; apply follows_quit]. simpl. split; [done|]. exists resp.
  split_and!; [apply elem_of_app; right; by left|done..].
Qed.

(** ** The invariant *)

(** Consecutive sequences, each of a client, a start and a length, from [s] up
    to [e]. *)
Fixpoint chain (s : Z) (g : list (Z * Z * Z)) (e : Z) : Prop :=
  match g with
  | [] => s = e
  | (_, n, l) :: g => n = s ∧ 0 < l ∧ chain (s + l) g e
  end.

Lemma chain_le s g e : chain s g e → s <= e.
Proof. revert s. induction g as [|[[p n] l] g IH]; simpl; intros s; [lia|]. intros (_ & ? & ?%IH). lia. Qed.

Lemma chain_snoc s g e p l : chain s g e → 0 < l → chain s (g ++ [(p, e, l)]) (e + l).
Proof.
  intros H Hl. revert s H. induction g as [|[[p' n] l'] g IH]; simpl; intros s.
  - intros ->. done.
  - intros (-> & ? & ?). auto.
Qed.

Lemma chain_bounds s g e p n l : chain s g e → (p, n, l) ∈ g → s <= n ∧ n + l <= e ∧ 0 < l.
Proof.
  revert s. induction g as [|[[p' n'] l'] g IH]; simpl; intros s Hc Hin; [by apply not_elem_of_nil in Hin|].
  destruct Hc as (-> & Hl & Hc). apply elem_of_cons in Hin as [[= -> -> ->]|Hin].
  - apply chain_le in Hc. lia.
  - destruct (IH _ Hc Hin). lia.
Qed.

Lemma chain_disjoint s g e x y : chain s g e → x ∈ g → y ∈ g →
  x = y ∨ x.1.2 + x.2 <= y.1.2 ∨ y.1.2 + y.2 <= x.1.2.
Proof.
  revert s. induction g as [|[[p n] l] g IH]; simpl; intros s Hc Hx Hy; [by apply not_elem_of_nil in Hx|].
  destruct Hc as (-> & Hl & Hc).
  apply elem_of_cons in Hx as [->|Hx], Hy as [->|Hy]; [by left|right; left|right; right|by eapply IH].
  - destruct y as [[p' n'] l']. by apply (chain_bounds _ _ _ _ _ _ Hc Hy).
  - destruct x as [[p' n'] l']. by apply (chain_bounds _ _ _ _ _ _ Hc Hx).
Qed.

Definition sum_of (ls : list Z) : Z := foldr Z.add 0 ls.

Lemma chain_total s g e : chain s g e → e = s + sum_of g.*2.
Proof.
  revert s. induction g as [|[[p n] l] g IH]; cbn [chain]; intros s; [intros ->; unfold sum_of; simpl; lia|].
  intros (_ & _ & ->%IH). rewrite fmap_cons. unfold sum_of. cbn [foldr snd]. lia.
Qed.

Lemma sum_of_app l l' : sum_of (l ++ l') = sum_of l + sum_of l'.
Proof. unfold sum_of. induction l as [|x l IH]; simpl; lia. Qed.

#[local] Instance sum_of_perm : Proper (Permutation ==> eq) sum_of.
Proof. intros l l'. unfold sum_of. induction 1; simpl; lia. Qed.

Lemma sum_of_nonneg l : Forall (Z.le 0) l → 0 <= sum_of l.
Proof. unfold sum_of. induction 1; simpl; lia. Qed.

Section clients.
Variable clients : list (Z * option string).
Hypothesis pids_distinct : NoDup clients.*1.
Hypothesis pids_int : Forall (λ cl, is_int cl.1) clients.

(** The client [pid] asks for [len] numbers. *)
Definition asked (pid len : Z) : Prop := ∃ arg, (pid, arg) ∈ clients ∧ seq_len arg = Some len.

Lemma asked_int pid len : asked pid len → is_int pid ∧ is_int len ∧ 0 < len.
Proof.
  intros (arg & Hin & Hs). rewrite Forall_forall in pids_int. apply pids_int in Hin.
  apply seq_len_pos in Hs. split; [done|]. unfold is_int, INT_MIN. lia.
Qed.

(** The sequences granted, the request the server is at, and those sent. *)
Record ghost := Ghost {
  granted : list (Z * Z * Z); current : option (Z * Z); pending : list (Z * Z)
}.
Definition requesters (γ : ghost) : list Z :=
  (γ.(granted).*1).*1 ++ (option_list γ.(current)).*1 ++ γ.(pending).*1.

Record ghost_ok (γ : ghost) : Prop := {
  g_once : NoDup (requesters γ);
  g_granted : Forall (λ x, asked x.1.1 x.2 ∧ is_int x.1.2) γ.(granted);
  g_asked : Forall (λ r, asked r.1 r.2) (option_list γ.(current) ++ γ.(pending))
}.

Definition queue_ok (γ : ghost) (name : string) (q : list Z) : Prop :=
  (name = SERVER_FIFO → q = concat ((λ r, request r.1 r.2) <$> γ.(pending))) ∧
  (∀ pid, pid ∈ clients.*1 → name = client_fifo pid → ∃ ns,
     q = concat (le sizeof_response <$> ns) ∧
     Forall (λ n, ∃ l, (pid, n, l) ∈ γ.(granted) ∧ is_int n) ns).

Record world_ok (γ : ghost) (w : world) : Prop := {
  w_queue name f : w.(fifos) !! name = Some f → queue_ok γ name f.(queue);
  w_none : w.(fifos) !! SERVER_FIFO = None → γ.(pending) = [];
  w_printed pid t : (pid, t) ∈ w.(printed) → ∃ n l, (pid, n, l) ∈ γ.(granted) ∧ t = fmt_d n +:+ nl;
  w_statuses : Forall (Z.le 0) w.(statuses)
}.

Definition base (l : label) : Z := match l with SLoop s => s | _ => 0 end.
(** The next number to grant. *)
Definition reached (l : label) (h : hist) : Z :=
  match l with SLoop s => s + taken h | _ => 0 end.
Definition is_server (l : label) : Prop := match l with SStart | SLoop _ => True | _ => False end.
Definition outstanding (h : hist) : option (Z * Z) :=
  match request_read h with
  | Some z => if wrote h then None else Some (req_pid z, req_len z)
  | None => None
  end.

Definition server_ok (γ : ghost) (c : prog unit) : Prop :=
  ∃ l, is_server l ∧ is_int (base l) ∧ 
    (c = Goto l ∧ chain 0 γ.(granted) (base l) ∧ γ.(current) = None ∨
     ∃ h, follows l h c ∧ chain 0 γ.(granted) (reached l h) ∧ γ.(current) = outstanding h).

Definition client_ok (γ : ghost) (cl : Z * option string) (c : prog unit) : Prop :=
  c = Goto (CStart cl.1 cl.2) ∧ cl.1 ∉ requesters γ ∨
  ∃ h, follows (CStart cl.1 cl.2) h c ∧ (cl.1 ∈ requesters γ → wrote h = true) ∧
    ∀ z, (ARead (client_fifo cl.1) sizeof_response, z) ∈ h → 0 <= z →
      ∃ l, (cl.1, to_signed 32 z, l) ∈ γ.(granted).

Lemma client_ok_mono γ γ' cl c :
  (cl.1 ∈ requesters γ' → cl.1 ∈ requesters γ) → γ.(granted) ⊆ γ'.(granted) →
  client_ok γ cl c → client_ok γ' cl c.
Proof.
  intros Hr Hg [[-> Hn]|(h & Hf & Hw & Hz)]; [by left; auto|]. right. exists h.
  split_and!; [done|by auto|]. intros z Hin Hz0. destruct (Hz z Hin Hz0) as [l Hl]. exists l. by apply Hg.
Qed.

(** *** What the actions do to the FIFOs *)

Lemma queue_ok_mono γ γ' name q :
  (name = SERVER_FIFO → γ'.(pending) = γ.(pending)) → γ.(granted) ⊆ γ'.(granted) →
  queue_ok γ name q → queue_ok γ' name q.
Proof.
  intros Hp Hg [H1 H2]. split; [intros E; rewrite Hp by done; by apply H1|].
  intros pid Hin E. destruct (H2 pid Hin E) as (ns & -> & Hns). exists ns. split; [done|].
  eapply Forall_impl; [exact Hns|]. intros n (l & Hl & Hi). exists l. split; [by apply Hg|done].
Qed.

Lemma world_ok_set γ γ' w name f :
  world_ok γ w → (name ≠ SERVER_FIFO → γ'.(pending) = γ.(pending)) → γ.(granted) ⊆ γ'.(granted) →
  queue_ok γ' name f.(queue) → world_ok γ' (set_fifo name f w).
Proof.
  intros [H1 H2 H3 H4] Hp Hg Hq. split; cbn [fifos printed statuses set_fifo]; [..|done].
  - intros name' f'. destruct (decide (name = name')) as [<-|Hne].
    + rewrite lookup_insert_eq. by intros [= <-].
    + rewrite lookup_insert_ne by done. intros Hf. eapply queue_ok_mono, H1; [|done..].
      intros ->. by apply Hp.
  - destruct (decide (name = SERVER_FIFO)) as [->|Hne].
    + by rewrite lookup_insert_eq.
    + rewrite lookup_insert_ne by done. intros Hn. rewrite Hp by done. auto.
  - intros pid t Hin. destruct (H3 pid t Hin) as (n & l & Hl & ->). exists n, l. split; [by apply Hg|done].
Qed.

(** The same where the bytes stay. *)
Lemma world_ok_keep γ w name f f' :
  world_ok γ w → w.(fifos) !! name = Some f → f'.(queue) = f.(queue) →
  world_ok γ (set_fifo name f' w).
Proof. intros H Hf E. eapply world_ok_set; [done..|]. rewrite E. by eapply w_queue. Qed.

Lemma pop_world_ok γ w z w1 : pop w = (z, w1) → world_ok γ w → world_ok γ w1 ∧ 0 <= z.
Proof.
  unfold pop. destruct (statuses w) as [|x l] eqn:E; intros [= <- <-] [H1 H2 H3 H4]; [done|].
  rewrite E in H4. apply Forall_cons in H4 as [? ?]. done.
Qed.

(** A call either has its effect or leaves the world alone and gives a negative
    result. *)
Lemma try_ok γ f w z w' :
  world_ok γ w → try_call f w = Val z w' →
  (∃ w1, world_ok γ w1 ∧ f w1 = Val z w') ∨ world_ok γ w' ∧ z < 0.
Proof.
  unfold try_call. destruct (pop w) as [x w1] eqn:Ep. intros Hw.
  destruct (pop_world_ok _ _ _ _ Ep Hw) as [Hw1 Hx]. destruct (Z.eqb_spec x 0).
  - intros H. left. by exists w1.
  - intros [= <- <-]. right. split; [done|lia].
Qed.

Lemma val_inj {L W} z z' (w w' : W) : @Val L W z w = Val z' w' → z = z' ∧ w = w'.
Proof. by intros [= -> ->]. Qed.

Definition quiet (a : action) : Prop :=
  match a with
  | ARead _ _ | AWrite _ _ | APrint _ _ => False
  | AUnlink name => name ≠ SERVER_FIFO
  | _ => True
  end.

Lemma new_fifo_ok γ w name :
  world_ok γ w → w.(fifos) !! name = None → queue_ok γ name [].
Proof.
  intros Hw Hn. split; [|intros pid _ _; by exists []].
  intros ->. by rewrite (w_none _ _ Hw Hn).
Qed.

Lemma perform_quiet γ i r a w z w' :
  quiet a → world_ok γ w → do_action i r a w = Val z w' → world_ok γ w'.
Proof.
  intros Ha Hw. destruct a; try done; cbn [do_action].
  - intros [(w1 & H1 & E)|[? _]]%(try_ok γ); [|done|done]. destruct (fifos w1 !! name) eqn:Ef; simplify_eq; [done|].
    eapply world_ok_set; [done..|]. by eapply new_fifo_ok.
  - intros [(w1 & H1 & E)|[? _]]%(try_ok γ); [|done|done]. destruct (fifos w1 !! name) eqn:Ef; simplify_eq; [|done].
    eapply world_ok_keep; [done..|]. by destruct m.
  - repeat case_match; by intros [= <- <-].
  - destruct (pop w) as [x w1] eqn:Ep. destruct (pop_world_ok _ _ _ _ Ep Hw) as [Hw1 _].
    intros [= <- <-]. destruct (fifos w1 !! name) eqn:Ef; [|done].
    eapply world_ok_keep; [done..|]. by destruct m.
  - intros [= <- <-]. destruct Hw as [H1 H2 H3 H4]. split; simpl; [|..|done|done].
    + intros name' f [_ Hf]%lookup_delete_Some. by apply H1.
    + rewrite lookup_delete_ne by done. done.
  - intros [(w1 & H1 & [= <- <-])|[? _]]%(try_ok γ); done.
  - intros [(w1 & H1 & [= <- <-])|[? _]]%(try_ok γ); done.
  - intros [= <- <-]. by destruct Hw.
Qed.

Lemma queue_server γ w f :
  world_ok γ w → w.(fifos) !! SERVER_FIFO = Some f →
  f.(queue) = concat ((λ r, request r.1 r.2) <$> γ.(pending)).
Proof. intros Hw Hf. by apply (w_queue _ _ Hw _ _ Hf). Qed.

Lemma pids_int_elem pid : pid ∈ clients.*1 → is_int pid.
Proof.
  intros (cl & -> & Hin)%list_elem_of_fmap. rewrite Forall_forall in pids_int. by apply pids_int.
Qed.

(** Reading a request. *)
Lemma perform_read_server γ i r w z w' :
  world_ok γ w → do_action i r (ARead SERVER_FIFO sizeof_request) w = Val z w' →
  (∃ x rs, γ.(pending) = x :: rs ∧ z = unle (request x.1 x.2) ∧
     world_ok (Ghost γ.(granted) γ.(current) rs) w') ∨
  z < 0 ∧ world_ok γ w'.
Proof.
  intros Hw. cbn [do_action]. intros [(w1 & H1 & E)|[? ?]]%(try_ok γ); [|by right|done].
  destruct (fifos w1 !! SERVER_FIFO) as [f|] eqn:Ef; [|simplify_eq; by right].
  rewrite (queue_server _ _ _ H1 Ef) in E. destruct (pending γ) as [|x rs] eqn:Ep.
  { simpl in E. destruct (0 <? wr f); simplify_eq; by right. }
  left. exists x, rs. 
  assert (Hl : length (request x.1 x.2) = sizeof_request) by (unfold request; by rewrite length_app, !length_le).
  rewrite take_blocks, drop_blocks in E by done.
  rewrite fmap_cons, concat_cons, length_app, Hl in E.
  replace (0 <? _)%nat with true in E by (symmetry; apply Nat.ltb_lt; unfold sizeof_request; lia).
  replace (_ <=? _)%nat with true in E by (symmetry; apply Nat.leb_le; lia).
  apply val_inj in E as [<- <-]. split_and!; [done|done|].
  eapply world_ok_set; [done|done|done|]. split; [done|].
  intros pid Hin E. by destruct (client_fifo_not_server pid (pids_int_elem _ Hin)).
Qed.

(** A client reading its response. *)
Lemma perform_read_client γ i r w z w' pid :
  pid ∈ clients.*1 → world_ok γ w →
  do_action i r (ARead (client_fifo pid) sizeof_response) w = Val z w' →
  world_ok γ w' ∧ (0 <= z → ∃ l, (pid, to_signed 32 z, l) ∈ γ.(granted)).
Proof.
  intros Hpid Hw. cbn [do_action]. intros [(w1 & H1 & E)|[? ?]]%(try_ok γ); [|split; [done|lia]|done].
  destruct (fifos w1 !! client_fifo pid) as [f|] eqn:Ef; [|simplify_eq; split; [done|lia]].
  destruct (w_queue _ _ H1 _ _ Ef) as [_ H2]. destruct (H2 pid Hpid eq_refl) as (ns & Eq & Hns).
  rewrite Eq in E. destruct ns as [|n ns].
  { simpl in E. destruct (0 <? wr f); simplify_eq. split; [done|lia]. }
  apply Forall_cons in Hns as [(l & Hl & Hi) Hns].
  rewrite take_blocks, drop_blocks in E by apply length_le.
  rewrite fmap_cons, concat_cons, length_app, length_le in E.
  replace (0 <? _)%nat with true in E by (symmetry; apply Nat.ltb_lt; unfold sizeof_response; lia).
  replace (_ <=? _)%nat with true in E by (symmetry; apply Nat.leb_le; lia).
  apply val_inj in E as [<- <-]. split; [|intros _; exists l; by rewrite response_back].
  pose proof (pids_int_elem _ Hpid) as Hpi.
  eapply world_ok_set; [done|done|done|]. split.
  - intros E. by destruct (client_fifo_not_server pid Hpi).
  - intros pid' Hin E%client_fifo_inj; [|done|by apply pids_int_elem]. subst pid'. by exists ns.
Qed.

Lemma perform_write γ i r name bs w z w' :
  world_ok γ w → do_action i r (AWrite name bs) w = Val z w' →
  world_ok γ w' ∨ ∃ w1 f f', world_ok γ w1 ∧ w1.(fifos) !! name = Some f ∧
    f'.(queue) = f.(queue) ++ bs ∧ w' = set_fifo name f' w1.
Proof.
  intros Hw. cbn [do_action]. intros [(w1 & H1 & E)|[? ?]]%(try_ok γ); [|by left|done].
  destruct (fifos w1 !! name) as [f|] eqn:Ef; [|simplify_eq; by left].
  destruct (rd f <=? 0); [simplify_eq; by left|].
  destruct (PIPE_CAPACITY <? _); [done|]. apply val_inj in E as [<- <-]. right.
  exists w1, f. eexists. split_and!; [done|done| |reflexivity]. done.
Qed.

(** A client sending its request. *)
Lemma perform_write_server γ i r pid len w z w' :
  world_ok γ w → do_action i r (AWrite SERVER_FIFO (request pid len)) w = Val z w' →
  world_ok γ w' ∨
  world_ok (Ghost γ.(granted) γ.(current) (γ.(pending) ++ [(pid, len)])) w'.
Proof.
  intros Hw [|(w1 & f & f' & H1 & Ef & Eq & ->)]%(perform_write γ); [by left| |done]. right.
  eapply world_ok_set; [done|done|done|]. split.
  - intros _. cbn [pending]. by rewrite Eq, (queue_server _ _ _ H1 Ef), snoc_blocks.
  - intros pid' Hin E. by destruct (client_fifo_not_server pid' (pids_int_elem _ Hin)).
Qed.

(** The server sending the start of a granted sequence. *)
Lemma perform_write_client γ i r pid n l w z w' :
  is_int pid → is_int n → (pid, n, l) ∈ γ.(granted) → world_ok γ w →
  do_action i r (AWrite (client_fifo pid) (le sizeof_response n)) w = Val z w' → world_ok γ w'.
Proof.
  intros Hp Hn Hg Hw [|(w1 & f & f' & H1 & Ef & Eq & ->)]%(perform_write γ); [done| |done].
  eapply world_ok_set; [done|done|done|]. split.
  - intros E. by destruct (client_fifo_not_server pid Hp).
  - intros pid' Hin E. pose proof E as E'. apply client_fifo_inj in E'; [|done|by apply pids_int_elem].
    subst pid'. destruct (w_queue _ _ H1 _ _ Ef) as [_ H2]. destruct (H2 pid Hin eq_refl) as (ns & Eq' & Hns).
    exists (ns ++ [n]). split; [by rewrite Eq, Eq', snoc_blocks|].
    apply Forall_app. split; [done|]. constructor; [by exists l|done].
Qed.

Lemma perform_print γ i r pid n l w z w' :
  (pid, n, l) ∈ γ.(granted) → world_ok γ w →
  do_action i r (APrint pid (fmt_d n +:+ nl)) w = Val z w' → world_ok γ w'.
Proof.
  intros Hg [H1 H2 H3 H4] [= <- <-]. split; simpl; [done|done| |done].
  intros pid' t [Hin|[= -> ->]%list_elem_of_singleton]%elem_of_app; [by apply H3|]. by exists n, l.
Qed.

(** *** Moves of the processes *)

Lemma world_ok_mono γ γ' w :
  γ'.(pending) = γ.(pending) → γ.(granted) ⊆ γ'.(granted) → world_ok γ w → world_ok γ' w.
Proof.
  intros Hp Hg [H1 H2 H3 H4]. split; [|by rewrite Hp| |done].
  - intros name f Hf. by eapply queue_ok_mono, H1.
  - intros pid t Hin. destruct (H3 pid t Hin) as (n & l & Hl & ->). exists n, l. split; [by apply Hg|done].
Qed.

Lemma outstanding_idle h a z : idle a → outstanding (h ++ [(a, z)]) = outstanding h.
Proof.
  intros Ha. unfold outstanding. rewrite (wrote_app_idle h) by (apply Forall_cons_2; [done|apply Forall_nil_2]).
  destruct h as [|x h]; [|done]. by destruct a.
Qed.

Lemma idle_quiet a : idle a → quiet a.
Proof. by destruct a. Qed.

Lemma taken_idle h a z : idle a → taken (h ++ [(a, z)]) = taken h.
Proof. intros Ha. apply taken_snoc; by intros ? ? ->. Qed.

Lemma server_body l : is_server l → is_int (base l) → follows l [] (body l).
Proof. destruct l; try done; intros _ Hi; [apply follows_server_start|by apply follows_server_loop]. Qed.

(** What the server's moves keep of the ghost state. *)
Definition less (γ γ' : ghost) : Prop :=
  γ.(granted) ⊆ γ'.(granted) ∧ ∀ p, p ∈ requesters γ' → p ∈ requesters γ.

Definition server_moved (γ : ghost) (c2 : prog unit) (w2 : world) : Prop :=
  ∃ γ', ghost_ok γ' ∧ world_ok γ' w2 ∧ server_ok γ' c2 ∧ less γ γ'.

Lemma less_refl γ : less γ γ.
Proof. done. Qed.

Lemma ghost_ok_drop γ : ghost_ok γ → ghost_ok (Ghost γ.(granted) None γ.(pending)).
Proof.
  intros [H1 H2 H3]. split; [|done|].
  - eapply sublist_NoDup; [exact H1|]. unfold requesters. simpl. apply sublist_app; [done|].
    by apply sublist_inserts_l.
  - by apply Forall_app in H3 as [_ ?].
Qed.

Lemma less_drop γ : less γ (Ghost γ.(granted) None γ.(pending)).
Proof. split; [done|]. unfold requesters. simpl. set_solver. Qed.

(** The server at the head of a loop. *)
Lemma server_at_goto γ l :
  server_ok γ (Goto l) → is_server l ∧ is_int (base l) ∧ chain 0 γ.(granted) (base l).
Proof.
  intros (l0 & Hs & Hi & [([= ->] & Hch & _)|(h & Hf & Hch & _)]); [done|].
  unfold follows in Hf. simpl in Hf. destruct l0; try done; simpl in *.
  - by subst l.
  - by destruct Hf as [Hin ->].
Qed.

Lemma server_moves_goto γ l w :
  ghost_ok γ → world_ok γ w → server_ok γ (Goto l) → server_moved γ (body l) w.
Proof.
  intros Hg Hw (Hs & Hi & Hch)%server_at_goto.
  exists (Ghost γ.(granted) None γ.(pending)).
  split_and!; [by apply ghost_ok_drop|by apply (world_ok_mono γ)| |apply less_drop].
  exists l. split_and!; [done|done|]. right. exists []. split_and!; [by apply server_body| |done].
  destruct l; try done. simpl. by rewrite Z.add_0_r.
Qed.

Lemma server_moves_idle γ l h e z c2 w2 :
  is_server l → is_int (base l) → idle e → ghost_ok γ → world_ok γ w2 →
  chain 0 γ.(granted) (reached l h) → γ.(current) = outstanding h →
  follows l (h ++ [(e, z)]) c2 → server_moved γ c2 w2.
Proof.
  intros Hs Hi He Hg Hw Hch Hcur Hf. exists γ. split_and!; [done|done| |apply less_refl].
  exists l. split_and!; [done|done|]. right. exists (h ++ [(e, z)]). split_and!; [done|..].
  - destruct l; try done. simpl in *. by rewrite taken_idle.
  - by rewrite outstanding_idle.
Qed.

Lemma outstanding_read n k z :
  outstanding [(ARead n k, z)] = if 0 <=? z then Some (req_pid z, req_len z) else None.
Proof. unfold outstanding. simpl. by destruct (0 <=? z). Qed.

(** The server takes a request. *)
Lemma server_moves_read γ s z i r c2 w w2 :
  is_int s → ghost_ok γ → world_ok γ w → chain 0 γ.(granted) s → γ.(current) = None →
  do_action i r (ARead SERVER_FIFO sizeof_request) w = Val z w2 →
  follows (SLoop s) [(ARead SERVER_FIFO sizeof_request, z)] c2 → server_moved γ c2 w2.
Proof.
  intros Hi Hg Hw Hch Hcur Hz Hf.
  assert (Ht : taken [(ARead SERVER_FIFO sizeof_request, z)] = 0) by (unfold taken; by repeat case_match).
  apply (perform_read_server γ) in Hz as [([pid len] & rs & Hp & -> & Hw2)|[Hz Hw2]]; [| |done].
  - destruct Hg as [H1 H2 H3]. unfold requesters in H1. rewrite Hcur, Hp in H1, H3.
    pose proof H3 as [Ha _]%Forall_cons. destruct (asked_int _ _ Ha) as (Hpi & Hli & _).
    destruct (request_back pid len Hpi Hli) as (H0 & E1 & E2).
    exists (Ghost γ.(granted) (Some (pid, len)) rs). split_and!; [by split|by refine (world_ok_mono _ _ _ _ _ Hw2)| |].
    + exists (SLoop s). split_and!; [done|done|]. right. eexists. split_and!; [exact Hf| |].
      * unfold reached. by rewrite Ht, Z.add_0_r.
      * rewrite outstanding_read. cbn [fst snd]. by rewrite (proj2 (Z.leb_le 0 _)), E1, E2 by done.
    + split; [done|]. unfold requesters. rewrite Hcur, Hp. done.
  - exists γ. split_and!; [done|done| |apply less_refl].
    exists (SLoop s). split_and!; [done|done|]. right. eexists. split_and!; [exact Hf| |].
    + unfold reached. by rewrite Ht, Z.add_0_r.
    + by rewrite outstanding_read, (proj2 (Z.leb_gt 0 z)).
Qed.

(** The server answers a request. *)
Lemma server_moves_write γ s h req z i r c2 w w2 :
  is_int s → ghost_ok γ → world_ok γ w → chain 0 γ.(granted) (s + taken h) →
  γ.(current) = outstanding h → serving req false h →
  do_action i r (AWrite (client_fifo (req_pid req)) (le sizeof_response s)) w = Val z w2 →
  follows (SLoop s) (h ++ [(AWrite (client_fifo (req_pid req)) (le sizeof_response s), z)]) c2 →
  server_moved γ c2 w2.
Proof.
  intros Hi Hg Hw Hch Hcur [Hreq Hwr] Hz Hf.
  unfold taken in Hch. unfold outstanding in Hcur. rewrite Hreq, Hwr in Hch, Hcur. rewrite Z.add_0_r in Hch.
  set (pid := req_pid req) in *. set (len := req_len req) in *.
  destruct Hg as [H1 H2 H3]. unfold requesters in H1. rewrite Hcur in H1, H3.
  pose proof H3 as [Ha _]%Forall_cons. destruct (asked_int _ _ Ha) as (Hpi & Hli & Hpos).
  set (γ' := Ghost (γ.(granted) ++ [(pid, s, len)]) None γ.(pending)).
  assert (Hrq : requesters γ' = requesters γ).
  { unfold requesters. rewrite Hcur. simpl. by rewrite !fmap_app, <- app_assoc. }
  exists γ'. split_and!.
  - split; [rewrite Hrq; unfold requesters; by rewrite Hcur| |by apply Forall_cons in H3 as [_ ?]].
    apply Forall_app. split; [done|]. by apply Forall_singleton.
  - eapply (perform_write_client γ' i r pid s len w z); [done|done| | |exact Hz].
    + apply elem_of_app. right. by left.
    + apply (world_ok_mono γ); [done| |done]. simpl. set_solver.
  - exists (SLoop s). split_and!; [done|done|]. right. eexists. split_and!; [exact Hf| |].
    + unfold reached, taken. rewrite (request_read_app _ _ _ Hreq).
      unfold wrote. rewrite existsb_app. simpl. rewrite orb_true_r. by apply chain_snoc.
    + unfold outstanding. rewrite (request_read_app _ _ _ Hreq).
      unfold wrote. rewrite existsb_app. simpl. by rewrite orb_true_r.
  - split; [simpl; set_solver|by rewrite Hrq].
Qed.

Lemma server_moves γ c w c2 w2 :
  ghost_ok γ → world_ok γ w → server_ok γ c → moves c w c2 w2 → server_moved γ c2 w2.
Proof.
  intros Hg Hw Hs [(l & -> & -> & ->)|(i & r & e & k & z & -> & -> & Hz)]; [by apply server_moves_goto|].
  destruct Hs as (l & Hl & Hi & [[? _]|(h & [Hm Hk] & Hch & Hcur)]); [done|].
  specialize (Hk z). change (respects _ _ _ _ (k z) _) with (follows l (h ++ [(e, z)]) (k z)) in Hk.
  destruct (decide (idle e)) as [He|He].
  { eapply server_moves_idle; [done..| |done|done|exact Hk]. by eapply perform_quiet, Hz; [apply idle_quiet|]. }
  destruct e; try (by destruct He); destruct l as [|s| |]; try done.
  - destruct Hm as (-> & -> & ->). simpl in Hch. rewrite Z.add_0_r in Hch. by eapply server_moves_read.
  - destruct Hm as (Hwr & req & Hreq & -> & ->). by eapply server_moves_write.
Qed.

(** What a client's moves keep. *)
Definition client_moved (γ : ghost) (cl : Z * option string) (c2 : prog unit) (w2 : world) : Prop :=
  ∃ γ', ghost_ok γ' ∧ world_ok γ' w2 ∧ client_ok γ' cl c2 ∧
    γ'.(granted) = γ.(granted) ∧ γ'.(current) = γ.(current) ∧
    ∀ p, p ∈ requesters γ' → p ∈ requesters γ ∨ p = cl.1.

(** Moves that are not the sending of the request. *)
Lemma client_moves_keep γ cl h e z c2 w2 :
  is_write (e, z) = false → ghost_ok γ → world_ok γ w2 →
  (cl.1 ∈ requesters γ → wrote h = true) →
  (∀ z', (ARead (client_fifo cl.1) sizeof_response, z') ∈ h ++ [(e, z)] → 0 <= z' →
    ∃ l, (cl.1, to_signed 32 z', l) ∈ γ.(granted)) →
  follows (CStart cl.1 cl.2) (h ++ [(e, z)]) c2 → client_moved γ cl c2 w2.
Proof.
  intros He Hg Hw Hwr Hz Hf. exists γ. split_and!; [done|done| |done|done|by left]. right.
  eexists. split_and!; [exact Hf| |done]. intros Hin. unfold wrote.
  rewrite existsb_app. apply orb_true_iff. left. by apply Hwr.
Qed.

(** A client sends its request. *)
Lemma client_moves_write γ cl h len z i r c2 w w2 :
  cl ∈ clients → ghost_ok γ → world_ok γ w → (cl.1 ∈ requesters γ → wrote h = true) →
  wrote h = false → seq_len cl.2 = Some len →
  (∀ z', (ARead (client_fifo cl.1) sizeof_response, z') ∈ h → 0 <= z' →
    ∃ l, (cl.1, to_signed 32 z', l) ∈ γ.(granted)) →
  do_action i r (AWrite SERVER_FIFO (request cl.1 len)) w = Val z w2 →
  follows (CStart cl.1 cl.2) (h ++ [(AWrite SERVER_FIFO (request cl.1 len), z)]) c2 →
  client_moved γ cl c2 w2.
Proof.
  intros Hcl Hg Hw Hin Hwr Hlen Hz Hd Hf.
  assert (Hnot : cl.1 ∉ requesters γ) by (intros H; apply Hin in H; congruence).
  assert (Hc : ∀ γ', γ'.(granted) = γ.(granted) → client_ok γ' cl c2).
  { intros γ' E. right. eexists. split_and!; [exact Hf| |].
    - intros _. unfold wrote. rewrite existsb_app. apply orb_true_r.
    - intros z' [Hz'|[=]%list_elem_of_singleton]%elem_of_app Hpos. rewrite E. by apply Hz. }
  apply (perform_write_server γ) in Hd as [Hw2|Hw2]; [| |done].
  - exists γ. split_and!; [done|done|by apply Hc|done|done|by left].
  - eexists. split_and!; [|exact Hw2|by apply Hc|done|done|].
    + destruct Hg as [H1 H2 H3]. split; [|done|].
      * unfold requesters in *. cbn [granted current pending]. rewrite fmap_app, !app_assoc.
        rewrite app_assoc in H1, Hnot. apply NoDup_app. split_and!; [done| |apply NoDup_singleton].
        intros p Hp ->%list_elem_of_singleton. by apply Hnot.
      * cbn [current pending]. rewrite app_assoc. apply Forall_app. split; [done|]. apply Forall_singleton.
        exists cl.2. by destruct cl.
    + intros p. unfold requesters. simpl. rewrite fmap_app. simpl. set_solver.
Qed.

Lemma client_moves γ cl c w c2 w2 :
  cl ∈ clients → ghost_ok γ → world_ok γ w → client_ok γ cl c → moves c w c2 w2 →
  client_moved γ cl c2 w2.
Proof.
  intros Hcl Hg Hw Hc Hm.
  assert (Hpid : cl.1 ∈ clients.*1) by by apply list_elem_of_fmap_2.
  destruct Hc as [[-> Hnot]|(h & Hf & Hwr & Hz)].
  { destruct Hm as [(l & [= <-] & -> & ->)|(? & ? & ? & ? & ? & [=] & _)].
    exists γ. split_and!; [done|done| |done|done|by left]. right. exists [].
    split_and!; [apply follows_client|done|by intros z Hin%not_elem_of_nil]. }
  destruct Hm as [(l & -> & -> & ->)|(i & r & e & k & z & -> & -> & Hd)]; [by destruct Hf|].
  destruct Hf as [Hm Hk]. specialize (Hk z).
  change (respects _ _ _ _ (k z) _) with (follows (CStart cl.1 cl.2) (h ++ [(e, z)]) (k z)) in Hk.
  assert (Hkeep : world_ok γ w2 → is_write (e, z) = false → (∀ n j, e ≠ ARead n j) → client_moved γ cl (k z) w2).
  { intros Hw2 He Hr. apply (client_moves_keep γ cl h e z); try done.
    intros z' [Hin|[= <- <-]%list_elem_of_singleton]%elem_of_app; [by apply Hz|by destruct (Hr _ _ eq_refl)]. }
  destruct (decide (idle e)) as [He|He].
  { apply Hkeep; [|by destruct e|by intros ? ? ->]. by eapply perform_quiet, Hd; [apply idle_quiet|]. }
  destruct e; try (by destruct He).
  - destruct Hm as [-> ->]. apply (perform_read_client γ) in Hd as [Hw2 Hl]; [|done|done].
    eapply (client_moves_keep γ cl h _ z); [|done..| |exact Hk]; [done|].
    intros z' [Hin|[= <-]%list_elem_of_singleton]%elem_of_app; [by apply Hz|done].
  - destruct Hm as (Hno & -> & len & Hlen & ->). by eapply client_moves_write.
  - simpl in Hm. subst name. apply Hkeep; [|done|done]. eapply perform_quiet, Hd; [|done].
    apply client_fifo_not_server. by apply pids_int_elem.
  - destruct Hm as (-> & z0 & Hin & Hpos & ->). apply Hkeep; [|done|done].
    destruct (Hz z0 Hin Hpos) as [l Hl]. by eapply perform_print, Hd.
Qed.

(** *** Every run *)

Definition inv (c : config action label world) : Prop :=
  ∃ γ cs cl w, c = Config (cs :: cl) w None ∧ ghost_ok γ ∧ world_ok γ w ∧ server_ok γ cs ∧
    Forall2 (client_ok γ) clients cl.

Lemma perform_no_spawn i r (e : action) (w : world) l w' : perform i r e w ≠ Spawn l w'.
Proof. destruct e; cbn; unfold try_call; repeat case_match; congruence. Qed.

Lemma inv_step i c c' : inv c → sched_step i c = Some c' → inv c'.
Proof.
  intros (γ & cs & cl & w & -> & Hg & Hw & Hs & Hc) (cd & c2 & w2 & Hi & -> & Hm)%sched_moves;
    [|done|apply perform_no_spawn].
  destruct i as [|i]; simpl in Hi.
  - injection Hi as ->. destruct (server_moves _ _ _ _ _ Hg Hw Hs Hm) as (γ' & Hg' & Hw' & Hs' & Hgr & Hrq).
    exists γ', c2, cl, w2. split_and!; [done..|]. eapply Forall2_impl; [exact Hc|].
    intros x y. apply client_ok_mono; [apply Hrq|done].
  - destruct (Forall2_lookup_r _ _ _ _ _ Hc Hi) as (x & Hx & Hxc).
    destruct (client_moves γ x cd w c2 w2) as (γ' & Hg' & Hw' & Hx' & Hgr & Hcur & Hrq); [|done..|].
    { by eapply list_elem_of_lookup_2. }
    exists γ', cs, (<[i := c2]> cl), w2. split_and!; [done|done|done| |].
    + destruct Hs as (l & H1 & H2 & H3). exists l. rewrite Hgr, Hcur. done.
    + eapply Forall2_update; [exact Hc|exact Hx|exact Hx'|]. intros j y d Hne Hy Hd.
      apply (client_ok_mono γ); [|by rewrite Hgr|exact Hd].
      intros [Hin|E]%Hrq; [done|]. destruct Hne. symmetry.
      eapply (NoDup_lookup clients.*1 i j); [done|by rewrite list_lookup_fmap, Hx|].
      by rewrite list_lookup_fmap, Hy, <- E.
Qed.

Lemma seqnum_inv_launch st :
  Forall (Z.le 0) st → inv (launch (SStart :: (uncurry CStart <$> clients)) st).
Proof.
  intros Hst. exists (Ghost [] None []), (Goto SStart), (Goto <$> (uncurry CStart <$> clients)), (World ∅ [] [] st).
  split_and!; [done|split; [apply NoDup_nil_2|done|done]| | |].
  - split; simpl; [done|done|by intros pid t Hin%not_elem_of_nil|done].
  - exists SStart. split_and!; [done|done|]. by left.
  - apply Forall2_same_length_lookup. rewrite !length_fmap. split; [done|]. intros i x c Hx.
    rewrite <- list_fmap_compose, list_lookup_fmap, Hx. intros [= <-]. left.
    split; [by destruct x|apply not_elem_of_nil].
Qed.

Lemma seqnum_inv_reachable st c :
  Forall (Z.le 0) st → reachable (launch (SStart :: (uncurry CStart <$> clients)) st) c → inv c.
Proof.
  intros Hst. apply (invariant_reachable inv); [|by apply seqnum_inv_launch].
  intros i a b. apply inv_step.
Qed.

(** *** Consequences *)

Lemma asked_fun pid l l' : asked pid l → asked pid l' → l = l'.
Proof.
  intros (arg & Hin & Hl) (arg' & Hin' & Hl').
  apply list_elem_of_lookup in Hin as [i Hi], Hin' as [j Hj].
  assert (i = j) as <-; [|congruence].
  eapply (NoDup_lookup clients.*1); [done|by rewrite list_lookup_fmap, Hi|by rewrite list_lookup_fmap, Hj].
Qed.

Definition start_of (g : list (Z * Z * Z)) (pid : Z) : Z :=
  match list_find (λ x, x.1.1 = pid) g with Some (_, x) => x.1.2 | None => 0 end.

Lemma start_of_granted g pid n l : NoDup (g.*1).*1 → (pid, n, l) ∈ g → start_of g pid = n.
Proof.
  intros Hd Hin. unfold start_of. destruct (list_find _ g) as [[i x]|] eqn:E.
  - apply list_find_Some in E as (Hi & Hx & _). apply list_elem_of_lookup in Hin as [j Hj].
    assert (i = j) as <-; [|rewrite Hi in Hj; by injection Hj as ->].
    eapply (NoDup_lookup (g.*1).*1); [done|..].
    + by rewrite !list_lookup_fmap, Hi.
    + rewrite !list_lookup_fmap, Hj. simpl. by rewrite Hx.
  - apply list_find_None in E. rewrite Forall_forall in E. by destruct (E _ Hin).
Qed.

Definition lengths : list Z := omap (λ cl, seq_len cl.2) clients.

(** The clients with what they ask for. *)
Definition asking : list (Z * Z) := omap (λ cl, (cl.1,.) <$> seq_len cl.2) clients.

Lemma asking_lengths : asking.*2 = lengths.
Proof.
  unfold asking, lengths. clear. induction clients as [|cl l IH]; [done|]. simpl.
  destruct (seq_len cl.2); simpl; [by f_equal|done].
Qed.

Lemma elem_of_asking pid l : asked pid l → (pid, l) ∈ asking.
Proof. intros (arg & Hin & Hl). apply list_elem_of_omap. exists (pid, arg). simpl. by rewrite Hl. Qed.

(** Each client is granted at most what it asks for, once. *)
Lemma granted_total γ : ghost_ok γ → sum_of γ.(granted).*2 <= sum_of lengths.
Proof.
  intros [H1 H2 _]. set (p := (λ x : Z * Z * Z, (x.1.1, x.2)) <$> γ.(granted)).
  assert (Hp : p.*2 = γ.(granted).*2) by (unfold p; by rewrite <- list_fmap_compose).
  assert (Hs : p ⊆+ asking).
  { apply NoDup_submseteq.
    - apply (NoDup_fmap_1 fst). unfold p. rewrite <- list_fmap_compose. apply NoDup_app in H1 as [H1 _].
      by rewrite <- list_fmap_compose in H1.
    - intros x (y & -> & Hy)%list_elem_of_fmap. apply elem_of_asking.
      rewrite Forall_forall in H2. by apply H2. }
  apply submseteq_Permutation in Hs as [k Hk].
  rewrite <- Hp, <- asking_lengths, Hk, fmap_app, sum_of_app.
  enough (0 <= sum_of k.*2) by lia. apply sum_of_nonneg, Forall_fmap, Forall_forall. intros [pid l] Hin.
  assert (Hin' : (pid, l) ∈ asking) by (rewrite Hk; apply elem_of_app; by right).
  apply list_elem_of_omap in Hin' as ([pid' arg] & _ & Hl). simpl in *.
  destruct (seq_len arg) as [l'|] eqn:E; [|done]. injection Hl as <- <-.
  apply seq_len_pos in E. simpl. lia.
Qed.

Lemma inv_defined c :
  inv c → sum_of lengths <= INT_MAX → c.(pool) !! 0%nat ≠ Some (End Undefined).
Proof.
  intros (γ & cs & cl & w & -> & Hg & _ & Hs & _) Ht [= ->].
  destruct Hs as (l & _ & _ & [[? _]|(h & Hf & Hch & _)]); [done|].
  destruct (Hf eq_refl) as (s & -> & Hno). apply Hno. simpl in Hch.
  pose proof (chain_le _ _ _ Hch). apply chain_total in Hch. pose proof (granted_total γ Hg).
  unfold is_int, INT_MIN. lia.
Qed.

Lemma inv_printed c :
  inv c → ∃ start : Z → Z,
    (∀ pid t, (pid, t) ∈ c.(wld).(printed) →
       0 <= start pid ∧ t = fmt_d (start pid) +:+ nl ∧ ∃ len, asked pid len) ∧
    ∀ p1 t1 l1 p2 t2 l2, (p1, t1) ∈ c.(wld).(printed) → (p2, t2) ∈ c.(wld).(printed) →
      asked p1 l1 → asked p2 l2 → p1 ≠ p2 →
      start p1 + l1 <= start p2 ∨ start p2 + l2 <= start p1.
Proof.
  intros (γ & cs & cl & w & -> & [H1 H2 _] & Hw & Hs & _). exists (start_of γ.(granted)).
  apply NoDup_app in H1 as [H1 _]. rewrite Forall_forall in H2.
  assert (Hch : ∃ e, chain 0 γ.(granted) e) by (destruct Hs as (l & _ & _ & [(_ & ? & _)|(h & _ & ? & _)]); eauto).
  destruct Hch as [e Hch].
  assert (Hp : ∀ pid t, (pid, t) ∈ w.(printed) → ∃ n l, (pid, n, l) ∈ γ.(granted) ∧
    t = fmt_d n +:+ nl ∧ start_of γ.(granted) pid = n ∧ asked pid l).
  { intros pid t Hin. destruct (w_printed _ _ Hw pid t Hin) as (n & l & Hg & ->). exists n, l.
    split_and!; [done|done|by eapply start_of_granted|by apply (H2 _ Hg)]. }
  split.
  - intros pid t (n & l & Hg & -> & -> & Ha)%Hp. split_and!; [|done|by exists l].
    by apply (chain_bounds _ _ _ _ _ _ Hch Hg).
  - intros p1 t1 l1 p2 t2 l2 (n1 & l1' & Hg1 & _ & -> & Ha1)%Hp (n2 & l2' & Hg2 & _ & -> & Ha2)%Hp Hl1 Hl2 Hne.
    rewrite (asked_fun _ _ _ Hl1 Ha1), (asked_fun _ _ _ Hl2 Ha2).
    destruct (chain_disjoint _ _ _ _ _ Hch Hg1 Hg2) as [[=]|?]; done.
Qed.
End clients.

(** C11: However many clients of distinct process ids run, however server and
    clients are interleaved, and whichever calls fail, the numbers the clients
    print are the starts of sequences of the lengths they asked for, and no two
    of these have a number in common; the server has no undefined behaviour as
    long as the lengths asked for add up to at most [INT_MAX]. *)
Theorem fifo_sequences_disjoint clients st c :
  NoDup clients.*1 → Forall (λ cl, is_int cl.1) clients → Forall (Z.le 0) st →
  reachable (launch (SStart :: (uncurry CStart <$> clients)) st) c →
  (∃ start : Z → Z,
    (∀ pid t, (pid, t) ∈ c.(wld).(printed) →
       0 <= start pid ∧ t = fmt_d (start pid) +:+ nl ∧ ∃ len, asked clients pid len) ∧
    ∀ p1 t1 l1 p2 t2 l2, (p1, t1) ∈ c.(wld).(printed) → (p2, t2) ∈ c.(wld).(printed) →
      asked clients p1 l1 → asked clients p2 l2 → p1 ≠ p2 →
      start p1 + l1 <= start p2 ∨ start p2 + l2 <= start p1) ∧
  (sum_of (lengths clients) <= INT_MAX → c.(pool) !! 0%nat ≠ Some (End Undefined)).
Proof.
  intros Hd Hi Hst Hr. pose proof (seqnum_inv_reachable clients Hd Hi st c Hst Hr) as Hinv. split.
  - by apply inv_printed.
  - by apply inv_defined.
Qed.

(** A schedule given by the turns of the processes. *)
Definition turns (l : list (nat * nat)) : list nat := flat_map (λ x, replicate x.2 x.1) l.

(** Two clients that ask for three numbers and for one. *)
Definition two_clients : list (Z * option string) := [(5, Some "3"); (12, None)].
Definition two_schedule : list nat :=
  turns [(0, 3); (1, 7); (2, 7); (0, 17); (1, 6); (2, 6)]%nat.

Lemma fifo_sequences_disjoint_witness :
  ∃ c, reachable (launch (SStart :: (uncurry CStart <$> two_clients)) []) c ∧
    c.(wld).(printed) = [(5, fmt_d 0 +:+ nl); (12, fmt_d 3 +:+ nl)] ∧
    c.(pool) !! 0%nat ≠ Some (End Undefined).
Proof.
  destruct (run_schedule_view (λ c, c.(wld).(printed)) two_schedule
    (launch (SStart :: (uncurry CStart <$> two_clients)) [])
    [(5, fmt_d 0 +:+ nl); (12, fmt_d 3 +:+ nl)]) as (c & Hr & Hp); [vm_compute; reflexivity|].
  exists c. split; [done|]. split; [done|]. apply (fifo_sequences_disjoint two_clients [] c).
  - apply (bool_decide_unpack _). vm_compute. exact I.
  - repeat constructor; unfold is_int; vm_compute; discriminate.
  - constructor.
  - done.
  - vm_compute. discriminate.
Defined.

(** The server takes any length: when a process asks for a negative one, two
    others are given the same numbers. *)
Theorem negative_length_overlaps :
  ∃ c, reachable (launch [SStart; CRaw 1 10; CRaw 2 (-10); CRaw 3 10] []) c ∧
    c.(wld).(printed) = [(1, "0" +:+ nl); (2, "10" +:+ nl); (3, "0" +:+ nl)].
Proof.
  apply (run_schedule_view (λ c, c.(wld).(printed))
    (turns [(0, 3); (1, 6); (2, 6); (3, 6); (0, 23); (1, 6); (2, 6); (3, 6)]%nat)).
  vm_compute. reflexivity.
Qed.

(** Nothing keeps a second server from reading the same FIFO, and it counts for
    itself: two clients are given the same numbers. *)
Theorem second_server_overlaps :
  ∃ c, reachable (launch [SStart; SStart; CStart 1 (Some "10"); CStart 2 (Some "10")] []) c ∧
    c.(wld).(printed) = [(1, "0" +:+ nl); (2, "0" +:+ nl)].
Proof.
  apply (run_schedule_view (λ c, c.(wld).(printed))
    (turns [(0, 3); (1, 3); (2, 7); (0, 11); (1, 5); (2, 6); (3, 7); (1, 6); (3, 6)]%nat)).
  vm_compute. reflexivity.
Qed.
