(* ===== verification/PidFile.v ===== *)
(** One instance of a program: [filelock/create_pid_file.c] over
    [filelock/region_locking.c].

    Any number of processes that call [createPidFile] interleave at every system
    call, over a file system of names and files with record locks.  At most one
    of them gets past the call at a time, and the file then holds its process
    id, as long as the file is not removed; removing it, as the comment of the
    function asks for, lets two instances run. *)
From stdpp Require Import relations gmap strings.
From S2P Require Import Prelude CLib Conc.
Local Open Scope Z_scope.

(** ** Record locks *)

Definition F_GETFD : Z := 1.
Definition F_GETLK : Z := 5.
Definition F_SETLK : Z := 6.
Definition F_SETLKW : Z := 7.
Definition FD_CLOEXEC : Z := 1.
Definition F_RDLCK : Z := 0.
Definition F_WRLCK : Z := 1.
Definition F_UNLCK : Z := 2.
Definition SEEK_SET : Z := 0.
Definition SEEK_CUR : Z := 1.
Definition SEEK_END : Z := 2.

Record flock := Flock { l_type : Z; l_whence : Z; l_start : Z; l_len : Z; l_pid : Z }.

(** A lock held: its owner, type, first byte and the byte after its last one,
    if it does not extend to the end of the file. *)
Record lock := Lock { owner : Z; type : Z; first : Z; last : option Z }.

Definition before_end (x : Z) (e : option Z) : bool :=
  match e with Some e => x <? e | None => true end.
Definition overlap (l l' : lock) : bool :=
  before_end l.(first) l'.(last) && before_end l'.(first) l.(last).
Definition conflict (l l' : lock) : bool :=
  negb (l.(owner) =? l'.(owner)) && overlap l l' &&
  ((l.(type) =? F_WRLCK) || (l'.(type) =? F_WRLCK)).

(** What is left of a lock outside a range. *)
Definition carve (r l : lock) : list lock :=
  if negb (overlap r l) then [l] else
  (if l.(first) <? r.(first) then [Lock l.(owner) l.(type) l.(first) (Some r.(first))] else []) ++
  match r.(last) with
  | Some e => if before_end e l.(last) then [Lock l.(owner) l.(type) e l.(last)] else []
  | None => []
  end.

(** The locks of a file after [r] was set by its owner. *)
Definition set_lock (r : lock) (ls : list lock) : list lock :=
  (if r.(type) =? F_UNLCK then [] else [r]) ++
  flat_map (λ l, if l.(owner) =? r.(owner) then carve r l else [l]) ls.

(** ** Files and processes *)

Record inode := Inode { content : string; locks : list lock }.
Record ofile := OFile { o_inode : nat; o_offset : nat; o_flags : Z; o_pid : Z }.

(** A descriptor is an index of [files]. *)
Record world := World {
  names : gmap string nat;
  inodes : list inode;
  files : list ofile;
  running : list Z;         (* the processes past their call *)
  statuses : list Z         (* of calls to come: 0, an error, or minus the bytes a write accepts *)
}.

(** The lock a [struct flock] describes, by process [pid]. *)
Definition lock_of (pid : Z) (f : ofile) (size : nat) (fl : flock) : option lock :=
  let base := if fl.(l_whence) =? SEEK_CUR then Z.of_nat f.(o_offset)
              else if fl.(l_whence) =? SEEK_END then Z.of_nat size else 0 in
  let s := base + fl.(l_start) in
  if 0 <? fl.(l_len) then
    if s <? 0 then None else Some (Lock pid fl.(l_type) s (Some (s + fl.(l_len))))
  else if fl.(l_len) =? 0 then
    if s <? 0 then None else Some (Lock pid fl.(l_type) s None)
  else if s + fl.(l_len) <? 0 then None
  else Some (Lock pid fl.(l_type) (s + fl.(l_len)) (Some s)).

Inductive action :=
| AOpen (pid : Z) (path : string)    (* O_RDWR | O_CREAT *)
| AGetfd (fd : Z)
| ASetfd (fd flags : Z)
| AFcntl (pid fd cmd : Z) (fl : flock)   (* F_SETLK and F_SETLKW *)
| AGetlk (pid fd : Z) (fl : flock)       (* F_GETLK *)
| AFtruncate (fd : Z) (len : nat)
| AWrite (fd : Z) (text : string)
| AEnter (pid : Z)                   (* the process goes about its work *)
| AUnlink (path : string)
| AExit (pid : Z).                   (* its end: descriptors and locks are released *)

Inductive label := Start (pid : Z) (progName pidFile : string) (flags : Z) (removes : bool).

Definition pop (w : world) : Z * world :=
  match w.(statuses) with
  | [] => (0, w)
  | z :: l => (z, World w.(names) w.(inodes) w.(files) w.(running) l)
  end.

Definition set_inode (n : nat) (i : inode) (w : world) : world :=
  World w.(names) (<[n := i]> w.(inodes)) w.(files) w.(running) w.(statuses).
Definition set_file (fd : Z) (f : ofile) (w : world) : world :=
  World w.(names) w.(inodes) (<[Z.to_nat fd := f]> w.(files)) w.(running) w.(statuses).

(** A call on an open descriptor, which fails with the error of its status. *)
Definition on_file (fd : Z) (f : ofile → inode → world → outcome label world) (w : world) :
    outcome label world :=
  let '(z, w) := pop w in
  if 0 <? z then Val (- z) w else
  match (if fd <? 0 then None else w.(files) !! Z.to_nat fd) with
  | None => Val (- EBADF) w
  | Some o => match w.(inodes) !! o.(o_inode) with
              | Some i => f o i w
              | None => Val (- EBADF) w
              end
  end.

(** [text] written at an offset, which may be past the end. *)
Definition write_at (off : nat) (text c : string) : string :=
  take_str off (c +:+ of_chars (replicate (off - String.length c) Ascii.zero)) +:+ text +:+
  drop_str (off + String.length text) c.

(** [F_GETLK] stores the type and owner of a lock in the way, or [F_UNLCK]; its
    result stands for both. *)
Definition getlk_result (l_pid l_type : Z) : Z := l_pid * 4 + l_type.

Definition do_action (_ : nat) (_ : list bool) (a : action) (w : world) : outcome label world :=
  match a with
  | AOpen pid path =>
      let '(z, w) := pop w in
      if 0 <? z then Val (- z) w else
      let fd := Z.of_nat (length w.(files)) in
      match w.(names) !! path with
      | Some n =>
          Val fd (World w.(names) w.(inodes) (w.(files) ++ [OFile n 0 0 pid]) w.(running) w.(statuses))
      | None =>
          let n := length w.(inodes) in
          Val fd (World (<[path := n]> w.(names)) (w.(inodes) ++ [Inode "" []])
                    (w.(files) ++ [OFile n 0 0 pid]) w.(running) w.(statuses))
      end
  | AGetfd fd => on_file fd (λ o _ w, Val o.(o_flags) w) w
  | ASetfd fd flags => on_file fd (λ o _ w,
      Val 0 (set_file fd (OFile o.(o_inode) o.(o_offset) flags o.(o_pid)) w)) w
  | AFcntl pid fd cmd fl => on_file fd (λ o i w,
      match lock_of pid o (String.length i.(content)) fl with
      | None => Val (- EINVAL) w
      | Some l =>
          if negb (l.(type) =? F_UNLCK) && existsb (conflict l) i.(locks)
          then if cmd =? F_SETLKW then Blocked else Val (- EAGAIN) w
          else Val 0 (set_inode o.(o_inode) (Inode i.(content) (set_lock l i.(locks))) w)
      end) w
  | AGetlk pid fd fl => on_file fd (λ o i w,
      match lock_of pid o (String.length i.(content)) fl with
      | None => Val (- EINVAL) w
      | Some l => match List.find (conflict l) i.(locks) with
                  | Some l' => Val (getlk_result l'.(owner) l'.(type)) w
                  | None => Val (getlk_result 0 F_UNLCK) w
                  end
      end) w
  | AFtruncate fd len => on_file fd (λ o i w,
      Val 0 (set_inode o.(o_inode) (Inode (take_str len i.(content)) i.(locks)) w)) w
  | AWrite fd text =>
      let k := match w.(statuses) with z :: _ => if z <? 0 then Z.to_nat (- z) else String.length text
               | [] => String.length text end in
      on_file fd (λ o i w,
        let text := take_str k text in
        Val (Z.of_nat (String.length text))
          (set_file fd (OFile o.(o_inode) (o.(o_offset) + String.length text) o.(o_flags) o.(o_pid))
            (set_inode o.(o_inode) (Inode (write_at o.(o_offset) text i.(content)) i.(locks)) w))) w
  | AEnter pid =>
      Val 0 (World w.(names) w.(inodes) w.(files) (pid :: w.(running)) w.(statuses))
  | AUnlink path =>
      Val 0 (World (delete path w.(names)) w.(inodes) w.(files) w.(running) w.(statuses))
  | AExit pid =>
      Val 0 (World w.(names)
        ((λ i, Inode i.(content) (List.filter (λ l, negb (l.(owner) =? pid)) i.(locks))) <$> w.(inodes))
        w.(files) (List.filter (λ p, negb (p =? pid)) w.(running)) w.(statuses))
  end.

Local Abbreviation prog := (code action label).

(** ** The code *)

Section code.
Variable pid : Z.

(** *** [region_locking.c] *)

Definition lockReg (fd cmd type whence start len : Z) : prog Z :=
  act (AFcntl pid fd cmd (Flock type whence start len 0)).
Definition lockRegion (fd type whence start len : Z) : prog Z :=
  lockReg fd F_SETLK type whence start len.
Definition lockRegionWait (fd type whence start len : Z) : prog Z :=
  lockReg fd F_SETLKW type whence start len.

Definition regionIsLocked (fd type whence start len : Z) : prog Z :=
  r ← act (AGetlk pid fd (Flock type whence start len 0));
  if r <? 0 then mret (-1)
  else mret (if r mod 4 =? F_UNLCK then 0 else r / 4).

(** *** [create_pid_file.c] *)

Definition CPF_CLOEXEC : Z := 1.
Definition BUF_SIZE : nat := 100.

(** The fatal reports end the process. *)
Definition systmErr {A} (e : Z) (msg : string) : prog A := _ ← act (AExit pid); End (Failed e msg).
Definition custmErr {A} (msg : string) : prog A := _ ← act (AExit pid); End (Failed 0 msg).

Definition set_cloexec (pidFile : string) (fd : Z) : prog unit :=
  flags ← act (AGetfd fd);
  if flags <? 0 then systmErr (- flags) ("Could not get flags for PID file " +:+ pidFile) else
  r ← act (ASetfd fd (Z.lor flags FD_CLOEXEC));
  if r <? 0 then systmErr (- r) ("Could not set flags for PID file " +:+ pidFile) else mret tt.

Definition pid_line : string := snprintf BUF_SIZE (fmt_d pid +:+ nl).

Definition createPidFile (progName pidFile : string) (flags : Z) : prog Z :=
  fd ← act (AOpen pid pidFile);
  if fd <? 0 then systmErr (- fd) ("Could not open PID file " +:+ pidFile) else
  _ ← (if has flags CPF_CLOEXEC then set_cloexec pidFile fd else mret tt);
  l ← lockRegion fd F_WRLCK SEEK_SET 0 0;
  if l <? 0 then
    if (- l =? EAGAIN) || (- l =? EACCES)
    then custmErr ("PID file '" +:+ pidFile +:+ "' is locked; probably '" +:+ progName +:+
                   "' is already running")
    else systmErr (- l) ("Unable to lock PID file '" +:+ pidFile +:+ "'")
  else
  t ← act (AFtruncate fd 0);
  if t <? 0 then systmErr (- t) ("Could not truncate PID file '" +:+ pidFile +:+ "'") else
  let buf := pid_line in
  n ← act (AWrite fd buf);
  if negb (n =? Z.of_nat (String.length buf))
  then custmErr ("Writing to PID file '" +:+ pidFile +:+ "'") else
  mret fd.

(** A program that uses it: it works, removes the file if it is one that does,
    and ends. *)
Definition daemon (progName pidFile : string) (flags : Z) (removes : bool) : prog unit :=
  _ ← createPidFile progName pidFile flags;
  _ ← act (AEnter pid);
  _ ← (if removes then act (AUnlink pidFile) else mret 0);
  _ ← act (AExit pid);
  End (Exited EXIT_SUCCESS).
End code.

#[export] Instance sys : Sys action label world := {|
  perform := do_action;
  body l := match l with Start pid progName pidFile flags removes =>
              daemon pid progName pidFile flags removes end;
  one_process := false
|}.

(** No file, or one with the text an earlier instance left in it; no locks. *)
Definition fresh (pidFile : string) (c0 : option string) (st : list Z) : world :=
  match c0 with
  | None => World ∅ [] [] [] st
  | Some c => World {[ pidFile := 0%nat ]} [Inode c []] [] [] st
  end.

Definition launch (ls : list label) (w : world) : config action label world :=
  Config (Goto <$> ls) w None.

(** ** The order of a process's calls *)

Local Abbreviation hist := (list (action * Z)).

(** How far a process has come: it holds the lock from [Locked] on; [Broken] is
    an incomplete write. *)
Inductive phase := Before | Locked | Cleared | Written | Running | Broken | Gone.

#[global] Instance phase_eq_dec : EqDecision phase.
Proof. solve_decision. Defined.

Definition advance (ph : phase) (x : action * Z) : phase :=
  match x.1, ph with
  | AExit _, _ => Gone
  | AFcntl _ _ _ _, Before => if 0 <=? x.2 then Locked else Before
  | AFtruncate _ _, Locked => if 0 <=? x.2 then Cleared else Locked
  | AWrite _ text, Cleared =>
      if x.2 =? Z.of_nat (String.length text) then Written
      else if x.2 <? 0 then Cleared else Broken
  | AEnter _, Written => Running
  | _, _ => ph
  end.
Definition phase_of (h : hist) : phase := fold_left advance h Before.

Definition whole_file (pid : Z) : lock := Lock pid F_WRLCK 0 None.

(** The descriptor is one this process has opened. *)
Definition opened (pid : Z) (pidFile : string) (h : hist) (fd : Z) : Prop :=
  (AOpen pid pidFile, fd) ∈ h ∧ 0 <= fd.

Definition may (pid : Z) (pidFile : string) (h : hist) (a : action) : Prop :=
  match a with
  | AOpen p path => p = pid ∧ path = pidFile ∧ phase_of h = Before
  | AFcntl p fd cmd fl => p = pid ∧ opened pid pidFile h fd ∧ phase_of h = Before ∧
      cmd = F_SETLK ∧ fl = Flock F_WRLCK SEEK_SET 0 0 0
  | AFtruncate fd len => opened pid pidFile h fd ∧ phase_of h = Locked ∧ len = 0%nat
  | AWrite fd text => opened pid pidFile h fd ∧ phase_of h = Cleared ∧ text = pid_line pid
  | AEnter p => p = pid ∧ phase_of h = Written
  | AUnlink _ | AGetlk _ _ _ => False
  | AExit p => p = pid
  | AGetfd _ => True
  | ASetfd fd _ => opened pid pidFile h fd
  end.

Definition follows {A} (pid : Z) (pidFile : string) (h : hist) (c : prog A)
    (Q : hist → A → Prop) : Prop :=
  respects (may pid pidFile) (λ h _, phase_of h = Gone) no_jump h c Q.

Lemma phase_snoc h x : phase_of (h ++ [x]) = advance (phase_of h) x.
Proof. unfold phase_of. by rewrite fold_left_app. Qed.

Lemma opened_app pid pidFile h h' fd : opened pid pidFile h fd → opened pid pidFile (h ++ h') fd.
Proof. intros [Hin Hfd]. split; [apply elem_of_app; by left|done]. Qed.

(** The fatal reports are allowed anywhere. *)
Lemma follows_die {A} pid pidFile h f (Q : hist → A → Prop) :
  follows pid pidFile h (_ ← act (AExit pid); End f) Q.
Proof. apply respects_step; [done|]. intros z. simpl. by rewrite phase_snoc. Qed.

(** A call that ends the process when it fails. *)
Lemma follows_call {A} pid pidFile h a (k : Z → prog A) (Q : hist → A → Prop) :
  may pid pidFile h a → (∀ z, follows pid pidFile (h ++ [(a, z)]) (k z) Q) →
  follows pid pidFile h (z ← act a; k z) Q.
Proof. apply respects_step. Qed.

Lemma follows_set_cloexec pid pidFile h fd :
  opened pid pidFile h fd → phase_of h = Before →
  follows pid pidFile h (set_cloexec pid pidFile fd)
    (λ h' _, opened pid pidFile h' fd ∧ phase_of h' = Before).
Proof.
  intros Ho Hp. unfold set_cloexec. apply follows_call; [done|]; intros flags.
  destruct (flags <? 0); [apply follows_die|].
  apply follows_call; [by apply opened_app|]; intros r. destruct (r <? 0); [apply follows_die|].
  apply respects_ret. split; [by do 2 apply opened_app|]. by rewrite !phase_snoc, Hp.
Qed.

Lemma follows_createPidFile pid progName pidFile flags :
  follows pid pidFile [] (createPidFile pid progName pidFile flags) (λ h _, phase_of h = Written).
Proof.
  unfold createPidFile. apply follows_call; [done|]; intros fd. simpl app.
  destruct (Z.ltb_spec fd 0); [apply follows_die|].
  assert (H0 : opened pid pidFile [(AOpen pid pidFile, fd)] fd ∧
               phase_of [(AOpen pid pidFile, fd)] = Before) by (split; [split; [by left|done]|done]).
  revert H0. generalize [(AOpen pid pidFile, fd)]. intros h [Ho Hp].
  eapply (respects_seq _ _ _ _ _ _ (λ h' _, opened pid pidFile h' fd ∧ phase_of h' = Before)).
  { destruct (has flags CPF_CLOEXEC); [by apply follows_set_cloexec|by apply respects_ret]. }
  clear h Ho Hp. intros h [] [Ho Hp]. simpl in Ho, Hp.
  apply follows_call; [by split_and!|]; intros l. destruct (Z.ltb_spec l 0).
  { destruct (_ || _); apply follows_die. }
  apply follows_call.
  { split_and!; [by apply opened_app| |done]. rewrite phase_snoc, Hp. cbn [advance fst snd].
    by rewrite (proj2 (Z.leb_le 0 l)). }
  intros t. destruct (Z.ltb_spec t 0); [apply follows_die|].
  assert (Hp2 : phase_of ((h ++ [(AFcntl pid fd F_SETLK (Flock F_WRLCK SEEK_SET 0 0 0), l)]) ++
    [(AFtruncate fd 0, t)]) = Cleared).
  { rewrite !phase_snoc, Hp. cbn [advance fst snd]. rewrite (proj2 (Z.leb_le 0 l)) by done.
    cbn [advance fst snd]. by rewrite (proj2 (Z.leb_le 0 t)). }
  apply follows_call; [split; [by do 2 apply opened_app|done]|]; intros n.
  destruct (Z.eqb_spec n (Z.of_nat (String.length (pid_line pid)))) as [->|]; simpl negb; cbv iota.
  - apply respects_ret. rewrite phase_snoc, Hp2. cbn [advance fst snd]. by rewrite Z.eqb_refl.
  - apply follows_die.
Qed.

Lemma follows_daemon pid progName pidFile flags :
  follows pid pidFile [] (daemon pid progName pidFile flags false) (λ _ _, False).
Proof.
  unfold daemon. eapply respects_seq; [apply follows_createPidFile|]. intros h fd Hp. simpl in Hp.
  apply follows_call; [done|]; intros z. apply follows_die.
Qed.

(** ** The invariant *)

Section instances.
Variable pidFile : string.
(** The processes: ids, program names and flags. *)
Variable procs : list (Z * string * Z).
Hypothesis pids_distinct : NoDup (procs.*1).*1.

(** The file, as long as no one removes it: whether it exists, who has locked it,
    its text; and the processes at work. *)
Record abs := Abs { present : bool; holder : option Z; text : string; active : list Z }.

Record repr (w : world) (A : abs) : Prop := {
  r_inodes : w.(inodes) = if A.(present)
    then [Inode A.(text) (option_list (whole_file <$> A.(holder)))] else [];
  r_names : w.(names) !! pidFile = if A.(present) then Some 0%nat else None;
  r_files : Forall (λ f, o_inode f = 0%nat) w.(files);
  r_absent : A.(present) = false → A.(holder) = None;
  r_running : w.(running) = A.(active)
}.

Definition one_active (A : abs) : Prop :=
  A.(active) = [] ∨ ∃ p, A.(active) = [p] ∧ A.(holder) = Some p.

(** Until it writes, a process is at the start of the file. *)
Definition at_start (ph : phase) : Prop :=
  match ph with Before | Locked | Cleared => True | _ => False end.

Definition phase_ok (A : abs) (pid : Z) (ph : phase) : Prop :=
  match ph with
  | Before | Gone => A.(holder) ≠ Some pid ∧ (pid ∉ A.(active))
  | Locked | Broken => A.(holder) = Some pid ∧ (pid ∉ A.(active))
  | Cleared => A.(holder) = Some pid ∧ (pid ∉ A.(active)) ∧ A.(text) = ""
  | Written => A.(holder) = Some pid ∧ (pid ∉ A.(active)) ∧ A.(text) = pid_line pid
  | Running => A.(holder) = Some pid ∧ A.(active) = [pid] ∧ A.(text) = pid_line pid
  end.

Definition files_ok (w : world) (pid : Z) (h : hist) : Prop :=
  ∀ fd, opened pid pidFile h fd → ∃ f, w.(files) !! Z.to_nat fd = Some f ∧ f.(o_pid) = pid ∧
    (at_start (phase_of h) → f.(o_offset) = 0%nat).

Definition proc_ok (A : abs) (w : world) (pid : Z) (h : hist) : Prop :=
  phase_ok A pid (phase_of h) ∧ files_ok w pid h.

(** What an action of another process leaves alone. *)
Record keeps (q : Z) (A : abs) (w : world) (A' : abs) (w' : world) : Prop := {
  k_holder : (A'.(holder) = Some q) ↔ (A.(holder) = Some q);
  k_text : A.(holder) = Some q → A'.(text) = A.(text);
  k_active : A.(holder) = Some q → A'.(active) = A.(active);
  k_inactive : q ∈ A'.(active) → q ∈ A.(active);
  k_files fd f : w.(files) !! fd = Some f → f.(o_pid) = q → w'.(files) !! fd = Some f
}.

Lemma proc_ok_keeps q A w A' w' h : keeps q A w A' w' → proc_ok A w q h → proc_ok A' w' q h.
Proof.
  intros [H1 H2 H3 H4 H5] [Hp Hf]. split.
  - destruct (phase_of h); simpl in *; try (rewrite H1; split; [by apply Hp|]; intros Hin; by apply Hp, H4).
    all: destruct Hp as (Hh & Ha & Ht); rewrite H1, H2, H3 by done; done.
  - intros fd Ho. destruct (Hf fd Ho) as (f & Hl & Hpid & Hoff). exists f. split; [by apply H5|done].
Qed.

Lemma keeps_refl q A w : keeps q A w A w.
Proof. done. Qed.

Lemma pop_repr w z w1 A : pop w = (z, w1) → repr w A → repr w1 A ∧ w1.(files) = w.(files).
Proof. unfold pop. destruct (statuses w); intros [= <- <-] []; done. Qed.

(** A call on a descriptor of the file. *)
Lemma on_file_repr fd f w z w' A :
  repr w A → on_file fd f w = Val z w' →
  (repr w' A ∧ w'.(files) = w.(files) ∧ z < 0) ∨
  ∃ w1 o, repr w1 A ∧ w1.(files) = w.(files) ∧ A.(present) = true ∧
    w.(files) !! Z.to_nat fd = Some o ∧ o.(o_inode) = 0%nat ∧ 0 <= fd ∧
    f o (Inode A.(text) (option_list (whole_file <$> A.(holder)))) w1 = Val z w'.
Proof.
  unfold on_file. destruct (pop w) as [x w1] eqn:Ep. intros Hr.
  destruct (pop_repr _ _ _ _ Ep Hr) as [H1 Hf]. destruct (Z.ltb_spec 0 x).
  { intros [= <- <-]. left. split_and!; [done|done|lia]. }
  destruct (Z.ltb_spec fd 0); [intros [= <- <-]; by left|].
  rewrite Hf. destruct (files w !! Z.to_nat fd) as [o|] eqn:Ef; [|intros [= <- <-]; by left].
  pose proof (r_files _ _ H1) as Hall. rewrite Hf, Forall_lookup in Hall. pose proof (Hall _ _ Ef) as Ho.
  rewrite Ho, (r_inodes _ _ H1). destruct (present A) eqn:Ea; simpl; [|intros [= <- <-]; by left].
  intros H'. right. exists w1, o. by split_and!.
Qed.

(** Nothing but a lock of another process is in the way of a lock on the whole
    file. *)
Lemma whole_conflict pid ho :
  existsb (conflict (whole_file pid)) (option_list (whole_file <$> ho)) =
  match ho with Some q => negb (pid =? q) | None => false end.
Proof. destruct ho as [q|]; [|done]. unfold conflict. simpl. by rewrite andb_true_r, orb_false_r, andb_true_r. Qed.

Lemma repr_set_inode w A o i A' :
  repr w A → A.(present) = true → o = 0%nat →
  A' = Abs true A'.(holder) A'.(text) A.(active) →
  i = Inode A'.(text) (option_list (whole_file <$> A'.(holder))) → repr (set_inode o i w) A'.
Proof.
  intros [H1 H2 H3 H4 H5] Hp -> HA ->. rewrite Hp in *. split; simpl.
  - by rewrite H1, HA.
  - by rewrite H2, HA.
  - done.
  - by rewrite HA.
  - by rewrite HA.
Qed.

Lemma repr_set_file w A fd f : repr w A → f.(o_inode) = 0%nat → repr (set_file fd f w) A.
Proof. intros [H1 H2 H3 H4 H5] Hf. split; simpl; try done. by apply Forall_insert. Qed.

(** *** Moves *)

Definition moved (pid : Z) (A : abs) (w : world) (h : hist) (w' : world) : Prop :=
  ∃ A', repr w' A' ∧ one_active A' ∧ proc_ok A' w' pid h ∧ ∀ q, q ≠ pid → keeps q A w A' w'.

Definition is_open (a : action) : bool := match a with AOpen _ _ => true | _ => false end.

Lemma files_ok_snoc w w' pid h a z :
  is_open a = false → (at_start (advance (phase_of h) (a, z)) → at_start (phase_of h)) →
  (∀ fd f, opened pid pidFile h fd → w.(files) !! Z.to_nat fd = Some f → f.(o_pid) = pid →
     ∃ f', w'.(files) !! Z.to_nat fd = Some f' ∧ f'.(o_pid) = pid ∧
       (at_start (advance (phase_of h) (a, z)) → f'.(o_offset) = f.(o_offset))) →
  files_ok w pid h → files_ok w' pid (h ++ [(a, z)]).
Proof.
  intros Ha Hst Hfiles Hok fd [Hin Hfd]. rewrite phase_snoc.
  apply elem_of_app in Hin as [Hin|[= <- <-]%list_elem_of_singleton]; [|done].
  destruct (Hok fd (conj Hin Hfd)) as (f & Hf & Hpid & Hoff).
  destruct (Hfiles fd f (conj Hin Hfd) Hf Hpid) as (f' & Hf' & Hpid' & Hoff').
  exists f'. split_and!; [done|done|]. intros Hs. rewrite Hoff' by done. by apply Hoff, Hst.
Qed.

(** Nothing happens. *)
Lemma moved_same pid A w h a z w' :
  repr w' A → w'.(files) = w.(files) → one_active A → proc_ok A w pid h →
  is_open a = false → advance (phase_of h) (a, z) = phase_of h → moved pid A w (h ++ [(a, z)]) w'.
Proof.
  intros Hr Hf Hone [Hp Hfs] Ha Hph. exists A. split_and!; [done|done| |].
  - split; [by rewrite phase_snoc, Hph|]. eapply files_ok_snoc; [done|by rewrite Hph| |exact Hfs].
    intros fd f _ Hl Hpid. exists f. rewrite Hf. done.
  - intros q _. split; try done. intros fd f. by rewrite Hf.
Qed.

(** The descriptors stay, and the rest changes as [A] does. *)
Lemma moved_abs pid A A' w h a z w' :
  repr w' A' → w'.(files) = w.(files) → one_active A' → files_ok w pid h →
  is_open a = false → (at_start (advance (phase_of h) (a, z)) → at_start (phase_of h)) →
  phase_ok A' pid (advance (phase_of h) (a, z)) →
  (∀ q, q ≠ pid → (A'.(holder) = Some q ↔ A.(holder) = Some q) ∧
     (A.(holder) = Some q → A'.(text) = A.(text) ∧ A'.(active) = A.(active)) ∧
     (q ∈ A'.(active) → q ∈ A.(active))) →
  moved pid A w (h ++ [(a, z)]) w'.
Proof.
  intros Hr Hf Hone Hfs Ha Hst Hph Hk. exists A'. split_and!; [done|done| |].
  - split; [by rewrite phase_snoc|]. eapply files_ok_snoc; [done|done| |exact Hfs].
    intros fd f _ Hl Hpid. exists f. rewrite Hf. done.
  - intros q Hq. destruct (Hk q Hq) as (H1 & H2 & H3).
    split; [done|intros H; by apply H2|intros H; by apply H2|done|]. intros fd f. by rewrite Hf.
Qed.

Lemma moved_open pid A w h z w' i r :
  repr w A → one_active A → proc_ok A w pid h → phase_of h = Before →
  do_action i r (AOpen pid pidFile) w = Val z w' →
  moved pid A w (h ++ [(AOpen pid pidFile, z)]) w'.
Proof.
  intros Hr Hone [Hp Hfs] Hph. cbn [do_action]. destruct (pop w) as [x w1] eqn:Ep.
  destruct (pop_repr _ _ _ _ Ep Hr) as [H1 Hf]. rewrite Hph in Hp.
  assert (Hphase : ∀ z, phase_of (h ++ [(AOpen pid pidFile, z)]) = Before)
    by (intros z'; by rewrite phase_snoc, Hph).
  assert (Hopened : ∀ z fd, opened pid pidFile (h ++ [(AOpen pid pidFile, z)]) fd →
    opened pid pidFile h fd ∨ fd = z ∧ 0 <= z).
  { intros z' fd [[Hin|[= <-]%list_elem_of_singleton]%elem_of_app Hfd]; [by left|by right]. }
  destruct (Z.ltb_spec 0 x) as [Hx|Hx].
  { intros [= <- <-]. exists A. split_and!; [done|done| |intros q _; split; try done; intros fd f; by rewrite Hf].
    split; [by rewrite Hphase|]. intros fd [Ho|[_ ?]]%Hopened; [|lia].
    destruct (Hfs fd Ho) as (f & Hl & Hpid & Hoff). exists f. rewrite Hf, Hphase, <- Hph. done. }
  set (A' := Abs true A.(holder) (if A.(present) then A.(text) else "") A.(active)).
  assert (Hm : ∀ w2, repr w2 A' → w2.(files) = w1.(files) ++ [OFile 0 0 0 pid] →
    moved pid A w (h ++ [(AOpen pid pidFile, Z.of_nat (length w1.(files)))]) w2).
  { intros w2 H2 Hf2. exists A'. split_and!; [done|done| |].
    - split; [by rewrite Hphase|]. intros fd Ho. rewrite Hphase, Hf2.
      apply Hopened in Ho as [Ho|[-> _]].
      + destruct (Hfs fd Ho) as (f & Hl & Hpid & Hoff). exists f. rewrite Hf.
        split_and!; [by apply lookup_app_l_Some|done|]. by rewrite Hph in Hoff.
      + exists (OFile 0 0 0 pid). rewrite Nat2Z.id. split_and!; [|done|done].
        by rewrite lookup_app_r, Nat.sub_diag.
    - intros q Hq. split; try done.
      + simpl. intros Hh. destruct (present A) eqn:E; [done|]. by rewrite (r_absent _ _ Hr E) in Hh.
      + intros fd f Hl _. rewrite Hf2, Hf. by apply lookup_app_l_Some. }
  destruct H1 as [R1 R2 R3 R4 R5]. rewrite R2. destruct (present A) eqn:E; intros [= <- <-]; apply Hm; try done.
  - split; simpl; try done. apply Forall_app. split; [done|by repeat constructor].
  - rewrite R1. simpl. split; simpl; try done.
    + by rewrite R4.
    + by rewrite lookup_insert_eq.
    + apply Forall_app. split; [done|by repeat constructor].
  - by rewrite R1.
Qed.

Lemma moved_setfd pid A w h fd flags z w' i r :
  repr w A → one_active A → proc_ok A w pid h → opened pid pidFile h fd →
  do_action i r (ASetfd fd flags) w = Val z w' → moved pid A w (h ++ [(ASetfd fd flags, z)]) w'.
Proof.
  intros Hr Hone Hok Ho. pose proof Hok as [Hp Hfs].
  cbn [do_action]. intros [(H1 & Hf & _)|(w1 & o & H1 & Hf & _ & Hl & Hi & Hfd & [= <- <-])]%(on_file_repr _ _ _ _ _ A); [| |done].
  { apply moved_same; done || by destruct (phase_of h). }
  destruct (Hfs fd Ho) as (o' & Hl' & Hpid & _). assert (o' = o) as -> by congruence.
  assert (Hph : advance (phase_of h) (ASetfd fd flags, 0) = phase_of h) by by destruct (phase_of h).
  exists A. split_and!; [by apply repr_set_file|done| |].
  - split; [by rewrite phase_snoc, Hph|]. eapply files_ok_snoc; [done|by rewrite Hph| |exact Hfs].
    intros fd' f Ho' Hlf Hpf. cbn [set_file files]. rewrite Hf.
    destruct (decide (Z.to_nat fd' = Z.to_nat fd)) as [E|Hne].
    + rewrite E in Hlf |- *. eexists. split; [apply list_lookup_insert_eq; exact (lookup_lt_Some _ _ _ Hl)|]. by simplify_eq.
    + exists f. by rewrite list_lookup_insert_ne.
  - intros q Hq. split; try done. intros fd' f Hlf Hpf. cbn [set_file files]. rewrite Hf.
    rewrite list_lookup_insert_ne; [done|]. intros E. rewrite <- E in Hlf. simplify_eq.
Qed.

Lemma one_active_holder A pid : one_active A → A.(holder) ≠ Some pid → pid ∉ A.(active).
Proof.
  intros [->|(p & -> & Hp)] Hne; [apply not_elem_of_nil|].
  intros ->%list_elem_of_singleton. done.
Qed.

(** Where the process holds the lock and is not yet at work, nobody is. *)
Lemma one_active_none A pid :
  one_active A → A.(holder) = Some pid → (pid ∉ A.(active)) → A.(active) = [].
Proof.
  intros [->|(p & Ha & Hp)] Hh Hno; [done|]. exfalso. apply Hno. rewrite Ha.
  apply list_elem_of_singleton. congruence.
Qed.

Lemma moved_lock pid A w h fd z w' i r :
  repr w A → one_active A → proc_ok A w pid h → phase_of h = Before →
  do_action i r (AFcntl pid fd F_SETLK (Flock F_WRLCK SEEK_SET 0 0 0)) w = Val z w' →
  moved pid A w (h ++ [(AFcntl pid fd F_SETLK (Flock F_WRLCK SEEK_SET 0 0 0), z)]) w'.
Proof.
  intros Hr Hone Hok Hph. pose proof Hok as [Hp Hfs]. rewrite Hph in Hp. destruct Hp as [Hh Ha].
  assert (Hfail : z < 0 → repr w' A → w'.(files) = w.(files) →
    moved pid A w (h ++ [(AFcntl pid fd F_SETLK (Flock F_WRLCK SEEK_SET 0 0 0), z)]) w').
  { intros Hz Hr' Hf. apply moved_same; try done. rewrite Hph. cbn [advance fst snd].
    by rewrite (proj2 (Z.leb_gt 0 z)). }
  cbn [do_action]. intros [(H1 & Hf & Hz)|(w1 & o & H1 & Hf & Hpr & Hl & Hi & Hfd & H)]%(on_file_repr _ _ _ _ _ A);
    [by apply Hfail| |done].
  change (lock_of pid o _ _) with (Some (whole_file pid)) in H. cbv iota in H.
  cbn [locks content] in H. rewrite whole_conflict in H.
  change (negb (type (whole_file pid) =? F_UNLCK)) with true in H. rewrite andb_true_l in H.
  destruct (holder A) as [q|] eqn:Eh.
  { destruct (Z.eqb_spec pid q) as [->|]; [done|]. simpl in H. injection H as <- <-. by apply Hfail. }
  change (set_lock (whole_file pid) _) with [whole_file pid] in H. injection H as <- <-.
  eapply (moved_abs pid A (Abs true (Some pid) A.(text) A.(active))).
  - apply (repr_set_inode w1 A); done.
  - done.
  - left. destruct Hone as [?|(p & _ & Hp)]; [done|congruence].
  - done.
  - done.
  - by rewrite Hph.
  - rewrite Hph. done.
  - intros q Hq. rewrite Eh. split; [|done]. simpl. split; [|done]. intros [= E]. congruence.
Qed.

Lemma moved_truncate pid A w h fd z w' i r :
  repr w A → one_active A → proc_ok A w pid h → phase_of h = Locked →
  do_action i r (AFtruncate fd 0) w = Val z w' → moved pid A w (h ++ [(AFtruncate fd 0, z)]) w'.
Proof.
  intros Hr Hone Hok Hph. pose proof Hok as [Hp Hfs]. rewrite Hph in Hp. destruct Hp as [Hh Ha].
  cbn [do_action]. intros [(H1 & Hf & Hz)|(w1 & o & H1 & Hf & Hpr & Hl & Hi & Hfd & [= <- <-])]%(on_file_repr _ _ _ _ _ A); [| |done].
  { apply moved_same; try done. rewrite Hph. cbn [advance fst snd]. by rewrite (proj2 (Z.leb_gt 0 z)). }
  eapply (moved_abs pid A (Abs true A.(holder) "" A.(active))).
  - apply (repr_set_inode w1 A); done.
  - done.
  - done.
  - done.
  - done.
  - by rewrite Hph.
  - by rewrite Hph.
  - intros q Hq. split_and!; [done| |done]. intros E. congruence.
Qed.

Lemma take_str_all k t : String.length (take_str k t) = String.length t → take_str k t = t.
Proof. intros E. rewrite length_take_str in E. apply take_str_ge. lia. Qed.

Lemma write_at_start t : write_at 0 t "" = t.
Proof. unfold write_at, take_str, drop_str. simpl. rewrite skipn_nil. by rewrite append_nil_r. Qed.

Lemma moved_write pid A w h fd z w' i r :
  repr w A → one_active A → proc_ok A w pid h → opened pid pidFile h fd → phase_of h = Cleared →
  do_action i r (AWrite fd (pid_line pid)) w = Val z w' →
  moved pid A w (h ++ [(AWrite fd (pid_line pid), z)]) w'.
Proof.
  intros Hr Hone Hok Ho Hph. pose proof Hok as [Hp Hfs]. rewrite Hph in Hp. destruct Hp as (Hh & Ha & Ht).
  cbn [do_action]. cbv zeta.
  generalize (match w.(statuses) with z :: _ => if z <? 0 then Z.to_nat (- z) else String.length (pid_line pid)
              | [] => String.length (pid_line pid) end). intros k.
  intros [(H1 & Hf & Hz)|(w1 & o & H1 & Hf & Hpr & Hl & Hi & Hfd & [= <- <-])]%(on_file_repr _ _ _ _ _ A); [| |done].
  { apply moved_same; try done. rewrite Hph. cbn [advance fst snd].
    rewrite (proj2 (Z.ltb_lt z 0)) by done. destruct (Z.eqb_spec z (Z.of_nat (String.length (pid_line pid)))); [lia|done]. }
  destruct (Hfs fd Ho) as (o' & Hl' & Hpid & Hoff). assert (o' = o) as -> by congruence.
  rewrite Hph in Hoff. rewrite (Hoff I), Ht, Hi. cbn [content locks].
  set (t := take_str k (pid_line pid)). rewrite write_at_start.
  set (A' := Abs true A.(holder) t A.(active)).
  set (ph := advance Cleared (AWrite fd (pid_line pid), Z.of_nat (String.length t))).
  assert (Hph' : ph = Written ∧ t = pid_line pid ∨ ph = Broken).
  { unfold ph. cbn [advance fst snd]. destruct (Z.eqb_spec (Z.of_nat (String.length t)) (Z.of_nat (String.length (pid_line pid)))) as [E|E].
    - left. split; [done|]. apply take_str_all. unfold t in *. lia.
    - right. destruct (Z.ltb_spec (Z.of_nat (String.length t)) 0); [lia|done]. }
  exists A'. split_and!.
  - apply repr_set_file; [|done]. by apply (repr_set_inode w1 A).
  - done.
  - split.
    + rewrite phase_snoc, Hph. fold ph. destruct Hph' as [[-> E]| ->]; simpl; [by rewrite E|done].
    + eapply files_ok_snoc; [done|by rewrite Hph| |exact Hfs]. rewrite Hph. fold ph.
      intros fd' f Ho' Hlf Hpf. cbn [set_file set_inode files]. rewrite Hf.
      assert (Hn : ¬ at_start ph) by (destruct Hph' as [[-> _]| ->]; by intros []).
      destruct (decide (Z.to_nat fd' = Z.to_nat fd)) as [E|Hne].
      * rewrite E in Hlf |- *. eexists. split; [apply list_lookup_insert_eq; exact (lookup_lt_Some _ _ _ Hl)|]. by simplify_eq.
      * exists f. by rewrite list_lookup_insert_ne.
  - intros q Hq. split; try done; [simpl; intros E; congruence|].
    intros fd' f Hlf Hpf. cbn [set_file set_inode files]. rewrite Hf.
    rewrite list_lookup_insert_ne; [done|]. intros E. rewrite <- E in Hlf. simplify_eq.
Qed.

Lemma moved_enter pid A w h z w' i r :
  repr w A → one_active A → proc_ok A w pid h → phase_of h = Written →
  do_action i r (AEnter pid) w = Val z w' → moved pid A w (h ++ [(AEnter pid, z)]) w'.
Proof.
  intros Hr Hone [Hp Hfs] Hph [= <- <-]. rewrite Hph in Hp. destruct Hp as (Hh & Ha & Ht).
  pose proof (one_active_none _ _ Hone Hh Ha) as Hnil.
  eapply (moved_abs pid A (Abs A.(present) A.(holder) A.(text) [pid])).
  - destruct Hr as [H1 H2 H3 H4 H5]. split; simpl; try done. by rewrite H5, Hnil.
  - done.
  - right. by exists pid.
  - done.
  - done.
  - by rewrite Hph.
  - rewrite Hph. done.
  - intros q Hq. split_and!; [done|intros E; congruence|]. by intros ->%list_elem_of_singleton.
Qed.

Lemma moved_exit pid A w h z w' i r :
  repr w A → one_active A → proc_ok A w pid h →
  do_action i r (AExit pid) w = Val z w' → moved pid A w (h ++ [(AExit pid, z)]) w'.
Proof.
  intros Hr Hone [Hp Hfs] [= <- <-].
  set (ho := match A.(holder) with Some q => if q =? pid then None else Some q | None => None end).
  set (ac := List.filter (λ p, negb (p =? pid)) A.(active)).
  assert (Hgone : advance (phase_of h) (AExit pid, 0) = Gone) by (by destruct (phase_of h)).
  assert (Hac : ac = A.(active) ∨ ac = []).
  { unfold ac. destruct Hone as [->|(p & -> & _)]; simpl; [by left|].
    destruct (p =? pid); simpl; [by right|by left]. }
  assert (Hho : ho ≠ Some pid).
  { unfold ho. destruct (holder A) as [q|]; [|done]. destruct (Z.eqb_spec q pid); congruence. }
  assert (Hone' : one_active (Abs A.(present) ho A.(text) ac)).
  { unfold one_active, ac, ho. simpl. destruct Hone as [->|(p & -> & ->)]; [by left|]. simpl.
    destruct (Z.eqb_spec p pid); [by left|right; by exists p]. }
  eapply (moved_abs pid A (Abs A.(present) ho A.(text) ac)).
  - destruct Hr as [H1 H2 H3 H4 H5]. split; simpl.
    + rewrite H1. destruct (present A); [|done]. simpl. do 2 f_equal. unfold ho.
      destruct (holder A) as [q|]; [|done]. simpl. by destruct (q =? pid).
    + done.
    + done.
    + intros E. unfold ho. by rewrite H4.
    + by rewrite H5.
  - done.
  - done.
  - done.
  - done.
  - by rewrite Hgone.
  - rewrite Hgone. split; [done|]. by apply (one_active_holder _ _ Hone').
  - intros q Hq. simpl. assert (E : (ho = Some q) ↔ (A.(holder) = Some q)).
    { unfold ho. destruct (holder A) as [q'|]; [|done]. destruct (Z.eqb_spec q' pid); [|done].
      split; [done|]. intros [= E]. congruence. }
    split_and!; [done| |].
    + intros Hh. split; [done|]. unfold ac. destruct Hone as [->|(p & -> & Hpp)]; [done|]. simpl.
      destruct (Z.eqb_spec p pid); [congruence|done].
    + destruct Hac as [->| ->]; [done|]. by intros []%not_elem_of_nil.
Qed.

Lemma moved_act pid A w h a z w' i r :
  repr w A → one_active A → proc_ok A w pid h → may pid pidFile h a →
  do_action i r a w = Val z w' → moved pid A w (h ++ [(a, z)]) w'.
Proof.
  intros Hr Hone Hok Hm Hd. destruct a; simpl in Hm; try done.
  - destruct Hm as (-> & -> & Hph). by eapply moved_open.
  - cbn [do_action] in Hd.
    apply (on_file_repr _ _ _ _ _ A) in Hd as [(H1 & Hf & _)|(w1 & o & H1 & Hf & _ & _ & _ & _ & [= <- <-])];
      [| |done]; apply moved_same; done || by destruct (phase_of h).
  - by eapply moved_setfd.
  - destruct Hm as (-> & Ho & Hph & -> & ->). by eapply moved_lock.
  - destruct Hm as (Ho & Hph & ->). by eapply moved_truncate.
  - destruct Hm as (Ho & Hph & ->). by eapply moved_write.
  - destruct Hm as [-> Hph]. by eapply moved_enter.
  - subst. by eapply moved_exit.
Qed.

(** *** Every run *)

Definition proc_at (A : abs) (w : world) (x : Z * string * Z) (c : prog unit) : Prop :=
  c = Goto (Start x.1.1 x.1.2 pidFile x.2 false) ∧ proc_ok A w x.1.1 [] ∨
  ∃ h, follows x.1.1 pidFile h c (λ _ _, False) ∧ proc_ok A w x.1.1 h.

Definition inv (c : config action label world) : Prop :=
  ∃ A cs w, c = Config cs w None ∧ repr w A ∧ one_active A ∧
    (∀ p, p ∈ A.(active) → p ∈ (procs.*1).*1) ∧ Forall2 (proc_at A w) procs cs.

Lemma files_no_spawn i r (e : action) (w : world) l w' : perform i r e w ≠ Spawn l w'.
Proof. destruct e; cbn; unfold on_file; repeat case_match; congruence. Qed.

Lemma proc_moves A w x c c2 w2 :
  repr w A → one_active A → proc_at A w x c → moves c w c2 w2 →
  ∃ A', repr w2 A' ∧ one_active A' ∧ proc_at A' w2 x c2 ∧
    ∀ q, q ≠ x.1.1 → keeps q A w A' w2.
Proof.
  intros Hr Hone Hc Hm. destruct Hc as [[-> Hok]|(h & Hf & Hok)].
  - destruct Hm as [(l & [= <-] & -> & ->)|(? & ? & ? & ? & ? & [=] & _)].
    exists A. split_and!; [done|done| |done]. right. exists []. split; [apply follows_daemon|done].
  - destruct Hm as [(l & -> & -> & ->)|(i & r & e & k & z & -> & -> & Hd)]; [by destruct Hf|].
    destruct Hf as [Hmay Hk].
    destruct (moved_act _ _ _ _ _ _ _ _ _ Hr Hone Hok Hmay Hd) as (A' & Hr' & Hone' & Hok' & Hkeep).
    exists A'. split_and!; [done|done| |done]. right. eexists. split; [apply Hk|done].
Qed.

Lemma pid_inv_step i c c' : inv c → sched_step i c = Some c' → inv c'.
Proof.
  intros (A & cs & w & -> & Hr & Hone & Hin & Hc) (cd & c2 & w2 & Hi & -> & Hm)%sched_moves;
    [|done|apply files_no_spawn].
  destruct (Forall2_lookup_r _ _ _ _ _ Hc Hi) as (x & Hx & Hxc).
  destruct (proc_moves _ _ _ _ _ _ Hr Hone Hxc Hm) as (A' & Hr' & Hone' & Hx' & Hkeep).
  exists A', (<[i := c2]> cs), w2. split_and!; [done|done|done| |].
  { intros p Hp. destruct (decide (p = x.1.1)) as [->|Hne]; [|by eapply Hin, Hkeep].
    by do 2 (apply list_elem_of_fmap_2); eapply list_elem_of_lookup_2. }
  eapply Forall2_update; [exact Hc|exact Hx|exact Hx'|]. intros j y d Hne Hy Hd.
  assert (Hk : keeps y.1.1 A w A' w2).
  { apply Hkeep. intros E. apply Hne. symmetry.
    eapply (NoDup_lookup (procs.*1).*1 i j); [done|by rewrite !list_lookup_fmap, Hx|].
    rewrite !list_lookup_fmap, Hy. simpl. by rewrite E. }
  destruct Hd as [[-> Hok]|(h & Hf & Hok)]; [left|right; exists h]; (split; [done|]);
    by eapply proc_ok_keeps.
Qed.

Definition start_of (x : Z * string * Z) : label := Start x.1.1 x.1.2 pidFile x.2 false.

Lemma pid_inv_launch c0 st : inv (launch (start_of <$> procs) (fresh pidFile c0 st)).
Proof.
  exists (Abs (bool_decide (is_Some c0)) None (default "" c0) []),
    (Goto <$> (start_of <$> procs)), (fresh pidFile c0 st).
  split_and!; [done| |by left|by intros p ?%not_elem_of_nil|].
  { destruct c0; split; try done. apply lookup_singleton_eq. }
  apply Forall2_same_length_lookup. rewrite !length_fmap.
  split; [done|]. intros i x c Hx. rewrite <- list_fmap_compose, list_lookup_fmap, Hx. intros [= <-].
  left. split; [done|]. split; [split; [done|apply not_elem_of_nil]|].
  by intros fd [Hin%not_elem_of_nil _].
Qed.

(** Who is at work holds the lock, and the file has its line. *)
Lemma inv_running c :
  inv c → c.(wld).(running) = [] ∨ ∃ p i, c.(wld).(running) = [p] ∧
    c.(wld).(inodes) = [i] ∧ c.(wld).(names) !! pidFile = Some 0%nat ∧
    i.(locks) = [whole_file p] ∧ p ∈ (procs.*1).*1 ∧ i.(content) = pid_line p.
Proof.
  intros (A & cs & w & -> & [R1 R2 R3 R4 R5] & Hone & Hin & Hc). cbn [wld]. rewrite R5.
  destruct Hone as [?|(p & Ha & Hh)]; [by left|]. right.
  destruct (present A) eqn:E; [|by rewrite R4 in Hh].
  assert (Hpp : p ∈ (procs.*1).*1) by (apply Hin; rewrite Ha; by left).
  exists p, (Inode A.(text) [whole_file p]). rewrite R1, R2, Hh. split_and!; try done.
  apply list_elem_of_fmap in Hpp as (x & -> & (y & -> & Hy)%list_elem_of_fmap).
  apply list_elem_of_lookup in Hy as [j Hj].
  destruct (Forall2_lookup_l _ _ _ _ _ Hc Hj) as (d & _ & Hd).
  assert (∃ h, phase_ok A y.1.1 (phase_of h)) as [h Hp].
  { destruct Hd as [[_ [? _]]|(h & _ & [? _])]; eauto. }
  cbn [content]. unfold phase_ok in Hp. rewrite Ha in Hp.
  assert (y.1.1 ∈ [y.1.1]) by by left.
  destruct (phase_of h); naive_solver.
Qed.

Lemma pid_inv_reachable c0 st c :
  reachable (launch (start_of <$> procs) (fresh pidFile c0 st)) c → inv c.
Proof.
  apply (invariant_reachable inv); [|apply pid_inv_launch]. intros i a b. apply pid_inv_step.
Qed.
End instances.

Lemma pid_line_eq pid : LONG_MIN <= pid <= LONG_MAX → pid_line pid = fmt_d pid +:+ nl.
Proof.
  intros Hp. apply snprintf_fits. rewrite length_append. apply fmt_d_length in Hp.
  change BUF_SIZE with 100%nat. change (String.length nl) with 1%nat. lia.
Qed.

(** C13: however many processes, with different ids that fit a [long], call
    [createPidFile] for one file, whether or not it exists at first and whatever it then
    contains, however they are interleaved and whichever calls fail: as long as
    nobody removes the file (none of these processes does; the comment of the
    function leaves that to its callers, and with removals exclusion fails,
    [removal_breaks_exclusion]), at most one of them is past
    the call at any time; it then holds the lock on the file, which is the only
    one, and the file contains its process id and a newline, nothing else. *)
Theorem createPidFile_excludes pidFile procs c0 st c :
  NoDup (procs.*1).*1 → Forall (λ x, LONG_MIN <= x.1.1 <= LONG_MAX) procs →
  reachable (launch (start_of pidFile <$> procs) (fresh pidFile c0 st)) c →
  c.(wld).(running) = [] ∨ ∃ p i, c.(wld).(running) = [p] ∧ c.(wld).(inodes) = [i] ∧
    c.(wld).(names) !! pidFile = Some 0%nat ∧ i.(locks) = [whole_file p] ∧
    i.(content) = fmt_d p +:+ nl.
Proof.
  intros Hd Hr Hreach.
  destruct (inv_running pidFile procs c) as [?|(p & i & H1 & H2 & H3 & H4 & H5 & H6)];
    [by eapply pid_inv_reachable|by left|right].
  exists p, i. split_and!; [done..|]. rewrite H6. apply pid_line_eq.
  apply list_elem_of_fmap in H5 as (x & -> & (y & -> & Hy)%list_elem_of_fmap).
  rewrite Forall_forall in Hr. by apply (Hr y).
Qed.

(** One process is at work and another has been turned away. *)
Definition two_instances : list (Z * string * Z) := [(10, "prog", CPF_CLOEXEC); (20, "prog", 0)].

Lemma createPidFile_excludes_witness :
  ∃ c, reachable (launch (start_of "/run/p.pid" <$> two_instances)
           (fresh "/run/p.pid" (Some "old pid") [])) c ∧
    c.(wld).(running) = [10] ∧
    (c.(wld).(running) = [] ∨ ∃ p i, c.(wld).(running) = [p] ∧ c.(wld).(inodes) = [i] ∧
      c.(wld).(names) !! "/run/p.pid" = Some 0%nat ∧ i.(locks) = [whole_file p] ∧
      i.(content) = fmt_d p +:+ nl).
Proof.
  destruct (run_schedule_view (λ c, c.(wld).(running)) (replicate 8 0%nat ++ replicate 4 1%nat)
    (launch (start_of "/run/p.pid" <$> two_instances) (fresh "/run/p.pid" (Some "old pid") [])) [10]) as (c & Hr & Hp);
    [vm_compute; reflexivity|].
  exists c. split; [done|]. split; [done|]. apply (createPidFile_excludes _ two_instances (Some "old pid") []).
  - apply (bool_decide_unpack _). vm_compute. exact I.
  - repeat constructor; vm_compute; discriminate.
  - done.
Defined.

(** The comment of [createPidFile] asks the caller to delete the file just before
    it ends.  Then a process that had opened the file before locks it after, and
    another makes a new one: both are at work. *)
Theorem removal_breaks_exclusion :
  ∃ c, reachable (launch ((λ p, Start p "prog" "/run/p.pid" 0 true) <$> [10; 20; 30])
           (fresh "/run/p.pid" None [])) c ∧
    c.(wld).(running) = [30; 20].
Proof.
  apply (run_schedule_view (λ c, c.(wld).(running))
    (replicate 6 0 ++ replicate 2 1 ++ replicate 2 0 ++ replicate 4 1 ++ replicate 6 2)%nat).
  vm_compute. reflexivity.
Qed.
