(* ===== verification/Execlp.v ===== *)
(** [execlp(3)] by means of [execve(2)]: [procexec/execlp.c].

    The arguments are gathered in a vector that grows, the environment is copied,
    and the file is looked for in the directories of [PATH].  Arrays of pointers
    are lists of cells, and a read or write outside an array, or a use of a
    pointer that is null, is undefined. *)
From S2P Require Import Prelude CLib.
Local Open Scope Z_scope.

Definition ENOEXEC : Z := 8.
Definition EFAULT : Z := 14.

(** An element of an array of strings: never written, null, or a string. *)
Inductive cell := Junk | Null | Ptr (s : string).

(** The strings up to the null pointer, as [execve] reads them. *)
Fixpoint strings (v : list cell) : option (list string) :=
  match v with
  | [] | Junk :: _ => None
  | Null :: _ => Some []
  | Ptr s :: v => cons s <$> strings v
  end.

(** [allocs]: whether the allocations to come succeed (all, when none is left);
    [results]: the error of each [execve] to come, 0 or none left when it
    succeeds; [calls]: those made, with the strings they were given. *)
Record st := St {
  environ : list string; err : Z; allocs : list bool; results : list Z;
  calls : list (string * list string * list string)
}.

Definition set_err (e : Z) (s : st) : st :=
  St s.(environ) e s.(allocs) s.(results) s.(calls).

(** [malloc], [calloc], [realloc] and [strdup] *)
Definition alloc : M st bool := λ s,
  match s.(allocs) with
  | [] => (Ok true, s)
  | b :: l =>
      (Ok b, St s.(environ) (if b then s.(err) else ENOMEM) l s.(results) s.(calls))
  end.
Definition strdup (s : string) : M st cell := b ← alloc; mret (if b : bool then Ptr s else Null).

Definition load (v : list cell) (i : nat) : M st cell :=
  match v !! i with Some c => mret c | None => stop HUndef end.
Definition store (v : list cell) (i : nat) (c : cell) : M st (list cell) :=
  if (i <? length v)%nat then mret (<[i := c]> v) else stop HUndef.

(** [strcat] onto the string [p] in a buffer of [cap] bytes *)
Definition strcat (cap : nat) (p t : string) : M st string :=
  if (String.length p + String.length t + 1 <=? cap)%nat then mret (p +:+ t) else stop HUndef.

Fixpoint after_prefix (p s : string) : option string :=
  match p, s with
  | EmptyString, _ => Some s
  | String c p, String d s => if decide (c = d) then after_prefix p s else None
  | String _ _, EmptyString => None
  end.
Fixpoint getenv (name : string) (env : list string) : option string :=
  match env with
  | [] => None
  | s :: env => match after_prefix (name +:+ "=") s with Some v => Some v | None => getenv name env end
  end.

(** [execve] returns only when it fails. *)
Definition execve (path : cell) (argv envp : list cell) : M st unit := λ s,
  match path with
  | Junk => (Halt HUndef, s)
  | Null => (Ok tt, set_err EFAULT s)
  | Ptr p =>
      match strings argv, strings envp with
      | Some a, Some e =>
          let done l z := St s.(environ) z s.(allocs) l (s.(calls) ++ [(p, a, e)]) in
          match s.(results) with
          | [] => (Halt HExec, done [] s.(err))
          | z :: l => if z =? 0 then (Halt HExec, done l s.(err)) else (Ok tt, done l z)
          end
      | _, _ => (Halt HUndef, s)
      end
  end.

Definition SHELL_PATH : string := "/bin/sh".

(** [for (int j = 0; j <= argc; j++) shArgv[j + 1] = argv[j];] *)
Fixpoint copy_args (js : list nat) (argv shArgv : list cell) : M st (list cell) :=
  match js with
  | [] => mret shArgv
  | j :: js => c ← load argv j; shArgv ← store shArgv (j + 1) c; copy_args js argv shArgv
  end.

Definition execShScript (argc : nat) (argv envp : list cell) : M st unit :=
  shArgv ← store (replicate (argc + 1) Junk) 0 (Ptr SHELL_PATH);
  shArgv ← copy_args (seq 0 (argc + 1)) argv shArgv;
  execve (Ptr SHELL_PATH) shArgv envp.

(** The walk through the variable arguments [va]: the vector and its length, or
    nothing when it cannot be made larger. *)
Fixpoint build_argv (argv : list cell) (argc : nat) (va : list cell) : M st (option (list cell * nat)) :=
  c ← load argv (argc - 1);
  match c with
  | Null => mret (Some (argv, argc))
  | Junk => stop HUndef
  | Ptr _ =>
      b ← (if (length argv <=? argc + 1)%nat then alloc else mret true);
      if negb b then mret None else
      let argv := if (length argv <=? argc + 1)%nat then argv ++ replicate 100 Junk else argv in
      match va with
      | [] => stop HUndef
      | c :: va => argv ← store argv argc c; build_argv argv (S argc) va
      end
  end.

Fixpoint dup_env (envp : list cell) (j : nat) (env : list string) : M st (list cell) :=
  match env with
  | [] => store envp j Null
  | s :: env => c ← strdup s; envp ← store envp j c; dup_env envp (S j) env
  end.

(** [execve], and the shell where the file has no format the kernel knows; the
    value is [savedErrno]. *)
Definition try_exec (path : cell) (argc : nat) (argv envp : list cell) : M st Z :=
  execve path argv envp;;
  savedErrno ← gets err;
  when (savedErrno =? ENOEXEC) (execShScript argc argv envp);;
  mret savedErrno.

(** A turn of the search: the prefix at [prStart], the flag [fndEACCES] and
    [savedErrno]. *)
Definition search_body (filename : string) (argc : nat) (argv envp : list cell)
    (x : string * bool * Z) : M st ((string * bool * Z) + (bool * Z)) :=
  let '(prStart, fndEACCES, _) := x in
  let prEnd := match strchr prStart ":" with Some p => p | None => "" end in
  let n := (String.length prStart - String.length prEnd)%nat in
  b ← alloc;
  if negb b then stop HUndef else
  let cap := (Nat.max 1 n + String.length filename + 2)%nat in
  pathname ← (if (n =? 0)%nat then strcat cap "" "." else strcat cap "" (take_str n prStart));
  pathname ← strcat cap pathname "/";
  pathname ← strcat cap pathname filename;
  savedErrno ← try_exec (Ptr pathname) argc argv envp;
  let fndEACCES := fndEACCES || (savedErrno =? EACCES) in
  mret (match prEnd with
        | EmptyString => inr (fndEACCES, savedErrno)
        | String _ next => inl (next, fndEACCES, savedErrno)
        end).

(** The value of [PATH], and what stands for it where it is not set or empty. *)
Definition search_path (env : list string) : string :=
  match getenv "PATH" env with None | Some EmptyString => "." | Some p => p end.

Definition execlp (filename : string) (arg : cell) (va : list cell) : M st Z :=
  b ← alloc;
  if negb b then mret (-1) else
  argv ← store (replicate 100 Null) 0 arg;
  r ← build_argv argv 1 va;
  match r with
  | None => mret (-1)
  | Some (argv, argc) =>
      env ← gets environ;
      b ← alloc;
      if negb b then mret (-1) else
      envp ← dup_env (replicate (length env + 1) Null) 0 env;
      r ← (match strchr filename "/" with
           | Some _ =>
               pathname ← strdup filename;
               savedErrno ← try_exec pathname argc argv envp;
               mret (false, savedErrno)
           | None =>
               PATH ← strdup (search_path env);
               match PATH with
               | Ptr p =>
                   loop (S (String.length p)) (search_body filename argc argv envp) (p, false, 0)
               | _ => stop HUndef
               end
           end);
      modify (set_err (if r.1 : bool then EACCES else r.2));;
      mret (-1)
  end.

(** ** What it promises *)

(** The prefixes of a search path. *)
Fixpoint split_on (c : ascii) (s : string) : list string :=
  match s with
  | EmptyString => [""]
  | String d t =>
      if decide (d = c) then "" :: split_on c t
      else match split_on c t with p :: ps => String d p :: ps | [] => [String d ""] end
  end.

(** The files tried, in order. *)
Definition candidates (env : list string) (filename : string) : list string :=
  match strchr filename "/" with
  | Some _ => [filename]
  | None =>
      (λ p, (match p with EmptyString => "." | _ => p end) +:+ "/" +:+ filename)
        <$> split_on ":" (search_path env)
  end.

(** *** The argument vector *)

Lemma alloc_run s : allocs s = [] → alloc s = (Ok true, s).
Proof. unfold alloc. by intros ->. Qed.

Lemma strdup_run t s : allocs s = [] → strdup t s = (Ok (Ptr t), s).
Proof. intros H. unfold strdup. by rewrite (run_bind _ _ _ _ _ (alloc_run s H)). Qed.

Lemma load_run v i c s : v !! i = Some c → load v i s = (Ok c, s).
Proof. unfold load. by intros ->. Qed.

Lemma store_run v i c s : (i < length v)%nat → store v i c s = (Ok (<[i := c]> v), s).
Proof. intros H. unfold store. by rewrite (proj2 (Nat.ltb_lt _ _) H). Qed.

Lemma strings_app done v : strings ((Ptr <$> done) ++ Null :: v) = Some done.
Proof.
  induction done as [|a l IH]; [done|].
  change (cons a <$> strings ((Ptr <$> l) ++ Null :: v) = Some (a :: l)). by rewrite IH.
Qed.

Lemma insert_end {A} (l v : list A) x y : <[length l := x]> (l ++ y :: v) = l ++ x :: v.
Proof. by rewrite insert_app_r_alt, Nat.sub_diag by lia. Qed.

(** The cells of a vector that holds [n] pointers: it grows by a hundred. *)
Definition vec_size (n : nat) : nat := (100 * (1 + n / 100))%nat.

Lemma vec_size_grow n :
  (n < vec_size n)%nat ∧
  (vec_size n <= n + 1 → vec_size (S n) = vec_size n + 100)%nat ∧
  (n + 1 < vec_size n → vec_size (S n) = vec_size n)%nat.
Proof.
  unfold vec_size. pose proof (Nat.div_mod_eq n 100). pose proof (Nat.div_mod_eq (S n) 100).
  pose proof (Nat.mod_upper_bound n 100). pose proof (Nat.mod_upper_bound (S n) 100). lia.
Qed.

Lemma build_argv_step done tail c va s :
  allocs s = [] → done ≠ [] → (length done + length tail = vec_size (length done))%nat →
  ∃ tail', build_argv ((Ptr <$> done) ++ tail) (length done) (c :: va) s =
      build_argv ((Ptr <$> done) ++ c :: tail') (S (length done)) va s ∧
    (S (length done + length tail') = vec_size (S (length done)))%nat.
Proof.
  intros Hal Hd Ht. destruct (vec_size_grow (length done)) as (Hlt & Hgrow & Hkeep).
  destruct (exists_last Hd) as (d & x & E).
  assert (Hlast : ((Ptr <$> done) ++ tail) !! (length done - 1)%nat = Some (Ptr x)).
  { rewrite E, fmap_app, length_app, <- app_assoc. simpl. rewrite lookup_app_r; rewrite length_fmap; [|lia].
    by replace (length d + 1 - 1 - length d)%nat with 0%nat by lia. }
  assert (Hlen : length ((Ptr <$> done) ++ tail) = vec_size (length done)).
  { by rewrite length_app, length_fmap. }
  cbn [build_argv]. rewrite (run_bind _ _ _ _ _ (load_run _ _ _ s Hlast)), Hlen.
  destruct tail as [|y tail]; simpl in Ht; [lia|].
  destruct (Nat.leb_spec (vec_size (length done)) (length done + 1)) as [Hg|Hg].
  - rewrite (run_bind _ _ _ _ _ (alloc_run s Hal)). cbn [negb].
    erewrite run_bind by (apply store_run; rewrite !length_app, length_fmap; simpl; lia).
    exists (tail ++ replicate 100 Junk). split.
    + f_equal. rewrite <- app_assoc. rewrite <- (length_fmap Ptr done). apply insert_end.
    + rewrite length_app, length_replicate. lia.
  - rewrite (run_bind _ _ _ true s) by done. cbn [negb].
    erewrite run_bind by (apply store_run; rewrite !length_app, length_fmap; simpl; lia).
    exists tail. split; [|lia]. f_equal. rewrite <- (length_fmap Ptr done). apply insert_end.
Qed.

(** With memory for it, the vector ends up holding the arguments and the null
    pointer, with at least one more cell. *)
Lemma build_argv_run args done tail rest s :
  allocs s = [] → done ≠ [] → (length done + length tail = vec_size (length done))%nat →
  ∃ tail', build_argv ((Ptr <$> done) ++ tail) (length done) ((Ptr <$> args) ++ Null :: rest) s =
      (Ok (Some ((Ptr <$> done ++ args) ++ Null :: tail', S (length (done ++ args)))), s) ∧
    (S (length (done ++ args) + length tail') = vec_size (S (length (done ++ args))))%nat.
Proof.
  intros Hal. revert done tail. induction args as [|a args IH]; intros done tail Hd Ht.
  - cbn [fmap list_fmap app].
    destruct (build_argv_step done tail Null rest s Hal Hd Ht) as (tail' & -> & Hl).
    exists tail'. rewrite app_nil_r. split; [|done].
    assert (Hn : ((Ptr <$> done) ++ Null :: tail') !! (S (length done) - 1)%nat = Some Null).
    { rewrite lookup_app_r; rewrite length_fmap; [|lia].
      by replace (S (length done) - 1 - length done)%nat with 0%nat by lia. }
    destruct rest; cbn [build_argv]; by rewrite (run_bind _ _ _ _ _ (load_run _ _ _ s Hn)).
  - cbn [fmap list_fmap app].
    destruct (build_argv_step done tail (Ptr a) ((Ptr <$> args) ++ Null :: rest) s Hal Hd Ht)
      as (tail' & -> & Hl).
    replace ((Ptr <$> done) ++ Ptr a :: tail') with ((Ptr <$> done ++ [a]) ++ tail')
      by by rewrite fmap_app, <- app_assoc.
    destruct (IH (done ++ [a]) tail') as (t & E & Ht'); [by destruct done|rewrite !length_app; simpl|].
    { rewrite Nat.add_1_r. lia. }
    rewrite length_app, Nat.add_1_r, <- app_assoc in E. rewrite <- app_assoc in Ht'. by exists t.
Qed.

Lemma dup_env_run env pre tail s :
  allocs s = [] → length tail = S (length env) →
  dup_env (pre ++ tail) (length pre) env s = (Ok (pre ++ (Ptr <$> env) ++ [Null]), s).
Proof.
  intros Hal. revert pre tail. induction env as [|e env IH]; intros pre [|y tail] Ht; simpl in Ht; try lia.
  - cbn [dup_env]. rewrite store_run by (rewrite length_app; simpl; lia). rewrite insert_end.
    destruct tail; simpl in Ht; [done|lia].
  - cbn [dup_env]. rewrite (run_bind _ _ _ _ _ (strdup_run e s Hal)).
    erewrite run_bind by (apply store_run; rewrite length_app; simpl; lia).
    rewrite insert_end, (cons_middle (Ptr e)), app_assoc.
    replace (S (length pre)) with (length (pre ++ [Ptr e])) by (rewrite length_app; simpl; lia).
    rewrite IH by lia. by rewrite <- app_assoc.
Qed.

(** *** The shell *)

(** The array in [execShScript] is one cell too small for the null pointer. *)
Lemma copy_args_overflows js argv sh s :
  last js = Some (length sh - 1)%nat → (0 < length sh)%nat → copy_args js argv sh s = (Halt HUndef, s).
Proof.
  revert sh. induction js as [|j js IH]; intros sh Hl Hs; [done|]. cbn [copy_args].
  unfold load. destruct (argv !! j) as [c|]; [|done]. unfold mbind, M_bind. cbn [mret M_ret].
  unfold store. destruct (Nat.ltb_spec (j + 1) (length sh)) as [Hlt|]; [|done].
  destruct js as [|j' js]; [simpl in Hl; simplify_eq; lia|]. simpl. apply IH; by rewrite length_insert.
Qed.

Lemma execShScript_undefined argc argv envp s : execShScript argc argv envp s = (Halt HUndef, s).
Proof.
  unfold execShScript.
  erewrite run_bind by (apply store_run; rewrite length_replicate; lia).
  erewrite run_bind_halt; [done|]. apply copy_args_overflows.
  - rewrite length_insert, length_replicate, Nat.add_1_r, seq_S, last_snoc. f_equal. lia.
  - rewrite length_insert, length_replicate. lia.
Qed.

(** *** The search *)

Definition ordinary (e : Z) : Prop := e ≠ 0 ∧ e ≠ ENOEXEC.

(** The state after some calls that failed with [es], of which [later] is left. *)
Definition after_calls (s : st) (e : Z) (later : list Z) (made : list (string * list string * list string)) : st :=
  St s.(environ) e s.(allocs) later (s.(calls) ++ made).

Section attempts.
Context (argc : nat) (argv envp : list cell) (a e : list string).
Hypothesis Ha : strings argv = Some a.
Hypothesis He : strings envp = Some e.

Definition attempts (l : list string) : list (string * list string * list string) :=
  (λ p, (p, a, e)) <$> l.

Lemma try_exec_fails p s z later :
  s.(results) = z :: later → ordinary z →
  try_exec (Ptr p) argc argv envp s = (Ok z, after_calls s z later (attempts [p])).
Proof.
  intros Hr [Hz Hn]. unfold try_exec, execve, mbind, M_bind. rewrite Ha, He, Hr.
  rewrite (proj2 (Z.eqb_neq z 0) Hz). cbn. by rewrite (proj2 (Z.eqb_neq z ENOEXEC) Hn).
Qed.

Lemma try_exec_ends p s :
  let z := default 0 (head s.(results)) in z = 0 ∨ z = ENOEXEC →
  ∃ s', try_exec (Ptr p) argc argv envp s = (Halt (if z =? 0 then HExec else HUndef), s') ∧
    s'.(calls) = s.(calls) ++ attempts [p].
Proof.
  intros z Hz. unfold try_exec, execve, mbind, M_bind. rewrite Ha, He. subst z.
  destruct (results s) as [|z later]; [by eexists|]. simpl in Hz |- *.
  destruct Hz as [->| ->]; [by eexists|]. cbn -[execShScript].
  rewrite execShScript_undefined. by eexists.
Qed.

(** A prefix is at most as long as what it starts. *)
Lemma strchr_prefix p q c :
  strchr p c = Some q →
  take_str (String.length p - String.length q) p = before p c ∧
  String.length p = (String.length (before p c) + String.length q)%nat ∧
  ∃ next, q = String c next ∧ split_on c p = before p c :: split_on c next.
Proof.
  intros H. destruct (strchr_before p c q H) as [E (t & ->)].
  assert (Hl : String.length p = (String.length (before p c) + String.length (String c t))%nat).
  { rewrite E at 1. apply length_append. }
  split_and!; [|done|].
  - rewrite Hl, Nat.add_sub. rewrite E at 2. unfold take_str. rewrite chars_app, take_app_length'.
    + apply of_chars_chars.
    + by rewrite length_chars.
  - exists t. split; [done|]. clear Hl E. revert H. induction p as [|d p IH]; [done|].
    simpl. destruct (decide (c = d)) as [->|Hne].
    + intros [= ->]. by rewrite decide_True.
    + intros H. rewrite decide_False by congruence. by rewrite (IH H).
Qed.

Lemma split_on_none p c : strchr p c = None → split_on c p = [p].
Proof.
  induction p as [|d p IH]; [done|]. simpl. destruct (decide (c = d)); [done|].
  intros H. rewrite decide_False by congruence. by rewrite IH.
Qed.

(** The file [filename] in the directory [p]. *)
Definition in_dir (filename p : string) : string :=
  (match p with EmptyString => "." | _ => p end) +:+ "/" +:+ filename.

Lemma strcat_run cap p t s :
  (String.length p + String.length t + 1 <= cap)%nat → strcat cap p t s = (Ok (p +:+ t), s).
Proof. intros H. unfold strcat. by rewrite (proj2 (Nat.leb_le _ _) H). Qed.

(** The buffer is as large as the pathname needs. *)
Lemma search_body_run filename p acc l s :
  s.(allocs) = [] →
  search_body filename argc argv envp (p, acc, l) s =
  (z ← try_exec (Ptr (in_dir filename (before p ":"))) argc argv envp;
   mret (match strchr p ":" with
         | Some (String _ next) => inl (next, acc || (z =? EACCES), z)
         | _ => inr (acc || (z =? EACCES), z)
         end)) s.
Proof.
  intros Hal. unfold search_body.
  set (q := match strchr p ":" with Some q => q | None => "" end).
  assert (Hq : take_str (String.length p - String.length q) p = before p ":" ∧
    String.length p = (String.length (before p ":") + String.length q)%nat).
  { unfold q. destruct (strchr p ":") as [q'|] eqn:E.
    - destruct (strchr_prefix _ _ _ E) as (H1 & H2 & _). by split.
    - rewrite (strchr_None_before _ _ E). simpl. rewrite Nat.sub_0_r, Nat.add_0_r.
      split; [by apply take_str_ge|done]. }
  destruct Hq as [Ht Hl]. rewrite Ht. replace (String.length p - String.length q)%nat
    with (String.length (before p ":")) by lia.
  rewrite (run_bind _ _ _ _ _ (alloc_run s Hal)). cbn [negb].
  assert (Hn : ∀ z, match q with
      | EmptyString => inr (acc || (z =? EACCES), z) | String _ next => inl (next, acc || (z =? EACCES), z)
      end = match strchr p ":" with
      | Some (String _ next) => inl (next, acc || (z =? EACCES), z) | _ => inr (acc || (z =? EACCES), z)
      end) by (intros z; unfold q; by destruct (strchr p ":")).
  unfold in_dir. destruct (before p ":") as [|c pre]; cbn [String.length Nat.eqb].
  - erewrite run_bind by (apply strcat_run; simpl; lia).
    erewrite run_bind by (apply strcat_run; simpl; lia).
    erewrite run_bind by (apply strcat_run; simpl; lia).
    unfold mbind, M_bind. cbn [String.append]. by destruct (try_exec _ _ _ _ _) as [[z|h] s']; rewrite ?Hn.
  - erewrite run_bind by (apply strcat_run; simpl; lia).
    erewrite run_bind by (apply strcat_run; rewrite ?length_append; simpl; lia).
    erewrite run_bind by (apply strcat_run; rewrite ?length_append; simpl; lia).
    rewrite <- append_assoc. unfold mbind, M_bind.
    change ("" +:+ String c pre) with (String c pre).
    by destruct (try_exec _ _ _ _ _) as [[z|h] s']; rewrite ?Hn.
Qed.

Lemma elem_cons_decide (z : Z) x l :
  bool_decide (x ∈ z :: l) = (z =? x) || bool_decide (x ∈ l).
Proof.
  apply eq_true_iff_eq. rewrite orb_true_iff, !bool_decide_eq_true, Z.eqb_eq, elem_of_cons.
  naive_solver.
Qed.

Lemma search_runs filename fuel : ∀ p acc l s es later,
  (String.length p < fuel)%nat → s.(allocs) = [] → s.(results) = es ++ later → Forall ordinary es →
  let cs := in_dir filename <$> split_on ":" p in
  (length es = length cs →
   loop fuel (search_body filename argc argv envp) (p, acc, l) s =
     (Ok (acc || bool_decide (EACCES ∈ es), default l (last es)),
      after_calls s (default s.(err) (last es)) later (attempts cs))) ∧
  ((length es < length cs)%nat → let z := default 0 (head later) in z = 0 ∨ z = ENOEXEC →
   ∃ s', loop fuel (search_body filename argc argv envp) (p, acc, l) s =
       (Halt (if z =? 0 then HExec else HUndef), s') ∧
     s'.(calls) = s.(calls) ++ attempts (take (S (length es)) cs)).
Proof.
  induction fuel as [|fuel IH]; intros p acc l s es later Hf Hal Hr Hes cs; [lia|].
  assert (Hcs : ∃ rest, cs = in_dir filename (before p ":") :: rest ∧
    match strchr p ":" with
    | Some q => ∃ next, q = String ":" next ∧ (String.length next < String.length p)%nat ∧
        rest = in_dir filename <$> split_on ":" next
    | None => rest = []
    end).
  { unfold cs. destruct (strchr p ":") as [q|] eqn:E.
    - destruct (strchr_prefix _ _ _ E) as (_ & Hl & next & -> & ->). eexists. split; [done|].
      exists next. split_and!; [done|simpl in Hl; lia|done].
    - rewrite (split_on_none _ _ E), (strchr_None_before _ _ E). by exists []. }
  destruct Hcs as (rest & Ecs & Hrest). rewrite Ecs. clear Ecs cs. rewrite loop_S.
  destruct es as [|z es].
  - split; [done|]. intros _ z Hz. simpl in Hr.
    destruct (try_exec_ends (in_dir filename (before p ":")) s) as (s' & Ht & Hc); [by rewrite Hr|].
    exists s'. rewrite Hr in Ht. split; [|by destruct rest].
    unfold mbind at 1, M_bind at 1. rewrite search_body_run by done.
    unfold mbind, M_bind. by rewrite Ht.
  - apply Forall_cons in Hes as [Hz Hes].
    pose proof (try_exec_fails (in_dir filename (before p ":")) s z (es ++ later) Hr Hz) as Ht.
    set (s1 := after_calls _ _ _ _) in Ht.
    assert (Hb : search_body filename argc argv envp (p, acc, l) s =
      (Ok (match strchr p ":" with
           | Some (String _ next) => inl (next, acc || (z =? EACCES), z)
           | _ => inr (acc || (z =? EACCES), z)
           end), s1)).
    { rewrite search_body_run by done. unfold mbind, M_bind. by rewrite Ht. }
    rewrite (run_bind _ _ _ _ _ Hb). destruct (strchr p ":") as [q|].
    + destruct Hrest as (next & -> & Hlt & ->).
      destruct (IH next (acc || (z =? EACCES)) z s1 es later) as [IH1 IH2]; [lia|done|done|done|].
      split.
      * intros [= Hlen]. rewrite (IH1 Hlen), elem_cons_decide, orb_assoc, last_cons.
        unfold s1, after_calls. simpl. rewrite <- app_assoc. by destruct (last es).
      * simpl length. intros Hlen z' Hz'. destruct (IH2 ltac:(lia) Hz') as (s' & E & Hc).
        exists s'. split; [done|]. rewrite Hc. unfold s1, after_calls. simpl. by rewrite <- app_assoc.
    + subst rest. split; [|simpl; lia]. destruct es; [|done]. intros _.
      cbn [mret M_ret last]. by rewrite elem_cons_decide, bool_decide_eq_false_2, orb_false_r by set_solver.
Qed.
End attempts.

(** *** Whole runs *)

Lemma arg_vector a :
  store (replicate 100 Null) 0 (Ptr a) = λ s, (Ok ((Ptr <$> [a]) ++ replicate 99 Null), s).
Proof. done. Qed.

(** C19: however many arguments there are, the vector holds them, ends in a null
    pointer and has a cell to spare, growing by a hundred cells whenever the next
    pointer and one more would not fit; but the array that the shell is run with
    is one cell too small, so its last pointer is always written outside it. *)
Theorem argument_vector_bounds a args rest s :
  s.(allocs) = [] →
  ∃ v argc, (argv ← store (replicate 100 Null) 0 (Ptr a);
             build_argv argv 1 ((Ptr <$> args) ++ Null :: rest)) s = (Ok (Some (v, argc)), s) ∧
    strings v = Some (a :: args) ∧ argc = (length args + 2)%nat ∧
    (argc < length v <= argc + 100)%nat ∧ (∃ k, length v = 100 * k)%nat ∧
    ∀ envp s', execShScript argc v envp s' = (Halt HUndef, s').
Proof.
  intros Hal. rewrite arg_vector.
  destruct (build_argv_run args [a] (replicate 99 Null) rest s) as (tail & E & Hl); [done..|].
  do 2 eexists. split; [exact E|]. split; [apply (strings_app (a :: args))|].
  set (n := S (length ([a] ++ args))) in *. assert (Hn : n = (length args + 2)%nat) by (unfold n; simpl; lia).
  assert (Hv : length ((Ptr <$> [a] ++ args) ++ Null :: tail) = vec_size n).
  { rewrite <- Hl, length_app, length_fmap. unfold n. simpl. lia. }
  rewrite Hv. destruct (vec_size_grow n) as (H & _).
  split_and!; [done|done| | |].
  - unfold vec_size. pose proof (Nat.div_mod_eq n 100). lia.
  - by exists (1 + n / 100)%nat.
  - intros. apply execShScript_undefined.
Qed.

Lemma argument_vector_bounds_witness :
  ∃ v argc, (argv ← store (replicate 100 Null) 0 (Ptr "ls");
             build_argv argv 1 ((Ptr <$> replicate 250 "x") ++ [Null])) (St [] 0 [] [] []) =
    (Ok (Some (v, argc)), St [] 0 [] [] []) ∧ argc = 252%nat ∧ (argc < length v)%nat.
Proof.
  destruct (argument_vector_bounds "ls" (replicate 250 "x") [] (St [] 0 [] [] []))
    as (v & argc & H & _ & Hc & Hl & _); [done|].
  exists v, argc. split_and!; [exact H|rewrite Hc; by vm_compute|apply Hl].
Defined.

(** [execlp] from the point where its vectors are built. *)
Lemma execlp_run filename a args rest s :
  s.(allocs) = [] →
  ∃ argv argc envp, strings argv = Some (a :: args) ∧ strings envp = Some s.(environ) ∧
    execlp filename (Ptr a) ((Ptr <$> args) ++ Null :: rest) s =
    (r ← (match strchr filename "/" with
          | Some _ => savedErrno ← try_exec (Ptr filename) argc argv envp; mret (false, savedErrno)
          | None => loop (S (String.length (search_path s.(environ))))
                      (search_body filename argc argv envp) (search_path s.(environ), false, 0)
          end);
     modify (set_err (if r.1 : bool then EACCES else r.2));; mret (-1)) s.
Proof.
  intros Hal.
  destruct (build_argv_run args [a] (replicate 99 Null) rest s) as (tail & E & _); [done..|].
  eexists _, _, ([] ++ (Ptr <$> s.(environ)) ++ [Null]). split; [apply strings_app|].
  split; [apply strings_app|]. unfold execlp.
  rewrite (run_bind _ _ _ _ _ (alloc_run s Hal)). cbn [negb]. rewrite arg_vector.
  rewrite (run_bind _ _ _ _ _ eq_refl), (run_bind _ _ _ _ _ E), (run_bind _ _ _ (environ s) s) by done.
  rewrite (run_bind _ _ _ _ _ (alloc_run s Hal)). cbn [negb].
  erewrite run_bind by (apply (dup_env_run _ [] _ s Hal); by rewrite length_replicate, Nat.add_1_r).
  unfold mbind, M_bind. destruct (strchr filename "/"); by rewrite strdup_run.
Qed.

(** C17: with memory and a properly ended argument list, [execlp] tries the file
    itself if its name has a slash, and otherwise the file in each directory of
    [PATH] in order, the current one for an empty prefix or an empty [PATH]; each
    attempt is given exactly the arguments and the environment.  If all fail it
    returns -1 with the last error, or [EACCES] if any attempt gave that; it stops
    at the first file that can be executed, and at the first without a known
    format it has undefined behaviour. *)
Theorem execlp_searches_path filename a args rest s es later :
  s.(allocs) = [] → s.(results) = es ++ later → Forall ordinary es →
  let cs := candidates s.(environ) filename in
  let made := attempts (a :: args) s.(environ) in
  let run := execlp filename (Ptr a) ((Ptr <$> args) ++ Null :: rest) s in
  (length es = length cs →
   run = (Ok (-1), after_calls s (if bool_decide (EACCES ∈ es) then EACCES else default 0 (last es))
                     later (made cs))) ∧
  ((length es < length cs)%nat → let z := default 0 (head later) in z = 0 ∨ z = ENOEXEC →
   ∃ s', run = (Halt (if z =? 0 then HExec else HUndef), s') ∧
     s'.(calls) = s.(calls) ++ made (take (S (length es)) cs)).
Proof.
  intros Hal Hr Hes cs made run.
  destruct (execlp_run filename a args rest s Hal) as (argv & argc & envp & Ha & He & E).
  unfold run, cs, candidates, made. rewrite E. clear E run cs.
  destruct (strchr filename "/").
  - destruct es as [|z es].
    + split; [done|]. intros _ Hz. simpl in Hr.
      destruct (try_exec_ends argc argv envp _ _ Ha He filename s) as (s' & Ht & Hc); [by rewrite Hr|].
      exists s'. split; [|done]. rewrite Hr in Ht. unfold mbind, M_bind. by rewrite Ht.
    + split; [|simpl; lia]. destruct es; [|done]. intros _. apply Forall_cons in Hes as [Hz _].
      rewrite (run_bind _ _ _ (false, z) (after_calls s z later (attempts (a :: args) (environ s) [filename]))).
      * cbn. unfold after_calls, set_err. cbn. do 2 f_equal.
        rewrite elem_cons_decide, orb_comm. simpl. by destruct (Z.eqb_spec z EACCES) as [->|].
      * unfold mbind, M_bind. by rewrite (try_exec_fails argc argv envp _ _ Ha He filename s z later Hr Hz).
  - destruct (search_runs argc argv envp _ _ Ha He filename (S (String.length (search_path (environ s))))
      (search_path (environ s)) false 0 s es later) as [H1 H2]; [lia|done..|].
    split.
    + intros Hlen. rewrite (run_bind _ _ _ _ _ (H1 Hlen)). done.
    + intros Hlen Hz. destruct (H2 Hlen Hz) as (s' & E' & Hc). exists s'. split; [|done].
      by rewrite (run_bind_halt _ _ _ _ _ E').
Qed.

Lemma execlp_searches_path_witness :
  execlp "ls" (Ptr "ls") [Ptr "-l"; Null] (St ["HOME=/"; "PATH=/usr/bin::/bin"] 0 [] [2; 13; 2] []) =
  (Ok (-1), St ["HOME=/"; "PATH=/usr/bin::/bin"] EACCES [] []
     ((λ p, (p, ["ls"; "-l"], ["HOME=/"; "PATH=/usr/bin::/bin"])) <$> ["/usr/bin/ls"; "./ls"; "/bin/ls"])).
Proof.
  destruct (execlp_searches_path "ls" "ls" ["-l"] [] (St ["HOME=/"; "PATH=/usr/bin::/bin"] 0 [] [2; 13; 2] [])
    [2; 13; 2] []) as [H _]; [done|done|repeat (constructor; [by split|]); constructor|]. exact (H eq_refl).
Defined.
