(* ===== verification/Setenv.v ===== *)
(** [setenv] and [unsetenv] as [proc/setenv.c] implements them, over the vector
    [environ] of pointers that a null pointer ends.

    The vector is modelled by its cells, which the code shifts one by one; what the
    functions promise is stated on the map of names to values that an environment
    stands for. *)
From stdpp Require Import gmap.
From S2P Require Import Prelude CLib.
Local Open Scope Z_scope.

(** The state: [errno], the cells of [environ], and which of the allocations to
    come succeed (none after the last one listed). *)
Record env := Env { errno : Z; cells : list (option string); allocs : list bool }.

Definition put_cells (c : list (option string)) : M env unit := modify (λ s, Env s.(errno) c s.(allocs)).
Definition fail (e : Z) : M env Z := modify (λ s, Env e s.(cells) s.(allocs));; mret (-1).
Definition allocate : M env bool := λ s,
  match s.(allocs) with
  | [] => (Ok false, s)
  | b :: l => (Ok b, Env s.(errno) s.(cells) l)
  end.

(** ** Strings *)

(** [strncmp(e, name, len) == 0 && e[len] == '='] for [len] the length of the name. *)
Definition is_entry (name e : string) : bool :=
  bool_decide (take (String.length name) (chars e) = chars name) &&
  bool_decide (chars e !! String.length name = Some "="%char).

(** [name == NULL || name[0] == '\0' || strchr(name, '=') != NULL] *)
Definition bad_name (name : option string) : bool :=
  match name with
  | None | Some "" => true
  | Some name => match strchr name "=" with Some _ => true | None => false end
  end.

(** ** [unsetenv] *)

(** [for (sp = ep; *sp != NULL; sp++) *sp = *(sp + 1);] *)
Definition shift_body (sp : nat) : M env (nat + unit) :=
  c ← gets cells;
  match c !! sp with
  | None => stop HUndef
  | Some None => mret (inr tt)
  | Some (Some _) =>
      match c !! S sp with
      | None => stop HUndef
      | Some v => put_cells (<[sp := v]> c);; mret (inl (S sp))
      end
  end.

Definition unset_body (fuel : nat) (name : string) (ep : nat) : M env (nat + unit) :=
  c ← gets cells;
  match c !! ep with
  | None => stop HUndef
  | Some None => mret (inr tt)
  | Some (Some e) =>
      if is_entry name e then loop fuel shift_body ep;; mret (inl ep) else mret (inl (S ep))
  end.

Definition unsetenv (fuel : nat) (name : option string) : M env Z :=
  if bad_name name then fail EINVAL else
  loop fuel (unset_body fuel (default "" name)) O;;
  mret 0.

(** ** The C library *)

(** The entries, up to the null pointer. *)
Fixpoint entries (c : list (option string)) : list string :=
  match c with
  | Some e :: c => e :: entries c
  | _ => []
  end.

(** [getenv]: what follows the '=' of the first entry of the name. *)
Definition find_entry (name : string) (l : list string) : option string :=
  (λ e, drop_str (S (String.length name)) e) <$> head (filter (λ e, is_entry name e) l).
Definition getenv (name : string) : M env (option string) := gets (λ s, find_entry name (entries s.(cells))).

(** The part of an entry before its first '='. *)
Definition entry_name (e : string) : string := before e "=".

(** [putenv]: the first entry of that name is replaced, or else the entry is added,
    in a new vector if need be. *)
Fixpoint put_entry (e : string) (l : list string) : list string :=
  match l with
  | [] => [e]
  | x :: l => if is_entry (entry_name e) x then e :: l else x :: put_entry e l
  end.
Definition putenv (e : string) : M env Z :=
  ok ← allocate;
  if ok : bool then
    l ← gets (λ s, entries s.(cells));
    put_cells ((Some <$> put_entry e l) ++ [None]);;
    mret 0
  else fail ENOMEM.

(** ** [setenv] *)

Definition setenv (fuel : nat) (name value : option string) (overwrite : Z) : M env Z :=
  match bad_name name, name, value with
  | false, Some nm, Some val =>
      old ← getenv nm;
      if bool_decide (is_Some old) && (overwrite =? 0) then mret 0 else
      unsetenv fuel name;;
      ok ← allocate;
      if ok : bool then
        r ← putenv (nm +:+ "=" +:+ val);
        mret (if negb (r =? 0) then -1 else 0)
      else fail ENOMEM
  | _, _, _ => fail EINVAL
  end.

(** ** The map an environment stands for *)

(** The name and value of an entry; a string without '=' is none. *)
Definition parse_entry (e : string) : option (string * string) :=
  match strchr e "=" with
  | Some (String _ v) => Some (entry_name e, v)
  | _ => None
  end.

Fixpoint env_map (l : list string) : gmap string string :=
  match l with
  | [] => ∅
  | e :: l =>
      match parse_entry e with
      | Some (n, v) => <[n := v]> (env_map l)
      | None => env_map l
      end
  end.

(** [environ] holds the entries [l]. *)
Definition holds (s : env) (l : list string) : Prop := ∃ rest, s.(cells) = (Some <$> l) ++ None :: rest.

Lemma entries_cells l rest : entries ((Some <$> l) ++ None :: rest) = l.
Proof. induction l as [|e l IH]; [done|]. rewrite fmap_cons. cbn [entries app]. by rewrite IH. Qed.
Lemma holds_entries s l : holds s l → entries s.(cells) = l.
Proof. intros [rest E]. rewrite E. apply entries_cells. Qed.

(** ** Entries *)

Lemma is_entry_split name e :
  is_entry name e = true ↔ ∃ v, e = name +:+ String "=" v.
Proof.
  unfold is_entry. rewrite andb_true_iff, !bool_decide_eq_true, <- length_chars. split.
  - intros [Ht Hl]. exists (of_chars (drop (S (length (chars name))) (chars e))).
    apply chars_inj. rewrite chars_app. simpl. rewrite chars_of_chars.
    rewrite <- (drop_S _ _ _ Hl). by rewrite <- Ht at 1; rewrite take_drop.
  - intros [v ->]. rewrite chars_app, take_app_length. split; [done|]. by rewrite lookup_app_r, Nat.sub_diag.
Qed.

Lemma strchr_name name : bad_name (Some name) = false → strchr name "=" = None ∧ name ≠ "".
Proof. unfold bad_name. destruct name; [done|]. by case_match. Qed.

Lemma before_entry name v : strchr name "=" = None → before (name +:+ String "=" v) "=" = name ∧
  strchr (name +:+ String "=" v) "=" = Some (String "=" v).
Proof.
  induction name as [|c name IH]; simpl; [done|]. case_decide; [done|]. intros H'. by destruct (IH H') as [-> ->].
Qed.

(** For a name without '=' the entries of it are those with that name. *)
Lemma is_entry_parse name e :
  strchr name "=" = None → is_entry name e = true ↔ ∃ v, parse_entry e = Some (name, v).
Proof.
  intros Hn. rewrite is_entry_split. split.
  - intros [v ->]. exists v. unfold parse_entry, entry_name. by destruct (before_entry name v Hn) as [-> ->].
  - intros [v Hp]. unfold parse_entry in Hp. destruct (strchr e "=") as [[|c t]|] eqn:E; simplify_eq.
    destruct (strchr_before _ _ _ E) as [He [q Hq]]. exists v. unfold entry_name. simplify_eq. done.
Qed.

Lemma not_entry_parse name e :
  strchr name "=" = None → is_entry name e = false →
  parse_entry e = None ∨ ∃ n v, n ≠ name ∧ parse_entry e = Some (n, v).
Proof.
  intros Hn He. destruct (parse_entry e) as [[n v]|] eqn:E; [|by left]. right. exists n, v. split; [|done].
  intros ->. assert (is_entry name e = true) by (apply is_entry_parse; eauto). congruence.
Qed.

(** The first entry of a name is what the map has for it. *)
Lemma find_entry_map name l : strchr name "=" = None → find_entry name l = env_map l !! name.
Proof.
  intros Hn. unfold find_entry. induction l as [|e l IH]; [done|]. rewrite filter_cons. case_decide as He.
  - apply Is_true_true in He. destruct (proj1 (is_entry_parse name e Hn) He) as [v Hv].
    simpl. rewrite Hv, lookup_insert. rewrite decide_True by done. f_equal.
    destruct (proj1 (is_entry_split name e) He) as [v' ->]. unfold parse_entry, entry_name in Hv.
    destruct (before_entry name v' Hn) as [_ E]. rewrite E in Hv. simplify_eq. unfold drop_str.
    apply chars_inj. rewrite chars_of_chars, chars_app, <- length_chars.
    change (chars (String "=" v)) with (["="%char] ++ chars v). rewrite app_assoc, drop_app_length'; [done|].
    rewrite length_app. simpl. lia.
  - apply Is_true_false in He. rewrite IH. simpl.
    destruct (not_entry_parse name e Hn He) as [->|(n & v & Hne & ->)]; [done|]. by rewrite lookup_insert_ne.
Qed.

Lemma env_map_unset name l :
  strchr name "=" = None → env_map (filter (λ e, ¬ is_entry name e) l) = delete name (env_map l).
Proof.
  intros Hn. induction l as [|e l IH]; [symmetry; apply delete_empty|]. rewrite filter_cons. case_decide as He.
  - assert (He' : is_entry name e = false) by (by destruct (is_entry name e); [destruct He|]).
    cbn [env_map]. destruct (not_entry_parse name e Hn He') as [->|(n & v & Hne & ->)]; [done|].
    by rewrite IH, delete_insert_ne.
  - assert (He' : is_entry name e = true) by (destruct (is_entry name e); [done|by destruct He; intros ?]).
    destruct (proj1 (is_entry_parse name e Hn) He') as [v Hv]. cbn [env_map]. rewrite Hv, IH.
    symmetry. apply delete_insert_eq.
Qed.

Lemma unset_no_entry name l : Forall (λ e, is_entry name e = false) (filter (λ e, ¬ is_entry name e) l).
Proof.
  apply Forall_forall. intros e [He _]%list_elem_of_filter. by destruct (is_entry name e); [destruct He|].
Qed.

(** A new entry of a name that has none goes to the end. *)
Lemma put_entry_new name v l :
  strchr name "=" = None → Forall (λ e, is_entry name e = false) l →
  put_entry (name +:+ String "=" v) l = l ++ [name +:+ String "=" v].
Proof.
  intros Hn HF. induction HF as [|e l He _ IH]; [done|]. simpl. unfold entry_name at 1.
  destruct (before_entry name v Hn) as [-> _]. by rewrite He, IH.
Qed.

Lemma env_map_app_new name v l :
  strchr name "=" = None → env_map l !! name = None →
  env_map (l ++ [name +:+ String "=" v]) = <[name := v]> (env_map l).
Proof.
  intros Hn. induction l as [|e l IH]; cbn [env_map app].
  - intros _. unfold parse_entry, entry_name. by destruct (before_entry name v Hn) as [-> ->].
  - destruct (parse_entry e) as [[n w]|]; [|done]. intros Hl.
    destruct (decide (n = name)) as [->|Hne]; [by rewrite lookup_insert, decide_True in Hl|].
    rewrite lookup_insert_ne in Hl by done. rewrite IH by done. by apply insert_insert_ne.
Qed.

(** ** The loops *)

Lemma shift_body_run sp s :
  shift_body sp s =
    match s.(cells) !! sp, s.(cells) !! S sp with
    | Some None, _ => (Ok (inr tt), s)
    | Some (Some _), Some v => (Ok (inl (S sp)), Env s.(errno) (<[sp := v]> s.(cells)) s.(allocs))
    | _, _ => (Halt HUndef, s)
    end.
Proof.
  unfold shift_body, mbind, M_bind, gets. destruct (cells s !! sp) as [[x|]|]; [|done|done]. by destruct (cells s !! S sp).
Qed.

Lemma lookup_at {A} (pre : list A) x l : (pre ++ x :: l) !! length pre = Some x.
Proof. by rewrite lookup_app_r, Nat.sub_diag. Qed.
Lemma lookup_after {A} (pre : list A) x y l : (pre ++ x :: y :: l) !! S (length pre) = Some y.
Proof. rewrite lookup_app_r by lia. by replace (S (length pre) - length pre)%nat with 1%nat by lia. Qed.
Lemma insert_at {A} (pre : list A) x y l : <[length pre := y]> (pre ++ x :: l) = pre ++ y :: l.
Proof. by rewrite insert_app_r_alt, Nat.sub_diag. Qed.

(** The shift of the entries after one, with the null pointer that ends them. *)
Lemma shift_run fuel l pre x rest s :
  s.(cells) = pre ++ Some x :: (Some <$> l) ++ None :: rest → (length l + 1 < fuel)%nat →
  loop fuel shift_body (length pre) s =
    (Ok tt, Env s.(errno) (pre ++ (Some <$> l) ++ None :: None :: rest) s.(allocs)).
Proof.
  revert pre x s fuel. induction l as [|y l IH]; intros pre x s fuel Hc Hf;
    (destruct fuel as [|fuel]; [lia|]); rewrite loop_S; unfold mbind at 1, M_bind at 1; rewrite shift_body_run, Hc, lookup_at.
  - cbn [fmap list_fmap app]. rewrite lookup_after, insert_at. destruct fuel as [|fuel]; [simpl in Hf; lia|].
    rewrite loop_S. unfold mbind at 1, M_bind at 1. rewrite shift_body_run. cbn [cells]. by rewrite lookup_after.
  - rewrite fmap_cons. cbn [app]. rewrite lookup_after, insert_at.
    replace (S (length pre)) with (length (pre ++ [Some y])) by (rewrite length_app; simpl; lia).
    erewrite (IH (pre ++ [Some y]) y); [|cbn [cells]; by rewrite <- app_assoc|simpl in Hf; lia].
    cbn [errno allocs]. by rewrite <- app_assoc.
Qed.

Lemma unset_body_run F name ep s :
  unset_body F name ep s =
    match s.(cells) !! ep with
    | None => (Halt HUndef, s)
    | Some None => (Ok (inr tt), s)
    | Some (Some e) =>
        if is_entry name e then (loop F shift_body ep;; mret (inl ep)) s else (Ok (inl (S ep)), s)
    end.
Proof.
  unfold unset_body. unfold mbind at 1, M_bind at 1, gets. destruct (cells s !! ep) as [[x|]|]; [|done|done].
  by destruct (is_entry name x).
Qed.

Lemma unset_run F fuel name dn l rest s :
  s.(cells) = (Some <$> dn) ++ (Some <$> l) ++ None :: rest → (length l + 1 < F)%nat → (length l < fuel)%nat →
  ∃ rest', loop fuel (unset_body F name) (length dn) s =
    (Ok tt, Env s.(errno) ((Some <$> dn ++ filter (λ e, ¬ is_entry name e) l) ++ None :: rest') s.(allocs)).
Proof.
  revert dn s fuel rest. induction l as [|e l IH]; intros dn s fuel rest Hc HF Hf;
    (destruct fuel as [|fuel]; [simpl in Hf; lia|]); rewrite loop_S; unfold mbind at 1, M_bind at 1;
    rewrite unset_body_run, Hc, <- (length_fmap Some dn).
  - cbn [fmap list_fmap app]. rewrite lookup_at. exists rest. unfold mret, M_ret. rewrite app_nil_r.
    destruct s as [er c al]; simpl in *. by rewrite Hc.
  - rewrite fmap_cons. cbn [app]. rewrite lookup_at, filter_cons. simpl in HF, Hf. destruct (is_entry name e) eqn:He.
    + rewrite decide_False by (intros Hx; by apply Hx). unfold mbind at 1, M_bind at 1.
      rewrite (shift_run F l (Some <$> dn) e rest s) by (done || lia). unfold mret, M_ret. rewrite length_fmap.
      destruct (IH dn (Env (errno s) ((Some <$> dn) ++ (Some <$> l) ++ None :: None :: rest) (allocs s)) fuel (None :: rest))
        as [rest' E]; [done|lia..|]. by exists rest'.
    + rewrite decide_True by (by intros []).
      rewrite length_fmap. replace (S (length dn)) with (length (dn ++ [e])) by (rewrite length_app; simpl; lia).
      destruct (IH (dn ++ [e]) s fuel rest) as [rest' E]; [|lia..|].
      { by rewrite Hc, fmap_app, <- app_assoc. }
      exists rest'. rewrite E. by rewrite <- app_assoc.
Qed.

(** ** The functions *)

(** [unsetenv] leaves the entries of the other names, in their order, and [errno]. *)
Lemma unsetenv_run fuel name l s :
  bad_name (Some name) = false → holds s l → (length l + 1 < fuel)%nat →
  ∃ s', unsetenv fuel (Some name) s = (Ok 0, s') ∧ holds s' (filter (λ e, ¬ is_entry name e) l) ∧
    s'.(errno) = s.(errno) ∧ s'.(allocs) = s.(allocs).
Proof.
  intros Hb [rest Hc] Hf. unfold unsetenv. rewrite Hb. cbn [default].
  destruct (unset_run fuel fuel name [] l rest s) as [rest' E]; [done|lia..|].
  eexists. split; [by erewrite run_bind by exact E|]. split; [by exists rest'|done].
Qed.

Lemma unsetenv_bad fuel name s :
  bad_name name = true → unsetenv fuel name s = (Ok (-1), Env EINVAL s.(cells) s.(allocs)).
Proof. intros Hb. unfold unsetenv. by rewrite Hb. Qed.

(** Whether [setenv] has its two allocations, for the text and for [putenv]. *)
Definition enough_memory (s : env) : bool :=
  match s.(allocs) with true :: true :: _ => true | _ => false end.

(** The end of [setenv], the name having no entry. *)
Lemma setenv_tail nm v l s :
  strchr nm "=" = None → holds s l → Forall (λ e, is_entry nm e = false) l →
  ∃ r s' l', (ok ← allocate;
      if ok : bool then r ← putenv (nm +:+ "=" +:+ v); mret (if negb (r =? 0) then -1 else 0) else fail ENOMEM) s
      = (Ok r, s') ∧ holds s' l' ∧
    if enough_memory s then r = 0 ∧ l' = l ++ [nm +:+ "=" +:+ v] else r = -1 ∧ s'.(errno) = ENOMEM ∧ l' = l.
Proof.
  intros Hn Hl HF. pose proof (holds_entries _ _ Hl) as He. unfold enough_memory.
  destruct s as [er c [|[] [|[] al]]]; simpl in He; try (by do 2 eexists; exists l).
  exists 0, (Env er ((Some <$> put_entry (nm +:+ "=" +:+ v) l) ++ [None]) al), (l ++ [nm +:+ "=" +:+ v]).
  split; [|split; [|done]].
  - unfold putenv, mbind, M_bind, allocate, gets. simpl. by rewrite He.
  - exists []. cbn [cells]. change ("=" +:+ v) with (String "=" v). by rewrite put_entry_new.
Qed.

(** In the absence of entries the map has nothing for a name. *)
Lemma env_map_none name l :
  strchr name "=" = None → Forall (λ e, is_entry name e = false) l → env_map l !! name = None.
Proof.
  intros Hn HF. rewrite <- find_entry_map by done. unfold find_entry.
  assert (filter (λ e, is_entry name e) l = []) as ->; [|done].
  induction HF as [|e l He _ IH]; [done|]. rewrite filter_cons, decide_False; [done|]. rewrite He. by intros [].
Qed.

Lemma only_entry nm v l :
  strchr nm "=" = None → Forall (λ e, is_entry nm e = false) l →
  filter (λ e, is_entry nm e) (l ++ [nm +:+ "=" +:+ v]) = [nm +:+ "=" +:+ v].
Proof.
  intros Hn HF. rewrite filter_app.
  assert (filter (λ e, is_entry nm e) l = []) as ->.
  { induction HF as [|e l He _ IH]; [done|]. rewrite filter_cons, decide_False; [done|]. rewrite He. by intros []. }
  rewrite filter_cons, decide_True; [done|]. apply Is_true_true, is_entry_split. by exists v.
Qed.

(** C21: [setenv] and [unsetenv] do to the environment what is promised of the map
    from names to values that it stands for.  A name that is empty, missing or has
    an equals sign, or a missing value, is refused and nothing changes.  A name that
    has a value keeps it when it is not to be overwritten; otherwise it is bound to
    the new value, and to it alone, whatever entries of it there were, and the other
    names stay as they are.  Where memory runs out the result is -1, and then the
    name is bound to nothing, its old value included. *)
Theorem setenv_refines fuel name value overwrite l s :
  holds s l → (length l + 1 < fuel)%nat →
  (∃ s' l', unsetenv fuel name s = (Ok (if bad_name name then -1 else 0), s') ∧ holds s' l' ∧
     env_map l' = if bad_name name then env_map l else delete (default "" name) (env_map l)) ∧
  (∃ r s' l', setenv fuel name value overwrite s = (Ok r, s') ∧ holds s' l' ∧
     match bad_name name, name, value with
     | false, Some nm, Some v =>
         if bool_decide (is_Some (env_map l !! nm)) && (overwrite =? 0) then r = 0 ∧ l' = l
         else if enough_memory s then
           r = 0 ∧ env_map l' = <[nm := v]> (env_map l) ∧
           filter (λ e, is_entry nm e) l' = [nm +:+ "=" +:+ v]
         else r = -1 ∧ s'.(errno) = ENOMEM ∧ env_map l' = delete nm (env_map l)
     | _, _, _ => r = -1 ∧ s'.(errno) = EINVAL ∧ l' = l
     end).
Proof.
  intros Hl Hf. split.
  { destruct (bad_name name) eqn:Hb.
    - rewrite unsetenv_bad by done. eexists _, l. split; [done|]. split; [exact Hl|done].
    - destruct name as [name|]; [|done]. destruct (unsetenv_run fuel name l s Hb Hl Hf) as (s' & E & H & _).
      eexists s', _. split; [done|]. split; [exact H|]. apply env_map_unset. by apply strchr_name. }
  unfold setenv. destruct (bad_name name) eqn:Hb; [by eexists _, _, l|].
  destruct name as [nm|]; [|done]. destruct value as [v|]; [|by eexists _, _, l].
  destruct (strchr_name _ Hb) as [Hn _].
  unfold getenv, mbind at 1, M_bind at 1, gets. rewrite (holds_entries _ _ Hl), find_entry_map by done.
  destruct (bool_decide (is_Some (env_map l !! nm)) && (overwrite =? 0)); [by exists 0, s, l|].
  destruct (unsetenv_run fuel nm l s Hb Hl Hf) as (s1 & E & H & He & Ha). erewrite run_bind by exact E.
  destruct (setenv_tail nm v _ s1 Hn H (unset_no_entry nm l)) as (r & s2 & l2 & E2 & H2 & Hr).
  exists r, s2, l2. split; [exact E2|]. split; [exact H2|].
  assert (Hm : enough_memory s1 = enough_memory s) by (unfold enough_memory; by rewrite Ha). rewrite Hm in Hr.
  destruct (enough_memory s); [destruct Hr as (-> & ->)|destruct Hr as (-> & Hr & ->)]; split_and!;
    try done; try by apply env_map_unset.
  - change ("=" +:+ v) with (String "=" v). rewrite env_map_app_new, env_map_unset; [apply insert_delete_eq|done|done|].
    apply env_map_none; [done|apply unset_no_entry].
  - apply only_entry; [done|apply unset_no_entry].
Qed.

Lemma setenv_refines_witness :
  let s := Env 0 [Some "a=1"; Some "xyz=one"; Some "xyz=two"; None] [true; true] in
  ∃ s' l', setenv 9 (Some "xyz") (Some "three") 1 s = (Ok 0, s') ∧ holds s' l' ∧
    env_map l' = <["xyz" := "three"]> (env_map ["a=1"; "xyz=one"; "xyz=two"]).
Proof.
  intros s. destruct (setenv_refines 9 (Some "xyz") (Some "three") 1 ["a=1"; "xyz=one"; "xyz=two"] s)
    as [_ (r & s' & l' & E & H & Hr)].
  - by exists [].
  - apply Nat.ltb_lt. reflexivity.
  - destruct Hr as (-> & Hr & _). exists s', l'. split; [exact E|]. split; [exact H|exact Hr].
Defined.

(** A [setenv] that fails for want of memory has removed the variable. *)
Example setenv_fails :
  setenv 9 (Some "xyz") (Some "three") 1 (Env 0 [Some "a=1"; Some "xyz=one"; None] []) =
    (Ok (-1), Env ENOMEM [Some "a=1"; None; None] []).
Proof. by vm_compute. Qed.


Example setenv_examples :
  let s := Env 0 [Some "a=1"; Some "xyz=one"; Some "b"; Some "xyz=two"; None] [true; true] in
  (setenv 9 (Some "xyz") (Some "three") 1 s).2.(cells) = [Some "a=1"; Some "b"; Some "xyz=three"; None] ∧
  (setenv 9 (Some "xyz") (Some "three") 0 s) = (Ok 0, s) ∧
  (setenv 9 (Some "a=b") (Some "three") 0 s).1 = Ok (-1) ∧
  (unsetenv 9 (Some "xyz") s).2.(cells) = [Some "a=1"; Some "b"; None; None; None].
Proof. by vm_compute. Qed.
