(* ===== verification/System.v ===== *)
(** Running a shell command and explaining how a child ended:
    [procexec/system.c], [simple_system.c] and [print_wait_status.c].

    The caller's signal state is what [system] manipulates: the dispositions of
    SIGINT and SIGQUIT and the signal mask.  The machine follows one of the two
    processes after a [fork], as its result says. *)
From stdpp Require Import gmap.
From S2P Require Import Prelude CLib.
Local Open Scope Z_scope.

(** ** Signals *)

Definition SIGINT : Z := 2.
Definition SIGQUIT : Z := 3.
Definition SIGCHLD : Z := 17.

Inductive handler := SIG_DFL | SIG_IGN | Handler (f : Z).
#[global] Instance handler_eq_dec : EqDecision handler.
Proof. solve_decision. Defined.

Record sigact := SigAct { sa_handler : handler; sa_flags : Z; sa_mask : gset Z }.

(** The part of a process's signal state that is touched. *)
Record sigstate := Sigs { on_int : sigact; on_quit : sigact; blocked : gset Z }.

Inductive event :=
| EExec (path : string) (argv : list string) (s : sigstate)
| EWait (pid : Z) (s : sigstate).

(** [forks]: for each [fork] to come, the error negated, 0 to follow the child or
    the child's number; [waits]: the error or the status each [waitpid] gives;
    [execs]: the error of each [execl], 0 where it succeeds.  Where no result is
    left [fork] and [waitpid] never return. *)
Record st := St {
  sigs : sigstate; err : Z; forks : list Z; waits : list (Z + Z); execs : list Z;
  trace : list event
}.

Definition set_sigs (g : sigstate) (s : st) : st :=
  St g s.(err) s.(forks) s.(waits) s.(execs) s.(trace).
Definition set_err (e : Z) (s : st) : st :=
  St s.(sigs) e s.(forks) s.(waits) s.(execs) s.(trace).

(** [sigprocmask(SIG_BLOCK, set, &old)] and [sigprocmask(SIG_SETMASK, set, NULL)],
    [sigaction(SIGINT, act, &old)] and the same of SIGQUIT. *)
Definition sig_block (b : gset Z) : M st (gset Z) := λ s,
  let g := s.(sigs) in
  (Ok g.(blocked), set_sigs (Sigs g.(on_int) g.(on_quit) (g.(blocked) ∪ b)) s).
Definition sig_setmask (b : gset Z) : M st unit := λ s,
  let g := s.(sigs) in (Ok tt, set_sigs (Sigs g.(on_int) g.(on_quit) b) s).
Definition sigaction_int (a : sigact) : M st sigact := λ s,
  let g := s.(sigs) in (Ok g.(on_int), set_sigs (Sigs a g.(on_quit) g.(blocked)) s).
Definition sigaction_quit (a : sigact) : M st sigact := λ s,
  let g := s.(sigs) in (Ok g.(on_quit), set_sigs (Sigs g.(on_int) a g.(blocked)) s).

Definition fork : M st Z := λ s,
  match s.(forks) with
  | [] => (Halt HFuel, s)
  | p :: l =>
      let s := St s.(sigs) s.(err) l s.(waits) s.(execs) s.(trace) in
      if p <? 0 then (Ok (-1), set_err (- p) s) else (Ok p, s)
  end.
(** -1, or 0 and the status. *)
Definition waitpid (pid : Z) : M st (option Z) := λ s,
  match s.(waits) with
  | [] => (Halt HFuel, s)
  | r :: l =>
      let s := St s.(sigs) s.(err) s.(forks) l s.(execs) (s.(trace) ++ [EWait pid s.(sigs)]) in
      match r with inl e => (Ok None, set_err e s) | inr status => (Ok (Some status), s) end
  end.
Definition execl (path : string) (argv : list string) : M st unit := λ s,
  let e := default 0 (head s.(execs)) in
  let s := St s.(sigs) s.(err) s.(forks) s.(waits) (tail s.(execs))
             (s.(trace) ++ [EExec path argv s.(sigs)]) in
  if e =? 0 then (Halt HExec, s) else (Ok tt, set_err e s).

(** *** [simple_system.c] *)

Definition simple_system (command : string) : M st Z :=
  childPid ← fork;
  if childPid =? -1 then mret (-1) else
  if childPid =? 0 then
    execl "/bin/sh" ["sh"; "-c"; command];;
    stop (HExitNow 127)
  else
    r ← waitpid childPid;
    mret (match r with None => -1 | Some status => status end).

(** *** [system.c] *)

Definition saIgnore : sigact := SigAct SIG_IGN 0 ∅.
Definition saDefault : sigact := SigAct SIG_DFL 0 ∅.

(** The child of [system]. *)
Definition system_child (command : string) (saOrigInt saOrigQuit : sigact) (origMask : gset Z) :
    M st Z :=
  when (negb (bool_decide (saOrigInt.(sa_handler) = SIG_IGN))) (sigaction_int saDefault;; skip);;
  when (negb (bool_decide (saOrigQuit.(sa_handler) = SIG_IGN))) (sigaction_quit saDefault;; skip);;
  sig_setmask origMask;;
  execl "/bin/sh" ["sh"; "-c"; command];;
  stop (HExitNow 127).

(** [while (waitpid(childPid, &status, 0) == -1) ...] *)
Definition wait_body (childPid : Z) (_ : unit) : M st (unit + Z) :=
  r ← waitpid childPid;
  match r with
  | Some status => mret (inr status)
  | None => e ← gets err; mret (if negb (e =? EINTR) then inr (-1) else inl tt)
  end.
Definition wait_child (childPid : Z) : M st Z :=
  n ← gets (λ s, length s.(waits)); loop (S n) (wait_body childPid) tt.

(** [system] of a command that is not null. *)
Definition system_command (command : string) : M st Z :=
  origMask ← sig_block {[ SIGCHLD ]};
  saOrigInt ← sigaction_int saIgnore;
  saOrigQuit ← sigaction_quit saIgnore;
  childPid ← fork;
  status ← (if childPid =? -1 then mret (-1)
            else if childPid =? 0 then system_child command saOrigInt saOrigQuit origMask
            else wait_child childPid);
  savedErrno ← gets err;
  sig_setmask origMask;;
  sigaction_int saOrigInt;;
  sigaction_quit saOrigQuit;;
  modify (set_err savedErrno);;
  mret status.

Definition system (command : option string) : M st Z :=
  match command with
  | None => r ← system_command ":"; mret (if r =? 0 then 1 else 0)
  | Some c => system_command c
  end.

(** ** The specification of [system] *)

(** While the command runs. *)
Definition during (g : sigstate) : sigstate := Sigs saIgnore saIgnore (g.(blocked) ∪ {[ SIGCHLD ]}).

(** What the command starts with: what its caller ignores it ignores, what its
    caller handles has its default, and the mask is the caller's. *)
Definition inherited (a : sigact) : sigact :=
  if bool_decide (a.(sa_handler) = SIG_IGN) then saIgnore else saDefault.
Definition in_child (g : sigstate) : sigstate :=
  Sigs (inherited g.(on_int)) (inherited g.(on_quit)) g.(blocked).

(** The interrupted waits, and the one that ends the waiting. *)
Definition interrupted (l : list (Z + Z)) : Prop := Forall (λ r, r = inl EINTR) l.
Definition ends_wait (r : Z + Z) : Prop := r ≠ inl EINTR.

(** [errno] after the waits. *)
Definition wait_errno (n : nat) (r : Z + Z) (e : Z) : Z :=
  match r with inl e' => e' | inr _ => if (n =? 0)%nat then e else EINTR end.

Lemma wait_body_run pid r later s :
  s.(waits) = r :: later →
  wait_body pid tt s =
  (Ok (match r with inl e => if e =? EINTR then inl tt else inr (-1) | inr status => inr status end),
   St s.(sigs) (match r with inl e => e | inr _ => s.(err) end) s.(forks) later s.(execs)
     (s.(trace) ++ [EWait pid s.(sigs)])).
Proof.
  intros Hw. unfold wait_body, waitpid, mbind, M_bind. rewrite Hw.
  destruct r as [e|]; [|done]. simpl. by destruct (e =? EINTR).
Qed.

Lemma wait_loop fuel pid l r later s :
  (length l < fuel)%nat → s.(waits) = l ++ r :: later → interrupted l → ends_wait r →
  loop fuel (wait_body pid) tt s =
  (Ok (match r with inl _ => -1 | inr status => status end),
   St s.(sigs) (wait_errno (length l) r s.(err)) s.(forks) later s.(execs)
     (s.(trace) ++ replicate (S (length l)) (EWait pid s.(sigs)))).
Proof.
  revert fuel s. induction l as [|x l IH]; intros [|fuel] s Hf Hw Hi Hr; simpl in Hf; try lia;
    rewrite loop_S, (run_bind _ _ _ _ _ (wait_body_run _ _ _ _ Hw)).
  - destruct r as [e|status]; [|done].
    by rewrite (proj2 (Z.eqb_neq e EINTR)) by (intros ->; by apply Hr).
  - apply Forall_cons in Hi as [-> Hi]. simpl.
    rewrite IH; [|lia|done..]. simpl. rewrite <- app_assoc. by destruct r, l.
Qed.

Lemma child_runs command i q b s :
  on_int (sigs s) = saIgnore → on_quit (sigs s) = saIgnore →
  ∃ s', system_child command i q b s =
      (Halt (if default 0 (head s.(execs)) =? 0 then HExec else HExitNow 127), s') ∧
    s'.(trace) = s.(trace) ++
      [EExec "/bin/sh" ["sh"; "-c"; command] (Sigs (inherited i) (inherited q) b)].
Proof.
  destruct s as [[i' q' b'] e fk ws xs tr]. simpl. intros -> ->.
  unfold system_child, inherited, mbind, M_bind.
  destruct (bool_decide_reflect (sa_handler i = SIG_IGN)), (bool_decide_reflect (sa_handler q = SIG_IGN));
    cbn; unfold execl; cbn; destruct (default 0 (head xs) =? 0); by eexists.
Qed.

(** C18: whatever happens, [system] leaves its caller's signal dispositions and mask
    as they were.  It gives -1 and the error if no process can be created or
    waited for, and else the child's status, however often the wait is
    interrupted; all the while SIGINT and SIGQUIT are ignored and SIGCHLD is
    blocked.  The command is run by the shell with the caller's mask, and with
    those of the two signals ignored that the caller ignores. *)
Theorem system_keeps_signals command p fs l r later s :
  s.(forks) = p :: fs → s.(waits) = l ++ r :: later → interrupted l → ends_wait r →
  (p < 0 → system (Some command) s =
     (Ok (-1), St s.(sigs) (- p) fs s.(waits) s.(execs) s.(trace))) ∧
  (0 < p → system (Some command) s =
     (Ok (match r with inl _ => -1 | inr status => status end),
      St s.(sigs) (wait_errno (length l) r s.(err)) fs later s.(execs)
        (s.(trace) ++ replicate (S (length l)) (EWait p (during s.(sigs)))))) ∧
  (p = 0 → let e := default 0 (head s.(execs)) in
     ∃ s', system (Some command) s = (Halt (if e =? 0 then HExec else HExitNow 127), s') ∧
       s'.(trace) = s.(trace) ++ [EExec "/bin/sh" ["sh"; "-c"; command] (in_child s.(sigs))]).
Proof.
  intros Hf Hw Hi Hr. destruct s as [[i q b] e fk ws xs tr]. simpl in Hf, Hw. subst fk ws.
  unfold during, in_child, system, system_command, mbind, M_bind. split_and!.
  - intros Hp. cbn. by rewrite (proj2 (Z.ltb_lt p 0) Hp).
  - intros Hp. cbn -[wait_child]. rewrite (proj2 (Z.ltb_ge p 0)) by lia. cbn -[wait_child].
    rewrite (proj2 (Z.eqb_neq p (-1))), (proj2 (Z.eqb_neq p 0)) by lia.
    unfold wait_child, mbind, M_bind, gets. cbn -[loop].
    rewrite (wait_loop _ p l r later); [done| |done..].
    cbn. rewrite length_app. simpl. lia.
  - intros ->. cbn -[system_child].
    match goal with |- context [system_child _ _ _ _ ?s0] =>
      destruct (child_runs command i q b s0) as (s' & -> & Ht); [done..|] end.
    by exists s'.
Qed.

Lemma system_keeps_signals_witness :
  let caller := Sigs (SigAct (Handler 7) 0 ∅) (SigAct SIG_IGN 0 ∅) {[ 10 ]} in
  system (Some "ls") (St caller 0 [42] [inl EINTR; inl EINTR; inr 256] [] []) =
  (Ok 256, St caller EINTR [] [] [] (replicate 3 (EWait 42 (during caller)))).
Proof.
  intros caller.
  destruct (system_keeps_signals "ls" 42 [] [inl EINTR; inl EINTR] (inr 256) []
    (St caller 0 [42] [inl EINTR; inl EINTR; inr 256] [] [])) as (_ & H & _);
    [done|done|by repeat constructor|done|by apply H].
Defined.

(** Without interruptions [simple_system] gives the same status, and the command
    starts in the caller's signal state untouched. *)
Lemma simple_system_agrees command p fs r later s :
  s.(forks) = p :: fs → s.(waits) = r :: later → ends_wait r → p ≠ 0 →
  (simple_system command s).1 = (system_command command s).1.
Proof.
  intros Hf Hw Hr Hp.
  destruct s as [g e fk ws xs tr]. simpl in Hf, Hw. subst fk ws.
  unfold simple_system, system_command, mbind, M_bind, fork, waitpid. cbn.
  destruct (Z.ltb_spec p 0); [done|]. cbn.
  rewrite (proj2 (Z.eqb_neq p (-1))), (proj2 (Z.eqb_neq p 0)) by lia.
  unfold wait_child, mbind, M_bind, gets. cbn -[loop].
  rewrite (wait_loop _ p [] r later); [|simpl; lia|done|constructor|done]. by destruct r.
Qed.

(** ** [print_wait_status.c]

    The macros of [<sys/wait.h>] on the 16 bits of a status. *)

Definition WTERMSIG (s : Z) : Z := Z.land s 0x7f.
Definition WEXITSTATUS (s : Z) : Z := Z.shiftr (Z.land s 0xff00) 8.
Definition WSTOPSIG (s : Z) : Z := WEXITSTATUS s.
Definition WIFEXITED (s : Z) : bool := WTERMSIG s =? 0.
Definition WIFSIGNALED (s : Z) : bool := 0 <? Z.shiftr (to_signed 8 (WTERMSIG s + 1)) 1.
Definition WIFSTOPPED (s : Z) : bool := Z.land s 0xff =? 0x7f.
Definition WIFCONTINUED (s : Z) : bool := s =? 0xffff.
Definition WCOREDUMP (s : Z) : bool := negb (Z.land s 0x80 =? 0).

(** [%x] of an [unsigned int] *)
Definition hex_char (d : Z) : ascii := ascii_of_N (Z.to_N (if d <? 10 then 48 + d else 87 + d)).
Fixpoint hex_digits (fuel : nat) (n : Z) (acc : string) : string :=
  match fuel with
  | O => acc
  | S fuel =>
      let acc := String (hex_char (n mod 16)) acc in
      if n <? 16 then acc else hex_digits fuel (n / 16) acc
  end.
Definition fmt_x (n : Z) : string := hex_digits 8 n "".

Section wait_status.
Variable strsignal : Z → string.

(** What is printed. *)
Definition printWaitStatus (msg : option string) (status : Z) : string :=
  default "" msg +:+
  if WIFEXITED status then "child exited, status=" +:+ fmt_d (WEXITSTATUS status) +:+ nl
  else if WIFSIGNALED status then
    "child killed by signal " +:+ fmt_d (WTERMSIG status) +:+ " (" +:+ strsignal (WTERMSIG status) +:+ ")" +:+
    (if WCOREDUMP status then " (core dumped)" else "") +:+ nl
  else if WIFSTOPPED status then
    "child stopped by signal " +:+ fmt_d (WSTOPSIG status) +:+ " (" +:+ strsignal (WSTOPSIG status) +:+ ")" +:+ nl
  else if WIFCONTINUED status then "child continued" +:+ nl
  else "what happened to this child? (status=" +:+ fmt_x (to_unsigned 32 status) +:+ ")" +:+ nl.

(** What can happen to a child, and how the kernel encodes it. *)
Inductive ending :=
| Exited (n : Z) | Killed (sig : Z) (core : bool) | Stopped (sig : Z) | Continued.

Definition possible (e : ending) : Prop :=
  match e with
  | Exited n => 0 <= n < 256
  | Killed sig _ => 0 < sig < 127
  | Stopped sig => 0 < sig < 128
  | Continued => True
  end.
Definition encode (e : ending) : Z :=
  match e with
  | Exited n => Z.shiftl n 8
  | Killed sig core => Z.lor sig (if core then 0x80 else 0)
  | Stopped sig => Z.lor (Z.shiftl sig 8) 0x7f
  | Continued => 0xffff
  end.

Definition description (e : ending) : string :=
  match e with
  | Exited n => "child exited, status=" +:+ fmt_d n
  | Killed sig core =>
      "child killed by signal " +:+ fmt_d sig +:+ " (" +:+ strsignal sig +:+ ")" +:+
      (if core then " (core dumped)" else "")
  | Stopped sig => "child stopped by signal " +:+ fmt_d sig +:+ " (" +:+ strsignal sig +:+ ")"
  | Continued => "child continued"
  end.

(** Statuses are few enough to go through. *)
Lemma in_range (P : Z → bool) (m n z : Z) :
  forallb P (seqZ m n) = true → m <= z < m + n → P z = true.
Proof.
  intros H Hz. rewrite forallb_forall in H. apply H. apply list_elem_of_In, elem_of_seqZ. lia.
Qed.

Lemma decode_exited n :
  0 <= n < 256 → WIFEXITED (encode (Exited n)) = true ∧ WEXITSTATUS (encode (Exited n)) = n.
Proof.
  intros Hn. pose proof (in_range (λ n, WIFEXITED (encode (Exited n)) &&
    (WEXITSTATUS (encode (Exited n)) =? n)) 0 256 n eq_refl Hn) as H. cbv beta in H. by bool_facts.
Qed.

Lemma decode_killed sig core :
  0 < sig < 127 → let s := encode (Killed sig core) in
  WIFEXITED s = false ∧ WIFSIGNALED s = true ∧ WTERMSIG s = sig ∧ WCOREDUMP s = core.
Proof.
  intros Hn s. assert (H : negb (WIFEXITED s) && (WIFSIGNALED s && ((WTERMSIG s =? sig) &&
    Bool.eqb (WCOREDUMP s) core)) = true).
  { apply (in_range (λ sig, let s := encode (Killed sig core) in negb (WIFEXITED s) &&
      (WIFSIGNALED s && ((WTERMSIG s =? sig) && Bool.eqb (WCOREDUMP s) core))) 1 126); [|lia].
    by destruct core. }
  bool_facts. match goal with H : Bool.eqb _ _ = true |- _ => apply Bool.eqb_prop in H end. done.
Qed.

Lemma decode_stopped sig :
  0 < sig < 128 → let s := encode (Stopped sig) in
  WIFEXITED s = false ∧ WIFSIGNALED s = false ∧ WIFSTOPPED s = true ∧ WSTOPSIG s = sig.
Proof.
  intros Hn s. assert (H : negb (WIFEXITED s) && (negb (WIFSIGNALED s) && (WIFSTOPPED s &&
    (WSTOPSIG s =? sig))) = true).
  { apply (in_range (λ sig, let s := encode (Stopped sig) in negb (WIFEXITED s) &&
      (negb (WIFSIGNALED s) && (WIFSTOPPED s && (WSTOPSIG s =? sig)))) 1 127); [done|lia]. }
  bool_facts. done.
Qed.

(** [printWaitStatus] tells what happened to the child, for every way a child
    can change its state and the status the kernel encodes it in. *)
Theorem printWaitStatus_tells e msg :
  possible e → printWaitStatus msg (encode e) = default "" msg +:+ description e +:+ nl.
Proof.
  unfold printWaitStatus. intros He. f_equal. destruct e as [n|sig core|sig|]; simpl in He.
  - by destruct (decode_exited n He) as [-> ->].
  - destruct (decode_killed sig core He) as (-> & -> & -> & ->). unfold description. by rewrite <- !append_assoc.
  - destruct (decode_stopped sig He) as (-> & -> & -> & ->). unfold description. by rewrite <- !append_assoc.
  - done.
Qed.
End wait_status.

Lemma printWaitStatus_tells_witness :
  printWaitStatus (λ _, "Terminated") (Some "> ") 0x8f =
  "> child killed by signal 15 (Terminated) (core dumped)" +:+ nl.
Proof. apply (printWaitStatus_tells (λ _, "Terminated") (Killed 15 true) (Some "> ")). simpl. lia. Defined.
