(* ===== verification/Descriptors.v ===== *)
(** A process as the kernel keeps it: its descriptor table, session and terminal.

    The state the programs of [daemons/] and [pty/] act on, with the calls they
    make.  [open] and its like give the lowest descriptor that is not in use; a
    call that can fail takes its error from an arbitrary list. *)
From stdpp Require Import gmap.
From S2P Require Import Prelude CLib ErrorFunctions Proc.
Local Open Scope Z_scope.

(** ** The process *)

(** What a descriptor refers to: the null device, the two sides of a
    pseudoterminal, or something else. *)
Inductive file := DevNull | Ptm (k : Z) | Pts (k : Z) | Other (n : Z).
#[global] Instance file_eq_dec : EqDecision file.
Proof. solve_decision. Defined.

(** [struct termios]: the flags, and the control characters as far as used. *)
Record termios := Termios {
  c_iflag : Z; c_oflag : Z; c_cflag : Z; c_lflag : Z; c_vmin : Z; c_vtime : Z; c_rest : Z
}.
(** [struct winsize] *)
Record winsize := Winsize { ws_row : Z; ws_col : Z }.

(** [unlocked]: the pseudoterminals whose slave side may be opened; [next_pty] the
    number of the next one; [open_max] is the value of [sysconf(_SC_OPEN_MAX)], -1 when it is
    indeterminate; [next_pid] the number of the next process; [results] the error
    of each call to come that may fail, 0 or none left where it succeeds; [forks]
    tells of each [fork] to come the error negated, 0 where the child is
    followed, or the child's number. *)
Record kern := Kern {
  fds : gmap Z file;
  pid : Z; pgid : Z; sid : Z; ctty : option file;
  file_mask : Z; cwd : string;
  attrs : file → termios; sizes : file → winsize; unlocked : gset Z;
  open_max : Z; next_pid : Z; next_pty : Z;
  results : list Z; forks : list Z
}.

Definition set_fds (m : gmap Z file) (k : kern) : kern :=
  Kern m k.(pid) k.(pgid) k.(sid) k.(ctty) k.(file_mask) k.(cwd) k.(attrs) k.(sizes) k.(unlocked)
    k.(open_max) k.(next_pid) k.(next_pty) k.(results) k.(forks).
Definition set_session (p g i : Z) (t : option file) (k : kern) : kern :=
  Kern k.(fds) p g i t k.(file_mask) k.(cwd) k.(attrs) k.(sizes) k.(unlocked)
    k.(open_max) k.(next_pid) k.(next_pty) k.(results) k.(forks).
Definition set_ambient (m : Z) (d : string) (k : kern) : kern :=
  Kern k.(fds) k.(pid) k.(pgid) k.(sid) k.(ctty) m d k.(attrs) k.(sizes) k.(unlocked)
    k.(open_max) k.(next_pid) k.(next_pty) k.(results) k.(forks).
Definition set_terminal (a : file → termios) (z : file → winsize) (u : gset Z) (k : kern) : kern :=
  Kern k.(fds) k.(pid) k.(pgid) k.(sid) k.(ctty) k.(file_mask) k.(cwd) a z u
    k.(open_max) k.(next_pid) k.(next_pty) k.(results) k.(forks).
Definition set_machine (np nt : Z) (r f : list Z) (k : kern) : kern :=
  Kern k.(fds) k.(pid) k.(pgid) k.(sid) k.(ctty) k.(file_mask) k.(cwd) k.(attrs) k.(sizes) k.(unlocked)
    k.(open_max) np nt r f.

(** ** The lowest free descriptor *)

Fixpoint search_fd (m : gmap Z file) (fd : Z) (fuel : nat) : Z :=
  match fuel with
  | O => fd
  | S fuel => match m !! fd with Some _ => search_fd m (fd + 1) fuel | None => fd end
  end.
Definition lowest_fd (m : gmap Z file) : Z := search_fd m 0 (size m).

Lemma search_fd_below m fd fuel x : fd <= x < search_fd m fd fuel → is_Some (m !! x).
Proof.
  revert fd. induction fuel as [|fuel IH]; intros fd Hx; simpl in Hx; [lia|].
  destruct (m !! fd) as [f|] eqn:E; [|lia].
  destruct (decide (x = fd)) as [->|]; [by exists f|]. apply (IH (fd + 1)). lia.
Qed.

Lemma search_fd_range m fd fuel : fd <= search_fd m fd fuel <= fd + Z.of_nat fuel.
Proof.
  revert fd. induction fuel as [|fuel IH]; intros fd; simpl; [lia|].
  destruct (m !! fd); [|lia]. specialize (IH (fd + 1)). lia.
Qed.

Lemma search_fd_free m fd fuel :
  search_fd m fd fuel < fd + Z.of_nat fuel → m !! search_fd m fd fuel = None.
Proof.
  revert fd. induction fuel as [|fuel IH]; intros fd; simpl; [lia|].
  destruct (m !! fd) as [f|] eqn:E; [|done]. intros H. apply IH. lia.
Qed.

(** There is a free descriptor among the first [size m + 1]. *)
Lemma lowest_fd_spec m :
  0 <= lowest_fd m ∧ m !! lowest_fd m = None ∧ ∀ x, 0 <= x < lowest_fd m → is_Some (m !! x).
Proof.
  unfold lowest_fd. split_and!.
  - apply search_fd_range.
  - pose proof (search_fd_range m 0 (size m)) as Hr.
    destruct (decide (search_fd m 0 (size m) < 0 + Z.of_nat (size m))) as [H|H]; [by apply search_fd_free|].
    assert (Hm : search_fd m 0 (size m) = Z.of_nat (size m)) by lia. rewrite Hm.
    destruct (m !! Z.of_nat (size m)) as [f|] eqn:E; [|done]. exfalso.
    set (X := list_to_set (C := gset Z) (seqZ 0 (Z.of_nat (S (size m))))).
    assert (HX : X ⊆ dom m).
    { intros x Hx. apply elem_of_list_to_set, elem_of_seqZ in Hx. apply elem_of_dom.
      destruct (decide (x = Z.of_nat (size m))) as [->|]; [by exists f|].
      apply (search_fd_below m 0 (size m)). lia. }
    apply subseteq_size in HX. rewrite size_dom in HX. unfold X in HX.
    rewrite size_list_to_set, length_seqZ in HX by apply NoDup_seqZ. lia.
  - apply search_fd_below.
Qed.

Lemma lowest_fd_zero m : m !! 0 = None → lowest_fd m = 0.
Proof.
  intros H. destruct (lowest_fd_spec m) as (Hp & _ & Hx).
  destruct (decide (lowest_fd m = 0)) as [|Hne]; [done|].
  destruct (Hx 0) as [f Hf]; [lia|congruence].
Qed.

(** ** The calls *)

Definition ENXIO : Z := 6.

(** A call that may fail for reasons the state does not show. *)
Definition fallible {A} (f : kern → (Z + A) * kern) (k : kern) : (Z + A) * kern :=
  let e := default 0 (head k.(results)) in
  let k := set_machine k.(next_pid) k.(next_pty) (tail k.(results)) k.(forks) k in
  if e =? 0 then f k else (inl e, k).

Section calls.
Context {L : Libc}.
Local Abbreviation P := (M (pst unit string kern)).

Definition fork : P (Z + Z) := call "fork" (λ k,
  match k.(forks) with
  | [] => (inl EAGAIN, k)
  | f :: l =>
      if f <? 0 then (inl (- f), set_machine k.(next_pid) k.(next_pty) k.(results) l k)
      else
        let k' := set_machine (k.(next_pid) + 1) k.(next_pty) k.(results) l k in
        if f =? 0 then (inr 0, set_session k.(next_pid) k.(pgid) k.(sid) k.(ctty) k')
        else (inr f, k')
  end).

(** The leader of a process group cannot start a session. *)
Definition setsid : P (Z + Z) := call "setsid" (λ k,
  if k.(pgid) =? k.(pid) then (inl EPERM, k)
  else (inr k.(pid), set_session k.(pid) k.(pid) k.(pid) None k)).

Definition umask (m : Z) : P (Z + Z) := call "umask" (λ k,
  (inr k.(file_mask), set_ambient m k.(cwd) k)).
Definition chdir (d : string) : P (Z + unit) := call "chdir" (fallible (λ k,
  (inr tt, set_ambient k.(file_mask) d k))).
Definition sysconf_open_max : P Z := gets (λ s, s.(world).(open_max)).

Definition close (fd : Z) : P (Z + unit) := call "close" (λ k,
  match k.(fds) !! fd with
  | None => (inl EBADF, k)
  | Some _ => (inr tt, set_fds (delete fd k.(fds)) k)
  end).

(** A new descriptor for [f]. *)
Definition install (f : file) (k : kern) : (Z + Z) * kern :=
  let fd := lowest_fd k.(fds) in (inr fd, set_fds (<[fd := f]> k.(fds)) k).

Definition open_null : P (Z + Z) := call "open" (fallible (install DevNull)).

Definition dup2 (old new : Z) : P (Z + Z) := call "dup2" (fallible (λ k,
  match k.(fds) !! old with
  | None => (inl EBADF, k)
  | Some f => (inr new, set_fds (<[new := f]> k.(fds)) k)
  end)).

Definition _exit {A} (status : Z) : P A := lift (stop (HExitNow status)).
Definition p__systmerr {A} (msg : string) : P A := lift (_systmerr strerror io_errno msg).

(** A call's value, -1 where it fails. *)
Definition value (r : Z + Z) : Z := match r with inl _ => -1 | inr v => v end.

(** ** Runs *)

(** After a call without a failure: the trace and the state. *)
Definition called (c : string) (k : kern) (s : pst unit string kern) : pst unit string kern :=
  Pst s.(pr) s.(vars) (s.(trace) ++ [c]) k.

Lemma call_runs {A} c (f : kern → (Z + A) * kern) s a k :
  f s.(world) = (inr a, k) → call c f s = (Ok (inr a), called c k s).
Proof. unfold call. by intros ->. Qed.

Lemma fallible_ok {A} (f : kern → (Z + A) * kern) k : k.(results) = [] → fallible f k = f k.
Proof. intros H. unfold fallible. rewrite H. simpl. destruct k. simpl in *. by rewrite H. Qed.

(** The machine after a call that may fail. *)
Definition popped (k : kern) : kern :=
  set_machine k.(next_pid) k.(next_pty) (tail k.(results)) k.(forks) k.

Lemma fallible_cases {A} (f : kern → (Z + A) * kern) k :
  (∃ e, e ≠ 0 ∧ head k.(results) = Some e ∧ fallible f k = (inl e, popped k)) ∨
  (default 0 (head k.(results)) = 0 ∧ fallible f k = f (popped k)).
Proof.
  unfold fallible. destruct (results k) as [|e l] eqn:E; simpl; [right; unfold popped; by rewrite E|].
  destruct (Z.eqb_spec e 0) as [->|He]; [right|left; exists e; split_and!; [done|done|]];
    unfold popped; by rewrite E.
Qed.

(** A call leaves the program as it is but for [errno]. *)
Lemma call_cases {A} c (f : kern → (Z + A) * kern) (s : pst unit string kern) :
  ∃ s', call c f s = (Ok (f s.(world)).1, s') ∧ s'.(world) = (f s.(world)).2 ∧
    errno s'.(pr) = match (f s.(world)).1 with inl e => e | inr _ => errno s.(pr) end.
Proof. unfold call. destruct (f (world s)) as [[e|a] k]; by eexists. Qed.

Lemma close_world fd s :
  ∃ r s', close fd s = (Ok r, s') ∧ s'.(world) = set_fds (delete fd s.(world).(fds)) s.(world).
Proof.
  unfold close, call. destruct (fds (world s) !! fd) as [f|] eqn:E; do 2 eexists; (split; [done|]).
  - done.
  - simpl. rewrite delete_id by done. by destruct (world s).
Qed.
End calls.
