(* ===== verification/Signals.v ===== *)
(** The remaining files of [lib/]: [signal_functions.c], [alt_functions.c] and
    [y_iofunc.c].

    A process has a signal mask, pending signals, the dispositions of signals and
    the status flags of its open descriptors; every call can fail. *)
From stdpp Require Import gmap.
From S2P Require Import Prelude CLib ErrorFunctions Proc.
From S2P Require System Descriptors.
Local Open Scope Z_scope.

Import System (handler, SIG_DFL, SIG_IGN, Handler, sigact, SigAct, sa_handler, sa_flags, sa_mask).

Definition NSIG : Z := 65.
Definition SA_RESTART : Z := 0x10000000.
(** What [F_SETFL] can change: [O_APPEND], [O_NONBLOCK], [O_ASYNC], [O_DIRECT] and
    [O_NOATIME]. *)
Definition settable : Z := Z.lor 0x400 (Z.lor 0x800 (Z.lor 0x2000 (Z.lor 0x4000 0x40000))).
Definition BUF_SIZE : nat := 100.

(** [results]: for each call to come, 0 or the error it fails with. *)
Record kern := Kern {
  blocked : gset Z; pending : gset Z; acts : Z → sigact; flags : gmap Z Z; results : list Z
}.
Definition set_acts (a : Z → sigact) (k : kern) : kern :=
  Kern k.(blocked) k.(pending) a k.(flags) k.(results).
Definition set_flags (f : gmap Z Z) (k : kern) : kern :=
  Kern k.(blocked) k.(pending) k.(acts) f k.(results).

Inductive sys := SigProcMask | SigPending | SigAction (sig : Z) (a : sigact) | Fcntl (fd : Z) | Open (path : string) (f : Z).

(** The text each function of [alt_functions.c] has in its static buffer. *)
Record statics := Statics { signal_buf : string; herr_buf : string }.

Definition may_fail {A} (f : kern → (Z + A) * kern) (k : kern) : (Z + A) * kern :=
  let e := default 0 (head k.(results)) in
  let k := Kern k.(blocked) k.(pending) k.(acts) k.(flags) (tail k.(results)) in
  if e =? 0 then f k else (inl e, k).

Section functions.
Context {L : Libc} (strsignal : Z → string).
Local Abbreviation P := (M (pst statics sys kern)).

Definition fprintf (out : stream) (t : string) : P unit :=
  match out with Sout => printf t | Serr => eprintf t end.

(** ** [signal_functions.c] *)

Fixpoint print_signals (out : stream) (prefix : string) (sigset : gset Z) (sigs : list Z) (cnt : Z) : P Z :=
  match sigs with
  | [] => mret cnt
  | sig :: sigs =>
      cnt ← (if bool_decide (sig ∈ sigset)
             then fprintf out (prefix +:+ fmt_d sig +:+ " (" +:+ strsignal sig +:+ ")" +:+ nl);; mret (cnt + 1)
             else mret cnt);
      print_signals out prefix sigset sigs cnt
  end.

Definition printSigset (out : stream) (prefix : string) (sigset : gset Z) : P unit :=
  cnt ← print_signals out prefix sigset (seqZ 1 (NSIG - 1)) 0;
  when (cnt =? 0) (fprintf out (prefix +:+ "<empty signal set>" +:+ nl)).

Definition tabs : string := String "009" (String "009" "").

Definition printSigMask (out : stream) (msg : option string) : P Z :=
  (match msg with Some m => fprintf out m | None => skip end);;
  r ← call SigProcMask (may_fail (λ k, (inr k.(blocked), k)));
  match r with
  | inl _ => mret (-1)
  | inr currMask => printSigset out tabs currMask;; mret 0
  end.

Definition printPendingSigs (out : stream) (msg : option string) : P Z :=
  (match msg with Some m => fprintf out m | None => skip end);;
  r ← call SigPending (may_fail (λ k, (inr k.(pending), k)));
  match r with
  | inl _ => mret (-1)
  | inr pendingSigs => printSigset out tabs pendingSigs;; mret 0
  end.

(** The old handler; [None] for [SIG_ERR]. *)
Definition Signal (sig : Z) (h : handler) : P (option handler) :=
  let newDisp := SigAct h SA_RESTART ∅ in
  r ← call (SigAction sig newDisp) (may_fail (λ k,
        (inr (k.(acts) sig), set_acts (λ n, if n =? sig then newDisp else k.(acts) n) k)));
  mret (match r with inl _ => None | inr oldDisp => Some oldDisp.(sa_handler) end).

(** ** [alt_functions.c] *)

Definition ALT_strsignal (sig : Z) : P string :=
  put_vars (λ v, Statics (snprintf BUF_SIZE ("SIG-" +:+ fmt_d sig)) v.(herr_buf));;
  v ← get_vars; mret v.(signal_buf).
Definition ALT_hstrerror (err : Z) : P string :=
  put_vars (λ v, Statics v.(signal_buf) (snprintf BUF_SIZE ("hstrerror-" +:+ fmt_d err)));;
  v ← get_vars; mret v.(herr_buf).

(** [posix_openpt] by opening the multiplexer; descriptors are numbered from the
    lowest free one. *)
Definition ALT_posix_openpt (f : Z) : P Z :=
  r ← call (Open "/dev/ptmx" f) (may_fail (λ k,
        let fd := Descriptors.lowest_fd ((λ _, Descriptors.DevNull) <$> k.(flags)) in
        (inr fd, set_flags (<[fd := f]> k.(flags)) k)));
  mret (match r with inl _ => -1 | inr fd => fd end).

(** ** [y_iofunc.c] *)

Definition ysetfstat (fd f : Z) : P unit :=
  r ← call (Fcntl fd) (may_fail (λ k,
        match k.(flags) !! fd with None => (inl EBADF, k) | Some v => (inr v, k) end));
  match r with
  | inl _ => p_systmErr "fcntl F_GETFL failed"
  | inr value =>
      let value := Z.lor value f in
      r ← call (Fcntl fd) (may_fail (λ k,
            match k.(flags) !! fd with
            | None => (inl EBADF, k)
            | Some v => (inr tt, set_flags (<[fd := Z.lor (Z.ldiff v settable) (Z.land value settable)]> k.(flags)) k)
            end));
      match r with inl _ => p_systmErr "fcntl F_SETFL failed" | inr _ => skip end
  end.
End functions.

(** ** What is printed *)

(** The part of a process that a line printed to [out] changes. *)
Definition buffer (out : stream) (p : proc) : string :=
  match out with Sout => p.(out_buf) | Serr => p.(err_buf) end.

Section printing.
Context {L : Libc} (strsignal : Z → string).
Local Abbreviation st := (pst statics sys kern).

(** The specification: a line for each member among the signals, in order. *)
Definition signal_line (prefix : string) (sig : Z) : string :=
  prefix +:+ fmt_d sig +:+ " (" +:+ strsignal sig +:+ ")" +:+ nl.
Definition members (sigset : gset Z) : list Z := filter (.∈ sigset) (seqZ 1 (NSIG - 1)).
Definition sigset_text (prefix : string) (sigset : gset Z) : string :=
  match members sigset with
  | [] => prefix +:+ "<empty signal set>" +:+ nl
  | l => foldr (λ sig t, signal_line prefix sig +:+ t) "" l
  end.

(** Only [out] gets more text. *)
Definition prints (out : stream) (s s' : st) (t : string) : Prop :=
  s'.(world) = s.(world) ∧ s'.(vars) = s.(vars) ∧ s'.(trace) = s.(trace) ∧
  buffer out s'.(pr) = buffer out s.(pr) +:+ t ∧
  s'.(pr).(delivered) = s.(pr).(delivered) ∧ s'.(pr).(environ) = s.(pr).(environ) ∧
  ∀ out2, out2 ≠ out → buffer out2 s'.(pr) = buffer out2 s.(pr).

Lemma prints_nothing out s : prints out s s "".
Proof. split_and!; try done. by rewrite append_nil_r. Qed.
Lemma prints_trans out s1 s2 s3 a b : prints out s1 s2 a → prints out s2 s3 b → prints out s1 s3 (a +:+ b).
Proof.
  intros (W1 & V1 & T1 & B1 & D1 & E1 & O1) (W2 & V2 & T2 & B2 & D2 & E2 & O2).
  split_and!; try congruence.
  - by rewrite B2, B1, append_assoc.
  - intros out2 Hne. by rewrite O2, O1.
Qed.

Lemma fprintf_run out t s : ∃ s', fprintf out t s = (Ok tt, s') ∧ prints out s s' t.
Proof.
  destruct out; eexists; (split; [reflexivity|]); split_and!; try done; by intros [].
Qed.

Lemma print_signals_run out prefix sigset l cnt s :
  ∃ s', print_signals strsignal out prefix sigset l cnt s =
      (Ok (cnt + Z.of_nat (length (filter (.∈ sigset) l))), s') ∧
    prints out s s' (foldr (λ sig t, signal_line prefix sig +:+ t) "" (filter (.∈ sigset) l)).
Proof.
  revert cnt s. induction l as [|sig l IH]; intros cnt s; cbn [print_signals].
  - exists s. rewrite Z.add_0_r. split; [done|apply prints_nothing].
  - rewrite filter_cons. destruct (decide (sig ∈ sigset)) as [H|H].
    + rewrite (bool_decide_eq_true_2 _ H).
      destruct (fprintf_run out (signal_line prefix sig) s) as (s1 & E1 & H1).
      rewrite (run_bind _ _ _ (cnt + 1) s1); [|by rewrite (run_bind _ _ _ _ _ E1)].
      destruct (IH (cnt + 1) s1) as (s2 & E2 & H2). exists s2. split.
      * rewrite E2. do 2 f_equal. cbn [length]. lia.
      * by eapply prints_trans.
    + rewrite (bool_decide_eq_false_2 _ H). exact (IH cnt s).
Qed.

Lemma printSigset_run out prefix sigset s :
  ∃ s', printSigset strsignal out prefix sigset s = (Ok tt, s') ∧
    prints out s s' (sigset_text prefix sigset).
Proof.
  unfold printSigset, sigset_text.
  destruct (print_signals_run out prefix sigset (seqZ 1 (NSIG - 1)) 0 s) as (s1 & E1 & H1).
  rewrite (run_bind _ _ _ _ _ E1). fold (members sigset) in *.
  destruct (members sigset) as [|sig l].
  - destruct (fprintf_run out (prefix +:+ "<empty signal set>" +:+ nl) s1) as (s2 & E2 & H2).
    exists s2. split; [exact E2|]. exact (prints_trans _ _ _ _ _ _ H1 H2).
  - rewrite (proj2 (Z.eqb_neq _ _)) by (cbn [length]; lia). by exists s1.
Qed.

(** The number at the start of a line can be read back. *)
Lemma number_read n m (t u : string) : fmt_d n +:+ String " " t = fmt_d m +:+ String " " u → n = m.
Proof.
  intros E. apply fmt_d_inj.
  destruct (strchr_at " " (fmt_d n) t) as [_ <-]; [by apply fmt_d_without|].
  destruct (strchr_at " " (fmt_d m) u) as [_ <-]; [by apply fmt_d_without|]. by rewrite E.
Qed.

Lemma signal_line_app prefix sig t :
  signal_line prefix sig +:+ t =
  prefix +:+ (fmt_d sig +:+ String " " ("(" +:+ strsignal sig +:+ ")" +:+ nl +:+ t)).
Proof. unfold signal_line. by rewrite <- !append_assoc. Qed.

(** No number starts with the sign of the empty set. *)
Lemma number_not_empty n t : 0 <= n → fmt_d n +:+ t ≠ "<empty signal set>" +:+ nl.
Proof.
  intros Hn E. unfold fmt_d in E. rewrite (proj2 (Z.ltb_ge n 0)) in E by done.
  destruct (dec_nonneg_spec n Hn) as (Hne & Hd & _).
  destruct (dec_nonneg n) as [|c u]; [done|]. rewrite all_chars_cons in Hd.
  apply andb_true_iff in Hd as [Hc _]. simpl in E. injection E as -> _. done.
Qed.

Lemma lines_inj prefix l l' :
  Forall (Z.le 0) l → Forall (Z.le 0) l' →
  foldr (λ sig t, signal_line prefix sig +:+ t) "" l = foldr (λ sig t, signal_line prefix sig +:+ t) "" l' →
  l = l'.
Proof.
  intros Hl. revert l'. induction Hl as [|sig l Hs Hl IH]; intros l' Hl' E.
  - destruct l' as [|sig l']; [done|]. cbn [foldr] in E. rewrite signal_line_app in E.
    apply (f_equal String.length) in E. rewrite !length_append in E. simpl in E. lia.
  - destruct Hl' as [|sig' l' Hs' Hl'].
    { cbn [foldr] in E. rewrite signal_line_app in E.
      apply (f_equal String.length) in E. rewrite !length_append in E. simpl in E. lia. }
    cbn [foldr] in E. pose proof E as E'. rewrite !signal_line_app in E'. apply append_inj_l in E'.
    apply number_read in E' as ->. apply append_inj_l in E. f_equal. by apply IH.
Qed.

Lemma members_nonneg sigset : Forall (Z.le 0) (members sigset).
Proof.
  apply Forall_forall. intros sig [_ H%elem_of_seqZ]%list_elem_of_filter. lia.
Qed.

(** What [printSigset] writes tells which signals are in the set. *)
Lemma sigset_text_tells prefix a b :
  sigset_text prefix a = sigset_text prefix b → ∀ sig, 1 <= sig < NSIG → sig ∈ a ↔ sig ∈ b.
Proof.
  intros E. assert (Hm : members a = members b).
  { unfold sigset_text in E. pose proof (members_nonneg a) as Ha. pose proof (members_nonneg b) as Hb.
    destruct (members a) as [|x l], (members b) as [|y l']; [done|..].
    - cbn [foldr] in E. rewrite signal_line_app in E. apply append_inj_l in E. symmetry in E.
      apply Forall_cons in Hb as [Hb _]. by apply number_not_empty in E.
    - cbn [foldr] in E. rewrite signal_line_app in E. apply append_inj_l in E.
      apply Forall_cons in Ha as [Ha _]. by apply number_not_empty in E.
    - by eapply lines_inj. }
  intros sig Hsig. assert (H : ∀ s : gset Z, sig ∈ s ↔ sig ∈ members s).
  { intros s. unfold members. rewrite list_elem_of_filter, elem_of_seqZ. split; [|tauto]. split; [done|lia]. }
  by rewrite (H a), (H b), Hm.
Qed.

(** The two functions that print a set of the process: whatever the set, a line for
    each member; nothing after the message, and -1, where the call fails. *)
Lemma printSigMask_run out msg s :
  let t := default "" msg in
  let m := s.(world) in
  let e := default 0 (head m.(results)) in
  (∃ s', printSigMask strsignal out msg s = (Ok (if e =? 0 then 0 else -1), s') ∧
     buffer out s'.(pr) = buffer out s.(pr) +:+ t +:+ (if e =? 0 then sigset_text tabs m.(blocked) else "")) ∧
  (∃ s', printPendingSigs strsignal out msg s = (Ok (if e =? 0 then 0 else -1), s') ∧
     buffer out s'.(pr) = buffer out s.(pr) +:+ t +:+ (if e =? 0 then sigset_text tabs m.(pending) else "")).
Proof.
  intros t m e.
  assert (Hmsg : ∃ s1, (match msg with Some m => fprintf out m | None => skip end) s = (Ok tt, s1) ∧ prints out s s1 t).
  { destruct msg as [msg|]; [apply fprintf_run|]. exists s. split; [done|apply prints_nothing]. }
  destruct Hmsg as (s1 & E1 & W1 & _ & _ & B1 & _). unfold printSigMask, printPendingSigs.
  split; rewrite (run_bind _ _ _ _ _ E1); unfold mbind at 1, M_bind at 1, call, may_fail; rewrite W1;
    fold m; fold e; (destruct (e =? 0); [|eexists; split; [done|]; destruct out; cbn in *; by rewrite append_nil_r]).
  - match goal with |- context [mbind _ _ ?x] =>
      destruct (printSigset_run out tabs (blocked m) x) as (s2 & E2 & _ & _ & _ & B2 & _) end.
    rewrite (run_bind _ _ _ _ _ E2). exists s2. split; [done|]. rewrite B2. cbn [pr]. by rewrite B1, append_assoc.
  - match goal with |- context [mbind _ _ ?x] =>
      destruct (printSigset_run out tabs (pending m) x) as (s2 & E2 & _ & _ & _ & B2 & _) end.
    rewrite (run_bind _ _ _ _ _ E2). exists s2. split; [done|]. rewrite B2. cbn [pr]. by rewrite B1, append_assoc.
Qed.
End printing.

Section others.
Context {L : Libc}.
Local Abbreviation st := (pst statics sys kern).

(** [Signal] installs the handler with restarting calls and no further signals
    blocked, for its signal only, and returns the handler there was. *)
Lemma Signal_run sig h (s : st) :
  let k := s.(world) in
  let e := default 0 (head k.(results)) in
  ∃ s', Signal sig h s = (Ok (if e =? 0 then Some (k.(acts) sig).(sa_handler) else None), s') ∧
    ∀ n, s'.(world).(acts) n =
      if (e =? 0) && (n =? sig) then SigAct h SA_RESTART ∅ else k.(acts) n.
Proof.
  intros k e. unfold Signal, mbind, M_bind, call, may_fail. fold k e.
  destruct (e =? 0); eexists; (split; [done|]); done.
Qed.

(** A second handler, and the first one back: the signal is as [Signal] leaves it
    for the first. *)
Lemma Signal_twice sig h h' (s : st) :
  s.(world).(results) = [] →
  ∃ s1 s2 s3, Signal sig h s = (Ok (Some (s.(world).(acts) sig).(sa_handler)), s1) ∧
    Signal sig h' s1 = (Ok (Some h), s2) ∧ Signal sig h s2 = (Ok (Some h'), s3) ∧
    ∀ n, s3.(world).(acts) n = s1.(world).(acts) n.
Proof.
  intros Hr. unfold Signal, mbind, M_bind, call, may_fail. rewrite Hr. cbn.
  do 3 eexists. split; [done|]. cbn. rewrite Z.eqb_refl. split; [done|]. cbn. rewrite Z.eqb_refl.
  split; [done|]. intros n. cbn. by destruct (n =? sig).
Qed.

(** The texts are never cut off; each function's buffer holds its latest text, so
    an earlier result changes with it. *)
Lemma ALT_texts n (s : st) :
  INT_MIN <= n <= INT_MAX →
  (∃ s', ALT_strsignal n s = (Ok ("SIG-" +:+ fmt_d n), s') ∧
     s'.(vars) = Statics ("SIG-" +:+ fmt_d n) s.(vars).(herr_buf)) ∧
  (∃ s', ALT_hstrerror n s = (Ok ("hstrerror-" +:+ fmt_d n), s') ∧
     s'.(vars) = Statics s.(vars).(signal_buf) ("hstrerror-" +:+ fmt_d n)).
Proof.
  intros Hn. pose proof (fmt_d_length n) as Hl.
  assert (String.length (fmt_d n) <= 20)%nat by (apply Hl; unfold INT_MIN, INT_MAX, LONG_MIN, LONG_MAX in *; lia).
  unfold ALT_strsignal, ALT_hstrerror.
  rewrite !snprintf_fits by (rewrite length_append; unfold BUF_SIZE; simpl; lia).
  split; eexists; (split; [reflexivity|done]).
Qed.

(** [ysetfstat] returns only when the flags were added to those of the descriptor;
    flags that the call cannot change stay as they are. *)
Lemma ysetfstat_run fd f (s : st) v :
  s.(world).(results) = [] → s.(world).(flags) !! fd = Some v →
  ∃ s', ysetfstat fd f s = (Ok tt, s') ∧
    s'.(world).(flags) = <[fd := Z.lor v (Z.land f settable)]> s.(world).(flags).
Proof.
  intros Hr Hv. unfold ysetfstat, mbind, M_bind, call, may_fail. rewrite Hr. cbn. rewrite Hv. cbn.
  rewrite Hv. eexists. split; [done|]. cbn. f_equal.
  apply Z.bits_inj. intros i. rewrite !Z.lor_spec, !Z.land_spec, Z.ldiff_spec, !Z.lor_spec.
  by destruct (Z.testbit v i), (Z.testbit f i), (Z.testbit settable i).
Qed.

Lemma ysetfstat_closed fd f (s : st) :
  s.(world).(flags) !! fd = None → ∃ h s', ysetfstat fd f s = (Halt h, s') ∧ fatal_end h ∧
    s'.(world).(flags) = s.(world).(flags).
Proof.
  intros Hv. unfold ysetfstat, mbind at 1, M_bind at 1, call, may_fail.
  destruct (default 0 (head (results (world s))) =? 0); cbn; rewrite ?Hv;
    match goal with |- context [p_systmErr _ ?x] =>
      destruct (@p_systmErr_halts L statics sys kern unit "fcntl F_GETFL failed" x) as (h & s' & E & Hh & _ & _ & W) end;
    exists h, s'; rewrite E, W; by split_and!.
Qed.
End others.
