(* ===== verification/TextFns.v ===== *)
(** Functions that give a text in a buffer of their own: [filePermStr]
    ([files/file_perms.c]), the versions of [strerror] of [threads/strerror.c],
    [strerror_tls.c] and [strerror_tsd.c], and [currTime] ([time/curr_time.c]). *)
From S2P Require Import Prelude CLib ErrorFunctions Proc Args.
Local Open Scope Z_scope.

(** ** [filePermStr] *)

Definition FP_SPECIAL : Z := 1.
Definition S_ISUID : Z := 0x800.
Definition S_ISGID : Z := 0x400.
Definition S_ISVTX : Z := 0x200.
Definition S_IRUSR : Z := 0x100.
Definition S_IWUSR : Z := 0x80.
Definition S_IXUSR : Z := 0x40.
Definition S_IRGRP : Z := 0x20.
Definition S_IWGRP : Z := 0x10.
Definition S_IXGRP : Z := 0x8.
Definition S_IROTH : Z := 0x4.
Definition S_IWOTH : Z := 0x2.
Definition S_IXOTH : Z := 0x1.

(** [STR_SIZE], with the null byte. *)
Definition STR_SIZE : nat := 10.

Definition is_set (v mask : Z) : bool := negb (Z.land v mask =? 0).

(** An execute position: with [special], the set-user-ID, set-group-ID or sticky
    bit is shown there, in a case that tells whether execution is permitted. *)
Definition exec_char (x special : bool) (low up : ascii) : ascii :=
  if x then if special then low else "x"%char else if special then up else "-"%char.

Definition filePermStr (perm flags : Z) : string :=
  let sp := is_set flags FP_SPECIAL in
  snprintf STR_SIZE (of_chars [
    (if is_set perm S_IRUSR then "r" else "-")%char;
    (if is_set perm S_IWUSR then "w" else "-")%char;
    exec_char (is_set perm S_IXUSR) (is_set perm S_ISUID && sp) "s" "S";
    (if is_set perm S_IRGRP then "r" else "-")%char;
    (if is_set perm S_IWGRP then "w" else "-")%char;
    exec_char (is_set perm S_IXGRP) (is_set perm S_ISGID && sp) "s" "S";
    (if is_set perm S_IROTH then "r" else "-")%char;
    (if is_set perm S_IWOTH then "w" else "-")%char;
    exec_char (is_set perm S_IXOTH) (is_set perm S_ISVTX && sp) "t" "T"]).

(** Reading the text back: the weight of a character in its position. *)
Definition bit_of (c : ascii) (mask special : Z) : Z :=
  if bool_decide (c ∈ ["s"; "t"]%char) then mask + special
  else if bool_decide (c ∈ ["S"; "T"]%char) then special
  else if bool_decide (c = "-"%char) then 0 else mask.
Definition read_perms (t : string) : Z :=
  foldr Z.add 0 (zip_with (λ c (m : Z * Z), bit_of c m.1 m.2) (chars t)
    [(S_IRUSR, 0); (S_IWUSR, 0); (S_IXUSR, S_ISUID); (S_IRGRP, 0); (S_IWGRP, 0); (S_IXGRP, S_ISGID);
     (S_IROTH, 0); (S_IWOTH, 0); (S_IXOTH, S_ISVTX)]).

(** Nine characters, which only depend on the permission bits. *)
Lemma is_set_mod v k : 0 <= k < 12 → is_set (v mod 2 ^ 12) (2 ^ k) = is_set v (2 ^ k).
Proof.
  intros Hk. unfold is_set. do 2 f_equal. apply Z.bits_inj'. intros n Hn.
  rewrite !Z.land_spec. destruct (decide (n = k)) as [->|Hne].
  - by rewrite Z.mod_pow2_bits_low by lia.
  - by rewrite !(Z.pow2_bits_false k n), !andb_false_r by done.
Qed.

Lemma filePermStr_mod perm flags : filePermStr perm flags = filePermStr (perm mod 2 ^ 12) flags.
Proof.
  unfold filePermStr.
  change S_IRUSR with (2 ^ 8). change S_IWUSR with (2 ^ 7). change S_IXUSR with (2 ^ 6). change S_ISUID with (2 ^ 11).
  change S_IRGRP with (2 ^ 5). change S_IWGRP with (2 ^ 4). change S_IXGRP with (2 ^ 3). change S_ISGID with (2 ^ 10).
  change S_IROTH with (2 ^ 2). change S_IWOTH with (2 ^ 1). change S_IXOTH with (2 ^ 0). change S_ISVTX with (2 ^ 9).
  by rewrite !is_set_mod by lia.
Qed.

(** With [FP_SPECIAL] the text tells all twelve bits, and without it the nine
    permissions. *)
Definition reads_back (n : nat) : bool :=
  let p := Z.of_nat n in
  (read_perms (filePermStr p FP_SPECIAL) =? p) && (read_perms (filePermStr p 0) =? p mod 512) &&
  (String.length (filePermStr p FP_SPECIAL) =? 9)%nat.
Lemma all_read_back n : In n (seq 0 (Z.to_nat 4096)) → reads_back n = true.
Proof. revert n. apply forallb_forall. vm_compute. reflexivity. Qed.
#[local] Opaque filePermStr read_perms.

Lemma filePermStr_roundtrip perm :
  read_perms (filePermStr perm FP_SPECIAL) = perm mod 2 ^ 12 ∧
  read_perms (filePermStr perm 0) = perm mod 2 ^ 9 ∧
  String.length (filePermStr perm FP_SPECIAL) = 9%nat.
Proof.
  rewrite (filePermStr_mod perm FP_SPECIAL), (filePermStr_mod perm 0).
  pose proof (Z.mod_pos_bound perm (2 ^ 12) ltac:(lia)) as Hb. set (p := perm mod 2 ^ 12) in *.
  assert (H : reads_back (Z.to_nat p) = true) by (apply all_read_back, in_seq; lia).
  unfold reads_back in H. rewrite Z2Nat.id in H by lia.
  rewrite !andb_true_iff, !Z.eqb_eq, Nat.eqb_eq in H. destruct H as [[-> ->] ->]. split_and!; [done| |done].
  unfold p. replace (2 ^ 12) with (512 * 8) by lia. replace (2 ^ 9) with 512 by lia.
  rewrite Z.rem_mul_r by lia. by rewrite (Z.mul_comm 512), Z_mod_plus_full, Zmod_mod.
Qed.

(** ** [strerror] *)

Definition MAX_ERROR_LEN : nat := Z.to_nat 256.

(** [_sys_errlist] of the C library: [_sys_nerr] is its length, and an entry may be
    a null pointer. *)
Section strerror.
Context (sys_errlist : list (option string)).

(** What the three versions leave in their buffer. *)
Definition strerror_text (err : Z) : string :=
  match (if err <? 0 then None else mjoin (sys_errlist !! Z.to_nat err)) with
  | None => snprintf MAX_ERROR_LEN ("Unknown error " +:+ fmt_d err)
  | Some t => take_str (MAX_ERROR_LEN - 1) t
  end.

(** The thread-specific version: whether the key was made, and the buffer of the
    calling thread. *)
Record key_data := KeyData { key_made : bool; thread_buf : option string }.
Inductive key_call := KOnce | KCreate | KMalloc (n : nat) | KSetspecific.

Context {L : Libc} {W : Type} (sys : key_call → W → (Z + unit) * W).
Local Abbreviation P := (M (pst key_data key_call W)).

(** Calls of the threads library return an error number. *)
Definition thread_call (c : key_call) (name : string) : P unit :=
  r ← call c (λ w, let '(r, w) := sys c w in (inr r, w));
  match r with
  | inr (inl s) => p_nmsysErr s name
  | _ => skip
  end.

Definition createKey : P unit :=
  thread_call KCreate "pthread_key_create";;
  put_vars (λ d, KeyData true d.(thread_buf)).

Definition strerror_tsd (err : Z) : P string :=
  thread_call KOnce "pthread_once";;
  d ← get_vars;
  (if d.(key_made) then skip else createKey);;
  (match d.(thread_buf) with
   | Some _ => skip
   | None =>
       r ← call (KMalloc MAX_ERROR_LEN) (sys (KMalloc MAX_ERROR_LEN));
       match r with
       | inl _ => p_systmErr "malloc"
       | inr _ => thread_call KSetspecific "pthread_setspecific"
       end
   end);;
  put_vars (λ d, KeyData d.(key_made) (Some (strerror_text err)));;
  mret (strerror_text err).
End strerror.

(** The text always fits the buffer, and for a known error that is not too long it
    is the one of the list. *)
Lemma strerror_text_fits errs err : (String.length (strerror_text errs err) < MAX_ERROR_LEN)%nat.
Proof.
  unfold strerror_text. destruct (if err <? 0 then None else _) as [t|].
  - unfold take_str. rewrite <- length_chars, chars_of_chars, length_take. change (MAX_ERROR_LEN - 1)%nat with (Z.to_nat 255). unfold MAX_ERROR_LEN. lia.
  - apply snprintf_bound. unfold MAX_ERROR_LEN. lia.
Qed.
Lemma strerror_text_known errs err t :
  0 <= err → errs !! Z.to_nat err = Some (Some t) → (String.length t < MAX_ERROR_LEN)%nat → strerror_text errs err = t.
Proof.
  intros He Ht Hl. unfold strerror_text. rewrite (proj2 (Z.ltb_ge _ _)), Ht by done. cbn [mjoin option_join].
  unfold take_str. rewrite take_ge, of_chars_chars; [done|]. rewrite length_chars. lia.
Qed.

(** ** [currTime] *)

Section currTime.
(** [localtime] of the present time, and [strftime] of a format in a buffer: the
    text, where it fits and is not empty. *)
Context {tm : Type} (localtime : Z → option tm) (strftime : nat → string → tm → option string).
Definition TIME_BUF_SIZE : nat := Z.to_nat 1000.
Definition currTime (now : Z) (format : option string) : option string :=
  match localtime now with
  | None => None
  | Some t => strftime TIME_BUF_SIZE (default "%c" format) t
  end.
End currTime.
