(* ===== verification/Substitutes.v ===== *)
(** Own versions of library functions: [siginterrupt] ([signals/siginterrupt.c]),
    [abort] ([signals/yabort.c]), [ptyMasterOpen] for BSD pseudoterminals
    ([pty/pty_master_open_bsd.c]) and [ttyname] ([tty/ttyname.c]). *)
From stdpp Require Import gmap.
From S2P Require Import Prelude CLib ErrorFunctions Proc.
From S2P Require System Signals.
Local Open Scope Z_scope.

Import System (handler, SIG_DFL, SIG_IGN, Handler, sigact, SigAct, sa_handler, sa_flags, sa_mask).
Import Signals (kern, Kern, acts, results, set_acts, may_fail, SA_RESTART).

(** ** [siginterrupt] and [yabort], over the process of [Signals] *)

Definition SIGABRT : Z := 6.

Inductive sigcall := GetAction (sig : Z) | SetAction (sig : Z) (a : sigact) | Unblock (sig : Z) | Raise (sig : Z).

Section signals.
Context {L : Libc}.
Local Abbreviation st := (pst unit sigcall kern).
Local Abbreviation P := (M st).

Definition get_action (sig : Z) : P (Z + sigact) := call (GetAction sig) (may_fail (λ k, (inr (k.(acts) sig), k))).
Definition set_action (sig : Z) (a : sigact) : P (Z + unit) :=
  call (SetAction sig a) (may_fail (λ k, (inr tt, set_acts (λ n, if n =? sig then a else k.(acts) n) k))).

Definition siginterrupt (sig flag : Z) : P Z :=
  r ← get_action sig;
  match r with
  | inl _ => mret (-1)
  | inr act =>
      let f := if negb (flag =? 0) then Z.ldiff act.(sa_flags) SA_RESTART else Z.lor act.(sa_flags) SA_RESTART in
      r ← set_action sig (SigAct act.(sa_handler) f act.(sa_mask));
      mret (match r with inl _ => -1 | inr _ => 0 end)
  end.

(** What a handler of the process does when it is run, with the signal blocked; the
    mask is restored when it returns. *)
Context (run : P unit).

Definition set_blocked (b : gset Z) (k : kern) : kern :=
  Kern b k.(Signals.pending) k.(acts) k.(Signals.flags) k.(results).
Definition put_kern (f : kern → kern) : P unit := modify (λ s, Pst s.(pr) s.(vars) s.(trace) (f s.(world))).

(** [raise]: a signal that is blocked waits; otherwise it is ignored, handled, or
    ends the process. *)
Definition raise (sig : Z) : P unit :=
  call (Raise sig) (λ k, (inr tt, k));;
  k ← gets world;
  if decide (sig ∈ k.(Signals.blocked)) then
    put_kern (λ k, Kern k.(Signals.blocked) ({[sig]} ∪ k.(Signals.pending)) k.(acts) k.(Signals.flags) k.(results))
  else
    match (k.(acts) sig).(sa_handler) with
    | SIG_DFL => stop HAbort
    | SIG_IGN => skip
    | Handler _ =>
        put_kern (set_blocked ({[sig]} ∪ k.(Signals.blocked)));;
        run;;
        put_kern (set_blocked k.(Signals.blocked))
    end.

Definition yabort : P unit :=
  call (Unblock SIGABRT) (may_fail (λ k, (inr tt, set_blocked (k.(Signals.blocked) ∖ {[SIGABRT]}) k)));;
  r ← get_action SIGABRT;
  match r with
  | inl _ => stop HUndef                       (* [act] is not initialised *)
  | inr act =>
      (if decide (act.(sa_handler) = SIG_IGN) then
         set_action SIGABRT (SigAct SIG_DFL act.(sa_flags) act.(sa_mask));; skip
       else skip);;
      printf ("yabort: 1st raise()" +:+ nl);;
      raise SIGABRT;;
      set_action SIGABRT (SigAct SIG_DFL act.(sa_flags) act.(sa_mask));;
      printf ("yabort: 2nd raise()" +:+ nl);;
      raise SIGABRT
  end.
End signals.

(** ** [ptyMasterOpen] for BSD pseudoterminals *)

Definition PTYM_PREFIX : string := "/dev/pty".
Definition PTYS_PREFIX : string := "/dev/tty".
Definition PTY_NAME_LEN : nat := 11.
Definition X_RANGE : string := "pqrstuvwxyzabcde".
Definition Y_RANGE : string := "0123456789abcdef".
Definition EOVERFLOW : Z := 75.

Section pty.
Context {L : Libc} {W : Type} (sys_open : string → W → (Z + Z) * W).
Local Abbreviation st := (pst unit string W).
Local Abbreviation P := (M st).

Definition pty_name (prefix : string) (x y : ascii) : string := prefix +:+ String x (String y "").

(** One name: [Some] the result where the search ends. *)
Definition try_pty (snLen : nat) (x y : ascii) : P (option (Z * option string)) :=
  r ← call (pty_name PTYM_PREFIX x y) (sys_open (pty_name PTYM_PREFIX x y));
  match r with
  | inl _ => e ← get_errno; mret (if e =? ENOENT then Some (-1, None) else None)
  | inr masterFd =>
      let name := pty_name PTYS_PREFIX x y in
      if (snLen <=? String.length name)%nat then put_errno EOVERFLOW;; mret (Some (-1, Some (snprintf snLen name)))
      else mret (Some (masterFd, Some name))
  end.

Fixpoint try_ys (snLen : nat) (x : ascii) (ys : list ascii) : P (option (Z * option string)) :=
  match ys with
  | [] => mret None
  | y :: ys =>
      r ← try_pty snLen x y;
      match r with Some r => mret (Some r) | None => try_ys snLen x ys end
  end.
Fixpoint try_xs (snLen : nat) (xs : list ascii) : P (Z * option string) :=
  match xs with
  | [] => mret (-1, None)
  | x :: xs =>
      r ← try_ys snLen x (chars Y_RANGE);
      match r with Some r => mret r | None => try_xs snLen xs end
  end.

(** The descriptor, and what was put into [slaveName]. *)
Definition ptyMasterOpen (snLen : nat) : P (Z * option string) :=
  if (snLen <? PTY_NAME_LEN)%nat then put_errno EOVERFLOW;; mret (-1, None)
  else try_xs snLen (chars X_RANGE).
End pty.

(** ** [ttyname] *)

(** What [stat] tells of a file: whether it is a character device, and its device
    number. *)
Record stat := Stat { is_chr : bool; st_rdev : Z }.

Class TtySys (W : Type) := {
  sys_isatty : Z → W → bool;
  sys_fstat : Z → W → (Z + stat) * W;
  sys_stat : string → W → (Z + stat) * W;
  sys_readdir : string → W → (Z + list string) * W;  (* opendir, and the entries to come *)
  sys_realloc : nat → W → (Z + unit) * W
}.

Inductive ttycall := TIsatty (fd : Z) | TFstat (fd : Z) | TStat (path : string) | TOpendir (dir : string) | TRealloc (n : nat) | TClosedir.

(** [ttyPath] and [ttyLen]. *)
Record path_buf := PathBuf { ttyPath : string; ttyLen : nat }.

Section ttyname.
Context {L : Libc} {W : Type} `{!TtySys W}.
Local Abbreviation st := (pst path_buf ttycall W).
Local Abbreviation P := (M st).

(** An entry of the directory: [Some] whether it was found where the search ends. *)
Definition check_entry (fdStat : stat) (devDir d_name : string) : P (option bool) :=
  let name := devDir +:+ "/" +:+ d_name in
  let requiredLen := S (String.length name) in
  v ← get_vars;
  fits ← (if (v.(ttyLen) <? requiredLen)%nat then
            r ← call (TRealloc requiredLen) (sys_realloc requiredLen);
            match r with
            | inl _ => mret false
            | inr _ => put_vars (λ v, PathBuf v.(ttyPath) requiredLen);; mret true
            end
          else mret true);
  if negb fits then mret (Some false) else
  put_vars (λ v, PathBuf (snprintf v.(ttyLen) name) v.(ttyLen));;
  v ← get_vars;
  r ← call (TStat v.(ttyPath)) (sys_stat v.(ttyPath));
  mret (match r with
        | inl _ => None
        | inr devStat => if devStat.(is_chr) && (fdStat.(st_rdev) =? devStat.(st_rdev)) then Some true else None
        end).

Fixpoint check_entries (fdStat : stat) (devDir : string) (l : list string) : P bool :=
  match l with
  | [] => mret false
  | d :: l =>
      r ← check_entry fdStat devDir d;
      match r with Some found => mret found | None => check_entries fdStat devDir l end
  end.

Definition ttynameCheckDir (fdStat : stat) (devDir : string) : P (option string) :=
  v ← get_vars;
  ready ← (if (v.(ttyLen) =? 0)%nat then
             r ← call (TRealloc 50) (sys_realloc 50);
             match r with
             | inl _ => mret false
             | inr _ => put_vars (λ v, PathBuf v.(ttyPath) 50);; mret true
             end
           else mret true);
  if negb ready then mret None else
  r ← call (TOpendir devDir) (sys_readdir devDir);
  match r with
  | inl _ => mret None
  | inr l =>
      found ← check_entries fdStat devDir l;
      call TClosedir (λ w, (inr tt, w));;
      v ← get_vars;
      mret (if (found : bool) then Some v.(ttyPath) else None)
  end.

Definition ttyname (fd : Z) : P (option string) :=
  w ← gets world;
  call (TIsatty fd) (λ w, (inr tt, w));;
  if negb (sys_isatty fd w) then mret None else
  r ← call (TFstat fd) (sys_fstat fd);
  match r with
  | inl _ => mret None
  | inr fdStat =>
      if negb fdStat.(is_chr) then mret None else
      d ← ttynameCheckDir fdStat "/dev/pts";
      match d with
      | Some d => mret (Some d)
      | None => ttynameCheckDir fdStat "/dev"
      end
  end.
End ttyname.

(** ** What they do *)

Section facts.
Context {L : Libc}.

(** [siginterrupt] changes the one flag, for the one signal, and a second call with
    the other argument brings the flag to the other value. *)
Lemma siginterrupt_run sig flag (s : pst unit sigcall kern) :
  s.(world).(results) = [] →
  ∃ s', siginterrupt sig flag s = (Ok 0, s') ∧
    ∀ n, s'.(world).(acts) n =
      if n =? sig then
        let a := s.(world).(acts) sig in
        SigAct a.(sa_handler) (if negb (flag =? 0) then Z.ldiff a.(sa_flags) SA_RESTART else Z.lor a.(sa_flags) SA_RESTART)
          a.(sa_mask)
      else s.(world).(acts) n.
Proof.
  intros Hr. unfold siginterrupt, get_action, set_action, mbind, M_bind, call, may_fail. rewrite Hr. cbn.
  eexists. split; [reflexivity|]. done.
Qed.

Lemma siginterrupt_failed sig flag (s : pst unit sigcall kern) e :
  s.(world).(results) = [e] → e ≠ 0 →
  ∃ s', siginterrupt sig flag s = (Ok (-1), s') ∧ s'.(world).(acts) = s.(world).(acts).
Proof.
  intros Hr He. unfold siginterrupt, get_action, mbind, M_bind, call, may_fail. rewrite Hr. cbn.
  rewrite (proj2 (Z.eqb_neq _ _)) by done. by eexists.
Qed.

(** [yabort] never returns: the process is killed by [SIGABRT], unless a handler for
    it does not return; blocking or ignoring the signal does not help. *)
Lemma raise_default run sig (s : pst unit sigcall kern) :
  sig ∉ s.(world).(Signals.blocked) → (s.(world).(acts) sig).(sa_handler) = SIG_DFL →
  ∃ s', raise run sig s = (Halt HAbort, s').
Proof.
  intros Hb Hh. unfold raise, mbind, M_bind, call, gets. cbn. rewrite decide_False by done. rewrite Hh. by eexists.
Qed.

Lemma raise_handler run sig f (s : pst unit sigcall kern) :
  sig ∉ s.(world).(Signals.blocked) → (s.(world).(acts) sig).(sa_handler) = Handler f →
  (∀ s1, (run s1).2.(world).(results) = s1.(world).(results)) →
  (∃ h s', raise run sig s = (Halt h, s') ∧ ∃ s1, (run s1).1 = Halt h) ∨
  ∃ s', raise run sig s = (Ok tt, s') ∧ s'.(world).(Signals.blocked) = s.(world).(Signals.blocked) ∧
    s'.(world).(results) = s.(world).(results).
Proof.
  intros Hb Hh Hr. unfold raise, mbind, M_bind, call, gets. cbn. rewrite decide_False by done. rewrite Hh. unfold put_kern, modify.
  cbn. match goal with |- context [run ?x] => specialize (Hr x); destruct (run x) as [[[]|h] s1] eqn:Ex end.
  - right. eexists. split; [reflexivity|]. done.
  - left. do 2 eexists. split; [reflexivity|]. eexists. by rewrite Ex.
Qed.

Lemma set_action_run sig a (s : pst unit sigcall kern) :
  s.(world).(results) = [] → ∃ s', set_action sig a s = (Ok (inr tt), s') ∧
    s'.(world).(results) = [] ∧ s'.(world).(Signals.blocked) = s.(world).(Signals.blocked) ∧
    (s'.(world).(acts) sig) = a.
Proof.
  intros Hr. unfold set_action, call, may_fail. rewrite Hr. cbn. eexists. split; [reflexivity|]. cbn.
  by rewrite Z.eqb_refl.
Qed.

(** The last part: the default action, and the signal again. *)
Lemma abort_at_last run t f m (s : pst unit sigcall kern) :
  s.(world).(results) = [] → SIGABRT ∉ s.(world).(Signals.blocked) →
  ∃ s', (set_action SIGABRT (SigAct SIG_DFL f m);; printf t;; raise run SIGABRT) s = (Halt HAbort, s').
Proof.
  intros Hr Hb. destruct (set_action_run SIGABRT (SigAct SIG_DFL f m) s Hr) as (s1 & E & _ & B & A).
  rewrite (run_bind _ _ _ _ _ E). destruct (printf_run t s1) as (s2 & E2 & _ & _ & W2).
  rewrite (run_bind _ _ _ _ _ E2). apply raise_default; rewrite W2; [by rewrite B|by rewrite A].
Qed.

Lemma yabort_ends run (s : pst unit sigcall kern) :
  s.(world).(results) = [] → (∀ s1, (run s1).2.(world).(results) = s1.(world).(results)) →
  ∃ h s', yabort run s = (Halt h, s') ∧ (h = HAbort ∨ ∃ s1, (run s1).1 = Halt h).
Proof.
  intros Hr Hrun. unfold yabort. unfold mbind at 1, M_bind at 1, call at 1, may_fail at 1. rewrite Hr. cbn [head default Z.eqb tail].
  set (s1 := Pst _ _ _ _ : pst unit sigcall kern).
  assert (R1 : s1.(world).(results) = []) by done.
  assert (B1 : SIGABRT ∉ s1.(world).(Signals.blocked)) by (simpl; set_solver).
  clearbody s1. clear Hr s.
  assert (∃ s2, get_action SIGABRT s1 = (Ok (inr (s1.(world).(acts) SIGABRT)), s2) ∧
    s2.(world).(results) = [] ∧ s2.(world).(Signals.blocked) = s1.(world).(Signals.blocked) ∧
    s2.(world).(acts) = s1.(world).(acts)) as (s2 & E2 & R2 & B2 & A2).
  { unfold get_action, call, may_fail. rewrite R1. cbn. by eexists. }
  rewrite (run_bind _ _ _ _ _ E2). rewrite <- B2 in B1. rewrite <- A2. clear E2 A2 B2.
  destruct (s2.(world).(acts) SIGABRT) as [hd fl mk] eqn:Ha. cbn [sa_handler sa_flags sa_mask]. case_decide as Hig.
  - destruct (set_action_run SIGABRT (SigAct SIG_DFL fl mk) s2 R2) as (s3 & E3 & _ & B3 & A3).
    assert (E3' : (set_action SIGABRT (SigAct SIG_DFL fl mk);; skip) s2 = (Ok tt, s3)) by by rewrite (run_bind _ _ _ _ _ E3).
    rewrite (run_bind _ _ _ _ _ E3'). destruct (printf_run ("yabort: 1st raise()" +:+ nl) s3) as (s4 & E4 & _ & _ & W4).
    rewrite (run_bind _ _ _ _ _ E4).
    destruct (raise_default run SIGABRT s4) as (s5 & E5); [by rewrite W4, B3|by rewrite W4, A3|].
    exists HAbort, s5. split; [by apply run_bind_halt|by left].
  - erewrite run_bind by reflexivity. destruct (printf_run ("yabort: 1st raise()" +:+ nl) s2) as (s4 & E4 & _ & _ & W4).
    rewrite (run_bind _ _ _ _ _ E4). rewrite <- W4 in R2, B1, Ha. destruct hd as [| |f]; [|done|].
    + destruct (raise_default run SIGABRT s4) as (s5 & E5); [done|by rewrite Ha|].
      exists HAbort, s5. split; [by apply run_bind_halt|by left].
    + destruct (raise_handler run SIGABRT f s4 B1) as [(h & s5 & E5 & Hh)|(s5 & E5 & B5 & R5)]; [by rewrite Ha|done|..].
      * exists h, s5. split; [by apply run_bind_halt|by right].
      * rewrite (run_bind _ _ _ _ _ E5).
        destruct (abort_at_last run ("yabort: 2nd raise()" +:+ nl) fl mk s5) as (s6 & E6); [congruence|congruence|].
        exists HAbort, s6. split; [exact E6|by left].
Qed.

(** The BSD master: the nested loops go through the 256 names in order. *)
Definition pty_names : list (ascii * ascii) := x ← chars X_RANGE; y ← chars Y_RANGE; [(x, y)].

Section pty.
Context {W : Type} (sys_open : string → W → (Z + Z) * W).
Local Abbreviation st := (pst unit string W).

Fixpoint try_names (snLen : nat) (l : list (ascii * ascii)) : M st (Z * option string) :=
  match l with
  | [] => mret (-1, None)
  | (x, y) :: l =>
      r ← try_pty sys_open snLen x y;
      match r with Some r => mret r | None => try_names snLen l end
  end.

Lemma try_ys_names snLen x ys l (s : st) :
  try_names snLen (((λ y, (x, y)) <$> ys) ++ l) s =
  (r ← try_ys sys_open snLen x ys; match r with Some r => mret r | None => try_names snLen l end) s.
Proof.
  induction ys as [|y ys IH] in s |- *; [done|]. rewrite fmap_cons. cbn [app try_names try_ys].
  unfold mbind, M_bind. destruct (try_pty sys_open snLen x y s) as [[[r|]|h] s1]; [done| |done].
  rewrite IH. done.
Qed.
Lemma try_xs_names snLen xs (s : st) :
  try_xs sys_open snLen xs s = try_names snLen (xs ≫= λ x, (λ y, (x, y)) <$> chars Y_RANGE) s.
Proof.
  induction xs as [|x xs IH] in s |- *; [done|]. rewrite bind_cons, try_ys_names. cbn [try_xs].
  unfold mbind, M_bind. destruct (try_ys sys_open snLen x (chars Y_RANGE) s) as [[[r|]|h] s1]; [done|apply IH|done].
Qed.

(** What the system says of a name, when it stays the same. *)
Context (opens : string → Z + Z) (Hopen : ∀ n w, sys_open n w = (opens n, w)).
Definition master (p : ascii * ascii) : string := pty_name PTYM_PREFIX p.1 p.2.
(** A name that cannot be opened, but where the search goes on. *)
Definition busy (p : ascii * ascii) : Prop := ∃ e, opens (master p) = inl e ∧ e ≠ ENOENT.

Lemma try_pty_run snLen x y (s : st) : (PTY_NAME_LEN <= snLen)%nat →
  ∃ s', try_pty sys_open snLen x y s =
    (Ok (match opens (master (x, y)) with
         | inl e => if e =? ENOENT then Some (-1, None) else None
         | inr fd => Some (fd, Some (pty_name PTYS_PREFIX x y))
         end), s').
Proof.
  intros Hn. assert (Hlt : (snLen <=? String.length (pty_name PTYS_PREFIX x y))%nat = false).
  { apply Nat.leb_gt. unfold PTY_NAME_LEN in Hn. simpl. lia. }
  unfold try_pty, mbind, M_bind, call. rewrite Hopen. unfold master. cbn [fst snd]. rewrite Hlt.
  destruct (opens (pty_name PTYM_PREFIX x y)) as [e|fd]; by eexists.
Qed.

Lemma try_names_run snLen l (s : st) : (PTY_NAME_LEN <= snLen)%nat →
  (∃ s' k p fd, try_names snLen l s = (Ok (fd, Some (pty_name PTYS_PREFIX p.1 p.2)), s') ∧
     l !! k = Some p ∧ opens (master p) = inr fd ∧ Forall busy (take k l)) ∨
  (∃ s' k, try_names snLen l s = (Ok (-1, None), s') ∧ Forall busy (take k l) ∧
     (k = length l ∨ ∃ p, l !! k = Some p ∧ opens (master p) = inl ENOENT)).
Proof.
  intros Hn. induction l as [|[x y] l IH] in s |- *; [right; exists s, O; by split_and!; [..|left]|].
  cbn [try_names]. destruct (try_pty_run snLen x y s Hn) as (s1 & E1). rewrite (run_bind _ _ _ _ _ E1).
  destruct (opens (master (x, y))) as [e|fd] eqn:Eo.
  - destruct (e =? ENOENT) eqn:Ee; bool_facts.
    + right. exists s1, O. split; [reflexivity|]. split; [constructor|]. right. exists (x, y). by subst e.
    + destruct (IH s1) as [(s' & k & p & fd & E & Hk & Hp & HF)|(s' & k & E & HF & Hk)].
      * left. exists s', (S k), p, fd. split; [exact E|]. split_and!; [done|done|]. constructor; [by exists e|done].
      * right. exists s', (S k). split; [exact E|]. split; [constructor; [by exists e|done]|].
        destruct Hk as [->|Hk]; [by left|by right].
  - left. exists s1, O, (x, y), fd. split; [reflexivity|]. split_and!; [done|done|constructor].
Qed.

(** [ptyMasterOpen] opens the first of the 256 names that can be opened, and gives
    the name of its slave, which always fits; it gives up at a name that does not
    exist, or when none can be opened. *)
Lemma ptyMasterOpen_bsd snLen (s : st) :
  (∃ s', (snLen < PTY_NAME_LEN)%nat ∧ ptyMasterOpen sys_open snLen s = (Ok (-1, None), s') ∧
     s'.(pr).(errno) = EOVERFLOW) ∨
  (∃ s' k p fd, ptyMasterOpen sys_open snLen s = (Ok (fd, Some (pty_name PTYS_PREFIX p.1 p.2)), s') ∧
     pty_names !! k = Some p ∧ opens (master p) = inr fd ∧ Forall busy (take k pty_names)) ∨
  (∃ s' k, ptyMasterOpen sys_open snLen s = (Ok (-1, None), s') ∧ Forall busy (take k pty_names) ∧
     (k = length pty_names ∨ ∃ p, pty_names !! k = Some p ∧ opens (master p) = inl ENOENT)).
Proof.
  unfold ptyMasterOpen. destruct (snLen <? PTY_NAME_LEN)%nat eqn:El; bool_facts.
  - left. by eexists.
  - right. assert (pty_names = (chars X_RANGE ≫= λ x, (λ y, (x, y)) <$> chars Y_RANGE)) as -> by reflexivity.
    rewrite try_xs_names. apply try_names_run. lia.
Qed.
End pty.

Section tty.
Context {W : Type} `{!TtySys W}.
Local Abbreviation st := (pst path_buf ttycall W).

(** What the file system says, when it stays the same, and memory does not run out. *)
Context (stats : string → Z + stat) (listing : string → Z + list string).
Hypothesis Hstat : ∀ p w, sys_stat p w = (stats p, w).
Hypothesis Hlist : ∀ d w, sys_readdir d w = (listing d, w).
Hypothesis Hmem : ∀ n w, sys_realloc n w = (inr tt, w).

(** An entry that is the terminal, and the first one in a directory. *)
Definition is_tty (fdStat : stat) (dir d : string) : bool :=
  match stats (dir +:+ "/" +:+ d) with
  | inl _ => false
  | inr devStat => devStat.(is_chr) && (fdStat.(st_rdev) =? devStat.(st_rdev))
  end.
Definition tty_in (fdStat : stat) (dir : string) : option string :=
  match listing dir with
  | inl _ => None
  | inr l => (λ d, dir +:+ "/" +:+ d) <$> head (filter (λ d, is_tty fdStat dir d) l)
  end.

Lemma check_entry_run fdStat dir d (s : st) :
  ∃ s', check_entry fdStat dir d s = (Ok (if is_tty fdStat dir d then Some true else None), s') ∧
    s'.(vars).(ttyPath) = dir +:+ "/" +:+ d ∧ s'.(world) = s.(world).
Proof.
  unfold check_entry. set (name := dir +:+ "/" +:+ d). unfold is_tty. fold name.
  assert (Hfit : ∃ s1, (if (s.(vars).(ttyLen) <? S (String.length name))%nat then
            r ← call (TRealloc (S (String.length name))) (sys_realloc (S (String.length name)));
            match r with
            | inl _ => mret false
            | inr _ => put_vars (λ v, PathBuf v.(ttyPath) (S (String.length name)));; mret true
            end
          else mret true) s = (Ok true, s1) ∧ (String.length name < s1.(vars).(ttyLen))%nat ∧ s1.(world) = s.(world)).
  { destruct (_ <? _)%nat eqn:E.
    - unfold mbind, M_bind, call. rewrite Hmem. eexists. split; [reflexivity|]. simpl. split; [lia|done].
    - apply Nat.ltb_ge in E. exists s. split; [done|]. split; [lia|done]. }
  destruct Hfit as (s1 & E1 & Hlen & W1). unfold mbind at 1, M_bind at 1, get_vars at 1, gets at 1.
  rewrite (run_bind _ _ _ _ _ E1). cbn [negb]. unfold mbind, M_bind, put_vars, modify, get_vars, gets, call. cbn.
  rewrite snprintf_fits by done. rewrite Hstat. destruct (stats name) as [e|dev].
  - eexists. split; [reflexivity|]. done.
  - eexists. split; [reflexivity|]. done.
Qed.

Lemma check_entries_run fdStat dir l (s : st) :
  let r := head (filter (λ d, is_tty fdStat dir d) l) in
  ∃ s', check_entries fdStat dir l s = (Ok (bool_decide (is_Some r)), s') ∧
    (∀ d, r = Some d → s'.(vars).(ttyPath) = dir +:+ "/" +:+ d) ∧ s'.(world) = s.(world).
Proof.
  induction l as [|d l IH] in s |- *; [by exists s|]. intros r.
  destruct (check_entry_run fdStat dir d s) as (s1 & E1 & V1 & W1). cbn [check_entries].
  rewrite (run_bind _ _ _ _ _ E1). subst r. rewrite filter_cons. destruct (is_tty fdStat dir d) eqn:Ed.
  - rewrite decide_True by done. exists s1. split; [done|]. split; [|done]. by intros d' [= <-].
  - rewrite decide_False by (by intros ?). destruct (IH s1) as (s2 & E2 & V2 & W2). exists s2.
    split; [exact E2|]. split; [done|congruence].
Qed.

Lemma ttynameCheckDir_run fdStat dir (s : st) :
  ∃ s', ttynameCheckDir fdStat dir s = (Ok (tty_in fdStat dir), s') ∧ s'.(world) = s.(world).
Proof.
  unfold ttynameCheckDir, tty_in.
  assert (Hready : ∃ s1, (if (s.(vars).(ttyLen) =? 0)%nat then
             r ← call (TRealloc 50) (sys_realloc 50);
             match r with
             | inl _ => mret false
             | inr _ => put_vars (λ v, PathBuf v.(ttyPath) 50);; mret true
             end
           else mret true) s = (Ok true, s1) ∧ s1.(world) = s.(world)).
  { destruct (_ =? 0)%nat; [|by exists s]. unfold mbind, M_bind, call. rewrite Hmem. by eexists. }
  destruct Hready as (s1 & E1 & W1). unfold mbind at 1, M_bind at 1, get_vars at 1, gets at 1.
  rewrite (run_bind _ _ _ _ _ E1). cbn [negb]. unfold mbind at 1, M_bind at 1, call at 1. rewrite Hlist.
  destruct (listing dir) as [e|l]; [by eexists|].
  set (s2 := Pst (pr s1) (vars s1) (trace s1 ++ [TOpendir dir]) (world s1) : st).
  destruct (check_entries_run fdStat dir l s2) as (s3 & E3 & V3 & W3). rewrite (run_bind _ _ _ _ _ E3).
  exists (Pst (pr s3) (vars s3) (trace s3 ++ [TClosedir]) (world s3)). split; [|exact (eq_trans W3 W1)].
  unfold mbind, M_bind, call, get_vars, gets, mret, M_ret. cbn.
  destruct (head (filter _ l)) as [d|] eqn:Eh; cbn; [by rewrite (V3 d eq_refl)|reflexivity].
Qed.

(** [ttyname] gives the first entry of [/dev/pts] that is the terminal, or else the
    first one of [/dev]; the buffer is always long enough for it. *)
Lemma ttyname_run fd (s : st) fdStat w1 :
  sys_isatty fd s.(world) = true → sys_fstat fd s.(world) = (inr fdStat, w1) →
  ∃ s', ttyname fd s =
    (Ok (if fdStat.(is_chr) then
           match tty_in fdStat "/dev/pts" with Some d => Some d | None => tty_in fdStat "/dev" end
         else None), s').
Proof.
  intros Ht Hf. unfold ttyname. do 2 (erewrite run_bind by reflexivity). rewrite Ht. cbn [negb].
  set (s0 := Pst _ _ (trace s ++ _) _).
  assert (E0 : call (TFstat fd) (sys_fstat fd) s0 = (Ok (inr fdStat), Pst (pr s) (vars s) (trace s0 ++ [TFstat fd]) w1)).
  { unfold call. cbn [world s0]. by rewrite Hf. }
  rewrite (run_bind _ _ _ _ _ E0). destruct (is_chr fdStat); [|by eexists].
  destruct (ttynameCheckDir_run fdStat "/dev/pts" (Pst (pr s) (vars s) (trace s0 ++ [TFstat fd]) w1)) as (s1 & E1 & W1).
  cbn [negb]. rewrite (run_bind _ _ _ _ _ E1). destruct (tty_in fdStat "/dev/pts"); [by eexists|].
  destruct (ttynameCheckDir_run fdStat "/dev" s1) as (s2 & E2 & _). by exists s2.
Qed.
End tty.
End facts.
