(* ===== verification/ItimerSpec.v ===== *)
(** Intervals on the command line: [timers/itimerspec_from_str.c].

    A null byte stored over a separator ends the text before it; the parser's
    string is therefore cut with [before], and what follows a separator is found
    with [strchr]. *)
From S2P Require Import Prelude CLib.
From S2P Require GetNum Ugid.
Local Open Scope Z_scope.

Record timespec := Timespec { tv_sec : Z; tv_nsec : Z }.
Record itimerspec := Itimerspec { it_interval : timespec; it_value : timespec }.

(** [sec[/nanosec]] *)
Definition time_part (t : string) : timespec :=
  let sptr := strchr t "/" in
  Timespec (atoi (before t "/")) (match sptr with Some (String _ r) => atoi r | _ => 0 end).

(** [dupstr]: whether the copy of the string could be allocated; [None] where the
    null pointer is used. *)
Definition itimerspecFromStr (dupstr : bool) (str : string) : option itimerspec :=
  if negb dupstr then None else
  let cptr := strchr str ":" in
  Some (Itimerspec
    (match cptr with Some (String _ r) => time_part r | _ => Timespec 0 0 end)
    (time_part (before str ":"))).

(** ** The form of a string *)

(** How a time may be written: a part that is zero may be left out. *)
Inductive part_text : timespec → string → Prop :=
| part_short a : part_text (Timespec a 0) (fmt_d a)
| part_long a b : part_text (Timespec a b) (fmt_d a +:+ "/" +:+ fmt_d b).
Inductive spec_text : itimerspec → string → Prop :=
| spec_short v t : part_text v t → spec_text (Itimerspec (Timespec 0 0) v) t
| spec_long i v t u : part_text v t → part_text i u → spec_text (Itimerspec i v) (t +:+ ":" +:+ u).

Definition int_time (t : timespec) : Prop :=
  INT_MIN <= t.(tv_sec) <= INT_MAX ∧ INT_MIN <= t.(tv_nsec) <= INT_MAX.

Lemma atoi_fmt n : INT_MIN <= n <= INT_MAX → atoi (fmt_d n) = n.
Proof.
  intros Hn. unfold atoi. rewrite Ugid.strtoll_fmt by (unfold INT_MIN, INT_MAX, LLONG_MIN, LLONG_MAX in *; lia).
  apply to_signed_small; unfold INT_MIN, INT_MAX in *; lia.
Qed.

Lemma part_read t u : part_text t u → int_time t → time_part u = t ∧ all_chars (no_char ":") u = true.
Proof.
  intros [a|a b] [Ha Hb]; simpl in Ha, Hb; unfold time_part.
  - destruct (strchr_none "/" (fmt_d a)) as [-> ->]; [by apply fmt_d_without|].
    rewrite atoi_fmt by done. split; [done|]. by apply fmt_d_without.
  - destruct (strchr_at "/" (fmt_d a) (fmt_d b)) as [H1 H2]; [by apply fmt_d_without|].
    change ("/" +:+ fmt_d b) with (String "/" (fmt_d b)). rewrite H1, H2, !atoi_fmt by done. split; [done|].
    rewrite all_chars_app, fmt_d_without by done. rewrite all_chars_cons. simpl. by apply fmt_d_without.
Qed.

(** Whatever is left out of the text of an interval, reading it gives the interval. *)
Lemma itimerspec_read spec t :
  spec_text spec t → int_time spec.(it_interval) → int_time spec.(it_value) →
  itimerspecFromStr true t = Some spec.
Proof.
  intros [v t' Hv|i v t' u Hv Hi] Hin Hva; simpl in Hin, Hva; unfold itimerspecFromStr; simpl.
  - destruct (part_read v t' Hv Hva) as [<- Hc]. by destruct (strchr_none ":" t' Hc) as [-> ->].
  - destruct (part_read v t' Hv Hva) as [E1 Hc]. destruct (part_read i u Hi Hin) as [E2 _].
    destruct (strchr_at ":" t' u Hc) as [H1 H2]. change (":" +:+ u) with (String ":" u).
    by rewrite H1, H2, E1, E2.
Qed.

Example itimerspec_examples :
  itimerspecFromStr true "2" = Some (Itimerspec (Timespec 0 0) (Timespec 2 0)) ∧
  itimerspecFromStr true "2/500:1" = Some (Itimerspec (Timespec 1 0) (Timespec 2 500)) ∧
  itimerspecFromStr true ":1/5" = Some (Itimerspec (Timespec 1 5) (Timespec 0 0)) ∧
  itimerspecFromStr false "2" = None.
Proof. by repeat split. Qed.
