(* ===== verification/Daemon.v ===== *)
(** [daemons/become_daemon.c]: what is left of a process once it has become a
    daemon. *)
From stdpp Require Import gmap.
From S2P Require Import Prelude CLib ErrorFunctions Proc Descriptors.
Local Open Scope Z_scope.

Definition BD_NO_CHDIR : Z := 1.
Definition BD_NO_CLOSE_FILES : Z := 2.
Definition BD_NO_REOPEN_STD_FDS : Z := 4.
Definition BD_NO_UMASK0 : Z := 8.
Definition BD_MAX_CLOSE : Z := 8192.

Section daemon.
Context {L : Libc}.
Local Abbreviation P := (M (pst unit string kern)).

(** [for (fd = 0; fd < maxfd; fd++) close(fd);] *)
Definition close_below (maxfd : Z) : P unit := for_each (seqZ 0 maxfd) (λ fd, close fd;; skip).

Definition close_files : P unit :=
  maxfd ← sysconf_open_max;
  close_below (if maxfd =? -1 then BD_MAX_CLOSE else maxfd).

(** The standard descriptors on [/dev/null]. *)
Definition reopen_std : P Z :=
  close 0;;
  fd ← open_null;
  if negb (value fd =? 0) then mret (-1) else
  o ← dup2 0 1;
  if negb (value o =? 1) then mret (-1) else
  e ← dup2 0 2;
  if negb (value e =? 2) then mret (-1) else
  mret 0.

(** The process after the second [fork]. *)
Definition daemon_rest (flags : Z) : P Z :=
  when (negb (has flags BD_NO_UMASK0)) (umask 0;; skip);;
  when (negb (has flags BD_NO_CHDIR)) (chdir "/";; skip);;
  when (negb (has flags BD_NO_CLOSE_FILES)) close_files;;
  if negb (has flags BD_NO_REOPEN_STD_FDS) then reopen_std else mret 0.

Definition becomeDaemon (flags : Z) : P Z :=
  r ← fork;
  match r with
  | inl _ => mret (-1)
  | inr p =>
      if negb (p =? 0) then _exit EXIT_SUCCESS else
      s ← setsid;
      if value s =? -1 then mret (-1) else
      r ← fork;
      match r with
      | inl _ => mret (-1)
      | inr p => if negb (p =? 0) then _exit EXIT_SUCCESS else daemon_rest flags
      end
  end.

(** ** What a daemon is *)

Definition closed (flags : Z) (k : kern) : gmap Z file :=
  if has flags BD_NO_CLOSE_FILES then k.(fds)
  else let maxfd := if k.(open_max) =? -1 then BD_MAX_CLOSE else k.(open_max) in
       filter (λ x : Z * file, ¬ (0 <= x.1 < maxfd)) k.(fds).

Definition std_null (m : gmap Z file) : gmap Z file :=
  <[2 := DevNull]> (<[1 := DevNull]> (<[0 := DevNull]> m)).

(** The process whose grandparent was [k]: in a session of its own of which it is
    not the leader, without a terminal. *)
Definition daemon_of (flags : Z) (fs : list Z) (k : kern) : kern :=
  let m := if has flags BD_NO_REOPEN_STD_FDS then closed flags k else std_null (closed flags k) in
  Kern m (k.(next_pid) + 1) k.(next_pid) k.(next_pid) None
    (if has flags BD_NO_UMASK0 then k.(file_mask) else 0)
    (if has flags BD_NO_CHDIR then k.(cwd) else "/")
    k.(attrs) k.(sizes) k.(unlocked) k.(open_max) (k.(next_pid) + 2) k.(next_pty) [] fs.

Lemma close_below_world n s :
  0 <= n → ∃ s', close_below n s = (Ok tt, s') ∧
    s'.(world) = set_fds (filter (λ x : Z * file, ¬ (0 <= x.1 < n)) s.(world).(fds)) s.(world).
Proof.
  intros Hn. unfold close_below.
  assert (H : ∀ l s, ∃ s', for_each l (λ fd, close fd;; skip) s = (Ok tt, s') ∧
    s'.(world) = set_fds (filter (λ x : Z * file, x.1 ∉ l) s.(world).(fds)) s.(world)).
  { clear. induction l as [|fd l IH]; intros s; simpl.
    - exists s. split; [done|]. rewrite map_filter_id; [by destruct (world s)|]. intros x f _. apply not_elem_of_nil.
    - destruct (close_world fd s) as (r & s1 & E & Hw). destruct (IH s1) as (s2 & E2 & Hw2).
      exists s2. unfold mbind, M_bind. rewrite E. simpl. split; [done|]. rewrite Hw2, Hw. simpl.
      match goal with |- set_fds ?a _ = set_fds ?b _ => enough (a = b) as -> by done end.
      apply map_eq. intros x. apply option_eq. intros f.
      rewrite !map_lookup_filter_Some, lookup_delete_Some. simpl.
      rewrite not_elem_of_cons. clear. intuition congruence. }
  destruct (H (seqZ 0 n) s) as (s' & E & Hw). exists s'. split; [done|]. rewrite Hw. f_equal.
  apply map_filter_ext. intros x f _. simpl. by rewrite elem_of_seqZ.
Qed.

Lemma reopen_std_world s :
  s.(world).(results) = [] →
  ∃ s', reopen_std s = (Ok 0, s') ∧ s'.(world) = set_fds (std_null s.(world).(fds)) s.(world).
Proof.
  intros Hr. unfold reopen_std. destruct (close_world 0 s) as (r & s1 & E & Hw).
  rewrite (run_bind _ _ _ _ _ E).
  set (m := delete 0 (fds (world s))) in Hw.
  assert (E1 : open_null s1 = (Ok (inr 0), called "open" (set_fds (<[0 := DevNull]> m) (world s)) s1)).
  { apply call_runs. rewrite fallible_ok by by rewrite Hw. unfold install. rewrite Hw. simpl.
    rewrite lowest_fd_zero by apply lookup_delete_eq. done. }
  rewrite (run_bind _ _ _ _ _ E1). cbn [value negb Z.eqb Pos.eqb].
  set (s2 := called _ _ s1).
  assert (E2 : dup2 0 1 s2 = (Ok (inr 1),
    called "dup2" (set_fds (<[1 := DevNull]> (<[0 := DevNull]> m)) (world s)) s2)).
  { apply call_runs. rewrite fallible_ok by done. simpl. by rewrite lookup_insert_eq. }
  rewrite (run_bind _ _ _ _ _ E2). cbn [value negb Z.eqb Pos.eqb].
  set (s3 := called _ _ s2).
  assert (E3 : dup2 0 2 s3 = (Ok (inr 2),
    called "dup2" (set_fds (<[2 := DevNull]> (<[1 := DevNull]> (<[0 := DevNull]> m))) (world s)) s3)).
  { apply call_runs. rewrite fallible_ok by done. simpl. by rewrite lookup_insert_ne, lookup_insert_eq. }
  rewrite (run_bind _ _ _ _ _ E3). eexists. split; [done|]. simpl.
  unfold std_null, m. by rewrite insert_delete_eq.
Qed.

Lemma daemon_rest_world flags s :
  s.(world).(results) = [] → -1 <= s.(world).(open_max) →
  ∃ s', daemon_rest flags s = (Ok 0, s') ∧
    let k := s.(world) in
    let m := if has flags BD_NO_REOPEN_STD_FDS then closed flags k else std_null (closed flags k) in
    s'.(world) = set_fds m (set_ambient (if has flags BD_NO_UMASK0 then k.(file_mask) else 0)
      (if has flags BD_NO_CHDIR then k.(cwd) else "/") k).
Proof.
  intros Hr Hm. unfold daemon_rest. cbv zeta.
  set (um := if has flags BD_NO_UMASK0 then _ else 0).
  assert (H1 : ∃ s1, when (negb (has flags BD_NO_UMASK0)) (umask 0;; skip) s = (Ok tt, s1) ∧
    world s1 = set_ambient um (cwd (world s)) (world s)).
  { unfold um. destruct (has flags BD_NO_UMASK0); eexists; (split; [done|]); [by destruct (world s)|done]. }
  destruct H1 as (s1 & E1 & W1). rewrite (run_bind _ _ _ _ _ E1).
  set (wd := if has flags BD_NO_CHDIR then _ else "/").
  assert (H2 : ∃ s2, when (negb (has flags BD_NO_CHDIR)) (chdir "/";; skip) s1 = (Ok tt, s2) ∧
    world s2 = set_ambient um wd (world s)).
  { unfold wd. destruct (has flags BD_NO_CHDIR); [by eexists|].
    eexists. split.
    { cbn [negb when]. erewrite run_bind; [done|]. apply call_runs.
      rewrite fallible_ok by by rewrite W1. reflexivity. }
    simpl. by rewrite W1. }
  destruct H2 as (s2 & E2 & W2). rewrite (run_bind _ _ _ _ _ E2).
  assert (H3 : ∃ s3, when (negb (has flags BD_NO_CLOSE_FILES)) close_files s2 = (Ok tt, s3) ∧
    world s3 = set_fds (closed flags (world s)) (set_ambient um wd (world s))).
  { unfold closed. destruct (has flags BD_NO_CLOSE_FILES); [by eexists|]. cbn [negb when].
    unfold close_files. rewrite (run_bind _ _ _ (open_max (world s)) s2) by (unfold sysconf_open_max, gets; by rewrite W2).
    set (n := if open_max (world s) =? -1 then _ else _).
    destruct (close_below_world n s2) as (s3 & E & W3).
    { unfold n. destruct (Z.eqb_spec (open_max (world s)) (-1)); [done|lia]. }
    exists s3. split; [done|]. by rewrite W3, W2. }
  destruct H3 as (s3 & E3 & W3). rewrite (run_bind _ _ _ _ _ E3).
  destruct (has flags BD_NO_REOPEN_STD_FDS); cbn [negb]; [by exists s3|].
  destruct (reopen_std_world s3) as (s4 & E4 & W4); [by rewrite W3|].
  exists s4. split; [done|]. by rewrite W4, W3.
Qed.

(** The number of a new process is not that of a group. *)
Definition pids_fresh (k : kern) : Prop := 0 <= k.(pgid) < k.(next_pid).

(** The two calls by their results. *)
Lemma fork_parent p fs s :
  0 < p → s.(world).(forks) = p :: fs →
  fork s = (Ok (inr p), Pst s.(pr) s.(vars) (s.(trace) ++ ["fork"])
    (let k := s.(world) in set_machine (k.(next_pid) + 1) k.(next_pty) k.(results) fs k)).
Proof.
  intros Hp Hf. unfold fork, call. rewrite Hf, (proj2 (Z.ltb_ge p 0)), (proj2 (Z.eqb_neq p 0)) by lia.
  done.
Qed.

Lemma fork_child fs s :
  s.(world).(forks) = 0 :: fs →
  fork s = (Ok (inr 0), Pst s.(pr) s.(vars) (s.(trace) ++ ["fork"])
    (let k := s.(world) in set_session k.(next_pid) k.(pgid) k.(sid) k.(ctty)
      (set_machine (k.(next_pid) + 1) k.(next_pty) k.(results) fs k))).
Proof. intros Hf. unfold fork, call. by rewrite Hf. Qed.

Lemma fork_fails e fs s :
  0 < e → s.(world).(forks) = - e :: fs →
  fork s = (Ok (inl e), Pst (set_errno e s.(pr)) s.(vars) (s.(trace) ++ ["fork"])
    (let k := s.(world) in set_machine k.(next_pid) k.(next_pty) k.(results) fs k)).
Proof.
  intros He Hf. unfold fork, call. rewrite Hf, (proj2 (Z.ltb_lt (- e) 0)) by lia.
  by rewrite Z.opp_involutive.
Qed.

Lemma setsid_run s :
  s.(world).(pgid) ≠ s.(world).(pid) →
  setsid s = (Ok (inr s.(world).(pid)), Pst s.(pr) s.(vars) (s.(trace) ++ ["setsid"])
    (let p := s.(world).(pid) in set_session p p p None s.(world))).
Proof. intros H. unfold setsid, call. by rewrite (proj2 (Z.eqb_neq _ _) H). Qed.

(** The system once [n] processes more have been made, and the one of the first
    child, which leads a session of its own without a terminal. *)
Definition forked (n : Z) (fs : list Z) (k : kern) : kern :=
  set_machine (k.(next_pid) + n) k.(next_pty) k.(results) fs k.
Definition leader_of (n : Z) (fs : list Z) (k : kern) : kern :=
  set_session k.(next_pid) k.(next_pid) k.(next_pid) None (forked n fs k).

(** C22: where no call but [fork] fails, the process that [becomeDaemon] returns 0
    in is in a session of its own without being the leader of it, has no controlling
    terminal, and as far as the flags do not say otherwise has a zero file mask,
    the root directory, no descriptor of its ancestor's below the limit, and the
    null device as its three standard ones.  [setsid] cannot fail.  The ancestor
    and the first child, which are those where the first and the second [fork] return the
    number of a new process, exit at once with status 0: the calls up to that [fork]
    are all they make, and descriptors, mask and directory are as they were.  Where one of
    the two forks fails the result is -1 with the error in [errno], and nothing
    further is done. *)
Theorem becomeDaemon_spec flags fs s :
  let k := s.(world) in
  let after calls w := Pst s.(pr) s.(vars) (s.(trace) ++ calls) w in
  let exits s' := becomeDaemon flags s = (Halt (HExitNow EXIT_SUCCESS), s') in
  let fails e calls w := becomeDaemon flags s =
    (Ok (-1), Pst (set_errno e s.(pr)) s.(vars) (s.(trace) ++ calls) w) in
  k.(results) = [] → pids_fresh k → -1 <= k.(open_max) →
  (k.(forks) = 0 :: 0 :: fs →
   ∃ s', becomeDaemon flags s = (Ok 0, s') ∧ s'.(world) = daemon_of flags fs k) ∧
  (∀ p, 0 < p → k.(forks) = p :: fs → exits (after ["fork"] (forked 1 fs k))) ∧
  (∀ p, 0 < p → k.(forks) = 0 :: p :: fs →
   exits (after ["fork"; "setsid"; "fork"] (leader_of 2 fs k))) ∧
  (∀ e, 0 < e → k.(forks) = - e :: fs → fails e ["fork"] (forked 0 fs k)) ∧
  (∀ e, 0 < e → k.(forks) = 0 :: - e :: fs →
   fails e ["fork"; "setsid"; "fork"] (leader_of 1 fs k)).
Proof.
  intros k after exits fails Hr Hp Hm. unfold k, after, exits, fails in *. clear k after exits fails.
  destruct s as [p v tr [m pid0 pgid0 sid0 t um d at_ sz un om np nt r f]]. simpl in *.
  subst r. unfold pids_fresh in Hp. simpl in Hp. split_and!.
  - intros Hf. subst f. unfold becomeDaemon. 
    erewrite run_bind by (by eapply fork_child). cbn [negb Z.eqb].
    erewrite run_bind by (apply setsid_run; simpl; lia). cbn [value].
    rewrite (proj2 (Z.eqb_neq _ (-1))) by (simpl; lia).
    erewrite run_bind by (by eapply fork_child). cbn [negb Z.eqb].
    match goal with |- context [daemon_rest flags ?s0] =>
      destruct (daemon_rest_world flags s0) as (s' & -> & Hw); [done|done|] end.
    exists s'. split; [done|]. rewrite Hw. unfold daemon_of, closed, set_fds, set_ambient. simpl.
    f_equal; lia.
  - intros q Hq ->. unfold becomeDaemon.
    erewrite run_bind by (apply fork_parent; [done|reflexivity]).
    cbn [negb]. by rewrite (proj2 (Z.eqb_neq q 0)) by lia.
  - intros q Hq ->. unfold becomeDaemon. 
    erewrite run_bind by (by eapply fork_child). cbn [negb Z.eqb].
    erewrite run_bind by (apply setsid_run; simpl; lia). cbn [value].
    rewrite (proj2 (Z.eqb_neq _ (-1))) by (simpl; lia).
    erewrite run_bind by (apply fork_parent; [done|reflexivity]).
    cbn [negb]. rewrite (proj2 (Z.eqb_neq q 0)) by lia. cbn. unfold leader_of, forked. cbn.
    rewrite <- !app_assoc. by replace (np + 1 + 1) with (np + 2) by lia.
  - intros e He ->. unfold becomeDaemon.
    erewrite run_bind by (apply fork_fails; [done|reflexivity]). cbn. unfold forked. cbn.
    by rewrite Z.add_0_r.
  - intros e He ->. unfold becomeDaemon. 
    erewrite run_bind by (by eapply fork_child). cbn [negb Z.eqb].
    erewrite run_bind by (apply setsid_run; simpl; lia). cbn [value].
    rewrite (proj2 (Z.eqb_neq _ (-1))) by (simpl; lia).
    erewrite run_bind by (apply fork_fails; [done|reflexivity]). cbn. by rewrite <- !app_assoc.
Qed.
End daemon.

Definition shell_kern (fs : list Z) : kern :=
  Kern {[ 0 := Pts 1; 1 := Pts 1; 2 := Other 5; 7 := Other 6 ]} 40 40 40 (Some (Pts 1)) 18 "/home"
    (λ _, Termios 0 0 0 0 0 0 0) (λ _, Winsize 24 80) ∅ 1024 41 0 [] fs.

Lemma becomeDaemon_spec_witness :
  let L := {| strerror := λ _, ""; io_errno := id |} in
  ∃ s', becomeDaemon 0 (Pst (Proc 0 [] "" "" []) tt [] (shell_kern [0; 0])) = (Ok 0, s') ∧
    s'.(world).(sid) = 41 ∧ s'.(world).(pid) = 42 ∧
    s'.(world).(fds) !! 2 = Some DevNull ∧ s'.(world).(fds) !! 7 = None.
Proof.
  intros L. destruct (becomeDaemon_spec 0 [] (Pst (Proc 0 [] "" "" []) tt [] (shell_kern [0; 0])))
    as [H _]; [done|split; by vm_compute|by vm_compute|].
  destruct (H eq_refl) as (s' & E & Hw). exists s'. split; [exact E|]. rewrite Hw. split_and!; reflexivity.
Defined.
