(* ===== verification/Pty.v ===== *)
(** Terminals and pseudoterminals: [tty/tty_functions.c],
    [pty/pty_master_open.c] and [pty/pty_fork.c]. *)
From stdpp Require Import gmap.
From S2P Require Import Prelude CLib ErrorFunctions Proc Descriptors.
Local Open Scope Z_scope.

Definition EIO : Z := 5.
Definition ENOTTY : Z := 25.
Definition EOVERFLOW : Z := 75.

(** The bits of [struct termios] that are used. *)
Definition ICANON : Z := 0x2.
Definition ECHO : Z := 0x8.
Definition ISIG : Z := 0x1.
Definition IEXTEN : Z := 0x8000.
Definition IGNBRK : Z := 0x1.
Definition BRKINT : Z := 0x2.
Definition PARMRK : Z := 0x8.
Definition INPCK : Z := 0x10.
Definition ISTRIP : Z := 0x20.
Definition INLCR : Z := 0x40.
Definition IGNCR : Z := 0x80.
Definition ICRNL : Z := 0x100.
Definition IXON : Z := 0x400.
Definition OPOST : Z := 0x1.

Notation "a .| b" := (Z.lor a b) (at level 50, left associativity) : Z_scope.

Section pty.
Context {L : Libc}.
Local Abbreviation P := (M (pst unit string kern)).

(** ** Calls on terminals *)

Definition terminal (f : file) : bool := match f with Ptm _ | Pts _ => true | _ => false end.

(** A call on the file of [fd], which fails where the descriptor is not open. *)
Definition on_file {A} (fd : Z) (f : file → kern → (Z + A) * kern) (k : kern) : (Z + A) * kern :=
  match k.(fds) !! fd with None => (inl EBADF, k) | Some x => f x k end.

Definition tcgetattr (fd : Z) : P (Z + termios) := call "tcgetattr" (fallible (on_file fd (λ f k,
  if terminal f then (inr (k.(attrs) f), k) else (inl ENOTTY, k)))).
Definition tcsetattr (fd : Z) (t : termios) : P (Z + unit) :=
  call "tcsetattr" (fallible (on_file fd (λ f k,
    if terminal f then
      (inr tt, set_terminal (λ g, if decide (g = f) then t else k.(attrs) g) k.(sizes) k.(unlocked) k)
    else (inl ENOTTY, k)))).
Definition set_winsize (fd : Z) (z : winsize) : P (Z + unit) :=
  call "ioctl" (fallible (on_file fd (λ f k,
    if terminal f then
      (inr tt, set_terminal k.(attrs) (λ g, if decide (g = f) then z else k.(sizes) g) k.(unlocked) k)
    else (inl ENOTTY, k)))).
(** [ioctl(fd, TIOCSCTTY, 0)]: a session leader takes the terminal, unless it has
    another one. *)
Definition set_ctty (fd : Z) : P (Z + unit) := call "ioctl" (fallible (on_file fd (λ f k,
  if negb (terminal f) then (inl ENOTTY, k)
  else if bool_decide (k.(ctty) = Some f) then (inr tt, k)
  else if (k.(sid) =? k.(pid)) && bool_decide (k.(ctty) = None)
  then (inr tt, set_session k.(pid) k.(pgid) k.(sid) (Some f) k)
  else (inl EPERM, k)))).

(** ** [tty_functions.c]

    [prev]: whether the caller asks for the previous settings. *)

Definition cbreak (t : termios) : termios :=
  Termios (Z.ldiff t.(c_iflag) ICRNL) t.(c_oflag) t.(c_cflag)
    (Z.ldiff t.(c_lflag) (ICANON .| ECHO) .| ISIG) 1 0 t.(c_rest).
Definition raw (t : termios) : termios :=
  Termios
    (Z.ldiff t.(c_iflag)
       (BRKINT .| ICRNL .| IGNBRK .| IGNCR .| INLCR .| INPCK .| ISTRIP .| IXON .| PARMRK))
    (Z.ldiff t.(c_oflag) OPOST) t.(c_cflag)
    (Z.ldiff t.(c_lflag) (ICANON .| ISIG .| IEXTEN .| ECHO)) 1 0 t.(c_rest).

Definition tty_set (mode : termios → termios) (fd : Z) (prev : bool) : P (Z * option termios) :=
  r ← tcgetattr fd;
  match r with
  | inl _ => mret (-1, None)
  | inr t =>
      let prevTermios := if prev then Some t else None in
      r ← tcsetattr fd (mode t);
      match r with inl _ => mret (-1, prevTermios) | inr _ => mret (0, prevTermios) end
  end.

Definition ttySetCbreak : Z → bool → P (Z * option termios) := tty_set cbreak.
Definition ttySetRaw : Z → bool → P (Z * option termios) := tty_set raw.

(** ** [pty_master_open.c] *)

(** The name of the slave side. *)
Definition pts_name (n : Z) : string := "/dev/pts/" +:+ fmt_d n.

Definition posix_openpt : P (Z + Z) := call "posix_openpt" (fallible (λ k,
  let n := k.(next_pty) in
  install (Ptm n) (set_machine k.(next_pid) (n + 1) k.(results) k.(forks) k))).

(** A call on a master. *)
Definition on_master {A} (fd : Z) (f : Z → kern → (Z + A) * kern) : kern → (Z + A) * kern :=
  on_file fd (λ x k, match x with Ptm n => f n k | _ => (inl ENOTTY, k) end).
Definition grantpt (fd : Z) : P (Z + unit) :=
  call "grantpt" (fallible (on_master fd (λ _ k, (inr tt, k)))).
Definition unlockpt (fd : Z) : P (Z + unit) := call "unlockpt" (fallible (on_master fd (λ n k,
  (inr tt, set_terminal k.(attrs) k.(sizes) ({[ n ]} ∪ k.(unlocked)) k)))).
Definition ptsname (fd : Z) : P (Z + string) :=
  call "ptsname" (fallible (on_master fd (λ n k, (inr (pts_name n), k)))).

(** [savedErrno = errno; close(fd); errno = savedErrno; return -1;] *)
Definition close_fail (fd : Z) : P (Z * string) :=
  savedErrno ← get_errno; close fd;; put_errno savedErrno;; mret (-1, "").

(** The descriptor, and what is left in the buffer of [snLen] bytes. *)
Definition ptyMasterOpen (snLen : Z) : P (Z * string) :=
  m ← posix_openpt;
  match m with
  | inl _ => mret (-1, "")
  | inr masterFd =>
      g ← grantpt masterFd;
      match g with inl _ => close_fail masterFd | inr _ =>
      u ← unlockpt masterFd;
      match u with inl _ => close_fail masterFd | inr _ =>
      p ← ptsname masterFd;
      match p with inl _ => close_fail masterFd | inr p =>
        if Z.of_nat (String.length p) <? snLen then mret (masterFd, strncpy p (Z.to_nat snLen))
        else close masterFd;; put_errno EOVERFLOW;; mret (-1, "")
      end end end
  end.

(** ** [pty_fork.c] *)

Definition MAX_SNAME : Z := 1000.

(** [open(slname, O_RDWR)].  Opening a terminal gives it to the leader of a session
    that has none. *)
Definition open_slave (name : string) : P (Z + Z) := call "open" (fallible (λ k,
  match list_find (λ n, pts_name n = name) (seqZ 0 k.(next_pty)) with
  | None => (inl ENOENT, k)
  | Some (_, n) =>
      if bool_decide (n ∈ k.(unlocked)) then
        install (Pts n)
          (if (k.(sid) =? k.(pid)) && bool_decide (k.(ctty) = None)
           then set_session k.(pid) k.(pgid) k.(sid) (Some (Pts n)) k else k)
      else (inl EIO, k)
  end)).

Definition or_die (r : P (Z + unit)) (msg : string) : P unit :=
  x ← r; match x with inl _ => p__systmerr msg | inr _ => skip end.
Definition dup2_or_die (old new : Z) (msg : string) : P unit :=
  x ← dup2 old new; if negb (value x =? new) then p__systmerr msg else skip.

(** The child, up to its return. *)
Definition ptyFork_child (mfd : Z) (slname : string) (slaveTermios : option termios)
    (slaveWS : option winsize) : P unit :=
  s ← setsid;
  (if value s =? -1 then p__systmerr "ptyFork:setsid" else skip);;
  close mfd;;
  o ← open_slave slname;
  match o with
  | inl _ => p__systmerr "ptyFork:open-slave"
  | inr slaveFd =>
      or_die (set_ctty slaveFd) "ptyFork:ioctl-TIOCSCTTY";;
      match slaveTermios with
      | Some t => or_die (tcsetattr slaveFd t) "ptyFork:tcsetattr" | None => skip end;;
      match slaveWS with
      | Some z => or_die (set_winsize slaveFd z) "ptyFork:ioctl-TIOCSWINSZ" | None => skip end;;
      dup2_or_die slaveFd 0 "ptyFork:dup2-STDIN_FILENO";;
      dup2_or_die slaveFd 1 "ptyFork:dup2-STDOUT_FILENO";;
      dup2_or_die slaveFd 2 "ptyFork:dup2-STDERR_FILENO";;
      when (2 <? slaveFd) (close slaveFd;; skip)
  end.

(** [slaveName]: the size of the caller's buffer, if there is one.  The result is
    what is returned, the master's descriptor in the parent, and the name. *)
Definition ptyFork (slaveName : option Z) (slaveTermios : option termios) (slaveWS : option winsize) :
    P (Z * option Z * option string) :=
  r ← ptyMasterOpen MAX_SNAME;
  let '(mfd, slname) := r in
  if mfd =? -1 then mret (-1, None, None) else
  let small := match slaveName with
    | Some snLen => negb (Z.of_nat (String.length slname) <? snLen) | None => false end in
  let name := (λ snLen, strncpy slname (Z.to_nat snLen)) <$> slaveName in
  if small then close mfd;; put_errno EOVERFLOW;; mret (-1, None, None) else
  c ← fork;
  match c with
  | inl _ =>
      savedErrno ← get_errno; close mfd;; put_errno savedErrno;; mret (-1, None, name)
  | inr childPid =>
      if negb (childPid =? 0) then mret (childPid, Some mfd, name)
      else ptyFork_child mfd slname slaveTermios slaveWS;; mret (0, None, name)
  end.

(** ** The settings *)

(** A call on an open terminal, where nothing fails. *)
Lemma tcgetattr_run fd f s :
  s.(world).(results) = [] → s.(world).(fds) !! fd = Some f → terminal f = true →
  tcgetattr fd s = (Ok (inr (s.(world).(attrs) f)), called "tcgetattr" s.(world) s).
Proof.
  intros Hr Hf Ht. apply call_runs. rewrite fallible_ok by done. unfold on_file. by rewrite Hf, Ht.
Qed.

Definition with_attrs (f : file) (t : termios) (k : kern) : kern :=
  set_terminal (λ g, if decide (g = f) then t else k.(attrs) g) k.(sizes) k.(unlocked) k.

Lemma tcsetattr_run fd f t s :
  s.(world).(results) = [] → s.(world).(fds) !! fd = Some f → terminal f = true →
  tcsetattr fd t s = (Ok (inr tt), called "tcsetattr" (with_attrs f t s.(world)) s).
Proof.
  intros Hr Hf Ht. apply call_runs. rewrite fallible_ok by done. unfold on_file. by rewrite Hf, Ht.
Qed.

Lemma tty_set_run mode fd f prev s :
  s.(world).(results) = [] → s.(world).(fds) !! fd = Some f → terminal f = true →
  ∃ s', tty_set mode fd prev s = (Ok (0, if prev then Some (s.(world).(attrs) f) else None), s') ∧
    s'.(world) = with_attrs f (mode (s.(world).(attrs) f)) s.(world).
Proof.
  intros Hr Hf Ht. unfold tty_set.
  rewrite (run_bind _ _ _ _ _ (tcgetattr_run fd f s Hr Hf Ht)).
  erewrite run_bind by (by apply tcsetattr_run). by eexists.
Qed.

(** The bits of a mask. *)
Lemma mask_bits m n l :
  0 <= m < 2 ^ n → 0 <= n →
  forallb (λ b, Bool.eqb (Z.testbit m b) (bool_decide (b ∈ l))) (seqZ 0 n) = true →
  forallb (λ b, (0 <=? b) && (b <? n)) l = true →
  ∀ b, Z.testbit m b = bool_decide (b ∈ l).
Proof.
  intros Hm Hn Hall Hl b. rewrite !forallb_forall in *.
  destruct (decide (0 <= b < n)) as [Hb|Hb].
  - apply Bool.eqb_prop, Hall, list_elem_of_In, elem_of_seqZ. lia.
  - rewrite bool_decide_eq_false_2; [|intros Hin; specialize (Hl b (proj1 (list_elem_of_In _ _) Hin)); lia].
    destruct (decide (b < 0)); [by apply Z.testbit_neg_r|].
    destruct (decide (m = 0)) as [->|]; [apply Z.bits_0|].
    apply Z.bits_above_log2; [lia|]. apply Z.log2_lt_pow2; [lia|].
    eapply Z.lt_le_trans; [apply Hm|]. apply Z.pow_le_mono_r; lia.
Qed.

(** The bits of a flag word that a mode turns off. *)
Lemma ldiff_bit x m b : Z.testbit (Z.ldiff x m) b = Z.testbit x b && negb (Z.testbit m b).
Proof. apply Z.ldiff_spec. Qed.

(** [ttySetRaw] gives the settings it found and turns off canonical mode,
    signals, extended processing, echo and every input and output conversion,
    with reads of one byte, and changes no other bit; setting what it gave back
    restores the terminal. *)
Theorem ttySetRaw_spec fd f s :
  s.(world).(results) = [] → s.(world).(fds) !! fd = Some f → terminal f = true →
  let old := s.(world).(attrs) f in
  ∃ s', ttySetRaw fd true s = (Ok (0, Some old), s') ∧
    (let new := s'.(world).(attrs) f in
     (∀ b, Z.testbit new.(c_lflag) b = Z.testbit old.(c_lflag) b && negb (bool_decide (b ∈ [0; 1; 3; 15]))) ∧
     (∀ b, Z.testbit new.(c_iflag) b =
        Z.testbit old.(c_iflag) b && negb (bool_decide (b ∈ [0; 1; 3; 4; 5; 6; 7; 8; 10]))) ∧
     (∀ b, Z.testbit new.(c_oflag) b = Z.testbit old.(c_oflag) b && negb (bool_decide (b ∈ [0]))) ∧
     new.(c_cflag) = old.(c_cflag) ∧ new.(c_rest) = old.(c_rest) ∧
     new.(c_vmin) = 1 ∧ new.(c_vtime) = 0) ∧
    (∀ g, g ≠ f → s'.(world).(attrs) g = s.(world).(attrs) g) ∧
    ∃ s'', tcsetattr fd old s' = (Ok (inr tt), s'') ∧
      ∀ g, s''.(world).(attrs) g = s.(world).(attrs) g.
Proof.
  intros Hr Hf Ht old. destruct (tty_set_run raw fd f true s Hr Hf Ht) as (s' & E & W).
  exists s'. split; [exact E|]. rewrite W. cbn [attrs with_attrs set_terminal]. fold old.
  rewrite decide_True by done. split; [|split].
  - unfold raw. cbn [c_lflag c_iflag c_oflag c_cflag c_rest c_vmin c_vtime].
    split_and!; try done; intros b; rewrite ldiff_bit; f_equal; f_equal.
    all: by apply (mask_bits _ 16).
  - intros g Hg. by rewrite decide_False.
  - eexists. split; [apply tcsetattr_run; [by rewrite W|by rewrite W|done]|]. cbn. intros g.
    destruct (decide (g = f)) as [->|]; [done|]. rewrite W. cbn. by rewrite decide_False.
Qed.

(** ** Opening a master *)

(** Calls that leave the descriptors alone. *)
Definition keeps {A} (m : P (Z + A)) : Prop := ∀ s, ∃ r s',
  m s = (Ok r, s') ∧ s'.(world).(fds) = s.(world).(fds) ∧ s'.(world).(forks) = s.(world).(forks) ∧
  match r with inl e => errno s'.(pr) = e | inr _ => True end.

Lemma keeps_master {A} c fd (h : Z → kern → (Z + A) * kern) :
  (∀ n k, (h n k).2.(fds) = k.(fds) ∧ (h n k).2.(forks) = k.(forks)) →
  keeps (call c (fallible (on_master fd h))).
Proof.
  intros Hh s. destruct (call_cases c (fallible (on_master fd h)) s) as (s' & E & W & Hp).
  do 2 eexists. split; [exact E|]. rewrite W.
  assert (H : (fallible (on_master fd h) (world s)).2.(fds) = (world s).(fds) ∧
    (fallible (on_master fd h) (world s)).2.(forks) = (world s).(forks)).
  { destruct (fallible_cases (on_master fd h) (world s)) as [(e & _ & _ & ->)|[_ ->]]; [done|].
    unfold on_master, on_file. destruct (fds (popped (world s)) !! fd) as [[|n|n|n]|]; try done.
    by destruct (Hh n (popped (world s))). }
  destruct H as [-> ->]. split_and!; try done. by destruct (fallible _ _).1.
Qed.

(** A master that was opened is closed when something else fails, and the error
    is that of what failed. *)
Lemma close_fail_run fd f m s :
  s.(world).(fds) = <[fd := f]> m → m !! fd = None →
  ∃ s', close_fail fd s = (Ok (-1, ""), s') ∧ s'.(world).(fds) = m ∧
    errno s'.(pr) = errno s.(pr) ∧ s'.(world).(forks) = s.(world).(forks).
Proof.
  intros Hm Hn. unfold close_fail, get_errno, gets.
  destruct (close_world fd s) as (r & s1 & E & W). unfold mbind, M_bind. rewrite E. simpl.
  eexists. split; [done|]. rewrite W. simpl. split_and!; [|done|done].
  rewrite Hm. by rewrite delete_insert_id.
Qed.

(** What [ptyMasterOpen] leaves: a new master and no error, or nothing. *)
Definition opened (s s' : pst unit string kern) (r : Z * string) : Prop :=
  s'.(world).(forks) = s.(world).(forks) ∧
  ((r.1 = -1 ∧ s'.(world).(fds) = s.(world).(fds)) ∨
   ∃ n, r.1 = lowest_fd s.(world).(fds) ∧
     s'.(world).(fds) = <[r.1 := Ptm n]> s.(world).(fds)).

Lemma ptyMasterOpen_opened snLen s :
  ∃ r s', ptyMasterOpen snLen s = (Ok r, s') ∧ opened s s' r.
Proof.
  unfold ptyMasterOpen, opened.
  set (fd := lowest_fd (fds (world s))).
  destruct (lowest_fd_spec (fds (world s))) as (_ & Hfree & _). fold fd in Hfree.
  assert (Hopen : ∃ r s1, posix_openpt s = (Ok r, s1) ∧ forks (world s1) = forks (world s) ∧
    ((∃ e, r = inl e ∧ fds (world s1) = fds (world s)) ∨
     (r = inr fd ∧ ∃ n, fds (world s1) = <[fd := Ptm n]> (fds (world s))))).
  { unfold posix_openpt. match goal with |- context [call ?c ?f] =>
      destruct (call_cases c f s) as (s1 & E & W & _) end.
    do 2 eexists. split; [exact E|]. rewrite W.
    match goal with |- context [fallible ?f ?k] =>
      destruct (fallible_cases f k) as [(e & _ & _ & ->)|[_ ->]] end; simpl; (split; [done|]).
    - left. by exists e.
    - right. split; [done|]. by eexists. }
  destruct Hopen as (r & s1 & E1 & F1 & Hr). rewrite (run_bind _ _ _ _ _ E1).
  destruct Hr as [(e & -> & D1)|(-> & n & D1)].
  { do 2 eexists. split; [done|]. split; [done|]. by left. }
  assert (Hfail : ∀ s2, fds (world s2) = fds (world s1) → forks (world s2) = forks (world s1) →
    ∃ r s', close_fail fd s2 = (Ok r, s') ∧ forks (world s') = forks (world s) ∧
      (r.1 = -1 ∧ fds (world s') = fds (world s) ∨
       ∃ n, r.1 = fd ∧ fds (world s') = <[r.1:=Ptm n]> (fds (world s)))).
  { intros s2 D2 F2. destruct (close_fail_run fd (Ptm n) (fds (world s)) s2) as (s' & E & D & _ & F);
      [by rewrite D2|done|].
    do 2 eexists. split; [exact E|]. split; [congruence|]. by left. }
  assert (Kg : keeps (grantpt fd)) by by apply keeps_master.
  assert (Ku : keeps (unlockpt fd)) by by apply keeps_master.
  assert (Kp : keeps (ptsname fd)) by by apply keeps_master.
  destruct (Kg s1) as (rg & s2 & E2 & D2 & F2 & _). rewrite (run_bind _ _ _ _ _ E2).
  destruct rg; [apply Hfail; congruence|].
  destruct (Ku s2) as (ru & s3 & E3 & D3 & F3 & _). rewrite (run_bind _ _ _ _ _ E3).
  destruct ru; [apply Hfail; congruence|].
  destruct (Kp s3) as (rp & s4 & E4 & D4 & F4 & _). rewrite (run_bind _ _ _ _ _ E4).
  destruct rp as [|p]; [apply Hfail; congruence|].
  destruct (_ <? snLen).
  - do 2 eexists. split; [done|]. split; [congruence|]. right. exists n. split; [done|]. simpl. congruence.
  - destruct (close_world fd s4) as (r & s5 & E5 & W5). rewrite (run_bind _ _ _ _ _ E5).
    do 2 eexists. split; [done|]. simpl. rewrite W5. simpl. split; [congruence|]. left.
    split; [done|]. by rewrite D4, D3, D2, D1, delete_insert_id.
Qed.

(** The kernel once a master is open. *)
Definition master_open (k : kern) : kern :=
  set_terminal k.(attrs) k.(sizes) ({[ k.(next_pty) ]} ∪ k.(unlocked))
    (set_fds (<[lowest_fd k.(fds) := Ptm k.(next_pty)]> k.(fds))
       (set_machine k.(next_pid) (k.(next_pty) + 1) k.(results) k.(forks) k)).

Definition ptys_int (k : kern) : Prop := 0 <= k.(next_pty) <= LONG_MAX.

Lemma pts_name_length n : 0 <= n <= LONG_MAX → (String.length (pts_name n) <= 29)%nat.
Proof.
  intros Hn. unfold pts_name. rewrite length_append.
  pose proof (fmt_d_length n ltac:(unfold LONG_MIN; lia)). simpl. lia.
Qed.

Lemma ptyMasterOpen_run snLen s :
  s.(world).(results) = [] → ptys_int s.(world) → 30 <= snLen →
  ∃ s', ptyMasterOpen snLen s =
      (Ok (lowest_fd s.(world).(fds), pts_name s.(world).(next_pty)), s') ∧
    s'.(world) = master_open s.(world).
Proof.
  intros Hr Hn Hs. unfold ptyMasterOpen.
  set (n := next_pty (world s)). set (fd := lowest_fd (fds (world s))).
  assert (Hm : ∀ A (c : string) (h : Z → kern → (Z + A) * kern) s1,
    results (world s1) = [] → fds (world s1) !! fd = Some (Ptm n) → ∀ a k,
    h n (world s1) = (inr a, k) → call c (fallible (on_master fd h)) s1 = (Ok (inr a), called c k s1)).
  { intros A c h s1 R1 D1 a k Hh. apply call_runs. rewrite fallible_ok by done.
    unfold on_master, on_file. by rewrite D1. }
  set (k1 := set_fds (<[fd := Ptm n]> (fds (world s)))
    (set_machine (next_pid (world s)) (n + 1) (results (world s)) (forks (world s)) (world s))).
  rewrite (run_bind _ _ _ (inr fd) (called "posix_openpt" k1 s))
    by (apply call_runs; by rewrite fallible_ok).
  do 3 (cbn iota; erewrite run_bind by (apply Hm; [done|apply lookup_insert_eq|reflexivity])).
  cbn iota.
  pose proof (pts_name_length n Hn) as Hl.
  rewrite (proj2 (Z.ltb_lt (Z.of_nat (String.length (pts_name n))) snLen)) by lia.
  eexists. split; [unfold strncpy; rewrite take_str_ge by lia; done|]. by destruct s as [? ? ? []].
Qed.

(** Whatever fails, and whatever the table held, [ptyFork] returns in the parent
    either -1 with the same descriptors open as before, or the child's number
    with exactly one more, the master, which is the lowest that was free. *)
Theorem ptyFork_parent slaveName slaveTermios slaveWS f fs s :
  s.(world).(forks) = f :: fs → f ≠ 0 →
  ∃ r s', ptyFork slaveName slaveTermios slaveWS s = (Ok r, s') ∧
    ((r.1.1 = -1 ∧ r.1.2 = None ∧ s'.(world).(fds) = s.(world).(fds)) ∨
     (0 < f ∧ r.1.1 = f ∧ ∃ n, r.1.2 = Some (lowest_fd s.(world).(fds)) ∧
        s'.(world).(fds) = <[lowest_fd s.(world).(fds) := Ptm n]> s.(world).(fds))).
Proof.
  intros Hf Hf0. unfold ptyFork. destruct (lowest_fd_spec (fds (world s))) as (Hp & Hfree & _).
  destruct (ptyMasterOpen_opened MAX_SNAME s) as ([mfd slname] & s1 & E1 & F1 & H1).
  rewrite (run_bind _ _ _ _ _ E1). simpl in H1.
  destruct H1 as [[-> D1]|(n & -> & D1)]; [do 2 eexists; split; [done|]; by left|].
  rewrite (proj2 (Z.eqb_neq _ (-1))) by lia.
  set (mfd := lowest_fd (fds (world s))) in *.
  assert (Hclosed : ∀ s2 : pst unit string kern, fds (world s2) = fds (world s1) → delete mfd (fds (world s2)) = fds (world s)).
  { intros s2 ->. by rewrite D1, delete_insert_id. }
  destruct (match slaveName with Some snLen => _ | None => false end).
  { destruct (close_world mfd s1) as (r & s2 & E2 & W2). rewrite (run_bind _ _ _ _ _ E2).
    do 2 eexists. split; [done|]. left. split_and!; [done..|]. simpl. rewrite W2. by apply Hclosed. }
  unfold fork. match goal with |- context [call "fork" ?h] =>
    destruct (call_cases "fork" h s1) as (s2 & E2 & W2 & _) end.
  rewrite F1, Hf in E2, W2. rewrite (run_bind _ _ _ _ _ E2).
  destruct (Z.ltb_spec f 0) as [Hneg|Hpos]; simpl.
  - unfold get_errno, gets. destruct (close_world mfd s2) as (r & s3 & E3 & W3).
    unfold mbind, M_bind. simpl. rewrite E3. do 2 eexists. split; [done|]. left. split_and!; [done..|].
    simpl. rewrite W3. apply Hclosed. by rewrite W2.
  - rewrite (proj2 (Z.eqb_neq f 0) Hf0) in *. simpl.
    rewrite (proj2 (Z.eqb_neq f 0) Hf0). do 2 eexists. split; [done|]. right.
    split_and!; [lia|done|]. exists n. split; [done|]. by rewrite W2.
Qed.

(** *** The child *)

Lemma find_pts n m :
  0 <= n < m → ∃ i, list_find (λ x, pts_name x = pts_name n) (seqZ 0 m) = Some (i, n).
Proof.
  intros Hn. exists (Z.to_nat n). apply list_find_Some. split_and!.
  - apply lookup_seqZ. lia.
  - done.
  - intros j y Hj Hlt E. apply lookup_seqZ in Hj as [-> Hj].
    apply append_inj_l, fmt_d_inj in E. lia.
Qed.

Definition std_fds (f : file) (m : gmap Z file) : gmap Z file :=
  <[2 := f]> (<[1 := f]> (<[0 := f]> m)).

(** The slave's own descriptor goes unless it is one of the three. *)
Lemma std_fds_close fd f m :
  m !! fd = None → 0 <= fd →
  (if 2 <? fd then delete fd (std_fds f (<[fd := f]> m)) else std_fds f (<[fd := f]> m)) = std_fds f m.
Proof.
  intros Hm Hfd. unfold std_fds. apply map_eq. intros x. destruct (Z.ltb_spec 2 fd).
  - destruct (decide (x = fd)) as [->|].
    + by rewrite lookup_delete_eq, !lookup_insert_ne by lia.
    + rewrite lookup_delete_ne by done. rewrite !lookup_insert.
      repeat (case_decide; [done|]). congruence.
  - rewrite !lookup_insert. repeat (case_decide; [first [done|lia]|]). done.
Qed.

Lemma dup2_run old new f msg s :
  s.(world).(results) = [] → s.(world).(fds) !! old = Some f →
  ∃ s', dup2_or_die old new msg s = (Ok tt, s') ∧
    s'.(world) = set_fds (<[new := f]> s.(world).(fds)) s.(world).
Proof.
  intros Hr Hf. unfold dup2_or_die.
  rewrite (run_bind _ _ _ (inr new) (called "dup2" (set_fds (<[new := f]> s.(world).(fds)) s.(world)) s)).
  - simpl. rewrite Z.eqb_refl. by eexists.
  - apply call_runs. rewrite fallible_ok by done. by rewrite Hf.
Qed.

Lemma or_die_run (r : P (Z + unit)) msg s k c :
  r s = (Ok (inr tt), called c k s) → ∃ s', or_die r msg s = (Ok tt, s') ∧ s'.(world) = k.
Proof. intros E. unfold or_die. rewrite (run_bind _ _ _ _ _ E). by eexists. Qed.

(** The terminal as the caller asked for it. *)
Definition slave_set (f : file) (t : option termios) (z : option winsize) (k : kern) : kern :=
  set_terminal
    (match t with Some t => λ g, if decide (g = f) then t else k.(attrs) g | None => k.(attrs) end)
    (match z with Some z => λ g, if decide (g = f) then z else k.(sizes) g | None => k.(sizes) end)
    k.(unlocked) k.

Lemma slave_settings fd f t z s :
  s.(world).(results) = [] → s.(world).(fds) !! fd = Some f → terminal f = true →
  ∃ s', s'.(world) = slave_set f t z s.(world) ∧ ∀ rest : P unit,
    (match t with
     | Some t => or_die (tcsetattr fd t) "ptyFork:tcsetattr" | None => skip end;;
     match z with
     | Some z => or_die (set_winsize fd z) "ptyFork:ioctl-TIOCSWINSZ" | None => skip end;; rest) s =
    rest s'.
Proof.
  intros Hr Hf Ht.
  assert (H1 : ∃ s1, match t with
      | Some t => or_die (tcsetattr fd t) "ptyFork:tcsetattr" | None => skip end s = (Ok tt, s1) ∧
    s1.(world) = slave_set f t None s.(world)).
  { destruct t as [t|]; [|by exists s; destruct s as [? ? ? []]].
    destruct (or_die_run (tcsetattr fd t) "ptyFork:tcsetattr" s _ _ (tcsetattr_run fd f t s Hr Hf Ht))
      as (s1 & E & W). by exists s1. }
  destruct H1 as (s1 & E1 & W1).
  destruct z as [z|]; [|exists s1; split; [done|]; intros; by rewrite (run_bind _ _ _ _ _ E1)].
  destruct (or_die_run (set_winsize fd z) "ptyFork:ioctl-TIOCSWINSZ" s1 (slave_set f t (Some z) (world s)) "ioctl")
    as (s2 & E2 & W2).
  - apply call_runs. rewrite fallible_ok by by rewrite W1. unfold on_file. rewrite W1. simpl. by rewrite Hf, Ht.
  - exists s2. split; [done|]. intros. by rewrite (run_bind _ _ _ _ _ E1), (run_bind _ _ _ _ _ E2).
Qed.

Lemma ptyFork_child_run n m t z s :
  s.(world).(results) = [] → 0 <= n < s.(world).(next_pty) → n ∈ s.(world).(unlocked) →
  s.(world).(fds) = <[lowest_fd m := Ptm n]> m → 0 <= s.(world).(pid) → s.(world).(pgid) ≠ s.(world).(pid) →
  ∃ s', ptyFork_child (lowest_fd m) (pts_name n) t z s = (Ok tt, s') ∧
    let k := s.(world) in
    s'.(world) = set_fds (std_fds (Pts n) m)
      (slave_set (Pts n) t z (set_session k.(pid) k.(pid) k.(pid) (Some (Pts n)) k)).
Proof.
  intros Hr Hn Hu Hf Hpid Hpg. destruct (lowest_fd_spec m) as (Hp & Hfree & _). set (fd := lowest_fd m) in *.
  unfold ptyFork_child. set (k := world s) in *.
  rewrite (run_bind _ _ _ (inr (pid k)) (called "setsid" (set_session (pid k) (pid k) (pid k) None k) s))
    by (apply call_runs; fold k; by rewrite (proj2 (Z.eqb_neq _ _) Hpg)).
  cbn [value]. rewrite (proj2 (Z.eqb_neq (pid k) (-1))) by lia. set (s1 := called _ _ _).
  rewrite (run_bind _ _ _ tt s1) by done.
  destruct (close_world fd s1) as (r & s2 & E2 & W2). rewrite (run_bind _ _ _ _ _ E2).
  cbn [world s1 called set_session fds] in W2. rewrite Hf, delete_insert_id in W2 by done.
  set (k3 := set_fds (<[fd := Pts n]> m) (set_session (pid k) (pid k) (pid k) (Some (Pts n)) k)).
  rewrite (run_bind _ _ _ (inr fd) (called "open" k3 s2)).
  2:{ apply call_runs. rewrite fallible_ok by by rewrite W2. rewrite W2. cbn [set_fds set_session next_pty unlocked].
      destruct (find_pts n (next_pty k) Hn) as [j ->]. rewrite bool_decide_eq_true_2 by done.
      cbn [sid pid ctty]. rewrite Z.eqb_refl, bool_decide_eq_true_2 by done. done. }
  cbn iota. set (s3 := called _ _ s2).
  assert (Hfd3 : fds (world s3) !! fd = Some (Pts n)) by apply lookup_insert_eq.
  destruct (or_die_run (set_ctty fd) "ptyFork:ioctl-TIOCSCTTY" s3 k3 "ioctl") as (s4 & E4 & W4).
  { apply call_runs. rewrite fallible_ok by done. unfold on_file. rewrite Hfd3. simpl.
    by rewrite bool_decide_eq_true_2. }
  rewrite (run_bind _ _ _ _ _ E4).
  destruct (slave_settings fd (Pts n) t z s4) as (s5 & W5 & ->); [by rewrite W4|by rewrite W4|done|].
  rewrite W4 in W5. cbn [world s3 called] in W5.
  assert (R5 : results (world s5) = []) by by rewrite W5.
  assert (D5 : fds (world s5) = <[fd := Pts n]> m) by by rewrite W5.
  destruct (dup2_run fd 0 (Pts n) "ptyFork:dup2-STDIN_FILENO" s5) as (s6 & E6 & W6);
    [done|rewrite D5; apply lookup_insert_eq|]. rewrite (run_bind _ _ _ _ _ E6).
  assert (H6 : fds (world s6) !! fd = Some (Pts n)).
  { rewrite W6. simpl. rewrite D5, !lookup_insert. by repeat case_decide. }
  destruct (dup2_run fd 1 (Pts n) "ptyFork:dup2-STDOUT_FILENO" s6) as (s7 & E7 & W7);
    [by rewrite W6|done|]. rewrite (run_bind _ _ _ _ _ E7).
  assert (H7 : fds (world s7) !! fd = Some (Pts n)).
  { rewrite W7. simpl. rewrite lookup_insert. by case_decide. }
  destruct (dup2_run fd 2 (Pts n) "ptyFork:dup2-STDERR_FILENO" s7) as (s8 & E8 & W8);
    [by rewrite W7, W6|done|]. rewrite (run_bind _ _ _ _ _ E8).
  assert (D8 : world s8 = set_fds (std_fds (Pts n) (<[fd := Pts n]> m)) (world s5)).
  { by rewrite W8, W7, W6, D5. }
  pose proof (std_fds_close fd (Pts n) m Hfree Hp) as Hc.
  destruct (2 <? fd); cbn [when].
  - destruct (close_world fd s8) as (r' & s9 & E9 & W9). rewrite (run_bind _ _ _ _ _ E9).
    eexists. split; [done|]. rewrite W9, D8. cbn [set_fds fds]. rewrite Hc, W5. done.
  - exists s8. split; [done|]. rewrite D8, Hc, W5. done.
Qed.

(** C20: where nothing fails, the child of [ptyFork] has the slave as its standard
    input, output and error, all other descriptors as the caller had them and no
    others, leads a new session whose controlling terminal is the slave, and the
    slave has the attributes and the size that were asked for. *)
Theorem ptyFork_child_spec slaveName t z fs s :
  s.(world).(results) = [] → s.(world).(forks) = 0 :: fs → ptys_int s.(world) →
  0 <= s.(world).(pgid) < s.(world).(next_pid) →
  (∀ snLen, slaveName = Some snLen → 30 <= snLen) →
  let k := s.(world) in let slave := Pts k.(next_pty) in
  ∃ s', ptyFork slaveName t z s =
      (Ok (0, None, (λ _, pts_name k.(next_pty)) <$> slaveName), s') ∧
    s'.(world).(fds) = std_fds slave k.(fds) ∧
    s'.(world).(pid) = k.(next_pid) ∧ s'.(world).(sid) = k.(next_pid) ∧
    s'.(world).(ctty) = Some slave ∧
    (∀ v, t = Some v → s'.(world).(attrs) slave = v) ∧
    (∀ v, z = Some v → s'.(world).(sizes) slave = v).
Proof.
  intros Hr Hf Hpt Hpg Hlen k slave. unfold ptyFork.
  pose proof (pts_name_length _ Hpt) as Hpl.
  destruct (ptyMasterOpen_run MAX_SNAME s Hr Hpt) as (s1 & E1 & W1); [done|]. fold k in E1, W1, Hpl.
  rewrite (run_bind _ _ _ _ _ E1). cbn iota beta.
  destruct (lowest_fd_spec (fds k)) as (Hp & _).
  rewrite (proj2 (Z.eqb_neq _ (-1))) by lia.
  replace (match slaveName with Some snLen => _ | None => false end) with false.
  2:{ destruct slaveName as [snLen|]; [|done]. specialize (Hlen snLen eq_refl). symmetry.
      apply negb_false_iff, Z.ltb_lt. lia. }
  set (k2 := set_session (next_pid k) (pgid k) (sid k) (ctty k)
    (set_machine (next_pid k + 1) (next_pty k + 1) [] fs (master_open k))).
  rewrite (run_bind _ _ _ (inr 0) (called "fork" k2 s1)).
  2:{ apply call_runs. rewrite W1. unfold master_open at 1. cbn [forks set_terminal set_fds set_machine].
      unfold k. rewrite Hf. cbn. unfold k2, k, master_open. cbn. by rewrite Hr. }
  cbn [negb Z.eqb]. set (s2 := called _ _ _).
  destruct (ptyFork_child_run (next_pty k) (fds k) t z s2) as (s3 & E3 & W3);
    [done| |cbn; set_solver|done| | |].
  - unfold ptys_int in Hpt. fold k in Hpt. cbn. lia.
  - fold k in Hpg. cbn. lia.
  - fold k in Hpg. cbn. lia.
  - rewrite (run_bind _ _ _ _ _ E3). eexists. split.
    { match goal with |- mret (_, _, ?nm) _ = _ =>
        replace nm with ((λ _, pts_name (next_pty k)) <$> slaveName) end; [done|].
      destruct slaveName as [snLen|]; [|done]. simpl. f_equal. symmetry.
      specialize (Hlen snLen eq_refl). apply take_str_ge. lia. }
    rewrite W3. split_and!; try done.
    + intros v ->. cbn. by rewrite decide_True.
    + intros v ->. cbn. by rewrite decide_True.
Qed.
End pty.

(** A shell's process on terminal 1. *)
Definition tty_kern (fs rs : list Z) : kern :=
  Kern {[ 0 := Pts 1; 1 := Pts 1; 2 := Pts 1; 7 := Other 6 ]} 40 40 40 (Some (Pts 1)) 18 "/home"
    (λ _, Termios 0x500 5 191 0x8a3b 4 1 0) (λ _, Winsize 24 80) ∅ 1024 41 8 rs fs.
Definition tty_state (fs rs : list Z) : pst unit string kern :=
  Pst (Proc 0 [] "" "" []) tt [] (tty_kern fs rs).

Lemma ttySetRaw_spec_witness :
  let L := {| strerror := λ _, ""; io_errno := id |} in
  ∃ s', ttySetRaw 0 true (tty_state [] []) = (Ok (0, Some (Termios 0x500 5 191 0x8a3b 4 1 0)), s') ∧
    Z.testbit (c_lflag (s'.(world).(attrs) (Pts 1))) 1 = false.
Proof.
  intros L. destruct (ttySetRaw_spec 0 (Pts 1) (tty_state [] [])) as (s' & E & (H & _) & _); [done..|].
  exists s'. split; [exact E|]. by rewrite H.
Defined.

Lemma ptyFork_parent_witness :
  let L := {| strerror := λ _, ""; io_errno := id |} in
  ∃ r s', ptyFork None None None (tty_state [99] [0; 13]) = (Ok r, s') ∧
    (r.1.1 = -1 ∧ s'.(world).(fds) = fds (tty_kern [] []) ∨ r.1.1 = 99).
Proof.
  intros L. destruct (ptyFork_parent None None None 99 [] (tty_state [99] [0; 13]))
    as (r & s' & E & H); [done..|]. exists r, s'. split; [exact E|].
  destruct H as [(H1 & _ & H2)|(_ & H & _)]; [by left|by right].
Defined.

Lemma ptyFork_child_spec_witness :
  let L := {| strerror := λ _, ""; io_errno := id |} in
  ∃ s', ptyFork (Some 1000) None (Some (Winsize 50 132)) (tty_state [0] []) =
      (Ok (0, None, Some "/dev/pts/8"), s') ∧
    s'.(world).(sid) = 41 ∧ s'.(world).(sizes) (Pts 8) = Winsize 50 132.
Proof.
  intros L. destruct (ptyFork_child_spec (Some 1000) None (Some (Winsize 50 132)) [] (tty_state [0] []))
    as (s' & E & _ & _ & H1 & _ & _ & H2); [done|done|by split; vm_compute|by split; vm_compute| |].
  { intros ? [= <-]. lia. }
  exists s'. split; [exact E|]. split; [exact H1|]. by apply H2.
Defined.
