(* ===== verification/Scm.v ===== *)
(** Passing descriptors over a UNIX domain socket: [sockets/scm_functions.c],
    [scm_multi_send.c] and [scm_multi_recv.c].

    Control messages are bytes in a buffer, laid out and walked with the macros
    of [<sys/socket.h>] on a 64-bit machine.  The kernel reads the sender's
    buffer, keeps the open files the descriptors refer to with the data, and
    writes the messages of a packet, with new descriptors, into as much of the
    receiver's buffer as it was given. *)
From stdpp Require Import gmap.
From S2P Require Import Prelude CLib ErrorFunctions Proc Args Getopt Descriptors.
Local Open Scope Z_scope.

(** ** Control messages *)

Definition SOL_SOCKET : Z := 1.
Definition SCM_RIGHTS : Z := 1.
Definition SCM_CREDENTIALS : Z := 2.
Definition sizeof_cmsghdr : nat := 16.
Definition sizeof_ucred : nat := 12.

Definition CMSG_ALIGN (n : nat) : nat := ((n + 7) / 8 * 8)%nat.
Definition CMSG_LEN (n : nat) : nat := (sizeof_cmsghdr + n)%nat.
Definition CMSG_SPACE (n : nat) : nat := (sizeof_cmsghdr + CMSG_ALIGN n)%nat.

(** The [n] bytes at an offset, and the buffer with other bytes there, as far as
    they are in it. *)
Definition bytes (off n : nat) (buf : list Z) : list Z := take n (drop off buf).
Definition put (off : nat) (bs buf : list Z) : list Z :=
  take off buf ++ take (length buf - off) bs ++ drop (off + length bs) buf.

(** [struct cmsghdr] at an offset: [cmsg_len], [cmsg_level], [cmsg_type]. *)
Definition cmsg_len (off : nat) (buf : list Z) : Z := unle (bytes off 8 buf).
Definition cmsg_level (off : nat) (buf : list Z) : Z := to_signed 32 (unle (bytes (off + 8) 4 buf)).
Definition cmsg_type (off : nat) (buf : list Z) : Z := to_signed 32 (unle (bytes (off + 12) 4 buf)).
Definition CMSG_DATA (off : nat) : nat := (off + sizeof_cmsghdr)%nat.

Definition header (len : nat) (ty : Z) : list Z := le 8 (Z.of_nat len) ++ le 4 SOL_SOCKET ++ le 4 ty.

(** [CMSG_FIRSTHDR] and [CMSG_NXTHDR] of a buffer of which [msg_controllen] bytes
    are in use. *)
Definition CMSG_FIRSTHDR (controllen : nat) : option nat :=
  if (sizeof_cmsghdr <=? controllen)%nat then Some 0%nat else None.
Definition CMSG_NXTHDR (buf : list Z) (controllen off : nat) : option nat :=
  let len := cmsg_len off buf in
  if len <? Z.of_nat sizeof_cmsghdr then None else
  let off' := Z.of_nat off + Z.of_nat (CMSG_ALIGN (Z.to_nat len)) in
  if Z.of_nat controllen <? off' + Z.of_nat sizeof_cmsghdr then None else
  let off' := Z.to_nat off' in
  if (controllen <? off' + CMSG_ALIGN (Z.to_nat (cmsg_len off' buf)))%nat then None
  else Some off'.

(** [n] descriptors in the data of a message. *)
Fixpoint ints (n : nat) (bs : list Z) : list Z :=
  match n with
  | O => []
  | S n => to_signed 32 (unle (take 4 bs)) :: ints n (drop 4 bs)
  end.
Definition ints_bytes (l : list Z) : list Z := concat (le 4 <$> l).

(** ** The socket *)

Definition ENOTSOCK : Z := 88.
Definition SCM_MAX_FD : nat := 253.

(** The data, the open files and the credentials (pid, uid, gid). *)
Record packet := Packet { data : list Z; rights : list file; creds : Z * Z * Z }.

(** A process with a descriptor table, one of whose files is the socket, and what
    was sent to it; [names]: the contents of the files; [text]: what is left to
    read of an open file, and [next] the number of the next one; [passcred] is the
    socket's option, and [creds_first] the order in which the kernel gives
    messages. *)
Record net := Net {
  fds : gmap Z file;
  sock : file;
  queue : list packet;
  names : string → option string;
  text : file → string;
  next : Z;
  self : Z * Z * Z;
  passcred : bool;
  creds_first : bool;
  results : list Z
}.

Definition with_fds (m : gmap Z file) (w : net) : net :=
  Net m w.(sock) w.(queue) w.(names) w.(text) w.(next) w.(self) w.(passcred) w.(creds_first) w.(results).
Definition with_queue (q : list packet) (w : net) : net :=
  Net w.(fds) w.(sock) q w.(names) w.(text) w.(next) w.(self) w.(passcred) w.(creds_first) w.(results).
Definition with_text (t : file → string) (n : Z) (w : net) : net :=
  Net w.(fds) w.(sock) w.(queue) w.(names) t n w.(self) w.(passcred) w.(creds_first) w.(results).
Definition with_results (r : list Z) (w : net) : net :=
  Net w.(fds) w.(sock) w.(queue) w.(names) w.(text) w.(next) w.(self) w.(passcred) w.(creds_first) r.

Definition with_passcred (w : net) : net :=
  Net w.(fds) w.(sock) w.(queue) w.(names) w.(text) w.(next) w.(self) true w.(creds_first) w.(results).

(** The socket on which [scm_multi_recv] listens. *)
Definition listener : file := Other (-1).
Definition tab : string := String "009" "".

(** What is recorded of a call; a [write] to the standard output with its text. *)
Inductive sysc := Sys (name : string) | Write (t : string).
Definition written (l : list sysc) : string :=
  foldr (λ c t, match c with Write x => x +:+ t | Sys _ => t end) "" l.

(** A call that may fail for reasons the state does not show. *)
Definition may_fail {A} (f : net → (Z + A) * net) (w : net) : (Z + A) * net :=
  let e := default 0 (head w.(results)) in
  let w := with_results (tail w.(results)) w in
  if e =? 0 then f w else (inl e, w).

Definition on_socket {A} (fd : Z) (f : net → (Z + A) * net) (w : net) : (Z + A) * net :=
  match w.(fds) !! fd with
  | None => (inl EBADF, w)
  | Some g => if decide (g = w.(sock)) then f w else (inl ENOTSOCK, w)
  end.

(** What the kernel makes of a sender's control messages. *)
Fixpoint parse_control (fuel : nat) (m : gmap Z file) (buf : list Z) (size off : nat)
    (rs : list file) (cr : Z * Z * Z) : Z + list file * (Z * Z * Z) :=
  match fuel with
  | O => inr (rs, cr)
  | S fuel =>
      if (size <? off + sizeof_cmsghdr)%nat then inr (rs, cr) else
      let len := cmsg_len off buf in
      if (len <? Z.of_nat sizeof_cmsghdr) || (Z.of_nat (size - off) <? len) then inl EINVAL else
      let next := (off + CMSG_ALIGN (Z.to_nat len))%nat in
      let dlen := (Z.to_nat len - sizeof_cmsghdr)%nat in
      let d := bytes (CMSG_DATA off) dlen buf in
      if negb (cmsg_level off buf =? SOL_SOCKET) then parse_control fuel m buf size next rs cr
      else if cmsg_type off buf =? SCM_RIGHTS then
        let n := (dlen / 4)%nat in
        if (SCM_MAX_FD <? length rs + n)%nat then inl EINVAL else
        match mapM (λ fd, m !! fd) (ints n d) with
        | None => inl EBADF
        | Some l => parse_control fuel m buf size next (rs ++ l) cr
        end
      else if cmsg_type off buf =? SCM_CREDENTIALS then
        if negb (dlen =? sizeof_ucred)%nat then inl EINVAL else
        match ints 3 d with
        | [p; u; g] => parse_control fuel m buf size next rs (p, u, g)
        | _ => inl EINVAL
        end
      else inl EINVAL
  end.

(** New descriptors for files. *)
Fixpoint install_all (l : list file) (m : gmap Z file) : list Z * gmap Z file :=
  match l with
  | [] => ([], m)
  | f :: l =>
      let fd := lowest_fd m in
      let '(nums, m) := install_all l (<[fd := f]> m) in (fd :: nums, m)
  end.

(** The messages of a packet in a buffer of which [room] bytes from [off] on may be
    used: the buffer, the offset after the message, and whether something was
    left out.  Files for which there is no room are dropped. *)
Definition put_creds (c : Z * Z * Z) (buf : list Z) (size off : nat) : list Z * nat * bool :=
  let '(p, u, g) := c in
  let room := (size - off)%nat in
  if (room <? sizeof_cmsghdr)%nat then (buf, off, true) else
  let len := Nat.min (CMSG_LEN sizeof_ucred) room in
  (put off (take len (header len SCM_CREDENTIALS ++ ints_bytes [p; u; g])) buf,
   (off + Nat.min (CMSG_SPACE sizeof_ucred) room)%nat, (len <? CMSG_LEN sizeof_ucred)%nat).
Definition put_rights (l : list file) (m : gmap Z file) (buf : list Z) (size off : nat) :
    list Z * nat * bool * gmap Z file :=
  let room := (size - off)%nat in
  let n := Nat.min (length l) ((room - sizeof_cmsghdr) / 4) in
  let '(nums, m) := install_all (take n l) m in
  if (n =? 0)%nat then (buf, off, negb (length l =? 0)%nat, m) else
  (put off (header (CMSG_LEN (4 * n)) SCM_RIGHTS ++ ints_bytes nums) buf,
   (off + Nat.min (CMSG_SPACE (4 * n)) room)%nat, (n <? length l)%nat, m).

(** [struct msghdr] as [recvmsg] leaves it. *)
Record received := Received {
  nr : nat; got : list Z; control : list Z; controllen : nat; truncated : bool
}.

Definition give_control (p : packet) (buf : list Z) (size : nat) (w : net) : received * net :=
  let creds_at off buf :=
    if w.(passcred) then put_creds p.(creds) buf size off else (buf, off, false) in
  if w.(creds_first) then
    let '(buf, off, t1) := creds_at 0%nat buf in
    let '(buf, off, t2, m) := put_rights p.(rights) w.(fds) buf size off in
    (Received 0 [] buf off (t1 || t2), with_fds m w)
  else
    let '(buf, off, t1, m) := put_rights p.(rights) w.(fds) buf size 0%nat in
    let '(buf, off, t2) := creds_at off buf in
    (Received 0 [] buf off (t1 || t2), with_fds m w).

Section scm.
Context {L : Libc}.
Local Abbreviation P := (M (pst unit sysc net)).

(** [sendmsg(sockfd, ...)] with the data and the first [size] bytes of the control
    buffer.  A packet without data goes nowhere. *)
Definition sendmsg (sockfd : Z) (iov buf : list Z) (size : nat) : P (Z + nat) :=
  call (Sys "sendmsg") (may_fail (on_socket sockfd (λ w,
    match parse_control (S size) w.(fds) buf size 0 [] w.(self) with
    | inl e => (inl e, w)
    | inr (rs, cr) =>
        (inr (length iov),
         if (length iov =? 0)%nat then w else with_queue (w.(queue) ++ [Packet iov rs cr]) w)
    end))).

(** [recvmsg(sockfd, ...)] of at most [len] bytes.  What is left of the data of a
    packet stays, its messages do not; where nothing is left, the other side has
    gone. *)
Definition recvmsg (sockfd : Z) (len : nat) (buf : list Z) (size : nat) : P (Z + received) :=
  call (Sys "recvmsg") (may_fail (on_socket sockfd (λ w,
    match w.(queue) with
    | [] => (inr (Received 0 [] buf 0 false), w)
    | p :: q =>
        let '(r, w) := give_control p buf size w in
        let n := Nat.min len (length p.(data)) in
        (inr (Received n (take n p.(data)) r.(control) r.(controllen) r.(truncated)),
         with_queue (if (n <? length p.(data))%nat
                     then Packet (drop n p.(data)) [] p.(creds) :: q else q) w)
    end))).

(** ** [scm_functions.c]

    [junk] is what the uninitialised control buffer holds. *)

Definition control_size : nat := CMSG_SPACE 4.
Definition dummyData : list Z := le 4 12345.

Definition sendfd (sockfd fd : Z) (dat : option (list Z)) (junk : list Z) : P Z :=
  let iov := match dat with Some d => d | None => dummyData end in
  match CMSG_FIRSTHDR control_size with
  | None => stop HUndef
  | Some c =>
      let buf := put c (header (CMSG_LEN 4) SCM_RIGHTS) junk in
      let buf := put (CMSG_DATA c) (le 4 fd) buf in
      r ← sendmsg sockfd iov buf control_size;
      mret (match r with inl _ => -1 | inr _ => 0 end)
  end.

(** [dat]: the room for data, if the caller wants it.  The result is what is
    returned, and the data received. *)
Definition recvfd (sockfd : Z) (dat : option nat) (junk : list Z) : P (Z * list Z) :=
  let len := match dat with Some n => n | None => 4%nat end in
  r ← recvmsg sockfd len junk control_size;
  match r with
  | inl _ => mret (-1, [])
  | inr r =>
      let bad := put_errno EINVAL;; mret (-1, r.(got)) in
      match CMSG_FIRSTHDR r.(controllen) with
      | None => bad
      | Some c =>
          if negb (cmsg_len c r.(control) =? Z.of_nat (CMSG_LEN 4)) ||
             negb (cmsg_level c r.(control) =? SOL_SOCKET) ||
             negb (cmsg_type c r.(control) =? SCM_RIGHTS) then bad
          else mret (to_signed 32 (unle (bytes (CMSG_DATA c) 4 r.(control))), r.(got))
      end
  end.

(** [malloc], and [systmErr(msg)] where it fails. *)
Definition alloc (msg : string) : P unit :=
  r ← call (Sys "malloc") (may_fail (λ w, (inr tt, w)));
  match r with inl _ => p_systmErr msg | inr _ => skip end.

(** ** [scm_multi_send.c] *)

Definition SOCK_PATH : string := "scm_multi".

Definition open_file (name : string) : P Z :=
  r ← call (Sys "open") (may_fail (λ w,
    match w.(names) name with
    | None => (inl ENOENT, w)
    | Some t =>
        let f := Other w.(next) in
        let fd := lowest_fd w.(fds) in
        (inr fd, with_fds (<[fd := f]> w.(fds))
                   (with_text (λ g, if decide (g = f) then t else w.(text) g) (w.(next) + 1) w))
    end));
  match r with inl _ => p_systmErr "open" | inr fd => mret fd end.

Fixpoint open_all (l : list string) : P (list Z) :=
  match l with
  | [] => mret []
  | name :: l => fd ← open_file name; fds ← open_all l; mret (fd :: fds)
  end.

Definition unixConnect : P Z :=
  r ← call (Sys "connect") (may_fail (λ w,
    let fd := lowest_fd w.(fds) in (inr fd, with_fds (<[fd := w.(sock)]> w.(fds)) w)));
  match r with inl _ => p_systmErr "unixConnect" | inr fd => mret fd end.

(** From the files and the credentials that the options give, to the end. *)
Definition multi_send (sendData : bool) (cr : Z * Z * Z) (files : list string) : P unit :=
  let '(pid, uid, gid) := cr in
  let fdAllocSize := (4 * length files)%nat in
  let size := (CMSG_SPACE fdAllocSize + CMSG_SPACE sizeof_ucred)%nat in
  alloc "malloc";;
  match CMSG_FIRSTHDR size with
  | None => stop HUndef
  | Some c =>
      let buf := put c (header (CMSG_LEN fdAllocSize) SCM_RIGHTS) (replicate size 0) in
      printf ("cmsg_len 1: " +:+ fmt_d (Z.of_nat (CMSG_LEN fdAllocSize)) +:+ nl);;
      alloc "calloc";;
      fdList ← open_all files;
      let buf := put (CMSG_DATA c) (ints_bytes fdList) buf in
      match CMSG_NXTHDR buf size c with
      | None => stop HUndef
      | Some c =>
          let buf := put c (header (CMSG_LEN sizeof_ucred) SCM_CREDENTIALS) buf in
          printf ("cmsg_len 2: " +:+ fmt_d (Z.of_nat (CMSG_LEN sizeof_ucred)) +:+ nl);;
          let buf := put (CMSG_DATA c) (ints_bytes [pid; uid; gid]) buf in
          sfd ← unixConnect;
          r ← sendmsg sfd (if sendData then le 4 12345 else []) buf size;
          match r with
          | inl _ => p_systmErr "sendmsg"
          | inr ns => printf ("sendmsg() returned " +:+ fmt_d (Z.of_nat ns) +:+ nl);; p_exit EXIT_SUCCESS
          end
      end
  end.

Record send_opts := SendOpts {
  so_dgram : bool; so_data : bool; so_pid : Z; so_uid : Z; so_gid : Z
}.

Definition send_usage {A} (pname : string) : P A :=
  eprintf ("Usage: " +:+ pname +:+ " [options] file..." +:+ nl);;
  eprintf ("    Options:" +:+ nl);;
  eprintf (tab +:+ "-d        Use datagram (instead of stream) socket" +:+ nl);;
  eprintf (tab +:+ "-n        Don't send any real data with the ancillary data" +:+ nl);;
  eprintf (tab +:+ "-p <pid>  Use this PID when sending credentials" +:+ nl);;
  eprintf (tab +:+ "-u <uid>  Use this UID when sending credentials" +:+ nl);;
  eprintf (tab +:+ "-g <gid>  Use this GID when sending credentials" +:+ nl);;
  eprintf ("    If any of any of -p/-u/-g is absent, the corresponding real" +:+ nl +:+
           "    credential is used." +:+ nl);;
  p_exit EXIT_FAILURE.

Fixpoint send_options (pname : string) (evs : list opt_event) (o : send_opts) : P send_opts :=
  match evs with
  | [] => mret o
  | ev :: evs =>
      match ev with
      | Opt "d" _ => send_options pname evs (SendOpts true o.(so_data) o.(so_pid) o.(so_uid) o.(so_gid))
      | Opt "n" _ => send_options pname evs (SendOpts o.(so_dgram) false o.(so_pid) o.(so_uid) o.(so_gid))
      | Opt "p" (Some a) =>
          send_options pname evs (SendOpts o.(so_dgram) o.(so_data) (atoi a) o.(so_uid) o.(so_gid))
      | Opt "u" (Some a) =>
          send_options pname evs (SendOpts o.(so_dgram) o.(so_data) o.(so_pid) (atoi a) o.(so_gid))
      | Opt "g" (Some a) =>
          send_options pname evs (SendOpts o.(so_dgram) o.(so_data) o.(so_pid) o.(so_uid) (atoi a))
      | _ => eprintf (getopt_message pname ev);; send_usage pname
      end
  end.

(** [main]; [argv] is not empty. *)
Definition multi_send_main (argv : list string) : P unit :=
  let pname := default "" (head argv) in
  w ← gets world;
  let '(pid, uid, gid) := w.(self) in
  let '(evs, files) := getopt "dnp:u:g:" (tail argv) in
  o ← send_options pname evs (SendOpts false true pid uid gid);
  if (length files <=? 0)%nat then send_usage pname else
  multi_send o.(so_data) (o.(so_pid), o.(so_uid), o.(so_gid)) files.

(** ** [scm_multi_recv.c]

    From the call of [recvmsg] on; [opt] is the argument of the option [-n], or -1,
    [junk] and [djunk] what the buffers hold. *)

Definition MAX_FDS : nat := 1024.
Definition BUF_SIZE : nat := 100.
Definition multi_size : nat := (CMSG_SPACE (4 * MAX_FDS) + CMSG_SPACE sizeof_ucred)%nat.
Definition rule : string := "=================================" +:+ nl.

Definition read (fd : Z) (n : nat) : P (Z + string) := call (Sys "read") (may_fail (λ w,
  match w.(fds) !! fd with
  | None => (inl EBADF, w)
  | Some f =>
      let t := w.(text) f in
      (inr (take_str n t),
       with_text (λ g, if decide (g = f) then drop_str n t else w.(text) g) w.(next) w)
  end)).
Definition close (fd : Z) : P (Z + unit) := call (Sys "close") (may_fail (λ w,
  match w.(fds) !! fd with
  | None => (inl EBADF, w)
  | Some _ => (inr tt, with_fds (delete fd w.(fds)) w)
  end)).
(** The program ignores the result of its [write] to the standard output, of which
    all the bytes are taken to be written. *)
Definition write (t : string) : P (Z + unit) := call (Write t) (λ w, (inr tt, w)).

Definition read_body (fd : Z) (_ : unit) : P (unit + unit) :=
  r ← read fd BUF_SIZE;
  match r with
  | inl _ => p_systmErr "read"
  | inr EmptyString => mret (inr tt)
  | inr t => write t;; mret (inl tt)
  end.

(** One of the descriptors; the fuel is what its file holds. *)
Definition show_fd (j : nat) (fd : Z) : P unit :=
  printf ("--- [" +:+ fmt_d (Z.of_nat j) +:+ "] Received FD " +:+ fmt_d fd +:+ nl);;
  w ← gets world;
  let fuel := match w.(fds) !! fd with Some f => String.length (w.(text) f) | None => 0%nat end in
  loop (S fuel) (read_body fd) tt;;
  c ← close fd;
  match c with inl _ => p_systmErr "close" | inr _ => skip end.

Fixpoint show_fds (j : nat) (l : list Z) : P unit :=
  match l with
  | [] => skip
  | fd :: l => show_fd j fd;; show_fds (S j) l
  end.

Definition walk_body (buf : list Z) (controllen : nat) (c : option nat) : P (option nat + unit) :=
  match c with
  | None => mret (inr tt)
  | Some c =>
      let len := cmsg_len c buf in
      printf rule;; printf ("cmsg_len: " +:+ fmt_d len +:+ nl);;
      if negb (cmsg_level c buf =? SOL_SOCKET) then p_custmErr "cmsg_level != SOL_SOCKET" else
      (if cmsg_type c buf =? SCM_RIGHTS then
         printf "SCM_RIGHTS: ";;
         let fdCnt := ((Z.to_nat len - CMSG_LEN 0) / 4)%nat in
         printf ("received " +:+ fmt_d (Z.of_nat fdCnt) +:+ " file descriptors" +:+ nl);;
         alloc "calloc";;
         show_fds 0 (ints fdCnt (bytes (CMSG_DATA c) (4 * fdCnt) buf))
       else if cmsg_type c buf =? SCM_CREDENTIALS then
         if negb (len =? Z.of_nat (CMSG_LEN sizeof_ucred)) then p_custmErr "cmsg data has incorrect size" else
         match ints 3 (bytes (CMSG_DATA c) sizeof_ucred buf) with
         | [p; u; g] =>
             printf ("SCM_CREDENTIALS: pid=" +:+ fmt_d p +:+ ", uid=" +:+
               fmt_d (to_unsigned 32 u) +:+ ", gid=" +:+ fmt_d (to_unsigned 32 g) +:+ nl)
         | _ => stop HUndef
         end
       else p_custmErr ("Bad cmsg_type (" +:+ fmt_d (cmsg_type c buf) +:+ ")"));;
      mret (inl (CMSG_NXTHDR buf controllen c))
  end.

Definition multi_recv (sfd opt : Z) (junk djunk : list Z) : P unit :=
  r ← recvmsg sfd 4 junk (if opt =? -1 then multi_size else Z.to_nat (opt mod 2 ^ 64));
  match r with
  | inl _ => p_systmErr "recvmsg"
  | inr r =>
      printf ("recvmsg() returned " +:+ fmt_d (Z.of_nat r.(nr)) +:+ nl);;
      when (0 <? r.(nr))%nat
        (printf ("Received data = " +:+ fmt_d (to_signed 32 (unle (put 0 r.(got) djunk))) +:+ nl));;
      when (negb (opt =? -1)) (printf rule;; call (Sys "system") (λ w, (inr tt, w));; printf rule);;
      when r.(truncated) (printf ("********** Ancillary data was truncated!!! **********" +:+ nl));;
      loop (S (S r.(controllen))) (walk_body r.(control) r.(controllen)) (CMSG_FIRSTHDR r.(controllen));;
      p_exit EXIT_SUCCESS
  end.

Definition recv_usage {A} (pname : string) : P A :=
  p_usageErr (pname +:+ " [options]" +:+ nl +:+ "    Options:" +:+ nl +:+
    tab +:+ "-d           Use datagram socket (default is stream)" +:+ nl +:+
    tab +:+ "-n <nbytes>  Limit on size of received ancillary data" +:+ nl).

Fixpoint recv_options (pname : string) (evs : list opt_event) (dgram : bool) (opt : Z) : P (bool * Z) :=
  match evs with
  | [] => mret (dgram, opt)
  | ev :: evs =>
      match ev with
      | Opt "d" _ => recv_options pname evs true opt
      | Opt "n" (Some a) => recv_options pname evs dgram (atoi a)
      | _ => eprintf (getopt_message pname ev);; recv_usage pname
      end
  end.

(** A new descriptor for [f], and [systmErr(msg)] where the call fails. *)
Definition new_socket (name msg : string) (f : net → file) : P Z :=
  r ← call (Sys name) (may_fail (λ w,
    let fd := lowest_fd w.(fds) in (inr fd, with_fds (<[fd := f w]> w.(fds)) w)));
  match r with inl _ => p_systmErr msg | inr fd => mret fd end.

(** [main]; the listening socket is a file of its own. *)
Definition multi_recv_main (argv : list string) (junk djunk : list Z) : P unit :=
  let pname := default "" (head argv) in
  alloc "malloc";;
  let '(evs, _) := getopt "dn:" (tail argv) in
  o ← recv_options pname evs false (-1);
  let '(useDatagramSocket, optControlMsgSize) := o in
  r ← call (Sys "remove") (may_fail (λ w, (inr tt, w)));
  e ← get_errno;
  (match r with inl _ => when (negb (e =? ENOENT)) (p_systmErr ("remove-" +:+ SOCK_PATH)) | inr _ => skip end);;
  sfd ← (if useDatagramSocket : bool then new_socket "bind" "unixBind" sock
         else
           new_socket "bind" "unixBind" (λ _, listener);;
           l ← call (Sys "listen") (may_fail (λ w, (inr tt, w)));
           (match l with inl _ => p_systmErr "listen" | inr _ => skip end);;
           new_socket "accept" "accept" sock);
  c ← call (Sys "setsockopt") (may_fail (on_socket sfd (λ w, (inr tt, with_passcred w))));
  (match c with inl _ => p_systmErr "setsockopt" | inr _ => skip end);;
  multi_recv sfd optControlMsgSize junk djunk.
End scm.

(** ** Reading what was written *)

Lemma bytes_app pre bs rest n : n = length bs → bytes (length pre) n (pre ++ bs ++ rest) = bs.
Proof. intros ->. unfold bytes. by rewrite drop_app_length, take_app_length. Qed.

Lemma put_app pre mid rest bs :
  length mid = length bs → put (length pre) bs (pre ++ mid ++ rest) = pre ++ bs ++ rest.
Proof.
  intros Hm. unfold put. rewrite take_app_length. f_equal. f_equal.
  - rewrite take_ge; [done|]. rewrite !length_app. lia.
  - rewrite <- Hm, <- drop_drop, drop_app_length. by rewrite drop_app_length.
Qed.

Lemma length_header len ty : length (header len ty) = sizeof_cmsghdr.
Proof. done. Qed.

(** A buffer with a message at an offset, and a field of its header. *)
Lemma header_field pre len ty rest k n bs a b :
  header len ty = a ++ bs ++ b → length a = k → n = length bs →
  bytes (length pre + k) n (pre ++ header len ty ++ rest) = bs.
Proof.
  intros -> <- Hn. rewrite <- length_app.
  replace (pre ++ (a ++ bs ++ b) ++ rest) with ((pre ++ a) ++ bs ++ (b ++ rest))
    by by rewrite <- !app_assoc.
  by apply bytes_app.
Qed.

Section header.
Context (pre : list Z) (len : nat) (ty : Z) (rest : list Z).
Hypothesis len_fits : Z.of_nat len < 2 ^ 64.
Hypothesis ty_int : is_int ty.
Let buf := pre ++ header len ty ++ rest.

Lemma header_len : cmsg_len (length pre) buf = Z.of_nat len.
Proof.
  unfold cmsg_len, buf. rewrite <- (Nat.add_0_r (length pre)).
  rewrite (header_field _ _ _ _ 0 8 (le 8 (Z.of_nat len)) [] (le 4 SOL_SOCKET ++ le 4 ty)) by done.
  rewrite unle_le. apply Z.mod_small. change (256 ^ Z.of_nat 8) with (2 ^ 64). lia.
Qed.

Lemma header_level : cmsg_level (length pre) buf = SOL_SOCKET.
Proof.
  unfold cmsg_level, buf.
  by rewrite (header_field _ _ _ _ 8 4 (le 4 SOL_SOCKET) (le 8 (Z.of_nat len)) (le 4 ty)) by done.
Qed.

Lemma header_type : cmsg_type (length pre) buf = ty.
Proof.
  unfold cmsg_type, buf.
  rewrite (header_field _ _ _ _ 12 4 (le 4 ty) (le 8 (Z.of_nat len) ++ le 4 SOL_SOCKET) []) by done.
  by apply int_back.
Qed.

Lemma header_data n : bytes (CMSG_DATA (length pre)) n buf = take n rest.
Proof.
  unfold bytes, CMSG_DATA, buf. rewrite <- (length_header len ty), <- length_app, app_assoc.
  by rewrite drop_app_length.
Qed.
End header.

Lemma length_ints_bytes l : length (ints_bytes l) = (4 * length l)%nat.
Proof.
  induction l as [|z l IH]; [done|]. change (ints_bytes (z :: l)) with (le 4 z ++ ints_bytes l).
  rewrite length_app, length_le, IH. simpl. lia.
Qed.

Lemma ints_back l : Forall is_int l → ints (length l) (ints_bytes l) = l.
Proof.
  induction 1 as [|z l Hz _ IH]; [done|]. change (ints_bytes (z :: l)) with (le 4 z ++ ints_bytes l).
  cbn [length ints].
  rewrite (take_app_length' (le 4 z)), (drop_app_length' (le 4 z)) by done. by rewrite int_back, IH.
Qed.

Lemma align_bounds n : (n <= CMSG_ALIGN n < n + 8)%nat.
Proof.
  unfold CMSG_ALIGN. pose proof (Nat.div_mod_eq (n + 7) 8) as H.
  pose proof (Nat.mod_upper_bound (n + 7) 8 ltac:(lia)). lia.
Qed.

Lemma align_len n : CMSG_ALIGN (CMSG_LEN n) = CMSG_SPACE n.
Proof.
  unfold CMSG_SPACE, CMSG_LEN, CMSG_ALIGN, sizeof_cmsghdr.
  replace (16 + n + 7)%nat with (n + 7 + 2 * 8)%nat by lia.
  rewrite Nat.div_add by lia. lia.
Qed.

(** ** What the kernel reads *)

Lemma parse_end fuel m buf size off rs cr :
  (size < off + sizeof_cmsghdr)%nat → parse_control fuel m buf size off rs cr = inr (rs, cr).
Proof. intros H. destruct fuel; [done|]. simpl. by rewrite (proj2 (Nat.ltb_lt _ _)). Qed.

Lemma data_length n : (CMSG_LEN (4 * n) - sizeof_cmsghdr = 4 * n)%nat.
Proof. unfold CMSG_LEN. lia. Qed.
Lemma div_four n : (4 * n / 4 = n)%nat.
Proof. rewrite Nat.mul_comm. by apply Nat.div_mul. Qed.

Lemma parse_rights fuel m pre l files rest size rs cr :
  Forall is_int l → mapM (λ fd, m !! fd) l = Some files →
  (length rs + length l <= SCM_MAX_FD)%nat → (length pre + CMSG_LEN (4 * length l) <= size)%nat →
  let buf := pre ++ header (CMSG_LEN (4 * length l)) SCM_RIGHTS ++ ints_bytes l ++ rest in
  parse_control (S fuel) m buf size (length pre) rs cr =
  parse_control fuel m buf size (length pre + CMSG_SPACE (4 * length l)) (rs ++ files) cr.
Proof.
  intros Hint Hm Hmax Hsize buf. unfold SCM_MAX_FD in Hmax.
  assert (Hfit : Z.of_nat (CMSG_LEN (4 * length l)) < 2 ^ 64) by (unfold CMSG_LEN, sizeof_cmsghdr; lia).
  assert (Hlen := header_len pre _ SCM_RIGHTS (ints_bytes l ++ rest) Hfit). fold buf in Hlen.
  assert (Hlev : cmsg_level (length pre) buf = SOL_SOCKET) by apply header_level.
  assert (Hty : cmsg_type (length pre) buf = SCM_RIGHTS) by by apply header_type.
  cbn [parse_control]. rewrite Hlen, Hlev, Hty.
  rewrite (proj2 (Nat.ltb_ge _ _)) by (unfold CMSG_LEN in Hsize; lia).
  rewrite (proj2 (Z.ltb_ge (Z.of_nat (CMSG_LEN (4 * length l))) _)) by (unfold CMSG_LEN; lia).
  rewrite (proj2 (Z.ltb_ge (Z.of_nat (size - length pre)) _)) by lia.
  cbn [orb negb Z.eqb]. rewrite Nat2Z.id, data_length, div_four, align_len.
  change (SOL_SOCKET =? SOL_SOCKET) with true. change (SCM_RIGHTS =? SCM_RIGHTS) with true. cbn [negb].
  rewrite (proj2 (Nat.ltb_ge _ _)) by (unfold SCM_MAX_FD; lia).
  unfold buf at 1. rewrite header_data.
  rewrite (take_app_length' (ints_bytes l)) by by rewrite length_ints_bytes.
  by rewrite ints_back, Hm.
Qed.

Lemma parse_creds fuel m pre p u g rest size rs cr :
  Forall is_int [p; u; g] → (length pre + CMSG_LEN sizeof_ucred <= size)%nat →
  let buf := pre ++ header (CMSG_LEN sizeof_ucred) SCM_CREDENTIALS ++ ints_bytes [p; u; g] ++ rest in
  parse_control (S fuel) m buf size (length pre) rs cr =
  parse_control fuel m buf size (length pre + CMSG_SPACE sizeof_ucred) rs (p, u, g).
Proof.
  intros Hint Hsize buf.
  assert (Hlen := header_len pre (CMSG_LEN sizeof_ucred) SCM_CREDENTIALS (ints_bytes [p; u; g] ++ rest) ltac:(done)).
  fold buf in Hlen.
  assert (Hlev : cmsg_level (length pre) buf = SOL_SOCKET) by apply header_level.
  assert (Hty : cmsg_type (length pre) buf = SCM_CREDENTIALS) by by apply header_type.
  cbn [parse_control]. rewrite Hlen, Hlev, Hty.
  rewrite (proj2 (Nat.ltb_ge _ _)) by (unfold CMSG_LEN in Hsize; lia).
  rewrite (proj2 (Z.ltb_ge (Z.of_nat (CMSG_LEN sizeof_ucred)) _)) by done.
  rewrite (proj2 (Z.ltb_ge (Z.of_nat (size - length pre)) _)) by lia.
  cbn [orb]. rewrite Nat2Z.id, align_len.
  change (SOL_SOCKET =? SOL_SOCKET) with true. change (SCM_CREDENTIALS =? SCM_RIGHTS) with false.
  change (SCM_CREDENTIALS =? SCM_CREDENTIALS) with true. cbn [negb].
  change ((CMSG_LEN sizeof_ucred - sizeof_cmsghdr =? sizeof_ucred)%nat) with true. cbn [negb].
  unfold buf at 1. rewrite header_data.
  rewrite (take_app_length' (ints_bytes [p; u; g])) by done.
  change 3%nat with (length [p; u; g]). by rewrite ints_back.
Qed.

(** ** New descriptors *)

Lemma lowest_fd_int m : Z.of_nat (size m) <= INT_MAX → is_int (lowest_fd m).
Proof.
  intros Hm. pose proof (search_fd_range m 0 (size m)) as H. unfold lowest_fd, is_int, INT_MIN in *. lia.
Qed.

Lemma install_all_spec l m nums m' :
  install_all l m = (nums, m') →
  length nums = length l ∧ NoDup nums ∧ mapM (λ fd, m' !! fd) nums = Some l ∧
  (∀ fd, fd ∈ nums → m !! fd = None) ∧ (∀ fd, fd ∉ nums → m' !! fd = m !! fd) ∧
  (Z.of_nat (size m + length l) <= INT_MAX → Forall is_int nums).
Proof.
  revert m nums m'. induction l as [|f l IH]; intros m nums m'; simpl.
  { intros [= <- <-]. split_and!; try done; [constructor|by intros ? ?%not_elem_of_nil]. }
  destruct (install_all l (<[lowest_fd m := f]> m)) as [nums1 m1] eqn:E. intros [= <- <-].
  destruct (IH _ _ _ E) as (H1 & H2 & H3 & H4 & H5 & H6).
  destruct (lowest_fd_spec m) as (_ & Hfree & _).
  assert (Hnot : lowest_fd m ∉ nums1).
  { intros Hin. apply H4 in Hin. by rewrite lookup_insert_eq in Hin. }
  split_and!.
  - simpl. by rewrite H1.
  - by constructor.
  - simpl. by rewrite H5, lookup_insert_eq, H3 by done.
  - intros fd [->|Hin]%elem_of_cons; [done|]. apply H4 in Hin.
    apply lookup_insert_None in Hin. by destruct Hin.
  - intros fd [Hne Hin]%not_elem_of_cons. by rewrite H5, lookup_insert_ne by done.
  - intros Hs. constructor; [apply lowest_fd_int; lia|]. apply H6.
    rewrite map_size_insert, Hfree. simpl. lia.
Qed.

(** ** Calls that succeed *)

Section runs.
Context {L : Libc}.
Local Abbreviation S' := (pst unit sysc net).

Definition after (c : sysc) (w : net) (s : S') : S' := Pst s.(pr) s.(vars) (s.(trace) ++ [c]) w.

(** The process has the socket open, and no call fails by itself. *)
Definition connected (sockfd : Z) (w : net) : Prop :=
  w.(results) = [] ∧ w.(fds) !! sockfd = Some w.(sock).

Lemma on_socket_run {A} c (f : net → (Z + A) * net) sockfd s a w :
  connected sockfd s.(world) → f s.(world) = (inr a, w) →
  call c (may_fail (on_socket sockfd f)) s = (Ok (inr a), after c w s).
Proof.
  intros [Hr Hs] Hf. unfold call, may_fail. rewrite Hr. cbn [default head tail].
  replace (with_results [] (world s)) with (world s) by by rewrite <- Hr; destruct (world s).
  change (0 =? 0) with true. cbv iota. unfold on_socket. by rewrite Hs, decide_True, Hf.
Qed.

Lemma recvmsg_run sockfd len buf size s p q r w :
  connected sockfd s.(world) → s.(world).(queue) = p :: q →
  give_control p buf size s.(world) = (r, w) →
  let n := Nat.min len (length p.(data)) in
  recvmsg sockfd len buf size s =
    (Ok (inr (Received n (take n p.(data)) r.(control) r.(controllen) r.(truncated))),
     after (Sys "recvmsg") (with_queue (if (n <? length p.(data))%nat
                                  then Packet (drop n p.(data)) [] p.(creds) :: q else q) w) s).
Proof.
  intros Hc Hq Hg n. unfold recvmsg. apply on_socket_run; [done|]. by rewrite Hq, Hg.
Qed.

(** Without the option for credentials only descriptors are given. *)
Lemma give_rights p buf size w :
  w.(passcred) = false →
  let '(b, off, t, m) := put_rights p.(rights) w.(fds) buf size 0 in
  give_control p buf size w = (Received 0 [] b off t, with_fds m w).
Proof.
  intros Hp. unfold give_control. rewrite Hp.
  destruct (put_rights (rights p) (fds w) buf size 0) as [[[b off] t] m].
  by destruct (creds_first w); simpl; rewrite ?orb_false_r.
Qed.

(** ** One descriptor *)

(** The sender's buffer, whatever was in it. *)
Lemma sendfd_buffer fd junk :
  length junk = control_size →
  put (CMSG_DATA 0) (le 4 fd) (put 0 (header (CMSG_LEN 4) SCM_RIGHTS) junk) =
  header (CMSG_LEN 4) SCM_RIGHTS ++ ints_bytes [fd] ++ drop 20 junk.
Proof.
  intros Hj. rewrite <- (take_drop 16 junk) at 1.
  assert (H16 : length (take 16 junk) = 16%nat) by (rewrite length_take, Hj; done).
  pose proof (put_app [] (take 16 junk) (drop 16 junk) (header (CMSG_LEN 4) SCM_RIGHTS)) as E.
  cbn [app length] in E. rewrite E by by rewrite H16.
  rewrite <- (take_drop 4 (drop 16 junk)), drop_drop.
  pose proof (put_app (header (CMSG_LEN 4) SCM_RIGHTS) (take 4 (drop 16 junk)) (drop (16 + 4) junk) (le 4 fd)) as E'.
  refine (eq_trans (E' _) _); [|done]. by rewrite length_take, length_drop, Hj, length_le.
Qed.

Lemma sendfd_run sockfd fd dat junk f s :
  connected sockfd s.(world) → s.(world).(fds) !! fd = Some f → is_int fd →
  length junk = control_size → dat ≠ Some [] →
  ∃ s', sendfd sockfd fd dat junk s = (Ok 0, s') ∧
    s'.(world) = with_queue (s.(world).(queue) ++ [Packet (default dummyData dat) [f] s.(world).(self)]) s.(world).
Proof.
  intros Hc Hf Hfd Hj Hd. unfold sendfd. cbn [CMSG_FIRSTHDR]. change (CMSG_FIRSTHDR control_size) with (Some 0%nat).
  cbv iota zeta. rewrite sendfd_buffer by done.
  assert (Hp : parse_control (S control_size) (fds (world s))
    (header (CMSG_LEN 4) SCM_RIGHTS ++ ints_bytes [fd] ++ drop 20 junk) control_size 0 [] (self (world s)) =
    inr ([f], self (world s))).
  { pose proof (parse_rights control_size (fds (world s)) [] [fd] [f] (drop 20 junk) control_size [] (self (world s)))
      as E. cbn [app length] in E. change (4 * 1)%nat with 4%nat in E. rewrite E; [by rewrite parse_end by (vm_compute; lia)|..].
    - by constructor.
    - cbn. by rewrite Hf.
    - unfold SCM_MAX_FD. lia.
    - vm_compute. lia. }
  unfold sendmsg. erewrite run_bind; [|apply on_socket_run; [done|by rewrite Hp]].
  eexists. split; [done|]. cbn [world after].
  replace (match dat with Some d => d | None => dummyData end) with (default dummyData dat) by by destruct dat.
  by destruct dat as [[|b d]|].
Qed.

(** The control buffer of one descriptor has room for two. *)
Lemma rights_in_small l m junk :
  length junk = control_size →
  put_rights l m junk control_size 0 =
    match l with
    | [] => (junk, 0%nat, false, m)
    | [f] => (header (CMSG_LEN 4) SCM_RIGHTS ++ le 4 (lowest_fd m) ++ drop 20 junk, 24%nat, false,
              <[lowest_fd m := f]> m)
    | f :: g :: l =>
        let m1 := <[lowest_fd m := f]> m in
        (header (CMSG_LEN 8) SCM_RIGHTS ++ ints_bytes [lowest_fd m; lowest_fd m1], 24%nat,
         (2 <? length (f :: g :: l))%nat, <[lowest_fd m1 := g]> m1)
    end.
Proof.
  intros Hj. unfold put_rights. change ((control_size - 0 - sizeof_cmsghdr) / 4)%nat with 2%nat.
  destruct l as [|f [|g l]]; [done| |].
  - change (Nat.min (length [f]) 2) with 1%nat. cbn [take install_all Nat.eqb].
    pose proof (put_app [] (take 20 junk) (drop 20 junk)
      (header (CMSG_LEN (4 * 1)) SCM_RIGHTS ++ ints_bytes [lowest_fd m])) as E.
    cbn [app length] in E. rewrite take_drop in E. rewrite E by by rewrite length_take, Hj.
    by rewrite <- app_assoc.
  - replace (Nat.min (length (f :: g :: l)) 2) with 2%nat by (simpl; lia). cbn [take install_all Nat.eqb].
    change (take 0 l) with (@nil file). cbn [install_all]. set (m1 := <[lowest_fd m := f]> m).
    pose proof (put_app [] junk [] (header (CMSG_LEN (4 * 2)) SCM_RIGHTS ++ ints_bytes [lowest_fd m; lowest_fd m1])) as E.
    cbn [app length] in E. rewrite !app_nil_r in E. by rewrite E by by rewrite Hj.
Qed.

(** C16: whatever a packet holds, [recvfd] returns the descriptor it was sent when
    there is exactly one: the lowest that was free, and open on the sender's file.
    In every other case it returns -1 with [EINVAL]; but where there were two or
    more, the first two are left open in the receiver, for the buffer of one
    descriptor has room for two. *)
Theorem recvfd_spec sockfd dat junk p q s :
  connected sockfd s.(world) → s.(world).(passcred) = false → s.(world).(queue) = p :: q →
  length junk = control_size → Z.of_nat (size s.(world).(fds)) <= INT_MAX →
  let len := match dat with Some n => n | None => 4%nat end in
  let m := s.(world).(fds) in
  ∃ v s', recvfd sockfd dat junk s = (Ok (v, take len p.(data)), s') ∧
    match p.(rights) with
    | [] => v = -1 ∧ errno s'.(pr) = EINVAL ∧ s'.(world).(fds) = m
    | [f] => v = lowest_fd m ∧ s'.(world).(fds) = <[v := f]> m
    | f :: g :: _ => v = -1 ∧ errno s'.(pr) = EINVAL ∧
        s'.(world).(fds) = let m1 := <[lowest_fd m := f]> m in <[lowest_fd m1 := g]> m1
    end.
Proof.
  intros Hc Hp Hq Hj Hs len m. unfold recvfd. fold len.
  pose proof (give_rights p junk control_size (world s) Hp) as Hg. rewrite rights_in_small in Hg by done. fold m in Hg.
  assert (Htake : take (Nat.min len (length (data p))) (data p) = take len (data p)).
  { destruct (Nat.min_spec len (length (data p))) as [[_ ->]|[? ->]]; [done|]. by rewrite !take_ge by lia. }
  destruct (rights p) as [|f [|g l]];
    rewrite (run_bind _ _ _ _ _ (recvmsg_run _ _ _ _ _ _ _ _ _ Hc Hq Hg)); cbn [controllen control got];
    rewrite Htake.
  - do 2 eexists. split; [done|]. by split_and!.
  - change (CMSG_FIRSTHDR 24) with (Some 0%nat). cbv iota zeta.
    pose proof (header_len [] (CMSG_LEN 4) SCM_RIGHTS (le 4 (lowest_fd m) ++ drop 20 junk) ltac:(done)) as H1.
    pose proof (header_level [] (CMSG_LEN 4) SCM_RIGHTS (le 4 (lowest_fd m) ++ drop 20 junk)) as H2.
    pose proof (header_type [] (CMSG_LEN 4) SCM_RIGHTS (le 4 (lowest_fd m) ++ drop 20 junk) ltac:(done)) as H3.
    pose proof (header_data [] (CMSG_LEN 4) SCM_RIGHTS (le 4 (lowest_fd m) ++ drop 20 junk) 4) as H4.
    cbn [app length] in H1, H2, H3, H4. rewrite H1, H2, H3, H4, !Z.eqb_refl. cbn [negb orb].
    do 2 eexists. split; [done|]. rewrite (take_app_length' (le 4 (lowest_fd m))) by done.
    by rewrite int_back by by apply lowest_fd_int.
  - change (CMSG_FIRSTHDR 24) with (Some 0%nat). cbv iota zeta. set (m1 := <[lowest_fd m := f]> m).
    pose proof (header_len [] (CMSG_LEN 8) SCM_RIGHTS (ints_bytes [lowest_fd m; lowest_fd m1]) ltac:(done)) as H1.
    cbn [app length] in H1. rewrite H1.
    change (negb (Z.of_nat (CMSG_LEN 8) =? Z.of_nat (CMSG_LEN 4))) with true. cbn [orb].
    do 2 eexists. split; [done|]. done.
Qed.
End runs.

(** ** Two messages *)

(** A message of integers, and the bytes up to the next one. *)
Definition msg (ty : Z) (l : list Z) : list Z := header (CMSG_LEN (4 * length l)) ty ++ ints_bytes l.
Definition padding (l : list Z) : nat := (CMSG_ALIGN (4 * length l) - 4 * length l)%nat.

Lemma length_msg ty l : length (msg ty l) = CMSG_LEN (4 * length l).
Proof. unfold msg. by rewrite length_app, length_header, length_ints_bytes. Qed.

Lemma length_padded ty l pad :
  length pad = padding l → length (msg ty l ++ pad) = CMSG_SPACE (4 * length l).
Proof.
  intros Hp. rewrite length_app, length_msg, Hp. unfold padding, CMSG_LEN, CMSG_SPACE.
  pose proof (align_bounds (4 * length l)). lia.
Qed.

Section walk.
Context (pre : list Z) (ty : Z) (l rest : list Z) (size : nat).
Hypothesis few : (length l <= SCM_MAX_FD)%nat.
Let buf := pre ++ msg ty l ++ rest.
Let next := (length pre + CMSG_SPACE (4 * length l))%nat.

Lemma msg_len : cmsg_len (length pre) buf = Z.of_nat (CMSG_LEN (4 * length l)).
Proof.
  unfold buf, msg. rewrite <- app_assoc. apply header_len.
  unfold SCM_MAX_FD in few. unfold CMSG_LEN, sizeof_cmsghdr. lia.
Qed.
Lemma msg_level : cmsg_level (length pre) buf = SOL_SOCKET.
Proof. unfold buf, msg. rewrite <- app_assoc. apply header_level. Qed.
Lemma msg_type : is_int ty → cmsg_type (length pre) buf = ty.
Proof. unfold buf, msg. rewrite <- app_assoc. apply header_type. Qed.
Lemma msg_data : Forall is_int l → ints (length l) (bytes (CMSG_DATA (length pre)) (4 * length l) buf) = l.
Proof.
  intros Hl. unfold buf, msg. rewrite <- app_assoc, header_data.
  rewrite (take_app_length' (ints_bytes l)) by by rewrite length_ints_bytes. by apply ints_back.
Qed.

Lemma nxthdr_none : (size < next + sizeof_cmsghdr)%nat → CMSG_NXTHDR buf size (length pre) = None.
Proof.
  intros H. unfold CMSG_NXTHDR. rewrite msg_len.
  rewrite (proj2 (Z.ltb_ge _ _)) by (unfold CMSG_LEN; lia).
  rewrite Nat2Z.id, align_len. unfold next in H.
  by rewrite (proj2 (Z.ltb_lt _ _)) by lia.
Qed.

Lemma nxthdr_some :
  (next + sizeof_cmsghdr <= size)%nat →
  (next + CMSG_ALIGN (Z.to_nat (cmsg_len next buf)) <= size)%nat →
  CMSG_NXTHDR buf size (length pre) = Some next.
Proof.
  intros H1 H2. unfold CMSG_NXTHDR. rewrite msg_len.
  rewrite (proj2 (Z.ltb_ge _ _)) by (unfold CMSG_LEN; lia).
  rewrite Nat2Z.id, align_len.
  rewrite (proj2 (Z.ltb_ge _ _)) by (fold next in H1; unfold next in *; lia).
  rewrite <- Nat2Z.inj_add, Nat2Z.id. fold next. by rewrite (proj2 (Nat.ltb_ge _ _)).
Qed.
End walk.

(** ** The sender *)

Section send.
Context (l : list Z).
Hypothesis few : (length l <= SCM_MAX_FD)%nat.
Let zeros k := replicate k 0.
Let c2 := CMSG_SPACE (4 * length l).

Lemma send_first :
  put (CMSG_DATA 0) (ints_bytes l)
    (put 0 (header (CMSG_LEN (4 * length l)) SCM_RIGHTS) (zeros (c2 + CMSG_SPACE sizeof_ucred))) =
  msg SCM_RIGHTS l ++ zeros (padding l) ++ zeros (CMSG_SPACE sizeof_ucred).
Proof.
  assert (E : (c2 + CMSG_SPACE sizeof_ucred =
    sizeof_cmsghdr + (4 * length l + (padding l + CMSG_SPACE sizeof_ucred)))%nat).
  { unfold c2, padding, CMSG_SPACE. pose proof (align_bounds (4 * length l)). lia. }
  unfold zeros. rewrite E, !replicate_add.
  pose proof (put_app [] (replicate sizeof_cmsghdr 0)
    (replicate (4 * length l) 0 ++ replicate (padding l) 0 ++ replicate (CMSG_SPACE sizeof_ucred) 0)
    (header (CMSG_LEN (4 * length l)) SCM_RIGHTS) eq_refl) as E1.
  cbn [app length] in E1. rewrite E1.
  pose proof (put_app (header (CMSG_LEN (4 * length l)) SCM_RIGHTS) (replicate (4 * length l) 0)
    (replicate (padding l) 0 ++ replicate (CMSG_SPACE sizeof_ucred) 0) (ints_bytes l)) as E2.
  refine (eq_trans (E2 _) _).
  - by rewrite length_replicate, length_ints_bytes.
  - unfold msg. by rewrite <- app_assoc.
Qed.

Lemma send_next :
  CMSG_NXTHDR (msg SCM_RIGHTS l ++ zeros (padding l) ++ zeros (CMSG_SPACE sizeof_ucred))
    (c2 + CMSG_SPACE sizeof_ucred) 0 = Some c2.
Proof.
  apply (nxthdr_some [] SCM_RIGHTS l _ _ few).
  - unfold c2. cbn [length]. change (CMSG_SPACE sizeof_ucred) with 32%nat. unfold sizeof_cmsghdr. lia.
  - cbn [length app Nat.add]. fold c2. unfold cmsg_len.
    rewrite app_assoc. assert (Hl : length (msg SCM_RIGHTS l ++ zeros (padding l)) = c2).
    { apply length_padded. apply length_replicate. }
    rewrite <- Hl. change (zeros (CMSG_SPACE sizeof_ucred)) with (zeros 8 ++ zeros 24).
    rewrite bytes_app by done. change (unle (zeros 8)) with 0. change (CMSG_ALIGN (Z.to_nat 0)) with 0%nat. lia.
Qed.

Lemma send_second cr : length cr = 3%nat →
  put (CMSG_DATA c2) (ints_bytes cr)
    (put c2 (header (CMSG_LEN sizeof_ucred) SCM_CREDENTIALS)
       (msg SCM_RIGHTS l ++ zeros (padding l) ++ zeros (CMSG_SPACE sizeof_ucred))) =
  (msg SCM_RIGHTS l ++ zeros (padding l)) ++ msg SCM_CREDENTIALS cr ++ zeros (padding cr).
Proof.
  intros three. set (pre := msg SCM_RIGHTS l ++ zeros (padding l)).
  assert (Hl : length pre = c2) by (apply length_padded, length_replicate).
  rewrite app_assoc. fold pre. rewrite <- Hl.
  assert (Hz : zeros (CMSG_SPACE sizeof_ucred) = zeros 16 ++ zeros 12 ++ zeros 4) by done. rewrite Hz.
  rewrite put_app by done.
  replace (pre ++ header (CMSG_LEN sizeof_ucred) SCM_CREDENTIALS ++ zeros 12 ++ zeros 4) with
    ((pre ++ header (CMSG_LEN sizeof_ucred) SCM_CREDENTIALS) ++ zeros 12 ++ zeros 4) by by rewrite <- app_assoc.
  assert (Hd : CMSG_DATA (length pre) = length (pre ++ header (CMSG_LEN sizeof_ucred) SCM_CREDENTIALS)).
  { by rewrite length_app, length_header. }
  rewrite Hd, put_app by by rewrite length_ints_bytes, three.
  unfold msg, padding. rewrite three, <- !app_assoc. done.
Qed.
End send.

(** The open files that opening gives, and what can be read of them. *)
Definition opened (k : Z) (n : nat) : list file := Other <$> seqZ k (Z.of_nat n).
Fixpoint with_texts (k : Z) (ts : list string) (tx : file → string) : file → string :=
  match ts with
  | [] => tx
  | t :: ts => with_texts (k + 1) ts (λ g, if decide (g = Other k) then t else tx g)
  end.

Lemma opened_S k n : opened k (S n) = Other k :: opened (k + 1) n.
Proof.
  unfold opened. rewrite seqZ_cons by lia. rewrite fmap_cons. do 2 f_equal. f_equal; lia.
Qed.

Lemma NoDup_opened k n : NoDup (opened k n).
Proof. apply NoDup_fmap_2; [|apply NoDup_seqZ]. by intros ?? [= ->]. Qed.

Lemma with_texts_below k ts tx j : j < k → with_texts k ts tx (Other j) = tx (Other j).
Proof.
  revert k tx. induction ts as [|t ts IH]; intros k tx Hj; [done|]. simpl.
  rewrite IH by lia. rewrite decide_False; [done|]. intros [= ->]. lia.
Qed.

Lemma with_texts_opened k ts tx : with_texts k ts tx <$> opened k (length ts) = ts.
Proof.
  revert k tx. induction ts as [|t ts IH]; intros k tx; [done|].
  cbn [length]. rewrite opened_S. cbn [fmap list_fmap with_texts]. f_equal; [|apply IH].
  rewrite with_texts_below by lia. by rewrite decide_True.
Qed.

Section sending.
Context {L : Libc}.
Local Abbreviation S' := (pst unit sysc net).

(** A call that does not fail by itself. *)
Lemma quiet_call {A} c (f : net → (Z + A) * net) (s : S') a w :
  s.(world).(results) = [] → f s.(world) = (inr a, w) →
  call c (may_fail f) s = (Ok (inr a), after c w s).
Proof.
  intros Hr Hf. unfold call, may_fail. rewrite Hr. cbn [default head tail].
  replace (with_results [] (world s)) with (world s) by by rewrite <- Hr; destruct (world s).
  change (0 =? 0) with true. cbv iota. by rewrite Hf.
Qed.

Lemma malloc_run msg s :
  s.(world).(results) = [] → alloc msg s = (Ok tt, after (Sys "malloc") s.(world) s).
Proof. intros Hr. unfold alloc. by erewrite run_bind by by apply quiet_call. Qed.

Lemma open_file_run name t s :
  s.(world).(results) = [] → s.(world).(names) name = Some t →
  let w := s.(world) in
  open_file name s = (Ok (lowest_fd w.(fds)), after (Sys "open")
    (with_fds (<[lowest_fd w.(fds) := Other w.(next)]> w.(fds))
       (with_text (λ g, if decide (g = Other w.(next)) then t else w.(text) g) (w.(next) + 1) w)) s).
Proof.
  intros Hr Hn w. unfold open_file.
  erewrite run_bind by (apply quiet_call; [done|by rewrite Hn]). done.
Qed.

Lemma open_all_run files ts s nums m :
  s.(world).(results) = [] → mapM s.(world).(names) files = Some ts →
  let w := s.(world) in
  install_all (opened w.(next) (length files)) w.(fds) = (nums, m) →
  ∃ s', open_all files s = (Ok nums, s') ∧
    s'.(world) = with_fds m (with_text (with_texts w.(next) ts w.(text)) (w.(next) + Z.of_nat (length files)) w).
Proof.
  revert ts s nums m. induction files as [|name files IH]; intros ts s nums m Hr Hn w Hi.
  - cbn in Hn, Hi. injection Hn as <-. injection Hi as <- <-. exists s. split; [done|].
    rewrite Z.add_0_r. subst w. by destruct (world s).
  - apply mapM_Some in Hn as Hn'. destruct ts as [|t ts]; [by apply Forall2_cons_nil_inv in Hn'|].
    apply Forall2_cons in Hn' as [Ht Hts]. apply mapM_Some in Hts.
    cbn [length] in Hi. rewrite opened_S in Hi. cbn [install_all] in Hi.
    destruct (install_all (opened (next w + 1) (length files)) _) as [nums1 m1] eqn:E. simplify_eq.
    cbn [open_all]. rewrite (run_bind _ _ _ _ _ (open_file_run name t s Hr Ht)).
    set (s1 := after _ _ s).
    destruct (IH ts s1 nums1 m) as (s2 & E2 & W2); [done|done|exact E|].
    rewrite (run_bind _ _ _ _ _ E2). exists s2. split; [done|]. rewrite W2. unfold w. cbn.
    replace (next (world s) + Z.of_nat (S (length files))) with (next (world s) + 1 + Z.of_nat (length files)) by lia.
    by destruct (world s).
Qed.

Lemma unixConnect_run s :
  s.(world).(results) = [] →
  let fd := lowest_fd s.(world).(fds) in
  unixConnect s = (Ok fd, after (Sys "connect")
    (with_fds (<[fd := s.(world).(sock)]> s.(world).(fds)) s.(world)) s).
Proof.
  intros Hr fd. unfold unixConnect. by erewrite run_bind by by apply quiet_call.
Qed.

(** After a line on the standard output. *)
Lemma printf_done t (s : S') :
  ∃ s', world s' = world s ∧ trace s' = trace s ∧ printf t s = (Ok tt, s').
Proof. unfold printf. eexists (Pst _ _ _ _). split_and!; [..|done]; done. Qed.
Lemma printf_then {A} t (k : unit → M S' A) s :
  ∃ s', world s' = world s ∧ trace s' = trace s ∧ (printf t ≫= k) s = k tt s'.
Proof. unfold printf. eexists (Pst _ _ _ _). split_and!; [..|done]; done. Qed.

Definition ucred_int (cr : Z * Z * Z) : Prop := is_int cr.1.1 ∧ is_int cr.1.2 ∧ is_int cr.2.

Lemma multi_send_run cr files ts s :
  let w := s.(world) in
  w.(results) = [] → mapM w.(names) files = Some ts → (length files <= SCM_MAX_FD)%nat →
  Z.of_nat (size w.(fds)) + 254 <= INT_MAX → ucred_int cr →
  ∃ s', multi_send true cr files s = (Halt (HExit EXIT_SUCCESS), s') ∧
    s'.(world).(queue) = w.(queue) ++ [Packet (le 4 12345) (opened w.(next) (length files)) cr] ∧
    s'.(world).(text) = with_texts w.(next) ts w.(text).
Proof.
  intros w Hr Hn Hfew Hsize Hcr. destruct cr as [[p u] g]. destruct Hcr as (Hp & Hu & Hg). simpl in Hp, Hu, Hg.
  unfold multi_send. set (n := length files) in *.
  destruct (install_all (opened (next w) n) (fds w)) as [nums m] eqn:Ei.
  destruct (install_all_spec _ _ _ _ Ei) as (Hlen & Hnd & Hm & Hold & _ & Hint).
  assert (Hon : length (opened (next w) n) = n) by (unfold opened; rewrite length_fmap, length_seqZ; lia).
  rewrite Hon in Hlen, Hint.
  assert (Hnums : Forall is_int nums) by (apply Hint; unfold SCM_MAX_FD in Hfew; lia).
  unfold CMSG_FIRSTHDR. rewrite (proj2 (Nat.leb_le _ _)) by (unfold CMSG_SPACE; lia).
  rewrite (run_bind _ _ _ _ _ (malloc_run _ s Hr)).
  match goal with |- context [mbind ?k (printf ?t) ?x] => destruct (printf_then t k x) as (s0 & W0 & _ & ->) end.
  rewrite (run_bind _ _ _ _ _ (malloc_run "calloc" s0 ltac:(by rewrite W0))). set (s1 := after _ _ s0).
  assert (W1 : world s1 = world s) by exact W0.
  destruct (open_all_run files ts s1 nums m) as (s2 & E2 & W2); [by rewrite W1..|].
  rewrite (run_bind _ _ _ _ _ E2). rewrite <- Hlen, send_first, send_next by (rewrite Hlen; done).
  edestruct (@printf_then unit) as (s3 & W3 & _ & ->).
  rewrite (send_second nums [p; u; g]) by done.
  rewrite (run_bind _ _ _ _ _ (unixConnect_run s3 ltac:(by rewrite W3, W2, W1))).
  rewrite W3, W2, W1. cbn [fds with_fds sock]. fold w.
  set (sfd := lowest_fd m). match goal with |- context [after (Sys "connect") ?x s3] => set (w4 := x) end.
  set (s4 := after (Sys "connect") w4 s3).
  set (buf := (msg SCM_RIGHTS nums ++ replicate (padding nums) 0) ++ _).
  destruct (lowest_fd_spec m) as (_ & Hfree & _). fold sfd in Hfree.
  assert (Hm4 : mapM (λ fd, (fds w4) !! fd) nums = Some (opened (next w) n)).
  { apply mapM_Some in Hm. apply mapM_Some. eapply Forall2_impl; [exact Hm|]. intros fd f Hf.
    unfold w4. cbn [fds with_fds]. rewrite lookup_insert_ne; [exact Hf|]. intros <-. simpl in Hf. congruence. }
  assert (Hparse : parse_control (S (CMSG_SPACE (4 * length nums) + CMSG_SPACE sizeof_ucred)) (fds w4) buf
    (CMSG_SPACE (4 * length nums) + CMSG_SPACE sizeof_ucred) 0 [] (self w4) = inr (opened (next w) n, (p, u, g))).
  { unfold buf, msg. rewrite <- !app_assoc.
    pose proof (parse_rights (CMSG_SPACE (4 * length nums) + CMSG_SPACE sizeof_ucred) (fds w4) [] nums _
      (replicate (padding nums) 0 ++ msg SCM_CREDENTIALS [p; u; g] ++ replicate (padding [p; u; g]) 0)
      (CMSG_SPACE (4 * length nums) + CMSG_SPACE sizeof_ucred) [] (self w4) Hnums Hm4) as E1.
    cbn [length app Nat.add] in E1. unfold msg in E1. rewrite <- !app_assoc in E1. rewrite E1.
    - set (pre := msg SCM_RIGHTS nums ++ replicate (padding nums) 0).
      assert (Hpre : length pre = CMSG_SPACE (4 * length nums)) by (apply length_padded, length_replicate).
      pose proof (parse_creds (CMSG_SPACE (4 * length nums) + CMSG_SPACE sizeof_ucred - 1) (fds w4) pre p u g
        (replicate (padding [p; u; g]) 0) (CMSG_SPACE (4 * length nums) + CMSG_SPACE sizeof_ucred)
        ([] ++ opened (next w) n) (self w4)) as E2'.
      rewrite Hpre in E2'. unfold pre, msg in E2'. rewrite <- !app_assoc in E2'.
      replace (S (CMSG_SPACE (4 * length nums) + CMSG_SPACE sizeof_ucred - 1)) with
        (CMSG_SPACE (4 * length nums) + CMSG_SPACE sizeof_ucred)%nat in E2'
        by (change (CMSG_SPACE sizeof_ucred) with 32%nat; lia).
      refine (eq_trans (E2' _ _) _).
      + do 3 (constructor; [done|]). constructor.
      + change (CMSG_LEN sizeof_ucred) with 28%nat. change (CMSG_SPACE sizeof_ucred) with 32%nat. lia.
      + apply parse_end. unfold sizeof_cmsghdr. lia.
    - rewrite Hlen. simpl. lia.
    - pose proof (align_bounds (4 * length nums)). unfold CMSG_LEN, CMSG_SPACE. lia. }
  unfold sendmsg.
  erewrite run_bind; [|apply on_socket_run; [split; [done|apply lookup_insert_eq]|]].
  2:{ cbv beta. change (world s4) with w4. rewrite Hparse. done. }
  edestruct (@printf_then unit) as (s5 & W5 & _ & ->). eexists. split; [done|].
  rewrite W5, Hlen. by split.
Qed.
End sending.

(** ** The receiver *)

Definition cat (l : list string) : string := foldr (λ t u, t +:+ u) "" l.

Lemma written_then l l' : written (l ++ l') = written l +:+ written l'.
Proof.
  induction l as [|[name|t] l IH]; [done| |]; cbn [app written foldr]; fold (written (l ++ l')) (written l).
  - done.
  - by rewrite IH, append_assoc.
Qed.

Lemma split_str n t : take_str n t +:+ drop_str n t = t.
Proof.
  apply chars_inj. unfold take_str, drop_str. by rewrite chars_app, !chars_of_chars, take_drop.
Qed.

Section receiving.
Context {L : Libc}.
Local Abbreviation S' := (pst unit sysc net).

(** What is left alone, and what was written since. *)
Definition shows (s s' : S') (out : string) : Prop :=
  s'.(world).(results) = s.(world).(results) ∧
  written s'.(trace) = written s.(trace) +:+ out.

Lemma shows_refl s : shows s s "".
Proof. split; [done|by rewrite append_nil_r]. Qed.
Lemma shows_trans s1 s2 s3 a b : shows s1 s2 a → shows s2 s3 b → shows s1 s3 (a +:+ b).
Proof. intros [H1 H2] [H3 H4]. split; [congruence|]. by rewrite H4, H2, append_assoc. Qed.

(** A read gives the next part of the file, or ends the loop. *)
Lemma read_body_run fd f s :
  s.(world).(results) = [] → s.(world).(fds) !! fd = Some f →
  let t := s.(world).(text) f in
  ∃ s', read_body fd tt s = (Ok (if decide (t = "") then inr tt else inl tt), s') ∧
    shows s s' (take_str BUF_SIZE t) ∧ s'.(world).(fds) = s.(world).(fds) ∧
    (∀ g, s'.(world).(text) g = if decide (g = f) then drop_str BUF_SIZE t else s.(world).(text) g).
Proof.
  intros Hr Hf t. unfold read_body.
  assert (E : read fd BUF_SIZE s = (Ok (inr (take_str BUF_SIZE t)), after (Sys "read")
    (with_text (λ g, if decide (g = f) then drop_str BUF_SIZE t else text (world s) g)
       (next (world s)) (world s)) s)).
  { apply quiet_call; [done|]. by rewrite Hf. }
  rewrite (run_bind _ _ _ _ _ E). clearbody t. destruct t as [|c t].
  - eexists. split; [done|]. split; [|done]. split; [done|]. cbn [trace after]. by rewrite written_then.
  - change (take_str BUF_SIZE (String c t)) with (String c (take_str (BUF_SIZE - 1) t)). cbv iota.
    eexists. split; [done|]. split; [|done]. split; [done|]. cbn [trace]. rewrite !written_then. simpl.
    rewrite written_then. change (written [Sys "read"]) with "". by rewrite !append_nil_r.
Qed.

(** Reading a file to its end. *)
Lemma read_loop_run fuel fd f s :
  s.(world).(results) = [] → s.(world).(fds) !! fd = Some f →
  (String.length (s.(world).(text) f) < fuel)%nat →
  ∃ s', loop fuel (read_body fd) tt s = (Ok tt, s') ∧ shows s s' (s.(world).(text) f) ∧
    s'.(world).(fds) = s.(world).(fds) ∧
    (∀ g, s'.(world).(text) g = if decide (g = f) then "" else s.(world).(text) g).
Proof.
  revert s. induction fuel as [|fuel IH]; intros s Hr Hf Hlen; [lia|].
  rewrite loop_S. destruct (read_body_run fd f s Hr Hf) as (s1 & E1 & H1 & D1 & T1).
  rewrite (run_bind _ _ _ _ _ E1). destruct (decide (text (world s) f = "")) as [E|E].
  - exists s1. split; [done|]. rewrite E in *. split_and!; [done|done|]. intros g. rewrite T1. done.
  - assert (Hl : (String.length (drop_str BUF_SIZE (text (world s) f)) < fuel)%nat).
    { pose proof (f_equal String.length (split_str BUF_SIZE (text (world s) f))) as Hs.
      rewrite length_append, length_take_str in Hs. unfold BUF_SIZE in *.
      destruct (text (world s) f); [done|]. simpl String.length in *. lia. }
    destruct (IH s1) as (s2 & E2 & H2 & D2 & T2); [by rewrite (proj1 H1)|by rewrite D1| |].
    { by rewrite T1, decide_True. }
    exists s2. split; [exact E2|]. rewrite T1, decide_True in H2 by done. split_and!.
    + rewrite <- (split_str BUF_SIZE (text (world s) f)). by eapply shows_trans.
    + by rewrite D2.
    + intros g. rewrite T2, T1. by destruct (decide (g = f)).
Qed.

Lemma show_fd_run j fd f s :
  s.(world).(results) = [] → s.(world).(fds) !! fd = Some f →
  ∃ s', show_fd j fd s = (Ok tt, s') ∧ shows s s' (s.(world).(text) f) ∧
    s'.(world).(fds) = delete fd s.(world).(fds) ∧
    (∀ g, s'.(world).(text) g = if decide (g = f) then "" else s.(world).(text) g).
Proof.
  intros Hr Hf. unfold show_fd. edestruct (@printf_then L unit) as (s1 & W1 & T1 & ->).
  unfold gets. unfold mbind at 1, M_bind at 1. rewrite W1, Hf.
  destruct (read_loop_run (S (String.length (text (world s) f))) fd f s1) as (s2 & E2 & H2 & D2 & X2);
    [by rewrite W1|by rewrite W1|rewrite W1; lia|].
  rewrite (run_bind _ _ _ _ _ E2). unfold close.
  erewrite run_bind.
  2:{ apply quiet_call; [by rewrite (proj1 H2), W1|]. by rewrite D2, W1, Hf. }
  eexists. split; [done|]. rewrite W1 in *. split_and!.
  - destruct H2 as [R2 O2]. split; cbn [trace world after].
    + cbn. by rewrite R2, W1.
    + rewrite written_then, O2, T1. simpl. by rewrite append_nil_r.
  - done.
  - exact X2.
Qed.

(** All of them, each in its turn. *)
Lemma show_fds_run j nums fl s :
  s.(world).(results) = [] → Forall2 (λ fd f, s.(world).(fds) !! fd = Some f) nums fl →
  NoDup nums → NoDup fl →
  ∃ s', show_fds j nums s = (Ok tt, s') ∧ shows s s' (cat (s.(world).(text) <$> fl)) ∧
    ∀ x, s'.(world).(fds) !! x = if decide (x ∈ nums) then None else s.(world).(fds) !! x.
Proof.
  intros Hr HF. revert j s Hr HF. induction nums as [|fd nums IH] in fl |- *; intros j s Hr HF Hn Hl.
  - apply Forall2_nil_inv_l in HF as ->. exists s. split; [done|]. split; [apply shows_refl|].
    intros x. rewrite decide_False; [done|]. apply not_elem_of_nil.
  - destruct fl as [|f fl]; [by apply Forall2_cons_nil_inv in HF|].
    apply Forall2_cons in HF as [Hf HF]. apply NoDup_cons in Hn as [Hfd Hn]. apply NoDup_cons in Hl as [Hfl Hl].
    destruct (show_fd_run j fd f s Hr Hf) as (s1 & E1 & H1 & D1 & T1).
    cbn [show_fds]. rewrite (run_bind _ _ _ _ _ E1).
    destruct (IH fl (S j) s1) as (s2 & E2 & H2 & D2); [by rewrite (proj1 H1)| |done|done|].
    { rewrite D1. apply Forall2_same_length_lookup in HF as [Hlen HF].
      apply Forall2_same_length_lookup. split; [done|]. intros i x y Hx Hy.
      rewrite lookup_delete_ne; [by eapply HF|]. intros ->. apply Hfd. by eapply list_elem_of_lookup_2. }
    exists s2. split; [done|]. split.
    + cbn [fmap list_fmap cat foldr]. replace (text (world s1) <$> fl) with (text (world s) <$> fl) in H2.
      { by eapply shows_trans. }
      apply list_fmap_ext. intros i g Hg. rewrite T1, decide_False; [done|].
      intros ->. apply Hfl. by eapply list_elem_of_lookup_2.
    + intros x. rewrite D2, D1. destruct (decide (x = fd)) as [->|Hne].
      * rewrite lookup_delete_eq. rewrite (decide_True (P := fd ∈ fd :: nums)) by by left.
        by destruct (decide (fd ∈ nums)).
      * rewrite lookup_delete_ne by done. apply decide_ext. rewrite elem_of_cons. intuition.
Qed.
End receiving.

(** ** Both messages of a packet *)

Lemma split_length {A} n (l : list A) :
  (n <= length l)%nat → ∃ a b, l = a ++ b ∧ length a = n.
Proof.
  intros H. exists (take n l), (drop n l). by rewrite take_drop, length_take, Nat.min_l.
Qed.

Lemma put_two ty1 l1 ty2 l2 junk :
  (CMSG_SPACE (4 * length l1) + CMSG_SPACE (4 * length l2) <= length junk)%nat →
  ∃ pad rest, length pad = padding l1 ∧
    put (CMSG_SPACE (4 * length l1)) (msg ty2 l2) (put 0 (msg ty1 l1) junk) =
    (msg ty1 l1 ++ pad) ++ msg ty2 l2 ++ rest.
Proof.
  intros Hj. pose proof (align_bounds (4 * length l1)). pose proof (align_bounds (4 * length l2)).
  unfold CMSG_SPACE in Hj.
  destruct (split_length (CMSG_LEN (4 * length l1)) junk) as (a & j1 & -> & Ha); [unfold CMSG_LEN; lia|].
  rewrite length_app, Ha in Hj. unfold CMSG_LEN in Hj.
  destruct (split_length (padding l1) j1) as (pad & j2 & -> & Hp); [unfold padding; lia|].
  rewrite length_app, Hp in Hj. unfold padding in Hj.
  destruct (split_length (CMSG_LEN (4 * length l2)) j2) as (b & rest & -> & Hb); [unfold CMSG_LEN; lia|].
  exists pad, rest. split; [done|].
  pose proof (put_app [] a (pad ++ b ++ rest) (msg ty1 l1)) as E. cbn [app length] in E.
  rewrite E, app_assoc by by rewrite length_msg.
  rewrite <- (length_padded ty1 l1 pad Hp). apply put_app. by rewrite length_msg.
Qed.

(** Where there is room, each message is given whole. *)
Lemma put_creds_fits p u g buf size off :
  (off + CMSG_SPACE sizeof_ucred <= size)%nat →
  put_creds (p, u, g) buf size off =
    (put off (msg SCM_CREDENTIALS [p; u; g]) buf, (off + CMSG_SPACE sizeof_ucred)%nat, false).
Proof.
  intros H. unfold put_creds. change (CMSG_SPACE sizeof_ucred) with 32%nat in *.
  change (CMSG_LEN sizeof_ucred) with 28%nat.
  rewrite (proj2 (Nat.ltb_ge (size - off) _)) by (unfold sizeof_cmsghdr; lia).
  by rewrite (Nat.min_l 28), (Nat.min_l 32) by lia.
Qed.

Lemma put_rights_fits l m nums m' buf size off :
  install_all l m = (nums, m') → (0 < length l)%nat → (off + CMSG_SPACE (4 * length l) <= size)%nat →
  put_rights l m buf size off =
    (put off (msg SCM_RIGHTS nums) buf, (off + CMSG_SPACE (4 * length l))%nat, false, m').
Proof.
  intros Hi Hl H. unfold put_rights. pose proof (align_bounds (4 * length l)).
  destruct (install_all_spec _ _ _ _ Hi) as (Hn & _). unfold CMSG_SPACE in *.
  assert (length l <= (size - off - sizeof_cmsghdr) / 4)%nat by (apply Nat.div_le_lower_bound; lia).
  rewrite Nat.min_l, firstn_all, Hi by done.
  rewrite (proj2 (Nat.eqb_neq _ _)), (Nat.min_l (sizeof_cmsghdr + _)) by lia.
  unfold msg. by rewrite Hn, Nat.ltb_irrefl.
Qed.

(** The credentials and the descriptors, in the order the kernel chooses. *)
Lemma give_both p u g files dt junk w nums m :
  w.(passcred) = true → install_all files w.(fds) = (nums, m) →
  (0 < length files <= SCM_MAX_FD)%nat → length junk = multi_size →
  let '(ty1, l1, ty2, l2) :=
    if w.(creds_first) then (SCM_CREDENTIALS, [p; u; g], SCM_RIGHTS, nums)
    else (SCM_RIGHTS, nums, SCM_CREDENTIALS, [p; u; g]) in
  ∃ pad rest, length pad = padding l1 ∧
    give_control (Packet dt files (p, u, g)) junk multi_size w =
    (Received 0 [] ((msg ty1 l1 ++ pad) ++ msg ty2 l2 ++ rest)
       (CMSG_SPACE (4 * length l1) + CMSG_SPACE (4 * length l2)) false, with_fds m w).
Proof.
  intros Hp Hi Hlen Hj. destruct (install_all_spec _ _ _ _ Hi) as (Hn & _).
  assert (Hroom : (CMSG_SPACE (4 * length nums) + CMSG_SPACE sizeof_ucred <= multi_size)%nat).
  { pose proof (align_bounds (4 * length nums)). unfold SCM_MAX_FD in Hlen.
    change multi_size with 4144%nat. change (CMSG_SPACE sizeof_ucred) with 32%nat.
    unfold CMSG_SPACE, sizeof_cmsghdr. lia. }
  unfold give_control. rewrite Hp. destruct (creds_first w); cbn [creds rights].
  - destruct (put_two SCM_CREDENTIALS [p; u; g] SCM_RIGHTS nums junk) as (pad & rest & Hpad & E).
    { rewrite Hj, Nat.add_comm. exact Hroom. }
    exists pad, rest. split; [done|].
    rewrite put_creds_fits by lia. rewrite (put_rights_fits _ _ nums m) by (done || rewrite <- ?Hn; lia).
    rewrite <- Hn. rewrite <- E. done.
  - destruct (put_two SCM_RIGHTS nums SCM_CREDENTIALS [p; u; g] junk) as (pad & rest & Hpad & E).
    { rewrite Hj. exact Hroom. }
    exists pad, rest. split; [done|].
    rewrite (put_rights_fits _ _ nums m) by (done || rewrite <- ?Hn; lia).
    rewrite put_creds_fits by (rewrite <- Hn; lia). rewrite <- Hn. rewrite <- E. done.
Qed.

Section walking.
Context {L : Libc}.
Local Abbreviation S' := (pst unit sysc net).

Lemma shows_same (s s' : S') : world s' = world s → trace s' = trace s → shows s s' "".
Proof. intros W T. split; [by rewrite W|]. by rewrite T, append_nil_r. Qed.

Lemma loop_next {A B} fuel (body : A → M S' (A + B)) a s a' s' :
  body a s = (Ok (inl a'), s') → loop (S fuel) body a s = loop fuel body a' s'.
Proof. intros E. by rewrite loop_S, (run_bind _ _ _ _ _ E). Qed.

(** The message at an offset: what is shown of it, and the descriptors that are
    closed after it. *)
Lemma walk_rights pre l rest clen fl s :
  let buf := pre ++ msg SCM_RIGHTS l ++ rest in
  s.(world).(results) = [] → Forall2 (λ fd f, s.(world).(fds) !! fd = Some f) l fl →
  NoDup l → NoDup fl → Forall is_int l → (length l <= SCM_MAX_FD)%nat →
  ∃ s', walk_body buf clen (Some (length pre)) s = (Ok (inl (CMSG_NXTHDR buf clen (length pre))), s') ∧
    shows s s' (cat (s.(world).(text) <$> fl)) ∧
    ∀ x, s'.(world).(fds) !! x = if decide (x ∈ l) then None else s.(world).(fds) !! x.
Proof.
  intros buf Hr HF Hn Hfl Hint Hfew. unfold walk_body.
  edestruct (@printf_then L (option nat + unit)) as (s1 & W1 & T1 & ->).
  edestruct (@printf_then L (option nat + unit)) as (s2 & W2 & T2 & ->).
  unfold buf. rewrite msg_len, msg_level, msg_type by done. fold buf.
  change (negb (SOL_SOCKET =? SOL_SOCKET)) with false. change (SCM_RIGHTS =? SCM_RIGHTS) with true. cbv iota zeta.
  rewrite Nat2Z.id. change (CMSG_LEN 0) with sizeof_cmsghdr. rewrite data_length, div_four.
  pose proof (msg_data pre SCM_RIGHTS l rest Hint) as Hd. fold buf in Hd. rewrite Hd.
  match goal with |- context [mbind ?k (printf ?t)] =>
    destruct (printf_then t k s2) as (s3 & W3 & T3 & E3) end.
  cbv beta in E3. match type of E3 with _ = mbind ?k (printf ?t) s3 =>
    destruct (printf_then t k s3) as (s4 & W4 & T4 & E4) end.
  assert (W : world s4 = world s) by congruence. assert (T : trace s4 = trace s) by congruence.
  set (s5 := after (Sys "malloc") (world s4) s4).
  assert (W5 : world s5 = world s) by exact W.
  destruct (show_fds_run 0 l fl s5) as (s6 & E6 & H6 & D6); [by rewrite W5|by rewrite W5|done|done|].
  erewrite run_bind.
  2:{ rewrite E3, E4. cbv beta. rewrite (run_bind _ _ _ _ _ (malloc_run "calloc" s4 ltac:(by rewrite W))). exact E6. }
  exists s6. split; [done|]. rewrite W5 in *. split; [|done].
  refine (shows_trans s s5 s6 "" _ _ H6). split; [by rewrite W5|].
  unfold s5. cbn [trace after]. by rewrite written_then, T.
Qed.

Lemma walk_creds pre p u g rest clen s :
  let buf := pre ++ msg SCM_CREDENTIALS [p; u; g] ++ rest in
  Forall is_int [p; u; g] →
  ∃ s', walk_body buf clen (Some (length pre)) s = (Ok (inl (CMSG_NXTHDR buf clen (length pre))), s') ∧
    world s' = world s ∧ trace s' = trace s.
Proof.
  intros buf Hint. unfold walk_body.
  edestruct (@printf_then L (option nat + unit)) as (s1 & W1 & T1 & ->).
  edestruct (@printf_then L (option nat + unit)) as (s2 & W2 & T2 & ->).
  unfold buf. rewrite msg_len, msg_level, msg_type by (done || (vm_compute; lia)). fold buf.
  pose proof (msg_data pre SCM_CREDENTIALS [p; u; g] rest Hint) as Hd.
  change (4 * length [p; u; g])%nat with sizeof_ucred in *. change (length [p; u; g]) with 3%nat in *.
  fold buf in Hd. rewrite Hd.
  destruct (printf_done ("SCM_CREDENTIALS: pid=" +:+ fmt_d p +:+ ", uid=" +:+
               fmt_d (to_unsigned 32 u) +:+ ", gid=" +:+ fmt_d (to_unsigned 32 g) +:+ nl) s2)
    as (s3 & W3 & T3 & E3).
  exists s3. split; [|split; congruence].
  change (negb (SOL_SOCKET =? SOL_SOCKET)) with false. change (SCM_CREDENTIALS =? SCM_RIGHTS) with false.
  change (SCM_CREDENTIALS =? SCM_CREDENTIALS) with true.
  change (negb (Z.of_nat (CMSG_LEN sizeof_ucred) =? Z.of_nat (CMSG_LEN sizeof_ucred))) with false.
  cbv iota. by rewrite (run_bind _ _ _ _ _ E3).
Qed.

(** The whole walk over the two messages. *)
Lemma walk_both p u g nums fl w buf clen fuel s pad rest :
  let '(ty1, l1, ty2, l2) :=
    if creds_first w then (SCM_CREDENTIALS, [p; u; g], SCM_RIGHTS, nums)
    else (SCM_RIGHTS, nums, SCM_CREDENTIALS, [p; u; g]) in
  buf = (msg ty1 l1 ++ pad) ++ msg ty2 l2 ++ rest →
  clen = (CMSG_SPACE (4 * length l1) + CMSG_SPACE (4 * length l2))%nat → length pad = padding l1 →
  s.(world).(results) = [] → Forall2 (λ fd f, s.(world).(fds) !! fd = Some f) nums fl →
  NoDup nums → NoDup fl → Forall is_int nums → Forall is_int [p; u; g] → (length nums <= SCM_MAX_FD)%nat →
  ∃ s', loop (S (S (S fuel))) (walk_body buf clen) (Some 0%nat) s = (Ok tt, s') ∧
    shows s s' (cat (s.(world).(text) <$> fl)) ∧
    ∀ x, s'.(world).(fds) !! x = if decide (x ∈ nums) then None else s.(world).(fds) !! x.
Proof.
  assert (Next : ∀ ty1 l1 ty2 l2, (length l1 <= SCM_MAX_FD)%nat → (length l2 <= SCM_MAX_FD)%nat →
    length pad = padding l1 →
    let buf := (msg ty1 l1 ++ pad) ++ msg ty2 l2 ++ rest in
    let clen := (CMSG_SPACE (4 * length l1) + CMSG_SPACE (4 * length l2))%nat in
    CMSG_NXTHDR buf clen 0 = Some (length (msg ty1 l1 ++ pad)) ∧
    CMSG_NXTHDR buf clen (length (msg ty1 l1 ++ pad)) = None).
  { intros ty1 l1 ty2 l2 F1 F2 Hpad b c.
    pose proof (length_padded ty1 l1 pad Hpad) as Hlen.
    pose proof (align_bounds (4 * length l2)) as Ha. split.
    - unfold b. rewrite <- app_assoc, Hlen. apply (nxthdr_some [] ty1 l1 _ _ F1); cbn [length app Nat.add].
      + unfold c, CMSG_SPACE. lia.
      + rewrite app_assoc, <- Hlen, msg_len, Nat2Z.id, align_len, Hlen by done. done.
    - apply nxthdr_none; [done|]. unfold c. rewrite Hlen. unfold sizeof_cmsghdr. lia. }
  destruct (creds_first w); intros -> -> Hpad Hr HF Hn Hfl Hint Hcr Hfew.
  - destruct (Next SCM_CREDENTIALS [p; u; g] SCM_RIGHTS nums ltac:(vm_compute; lia) Hfew Hpad) as [N1 N2].
    destruct (walk_creds [] p u g (pad ++ msg SCM_RIGHTS nums ++ rest)
      (CMSG_SPACE (4 * length [p; u; g]) + CMSG_SPACE (4 * length nums)) s Hcr) as (s1 & E1 & W1 & T1).
    change (length (@nil Z)) with 0%nat in E1. rewrite app_nil_l, app_assoc, N1 in E1.
    rewrite (loop_next _ _ _ _ _ _ E1).
    destruct (walk_rights (msg SCM_CREDENTIALS [p; u; g] ++ pad) nums rest
      (CMSG_SPACE (4 * length [p; u; g]) + CMSG_SPACE (4 * length nums)) fl s1)
      as (s2 & E2 & H2 & D2); [by rewrite W1|by rewrite W1|done..|].
    rewrite N2 in E2. rewrite (loop_next _ _ _ _ _ _ E2).
    exists s2. split; [done|]. rewrite W1 in *. split; [|done].
    exact (shows_trans _ _ _ _ _ (shows_same _ _ W1 T1) H2).
  - destruct (Next SCM_RIGHTS nums SCM_CREDENTIALS [p; u; g] Hfew ltac:(vm_compute; lia) Hpad) as [N1 N2].
    destruct (walk_rights [] nums (pad ++ msg SCM_CREDENTIALS [p; u; g] ++ rest)
      (CMSG_SPACE (4 * length nums) + CMSG_SPACE (4 * length [p; u; g])) fl s)
      as (s1 & E1 & H1 & D1); [done..|].
    change (length (@nil Z)) with 0%nat in E1. rewrite app_nil_l, app_assoc, N1 in E1.
    rewrite (loop_next _ _ _ _ _ _ E1).
    destruct (walk_creds (msg SCM_RIGHTS nums ++ pad) p u g rest
      (CMSG_SPACE (4 * length nums) + CMSG_SPACE (4 * length [p; u; g])) s1 Hcr) as (s2 & E2 & W2 & T2).
    rewrite N2 in E2. rewrite (loop_next _ _ _ _ _ _ E2).
    exists s2. split; [done|]. rewrite W2. split; [|done].
    rewrite <- (append_nil_r (cat _)). exact (shows_trans _ _ _ _ _ H1 (shows_same _ _ W2 T2)).
Qed.
End walking.

Section transfer.
Context {L : Libc}.
Local Abbreviation S' := (pst unit sysc net).

Lemma multi_recv_run sfd junk djunk files cr q s :
  connected sfd s.(world) → s.(world).(passcred) = true →
  s.(world).(queue) = Packet (le 4 12345) files cr :: q → ucred_int cr → NoDup files →
  (0 < length files <= SCM_MAX_FD)%nat → Z.of_nat (size s.(world).(fds)) + 253 <= INT_MAX →
  length junk = multi_size →
  ∃ s', multi_recv sfd (-1) junk djunk s = (Halt (HExit EXIT_SUCCESS), s') ∧
    s'.(world).(fds) = s.(world).(fds) ∧
    written s'.(trace) = written s.(trace) +:+ cat (s.(world).(text) <$> files).
Proof.
  intros Hc Hp Hq Hcr Hnd Hlen Hsize Hj. destruct cr as [[p u] g]. destruct Hcr as (Ip & Iu & Ig). simpl in Ip, Iu, Ig.
  destruct (install_all files (fds (world s))) as [nums m] eqn:Ei.
  destruct (install_all_spec _ _ _ _ Ei) as (Hn & Hnn & Hm & Hnew & Hold & Hint).
  assert (Hnums : Forall is_int nums) by (apply Hint; unfold SCM_MAX_FD in Hlen; lia).
  pose proof (give_both p u g files (le 4 12345) junk (world s) nums m Hp Ei Hlen Hj) as Hg.
  pose proof (λ pad rest buf clen s1 fuel, walk_both p u g nums files (world s) buf clen fuel s1 pad rest) as Hw.
  destruct (if creds_first (world s) then _ else _) as [[[ty1 l1] ty2] l2].
  destruct Hg as (pad & rest & Hpad & Hg).
  unfold multi_recv. change (-1 =? -1) with true. cbv iota.
  rewrite (run_bind _ _ _ _ _ (recvmsg_run _ _ _ _ _ _ _ _ _ Hc Hq Hg)).
  set (w1 := with_queue _ _). cbn [nr got control controllen truncated data negb].
  change (Nat.min 4 (length (le 4 12345))) with 4%nat. change (0 <? 4)%nat with true. cbn [when].
  set (s1 := after (Sys "recvmsg") w1 s).
  match goal with |- context [mbind ?k (printf ?t)] =>
    destruct (printf_then t k s1) as (s2 & W2 & T2 & ->) end.
  match goal with |- context [mbind ?k (printf ?t)] =>
    destruct (printf_then t k s2) as (s3 & W3 & T3 & ->) end.
  set (clen := (CMSG_SPACE (4 * length l1) + CMSG_SPACE (4 * length l2))%nat) in *.
  assert (Hclen : (sizeof_cmsghdr <= clen)%nat) by (unfold clen, CMSG_SPACE; lia).
  unfold CMSG_FIRSTHDR. rewrite (proj2 (Nat.leb_le _ _) Hclen).
  assert (W : world s3 = w1) by by rewrite W3, W2.
  destruct (Hw pad rest _ clen s3 (clen - 1)%nat eq_refl eq_refl Hpad) as (s4 & E4 & [_ H4] & D4);
    try done; rewrite ?W.
  - apply Hc.
  - by apply mapM_Some in Hm.
  - by rewrite Forall_cons, Forall_cons, Forall_singleton.
  - rewrite Hn. apply Hlen.
  - replace (S (S (S (clen - 1)))) with (S (S clen)) in E4 by (unfold sizeof_cmsghdr in Hclen; lia).
    do 2 (rewrite (run_bind skip _ s3 tt s3) by done). rewrite (run_bind _ _ _ _ _ E4). eexists. split; [done|]. cbn [world trace]. split.
    + apply map_eq. intros x. rewrite D4, W. change (fds w1) with m. destruct (decide (x ∈ nums)) as [Hx|Hx].
      * symmetry. by apply Hnew.
      * by apply Hold.
    + rewrite H4, T3, T2. unfold s1. cbn [trace after]. rewrite written_then, W.
      change (written [Sys "recvmsg"]) with "". by rewrite append_nil_r.
Qed.

(** *** The programs without options *)

Lemma multi_send_main_plain pname files s :
  files ≠ [] → Forall (λ a, is_option a = false) files →
  multi_send_main (pname :: files) s = multi_send true s.(world).(self) files s.
Proof.
  intros Hne Hf. unfold multi_send_main, gets. cbn [head tail default].
  unfold mbind at 1, M_bind at 1. destruct (self (world s)) as [[p u] g].
  assert (E : getopt "dnp:u:g:" files = ([], files)) by by apply getopt_plain.
  rewrite E. destruct files; done.
Qed.

Lemma written_after n w s : written (after (Sys n) w s).(trace) = written s.(trace).
Proof. cbn [trace after]. rewrite written_then. apply append_nil_r. Qed.

Lemma new_socket_run name msg f s :
  s.(world).(results) = [] →
  let fd := lowest_fd s.(world).(fds) in
  new_socket name msg f s =
    (Ok fd, after (Sys name) (with_fds (<[fd := f s.(world)]> s.(world).(fds)) s.(world)) s).
Proof. intros Hr fd. unfold new_socket. by erewrite run_bind by by apply quiet_call. Qed.

(** The receiver has a connection, and the option for credentials, when it comes
    to [recvmsg]. *)
Lemma multi_recv_main_plain pname junk djunk s :
  s.(world).(results) = [] →
  let lfd := lowest_fd s.(world).(fds) in
  let m := <[lfd := listener]> s.(world).(fds) in
  let sfd := lowest_fd m in
  ∃ s', multi_recv_main [pname] junk djunk s = multi_recv sfd (-1) junk djunk s' ∧
    s'.(world) = with_passcred (with_fds (<[sfd := s.(world).(sock)]> m) s.(world)) ∧
    written s'.(trace) = written s.(trace).
Proof.
  intros Hr lfd m sfd. unfold multi_recv_main. cbn [head tail default].
  rewrite (run_bind _ _ _ _ _ (malloc_run _ s Hr)). change (getopt "dn:" []) with (@nil opt_event, @nil string).
  set (s1 := after _ _ s). cbv iota beta zeta. cbn [recv_options].
  erewrite run_bind by reflexivity. cbv iota beta.
  rewrite (run_bind _ _ _ _ _ (quiet_call (Sys "remove") (λ w, (inr tt, w)) s1 tt (world s1) Hr eq_refl)).
  set (s2 := after _ _ s1). erewrite run_bind by reflexivity. cbv iota beta. erewrite run_bind by reflexivity.
  erewrite run_bind.
  2:{ rewrite (run_bind _ _ _ _ _ (new_socket_run "bind" "unixBind" (λ _, listener) s2 Hr)). set (s3 := after _ _ s2).
      rewrite (run_bind _ _ _ _ _ (quiet_call (Sys "listen") (λ w, (inr tt, w)) s3 tt (world s3) Hr eq_refl)).
      set (s4 := after _ _ s3). cbv iota beta. erewrite run_bind by reflexivity.
      exact (new_socket_run "accept" "accept" sock s4 Hr). }
  match goal with |- context [mbind ?k (call (Sys "setsockopt") ?f) ?x] => set (s5 := x) end.
  change (lowest_fd _) with sfd.
  erewrite run_bind.
  2:{ apply (on_socket_run (Sys "setsockopt") (λ w, (inr tt, with_passcred w)) sfd s5 tt); [|reflexivity].
      split; [exact Hr|]. apply lookup_insert_eq. }
  erewrite run_bind by reflexivity. eexists. split; [reflexivity|]. split; [reflexivity|].
  unfold s5, s2, s1. by rewrite !written_after.
Qed.

(** C15: when no call of the two programs fails and no write is short, on an empty
    queue, with between 1 and 253 ([SCM_MAX_FD]) files to send that exist and whose
    names do not look like options, and so few descriptors open that the new ones
    are ints, descriptors go from [scm_multi_send] to [scm_multi_recv] and are used
    there: the sender opens the files it is given and sends their descriptors with
    its credentials; a receiver to which the packet comes, in whichever order the
    kernel puts the two control messages into its buffer and whatever was in the
    buffer before, writes exactly the contents of the files, in the order they were
    named, to its standard output, has closed every descriptor it was given (what
    is left is what it had and its own two sockets), and exits with success. *)
Theorem multi_transfer pname files ts s :
  let w := s.(world) in
  w.(results) = [] → w.(queue) = [] → mapM w.(names) files = Some ts →
  Forall (λ a, is_option a = false) files →
  (0 < length files <= SCM_MAX_FD)%nat → Z.of_nat (size w.(fds)) + 254 <= INT_MAX → ucred_int w.(self) →
  ∃ s', multi_send_main (pname :: files) s = (Halt (HExit EXIT_SUCCESS), s') ∧
    ∀ r rname junk djunk,
      r.(world).(queue) = s'.(world).(queue) → r.(world).(text) = s'.(world).(text) →
      r.(world).(results) = [] → Z.of_nat (size r.(world).(fds)) + 256 <= INT_MAX → length junk = multi_size →
      ∃ r', multi_recv_main [rname] junk djunk r = (Halt (HExit EXIT_SUCCESS), r') ∧
        (let lfd := lowest_fd r.(world).(fds) in
         let m := <[lfd := listener]> r.(world).(fds) in
         r'.(world).(fds) = <[lowest_fd m := r.(world).(sock)]> m) ∧
        written r'.(trace) = written r.(trace) +:+ cat ts.
Proof.
  intros w Hr Hq Hn Ho Hlen Hsize Hcr.
  destruct (multi_send_run w.(self) files ts s Hr Hn (proj2 Hlen) Hsize Hcr) as (s' & E & Q & T).
  exists s'. split.
  { rewrite multi_send_main_plain; [exact E| |done]. intros ->. simpl in Hlen. lia. }
  intros r rname junk djunk Hrq Hrt Hrr Hrs Hj.
  destruct (multi_recv_main_plain rname junk djunk r Hrr) as (r1 & E1 & W1 & T1). rewrite E1.
  set (m := <[lowest_fd (fds (world r)) := listener]> (fds (world r))) in *. set (sfd := lowest_fd m) in *.
  assert (Hts : length files = length ts) by (apply mapM_Some in Hn; by eapply Forall2_length).
  assert (Hol : length (opened (next w) (length files)) = length files)
    by (unfold opened; rewrite length_fmap, length_seqZ; lia).
  fold w in Q, T. rewrite Hq in Q. rewrite Q in Hrq.
  assert (Hm : (size (fds (world r1)) <= 2 + size (fds (world r)))%nat).
  { rewrite W1. cbn. unfold m. rewrite !map_size_insert. repeat case_match; simpl; lia. }
  destruct (multi_recv_run sfd junk djunk (opened (next w) (length files)) w.(self) [] r1) as (r' & E' & D & X);
    try done; rewrite ?Hol; try done.
  - split; rewrite W1; [done|]. apply lookup_insert_eq.
  - by rewrite W1.
  - by rewrite W1.
  - apply NoDup_opened.
  - lia.
  - exists r'. split; [done|]. split; [by rewrite D, W1|].
    by rewrite X, W1, T1; cbn; rewrite Hrt, T, Hts, with_texts_opened.
Qed.
End transfer.

(** ** Concrete processes *)

Definition demo_names (name : string) : option string :=
  if decide (name = "a") then Some "first file" else if decide (name = "b") then Some ("second" +:+ nl) else None.
Definition demo_net (m : gmap Z file) (q : list packet) (tx : file → string) (pass : bool) : net :=
  Net m (Other 0) q demo_names tx 7 (10, 1000, 1000) pass true [].
Definition demo_fds : gmap Z file := {[ 0 := Other 1; 1 := Other 1; 3 := Other 0 ]}.
Definition demo_proc (w : net) : pst unit sysc net := Pst (Proc 0 [] "" "" []) tt [] w.

(** One descriptor, and a packet with two. *)
Lemma recvfd_spec_witness :
  let L := {| strerror := λ _, ""; io_errno := id |} in
  let junk := replicate control_size 170 in
  let s rs := demo_proc (demo_net demo_fds [Packet (le 4 12345) rs (10, 0, 0)] (λ _, "") false) in
  (∃ s', recvfd 3 None junk (s [Other 5]) = (Ok (2, le 4 12345), s') ∧
     s'.(world).(fds) !! 2 = Some (Other 5)) ∧
  ∃ s', recvfd 3 None junk (s [Other 5; Other 6]) = (Ok (-1, le 4 12345), s') ∧
     errno s'.(pr) = EINVAL ∧ s'.(world).(fds) !! 4 = Some (Other 6).
Proof.
  intros L junk s. split.
  - destruct (recvfd_spec 3 None junk (Packet (le 4 12345) [Other 5] (10, 0, 0)) [] (s [Other 5]))
      as (v & s' & E & V & F); [done|done|done|done|vm_compute; discriminate|].
    assert (Hv : v = 2) by (rewrite V; reflexivity). rewrite Hv in E, F.
    exists s'. split; [exact E|]. by rewrite F.
  - destruct (recvfd_spec 3 None junk (Packet (le 4 12345) [Other 5; Other 6] (10, 0, 0)) [] (s [Other 5; Other 6]))
      as (v & s' & E & V & Er & F); [done|done|done|done|vm_compute; discriminate|].
    rewrite V in E. exists s'. split; [exact E|]. split; [exact Er|]. by rewrite F.
Defined.

(** Two files are shown by a receiver that had three descriptors. *)
Lemma multi_transfer_witness :
  let L := {| strerror := λ _, ""; io_errno := id |} in
  ∃ s', multi_send_main ["scm_multi_send"; "b"; "a"] (demo_proc (demo_net ∅ [] (λ _, "") false)) =
      (Halt (HExit EXIT_SUCCESS), s') ∧
    ∃ r', multi_recv_main ["scm_multi_recv"] (replicate multi_size 170) [0; 0; 0; 0]
        (demo_proc (demo_net demo_fds s'.(world).(queue) s'.(world).(text) false)) = (Halt (HExit EXIT_SUCCESS), r') ∧
      written r'.(trace) = "second" +:+ nl +:+ "first file".
Proof.
  intros L. destruct (multi_transfer "scm_multi_send" ["b"; "a"] ["second" +:+ nl; "first file"]
    (demo_proc (demo_net ∅ [] (λ _, "") false))) as (s' & E & H);
    [done|done|done|by repeat constructor|unfold SCM_MAX_FD; simpl; lia|vm_compute; discriminate|
     by repeat split; vm_compute|].
  exists s'. split; [exact E|].
  destruct (H (demo_proc (demo_net demo_fds s'.(world).(queue) s'.(world).(text) false)) "scm_multi_recv"
    (replicate multi_size 170) [0; 0; 0; 0]) as (r' & E' & _ & W);
    [done|done|done|vm_compute; discriminate|apply length_replicate|].
  exists r'. split; [exact E'|]. exact W.
Defined.
