(* ===== verification/FileServer.v ===== *)
(** A file server over message queues: [svmsg/svmsg_file_server.c] and
    [svmsg_file_client.c].

    A queue is the list of its messages, and the client's queue is the only
    thing a child of the server and the client share.  Files and the data of
    messages are strings of bytes.  Calls that can fail take their error from an
    arbitrary list, and a read may give less than what was asked for. *)
From stdpp Require Import gmap.
From S2P Require Import Prelude CLib ErrorFunctions Proc.
Local Open Scope Z_scope.

(** ** [svmsg_file.h] *)

Definition RESP_MSG_SIZE : nat := Z.to_nat 8192.
Definition RESP_MT_FAILURE : Z := 1.
Definition RESP_MT_DATA : Z := 2.
Definition RESP_MT_END : Z := 3.

Record requestMsg := Request { clientId : Z; pathname : string }.
Record responseMsg := Response { mtype : Z; data : string }.

(** ** The world of the processes *)

(** [reads]: for each [read] to come an error or the most bytes it gives (none
    left: all that is asked for); [results]: the error of each other call to
    come, 0 or none left where it succeeds; [forks]: as the results of [fork],
    the error negated. *)
Record mqs := Mqs {
  files : string → option string;
  server_queue : option (list requestMsg);
  queues : gmap Z (list responseMsg);
  next_id : Z;
  reads : list (Z + nat); results : list Z; forks : list Z
}.

Definition with_server (q : option (list requestMsg)) (w : mqs) : mqs :=
  Mqs w.(files) q w.(queues) w.(next_id) w.(reads) w.(results) w.(forks).
Definition with_queues (q : gmap Z (list responseMsg)) (n : Z) (w : mqs) : mqs :=
  Mqs w.(files) w.(server_queue) q n w.(reads) w.(results) w.(forks).
Definition with_machine (r : list (Z + nat)) (e f : list Z) (w : mqs) : mqs :=
  Mqs w.(files) w.(server_queue) w.(queues) w.(next_id) r e f.

Definition fallible {A} (f : mqs → (Z + A) * mqs) (w : mqs) : (Z + A) * mqs :=
  let e := default 0 (head w.(results)) in
  let w := with_machine w.(reads) (tail w.(results)) w.(forks) w in
  if e =? 0 then f w else (inl e, w).

Section file_server.
Context {L : Libc}.
(** The variable is what is left to read of the open file. *)
Local Abbreviation P := (M (pst string string mqs)).

Definition open_file (path : string) : P (Z + unit) :=
  r ← call "open" (fallible (λ w,
    match w.(files) path with Some t => (inr t, w) | None => (inl ENOENT, w) end));
  match r with
  | inl e => mret (inl e)
  | inr t => put_vars (λ _, t);; mret (inr tt)
  end.

(** The bytes read; an empty string at the end of the file. *)
Definition read_file (n : nat) : P (Z + string) :=
  rest ← get_vars;
  r ← call "read" (λ w,
    let w' := with_machine (tail w.(reads)) w.(results) w.(forks) w in
    match w.(reads) with
    | [] => (inr (take_str n rest), w)
    | inl e :: _ => (inl e, w')
    | inr k :: _ => (inr (take_str (Nat.min n (S k)) rest), w')
    end);
  match r with
  | inl e => mret (inl e)
  | inr t => put_vars (drop_str (String.length t));; mret (inr t)
  end.

Definition msgsnd (id : Z) (m : responseMsg) : P (Z + unit) := call "msgsnd" (fallible (λ w,
  match w.(queues) !! id with
  | None => (inl EINVAL, w)
  | Some l => (inr tt, with_queues (<[id := l ++ [m]]> w.(queues)) w.(next_id) w)
  end)).

(** Where the queue is empty the process waits for ever. *)
Definition msgrcv (id : Z) : P (Z + responseMsg) := λ s,
  match s.(world).(queues) !! id with
  | Some [] => (Halt HFuel, s)
  | q =>
      call "msgrcv" (fallible (λ w,
        match q with
        | Some (m :: l) => (inr m, with_queues (<[id := l]> w.(queues)) w.(next_id) w)
        | _ => (inl EINVAL, w)
        end)) s
  end.

(** ** The server *)

(** [while ((numRead = read(fd, resp.data, RESP_MSG_SIZE)) > 0) ...] *)
Definition send_body (id : Z) (_ : unit) : P (unit + unit) :=
  r ← read_file RESP_MSG_SIZE;
  match r with
  | inl _ => mret (inr tt)
  | inr EmptyString => mret (inr tt)
  | inr t =>
      s ← msgsnd id (Response RESP_MT_DATA t);
      mret (match s with inl _ => inr tt | inr _ => inl tt end)
  end.

Definition serveRequest (req : requestMsg) : P unit :=
  o ← open_file req.(pathname);
  match o with
  | inl _ =>
      msgsnd req.(clientId) (Response RESP_MT_FAILURE ("Couldn't open" +:+ String Ascii.zero ""));;
      p_exit EXIT_FAILURE
  | inr _ =>
      rest ← get_vars;
      loop (S (String.length rest)) (send_body req.(clientId)) tt;;
      msgsnd req.(clientId) (Response RESP_MT_END "");;
      skip
  end.

(** A turn of the server's loop; the child is a copy that serves the request. *)
Definition server_body (_ : unit) : P (unit + unit) :=
  r ← call "msgrcv" (fallible (λ w,
    match w.(server_queue) with
    | Some (m :: l) => (inr m, with_server (Some l) w)
    | _ => (inl EINVAL, w)
    end));
  match r with
  | inl _ =>
      e ← get_errno;
      if e =? EINTR then mret (inl tt) else p_systmWrn "msgrcv";; mret (inr tt)
  | inr req =>
      f ← call "fork" (λ w,
        match w.(forks) with
        | [] => (inl EAGAIN, w)
        | f :: l =>
            let w := with_machine w.(reads) w.(results) l w in
            if f <? 0 then (inl (- f), w) else (inr f, w)
        end);
      match f with
      | inl _ => p_systmWrn "fork";; mret (inr tt)
      | inr pid =>
          if pid =? 0 then serveRequest req;; lift (stop (HExitNow EXIT_SUCCESS))
          else mret (inl tt)
      end
  end.

(** [fuel]: the turns of a loop that has no end but errors. *)
Definition server_main (fuel : nat) : P unit :=
  q ← call "msgget" (fallible (λ w,
    match w.(server_queue) with
    | None => (inr tt, with_server (Some []) w) | Some _ => (inl EEXIST, w) end));
  match q with inl _ => p_systmErr "msgget" | inr _ => skip end;;
  a ← call "sigaction" (fallible (λ w, (inr tt, w)));
  match a with inl _ => p_systmErr "sigaction" | inr _ => skip end;;
  loop fuel server_body tt;;
  c ← call "msgctl" (fallible (λ w,
    match w.(server_queue) with
    | None => (inl EINVAL, w) | Some _ => (inr tt, with_server None w) end));
  match c with inl _ => p_systmErr "msgctl" | inr _ => skip end;;
  p_exit EXIT_SUCCESS.

(** ** The client *)

(** [removeQueue], which [atexit] registers and [exit] runs. *)
Definition removeQueue (id : Z) : P unit :=
  r ← call "msgctl" (fallible (λ w,
    match w.(queues) !! id with
    | None => (inl EINVAL, w)
    | Some _ => (inr tt, with_queues (delete id w.(queues)) w.(next_id) w)
    end));
  match r with inl _ => p_systmErr "msgctl" | inr _ => skip end.
Definition client_exit {A} (id : Z) (status : Z) : P A := removeQueue id;; p_exit status.

(** [systmErr] where [exit] runs [removeQueue]. *)
Definition client_systmErr {A} (id : Z) (msg : string) : P A :=
  e ← get_errno;
  lift (outputError strerror io_errno true e true msg);;
  d ← lift (gets (λ p, lookup_env p.(environ) "EF_DUMPCORE"));
  match d with
  | Some (String _ _) => lift (stop HAbort)
  | _ => client_exit id EXIT_FAILURE
  end.

(** The client up to its request: the identifier of its queue. *)
Definition client_request (argv : list string) : P Z :=
  match argv with
  | [name; path] =>
      if bool_decide (path = "--help") then p_usageErr (name +:+ " pathname" +:+ nl) else
      if (PATH_MAX - 1 <? String.length path)%nat then
        lift (cmdLineErr io_errno
          ("pathname too long (max: " +:+ fmt_d (Z.of_nat PATH_MAX - 1) +:+ " bytes)" +:+ nl))
      else
      s ← call "msgget" (fallible (λ w,
        match w.(server_queue) with None => (inl ENOENT, w) | Some _ => (inr tt, w) end));
      match s with inl _ => p_systmErr "msgget - server message queue" | inr _ => skip end;;
      c ← call "msgget" (fallible (λ w,
        (inr w.(next_id), with_queues (<[w.(next_id) := []]> w.(queues)) (w.(next_id) + 1) w)));
      match c with
      | inl _ => p_systmErr "msgget - client message queue"
      | inr id =>
          (* where it could not be registered [exit] does not run [removeQueue] *)
          a ← call "atexit" (fallible (λ w, (inr tt, w)));
          match a with inl _ => p_systmErr "atexit" | inr _ => skip end;;
          let req := Request id (strncpy path (PATH_MAX - 1)) in
          r ← call "msgsnd" (fallible (λ w,
            match w.(server_queue) with
            | None => (inl EINVAL, w)
            | Some l => (inr tt, with_server (Some (l ++ [req])) w)
            end));
          match r with inl _ => client_systmErr id "msgsnd" | inr _ => mret id end
      end
  | name :: _ => p_usageErr (name +:+ " pathname" +:+ nl)
  | [] => stop HUndef
  end.

Definition client_recv (id : Z) : P responseMsg :=
  r ← msgrcv id; match r with inl _ => client_systmErr id "msgrcv" | inr m => mret m end.

(** The loop over the messages: the type of the last one, the bytes and the
    messages so far. *)
Definition recv_body (id : Z) (x : Z * Z * Z) : P (Z * Z * Z + Z * Z) :=
  let '(ty, totBytes, numMsgs) := x in
  if negb (ty =? RESP_MT_DATA) then mret (inr (totBytes, numMsgs)) else
  m ← client_recv id;
  if numMsgs =? INT_MAX then stop HUndef else
  mret (inl (m.(mtype), totBytes + Z.of_nat (String.length m.(data)), numMsgs + 1)).

(** The rest of the client; [fuel] bounds the messages received. *)
Definition client_receive (fuel : nat) (id : Z) : P unit :=
  m ← client_recv id;
  if m.(mtype) =? RESP_MT_FAILURE then
    printf (before m.(data) Ascii.zero +:+ nl);; client_exit id EXIT_FAILURE
  else
    r ← loop fuel (recv_body id) (m.(mtype), Z.of_nat (String.length m.(data)), 1);
    printf ("Received " +:+ fmt_d r.1 +:+ " bytes (" +:+ fmt_d r.2 +:+ " messages)" +:+ nl);;
    client_exit id EXIT_SUCCESS.

(** ** Runs without failures *)

Definition data_msgs (cs : list string) : list responseMsg := Response RESP_MT_DATA <$> cs.
Fixpoint join (cs : list string) : string :=
  match cs with [] => "" | c :: cs => c +:+ join cs end.

(** A part of a file that fits a message. *)
Definition chunk_ok (c : string) : Prop := c ≠ "" ∧ (String.length c <= RESP_MSG_SIZE)%nat.

Definition reads_ok (w : mqs) : Prop := Forall (λ r, ∃ k, r = inr k) w.(reads).

Local Abbreviation st := (pst string string mqs).

(** Only the client's queue and what the machine gives to reads differ. *)
Definition sent (id : Z) (q : list responseMsg) (w w' : mqs) : Prop :=
  ∃ r, w' = with_machine r w.(results) w.(forks) (with_queues (<[id := q]> w.(queues)) w.(next_id) w) ∧
    (reads_ok w → reads_ok w').

Lemma take_drop_str n s :
  take_str n s +:+ drop_str (String.length (take_str n s)) s = s.
Proof.
  apply chars_inj. unfold take_str, drop_str. rewrite chars_app, !chars_of_chars.
  rewrite <- length_chars, chars_of_chars, length_take.
  destruct (Nat.min_spec n (length (chars s))) as [[? ->]|[? ->]]; [apply take_drop|].
  rewrite take_ge, drop_ge, app_nil_r by lia. done.
Qed.

(** A read of a file that has not ended. *)
Lemma read_file_run (s : st) rest :
  s.(vars) = rest → rest ≠ "" → reads_ok s.(world) →
  ∃ c s', read_file RESP_MSG_SIZE s = (Ok (inr c), s') ∧ chunk_ok c ∧
    c +:+ s'.(vars) = rest ∧ (String.length s'.(vars) < String.length rest)%nat ∧
    ∃ r, s'.(world) = with_machine r s.(world).(results) s.(world).(forks) s.(world) ∧
      reads_ok s'.(world).
Proof.
  intros Hv Hne Hok.
  assert (H : ∀ k, (0 < k <= RESP_MSG_SIZE)%nat → chunk_ok (take_str k rest)).
  { intros k Hk. split; [|rewrite length_take_str; lia].
    intros E. apply (f_equal String.length) in E. rewrite length_take_str in E.
    destruct rest; simpl in E; [done|lia]. }
  assert (Hl : ∀ k, chunk_ok (take_str k rest) →
    (String.length (drop_str (String.length (take_str k rest)) rest) < String.length rest)%nat).
  { intros k [Hk _]. pose proof (f_equal String.length (take_drop_str k rest)) as E.
    rewrite length_append in E. destruct (take_str k rest); [done|]. simpl in *. lia. }
  unfold read_file, get_vars, gets, mbind, M_bind, call. rewrite Hv.
  destruct (reads (world s)) as [|r l] eqn:E.
  - do 2 eexists. split; [done|]. cbn. assert (chunk_ok (take_str RESP_MSG_SIZE rest)) by (apply H; unfold RESP_MSG_SIZE; lia).
    split_and!; [done|apply take_drop_str|by apply Hl|]. exists [].
    split; [rewrite <- E; by destruct (world s)|done].
  - pose proof Hok as Hok'. unfold reads_ok in Hok'. rewrite E in Hok'.
    apply Forall_cons in Hok' as [[k ->] Hok'].
    do 2 eexists. split; [done|]. cbn -[Nat.min].
    assert (chunk_ok (take_str (Nat.min RESP_MSG_SIZE (S k)) rest)) by (apply H; unfold RESP_MSG_SIZE; lia).
    split_and!; [done|apply take_drop_str|by apply Hl|]. by exists l.
Qed.

Lemma calm {A} (f : mqs → (Z + A) * mqs) w : w.(results) = [] → fallible f w = f w.
Proof. intros H. unfold fallible. rewrite H. simpl. destruct w. simpl in *. by rewrite H. Qed.

Lemma msgsnd_run id m q (s : st) :
  s.(world).(results) = [] → s.(world).(queues) !! id = Some q →
  ∃ s', msgsnd id m s = (Ok (inr tt), s') ∧ s'.(vars) = s.(vars) ∧ s'.(pr) = s.(pr) ∧
    s'.(world) = with_queues (<[id := q ++ [m]]> s.(world).(queues)) s.(world).(next_id) s.(world).
Proof. intros Hr Hq. unfold msgsnd, call. rewrite calm, Hq by done. by eexists. Qed.

(** The loop of the server's child sends the file, in parts that fit. *)
Lemma send_loop id fuel : ∀ rest (s : st) q,
  (String.length rest < fuel)%nat → s.(vars) = rest → s.(world).(results) = [] →
  reads_ok s.(world) → s.(world).(queues) !! id = Some q →
  ∃ cs s', loop fuel (send_body id) tt s = (Ok tt, s') ∧ join cs = rest ∧ Forall chunk_ok cs ∧
    sent id (q ++ data_msgs cs) s.(world) s'.(world).
Proof.
  induction fuel as [|fuel IH]; intros rest s q Hf Hv Hr Hok Hq; [lia|]. rewrite loop_S.
  destruct rest as [|a rest'] eqn:Erest.
  - exists []. assert (Hread : ∃ s1, read_file RESP_MSG_SIZE s = (Ok (inr ""), s1) ∧
      ∃ r, world s1 = with_machine r (results (world s)) (forks (world s)) (world s) ∧ reads_ok (world s1)).
    { unfold read_file, get_vars, gets, mbind, M_bind, call. rewrite Hv.
      destruct (reads (world s)) as [|r l] eqn:E.
      - eexists. split; [done|]. exists []. split; [rewrite <- E; by destruct (world s)|done].
      - pose proof Hok as Hok'. unfold reads_ok in Hok'. rewrite E in Hok'.
        apply Forall_cons in Hok' as [[k ->] Hok']. eexists. split; [done|]. by exists l. }
    destruct Hread as (s1 & E1 & r & W1 & Hok1).
    assert (Eb : send_body id tt s = (Ok (inr tt), s1)).
    { unfold send_body. by rewrite (run_bind _ _ _ _ _ E1). }
    rewrite (run_bind _ _ _ _ _ Eb). exists s1. split; [done|]. split; [done|]. split; [constructor|].
    exists r. rewrite W1. simpl. rewrite app_nil_r, (insert_id _ _ _ Hq). split; [by destruct (world s)|].
    intros _. by rewrite W1 in Hok1.
  - destruct (read_file_run s rest) as (c & s1 & E1 & Hc & Hjoin & Hlt & r & W1 & Hok1); [congruence|by rewrite Erest|done|].
    destruct (msgsnd_run id (Response RESP_MT_DATA c) q s1) as (s2 & E2 & V2 & _ & W2);
      [by rewrite W1|by rewrite W1|].
    assert (Eb : send_body id tt s = (Ok (inl tt), s2)).
    { unfold send_body. rewrite (run_bind _ _ _ _ _ E1). destruct Hc as [Hne _]. destruct c; [done|].
      by rewrite (run_bind _ _ _ _ _ E2). }
    rewrite (run_bind _ _ _ _ _ Eb).
    destruct (IH (vars s2) s2 (q ++ [Response RESP_MT_DATA c])) as (cs & s' & E & Hj & Hcs & r' & W & Ho).
    + rewrite V2. subst rest. simpl in *. lia.
    + done.
    + by rewrite W2, W1.
    + rewrite W2. unfold reads_ok in *. by simpl.
    + rewrite W2. apply lookup_insert_eq.
    + exists (c :: cs), s'. split; [done|]. split; [simpl; rewrite Hj, V2, Hjoin; congruence|].
      split; [by constructor|]. exists r'. split.
      * rewrite W, W2, W1. simpl. by rewrite insert_insert_eq, <- app_assoc.
      * intros _. apply Ho. rewrite W2. unfold reads_ok in *. by simpl.
Qed.

Lemma serve_run id path text (s : st) :
  s.(world).(results) = [] → reads_ok s.(world) → s.(world).(files) path = Some text →
  s.(world).(queues) !! id = Some [] →
  ∃ cs s', serveRequest (Request id path) s = (Ok tt, s') ∧ join cs = text ∧ Forall chunk_ok cs ∧
    sent id (data_msgs cs ++ [Response RESP_MT_END ""]) s.(world) s'.(world).
Proof.
  intros Hr Hok Hf Hq. unfold serveRequest. cbn [pathname clientId].
  assert (Ho : ∃ s1, open_file path s = (Ok (inr tt), s1) ∧ vars s1 = text ∧ world s1 = world s).
  { unfold open_file, mbind, M_bind, call. rewrite calm, Hf by done. by eexists. }
  destruct Ho as (s1 & E1 & V1 & W1). rewrite (run_bind _ _ _ _ _ E1).
  rewrite (run_bind _ _ _ text s1) by (unfold get_vars, gets; by rewrite V1).
  destruct (send_loop id (S (String.length text)) text s1 []) as (cs & s2 & E2 & Hj & Hcs & r & W2 & H2);
    [lia|done|by rewrite W1..|]. rewrite (run_bind _ _ _ _ _ E2).
  destruct (msgsnd_run id (Response RESP_MT_END "") (data_msgs cs) s2) as (s3 & E3 & _ & _ & W3).
  { by rewrite W2, W1. }
  { rewrite W2. apply lookup_insert_eq. }
  rewrite (run_bind _ _ _ _ _ E3). exists cs, s3. split_and!; [done..|]. exists r. split.
  - rewrite W3, W2, W1. simpl. by rewrite insert_insert_eq.
  - intros _. rewrite W3. specialize (H2 ltac:(by rewrite W1)). unfold reads_ok in *. by simpl.
Qed.

(** ** The client *)

Lemma client_recv_run id m q (s : st) :
  s.(world).(results) = [] → s.(world).(queues) !! id = Some (m :: q) →
  ∃ s', client_recv id s = (Ok m, s') ∧ s'.(pr) = s.(pr) ∧
    s'.(world) = with_queues (<[id := q]> s.(world).(queues)) s.(world).(next_id) s.(world).
Proof.
  intros Hr Hq. unfold client_recv, msgrcv, mbind, M_bind. rewrite Hq. unfold call. rewrite calm by done.
  by eexists.
Qed.

Lemma recv_loop id cs : ∀ fuel (s : st) c tot n,
  (S (length cs) < fuel)%nat → s.(world).(results) = [] → n + Z.of_nat (length cs) < INT_MAX →
  s.(world).(queues) !! id = Some (data_msgs cs ++ [Response RESP_MT_END ""]) →
  c = RESP_MT_DATA →
  ∃ s', loop fuel (recv_body id) (c, tot, n) s =
      (Ok (tot + Z.of_nat (String.length (join cs)), n + Z.of_nat (length cs) + 1), s') ∧
    s'.(pr) = s.(pr) ∧
    s'.(world) = with_queues (<[id := []]> s.(world).(queues)) s.(world).(next_id) s.(world).
Proof.
  induction cs as [|x cs IH]; intros [|fuel] s c tot n Hf Hr Hn Hq ->; simpl in Hf; try lia;
    rewrite loop_S; simpl in Hq.
  - destruct (client_recv_run id _ _ s Hr Hq) as (s1 & E1 & P1 & W1).
    assert (Eb : recv_body id (RESP_MT_DATA, tot, n) s = (Ok (inl (RESP_MT_END, tot + 0, n + 1)), s1)).
    { unfold recv_body. cbn [negb Z.eqb RESP_MT_DATA Pos.eqb]. rewrite (run_bind _ _ _ _ _ E1).
      rewrite (proj2 (Z.eqb_neq n INT_MAX)) by (simpl in Hn; lia). done. }
    rewrite (run_bind _ _ _ _ _ Eb). destruct fuel as [|fuel]; [lia|]. rewrite loop_S.
    exists s1. split; [|done]. simpl String.length. simpl length. by rewrite !Z.add_0_r.
  - destruct (client_recv_run id _ _ s Hr Hq) as (s1 & E1 & P1 & W1).
    assert (Eb : recv_body id (RESP_MT_DATA, tot, n) s =
      (Ok (inl (RESP_MT_DATA, tot + Z.of_nat (String.length x), n + 1)), s1)).
    { unfold recv_body. cbn [negb Z.eqb RESP_MT_DATA Pos.eqb]. rewrite (run_bind _ _ _ _ _ E1).
      rewrite (proj2 (Z.eqb_neq n INT_MAX)) by (simpl in Hn; lia). done. }
    rewrite (run_bind _ _ _ _ _ Eb).
    destruct (IH fuel s1 RESP_MT_DATA (tot + Z.of_nat (String.length x)) (n + 1)) as (s2 & E2 & P2 & W2);
      [lia|by rewrite W1|simpl in Hn; lia|rewrite W1; apply lookup_insert_eq|done|].
    exists s2. rewrite E2. split; [|split; [congruence|]].
    + simpl join. rewrite length_append. do 2 f_equal. simpl length. f_equal; lia.
    + rewrite W2, W1. simpl. by rewrite insert_insert_eq.
Qed.

Lemma client_exit_run id status q (s : st) :
  s.(world).(results) = [] → s.(world).(queues) !! id = Some q →
  ∃ s', client_exit (A := unit) id status s = (Halt (HExit status), s') ∧
    s'.(world).(queues) = delete id s.(world).(queues) ∧
    s'.(pr).(delivered) = s.(pr).(delivered) ++ chunk Sout s.(pr).(out_buf) ++ chunk Serr s.(pr).(err_buf).
Proof.
  intros Hr Hq. unfold client_exit, removeQueue.
  assert (E : ∃ s1, call "msgctl" (fallible (λ w,
    match w.(queues) !! id with
    | None => (inl EINVAL, w)
    | Some _ => (inr tt, with_queues (delete id w.(queues)) w.(next_id) w)
    end)) s = (Ok (inr tt), s1) ∧ s1.(pr) = s.(pr) ∧ s1.(world).(queues) = delete id s.(world).(queues)).
  { unfold call. rewrite calm, Hq by done. by eexists. }
  destruct E as (s1 & E1 & P1 & W1). unfold mbind, M_bind. rewrite E1. eexists. split; [done|].
  simpl. rewrite P1, W1. split; [done|]. by rewrite <- app_assoc.
Qed.

(** The first message of a file and what the loop makes of the others. *)
Lemma receive_run id cs fuel (s : st) :
  s.(world).(results) = [] → Z.of_nat (length cs) < INT_MAX → (S (length cs) < fuel)%nat →
  s.(world).(queues) !! id = Some (data_msgs cs ++ [Response RESP_MT_END ""]) →
  ∃ s', client_receive fuel id s = (Halt (HExit EXIT_SUCCESS), s') ∧
    s'.(world).(queues) !! id = None ∧
    s'.(pr).(delivered) = s.(pr).(delivered) ++
      chunk Sout (s.(pr).(out_buf) +:+ "Received " +:+ fmt_d (Z.of_nat (String.length (join cs))) +:+
        " bytes (" +:+ fmt_d (Z.of_nat (length cs) + 1) +:+ " messages)" +:+ nl) ++
      chunk Serr s.(pr).(err_buf).
Proof.
  intros Hr Hn Hf Hq. unfold client_receive.
  assert (Hrun : ∃ m q s1, client_recv id s = (Ok m, s1) ∧ pr s1 = pr s ∧ mtype m ≠ RESP_MT_FAILURE ∧
    ∃ s2, loop fuel (recv_body id) (mtype m, Z.of_nat (String.length (data m)), 1) s1 =
      (Ok (Z.of_nat (String.length (join cs)), Z.of_nat (length cs) + 1), s2) ∧ pr s2 = pr s ∧
    results (world s2) = [] ∧ queues (world s2) !! id = Some q).
  { destruct cs as [|x cs].
    - destruct (client_recv_run id _ _ s Hr Hq) as (s1 & E1 & P1 & W1).
      do 3 eexists. split; [exact E1|]. split; [done|]. split; [done|]. exists s1.
      destruct fuel as [|fuel]; [lia|]. rewrite loop_S. split; [done|]. split; [done|].
      rewrite W1. split; [done|]. apply lookup_insert_eq.
    - destruct (client_recv_run id _ _ s Hr Hq) as (s1 & E1 & P1 & W1).
      destruct (recv_loop id cs fuel s1 RESP_MT_DATA (Z.of_nat (String.length x)) 1) as (s2 & E2 & P2 & W2);
        [simpl in Hf; lia|by rewrite W1|simpl in Hn; lia|rewrite W1; apply lookup_insert_eq|done|].
      do 3 eexists. split; [exact E1|]. split; [done|]. split; [done|]. exists s2. cbn [mtype data].
      rewrite E2. split; [|split; [congruence|]].
      + simpl join. rewrite length_append. do 2 f_equal. simpl length. f_equal; lia.
      + rewrite W2, W1. split; [done|]. apply lookup_insert_eq. }
  destruct Hrun as (m & q & s1 & E1 & P1 & Hm & s2 & E2 & P2 & R2 & Q2).
  rewrite (run_bind _ _ _ _ _ E1), (proj2 (Z.eqb_neq _ _) Hm), (run_bind _ _ _ _ _ E2).
  set (line := "Received " +:+ _). destruct (printf_run line s2) as (s3 & E3 & V3 & T3 & W3).
  rewrite (run_bind _ _ _ _ _ E3).
  destruct (client_exit_run id EXIT_SUCCESS q s3) as (s4 & E4 & W4 & D4); [by rewrite W3..|].
  exists s4. split; [exact E4|]. split; [rewrite W4; apply lookup_delete_eq|].
  rewrite D4. injection E3 as <-. cbn. by rewrite P2.
Qed.

Lemma chunks_bound cs :
  Forall chunk_ok cs →
  (length cs <= String.length (join cs) <= RESP_MSG_SIZE * length cs)%nat.
Proof.
  induction 1 as [|c cs [Hne Hc] _ IH]; [simpl; lia|]. cbn [join length]. rewrite length_append.
  assert (0 < String.length c)%nat by (destruct c; [done|simpl; lia]). lia.
Qed.

(** C14: where nothing fails and the file is shorter than [INT_MAX] bytes, a client's
    request is handed to a child of the server, which puts the file on the client's
    queue: the messages of data there, in order, hold the bytes of the file and
    nothing else, each between 1 and [RESP_MSG_SIZE] of them, however the reads
    are split, and the last message marks the end.  The client, once it has them,
    reports their number and the number of bytes, which is the size of the file (it does
    not look at the bytes), removes its queue and exits with success. *)
Theorem file_transfer name path text fs (c : st) :
  let w := c.(world) in
  w.(results) = [] → reads_ok w → w.(files) path = Some text → w.(server_queue) = Some [] →
  w.(forks) = 0 :: fs → path ≠ "--help" → (String.length path < PATH_MAX)%nat →
  Z.of_nat (String.length text) < INT_MAX →
  ∃ id c1, client_request [name; path] c = (Ok id, c1) ∧ c1.(pr) = c.(pr) ∧
  ∀ v : st, v.(world) = c1.(world) →
  ∃ v1 parts, server_body tt v = (Halt (HExitNow EXIT_SUCCESS), v1) ∧
    v1.(world).(queues) !! id =
      Some ((Response RESP_MT_DATA <$> parts) ++ [Response RESP_MT_END ""]) ∧
    join parts = text ∧ Forall chunk_ok parts ∧
  ∀ (c2 : st) fuel, c2.(world) = v1.(world) → c2.(pr) = c.(pr) → (S (length parts) < fuel)%nat →
  ∃ c3, client_receive fuel id c2 = (Halt (HExit EXIT_SUCCESS), c3) ∧
    c3.(world).(queues) !! id = None ∧
    c3.(pr).(delivered) = c.(pr).(delivered) ++
      chunk Sout (c.(pr).(out_buf) +:+ "Received " +:+ fmt_d (Z.of_nat (String.length text)) +:+
        " bytes (" +:+ fmt_d (Z.of_nat (length parts) + 1) +:+ " messages)" +:+ nl) ++
      chunk Serr c.(pr).(err_buf).
Proof.
  intros w Hr Hok Hf Hs Hfk Hp Hl Ht.
  assert (Hreq : ∃ c1, client_request [name; path] c = (Ok w.(next_id), c1) ∧ c1.(pr) = c.(pr) ∧
    c1.(world) = with_server (Some [Request w.(next_id) path])
      (with_queues (<[w.(next_id) := []]> w.(queues)) (w.(next_id) + 1) w)).
  { unfold client_request. rewrite bool_decide_eq_false_2, (proj2 (Nat.ltb_ge _ _)) by (done || lia).
    assert (Ecp : strncpy path (PATH_MAX - 1) = path) by (apply take_str_ge; lia). rewrite Ecp.
    unfold mbind, M_bind, call. fold w. rewrite calm, Hs by done. cbn.
    do 3 (rewrite calm by done; cbn). rewrite Hs. by eexists. }
  destruct Hreq as (c1 & E1 & P1 & W1). exists (next_id w), c1. split; [done|]. split; [done|].
  intros v Wv.
  set (id := next_id w) in *.
  set (w2 := with_machine w.(reads) [] fs (with_server (Some [])
    (with_queues (<[id := []]> w.(queues)) (id + 1) w))).
  assert (Hserve : ∃ v1, server_body tt v = (serveRequest (Request id path);; lift (stop (HExitNow EXIT_SUCCESS))) v1 ∧
    world v1 = w2).
  { unfold server_body, mbind, M_bind, call. rewrite Wv, W1, calm by done. cbn. rewrite Hfk. cbn.
    eexists. split; [done|]. cbn. unfold w2. rewrite <- Hr. done. }
  destruct Hserve as (v0 & Ev & W0).
  destruct (serve_run id path text v0) as (cs & v1 & E & Hj & Hcs & r & W & _);
    [by rewrite W0|by rewrite W0|by rewrite W0|rewrite W0; apply lookup_insert_eq|].
  pose proof (chunks_bound cs Hcs) as Hb. rewrite Hj in Hb.
  eexists v1, cs. split; [|split; [|split; [done|split; [done|]]]].
  { rewrite Ev. rewrite (run_bind _ _ _ _ _ E). unfold lift, stop. by destruct v1. }
  { rewrite W. apply lookup_insert_eq. }
  intros c2 fuel W2 P2 Hfuel.
  destruct (receive_run id cs fuel c2) as (c3 & E3 & Q3 & D3).
  - by rewrite W2, W, W0.
  - lia.
  - done.
  - rewrite W2, W. apply lookup_insert_eq.
  - exists c3. split; [done|]. split; [done|]. by rewrite D3, P2, Hj.
Qed.

(** A file that cannot be opened: the child fails, and the client says so. *)
Theorem missing_file id path fs (v c : st) fuel :
  let w := v.(world) in
  w.(results) = [] → w.(files) path = None → w.(server_queue) = Some [Request id path] →
  w.(forks) = 0 :: fs → w.(queues) !! id = Some [] →
  ∃ v1, server_body tt v = (Halt (HExit EXIT_FAILURE), v1) ∧
  (c.(world) = v1.(world) →
   ∃ c1, client_receive fuel id c = (Halt (HExit EXIT_FAILURE), c1) ∧
     c1.(world).(queues) !! id = None ∧
     c1.(pr).(delivered) = c.(pr).(delivered) ++
       chunk Sout (c.(pr).(out_buf) +:+ "Couldn't open" +:+ nl) ++ chunk Serr c.(pr).(err_buf)).
Proof.
  intros w Hr Hf Hs Hfk Hq.
  set (m := Response RESP_MT_FAILURE ("Couldn't open" +:+ String Ascii.zero "")).
  assert (Hserve : ∃ v1, server_body tt v = (Halt (HExit EXIT_FAILURE), v1) ∧
    results (world v1) = [] ∧ queues (world v1) !! id = Some [m]).
  { unfold server_body, serveRequest, open_file, msgsnd, mbind, M_bind, call. fold w.
    rewrite calm, Hs by done. cbn. rewrite Hfk. cbn. rewrite calm by done. cbn. rewrite Hf. cbn.
    rewrite calm by done. cbn. rewrite Hq. cbn. eexists. split; [done|]. cbn. split; [done|].
    apply lookup_insert_eq. }
  destruct Hserve as (v1 & E & R1 & Q1). exists v1. split; [done|]. intros Wc.
  destruct (client_recv_run id m [] c) as (c1 & E1 & P1 & W1); [by rewrite Wc..|].
  unfold client_receive. rewrite (run_bind _ _ _ _ _ E1). cbn [mtype data m RESP_MT_FAILURE Z.eqb Pos.eqb].
  destruct (printf_run ("Couldn't open" +:+ nl) c1) as (c2 & E2 & V2 & T2 & W2).
  change (before _ _ +:+ nl) with ("Couldn't open" +:+ nl). rewrite (run_bind _ _ _ _ _ E2).
  destruct (client_exit_run id EXIT_FAILURE [] c2) as (c3 & E3 & W3 & D3).
  { by rewrite W2, W1, Wc. }
  { rewrite W2, W1. apply lookup_insert_eq. }
  exists c3. split; [done|]. split; [rewrite W3; apply lookup_delete_eq|].
  rewrite D3. injection E2 as <-. cbn. by rewrite P1.
Qed.
End file_server.

Definition demo_world (text : string) (r : list (Z + nat)) : mqs :=
  Mqs (λ p, if bool_decide (p = "motd") then Some text else None) (Some []) ∅ 5 r [] [0].

Lemma file_transfer_witness :
  let L := {| strerror := λ _, ""; io_errno := id |} in
  let c := Pst (Proc 0 [] "" "" []) "" [] (demo_world "hello, world" [inr 4%nat]) in
  ∃ id c1 v1 c3, client_request ["client"; "motd"] c = (Ok id, c1) ∧
    server_body tt (Pst (Proc 0 [] "" "" []) "" [] (world c1)) = (Halt (HExitNow EXIT_SUCCESS), v1) ∧
    client_receive 20 id (Pst (pr c) "" [] (world v1)) = (Halt (HExit EXIT_SUCCESS), c3) ∧
    ∃ parts, join parts = "hello, world" ∧
      v1.(world).(queues) !! id =
        Some ((Response RESP_MT_DATA <$> parts) ++ [Response RESP_MT_END ""]) ∧
      c3.(pr).(delivered) =
        [(Sout, "Received 12 bytes (" +:+ fmt_d (Z.of_nat (length parts) + 1) +:+ " messages)" +:+ nl)].
Proof.
  intros L c.
  destruct (file_transfer "client" "motd" "hello, world" [] c) as (id & c1 & E1 & P1 & H);
    [done|repeat constructor; eauto|done|done|done|done|apply Nat.ltb_lt; by vm_compute|by vm_compute|].
  destruct (H (Pst (Proc 0 [] "" "" []) "" [] (world c1)) eq_refl) as (v1 & parts & E2 & Hq & Hj & Hc & H2).
  destruct (H2 (Pst (pr c) "" [] (world v1)) 20%nat eq_refl eq_refl) as (c3 & E3 & _ & D).
  { pose proof (chunks_bound parts Hc) as [Hb _]. rewrite Hj in Hb.
    change (String.length "hello, world") with 12%nat in Hb. lia. }
  exists id, c1, v1, c3. split_and!; [exact E1|exact E2|exact E3|]. by exists parts.
Defined.
