(* ===== verification/ByteIO.v ===== *)
(** The interface between the byte-oriented I/O routines and the kernel.

    [read(2)] and [write(2)] are operations of a class over an abstract world
    [W], which stands for the kernel and everything that happens around the
    process.  [ReadLaws] and [WriteLaws] state the documented behaviour the
    routines rely on; the last section gives a concrete world that satisfies
    them. *)
From S2P Require Import Prelude CLib.
Local Open Scope Z_scope.

Abbreviation bytes := (list ascii).

(** ** The system calls *)

(** A failing call yields [inl errno]; [read] yields the bytes transferred
    (none at end of file), [write] the number of bytes accepted. *)
Class ReadSys (W : Type) := sys_read : Z → nat → W → (Z + bytes) * W.
Class WriteSys (W : Type) := sys_write : Z → bytes → W → (Z + nat) * W.

(** What a read of a descriptor may do.  [pending] is the data not yet
    consumed, up to the end of the input; [credit] bounds the number of times
    reads can still be interrupted by signal handlers. *)
Class ReadLaws (W : Type) `{!ReadSys W} (fd : Z)
    (pending : W → bytes) (credit : W → nat) : Prop := {
  read_data n w bs w' :
    (0 < n)%nat → sys_read fd n w = (inr bs, w') →
    pending w = bs ++ pending w' ∧ (length bs <= n)%nat ∧
    (bs = [] → pending w = []) ∧ (credit w' <= credit w)%nat;
  read_error n w e w' :
    sys_read fd n w = (inl e, w') →
    e ≠ 0 ∧ pending w' = pending w ∧ (e = EINTR → (credit w' < credit w)%nat)
}.

(** The descriptor never fails except through interruption. *)
Definition read_reliable {W} `{!ReadSys W} (fd : Z) : Prop :=
  ∀ n w e w', sys_read fd n w = (inl e, w') → e = EINTR.

(** Likewise for writes; [sent] is what the descriptor has accepted so far. *)
Class WriteLaws (W : Type) `{!WriteSys W} (fd : Z)
    (sent : W → bytes) (credit : W → nat) : Prop := {
  write_data bs w k w' :
    sys_write fd bs w = (inr k, w') →
    (k <= length bs)%nat ∧ sent w' = sent w ++ take k bs ∧ (credit w' <= credit w)%nat;
  write_error bs w e w' :
    sys_write fd bs w = (inl e, w') →
    e ≠ 0 ∧ sent w' = sent w ∧ (e = EINTR → (credit w' < credit w)%nat)
}.

Definition write_reliable {W} `{!WriteSys W} (fd : Z) : Prop :=
  (∀ bs w e w', sys_write fd bs w = (inl e, w') → e = EINTR) ∧
  (∀ bs w k w', bs ≠ [] → sys_write fd bs w = (inr k, w') → (0 < k)%nat).

(** ** The state of a caller

    [mem] is the caller's buffer, one element per byte; [aux] is the buffering
    structure of the routines that have one. *)
Record io (X W : Type) := Io { errno : Z; mem : bytes; aux : X; world : W }.
Arguments Io {X W}.
Arguments errno {X W}.
Arguments mem {X W}.
Arguments aux {X W}.
Arguments world {X W}.

Section calls.
Context {X W : Type}.

Definition set_errno (e : Z) : M (io X W) unit :=
  modify (λ s, Io e s.(mem) s.(aux) s.(world)).

Definition set_aux (x : X) : M (io X W) unit :=
  modify (λ s, Io s.(errno) s.(mem) x s.(world)).

(** [buffer[i] = c]; outside the buffer the behaviour is undefined. *)
Definition store_at (i : Z) (c : ascii) : M (io X W) unit := λ s,
  if (0 <=? i) && (i <? Z.of_nat (length s.(mem)))
  then (Ok tt, Io s.(errno) (<[Z.to_nat i := c]> s.(mem)) s.(aux) s.(world))
  else (Halt HUndef, s).

(** The kernel copying [bs] to [buffer + i]. *)
Fixpoint store_bytes (i : Z) (bs : bytes) : M (io X W) unit :=
  match bs with
  | [] => skip
  | c :: bs => store_at i c;; store_bytes (i + 1) bs
  end.

(** [read(fd, ..., n)]: on failure [errno] is set. *)
Definition read `{!ReadSys W} (fd : Z) (n : nat) : M (io X W) (Z + bytes) := λ s,
  match sys_read fd n s.(world) with
  | (inl e, w) => (Ok (inl e), Io e s.(mem) s.(aux) w)
  | (inr bs, w) => (Ok (inr bs), Io s.(errno) s.(mem) s.(aux) w)
  end.

Definition write `{!WriteSys W} (fd : Z) (bs : bytes) : M (io X W) (Z + nat) := λ s,
  match sys_write fd bs s.(world) with
  | (inl e, w) => (Ok (inl e), Io e s.(mem) s.(aux) w)
  | (inr k, w) => (Ok (inr k), Io s.(errno) s.(mem) s.(aux) w)
  end.

Lemma store_at_ok i c (s : io X W) :
  0 <= i < Z.of_nat (length s.(mem)) →
  store_at i c s =
    (Ok tt, Io s.(errno) (<[Z.to_nat i := c]> s.(mem)) s.(aux) s.(world)).
Proof.
  intros Hi. unfold store_at.
  by replace ((0 <=? i) && (i <? Z.of_nat (length s.(mem)))) with true by lia.
Qed.

Lemma store_bytes_ok i bs (s : io X W) :
  0 <= i → i + Z.of_nat (length bs) <= Z.of_nat (length s.(mem)) →
  store_bytes i bs s =
    (Ok tt, Io s.(errno)
      (take (Z.to_nat i) s.(mem) ++ bs ++ drop (Z.to_nat i + length bs) s.(mem))
      s.(aux) s.(world)).
Proof.
  revert i s. induction bs as [|c bs IH]; intros i s Hi Hl; simpl in *.
  - unfold skip, mret, M_ret. rewrite Nat.add_0_r, take_drop. by destruct s.
  - erewrite run_bind by (apply store_at_ok; lia).
    rewrite IH by (simpl; rewrite ?length_insert; lia). simpl. do 2 f_equal.
    replace (Z.to_nat (i + 1)) with (S (Z.to_nat i)) by lia.
    rewrite (take_S_r _ _ c) by (apply list_lookup_insert_eq; lia).
    rewrite take_insert_ge, <- app_assoc by lia. simpl. do 3 f_equal.
    rewrite drop_insert_lt by lia. f_equal. lia.
Qed.
End calls.

(** ** A concrete kernel

    An input descriptor that hands out its data in the portions given by a
    script: [Portion k] transfers at most [k + 1] bytes, [Interrupt] fails with
    [EINTR]; an exhausted script transfers all that was asked for.  Output is
    accepted in portions the same way. *)
Inductive tick := Portion (k : nat) | Interrupt.

Record script := Script { input : bytes; output : bytes; ticks : list tick }.

Fixpoint interrupts (l : list tick) : nat :=
  match l with
  | [] => 0
  | Interrupt :: l => S (interrupts l)
  | Portion _ :: l => interrupts l
  end.

#[export] Instance script_read : ReadSys script := λ _ n s,
  match s.(ticks) with
  | Interrupt :: l => (inl EINTR, Script s.(input) s.(output) l)
  | Portion k :: l =>
      (inr (take (Nat.min n (S k)) s.(input)),
       Script (drop (Nat.min n (S k)) s.(input)) s.(output) l)
  | [] => (inr (take n s.(input)), Script (drop n s.(input)) s.(output) [])
  end.

#[export] Instance script_write : WriteSys script := λ _ bs s,
  match s.(ticks) with
  | Interrupt :: l => (inl EINTR, Script s.(input) s.(output) l)
  | Portion k :: l =>
      (inr (Nat.min (S k) (length bs)),
       Script s.(input) (s.(output) ++ take (Nat.min (S k) (length bs)) bs) l)
  | [] => (inr (length bs), Script s.(input) (s.(output) ++ bs) [])
  end.

Definition script_credit (s : script) : nat := interrupts s.(ticks).

#[export] Instance script_read_laws fd : ReadLaws script fd input script_credit.
Proof.
  split.
  - intros n [inp out l] bs w' Hn. unfold sys_read, script_read; simpl.
    assert (∀ m, (0 < m)%nat → take m inp = [] → inp = []) as Hnil.
    { intros [|m] Hm; [lia|]. by destruct inp. }
    destruct l as [|[k|] l]; intros [= <- <-]; unfold script_credit; simpl;
      rewrite take_drop, length_take; (split_and!; [done|lia| |lia]);
      apply Hnil; lia.
  - intros n [inp out l] e w'. unfold sys_read, script_read; simpl.
    destruct l as [|[k|] l]; intros [= <- <-]. unfold script_credit; simpl.
    split_and!; [done|done|lia].
Qed.

#[export] Instance script_write_laws fd : WriteLaws script fd output script_credit.
Proof.
  split.
  - intros bs [inp out l] k' w'. unfold sys_write, script_write; cbn -[Nat.min].
    destruct l as [|[k|] l]; intros [= <- <-]; unfold script_credit; cbn -[Nat.min].
    + rewrite firstn_all. split_and!; [lia|done|lia].
    + split_and!; [destruct (length bs); lia|done|lia].
  - intros bs [inp out l] e w'. unfold sys_write, script_write; cbn -[Nat.min].
    destruct l as [|[k|] l]; intros [= <- <-]. unfold script_credit; cbn -[Nat.min].
    split_and!; [done|done|lia].
Qed.

Lemma script_read_reliable fd : read_reliable (W:=script) fd.
Proof.
  intros n [inp out l] e w'. unfold sys_read, script_read; cbn -[Nat.min].
  destruct l as [|[k|] l]; by intros [= <- <-].
Qed.

Lemma script_write_reliable fd : write_reliable (W:=script) fd.
Proof.
  split.
  - intros bs [inp out l] e w'. unfold sys_write, script_write; simpl.
    destruct l as [|[k|] l]; by intros [= <- <-].
  - intros bs [inp out l] k' w' Hb. unfold sys_write, script_write; simpl.
    destruct bs as [|c bs]; [done|].
    destruct l as [|[k|] l]; intros [= <- <-]; simpl; lia.
Qed.
