(* ===== verification/ReadLine.v ===== *)
(** Line readers: [readLine] ([sockets/read_line.c]) and [yreadLine]
    ([sockets/yread_line.c]), which read one byte per system call; the
    buffered [ybio] library ([sockets/ybio.c]); and [readLineBuf]
    ([sockets/read_line_buf.c]).

    The line loop is verified once, against an interface ([line_step]) that
    says what one turn of the loop does to an abstract input, and each routine
    is shown to meet that interface. *)
From S2P Require Import Prelude CLib ByteIO.
Local Open Scope Z_scope.

Definition NUL : ascii := Ascii.zero.

(** How a [for (;;)] loop was left: by [return], or by [break] with the number
    of bytes placed so far. *)
Inductive after := Return (r : Z) | Break (tot : Z).

Section readLine.
Context {X W : Type} `{!ReadSys W}.

(** ** [readLine], [sockets/read_line.c] *)

Definition readLine_body (fd n totRead : Z) : M (io X W) (Z + after) :=
  numRead ← read fd 1;
  match numRead with
  | inl _ =>
      e ← gets errno;
      if e =? EINTR then mret (inl totRead)      (* continue *)
      else mret (inr (Return (-1)))
  | inr [] =>                                    (* EOF *)
      if totRead =? 0 then mret (inr (Return 0)) else mret (inr (Break totRead))
  | inr (ch :: _) =>
      totRead ← (if totRead <? n - 1
                 then store_at totRead ch;; mret (totRead + 1)
                 else mret totRead);
      if decide (ch = newline) then mret (inr (Break totRead)) else mret (inl totRead)
  end.

Definition readLine (fuel : nat) (fd : Z) (null : bool) (n : Z) : M (io X W) Z :=
  if (n <=? 0) || null then set_errno EINVAL;; mret (-1)
  else
    r ← loop fuel (readLine_body fd n) 0;
    match r with
    | Return r => mret r
    | Break totRead => store_at totRead NUL;; mret totRead
    end.

(** ** [yreadLine], [sockets/yread_line.c] *)

Definition yreadLine_body (fd n readTally : Z) : M (io X W) (Z + after) :=
  numRead ← read fd 1;
  match numRead with
  | inl _ =>
      e ← gets errno;
      if e =? EINTR then mret (inl readTally)
      else mret (inr (Return (-1)))
  | inr [] =>
      if readTally =? 0 then mret (inr (Return 0)) else mret (inr (Break readTally))
  | inr (ch :: _) =>
      readTally ← (if to_unsigned 64 (readTally + 1) <? n
                   then store_at readTally ch;; mret (readTally + 1)
                   else mret readTally);
      if decide (ch = newline) then mret (inr (Break readTally)) else mret (inl readTally)
  end.

Definition yreadLine (fuel : nat) (fd : Z) (null : bool) (n : Z) : M (io X W) Z :=
  if (n <=? 0) || null then set_errno EINVAL;; mret (-1)
  else
    r ← loop fuel (yreadLine_body fd n) 0;
    match r with
    | Return r => mret r
    | Break readTally => store_at readTally NUL;; mret readTally
    end.
End readLine.

(** ** The [ybio] library, [sockets/ybio.c] and [sockets/ybio.h] *)

Definition YBIO_SIZE : nat := Z.to_nat 8192.

Record ybio_t := Ybio {
  bio_fd : Z;
  bio_ptr : nat;            (* index into [bio_buf] *)
  bio_buf : bytes;
  bio_cnt : Z
}.

Section ybio.
Context {W : Type} `{!ReadSys W}.

(** One turn of [while (p->bio_cnt <= 0)]: [Some r] when the function returns
    [r], [None] when the loop ends with a populated buffer. *)
Definition ybio_refill (_ : unit) : M (io ybio_t W) (unit + option Z) :=
  p ← gets aux;
  if 0 <? bio_cnt p then mret (inr None)
  else
    numRead ← read (bio_fd p) YBIO_SIZE;
    match numRead with
    | inl _ =>
        set_aux (Ybio (bio_fd p) (bio_ptr p) (bio_buf p) (-1));;
        e ← gets errno;
        if negb (e =? EINTR) then mret (inr (Some (-1))) else mret (inl tt)
    | inr [] =>
        set_aux (Ybio (bio_fd p) (bio_ptr p) (bio_buf p) 0);;
        mret (inr (Some 0))
    | inr bs =>
        set_aux (Ybio (bio_fd p) 0 (bs ++ drop (length bs) (bio_buf p))
                   (Z.of_nat (length bs)));;
        mret (inl tt)
    end.

(** The return value and the bytes copied to [buf]. *)
Definition ybio_read (fuel : nat) (n : Z) : M (io ybio_t W) (Z * bytes) :=
  r ← loop fuel ybio_refill tt;
  match r with
  | Some r => mret (r, [])
  | None =>
      p ← gets aux;
      let cnt := if bio_cnt p <? n then bio_cnt p else n in
      set_aux (Ybio (bio_fd p) (bio_ptr p + Z.to_nat cnt) (bio_buf p) (bio_cnt p - cnt));;
      mret (cnt, take (Z.to_nat cnt) (drop (bio_ptr p) (bio_buf p)))
  end.

Definition ybio_init (fd : Z) : M (io ybio_t W) unit :=
  p ← gets aux;
  set_aux (Ybio fd 0 (bio_buf p) 0).

Definition ybio_readl_body (fuel : nat) (n numRead : Z) : M (io ybio_t W) (Z + after) :=
  '(rc, data) ← ybio_read fuel 1;
  if rc =? -1 then mret (inr (Return (-1)))
  else if rc =? 0 then
    if numRead =? 0 then mret (inr (Return 0)) else mret (inr (Break numRead))
  else
    match data with
    | [] => stop HUndef                          (* [ch] was not written *)
    | ch :: _ =>
        numRead ← (if to_unsigned 64 (numRead + 1) <? n
                   then store_at numRead ch;; mret (numRead + 1)
                   else mret numRead);
        if decide (ch = newline) then mret (inr (Break numRead)) else mret (inl numRead)
    end.

Definition ybio_readl (fuel : nat) (null : bool) (n : Z) : M (io ybio_t W) Z :=
  if (n <=? 0) || null then set_errno EINVAL;; mret (-1)
  else
    r ← loop fuel (ybio_readl_body fuel n) 0;
    match r with
    | Return r => mret r
    | Break numRead => store_at numRead NUL;; mret numRead
    end.
End ybio.

(** ** [readLineBuf], [sockets/read_line_buf.c] and [read_line_buf.h] *)

Definition RL_MAX_BUF : nat := 10.

Record ReadLineBuf := RLBuf {
  rl_fd : Z;
  rl_buf : bytes;
  rl_next : Z;
  rl_len : Z
}.

Section readLineBuf.
Context {W : Type} `{!ReadSys W}.

Definition readLineBufInit (fd : Z) : M (io ReadLineBuf W) unit :=
  p ← gets aux;
  set_aux (RLBuf fd (rl_buf p) 0 0).

(** Makes a character available: [Some r] when [readLineBuf] returns [r] at
    once ([r = -1]), or [break]s ([r = 0]). *)
Definition readLineBuf_fill : M (io ReadLineBuf W) (option Z) :=
  p ← gets aux;
  if rl_next p >=? rl_len p then
    numRead ← read (rl_fd p) RL_MAX_BUF;
    match numRead with
    | inl _ => set_aux (RLBuf (rl_fd p) (rl_buf p) (rl_next p) (-1));; mret (Some (-1))
    | inr [] => set_aux (RLBuf (rl_fd p) (rl_buf p) (rl_next p) 0);; mret (Some 0)
    | inr bs =>
        set_aux (RLBuf (rl_fd p) (bs ++ drop (length bs) (rl_buf p)) 0
                   (Z.of_nat (length bs)));;
        mret None
    end
  else mret None.

Definition readLineBuf_body (n cnt : Z) : M (io ReadLineBuf W) (Z + after) :=
  r ← readLineBuf_fill;
  match r with
  | Some r => if r =? -1 then mret (inr (Return (-1))) else mret (inr (Break cnt))
  | None =>
      p ← gets aux;
      match rl_buf p !! Z.to_nat (rl_next p) with
      | None => stop HUndef
      | Some c =>
          set_aux (RLBuf (rl_fd p) (rl_buf p) (rl_next p + 1) (rl_len p));;
          cnt ← (if cnt <? n then store_at cnt c;; mret (cnt + 1) else mret cnt);
          if decide (c = newline) then mret (inr (Break cnt)) else mret (inl cnt)
      end
  end.

Definition readLineBuf (fuel : nat) (null : bool) (n : Z) : M (io ReadLineBuf W) Z :=
  if (n <=? 0) || null then set_errno EINVAL;; mret (-1)
  else
    r ← loop fuel (readLineBuf_body n) 0;
    match r with
    | Return r => mret r
    | Break cnt => mret cnt
    end.
End readLineBuf.

(** ** The abstract line *)

(** The input up to and including its first newline, and what follows. *)
Fixpoint split_line (p : bytes) : bytes * bytes :=
  match p with
  | [] => ([], [])
  | c :: p =>
      if decide (c = newline) then ([c], p)
      else let '(l, r) := split_line p in (c :: l, r)
  end.

Definition terminated (line : bytes) : bool := bool_decide (newline ∈ line).

Lemma split_line_app p : fst (split_line p) ++ snd (split_line p) = p.
Proof.
  induction p as [|c p IH]; simpl; [done|]. case_decide; [done|].
  destruct (split_line p) as [l r]. simpl in *. by rewrite IH.
Qed.

(** ** The line loop against an abstract input *)

Section line_loop.
Context {X W : Type}.
Context (avail : io X W → bytes) (credit : io X W → nat) (inv : io X W → Prop).
Context (cap : Z) (eof : Z → after).

Definition bump (tot : Z) : Z := if tot <? cap then tot + 1 else tot.

Definition place (tot : Z) (c : ascii) (m : bytes) : bytes :=
  if tot <? cap then <[Z.to_nat tot := c]> m else m.

(** One turn of the loop either retries, or sees the end of the input, or
    consumes its next byte and keeps it while there is room. *)
Definition line_step (body : Z → M (io X W) (Z + after)) : Prop :=
  ∀ tot s, inv s → 0 <= tot <= cap → cap <= Z.of_nat (length (mem s)) →
  (∃ s', body tot s = (Ok (inl tot), s') ∧ inv s' ∧ avail s' = avail s ∧
     (credit s' < credit s)%nat ∧ mem s' = mem s) ∨
  (avail s = [] ∧ ∃ s', body tot s = (Ok (inr (eof tot)), s') ∧ inv s' ∧
     avail s' = [] ∧ mem s' = mem s) ∨
  (∃ c p s', avail s = c :: p ∧
     body tot s = (Ok (if decide (c = newline) then inr (Break (bump tot))
                       else inl (bump tot)), s') ∧
     inv s' ∧ avail s' = p ∧ (credit s' <= credit s)%nat ∧
     mem s' = place tot c (mem s)).

Lemma place_keep acc c m :
  take (length acc) m = acc → cap <= Z.of_nat (length m) →
  Z.of_nat (length acc) <= cap →
  let kept := take (Z.to_nat cap) (acc ++ [c]) in
  bump (Z.of_nat (length acc)) = Z.of_nat (length kept) ∧
  place (Z.of_nat (length acc)) c m = kept ++ drop (length kept) m.
Proof.
  intros Hacc Hm Hcap kept. unfold bump, place.
  destruct (Z.of_nat (length acc) <? cap) eqn:E; bool_facts.
  - assert (kept = acc ++ [c]) as -> by (apply take_ge; rewrite length_app; simpl; lia).
    rewrite length_app. simpl. split; [lia|].
    rewrite Nat2Z.id, insert_take_drop by lia. rewrite Hacc, <- app_assoc. simpl.
    do 3 f_equal. lia.
  - assert (kept = acc) as ->.
    { unfold kept. rewrite take_app_le by lia. apply take_ge. lia. }
    split; [done|]. rewrite <- Hacc at 1. by rewrite take_drop.
Qed.

(** Keeping a byte and then a line is keeping the line that starts with it. *)
Lemma take_keep (acc line : bytes) c :
  take (Z.to_nat cap) (take (Z.to_nat cap) (acc ++ [c]) ++ line) =
  take (Z.to_nat cap) (acc ++ c :: line).
Proof.
  change (c :: line) with ([c] ++ line). rewrite (app_assoc acc).
  generalize (acc ++ [c]). intros l. rewrite !take_app, length_take, take_take, Nat.min_id.
  destruct (decide (length l <= Z.to_nat cap)%nat).
  - by rewrite Nat.min_r by lia.
  - rewrite Nat.min_l by lia. f_equal.
    replace (Z.to_nat cap - length l)%nat with 0%nat by lia. by rewrite Nat.sub_diag.
Qed.

Lemma drop_keep (acc line m : bytes) c :
  let acc' := take (Z.to_nat cap) (acc ++ [c]) in
  let k := length (take (Z.to_nat cap) (acc ++ c :: line)) in
  drop k (acc' ++ drop (length acc') m) = drop k m.
Proof.
  intros acc' k. assert (length acc' <= k)%nat as Hk.
  { unfold k, acc'. rewrite !length_take, !length_app. simpl. lia. }
  rewrite drop_app, (drop_ge acc'), drop_drop by done. simpl. f_equal. lia.
Qed.

Lemma loop_line body fuel acc s line rest :
  line_step body → inv s →
  (length (avail s) + credit s < fuel)%nat →
  take (length acc) (mem s) = acc → Z.of_nat (length acc) <= cap →
  cap <= Z.of_nat (length (mem s)) → split_line (avail s) = (line, rest) →
  let kept := take (Z.to_nat cap) (acc ++ line) in
  ∃ s', loop fuel body (Z.of_nat (length acc)) s =
      (Ok (if terminated line then Break (Z.of_nat (length kept))
           else eof (Z.of_nat (length kept))), s') ∧
    inv s' ∧ avail s' = rest ∧ mem s' = kept ++ drop (length kept) (mem s).
Proof.
  intros Hstep. revert acc s line rest.
  induction fuel as [|fuel IH]; intros acc s line rest Hinv Hfuel Hacc Hcap Hmem Hsp; [lia|].
  simpl loop. destruct (Hstep (Z.of_nat (length acc)) s Hinv) as
    [(s1 & Hb & Hi & Ha & Hc & Hm)|[(Hnil & s1 & Hb & Hi & Ha & Hm)|
     (c & p & s1 & Hav & Hb & Hi & Ha & Hc & Hm)]]; [lia|done|..];
    rewrite (run_bind _ _ _ _ _ Hb).
  - rewrite <- Hm. apply IH; rewrite ?Hm; (done || rewrite ?Ha; (done || lia)).
  - rewrite Hnil in Hsp. injection Hsp as <- <-. simpl. rewrite app_nil_r, take_ge by lia.
    exists s1. split_and!; try done. rewrite Hm. rewrite <- Hacc at 1. by rewrite take_drop.
  - rewrite Hav in Hsp, Hfuel. simpl in Hsp, Hfuel.
    destruct (place_keep acc c (mem s)) as [Hbump Hplace]; [done..|].
    rewrite Hplace in Hm. rewrite Hbump. destruct (decide (c = newline)) as [->|Hne].
    + injection Hsp as <- <-. exists s1. by split_and!.
    + destruct (split_line p) as [line' rest'] eqn:Hp. injection Hsp as <- <-.
      pose proof (drop_keep acc line' (mem s) c) as Hdk. simpl in Hdk.
      pose proof (take_keep acc line' c) as Htk.
      set (acc' := take (Z.to_nat cap) (acc ++ [c])) in *.
      assert (length acc' <= Z.to_nat cap)%nat as Hl by (unfold acc'; rewrite length_take; lia).
      destruct (IH acc' s1 line' rest') as (s2 & Hl2 & Hi2 & Ha2 & Hm2);
        rewrite ?Ha, ?Hm, ?length_app, ?length_drop, ?take_app_length; try done; [lia..|].
      rewrite Htk, Hm, ?Hdk in *. exists s2. split_and!; try done. rewrite Hl2.
      unfold terminated.
      rewrite (bool_decide_ext (newline ∈ c :: line') (newline ∈ line')); [done|].
      rewrite elem_of_cons. split; [intros [?|?]; congruence|auto].
Qed.
End line_loop.

(** ** What the null-terminating readers promise *)

(** At end of input without any byte kept, the readers return 0 at once. *)
Definition eof_return (tot : Z) : after := if tot =? 0 then Return 0 else Break tot.

(** The caller's buffer afterwards: the first [n - 1] bytes of the line and a
    null byte; untouched when the input ended and no byte was kept. *)
Definition line_mem (n : Z) (line m : bytes) : bytes :=
  let kept := take (Z.to_nat (n - 1)) line in
  if terminated line || negb (length kept =? 0)%nat
  then kept ++ NUL :: drop (S (length kept)) m
  else m.

(** One call consumes exactly one line of the input and returns how much of it
    was kept. *)
Definition reads_line {X W} (avail : io X W → bytes) (n : Z) (s : io X W)
    (r : res Z * io X W) : Prop :=
  let '(line, rest) := split_line (avail s) in
  ∃ s', r = (Ok (Z.of_nat (length (take (Z.to_nat (n - 1)) line))), s') ∧
    avail s' = rest ∧ mem s' = line_mem n line (mem s).

(** The common end of the three readers. *)
Lemma finish_line {X W} (avail : io X W → bytes) credit inv body fuel n s :
  (∀ e m x w e' m', avail (Io e m x w) = avail (Io e' m' x w)) →
  line_step avail credit inv (n - 1) eof_return body → inv s →
  1 <= n <= Z.of_nat (length (mem s)) →
  (length (avail s) + credit s < fuel)%nat →
  reads_line avail n s
    ((r ← loop fuel body 0;
      match r with
      | Return r => mret r
      | Break tot => store_at tot NUL;; mret tot
      end) s).
Proof.
  intros Hav Hstep Hinv Hn Hfuel. unfold reads_line, line_mem.
  destruct (split_line (avail s)) as [line rest] eqn:Hsp.
  destruct (loop_line avail credit inv (n - 1) eof_return body fuel [] s line rest)
    as (s1 & Hl & Hi & Ha & Hm); simpl; try done; [lia..|]. simpl in Hl, Hm.
  set (kept := take (Z.to_nat (n - 1)) line) in *.
  assert (length kept <= Z.to_nat (n - 1))%nat as Hk by (unfold kept; rewrite length_take; lia).
  rewrite (run_bind _ _ _ _ _ Hl). unfold eof_return.
  assert ((Z.of_nat (length kept) =? 0) = (length kept =? 0)%nat) as -> by (by destruct kept).
  destruct (terminated line || negb (length kept =? 0)%nat) eqn:Et.
  - assert ((if terminated line then Break (Z.of_nat (length kept)) else
      if (length kept =? 0)%nat then Return 0 else Break (Z.of_nat (length kept))) =
      Break (Z.of_nat (length kept))) as ->.
    { destruct (terminated line); [done|]. simpl in Et. by destruct (length kept =? 0)%nat. }
    erewrite run_bind by (apply store_at_ok; rewrite Hm, length_app, length_drop; lia).
    eexists. split_and!; [done| |].
    + rewrite <- Ha. destruct s1. apply Hav.
    + simpl. rewrite Hm, Nat2Z.id.
      rewrite insert_app_r_alt, Nat.sub_diag by lia. f_equal.
      rewrite (drop_S _ (default NUL (mem s !! length kept)) (length kept)).
      { done. }
      destruct (lookup_lt_is_Some_2 (mem s) (length kept)) as [x ->]; [lia|done].
  - apply orb_false_iff in Et as [-> Et]. rewrite negb_false_iff in Et. rewrite Et.
    apply Nat.eqb_eq in Et. rewrite Et in *. exists s1. split_and!; [done..|].
    rewrite Hm. by apply nil_length_inv in Et as ->.
Qed.

Section readLine_facts.
Context {X W : Type} `{!ReadSys W} (fd : Z).

Lemma yreadLine_body_eq n tot (s : io X W) :
  0 <= tot < n → n < 2 ^ 64 → yreadLine_body fd n tot s = readLine_body fd n tot s.
Proof.
  intros Ht Hn. unfold yreadLine_body, readLine_body.
  rewrite to_unsigned_small by lia.
  by replace (tot + 1 <? n) with (tot <? n - 1) by lia.
Qed.

Lemma readLine_body_range n tot tot' (s s' : io X W) :
  0 <= tot < n → readLine_body fd n tot s = (Ok (inl tot'), s') → 0 <= tot' < n.
Proof.
  intros Ht. unfold readLine_body, mbind, M_bind, gets, mret, M_ret.
  destruct (read fd 1 s) as [[[e|[|c bs]]|h] s1]; [..|done].
  - case_match; intros [= <- _]. lia.
  - case_match; discriminate.
  - destruct (tot <? n - 1) eqn:E; bool_facts; [|case_decide; intros [= <- _]; lia].
    destruct (store_at tot c s1) as [[[]|h] s2]; [|done].
    case_decide; intros [= <- _]; lia.
Qed.

(** [yreadLine] and [readLine] are the same function: on every world,
    every buffer and every size a [size_t] can hold, they return the same
    value in the same state. *)
Theorem yreadLine_readLine fuel null n (s : io X W) :
  n < 2 ^ 64 → yreadLine fuel fd null n s = readLine fuel fd null n s.
Proof.
  intros Hn. unfold yreadLine, readLine. destruct ((n <=? 0) || null) eqn:E; [done|].
  apply orb_false_iff in E as [E _]. bool_facts.
  assert (∀ tot (s : io X W), 0 <= tot < n →
    loop fuel (yreadLine_body fd n) tot s = loop fuel (readLine_body fd n) tot s) as H.
  { clear s. induction fuel as [|fuel IH]; intros tot s Ht; [done|]. simpl.
    unfold mbind, M_bind. rewrite yreadLine_body_eq by lia.
    destruct (readLine_body fd n tot s) as [[[tot'|b]|h] s'] eqn:Eb; [|done..].
    apply IH. by eapply readLine_body_range. }
  unfold mbind, M_bind. by rewrite H by lia.
Qed.

Context (pending : W → bytes) (credit : W → nat) `{!ReadLaws W fd pending credit}.
Context (Hrel : read_reliable fd).

Lemma readLine_step n :
  1 <= n →
  line_step (λ s : io X W, pending s.(world)) (λ s, credit s.(world)) (λ _, True)
    (n - 1) eof_return (readLine_body fd n).
Proof.
  intros Hn tot s _ Ht Hm.
  unfold readLine_body, mbind, M_bind, read, gets, mret, M_ret.
  destruct (sys_read fd 1 (world s)) as [[e|bs] w'] eqn:E.
  - pose proof (Hrel _ _ _ _ E) as ->. apply read_error in E as (_ & Hp & Hc).
    left. eexists. split_and!; [done|done|done|by apply Hc|done].
  - apply read_data in E as (Hp & Hl & Hnil & Hc); [|lia].
    destruct bs as [|c [|d bs]]; simpl in *; [|..|lia].
    + right; left. split; [by apply Hnil|]. eexists.
      unfold eof_return. split_and!; [by case_match|done| |done].
      cbn. rewrite <- Hp. by apply Hnil.
    + right; right. exists c, (pending w'). unfold bump, place.
      destruct (tot <? n - 1) eqn:Eb; bool_facts.
      * rewrite store_at_ok by (simpl; lia). eexists. split; [done|].
        split; [by case_decide|]. by split_and!.
      * eexists. split; [done|]. split; [by case_decide|]. by split_and!.
Qed.

End readLine_facts.

Lemma yreadLine_readLine_witness :
  yreadLine 9 0 false 4 (Io 0 (replicate 4 "z"%char) tt (Script (chars "hello") [] [])) =
  readLine 9 0 false 4 (Io 0 (replicate 4 "z"%char) tt (Script (chars "hello") [] [])).
Proof. apply (yreadLine_readLine 0 9 false 4). reflexivity. Defined.


(** ** The buffered reader meets the same interface *)

Section ybio_facts.
Context {W : Type} `{!ReadSys W} (fd : Z).
Context (pending : W → bytes) (credit : W → nat) `{!ReadLaws W fd pending credit}.
Context (Hrel : read_reliable fd).

(** The input as the library's caller sees it: what the internal buffer still
    holds, then what the descriptor will deliver. *)
Definition ybio_avail (s : io ybio_t W) : bytes :=
  take (Z.to_nat (bio_cnt s.(aux))) (drop (bio_ptr s.(aux)) (bio_buf s.(aux)))
  ++ pending s.(world).

(** The structure describes a region of its own buffer. *)
Definition ybio_ok (s : io ybio_t W) : Prop :=
  bio_fd s.(aux) = fd ∧ length (bio_buf s.(aux)) = YBIO_SIZE ∧
  (0 < bio_cnt s.(aux) →
   Z.of_nat (bio_ptr s.(aux)) + bio_cnt s.(aux) <= Z.of_nat YBIO_SIZE).

Definition ybio_inv (fuel : nat) (s : io ybio_t W) : Prop :=
  ybio_ok s ∧ (credit s.(world) + 1 < fuel)%nat.

(** Iterations of the refill loop that may still follow. *)
Definition refills (s : io ybio_t W) : nat :=
  credit s.(world) + (if (0 <? bio_cnt s.(aux))%Z then 0 else 1).

(** One turn of the refill loop: the abstract input is unchanged, and the loop
    ends with a populated buffer, or at the end of the input, or goes on with
    fewer turns to come. *)
Lemma ybio_refill_step s :
  ybio_ok s →
  ∃ r s', ybio_refill tt s = (Ok r, s') ∧ ybio_ok s' ∧ ybio_avail s' = ybio_avail s ∧
    (credit s'.(world) <= credit s.(world))%nat ∧ mem s' = mem s ∧
    ((r = inr None ∧ 0 < bio_cnt s'.(aux)) ∨ (r = inr (Some 0) ∧ ybio_avail s = []) ∨
     (r = inl tt ∧ (refills s' < refills s)%nat)).
Proof.
  intros (Hfd & Hlen & Hreg). unfold ybio_refill, mbind, M_bind, gets, mret, M_ret.
  destruct (0 <? bio_cnt (aux s)) eqn:Ecnt; bool_facts.
  { eexists _, s. split_and!; try done. by left. }
  unfold read, refills. rewrite Hfd. replace (0 <? bio_cnt (aux s)) with false by lia.
  assert (ybio_avail s = pending (world s)) as Hav.
  { unfold ybio_avail. by rewrite Z2Nat.nonpos by lia. }
  rewrite Hav. destruct (sys_read fd YBIO_SIZE (world s)) as [[e|bs] w'] eqn:E.
  - pose proof (Hrel _ _ _ _ E) as ->. apply read_error in E as (_ & Hp & Hc).
    specialize (Hc eq_refl). eexists _, _. split; [done|]. simpl.
    split_and!; try done; [lia|]. right; right. split; [done|lia].
  - apply read_data in E as (Hp & Hl & Hnil & Hc); [|unfold YBIO_SIZE; lia].
    destruct bs as [|c bs]; eexists _, _; (split; [done|]); unfold ybio_ok, ybio_avail; simpl.
    + split_and!; try done. right; left. split; [done|by apply Hnil].
    + rewrite length_app, length_drop, Nat2Z.id. simpl in *.
      rewrite take_app_length. split_and!; try done; [lia|lia|]. right; right. split; [done|lia].
Qed.

Lemma ybio_refill_spec fuel s :
  ybio_ok s → (refills s < fuel)%nat →
  ∃ r s', loop fuel ybio_refill tt s = (Ok r, s') ∧ ybio_ok s' ∧
    ybio_avail s' = ybio_avail s ∧ (credit s'.(world) <= credit s.(world))%nat ∧
    mem s' = mem s ∧
    ((r = None ∧ 0 < bio_cnt s'.(aux)) ∨ (r = Some 0 ∧ ybio_avail s = [])).
Proof.
  revert s. induction fuel as [|fuel IH]; intros s Hok Hfuel; [lia|].
  destruct (ybio_refill_step s Hok) as (r & s1 & Hb & Hok1 & Ha1 & Hc1 & Hm1 & Hr).
  simpl loop. rewrite (run_bind _ _ _ _ _ Hb).
  destruct Hr as [[-> Hr]|[[-> Hr]|[-> Hr]]].
  - eexists _, s1. split_and!; try done. by left.
  - eexists _, s1. split_and!; try done. by right.
  - destruct (IH s1 Hok1) as (r & s2 & Hl & Hok2 & Ha2 & Hc2 & Hm2 & Hr2); [lia|].
    rewrite Ha1 in *. exists r, s2. split_and!; try done; [lia|congruence].
Qed.

(** Reading one byte yields the head of the abstract input. *)
Lemma ybio_read_one fuel s :
  ybio_ok s → (refills s < fuel)%nat →
  ∃ s', ybio_ok s' ∧ (credit s'.(world) <= credit s.(world))%nat ∧ mem s' = mem s ∧
    match ybio_avail s with
    | [] => ybio_read fuel 1 s = (Ok (0, []), s') ∧ ybio_avail s' = []
    | c :: p => ybio_read fuel 1 s = (Ok (1, [c]), s') ∧ ybio_avail s' = p
    end.
Proof.
  intros Hok Hf.
  destruct (ybio_refill_spec fuel s Hok Hf) as (r & s1 & Hl & Hok1 & Ha & Hc & Hm & Hr).
  pose proof (run_bind _ (λ r, match r with Some r => mret (r, []) | None => _ end)
    _ _ _ Hl : ybio_read fuel 1 s = _) as Hrun. rewrite Hrun. clear Hrun.
  destruct Hr as [[-> Hcnt]|[-> Hnil]].
  - destruct Hok1 as (Hfd & Hlen & Hreg). specialize (Hreg Hcnt).
    destruct s1 as [e m [fd' ptr buf cnt] w]. simpl in *.
    unfold mbind, M_bind, gets, set_aux, modify, mret, M_ret; simpl.
    assert ((if cnt <? 1 then cnt else 1) = 1) as -> by (case_match; bool_facts; lia).
    destruct (drop ptr buf) as [|c q] eqn:Ed.
    { apply (f_equal length) in Ed. rewrite length_drop in Ed. simpl in Ed. lia. }
    assert (drop (ptr + Z.to_nat 1) buf = q) as Ed'.
    { change (Z.to_nat 1) with 1%nat. by rewrite <- drop_drop, Ed. }
    rewrite <- Ha. unfold ybio_avail; simpl. rewrite Ed.
    replace (Z.to_nat cnt) with (S (Z.to_nat (cnt - 1))) by lia. simpl.
    exists (Io e m (Ybio fd' (ptr + Z.to_nat 1) buf (cnt - 1)) w).
    split; [|split; [exact Hc|split; [exact Hm|split; [done|]]]].
    + unfold ybio_ok; simpl. split_and!; [done|done|lia].
    + simpl. by rewrite Ed'.
  - rewrite Hnil in *. exists s1. by split_and!.
Qed.

Lemma ybio_readl_step fuel n :
  1 <= n → n < 2 ^ 64 →
  line_step ybio_avail (λ s, credit s.(world)) (ybio_inv fuel) (n - 1) eof_return
    (ybio_readl_body fuel n).
Proof.
  intros Hn Hn' tot s [Hok Hf] Ht Hm.
  destruct (ybio_read_one fuel s Hok) as (s1 & Hok1 & Hc1 & Hm1 & Hav).
  { unfold refills. case_match; lia. }
  right. unfold ybio_readl_body, ybio_inv.
  destruct (ybio_avail s) as [|c p] eqn:Ea; destruct Hav as [Hr Ha].
  - left. split; [done|]. exists s1. rewrite (run_bind _ _ _ _ _ Hr). simpl.
    split_and!; try done; [unfold eof_return; by case_match|lia].
  - right. exists c, p. unfold bump, place. rewrite to_unsigned_small by lia.
    replace (tot + 1 <? n) with (tot <? n - 1) by lia.
    setoid_rewrite (run_bind _ _ _ _ _ Hr). simpl.
    unfold mbind, M_bind, mret, M_ret. destruct (tot <? n - 1) eqn:Eb; bool_facts.
    + rewrite store_at_ok by (rewrite Hm1; lia).
      eexists. split; [done|]. split; [by case_decide|]. rewrite <- Hm1.
      split_and!; try done; simpl; lia.
    + exists s1. split; [done|]. split; [by case_decide|]. split_and!; try done; lia.
Qed.

End ybio_facts.

(** [ybio_init] makes the descriptor's input the abstract input. *)
Lemma ybio_init_spec {W} `{!ReadSys W} fd (pending : W → bytes) s :
  length (bio_buf s.(aux)) = YBIO_SIZE →
  ∃ s', ybio_init fd s = (Ok tt, s') ∧ ybio_ok fd s' ∧
    ybio_avail pending s' = pending s.(world) ∧ mem s' = mem s.
Proof.
  intros Hl. eexists. split; [done|]. unfold ybio_ok, ybio_avail; simpl.
  split_and!; try done.
Qed.


(** ** [readLineBuf] *)

Section readLineBuf_facts.
Context {W : Type} `{!ReadSys W} (fd : Z).
Context (pending : W → bytes) (credit : W → nat) `{!ReadLaws W fd pending credit}.
Context (Hrel : read_reliable fd).

Definition rl_avail (s : io ReadLineBuf W) : bytes :=
  drop (Z.to_nat (rl_next s.(aux))) (take (Z.to_nat (rl_len s.(aux))) (rl_buf s.(aux)))
  ++ pending s.(world).

(** The structure describes a region of its buffer, and no interruption is to
    come: [readLineBuf] does not restart an interrupted read. *)
Definition rl_ok (s : io ReadLineBuf W) : Prop :=
  rl_fd s.(aux) = fd ∧ length (rl_buf s.(aux)) = RL_MAX_BUF ∧
  0 <= rl_next s.(aux) ∧ rl_len s.(aux) <= Z.of_nat RL_MAX_BUF ∧ credit s.(world) = 0%nat.

Lemma rl_avail_empty s :
  rl_len s.(aux) <= rl_next s.(aux) → rl_avail s = pending s.(world).
Proof. intros H. unfold rl_avail. rewrite drop_ge; [done|]. rewrite length_take. lia. Qed.

(** Filling makes the head of the abstract input the next character of the
    structure, or reports the end of the input. *)
Lemma readLineBuf_fill_spec s :
  rl_ok s →
  ∃ r s', readLineBuf_fill s = (Ok r, s') ∧ rl_ok s' ∧ rl_avail s' = rl_avail s ∧
    mem s' = mem s ∧
    ((r = Some 0 ∧ rl_avail s = []) ∨ (r = None ∧ rl_next s'.(aux) < rl_len s'.(aux))).
Proof.
  intros (Hfd & Hlen & Hnx & Hln & Hcr).
  unfold readLineBuf_fill, mbind, M_bind, gets, mret, M_ret, read.
  destruct (rl_next (aux s) >=? rl_len (aux s)) eqn:E.
  2: { eexists _, s. split_and!; try done. right. split; [done|lia]. }
  rewrite Hfd, (rl_avail_empty s) by lia.
  destruct (sys_read fd RL_MAX_BUF (world s)) as [[e|bs] w'] eqn:Er.
  - pose proof (Hrel _ _ _ _ Er) as ->. apply read_error in Er as (_ & _ & Hc).
    specialize (Hc eq_refl). lia.
  - apply read_data in Er as (Hp & Hl & Hnil & Hc); [|unfold RL_MAX_BUF; lia].
    destruct bs as [|c bs]; eexists _, _; (split; [done|]); unfold rl_ok, rl_avail; simpl.
    + rewrite take_0, drop_nil. split_and!; try done; [lia|].
      left. split; [done|by apply Hnil].
    + rewrite length_app, length_drop, Nat2Z.id. simpl in *. rewrite take_app_length.
      split_and!; try done; try lia. right. split; [done|lia].
Qed.

Lemma readLineBuf_step n :
  1 <= n →
  line_step rl_avail (λ _, 0%nat) rl_ok n Break (readLineBuf_body n).
Proof.
  intros Hn tot s Hok Ht Hm.
  destruct (readLineBuf_fill_spec s Hok) as (r & s1 & Hf & Hok1 & Ha & Hm1 & Hr).
  right. unfold readLineBuf_body. destruct Hr as [[-> Hnil]|[-> Hlt]].
  - left. split; [done|]. exists s1. rewrite (run_bind _ _ _ _ _ Hf). simpl.
    split_and!; try done. congruence.
  - right. destruct Hok1 as (Hfd & Hlen & Hnx & Hln & Hcr).
    destruct s1 as [e m [fd' buf nx ln] w]. simpl in *.
    destruct (lookup_lt_is_Some_2 buf (Z.to_nat nx)) as [c Hc]; [lia|].
    assert (rl_avail s = c :: drop (Z.to_nat (nx + 1)) (take (Z.to_nat ln) buf) ++ pending w)
      as Hav.
    { rewrite <- Ha. unfold rl_avail; simpl. rewrite (drop_S _ c) by (by rewrite lookup_take_lt by lia).
      simpl. do 3 f_equal. lia. }
    eexists c, _. setoid_rewrite (run_bind _ _ _ _ _ Hf). rewrite Hav.
    unfold mbind, M_bind, gets, set_aux, modify, mret, M_ret, bump, place; simpl. rewrite Hc.
    destruct (tot <? n) eqn:Eb; bool_facts.
    + rewrite store_at_ok by (simpl; subst m; lia). simpl. subst m.
      eexists. split; [done|]. split; [by case_decide|]. unfold rl_ok; simpl.
      split_and!; try done; lia.
    + eexists. split; [done|]. split; [by case_decide|]. unfold rl_ok; simpl.
      split_and!; try done; lia.
Qed.

(** On a descriptor whose reads are not interrupted, [readLineBuf]
    consumes exactly one line of the input (its internal ten-byte buffer
    followed by the descriptor's data), stores the first [n] bytes of it in
    the caller's buffer without a null byte, changes nothing beyond them and
    returns their number. *)
Theorem readLineBuf_spec fuel n s line rest :
  rl_ok s → 1 <= n <= Z.of_nat (length s.(mem)) →
  (length (rl_avail s) < fuel)%nat → split_line (rl_avail s) = (line, rest) →
  let kept := take (Z.to_nat n) line in
  ∃ s', readLineBuf fuel false n s = (Ok (Z.of_nat (length kept)), s') ∧
    rl_ok s' ∧ rl_avail s' = rest ∧ mem s' = kept ++ drop (length kept) s.(mem).
Proof.
  intros Hok Hn Hf Hsp kept. unfold readLineBuf.
  replace ((n <=? 0) || false) with false by lia.
  destruct (loop_line rl_avail (λ _, 0%nat) rl_ok n Break (readLineBuf_body n) fuel [] s
    line rest) as (s1 & Hl & Hi & Ha & Hm); simpl; try done; [apply readLineBuf_step; lia|lia..|].
  simpl in Hl. change (Z.of_nat 0) with 0 in Hl.
  exists s1. rewrite (run_bind _ _ _ _ _ Hl). split_and!; try done. by destruct (terminated line).
Qed.
End readLineBuf_facts.

Lemma readLineBuf_spec_witness :
  let s := Io 0 (replicate 6 "z"%char) (RLBuf 0 (replicate 10 NUL) 0 0)
             (Script (chars "abc" ++ newline :: chars "cd") [] [Portion 1]) in
  ∃ s', readLineBuf 9 false 6 s = (Ok 4, s') ∧ rl_ok 0 script_credit s' ∧
    rl_avail input s' = chars "cd" ∧
    mem s' = (chars "abc" ++ [newline]) ++ drop 4 (replicate 6 "z"%char).
Proof.
  intros s.
  apply (readLineBuf_spec 0 input script_credit (script_read_reliable 0) 9 6 s
           (chars "abc" ++ [newline]) (chars "cd")).
  - split_and!; (reflexivity || discriminate).
  - vm_compute. split; discriminate.
  - apply Nat.ltb_lt. vm_compute. reflexivity.
  - reflexivity.
Defined.
