(* ===== verification/Rdwrn.v ===== *)
(** [readn] and [writen] ([sockets/rdwrn.c]): transfers that restart after
    partial results and interruptions. *)
From S2P Require Import Prelude CLib ByteIO.
Local Open Scope Z_scope.

Section rdwrn.
Context {X W : Type}.

(** ** The routines *)

Definition readn_body `{!ReadSys W} (fd n totRead : Z) : M (io X W) (Z + Z) :=
  if totRead <? n then
    numRead ← read fd (Z.to_nat (n - totRead));
    match numRead with
    | inr [] => mret (inr totRead)                       (* EOF *)
    | inl _ =>
        e ← gets errno;
        if e =? EINTR then mret (inl totRead) else mret (inr (-1))
    | inr bs =>
        store_bytes totRead bs;;
        mret (inl (totRead + Z.of_nat (length bs)))
    end
  else mret (inr totRead).

Definition readn `{!ReadSys W} (fuel : nat) (fd n : Z) : M (io X W) Z :=
  loop fuel (readn_body fd n) 0.

Definition writen_body `{!WriteSys W} (fd n totWritten : Z) : M (io X W) (Z + Z) :=
  if totWritten <? n then
    buf ← gets (λ s, take (Z.to_nat (n - totWritten)) (drop (Z.to_nat totWritten) s.(mem)));
    numWritten ← write fd buf;
    match numWritten with
    | inl _ =>
        e ← gets errno;
        if e =? EINTR then mret (inl totWritten) else mret (inr (-1))
    | inr O => mret (inr (-1))
    | inr k => mret (inl (totWritten + Z.of_nat k))
    end
  else mret (inr totWritten).

Definition writen `{!WriteSys W} (fuel : nat) (fd n : Z) : M (io X W) Z :=
  loop fuel (writen_body fd n) 0.
End rdwrn.

(** ** [readn] *)

Section readn_facts.
Context {X W : Type} `{!ReadSys W} (fd : Z).
Context (pending : W → bytes) (credit : W → nat) `{!ReadLaws W fd pending credit}.
Context (Hrel : read_reliable fd).

(** One turn: interrupted, at the end of the input, or some bytes further. *)
Lemma readn_turn n k (s : io X W) :
  Z.of_nat k < n <= Z.of_nat (length s.(mem)) →
  (∃ s', readn_body fd n (Z.of_nat k) s = (Ok (inl (Z.of_nat k)), s') ∧
     pending s'.(world) = pending s.(world) ∧
     (credit s'.(world) < credit s.(world))%nat ∧ s'.(mem) = s.(mem)) ∨
  (pending s.(world) = [] ∧
   ∃ s', readn_body fd n (Z.of_nat k) s = (Ok (inr (Z.of_nat k)), s') ∧
     pending s'.(world) = [] ∧ s'.(mem) = s.(mem)) ∨
  (∃ bs s', readn_body fd n (Z.of_nat k) s = (Ok (inl (Z.of_nat (k + length bs))), s') ∧
     bs ≠ [] ∧ pending s.(world) = bs ++ pending s'.(world) ∧
     (k + length bs <= Z.to_nat n)%nat ∧ (credit s'.(world) <= credit s.(world))%nat ∧
     s'.(mem) = take k s.(mem) ++ bs ++ drop (k + length bs) s.(mem)).
Proof.
  intros Hn. unfold readn_body, mbind, M_bind, gets, mret, M_ret, read.
  replace (Z.of_nat k <? n) with true by lia.
  destruct (sys_read fd _ (world s)) as [[e|bs] w'] eqn:Er.
  - pose proof (Hrel _ _ _ _ Er) as ->. apply read_error in Er as (_ & Hp & Hc).
    left. eexists. split_and!; [done|done|by apply Hc|done].
  - apply read_data in Er as (Hp & Hl & Hnil & Hc); [|lia]. right.
    destruct bs as [|c bs]; [left|right].
    + split; [by apply Hnil|]. eexists. split_and!; [done| |done]. simpl in *.
      rewrite <- Hp. by apply Hnil.
    + exists (c :: bs). set (bs' := c :: bs) in *.
      rewrite store_bytes_ok by (simpl mem; lia). rewrite Nat2Z.id, <- Nat2Z.inj_add.
      eexists. split; [done|]. split_and!; try done. lia.
Qed.

Lemma readn_loop fuel n acc (s : io X W) :
  (length (pending s.(world)) + credit s.(world) < fuel)%nat →
  take (length acc) s.(mem) = acc →
  Z.of_nat (length acc) <= n <= Z.of_nat (length s.(mem)) →
  let got := take (Z.to_nat n - length acc) (pending s.(world)) in
  ∃ s', loop fuel (readn_body fd n) (Z.of_nat (length acc)) s =
      (Ok (Z.of_nat (length acc + length got)), s') ∧
    pending s'.(world) = drop (Z.to_nat n - length acc) (pending s.(world)) ∧
    s'.(mem) = acc ++ got ++ drop (length acc + length got) s.(mem).
Proof.
  revert acc s. induction fuel as [|fuel IH]; intros acc s Hf Hacc Hn; [lia|].
  assert (acc ++ drop (length acc) (mem s) = mem s) as Hself.
  { rewrite <- Hacc at 1. by rewrite take_drop. }
  intros got. simpl loop. destruct (decide (Z.of_nat (length acc) < n)) as [Hlt|Hge].
  2: { assert (readn_body fd n (Z.of_nat (length acc)) s = (Ok (inr (Z.of_nat (length acc))), s))
         as Hb by (unfold readn_body; by replace (Z.of_nat (length acc) <? n) with false by lia).
       rewrite (run_bind _ _ _ _ _ Hb). unfold got.
       replace (Z.to_nat n - length acc)%nat with 0%nat by lia.
       rewrite take_0, drop_0. simpl. rewrite Nat.add_0_r, Hself. by exists s. }
  destruct (readn_turn n (length acc) s) as
    [(s1 & Hb & Hp & Hc & Hm)|[(Hnil & s1 & Hb & Hp & Hm)|
     (bs & s1 & Hb & Hne & Hp & Hl & Hc & Hm)]]; [lia|..]; rewrite (run_bind _ _ _ _ _ Hb).
  - unfold got. rewrite <- Hp, <- Hm. apply IH; rewrite ?Hp, ?Hm; (done || lia).
  - unfold got. rewrite Hnil, take_nil, drop_nil. simpl. rewrite Nat.add_0_r, Hself.
    by exists s1.
  - rewrite Hacc, app_assoc in Hm. assert (0 < length bs)%nat by (destruct bs; [done|simpl; lia]).
    destruct (IH (acc ++ bs) s1) as (s' & Hlp & Hpd & Hmem); rewrite ?length_app in *.
    { rewrite Hp, length_app in Hf. lia. }
    { rewrite Hm. by rewrite <- length_app, take_app_length. }
    { rewrite Hm, !length_app, length_drop. lia. }
    assert (got = bs ++ take (Z.to_nat n - (length acc + length bs)) (pending (world s1)))
      as Hgot.
    { unfold got. rewrite Hp, take_app, take_ge by lia. do 2 f_equal. lia. }
    exists s'. rewrite Hgot, length_app, Nat.add_assoc. split_and!; [done|..].
    + rewrite Hpd, Hp, drop_app, (drop_ge bs) by lia. simpl. f_equal. lia.
    + rewrite Hmem, Hm, <- !app_assoc. do 3 f_equal.
      rewrite app_assoc, drop_app, drop_ge by (rewrite length_app; lia). simpl.
      rewrite length_app, drop_drop. f_equal. lia.
Qed.

(** On a descriptor that can only fail by interruption, [readn] returns,
    stores in the buffer exactly the next [n] bytes of the input (all that is
    left when the input ends earlier), touches nothing after them, leaves the
    rest of the input unread and returns their number. *)
Theorem readn_spec fuel n (s : io X W) :
  0 <= n <= Z.of_nat (length s.(mem)) →
  (length (pending s.(world)) + credit s.(world) < fuel)%nat →
  let got := take (Z.to_nat n) (pending s.(world)) in
  ∃ s', readn fuel fd n s = (Ok (Z.of_nat (length got)), s') ∧
    pending s'.(world) = drop (Z.to_nat n) (pending s.(world)) ∧
    s'.(mem) = got ++ drop (length got) s.(mem).
Proof.
  intros Hn Hf. pose proof (readn_loop fuel n [] s Hf eq_refl) as H. simpl in H.
  rewrite Nat.sub_0_r in H. by apply H.
Qed.
End readn_facts.

(** ** [writen] *)

Section writen_facts.
Context {X W : Type} `{!WriteSys W} (fd : Z).
Context (sent : W → bytes) (credit : W → nat) `{!WriteLaws W fd sent credit}.
Context (Hrel : write_reliable fd).

(** One turn: interrupted, or a further portion accepted. *)
Lemma writen_turn n k (s : io X W) :
  Z.of_nat k < n <= Z.of_nat (length s.(mem)) →
  let todo := drop k (take (Z.to_nat n) s.(mem)) in
  (∃ s', writen_body fd n (Z.of_nat k) s = (Ok (inl (Z.of_nat k)), s') ∧
     sent s'.(world) = sent s.(world) ∧
     (credit s'.(world) < credit s.(world))%nat ∧ s'.(mem) = s.(mem)) ∨
  (∃ j s', writen_body fd n (Z.of_nat k) s = (Ok (inl (Z.of_nat (k + j))), s') ∧
     (0 < j)%nat ∧ (k + j <= Z.to_nat n)%nat ∧
     sent s'.(world) = sent s.(world) ++ take j todo ∧
     (credit s'.(world) <= credit s.(world))%nat ∧ s'.(mem) = s.(mem)).
Proof.
  intros Hn todo. destruct Hrel as [Hr1 Hr2].
  unfold writen_body, mbind, M_bind, gets, mret, M_ret, write.
  replace (Z.of_nat k <? n) with true by lia.
  assert (take (Z.to_nat (n - Z.of_nat k)) (drop (Z.to_nat (Z.of_nat k)) (mem s)) = todo) as ->.
  { unfold todo. rewrite take_drop_commute. do 2 f_equal; lia. }
  assert (length todo = Z.to_nat n - k)%nat as Hlen.
  { unfold todo. rewrite length_drop, length_take. lia. }
  destruct (sys_write fd todo (world s)) as [[e|j] w'] eqn:Ew.
  - pose proof (Hr1 _ _ _ _ Ew) as ->. apply write_error in Ew as (_ & Hs & Hc).
    left. eexists. split_and!; [done|done|by apply Hc|done].
  - assert (0 < j)%nat as Hj.
    { eapply Hr2; [|exact Ew]. intros Ht. rewrite Ht in Hlen. simpl in Hlen. lia. }
    apply write_data in Ew as (Hj' & Hs & Hc). right. exists j.
    rewrite Nat2Z.inj_add. destruct j; [lia|]. eexists. split; [done|].
    split_and!; try done. lia.
Qed.

Lemma writen_loop fuel n k (s : io X W) :
  (Z.to_nat n - k + credit s.(world) < fuel)%nat →
  Z.of_nat k <= n <= Z.of_nat (length s.(mem)) →
  ∃ s', loop fuel (writen_body fd n) (Z.of_nat k) s = (Ok n, s') ∧
    sent s'.(world) = sent s.(world) ++ drop k (take (Z.to_nat n) s.(mem)) ∧
    s'.(mem) = s.(mem).
Proof.
  revert k s. induction fuel as [|fuel IH]; intros k s Hf Hn; [lia|]. simpl loop.
  destruct (decide (Z.of_nat k < n)) as [Hlt|Hge].
  2: { assert (writen_body fd n (Z.of_nat k) s = (Ok (inr n), s)) as Hb.
       { unfold writen_body. replace (Z.of_nat k <? n) with false by lia.
         by replace (Z.of_nat k) with n by lia. }
       rewrite (run_bind _ _ _ _ _ Hb). exists s. split_and!; [done| |done].
       rewrite drop_ge; [by rewrite app_nil_r|]. rewrite length_take. lia. }
  destruct (writen_turn n k s) as
    [(s1 & Hb & Hs & Hc & Hm)|(j & s1 & Hb & Hj & Hjn & Hs & Hc & Hm)]; [lia|..];
    rewrite (run_bind _ _ _ _ _ Hb).
  - rewrite <- Hs, <- Hm. apply IH; rewrite ?Hm; lia.
  - destruct (IH (k + j)%nat s1) as (s' & Hl & Hsent & Hm'); rewrite ?Hm in *; [lia..|].
    exists s'. split_and!; [done| |done].
    by rewrite Hsent, Hs, <- app_assoc, <- drop_drop, take_drop.
Qed.

(** On a descriptor whose writes make progress and can only fail by
    interruption, [writen] returns [n] after the descriptor has accepted
    exactly the first [n] bytes of the buffer, in order, however the kernel
    divides them; the buffer is not modified. *)
Theorem writen_spec fuel n (s : io X W) :
  0 <= n <= Z.of_nat (length s.(mem)) →
  (Z.to_nat n + credit s.(world) < fuel)%nat →
  ∃ s', writen fuel fd n s = (Ok n, s') ∧
    sent s'.(world) = sent s.(world) ++ take (Z.to_nat n) s.(mem) ∧ s'.(mem) = s.(mem).
Proof.
  intros Hn Hf. destruct (writen_loop fuel n 0 s) as (s' & Hl & Hs & Hm); [lia..|].
  exists s'. by split_and!.
Qed.
End writen_facts.

Lemma readn_spec_witness :
  let s := Io 0 (replicate 4 "z"%char) tt (Script (chars "abcde") [] [Portion 0; Interrupt]) in
  ∃ s', readn 9 0 3 s = (Ok 3, s') ∧ input s'.(world) = chars "de" ∧ s'.(mem) = chars "abcz".
Proof.
  intros s. apply (readn_spec 0 input script_credit (script_read_reliable 0) 9 3 s).
  - vm_compute. split; discriminate.
  - apply Nat.ltb_lt. reflexivity.
Defined.

Lemma writen_spec_witness :
  let s := Io 0 (chars "abcd") tt (Script [] [] [Portion 0; Interrupt; Portion 1]) in
  ∃ s', writen 9 1 4 s = (Ok 4, s') ∧ output s'.(world) = chars "abcd" ∧ s'.(mem) = chars "abcd".
Proof.
  intros s. apply (writen_spec 1 output script_credit (script_write_reliable 1) 9 4 s).
  - vm_compute. split; discriminate.
  - apply Nat.ltb_lt. reflexivity.
Defined.
