(* ===== verification/Sendfile.v ===== *)
(** [sendfile] in terms of [read], [write] and [lseek], as [sockets/sendfile.c]
    implements it.

    The kernel is a file with its offset, what was sent so far, and for the reads
    and writes to come how each of them goes. *)
From S2P Require Import Prelude CLib ErrorFunctions Proc Args.
Local Open Scope Z_scope.

Abbreviation bytes := (list ascii).

Inductive fcall :=
| FRead (n : nat)
| FWrite (bs : bytes)
| FSeek (off whence : Z).

(** How a transfer goes: it fails, or moves at most so many bytes; a read moves one
    more, since only at the end of the file it moves none.  After the ones listed
    transfers are whole. *)
Definition limit : Type := Z + nat.
Definition cut (l : list limit) (n : nat) : Z + nat :=
  match l with [] => inr n | inl e :: _ => inl e | inr k :: _ => inr (Nat.min k n) end.

Record disk := Disk {
  content : bytes; pos : Z; sent : bytes;
  rlim : list limit; wlim : list limit; seekable : bool
}.

Definition SEEK_SET : Z := 0.
Definition SEEK_CUR : Z := 1.
Definition BUF_SIZE : Z := 8192.

(** The kernel's side. *)
Definition sys_read (n : nat) (w : disk) : (Z + bytes) * disk :=
  let next p := Disk w.(content) p w.(sent) (tail w.(rlim)) w.(wlim) w.(seekable) in
  match cut w.(rlim) (n - 1) with
  | inl e => (inl e, next w.(pos))
  | inr k =>
      let data := take (Nat.min n (S k)) (drop (Z.to_nat w.(pos)) w.(content)) in
      (inr data, next (w.(pos) + Z.of_nat (length data)))
  end.
Definition sys_write (bs : bytes) (w : disk) : (Z + nat) * disk :=
  match cut w.(wlim) (length bs) with
  | inl e => (inl e, Disk w.(content) w.(pos) w.(sent) w.(rlim) (tail w.(wlim)) w.(seekable))
  | inr k => (inr k, Disk w.(content) w.(pos) (w.(sent) ++ take k bs) w.(rlim) (tail w.(wlim)) w.(seekable))
  end.
Definition sys_lseek (off whence : Z) (w : disk) : (Z + Z) * disk :=
  let p := if whence =? SEEK_CUR then w.(pos) + off else off in
  if negb w.(seekable) then (inl ESPIPE, w)
  else if p <? 0 then (inl EINVAL, w)
  else (inr p, Disk w.(content) p w.(sent) w.(rlim) w.(wlim) w.(seekable)).

Section sendfile.
Context {L : Libc}.
Local Abbreviation st := (pst unit fcall disk).
Local Abbreviation P := (M st).

Definition read (n : nat) : P (Z + bytes) := call (FRead n) (sys_read n).
Definition write (bs : bytes) : P (Z + nat) := call (FWrite bs) (sys_write bs).
Definition lseek (off whence : Z) : P (Z + Z) := call (FSeek off whence) (sys_lseek off whence).

(** A turn of the loop with [count] and [totSent]; it leaves the loop with [Some]
    at the end, and with [None] where the function returns -1. *)
Definition send_body (x : Z * Z) : P (Z * Z + option Z) :=
  let '(count, totSent) := x in
  if 0 <? count then
    r ← read (Z.to_nat (Z.min BUF_SIZE count));
    match r with
    | inl _ => mret (inr None)
    | inr [] => mret (inr (Some totSent))
    | inr buf =>
        k ← write buf;
        match k with
        | inl _ => mret (inr None)
        | inr O => p_custmErr "sendfile: write() transferred 0 bytes"
        | inr numSent => mret (inl (count - Z.of_nat numSent, totSent + Z.of_nat numSent))
        end
    end
  else mret (inr (Some totSent)).

(** The result, and [*offset] for an [offset] that is not null. *)
Definition sendfile (fuel : nat) (offset : option Z) (count : Z) : P (Z * option Z) :=
  let transfer (finish : Z → P (Z * option Z)) : P (Z * option Z) :=
    t ← loop fuel send_body (count, 0);
    match t with
    | None => mret (-1, offset)
    | Some totSent => finish totSent
    end in
  match offset with
  | None => transfer (λ totSent, mret (totSent, None))
  | Some off =>
      r ← lseek 0 SEEK_CUR;
      match r with
      | inl _ => mret (-1, offset)
      | inr orig =>
          r ← lseek off SEEK_SET;
          match r with
          | inl _ => mret (-1, offset)
          | inr _ =>
              transfer (λ totSent,
                r ← lseek 0 SEEK_CUR;
                match r with
                | inl _ => mret (-1, Some (-1))
                | inr now =>
                    r ← lseek orig SEEK_SET;
                    match r with
                    | inl _ => mret (-1, Some now)
                    | inr _ => mret (totSent, Some now)
                    end
                end)
          end
      end
  end.

(** ** What is sent *)

(** Where writes are whole a turn sends what it reads, and the rest is as if it had
    been asked for from the start. *)
Definition smooth (w : disk) : Prop :=
  w.(wlim) = [] ∧ Forall (λ l, ∃ k, l = inr k) w.(rlim) ∧ 0 <= w.(pos).

(** What is left of the file at the offset. *)
Definition left_of (w : disk) : bytes := drop (Z.to_nat w.(pos)) w.(content).

(** The disk after a transfer. *)
Definition moved (w w' : disk) (m : nat) : Prop :=
  w'.(content) = w.(content) ∧ w'.(seekable) = w.(seekable) ∧ w'.(pos) = w.(pos) + Z.of_nat m.

Lemma sys_read_smooth n w :
  smooth w → (0 < n)%nat → ∃ m w', sys_read n w = (inr (take m (left_of w)), w') ∧ (m <= n)%nat ∧
    (m <= length (left_of w))%nat ∧ (m = O → left_of w = []) ∧ smooth w' ∧ moved w w' m ∧ w'.(sent) = w.(sent).
Proof.
  intros (Hw & Hr & Hp) Hn. unfold sys_read.
  assert (∃ k, cut w.(rlim) (n - 1) = inr k) as [k ->] by (destruct Hr as [|? ? [k ->]]; by eexists).
  assert (Ht : Forall (λ l : limit, ∃ k, l = inr k) (tail w.(rlim))) by by destruct Hr.
  fold (left_of w). set (m := Nat.min (Nat.min n (S k)) (length (left_of w))).
  assert (take (Nat.min n (S k)) (left_of w) = take m (left_of w)) as ->.
  { unfold m. rewrite <- (firstn_all (left_of w)) at 1. apply take_take. }
  exists m. eexists. split; [reflexivity|]. rewrite length_take_le by lia.
  unfold smooth, moved. split_and!; simpl; try done; try lia.
  intros H. destruct (left_of w); [done|]. simpl in m. lia.
Qed.

Lemma sys_write_smooth bs w :
  smooth w → ∃ w', sys_write bs w = (inr (length bs), w') ∧ smooth w' ∧ moved w w' 0 ∧ w'.(sent) = w.(sent) ++ bs.
Proof.
  intros (Hw & Hr & Hp). unfold sys_write. rewrite Hw. simpl. eexists. split; [reflexivity|].
  unfold smooth, moved. simpl. rewrite firstn_all. split_and!; done || lia.
Qed.

Lemma left_of_moved w w' m : 0 <= w.(pos) → moved w w' m → left_of w' = drop m (left_of w).
Proof. intros Hp (Hc & _ & Hm). unfold left_of. rewrite Hc, Hm, drop_drop. f_equal. lia. Qed.

Lemma send_body_run count tot (s : st) :
  smooth s.(world) → 0 < count →
  ∃ m s', smooth s'.(world) ∧ moved s.(world) s'.(world) m ∧ Z.of_nat m <= count ∧
    (m <= length (left_of s.(world)))%nat ∧ s'.(world).(sent) = s.(world).(sent) ++ take m (left_of s.(world)) ∧
    send_body (count, tot) s =
      (if (m =? 0)%nat then Ok (inr (Some tot)) else Ok (inl (count - Z.of_nat m, tot + Z.of_nat m)), s') ∧
    (m = O → left_of s.(world) = []).
Proof.
  intros Hs Hc. unfold send_body. rewrite (proj2 (Z.ltb_lt _ _)) by done.
  destruct (sys_read_smooth (Z.to_nat (Z.min BUF_SIZE count)) s.(world) Hs) as (m & w1 & E1 & Hm & Hl & H0 & S1 & M1 & T1).
  { unfold BUF_SIZE. lia. }
  unfold read, mbind at 1, M_bind at 1, call. rewrite E1. destruct m as [|m].
  { exists O. eexists. rewrite take_0. split_and!; [..|reflexivity|done]; simpl; try done; [lia..|by rewrite app_nil_r]. }
  assert (Hlen : length (take (S m) (left_of (world s))) = S m) by by apply length_take_le.
  destruct (take (S m) (left_of (world s))) as [|b buf] eqn:Et; [done|].
  destruct (sys_write_smooth (b :: buf) w1 S1) as (w2 & E2 & S2 & M2 & T2).
  cbn [world]. unfold write, mbind, M_bind, call. cbn [world]. rewrite E2, Hlen.
  exists (S m). eexists. split_and!; [..|reflexivity|done]; simpl; try done.
  - destruct M1 as (? & ? & ?), M2 as (? & ? & ?). unfold moved. split_and!; [congruence..|lia].
  - lia.
  - by rewrite T2, T1, Et.
Qed.

Lemma take_split {A} (l : list A) m n : (m <= n)%nat → take n l = take m l ++ take (n - m) (drop m l).
Proof.
  intros Hm. rewrite take_drop_commute. replace (m + (n - m))%nat with n by lia.
  rewrite <- (take_drop m (take n l)) at 1. by rewrite take_take, Nat.min_l.
Qed.

(** The loop sends as much as was asked for, or all there is. *)
Lemma sendfile_loop fuel count tot (s : st) :
  smooth s.(world) → 0 <= count → (length (left_of s.(world)) < fuel)%nat →
  let data := take (Z.to_nat count) (left_of s.(world)) in
  ∃ s', loop fuel send_body (count, tot) s = (Ok (Some (tot + Z.of_nat (length data))), s') ∧
    smooth s'.(world) ∧ moved s.(world) s'.(world) (length data) ∧ s'.(world).(sent) = s.(world).(sent) ++ data.
Proof.
  induction fuel as [|fuel IH] in count, tot, s |- *; intros Hs Hc Hf data; [lia|]. rewrite loop_S.
  destruct (decide (count = 0)) as [->|Hne].
  { exists s. subst data. simpl. rewrite take_0, app_nil_r, Z.add_0_r. unfold moved. rewrite Z.add_0_r. done. }
  destruct (send_body_run count tot s Hs) as (m & s1 & S1 & M1 & Hm & Hl & T1 & E & H0); [lia|].
  unfold mbind, M_bind. rewrite E. destruct (m =? 0)%nat eqn:Em.
  - apply Nat.eqb_eq in Em. subst m. exists s1. subst data. rewrite H0 in * by done. rewrite take_nil. simpl.
    rewrite Z.add_0_r. simpl in T1. done.
  - apply Nat.eqb_neq in Em. pose proof (left_of_moved _ _ _ (proj2 (proj2 Hs)) M1) as Hlo.
    destruct (IH (count - Z.of_nat m) (tot + Z.of_nat m) s1) as (s2 & E2 & S2 & M2 & T2); [done|lia| |].
    { rewrite Hlo, length_drop. lia. }
    assert (Hd : data = take m (left_of (world s)) ++ take (Z.to_nat (count - Z.of_nat m)) (left_of (world s1))).
    { subst data. rewrite Hlo. rewrite (take_split _ m (Z.to_nat count)) by lia. do 2 f_equal. lia. }
    assert (Hlm : length (take m (left_of (world s))) = m) by by apply length_take_le.
    exists s2. split_and!; [|done| |].
    + rewrite E2, Hd, length_app, Hlm. do 3 f_equal. lia.
    + rewrite Hd, length_app, Hlm. destruct M1 as (? & ? & ?), M2 as (? & ? & ?).
      split_and!; [congruence..|lia].
    + by rewrite T2, T1, Hd, <- app_assoc.
Qed.

Definition seek_to (p : Z) (w : disk) : disk := Disk w.(content) p w.(sent) w.(rlim) w.(wlim) w.(seekable).
Lemma lseek_run off whence (s : st) :
  let p := if whence =? SEEK_CUR then s.(world).(pos) + off else off in
  s.(world).(seekable) = true → 0 <= p →
  ∃ s', lseek off whence s = (Ok (inr p), s') ∧ s'.(world) = seek_to p s.(world).
Proof.
  intros p Hk Hp. unfold lseek, call, sys_lseek. fold p. rewrite Hk, (proj2 (Z.ltb_ge _ _)) by done.
  eexists. split; [reflexivity|]. unfold seek_to. simpl. by rewrite Hk.
Qed.

(** Where writes are whole, and whatever the reads are, [sendfile] sends what was
    asked for, or as much of it as the file has from the offset on; it returns the
    number of bytes; and an offset that is given is advanced by it while that of
    the file is as before. *)
Theorem sendfile_spec fuel offset count (s : st) :
  let w := s.(world) in
  let from := default w.(pos) offset in
  let data := take (Z.to_nat count) (drop (Z.to_nat from) w.(content)) in
  smooth w → (is_Some offset → w.(seekable) = true) → 0 <= from → 0 <= count → (length w.(content) < fuel)%nat →
  ∃ s', sendfile fuel offset count s =
      (Ok (Z.of_nat (length data), (λ o, o + Z.of_nat (length data)) <$> offset), s') ∧
    s'.(world).(sent) = w.(sent) ++ data ∧
    s'.(world).(pos) = match offset with Some _ => w.(pos) | None => w.(pos) + Z.of_nat (length data) end.
Proof.
  intros w from data Hs Hk Hfrom Hcount Hf. unfold sendfile. destruct offset as [off|]; simpl in from.
  - specialize (Hk ltac:(by eexists)). pose proof Hs as (Hw & Hr & Hp).
    destruct (lseek_run 0 SEEK_CUR s) as (s1 & E1 & W1); [done|simpl; fold w; lia|].
    destruct (lseek_run off SEEK_SET s1) as (s2 & E2 & W2); [by rewrite W1|done|].
    simpl in E1, E2, W1, W2. rewrite Z.add_0_r in E1, W1. fold w in E1, W1. rewrite W1 in W2. cbn in W2.
    rewrite (run_bind _ _ _ _ _ E1). rewrite (run_bind _ _ _ _ _ E2).
    destruct (sendfile_loop fuel count 0 s2) as (s3 & E3 & _ & (C3 & K3 & P3) & T3).
    { by rewrite W2. } { done. } { rewrite W2. unfold left_of. rewrite length_drop. simpl. lia. }
    rewrite W2 in E3, T3, K3, P3. change (take _ (left_of _)) with data in *. simpl in K3, P3, T3.
    rewrite (run_bind _ _ _ _ _ E3). cbn [Z.add].
    destruct (lseek_run 0 SEEK_CUR s3) as (s4 & E4 & W4); [by rewrite K3|simpl; lia|].
    destruct (lseek_run w.(pos) SEEK_SET s4) as (s5 & E5 & W5); [by rewrite W4; simpl; rewrite K3|done|].
    simpl in E4, E5. rewrite Z.add_0_r, P3 in E4. rewrite (run_bind _ _ _ _ _ E4), (run_bind _ _ _ _ _ E5).
    eexists. split; [reflexivity|]. rewrite W5, W4. simpl. by rewrite T3.
  - destruct (sendfile_loop fuel count 0 s) as (s3 & E3 & S3 & (C3 & K3 & P3) & T3); [done..| |].
    { unfold left_of. rewrite length_drop. fold w. lia. }
    unfold mbind, M_bind. rewrite E3. eexists. split; [reflexivity|]. by rewrite T3, P3.
Qed.
End sendfile.

(** ** Examples *)

#[local] Instance sendfile_libc : Libc := {| strerror _ := "error"; io_errno e := e |}.
Definition disk_state (w : disk) : pst unit fcall disk := Pst (Proc 0 [] "" "" []) tt [] w.

Lemma sendfile_spec_witness :
  let w := Disk (chars "hello, world") 3 [] [inr 0%nat; inr 1%nat] [] true in
  ∃ s', sendfile 20 (Some 7) 100 (disk_state w) = (Ok (5, Some 12), s') ∧
    s'.(world).(sent) = chars "world" ∧ s'.(world).(pos) = 3.
Proof.
  intros w. destruct (sendfile_spec 20 (Some 7) 100 (disk_state w)) as (s' & E & T & P).
  - split_and!; [done| |done]. repeat constructor; by eexists.
  - done.
  - done.
  - done.
  - apply Nat.ltb_lt. reflexivity.
  - exists s'. split; [exact E|]. split; [exact T|exact P].
Defined.

(** A write that is cut short loses the rest of what was read: the loop goes on with
    the next part of the file. *)
Example partial_write_loses :
  let w := Disk (chars "hello, world") 0 [] [inr 5%nat] [inr 2%nat] true in
  let r := sendfile 20 (Some 0) 8 (disk_state w) in
  r.1 = Ok (8, Some 12) ∧ r.2.(world).(sent) = chars "he world".
Proof. vm_compute. done. Qed.

(** Where the transfer fails the offset of the file stays where it was left. *)
Example failure_moves_offset :
  let w := Disk (chars "hello, world") 2 [] [] [inl EPIPE] true in
  let r := sendfile 20 (Some 5) 4 (disk_state w) in
  r.1 = Ok (-1, Some 5) ∧ r.2.(world).(pos) = 9.
Proof. vm_compute. done. Qed.
