(* ===== verification/Sockets.v ===== *)
(** The socket libraries [lib/unix_sockets.c], [lib/yunix_sockets.c] and
    [lib/inet_sockets.c].

    The state's variable is the list of descriptors these routines have opened
    and not yet closed; a socket address for the UNIX domain is the array
    [sun_path], byte by byte. *)
From S2P Require Import Prelude CLib ErrorFunctions Proc.
Local Open Scope Z_scope.

(** ** Data and system calls *)

Definition AF_UNIX : Z := 1.
Definition SOCK_STREAM : Z := 1.
Definition SOCK_DGRAM : Z := 2.
Definition SUN_PATH_SIZE : nat := 108.
Definition sun_path_offset : Z := 2.

Record sockaddr_un := SockaddrUn { sun_family : Z; sun_path : list ascii }.

(** [struct addrinfo]; the address itself is opaque. *)
Record addrinfo := Addrinfo {
  ai_family : Z; ai_socktype : Z; ai_protocol : Z; ai_addr : string; ai_addrlen : Z
}.

Record hints := Hints { h_family : Z; h_socktype : Z; h_flags : Z }.
Definition AF_UNSPEC : Z := 0.
Definition AI_PASSIVE : Z := 1.

Class SockSys (W : Type) := {
  sys_socket : Z → Z → Z → W → (Z + Z) * W;
  sys_connect_un : Z → sockaddr_un → Z → W → (Z + unit) * W;
  sys_bind_un : Z → sockaddr_un → Z → W → (Z + unit) * W;
  sys_connect_in : Z → string → Z → W → (Z + unit) * W;
  sys_bind_in : Z → string → Z → W → (Z + unit) * W;
  sys_listen : Z → Z → W → (Z + unit) * W;
  sys_reuseaddr : Z → W → (Z + unit) * W;
  sys_close_sock : Z → W → (Z + unit) * W;
  sys_remove : string → W → (Z + unit) * W;
  sys_getaddrinfo : option string → string → hints → W → (Z + list addrinfo) * W;
  sys_getnameinfo : string → Z → W → (Z + (string * string)) * W
}.

Inductive kcall :=
| KSocket (family type protocol : Z)
| KConnectUn (fd : Z) (a : sockaddr_un) (len : Z)
| KBindUn (fd : Z) (a : sockaddr_un) (len : Z)
| KConnectIn (fd : Z) (a : string) (len : Z)
| KBindIn (fd : Z) (a : string) (len : Z)
| KListen (fd backlog : Z)
| KReuseaddr (fd : Z)
| KClose (fd : Z)
| KRemove (path : string)
| KGetaddrinfo (host : option string) (service : string)
| KGetnameinfo
| KSigpipe
| KMalloc (size : Z)
| KAccept (fd : Z) (r : option Z)                (* with the descriptor it gave *)
| KReadLine (fd n : Z) (t : string)              (* with its result and what was read *)
| KWrite (fd : Z) (bs : list ascii)
| KRead (fd : Z)
| KShutdown (fd : Z)
| KSyslog (t : string)
| KDaemon
| KSigaction
| KFork
| KRecvfrom (fd : Z)
| KSendto (fd : Z) (bs : list ascii).

(** The descriptor table without one use of [fd]. *)
Fixpoint remove_fd (fd : Z) (l : list Z) : list Z :=
  match l with
  | [] => []
  | x :: l => if x =? fd then l else x :: remove_fd fd l
  end.

(** [strncpy(buf + off, src, n)]: exactly [n] bytes are written, the string
    followed by null bytes; writing past the array is undefined. *)
Definition strncpy_at (off n : nat) (src : string) (buf : list ascii) : option (list ascii) :=
  if (off + n <=? length buf)%nat then
    Some (take off buf ++ take n (chars src ++ replicate n Ascii.zero) ++ drop (off + n) buf)
  else None.

Definition zero_un : sockaddr_un := SockaddrUn 0 (replicate SUN_PATH_SIZE Ascii.zero).

(** [strlen] of the path in the array, for [SUN_LEN]. *)
Fixpoint path_len (l : list ascii) : Z :=
  match l with
  | [] => 0
  | c :: l => if decide (c = Ascii.zero) then 0 else 1 + path_len l
  end.

Definition SUN_LEN (a : sockaddr_un) : Z := sun_path_offset + path_len (sun_path a).

Section sockets.
Context {L : Libc} {W : Type} `{!SockSys W}.
Local Abbreviation P := (M (pst (list Z) kcall W)).

Definition socket (family type protocol : Z) : P (Z + Z) :=
  r ← call (KSocket family type protocol) (sys_socket family type protocol);
  match r with
  | inr fd => put_vars (cons fd);; mret (inr fd)
  | inl e => mret (inl e)
  end.

Definition close (fd : Z) : P unit :=
  call (KClose fd) (sys_close_sock fd);; put_vars (remove_fd fd).

(** [errno = e; return -1;] *)
Definition fail_with (e : Z) : P Z := put_errno e;; mret (-1).

(** [savedErrno = errno; close(sd); errno = savedErrno; return -1;] *)
Definition close_and_fail (sd : Z) : P Z :=
  savedErrno ← get_errno;
  close sd;;
  put_errno savedErrno;;
  mret (-1).

(** *** [unix_sockets.c] *)

(** [addr]: whether the caller passed a non-null pointer.  The structure is
    returned with the status. *)
Definition unixBuildAddress (path : option string) (addr : bool) : P (Z * sockaddr_un) :=
  match addr, path with
  | true, Some path =>
      if (String.length path <? SUN_PATH_SIZE)%nat then
        match strncpy_at 0 (SUN_PATH_SIZE - 1) path (sun_path zero_un) with
        | Some p => mret (0, SockaddrUn AF_UNIX p)
        | None => stop HUndef
        end
      else put_errno ENAMETOOLONG;; mret (-1, SockaddrUn AF_UNIX (sun_path zero_un))
  | _, _ => put_errno EINVAL;; mret (-1, zero_un)
  end.

Definition unixConnect (path : option string) (type : Z) : P Z :=
  r ← unixBuildAddress path true;
  let '(s, addr) := r in
  if s =? -1 then mret (-1) else
  o ← socket AF_UNIX type 0;
  match o with
  | inl _ => mret (-1)
  | inr sd =>
      c ← call (KConnectUn sd addr (SUN_LEN addr)) (sys_connect_un sd addr (SUN_LEN addr));
      match c with
      | inl _ => close_and_fail sd
      | inr _ => mret sd
      end
  end.

Definition unixBind (path : option string) (type : Z) : P Z :=
  r ← unixBuildAddress path true;
  let '(s, addr) := r in
  if s =? -1 then mret (-1) else
  o ← socket AF_UNIX type 0;
  match o with
  | inl _ => mret (-1)
  | inr sd =>
      c ← call (KBindUn sd addr (SUN_LEN addr)) (sys_bind_un sd addr (SUN_LEN addr));
      match c with
      | inl _ => close_and_fail sd
      | inr _ => mret sd
      end
  end.

(** *** [yunix_sockets.c] *)

Definition yunixaddress (path : option string) (addr : bool) : P (Z * sockaddr_un) :=
  match addr, path with
  | true, Some path =>
      if (String.length path <? SUN_PATH_SIZE)%nat then
        match strncpy_at 0 SUN_PATH_SIZE path (sun_path zero_un) with
        | Some p => mret (0, SockaddrUn AF_UNIX p)
        | None => stop HUndef
        end
      else put_errno ENAMETOOLONG;; mret (-1, SockaddrUn AF_UNIX (sun_path zero_un))
  | _, _ => put_errno EINVAL;; mret (-1, zero_un)
  end.

Definition yunixconnect (path : option string) (addr : bool) (type : Z) : P Z :=
  r ← yunixaddress path addr;
  let '(s, a) := r in
  if s =? -1 then mret (-1) else
  o ← socket AF_UNIX type 0;
  match o with
  | inl _ => mret (-1)
  | inr sfd =>
      c ← call (KConnectUn sfd a (SUN_LEN a)) (sys_connect_un sfd a (SUN_LEN a));
      match c with
      | inl _ => close_and_fail sfd
      | inr _ => mret sfd
      end
  end.

Definition yunixbind (path : option string) (addr : bool) (type : Z) : P Z :=
  match path with
  | None => stop HUndef                          (* [strlen(NULL)] *)
  | Some p =>
      if (SUN_PATH_SIZE <? String.length p + 1)%nat then fail_with ENAMETOOLONG else
      d ← call (KRemove p) (sys_remove p);
      e ← get_errno;
      if match d with inl _ => negb (e =? ENOENT) | inr _ => false end then mret (-1) else
      r ← yunixaddress path addr;
      let '(s, a) := r in
      if s =? -1 then mret (-1) else
      o ← socket AF_UNIX type 0;
      match o with
      | inl _ => mret (-1)
      | inr sfd =>
          c ← call (KBindUn sfd a (SUN_LEN a)) (sys_bind_un sfd a (SUN_LEN a));
          match c with
          | inl _ => close_and_fail sfd
          | inr _ => mret sfd
          end
      end
  end.

(** The abstract namespace: the name follows an initial null byte. *)
Definition yunixAaddress (path : option string) (addr : bool) : P (Z * sockaddr_un) :=
  match addr, path with
  | true, Some path =>
      if (1 + String.length path <? SUN_PATH_SIZE)%nat then
        match strncpy_at 1 SUN_PATH_SIZE path (sun_path zero_un) with
        | Some p => mret (0, SockaddrUn AF_UNIX p)
        | None => stop HUndef
        end
      else put_errno ENAMETOOLONG;; mret (-1, SockaddrUn AF_UNIX (sun_path zero_un))
  | _, _ => put_errno EINVAL;; mret (-1, zero_un)
  end.

(** [offsetof(struct sockaddr_un, sun_path) + 1 + strlen(path)] *)
Definition abstract_len (path : option string) : Z :=
  sun_path_offset + 1 + Z.of_nat (String.length (default "" path)).

Definition yunixAconnect (path : option string) (addr : bool) (type : Z) : P Z :=
  r ← yunixAaddress path addr;
  let '(s, a) := r in
  if s =? -1 then mret (-1) else
  o ← socket AF_UNIX type 0;
  match o with
  | inl _ => mret (-1)
  | inr sfd =>
      c ← call (KConnectUn sfd a (abstract_len path)) (sys_connect_un sfd a (abstract_len path));
      match c with
      | inl _ => close_and_fail sfd
      | inr _ => mret sfd
      end
  end.

Definition yunixAbind (path : option string) (addr : bool) (type : Z) : P Z :=
  r ← yunixAaddress path addr;
  let '(s, a) := r in
  if s =? -1 then mret (-1) else
  o ← socket AF_UNIX type 0;
  match o with
  | inl _ => mret (-1)
  | inr sfd =>
      c ← call (KBindUn sfd a (abstract_len path)) (sys_bind_un sfd a (abstract_len path));
      match c with
      | inl _ => close_and_fail sfd
      | inr _ => mret sfd
      end
  end.

(** *** [inet_sockets.c] *)

(** [getaddrinfo] reports through its result, not through [errno]. *)
Definition getaddrinfo (host : option string) (service : string) (h : hints)
    : P (Z + list addrinfo) :=
  r ← call (KGetaddrinfo host service)
        (λ w, let '(r, w) := sys_getaddrinfo host service h w in (inr r, w));
  match r with inr r => mret r | inl e => mret (inl e) end.

(** The loop of [inetConnect]: the descriptor of the first address that can
    be connected to. *)
Fixpoint connect_first (l : list addrinfo) : P (option Z) :=
  match l with
  | [] => mret None
  | rp :: l =>
      o ← socket (ai_family rp) (ai_socktype rp) (ai_protocol rp);
      match o with
      | inl _ => connect_first l
      | inr sfd =>
          c ← call (KConnectIn sfd (ai_addr rp) (ai_addrlen rp))
                (sys_connect_in sfd (ai_addr rp) (ai_addrlen rp));
          match c with
          | inr _ => mret (Some sfd)
          | inl _ => close sfd;; connect_first l
          end
      end
  end.

Definition inetConnect (host : option string) (service : string) (type : Z) : P Z :=
  r ← getaddrinfo host service (Hints AF_UNSPEC type 0);
  match r with
  | inl _ => fail_with ENOSYS
  | inr result => rp ← connect_first result; mret (default (-1) rp)
  end.

(** The loop of [inetPassiveSocket]: [inl] for the early return when the
    socket option cannot be set. *)
Fixpoint bind_first (doListen : bool) (l : list addrinfo) : P (unit + option (Z * addrinfo)) :=
  match l with
  | [] => mret (inr None)
  | rp :: l =>
      o ← socket (ai_family rp) (ai_socktype rp) (ai_protocol rp);
      match o with
      | inl _ => bind_first doListen l
      | inr sfd =>
          opt ← (if doListen then call (KReuseaddr sfd) (sys_reuseaddr sfd) else mret (inr tt));
          match opt with
          | inl _ => close sfd;; mret (inl tt)
          | inr _ =>
              c ← call (KBindIn sfd (ai_addr rp) (ai_addrlen rp))
                    (sys_bind_in sfd (ai_addr rp) (ai_addrlen rp));
              match c with
              | inr _ => mret (inr (Some (sfd, rp)))
              | inl _ => close sfd;; bind_first doListen l
              end
          end
      end
  end.

(** The second component is what is stored through [addrlen], if anything. *)
Definition inetPassiveSocket (service : string) (type : Z) (addrlen doListen : bool)
    (backlog : Z) : P (Z * option Z) :=
  r ← getaddrinfo None service (Hints AF_UNSPEC type AI_PASSIVE);
  match r with
  | inl _ => mret (-1, None)
  | inr result =>
      b ← bind_first doListen result;
      match b with
      | inl _ => mret (-1, None)
      | inr None => mret (-1, None)
      | inr (Some (sfd, rp)) =>
          l ← (if doListen then call (KListen sfd backlog) (sys_listen sfd backlog)
               else mret (inr tt));
          match l with
          | inl _ => mret (-1, None)
          | inr _ => mret (sfd, if addrlen then Some (ai_addrlen rp) else None)
          end
      end
  end.

Definition inetListen (service : string) (backlog : Z) (addrlen : bool) : P (Z * option Z) :=
  inetPassiveSocket service SOCK_STREAM addrlen true backlog.

Definition inetBind (service : string) (type : Z) (addrlen : bool) : P (Z * option Z) :=
  inetPassiveSocket service type addrlen false 0.

Definition inetAddressStr (addr : string) (addrlen : Z) (addrStrLen : nat) : P string :=
  r ← call KGetnameinfo (λ w, let '(r, w) := sys_getnameinfo addr addrlen w in (inr r, w));
  match r with
  | inr (inr (host, service)) =>
      mret (snprintf addrStrLen ("(" +:+ host +:+ ", " +:+ service +:+ ")"))
  | _ => mret (snprintf addrStrLen "(?UNKNOWN?)")
  end.
End sockets.

Section facts.
Context {L : Libc} {W : Type} `{!SockSys W}.
Local Abbreviation st := (pst (list Z) kcall W).

(** ** Descriptors *)

Lemma sys_ok {A} c (f : W → (Z + A) * W) (s : st) a w :
  f (world s) = (inr a, w) → call c f s = (Ok (inr a), Pst (pr s) (vars s) (trace s ++ [c]) w).
Proof. intros E. unfold call. by rewrite E. Qed.

Lemma sys_fail {A} c (f : W → (Z + A) * W) (s : st) e w :
  f (world s) = (inl e, w) →
  call c f s = (Ok (inl e), Pst (set_errno e (pr s)) (vars s) (trace s ++ [c]) w).
Proof. intros E. unfold call. by rewrite E. Qed.

Lemma remove_fd_head fd l : remove_fd fd (fd :: l) = l.
Proof. simpl. by rewrite Z.eqb_refl. Qed.

Lemma sock_close_run fd (s : st) :
  ∃ p, close fd s =
    (Ok tt, Pst p (remove_fd fd (vars s)) (trace s ++ [KClose fd]) (sys_close_sock fd (world s)).2).
Proof.
  unfold close, mbind, M_bind, call.
  destruct (sys_close_sock fd (world s)) as [[e|a] w]; by eexists.
Qed.

(** A socket for a resolved address. *)
Definition ksock (rp : addrinfo) : kcall := KSocket (ai_family rp) (ai_socktype rp) (ai_protocol rp).
Definition sys_sock (rp : addrinfo) : W → (Z + Z) * W :=
  sys_socket (ai_family rp) (ai_socktype rp) (ai_protocol rp).

Lemma socket_ok rp (s : st) fd w :
  sys_sock rp (world s) = (inr fd, w) →
  socket (ai_family rp) (ai_socktype rp) (ai_protocol rp) s =
    (Ok (inr fd), Pst (pr s) (fd :: vars s) (trace s ++ [ksock rp]) w).
Proof. intros E. unfold socket. by erewrite run_bind by (apply sys_ok; exact E). Qed.

Lemma socket_fail rp (s : st) e w :
  sys_sock rp (world s) = (inl e, w) →
  socket (ai_family rp) (ai_socktype rp) (ai_protocol rp) s =
    (Ok (inl e), Pst (set_errno e (pr s)) (vars s) (trace s ++ [ksock rp]) w).
Proof. intros E. unfold socket. by erewrite run_bind by (apply sys_fail; exact E). Qed.

(** Addresses given up in turn: for each no socket could be made, or the one that was
    made failed, after the calls [use], and was closed.  The relation goes from the
    world before to the world after, over the calls made. *)
Inductive tried (use : Z → addrinfo → list kcall) (fails : Z → addrinfo → W → W → Prop)
    : list addrinfo → W → list kcall → W → Prop :=
| Tried_none w : tried use fails [] w [] w
| Tried_socket rp l e w w1 calls w' :
    sys_sock rp w = (inl e, w1) → tried use fails l w1 calls w' →
    tried use fails (rp :: l) w (ksock rp :: calls) w'
| Tried_use rp l fd w w1 w2 calls w' :
    sys_sock rp w = (inr fd, w1) → fails fd rp w1 w2 →
    tried use fails l (sys_close_sock fd w2).2 calls w' →
    tried use fails (rp :: l) w ((ksock rp :: use fd rp ++ [KClose fd]) ++ calls) w'.

(** One address of the list is reached: those before it were given up. *)
Definition reached use fails (l : list addrinfo) (w : W) (calls : list kcall) (rp : addrinfo)
    (w' : W) : Prop :=
  ∃ l1 l2, l = l1 ++ rp :: l2 ∧ tried use fails l1 w calls w'.

Lemma reached_head use fails rp l w : reached use fails (rp :: l) w [] rp w.
Proof. exists [], l. split; [done|constructor]. Qed.

Lemma reached_socket use fails rp l e w w1 calls x w' :
  sys_sock rp w = (inl e, w1) → reached use fails l w1 calls x w' →
  reached use fails (rp :: l) w (ksock rp :: calls) x w'.
Proof.
  intros Hs (l1 & l2 & -> & Ht). exists (rp :: l1), l2. split; [done|]. by eapply Tried_socket.
Qed.

Lemma reached_use use fails rp l fd w w1 w2 calls x w' :
  sys_sock rp w = (inr fd, w1) → fails fd rp w1 w2 →
  reached use fails l (sys_close_sock fd w2).2 calls x w' →
  reached use fails (rp :: l) w ((ksock rp :: use fd rp ++ [KClose fd]) ++ calls) x w'.
Proof.
  intros Hs Hf (l1 & l2 & -> & Ht). exists (rp :: l1), l2. split; [done|]. by eapply Tried_use.
Qed.

(** *** Connecting *)

Definition sys_connect_to (fd : Z) (rp : addrinfo) : W → (Z + unit) * W :=
  sys_connect_in fd (ai_addr rp) (ai_addrlen rp).
Definition connect_calls (fd : Z) (rp : addrinfo) : list kcall :=
  [KConnectIn fd (ai_addr rp) (ai_addrlen rp)].
Definition connect_fails (fd : Z) (rp : addrinfo) (w w' : W) : Prop :=
  ∃ e, sys_connect_to fd rp w = (inl e, w').

(** What the loop of [inetConnect] leaves, from the world [w]. *)
Definition connects (l : list addrinfo) (w : W) (o : option Z) (fds : list Z)
    (calls : list kcall) (w' : W) : Prop :=
  match o with
  | None => fds = [] ∧ tried connect_calls connect_fails l w calls w'
  | Some fd => fds = [fd] ∧ ∃ rp pre w0 w1,
      reached connect_calls connect_fails l w pre rp w0 ∧
      sys_sock rp w0 = (inr fd, w1) ∧ sys_connect_to fd rp w1 = (inr tt, w') ∧
      calls = pre ++ ksock rp :: connect_calls fd rp
  end.

Lemma connects_socket rp l e w w1 o fds calls w' :
  sys_sock rp w = (inl e, w1) → connects l w1 o fds calls w' →
  connects (rp :: l) w o fds (ksock rp :: calls) w'.
Proof.
  intros Hs Hc. destruct o as [fd|].
  - destruct Hc as (-> & x & pre & w0 & w2 & Hr & H1 & H2 & ->). split; [done|].
    exists x, (ksock rp :: pre), w0, w2. split_and!; try done. by eapply reached_socket.
  - destruct Hc as [-> Ht]. split; [done|]. by eapply Tried_socket.
Qed.

Lemma connects_use rp l fd w w1 w2 o fds calls w' :
  sys_sock rp w = (inr fd, w1) → connect_fails fd rp w1 w2 →
  connects l (sys_close_sock fd w2).2 o fds calls w' →
  connects (rp :: l) w o fds ((ksock rp :: connect_calls fd rp ++ [KClose fd]) ++ calls) w'.
Proof.
  intros Hs Hf Hc. destruct o as [x|].
  - destruct Hc as (-> & y & pre & w0 & w3 & Hr & H1 & H2 & ->). split; [done|].
    eexists y, _, w0, w3. split_and!; [by eapply reached_use|done|done|by rewrite <- app_assoc].
  - destruct Hc as [-> Ht]. split; [done|]. by eapply Tried_use.
Qed.

Lemma connect_first_run l (s : st) :
  ∃ o p fds calls w, connect_first l s = (Ok o, Pst p (fds ++ vars s) (trace s ++ calls) w) ∧
    connects l (world s) o fds calls w.
Proof.
  revert s. induction l as [|rp l IH]; intros s; cbn [connect_first].
  { exists None, (pr s), [], [], (world s). rewrite app_nil_r. destruct s. repeat constructor. }
  destruct (sys_sock rp (world s)) as [[e|fd] w] eqn:Es.
  { rewrite (run_bind _ _ _ _ _ (socket_fail _ _ _ _ Es)). cbv beta iota.
    match goal with |- context [connect_first l ?x] =>
      destruct (IH x) as (o & p & fds & calls & w' & E & Hc) end.
    exists o, p, fds, (ksock rp :: calls), w'. rewrite E. simpl. rewrite <- app_assoc.
    split; [done|]. by eapply connects_socket. }
  rewrite (run_bind _ _ _ _ _ (socket_ok _ _ _ _ Es)). cbv beta iota.
  destruct (sys_connect_to fd rp w) as [[e|[]] w2] eqn:Ec.
  - erewrite run_bind by (apply sys_fail; exact Ec). cbv beta iota.
    match goal with |- context [(close fd ≫= _) ?x] => destruct (sock_close_run fd x) as [p3 E3] end.
    rewrite (run_bind _ _ _ _ _ E3). simpl. rewrite Z.eqb_refl.
    match goal with |- context [connect_first l ?x] =>
      destruct (IH x) as (o & p & fds & calls & w' & E & Hc) end.
    exists o, p, fds, ((ksock rp :: connect_calls fd rp ++ [KClose fd]) ++ calls), w'.
    rewrite E. simpl. rewrite <- !app_assoc. split; [done|].
    eapply connects_use; [exact Es|by exists e|exact Hc].
  - erewrite run_bind by (apply sys_ok; exact Ec). cbv beta iota.
    exists (Some fd), (pr s), [fd], (ksock rp :: connect_calls fd rp), w2. simpl. rewrite <- app_assoc.
    split; [done|]. split; [done|]. exists rp, [], (world s), w.
    split_and!; [apply reached_head|done..].
Qed.

(** *** Binding *)

Definition sys_bind_to (fd : Z) (rp : addrinfo) : W → (Z + unit) * W :=
  sys_bind_in fd (ai_addr rp) (ai_addrlen rp).
Definition bind_calls (doListen : bool) (fd : Z) (rp : addrinfo) : list kcall :=
  (if doListen then [KReuseaddr fd] else []) ++ [KBindIn fd (ai_addr rp) (ai_addrlen rp)].

(** The option is set where the socket is to listen. *)
Definition option_set (doListen : bool) (fd : Z) (w w' : W) : Prop :=
  if doListen then sys_reuseaddr fd w = (inr tt, w') else w' = w.
Definition bind_fails (doListen : bool) (fd : Z) (rp : addrinfo) (w w' : W) : Prop :=
  ∃ w1 e, option_set doListen fd w w1 ∧ sys_bind_to fd rp w1 = (inl e, w').

(** What the loop of [inetPassiveSocket] leaves, from the world [w]. *)
Definition binds (doListen : bool) (l : list addrinfo) (w : W) (o : unit + option (Z * addrinfo))
    (fds : list Z) (calls : list kcall) (w' : W) : Prop :=
  let tried := tried (bind_calls doListen) (bind_fails doListen) in
  let reached := reached (bind_calls doListen) (bind_fails doListen) in
  match o with
  | inr None => fds = [] ∧ tried l w calls w'
  | inr (Some (fd, rp)) => fds = [fd] ∧ ∃ pre w0 w1 w2,
      reached l w pre rp w0 ∧ sys_sock rp w0 = (inr fd, w1) ∧ option_set doListen fd w1 w2 ∧
      sys_bind_to fd rp w2 = (inr tt, w') ∧ calls = pre ++ ksock rp :: bind_calls doListen fd rp
  | inl _ => fds = [] ∧ doListen = true ∧ ∃ rp fd pre w0 w1 e w2,
      reached l w pre rp w0 ∧ sys_sock rp w0 = (inr fd, w1) ∧ sys_reuseaddr fd w1 = (inl e, w2) ∧
      w' = (sys_close_sock fd w2).2 ∧ calls = pre ++ [ksock rp; KReuseaddr fd; KClose fd]
  end.

Lemma binds_socket d rp l e w w1 o fds calls w' :
  sys_sock rp w = (inl e, w1) → binds d l w1 o fds calls w' →
  binds d (rp :: l) w o fds (ksock rp :: calls) w'.
Proof.
  intros Hs Hb. destruct o as [[]|[[fd x]|]].
  - destruct Hb as (-> & Hd & x & fd & pre & w0 & w2 & e' & w3 & Hr & H1 & H2 & H3 & ->).
    split; [done|]. split; [done|]. exists x, fd, (ksock rp :: pre), w0, w2, e', w3.
    split_and!; try done. by eapply reached_socket.
  - destruct Hb as (-> & pre & w0 & w2 & w3 & Hr & H1 & H2 & H3 & ->). split; [done|].
    exists (ksock rp :: pre), w0, w2, w3. split_and!; try done. by eapply reached_socket.
  - destruct Hb as [-> Ht]. split; [done|]. by eapply Tried_socket.
Qed.

Lemma binds_use d rp l fd w w1 w2 o fds calls w' :
  sys_sock rp w = (inr fd, w1) → bind_fails d fd rp w1 w2 →
  binds d l (sys_close_sock fd w2).2 o fds calls w' →
  binds d (rp :: l) w o fds ((ksock rp :: bind_calls d fd rp ++ [KClose fd]) ++ calls) w'.
Proof.
  intros Hs Hf Hb. destruct o as [[]|[[y x]|]].
  - destruct Hb as (-> & Hd & x & y & pre & w0 & w3 & e' & w4 & Hr & H1 & H2 & H3 & ->).
    split; [done|]. split; [done|]. eexists x, y, _, w0, w3, e', w4.
    split_and!; [by eapply reached_use|done..|by rewrite <- app_assoc].
  - destruct Hb as (-> & pre & w0 & w3 & w4 & Hr & H1 & H2 & H3 & ->). split; [done|].
    eexists _, w0, w3, w4. split_and!; [by eapply reached_use|done..|by rewrite <- app_assoc].
  - destruct Hb as [-> Ht]. split; [done|]. by eapply Tried_use.
Qed.

(** The option of a new socket, as the loop sets it. *)
Lemma set_option_run (doListen : bool) fd (s : st) :
  let calls := if doListen then [KReuseaddr fd] else [] in
  ∃ (r : Z + unit) p w, (if doListen then call (KReuseaddr fd) (sys_reuseaddr fd) else mret (inr tt)) s =
    (Ok r, Pst p (vars s) (trace s ++ calls) w) ∧
    match r with
    | inr _ => option_set doListen fd (world s) w
    | inl e => doListen = true ∧ sys_reuseaddr fd (world s) = (inl e, w)
    end.
Proof.
  intros calls. unfold calls. destruct doListen; simpl.
  - destruct (sys_reuseaddr fd (world s)) as [[e|[]] w] eqn:E.
    + exists (inl e), (set_errno e (pr s)), w. split; [by apply sys_fail|done].
    + exists (inr tt), (pr s), w. split; [by apply sys_ok|done].
  - exists (inr tt), (pr s), (world s). rewrite app_nil_r. by destruct s.
Qed.

Lemma bind_first_run d l (s : st) :
  ∃ o p fds calls w, bind_first d l s = (Ok o, Pst p (fds ++ vars s) (trace s ++ calls) w) ∧
    binds d l (world s) o fds calls w.
Proof.
  revert s. induction l as [|rp l IH]; intros s; cbn [bind_first].
  { exists (inr None), (pr s), [], [], (world s). rewrite app_nil_r. destruct s. repeat constructor. }
  destruct (sys_sock rp (world s)) as [[e|fd] w] eqn:Es.
  { rewrite (run_bind _ _ _ _ _ (socket_fail _ _ _ _ Es)). cbv beta iota.
    match goal with |- context [bind_first d l ?x] =>
      destruct (IH x) as (o & p & fds & calls & w' & E & Hc) end.
    exists o, p, fds, (ksock rp :: calls), w'. rewrite E. simpl. rewrite <- app_assoc.
    split; [done|]. by eapply binds_socket. }
  rewrite (run_bind _ _ _ _ _ (socket_ok _ _ _ _ Es)). cbv beta iota.
  match goal with |- context [(_ ≫= _) ?x] => destruct (set_option_run d fd x) as (r & p1 & w1 & E1 & Hr) end.
  rewrite (run_bind _ _ _ _ _ E1). cbv beta iota. simpl in Hr. destruct r as [e|[]].
  { destruct Hr as [-> Hr].
    match goal with |- context [(close fd ≫= _) ?x] => destruct (sock_close_run fd x) as [p3 E3] end.
    rewrite (run_bind _ _ _ _ _ E3). simpl. rewrite Z.eqb_refl, <- !app_assoc.
    exists (inl tt), p3, [], [ksock rp; KReuseaddr fd; KClose fd], (sys_close_sock fd w1).2.
    split; [done|]. split; [done|]. split; [done|]. exists rp, fd, [], (world s), w, e, w1.
    split_and!; [apply reached_head|done..]. }
  destruct (sys_bind_to fd rp w1) as [[e|[]] w2] eqn:Ec.
  - erewrite run_bind by (apply sys_fail; exact Ec). cbv beta iota.
    match goal with |- context [(close fd ≫= _) ?x] => destruct (sock_close_run fd x) as [p3 E3] end.
    rewrite (run_bind _ _ _ _ _ E3). simpl. rewrite Z.eqb_refl.
    match goal with |- context [bind_first d l ?x] =>
      destruct (IH x) as (o & p & fds & calls & w' & E & Hc) end.
    exists o, p, fds, ((ksock rp :: bind_calls d fd rp ++ [KClose fd]) ++ calls), w'.
    split; [rewrite E; unfold bind_calls; simpl; by rewrite <- !app_assoc|].
    eapply binds_use; [exact Es|by exists w1, e|exact Hc].
  - erewrite run_bind by (apply sys_ok; exact Ec). cbv beta iota.
    exists (inr (Some (fd, rp))), p1, [fd], (ksock rp :: bind_calls d fd rp), w2.
    split; [unfold bind_calls; simpl; by rewrite <- !app_assoc|].
    split; [done|]. exists [], (world s), w, w1.
    split_and!; [apply reached_head|done..].
Qed.

Lemma getaddrinfo_run host service h (s : st) :
  ∃ r w, sys_getaddrinfo host service h (world s) = (r, w) ∧
    getaddrinfo host service h s =
      (Ok r, Pst (pr s) (vars s) (trace s ++ [KGetaddrinfo host service]) w).
Proof.
  unfold getaddrinfo, mbind, M_bind, call.
  destruct (sys_getaddrinfo host service h (world s)) as [r w]. by do 2 eexists.
Qed.

(** *** The two functions *)

(** Outcomes of [inetConnect]: no address was resolved, which sets [ENOSYS]; none of
    the addresses could be connected to; or the descriptor is connected to the
    first one that could. *)
Definition connect_outcome (host : option string) (service : string) (type : Z)
    (s : st) (r : Z) (s' : st) : Prop :=
  ∃ res w calls, sys_getaddrinfo host service (Hints AF_UNSPEC type 0) (world s) = (res, w) ∧
    trace s' = trace s ++ KGetaddrinfo host service :: calls ∧
    match res with
    | inl _ => r = -1 ∧ errno (pr s') = ENOSYS ∧ vars s' = vars s ∧ calls = [] ∧ world s' = w
    | inr l => ∃ o fds, connects l w o fds calls (world s') ∧ vars s' = fds ++ vars s ∧
        r = default (-1) o
    end.

(** Outcomes of [inetPassiveSocket]: -1 where no address was resolved, where none could
    be bound to, or where an option could not be set; the descriptor bound to the
    first address that could be bound to, which listens if it was asked to; or -1
    where [listen] fails, with the bound socket left open. *)
Definition passive_outcome (service : string) (type : Z) (addrlen doListen : bool) (backlog : Z)
    (s : st) (r : Z) (len : option Z) (s' : st) : Prop :=
  ∃ res w calls, sys_getaddrinfo None service (Hints AF_UNSPEC type AI_PASSIVE) (world s) = (res, w) ∧
    trace s' = trace s ++ KGetaddrinfo None service :: calls ∧
    match res with
    | inl _ => r = -1 ∧ len = None ∧ vars s' = vars s ∧ calls = [] ∧ world s' = w
    | inr l => ∃ o fds calls' w', binds doListen l w o fds calls' w' ∧ vars s' = fds ++ vars s ∧
        match o with
        | inr (Some (fd, rp)) =>
            if doListen then
              calls = calls' ++ [KListen fd backlog] ∧
              match sys_listen fd backlog w' with
              | (inr _, w'') => r = fd ∧ len = (if addrlen then Some (ai_addrlen rp) else None) ∧
                  world s' = w''
              | (inl _, w'') => r = -1 ∧ len = None ∧ world s' = w''
              end
            else calls = calls' ∧ r = fd ∧ len = (if addrlen then Some (ai_addrlen rp) else None) ∧
              world s' = w'
        | _ => calls = calls' ∧ r = -1 ∧ len = None ∧ world s' = w'
        end
    end.

Lemma inetConnect_run host service type (s : st) :
  ∃ r s', inetConnect host service type s = (Ok r, s') ∧ connect_outcome host service type s r s'.
Proof.
  unfold inetConnect, connect_outcome.
  destruct (getaddrinfo_run host service (Hints AF_UNSPEC type 0) s) as (res & w & Er & E1).
  rewrite (run_bind _ _ _ _ _ E1). destruct res as [e|l].
  { do 2 eexists. split; [reflexivity|]. exists (inl e), w, []. by split_and!. }
  match goal with |- context [(connect_first l ≫= _) ?x] =>
    destruct (connect_first_run l x) as (o & p & fds & calls & w' & E2 & Hc) end.
  rewrite (run_bind _ _ _ _ _ E2). do 2 eexists. split; [reflexivity|].
  exists (inr l), w, calls. split; [done|]. split; [simpl; by rewrite <- app_assoc|].
  exists o, fds. by split_and!.
Qed.

Lemma inetPassiveSocket_run service type addrlen doListen backlog (s : st) :
  ∃ r len s', inetPassiveSocket service type addrlen doListen backlog s = (Ok (r, len), s') ∧
    passive_outcome service type addrlen doListen backlog s r len s'.
Proof.
  unfold inetPassiveSocket, passive_outcome.
  destruct (getaddrinfo_run None service (Hints AF_UNSPEC type AI_PASSIVE) s) as (res & w & Er & E1).
  rewrite (run_bind _ _ _ _ _ E1). destruct res as [e|l].
  { do 3 eexists. split; [reflexivity|]. exists (inl e), w, []. by split_and!. }
  match goal with |- context [(bind_first doListen l ≫= _) ?x] =>
    destruct (bind_first_run doListen l x) as (o & p & fds & calls & w' & E2 & Hb) end.
  rewrite (run_bind _ _ _ _ _ E2). cbn [vars trace world] in *.
  destruct o as [[]|[[fd rp]|]].
  1, 3: do 3 eexists; (split; [reflexivity|]); exists (inr l), w, calls;
    (split; [done|]); (split; [simpl; by rewrite <- app_assoc|]);
    eexists _, fds, calls, w'; (split; [exact Hb|]); by split_and!.
  destruct doListen.
  - destruct (sys_listen fd backlog w') as [[e|[]] w2] eqn:El.
    + erewrite run_bind by (apply sys_fail; exact El). do 3 eexists. split; [reflexivity|].
      exists (inr l), w, (calls ++ [KListen fd backlog]). split; [done|].
      split; [simpl; by rewrite <- !app_assoc|]. eexists _, fds, calls, w'.
      split; [exact Hb|]. split; [done|]. split; [done|]. rewrite El. by split_and!.
    + erewrite run_bind by (apply sys_ok; exact El). do 3 eexists. split; [reflexivity|].
      exists (inr l), w, (calls ++ [KListen fd backlog]). split; [done|].
      split; [simpl; by rewrite <- !app_assoc|]. eexists _, fds, calls, w'.
      split; [exact Hb|]. split; [done|]. split; [done|]. rewrite El. by split_and!.
  - erewrite run_bind by reflexivity. do 3 eexists. split; [reflexivity|].
    exists (inr l), w, calls. split; [done|]. split; [simpl; by rewrite <- app_assoc|].
    eexists _, fds, calls, w'. split; [exact Hb|]. by split_and!.
Qed.

(** C36: the Internet routines always return, and account for their descriptors.
    [inetConnect] tries the addresses that [getaddrinfo] resolves, in order: one
    for which no socket can be made or that cannot be connected to is given up and
    its socket closed.  It returns the socket it has connected to the first address that
    remains, the only descriptor it leaves open, or -1 with none left open where
    no address remains or none was resolved.  [inetPassiveSocket] does the same with [bind],
    setting the address-reuse option before and listening after where it is asked to,
    and stores the length of the address that was bound where it is asked to; it
    returns -1 with the socket closed where the option cannot be set.
    One failure leaks: when [listen] fails it returns -1 and leaves the bound
    socket open. *)
Theorem inet_descriptors host service type addrlen doListen backlog (s : st) :
  (∃ r s', inetConnect host service type s = (Ok r, s') ∧
    connect_outcome host service type s r s') ∧
  (∃ r len s', inetPassiveSocket service type addrlen doListen backlog s = (Ok (r, len), s') ∧
    passive_outcome service type addrlen doListen backlog s r len s').
Proof. split; [apply inetConnect_run|apply inetPassiveSocket_run]. Qed.

(** ** Addresses *)

Lemma strncpy_at_zero n (src : string) :
  (String.length src <= n <= SUN_PATH_SIZE)%nat →
  strncpy_at 0 n src (sun_path zero_un) =
    Some (chars src ++ replicate (SUN_PATH_SIZE - String.length src) Ascii.zero).
Proof.
  intros Hn. unfold strncpy_at. cbn [sun_path zero_un]. rewrite length_replicate.
  rewrite (proj2 (Nat.leb_le _ _)) by lia. f_equal.
  change (take 0 (replicate SUN_PATH_SIZE zero)) with (@nil ascii).
  rewrite app_nil_l, drop_replicate, take_app_ge by (rewrite length_chars; lia).
  rewrite take_replicate, length_chars, <- app_assoc, <- replicate_add.
  do 2 f_equal. lia.
Qed.

(** A path that fits is stored in [sun_path] followed by null bytes up to
    the end, by [unixBuildAddress] and [yunixaddress] alike, although they
    copy a different number of bytes; a longer path or a null argument fails
    with the documented error and a status of -1.  For the abstract
    namespace, [yunixAaddress] accepts every name of up to 106 bytes but then
    copies 108 bytes to the second byte of the 108-byte array: it writes past
    the structure on each success. *)
Theorem unix_address_spec (p : string) (s : st) :
  ((String.length p < SUN_PATH_SIZE)%nat →
    let a := SockaddrUn AF_UNIX (chars p ++ replicate (SUN_PATH_SIZE - String.length p) Ascii.zero) in
    unixBuildAddress (Some p) true s = (Ok (0, a), s) ∧
    yunixaddress (Some p) true s = (Ok (0, a), s)) ∧
  ((SUN_PATH_SIZE <= String.length p)%nat → ∃ s' a,
    unixBuildAddress (Some p) true s = (Ok (-1, a), s') ∧ errno (pr s') = ENAMETOOLONG) ∧
  (∃ s' a, unixBuildAddress None true s = (Ok (-1, a), s') ∧ errno (pr s') = EINVAL) ∧
  ((1 + String.length p < SUN_PATH_SIZE)%nat → (yunixAaddress (Some p) true s).1 = Halt HUndef).
Proof.
  split_and!.
  - intros Hp a. unfold unixBuildAddress, yunixaddress.
    rewrite (proj2 (Nat.ltb_lt _ _)) by done.
    rewrite !strncpy_at_zero by (unfold SUN_PATH_SIZE in *; lia). done.
  - intros Hp. unfold unixBuildAddress. rewrite (proj2 (Nat.ltb_ge _ _)) by done.
    do 2 eexists. split; reflexivity.
  - do 2 eexists. split; reflexivity.
  - intros Hp. unfold yunixAaddress. rewrite (proj2 (Nat.ltb_lt _ _)) by done.
    unfold strncpy_at. cbn [sun_path zero_un]. rewrite length_replicate. done.
Qed.
End facts.

(** ** A concrete network on which [listen()] fails *)

#[export] Instance deaf_net : SockSys nat := {|
  sys_socket _ _ _ w := (inr (Z.of_nat w), S w);
  sys_connect_un _ _ _ w := (inr tt, w);
  sys_bind_un _ _ _ w := (inr tt, w);
  sys_connect_in _ _ _ w := (inr tt, w);
  sys_bind_in _ _ _ w := (inr tt, w);
  sys_listen _ _ w := (inl EINVAL, w);
  sys_reuseaddr _ w := (inr tt, w);
  sys_close_sock _ w := (inr tt, w);
  sys_remove _ w := (inr tt, w);
  sys_getaddrinfo _ _ _ w := (inr [Addrinfo 2 1 6 "addr" 16], w);
  sys_getnameinfo _ _ w := (inl EINVAL, w) |}.

#[local] Instance net_libc : Libc := {| strerror _ := "error"; io_errno e := e |}.

(** The leak of a descriptor when [listen()] fails. *)
Example listen_leak :
  vars (inetListen "80" 5 false (Pst (Proc 0 [] "" "" []) [] [] 3%nat)).2 = [3].
Proof. reflexivity. Qed.

Lemma unix_address_spec_witness :
  (yunixAaddress (Some "name") true (Pst (Proc 0 [] "" "" []) [] [] 3%nat)).1 = Halt HUndef.
Proof.
  apply (unix_address_spec "name" (Pst (Proc 0 [] "" "" []) [] [] 3%nat)).
  unfold SUN_PATH_SIZE. simpl. lia.
Defined.
