(* ===== verification/InetSeqnum.v ===== *)
(** Sequence numbers over Internet sockets: [sockets/is_seqnum_sv.c] and
    [is_seqnum_cl.c], which set up their sockets themselves, and
    [is_seqnum_v2_sv.c] and [is_seqnum_v2_cl.c], which use the library.

    The programs run over the socket calls of [Sockets] and the reads and writes
    of [ByteIO]; lines are read with [readLine].  The variables of a process are
    its open descriptors, as in [Sockets]. *)
From S2P Require Import Prelude CLib.
From S2P Require GetNum.
From S2P Require Import ErrorFunctions Proc Args.
From S2P Require ByteIO ReadLine.
From S2P Require Import Sockets.
Local Open Scope Z_scope.

Import ByteIO (ReadSys, WriteSys, sys_read, sys_write).
Abbreviation bytes := (list ascii).

(** What the servers use beyond the socket calls of the library; [accept] gives
    the descriptor, and the client's address with its length. *)
Class ServerSys (W : Type) := {
  sys_sigpipe : W → (Z + unit) * W;
  sys_accept : Z → W → (Z + Z * (string * Z)) * W;
  sys_malloc : Z → W → (Z + unit) * W;
  sys_getnameinfo0 : string → Z → W → (Z + string * string) * W
}.

(** ** Constants *)

Definition PORT_NUM : string := "50000".
Definition INT_LEN : Z := 30.
Definition BACKLOG : Z := 50.
Definition NI_MAXHOST : nat := 1025.
Definition NI_MAXSERV : nat := 32.
Definition ADDRSTRLEN : nat := (NI_MAXHOST + NI_MAXSERV + 10)%nat.
Definition IS_ADDR_STR_LEN : nat := Z.to_nat 4096.
Definition AI_NUMERICSERV : Z := 0x400.

(** The string at the start of a buffer. *)
Fixpoint c_string (buf : bytes) : string :=
  match buf with
  | [] => ""
  | c :: buf => if decide (c = Ascii.zero) then "" else String c (c_string buf)
  end.

Section programs.
Context {L : Libc} {W : Type} `{!SockSys W, !ReadSys W, !WriteSys W, !ServerSys W}.
Local Abbreviation P := (M (pst (list Z) kcall W)).

(** [readLine(fd, buf, INT_LEN)] in the process: the result, and the buffer.  What was
    read is kept with the calls. *)
Definition read_line (fuel : nat) (fd : Z) (buf : bytes) : P (Z * bytes) := λ s,
  let '(r, i) := ReadLine.readLine (X := unit) fuel fd false INT_LEN
                   (ByteIO.Io s.(pr).(errno) buf tt s.(world)) in
  let after calls :=
    Pst (set_errno i.(ByteIO.errno) s.(pr)) s.(vars) (s.(trace) ++ calls) i.(ByteIO.world) in
  match r with
  | Ok n => (Ok (n, i.(ByteIO.mem)), after [KReadLine fd n (c_string i.(ByteIO.mem))])
  | Halt h => (Halt h, after [])
  end.

Definition write (fd : Z) (t : string) : P (Z + nat) := call (KWrite fd (chars t)) (sys_write fd (chars t)).

(** [write(fd, t, strlen(t)) != strlen(t)] *)
Definition write_fails (fd : Z) (t : string) : P bool :=
  r ← write fd t;
  mret (match r with inl _ => true | inr k => negb (k =? String.length t)%nat end).

Definition accept (lfd : Z) : P (Z + Z * (string * Z)) := λ s,
  match sys_accept lfd s.(world) with
  | (inl e, w) => (Ok (inl e), Pst (set_errno e s.(pr)) s.(vars) (s.(trace) ++ [KAccept lfd None]) w)
  | (inr (fd, a), w) =>
      (Ok (inr (fd, a)), Pst s.(pr) (fd :: s.(vars)) (s.(trace) ++ [KAccept lfd (Some fd)]) w)
  end.

(** [close] where its result is looked at. *)
Definition close_checked (fd : Z) : P (Z + unit) :=
  r ← call (KClose fd) (sys_close_sock fd);
  put_vars (remove_fd fd);;
  mret r.

(** ** The servers *)

Definition reply (seqNum : Z) : string :=
  snprintf (Z.to_nat INT_LEN) (fmt_d (to_signed 32 seqNum) +:+ nl).

(** A connection, from the request on: the next number, and the buffer.  The same
    in both servers. *)
Definition serve (fuel : nat) (cfd seqNum : Z) (reqLenStr : bytes) : P (Z * bytes) :=
  r ← read_line fuel cfd reqLenStr;
  let '(n, reqLenStr) := r in
  if n <=? 0 then close cfd;; mret (seqNum, reqLenStr) else
  let reqLen := atoi (c_string reqLenStr) in
  if reqLen <=? 0 then close cfd;; mret (seqNum, reqLenStr) else
  bad ← write_fails cfd (reply seqNum);
  when bad (eprintf "Error on write");;
  c ← close_checked cfd;
  (match c with inl _ => p_systmWrn "close" | inr _ => skip end);;
  mret (to_unsigned 32 (seqNum + reqLen), reqLenStr).

(** The body of the loop; [describe] gives the client's address as text. *)
Definition server_body (describe : string → Z → P string) (fuel : nat) (lfd : Z) (st : Z * bytes) :
    P (Z * bytes + unit) :=
  let '(seqNum, reqLenStr) := st in
  a ← accept lfd;
  match a with
  | inl _ => p_systmWrn "accept";; mret (inl st)
  | inr (cfd, (claddr, addrlen)) =>
      t ← describe claddr addrlen;
      printf ("Connection from " +:+ t +:+ nl);;
      st ← serve fuel cfd seqNum reqLenStr;
      mret (inl st)
  end.

(** [seqNum]'s initial value. *)
Definition init_seqnum (argv : list string) : P Z :=
  match argv with
  | _ :: a :: _ => v ← p_getInt (Some a) 0 "init-seq-num"; mret (to_unsigned 32 v)
  | _ => mret 0
  end.

Definition wants_help (argv : list string) : bool :=
  match argv with _ :: a :: _ => bool_decide (a = "--help") | _ => false end.

Definition ignore_sigpipe : P unit :=
  r ← call KSigpipe sys_sigpipe;
  match r with inl _ => p_systmErr "signal" | inr _ => skip end.

(** *** [is_seqnum_sv.c] *)

Fixpoint bind_any (l : list addrinfo) : P (option Z) :=
  match l with
  | [] => mret None
  | rp :: l =>
      o ← socket (ai_family rp) (ai_socktype rp) (ai_protocol rp);
      match o with
      | inl _ => bind_any l
      | inr lfd =>
          opt ← call (KReuseaddr lfd) (sys_reuseaddr lfd);
          match opt with
          | inl _ => p_systmErr "setsockopt"
          | inr _ =>
              b ← call (KBindIn lfd (ai_addr rp) (ai_addrlen rp))
                    (sys_bind_in lfd (ai_addr rp) (ai_addrlen rp));
              match b with
              | inr _ => mret (Some lfd)
              | inl _ => close lfd;; bind_any l
              end
          end
      end
  end.

Definition describe (addr : string) (addrlen : Z) : P string :=
  r ← call KGetnameinfo (λ w, let '(r, w) := sys_getnameinfo0 addr addrlen w in (inr r, w));
  match r with
  | inr (inr (host, service)) =>
      mret (snprintf ADDRSTRLEN ("(" +:+ host +:+ ", " +:+ service +:+ ")"))
  | _ => mret (snprintf ADDRSTRLEN "(?UNKNOWN?)")
  end.

Definition sv_main (turns fuel : nat) (argv : list string) (junk : bytes) : P unit :=
  let argv0 := default "" (head argv) in
  if wants_help argv then p_usageErr (argv0 +:+ " [init-seq-num]" +:+ nl) else
  seqNum ← init_seqnum argv;
  ignore_sigpipe;;
  r ← getaddrinfo None PORT_NUM (Hints AF_UNSPEC SOCK_STREAM (Z.lor AI_PASSIVE AI_NUMERICSERV));
  match r with
  | inl _ => p_systmErr "getaddrinfo"
  | inr result =>
      b ← bind_any result;
      match b with
      | None => p_custmErr "Could not bind socket to any address"
      | Some lfd =>
          l ← call (KListen lfd BACKLOG) (sys_listen lfd BACKLOG);
          match l with
          | inl _ => p_systmErr "listen"
          | inr _ => loop turns (server_body describe fuel lfd) (seqNum, junk)
          end
      end
  end.

(** *** [is_seqnum_v2_sv.c] *)

Definition describe_v2 (addr : string) (addrlen : Z) : P string :=
  inetAddressStr addr addrlen IS_ADDR_STR_LEN.

Definition v2_sv_main (turns fuel : nat) (argv : list string) (junk : bytes) : P unit :=
  let argv0 := default "" (head argv) in
  if wants_help argv then p_usageErr (argv0 +:+ " [init-seq-num]" +:+ nl) else
  seqNum ← init_seqnum argv;
  ignore_sigpipe;;
  r ← inetListen PORT_NUM 5 true;
  let '(lfd, addrlen) := r in
  if lfd =? -1 then p_custmErr "inetListen() failed" else
  c ← call (KMalloc (default 0 addrlen)) (sys_malloc (default 0 addrlen));
  match c with
  | inl _ => p_systmErr "malloc"
  | inr _ => loop turns (server_body describe_v2 fuel lfd) (seqNum, junk)
  end.

(** ** The clients *)

(** From the request on, the same in both clients. *)
Definition request (fuel : nat) (cfd : Z) (argv : list string) (junk : bytes) : P unit :=
  let reqLenStr := default "1" (argv !! 2%nat) in
  bad ← write_fails cfd reqLenStr;
  if bad : bool then p_custmErr "Partial/failed write (reqLenStr)" else
  bad ← write_fails cfd nl;
  if bad : bool then p_custmErr "Partial/failed write (newline)" else
  r ← read_line fuel cfd junk;
  let '(numRead, seqNumStr) := r in
  if numRead =? -1 then p_systmErr "readLine" else
  if numRead =? 0 then p_custmErr "Unexpected EOF from server" else
  printf ("Sequence number: " +:+ c_string seqNumStr);;
  p_exit EXIT_SUCCESS.

Definition client_usage {A} (argv : list string) : P A :=
  p_usageErr (default "" (head argv) +:+ " server-host [sequence-len]" +:+ nl).

(** *** [is_seqnum_cl.c] *)

Definition cl_main (fuel : nat) (argv : list string) (junk : bytes) : P unit :=
  if (length argv <? 2)%nat || wants_help argv then client_usage argv else
  r ← getaddrinfo (argv !! 1%nat) PORT_NUM (Hints AF_UNSPEC SOCK_STREAM AI_NUMERICSERV);
  match r with
  | inl _ => p_systmErr "getaddrinfo"
  | inr result =>
      c ← connect_first result;
      match c with
      | None => p_custmErr "Could not connect socket to any address"
      | Some cfd => request fuel cfd argv junk
      end
  end.

(** *** [is_seqnum_v2_cl.c] *)

Definition v2_cl_main (fuel : nat) (argv : list string) (junk : bytes) : P unit :=
  if (length argv <? 2)%nat || wants_help argv then client_usage argv else
  cfd ← inetConnect (argv !! 1%nat) PORT_NUM SOCK_STREAM;
  if cfd =? -1 then p_custmErr "inetConnect() failed" else
  request fuel cfd argv junk.
End programs.

(** ** The numbers handed out *)

(** What was written to descriptors. *)
Definition writes (l : list kcall) : list (Z * bytes) :=
  omap (λ c, match c with KWrite fd bs => Some (fd, bs) | _ => None end) l.

(** A request that was granted: the connection, and the length asked for.  The
    next number after requests, the start of each, and the replies. *)
Fixpoint after (n : Z) (l : list (Z * Z)) : Z :=
  match l with [] => n | (_, len) :: l => after (to_unsigned 32 (n + len)) l end.
Fixpoint starts (n : Z) (l : list (Z * Z)) : list Z :=
  match l with [] => [] | (_, len) :: l => n :: starts (to_unsigned 32 (n + len)) l end.

(** A connection: its descriptor, the result of [readLine] on it and the text read;
    and the request that it is, if it is one: a positive length. *)
Record visit := Visit { v_fd : Z; v_read : Z; v_text : string }.
Definition asks (v : visit) : option (Z * Z) :=
  if (0 <? v.(v_read)) && (0 <? atoi v.(v_text)) then Some (v.(v_fd), atoi v.(v_text)) else None.
Definition grants (vs : list visit) : list (Z * Z) := omap asks vs.

(** What a server with the next number [n] does for a connection: it answers a
    request with the number, and anything else with nothing. *)
Definition answer (n : Z) (v : visit) : list kcall :=
  match asks v with Some _ => [KWrite v.(v_fd) (chars (reply n))] | None => [] end.
Definition next (n : Z) (v : visit) : Z :=
  match asks v with Some (_, len) => to_unsigned 32 (n + len) | None => n end.
Fixpoint served (lfd n : Z) (vs : list visit) : list kcall :=
  match vs with
  | [] => []
  | v :: vs => KAccept lfd (Some v.(v_fd)) :: KReadLine v.(v_fd) v.(v_read) v.(v_text) ::
      answer n v ++ served lfd (next n v) vs
  end.

(** The calls that matter to clients: connections accepted, requests read, bytes
    written. *)
Definition matters (c : kcall) : bool :=
  match c with KAccept _ (Some _) | KReadLine _ _ _ | KWrite _ _ => true | _ => false end.
Definition dialog (l : list kcall) : list kcall := List.filter matters l.

Definition valid_requests (l : list (Z * Z)) : Prop := Forall (λ g, 0 < g.2 <= INT_MAX) l.

(** The number a server starts with. *)
Definition starts_with (argv : list string) (n : Z) : Prop :=
  match argv with
  | _ :: a :: _ => ∃ v, int_arg 0 (Some a) v ∧ n = to_unsigned 32 v
  | _ => n = 0
  end.

Lemma after_app n l l' : after n (l ++ l') = after (after n l) l'.
Proof. revert n. induction l as [|[fd len] l IH]; intros n; [done|]. apply IH. Qed.

Lemma after_grants n v vs : after n (grants (v :: vs)) = after (next n v) (grants vs).
Proof. unfold grants, next. simpl. by destruct (asks v) as [[fd len]|]. Qed.

Lemma served_app lfd n vs vs' :
  served lfd n (vs ++ vs') = served lfd n vs ++ served lfd (after n (grants vs)) vs'.
Proof.
  revert n. induction vs as [|v vs IH]; intros n; [done|]. rewrite after_grants. simpl.
  by rewrite IH, <- app_assoc.
Qed.

Lemma grants_app vs vs' : grants (vs ++ vs') = grants vs ++ grants vs'.
Proof. apply omap_app. Qed.

Lemma grants_valid vs : valid_requests (grants vs).
Proof.
  induction vs as [|v vs IH]; [constructor|]. unfold grants. simpl.
  destruct (asks v) as [g|] eqn:E; [|exact IH]. constructor; [|exact IH].
  unfold asks in E. destruct ((0 <? v_read v) && (0 <? atoi (v_text v))) eqn:Ev; [|done].
  injection E as <-. bool_facts. simpl. split; [lia|].
  unfold atoi. destruct (strtoll _ _) as [[x ?] ?]. pose proof (to_signed_range 32 x). unfold INT_MAX. lia.
Qed.

Definition requested (l : list (Z * Z)) : Z := foldr Z.add 0 l.*2.

Lemma requested_pos l : valid_requests l → 0 <= requested l ∧ (l ≠ [] → 0 < requested l).
Proof.
  induction 1 as [|g l Hg _ [IH _]]; [done|]. change (requested (g :: l)) with (g.2 + requested l).
  split; [|intros _]; lia.
Qed.

(** The next number, unless it was the last request. *)
Lemma next_start n len l :
  0 <= n → 0 < len → valid_requests l → n + len + requested l <= 2 ^ 32 → l ≠ [] →
  to_unsigned 32 (n + len) = n + len.
Proof. intros Hn Hlen HF Hs Hl. apply requested_pos in HF as [_ H]. apply to_unsigned_small. specialize (H Hl). lia. Qed.

(** As long as the numbers last, a sequence ends before the later ones begin. *)
Lemma starts_bound n l i a :
  0 <= n → valid_requests l → n + requested l <= 2 ^ 32 → starts n l !! i = Some a → n <= a.
Proof.
  intros Hn HF. revert n i Hn. induction HF as [|[fd len] l Hlen HF IH]; intros n i Hn Hs; [done|].
  change (requested ((fd, len) :: l)) with (len + requested l) in Hs. simpl in Hlen.
  destruct i as [|i]; simpl; [intros [= ->]; lia|]. intros Ha.
  assert (Hl : l ≠ []) by by intros ->.
  rewrite (next_start n len l) in Ha by (done || lia). apply IH in Ha; lia.
Qed.

Lemma starts_disjoint n l i j a b fd len :
  0 <= n → valid_requests l → n + requested l <= 2 ^ 32 → (i < j)%nat →
  starts n l !! i = Some a → l !! i = Some (fd, len) → starts n l !! j = Some b → a + len <= b.
Proof.
  intros Hn HF. revert n i j Hn. induction HF as [|[fd' len'] l Hlen HF IH]; intros n i j Hn Hs Hij; [done|].
  change (requested ((fd', len') :: l)) with (len' + requested l) in Hs. simpl in Hlen.
  destruct j as [|j]; [lia|]. simpl. intros Ha Hi Hb.
  assert (Hl : l ≠ []) by by intros ->.
  rewrite (next_start n len' l) in Ha, Hb by (done || lia). destruct i as [|i]; simpl in Ha, Hi.
  - simplify_eq. eapply starts_bound; [| | |exact Hb]; (done || lia).
  - eapply (IH (n + len') i j); (done || lia).
Qed.

Section servers.
Context {L : Libc} {W : Type} `{!SockSys W, !ReadSys W, !WriteSys W, !ServerSys W}.
Local Abbreviation st := (pst (list Z) kcall W).
Local Abbreviation P := (M st).

(** A computation that writes nothing to a descriptor. *)
Definition quiet {A} (m : P A) : Prop := ∀ s, writes (m s).2.(trace) = writes s.(trace).

Lemma writes_app l l' : writes (l ++ l') = writes l ++ writes l'.
Proof. apply omap_app. Qed.

Lemma quiet_emits {A} (m : P A) :
  emits (λ _, True) (λ c, writes [c] = []) m → quiet m.
Proof.
  intros H s. destruct (H s I) as ((l & -> & Hl) & _). rewrite writes_app.
  assert (writes l = []) as ->; [|by rewrite app_nil_r].
  induction Hl as [|c l Hc _ IH]; [done|]. change (c :: l) with ([c] ++ l). by rewrite writes_app, Hc.
Qed.

Lemma emits_put_vars φ f : emits (C := kcall) (W := W) (V := list Z) (λ _, True) φ (put_vars f).
Proof. intros s _. split_and!; [|done|done]. exists []. by rewrite app_nil_r. Qed.
Lemma emits_eprintf φ t : emits (C := kcall) (W := W) (V := list Z) (λ _, True) φ (eprintf t).
Proof. by apply emits_lift. Qed.
Lemma emits_systmWrn φ t : emits (C := kcall) (W := W) (V := list Z) (λ _, True) φ (p_systmWrn t).
Proof. apply emits_lift. by intros p. Qed.
#[local] Hint Resolve emits_put_vars emits_eprintf emits_systmWrn emits_usageErr emits_custmErr emits_getInt : emits.

Lemma quiet_bind {A B} (m : P A) (k : A → P B) : quiet m → (∀ a, quiet (k a)) → quiet (m ≫= k).
Proof.
  intros Hm Hk s. specialize (Hm s). unfold mbind, M_bind.
  destruct (m s) as [[a|h] s']; [|done]. simpl in Hm. by rewrite Hk.
Qed.

Lemma quiet_read_line fuel fd buf : quiet (read_line fuel fd buf).
Proof.
  intros s. unfold read_line.
  destruct (ReadLine.readLine _ _ _ _ _) as [[n|h] i]; simpl; by rewrite writes_app, app_nil_r.
Qed.

Lemma quiet_accept lfd : quiet (accept lfd).
Proof.
  intros s. unfold accept. destruct (sys_accept lfd (world s)) as [[e|[fd a]] w]; simpl;
    by rewrite writes_app, app_nil_r.
Qed.
Lemma quiet_close fd : quiet (close fd).
Proof. apply quiet_emits. unfold close. emits. Qed.
Lemma quiet_close_checked fd : quiet (close_checked fd).
Proof. apply quiet_emits. unfold close_checked. emits. Qed.

(** A computation without a part in the dialog with clients. *)
Definition mute {A} (m : P A) : Prop := ∀ s, dialog (m s).2.(trace) = dialog s.(trace).

Lemma dialog_app l l' : dialog (l ++ l') = dialog l ++ dialog l'.
Proof. apply List.filter_app. Qed.

Lemma mute_emits {A} (m : P A) : emits (λ _, True) (λ c, matters c = false) m → mute m.
Proof.
  intros H s. destruct (H s I) as ((l & -> & Hl) & _). rewrite dialog_app.
  assert (dialog l = []) as ->; [|by rewrite app_nil_r].
  induction Hl as [|c l Hc _ IH]; [done|]. unfold dialog. simpl. by rewrite Hc.
Qed.

Lemma mute_bind {A B} (m : P A) (k : A → P B) : mute m → (∀ a, mute (k a)) → mute (m ≫= k).
Proof.
  intros Hm Hk s. specialize (Hm s). unfold mbind, M_bind.
  destruct (m s) as [[a|h] s']; [|done]. simpl in Hm. by rewrite Hk.
Qed.

Lemma mute_close fd : mute (close fd).
Proof. apply mute_emits. unfold close. emits. Qed.
Lemma mute_close_checked fd : mute (close_checked fd).
Proof. apply mute_emits. unfold close_checked. emits. Qed.

(** A connection was accepted and the server ended before it had read from it. *)
Definition cut_short {A} (lfd : Z) (r : res A) (tail : list kcall) : Prop :=
  tail = [] ∨ ∃ fd h, tail = [KAccept lfd (Some fd)] ∧ r = Halt h.

(** A server's computation from the number [n] on: [num] is the number where it
    has come to. *)
Definition hands {A} (lfd n : Z) (m : P A) (num : A → Z) : Prop := ∀ s, ∃ vs tail,
  dialog (m s).2.(trace) = dialog s.(trace) ++ served lfd n vs ++ tail ∧
  cut_short lfd (m s).1 tail ∧
  ∀ x, (m s).1 = Ok x → num x = after n (grants vs).

Lemma hands_mute {A} lfd n (m : P A) num :
  mute m → (∀ s x, (m s).1 = Ok x → num x = n) → hands lfd n m num.
Proof.
  intros Hq Hn s. exists [], []. split_and!; [by rewrite Hq, app_nil_r|by left|].
  intros x Hx. by eapply Hn.
Qed.

Lemma hands_ret {A} lfd n (x : A) num : num x = n → hands lfd n (mret x) num.
Proof. intros Hx. apply hands_mute; [done|]. by intros s y [= <-]. Qed.

Lemma hands_bind {A B} lfd n (m : P A) (k : A → P B) num :
  mute m → (∀ a, hands lfd n (k a) num) → hands lfd n (m ≫= k) num.
Proof.
  intros Hm Hk s. specialize (Hm s). unfold mbind, M_bind. destruct (m s) as [[a|h] s']; simpl in Hm.
  - destruct (Hk a s') as (vs & tail & H1 & H2 & H3). exists vs, tail. by rewrite <- Hm.
  - exists [], []. split_and!; [by rewrite app_nil_r|by left|done].
Qed.

(** The same where it does not matter where the computation has come to. *)
Definition granted {A} (lfd n : Z) (m : P A) : Prop := ∀ s, ∃ vs tail,
  dialog (m s).2.(trace) = dialog s.(trace) ++ served lfd n vs ++ tail ∧ cut_short lfd (m s).1 tail.

(** The loop of a server. *)
Lemma granted_loop {A} lfd turns (body : A → P (A + unit)) (num : A → Z) x0 :
  (∀ x, hands lfd (num x) (body x) (λ r, match r with inl x' => num x' | inr _ => num x end)) →
  granted lfd (num x0) (loop turns body x0).
Proof.
  intros Hb. induction turns as [|turns IH] in x0 |- *.
  { intros s. exists [], []. split; [by rewrite app_nil_r|by left]. }
  intros s. rewrite loop_S. unfold mbind, M_bind. destruct (Hb x0 s) as (vs & tail & H1 & H2 & H3).
  destruct (body x0 s) as [r s'] eqn:E. simpl in H1, H2, H3.
  destruct r as [y|h].
  - assert (tail = []) as -> by (destruct H2 as [?|(fd & h & _ & [=])]; done). rewrite app_nil_r in H1.
    destruct y as [x|u]; [|exists vs, []; rewrite app_nil_r; split; [done|by left]].
    destruct (IH x s') as (vs' & tail' & H1' & H2'). specialize (H3 _ eq_refl). simpl in H3.
    exists (vs ++ vs'), tail'. split; [|done]. by rewrite H1', H1, served_app, <- H3, <- !app_assoc.
  - exists vs, tail. split; [done|]. destruct H2 as [?|(fd & h' & ? & _)]; [by left|right; eauto].
Qed.

Lemma write_fails_run fd t (s : st) : ∃ bad s',
  write_fails fd t s = (Ok bad, s') ∧ trace s' = trace s ++ [KWrite fd (chars t)] ∧
  (∀ w, sys_write fd (chars t) s.(world) = (inr (length (chars t)), w) →
     bad = false ∧ s' = Pst s.(pr) s.(vars) (s.(trace) ++ [KWrite fd (chars t)]) w).
Proof.
  unfold write_fails, write, mbind, M_bind, call.
  destruct (sys_write fd _ (world s)) as [[e|k'] w]; do 2 eexists; (split_and!; [done|done|]).
  - done.
  - intros w' [= -> ->]. rewrite length_chars, Nat.eqb_refl. done.
Qed.

(** A reply, and then nothing more. *)
Lemma write_mute {A} cfd t (k : bool → P A) s :
  (∀ bad, mute (k bad)) →
  dialog ((write_fails cfd t ≫= k) s).2.(trace) = dialog s.(trace) ++ [KWrite cfd (chars t)].
Proof.
  intros Hq. destruct (write_fails_run cfd t s) as (bad & s' & E & T & _).
  rewrite (run_bind _ _ _ _ _ E), Hq, T. apply dialog_app.
Qed.

Lemma read_line_dialog fuel fd buf s :
  (∃ h s1, read_line fuel fd buf s = (Halt h, s1) ∧ dialog s1.(trace) = dialog s.(trace)) ∨
  (∃ k b s1, read_line fuel fd buf s = (Ok (k, b), s1) ∧
     dialog s1.(trace) = dialog s.(trace) ++ [KReadLine fd k (c_string b)]).
Proof.
  unfold read_line. destruct (ReadLine.readLine _ _ _ _ _) as [[k|h] i]; [right|left].
  - do 3 eexists. split; [done|]. apply dialog_app.
  - do 2 eexists. split; [done|]. cbn. by rewrite app_nil_r.
Qed.

(** What a connection comes to: the request is read and answered, or the server ends
    while it reads. *)
Lemma serve_dialog fuel cfd n buf s :
  let m := serve fuel cfd n buf s in
  (dialog m.2.(trace) = dialog s.(trace) ∧ ∃ h, m.1 = Halt h) ∨
  ∃ v, v.(v_fd) = cfd ∧
    dialog m.2.(trace) =
      dialog s.(trace) ++ KReadLine cfd v.(v_read) v.(v_text) :: answer n v ∧
    ∀ x, m.1 = Ok x → x.1 = next n v.
Proof.
  intros m. unfold m. clear m. unfold serve.
  destruct (read_line_dialog fuel cfd buf s) as [(h & s1 & E & T1)|(k & b & s1 & E & T1)].
  { left. rewrite (run_bind_halt _ _ _ _ _ E). split; [done|by eexists]. }
  right. rewrite (run_bind _ _ _ _ _ E). cbv beta iota. set (t := c_string b) in *.
  exists (Visit cfd k t). split; [done|]. unfold answer, next, asks. cbn [v_fd v_read v_text].
  assert (Hno : ∀ m : P (Z * bytes), m = (close cfd;; mret (n, b)) →
    dialog (m s1).2.(trace) = dialog s.(trace) ++ [KReadLine cfd k t] ∧
    ∀ x, (m s1).1 = Ok x → x.1 = n).
  { intros m ->. split.
    - rewrite <- T1. apply mute_bind; [apply mute_close|done].
    - intros x. unfold mbind, M_bind. destruct (close cfd s1) as [[[]|h] s2]; [|done]. by intros [= <-]. }
  destruct (Z.leb_spec k 0); [rewrite (proj2 (Z.ltb_ge 0 k)) by lia; by apply Hno|].
  rewrite (proj2 (Z.ltb_lt 0 k)) by lia. cbv zeta. fold t.
  destruct (Z.leb_spec (atoi t) 0); [rewrite (proj2 (Z.ltb_ge 0 (atoi t))) by lia; by apply Hno|].
  rewrite (proj2 (Z.ltb_lt 0 (atoi t))) by lia. cbn [andb]. split.
  - rewrite write_mute, T1; [by rewrite <- app_assoc|]. intros bad.
    apply mute_bind; [by apply mute_emits; emits|]. intros _.
    apply mute_bind; [apply mute_close_checked|]. intros c. apply mute_emits. emits.
  - intros x Ex. match type of Ex with (?m s1).1 = _ => destruct (m s1) as [r s2] eqn:Ek; 
      assert (Hr : returns (λ y, y.1 = to_unsigned 32 (n + atoi t)) m) end.
    { do 4 (apply returns_bind; intros ?). by apply returns_ret. }
    simpl in Ex. subst r. by eapply Hr.
Qed.

(** ** The programs *)

Lemma accept_dialog lfd s :
  (∃ e s', accept lfd s = (Ok (inl e), s') ∧ dialog s'.(trace) = dialog s.(trace)) ∨
  (∃ fd a s', accept lfd s = (Ok (inr (fd, a)), s') ∧
     dialog s'.(trace) = dialog s.(trace) ++ [KAccept lfd (Some fd)]).
Proof.
  unfold accept. destruct (sys_accept lfd s.(world)) as [[e|[fd a]] w]; [left|right].
  - do 2 eexists. split; [done|]. cbn. by rewrite dialog_app, app_nil_r.
  - do 3 eexists. split; [done|]. apply dialog_app.
Qed.

(** From an accepted connection on. *)
Lemma connection_hands {B} lfd n cfd fuel buf (descr : P B) (k : B → P unit) (s s0 : st) :
  mute descr → (∀ t, mute (k t)) →
  dialog s.(trace) = dialog s0.(trace) ++ [KAccept lfd (Some cfd)] →
  let m := (t ← descr; k t;; st ← serve fuel cfd n buf; mret (inl st) : P (Z * bytes + unit)) s in
  ∃ vs tail, dialog m.2.(trace) = dialog s0.(trace) ++ served lfd n vs ++ tail ∧
    cut_short lfd m.1 tail ∧
    ∀ x, m.1 = Ok x → match x with inl y => y.1 | inr _ => n end = after n (grants vs).
Proof.
  intros Hd Hk Hs m. unfold m. clear m. specialize (Hd s). unfold mbind, M_bind.
  destruct (descr s) as [[t|h] s1]; simpl in Hd.
  2:{ exists [], [KAccept lfd (Some cfd)]. simpl. rewrite Hd, Hs. split_and!; [done|right; eauto|done]. }
  specialize (Hk t s1). destruct (k t s1) as [[[]|h] s2]; simpl in Hk.
  2:{ exists [], [KAccept lfd (Some cfd)]. simpl. rewrite Hk, Hd, Hs. split_and!; [done|right; eauto|done]. }
  pose proof (serve_dialog fuel cfd n buf s2) as Hm. cbv zeta in Hm.
  destruct (serve fuel cfd n buf s2) as [r s3]. simpl in Hm.
  destruct Hm as [(E & h & ->)|(v & Hv & E & Hx)].
  - exists [], [KAccept lfd (Some cfd)]. simpl. rewrite E, Hk, Hd, Hs. split_and!; [done|right; eauto|done].
  - exists [v], []. rewrite after_grants. simpl. subst cfd.
    destruct r as [x|h]; simpl; rewrite E, Hk, Hd, Hs, !app_nil_r, <- app_assoc;
      (split_and!; [done|by left|]); [|done].
    intros y [= <-]. by apply Hx.
Qed.

Lemma hands_body descr fuel lfd x :
  (∀ a n, mute (descr a n)) →
  hands lfd x.1 (server_body descr fuel lfd x) (λ r, match r with inl x' => x'.1 | inr _ => x.1 end).
Proof.
  intros Hd s. destruct x as [n buf]. unfold server_body. cbn [fst].
  destruct (accept_dialog lfd s) as [(e & s1 & E & T)|(cfd & [addr len] & s1 & E & T)].
  - rewrite (run_bind _ _ _ _ _ E). cbv beta iota.
    assert (H : hands lfd n (p_systmWrn "accept";; mret (inl (n, buf)) : P (Z * bytes + unit))
      (λ r, match r with inl x' => x'.1 | inr _ => n end)).
    { apply hands_bind; [by apply mute_emits; emits|]. intros _. by apply hands_ret. }
    destruct (H s1) as (vs & tail & H1). exists vs, tail. by rewrite <- T.
  - rewrite (run_bind _ _ _ _ _ E). cbv beta iota.
    apply (connection_hands lfd n cfd fuel buf (descr addr len)
      (λ t, printf ("Connection from " +:+ t +:+ nl))); [apply Hd| |exact T].
    intros t. apply mute_emits. emits.
Qed.

Lemma mute_describe a n : mute (describe a n).
Proof. apply mute_emits. unfold describe. emits. Qed.
Lemma mute_describe_v2 a n : mute (describe_v2 a n).
Proof. apply mute_emits. unfold describe_v2, inetAddressStr. emits. Qed.

Lemma quiet_getaddrinfo host service h : quiet (getaddrinfo host service h).
Proof. apply quiet_emits. unfold getaddrinfo. emits. Qed.
Lemma mute_getaddrinfo host service h : mute (getaddrinfo host service h).
Proof. apply mute_emits. unfold getaddrinfo. emits. Qed.
Lemma emits_socket φ f t p : φ (KSocket f t p) → emits (W := W) (λ _, True) φ (socket f t p).
Proof. intros H. unfold socket. emits. Qed.
Lemma emits_close φ fd : φ (KClose fd) → emits (W := W) (λ _, True) φ (close fd).
Proof. intros H. unfold close. emits. Qed.
#[local] Hint Resolve emits_socket emits_close : emits.

Lemma mute_bind_any l : mute (bind_any l).
Proof. apply mute_emits. induction l as [|rp l IH]; cbn [bind_any]; emits. Qed.
Lemma mute_bind_first doListen l : mute (bind_first doListen l).
Proof. apply mute_emits. induction l as [|rp l IH]; cbn [bind_first]; emits. Qed.

(** A whole server. *)
Definition sequenced (argv : list string) (m : P unit) : Prop := ∀ s, ∃ n lfd vs tail,
  (vs = [] ∨ starts_with argv n) ∧
  dialog (m s).2.(trace) = dialog s.(trace) ++ served lfd n vs ++ tail ∧ cut_short lfd (m s).1 tail.

Lemma sequenced_none {A} (r : res A) d d' :
  d' = d → ∀ argv, ∃ n lfd vs tail, (vs = [] ∨ starts_with argv n) ∧
    d' = d ++ served lfd n vs ++ tail ∧ cut_short lfd r tail.
Proof. intros -> argv. exists 0, 0, [], []. split_and!; [by left|by rewrite app_nil_r|by left]. Qed.

Lemma sequenced_mute argv m : mute m → sequenced argv m.
Proof. intros Hq s. apply sequenced_none, Hq. Qed.

Lemma sequenced_bind {A} argv (m : P A) k :
  mute m → (∀ a, sequenced argv (k a)) → sequenced argv (m ≫= k).
Proof.
  intros Hm Hk s. specialize (Hm s). unfold mbind, M_bind. destruct (m s) as [[a|h] s']; simpl in Hm.
  - rewrite <- Hm. apply Hk.
  - by apply sequenced_none.
Qed.

Lemma sequenced_granted argv lfd n m : starts_with argv n → granted lfd n m → sequenced argv m.
Proof.
  intros Hn Hm s. destruct (Hm s) as (vs & tail & H1 & H2). exists n, lfd, vs, tail. by split; [right|].
Qed.

Lemma sequenced_init argv k :
  (∀ n, starts_with argv n → sequenced argv (k n)) → sequenced argv (init_seqnum argv ≫= k).
Proof.
  intros Hk s. unfold init_seqnum. destruct argv as [|p [|a argv]]; [by apply Hk..|].
  destruct (p_getInt_run (Some a) 0 "init-seq-num" s) as [(v & s1 & E & Hv & Hs)|(s1 & E & _ & Hs)].
  - unfold mbind, M_bind. rewrite E. destruct Hs as (_ & T & _). rewrite <- T. apply Hk. by exists v.
  - unfold mbind, M_bind. rewrite E. destruct Hs as (_ & T & _). apply sequenced_none. simpl. by rewrite T.
Qed.

Lemma mute_sigpipe : mute ignore_sigpipe.
Proof. apply mute_emits. unfold ignore_sigpipe. emits. Qed.

Lemma sequenced_loop descr turns fuel argv lfd n junk :
  starts_with argv n → (∀ a k, mute (descr a k)) →
  sequenced argv (loop turns (server_body descr fuel lfd) (n, junk)).
Proof.
  intros Hn Hd. apply (sequenced_granted _ lfd n); [done|].
  apply (granted_loop _ _ _ fst (n, junk)). intros x. by apply hands_body.
Qed.

Lemma sequenced_sv turns fuel argv junk : sequenced argv (sv_main turns fuel argv junk).
Proof.
  unfold sv_main. destruct (wants_help argv); [by apply sequenced_mute, mute_emits; emits|].
  apply sequenced_init. intros n Hn. apply sequenced_bind; [apply mute_sigpipe|]. intros _.
  apply sequenced_bind; [apply mute_getaddrinfo|].
  intros [e|result]; [by apply sequenced_mute, mute_emits; emits|].
  apply sequenced_bind; [apply mute_bind_any|].
  intros [lfd|]; [|by apply sequenced_mute, mute_emits; emits].
  apply sequenced_bind; [by apply mute_emits; emits|].
  intros [e|[]]; [by apply sequenced_mute, mute_emits; emits|].
  apply sequenced_loop; [done|apply mute_describe].
Qed.

Lemma mute_inetListen service backlog b : mute (inetListen service backlog b).
Proof.
  unfold inetListen, inetPassiveSocket. apply mute_bind; [apply mute_getaddrinfo|].
  intros [e|result]; [done|]. apply mute_bind; [apply mute_bind_first|].
  intros [[]|[[fd rp]|]]; [done| |done]. apply mute_emits. emits.
Qed.

Lemma sequenced_v2_sv turns fuel argv junk : sequenced argv (v2_sv_main turns fuel argv junk).
Proof.
  unfold v2_sv_main. destruct (wants_help argv); [by apply sequenced_mute, mute_emits; emits|].
  apply sequenced_init. intros n Hn. apply sequenced_bind; [apply mute_sigpipe|]. intros _.
  apply sequenced_bind; [apply mute_inetListen|]. intros [lfd len].
  destruct (lfd =? -1); [by apply sequenced_mute, mute_emits; emits|].
  apply sequenced_bind; [by apply mute_emits; emits|].
  intros [e|[]]; [by apply sequenced_mute, mute_emits; emits|].
  apply sequenced_loop; [done|apply mute_describe_v2].
Qed.

Lemma reply_text n : reply n = fmt_d (to_signed 32 n) +:+ nl.
Proof.
  unfold reply. apply snprintf_fits. rewrite length_append.
  pose proof (fmt_d_length (to_signed 32 n)) as H. pose proof (to_signed_range 32 n ltac:(lia)).
  change (String.length nl) with 1%nat. specialize (H ltac:(unfold LONG_MIN, LONG_MAX; lia)).
  change (Z.to_nat INT_LEN) with 30%nat. lia.
Qed.

End servers.

(** ** One client and the server *)

(** A line and its newline. *)
Lemma split_newline line rest :
  Forall (λ c, c ≠ newline) line → ReadLine.split_line (line ++ newline :: rest) = (line ++ [newline], rest).
Proof.
  induction 1 as [|c line Hc _ IH]; [done|]. simpl. by rewrite decide_False, IH.
Qed.

Section connection.
Context {L : Libc} {W : Type} `{!SockSys W, !ReadSys W, !WriteSys W, !ServerSys W}.
Local Abbreviation st := (pst (list Z) kcall W).
Context (fd : Z) (pending : W → bytes) (credit : W → nat) `{!ByteIO.ReadLaws W fd pending credit}.
Hypothesis reliable : ByteIO.read_reliable (W := W) fd.

(** A line of the other side that fits is read whole. *)
Lemma read_line_run fuel buf line rest (s : st) :
  pending s.(world) = line ++ newline :: rest → Forall (λ c, c ≠ newline) line → (length line < 29)%nat →
  length buf = Z.to_nat INT_LEN → (length (pending s.(world)) + credit s.(world) < fuel)%nat →
  ∃ s' tl, read_line fuel fd buf s = (Ok (Z.of_nat (S (length line)), line ++ newline :: Ascii.zero :: tl), s') ∧
    writes s'.(trace) = writes s.(trace) ∧ s'.(vars) = s.(vars) ∧ s'.(pr).(delivered) = s.(pr).(delivered) ∧
    s'.(pr).(out_buf) = s.(pr).(out_buf) ∧ s'.(pr).(err_buf) = s.(pr).(err_buf).
Proof.
  intros Hp Hline Hlen Hbuf Hfuel. unfold read_line, ReadLine.readLine.
  change ((INT_LEN <=? 0) || false) with false. cbv iota.
  pose proof (ReadLine.finish_line (X := unit) (W := W) (λ s, pending s.(ByteIO.world))
    (λ s, credit s.(ByteIO.world)) (λ _, True) (ReadLine.readLine_body fd INT_LEN) fuel INT_LEN
    (ByteIO.Io (errno (pr s)) buf tt (world s))) as F.
  unfold ReadLine.reads_line in F. cbn [ByteIO.world ByteIO.mem] in F. rewrite Hp in F.
  rewrite split_newline in F by done. destruct F as (i & E & _ & Hm).
  - done.
  - by apply ReadLine.readLine_step.
  - done.
  - rewrite Hbuf. done.
  - by rewrite <- Hp.
  - assert (Hk : take (Z.to_nat (INT_LEN - 1)) (line ++ [newline]) = line ++ [newline]).
    { change (Z.to_nat (INT_LEN - 1)) with 29%nat. apply take_ge. rewrite length_app. simpl. lia. }
    rewrite E, Hk, length_app. unfold ReadLine.line_mem in Hm. rewrite Hk in Hm.
    assert (Ht : ReadLine.terminated (line ++ [newline]) = true).
    { apply bool_decide_eq_true_2. apply elem_of_app. by right; left. }
    rewrite Ht in Hm. cbn [orb] in Hm.
    rewrite Hm, <- app_assoc. cbn [app ByteIO.world ByteIO.mem length]. rewrite Nat.add_1_r.
    eexists _, _. split; [reflexivity|]. split; [|done]. cbn. by rewrite writes_app, app_nil_r.
Qed.

(** The text of such a line. *)
Lemma c_string_text t tl :
  Forall (λ c, c ≠ Ascii.zero) (chars t) → c_string (chars t ++ Ascii.zero :: tl) = t.
Proof.
  induction t as [|c t IH]; [done|]. intros [Hc Ht]%Forall_cons. simpl. by rewrite decide_False, IH.
Qed.

Lemma fmt_d_avoids x z :
  is_base_digit 10 x = false → x ≠ "-"%char → Forall (λ c, c ≠ x) (chars (fmt_d z)).
Proof.
  intros Hx Hm. pose proof (fmt_d_without x z Hx Hm) as H'. unfold all_chars in H'.
  rewrite forallb_forall in H'. apply Forall_forall. intros c Hc%list_elem_of_In%H'.
  by apply bool_decide_eq_true in Hc.
Qed.

(** Computations that return, whatever the calls give. *)
Definition comes_back {A} (m : M st A) : Prop := ∀ s, ∃ x s', m s = (Ok x, s').

Lemma comes_back_bind {A B} (m : M st A) (k : A → M st B) :
  comes_back m → (∀ a, comes_back (k a)) → comes_back (m ≫= k).
Proof. intros Hm Hk s. destruct (Hm s) as (a & s' & E). rewrite (run_bind _ _ _ _ _ E). apply Hk. Qed.

Lemma comes_back_close f : comes_back (close_checked f).
Proof.
  intros s. unfold close_checked, mbind, M_bind, call.
  destruct (sys_close_sock f (world s)) as [[e|u] w]; by do 2 eexists.
Qed.

Lemma comes_back_systmWrn t : comes_back (p_systmWrn t).
Proof. intros s. destruct (p_systmWrn_run t s) as (s' & E & _). by exists tt, s'. Qed.

(** The server's side: a length is asked for. *)
Lemma serve_length_run fuel n len buf rest (s : st) :
  pending s.(world) = chars (fmt_d len) ++ newline :: rest → 0 < len <= INT_MAX →
  length buf = Z.to_nat INT_LEN → (length (pending s.(world)) + credit s.(world) < fuel)%nat →
  ∃ buf' s', serve fuel fd n buf s = (Ok (to_unsigned 32 (n + len), buf'), s') ∧
    writes s'.(trace) = writes s.(trace) ++ [(fd, chars (reply n))].
Proof.
  intros Hp Hlen Hbuf Hfuel.
  assert (Hl : (length (chars (fmt_d len)) < 29)%nat).
  { rewrite length_chars. pose proof (fmt_d_length len) as F. unfold INT_MAX, LONG_MIN, LONG_MAX in *. lia. }
  destruct (read_line_run fuel buf _ rest s Hp) as (s1 & tl & E & T & _); [by apply fmt_d_avoids|done..|].
  unfold serve. rewrite (run_bind _ _ _ _ _ E). rewrite (proj2 (Z.leb_gt _ _)) by lia.
  assert (Ha : atoi (c_string (chars (fmt_d len) ++ newline :: Ascii.zero :: tl)) = len).
  { change (newline :: Ascii.zero :: tl) with (chars nl ++ Ascii.zero :: tl). rewrite app_assoc, <- chars_app.
    rewrite c_string_text.
    - unfold atoi, nl. rewrite GetNum.strtoll_dec_blank; [|unfold INT_MAX, LLONG_MIN, LLONG_MAX in *; lia|done].
      apply to_signed_small; unfold INT_MAX in *; lia.
    - rewrite chars_app. apply Forall_app. split; [by apply fmt_d_avoids|]. by repeat constructor. }
  cbv zeta. rewrite Ha, (proj2 (Z.leb_gt _ _)) by lia.
  destruct (write_fails_run fd (reply n) s1) as (bad & s2 & E2 & T2 & _). rewrite (run_bind _ _ _ _ _ E2).
  assert (Hq : quiet (when bad (eprintf "Error on write");;
    c ← close_checked fd; (match c with inl _ => p_systmWrn "close" | inr _ => skip end);;
    mret (to_unsigned 32 (n + len), chars (fmt_d len) ++ newline :: zero :: tl) : M st _)).
  { apply quiet_bind; [by apply quiet_emits; emits|]. intros _.
    apply quiet_bind; [apply quiet_close_checked|]. intros c. apply quiet_emits. emits. }
  match type of Hq with quiet ?m => assert (Hr : returns (λ x, x = (to_unsigned 32 (n + len),
    chars (fmt_d len) ++ newline :: zero :: tl)) m ∧ comes_back m) end.
  { split.
    - do 3 (apply returns_bind; intros ?). by apply returns_ret.
    - apply comes_back_bind; [by destruct bad; eexists _, _|]. intros _.
      apply comes_back_bind; [apply comes_back_close|]. intros c.
      apply comes_back_bind; [|by eexists _, _]. destruct c; [apply comes_back_systmWrn|by eexists _, _]. }
  destruct Hr as [Hr Hc]. destruct (Hc s2) as (x & s3 & E3). pose proof (Hr _ _ _ E3) as ->.
  do 2 eexists. split; [exact E3|]. specialize (Hq s2). rewrite E3 in Hq. cbn [snd] in Hq.
  by rewrite Hq, T2, writes_app, T.
Qed.

(** The client's side. *)
Lemma request_run fuel argv junk t rest w1 w2 (s : st) :
  let req := default "1" (argv !! 2%nat) in
  sys_write fd (chars req) s.(world) = (inr (length (chars req)), w1) →
  sys_write fd [newline] w1 = (inr 1%nat, w2) →
  pending w2 = chars t ++ newline :: rest → Forall (λ c, c ≠ newline) (chars t) →
  Forall (λ c, c ≠ Ascii.zero) (chars t) → (String.length t < 29)%nat →
  length junk = Z.to_nat INT_LEN → (length (pending w2) + credit w2 < fuel)%nat →
  ∃ s', request fuel fd argv junk s = (Halt (HExit EXIT_SUCCESS), s') ∧
    writes s'.(trace) = writes s.(trace) ++ [(fd, chars req); (fd, [newline])] ∧
    s'.(pr).(delivered) = s.(pr).(delivered) ++
      chunk Sout (s.(pr).(out_buf) +:+ "Sequence number: " +:+ t +:+ nl) ++ chunk Serr s.(pr).(err_buf).
Proof.
  intros req W1 W2 Hp Hnl Hz Ht Hj Hfuel. unfold request. fold req.
  destruct (write_fails_run fd req s) as (b1 & s1 & E1 & _ & H1). destruct (H1 w1 W1) as [-> ->].
  rewrite (run_bind _ _ _ _ _ E1). set (s1 := Pst _ _ _ _).
  destruct (write_fails_run fd nl s1) as (b2 & s2 & E2 & _ & H2). destruct (H2 w2 W2) as [-> ->].
  rewrite (run_bind _ _ _ _ _ E2). set (s2 := Pst _ _ _ _).
  destruct (read_line_run fuel junk (chars t) rest s2 Hp Hnl) as (s3 & tl & E3 & T3 & _ & D3 & O3 & R3);
    [by rewrite length_chars|done|done|].
  rewrite (run_bind _ _ _ _ _ E3). rewrite (proj2 (Z.eqb_neq _ _)) by lia. rewrite (proj2 (Z.eqb_neq _ _)) by lia.
  change (newline :: Ascii.zero :: tl) with (chars nl ++ Ascii.zero :: tl). rewrite app_assoc, <- chars_app.
  rewrite c_string_text by (rewrite chars_app; apply Forall_app; split; [done|by repeat constructor]).
  eexists. split; [reflexivity|]. split.
  - transitivity (writes (trace s3)); [done|]. rewrite T3. unfold s2, s1. cbn [trace].
    by rewrite !writes_app, <- app_assoc.
  - cbn. rewrite D3, O3, R3, <- app_assoc. done.
Qed.
End connection.

Section exchange.
Context {L : Libc} {W : Type} `{!SockSys W, !ReadSys W, !WriteSys W, !ServerSys W}.
Local Abbreviation st := (pst (list Z) kcall W).
Context (sfd : Z) (spending : W → bytes) (scredit : W → nat) `{!ByteIO.ReadLaws W sfd spending scredit}.
Context (cfd : Z) (cpending : W → bytes) (ccredit : W → nat) `{!ByteIO.ReadLaws W cfd cpending ccredit}.

(** A client asks for a sequence and prints the number the server has reached:
    what the client writes is read by the server, in whatever pieces it arrives,
    as the length that was asked for; the server answers, moves on by that length,
    and the client, to whom the answer comes in whatever pieces, prints it and ends
    with success. *)
Theorem inet_exchange fuel argv len n (c v : st) w1 w2 buf junk :
  let req := default "1" (argv !! 2%nat) in
  ByteIO.read_reliable (W := W) sfd → ByteIO.read_reliable (W := W) cfd →
  req = fmt_d len → 0 < len <= INT_MAX → length buf = Z.to_nat INT_LEN → length junk = Z.to_nat INT_LEN →
  sys_write cfd (chars req) c.(world) = (inr (length (chars req)), w1) →
  sys_write cfd [newline] w1 = (inr 1%nat, w2) →
  spending v.(world) = chars req ++ [newline] →
  (length (spending v.(world)) + scredit v.(world) < fuel)%nat →
  ∃ buf' v' answer, serve fuel sfd n buf v = (Ok (to_unsigned 32 (n + len), buf'), v') ∧
    writes v'.(trace) = writes v.(trace) ++ [(sfd, answer)] ∧
    (cpending w2 = answer → (length (cpending w2) + ccredit w2 < fuel)%nat →
     ∃ c', request fuel cfd argv junk c = (Halt (HExit EXIT_SUCCESS), c') ∧
       writes c'.(trace) = writes c.(trace) ++ [(cfd, chars req); (cfd, [newline])] ∧
       c'.(pr).(delivered) = c.(pr).(delivered) ++
         chunk Sout (c.(pr).(out_buf) +:+ "Sequence number: " +:+ fmt_d (to_signed 32 n) +:+ nl) ++
         chunk Serr c.(pr).(err_buf)).
Proof.
  intros req Hs Hc Hreq Hlen Hbuf Hjunk W1 W2 Hp Hfuel.
  rewrite Hreq in Hp.
  destruct (serve_length_run sfd spending scredit Hs fuel n len buf [] v Hp Hlen Hbuf Hfuel) as (buf' & v' & E & Hw).
  exists buf', v', (chars (reply n)). split_and!; [done..|]. intros Ha Hf.
  apply (request_run cfd cpending ccredit Hc fuel argv junk (fmt_d (to_signed 32 n)) [] w1 w2 c); try done.
  - by rewrite Ha, reply_text, chars_app.
  - by apply fmt_d_avoids.
  - by apply fmt_d_avoids.
  - pose proof (to_signed_range 32 n ltac:(lia)). pose proof (fmt_d_length (to_signed 32 n)) as F.
    unfold LONG_MIN, LONG_MAX in F. lia.
Qed.
End exchange.

(** ** A concrete network *)

(** The connection in use, and those that wait to be accepted. *)
#[local] Existing Instances ByteIO.script_read ByteIO.script_write ByteIO.script_read_laws.

Record toy := Toy { cur : ByteIO.script; waiting : list ByteIO.script }.

#[export] Instance toy_read : ReadSys toy := λ fd n w,
  let '(r, c) := sys_read fd n w.(cur) in (r, Toy c w.(waiting)).
#[export] Instance toy_write : WriteSys toy := λ fd bs w,
  let '(r, c) := sys_write fd bs w.(cur) in (r, Toy c w.(waiting)).

#[export] Instance toy_socks : SockSys toy := {|
  sys_socket _ _ _ w := (inr 3, w);
  sys_connect_un _ _ _ w := (inr tt, w);
  sys_bind_un _ _ _ w := (inr tt, w);
  sys_connect_in _ _ _ w := (inr tt, w);
  sys_bind_in _ _ _ w := (inr tt, w);
  sys_listen _ _ w := (inr tt, w);
  sys_reuseaddr _ w := (inr tt, w);
  sys_close_sock _ w := (inr tt, w);
  sys_remove _ w := (inr tt, w);
  sys_getaddrinfo _ _ _ w := (inr [Addrinfo 2 1 6 "addr" 16], w);
  sys_getnameinfo _ _ w := (inl EINVAL, w) |}.

#[export] Instance toy_server : ServerSys toy := {|
  sys_sigpipe w := (inr tt, w);
  sys_accept _ w :=
    match w.(waiting) with
    | [] => (inl EINVAL, w)
    | c :: l => (inr (4, ("client", 16)), Toy c l)
    end;
  sys_malloc _ w := (inr tt, w);
  sys_getnameinfo0 _ _ w := (inl EINVAL, w) |}.

Definition pending_cur (w : toy) : bytes := w.(cur).(ByteIO.input).
Definition credit_cur (w : toy) : nat := ByteIO.script_credit w.(cur).

#[export] Instance toy_read_laws fd : ByteIO.ReadLaws toy fd pending_cur credit_cur.
Proof.
  split.
  - intros n [c l] bs w' Hn. unfold sys_read at 1, toy_read. cbn [cur waiting].
    destruct (sys_read fd n c) as [r c'] eqn:E. intros [= -> <-].
    exact (ByteIO.read_data n c bs c' Hn E).
  - intros n [c l] e w'. unfold sys_read at 1, toy_read. cbn [cur waiting].
    destruct (sys_read fd n c) as [r c'] eqn:E. intros [= -> <-].
    exact (ByteIO.read_error n c e c' E).
Qed.

Lemma toy_reliable fd : ByteIO.read_reliable (W := toy) fd.
Proof.
  intros n [c l] e w'. unfold sys_read, toy_read. cbn [cur waiting].
  destruct (sys_read fd n c) as [r c'] eqn:E. intros [= -> <-].
  by apply (ByteIO.script_read_reliable fd n c e c').
Qed.

#[local] Instance toy_libc : Libc := {| strerror _ := "error"; io_errno e := e |}.

Definition line_of (t : string) : bytes := chars t ++ [newline].
Definition blank : bytes := replicate 30 "z"%char.
Definition start_state (w : toy) : pst (list Z) kcall toy := Pst (Proc 0 [] "" "" []) [] [] w.

(** Three clients, one of which asks for a negative length. *)
Definition three_clients : toy :=
  Toy (ByteIO.Script [] [] []) [ByteIO.Script (line_of "3") [] [ByteIO.Interrupt];
    ByteIO.Script (line_of "-4") [] []; ByteIO.Script (line_of "5") [] []].

Example servers_example :
  writes (sv_main 3 20 ["is_seqnum_sv"; "10"] blank (start_state three_clients)).2.(trace) =
    [(4, line_of "10"); (4, line_of "13")] ∧
  writes (v2_sv_main 3 20 ["is_seqnum_sv"; "10"] blank (start_state three_clients)).2.(trace) =
    [(4, line_of "10"); (4, line_of "13")].
Proof. split; vm_compute; reflexivity. Qed.

(** The number is printed as an [int]: a counter above the largest [int] is seen
    as a negative number by the clients. *)
Example large_numbers_negative : reply (to_unsigned 32 (INT_MAX + 1)) = "-2147483648" +:+ nl.
Proof. vm_compute. reflexivity. Qed.

(** What the server exchanges with the three. *)
Definition three_visits : list visit :=
  [Visit 4 2 ("3" +:+ nl); Visit 4 3 ("-4" +:+ nl); Visit 4 2 ("5" +:+ nl)].

Example server_dialog :
  dialog (sv_main 3 20 ["is_seqnum_sv"; "10"] blank (start_state three_clients)).2.(trace) =
    served 3 10 three_visits ∧ grants three_visits = [(4, 3); (4, 5)].
Proof. split; vm_compute; reflexivity. Qed.


(** A length of 3, and a server that has reached 10; the request and the answer
    arrive a byte at a time, with an interruption. *)
Lemma inet_exchange_witness :
  let ticks := [ByteIO.Portion 0; ByteIO.Interrupt] in
  let c := start_state (Toy (ByteIO.Script (line_of "10") [] []) []) in
  let v := start_state (Toy (ByteIO.Script (line_of "3") [] ticks) []) in
  let w1 := Toy (ByteIO.Script (line_of "10") (chars "3") []) [] in
  let w2 := Toy (ByteIO.Script (line_of "10") (line_of "3") []) [] in
  ∃ buf' v' answer, serve 20 4 10 blank v = (Ok (13, buf'), v') ∧
    writes v'.(trace) = [(4, answer)] ∧
    (pending_cur w2 = answer →
     ∃ c', request 20 5 ["cl"; "host"; "3"] blank c = (Halt (HExit EXIT_SUCCESS), c') ∧
       c'.(pr).(delivered) = [(Sout, "Sequence number: 10" +:+ nl)]).
Proof.
  intros ticks c v w1 w2.
  destruct (inet_exchange 4 pending_cur credit_cur 5 pending_cur credit_cur 20 ["cl"; "host"; "3"] 3 10 c v w1 w2
    blank blank) as (buf' & v' & answer & E & Hw & Hc); try done.
  - apply toy_reliable.
  - apply toy_reliable.
  - vm_compute. lia.
  - exists buf', v', answer. split; [exact E|]. split; [exact Hw|]. intros Ha.
    destruct (Hc Ha) as (c' & Ec & _ & D); [vm_compute; lia|]. exists c'. split; [exact Ec|]. exact D.
Defined.
