(* ===== verification/YisSeqnum.v ===== *)
(** The own version of the sequence number programs, [sockets/yis_seqnum_sv.c] and
    [sockets/yis_seqnum_cl.c].

    They are like [is_seqnum_sv.c] and [is_seqnum_cl.c], but read numbers with
    [tryGetInt], keep the sequence number in an [int], and leave out two checks:
    that a length is positive in the server, and that an address could be connected
    to in the client. *)
From S2P Require Import Prelude CLib.
From S2P Require GetNum.
From S2P Require Import ErrorFunctions Proc Args.
From S2P Require ByteIO ReadLine.
From S2P Require Import Sockets InetSeqnum.
Local Open Scope Z_scope.

Import ByteIO (ReadSys, WriteSys, sys_read, sys_write).

(** The values of an [int]. *)
Definition in_int (v : Z) : bool := (INT_MIN <=? v) && (v <=? INT_MAX).

(** [WHOLE_NI_BUF] *)
Definition WHOLE_NI_BUF : nat :=
  Z.to_nat (Z.of_nat (NI_MAXHOST + NI_MAXSERV) / 4096 * 4096 + 4096).

Section programs.
Context {L : Libc} {W : Type} `{!SockSys W, !ReadSys W, !WriteSys W, !ServerSys W}.
(** [gai_strerror], of the C library *)
Context (gai_strerror : Z → string).
Local Abbreviation P := (M (pst (list Z) kcall W)).

(** [tryGetInt], which reports on the standard error stream and returns. *)
Definition p_tryGetInt (arg : option string) (flags : Z) (name : string) (out : option Z) :
    P (GetNum.tgn_t * option Z) :=
  e ← get_errno;
  match GetNum.tryGetInt strerror arg flags (Some name) out (GetNum.NSt e "") with
  | (Ok r, n) =>
      put_errno n.(GetNum.errno);;
      (if decide (n.(GetNum.stderr) = "") then skip else eprintf n.(GetNum.stderr));;
      mret r
  | (Halt h, _) => stop h
  end.

(** [yreadLine(fd, buf, INT_LEN)] in the process. *)
Definition yread_line (fuel : nat) (fd : Z) (buf : bytes) : P (Z * bytes) := λ s,
  let '(r, i) := ReadLine.yreadLine (X := unit) fuel fd false INT_LEN
                   (ByteIO.Io s.(pr).(errno) buf tt s.(world)) in
  let s := Pst (set_errno i.(ByteIO.errno) s.(pr)) s.(vars) s.(trace) i.(ByteIO.world) in
  match r with
  | Ok n => (Ok (n, i.(ByteIO.mem)), s)
  | Halt h => (Halt h, s)
  end.

Definition close_or_die (fd : Z) : P unit :=
  c ← close_checked fd;
  match c with inl _ => p_systmErr "close() failed" | inr _ => skip end.

(** ** The server *)

Definition yreply (seqNum : Z) : string := snprintf (Z.to_nat INT_LEN) (fmt_d seqNum +:+ nl).

(** A connection, from the request on. *)
Definition yserve (fuel : nat) (connfd seqNum : Z) (reqLenStr : bytes) : P (Z * bytes) :=
  r ← yread_line fuel connfd reqLenStr;
  let '(rc, reqLenStr) := r in
  if rc <=? 0 then
    e ← get_errno;
    when (rc <? 0) (eprintf ("yreadLine() failed: " +:+ strerror e +:+ nl));;
    close_or_die connfd;;
    mret (seqNum, reqLenStr)
  else
  r ← p_tryGetInt (Some (c_string reqLenStr)) GetNum.TGN_IGN_TRAILWS "int-req-num" (Some 0);
  match r with
  | (GetNum.TGN_SUCCESS, Some reqLen) =>
      bad ← write_fails connfd (yreply seqNum);
      e ← get_errno;
      when bad (if e =? EPIPE then eprintf ("Client quit prematurely: " +:+ strerror e +:+ nl)
                else eprintf ("partial/failed write()" +:+ nl));;
      if in_int (seqNum + reqLen) then
        close_or_die connfd;;
        mret (seqNum + reqLen, reqLenStr)
      else stop HUndef                       (* [seqNum += reqLen] *)
  | _ =>
      close_or_die connfd;;
      mret (seqNum, reqLenStr)
  end.

Definition ydescribe (addr : string) (addrlen : Z) : P string :=
  r ← call KGetnameinfo (λ w, let '(r, w) := sys_getnameinfo0 addr addrlen w in (inr r, w));
  match r with
  | inr (inr (host, service)) =>
      mret (snprintf WHOLE_NI_BUF ("(" +:+ host +:+ ", " +:+ service +:+ ")"))
  | _ =>
      e ← get_errno;
      mret (snprintf WHOLE_NI_BUF ("[?UNKNOWN?] getnameinfo() failed: " +:+ gai_strerror e))
  end.

Definition yserver_body (fuel : nat) (lisnfd : Z) (st : Z * bytes) : P (Z * bytes + unit) :=
  let '(seqNum, reqLenStr) := st in
  a ← accept lisnfd;
  match a with
  | inl _ => p_systmWrn "accept() failed";; mret (inl st)
  | inr (connfd, (claddr, addrlen)) =>
      t ← ydescribe claddr addrlen;
      printf ("Yis_SV: Connection from: " +:+ t +:+ nl);;
      st ← yserve fuel connfd seqNum reqLenStr;
      mret (inl st)
  end.

Fixpoint ybind_any (l : list addrinfo) : P (option Z) :=
  match l with
  | [] => mret None
  | ptr :: l =>
      o ← socket (ai_family ptr) (ai_socktype ptr) (ai_protocol ptr);
      match o with
      | inl _ => ybind_any l
      | inr lisnfd =>
          opt ← call (KReuseaddr lisnfd) (sys_reuseaddr lisnfd);
          match opt with
          | inl _ => p_systmErr "setsockopt() failed"
          | inr _ =>
              b ← call (KBindIn lisnfd (ai_addr ptr) (ai_addrlen ptr))
                    (sys_bind_in lisnfd (ai_addr ptr) (ai_addrlen ptr));
              match b with
              | inr _ => mret (Some lisnfd)
              | inl _ => close_or_die lisnfd;; ybind_any l
              end
          end
      end
  end.

Definition yinit_seqnum (argv : list string) : P Z :=
  match argv with
  | _ :: a :: _ => p_getInt (Some a) 0 "init-seq-num"
  | _ => mret 0
  end.

(** The server from the first number on. *)
Definition yserve_from (turns fuel : nat) (junk : bytes) (seqNum : Z) : P unit :=
  r ← call KSigpipe sys_sigpipe;
  (match r with inl _ => p_systmErr "signal() failed" | inr _ => skip end);;
  r ← getaddrinfo None PORT_NUM (Hints AF_UNSPEC SOCK_STREAM (Z.lor AI_PASSIVE AI_NUMERICSERV));
  match r with
  | inl _ => e ← get_errno; eprintf ("getaddrinfo() failed: " +:+ gai_strerror e +:+ nl);; p_exit EXIT_FAILURE
  | inr aiResult =>
      b ← ybind_any aiResult;
      match b with
      | None => p_systmErr "Could not find any address"
      | Some lisnfd =>
          l ← call (KListen lisnfd BACKLOG) (sys_listen lisnfd BACKLOG);
          match l with
          | inl _ => p_systmErr "listen() failed"
          | inr _ => loop turns (yserver_body fuel lisnfd) (seqNum, junk)
          end
      end
  end.
Definition yis_sv_main (turns fuel : nat) (argv : list string) (junk : bytes) : P unit :=
  if wants_help argv then p_usageErr (default "" (head argv) +:+ " [init-seq-num]" +:+ nl) else
  seqNum ← yinit_seqnum argv;
  yserve_from turns fuel junk seqNum.

(** ** The client *)

(** The loop over the addresses: what [sofd] is after it, [None] while nothing was
    assigned to it. *)
Fixpoint connect_walk (l : list addrinfo) (sofd : option Z) : P (option Z) :=
  match l with
  | [] => mret sofd
  | pt :: l =>
      o ← socket (ai_family pt) (ai_socktype pt) (ai_protocol pt);
      match o with
      | inl _ => connect_walk l (Some (-1))
      | inr fd =>
          c ← call (KConnectIn fd (ai_addr pt) (ai_addrlen pt))
                (sys_connect_in fd (ai_addr pt) (ai_addrlen pt));
          match c with
          | inr _ => mret (Some fd)
          | inl _ => close_or_die fd;; connect_walk l (Some fd)
          end
      end
  end.

(** From the request on; [strlen] of a null pointer is undefined. *)
Definition yrequest (fuel : nat) (sofd : Z) (argv : list string) (junk : bytes) : P unit :=
  reqNumStr ← (match argv !! 2%nat with
               | Some a =>
                   r ← p_tryGetInt (Some a) GetNum.GN_GT_0 "req-num-str" None;
                   mret (match r.1 with GetNum.TGN_SUCCESS => Some a | GetNum.TGN_FAILURE => None end)
               | None => mret (Some "1")
               end);
  match reqNumStr with
  | None => stop HUndef
  | Some reqNumStr =>
      bad ← write_fails sofd reqNumStr;
      if bad : bool then p_custmErr ("partial/failed wrote() " +:+ String dquote ("req-num-str" +:+ String dquote "")) else
      bad ← write_fails sofd nl;
      if bad : bool then p_custmErr "partial/failed wrote() newline" else
      r ← yread_line fuel sofd junk;
      let '(numRead, seqNumStr) := r in
      if numRead <? 0 then p_systmErr "yreadLine() failed" else
      if numRead =? 0 then p_custmErr "Unexpected EOF from server" else
      printf ("Sequence length: " +:+ c_string (take (Z.to_nat numRead) seqNumStr));;
      p_exit EXIT_SUCCESS
  end.

Definition yis_cl_main (fuel : nat) (argv : list string) (junk : bytes) : P unit :=
  if (length argv <? 2)%nat || wants_help argv
  then p_usageErr (default "" (head argv) +:+ " <peer-host-name> [request-number]" +:+ nl) else
  r ← getaddrinfo (argv !! 1%nat) PORT_NUM (Hints AF_UNSPEC SOCK_STREAM AI_NUMERICSERV);
  match r with
  | inl _ => p_systmErr "getaddrinfo() failed"
  | inr niResult =>
      o ← connect_walk niResult None;
      match o with
      | None => stop HUndef
      | Some sofd => yrequest fuel sofd argv junk
      end
  end.
End programs.

(** ** The numbers handed out *)

(** The requests that were answered, as connections and lengths: the number they
    lead to, and what was sent.  Nothing wraps around. *)
Fixpoint total (n : Z) (l : list (Z * Z)) : Z :=
  match l with [] => n | (_, len) :: l => total (n + len) l end.
Fixpoint given (n : Z) (l : list (Z * Z)) : list (Z * bytes) :=
  match l with
  | [] => []
  | (fd, len) :: l => (fd, chars (yreply n)) :: given (n + len) l
  end.
Fixpoint begins (n : Z) (l : list (Z * Z)) : list Z :=
  match l with [] => [] | (_, len) :: l => n :: begins (n + len) l end.

Lemma ytotal_app n l l' : total n (l ++ l') = total (total n l) l'.
Proof. revert n. induction l as [|[fd len] l IH]; intros n; [done|]. apply IH. Qed.
Lemma given_app n l l' : given n (l ++ l') = given n l ++ given (total n l) l'.
Proof. revert n. induction l as [|[fd len] l IH]; intros n; [done|]. simpl. by rewrite IH. Qed.

(** The sequences do not overlap where every length asked for is positive. *)
Lemma begins_bound n l i a : Forall (λ g, 0 < g.2) l → begins n l !! i = Some a → n <= a.
Proof.
  intros HF. revert n i. induction HF as [|[fd len] l Hlen HF IH]; intros n [|i]; simpl in *; [done..|intros; simplify_eq; lia|].
  intros Ha. apply IH in Ha. lia.
Qed.
Lemma begins_disjoint n l i j a b fd len :
  Forall (λ g, 0 < g.2) l → (i < j)%nat →
  begins n l !! i = Some a → l !! i = Some (fd, len) → begins n l !! j = Some b → a + len <= b.
Proof.
  intros HF. revert n i j. induction HF as [|[fd' len'] l Hlen HF IH]; intros n i j Hij; [done|].
  destruct j as [|j]; [lia|]. simpl. destruct i as [|i]; simpl; intros Ha Hi Hb; simplify_eq.
  - by apply begins_bound in Hb.
  - eapply (IH (n + len')); [|done..]. lia.
Qed.

Section servers.
Context {L : Libc} {W : Type} `{!SockSys W, !ReadSys W, !WriteSys W, !ServerSys W}.
Context (gai_strerror : Z → string).
Local Abbreviation st := (pst (list Z) kcall W).
Local Abbreviation P := (M st).

(** A server's computation from the number [n] on. *)
Definition yhands {A} (n : Z) (m : P A) (next : A → Z) : Prop := ∀ s, ∃ l,
  writes (m s).2.(trace) = writes s.(trace) ++ given n l ∧
  ∀ x, (m s).1 = Ok x → next x = total n l.

Lemma yhands_quiet {A} n (m : P A) next :
  quiet m → (∀ s x, (m s).1 = Ok x → next x = n) → yhands n m next.
Proof. intros Hq Hn s. exists []. split; [by rewrite Hq, app_nil_r|]. intros x Hx. by eapply Hn. Qed.
Lemma yhands_bind {A B} n (m : P A) (k : A → P B) next :
  quiet m → (∀ a, yhands n (k a) next) → yhands n (m ≫= k) next.
Proof.
  intros Hm Hk s. specialize (Hm s). unfold mbind, M_bind. destruct (m s) as [[a|h] s']; simpl in Hm.
  - destruct (Hk a s') as (l & H1 & H2). exists l. by rewrite <- Hm.
  - exists []. by rewrite app_nil_r.
Qed.
Lemma yhands_ret {A} n (x : A) next : next x = n → yhands n (mret x) next.
Proof. intros Hx. apply yhands_quiet; [done|]. by intros s y [= <-]. Qed.

Lemma quiet_yread_line fuel fd buf : quiet (W := W) (yread_line fuel fd buf).
Proof.
  intros s. unfold yread_line. by destruct (ReadLine.yreadLine _ _ _ _ _) as [[n|h] i].
Qed.
Lemma quiet_tryGetInt arg flags name out : quiet (W := W) (p_tryGetInt arg flags name out).
Proof.
  intros s. unfold p_tryGetInt, mbind, M_bind, get_errno, gets.
  destruct (GetNum.tryGetInt _ _ _ _ _ _) as [[r|h] n]; [|done]. by case_decide.
Qed.
Lemma quiet_close_or_die fd : quiet (W := W) (close_or_die fd).
Proof. apply quiet_emits. unfold close_or_die, close_checked. emits. Qed.

Lemma quiet_eprintf t : quiet (W := W) (eprintf t).
Proof. apply quiet_emits, emits_eprintf. Qed.

Lemma yhands_serve fuel fd n buf : yhands (A := Z * bytes) n (yserve fuel fd n buf) fst.
Proof.
  apply yhands_bind; [apply quiet_yread_line|]. intros [rc buf'].
  assert (Hclose : yhands n (close_or_die fd;; mret (n, buf')) fst).
  { apply yhands_bind; [apply quiet_close_or_die|]. intros _. by apply yhands_ret. }
  destruct (rc <=? 0).
  { apply yhands_bind; [done|]. intros e. apply yhands_bind; [|done].
    destruct (rc <? 0); [apply quiet_eprintf|done]. }
  apply yhands_bind; [apply quiet_tryGetInt|]. intros [[|] [len|]]; try done.
  intros s. exists [(fd, len)].
  destruct (write_fails_run fd (yreply n) s) as (bad & s1 & E1 & T1 & _). rewrite (run_bind _ _ _ _ _ E1).
  match goal with |- context [snd (?k s1)] =>
    assert (Hq : quiet k ∧ returns (λ x, x.1 = n + len) k) end.
  { split.
    - apply quiet_bind; [done|]. intros e. apply quiet_bind.
      { destruct bad; [|done]. destruct (e =? EPIPE); apply quiet_eprintf. }
      intros _. destruct (in_int (n + len)); [|done].
      apply quiet_bind; [apply quiet_close_or_die|done].
    - do 2 (apply returns_bind; intros ?). destruct (in_int (n + len)); [|by intros ? ? ?].
      apply returns_bind. intros ?. by apply returns_ret. }
  destruct Hq as [Hq Hr]. split.
  - by rewrite Hq, T1, writes_app.
  - intros x Ex. match type of Ex with (?m s1).1 = _ => destruct (m s1) as [r s2] eqn:Ek end.
    simpl in Ex. subst r. by eapply Hr.
Qed.

Lemma yhands_body fuel lfd x :
  yhands x.1 (yserver_body gai_strerror fuel lfd x) (λ r, match r with inl x' => x'.1 | inr _ => x.1 end).
Proof.
  destruct x as [n buf]. unfold yserver_body. apply yhands_bind; [apply quiet_accept|].
  intros [e|[cfd [addr len]]].
  { apply yhands_bind; [by apply quiet_emits; emits|]. intros _. by apply yhands_ret. }
  apply yhands_bind; [apply quiet_emits; unfold ydescribe; emits|]. intros t.
  apply yhands_bind; [by apply quiet_emits; emits|]. intros _ s.
  destruct (yhands_serve fuel cfd n buf s) as (l & H1 & H2). exists l.
  unfold mbind, M_bind. destruct (yserve fuel cfd n buf s) as [[y|h] s']; simpl in *; [|done].
  split; [done|]. intros r [= <-]. by apply H2.
Qed.

Lemma yhands_loop turns fuel lfd x s : ∃ l,
  writes (loop turns (yserver_body gai_strerror fuel lfd) x s).2.(trace) = writes s.(trace) ++ given x.1 l.
Proof.
  induction turns as [|turns IH] in x, s |- *; [exists []; by rewrite app_nil_r|].
  rewrite loop_S. unfold mbind, M_bind. destruct (yhands_body fuel lfd x s) as (l & H1 & H2).
  destruct (yserver_body _ fuel lfd x s) as [[[x'|u]|h] s']; [|by exists l..].
  destruct (IH x' s') as (l' & H'). exists (l ++ l'). specialize (H2 _ eq_refl). simpl in H1, H2.
  by rewrite H', H1, <- app_assoc, given_app, H2.
Qed.

(** The number the server starts with. *)
Definition first_number (argv : list string) (n : Z) : Prop :=
  match argv with _ :: a :: _ => int_arg 0 (Some a) n | _ => n = 0 end.

Definition ysequenced (argv : list string) (m : P unit) : Prop := ∀ s, ∃ n l,
  (l = [] ∨ first_number argv n) ∧
  writes (m s).2.(trace) = writes s.(trace) ++ given n l.

Lemma ysequenced_quiet argv m : quiet m → ysequenced argv m.
Proof. intros Hq s. exists 0, []. split; [by left|by rewrite Hq, app_nil_r]. Qed.
Lemma ysequenced_bind {A} argv (m : P A) k :
  quiet m → (∀ a, ysequenced argv (k a)) → ysequenced argv (m ≫= k).
Proof.
  intros Hm Hk s. specialize (Hm s). unfold mbind, M_bind. destruct (m s) as [[a|h] s']; simpl in Hm.
  - destruct (Hk a s') as (n & l & H). exists n, l. by rewrite <- Hm.
  - exists 0, []. split; [by left|by rewrite app_nil_r].
Qed.

Lemma quiet_ybind_any l : quiet (W := W) (ybind_any l).
Proof.
  induction l as [|rp l IH]; cbn [ybind_any]; [done|].
  apply quiet_bind; [apply quiet_emits; unfold socket; emits|]. intros [e|fd]; [done|].
  apply quiet_bind; [by apply quiet_emits; emits|]. intros [e|[]]; [by apply quiet_emits; emits|].
  apply quiet_bind; [by apply quiet_emits; emits|]. intros [e|[]]; [|done].
  apply quiet_bind; [apply quiet_close_or_die|done].
Qed.

Lemma ysequenced_from turns fuel junk argv n :
  first_number argv n → ysequenced argv (yserve_from gai_strerror turns fuel junk n).
Proof.
  intros Hn. apply ysequenced_bind; [by apply quiet_emits; emits|]. intros r.
  apply ysequenced_bind; [destruct r; by apply quiet_emits; emits|]. intros _.
  apply ysequenced_bind; [apply quiet_getaddrinfo|].
  intros [e|result]; [by apply ysequenced_quiet, quiet_emits; emits|].
  apply ysequenced_bind; [apply quiet_ybind_any|].
  intros [lfd|]; [|by apply ysequenced_quiet, quiet_emits; emits].
  apply ysequenced_bind; [by apply quiet_emits; emits|].
  intros [e|[]]; [by apply ysequenced_quiet, quiet_emits; emits|].
  intros s1. destruct (yhands_loop turns fuel lfd (n, junk) s1) as (l & Hl). exists n, l. by split; [right|].
Qed.

(** Whatever clients send and whichever calls fail, the server gives the running
    sums of the lengths asked for, from the number on the command line on; and
    while they are all positive, no two of the sequences overlap. *)
Lemma yis_sequences turns fuel argv junk (s : st) :
  ∃ n l, (l = [] ∨ first_number argv n) ∧
    writes (yis_sv_main gai_strerror turns fuel argv junk s).2.(trace) = writes s.(trace) ++ given n l ∧
    (Forall (λ g, 0 < g.2) l → ∀ i j a b fd len, (i < j)%nat →
       begins n l !! i = Some a → l !! i = Some (fd, len) → begins n l !! j = Some b → a + len <= b).
Proof.
  assert (Hm : ysequenced argv (yis_sv_main gai_strerror turns fuel argv junk)).
  { unfold yis_sv_main. destruct (wants_help argv); [by apply ysequenced_quiet, quiet_emits; emits|].
    intros s1. unfold yinit_seqnum. destruct argv as [|p [|a argv]]; [by apply ysequenced_from..|].
    destruct (p_getInt_run (Some a) 0 "init-seq-num" s1) as [(v & s2 & E & Hv & Hs)|(s2 & E & _ & Hs)];
      unfold mbind, M_bind; rewrite E; destruct Hs as (_ & T & _).
    - destruct (ysequenced_from turns fuel junk (p :: a :: argv) v Hv s2) as (n & l & H). exists n, l. by rewrite T in H.
    - exists 0, []. simpl. rewrite T. split; [by left|by rewrite app_nil_r]. }
  destruct (Hm s) as (n & l & Hn & Hw). exists n, l. split_and!; [done..|].
  intros HF i j a b fd len Hij. by apply begins_disjoint.
Qed.

(** A length that [tryGetInt] does not take leaves the client undefined, with the
    report of [tryGetInt] on its standard error stream. *)
Lemma yrequest_bad_length fuel sofd argv junk a (s : st) :
  argv !! 2%nat = Some a →
  (∃ n', GetNum.tryGetInt strerror (Some a) GetNum.GN_GT_0 (Some "req-num-str") None
     (GetNum.NSt s.(pr).(errno) "") = (Ok (GetNum.TGN_FAILURE, None), n')) →
  (yrequest fuel sofd argv junk s).1 = Halt HUndef.
Proof.
  intros Ha [n' E]. unfold yrequest. rewrite Ha. unfold p_tryGetInt, mbind, M_bind, get_errno, gets.
  rewrite E. by case_decide.
Qed.
End servers.

(** ** Examples *)

Definition no_text (_ : Z) : string := "".
#[local] Instance yis_libc : Libc := {| strerror _ := "error"; io_errno e := e |}.

(** The second client asks for a length of -4: the number that the third is given,
    9 of five, lies in what the first one has, 10 of three. *)
Example yis_negative_length :
  writes (yis_sv_main no_text 3 20 ["yis_seqnum_sv"; "10"] blank (start_state three_clients)).2.(trace) =
    [(4, line_of "10"); (4, line_of "13"); (4, line_of "9")].
Proof. vm_compute. reflexivity. Qed.

(** A client with no address that works goes on and writes to a descriptor that is
    closed, or is -1; with no address at all, to one that was never set. *)
Example yis_client_unconnected :
  (connect_walk (W := toy) [] None (start_state three_clients)).1 = Ok None ∧
  (yrequest (W := toy) 20 3 ["yis_seqnum_cl"; "host"; "none"] blank (start_state three_clients)).1 = Halt HUndef.
Proof. split; vm_compute; reflexivity. Qed.

(** One step more than the largest [int] is undefined. *)
Example yis_overflow :
  (yis_sv_main no_text 3 20 ["yis_seqnum_sv"; "2147483647"] blank (start_state three_clients)).1 = Halt HUndef.
Proof. vm_compute. reflexivity. Qed.
