(* ===== verification/Transfer.v ===== *)
(** Programs that copy a stream: [sockets/us_xfr_sv.c] and [us_xfr_cl.c], their
    second versions, [yus_xfr_sv.c] and [yus_xfr_cl.c], those of the exercises
    57-2 and 59-3 ([exr5702_*.c], [exr5903_us_xfr_*.c], [exr5903_a_us_xfr_*.c]),
    and the echo programs [is_echo_sv.c],
    [is_echo_v2_sv.c], [is_echo_inetd_sv.c] and [is_echo_cl.c].

    All of them read a piece from one descriptor and write it whole to another,
    until the end of the input.  This loop is proved once, against what is
    pending on the one descriptor and what the other has accepted. *)
From S2P Require Import Prelude CLib ErrorFunctions Proc Args.
From S2P Require ByteIO.
From S2P Require Import Sockets InetSeqnum.
Local Open Scope Z_scope.

Import ByteIO (ReadSys, WriteSys, sys_read, sys_write).

Definition STDIN_FILENO : Z := 0.
Definition STDOUT_FILENO : Z := 1.

(** What the echo programs use beyond that: [becomeDaemon], the handler of
    [SIGCHLD], [fork] and [shutdown]. *)
Class EchoSys (W : Type) := {
  sys_daemon : W → (Z + unit) * W;
  sys_sigaction : W → (Z + unit) * W;
  sys_fork : W → (Z + Z) * W;
  sys_shutdown : Z → W → (Z + unit) * W
}.

Section copying.
Context {L : Libc} {W : Type} `{!ReadSys W, !WriteSys W}.
Local Abbreviation P := (M (pst (list Z) kcall W)).

Definition read (fd : Z) (n : nat) : P (Z + bytes) := call (KRead fd) (sys_read fd n).
Definition write (fd : Z) (bs : bytes) : P (Z + nat) := call (KWrite fd bs) (sys_write fd bs).

(** [while ((numRead = read(rfd, buf, size)) > 0) if (write(wfd, buf, numRead) !=
    numRead) fail]: the last value of [numRead], 0 or -1. *)
Definition copy_body (rfd wfd : Z) (size : nat) (fail : P (unit + Z)) (_ : unit) : P (unit + Z) :=
  r ← read rfd size;
  match r with
  | inl _ => mret (inr (-1))
  | inr [] => mret (inr 0)
  | inr buf =>
      k ← write wfd buf;
      if match k with inl _ => true | inr k => negb (k =? length buf)%nat end then fail else mret (inl tt)
  end.
Definition copy (fuel : nat) (rfd wfd : Z) (size : nat) (fail : P (unit + Z)) : P Z :=
  loop fuel (copy_body rfd wfd size fail) tt.
End copying.

(** ** Stream transfer over UNIX sockets *)

(** The programs do the same over and over; what differs is the text of their
    reports, whether a failing [close] ends them, the size of the buffer and how
    the socket is made. *)
Record texts := Texts {
  t_call : string → string;       (* a call that failed *)
  t_remove : string → string;     (* [remove] of the path *)
  t_write : string;
  t_close : bool                  (* a failing [close] is fatal *)
}.

Section xfr.
Context {L : Libc} {W : Type} `{!SockSys W, !ReadSys W, !WriteSys W, !ServerSys W}.
Local Abbreviation P := (M (pst (list Z) kcall W)).
Context (T : texts) (size : nat).

(** A connection of a server. *)
Definition server_turn (fuel : nat) (sfd : Z) (_ : unit) : P (unit + unit) :=
  a ← accept sfd;
  match a with
  | inl _ => p_systmErr (T.(t_call) "accept")
  | inr (cfd, _) =>
      numRead ← copy fuel cfd STDOUT_FILENO size (p_custmErr T.(t_write));
      (if numRead =? -1 then p_systmErr (T.(t_call) "read") else skip);;
      c ← close_checked cfd;
      (match c with
       | inl _ => if T.(t_close) then p_systmErr (T.(t_call) "close") else p_systmWrn (T.(t_call) "close")
       | inr _ => skip
       end);;
      mret (inl tt)
  end.

(** The server with its socket bound: [listen], and the loop over connections. *)
Definition listen_loop (turns fuel : nat) (sfd : Z) : P unit :=
  l ← call (KListen sfd 5) (sys_listen sfd 5);
  match l with
  | inl _ => p_systmErr (T.(t_call) "listen")
  | inr _ => loop turns (server_turn fuel sfd) tt
  end.

(** A client, from the connection on. *)
Definition send_input (fuel : nat) (sfd : Z) : P unit :=
  numRead ← copy fuel STDIN_FILENO sfd size (p_custmErr T.(t_write));
  if numRead =? -1 then p_systmErr (T.(t_call) "read") else p_exit EXIT_SUCCESS.

(** The structure set to zero, the family, and [strncpy] of the name: from the
    first byte of [sun_path] for a path, from the second one in the abstract
    namespace. *)
Definition path_address (path : string) : option sockaddr_un :=
  SockaddrUn AF_UNIX <$> strncpy_at 0 (SUN_PATH_SIZE - 1) path (sun_path zero_un).
Definition abstract_address (name : string) : option sockaddr_un :=
  SockaddrUn AF_UNIX <$> strncpy_at 1 (SUN_PATH_SIZE - 2) name (sun_path zero_un).

Definition bind_listen (turns fuel : nat) (sfd : Z) (addr : sockaddr_un) (len : Z) : P unit :=
  b ← call (KBindUn sfd addr len) (sys_bind_un sfd addr len);
  match b with
  | inl _ => p_systmErr (T.(t_call) "bind")
  | inr _ => listen_loop turns fuel sfd
  end.
Definition connect_send (fuel : nat) (sfd : Z) (addr : sockaddr_un) (len : Z) : P unit :=
  c ← call (KConnectUn sfd addr len) (sys_connect_un sfd addr len);
  match c with
  | inl _ => p_systmErr (T.(t_call) "connect")
  | inr _ => send_input fuel sfd
  end.

(** A server on a path, and the client of it. *)
Definition path_server (path : string) (turns fuel : nat) : P unit :=
  o ← socket AF_UNIX SOCK_STREAM 0;
  match o with
  | inl _ => p_systmErr (T.(t_call) "socket")
  | inr sfd =>
      if (SUN_PATH_SIZE - 1 <? String.length path)%nat
      then p_custmErr ("Server socket path too long: " +:+ path) else
      d ← call (KRemove path) (sys_remove path);
      e ← get_errno;
      (if match d with inl _ => negb (e =? ENOENT) | inr _ => false end
       then p_systmErr (T.(t_remove) path) else skip);;
      match path_address path with
      | None => stop HUndef
      | Some addr => bind_listen turns fuel sfd addr (SUN_LEN addr)
      end
  end.
Definition path_client (path : string) (fuel : nat) : P unit :=
  o ← socket AF_UNIX SOCK_STREAM 0;
  match o with
  | inl _ => p_systmErr (T.(t_call) "socket")
  | inr sfd =>
      match path_address path with
      | None => stop HUndef
      | Some addr => connect_send fuel sfd addr (SUN_LEN addr)
      end
  end.

(** The same in the abstract namespace. *)
Definition abstract_server (name : string) (turns fuel : nat) : P unit :=
  o ← socket AF_UNIX SOCK_STREAM 0;
  match o with
  | inl _ => p_systmErr (T.(t_call) "socket")
  | inr sfd =>
      match abstract_address name with
      | None => stop HUndef
      | Some addr => bind_listen turns fuel sfd addr (abstract_len (Some name))
      end
  end.
Definition abstract_client (name : string) (fuel : nat) : P unit :=
  o ← socket AF_UNIX SOCK_STREAM 0;
  match o with
  | inl _ => p_systmErr (T.(t_call) "socket")
  | inr sfd =>
      match abstract_address name with
      | None => stop HUndef
      | Some addr => connect_send fuel sfd addr (abstract_len (Some name))
      end
  end.

(** With a function of the socket library, [made] its result. *)
Definition library_server (made : P Z) (failed : string) (turns fuel : nat) : P unit :=
  sfd ← made;
  if sfd =? -1 then p_systmErr failed else listen_loop turns fuel sfd.
Definition library_client (made : P Z) (failed : string) (fuel : nat) : P unit :=
  sfd ← made;
  if sfd =? -1 then p_systmErr failed else send_input fuel sfd.
End xfr.

(** The reports of the programs as the book has them, and in the exercises. *)
Definition plain : texts := Texts id (λ p, "remove-" +:+ p) "partial/failed write" false.
Definition named : texts :=
  Texts (λ c, c +:+ "() failed") (λ p, "remove(" +:+ String dquote (p +:+ String dquote ") failed"))
    "partial/failed write()" true.

Module us_xfr.
Definition SV_SOCK_PATH : string := "/tmp/us_xfr".
Definition BUF_SIZE : nat := 100.
Definition SV_SOCK_PATH_v2 : string := "us_xfr_v2".
Definition BUFSIZ : nat := Z.to_nat 8192.

Section programs.
Context {L : Libc} {W : Type} `{!SockSys W, !ReadSys W, !WriteSys W, !ServerSys W}.
Local Abbreviation P := (M (pst (list Z) kcall W)).

(** [us_xfr_sv.c], [us_xfr_cl.c]; [us_xfr_v2_sv.c], [us_xfr_v2_cl.c] *)
Definition sv_main : nat → nat → P unit := path_server plain BUF_SIZE SV_SOCK_PATH.
Definition cl_main : nat → P unit := path_client plain BUF_SIZE SV_SOCK_PATH.
Definition v2_sv_main : nat → nat → P unit :=
  library_server plain BUF_SIZE (unixBind (Some SV_SOCK_PATH_v2) SOCK_STREAM) "unixBind".
Definition v2_cl_main : nat → P unit :=
  library_client plain BUF_SIZE (unixConnect (Some SV_SOCK_PATH_v2) SOCK_STREAM) "unixConnect".

(** [yus_xfr_sv.c], [yus_xfr_cl.c] *)
Definition y_sv_main : nat → nat → P unit := path_server named BUFSIZ SV_SOCK_PATH.
Definition y_cl_main : nat → P unit := path_client named BUFSIZ SV_SOCK_PATH.

(** [exr5702_sv.c], [exr5702_cl.c] *)
Definition exr5702_sv_main : nat → nat → P unit := abstract_server named BUF_SIZE SV_SOCK_PATH.
Definition exr5702_cl_main : nat → P unit := abstract_client named BUF_SIZE SV_SOCK_PATH.

(** [exr5903_us_xfr_sv.c], [exr5903_us_xfr_cl.c], and in the abstract namespace
    [exr5903_a_us_xfr_sv.c], [exr5903_a_us_xfr_cl.c] *)
Definition exr5903_sv_main : nat → nat → P unit :=
  library_server plain BUF_SIZE (yunixbind (Some SV_SOCK_PATH) true SOCK_STREAM) "yunixbind() failed".
Definition exr5903_cl_main : nat → P unit :=
  library_client plain BUF_SIZE (yunixconnect (Some SV_SOCK_PATH) true SOCK_STREAM) "yunixconnect() failed".
Definition exr5903_a_sv_main : nat → nat → P unit :=
  library_server named BUF_SIZE (yunixAbind (Some SV_SOCK_PATH) true SOCK_STREAM) "yunixAbind() failed".
Definition exr5903_a_cl_main : nat → P unit :=
  library_client named BUF_SIZE (yunixAconnect (Some SV_SOCK_PATH) true SOCK_STREAM) "yunixAconnect() failed".
End programs.
End us_xfr.

(** ** The echo service *)

Module is_echo.
Definition SERVICE : string := "echo".
Definition BUF_SIZE : nat := Z.to_nat 4096.
Definition CL_BUF_SIZE : nat := 100.

Section programs.
Context {L : Libc} {W : Type} `{!SockSys W, !ReadSys W, !WriteSys W, !ServerSys W, !EchoSys W}.
Local Abbreviation P := (M (pst (list Z) kcall W)).

(** [syslog(LOG_ERR, "...%s...", strerror(errno))], and with [exit(EXIT_FAILURE)]. *)
Definition syslog (f : string → string) : P unit :=
  e ← get_errno;
  r ← call (KSyslog (f (strerror e))) (λ w, (inr tt, w));
  skip.
Definition log_exit {A} (f : string → string) : P A := syslog f;; p_exit EXIT_FAILURE.

(** [handleRequest], the same in both servers; and the body of the [inetd]
    version, where the two descriptors differ. *)
Definition echo (fuel : nat) (rfd wfd : Z) : P unit :=
  numRead ← copy fuel rfd wfd BUF_SIZE (log_exit (λ e, "write() failed: " +:+ e));
  if numRead =? -1 then log_exit (λ e, "Error from read(): " +:+ e) else skip.
Definition handleRequest (fuel : nat) (cfd : Z) : P unit := echo fuel cfd cfd.

(** [is_echo_inetd_sv.c] *)
Definition inetd_main (fuel : nat) : P unit := echo fuel STDIN_FILENO STDOUT_FILENO;; p_exit EXIT_SUCCESS.

(** The loop over connections; a child ends with [stop_child]. *)
Definition server_body (fuel : nat) (accept_fails stop_child : P (unit + unit)) (lfd : Z) (_ : unit) :
    P (unit + unit) :=
  a ← accept lfd;
  match a with
  | inl _ => accept_fails
  | inr (cfd, _) =>
      f ← call KFork sys_fork;
      match f with
      | inl _ => syslog (λ e, "Can't create child (" +:+ e +:+ ")");; close cfd;; mret (inl tt)
      | inr pid =>
          if pid =? 0 then close lfd;; handleRequest fuel cfd;; stop_child
          else close cfd;; mret (inl tt)
      end
  end.

(** Up to the listening socket. *)
Definition start_server : P Z :=
  d ← call KDaemon sys_daemon;
  (match d with inl _ => p_systmErr "becomeDaemon" | inr _ => skip end);;
  r ← call KSigaction sys_sigaction;
  (match r with inl _ => log_exit (λ e, "Error from sigaction(): " +:+ e) | inr _ => skip end);;
  l ← inetListen SERVICE 10 false;
  if l.1 =? -1 then log_exit (λ e, "Could not create server socket (" +:+ e +:+ ")") else mret l.1.

Definition sv_main (turns fuel : nat) : P unit :=
  lfd ← start_server;
  loop turns (server_body fuel (log_exit (λ e, "Failure in accept(): " +:+ e)) (stop (HExitNow EXIT_SUCCESS)) lfd) tt.

Definition v2_sv_main (turns fuel : nat) (argv : list string) : P unit :=
  match argv with
  | _ :: "-i" :: _ => handleRequest fuel STDIN_FILENO;; p_exit EXIT_SUCCESS
  | _ =>
      lfd ← start_server;
      loop turns (server_body fuel (syslog (λ e, "Failure in accept(): " +:+ e);; mret (inl tt))
                    (p_exit EXIT_SUCCESS) lfd) tt
  end.

(** *** [is_echo_cl.c] *)

(** The child shows what the server sends. *)
Definition show_body (sfd : Z) (_ : unit) : P (unit + unit) :=
  r ← read sfd CL_BUF_SIZE;
  match r with
  | inl _ | inr [] => mret (inr tt)
  | inr buf => printf (c_string buf);; mret (inl tt)
  end.

(** The parent sends what it reads. *)
Definition client_send (fuel : nat) (sfd : Z) : P unit :=
  copy fuel STDIN_FILENO sfd CL_BUF_SIZE (p_custmErr "write() failed");;
  s ← call (KShutdown sfd) (sys_shutdown sfd);
  match s with inl _ => p_systmErr "shutdown" | inr _ => p_exit EXIT_SUCCESS end.

Definition cl_main (fuel : nat) (argv : list string) : P unit :=
  if negb (length argv =? 2)%nat || wants_help argv
  then p_usageErr (default "" (head argv) +:+ " host" +:+ nl) else
  sfd ← inetConnect (argv !! 1%nat) SERVICE SOCK_STREAM;
  if sfd =? -1 then p_systmErr "inetConnect" else
  f ← call KFork sys_fork;
  match f with
  | inl _ => p_systmErr "fork"
  | inr pid => if pid =? 0 then loop fuel (show_body sfd) tt;; p_exit EXIT_SUCCESS else client_send fuel sfd
  end.
End programs.
End is_echo.

(** ** The loop *)

(** What is promised of the two descriptors: [pending] is what is left to read of
    the one, [sent] what the other has accepted. *)
Class ChannelLaws (W : Type) `{!ReadSys W, !WriteSys W} (rfd wfd : Z) (pending sent : W → bytes) : Prop := {
  chan_read n w bs w' : (0 < n)%nat → sys_read rfd n w = (inr bs, w') →
    pending w = bs ++ pending w' ∧ (bs = [] → pending w = []) ∧ sent w' = sent w;
  chan_read_error n w e w' : sys_read rfd n w = (inl e, w') → pending w' = pending w ∧ sent w' = sent w;
  chan_write bs w k w' : sys_write wfd bs w = (inr k, w') →
    (k <= length bs)%nat ∧ sent w' = sent w ++ take k bs ∧ pending w' = pending w;
  chan_write_error bs w e w' : sys_write wfd bs w = (inl e, w') → pending w' = pending w ∧ sent w' = sent w
}.

(** No read fails, and what is written is accepted whole. *)
Class Smooth (W : Type) `{!ReadSys W, !WriteSys W} (rfd wfd : Z) : Prop := {
  smooth_read n w : ∃ bs w', sys_read rfd n w = (inr bs, w');
  smooth_write bs w : ∃ w', sys_write wfd bs w = (inr (length bs), w')
}.

Section loop.
Context {L : Libc} {W : Type} `{!ReadSys W, !WriteSys W}.
Local Abbreviation st := (pst (list Z) kcall W).
Context (rfd wfd : Z) (pending sent : W → bytes) `{!ChannelLaws W rfd wfd pending sent}.

(** The process ends, and the world stays as it is. *)
Definition dies {A} (m : M st A) : Prop :=
  ∀ s, ∃ h s', m s = (Halt h, s') ∧ fatal_end h ∧ s'.(world) = s.(world).

(** From [s] to [s'] the first part of what was pending was sent, [rest] was not. *)
Definition moved (s s' : st) (rest : bytes) : Prop :=
  ∃ l, pending s.(world) = l ++ rest ∧ sent s'.(world) = sent s.(world) ++ l.

(** One turn: an error, the end of the input, a piece, or a write that fails. *)
Lemma copy_body_run size fail (s : st) :
  dies fail → (0 < size)%nat →
  ∃ r s' l, copy_body rfd wfd size fail tt s = (r, s') ∧
    sent s'.(world) = sent s.(world) ++ l ∧
    match r with
    | Ok (inr v) => l = [] ∧ pending s'.(world) = pending s.(world) ∧ (v = -1 ∨ v = 0 ∧ pending s.(world) = [])
    | Ok (inl _) => l ≠ [] ∧ pending s.(world) = l ++ pending s'.(world)
    | Halt h => fatal_end h ∧ ∃ rest, pending s.(world) = l ++ rest
    end ∧
    (∀ x, r = Ok x → s'.(vars) = s.(vars) ∧ s'.(pr).(delivered) = s.(pr).(delivered)) ∧
    (Smooth W rfd wfd → r = Ok (inl tt) ∨ r = Ok (inr 0)).
Proof.
  intros Hfail Hsize. unfold copy_body, read, write, mbind, M_bind, call.
  destruct (sys_read rfd size (world s)) as [[e|bs] w1] eqn:Er.
  { destruct (chan_read_error _ _ _ _ Er) as [Hp Hs]. do 2 eexists. exists []. split; [reflexivity|].
    cbn. rewrite app_nil_r. split_and!; [done|done|done|by left|by intros ? [= <-]|].
    intros [Hr _]. destruct (Hr size (world s)) as (? & ? & E). congruence. }
  destruct (chan_read _ _ _ _ Hsize Er) as (Hp & Hnil & Hs). destruct bs as [|b bs].
  { do 2 eexists. exists []. split; [reflexivity|]. cbn. rewrite app_nil_r. rewrite Hnil by done.
    rewrite Hnil in Hp by done. split_and!; [done|done|done|by right|by intros ? [= <-]|by right]. }
  cbn [world]. destruct (sys_write wfd (b :: bs) w1) as [[e|k] w2] eqn:Ew.
  { destruct (chan_write_error _ _ _ _ Ew) as [Hp2 Hs2]. set (s2 := Pst _ _ _ _).
    destruct (Hfail s2) as (h & s3 & -> & Hh & W3). exists (Halt h), s3, []. split; [done|].
    rewrite W3, app_nil_r. cbn. split_and!; [congruence|done|by exists (pending (world s))|done|].
    intros [_ Hw]. destruct (Hw (b :: bs) w1) as (? & E). congruence. }
  destruct (chan_write _ _ _ _ Ew) as (Hk & Hs2 & Hp2). destruct (k =? length (b :: bs))%nat eqn:Ek.
  - apply Nat.eqb_eq in Ek. rewrite Ek, firstn_all in Hs2.
    do 2 eexists. exists (b :: bs). split; [reflexivity|]. cbn.
    split_and!; [by rewrite Hs2, Hs|done|by rewrite Hp2|by intros ? [= <-]|by left].
  - set (s2 := Pst _ _ _ _). destruct (Hfail s2) as (h & s3 & E3 & Hh & W3).
    exists (Halt h), s3, (take k (b :: bs)). split; [exact E3|]. rewrite W3. change (world s2) with w2.
    split_and!; [by rewrite Hs2, Hs|done| |done|].
    + exists (drop k (b :: bs) ++ pending w1). by rewrite app_assoc, take_drop.
    + intros [_ Hw]. destruct (Hw (b :: bs) w1) as (? & E). apply Nat.eqb_neq in Ek. congruence.
Qed.

Lemma copy_run fuel size fail s :
  dies fail → (0 < size)%nat → (length (pending s.(world)) < fuel)%nat →
  ∃ r s' rest, copy fuel rfd wfd size fail s = (r, s') ∧ moved s s' rest ∧
    match r with
    | Ok v => s'.(vars) = s.(vars) ∧ s'.(pr).(delivered) = s.(pr).(delivered) ∧ (v = 0 ∧ rest = [] ∨ v = -1)
    | Halt h => fatal_end h
    end ∧ (Smooth W rfd wfd → r = Ok 0).
Proof.
  intros Hfail Hsize. revert s. unfold copy. induction fuel as [|fuel IH]; intros s Hf; [lia|].
  rewrite loop_S. destruct (copy_body_run size fail s Hfail Hsize) as (r & s1 & l & E & Hs & Hr & Hx & Hsm).
  unfold mbind, M_bind. rewrite E. destruct r as [[[]|v]|h].
  - destruct Hr as [Hl Hp]. destruct (IH s1) as (r & s2 & rest & E2 & (l2 & P2 & S2) & H2 & Hsm2).
    { rewrite Hp, length_app in Hf. destruct l; [done|]. simpl in Hf. lia. }
    exists r, s2, rest. split; [exact E2|]. destruct (Hx _ eq_refl) as [V1 D1]. split.
    { exists (l ++ l2). by rewrite Hp, P2, S2, Hs, !app_assoc. }
    split; [|done]. destruct r as [v|h]; [|done]. destruct H2 as (V2 & D2 & H2). split_and!; congruence || done.
  - destruct Hr as (-> & Hp & Hv). destruct (Hx _ eq_refl) as [V1 D1].
    exists (Ok v), s1, (pending (world s)). split; [done|]. split; [by exists []|]. split.
    + split_and!; [done|done|]. destruct Hv as [?|[? ?]]; [by right|by left].
    + intros Hsmooth. destruct (Hsm Hsmooth) as [?|[= ->]]; [done|]. done.
  - destruct Hr as [Hh [rest Hp]]. exists (Halt h), s1, rest. split; [done|]. split; [by exists l|]. split; [done|].
    intros Hsmooth. by destruct (Hsm Hsmooth).
Qed.
End loop.

(** ** The programs *)

Section ends.
Context {L : Libc} {W : Type} `{!SockSys W, !ReadSys W, !WriteSys W, !ServerSys W, !EchoSys W}.
Local Abbreviation st := (pst (list Z) kcall W).

Lemma dies_custmErr {A} t : dies (W := W) (p_custmErr t : M st A).
Proof.
  intros s. destruct (@p_custmErr_halts L (list Z) kcall W A t s) as (h & s' & E & Hh & _ & _ & Hw).
  by exists h, s'.
Qed.

Lemma dies_log_exit {A} f : dies (W := W) (is_echo.log_exit f : M st A).
Proof. intros s. do 2 eexists. split; [reflexivity|]. split; [by left|done]. Qed.

(** A client reports success only when all of its input was sent. *)
Lemma send_input_run T size fuel sfd (pending sent : W → bytes) `{!ChannelLaws W STDIN_FILENO sfd pending sent} (s : st) :
  (0 < size)%nat → (length (pending s.(world)) < fuel)%nat →
  ∃ h s' rest, send_input T size fuel sfd s = (Halt h, s') ∧ moved pending sent s s' rest ∧
    (fatal_end h ∨ h = HExit EXIT_SUCCESS ∧ rest = []) ∧
    (Smooth W STDIN_FILENO sfd → h = HExit EXIT_SUCCESS ∧ rest = []).
Proof.
  intros Hsize Hf. unfold send_input.
  destruct (copy_run STDIN_FILENO sfd pending sent fuel size (p_custmErr T.(t_write)) s)
    as (r & s1 & rest & E & Hm & Hr & Hsm); [apply dies_custmErr|done..|].
  unfold mbind, M_bind. rewrite E. destruct r as [v|h].
  - destruct Hr as (_ & _ & Hv). destruct (v =? -1) eqn:Ev.
    + destruct (@p_systmErr_halts L (list Z) kcall W unit (T.(t_call) "read") s1) as (h & s2 & E2 & Hh & _ & _ & Hw).
      exists h, s2, rest. split; [exact E2|]. split; [by unfold moved; rewrite Hw|]. split; [by left|].
      intros Hs. specialize (Hsm Hs). by simplify_eq.
    + do 2 eexists. exists rest. split; [reflexivity|]. bool_facts.
      destruct Hv as [[-> ->]| ->]; [|done]. split; [exact Hm|]. split; [by right|done].
  - exists h, s1, rest. split; [done|]. split; [done|]. split; [by left|].
    intros Hs. by specialize (Hsm Hs).
Qed.

Lemma close_checked_run fd (s : st) r w :
  sys_close_sock fd s.(world) = (r, w) →
  ∃ s', close_checked fd s = (Ok r, s') ∧ s'.(vars) = remove_fd fd s.(vars) ∧ s'.(world) = w.
Proof.
  intros E. unfold close_checked, mbind, M_bind, call. rewrite E. by destruct r; eexists.
Qed.

(** The [close] at the end of a connection, and what is said when it fails. *)
Lemma close_turn_run T cfd (s : st) r w :
  sys_close_sock cfd s.(world) = (r, w) →
  ∃ r1 s', (c ← close_checked cfd;
      (match c with
       | inl _ => if T.(t_close) then p_systmErr (T.(t_call) "close") else p_systmWrn (T.(t_call) "close")
       | inr _ => skip
       end);;
      mret (inl tt)) s = (r1, s') ∧ world s' = w ∧
    match r1 with
    | Ok x => x = inl tt ∧ vars s' = remove_fd cfd (vars s)
    | Halt h => fatal_end h
    end ∧ (r = inr tt → ∃ x : unit + unit, r1 = Ok x).
Proof.
  intros Ec. destruct (close_checked_run cfd s r w Ec) as (s3 & E3 & V3 & W3). rewrite (run_bind _ _ _ _ _ E3).
  destruct r as [e|u]; [destruct (t_close T)|].
  - destruct (@p_systmErr_halts L (list Z) kcall W unit (T.(t_call) "close") s3) as (h & s4 & E4 & Hh & _ & _ & Hw).
    exists (Halt h), s4. split; [unfold mbind, M_bind; by rewrite E4|]. by rewrite Hw, W3.
  - destruct (p_systmWrn_run (T.(t_call) "close") s3) as (s4 & E4 & V4 & _ & W4). rewrite (run_bind _ _ _ _ _ E4).
    exists (Ok (inl tt)), s4. split; [done|]. by rewrite W4, V4, W3, V3.
  - exists (Ok (inl tt)), s3. split; [done|]. split_and!; [done|done|done|by eexists].
Qed.

(** A connection of a server: it goes on to the next only when all that came was
    written to the standard output, and has closed the connection. *)
Lemma server_turn_run T size fuel lfd cfd a w1 (pending out : W → bytes)
    `{!ChannelLaws W cfd STDOUT_FILENO pending out} (s : st) :
  (0 < size)%nat → sys_accept lfd s.(world) = (inr (cfd, a), w1) → (length (pending w1) < fuel)%nat →
  (∀ w r w', sys_close_sock cfd w = (r, w') → out w' = out w) →
  ∃ r s' l rest, server_turn T size fuel lfd tt s = (r, s') ∧
    pending w1 = l ++ rest ∧ out s'.(world) = out w1 ++ l ∧
    match r with
    | Ok x => x = inl tt ∧ rest = [] ∧ s'.(vars) = s.(vars)
    | Halt h => fatal_end h
    end ∧ (Smooth W cfd STDOUT_FILENO → (∀ w, (sys_close_sock cfd w).1 = inr tt) → r = Ok (inl tt)).
Proof.
  intros Hsize Ha Hf Hclose. unfold server_turn.
  set (s1 := Pst s.(pr) (cfd :: s.(vars)) (s.(trace) ++ [KAccept lfd (Some cfd)]) w1 : st).
  assert (E1 : accept lfd s = (Ok (inr (cfd, a)), s1)).
  { unfold accept, mbind, M_bind, call. by rewrite Ha. }
  rewrite (run_bind _ _ _ _ _ E1).
  destruct (copy_run cfd STDOUT_FILENO pending out fuel size (p_custmErr T.(t_write)) s1)
    as (r & s2 & rest & E2 & (l & Hp & S) & Hr & Hsm); [apply dies_custmErr|done..|].
  cbv iota beta. unfold mbind at 1, M_bind at 1. rewrite E2. destruct r as [v|h].
  2:{ exists (Halt h), s2, l, rest. split; [done|]. split_and!; [done..|]. intros Hs. by specialize (Hsm Hs). }
  destruct Hr as (V2 & _ & Hv). destruct (v =? -1) eqn:Ev.
  { destruct (@p_systmErr_halts L (list Z) kcall W unit (T.(t_call) "read") s2) as (h & s3 & E3 & Hh & _ & _ & Hw).
    exists (Halt h), s3, l, rest. split.
    - unfold mbind, M_bind. by rewrite E3.
    - split_and!; [done|by rewrite Hw|done|]. intros Hs. specialize (Hsm Hs). by simplify_eq. }
  bool_facts. destruct Hv as [[-> ->]| ->]; [|done].
  erewrite run_bind by reflexivity.
  destruct (sys_close_sock cfd (world s2)) as [r w3] eqn:Ec. pose proof (Hclose _ _ _ Ec) as Ho.
  destruct (close_turn_run T cfd s2 r w3 Ec) as (r1 & s3 & -> & W3 & Hr1 & Hok).
  exists r1, s3, l, []. split; [done|]. split_and!; [done|by rewrite W3, Ho| |].
  - destruct r1 as [x|h]; [|done]. destruct Hr1 as [-> V3]. split_and!; [done|done|]. rewrite V3, V2. apply remove_fd_head.
  - intros _ Hc. specialize (Hc (world s2)). rewrite Ec in Hc. destruct (Hok Hc) as [x ->]. by destruct Hr1 as [-> _].
Qed.

(** What a client reads comes out of the server, whichever of the programs they
    are: where no call fails, the server's output has grown by the client's input
    and nothing else, in whatever pieces it was read on either side, and both have
    closed the connection. *)
Theorem us_xfr_copies T1 T2 size1 size2 fuel sfd lfd cfd a w1 (c v : st) (input sent pending out : W → bytes)
    `{!ChannelLaws W STDIN_FILENO sfd input sent, !Smooth W STDIN_FILENO sfd}
    `{!ChannelLaws W cfd STDOUT_FILENO pending out, !Smooth W cfd STDOUT_FILENO} :
  let data := input c.(world) in
  (0 < size1)%nat → (0 < size2)%nat → (length data < fuel)%nat →
  sys_accept lfd v.(world) = (inr (cfd, a), w1) →
  (∀ w, ∃ w', sys_close_sock cfd w = (inr tt, w') ∧ out w' = out w) →
  ∃ c', send_input T1 size1 fuel sfd c = (Halt (HExit EXIT_SUCCESS), c') ∧
    sent c'.(world) = sent c.(world) ++ data ∧
    (pending w1 = data → ∃ v', server_turn T2 size2 fuel lfd tt v = (Ok (inl tt), v') ∧
       out v'.(world) = out w1 ++ data ∧ v'.(vars) = v.(vars)).
Proof.
  intros data H1 H2 Hf Ha Hclose.
  destruct (send_input_run T1 size1 fuel sfd input sent c H1 Hf) as (h & c' & rest & E & (l & Hp & S) & _ & Hsm).
  destruct (Hsm _) as [-> ->]. rewrite app_nil_r in Hp. exists c'. split; [done|]. split; [by rewrite S, <- Hp|].
  intros Hd.
  destruct (server_turn_run T2 size2 fuel lfd cfd a w1 pending out v H2 Ha) as (r & v' & l2 & rest & E2 & P2 & S2 & Hr & Hsm2).
  - subst data. by rewrite Hd.
  - intros w r w' Ew. destruct (Hclose w) as (w2 & Ew2 & Ho). congruence.
  - assert (r = Ok (inl tt)) as ->.
    { apply Hsm2; [done|]. intros w. by destruct (Hclose w) as (w2 & -> & _). }
    destruct Hr as (_ & -> & V). rewrite app_nil_r, Hd in P2. exists v'. split; [done|]. split; [by rewrite S2, <- P2|done].
Qed.

(** The programs of the exercise over the abstract namespace do not come as far:
    the library writes the name past the end of the address. *)
Lemma exr5903_a_undefined turns fuel (s : st) :
  (us_xfr.exr5903_a_sv_main turns fuel s).1 = Halt HUndef ∧ (us_xfr.exr5903_a_cl_main fuel s).1 = Halt HUndef.
Proof. done. Qed.

(** That of exercise 57-2 fill in the address themselves, within its bounds. *)
Lemma exr5702_address : ∃ a, abstract_address us_xfr.SV_SOCK_PATH = Some a ∧ length a.(sun_path) = SUN_PATH_SIZE ∧
  take 12 a.(sun_path) = Ascii.zero :: chars us_xfr.SV_SOCK_PATH.
Proof. by eexists. Qed.

(** The echo services: whatever they have read they have sent back, in order, when
    a request ends normally, and a part of it when it does not. *)
Theorem echo_returns_input fuel rfd wfd (pending sent : W → bytes) `{!ChannelLaws W rfd wfd pending sent} (s : st) :
  (length (pending s.(world)) < fuel)%nat →
  ∃ r s' rest, is_echo.echo fuel rfd wfd s = (r, s') ∧ moved pending sent s s' rest ∧
    match r with Ok _ => rest = [] | Halt h => fatal_end h end ∧ (Smooth W rfd wfd → r = Ok tt).
Proof.
  intros Hf. unfold is_echo.echo.
  destruct (copy_run rfd wfd pending sent fuel is_echo.BUF_SIZE (is_echo.log_exit (λ e, "write() failed: " +:+ e)) s)
    as (r & s1 & rest & E & Hm & Hr & Hsm); [apply dies_log_exit|unfold is_echo.BUF_SIZE; lia|done|].
  unfold mbind, M_bind. rewrite E. destruct r as [v|h].
  - destruct Hr as (_ & _ & Hv). destruct (v =? -1) eqn:Ev.
    + destruct (dies_log_exit (A := unit) (λ e, "Error from read(): " +:+ e) s1) as (h & s2 & E2 & Hh & Hw).
      exists (Halt h), s2, rest. split; [exact E2|]. split; [by unfold moved; rewrite Hw|]. split; [done|].
      intros Hs. specialize (Hsm Hs). by simplify_eq.
    + exists (Ok tt), s1, rest. split; [done|]. bool_facts. destruct Hv as [[-> ->]| ->]; [|done]. done.
  - exists (Halt h), s1, rest. split; [done|]. split; [done|]. split; [done|].
    intros Hs. by specialize (Hsm Hs).
Qed.
End ends.

(** ** A world in which nothing fails *)

Record flow := Flow { from : bytes; into : bytes; next : bytes }.

#[export] Instance flow_read : ReadSys flow := λ _ n w, (inr (take n w.(from)), Flow (drop n w.(from)) w.(into) w.(next)).
#[export] Instance flow_write : WriteSys flow := λ _ bs w, (inr (length bs), Flow w.(from) (w.(into) ++ bs) w.(next)).

#[export] Instance flow_channel rfd wfd : ChannelLaws flow rfd wfd from into.
Proof.
  split.
  - intros n [i o x] bs w' Hn [= <- <-]. simpl. rewrite take_drop. split_and!; [done| |done].
    intros E. destruct n; [lia|]. by destruct i.
  - done.
  - intros bs [i o x] k w' [= <- <-]. simpl. by rewrite firstn_all.
  - done.
Qed.

#[export] Instance flow_smooth rfd wfd : Smooth flow rfd wfd.
Proof. split; intros; by do 2 eexists || by eexists. Qed.

#[export] Instance flow_socks : SockSys flow := {|
  sys_socket _ _ _ w := (inr 3, w);
  sys_connect_un _ _ _ w := (inr tt, w);
  sys_bind_un _ _ _ w := (inr tt, w);
  sys_connect_in _ _ _ w := (inr tt, w);
  sys_bind_in _ _ _ w := (inr tt, w);
  sys_listen _ _ w := (inr tt, w);
  sys_reuseaddr _ w := (inr tt, w);
  sys_close_sock _ w := (inr tt, w);
  sys_remove _ w := (inr tt, w);
  sys_getaddrinfo _ _ _ w := (inr [], w);
  sys_getnameinfo _ _ w := (inl EINVAL, w) |}.

(** A connection brings what [next] holds. *)
#[export] Instance flow_server : ServerSys flow := {|
  sys_sigpipe w := (inr tt, w);
  sys_accept _ w := (inr (4, ("", 0)), Flow w.(next) w.(into) []);
  sys_malloc _ w := (inr tt, w);
  sys_getnameinfo0 _ _ w := (inl EINVAL, w) |}.

Definition flow_state (w : flow) : pst (list Z) kcall flow := Pst (Proc 0 [] "" "" []) [3] [] w.

(** The state of a client that has made its socket and connected it. *)
Definition connected (s : pst (list Z) kcall flow) : pst (list Z) kcall flow :=
  let a := default zero_un (path_address us_xfr.SV_SOCK_PATH) in
  Pst s.(pr) (3 :: s.(vars)) (s.(trace) ++ [KSocket AF_UNIX SOCK_STREAM 0] ++ [KConnectUn 3 a (SUN_LEN a)]) s.(world).

Lemma us_xfr_copies_witness :
  let L := {| strerror := λ _, ""; io_errno := id |} in
  let text := chars "some text for the server" in
  ∃ c', us_xfr.y_cl_main 30 (flow_state (Flow text [] [])) = (Halt (HExit EXIT_SUCCESS), c') ∧
    ∃ v', server_turn plain us_xfr.BUF_SIZE 30 3 tt (flow_state (Flow [] (chars "earlier ") text)) = (Ok (inl tt), v') ∧
      v'.(world).(into) = chars "earlier some text for the server".
Proof.
  intros L text. pose (c := flow_state (Flow text [] [])).
  destruct (us_xfr_copies named plain us_xfr.BUFSIZ us_xfr.BUF_SIZE 30 3 3 4 ("", 0) (Flow text (chars "earlier ") [])
    (connected c) (flow_state (Flow [] (chars "earlier ") text)) from into from into) as (c' & E & _ & H).
  - apply Nat.ltb_lt. reflexivity.
  - apply Nat.ltb_lt. reflexivity.
  - apply Nat.ltb_lt. reflexivity.
  - reflexivity.
  - intros w. by eexists.
  - exists c'. split; [exact E|]. destruct (H eq_refl) as (v' & E2 & O & _). exists v'. split; [exact E2|]. exact O.
Defined.

Lemma echo_returns_input_witness :
  let L := {| strerror := λ _, ""; io_errno := id |} in
  ∃ s', is_echo.handleRequest 9 4 (flow_state (Flow (chars "hello") [] [])) = (Ok tt, s') ∧
    s'.(world).(into) = chars "hello".
Proof.
  intros L. destruct (echo_returns_input 9 4 4 from into (flow_state (Flow (chars "hello") [] [])))
    as (r & s' & rest & E & (l & P & S) & Hr & Hs).
  - apply Nat.ltb_lt. reflexivity.
  - rewrite (Hs _) in *. exists s'. split; [exact E|]. rewrite Hr, app_nil_r in P.
    rewrite S. rewrite <- P. reflexivity.
Defined.
