(* ===== verification/Datagrams.v ===== *)
(** Programs that answer datagrams: [sockets/ud_ucase_sv.c] and [ud_ucase_cl.c],
    [yud_ucase_sv.c] and [yud_ucase_cl.c], [exr5903_ud_ucase_sv.c] and
    [exr5903_ud_ucase_cl.c], [i6d_ucase_sv.c] and [i6d_ucase_cl.c],
    [yi6d_ucase_sv.c] and [yi6d_ucase_cl.c], and the echo programs [id_echo_sv.c] and [id_echo_cl.c].

    A server receives a datagram, as far as its buffer goes, makes an answer of
    it and sends that to where the datagram came from.  A client sends its
    arguments one by one and shows the answer to each. *)
From S2P Require Import Prelude CLib ErrorFunctions Proc Args.
From S2P Require ByteIO.
From S2P Require Import Sockets InetSeqnum Transfer.
Local Open Scope Z_scope.

(** The addresses datagrams are sent to. *)
Inductive saddr := UnAddr (a : sockaddr_un) | In6Addr (a : string) (port : Z) | Storage (a : string).

Class DgramSys (W : Type) := {
  sys_recvfrom : Z → nat → W → (Z + bytes * saddr) * W;
  sys_sendto : Z → bytes → saddr → W → (Z + nat) * W;
  sys_bind_any6 : Z → Z → W → (Z + unit) * W;
  sys_inet_ntop : saddr → option string;
  sys_inet_pton : string → option string;
  sys_getpid : W → Z
}.

(** [toupper] in the C locale. *)
Definition toupper (c : ascii) : ascii :=
  let n := Ascii.nat_of_ascii c in
  if (97 <=? n)%nat && (n <=? 122)%nat then Ascii.ascii_of_nat (n - 32) else c.

Definition AF_INET6 : Z := 10.
Definition sizeof_sockaddr_un : Z := 110.

(** The path of an address as it is printed, and the port. *)
Definition path_of (a : saddr) : string :=
  match a with UnAddr a => c_string a.(sun_path) | In6Addr a _ | Storage a => a end.
Definition port_of (a : saddr) : Z := match a with In6Addr _ p => p | _ => 0 end.

(** The structure set to zero, the family, and [strncpy] of the path. *)
Definition un_address (path : string) : option sockaddr_un :=
  match strncpy_at 0 (SUN_PATH_SIZE - 1) path (sun_path zero_un) with
  | Some p => Some (SockaddrUn AF_UNIX p)
  | None => None
  end.

Section dgrams.
Context {L : Libc} {W : Type} `{!SockSys W, !DgramSys W, !EchoSys W, !ByteIO.ReadSys W, !ByteIO.WriteSys W}.
Local Abbreviation P := (M (pst (list Z) kcall W)).

Definition recvfrom (fd : Z) (n : nat) : P (Z + bytes * saddr) := call (KRecvfrom fd) (sys_recvfrom fd n).
(** [sendto(...) != n] *)
Definition sendto_fails (fd : Z) (bs : bytes) (a : saddr) : P bool :=
  r ← call (KSendto fd bs) (sys_sendto fd bs a);
  mret (match r with inl _ => true | inr k => negb (k =? length bs)%nat end).

(** A turn of a server: what it prints, what it answers, and what it does where
    the answer cannot be sent. *)
Definition answer_body (fd : Z) (size : nat) (recv : string) (report : bytes → saddr → P unit)
    (answer : bytes → option bytes) (failed : saddr → P unit) (_ : unit) : P (unit + unit) :=
  r ← recvfrom fd size;
  match r with
  | inl _ => p_systmErr recv
  | inr (buf, claddr) =>
      report buf claddr;;
      match answer buf with
      | None => stop HUndef
      | Some buf =>
          bad ← sendto_fails fd buf claddr;
          when bad (failed claddr);;
          mret (inl tt)
      end
  end.

(** What the clients say: where a call fails, and the answer to the [j]-th message. *)
Record dtexts := Dtexts { d_send : string; d_recv : string; d_show : Z → string → string }.

(** A client's turn: the [j]-th message, and the answer it shows. *)
Definition ask (fd : Z) (size : nat) (svaddr : saddr) (D : dtexts) (j : Z) (msg : string) : P unit :=
  bad ← sendto_fails fd (chars msg) svaddr;
  if bad : bool then p_custmErr D.(d_send) else
  r ← recvfrom fd size;
  match r with
  | inl _ => p_systmErr D.(d_recv)
  | inr (resp, _) => printf (D.(d_show) j (c_string resp) +:+ nl)
  end.
Fixpoint ask_all (fd : Z) (size : nat) (svaddr : saddr) (D : dtexts) (j : Z) (msgs : list string) : P unit :=
  match msgs with
  | [] => skip
  | msg :: msgs => ask fd size svaddr D j msg;; ask_all fd size svaddr D (j + 1) msgs
  end.

(** [toupper((unsigned char)buf[j])] for every byte, and [toupper((unsigned
    int)buf[j])]: a [char] is signed, and beside [EOF] a negative argument of
    [toupper] is undefined. *)
Definition upcase (buf : bytes) : option bytes := Some (toupper <$> buf).
Definition upcase_signed (buf : bytes) : option bytes :=
  if forallb (λ c, let n := Ascii.nat_of_ascii c in (n <? 128)%nat || (n =? 255)%nat) buf
  then Some (toupper <$> buf) else None.

Definition show_response : Z → string → string := λ j t, "Response " +:+ fmt_d j +:+ ": " +:+ t.
Definition asks : dtexts := Dtexts "sendto" "recvfrom" show_response.
Definition y_recv : string := "recvfrom() failed".
Definition y_send : string := "sendto() failed".

(** ** [ud_ucase] *)

Definition BUF_SIZE : nat := 10.
Definition SV_SOCK_PATH : string := "/tmp/ud_ucase".
Definition SUN_PATHSIZE : nat := 92.

Definition ud_report (buf : bytes) (claddr : saddr) : P unit :=
  printf ("Server received " +:+ fmt_d (Z.of_nat (length buf)) +:+ " bytes from " +:+ path_of claddr +:+ nl).
Definition ud_body (svfd : Z) : unit → P (unit + unit) :=
  answer_body svfd BUF_SIZE "recvfrom" ud_report upcase (λ _, p_custmErr "sendto").

(** The texts of a call that failed, in the program and in its second version. *)
Definition call_text (y : bool) (c : string) : string := if y then c +:+ "() failed" else c.
Definition remove_text (y : bool) (p : string) : string :=
  if y then "remove(" +:+ String dquote (p +:+ String dquote ") failed") else "remove-" +:+ p.

Definition ud_server (y : bool) (body : Z → unit → P (unit + unit)) (turns : nat) : P unit :=
  o ← socket AF_UNIX SOCK_DGRAM 0;
  match o with
  | inl _ => p_systmErr (call_text y "socket")
  | inr svfd =>
      if (SUN_PATH_SIZE - 1 <? String.length SV_SOCK_PATH)%nat
      then p_custmErr ("Server socket path too long: " +:+ SV_SOCK_PATH) else
      d ← call (KRemove SV_SOCK_PATH) (sys_remove SV_SOCK_PATH);
      e ← get_errno;
      (if match d with inl _ => negb (e =? ENOENT) | inr _ => false end
       then p_systmErr (remove_text y SV_SOCK_PATH) else skip);;
      match un_address SV_SOCK_PATH with
      | None => stop HUndef
      | Some svaddr =>
          b ← call (KBindUn svfd svaddr (SUN_LEN svaddr)) (sys_bind_un svfd svaddr (SUN_LEN svaddr));
          match b with
          | inl _ => p_systmErr (call_text y "bind")
          | inr _ => loop turns (body svfd) tt
          end
      end
  end.
Definition ud_sv_main : nat → P unit := ud_server false ud_body.

Definition msg_usage {A} (argv : list string) (t : string) : P A :=
  p_usageErr (default "" (head argv) +:+ t +:+ nl).

(** [snprintf(claddr.sun_path, ...)] after the structure was set to zero. *)
Definition own_path (size : nat) (w : W) : string := snprintf size ("/tmp/ud_ucase_cl." +:+ fmt_d (sys_getpid w)).

(** The address a client binds is given with the whole size of the structure, and
    up to the end of the path in the second version. *)
Definition ud_client (y : bool) (D : dtexts) (argv : list string) : P unit :=
  if (length argv <? 2)%nat || wants_help argv then msg_usage argv " msg..." else
  o ← socket AF_UNIX SOCK_DGRAM 0;
  match o with
  | inl _ => p_systmErr (call_text y "socket")
  | inr clfd =>
      w ← gets world;
      let path := own_path SUN_PATH_SIZE w in
      match un_address path, un_address SV_SOCK_PATH with
      | Some claddr, Some svaddr =>
          let len := if y then SUN_LEN claddr else sizeof_sockaddr_un in
          b ← call (KBindUn clfd claddr len) (sys_bind_un clfd claddr len);
          match b with
          | inl _ => p_systmErr (call_text y "bind")
          | inr _ =>
              ask_all clfd BUF_SIZE (UnAddr svaddr) D 1 (drop 1 argv);;
              call (KRemove path) (sys_remove path);;
              p_exit EXIT_SUCCESS
          end
      | _, _ => stop HUndef
      end
  end.
Definition ud_cl_main : list string → P unit := ud_client false asks.

(** *** [yud_ucase_sv.c] and [yud_ucase_cl.c] *)

Definition yud_report (buf : bytes) (claddr : saddr) : P unit :=
  printf ("Server received " +:+ fmt_d (Z.of_nat (length buf)) +:+ " bytes (" +:+ c_string buf +:+ ") from: " +:+
          path_of claddr +:+ nl).
Definition yud_body (svfd : Z) : unit → P (unit + unit) :=
  answer_body svfd BUF_SIZE y_recv yud_report upcase_signed (λ _, p_custmErr y_send).
Definition yud_sv_main : nat → P unit := ud_server true yud_body.

Definition yud_show (j : Z) (t : string) : string := "Response " +:+ fmt_d j +:+ ": '" +:+ t +:+ "'".
Definition yud_cl_main : list string → P unit := ud_client true (Dtexts y_send y_recv yud_show).

(** *** [exr5903_ud_ucase_sv.c] and [exr5903_ud_ucase_cl.c] *)

Definition exr_sv_main (turns : nat) : P unit :=
  svfd ← yunixbind (Some SV_SOCK_PATH) true SOCK_DGRAM;
  if svfd =? -1 then p_systmErr "yunixbind() failed" else loop turns (ud_body svfd) tt.

Definition exr_cl_main (argv : list string) : P unit :=
  if (length argv <? 2)%nat || wants_help argv then msg_usage argv " msg..." else
  w ← gets world;
  let localpath := own_path SUN_PATHSIZE w in
  clfd ← yunixbind (Some localpath) true SOCK_DGRAM;
  if clfd =? -1 then p_systmErr "yunixbind() failed" else
  r ← yunixaddress (Some SV_SOCK_PATH) true;
  let '(s, peeraddr) := r in
  if negb (s =? 0) then p_systmErr "yunixaddress() failed" else
  ask_all clfd BUF_SIZE (UnAddr peeraddr) asks 1 (drop 1 argv);;
  call (KRemove localpath) (sys_remove localpath);;
  p_exit EXIT_SUCCESS.

(** ** [i6d_ucase] *)

Definition PORT_NUM : Z := 50002.

Definition i6d_report (buf : bytes) (claddr : saddr) : P unit :=
  match sys_inet_ntop claddr with
  | None => printf ("Couldn't convert client address to string" +:+ nl)
  | Some claddrStr =>
      printf ("Server received " +:+ fmt_d (Z.of_nat (length buf)) +:+ " bytes from (" +:+ claddrStr +:+ ", " +:+
              fmt_d (port_of claddr) +:+ ")" +:+ nl)
  end.
Definition i6d_body (sfd : Z) : unit → P (unit + unit) :=
  answer_body sfd BUF_SIZE "recvfrom" i6d_report upcase (λ _, p_custmErr "sendto").

Definition i6d_server (y : bool) (body : Z → unit → P (unit + unit)) (turns : nat) : P unit :=
  o ← socket AF_INET6 SOCK_DGRAM 0;
  match o with
  | inl _ => p_systmErr (call_text y "socket")
  | inr sfd =>
      b ← call (KBindIn sfd "" 28) (sys_bind_any6 sfd PORT_NUM);
      match b with
      | inl _ => p_systmErr (call_text y "bind")
      | inr _ => loop turns (body sfd) tt
      end
  end.
Definition i6d_sv_main : nat → P unit := i6d_server false i6d_body.

Definition i6d_cl_main (argv : list string) : P unit :=
  if (length argv <? 3)%nat || wants_help argv then msg_usage argv " host-address msg..." else
  o ← socket AF_INET6 SOCK_DGRAM 0;
  match o with
  | inl _ => p_systmErr "socket"
  | inr sfd =>
      let host := default "" (argv !! 1%nat) in
      match sys_inet_pton host with
      | None => p_custmErr ("inet_pton failed for address '" +:+ host +:+ "'")
      | Some a => ask_all sfd BUF_SIZE (In6Addr a PORT_NUM) asks 1 (drop 2 argv);; p_exit EXIT_SUCCESS
      end
  end.

(** *** [yi6d_ucase_sv.c] and [yi6d_ucase_cl.c] *)

(** "←─ " in UTF-8 *)
Definition arrow : string :=
  of_chars (Ascii.ascii_of_nat <$> [226; 134; 144; 226; 148; 128; 32])%nat.

Definition yi6d_report (buf : bytes) (claddr : saddr) : P unit :=
  match sys_inet_ntop claddr with
  | None => p_systmErr "inet_ntop() failed"
  | Some peerStr =>
      printf ("Server " +:+ arrow +:+ pad_left 8 (fmt_d (Z.of_nat (length buf))) +:+ " bytes from (" +:+ peerStr +:+
              ", " +:+ fmt_d (port_of claddr) +:+ ")" +:+ nl)
  end.
Definition yi6d_body (sfd : Z) : unit → P (unit + unit) :=
  answer_body sfd BUF_SIZE y_recv yi6d_report upcase_signed (λ _, p_custmErr y_send).
Definition yi6d_sv_main : nat → P unit := i6d_server true yi6d_body.

Definition yi6d_show (j : Z) (t : string) : string :=
  "Client " +:+ String tab arrow +:+ String dquote (t +:+ String dquote "").

(** [inet_pton] gives 0 for a text that is no address, and [errno] is set then. *)
Definition yi6d_cl_main (argv : list string) : P unit :=
  if (length argv <? 3)%nat || wants_help argv then msg_usage argv " host-name msg ..." else
  o ← socket AF_INET6 SOCK_DGRAM 0;
  match o with
  | inl _ => p_systmErr (call_text true "socket")
  | inr sfd =>
      match sys_inet_pton (default "" (argv !! 1%nat)) with
      | None => put_errno EINVAL;; p_systmErr "inet_pton() failed"
      | Some a =>
          ask_all sfd BUF_SIZE (In6Addr a PORT_NUM) (Dtexts y_send y_recv yi6d_show) 1 (drop 2 argv);;
          p_exit EXIT_SUCCESS
      end
  end.

(** ** [id_echo] *)

Definition SERVICE : string := "echo".
Definition ECHO_SIZE : nat := 500.

Definition echo_failed (claddr : saddr) : P unit :=
  a ← inetAddressStr (path_of claddr) 128 IS_ADDR_STR_LEN;
  is_echo.syslog (λ e, "Error echoing response to " +:+ a +:+ " (" +:+ e +:+ ")").
Definition id_echo_body (sfd : Z) : unit → P (unit + unit) :=
  answer_body sfd ECHO_SIZE "recvfrom" (λ _ _, skip) Some echo_failed.

Definition id_echo_sv_main (turns : nat) : P unit :=
  d ← call KDaemon sys_daemon;
  (match d with inl _ => p_systmErr "becomeDaemon" | inr _ => skip end);;
  r ← inetBind SERVICE SOCK_DGRAM false;
  if r.1 =? -1 then is_echo.log_exit (λ e, "Could not create server socket (" +:+ e +:+ ")")
  else loop turns (id_echo_body r.1) tt.

(** A connected socket: [write] sends a datagram and [read] receives one. *)
Definition echo_ask (sfd : Z) (msg : string) : P unit :=
  bad ← write_fails sfd msg;
  if bad : bool then p_custmErr "partial/failed write" else
  r ← read sfd ECHO_SIZE;
  match r with
  | inl _ => p_systmErr "read"
  | inr buf => printf ("[" +:+ fmt_d (Z.of_nat (length buf)) +:+ " bytes] " +:+ c_string buf +:+ nl)
  end.

Definition id_echo_cl_main (argv : list string) : P unit :=
  if (length argv <? 2)%nat || wants_help argv then msg_usage argv " host msg..." else
  sfd ← inetConnect (argv !! 1%nat) SERVICE SOCK_DGRAM;
  if sfd =? -1 then p_custmErr "Could not connect to server socket" else
  for_each (drop 2 argv) (echo_ask sfd);;
  p_exit EXIT_SUCCESS.
End dgrams.

(** ** What the servers answer *)

(** What is promised of the socket [fd]: [inbox] is what has arrived and was not
    received, [outbox] what was sent.  A datagram is received as far as the buffer
    goes and the rest of it is lost; it is sent whole or not at all. *)
Class DgramLaws (W : Type) `{!DgramSys W} (fd : Z) (inbox outbox : W → list (bytes * saddr)) : Prop := {
  dgram_recv n w r w' : sys_recvfrom fd n w = (inr r, w') →
    ∃ m, inbox w = (m, r.2) :: inbox w' ∧ r.1 = take n m ∧ outbox w' = outbox w;
  dgram_recv_error n w e w' : sys_recvfrom fd n w = (inl e, w') → inbox w' = inbox w ∧ outbox w' = outbox w;
  dgram_send bs a w k w' : sys_sendto fd bs a w = (inr k, w') →
    k = length bs ∧ outbox w' = outbox w ++ [(bs, a)] ∧ inbox w' = inbox w;
  dgram_send_error bs a w e w' : sys_sendto fd bs a w = (inl e, w') → inbox w' = inbox w ∧ outbox w' = outbox w
}.

Section answers.
Context {L : Libc} {W : Type} `{!DgramSys W} (fd : Z) (inbox outbox : W → list (bytes * saddr)).
Context `{!DgramLaws W fd inbox outbox}.
Local Abbreviation st := (pst (list Z) kcall W).
Local Abbreviation P := (M st).

(** A computation that leaves the datagrams alone, and may end the program. *)
Definition aside {A} (m : P A) : Prop := ∀ s,
  inbox (m s).2.(world) = inbox s.(world) ∧ outbox (m s).2.(world) = outbox s.(world) ∧
  match (m s).1 with Ok _ => True | Halt h => fatal_end h end.

(** The answer to a datagram. *)
Definition answer_to (size : nat) (answer : bytes → option bytes) (m : bytes * saddr) : bytes * saddr :=
  (default [] (answer (take size m.1)), m.2).

(** How a server ends: an error, or an answer that is undefined. *)
Definition server_end (answer : bytes → option bytes) (h : halt) : Prop :=
  fatal_end h ∨ h = HUndef ∧ ∃ buf, answer buf = None.

(** From [s] to [s'] the datagrams [l] were taken, and those of [l'] answered. *)
Definition served (size : nat) (answer : bytes → option bytes) (l l' : list (bytes * saddr)) (s s' : st) : Prop :=
  inbox s.(world) = l ++ inbox s'.(world) ∧
  outbox s'.(world) = outbox s.(world) ++ (answer_to size answer <$> l').

Lemma served_trans size answer l1 l1' l2 l2' s1 s2 s3 :
  served size answer l1 l1' s1 s2 → served size answer l2 l2' s2 s3 →
  served size answer (l1 ++ l2) (l1' ++ l2') s1 s3.
Proof. intros [I1 O1] [I2 O2]. split; [by rewrite I1, I2, app_assoc|by rewrite O2, O1, fmap_app, app_assoc]. Qed.

(** A turn takes one datagram at most, and answers it or reports that it could not. *)
Lemma answer_body_run size recv report answer failed s :
  (∀ b a, aside (report b a)) → (∀ a, aside (failed a)) →
  ∃ r s' l l', answer_body fd size recv report answer failed tt s = (r, s') ∧ served size answer l l' s s' ∧
    (l' = l ∨ l' = []) ∧ (length l <= 1)%nat ∧
    match r with
    | Ok x => x = inl tt ∧ length l = 1%nat ∧ ((∀ a s1, ∃ h, (failed a s1).1 = Halt h) → l' = l)
    | Halt h => server_end answer h
    end.
Proof.
  intros Hrep Hfail. unfold answer_body, recvfrom, mbind, M_bind, call.
  destruct (sys_recvfrom fd size (world s)) as [[e|[buf a]] w1] eqn:Er.
  { destruct (dgram_recv_error _ _ _ _ Er) as [I O].
    set (s1 := Pst _ _ _ _). destruct (@p_systmErr_halts L (list Z) kcall W (unit + unit) recv s1)
      as (h & s2 & E2 & Hh & _ & _ & Hw). exists (Halt h), s2, [], []. split; [exact E2|].
    split; [split; rewrite Hw; cbn; [done|by rewrite app_nil_r]|]. split_and!; [by left|simpl; lia|by left]. }
  destruct (dgram_recv _ _ _ _ Er) as (m & I & T & O). simpl in T. cbn -[sendto_fails].
  set (s1 := Pst (pr s) (vars s) _ w1 : st). assert (W1 : world s1 = w1) by done. clearbody s1. subst w1.
  destruct (Hrep buf a s1) as (HI & HO & Hr). destruct (report buf a s1) as [[[]|h] s2]; simpl in HI, HO, Hr; rewrite <- HI in I; rewrite <- HO in O.
  2:{ exists (Halt h), s2, [(m, a)], []. split; [done|]. split; [split; [exact I|cbn; by rewrite app_nil_r]|].
      split_and!; [by right|done|by left]. }
  destruct (answer buf) as [out|] eqn:Ea.
  2:{ exists (Halt HUndef), s2, [(m, a)], []. split; [done|]. split; [split; [exact I|cbn; by rewrite app_nil_r]|].
      split_and!; [by right|done|]. right. eauto. }
  unfold sendto_fails, mbind, M_bind, call.
  destruct (sys_sendto fd out a (world s2)) as [[e|k] w3] eqn:Es.
  - destruct (dgram_send_error _ _ _ _ _ Es) as [I3 O3]. cbn.
    match goal with |- context [failed a ?x] => set (s3 := x) end.
    assert (W3 : world s3 = w3) by done. clearbody s3. subst w3. destruct (Hfail a s3) as (HI4 & HO4 & Hf). destruct (failed a s3) as [r4 s4] eqn:Ef. simpl in HI4, HO4, Hf.
    rewrite <- HI4 in I3. rewrite <- HO4 in O3.
    assert (served size answer [(m, a)] [] s s4).
    { split; cbn; [by rewrite I3|by rewrite O3, O, app_nil_r]. }
    destruct r4 as [[]|h]; do 2 eexists; exists [(m, a)], []; (split; [reflexivity|]); split_and!; try done; try (by right); try by left.
    intros Hd. destruct (Hd a s3) as [h Eh]. by rewrite Ef in Eh.
  - destruct (dgram_send _ _ _ _ _ Es) as (-> & O3 & I3). rewrite Nat.eqb_refl. cbn.
    do 2 eexists. exists [(m, a)], [(m, a)]. split; [reflexivity|]. split_and!; [|by left|done..].
    split; cbn; [by rewrite I3|]. unfold answer_to. simpl. by rewrite O3, O, <- T, Ea.
Qed.

(** However many turns a server has made, what it has sent are the answers to
    datagrams it has received, in their order and each to its sender; where it ends
    when an answer cannot be sent, they are the answers to the first of them, and
    at most the last one received has none. *)
Lemma answers_run turns size recv report answer failed s :
  (∀ b a, aside (report b a)) → (∀ a, aside (failed a)) →
  ∃ h s' l l', loop turns (answer_body fd size recv report answer failed) tt s = (Halt h, s') ∧
    served size answer l l' s s' ∧ sublist l' l ∧ (server_end answer h ∨ h = HFuel ∧ length l = turns) ∧
    ((∀ a s1, ∃ h1, (failed a s1).1 = Halt h1) → l' = l ∨ server_end answer h ∧ ∃ x, l = l' ++ [x]).
Proof.
  intros Hrep Hfail. induction turns as [|turns IH] in s |- *.
  { exists HFuel, s, [], []. split; [done|]. split; [split; [done|by rewrite app_nil_r]|].
    split; [constructor|]. split; [by right|by left]. }
  rewrite loop_S. destruct (answer_body_run size recv report answer failed s Hrep Hfail)
    as (r & s1 & l & l' & E & H & Hl & Hlen & Hr).
  assert (Hsub : sublist l' l) by (destruct Hl as [->| ->]; [done|apply sublist_nil_l]).
  unfold mbind, M_bind. rewrite E. destruct r as [x|h].
  - destruct Hr as (-> & Hone & Hd). destruct (IH s1) as (h & s2 & l2 & l2' & E2 & H2 & Hs & Hn & Hd2).
    exists h, s2, (l ++ l2), (l' ++ l2'). split; [exact E2|]. split; [by eapply served_trans|]. split_and!.
    + by apply sublist_app.
    + destruct Hn as [?|[-> Hn]]; [by left|right]. rewrite length_app, Hone, Hn. done.
    + intros Hf. rewrite (Hd Hf). destruct (Hd2 Hf) as [->|[? [y ->]]]; [by left|].
      right. split; [done|]. exists y. by rewrite app_assoc.
  - exists h, s1, l, l'. split; [done|]. split; [done|]. split_and!; [done|by left|].
    intros _. destruct Hl as [->| ->]; [by left|]. destruct l as [|x [|? ?]]; simpl in Hlen; [by left| |lia].
    right. split; [done|]. by exists x.
Qed.
End answers.

(** ** The programs *)

Section programs.
Context {L : Libc} {W : Type} `{!SockSys W, !DgramSys W, !EchoSys W}.
Context (fd : Z) (inbox outbox : W → list (bytes * saddr)) `{!DgramLaws W fd inbox outbox}.
Local Abbreviation st := (pst (list Z) kcall W).
Local Abbreviation P := (M st).

Lemma aside_proc {A} (m : P A) :
  (∀ s, ∃ r s', m s = (r, s') ∧ same_but_proc s s' ∧ match r with Ok _ => True | Halt h => fatal_end h end) →
  aside inbox outbox m.
Proof. intros H s. destruct (H s) as (r & s' & -> & (_ & _ & Hw) & Hr). simpl. by rewrite Hw. Qed.
Lemma aside_printf t : aside inbox outbox (printf t).
Proof. apply aside_proc. intros s. by do 2 eexists. Qed.
Lemma aside_skip : aside inbox outbox skip.
Proof. done. Qed.
Lemma aside_bind {A B} (m : P A) (k : A → P B) :
  aside inbox outbox m → (∀ x, aside inbox outbox (k x)) → aside inbox outbox (m ≫= k).
Proof.
  intros Hm Hk s. unfold mbind, M_bind. destruct (Hm s) as (HI & HO & Hr).
  destruct (m s) as [[x|h] s1]; [|done]. simpl in HI, HO. destruct (Hk x s1) as (-> & -> & Hr2). done.
Qed.

(** A server of the four that put text in capitals, with the way it does so. *)
Definition ucase_server (answer : bytes → option bytes) (body : unit → P (unit + unit)) : Prop :=
  answer = upcase ∧ (body = ud_body fd ∨ body = i6d_body fd) ∨
  answer = upcase_signed ∧ (body = yud_body fd ∨ body = yi6d_body fd).

Lemma ucase_server_body answer body :
  ucase_server answer body → ∃ recv report send,
    body = answer_body fd BUF_SIZE recv report answer (λ _, p_custmErr send) ∧ ∀ b a, aside inbox outbox (report b a).
Proof.
  intros [[-> [->| ->]]|[-> [->| ->]]]; do 3 eexists; (split; [reflexivity|]); intros b a;
    try apply aside_printf; unfold i6d_report, yi6d_report; destruct (sys_inet_ntop a); try apply aside_printf.
  apply aside_proc. intros s.
  destruct (@p_systmErr_halts L (list Z) kcall W unit "inet_ntop() failed" s) as (h & s2 & E & Hh & Hs).
  by exists (Halt h), s2.
Qed.

(** The servers that put text in capitals, over UNIX domain sockets or the
    Internet: every datagram received is answered with its first ten bytes in
    capitals, sent to where it came from, and in order.  A server that cannot send
    an answer ends, and only the datagram that it last received is without. *)
Lemma ucase_answers answer (body : unit → P (unit + unit)) turns s :
  ucase_server answer body →
  ∃ h s' l l', loop turns body tt s = (Halt h, s') ∧
    inbox s.(world) = l ++ inbox s'.(world) ∧
    outbox s'.(world) = outbox s.(world) ++ (answer_to BUF_SIZE answer <$> l') ∧
    (l' = l ∨ server_end answer h ∧ ∃ x, l = l' ++ [x]) ∧ (server_end answer h ∨ h = HFuel ∧ length l = turns).
Proof.
  intros Hb. destruct (ucase_server_body _ _ Hb) as (recv & report & send & -> & Hrep).
  assert (Hc : ∀ s1 : st, ∃ h (s2 : st), p_custmErr send s1 = (Halt h : res unit, s2) ∧ fatal_end h ∧ same_but_proc s1 s2).
  { apply (@p_custmErr_halts L (list Z) kcall W unit). }
  destruct (answers_run fd inbox outbox turns BUF_SIZE recv report answer (λ _, p_custmErr send) s Hrep)
    as (h & s' & l & l' & E & [I O] & _ & Hh & Hd).
  { intros a. apply aside_proc. intros s1. destruct (Hc s1) as (h & s2 & -> & Hh & Hs). by do 2 eexists. }
  exists h, s', l, l'. split_and!; [done..| |done]. apply Hd. intros a s1.
  destruct (Hc s1) as (h1 & s2 & -> & _). by exists h1.
Qed.

(** The answers are those of [toupper] on every byte; the second versions have none
    for text that is not ASCII, but where they have one it is the same. *)
Lemma upcase_agree buf : upcase_signed buf = upcase buf ∨ upcase_signed buf = None.
Proof. unfold upcase_signed. case_match; auto. Qed.
Lemma upcase_total buf : upcase buf ≠ None.
Proof. done. Qed.
Example upcase_signed_undefined :
  upcase_signed (chars "caf" ++ (Ascii.ascii_of_nat <$> [195; 169])%nat) = None ∧ upcase_signed (chars "cafe") = Some (chars "CAFE").
Proof. done. Qed.

(** So one datagram that is not ASCII leaves the second versions undefined. *)
Lemma yud_undefined m a w s :
  inbox s.(world) = (m, a) :: inbox w → upcase_signed (take BUF_SIZE m) = None →
  (∃ r, sys_recvfrom fd BUF_SIZE s.(world) = (inr r, w)) →
  (yud_body fd tt s).1 = Halt HUndef.
Proof.
  intros I Hu [[buf a'] Er]. destruct (dgram_recv _ _ _ _ Er) as (m' & I' & T & _). simpl in T.
  rewrite I in I'. injection I' as <- _. subst buf.
  unfold yud_body, answer_body, recvfrom, mbind, M_bind, call. rewrite Er. cbn -[take upcase_signed]. by rewrite Hu.
Qed.

(** The echo server over datagrams goes on where an answer cannot be sent: what it
    has sent are copies of datagrams it has received, cut off at 500 bytes, in
    order; some of them may be without an answer. *)
Lemma id_echo_answers turns s :
  (∀ a n w r w', sys_getnameinfo a n w = (r, w') → inbox w' = inbox w ∧ outbox w' = outbox w) →
  ∃ h s' l l', loop turns (id_echo_body fd) tt s = (Halt h, s') ∧
    inbox s.(world) = l ++ inbox s'.(world) ∧ sublist l' l ∧
    outbox s'.(world) = outbox s.(world) ++ (answer_to ECHO_SIZE Some <$> l') ∧
    (server_end Some h ∨ h = HFuel ∧ length l = turns).
Proof.
  intros Hn.
  destruct (answers_run fd inbox outbox turns ECHO_SIZE "recvfrom" (λ _ _, skip) Some echo_failed s)
    as (h & s' & l & l' & E & [I O] & Hs & Hh & _).
  - intros b a. apply aside_skip.
  - intros a. unfold echo_failed, inetAddressStr. apply aside_bind.
    + intros s1. unfold mbind, M_bind, call. destruct (sys_getnameinfo (path_of a) 128 (world s1)) as [r w] eqn:E.
      destruct (Hn _ _ _ _ _ E). by destruct r as [?|[]].
    + intros x s1. done.
  - by exists h, s', l, l'.
Qed.

(** What a client prints, when the answer to each message is [f] of it. *)
Fixpoint responses (D : dtexts) (f : bytes → bytes) (j : Z) (msgs : list string) : string :=
  match msgs with
  | [] => ""
  | msg :: msgs => D.(d_show) j (c_string (f (chars msg))) +:+ nl +:+ responses D f (j + 1) msgs
  end.

Lemma ask_all_run size svaddr D f j msgs s :
  (∀ w bs, ∃ w1 w2 a, sys_sendto fd bs svaddr w = (inr (length bs), w1) ∧ sys_recvfrom fd size w1 = (inr (f bs, a), w2)) →
  ∃ s', ask_all fd size svaddr D j msgs s = (Ok tt, s') ∧
    s'.(pr).(out_buf) = s.(pr).(out_buf) +:+ responses D f j msgs ∧ s'.(vars) = s.(vars).
Proof.
  intros Hf. induction msgs as [|msg msgs IH] in j, s |- *.
  { exists s. split; [done|]. simpl. by rewrite append_nil_r. }
  destruct (Hf s.(world) (chars msg)) as (w1 & w2 & a & E1 & E2).
  assert (∃ s1, ask fd size svaddr D j msg s = (Ok tt, s1) ∧
      s1.(pr).(out_buf) = s.(pr).(out_buf) +:+ (D.(d_show) j (c_string (f (chars msg))) +:+ nl) ∧
      s1.(vars) = s.(vars)) as (s1 & E & O & V).
  { unfold ask, sendto_fails, recvfrom, mbind, M_bind, call. rewrite E1, Nat.eqb_refl. cbn. rewrite E2. cbn.
    eexists. split; [reflexivity|]. done. }
  destruct (IH (j + 1) s1) as (s2 & E3 & O2 & V2). exists s2.
  split; [by simpl; rewrite (run_bind _ _ _ _ _ E)|]. split; [|congruence].
  rewrite O2, O. simpl. by rewrite !append_assoc.
Qed.
End programs.

(** ** A network that loses nothing *)

Record mail := Mail { inbox : list (bytes * saddr); outbox : list (bytes * saddr) }.

#[export] Instance mail_dgrams : DgramSys mail := {|
  sys_recvfrom _ n w :=
    match w.(inbox) with
    | [] => (inl EINVAL, w)
    | (m, a) :: l => (inr (take n m, a), Mail l w.(outbox))
    end;
  sys_sendto _ bs a w := (inr (length bs), Mail w.(inbox) (w.(outbox) ++ [(bs, a)]));
  sys_bind_any6 _ _ w := (inr tt, w);
  sys_inet_ntop _ := Some "::1";
  sys_inet_pton := Some;
  sys_getpid _ := 77 |}.

#[export] Instance mail_laws fd : DgramLaws mail fd inbox outbox.
Proof.
  split; simpl.
  - intros n [[|[m a] l] o] r w' [= <- <-]. by exists m.
  - by intros n [[|[m a] l] o] e w' [= <- <-].
  - by intros bs a w k w' [= <- <-].
  - done.
Qed.

(** Two datagrams, one of them longer than the buffer, and their answers. *)
Example ucase_serves_two :
  let L := {| strerror := λ _, ""; io_errno := id |} in
  let a := Storage "a" in let b := Storage "b" in
  (loop 2 (ud_body 3) tt
     (Pst (Proc 0 [] "" "" []) [3] [] (Mail [(chars "hello world", a); (chars "Bye.", b)] []))).2.(world).(outbox)
  = [(chars "HELLO WORL", a); (chars "BYE.", b)].
Proof. vm_compute. reflexivity. Qed.
