(* ===== verification/Bpf.v ===== *)
(** The filter language of the seccomp programs: classic BPF over
    [struct seccomp_data], with the instruction encoding of
    [<linux/filter.h>], and the checks an installed program has passed.

    A jump only moves forward, so a program is run by structural recursion on
    the instructions still ahead; no fuel is needed. *)
From S2P Require Import Prelude CLib.
Local Open Scope Z_scope.

(** ** The data a filter inspects *)

Record seccomp_data := SeccompData {
  sd_nr : Z;                    (* int *)
  sd_arch : Z;                  (* __u32 *)
  sd_ip : Z;                    (* __u64 *)
  sd_args : list Z              (* __u64[6] *)
}.

Definition sd_wf (d : seccomp_data) : Prop :=
  INT_MIN <= d.(sd_nr) <= INT_MAX ∧ 0 <= d.(sd_arch) <= UINT_MAX ∧
  length d.(sd_args) = 6%nat ∧ Forall (λ a, 0 <= a <= ULONG_MAX) d.(sd_args).

Definition sd_arg (d : seccomp_data) (i : nat) : Z := default 0 (d.(sd_args) !! i).

(** The low and high 32-bit words of a 64-bit value. *)
Definition lo32 (z : Z) : Z := Z.land z UINT_MAX.
Definition hi32 (z : Z) : Z := Z.shiftr z 32.

(** The structure as the sixteen 32-bit words a filter can load, laid out as on
    a little-endian machine. *)
Definition sd_words (d : seccomp_data) : list Z :=
  [to_unsigned 32 d.(sd_nr); d.(sd_arch); lo32 d.(sd_ip); hi32 d.(sd_ip)] ++
  concat (map (λ i, [lo32 (sd_arg d i); hi32 (sd_arg d i)]) (seq 0 6)).

(** [offsetof(struct seccomp_data, ...)] *)
Definition off_nr : Z := 0.
Definition off_arch : Z := 4.
Definition off_arg (i : Z) : Z := 16 + 8 * i.

(** A word load is only defined at an aligned offset inside the structure. *)
Definition load_word (d : seccomp_data) (off : Z) : option Z :=
  if (0 <=? off) && (off mod 4 =? 0) then sd_words d !! Z.to_nat (off / 4) else None.

(** ** Instructions *)

Record sock_filter := SockFilter { f_code : Z; f_jt : nat; f_jf : nat; f_k : Z }.

Definition BPF_STMT (code k : Z) : sock_filter := SockFilter code 0 0 k.
Definition BPF_JUMP (code k : Z) (jt jf : nat) : sock_filter := SockFilter code jt jf k.

Definition BPF_LD : Z := 0x00.
Definition BPF_ALU : Z := 0x04.
Definition BPF_JMP : Z := 0x05.
Definition BPF_RET : Z := 0x06.
Definition BPF_W : Z := 0x00.
Definition BPF_ABS : Z := 0x20.
Definition BPF_ADD : Z := 0x00.
Definition BPF_JA : Z := 0x00.
Definition BPF_JEQ : Z := 0x10.
Definition BPF_JGT : Z := 0x20.
Definition BPF_JGE : Z := 0x30.
Definition BPF_JSET : Z := 0x40.
Definition BPF_K : Z := 0x00.

Infix ".|" := Z.lor (at level 50, left associativity) : Z_scope.

(** Instruction words of the kinds the programs use. *)
Definition LD_ABS := BPF_LD .| BPF_W .| BPF_ABS.
Definition LD_IMM := BPF_LD .| BPF_W.
Definition ADD_K := BPF_ALU .| BPF_ADD .| BPF_K.
Definition JA := BPF_JMP .| BPF_JA.
Definition JEQ_K := BPF_JMP .| BPF_JEQ .| BPF_K.
Definition JGT_K := BPF_JMP .| BPF_JGT .| BPF_K.
Definition JGE_K := BPF_JMP .| BPF_JGE .| BPF_K.
Definition JSET_K := BPF_JMP .| BPF_JSET .| BPF_K.
Definition RET_K := BPF_RET .| BPF_K.

(** The condition of a conditional jump on accumulator [A]. *)
Definition jump_cond (code : Z) : option (Z → Z → bool) :=
  if code =? JEQ_K then Some Z.eqb
  else if code =? JGT_K then Some (λ A k, k <? A)
  else if code =? JGE_K then Some (λ A k, k <=? A)
  else if code =? JSET_K then Some has
  else None.

(** ** Execution

    [bpf_run d prog skip A]: run with accumulator [A] from [skip] instructions
    further on.  [None]: the program left its last instruction, made a load
    outside the data, or contains an instruction outside the set above. *)
Fixpoint bpf_run (d : seccomp_data) (prog : list sock_filter) (skip : nat) (A : Z)
    : option Z :=
  match prog with
  | [] => None
  | i :: rest =>
      match skip with
      | S skip => bpf_run d rest skip A
      | O =>
          if f_code i =? RET_K then Some (f_k i)
          else if f_code i =? LD_ABS then
            match load_word d (f_k i) with
            | Some v => bpf_run d rest 0 v
            | None => None
            end
          else if f_code i =? LD_IMM then bpf_run d rest 0 (f_k i)
          else if f_code i =? ADD_K then bpf_run d rest 0 (to_unsigned 32 (A + f_k i))
          else if f_code i =? JA then bpf_run d rest (Z.to_nat (f_k i)) A
          else match jump_cond (f_code i) with
               | Some c => bpf_run d rest (if c A (f_k i) then f_jt i else f_jf i) A
               | None => None
               end
      end
  end.

Definition bpf_decide (prog : list sock_filter) (d : seccomp_data) : option Z :=
  bpf_run d prog 0 0.

(** ** The checks made when a filter is installed *)

Definition BPF_MAXINSNS : nat := Z.to_nat 4096.

(** One instruction with [ahead] instructions after it: a known operation, a
    load inside the data, and a jump target inside the program. *)
Definition insn_ok (i : sock_filter) (ahead : nat) : bool :=
  if f_code i =? RET_K then true
  else if f_code i =? LD_ABS then
    (0 <=? f_k i) && (f_k i mod 4 =? 0) && (f_k i <? 64)
  else if (f_code i =? LD_IMM) || (f_code i =? ADD_K) then true
  else if f_code i =? JA then (0 <=? f_k i) && (f_k i <? Z.of_nat ahead)
  else match jump_cond (f_code i) with
       | Some _ => (f_jt i <? ahead)%nat && (f_jf i <? ahead)%nat
       | None => false
       end.

Fixpoint insns_ok (prog : list sock_filter) : bool :=
  match prog with
  | [] => true
  | i :: rest => insn_ok i (length rest) && insns_ok rest
  end.

Definition ends_in_ret (prog : list sock_filter) : bool :=
  match last prog with
  | Some i => f_code i =? RET_K
  | None => false
  end.

Definition bpf_valid (prog : list sock_filter) : bool :=
  (length prog <=? BPF_MAXINSNS)%nat && insns_ok prog && ends_in_ret prog.

(** ** Return values *)

Definition SECCOMP_RET_KILL_PROCESS : Z := 0x80000000.
Definition SECCOMP_RET_KILL : Z := 0x00000000.
Definition SECCOMP_RET_TRAP : Z := 0x00030000.
Definition SECCOMP_RET_ERRNO : Z := 0x00050000.
Definition SECCOMP_RET_USER_NOTIF : Z := 0x7fc00000.
Definition SECCOMP_RET_TRACE : Z := 0x7ff00000.
Definition SECCOMP_RET_LOG : Z := 0x7ffc0000.
Definition SECCOMP_RET_ALLOW : Z := 0x7fff0000.

Definition SECCOMP_RET_ACTION_FULL : Z := 0xffff0000.
Definition SECCOMP_RET_DATA : Z := 0x0000ffff.

(** What a return value makes the kernel do with the call. *)
Inductive action :=
| KillProcess | KillThread | Trap | Fail (err : Z) | Notify | Trace | Log | Allow
| Unknown.

#[global] Instance action_eq_dec : EqDecision action.
Proof. solve_decision. Defined.

Definition action_of (ret : Z) : action :=
  let a := Z.land ret SECCOMP_RET_ACTION_FULL in
  if a =? SECCOMP_RET_KILL_PROCESS then KillProcess
  else if a =? SECCOMP_RET_KILL then KillThread
  else if a =? SECCOMP_RET_TRAP then Trap
  else if a =? SECCOMP_RET_ERRNO then Fail (Z.land ret SECCOMP_RET_DATA)
  else if a =? SECCOMP_RET_USER_NOTIF then Notify
  else if a =? SECCOMP_RET_TRACE then Trace
  else if a =? SECCOMP_RET_LOG then Log
  else if a =? SECCOMP_RET_ALLOW then Allow
  else Unknown.

Definition filter_action (prog : list sock_filter) (d : seccomp_data) : option action :=
  action_of <$> bpf_decide prog d.

(** ** A program that passed the checks decides every call *)

Lemma sd_words_length d : length (sd_words d) = 16%nat.
Proof. done. Qed.

Lemma load_word_ok d off :
  (0 <=? off) && (off mod 4 =? 0) && (off <? 64) = true →
  ∃ v, load_word d off = Some v.
Proof.
  intros H. bool_facts. unfold load_word.
  replace ((0 <=? off) && (off mod 4 =? 0)) with true by lia.
  apply lookup_lt_is_Some. rewrite sd_words_length.
  assert (off / 4 < 16) by (apply Z.div_lt_upper_bound; lia).
  assert (0 <= off / 4) by (apply Z.div_pos; lia). lia.
Qed.

Lemma ends_in_ret_tail i j rest :
  ends_in_ret (i :: j :: rest) = ends_in_ret (j :: rest).
Proof. done. Qed.

Lemma bpf_run_total d prog skip A :
  insns_ok prog = true → ends_in_ret prog = true → (skip < length prog)%nat →
  is_Some (bpf_run d prog skip A).
Proof.
  revert skip A. induction prog as [|i rest IH]; intros skip A Hok Hret Hs; [simpl in Hs; lia|].
  cbn [insns_ok] in Hok. apply andb_true_iff in Hok as [Hi Hrest].
  destruct skip as [|skip]; cbn [bpf_run].
  2:{ destruct rest as [|j rest]; [simpl in Hs; lia|].
      apply IH; [done|by rewrite <- Hret|simpl in *; lia]. }
  destruct (f_code i =? RET_K) eqn:ER; [eauto|].
  assert (rest ≠ []) as Hne.
  { intros ->. unfold ends_in_ret in Hret; simpl in Hret. congruence. }
  assert (ends_in_ret rest = true) as Hret'.
  { destruct rest; [done|]. by rewrite <- Hret. }
  assert (0 < length rest)%nat by (destruct rest; [done|simpl; lia]).
  unfold insn_ok in Hi. rewrite ER in Hi.
  destruct (f_code i =? LD_ABS) eqn:EL.
  { destruct (load_word_ok d _ Hi) as [v ->]. by apply IH. }
  destruct (f_code i =? LD_IMM) eqn:EI; [by apply IH|].
  destruct (f_code i =? ADD_K) eqn:EA; [by apply IH|]. simpl in Hi.
  destruct (f_code i =? JA) eqn:EJ.
  { bool_facts. apply IH; [done..|lia]. }
  destruct (jump_cond (f_code i)) as [c|]; [|done].
  bool_facts. apply IH; [done..|]. by destruct (c A (f_k i)).
Qed.

Lemma bpf_valid_decides prog d : bpf_valid prog = true → is_Some (bpf_decide prog d).
Proof.
  unfold bpf_valid. rewrite !andb_true_iff. intros [[_ Hok] Hret].
  apply bpf_run_total; [done..|].
  destruct prog; [done|simpl; lia].
Qed.

(** ** Words of a 64-bit value *)

Lemma lo32_mod z : lo32 z = z mod 2 ^ 32.
Proof. unfold lo32. change UINT_MAX with (Z.ones 32). by rewrite Z.land_ones. Qed.

Lemma hi32_div z : hi32 z = z / 2 ^ 32.
Proof. unfold hi32. by rewrite Z.shiftr_div_pow2. Qed.

Lemma hi_lo_32 z : z = 2 ^ 32 * hi32 z + lo32 z.
Proof. rewrite lo32_mod, hi32_div. by apply Z.div_mod. Qed.

Lemma lo32_range z : 0 <= lo32 z <= UINT_MAX.
Proof.
  rewrite lo32_mod. unfold UINT_MAX. pose proof (Z.mod_pos_bound z (2 ^ 32)). lia.
Qed.

Lemma hi32_zero z : 0 <= z → (hi32 z =? 0) = (z <=? UINT_MAX).
Proof.
  intros Hz. pose proof (hi_lo_32 z). pose proof (lo32_range z).
  assert (0 <= hi32 z) by (rewrite hi32_div; apply Z.div_pos; lia).
  unfold UINT_MAX in *. destruct (hi32 z =? 0) eqn:E; bool_facts; lia.
Qed.
