(* ===== verification/SeccompFilters.v ===== *)
(** The filters of the seccomp programs ([seccomp/*.c]), one [Module] per
    program: the instruction array as the program builds it and the function
    that installs it.  The theorems give, for every filter, the decision it
    takes on every system call. *)
From S2P Require Import Prelude CLib ErrorFunctions Proc Bpf.
Local Open Scope Z_scope.

(** ** Constants of the kernel's headers *)

Definition AUDIT_ARCH_X86_64 : Z := 0xC000003E.
Definition AUDIT_ARCH_I386 : Z := 0x40000003.
Definition AUDIT_ARCH_AARCH64 : Z := 0xC00000B7.
Definition X32_SYSCALL_BIT : Z := 0x40000000.

Definition NR_open : Z := 2.
Definition NR_lseek : Z := 8.
Definition NR_mkdir : Z := 83.
Definition NR_getppid : Z := 110.
Definition NR_openat : Z := 257.
Definition NR_openat_aarch64 : Z := 56.

Definition O_WRONLY : Z := 1.
Definition O_RDWR : Z := 2.
Definition O_CREAT : Z := 64.

Definition SECCOMP_SET_MODE_FILTER : Z := 1.
Definition SECCOMP_FILTER_FLAG_NEW_LISTENER : Z := 8.

(** ** Installing a filter *)

(** [struct sock_fprog]: [len] is an [unsigned short]. *)
Record sock_fprog := Fprog { fp_len : Z; fp_filter : list sock_filter }.

(** [.len = sizeof(filter) / sizeof(filter[0])] *)
Definition fprog_of (filter : list sock_filter) : sock_fprog :=
  Fprog (to_unsigned 16 (Z.of_nat (length filter))) filter.

(** [seccomp(operation, flags, prog)] and the allocator. *)
Class SeccompSys (W : Type) := {
  sys_seccomp : Z → Z → sock_fprog → W → (Z + Z) * W;
  sys_prctl_no_new_privs : W → (Z + Z) * W;
  sys_malloc : Z → W → (Z + unit) * W
}.

(** The calls the installing programs make. *)
Inductive scall :=
| Seccomp (op flags : Z) (prog : sock_fprog)
| NoNewPrivs
| Malloc (size : Z).

Section install.
Context {L : Libc} {W : Type} `{!SeccompSys W}.
Local Abbreviation P := (M (pst unit scall W)).

Definition seccomp (op flags : Z) (prog : sock_fprog) : P (Z + Z) :=
  call (Seccomp op flags prog) (sys_seccomp op flags prog).

Definition prctl_no_new_privs : P (Z + Z) := call NoNewPrivs sys_prctl_no_new_privs.

(** The tail the [install_filter] functions share. *)
Definition install (fail : string → P unit) (filter : list sock_filter) : P unit :=
  r ← seccomp SECCOMP_SET_MODE_FILTER 0 (fprog_of filter);
  match r with
  | inl _ => fail "seccomp"
  | inr _ => skip
  end.

(** [prctl(PR_SET_NO_NEW_PRIVS, ...)] before the filter goes in. *)
Definition no_new_privs (fail : string → P unit) : P unit :=
  r ← prctl_no_new_privs;
  match r with
  | inl _ => fail "prctl"
  | inr v => if v =? 0 then skip else fail "prctl"
  end.
End install.

(** ** The boilerplate of the x86-64 filters *)

Definition X86_64_CHECK_ARCH_AND_LOAD_SYSCALL_NR : list sock_filter := [
  BPF_STMT (BPF_LD .| BPF_W .| BPF_ABS) off_arch;
  BPF_JUMP (BPF_JMP .| BPF_JEQ .| BPF_K) AUDIT_ARCH_X86_64 0 2;
  BPF_STMT (BPF_LD .| BPF_W .| BPF_ABS) off_nr;
  BPF_JUMP (BPF_JMP .| BPF_JGE .| BPF_K) X32_SYSCALL_BIT 0 1;
  BPF_STMT (BPF_RET .| BPF_K) SECCOMP_RET_KILL_PROCESS ].

Module Multiarch.
Definition NR_mq_notify_x86_64 : Z := 244.
Definition NR_mq_notify_i386 : Z := 281.
Definition NR_mq_notify_x32 : Z := 527.

Definition filter : list sock_filter := [
  (* [0] *) BPF_STMT (BPF_LD .| BPF_W .| BPF_ABS) off_arch;
  (* [1] *) BPF_JUMP (BPF_JMP .| BPF_JEQ .| BPF_K) AUDIT_ARCH_X86_64 0 5;
  (* [2] *) BPF_STMT (BPF_LD .| BPF_W .| BPF_ABS) off_nr;
  (* [3] *) BPF_JUMP (BPF_JMP .| BPF_JEQ .| BPF_K) NR_mq_notify_x86_64 0 1;
  (* [4] *) BPF_STMT (BPF_RET .| BPF_K) (SECCOMP_RET_ERRNO .| NR_mq_notify_x86_64);
  (* [5] *) BPF_JUMP (BPF_JMP .| BPF_JEQ .| BPF_K) (NR_mq_notify_x32 + X32_SYSCALL_BIT) 0 5;
  (* [6] *) BPF_STMT (BPF_RET .| BPF_K) (SECCOMP_RET_ERRNO .| NR_mq_notify_x32);
  (* [7] *) BPF_JUMP (BPF_JMP .| BPF_JEQ .| BPF_K) AUDIT_ARCH_I386 0 4;
  (* [8] *) BPF_STMT (BPF_LD .| BPF_W .| BPF_ABS) off_nr;
  (* [9] *) BPF_JUMP (BPF_JMP .| BPF_JEQ .| BPF_K) NR_mq_notify_i386 0 1;
  (* [10] *) BPF_STMT (BPF_RET .| BPF_K) (SECCOMP_RET_ERRNO .| NR_mq_notify_i386);
  (* [11] *) BPF_STMT (BPF_RET .| BPF_K) SECCOMP_RET_ALLOW;
  (* [12] *) BPF_STMT (BPF_RET .| BPF_K) SECCOMP_RET_KILL_PROCESS ].

Definition install_filter {L : Libc} {W} `{!SeccompSys W} : M (pst unit scall W) unit :=
  install perror_exit filter.
End Multiarch.

Module Arg64.
Definition filter : list sock_filter := [
  BPF_STMT (BPF_LD .| BPF_W .| BPF_ABS) off_arch;
  BPF_JUMP (BPF_JMP .| BPF_JEQ .| BPF_K) AUDIT_ARCH_X86_64 0 2;
  BPF_STMT (BPF_LD .| BPF_W .| BPF_ABS) off_nr;
  BPF_JUMP (BPF_JMP .| BPF_JGE .| BPF_K) X32_SYSCALL_BIT 0 1;
  BPF_STMT (BPF_RET .| BPF_K) SECCOMP_RET_KILL_PROCESS;
  BPF_JUMP (BPF_JMP .| BPF_JEQ .| BPF_K) NR_lseek 1 0;
  BPF_STMT (BPF_RET .| BPF_K) SECCOMP_RET_ALLOW;
  BPF_STMT (BPF_LD .| BPF_W .| BPF_ABS) (off_arg 1 + 4);
  BPF_JUMP (BPF_JMP .| BPF_JEQ .| BPF_K) 0 1 0;
  BPF_STMT (BPF_RET .| BPF_K) (SECCOMP_RET_ERRNO .| 2);
  BPF_STMT (BPF_LD .| BPF_W .| BPF_ABS) (off_arg 1);
  BPF_JUMP (BPF_JMP .| BPF_JGT .| BPF_K) 1000 0 1;
  BPF_STMT (BPF_RET .| BPF_K) (SECCOMP_RET_ERRNO .| 1);
  BPF_STMT (BPF_RET .| BPF_K) SECCOMP_RET_ALLOW ].

Definition install_filter {L : Libc} {W} `{!SeccompSys W} : M (pst unit scall W) unit :=
  install p_systmErr filter.
End Arg64.

(** The two architectures the conditional compilation of [seccomp_deny_open.c]
    and [seccomp_control_open.c] distinguishes. *)
Inductive arch := X86_64 | AArch64.

(** Architecture check and load of the call number, for each architecture. *)
Definition arch_check (a : arch) : list sock_filter :=
  match a with
  | X86_64 => [
      BPF_STMT (BPF_LD .| BPF_W .| BPF_ABS) off_arch;
      BPF_JUMP (BPF_JMP .| BPF_JEQ .| BPF_K) AUDIT_ARCH_X86_64 0 2;
      BPF_STMT (BPF_LD .| BPF_W .| BPF_ABS) off_nr;
      BPF_JUMP (BPF_JMP .| BPF_JGE .| BPF_K) X32_SYSCALL_BIT 0 1;
      BPF_STMT (BPF_RET .| BPF_K) SECCOMP_RET_KILL_PROCESS ]
  | AArch64 => [
      BPF_STMT (BPF_LD .| BPF_W .| BPF_ABS) off_arch;
      BPF_JUMP (BPF_JMP .| BPF_JEQ .| BPF_K) AUDIT_ARCH_AARCH64 1 0;
      BPF_STMT (BPF_RET .| BPF_K) SECCOMP_RET_KILL_PROCESS;
      BPF_STMT (BPF_LD .| BPF_W .| BPF_ABS) off_nr ]
  end.

(** [__NR_openat] of the architecture; AArch64 has no [open()]. *)
Definition nr_openat (a : arch) : Z :=
  match a with X86_64 => NR_openat | AArch64 => NR_openat_aarch64 end.

Module DenyOpen.
Definition filter (a : arch) : list sock_filter :=
  arch_check a ++
  match a with
  | X86_64 => [BPF_JUMP (BPF_JMP .| BPF_JEQ .| BPF_K) NR_open 2 0]
  | AArch64 => []
  end ++ [
  BPF_JUMP (BPF_JMP .| BPF_JEQ .| BPF_K) (nr_openat a) 1 0;
  BPF_STMT (BPF_RET .| BPF_K) SECCOMP_RET_ALLOW;
  BPF_STMT (BPF_RET .| BPF_K) SECCOMP_RET_KILL_PROCESS ].

Definition install_filter {L : Libc} {W} `{!SeccompSys W} (a : arch)
  : M (pst unit scall W) unit := install p_systmErr (filter a).
End DenyOpen.

Module ControlOpen.
Definition filter (a : arch) : list sock_filter :=
  arch_check a ++
  match a with
  | X86_64 => [
      BPF_JUMP (BPF_JMP .| BPF_JEQ .| BPF_K) NR_open 0 2;
      BPF_STMT (BPF_LD .| BPF_W .| BPF_ABS) (off_arg 1);
      BPF_JUMP (BPF_JMP .| BPF_JA) 3 0 0 ]
  | AArch64 => []
  end ++ [
  BPF_JUMP (BPF_JMP .| BPF_JEQ .| BPF_K) (nr_openat a) 1 0;
  BPF_STMT (BPF_RET .| BPF_K) SECCOMP_RET_ALLOW;
  BPF_STMT (BPF_LD .| BPF_W .| BPF_ABS) (off_arg 2);
  BPF_JUMP (BPF_JMP .| BPF_JSET .| BPF_K) O_CREAT 0 1;
  BPF_STMT (BPF_RET .| BPF_K) SECCOMP_RET_KILL_PROCESS;
  BPF_JUMP (BPF_JMP .| BPF_JSET .| BPF_K) (O_WRONLY .| O_RDWR) 0 1;
  BPF_STMT (BPF_RET .| BPF_K) (SECCOMP_RET_ERRNO .| ENOTSUP);
  BPF_STMT (BPF_RET .| BPF_K) SECCOMP_RET_ALLOW ].

Definition install_filter {L : Libc} {W} `{!SeccompSys W} (a : arch)
  : M (pst unit scall W) unit := install p_systmErr (filter a).
End ControlOpen.

Module DenySyscall.
(** No architecture check; the number is an [int] argument. *)
Definition filter (syscallNum : Z) : list sock_filter := [
  BPF_STMT (BPF_LD .| BPF_W .| BPF_ABS) off_nr;
  BPF_JUMP (BPF_JMP .| BPF_JEQ .| BPF_K) (to_unsigned 32 syscallNum) 1 0;
  BPF_STMT (BPF_RET .| BPF_K) SECCOMP_RET_ALLOW;
  BPF_STMT (BPF_RET .| BPF_K) SECCOMP_RET_KILL_PROCESS ].

Definition install_filter {L : Libc} {W} `{!SeccompSys W} (syscallNum : Z)
  : M (pst unit scall W) unit := install p_systmErr (filter syscallNum).
End DenySyscall.

Module Perf.
Definition filter : list sock_filter := [
  BPF_STMT (BPF_LD .| BPF_W .| BPF_ABS) off_arch;
  BPF_JUMP (BPF_JMP .| BPF_JEQ .| BPF_K) AUDIT_ARCH_X86_64 0 2;
  BPF_STMT (BPF_LD .| BPF_W .| BPF_ABS) off_nr;
  BPF_JUMP (BPF_JMP .| BPF_JGE .| BPF_K) X32_SYSCALL_BIT 0 1;
  BPF_STMT (BPF_RET .| BPF_K) SECCOMP_RET_KILL_PROCESS;
  BPF_JUMP (BPF_JMP .| BPF_JEQ .| BPF_K) NR_openat 1 0;
  BPF_STMT (BPF_RET .| BPF_K) SECCOMP_RET_ALLOW;
  BPF_STMT (BPF_RET .| BPF_K) SECCOMP_RET_KILL_PROCESS ].

Definition install_filter {L : Libc} {W} `{!SeccompSys W} : M (pst unit scall W) unit :=
  install perror_exit filter.
End Perf.

Module Logging.
Definition filter : list sock_filter := [
  BPF_STMT (BPF_LD .| BPF_W .| BPF_ABS) off_arch;
  BPF_JUMP (BPF_JMP .| BPF_JEQ .| BPF_K) AUDIT_ARCH_X86_64 0 2;
  BPF_STMT (BPF_LD .| BPF_W .| BPF_ABS) off_nr;
  BPF_JUMP (BPF_JMP .| BPF_JGE .| BPF_K) X32_SYSCALL_BIT 0 1;
  BPF_STMT (BPF_RET .| BPF_K) SECCOMP_RET_KILL_PROCESS;
  BPF_STMT (BPF_RET .| BPF_K) SECCOMP_RET_LOG ].

Definition install_filter {L : Libc} {W} `{!SeccompSys W} : M (pst unit scall W) unit :=
  install p_systmErr filter.
End Logging.

Module TrapSigsys.
Definition filter : list sock_filter := [
  BPF_STMT (BPF_LD .| BPF_W .| BPF_ABS) off_arch;
  BPF_JUMP (BPF_JMP .| BPF_JEQ .| BPF_K) AUDIT_ARCH_X86_64 1 0;
  BPF_STMT (BPF_RET .| BPF_K) SECCOMP_RET_KILL;
  BPF_STMT (BPF_LD .| BPF_W .| BPF_ABS) off_nr;
  BPF_JUMP (BPF_JMP .| BPF_JGE .| BPF_K) X32_SYSCALL_BIT 0 1;
  BPF_STMT (BPF_RET .| BPF_K) SECCOMP_RET_KILL_PROCESS;
  BPF_JUMP (BPF_JMP .| BPF_JEQ .| BPF_K) NR_getppid 0 1;
  BPF_STMT (BPF_RET .| BPF_K) SECCOMP_RET_TRAP;
  BPF_STMT (BPF_RET .| BPF_K) SECCOMP_RET_ALLOW ].

Definition install_filter {L : Libc} {W} `{!SeccompSys W} : M (pst unit scall W) unit :=
  install p_systmErr filter.
End TrapSigsys.

(** The notification filters of [seccomp_unotify_mkdir.c] and
    [seccomp_unotify_openat.c], and the optional second filter of the former. *)
Module Unotify.
Definition notify_filter (nr : Z) : list sock_filter :=
  X86_64_CHECK_ARCH_AND_LOAD_SYSCALL_NR ++ [
  BPF_JUMP (BPF_JMP .| BPF_JEQ .| BPF_K) nr 0 1;
  BPF_STMT (BPF_RET + BPF_K) SECCOMP_RET_USER_NOTIF;
  BPF_STMT (BPF_RET .| BPF_K) SECCOMP_RET_ALLOW ].

Definition mkdir_filter : list sock_filter := notify_filter NR_mkdir.
Definition openat_filter : list sock_filter := notify_filter NR_openat.

(** The array of [installFilter2] before its last entry is replaced. *)
Definition filter2_template : list sock_filter :=
  X86_64_CHECK_ARCH_AND_LOAD_SYSCALL_NR ++ [
  BPF_JUMP (BPF_JMP .| BPF_JEQ .| BPF_K) NR_mkdir 1 0;
  BPF_STMT (BPF_RET .| BPF_K) SECCOMP_RET_ALLOW;
  SockFilter 0 0 0 0 ].

Definition filter2 (secondFilter : Z) : list sock_filter :=
  let retTrace := BPF_STMT (BPF_RET + BPF_K) SECCOMP_RET_TRACE in
  let retErrno := BPF_STMT (BPF_RET + BPF_K) (SECCOMP_RET_ERRNO .| ENOTSUP) in
  <[(length filter2_template - 1)%nat :=
      if secondFilter =? SECCOMP_RET_ERRNO then retErrno else retTrace]>
    filter2_template.
End Unotify.

Module Bench.
Section bench.
Context {L : Libc} {W : Type} `{!SeccompSys W}.
Local Abbreviation P := (M (pst unit scall W)).

(** [filter[j] = i] in the allocated array. *)
Definition put (filter : list sock_filter) (j : Z) (i : sock_filter)
    : P (list sock_filter) :=
  if (0 <=? j) && (j <? Z.of_nat (length filter))
  then mret (<[Z.to_nat j := i]> filter) else stop HUndef.

(** [for (int j = 0; j < icnt; j++) filter[j] = instruction;] *)
Fixpoint fill (n : nat) (j : Z) (i : sock_filter) (filter : list sock_filter)
    : P (list sock_filter) :=
  match n with
  | O => mret filter
  | S n => filter' ← put filter j i; fill n (j + 1) i filter'
  end.

Definition create_filter (instr : ascii) (icnt : Z) : P sock_fprog :=
  let load := BPF_STMT (BPF_LD .| BPF_W .| BPF_ABS) 0 in
  let jump := BPF_JUMP (BPF_JMP .| BPF_JEQ .| BPF_K) 0 0 0 in
  let add := BPF_STMT (BPF_ALU .| BPF_ADD .| BPF_K) 1 in
  let ret := BPF_STMT (BPF_RET .| BPF_K) SECCOMP_RET_ALLOW in
  instruction ←
    (if decide (instr = "a"%char) then mret add
     else if decide (instr = "j"%char) then mret jump
     else if decide (instr = "l"%char) then mret load
     else eprintf ("Bad instruction value: " +:+ String instr nl);; p_exit EXIT_FAILURE);
  let fsize := icnt + 1 in
  if INT_MAX <? fsize then stop HUndef else
  (* [calloc] of a negative count asks for more than fits in memory *)
  a ← call (Malloc (8 * to_unsigned 64 fsize)) (sys_malloc (8 * to_unsigned 64 fsize));
  match a with
  | inl _ => perror_exit "calloc"
  | inr _ =>
      let filter := replicate (Z.to_nat fsize) (SockFilter 0 0 0 0) in
      filter ← fill (Z.to_nat icnt) 0 instruction filter;
      filter ← put filter icnt ret;
      m ← call (Malloc 16) (sys_malloc 16);
      match m with
      | inl _ => perror_exit "malloc"
      | inr _ =>
          printf ("Total instructions in filter (including " +:+
            String dquote ("return" +:+ String dquote ("): " +:+ fmt_d fsize +:+ nl)));;
          mret (Fprog (to_unsigned 16 fsize) filter)
      end
  end.
End bench.
End Bench.

(** ** Symbolic execution of filters *)

Section exec.
Context (d : seccomp_data).

Lemma load_nr : load_word d off_nr = Some (to_unsigned 32 d.(sd_nr)).
Proof. reflexivity. Qed.
Lemma load_arch : load_word d off_arch = Some d.(sd_arch).
Proof. reflexivity. Qed.
Lemma load_arg1 : load_word d (off_arg 1) = Some (lo32 (sd_arg d 1)).
Proof. reflexivity. Qed.
Lemma load_arg1_hi : load_word d (off_arg 1 + 4) = Some (hi32 (sd_arg d 1)).
Proof. reflexivity. Qed.
Lemma load_arg2 : load_word d (off_arg 2) = Some (lo32 (sd_arg d 2)).
Proof. reflexivity. Qed.

Lemma run_ld k v rest A :
  load_word d k = Some v →
  bpf_run d (BPF_STMT (BPF_LD .| BPF_W .| BPF_ABS) k :: rest) 0 A = bpf_run d rest 0 v.
Proof. intros H. cbn [bpf_run BPF_STMT f_code f_k]. by rewrite H. Qed.

Lemma run_jeq k jt jf rest A :
  bpf_run d (BPF_JUMP (BPF_JMP .| BPF_JEQ .| BPF_K) k jt jf :: rest) 0 A =
    bpf_run d rest (if A =? k then jt else jf) A.
Proof. reflexivity. Qed.

Lemma run_jgt k jt jf rest A :
  bpf_run d (BPF_JUMP (BPF_JMP .| BPF_JGT .| BPF_K) k jt jf :: rest) 0 A =
    bpf_run d rest (if k <? A then jt else jf) A.
Proof. reflexivity. Qed.

Lemma run_jge k jt jf rest A :
  bpf_run d (BPF_JUMP (BPF_JMP .| BPF_JGE .| BPF_K) k jt jf :: rest) 0 A =
    bpf_run d rest (if k <=? A then jt else jf) A.
Proof. reflexivity. Qed.

Lemma run_jset k jt jf rest A :
  bpf_run d (BPF_JUMP (BPF_JMP .| BPF_JSET .| BPF_K) k jt jf :: rest) 0 A =
    bpf_run d rest (if has A k then jt else jf) A.
Proof. reflexivity. Qed.

Lemma run_ja k jt jf rest A :
  bpf_run d (BPF_JUMP (BPF_JMP .| BPF_JA) k jt jf :: rest) 0 A =
    bpf_run d rest (Z.to_nat k) A.
Proof. reflexivity. Qed.

Lemma run_ret k rest A :
  bpf_run d (BPF_STMT (BPF_RET .| BPF_K) k :: rest) 0 A = Some k.
Proof. reflexivity. Qed.

Lemma run_ret_add k rest A :
  bpf_run d (BPF_STMT (BPF_RET + BPF_K) k :: rest) 0 A = Some k.
Proof. reflexivity. Qed.

Lemma run_skip i rest n A : bpf_run d (i :: rest) (S n) A = bpf_run d rest n A.
Proof. reflexivity. Qed.
End exec.

(** Runs a filter on symbolic data, splitting on each conditional jump. *)
Ltac bpf_exec :=
  unfold bpf_decide;
  repeat first
    [ rewrite run_skip
    | rewrite (run_ld _ _ _ _ _ (load_nr _))
    | rewrite (run_ld _ _ _ _ _ (load_arch _))
    | rewrite (run_ld _ _ _ _ _ (load_arg1 _))
    | rewrite (run_ld _ _ _ _ _ (load_arg1_hi _))
    | rewrite (run_ld _ _ _ _ _ (load_arg2 _))
    | rewrite run_ret | rewrite run_ret_add
    | rewrite run_ja;
      match goal with |- context [Z.to_nat ?k] =>
        let n := eval compute in (Z.to_nat k) in change (Z.to_nat k) with n end
    | first [rewrite run_jeq | rewrite run_jgt | rewrite run_jge | rewrite run_jset];
      match goal with |- context [bpf_run _ _ (if ?b then _ else _)] =>
        destruct b eqn:? end ].

(** An [int] as the filter sees it: the conversion to 32 bits is injective. *)
Lemma int_word_eq a b :
  INT_MIN <= a <= INT_MAX → INT_MIN <= b <= INT_MAX →
  (to_unsigned 32 a =? to_unsigned 32 b) = (a =? b).
Proof.
  unfold INT_MIN, INT_MAX, to_unsigned. intros Ha Hb.
  destruct (a =? b) eqn:E; bool_facts; [subst; apply Z.eqb_refl|].
  apply Z.eqb_neq. intros H. apply E.
  assert ((a - b) mod 2 ^ 32 = 0) as H0 by (rewrite Zminus_mod, H, Z.sub_diag; done).
  apply Z.mod_divide in H0 as [k Hk]; [|done]. nia.
Qed.

Lemma nr_word_eq d n :
  sd_wf d → 0 <= n <= INT_MAX → (to_unsigned 32 d.(sd_nr) =? n) = (d.(sd_nr) =? n).
Proof.
  intros [H _] Hn. unfold INT_MAX in *.
  rewrite <- (to_unsigned_small 32 n) at 1 by lia.
  apply int_word_eq; unfold INT_MIN, INT_MAX in *; lia.
Qed.

(** The x32 test [BPF_JGE X32_SYSCALL_BIT] as a range of call numbers. *)
Lemma x32_word d :
  sd_wf d →
  (X32_SYSCALL_BIT <=? to_unsigned 32 d.(sd_nr)) =
    negb ((0 <=? d.(sd_nr)) && (d.(sd_nr) <? X32_SYSCALL_BIT)).
Proof.
  intros [H _]. unfold INT_MIN, INT_MAX, to_unsigned, X32_SYSCALL_BIT in *.
  destruct (decide (0 <= sd_nr d)).
  - rewrite Z.mod_small by lia. lia.
  - rewrite <- (Z.mod_add _ 1), Z.mod_small by lia. lia.
Qed.

(** A native x86-64 call: that architecture, and a number below the x32 ones. *)
Definition native (d : seccomp_data) : bool :=
  (d.(sd_arch) =? AUDIT_ARCH_X86_64) && ((0 <=? d.(sd_nr)) && (d.(sd_nr) <? X32_SYSCALL_BIT)).

(** The boilerplate kills every call that is not native and hands the call
    number to the rest of the filter otherwise. *)
Lemma check_arch_run d rest :
  sd_wf d →
  bpf_run d (X86_64_CHECK_ARCH_AND_LOAD_SYSCALL_NR ++ rest) 0 0 =
    if native d then bpf_run d rest 0 (to_unsigned 32 d.(sd_nr))
    else Some SECCOMP_RET_KILL_PROCESS.
Proof.
  intros Hwf. unfold native, X86_64_CHECK_ARCH_AND_LOAD_SYSCALL_NR. simpl app.
  bpf_exec; try rewrite x32_word in * by done; simpl; try done;
    by destruct ((0 <=? sd_nr d) && _).
Qed.

Lemma arch_check_aarch64_run d rest :
  bpf_run d (arch_check AArch64 ++ rest) 0 0 =
    if d.(sd_arch) =? AUDIT_ARCH_AARCH64 then bpf_run d rest 0 (to_unsigned 32 d.(sd_nr))
    else Some SECCOMP_RET_KILL_PROCESS.
Proof. simpl app. by bpf_exec. Qed.

(** Replaces comparisons of the loaded call number by comparisons of [sd_nr]. *)
Ltac nr_words Hwf :=
  repeat match goal with
  | H : context [to_unsigned 32 (sd_nr ?d) =? ?n] |- _ =>
      rewrite (nr_word_eq d n Hwf) in H by (compute; intuition congruence)
  end;
  repeat match goal with
  | H : ?b = true |- context [?b] => rewrite H
  | H : ?b = false |- context [?b] => rewrite H
  end.

(** ** The decisions *)

(** C28: the filter of [seccomp_multiarch.c] fails [mq_notify()] on each of the
    three Intel ABIs with that ABI's own call number as the error, allows every
    other call of x86-64, x32 and i386, and kills the process on any other
    architecture. *)
Theorem multiarch_decision d :
  sd_wf d →
  filter_action Multiarch.filter d = Some (
    if d.(sd_arch) =? AUDIT_ARCH_X86_64 then
      if d.(sd_nr) =? 244 then Fail 244
      else if d.(sd_nr) =? 527 + X32_SYSCALL_BIT then Fail 527
      else Allow
    else if d.(sd_arch) =? AUDIT_ARCH_I386 then
      if d.(sd_nr) =? 281 then Fail 281 else Allow
    else KillProcess).
Proof.
  intros Hwf. unfold filter_action, Multiarch.filter, Multiarch.NR_mq_notify_x86_64,
    Multiarch.NR_mq_notify_i386, Multiarch.NR_mq_notify_x32.
  bpf_exec; nr_words Hwf; done.
Qed.

Lemma multiarch_decision_witness :
  sd_wf (SeccompData (527 + X32_SYSCALL_BIT) AUDIT_ARCH_X86_64 0 [0;0;0;0;0;0]) ∧
  filter_action Multiarch.filter
    (SeccompData (527 + X32_SYSCALL_BIT) AUDIT_ARCH_X86_64 0 [0;0;0;0;0;0]) = Some (Fail 527).
Proof.
  assert (sd_wf (SeccompData (527 + X32_SYSCALL_BIT) AUDIT_ARCH_X86_64 0 [0;0;0;0;0;0]))
    as Hwf by (unfold sd_wf; simpl; split_and!; repeat constructor; by compute).
  split; [done|]. rewrite (multiarch_decision _ Hwf). reflexivity.
Defined.

(** The filter of [seccomp_arg64.c] compares the whole 64-bit [offset]
    argument of a native [lseek()] although BPF loads 32 bits at a time: an
    offset above 2^32-1 fails with errno 2, a smaller one above 1000 with
    errno 1, and any other offset is allowed.  Every other native call is
    allowed and every foreign one kills the process. *)
Theorem arg64_decision d :
  sd_wf d →
  filter_action Arg64.filter d = Some (
    if native d then
      if d.(sd_nr) =? NR_lseek then
        if UINT_MAX <? sd_arg d 1 then Fail 2
        else if 1000 <? sd_arg d 1 then Fail 1
        else Allow
      else Allow
    else KillProcess).
Proof.
  intros Hwf. unfold filter_action, bpf_decide.
  change Arg64.filter with
    (X86_64_CHECK_ARCH_AND_LOAD_SYSCALL_NR ++ drop 5 Arg64.filter).
  rewrite check_arch_run by done. destruct (native d); [|done].
  unfold Arg64.filter; simpl drop.
  assert (0 <= sd_arg d 1) as Ha.
  { destruct Hwf as (_ & _ & _ & Hf). unfold sd_arg.
    destruct (sd_args d !! 1%nat) as [a|] eqn:E; [|done].
    rewrite Forall_lookup in Hf. by apply Hf in E as [? _]. }
  pose proof (hi_lo_32 (sd_arg d 1)) as Hsplit.
  bpf_exec; nr_words Hwf; rewrite ?hi32_zero in * by done; bool_facts; try done.
  - replace (UINT_MAX <? sd_arg d 1) with false by lia.
    assert (hi32 (sd_arg d 1) = 0) by (apply Z.eqb_eq; rewrite hi32_zero; lia).
    by replace (1000 <? sd_arg d 1) with true by lia.
  - replace (UINT_MAX <? sd_arg d 1) with false by lia.
    assert (hi32 (sd_arg d 1) = 0) by (apply Z.eqb_eq; rewrite hi32_zero; lia).
    by replace (1000 <? sd_arg d 1) with false by lia.
  - by replace (UINT_MAX <? sd_arg d 1) with true by lia.
Qed.

Lemma arg64_decision_witness :
  filter_action Arg64.filter
    (SeccompData NR_lseek AUDIT_ARCH_X86_64 0 [3;0x100000001;0;0;0;0]) = Some (Fail 2).
Proof. refine (arg64_decision _ _). unfold sd_wf; simpl; split_and!; repeat constructor; by compute. Defined.

(** What [seccomp_control_open.c] decides from the [flags] of an open. *)
Definition open_policy (flags : Z) : action :=
  if has flags O_CREAT then KillProcess
  else if has flags (O_WRONLY .| O_RDWR) then Fail ENOTSUP
  else Allow.

(** The filter of [seccomp_control_open.c], in both its architectures,
    applies the flag policy (kill on [O_CREAT], [ENOTSUP] on an open for
    writing, allow otherwise) to the flag argument of [open()] and of
    [openat()], which sit at different positions, and to no other call. *)
Theorem control_open_decision a d :
  sd_wf d →
  filter_action (ControlOpen.filter a) d = Some (
    match a with
    | X86_64 =>
        if native d then
          if d.(sd_nr) =? NR_open then open_policy (lo32 (sd_arg d 1))
          else if d.(sd_nr) =? NR_openat then open_policy (lo32 (sd_arg d 2))
          else Allow
        else KillProcess
    | AArch64 =>
        if d.(sd_arch) =? AUDIT_ARCH_AARCH64 then
          if d.(sd_nr) =? NR_openat_aarch64 then open_policy (lo32 (sd_arg d 2))
          else Allow
        else KillProcess
    end).
Proof.
  intros Hwf. unfold filter_action, bpf_decide, ControlOpen.filter, open_policy. destruct a.
  - change (arch_check X86_64) with X86_64_CHECK_ARCH_AND_LOAD_SYSCALL_NR.
    rewrite check_arch_run by done. destruct (native d); [|done].
    unfold nr_openat; simpl app. bpf_exec; nr_words Hwf; done.
  - rewrite arch_check_aarch64_run. destruct (sd_arch d =? _); [|done].
    unfold nr_openat; simpl app. bpf_exec; nr_words Hwf; done.
Qed.

Lemma control_open_decision_witness :
  filter_action (ControlOpen.filter X86_64)
    (SeccompData NR_openat AUDIT_ARCH_X86_64 0 [0;0;65;0;0;0]) = Some KillProcess.
Proof. refine (control_open_decision X86_64 _ _). unfold sd_wf; simpl; split_and!; repeat constructor; by compute. Defined.

(** The filter of [seccomp_deny_open.c], in both its architectures, kills
    the process exactly on a foreign call and on a call that opens a file
    ([open()] or [openat()] on x86-64, [openat()] on AArch64); it allows the
    rest. *)
Theorem deny_open_decision a d :
  sd_wf d →
  filter_action (DenyOpen.filter a) d = Some (
    match a with
    | X86_64 =>
        if native d && negb ((d.(sd_nr) =? NR_open) || (d.(sd_nr) =? NR_openat))
        then Allow else KillProcess
    | AArch64 =>
        if (d.(sd_arch) =? AUDIT_ARCH_AARCH64) && negb (d.(sd_nr) =? NR_openat_aarch64)
        then Allow else KillProcess
    end).
Proof.
  intros Hwf. unfold filter_action, bpf_decide, DenyOpen.filter. destruct a.
  - change (arch_check X86_64) with X86_64_CHECK_ARCH_AND_LOAD_SYSCALL_NR.
    rewrite check_arch_run by done. destruct (native d); [|done].
    unfold nr_openat; simpl app. bpf_exec; nr_words Hwf; done.
  - rewrite arch_check_aarch64_run. destruct (sd_arch d =? _); [|done].
    unfold nr_openat; simpl app. bpf_exec; nr_words Hwf; done.
Qed.

Lemma deny_open_decision_witness :
  filter_action (DenyOpen.filter AArch64)
    (SeccompData NR_openat_aarch64 AUDIT_ARCH_AARCH64 0 [0;0;0;0;0;0]) = Some KillProcess.
Proof. refine (deny_open_decision AArch64 _ _). unfold sd_wf; simpl; split_and!; repeat constructor; by compute. Defined.

(** A filter that singles out one native call. *)
Definition single_call_policy (nr : Z) (act : action) (d : seccomp_data) : action :=
  if native d then if d.(sd_nr) =? nr then act else Allow else KillProcess.

Lemma notify_filter_decision nr d :
  sd_wf d → 0 <= nr <= INT_MAX →
  filter_action (Unotify.notify_filter nr) d = Some (single_call_policy nr Notify d).
Proof.
  intros Hwf Hnr. unfold filter_action, bpf_decide, Unotify.notify_filter, single_call_policy.
  rewrite check_arch_run by done. destruct (native d); [|done].
  bpf_exec; rewrite nr_word_eq in * by done;
    match goal with H : (sd_nr d =? nr) = _ |- _ => by rewrite H end.
Qed.

Lemma filter2_decision secondFilter d :
  sd_wf d →
  filter_action (Unotify.filter2 secondFilter) d = Some (single_call_policy NR_mkdir
    (if secondFilter =? SECCOMP_RET_ERRNO then Fail ENOTSUP else Trace) d).
Proof.
  intros Hwf. unfold filter_action, bpf_decide, single_call_policy.
  set (last := if secondFilter =? SECCOMP_RET_ERRNO
               then BPF_STMT (BPF_RET + BPF_K) (SECCOMP_RET_ERRNO .| ENOTSUP)
               else BPF_STMT (BPF_RET + BPF_K) SECCOMP_RET_TRACE).
  change (Unotify.filter2 secondFilter) with (X86_64_CHECK_ARCH_AND_LOAD_SYSCALL_NR ++ [
    BPF_JUMP (BPF_JMP .| BPF_JEQ .| BPF_K) NR_mkdir 1 0;
    BPF_STMT (BPF_RET .| BPF_K) SECCOMP_RET_ALLOW; last ]).
  rewrite check_arch_run by done. destruct (native d); [|done].
  unfold last. destruct (secondFilter =? SECCOMP_RET_ERRNO); bpf_exec; nr_words Hwf; done.
Qed.

(** The single-purpose filters do to each call what their program says:
    [seccomp_perf.c] kills on native [openat()], [seccomp_logging.c] logs every
    native call, the two notification filters refer [mkdir()] and [openat()] to
    the supervisor, and [seccomp_deny_syscall.c] kills on the given number
    whatever the architecture.  [seccomp_trap_sigsys.c] sends SIGSYS on a native
    [getppid()]; on a foreign architecture it kills only the calling thread,
    although on a foreign call number it kills the process. *)
Theorem single_call_decisions d syscallNum :
  sd_wf d → INT_MIN <= syscallNum <= INT_MAX →
  filter_action Perf.filter d = Some (single_call_policy NR_openat KillProcess d) ∧
  filter_action Logging.filter d = Some (if native d then Log else KillProcess) ∧
  filter_action Unotify.mkdir_filter d = Some (single_call_policy NR_mkdir Notify d) ∧
  filter_action Unotify.openat_filter d = Some (single_call_policy NR_openat Notify d) ∧
  filter_action (DenySyscall.filter syscallNum) d =
    Some (if d.(sd_nr) =? syscallNum then KillProcess else Allow) ∧
  filter_action TrapSigsys.filter d = Some (
    if d.(sd_arch) =? AUDIT_ARCH_X86_64 then single_call_policy NR_getppid Trap d
    else KillThread).
Proof.
  intros Hwf Hn. split_and!.
  - unfold filter_action, bpf_decide, single_call_policy.
    change Perf.filter with (X86_64_CHECK_ARCH_AND_LOAD_SYSCALL_NR ++ drop 5 Perf.filter).
    rewrite check_arch_run by done. destruct (native d); [|done].
    unfold Perf.filter; simpl drop. bpf_exec; nr_words Hwf; done.
  - unfold filter_action, bpf_decide.
    change Logging.filter with (X86_64_CHECK_ARCH_AND_LOAD_SYSCALL_NR ++ drop 5 Logging.filter).
    rewrite check_arch_run by done. by destruct (native d).
  - by apply notify_filter_decision.
  - by apply notify_filter_decision.
  - unfold filter_action, DenySyscall.filter.
    bpf_exec; rewrite int_word_eq in * by (try apply Hwf; done); nr_words Hwf; done.
  - unfold filter_action, TrapSigsys.filter, single_call_policy, native.
    pose proof (x32_word d Hwf) as Hx.
    destruct ((0 <=? sd_nr d) && (sd_nr d <? X32_SYSCALL_BIT)); simpl in Hx;
      bpf_exec; nr_words Hwf; congruence || done.
Qed.

Lemma single_call_decisions_witness :
  filter_action TrapSigsys.filter
    (SeccompData NR_getppid AUDIT_ARCH_X86_64 0 [0;0;0;0;0;0]) = Some Trap ∧
  filter_action (DenySyscall.filter (-1))
    (SeccompData NR_getppid AUDIT_ARCH_X86_64 0 [0;0;0;0;0;0]) = Some Allow.
Proof.
  destruct (single_call_decisions
    (SeccompData NR_getppid AUDIT_ARCH_X86_64 0 [0;0;0;0;0;0]) (-1)) as (_ & _ & _ & _ & H1 & H2).
  - unfold sd_wf; simpl; split_and!; repeat constructor; by compute.
  - by compute.
  - split; [exact H2|exact H1].
Defined.

(** ** Several filters

    When several filters are installed, all are run and one result prevails.
    [resolve] is the kernel's choice among the results; the law is the
    precedence documented for it: results are ordered by action, with
    [KillProcess] the first and [Allow] the last. *)
Definition precedence (a : action) : nat :=
  match a with
  | KillProcess => 0 | KillThread => 1 | Trap => 2 | Fail _ => 3 | Notify => 4
  | Trace => 5 | Log => 6 | Allow => 7 | Unknown => 8
  end.

Class FilterStack := {
  resolve : list action → action;
  resolve_in l : l ≠ [] → resolve l ∈ l;
  resolve_first l a : a ∈ l → (precedence (resolve l) <= precedence a)%nat
}.

(** The actions of all installed filters on a call. *)
Definition stack_action {F : FilterStack} (progs : list (list sock_filter))
    (d : seccomp_data) : option action :=
  resolve <$> mapM (λ p, filter_action p d) progs.

Lemma resolve_unique {F : FilterStack} l a :
  a ∈ l → (∀ b, b ∈ l → b ≠ a → (precedence a < precedence b)%nat) → resolve l = a.
Proof.
  intros Ha Hmin. destruct (decide (resolve l = a)) as [|Hne]; [done|exfalso].
  assert (l ≠ []) as Hl by (intros ->; by apply not_elem_of_nil in Ha).
  specialize (Hmin _ (resolve_in l Hl) Hne). pose proof (resolve_first l a Ha). lia.
Qed.

(** In [seccomp_unotify_mkdir.c] with the second filter installed, a native
    [mkdir()] is failed with [ENOTSUP] when the second filter returns
    [SECCOMP_RET_ERRNO], so the supervisor is not notified, and is referred to
    the supervisor when it returns [SECCOMP_RET_TRACE]; other calls are treated
    as if the second filter were absent. *)
Theorem unotify_mkdir_precedence {F : FilterStack} secondFilter d :
  sd_wf d →
  stack_action [Unotify.mkdir_filter; Unotify.filter2 secondFilter] d = Some (
    single_call_policy NR_mkdir
      (if secondFilter =? SECCOMP_RET_ERRNO then Fail ENOTSUP else Notify) d).
Proof.
  intros Hwf. unfold stack_action. simpl mapM.
  rewrite (notify_filter_decision NR_mkdir) by (done || by compute).
  rewrite filter2_decision by done. simpl. f_equal. unfold single_call_policy.
  destruct (native d), (sd_nr d =? NR_mkdir), (secondFilter =? SECCOMP_RET_ERRNO);
    apply resolve_unique; rewrite ?elem_of_cons; auto;
    intros b Hb Hne; rewrite !elem_of_cons, elem_of_nil in Hb;
    destruct Hb as [->|[->|[]]]; simpl; (done || lia).
Qed.

(** The choice that keeps the earlier of two results of equal precedence. *)
Fixpoint resolve_min (l : list action) : action :=
  match l with
  | [] => Allow
  | [a] => a
  | a :: l =>
      if (precedence a <=? precedence (resolve_min l))%nat then a else resolve_min l
  end.

Lemma resolve_min_laws l :
  (l ≠ [] → resolve_min l ∈ l) ∧
  ∀ a, a ∈ l → (precedence (resolve_min l) <= precedence a)%nat.
Proof.
  induction l as [|a [|b l] [IH1 IH2]].
  - split; [done|]. intros a Ha. by apply not_elem_of_nil in Ha.
  - simpl. split; [set_solver|]. by intros b ->%list_elem_of_singleton.
  - change (resolve_min (a :: b :: l)) with
      (if (precedence a <=? precedence (resolve_min (b :: l)))%nat then a else resolve_min (b :: l)).
    destruct (_ <=? _)%nat eqn:E; bool_facts.
    + split; [set_solver|]. intros c [->|Hc]%elem_of_cons; [done|].
      specialize (IH2 c Hc). lia.
    + split; [intros _; apply elem_of_cons; right; by apply IH1|].
      intros c [->|Hc]%elem_of_cons; [lia|by apply IH2].
Qed.

#[export] Instance min_stack : FilterStack :=
  {| resolve := resolve_min;
     resolve_in l := proj1 (resolve_min_laws l);
     resolve_first l := proj2 (resolve_min_laws l) |}.

Lemma unotify_mkdir_precedence_witness :
  stack_action [Unotify.mkdir_filter; Unotify.filter2 SECCOMP_RET_TRACE]
    (SeccompData NR_mkdir AUDIT_ARCH_X86_64 0 [0;0;0;0;0;0]) = Some Notify.
Proof.
  refine (unotify_mkdir_precedence SECCOMP_RET_TRACE _ _).
  unfold sd_wf; simpl; split_and!; repeat constructor; by compute.
Defined.

(** ** The filters pass the kernel's checks *)

Definition all_filters (syscallNum secondFilter : Z) : list (list sock_filter) :=
  [Multiarch.filter; Arg64.filter; DenyOpen.filter X86_64; DenyOpen.filter AArch64;
   ControlOpen.filter X86_64; ControlOpen.filter AArch64; DenySyscall.filter syscallNum;
   Perf.filter; Logging.filter; TrapSigsys.filter; Unotify.mkdir_filter;
   Unotify.openat_filter; Unotify.filter2 secondFilter].

(** C31: every filter array of the programs is one the kernel accepts: all its
    jumps and loads are in range and it ends in a return, so it reaches a
    decision on every system call. *)
Theorem filters_accepted syscallNum secondFilter :
  Forall (λ prog, bpf_valid prog = true ∧ ∀ d, is_Some (filter_action prog d))
    (all_filters syscallNum secondFilter).
Proof.
  assert (Forall (λ prog, bpf_valid prog = true) (all_filters syscallNum secondFilter)) as H.
  { unfold all_filters. repeat constructor.
    by destruct (secondFilter =? SECCOMP_RET_ERRNO) eqn:E; unfold Unotify.filter2; rewrite E. }
  eapply Forall_impl; [exact H|]. intros prog Hv. split; [done|].
  intros d. apply fmap_is_Some. by apply bpf_valid_decides.
Qed.

(** ** Filters built at run time *)

Section bench_facts.
Context {L : Libc} {W : Type} `{!SeccompSys W}.

Lemma fill_run n j i (pre todo : list sock_filter) (s : pst unit scall W) :
  j = Z.of_nat (length pre) → (n <= length todo)%nat →
  Bench.fill n j i (pre ++ todo) s = (Ok (pre ++ replicate n i ++ drop n todo), s).
Proof.
  intros ->. revert pre todo. induction n as [|n IH]; intros pre todo Hn; [done|].
  destruct todo as [|x todo]; [simpl in Hn; lia|]. cbn [Bench.fill].
  unfold Bench.put. rewrite length_app; simpl length.
  rewrite (proj2 (Z.leb_le _ _)), (proj2 (Z.ltb_lt _ _)) by lia. simpl andb.
  rewrite Nat2Z.id, (insert_app_r_alt _ _ (length pre)), Nat.sub_diag by lia.
  cbn [insert list_insert]. rewrite cons_middle, app_assoc.
  replace (Z.of_nat (length pre) + 1) with (Z.of_nat (length (pre ++ [i])))
    by (rewrite length_app; simpl; lia).
  etransitivity; [apply IH; simpl in Hn; lia|].
  by rewrite <- app_assoc.
Qed.

Lemma run_noop i n d A rest :
  i ∈ [BPF_STMT (BPF_LD .| BPF_W .| BPF_ABS) 0;
       BPF_JUMP (BPF_JMP .| BPF_JEQ .| BPF_K) 0 0 0;
       BPF_STMT (BPF_ALU .| BPF_ADD .| BPF_K) 1] →
  ∃ A', bpf_run d (replicate n i ++ rest) 0 A = bpf_run d rest 0 A'.
Proof.
  intros Hi. revert A. induction n as [|n IH]; intros A; [by eexists|].
  rewrite !elem_of_cons in Hi. change (replicate (S n) i) with (i :: replicate n i).
  destruct Hi as [->|[->|[->|[]%elem_of_nil]]]; simpl app.
  - rewrite (run_ld _ _ _ _ _ (load_nr d)). apply IH.
  - rewrite run_jeq. replace (if A =? 0 then 0%nat else 0%nat) with 0%nat
      by (by destruct (A =? 0)). apply IH.
  - apply IH.
Qed.

(** The instructions [create_filter] can repeat, and the filter it builds. *)
Definition bench_instr (instr : ascii) : option sock_filter :=
  if decide (instr = "a"%char) then Some (BPF_STMT (BPF_ALU .| BPF_ADD .| BPF_K) 1)
  else if decide (instr = "j"%char) then Some (BPF_JUMP (BPF_JMP .| BPF_JEQ .| BPF_K) 0 0 0)
  else if decide (instr = "l"%char) then Some (BPF_STMT (BPF_LD .| BPF_W .| BPF_ABS) 0)
  else None.

Definition bench_filter (i : sock_filter) (n : nat) : list sock_filter :=
  replicate n i ++ [BPF_STMT (BPF_RET .| BPF_K) SECCOMP_RET_ALLOW].

Lemma bench_instr_in instr i :
  bench_instr instr = Some i →
  i ∈ [BPF_STMT (BPF_LD .| BPF_W .| BPF_ABS) 0;
       BPF_JUMP (BPF_JMP .| BPF_JEQ .| BPF_K) 0 0 0;
       BPF_STMT (BPF_ALU .| BPF_ADD .| BPF_K) 1].
Proof. unfold bench_instr. rewrite !elem_of_cons. repeat case_decide; intros [= <-]; auto. Qed.

Lemma bench_filter_allows i n d instr :
  bench_instr instr = Some i → filter_action (bench_filter i n) d = Some Allow.
Proof.
  intros Hi%bench_instr_in. unfold filter_action, bpf_decide, bench_filter.
  destruct (run_noop i n d 0 [BPF_STMT (BPF_RET .| BPF_K) SECCOMP_RET_ALLOW] Hi) as [A ->].
  reflexivity.
Qed.

Lemma bench_filter_valid i n instr :
  bench_instr instr = Some i → (n < BPF_MAXINSNS)%nat → bpf_valid (bench_filter i n) = true.
Proof.
  intros Hi%bench_instr_in Hn. unfold bpf_valid, bench_filter.
  rewrite length_app, length_replicate. simpl length.
  rewrite (proj2 (Nat.leb_le _ _)) by lia. unfold ends_in_ret. rewrite last_snoc. simpl.
  rewrite andb_true_r. clear Hn. induction n as [|n IH]; [done|]. cbn [replicate app insns_ok].
  rewrite IH, andb_true_r, length_app, length_replicate. simpl length.
  rewrite !elem_of_cons in Hi. unfold insn_ok.
  destruct Hi as [->|[->|[->|[]%elem_of_nil]]]; simpl; try done.
  rewrite Nat.add_1_r. done.
Qed.

(** [create_filter] is defined on every count from 0 up to what fits an
    [int], and either builds the filter or ends the process. *)
Lemma create_filter_run instr icnt s :
  0 <= icnt < INT_MAX →
  match Bench.create_filter instr icnt s with
  | (Ok prog, s') => ∃ i, bench_instr instr = Some i ∧
      prog = Fprog (to_unsigned 16 (icnt + 1)) (bench_filter i (Z.to_nat icnt))
  | (Halt h, s') => h = HExit EXIT_FAILURE
  end.
Proof.
  intros Hc.
  assert (Bench.create_filter instr icnt s =
    match bench_instr instr with
    | None => (eprintf ("Bad instruction value: " +:+ String instr nl);; p_exit EXIT_FAILURE) s
    | Some i => Bench.create_filter instr icnt s
    end) as ->.
  { unfold bench_instr, Bench.create_filter. by repeat case_decide. }
  destruct (bench_instr instr) as [i|] eqn:Hi; [|done].
  assert (∀ s, (if decide (instr = "a"%char) then mret (BPF_STMT (BPF_ALU .| BPF_ADD .| BPF_K) 1)
       else if decide (instr = "j"%char) then mret (BPF_JUMP (BPF_JMP .| BPF_JEQ .| BPF_K) 0 0 0)
       else if decide (instr = "l"%char) then mret (BPF_STMT (BPF_LD .| BPF_W .| BPF_ABS) 0)
       else eprintf ("Bad instruction value: " +:+ String instr nl);; p_exit EXIT_FAILURE)
       s = (Ok i, s : pst unit scall W)) as Hsel.
  { unfold bench_instr in Hi. by repeat case_decide; simplify_eq. }
  unfold Bench.create_filter. erewrite run_bind by apply Hsel.
  rewrite (proj2 (Z.ltb_ge _ _)) by lia.
  unfold mbind, M_bind, call.
  destruct (sys_malloc _ (world s)) as [[e|[]] w1]; [done|].
  pose proof (fill_run (Z.to_nat icnt) 0 i [] (replicate (Z.to_nat (icnt + 1)) (SockFilter 0 0 0 0))
    (Pst (pr s) (vars s) (trace s ++ [Malloc (8 * to_unsigned 64 (icnt + 1))]) w1)) as Hf.
  rewrite length_replicate in Hf. specialize (Hf eq_refl ltac:(lia)). simpl app in Hf.
  rewrite Hf. rewrite drop_replicate.
  replace (Z.to_nat (icnt + 1) - Z.to_nat icnt)%nat with 1%nat by lia.
  unfold Bench.put. rewrite length_app, !length_replicate.
  rewrite (proj2 (Z.leb_le _ _)), (proj2 (Z.ltb_lt _ _)) by lia. simpl andb.
  cbv beta iota delta [mret M_ret world andb].
  destruct (sys_malloc 16 w1) as [[e|[]] w2]; [done|].
  simpl. exists i. split; [done|]. f_equal. unfold bench_filter.
  rewrite (insert_app_r_alt _ _ (Z.to_nat icnt)), length_replicate, Nat.sub_diag
    by (rewrite length_replicate; lia). done.
Qed.
End bench_facts.

(** [create_filter] of [seccomp_bench.c], for an instruction count up to
    the kernel's limit, either ends the process with a failure status (an
    unknown instruction letter, or no memory) or returns a program whose length
    field is the real length, that the kernel accepts, and that allows every
    system call: the repeated instructions cost time and change nothing. *)
Theorem create_filter_spec {L : Libc} {W} `{!SeccompSys W} instr icnt (s : pst unit scall W) :
  0 <= icnt < 4096 →
  match Bench.create_filter instr icnt s with
  | (Ok prog, _) =>
      fp_len prog = Z.of_nat (length (fp_filter prog)) ∧ fp_len prog = icnt + 1 ∧
      bpf_valid (fp_filter prog) = true ∧
      ∀ d, filter_action (fp_filter prog) d = Some Allow
  | (Halt h, _) => h = HExit EXIT_FAILURE
  end.
Proof.
  intros Hc. assert (0 <= icnt < INT_MAX) as Hm by (unfold INT_MAX; lia).
  pose proof (create_filter_run instr icnt s Hm) as H.
  destruct (Bench.create_filter instr icnt s) as [[prog|h] s']; [|done].
  destruct H as (i & Hi & ->). simpl.
  rewrite to_unsigned_small by lia. unfold bench_filter at 1.
  rewrite length_app, length_replicate; simpl length.
  split_and!; [lia|done| |].
  - eapply bench_filter_valid; [done|]. unfold BPF_MAXINSNS. lia.
  - intros d. by eapply bench_filter_allows.
Qed.

(** A machine on which every call succeeds. *)
#[export] Instance unit_seccomp : SeccompSys unit :=
  {| sys_seccomp _ _ _ w := (inr 0, w);
     sys_prctl_no_new_privs w := (inr 0, w);
     sys_malloc _ w := (inr tt, w) |}.

#[export] Instance plain_libc : Libc :=
  {| strerror _ := "error"; io_errno e := e |}.

Definition start_proc : proc := Proc 0 [] "" "" [].

Lemma create_filter_spec_witness :
  match Bench.create_filter "a" 3 (Pst start_proc tt [] tt) with
  | (Ok prog, _) => fp_len prog = 4
  | (Halt h, _) => h = HExit EXIT_FAILURE
  end.
Proof.
  pose proof (create_filter_spec "a" 3 (Pst start_proc tt [] tt) ltac:(lia)) as H.
  destruct (Bench.create_filter _ _ _) as [[prog|h] s']; [apply H|exact H].
Defined.
