(* ===== verification/SeccompNotify.v ===== *)
(** The supervisors of the seccomp user-space notification programs:
    [seccomp/seccomp_functions.c], and the notification loops of
    [seccomp/seccomp_unotify_mkdir.c] and [seccomp/seccomp_unotify_openat.c].

    The supervisor's [path] buffer is modelled byte by byte, with [None] for a
    byte that was never written: comparing such a byte is undefined. *)
From S2P Require Import Prelude CLib ErrorFunctions Proc Bpf SeccompFilters.
Local Open Scope Z_scope.

(** ** Data *)

Record seccomp_notif := Notif { n_id : Z; n_pid : Z; n_data : seccomp_data }.
Record seccomp_notif_resp := Resp { r_id : Z; r_val : Z; r_error : Z; r_flags : Z }.
Record seccomp_notif_sizes := Sizes { sz_notif : Z; sz_resp : Z }.
Record seccomp_notif_addfd :=
  Addfd { a_id : Z; a_flags : Z; a_srcfd : Z; a_newfd : Z; a_newfd_flags : Z }.

Definition sizeof_resp : Z := 24.
Definition SECCOMP_USER_NOTIF_FLAG_CONTINUE : Z := 1.
Definition SECCOMP_ADDFD_FLAG_SETFD : Z := 1.
Definition O_CLOEXEC : Z := 0x80000.
Definition EOPNOTSUPP : Z := 95.

Definition GTP_BAD_READ : Z := -1.
Definition GTP_ID_NOT_VALID : Z := -2.
Definition GTP_BAD_PATH : Z := -3.

Record cmdLineOpts := Opts { delaySecs : Z; secondFilter : Z }.

(** ** The system calls of the supervisor *)

Class NotifySys (W : Type) := {
  sys_notif_sizes : W → (Z + seccomp_notif_sizes) * W;
  sys_alloc : Z → W → (Z + unit) * W;
  sys_open_ro : string → W → (Z + Z) * W;
  sys_close : Z → W → (Z + unit) * W;
  sys_id_valid : Z → Z → W → (Z + Z) * W;
  sys_pread : Z → nat → Z → W → (Z + list ascii) * W;
  sys_mkdir : string → Z → W → (Z + unit) * W;
  sys_openat : Z → string → Z → Z → W → (Z + Z) * W;
  sys_recv : Z → W → (Z + seccomp_notif) * W;
  sys_send : Z → seccomp_notif_resp → W → (Z + Z) * W;
  sys_addfd : Z → seccomp_notif_addfd → W → (Z + Z) * W;
  sys_sleep : Z → W → (Z + unit) * W
}.

(** [pread] transfers no more than it was asked for. *)
Class NotifyLaws (W : Type) `{!NotifySys W} : Prop :=
  pread_len fd n off w bs w' : sys_pread fd n off w = (inr bs, w') → (length bs <= n)%nat.

Inductive ncall :=
| CSizes | CAlloc (n : Z) | COpen (path : string) | CClose (fd : Z)
| CIdValid (fd id : Z) | CPread (fd : Z) (n : nat) (off : Z)
| CMkdir (path : string) (mode : Z) | COpenat (dirfd : Z) (path : string) (flags mode : Z)
| CRecv (fd : Z) | CSend (fd : Z) (r : seccomp_notif_resp)
| CAddfd (fd : Z) (a : seccomp_notif_addfd) | CSleep (secs : Z).

(** ** The path buffer *)

Abbreviation pathbuf := (list (option ascii)).

Definition NUL : ascii := Ascii.ascii_of_nat 0.

(** The kernel storing [bs] at the start of the buffer. *)
Definition overlay (bs : list ascii) (buf : pathbuf) : pathbuf :=
  map Some bs ++ drop (length bs) buf.

(** [strnlen(path, n)]; [None] when an unwritten byte is read. *)
Fixpoint buf_strnlen (buf : pathbuf) (n : nat) {struct n} : option nat :=
  match n, buf with
  | O, _ => Some O
  | S n, Some c :: buf => if decide (c = NUL) then Some O else S <$> buf_strnlen buf n
  | S n, _ => None
  end.

(** The C string at the start of the buffer. *)
Fixpoint buf_cstr (buf : pathbuf) : option string :=
  match buf with
  | Some c :: buf => if decide (c = NUL) then Some "" else String c <$> buf_cstr buf
  | _ => None
  end.

(** [strncmp(path, t, strlen(t)) == 0]: bytes are compared up to the first
    difference; [t] has no null byte. *)
Fixpoint buf_prefix (buf : pathbuf) (t : string) {struct t} : option bool :=
  match t, buf with
  | EmptyString, _ => Some true
  | String d t, Some c :: buf => if decide (c = d) then buf_prefix buf t else Some false
  | String _ _, _ => None
  end.

(** [strcmp(path, t) == 0] *)
Fixpoint buf_strcmp (buf : pathbuf) (t : string) {struct t} : option bool :=
  match t, buf with
  | EmptyString, Some c :: _ => Some (bool_decide (c = NUL))
  | String d t, Some c :: buf => if decide (c = d) then buf_strcmp buf t else Some false
  | _, _ => None
  end.

(** ** Numbers in other bases, for [%#llx], [%#x] and [%#llo] *)

Fixpoint digits_in (base : Z) (fuel : nat) (n : Z) (acc : string) : string :=
  match fuel with
  | O => acc
  | S fuel =>
      let d := n mod base in
      let c := Ascii.ascii_of_N (Z.to_N (if d <? 10 then 48 + d else 87 + d)) in
      if n / base =? 0 then String c acc else digits_in base fuel (n / base) (String c acc)
  end.

Definition fmt_alt (base : Z) (prefix : string) (n : Z) : string :=
  if n =? 0 then "0" else prefix +:+ digits_in base 64 n "".

Section supervisor.
Context {L : Libc} {W : Type} `{!NotifySys W}.
Local Abbreviation P := (M (pst pathbuf ncall W)).

(** A use of the buffer, undefined when it reads an unwritten byte. *)
Definition on_path {A} (f : pathbuf → option A) : P A :=
  b ← get_vars;
  match f b with Some a => mret a | None => stop HUndef end.

(** *** [seccomp_functions.c] *)

Definition cookieIsValid (notifyFd id : Z) : P bool :=
  r ← call (CIdValid notifyFd id) (sys_id_valid notifyFd id);
  mret (match r with inr v => v =? 0 | inl _ => false end).

Definition close (fd : Z) : P unit := call (CClose fd) (sys_close fd);; skip.

Definition getTargetPathname (req : seccomp_notif) (notifyFd : Z) (argNum len : nat)
    : P Z :=
  let procMemPath := snprintf PATH_MAX ("/proc/" +:+ fmt_d (n_pid req) +:+ "/mem") in
  o ← call (COpen procMemPath) (sys_open_ro procMemPath);
  match o with
  | inl _ => mret GTP_BAD_READ
  | inr procMemFd =>
      v ← cookieIsValid notifyFd (n_id req);
      if negb v then close procMemFd;; mret GTP_ID_NOT_VALID else
      let off := sd_arg (n_data req) argNum in
      r ← call (CPread procMemFd len off) (sys_pread procMemFd len off);
      (match r with
       | inr bs => put_vars (overlay bs)
       | inl _ => skip
       end);;
      close procMemFd;;
      match r with
      | inl _ | inr [] => mret GTP_BAD_READ
      | inr bs =>
          v ← cookieIsValid notifyFd (n_id req);
          if negb v then mret GTP_ID_NOT_VALID else
          n ← on_path (λ b, buf_strnlen b (length bs));
          if (n <? length bs)%nat then mret 0 else mret GTP_BAD_PATH
      end
  end.

(** The results are the pointers stored through [req] and [resp]: [None] for
    a null pointer. *)
Definition allocSeccompNotifBuffers : P (seccomp_notif_sizes * option unit * option unit) :=
  r ← call CSizes sys_notif_sizes;
  match r with
  | inl _ => p_systmErr "seccomp-SECCOMP_GET_NOTIF_SIZES"
  | inr sizes =>
      a ← call (CAlloc (sz_notif sizes)) (sys_alloc (sz_notif sizes));
      match a with
      | inl _ => p_systmErr "malloc-seccomp_notif"
      | inr _ =>
          let resp_size :=
            if sz_resp sizes <? sizeof_resp then sizeof_resp else sz_resp sizes in
          b ← call (CAlloc resp_size) (sys_alloc resp_size);
          (* the test that follows looks at [resp], the address of the
             caller's variable, which is never null *)
          mret (sizes, Some tt, match b with inl _ => None | inr _ => Some tt end)
      end
  end.

(** *** [seccomp_unotify_mkdir.c] *)

(** [for (int d = opts->delaySecs; d > 0; d--)] *)
Fixpoint delay (n : nat) : P unit :=
  match n with
  | O => skip
  | S n' => printf (" " +:+ fmt_d (Z.of_nat n));; call (CSleep 1) (sys_sleep 1);; delay n'
  end.

Definition check_cookie (notifyFd id : Z) : P unit :=
  v ← cookieIsValid notifyFd id;
  if (v : bool) then skip
  else perror (String tab "S: notification ID check failed!!!");; p_exit EXIT_FAILURE.

Definition mkdir_delay (notifyFd : Z) (opts : cmdLineOpts) (req : seccomp_notif) : P unit :=
  when (0 <? delaySecs opts) (
    printf (String tab "S: delaying for " +:+ fmt_d (delaySecs opts) +:+ " seconds:");;
    check_cookie notifyFd (n_id req);;
    delay (Z.to_nat (delaySecs opts));;
    printf nl;;
    check_cookie notifyFd (n_id req)).

(** The response to a [mkdir()] whose pathname was fetched with [pathStatus]. *)
Definition mkdir_response (req : seccomp_notif) (pathStatus : Z) : P seccomp_notif_resp :=
  if negb (pathStatus =? 0) then
    printf (String tab "S: spoofing error for invalid pathname (" +:+ strerror EINVAL +:+ ")" +:+ nl);;
    mret (Resp (n_id req) 0 (- EINVAL) 0)
  else
    tmp ← on_path (λ b, buf_prefix b "/tmp/");
    if (tmp : bool) then
      path ← on_path buf_cstr;
      let mode := sd_arg (n_data req) 1 in
      printf (String tab "S: executing: mkdir(" +:+ String dquote (path +:+
        String dquote (", " +:+ fmt_alt 8 "0" mode +:+ ")" +:+ nl)));;
      (* [mkdir] takes a [mode_t]: 32 bits *)
      m ← call (CMkdir path (lo32 mode)) (sys_mkdir path (lo32 mode));
      match m with
      | inr _ =>
          let val := Z.of_nat (String.length path) in
          printf (String tab "S: success! spoofed return = " +:+ fmt_d val +:+ nl);;
          mret (Resp (n_id req) val 0 0)
      | inl _ =>
          e ← get_errno;
          printf (String tab "S: failure! (errno = " +:+ fmt_d e +:+ "; " +:+ strerror e +:+ ")" +:+ nl);;
          mret (Resp (n_id req) 0 (- e) 0)
      end
    else
      dot ← on_path (λ b, buf_prefix b "./");
      if (dot : bool) then
        printf (String tab "S: target can execute system call" +:+ nl);;
        mret (Resp (n_id req) 0 0 SECCOMP_USER_NOTIF_FLAG_CONTINUE)
      else
        printf (String tab "S: spoofing error response (" +:+ strerror EOPNOTSUPP +:+ ")" +:+ nl);;
        mret (Resp (n_id req) 0 (- EOPNOTSUPP) 0).

(** Sending the response; a failure is only reported. *)
Definition send_response (notifyFd : Z) (resp : seccomp_notif_resp) : P unit :=
  printf (String tab "S: sending response (flags = " +:+ fmt_alt 16 "0x" (r_flags resp) +:+
    "; val = " +:+ fmt_d (r_val resp) +:+ "; error = " +:+ fmt_d (r_error resp) +:+ ")" +:+ nl);;
  r ← call (CSend notifyFd resp) (sys_send notifyFd resp);
  match r with
  | inr _ => skip
  | inl e =>
      if e =? ENOENT then
        printf (String tab "S: response failed with ENOENT; " +:+
          "perhaps target process's syscall was interrupted by a signal?" +:+ nl)
      else perror "ioctl-SECCOMP_IOCTL_NOTIF_SEND"
  end.

(** Waiting for a notification for system call [nr]: [None] when the wait was
    interrupted. *)
Definition receive (notifyFd nr : Z) : P (option seccomp_notif) :=
  r ← call (CRecv notifyFd) (sys_recv notifyFd);
  match r with
  | inl e => if e =? EINTR then mret None else p_systmErr "ioctl-SECCOMP_IOCTL_NOTIF_RECV"
  | inr req =>
      printf (String tab "S: got notification (ID " +:+ fmt_alt 16 "0x" (n_id req) +:+
        ") for PID " +:+ fmt_d (n_pid req) +:+ nl);;
      if negb (sd_nr (n_data req) =? nr) then
        printf (String tab "S: notification contained unexpected system call number; bye!!!" +:+ nl);;
        p_exit EXIT_FAILURE
      else mret (Some req)
  end.

(** One pass of the loop once a notification is there; the result tells
    whether the loop is left. *)
Definition mkdir_handle (notifyFd : Z) (opts : cmdLineOpts) (resp : option unit)
    (req : seccomp_notif) : P bool :=
  mkdir_delay notifyFd opts req;;
  pathStatus ← getTargetPathname req notifyFd 0 PATH_MAX;
  match resp with
  | None => stop HUndef                      (* [resp->id = ...] *)
  | Some _ =>
      r ← mkdir_response req pathStatus;
      send_response notifyFd r;;
      on_path (λ b, buf_strcmp b "/bye")
  end.

Definition mkdir_body (notifyFd : Z) (opts : cmdLineOpts) (resp : option unit) (_ : unit)
    : P (unit + unit) :=
  n ← receive notifyFd NR_mkdir;
  match n with
  | None => mret (inl tt)
  | Some req => b ← mkdir_handle notifyFd opts resp req; mret (if (b : bool) then inr tt else inl tt)
  end.

Definition mkdir_handleNotifications (fuel : nat) (notifyFd : Z) (opts : cmdLineOpts) : P unit :=
  a ← allocSeccompNotifBuffers;
  let '(_, _, resp) := a in
  loop fuel (mkdir_body notifyFd opts resp) tt;;
  printf (String tab "S: terminating **********" +:+ nl);;
  p_exit EXIT_FAILURE.

(** *** [seccomp_unotify_openat.c] *)

Definition openat_response (notifyFd : Z) (req : seccomp_notif) (pathStatus : Z)
    : P seccomp_notif_resp :=
  if negb (pathStatus =? 0) then
    printf (String tab "S: spoofing error for invalid pathname (" +:+ strerror EINVAL +:+ ")" +:+ nl);;
    mret (Resp (n_id req) 0 (- EINVAL) 0)
  else
    path ← on_path buf_cstr;
    let arg := sd_arg (n_data req) in
    printf (String tab "S: executing: openat(" +:+ fmt_alt 8 "0" (arg 0%nat) +:+ ", " +:+
      String dquote (path +:+ String dquote (", " +:+ fmt_alt 8 "0" (arg 2%nat) +:+ ", " +:+
      fmt_alt 8 "0" (arg 3%nat) +:+ ")" +:+ nl)));;
    (* [dirfd] and [flags] are [int]s, the mode a [mode_t] *)
    let dirfd := to_signed 32 (arg 0%nat) in
    let flags := to_signed 32 (arg 2%nat) in
    let mode := lo32 (arg 3%nat) in
    o ← call (COpenat dirfd path flags mode) (sys_openat dirfd path flags mode);
    match o with
    | inr fd =>
        let addfd := Addfd (n_id req) SECCOMP_ADDFD_FLAG_SETFD fd (42 + fd) O_CLOEXEC in
        r ← call (CAddfd notifyFd addfd) (sys_addfd notifyFd addfd);
        match r with
        | inl _ => p_systmErr "SECCOMP_IOCTL_NOTIF_ADDFD"
        | inr remoteFd =>
            close fd;;
            printf (String tab "S: success! spoofed return = " +:+ fmt_d remoteFd +:+ nl);;
            mret (Resp (n_id req) remoteFd 0 0)
        end
    | inl _ =>
        e ← get_errno;
        printf (String tab "S: failure! (errno = " +:+ fmt_d e +:+ "; " +:+ strerror e +:+ ")" +:+ nl);;
        mret (Resp (n_id req) 0 (- e) 0)
    end.

Definition openat_handle (notifyFd : Z) (resp : option unit) (req : seccomp_notif) : P unit :=
  pathStatus ← getTargetPathname req notifyFd 1 PATH_MAX;
  match resp with
  | None => stop HUndef
  | Some _ => r ← openat_response notifyFd req pathStatus; send_response notifyFd r
  end.

Definition openat_body (notifyFd : Z) (resp : option unit) (_ : unit) : P (unit + unit) :=
  n ← receive notifyFd NR_openat;
  match n with
  | None => mret (inl tt)
  | Some req => openat_handle notifyFd resp req;; mret (inl tt)
  end.

Definition openat_handleNotifications (fuel : nat) (notifyFd : Z) : P unit :=
  a ← allocSeccompNotifBuffers;
  let '(_, _, resp) := a in
  loop fuel (openat_body notifyFd resp) tt.
End supervisor.

(** ** Reading the buffer *)

(** The C string that bytes containing a null byte spell. *)
Fixpoint c_string (bs : list ascii) : string :=
  match bs with
  | [] => ""
  | c :: bs => if decide (c = NUL) then "" else String c (c_string bs)
  end.

Fixpoint starts (t s : string) : bool :=
  match t, s with
  | EmptyString, _ => true
  | String d t, String c s => bool_decide (c = d) && starts t s
  | String _ _, EmptyString => false
  end.

Definition no_nul (t : string) : Prop := NUL ∉ chars t.

Section buffer.
Context (rest : pathbuf).

Lemma buf_strnlen_bytes bs :
  ∃ n, buf_strnlen (map Some bs ++ rest) (length bs) = Some n ∧
       ((n < length bs)%nat ↔ NUL ∈ bs).
Proof.
  induction bs as [|c bs (n & IH & Hn)]; simpl.
  - exists 0%nat. split; [done|]. rewrite elem_of_nil. lia.
  - destruct (decide (c = NUL)) as [->|Hc].
    + exists 0%nat. split; [done|]. rewrite elem_of_cons. split; [auto|lia].
    + rewrite IH. exists (S n). split; [done|]. rewrite elem_of_cons, <- Hn.
      split; [right; lia|intros [?|?]; [congruence|lia]].
Qed.

Lemma buf_cstr_bytes bs :
  NUL ∈ bs → buf_cstr (map Some bs ++ rest) = Some (c_string bs).
Proof.
  induction bs as [|c bs IH]; [by intros ?%elem_of_nil|].
  simpl. destruct (decide (c = NUL)) as [->|Hc]; [done|].
  intros [?|H]%elem_of_cons; [congruence|]. by rewrite IH.
Qed.

Lemma buf_prefix_bytes bs t :
  NUL ∈ bs → no_nul t →
  buf_prefix (map Some bs ++ rest) t = Some (starts t (c_string bs)).
Proof.
  revert bs. induction t as [|d t IH]; intros bs Hb Ht; [done|].
  destruct bs as [|c bs]; [by apply elem_of_nil in Hb|]. simpl.
  unfold no_nul in Ht; simpl in Ht. rewrite elem_of_cons in Ht.
  destruct (decide (c = d)) as [->|Hcd].
  - destruct (decide (d = NUL)) as [->|]; [naive_solver|].
    rewrite bool_decide_eq_true_2 by done. simpl. apply IH; [set_solver|].
    unfold no_nul. set_solver.
  - destruct (decide (c = NUL)); [done|]. simpl.
    by rewrite bool_decide_eq_false_2.
Qed.

Lemma buf_strcmp_bytes bs t :
  NUL ∈ bs → no_nul t →
  buf_strcmp (map Some bs ++ rest) t = Some (bool_decide (c_string bs = t)).
Proof.
  revert bs. induction t as [|d t IH]; intros bs Hb Ht;
    (destruct bs as [|c bs]; [by apply elem_of_nil in Hb|]); simpl.
  - f_equal. apply bool_decide_ext. by destruct (decide (c = NUL)).
  - unfold no_nul in Ht; simpl in Ht. rewrite elem_of_cons in Ht.
    destruct (decide (c = d)) as [->|Hcd].
    + destruct (decide (d = NUL)) as [->|]; [naive_solver|].
      rewrite IH; [|set_solver|unfold no_nul; set_solver].
      f_equal. apply bool_decide_ext. split; congruence.
    + f_equal. symmetry. apply bool_decide_eq_false_2.
      destruct (decide (c = NUL)); congruence.
Qed.

Lemma c_string_no_nul bs : no_nul (c_string bs).
Proof.
  unfold no_nul. induction bs as [|c bs IH]; simpl; [apply not_elem_of_nil|].
  destruct (decide (c = NUL)); simpl; [apply not_elem_of_nil|].
  rewrite elem_of_cons. naive_solver.
Qed.
End buffer.

(** A buffer of the declared size, with every byte written. *)
Definition buf_wf (b : pathbuf) : Prop := length b = PATH_MAX.
Definition buf_init (b : pathbuf) : Prop := buf_wf b ∧ Forall is_Some b.

Lemma overlay_length bs b :
  (length bs <= length b)%nat → length (overlay bs b) = length b.
Proof. intros H. unfold overlay. rewrite length_app, length_map, length_drop. lia. Qed.

Lemma overlay_init bs b :
  (length bs <= PATH_MAX)%nat → buf_init b → buf_init (overlay bs b).
Proof.
  intros H [Hl Hf]. split.
  - unfold buf_wf in *. rewrite overlay_length; [done|lia].
  - unfold overlay. rewrite Forall_app, Forall_map. split.
    + apply Forall_true. by eexists.
    + by apply Forall_drop.
Qed.

Lemma init_bytes (b : pathbuf) : Forall is_Some b → ∃ bs, b = map Some bs.
Proof.
  induction 1 as [|x b [c ->] _ [bs ->]]; [by exists []|by exists (c :: bs)].
Qed.

Definition proc_mem (req : seccomp_notif) : string :=
  "/proc/" +:+ fmt_d (n_pid req) +:+ "/mem".

Section facts.
Context {L : Libc} {W : Type} `{!NotifySys W, !NotifyLaws W}.
Local Abbreviation st := (pst pathbuf ncall W).

(** A pathname was fetched properly: the memory of the target was opened, the
    notification was valid before and after the read, and the bytes read
    contain a null byte. *)
Definition fetched (req : seccomp_notif) (notifyFd : Z) (argNum : nat) (bs : list ascii)
    (s s' : st) : Prop :=
  ∃ fd w1 w2 w3 w4 c,
    sys_open_ro (snprintf PATH_MAX (proc_mem req)) (world s) = (inr fd, w1) ∧
    sys_id_valid notifyFd (n_id req) w1 = (inr 0, w2) ∧
    sys_pread fd PATH_MAX (sd_arg (n_data req) argNum) w2 = (inr bs, w3) ∧
    sys_close fd w3 = (c, w4) ∧
    sys_id_valid notifyFd (n_id req) w4 = (inr 0, world s') ∧
    NUL ∈ bs ∧ vars s' = overlay bs (vars s).

(** The calls that inspect the target and change nothing in the system. *)
Definition inspects (c : ncall) : Prop :=
  match c with
  | COpen _ | CClose _ | CIdValid _ _ | CPread _ _ _ | CSleep _ => True
  | _ => False
  end.

Lemma call_ok {A} c (f : W → (Z + A) * W) (s : st) a w :
  f (world s) = (inr a, w) → call c f s = (Ok (inr a), Pst (pr s) (vars s) (trace s ++ [c]) w).
Proof. intros H. unfold call. by rewrite H. Qed.

Lemma call_fail {A} c (f : W → (Z + A) * W) (s : st) e w :
  f (world s) = (inl e, w) →
  call c f s = (Ok (inl e), Pst (set_errno e (pr s)) (vars s) (trace s ++ [c]) w).
Proof. intros H. unfold call. by rewrite H. Qed.

Lemma on_path_run {A} (f : pathbuf → option A) (s : st) a :
  f (vars s) = Some a → on_path f s = (Ok a, s).
Proof. intros H. unfold on_path, get_vars. erewrite run_bind by reflexivity. by rewrite H. Qed.

Lemma cookieIsValid_run notifyFd id (s : st) :
  ∃ p w r, sys_id_valid notifyFd id (world s) = (r, w) ∧
    cookieIsValid notifyFd id s =
      (Ok (match r with inr v => v =? 0 | inl _ => false end),
       Pst p (vars s) (trace s ++ [CIdValid notifyFd id]) w).
Proof.
  unfold cookieIsValid. destruct (sys_id_valid notifyFd id (world s)) as [[e|v] w] eqn:E.
  - erewrite run_bind by (by apply call_fail). by do 3 eexists.
  - erewrite run_bind by (by apply call_ok). by do 3 eexists.
Qed.

Lemma close_run fd (s : st) :
  ∃ p w r, sys_close fd (world s) = (r, w) ∧
    close fd s = (Ok tt, Pst p (vars s) (trace s ++ [CClose fd]) w).
Proof.
  unfold close. destruct (sys_close fd (world s)) as [[e|v] w] eqn:E.
  - erewrite run_bind by (by apply call_fail). by do 3 eexists.
  - erewrite run_bind by (by apply call_ok). by do 3 eexists.
Qed.

(** Everything [getTargetPathname] can do. *)
Definition gtp_outcome (req : seccomp_notif) (notifyFd : Z) (argNum : nat) (s : st)
    (r : Z) (s' : st) : Prop :=
  let op := COpen (snprintf PATH_MAX (proc_mem req)) in
  let valid := CIdValid notifyFd (n_id req) in
  ∃ l, trace s' = trace s ++ l ∧
  ((r = GTP_BAD_READ ∧ l = [op] ∧ vars s' = vars s ∧
      ∃ e w, sys_open_ro (snprintf PATH_MAX (proc_mem req)) (world s) = (inl e, w)) ∨
   (∃ fd w1, sys_open_ro (snprintf PATH_MAX (proc_mem req)) (world s) = (inr fd, w1) ∧
     let read := CPread fd PATH_MAX (sd_arg (n_data req) argNum) in
     ((r = GTP_ID_NOT_VALID ∧ l = [op; valid; CClose fd] ∧ vars s' = vars s) ∨
      (r = GTP_BAD_READ ∧ l = [op; valid; read; CClose fd] ∧ vars s' = overlay [] (vars s)) ∨
      (∃ bs, (0 < length bs <= PATH_MAX)%nat ∧ l = [op; valid; read; CClose fd; valid] ∧
         vars s' = overlay bs (vars s) ∧
         (r = GTP_ID_NOT_VALID ∨ (r = GTP_BAD_PATH ∧ NUL ∉ bs) ∨
          (r = 0 ∧ fetched req notifyFd argNum bs s s')))))).

(** Concludes a run of [getTargetPathname] that opened the memory file. *)
Ltac opened :=
  do 2 eexists; split; [done|]; eexists; simpl; rewrite <- !app_assoc; split; [done|];
  right; do 2 eexists; split; [done|].

Lemma getTargetPathname_run req notifyFd argNum (s : st) :
  ∃ r s', getTargetPathname req notifyFd argNum PATH_MAX s = (Ok r, s') ∧
    gtp_outcome req notifyFd argNum s r s'.
Proof.
  unfold getTargetPathname, gtp_outcome. fold (proc_mem req).
  destruct (sys_open_ro (snprintf PATH_MAX (proc_mem req)) (world s)) as [[e|fd] w1] eqn:Ho.
  { erewrite run_bind by (by apply call_fail). do 2 eexists. split; [done|].
    eexists; split; [reflexivity|]. left. split_and!; [done..|]. by exists e, w1. }
  erewrite run_bind by (by apply call_ok).
  edestruct (cookieIsValid_run notifyFd (n_id req)) as (p1 & w2 & v1 & Hv1 & Hc).
  erewrite run_bind by exact Hc. clear Hc. simpl in Hv1.
  destruct (match v1 with inl _ => false | inr v => v =? 0 end) eqn:Ev1; cbn [negb].
  2:{ edestruct (close_run fd) as (p2 & w3 & c & Hcl & Hc). erewrite run_bind by exact Hc.
      opened. by left. }
  destruct (sys_pread fd PATH_MAX (sd_arg (n_data req) argNum) w2) as [[e|bs] w3] eqn:Hr.
  { erewrite run_bind by (by apply call_fail).
    erewrite run_bind by reflexivity.
    edestruct (close_run fd) as (p2 & w4 & c & Hcl & Hc). erewrite run_bind by exact Hc.
    opened. right; left. done. }
  erewrite run_bind by (by apply call_ok).
  erewrite run_bind by reflexivity.
  edestruct (close_run fd) as (p2 & w4 & c & Hcl & Hc). erewrite run_bind by exact Hc.
  clear Hc. simpl in *. apply pread_len in Hr as Hlen.
  destruct bs as [|b0 bs0].
  { opened. right; left. done. }
  set (bs := b0 :: bs0) in *.
  edestruct (cookieIsValid_run notifyFd (n_id req)) as (p3 & w5 & v2 & Hv2 & Hc).
  erewrite run_bind by exact Hc. clear Hc. simpl in Hv2.
  assert (0 < length bs <= PATH_MAX)%nat by (simpl in *; lia).
  destruct (match v2 with inl _ => false | inr v => v =? 0 end) eqn:Ev2; cbn [negb].
  2:{ opened. right; right. exists bs.
      split_and!; [lia|lia|done|done|by left]. }
  destruct (buf_strnlen_bytes (drop (length bs) (vars s)) bs) as (n & Hn & Hnul).
  erewrite run_bind by (apply on_path_run; exact Hn).
  destruct (n <? length bs)%nat eqn:En; bool_facts.
  - opened. right; right. exists bs.
    split_and!; [lia|lia|done|done|]. right; right. split; [done|].
    destruct v1 as [|v1]; [done|]. destruct v2 as [|v2]; [done|]. bool_facts. subst.
    exists fd, w1, w2, w3, w4, c. split_and!; try done. by apply Hnul.
  - opened. right; right. exists bs.
    split_and!; [lia|lia|done|done|]. right; left. split; [done|].
    rewrite <- Hnul. lia.
Qed.

Lemma gtp_outcome_facts req notifyFd argNum (s : st) r s' :
  gtp_outcome req notifyFd argNum s r s' →
  extends inspects s s' ∧
  (∃ bs, (length bs <= PATH_MAX)%nat ∧ vars s' = overlay bs (vars s)) ∧
  r ∈ [0; GTP_BAD_READ; GTP_ID_NOT_VALID; GTP_BAD_PATH] ∧
  (∀ fd w, sys_open_ro (snprintf PATH_MAX (proc_mem req)) (world s) = (inr fd, w) →
     ∃ l, trace s' = trace s ++ l ∧ CClose fd ∈ l).
Proof.
  intros (l & Hl & H). rewrite !elem_of_cons.
  destruct H as [(-> & -> & Hv & e & w & Ho)|(fd & w1 & Ho & [(-> & -> & Hv)|[(-> & -> & Hv)|
    (bs & Hbs & -> & Hv & Hr)]])].
  - split_and!; [|exists []; split; [simpl; lia|done]|by auto|by rewrite Ho].
    eexists; split; [done|]. by repeat constructor.
  - split_and!; [|exists []; split; [simpl; lia|done]|by auto|].
    + eexists; split; [done|]. by repeat constructor.
    + rewrite Ho. intros ? ? [= <- <-]. eexists; split; [done|]. rewrite !elem_of_cons. auto 6.
  - split_and!; [|exists []; split; [simpl; lia|done]|by auto|].
    + eexists; split; [done|]. by repeat constructor.
    + rewrite Ho. intros ? ? [= <- <-]. eexists; split; [done|]. rewrite !elem_of_cons. auto 6.
  - split_and!; [|exists bs; split; [lia|done]| |].
    + eexists; split; [done|]. by repeat constructor.
    + destruct Hr as [->|[[-> _]|[-> _]]]; auto.
    + rewrite Ho. intros ? ? [= <- <-]. eexists; split; [done|]. rewrite !elem_of_cons. auto 6.
Qed.

(** A fetched pathname, as the supervisor goes on to read it. *)
Lemma fetched_path req notifyFd argNum bs (s s' : st) :
  fetched req notifyFd argNum bs s s' →
  buf_cstr (vars s') = Some (c_string bs) ∧
  (∀ t, no_nul t → buf_prefix (vars s') t = Some (starts t (c_string bs))) ∧
  (∀ t, no_nul t → buf_strcmp (vars s') t = Some (bool_decide (c_string bs = t))).
Proof.
  intros (? & ? & ? & ? & ? & ? & _ & _ & _ & _ & _ & Hn & ->). unfold overlay.
  split_and!; intros.
  - by apply buf_cstr_bytes.
  - by apply buf_prefix_bytes.
  - by apply buf_strcmp_bytes.
Qed.

Lemma gtp_vars req notifyFd argNum (s : st) r s' :
  gtp_outcome req notifyFd argNum s r s' → buf_wf (vars s) →
  buf_wf (vars s') ∧ (Forall is_Some (vars s) → Forall is_Some (vars s')).
Proof.
  intros (_ & (bs & Hbs & Hv) & _)%gtp_outcome_facts Hwf. split.
  - unfold buf_wf in *. rewrite Hv, overlay_length; [done|lia].
  - intros Hf. rewrite Hv. by apply overlay_init.
Qed.

(** C32: [getTargetPathname] always returns one of its four documented codes,
    closes the target's memory file on every path where it opened it, and
    only inspects the target.  It returns 0 only when the notification was
    valid before and after the read and the bytes read hold a null byte; the
    buffer then holds that C string. *)
Theorem getTargetPathname_spec req notifyFd argNum (s : st) :
  buf_wf (vars s) →
  ∃ r s', getTargetPathname req notifyFd argNum PATH_MAX s = (Ok r, s') ∧
    buf_wf (vars s') ∧ extends inspects s s' ∧
    r ∈ [0; GTP_BAD_READ; GTP_ID_NOT_VALID; GTP_BAD_PATH] ∧
    (∀ fd w, sys_open_ro (snprintf PATH_MAX (proc_mem req)) (world s) = (inr fd, w) →
       ∃ l, trace s' = trace s ++ l ∧ CClose fd ∈ l) ∧
    (r = 0 → ∃ bs, fetched req notifyFd argNum bs s s' ∧
                   buf_cstr (vars s') = Some (c_string bs)).
Proof.
  intros Hwf. destruct (getTargetPathname_run req notifyFd argNum s) as (r & s' & Hrun & Ho).
  exists r, s'. destruct (gtp_vars _ _ _ _ _ _ Ho Hwf) as [Hwf' _].
  destruct (gtp_outcome_facts _ _ _ _ _ _ Ho) as (He & _ & Hr & Hc).
  split_and!; [done..|]. intros ->.
  destruct Ho as (l & _ & [(? & _)|(fd & w1 & _ & [(? & _)|[(? & _)|
    (bs & _ & _ & _ & [?|[[? _]|[_ Hf]]])]])]); try done.
  exists bs. split; [done|]. by apply fetched_path in Hf as [? _].
Qed.

(** The path decides what the supervisor does for a [mkdir()]. *)
Definition mkdir_answer (req : seccomp_notif) (p : string) (result : Z + unit)
    : seccomp_notif_resp :=
  if starts "/tmp/" p then
    match result with
    | inr _ => Resp (n_id req) (Z.of_nat (String.length p)) 0 0
    | inl e => Resp (n_id req) 0 (- e) 0
    end
  else if starts "./" p then Resp (n_id req) 0 0 SECCOMP_USER_NOTIF_FLAG_CONTINUE
  else Resp (n_id req) 0 (- EOPNOTSUPP) 0.

Definition readable (b : pathbuf) (p : string) : Prop :=
  buf_cstr b = Some p ∧
  (∀ t, no_nul t → buf_prefix b t = Some (starts t p)) ∧
  (∀ t, no_nul t → buf_strcmp b t = Some (bool_decide (p = t))).

Lemma no_nul_check t : bool_decide (NUL ∈ chars t) = false → no_nul t.
Proof. unfold no_nul. by rewrite bool_decide_eq_false. Qed.

Lemma mkdir_response_run req p (s : st) :
  readable (vars s) p →
  let mode := lo32 (sd_arg (n_data req) 1) in
  ∃ s', mkdir_response req 0 s =
      (Ok (mkdir_answer req p (sys_mkdir p mode (world s)).1), s') ∧
    vars s' = vars s ∧
    trace s' = trace s ++ (if starts "/tmp/" p then [CMkdir p mode] else []).
Proof.
  intros (Hc & Hp & _) mode. unfold mkdir_response, mkdir_answer. cbn [negb Z.eqb].
  erewrite run_bind by (apply on_path_run, Hp, no_nul_check; reflexivity).
  destruct (starts "/tmp/" p).
  - erewrite run_bind by (apply on_path_run, Hc).
    erewrite run_bind by reflexivity.
    destruct (sys_mkdir p mode (world s)) as [[e|[]] w] eqn:E.
    + erewrite run_bind by (by apply call_fail). by eexists.
    + erewrite run_bind by (by apply call_ok). by eexists.
  - erewrite run_bind by (apply on_path_run, Hp, no_nul_check; reflexivity).
    destruct (starts "./" p); eexists; (split_and!; [done|done|by rewrite app_nil_r]).
Qed.

(** Given a pathname fetched from the target, the [mkdir()] supervisor
    creates the directory itself exactly when the path starts with "/tmp/",
    with the target's mode, reporting the path's length or the error number;
    lets the target go on exactly when the path starts with "./"; and
    refuses every other path with [EOPNOTSUPP] without any system call. *)
Theorem mkdir_response_spec req p (s : st) :
  readable (vars s) p →
  let mode := lo32 (sd_arg (n_data req) 1) in
  ∃ s', mkdir_response req 0 s =
      (Ok (mkdir_answer req p (sys_mkdir p mode (world s)).1), s') ∧
    vars s' = vars s ∧
    trace s' = trace s ++ (if starts "/tmp/" p then [CMkdir p mode] else []).
Proof. apply mkdir_response_run. Qed.

(** The notification is valid in the world [w]; the world once that was asked, and
    after sleeping [n] times for a second. *)
Definition alive (notifyFd id : Z) (w : W) : Prop := (sys_id_valid notifyFd id w).1 = inr 0.
Definition asked (notifyFd id : Z) (w : W) : W := (sys_id_valid notifyFd id w).2.
Definition slept (n : nat) (w : W) : W := Nat.iter n (λ w, (sys_sleep 1 w).2) w.

(** The worlds at the two checks that the delay consists of, and the calls made
    until the second of them. *)
Definition after_delay (notifyFd id d : Z) (w : W) : W :=
  slept (Z.to_nat d) (asked notifyFd id w).
Definition delay_calls (notifyFd id d : Z) : list ncall :=
  CIdValid notifyFd id :: replicate (Z.to_nat d) (CSleep 1) ++ [CIdValid notifyFd id].

Lemma delay_run n (s : st) :
  ∃ p, delay n s =
    (Ok tt, Pst p (vars s) (trace s ++ replicate n (CSleep 1)) (slept n (world s))).
Proof.
  revert s. induction n as [|n IH]; intros s; cbn [delay].
  { exists (pr s). rewrite app_nil_r. by destruct s. }
  erewrite run_bind by reflexivity. unfold slept. rewrite Nat.iter_succ_r. fold (slept n). cbv beta.
  match goal with |- context [call ?c ?f] =>
    destruct (f (world s)) as [r w] eqn:E end.
  destruct r as [e|[]]; (erewrite run_bind by first [by apply call_fail|by apply call_ok]);
    match goal with |- context [delay n ?x] => destruct (IH x) as [p Hp] end;
    exists p; rewrite Hp; simpl; by rewrite <- app_assoc.
Qed.

(** The check lets the supervisor go on when the notification is valid, and ends
    it otherwise. *)
Lemma check_cookie_run notifyFd id (s : st) :
  let after p := Pst p (vars s) (trace s ++ [CIdValid notifyFd id]) (asked notifyFd id (world s)) in
  (alive notifyFd id (world s) ∧ ∃ p, check_cookie notifyFd id s = (Ok tt, after p)) ∨
  (¬ alive notifyFd id (world s) ∧
     ∃ p, check_cookie notifyFd id s = (Halt (HExit EXIT_FAILURE), after p)).
Proof.
  intros after. unfold check_cookie, alive.
  destruct (cookieIsValid_run notifyFd id s) as (p & w & r & E & Hc).
  assert (asked notifyFd id (world s) = w) as Hw by (unfold asked; by rewrite E).
  rewrite E. unfold after. rewrite Hw. erewrite run_bind by exact Hc.
  destruct r as [e|v]; [|destruct (v =? 0) eqn:Ev; bool_facts];
    [right|left|right]; (split; [simpl; congruence|by eexists]).
Qed.

(** What the delay does: nothing without one; otherwise the supervisor goes on
    when the notification is valid before and after it, and exits at the first of
    the two checks that finds it dead. *)
Lemma mkdir_delay_run notifyFd opts req (s : st) :
  let id := n_id req in
  let d := delaySecs opts in
  let w1 := after_delay notifyFd id d (world s) in
  ∃ p, if decide (d <= 0)
    then mkdir_delay notifyFd opts req s = (Ok tt, s)
    else
      (alive notifyFd id (world s) ∧ alive notifyFd id w1 ∧
        mkdir_delay notifyFd opts req s =
          (Ok tt, Pst p (vars s) (trace s ++ delay_calls notifyFd id d) (asked notifyFd id w1))) ∨
      (alive notifyFd id (world s) ∧ ¬ alive notifyFd id w1 ∧
        mkdir_delay notifyFd opts req s = (Halt (HExit EXIT_FAILURE),
          Pst p (vars s) (trace s ++ delay_calls notifyFd id d) (asked notifyFd id w1))) ∨
      (¬ alive notifyFd id (world s) ∧
        mkdir_delay notifyFd opts req s = (Halt (HExit EXIT_FAILURE),
          Pst p (vars s) (trace s ++ [CIdValid notifyFd id]) (asked notifyFd id (world s)))).
Proof.
  intros id d w1. unfold mkdir_delay, delay_calls. fold id d. case_decide as Hd.
  { exists (pr s). by replace (0 <? d) with false by lia. }
  replace (0 <? d) with true by lia. simpl when. erewrite run_bind by reflexivity.
  match goal with |- context [(_ ≫= _) ?x] => set (s0 := x) end.
  destruct (check_cookie_run notifyFd id s0) as [[Ha [p1 H1]]|[Ha [p1 H1]]].
  2:{ exists p1. right; right. split; [done|]. by erewrite run_bind_halt by exact H1. }
  erewrite run_bind by exact H1.
  match goal with |- context [(delay ?n ≫= _) ?x] => destruct (delay_run n x) as [p2 H2] end.
  erewrite run_bind by exact H2. erewrite run_bind by reflexivity.
  match goal with |- context [check_cookie _ _ ?x] =>
    destruct (check_cookie_run notifyFd id x) as [[Hb [p3 H3]]|[Hb [p3 H3]]] end;
    exists p3; [left|right; left]; rewrite H3; simpl; rewrite <- !app_assoc; by split_and!.
Qed.

Lemma send_response_run notifyFd resp (s : st) :
  ∃ p w, send_response notifyFd resp s =
    (Ok tt, Pst p (vars s) (trace s ++ [CSend notifyFd resp]) w).
Proof.
  unfold send_response. erewrite run_bind by reflexivity.
  destruct (sys_send notifyFd resp (world s)) as [[e|v] w] eqn:E.
  - erewrite run_bind by (by apply call_fail). cbv beta iota. destruct (e =? ENOENT); do 2 eexists; reflexivity.
  - erewrite run_bind by (by apply call_ok). by do 2 eexists.
Qed.

Lemma buf_strcmp_init (b : pathbuf) t :
  Forall is_Some b → (String.length t < length b)%nat → is_Some (buf_strcmp b t).
Proof.
  intros Hf. revert t. induction Hf as [|x b [c ->] Hf IH]; intros t Ht; [simpl in Ht; lia|].
  destruct t as [|d t]; simpl; [eauto|].
  destruct (decide (c = d)); [apply IH; simpl in Ht; lia|eauto].
Qed.

(** The calls made before the response. *)
Definition mkdir_prep (req : seccomp_notif) (c : ncall) : Prop :=
  inspects c ∨ ∃ p, starts "/tmp/" p = true ∧ c = CMkdir p (lo32 (sd_arg (n_data req) 1)).

(** A response is the refusal of a path that was not fetched, or the answer to
    the one in the buffer. *)
Definition answers (req : seccomp_notif) (b : pathbuf) (resp : seccomp_notif_resp) : Prop :=
  resp = Resp (n_id req) 0 (- EINVAL) 0 ∨
  ∃ p result, readable b p ∧ resp = mkdir_answer req p result.

Lemma mkdir_respond req r (s : st) :
  (r = 0 → ∃ p, readable (vars s) p) →
  ∃ resp s', mkdir_response req r s = (Ok resp, s') ∧ answers req (vars s) resp ∧
    vars s' = vars s ∧ extends (mkdir_prep req) s s'.
Proof.
  intros H. destruct (decide (r = 0)) as [->|Hr].
  - destruct (H eq_refl) as [p Hp].
    destruct (mkdir_response_run req p s Hp) as (s' & Hrun & Hv & Ht).
    do 2 eexists. split; [exact Hrun|]. split_and!; [|done|].
    + right. by do 2 eexists.
    + exists (if starts "/tmp/" p then [CMkdir p (lo32 (sd_arg (n_data req) 1))] else []).
      split; [done|]. destruct (starts "/tmp/" p) eqn:E; [|done].
      apply Forall_singleton. right. by exists p.
  - unfold mkdir_response. rewrite (proj2 (Z.eqb_neq _ _) Hr). cbn [negb].
    do 2 eexists. split; [reflexivity|]. split_and!; [by left|done|].
    exists []. by rewrite app_nil_r.
Qed.

Lemma answers_id req b resp : answers req b resp → r_id resp = n_id req.
Proof.
  intros [->|(p & [e|[]] & _ & ->)]; [done|..]; unfold mkdir_answer; by repeat case_match.
Qed.

Lemma gtp_readable req notifyFd argNum (s s' : st) :
  gtp_outcome req notifyFd argNum s 0 s' → ∃ p, readable (vars s') p.
Proof.
  intros (l & _ & [(? & _)|(fd & w1 & _ & [(? & _)|[(? & _)|
    (bs & _ & _ & _ & [?|[[? _]|[_ Hf]]])]])]); try done.
  exists (c_string bs). by eapply fetched_path.
Qed.

(** What follows the delay: the path is fetched and the notification answered. *)
Lemma mkdir_answered notifyFd req (s : st) :
  buf_init (vars s) →
  match (pathStatus ← getTargetPathname req notifyFd 0 PATH_MAX;
         r ← mkdir_response req pathStatus;
         send_response notifyFd r;;
         on_path (λ b, buf_strcmp b "/bye")) s with
  | (Ok leave, s') =>
      buf_init (vars s') ∧ buf_strcmp (vars s') "/bye" = Some leave ∧
      ∃ pre resp, trace s' = trace s ++ pre ++ [CSend notifyFd resp] ∧
        r_id resp = n_id req ∧ answers req (vars s') resp ∧ Forall (mkdir_prep req) pre
  | (Halt _, _) => False
  end.
Proof.
  intros [Hwf Hinit].
  destruct (getTargetPathname_run req notifyFd 0 s) as (r & s2 & Hg & Ho).
  erewrite run_bind by exact Hg.
  destruct (gtp_vars _ _ _ _ _ _ Ho) as [Hwf2 Hi2]; [done|].
  destruct (gtp_outcome_facts _ _ _ _ _ _ Ho) as (He2 & _).
  destruct (mkdir_respond req r s2) as (resp & s3 & Hm & Hans & Hv3 & He3).
  { intros ->. by eapply gtp_readable. }
  erewrite run_bind by exact Hm.
  destruct (send_response_run notifyFd resp s3) as (p4 & w4 & Hs).
  erewrite run_bind by exact Hs.
  assert (Forall is_Some (vars s2)) as Hi by (by apply Hi2).
  destruct (buf_strcmp_init (vars s2) "/bye" Hi) as [b Hb]; [rewrite Hwf2; simpl; unfold PATH_MAX; lia|].
  erewrite on_path_run by (simpl; rewrite Hv3; exact Hb). simpl. rewrite Hv3.
  split_and!; [done|done|].
  destruct He2 as (l2 & H2 & F2), He3 as (l3 & H3 & F3).
  exists (l2 ++ l3), resp. rewrite H3, H2, <- !app_assoc.
  split_and!; [done|by eapply answers_id|done|]. rewrite Forall_app.
  split; [|done]. eapply Forall_impl; [eassumption|]. intros ? ?; by left.
Qed.

(** C33: with the path buffer initialised, each [mkdir()] notification is
    answered exactly once: the pass ends with one response that carries the
    notification's ID and is the refusal [EINVAL] or the answer to the path in the
    buffer, and before it the supervisor only inspects the target or creates a
    directory under "/tmp/".  The one way not to answer is a configured delay at
    whose beginning or end the notification is no longer valid: exactly then the
    supervisor exits with failure, at the first of the two checks that says so,
    having done nothing but those checks and the sleeps. *)
Theorem mkdir_handle_answers notifyFd opts req (s : st) :
  buf_init (vars s) →
  let id := n_id req in
  let d := delaySecs opts in
  let w1 := after_delay notifyFd id d (world s) in
  match mkdir_handle notifyFd opts (Some tt) req s with
  | (Ok leave, s') =>
      (0 < d → alive notifyFd id (world s) ∧ alive notifyFd id w1) ∧
      buf_init (vars s') ∧ buf_strcmp (vars s') "/bye" = Some leave ∧
      ∃ pre resp, trace s' = trace s ++ pre ++ [CSend notifyFd resp] ∧
        r_id resp = id ∧ answers req (vars s') resp ∧ Forall (mkdir_prep req) pre
  | (Halt h, s') =>
      h = HExit EXIT_FAILURE ∧ 0 < d ∧ vars s' = vars s ∧
      ((¬ alive notifyFd id (world s) ∧ trace s' = trace s ++ [CIdValid notifyFd id]) ∨
       (alive notifyFd id (world s) ∧ ¬ alive notifyFd id w1 ∧
          trace s' = trace s ++ delay_calls notifyFd id d))
  end.
Proof.
  intros Hb id d w1. unfold mkdir_handle.
  destruct (mkdir_delay_run notifyFd opts req s) as [p Hd]. fold id d w1 in Hd.
  case_decide as H0.
  { erewrite run_bind by exact Hd. pose proof (mkdir_answered notifyFd req s Hb) as Ha.
    match type of Ha with match ?run with _ => _ end => set (R := run) in * end.
    destruct R as [[leave|h] s']; [|done].
    split; [lia|exact Ha]. }
  destruct Hd as [(A0 & A1 & Hd)|[(A0 & A1 & Hd)|(A0 & Hd)]].
  - erewrite run_bind by exact Hd.
    match goal with |- context [(getTargetPathname _ _ _ _ ≫= _) ?x] =>
      pose proof (mkdir_answered notifyFd req x Hb) as Ha end.
    match type of Ha with match ?run with _ => _ end => set (R := run) in * end.
    destruct R as [[leave|h] s']; [|done].
    split; [done|]. destruct Ha as (Hi & Hc & pre & resp & Ht & Hid & Hans & Hpre).
    split_and!; [done..|]. exists (delay_calls notifyFd id d ++ pre), resp.
    split_and!; [by rewrite Ht; simpl trace; rewrite <- !app_assoc|done..|].
    rewrite Forall_app. split; [|done]. apply Forall_impl with inspects; [|by left].
    repeat constructor. apply Forall_app. split; [by apply Forall_replicate|by repeat constructor].
  - erewrite run_bind_halt by exact Hd. split_and!; [done|lia|done|]. by right.
  - erewrite run_bind_halt by exact Hd. split_and!; [done|lia|done|]. by left.
Qed.

(** The buffer is not initialised before the first notification, so when
    the first target cannot be inspected the test for the path "/bye" that
    ends the pass reads an indeterminate byte. *)
Theorem mkdir_handle_uninit notifyFd req (s : st) e w :
  vars s = replicate PATH_MAX None →
  sys_open_ro (snprintf PATH_MAX (proc_mem req)) (world s) = (inl e, w) →
  (mkdir_handle notifyFd (Opts 0 (-1)) (Some tt) req s).1 = Halt HUndef.
Proof.
  intros Hv Ho. unfold mkdir_handle. erewrite run_bind by reflexivity.
  unfold getTargetPathname. fold (proc_mem req).
  erewrite run_bind by (erewrite run_bind by (by apply call_fail); reflexivity).
  erewrite run_bind by reflexivity.
  match goal with |- context [(send_response _ ?r ≫= _) ?s] =>
    destruct (send_response_run notifyFd r s) as (p4 & w4 & Hs) end.
  erewrite run_bind by exact Hs.
  unfold on_path, get_vars. erewrite run_bind by reflexivity. simpl vars. by rewrite Hv.
Qed.

(** Given a fetched pathname, the [openat()] supervisor opens the file on
    the target's behalf with the target's own arguments.  A failure is passed
    on as the negated error number; on success the descriptor is installed in
    the target as number 42 above the supervisor's own, the supervisor's copy
    is closed, and the response returns the target's number.  If installing it
    fails the supervisor ends, leaving the target without a response. *)
Theorem openat_response_spec notifyFd req p (s : st) :
  readable (vars s) p →
  let arg := sd_arg (n_data req) in
  let dirfd := to_signed 32 (arg 0%nat) in
  let flags := to_signed 32 (arg 2%nat) in
  let mode := lo32 (arg 3%nat) in
  let op := COpenat dirfd p flags mode in
  let out := openat_response notifyFd req 0 s in
  match sys_openat dirfd p flags mode (world s) with
  | (inl e, _) =>
      out.1 = Ok (Resp (n_id req) 0 (- e) 0) ∧ trace out.2 = trace s ++ [op]
  | (inr fd, w) =>
      let add := Addfd (n_id req) SECCOMP_ADDFD_FLAG_SETFD fd (42 + fd) O_CLOEXEC in
      match sys_addfd notifyFd add w with
      | (inr remoteFd, _) =>
          out.1 = Ok (Resp (n_id req) remoteFd 0 0) ∧
          trace out.2 = trace s ++ [op; CAddfd notifyFd add; CClose fd]
      | (inl _, _) =>
          (∃ h, out.1 = Halt h ∧ fatal_end h) ∧
          trace out.2 = trace s ++ [op; CAddfd notifyFd add]
      end
  end.
Proof.
  intros (Hc & _) arg dirfd flags mode op out. unfold out, openat_response. cbn [negb Z.eqb].
  erewrite run_bind by (apply on_path_run, Hc). erewrite run_bind by reflexivity.
  fold arg dirfd flags mode op.
  destruct (sys_openat dirfd p flags mode (world s)) as [[e|fd] w] eqn:E.
  { erewrite run_bind by (by apply call_fail). done. }
  erewrite run_bind by (by apply call_ok). cbv beta iota zeta.
  set (add := Addfd (n_id req) SECCOMP_ADDFD_FLAG_SETFD fd (42 + fd) O_CLOEXEC).
  destruct (sys_addfd notifyFd add w) as [[e|r] w'] eqn:E'; cbv beta iota zeta.
  - erewrite run_bind by (by apply call_fail). cbv beta iota.
    match goal with |- context [p_systmErr ?m ?s] =>
      destruct (@p_systmErr_halts _ _ _ _ seccomp_notif_resp m s) as (h & s' & -> & Hh & Hs) end.
    split; [by exists h|]. cbn [snd]. destruct Hs as (_ & Ht & _). rewrite Ht. simpl.
    by rewrite <- app_assoc.
  - erewrite run_bind by (by apply call_ok). cbv beta iota.
    match goal with |- context [(close fd ≫= _) ?s] =>
      destruct (close_run fd s) as (p2 & w2 & c & _ & Hcl) end.
    erewrite run_bind by exact Hcl. simpl. split; [done|]. by rewrite <- !app_assoc.
Qed.

(** [allocSeccompNotifBuffers] asks for a response buffer that fits both
    the kernel's and the program's idea of the structure, and ends the process
    when the sizes or the request buffer cannot be had; but when the response
    buffer cannot be allocated it returns with a null [resp], and the first
    notification then dereferences it. *)
Theorem alloc_null_resp notifyFd opts req sizes w1 w2 e w3 (s s0 : st) :
  sys_notif_sizes (world s) = (inr sizes, w1) →
  sys_alloc (sz_notif sizes) w1 = (inr tt, w2) →
  sys_alloc (Z.max sizeof_resp (sz_resp sizes)) w2 = (inl e, w3) →
  (allocSeccompNotifBuffers s).1 = Ok (sizes, Some tt, None) ∧
  (delaySecs opts <= 0 → (mkdir_handle notifyFd opts None req s0).1 = Halt HUndef).
Proof.
  intros H1 H2 H3. split.
  - unfold allocSeccompNotifBuffers. erewrite run_bind by (by apply call_ok). cbv beta iota.
    erewrite run_bind by (by apply call_ok). cbv beta iota zeta.
    replace (if sz_resp sizes <? sizeof_resp then sizeof_resp else sz_resp sizes)
      with (Z.max sizeof_resp (sz_resp sizes))
      by (destruct (sz_resp sizes <? sizeof_resp) eqn:E; bool_facts; lia).
    erewrite run_bind by (by apply call_fail). done.
  - intros Hd. unfold mkdir_handle, mkdir_delay.
    rewrite (proj2 (Z.ltb_ge _ _)) by lia. erewrite run_bind by reflexivity.
    destruct (getTargetPathname_run req notifyFd 0 s0) as (r & s2 & Hg & _).
    by erewrite run_bind by exact Hg.
Qed.
End facts.

(** ** A concrete kernel *)

(** The reply to an attempt to open the target's memory, its contents, and how
    many allocations still succeed. *)
Record toy := Toy { toy_open : Z + Z; toy_mem : list ascii; toy_room : nat }.

#[export] Instance toy_notify : NotifySys toy := {|
  sys_notif_sizes w := (inr (Sizes 80 24), w);
  sys_alloc _ w :=
    match toy_room w with
    | O => (inl 12, w)
    | S n => (inr tt, Toy (toy_open w) (toy_mem w) n)
    end;
  sys_open_ro _ w := (toy_open w, w);
  sys_close _ w := (inr tt, w);
  sys_id_valid _ _ w := (inr 0, w);
  sys_pread _ n _ w := (inr (take n (toy_mem w)), w);
  sys_mkdir _ _ w := (inr tt, w);
  sys_openat _ _ _ _ w := (inr 5, w);
  sys_recv _ w := (inl EINTR, w);
  sys_send _ _ w := (inr 0, w);
  sys_addfd _ a w := (inr (a_newfd a), w);
  sys_sleep _ w := (inr tt, w) |}.

#[export] Instance toy_laws : NotifyLaws toy.
Proof. intros fd n off w bs w' [= <- <-]. rewrite length_take. lia. Qed.

Definition toy_req : seccomp_notif :=
  Notif 7 1234 (SeccompData NR_mkdir AUDIT_ARCH_X86_64 0 [4096; 448; 0; 0; 0; 0]).
Definition toy_path : list ascii := chars "/tmp/x" ++ [NUL; "z"%char].
Definition toy_start (b : pathbuf) : pst pathbuf ncall toy :=
  Pst start_proc b [] (Toy (inr 3) toy_path 2).
Definition toy_buf : pathbuf := replicate PATH_MAX (Some NUL).

Lemma toy_buf_init : buf_init toy_buf.
Proof.
  split; [apply length_replicate|]. apply Forall_replicate. by eexists.
Qed.

Lemma toy_readable :
  readable (map Some toy_path) "/tmp/x".
Proof.
  rewrite <- (app_nil_r (map Some toy_path)).
  assert (NUL ∈ toy_path) as Hn by (apply elem_of_app; right; apply elem_of_cons; by left).
  change "/tmp/x" with (c_string toy_path). split_and!; intros.
  - by apply buf_cstr_bytes.
  - by apply buf_prefix_bytes.
  - by apply buf_strcmp_bytes.
Qed.

Lemma getTargetPathname_spec_witness :
  ∃ r s', getTargetPathname toy_req 9 0 PATH_MAX (toy_start toy_buf) = (Ok r, s') ∧
    buf_wf (vars s').
Proof.
  destruct (getTargetPathname_spec toy_req 9 0 (toy_start toy_buf)) as (r & s' & H & Hw & _).
  - exact (proj1 toy_buf_init).
  - by exists r, s'.
Defined.

Lemma mkdir_response_spec_witness :
  ∃ s', mkdir_response toy_req 0 (toy_start (map Some toy_path)) = (Ok (Resp 7 6 0 0), s').
Proof.
  destruct (mkdir_response_spec toy_req "/tmp/x" (toy_start (map Some toy_path)) toy_readable)
    as (s' & H & _).
  exists s'. exact H.
Defined.

Lemma mkdir_handle_answers_witness :
  match mkdir_handle 9 (Opts 2 (-1)) (Some tt) toy_req (toy_start toy_buf) with
  | (Ok leave, s') => buf_init (vars s') ∧ buf_strcmp (vars s') "/bye" = Some leave
  | (Halt h, s') => ¬ alive 9 7 (Toy (inr 3) toy_path 2)
  end.
Proof.
  pose proof (mkdir_handle_answers 9 (Opts 2 (-1)) toy_req (toy_start toy_buf) toy_buf_init) as H.
  destruct (mkdir_handle _ _ _ _ _) as [[l|h] s']; [by destruct H as (_ & H1 & H2 & _)|].
  destruct H as (_ & _ & _ & [[Ha _]|(_ & Ha & _)]); exact Ha.
Defined.

Lemma mkdir_handle_uninit_witness :
  (mkdir_handle 9 (Opts 0 (-1)) (Some tt) toy_req
    (Pst start_proc (replicate PATH_MAX None) [] (Toy (inl EACCES) [] 2))).1 = Halt HUndef.
Proof. by eapply mkdir_handle_uninit. Defined.

Lemma openat_response_spec_witness :
  (openat_response 9 toy_req 0 (toy_start (map Some toy_path))).1 = Ok (Resp 7 47 0 0).
Proof.
  exact (proj1 (openat_response_spec 9 toy_req "/tmp/x" (toy_start (map Some toy_path)) toy_readable)).
Defined.

Lemma alloc_null_resp_witness :
  (mkdir_handle 9 (Opts 0 (-1)) None toy_req (toy_start toy_buf)).1 = Halt HUndef.
Proof.
  refine (proj2 (alloc_null_resp 9 (Opts 0 (-1)) toy_req (Sizes 80 24) (Toy (inr 3) [] 1)
    (Toy (inr 3) [] 0) 12 (Toy (inr 3) [] 0)
    (Pst start_proc toy_buf [] (Toy (inr 3) [] 1)) (toy_start toy_buf) _ _ _) _);
    try reflexivity; done.
Defined.
