(* ===== verification/SeccompSupervisor.v ===== *)
(** The programs [seccomp/seccomp_unotify_mkdir.c] and
    [seccomp/seccomp_unotify_openat.c] as wholes: command line, the target
    process that installs the filters and makes the calls, the supervisor
    process that answers, and [main]; and the launcher
    [seccomp/seccomp_launch.c].

    A program is run in the role [fork()] gives it.  Passing a descriptor over a
    socket ([sendfd], [recvfd]) is an operation of the outside. *)
From S2P Require Import Prelude CLib ErrorFunctions Proc Bpf SeccompFilters SeccompNotify.
Local Open Scope Z_scope.

(** The system calls these programs make besides those of [NotifySys]. *)
Inductive pcall :=
| PFork
| PSigaction (sig : Z)
| PNoNewPrivs
| PInstall (flags : Z) (prog : sock_fprog)
| PSendfd (sock fd : Z)
| PRecvfd (sock : Z)
| PSocketpair
| PCloseFd (fd : Z)
| PMkdir (path : string)
| POpenat (path : string)
| PRead (fd : Z)
| PWrite (text : string)
| POpen (path : string)
| PFstat (fd : Z)
| PAlloc (n : Z)
| PExecvp (prog : string) (args : list string).

Definition SIGINT : Z := 2.
Definition SIGCHLD : Z := 17.

Class ProgSys (W : Type) := {
  (** calls with a numeric result, and the second descriptor of a socket pair *)
  sys_call : pcall → W → (Z + Z) * W;
  (** [read] of at most so many bytes *)
  sys_read_file : Z → Z → W → (Z + list ascii) * W;
  (** the filter a blob of bytes spells *)
  blob_filter : list ascii → list sock_filter
}.

Section programs.
Context {L : Libc} {W : Type} `{!ProgSys W}.
Local Abbreviation P := (M (pst (list sock_fprog) pcall W)).

(** The state's variable lists the filters installed so far, oldest first. *)
Definition seccomp_install (flags : Z) (filter : list sock_filter) : P (Z + Z) :=
  let prog := fprog_of filter in
  r ← call (PInstall flags prog) (sys_call (PInstall flags prog));
  match r with
  | inr fd => put_vars (λ l, l ++ [prog]);; mret (inr fd)
  | inl e => mret (inl e)
  end.

Definition must_if (ok : Z → bool) (c : pcall) (msg : string) : P Z :=
  r ← call c (sys_call c);
  match r with
  | inl _ => p_systmErr msg
  | inr v => if ok v then mret v else p_systmErr msg
  end.

(** [if (call == -1) systmErr(msg)] *)
Definition must : pcall → string → P Z := must_if (λ _, true).

(** [if (call) systmErr(msg)] *)
Definition must_zero : pcall → string → P Z := must_if (λ v, v =? 0).

Definition closeSocketPair (sockPair : Z * Z) : P unit :=
  must (PCloseFd sockPair.1) "closeSocketPair-close-0";;
  must (PCloseFd sockPair.2) "closeSocketPair-close-1";;
  skip.

(** *** Command line of [seccomp_unotify_mkdir.c] *)

Definition usageError {A} (msg : option string) (pname : string) : P A :=
  (match msg with Some m => eprintf (m +:+ nl) | None => skip end);;
  eprintf ("Usage: " +:+ pname +:+ " [options] <dir> <dir>..." +:+ nl);;
  eprintf ("      Options" +:+ nl);;
  eprintf ("      -d <nsecs>    Supervisor delays 'nsecs' before inspecting target" +:+ nl);;
  eprintf ("      -f <val>      Install second filter whose return value is:" +:+ nl);;
  eprintf ("                    'e' - SECCOMP_RET_ERRNO" +:+ nl);;
  eprintf ("                    't' - SECCOMP_RET_TRACE" +:+ nl);;
  p_exit EXIT_FAILURE.

Definition parse_option (pname : string) (opts : cmdLineOpts) (o : ascii * string)
    : P cmdLineOpts :=
  let '(opt, optarg) := o in
  if decide (opt = "f"%char) then
    if decide (deref optarg = Some "e"%char) then mret (Opts (delaySecs opts) SECCOMP_RET_ERRNO)
    else if decide (deref optarg = Some "t"%char) then mret (Opts (delaySecs opts) SECCOMP_RET_TRACE)
    else usageError (Some "Bad value for -f") pname
  else if decide (opt = "d"%char) then mret (Opts (atoi optarg) (secondFilter opts))
  else usageError (Some "Bad option") pname.

Fixpoint parse_options (pname : string) (opts : cmdLineOpts) (l : list (ascii * string))
    : P cmdLineOpts :=
  match l with
  | [] => mret opts
  | o :: l => opts ← parse_option pname opts o; parse_options pname opts l
  end.

(** [l] is what [getopt] returns in turn; [rest] the remaining arguments. *)
Definition parseCommandLineOptions (pname : string) (l : list (ascii * string))
    (rest : list string) : P cmdLineOpts :=
  opts ← parse_options pname (Opts 0 (-1)) l;
  match rest with
  | [] => usageError (Some "At least one pathname argument should be supplied") pname
  | _ => mret opts
  end.

(** *** The target process *)

Definition installNotifyFilter (filter : list sock_filter) : P Z :=
  r ← seccomp_install SECCOMP_FILTER_FLAG_NEW_LISTENER filter;
  match r with
  | inl _ => p_systmErr "seccomp-install-notify-filter"
  | inr notifyFd => mret notifyFd
  end.

Definition installFilter2 (opts : cmdLineOpts) : P unit :=
  r ← seccomp_install 0 (Unotify.filter2 (secondFilter opts));
  match r with
  | inl _ => p_systmErr "seccomp-install-filter-2"
  | inr _ => skip
  end.

Definition target_mkdir (path : string) : P unit :=
  printf (nl +:+ "T: about to mkdir(" +:+ String dquote (path +:+ String dquote (")" +:+ nl)));;
  r ← call (PMkdir path) (sys_call (PMkdir path));
  match r with
  | inl _ => perror "T: ERROR: mkdir(2)"
  | inr s => printf ("T: SUCCESS: mkdir(2) returned " +:+ fmt_d s +:+ nl)
  end.

(** What the child of [targetProcess] does; it never returns. *)
Definition mkdir_target (sockPair : Z * Z) (argv : list string) (opts : cmdLineOpts)
    (pid : Z) : P unit :=
  printf ("T: PID = " +:+ fmt_d pid +:+ nl);;
  must (PSigaction SIGINT) "sigaction";;
  must_zero PNoNewPrivs "prctl";;
  notifyFd ← installNotifyFilter Unotify.mkdir_filter;
  when (negb (secondFilter opts =? -1)) (installFilter2 opts);;
  must (PSendfd sockPair.1 notifyFd) "sendfd";;
  must (PCloseFd notifyFd) "close-target-notify-fd";;
  closeSocketPair sockPair;;
  for_each argv target_mkdir;;
  printf (nl +:+ "T: terminating" +:+ nl);;
  p_exit EXIT_SUCCESS.

(** [targetProcess]: the parent gets the child's process ID. *)
Definition mkdir_targetProcess (sockPair : Z * Z) (argv : list string) (opts : cmdLineOpts)
    (own_pid : Z) : P Z :=
  targetPid ← must PFork "fork";
  if 0 <? targetPid then mret targetPid
  else mkdir_target sockPair argv opts own_pid;; mret targetPid.

(** The reads of an opened file, until end of file or an error. *)
Fixpoint copy_out (fuel : nat) (fd : Z) : P unit :=
  match fuel with
  | O => stop HFuel
  | S fuel =>
      r ← call (PRead fd) (sys_read_file fd 100);
      match r with
      | inl _ | inr [] => skip
      | inr bs =>
          call (PWrite (of_chars bs)) (sys_call (PWrite (of_chars bs)));;
          copy_out fuel fd
      end
  end.

Definition target_openat (fuel : nat) (path : string) : P unit :=
  printf (nl +:+ "T: about to openat(" +:+ String dquote (path +:+ String dquote (")" +:+ nl)));;
  r ← call (POpenat path) (sys_call (POpenat path));
  match r with
  | inl _ => perror "T: ERROR: openat(2)"
  | inr fd =>
      printf ("T: SUCCESS: openat(2) returned " +:+ fmt_d fd +:+ nl);;
      copy_out fuel fd;;
      call (PWrite ("==========" +:+ nl)) (sys_call (PWrite ("==========" +:+ nl)));;
      call (PCloseFd fd) (sys_call (PCloseFd fd));;
      skip
  end.

Definition openat_target (fuel : nat) (sockPair : Z * Z) (argv : list string) (pid : Z)
    : P unit :=
  printf ("T: PID = " +:+ fmt_d pid +:+ nl);;
  must_zero PNoNewPrivs "prctl";;
  notifyFd ← installNotifyFilter Unotify.openat_filter;
  must (PSendfd sockPair.1 notifyFd) "sendfd";;
  must (PCloseFd notifyFd) "close-target-notify-fd";;
  closeSocketPair sockPair;;
  for_each argv (target_openat fuel);;
  printf (nl +:+ "T: terminating" +:+ nl);;
  p_exit EXIT_SUCCESS.

Definition openat_targetProcess (fuel : nat) (sockPair : Z * Z) (argv : list string)
    (own_pid : Z) : P Z :=
  targetPid ← must PFork "fork";
  if 0 <? targetPid then mret targetPid
  else openat_target fuel sockPair argv own_pid;; mret targetPid.

(** The first half of [supervisor]: the notification descriptor; the second
    half is [mkdir_handleNotifications] or [openat_handleNotifications]. *)
Definition supervisor (sockPair : Z * Z) : P Z :=
  notifyFd ← must (PRecvfd sockPair.2) "recvfd";
  closeSocketPair sockPair;;
  mret notifyFd.

(** *** [seccomp_launch.c] *)

Definition sizeof_sock_filter : Z := 8.

(** [noNewPrivsAlreadySet] is the argument and part of the result. *)
Definition loadFilter (noNewPrivsAlreadySet : bool) (filterPathname : string) : P bool :=
  (if noNewPrivsAlreadySet then skip
   else r ← call PNoNewPrivs (sys_call PNoNewPrivs);
        match r with
        | inl _ => perror_exit "prctl"
        | inr v => when (negb (v =? 0)) (perror_exit "prctl")
        end);;
  o ← call (POpen filterPathname) (sys_call (POpen filterPathname));
  match o with
  | inl _ => perror_exit "open"
  | inr fd =>
      st ← call (PFstat fd) (sys_call (PFstat fd));
      match st with
      | inl _ => perror_exit "fstat"
      | inr st_size =>
          let filterSize := to_signed 32 st_size in
          (* the remainder is taken in [size_t] *)
          if negb (to_unsigned 64 filterSize mod sizeof_sock_filter =? 0) then
            eprintf ("Filter has odd size" +:+ nl);; p_exit EXIT_FAILURE
          else
          a ← call (PAlloc (to_unsigned 64 filterSize)) (sys_call (PAlloc (to_unsigned 64 filterSize)));
          match a with
          | inl _ => perror_exit "malloc"
          | inr _ =>
              b ← call (PRead fd) (sys_read_file fd filterSize);
              match b with
              | inr bytes =>
                  if negb (Z.of_nat (length bytes) =? filterSize) then
                    eprintf ("Failure reading filter" +:+ nl);; p_exit EXIT_FAILURE
                  else
                  c ← call (PCloseFd fd) (sys_call (PCloseFd fd));
                  match c with
                  | inl _ => perror_exit "close"
                  | inr _ =>
                      let fprog := Fprog (to_unsigned 16 (to_unsigned 64 filterSize / sizeof_sock_filter))
                                     (blob_filter bytes) in
                      i ← call (PInstall 0 fprog) (sys_call (PInstall 0 fprog));
                      match i with
                      | inl _ => perror_exit "seccomp"
                      | inr _ => put_vars (λ l, l ++ [fprog]);; mret true
                      end
                  end
              | inl _ => eprintf ("Failure reading filter" +:+ nl);; p_exit EXIT_FAILURE
              end
          end
      end
  end.

Definition launch_usageError {A} (pname msg : string) : P A :=
  eprintf msg;;
  eprintf ("Usage: " +:+ pname +:+ " [-f filter] prog arg..." +:+ nl);;
  p_exit EXIT_FAILURE.

Fixpoint launch_options (pname : string) (nnp : bool) (l : list (ascii * string)) : P unit :=
  match l with
  | [] => skip
  | (opt, optarg) :: l =>
      if decide (opt = "f"%char)
      then nnp ← loadFilter nnp optarg; launch_options pname nnp l
      else launch_usageError pname ("Bad option" +:+ nl)
  end.

(** [argv1] is [argv[1]], [rest] the arguments from [optind] on. *)
Definition launch_main (pname argv1 : string) (l : list (ascii * string)) (rest : list string)
    : P unit :=
  launch_options pname false l;;
  match rest with
  | [] => launch_usageError pname ("No program specified" +:+ nl)
  | prog :: _ =>
      if decide (argv1 = "--help") then launch_usageError pname ("No program specified" +:+ nl)
      else call (PExecvp prog rest) (sys_call (PExecvp prog rest));; perror_exit "execve"
  end.
End programs.

Section facts.
Context {L : Libc} {W : Type} `{!ProgSys W}.
Local Abbreviation st := (pst (list sock_fprog) pcall W).

(** The only values [parseCommandLineOptions] gives to [secondFilter]. *)
Definition second_ok (o : cmdLineOpts) : Prop :=
  secondFilter o ∈ [-1; SECCOMP_RET_ERRNO; SECCOMP_RET_TRACE].

Lemma usageError_returns {A} (Q : A → Prop) msg p : returns Q (usageError msg p : M st A).
Proof.
  unfold usageError. repeat (apply returns_bind; intros). by intros s r s'.
Qed.

Lemma parse_option_second p opts o :
  second_ok opts → returns second_ok (parse_option p opts o : M st _).
Proof.
  intros Hs. destruct o as [opt optarg]. unfold parse_option.
  repeat case_decide; try apply usageError_returns; apply returns_ret;
    unfold second_ok; simpl; [set_solver..|exact Hs].
Qed.

Lemma parse_options_second p opts l :
  second_ok opts → returns second_ok (parse_options p opts l : M st _).
Proof.
  revert opts. induction l as [|o l IH]; intros opts Hs; simpl; [by apply returns_ret|].
  eapply returns_bind_with; [by apply parse_option_second|]. intros opts'. apply IH.
Qed.

Lemma parseCommandLineOptions_second p l rest :
  returns second_ok (parseCommandLineOptions p l rest : M st _).
Proof.
  unfold parseCommandLineOptions. eapply returns_bind_with.
  - apply parse_options_second. unfold second_ok; simpl. rewrite elem_of_cons. by left.
  - intros opts Ho. destruct rest; [apply usageError_returns|by apply returns_ret].
Qed.

(** Programs that install nothing, whatever happens. *)
Definition installs_none {A} (m : M st A) : Prop := ∀ s, vars (m s).2 = vars s.

Lemma none_bind {A B} (m : M st A) (k : A → M st B) :
  installs_none m → (∀ a, installs_none (k a)) → installs_none (m ≫= k).
Proof.
  intros Hm Hk s. unfold mbind, M_bind. specialize (Hm s).
  destruct (m s) as [[a|h] s']; simpl in *; [by rewrite Hk|done].
Qed.

Lemma none_lift {A} (m : M proc A) : installs_none (lift m).
Proof. intros s. destruct (lift m s) as [r s'] eqn:E. by apply lift_same in E as (? & _). Qed.

Lemma none_call {A} c (f : W → (Z + A) * W) : installs_none (call c f).
Proof. intros s. unfold call. by destruct (f (world s)) as [[e|a] w]. Qed.

Lemma none_skip : installs_none skip.
Proof. by intros s. Qed.

Lemma none_ret {A} (a : A) : installs_none (mret a).
Proof. by intros s. Qed.

Lemma none_must_if ok c msg : installs_none (must_if ok c msg).
Proof.
  apply none_bind; [apply none_call|intros [e|v]; [apply none_lift|]].
  destruct (ok v); [apply none_ret|apply none_lift].
Qed.

Lemma none_must c msg : installs_none (must c msg).
Proof. apply none_must_if. Qed.

Lemma none_for_each {A} (l : list A) body :
  (∀ x, installs_none (body x)) → installs_none (for_each l body).
Proof. intros H. induction l; simpl; [apply none_skip|by apply none_bind]. Qed.

Lemma none_closeSocketPair p : installs_none (closeSocketPair p).
Proof. repeat (apply none_bind; [apply none_must|intros]). apply none_skip. Qed.

Lemma none_target_mkdir p : installs_none (target_mkdir p).
Proof.
  apply none_bind; [apply none_lift|intros _].
  apply none_bind; [apply none_call|intros [e|v]; [|apply none_lift]].
  apply none_bind; [by intros s|intros; apply none_lift].
Qed.

(** Everything the target does after its filters are in. *)
Lemma none_target_rest sockPair fd argv :
  installs_none (
    must (PSendfd sockPair.1 fd) "sendfd";;
    must (PCloseFd fd) "close-target-notify-fd";;
    closeSocketPair sockPair;;
    for_each argv target_mkdir;;
    printf (nl +:+ "T: terminating" +:+ nl);;
    p_exit EXIT_SUCCESS : M st unit).
Proof.
  do 2 (apply none_bind; [apply none_must|intros _]).
  apply none_bind; [apply none_closeSocketPair|intros _].
  apply none_bind; [apply none_for_each; intros; apply none_target_mkdir|intros _].
  apply none_bind; [apply none_lift|intros _]. apply none_lift.
Qed.

Lemma systmErr_not_success {A} msg (s0 : st) :
  ((p_systmErr msg : M st A) s0).1 ≠ Halt (HExit EXIT_SUCCESS).
Proof. destruct (@p_systmErr_halts _ _ _ _ A msg s0) as (h & s' & -> & [->| ->] & _); done. Qed.

(** A checked call either goes on, with the same filters, or ends the program
    otherwise than with success. *)
Lemma must_if_run {B} ok c msg (k : Z → M st B) (s0 : st) :
  (∃ v s1, must_if ok c msg s0 = (Ok v, s1) ∧ (must_if ok c msg ≫= k) s0 = k v s1 ∧
     vars s1 = vars s0) ∨
  ((must_if ok c msg ≫= k) s0).1 ≠ Halt (HExit EXIT_SUCCESS).
Proof.
  pose proof (none_must_if ok c msg s0) as Hn.
  destruct (must_if ok c msg s0) as [[v|h] s1] eqn:E.
  - left. exists v, s1. split; [done|]. split; [by apply run_bind|done].
  - right. rewrite (run_bind_halt _ _ _ _ _ E). simpl. unfold must_if, mbind, M_bind in E.
    destruct (call c (sys_call c) s0) as [[[e|v]|h0] s2] eqn:Ec.
    + pose proof (@systmErr_not_success Z msg s2) as Hz. rewrite E in Hz. simpl in Hz. congruence.
    + destruct (ok v); [done|].
      pose proof (@systmErr_not_success Z msg s2) as Hz. rewrite E in Hz. simpl in Hz. congruence.
    + unfold call in Ec. by destruct (sys_call c (world s0)) as [[|] ?].
Qed.

Lemma install_run flags filter (s : st) :
  ∃ r s', seccomp_install flags filter s = (Ok r, s') ∧
    vars s' = match r with inr _ => vars s ++ [fprog_of filter] | inl _ => vars s end.
Proof.
  unfold seccomp_install, mbind, M_bind, call.
  destruct (sys_call _ (world s)) as [[e|v] w]; by do 2 eexists.
Qed.

Lemma target_filters sockPair argv opts pid (s : st) :
  vars s = [] →
  let out := mkdir_target sockPair argv opts pid s in
  out.1 = Halt (HExit EXIT_SUCCESS) →
  vars out.2 = fprog_of Unotify.mkdir_filter ::
    (if secondFilter opts =? -1 then [] else [fprog_of (Unotify.filter2 (secondFilter opts))]).
Proof.
  intros Hs out. unfold out, mkdir_target. clear out.
  erewrite run_bind by reflexivity.
  unfold must, must_zero.
  match goal with |- context [(must_if ?ok ?c ?m ≫= ?k) ?s0] =>
    destruct (must_if_run ok c m k s0) as [(v1 & s1 & _ & -> & V1)|Hn]; [|done] end.
  match goal with |- context [(must_if ?ok ?c ?m ≫= ?k) ?s0] =>
    destruct (must_if_run ok c m k s0) as [(v2 & s2 & _ & -> & V2)|Hn]; [|done] end.
  simpl in V1. rewrite V1, Hs in V2.
  unfold installNotifyFilter.
  destruct (install_run SECCOMP_FILTER_FLAG_NEW_LISTENER Unotify.mkdir_filter s2)
    as (r & s3 & H3 & V3). rewrite V2 in V3.
  destruct r as [e|nfd].
  { intros Hx. exfalso. unfold mbind, M_bind in Hx. rewrite H3 in Hx.
    destruct (@p_systmErr_halts _ _ _ _ Z "seccomp-install-notify-filter" s3)
      as (h & s4 & E4 & [->| ->] & _); rewrite E4 in Hx; done. }
  erewrite run_bind by (erewrite run_bind by exact H3; reflexivity).
  destruct (secondFilter opts =? -1); cbn [negb when].
  - erewrite run_bind by reflexivity. intros _. by rewrite (none_target_rest sockPair nfd argv).
  - unfold installFilter2.
    destruct (install_run 0 (Unotify.filter2 (secondFilter opts)) s3) as (r & s4 & H4 & V4).
    rewrite V3 in V4. destruct r as [e|v].
    { intros Hx. exfalso. unfold mbind, M_bind in Hx. rewrite H4 in Hx.
      destruct (@p_systmErr_halts _ _ _ _ unit "seccomp-install-filter-2" s4)
        as (h & s5 & E5 & [->| ->] & _); rewrite E5 in Hx; done. }
    erewrite run_bind by (erewrite run_bind by exact H4; reflexivity).
    intros _. by rewrite (none_target_rest sockPair nfd argv).
Qed.
(** Whatever the command line and whatever calls fail, a target of
    [seccomp_unotify_mkdir.c] that ends with success has installed the
    notification filter and, exactly when the option [-f] asked for it, the
    second filter after it, and nothing else; the options can only ask for a
    second filter that returns [SECCOMP_RET_ERRNO] or [SECCOMP_RET_TRACE]. *)
Theorem mkdir_target_filters pname l rest opts sockPair argv pid (s0 s1 s : st) :
  parseCommandLineOptions pname l rest s0 = (Ok opts, s1) →
  vars s = [] →
  let out := mkdir_target sockPair argv opts pid s in
  out.1 = Halt (HExit EXIT_SUCCESS) →
  ∃ second, vars out.2 = fprog_of Unotify.mkdir_filter :: second ∧
    ((secondFilter opts = -1 ∧ second = []) ∨
     (secondFilter opts = SECCOMP_RET_ERRNO ∧
      second = [fprog_of (Unotify.filter2 SECCOMP_RET_ERRNO)]) ∨
     (secondFilter opts = SECCOMP_RET_TRACE ∧
      second = [fprog_of (Unotify.filter2 SECCOMP_RET_TRACE)])).
Proof.
  intros Hp Hs out Hout. apply parseCommandLineOptions_second in Hp.
  eexists. split; [by apply target_filters|].
  unfold second_ok in Hp. rewrite !elem_of_cons in Hp.
  destruct Hp as [->|[->|[->|?%elem_of_nil]]]; [by left|right; by left|right; by right|done].
Qed.
End facts.

(** A machine on which every call succeeds. *)
Definition all_succeed : ProgSys unit := {|
  sys_call _ w := (inr 0, w);
  sys_read_file _ _ w := (inr [], w);
  blob_filter _ := [] |}.

Definition fresh_program : pst (list sock_fprog) pcall unit :=
  Pst (Proc 0 [] "" "" []) [] [] tt.

Lemma mkdir_target_filters_witness :
  ∃ second, vars (@mkdir_target plain_libc unit all_succeed (3, 4) ["/tmp/x"] (Opts 2 SECCOMP_RET_TRACE) 7
    fresh_program).2 = fprog_of Unotify.mkdir_filter :: second.
Proof.
  destruct (@mkdir_target_filters plain_libc unit all_succeed "prog" [("d"%char, "2"); ("f"%char, "t")] ["/tmp/x"]
    (Opts 2 SECCOMP_RET_TRACE) (3, 4) ["/tmp/x"] 7 fresh_program fresh_program fresh_program)
    as (second & H & _); [vm_compute; reflexivity..|].
  by exists second.
Defined.
