(* ===== verification/Inotify.v ===== *)
(** The directory-tree monitor [inotify/inotify_dtree.c]: the watch cache, the
    list of root directories, and the operations that add, rename and remove
    entries.  [InotifyEvents] has the event loop and [InotifyMain] the commands.

    The static variables of the program are the fields of [ivars].  The array
    [wlCache] of [cacheSize] slots is a list; a slot is free when its [wd] is
    -1.  The kernel, the file system and the allocator are the class
    [InotifySys] over an abstract world. *)
From S2P Require Import Prelude CLib ErrorFunctions Proc.
Local Open Scope Z_scope.

(** ** Constants of [<sys/inotify.h>] *)

Definition IN_MOVED_FROM : Z := 0x40.
Definition IN_MOVED_TO : Z := 0x80.
Definition IN_CREATE : Z := 0x100.
Definition IN_DELETE_SELF : Z := 0x400.
Definition IN_MOVE_SELF : Z := 0x800.
Definition IN_UNMOUNT : Z := 0x2000.
Definition IN_Q_OVERFLOW : Z := 0x4000.
Definition IN_IGNORED : Z := 0x8000.
Definition IN_ONLYDIR : Z := 0x1000000.
Definition IN_ISDIR : Z := 0x40000000.

Definition VB_BASIC : Z := 1.
Definition VB_NOISY : Z := 2.

(** [100 * (sizeof(struct inotify_event) + NAME_MAX + 1)] *)
Definition INOTIFY_READ_BUF_LEN : Z := 100 * (16 + 255 + 1).

(** ** The program's variables *)

Record watch := Watch { w_wd : Z; w_path : string }.

Record config := Config {
  verboseMask : Z;
  checkCache : bool;
  dumpCache : bool;
  readBufferSize : Z;
  stopFile : option string;
  abortOnCacheProblem : bool
}.

Record counters := Counters {
  inotifyReadCnt : Z;
  dirCnt : Z;
  reinitCnt : Z;
  overflowCnt : Z
}.

Record ivars := IVars {
  cfg : config;
  logfp : option string;               (* contents of the log file, if open *)
  wlCache : list watch;
  rootDirPaths : list (option string); (* [None]: no longer monitored *)
  ignoreRootDirs : Z;
  ifd : Z;
  cnts : counters
}.

Definition set_cfg (c : config) (v : ivars) : ivars :=
  IVars c v.(logfp) v.(wlCache) v.(rootDirPaths) v.(ignoreRootDirs) v.(ifd) v.(cnts).
Definition set_log (l : option string) (v : ivars) : ivars :=
  IVars v.(cfg) l v.(wlCache) v.(rootDirPaths) v.(ignoreRootDirs) v.(ifd) v.(cnts).
Definition set_cache (c : list watch) (v : ivars) : ivars :=
  IVars v.(cfg) v.(logfp) c v.(rootDirPaths) v.(ignoreRootDirs) v.(ifd) v.(cnts).
Definition set_roots (r : list (option string)) (n : Z) (v : ivars) : ivars :=
  IVars v.(cfg) v.(logfp) v.(wlCache) r n v.(ifd) v.(cnts).
Definition set_ifd (fd : Z) (v : ivars) : ivars :=
  IVars v.(cfg) v.(logfp) v.(wlCache) v.(rootDirPaths) v.(ignoreRootDirs) fd v.(cnts).
Definition set_cnts (f : counters → counters) (v : ivars) : ivars :=
  IVars v.(cfg) v.(logfp) v.(wlCache) v.(rootDirPaths) v.(ignoreRootDirs) v.(ifd) (f v.(cnts)).

Definition set_dirCnt (n : Z) (c : counters) : counters :=
  Counters c.(inotifyReadCnt) n c.(reinitCnt) c.(overflowCnt).
Definition set_reinitCnt (n : Z) (c : counters) : counters :=
  Counters c.(inotifyReadCnt) c.(dirCnt) n c.(overflowCnt).
Definition set_overflowCnt (n : Z) (c : counters) : counters :=
  Counters c.(inotifyReadCnt) c.(dirCnt) c.(reinitCnt) n.
Definition set_inotifyReadCnt (n : Z) (c : counters) : counters :=
  Counters n c.(dirCnt) c.(reinitCnt) c.(overflowCnt).

(** ** The outside *)

Record stat := Stat { st_isdir : bool; st_ino : Z; st_dev : Z }.

(** [struct inotify_event]: [ev_len] bytes of padded name follow the header. *)
Record event := Event {
  ev_wd : Z; ev_mask : Z; ev_cookie : Z; ev_len : Z; ev_name : string
}.

Class InotifySys (W : Type) := {
  sys_add_watch : Z → string → Z → W → (Z + Z) * W;
  sys_rm_watch : Z → Z → W → (Z + unit) * W;
  sys_inotify_init : W → (Z + Z) * W;
  sys_close : Z → W → (Z + unit) * W;
  sys_lstat : string → W → (Z + stat) * W;
  (** [nftw(3)]: the objects its callback is given in turn (with whether each is
      a directory), and an error number if the walk failed. *)
  sys_nftw : string → W → (list (string * bool) * option Z) * W;
  (** [realloc]/[calloc] by a number of elements: the new memory has arbitrary
      contents. *)
  sys_realloc : nat → W → (Z + list watch) * W;
  sys_alloc : Z → W → (Z + unit) * W;
  sys_read_events : Z → Z → W → (Z + list event) * W;
  sys_read_stdin : Z → W → (Z + string) * W;
  sys_creat : string → W → (Z + Z) * W;
  sys_select : Z → W → (Z + (bool * bool)) * W;
  sys_misc : W → (Z + unit) * W;          (* sigaction, ualarm, fopen, ... *)
  ptr_text : W → string                   (* what "%p %p" prints *)
}.

Inductive icall :=
| IAddWatch (fd : Z) (path : string) (mask : Z)
| IRmWatch (fd wd : Z)
| IInit
| IClose (fd : Z)
| ILstat (path : string)
| INftw (path : string)
| IRealloc (n : nat)
| IAlloc (n : Z)
| IRead (fd n : Z)
| IStdin (n : Z)
| ICreat (path : string)
| ISelect (nfds : Z)
| ISigaction
| IUalarm (usecs : Z)
| IFopen (path : string)
| IFputs (path text : string)
| IFclose (path : string).

(** ** Pure helpers on the cache *)

(** The path [j] names, or the directory [pn] itself: [strncmp(pn, path, len) == 0]
    and [path[len]] is a slash or the end. *)
Definition in_subtree (pn path : string) : bool :=
  strncmp_eq pn path (String.length pn) &&
  match drop_str (String.length pn) path with
  | EmptyString => true
  | String c _ => bool_decide (c = "/"%char)
  end.

(** The first slot, counting from [j], that satisfies [p], or -1. *)
Fixpoint find_slot (p : watch → bool) (j : Z) (l : list watch) : Z :=
  match l with
  | [] => -1
  | w :: l => if p w then j else find_slot p (j + 1) l
  end.

Definition live (w : watch) : bool := 0 <=? w_wd w.
Definition free_slot : watch := Watch (-1) "".

Definition count_live (l : list watch) : Z := Z.of_nat (length (filter (λ w, live w = true) l)).

Section program.
Context {L : Libc} {W : Type} `{!InotifySys W}.
Local Abbreviation P := (M (pst ivars icall W)).

Definition upd (f : ivars → ivars) : P unit := put_vars f.
Definition var {A} (f : ivars → A) : P A := v ← get_vars; mret (f v).

(** [fprintf(logfp, ...)]: undefined when there is no log file. *)
Definition fprintf_log (t : string) : P unit :=
  l ← var logfp;
  match l with
  | Some old => upd (set_log (Some (old +:+ t)))
  | None => stop HUndef
  end.

Definition logMessage (vb_mask : Z) (t : string) : P unit :=
  c ← var cfg;
  when ((vb_mask =? 0) || has vb_mask (verboseMask c)) (eprintf t);;
  l ← var logfp;
  match l with
  | Some _ => fprintf_log t
  | None => skip
  end.

(** [wlCache[j]] for a slot in range. *)
Definition slot_at (j : Z) : P watch :=
  c ← var wlCache;
  match (if 0 <=? j then c !! Z.to_nat j else None) with
  | Some w => mret w
  | None => stop HUndef
  end.

Definition set_slot (j : Z) (w : watch) : P unit :=
  upd (λ v, set_cache (<[Z.to_nat j := w]> v.(wlCache)) v).

Fixpoint dump_slots (j : Z) (l : list watch) : P unit :=
  match l with
  | [] => skip
  | w :: l =>
      when (live w) (fprintf_log (fmt_d j +:+ ": wd = " +:+ fmt_d (w_wd w) +:+ "; " +:+
        w_path w +:+ nl));;
      dump_slots (j + 1) l
  end.

Definition dumpCacheToLog : P unit :=
  c ← var wlCache;
  dump_slots 0 c;;
  fprintf_log ("Total entries: " +:+ fmt_d (count_live c) +:+ nl).

Definition createStopFileAndAbort {A} : P A :=
  c ← var cfg;
  match stopFile c with
  | Some f => call (ICreat f) (sys_creat f);; dumpCacheToLog;; stop HAbort
  | None => stop HUndef
  end.

(** *** The cache *)

Definition freeCache : P unit := upd (set_cache []).

(** The loop of [checkCacheConsistency]: [sb] is the result of the last
    [lstat], indeterminate before the first. *)
Fixpoint check_slots (j : Z) (l : list watch) (sb : option bool) (failures : Z) : P Z :=
  match l with
  | [] => mret failures
  | w :: l =>
      if live w then
        r ← call (ILstat (w_path w)) (sys_lstat (w_path w));
        match r with
        | inl e =>
            logMessage 0 ("checkCacheConsistency: stat: [slot = " +:+ fmt_d j +:+ "; wd = " +:+
              fmt_d (w_wd w) +:+ "] " +:+ w_path w +:+ ": " +:+ strerror e +:+ nl);;
            check_slots (j + 1) l sb (failures + 1)
        | inr st => check_slots (j + 1) l (Some (st_isdir st)) failures
        end
      else
        match sb with
        | None => stop HUndef
        | Some true => check_slots (j + 1) l sb failures
        | Some false =>
            logMessage 0 ("checkCacheConsistency: " +:+ w_path w +:+ " is not a directory" +:+ nl);;
            p_exit EXIT_FAILURE
        end
  end.

Definition checkCacheConsistency : P unit :=
  c ← var wlCache;
  failures ← check_slots 0 c None 0;
  when (0 <? failures)
    (logMessage VB_NOISY ("checkCacheConsistency: " +:+ fmt_d failures +:+ " failures" +:+ nl)).

Definition findWatch (wd : Z) : P Z :=
  c ← var wlCache;
  mret (find_slot (λ w, w_wd w =? wd) 0 c).

Definition findWatchChecked (wd : Z) : P Z :=
  slot ← findWatch wd;
  if 0 <=? slot then mret slot else
  logMessage 0 ("Could not find watch " +:+ fmt_d wd +:+ nl);;
  c ← var cfg;
  if abortOnCacheProblem c then createStopFileAndAbort else mret (-1).

Definition markCacheSlotEmpty (slot : Z) : P unit :=
  w ← slot_at slot;
  logMessage VB_NOISY ("        markCacheSlotEmpty: slot = " +:+ fmt_d slot +:+ ";  wd = " +:+
    fmt_d (w_wd w) +:+ "; path = " +:+ w_path w +:+ nl);;
  set_slot slot free_slot.

Definition ALLOC_INCR : nat := 200.

Fixpoint mark_from (j : Z) (n : nat) : P unit :=
  match n with
  | O => skip
  | S n => markCacheSlotEmpty j;; mark_from (j + 1) n
  end.

Definition findEmptyCacheSlot : P Z :=
  c ← var wlCache;
  let j := find_slot (λ w, w_wd w =? -1) 0 c in
  if 0 <=? j then mret j else
  r ← call (IRealloc (length c + ALLOC_INCR)) (sys_realloc (length c + ALLOC_INCR));
  match r with
  | inl _ => upd (set_cache []);; perror_exit "realloc"        (* [wlCache] is null *)
  | inr fresh =>
      (* the old contents are kept; the rest is whatever was there *)
      upd (set_cache (c ++ drop (length c) fresh));;
      mark_from (Z.of_nat (length c)) ALLOC_INCR;;
      mret (Z.of_nat (length c))
  end.

(** The path of a slot is the bytes before its first null byte, or all the
    [PATH_MAX] bytes if there is none: a longer path leaves the slot
    unterminated, which has no effect before it is read. *)
Definition addWatchToCache (wd : Z) (pathname : string) : P Z :=
  slot ← findEmptyCacheSlot;
  set_slot slot (Watch wd (strncpy pathname PATH_MAX));;
  mret slot.

Definition pathnameToCacheSlot (pathname : string) : P Z :=
  c ← var wlCache;
  mret (find_slot (λ w, live w && bool_decide (w_path w = pathname)) 0 c).

Definition pathnameInCache (pathname : string) : P bool :=
  j ← pathnameToCacheSlot pathname; mret (0 <=? j).

(** *** The root directories *)

Fixpoint count_roots (argv : list string) : P unit :=
  match argv with
  | [] => skip
  | p :: argv =>
      r ← call (ILstat p) (sys_lstat p);
      match r with
      | inl _ => eprintf ("lstat() failed on '" +:+ p +:+ "'" +:+ nl);; p_exit EXIT_FAILURE
      | inr st =>
          if negb (st_isdir st)
          then eprintf ("'" +:+ p +:+ "' is not a directory" +:+ nl);; p_exit EXIT_FAILURE
          else count_roots argv
      end
  end.

Fixpoint check_duplicates (p : string) (st : stat) (seen : list (string * stat)) : P unit :=
  match seen with
  | [] => skip
  | (q, st') :: seen =>
      if (st_ino st =? st_ino st') && (st_dev st =? st_dev st') then
        eprintf ("Duplicate filesystem objects: " +:+ p +:+ ", " +:+ q +:+ nl);;
        p_exit EXIT_FAILURE
      else check_duplicates p st seen
  end.

Fixpoint copy_roots (argv : list string) (seen : list (string * stat)) : P unit :=
  match argv with
  | [] => skip
  | p :: argv =>
      a ← call (IAlloc (Z.of_nat (String.length p) + 1)) (sys_alloc (Z.of_nat (String.length p) + 1));
      match a with
      | inl _ => perror_exit "strdup"
      | inr _ =>
          upd (λ v, set_roots (v.(rootDirPaths) ++ [Some p]) v.(ignoreRootDirs) v);;
          r ← call (ILstat p) (sys_lstat p);
          match r with
          | inl _ => perror_exit "lstat"
          | inr st => check_duplicates p st seen;; copy_roots argv (seen ++ [(p, st)])
          end
      end
  end.

(** [sizeof(char * )] and [sizeof(struct stat)] are 8 and 144. *)
Definition copyRootDirPaths (argv : list string) : P unit :=
  count_roots argv;;
  let n := Z.of_nat (length argv) in
  a ← call (IAlloc (8 * n)) (sys_alloc (8 * n));
  match a with
  | inl _ => perror_exit "calloc"
  | inr _ =>
      b ← call (IAlloc (144 * n)) (sys_alloc (144 * n));
      (* the test that follows looks at [rootDirPaths] again *)
      upd (set_roots [] 0);;
      match b with
      | inl _ => stop HUndef            (* [lstat] into a null pointer *)
      | inr _ => copy_roots argv []
      end
  end.

(** The index of the root [path], if it is monitored. *)
Fixpoint find_root (path : string) (l : list (option string)) : option nat :=
  match l with
  | [] => None
  | r :: l => if decide (r = Some path) then Some O else S <$> find_root path l
  end.

Definition findRootDirPath (path : string) : P (option nat) :=
  r ← var rootDirPaths; mret (find_root path r).

Definition isRootDirPath (path : string) : P bool :=
  r ← findRootDirPath path; mret (bool_decide (is_Some r)).

Definition zapRootDirPath (path : string) : P unit :=
  printf ("zapRootDirPath: " +:+ path +:+ nl);;
  p ← findRootDirPath path;
  match p with
  | None => eprintf ("zapRootDirPath(): path not found!" +:+ nl);; p_exit EXIT_FAILURE
  | Some k =>
      upd (λ v, set_roots (<[k := None]> v.(rootDirPaths)) (v.(ignoreRootDirs) + 1) v);;
      v ← get_vars;
      when (v.(ignoreRootDirs) =? Z.of_nat (length v.(rootDirPaths)))
        (eprintf ("No more root paths left to monitor; bye!" +:+ nl);; p_exit EXIT_SUCCESS)
  end.

(** *** Adding watches *)

Definition watch_flags (isroot : bool) : Z :=
  let flags := Z.lor (Z.lor (Z.lor IN_CREATE IN_MOVED_FROM) IN_MOVED_TO) IN_DELETE_SELF in
  if isroot then Z.lor flags IN_MOVE_SELF else flags.

Definition traverseTree (pathname : string) (isdir : bool) : P unit :=
  if negb isdir then skip else
  root ← isRootDirPath pathname;
  fd ← var ifd;
  let mask := Z.lor (watch_flags root) IN_ONLYDIR in
  r ← call (IAddWatch fd pathname mask) (sys_add_watch fd pathname mask);
  match r with
  | inl e =>
      logMessage VB_BASIC ("inotify_add_watch: " +:+ pathname +:+ ": " +:+ strerror e +:+ nl);;
      e' ← get_errno;
      if e' =? ENOENT then skip else p_exit EXIT_FAILURE
  | inr wd =>
      j ← findWatch wd;
      if 0 <=? j then
        logMessage VB_BASIC ("WD " +:+ fmt_d wd +:+ " already in cache (" +:+ pathname +:+ ")" +:+ nl)
      else
        upd (set_cnts (λ c, set_dirCnt (dirCnt c + 1) c));;
        slot ← addWatchToCache wd pathname;
        logMessage VB_NOISY ("    watchDir: wd = " +:+ fmt_d wd +:+ " [cache slot: " +:+
          fmt_d slot +:+ "]; " +:+ pathname +:+ nl)
  end.

Definition watchDir (inotifyFd : Z) (pathname : string) : P Z :=
  upd (set_cnts (set_dirCnt 0));;
  upd (set_ifd inotifyFd);;
  r ← call (INftw pathname) (λ w, let '(a, w) := sys_nftw pathname w in (inr a, w));
  match r with
  | inl _ => stop HUndef
  | inr (visited, err) =>
      for_each visited (λ x, traverseTree x.1 x.2);;
      (match err with
       | Some e =>
           put_errno e;;
           logMessage VB_BASIC ("nftw: " +:+ pathname +:+ ": " +:+ strerror e +:+
             " (directory probably deleted before we could watch)" +:+ nl)
       | None => skip
       end);;
      var (λ v, dirCnt v.(cnts))
  end.

Definition watchSubtree (inotifyFd : Z) (path : string) : P unit :=
  cnt ← watchDir inotifyFd path;
  logMessage VB_BASIC ("    watchSubtree: " +:+ path +:+ ": " +:+ fmt_d cnt +:+
    " entries added" +:+ nl).

(** *** Renaming and removing entries *)

(** The path a slot below [fullPath] gets when the directory becomes
    [newPrefix]. *)
Definition renamed (fullPath newPrefix path : string) : string :=
  snprintf PATH_MAX (newPrefix +:+ drop_str (String.length fullPath) path).

Fixpoint rewrite_slots (fullPath newPrefix : string) (j : Z) (l : list watch) : P unit :=
  match l with
  | [] => skip
  | w :: l =>
      when (in_subtree fullPath (w_path w)) (
        let whole := newPrefix +:+ drop_str (String.length fullPath) (w_path w) in
        let newPath := renamed fullPath newPrefix (w_path w) in
        when (Z.of_nat PATH_MAX <? Z.of_nat (String.length whole))
          (logMessage VB_BASIC ("Truncated pathname: " +:+ newPath +:+ nl));;
        set_slot j (Watch (w_wd w) newPath);;
        logMessage VB_NOISY ("    wd " +:+ fmt_d (w_wd w) +:+ " [cache slot " +:+ fmt_d j +:+
          "] ==> " +:+ newPath +:+ nl));;
      rewrite_slots fullPath newPrefix (j + 1) l
  end.

Definition rewriteCachedPaths (oldPathPrefix oldName newPathPrefix newName : string) : P unit :=
  let fullPath := snprintf PATH_MAX (oldPathPrefix +:+ "/" +:+ oldName) in
  let newPrefix := snprintf PATH_MAX (newPathPrefix +:+ "/" +:+ newName) in
  logMessage VB_BASIC ("Rename: " +:+ fullPath +:+ " ==> " +:+ newPrefix +:+ nl);;
  c ← var wlCache;
  rewrite_slots fullPath newPrefix 0 c.

(** The copy, or [None] for a null pointer. *)
Definition strdup (t : string) : P (option string) :=
  let n := Z.of_nat (String.length t) + 1 in
  a ← call (IAlloc n) (sys_alloc n);
  mret (match a with inr _ => Some t | inl _ => None end).

Fixpoint zap_slots (inotifyFd : Z) (pn : string) (j : Z) (l : list watch) (cnt : Z) : P Z :=
  match l with
  | [] => mret cnt
  | w :: l =>
      if live w && in_subtree pn (w_path w) then
        logMessage VB_NOISY ("    removing watch: wd = " +:+ fmt_d (w_wd w) +:+ " (" +:+
          w_path w +:+ ")" +:+ nl);;
        r ← call (IRmWatch inotifyFd (w_wd w)) (sys_rm_watch inotifyFd (w_wd w));
        match r with
        | inl e =>
            logMessage 0 ("inotify_rm_watch wd = " +:+ fmt_d (w_wd w) +:+ " (" +:+ w_path w +:+
              "): " +:+ strerror e +:+ nl);;
            mret (-1)
        | inr _ => markCacheSlotEmpty j;; zap_slots inotifyFd pn (j + 1) l (cnt + 1)
        end
      else zap_slots inotifyFd pn (j + 1) l cnt
  end.

Definition zapSubtree (inotifyFd : Z) (path : string) : P Z :=
  logMessage VB_NOISY ("Zapping subtree: " +:+ path +:+ nl);;
  pn ← strdup path;
  c ← var wlCache;
  match pn with
  | Some pn => zap_slots inotifyFd pn 0 c 0
  | None => if existsb live c then stop HUndef else mret 0     (* [strncmp] of a null pointer *)
  end.

(** *** Rebuilding everything *)

Definition close_fd (fd : Z) : P unit := call (IClose fd) (sys_close fd);; skip.

Definition reinitialize (oldInotifyFd : Z) : P Z :=
  (if 0 <=? oldInotifyFd then
     close_fd oldInotifyFd;;
     upd (set_cnts (λ c, set_reinitCnt (reinitCnt c + 1) c));;
     n ← var (λ v, reinitCnt v.(cnts));
     logMessage 0 ("Reinitializing cache and inotify FD (reinitCnt = " +:+ fmt_d n +:+ ")" +:+ nl)
   else
     logMessage 0 ("Initializing cache" +:+ nl);;
     upd (set_cnts (set_reinitCnt 0)));;
  r ← call IInit sys_inotify_init;
  match r with
  | inl _ => perror_exit "inotify_init"
  | inr inotifyFd =>
      logMessage VB_BASIC ("    new inotifyFd = " +:+ fmt_d inotifyFd +:+ nl);;
      freeCache;;
      roots ← var rootDirPaths;
      for_each roots (λ r, match r with Some p => watchSubtree inotifyFd p | None => skip end);;
      c ← var wlCache;
      when (0 <=? oldInotifyFd)
        (logMessage 0 ("Rebuilt cache with " +:+ fmt_d (count_live c) +:+ " entries" +:+ nl));;
      mret inotifyFd
  end.
End program.

(** ** Laws of the outside *)

Class InotifyLaws (W : Type) `{!InotifySys W} : Prop := {
  (** a watch descriptor is nonnegative *)
  add_watch_nonneg fd p m w wd w' : sys_add_watch fd p m w = (inr wd, w') → 0 <= wd;
  (** a path of [PATH_MAX] bytes or more fails with [ENAMETOOLONG] *)
  add_watch_short fd p m w wd w' :
    sys_add_watch fd p m w = (inr wd, w') → (String.length p < PATH_MAX)%nat;
  (** the allocator returns as many elements as were asked for *)
  realloc_len n w fresh w' : sys_realloc n w = (inr fresh, w') → length fresh = n
}.

(** ** Paths *)

Lemma strncmp_eq_prefix pn path :
  strncmp_eq pn path (String.length pn) = true ↔ ∃ r, path = pn +:+ r.
Proof.
  unfold strncmp_eq, take_str. rewrite bool_decide_eq_true.
  rewrite <- length_chars, firstn_all. rewrite of_chars_chars. split.
  - intros H. exists (of_chars (drop (length (chars pn)) (chars path))).
    apply chars_inj. rewrite chars_app, chars_of_chars.
    apply (f_equal chars) in H. rewrite chars_of_chars in H.
    rewrite H at 1. by rewrite take_drop.
  - intros [r ->]. rewrite chars_app, take_app_length. by rewrite of_chars_chars.
Qed.

Lemma drop_str_app s t : drop_str (String.length s) (s +:+ t) = t.
Proof.
  unfold drop_str. rewrite chars_app, <- length_chars, drop_app_length. apply of_chars_chars.
Qed.

(** [in_subtree] is "the directory itself or a path below it". *)
Lemma in_subtree_spec pn path :
  in_subtree pn path = true ↔ path = pn ∨ ∃ r, path = pn +:+ "/" +:+ r.
Proof.
  unfold in_subtree. rewrite andb_true_iff, strncmp_eq_prefix. split.
  - intros [[r ->] H]. rewrite drop_str_app in H. destruct r as [|c r].
    + left. apply append_nil_r.
    + rewrite bool_decide_eq_true in H. subst. right. by exists r.
  - intros [->|[r ->]].
    + split; [exists ""; by rewrite append_nil_r|].
      rewrite <- (append_nil_r pn) at 2. by rewrite drop_str_app.
    + split; [by eexists|]. by rewrite drop_str_app.
Qed.

(** ** Runs of the basic operations *)

Section runs.
Context {L : Libc} {W : Type} `{!InotifySys W, !InotifyLaws W}.
Local Abbreviation st := (pst ivars icall W).
Local Abbreviation cache s := (wlCache (vars s)).

(** [s'] differs from [s] in the cache, which is [c], and in messages. *)
Definition becomes (c : list watch) (s s' : st) : Prop :=
  ∃ p l, s' = Pst p (set_cache c (set_log l (vars s))) (trace s) (world s) ∧
         (is_Some l ↔ is_Some (logfp (vars s))).

(** [s'] differs from [s] in messages only. *)
Definition quiet (s s' : st) : Prop := becomes (cache s) s s'.

Lemma becomes_trans c c' s s' s'' : becomes c s s' → becomes c' s' s'' → becomes c' s s''.
Proof.
  intros (p & l & -> & Hl) (p' & l' & -> & Hl'). exists p', l'. split; [done|].
  by rewrite Hl'.
Qed.

Lemma becomes_cache c s s' : becomes c s s' → cache s' = c.
Proof. by intros (p & l & -> & _). Qed.

Lemma becomes_quiet c s s' s'' : becomes c s s' → quiet s' s'' → becomes c s s''.
Proof.
  intros H H'. unfold quiet in H'. rewrite (becomes_cache _ _ _ H) in H'.
  by eapply becomes_trans.
Qed.

Lemma quiet_refl s : quiet s s.
Proof. exists (pr s), (logfp (vars s)). split; [by destruct s as [? []]|done]. Qed.

Lemma becomes_self s : becomes (cache s) s s.
Proof. apply quiet_refl. Qed.

Lemma becomes_trace c s s' : becomes c s s' → trace s' = trace s.
Proof. by intros (p & l & -> & _). Qed.

Lemma becomes_world c s s' : becomes c s s' → world s' = world s.
Proof. by intros (p & l & -> & _). Qed.

Lemma var_run {A} (f : ivars → A) (s : st) : var f s = (Ok (f (vars s)), s).
Proof. done. Qed.

Lemma logMessage_run vb t (s : st) :
  ∃ s', logMessage vb t s = (Ok tt, s') ∧ quiet s s'.
Proof.
  unfold logMessage. erewrite run_bind by apply var_run.
  assert (∃ p, when ((vb =? 0) || has vb (verboseMask (cfg (vars s)))) (eprintf t) s =
    (Ok tt, Pst p (vars s) (trace s) (world s))) as [p Hw].
  { destruct (_ || _); [by eexists|]. exists (pr s). by destruct s. }
  erewrite run_bind by exact Hw. erewrite run_bind by apply var_run. cbn [vars].
  destruct (logfp (vars s)) as [old|] eqn:El.
  - unfold fprintf_log. erewrite run_bind by apply var_run. cbn [vars]. rewrite El.
    eexists. split; [reflexivity|]. exists p, (Some (old +:+ t)). split; [done|].
    rewrite El. split; by eexists.
  - eexists. split; [reflexivity|]. exists p, (logfp (vars s)).
    split; [by destruct s as [? []]|done].
Qed.

Lemma slot_at_run (j : nat) w (s : st) :
  cache s !! j = Some w → slot_at (Z.of_nat j) s = (Ok w, s).
Proof.
  intros H. unfold slot_at. erewrite run_bind by apply var_run.
  rewrite (proj2 (Z.leb_le _ _)) by lia. rewrite Nat2Z.id. by rewrite H.
Qed.

Lemma set_slot_run (j : nat) w (s : st) :
  ∃ s', set_slot (Z.of_nat j) w s = (Ok tt, s') ∧ becomes (<[j := w]> (cache s)) s s'.
Proof.
  eexists. split; [reflexivity|]. rewrite Nat2Z.id.
  exists (pr s), (logfp (vars s)). split; [by destruct s as [? []]|done].
Qed.

Lemma mark_run (j : nat) (s : st) :
  (j < length (cache s))%nat →
  ∃ s', markCacheSlotEmpty (Z.of_nat j) s = (Ok tt, s') ∧
        becomes (<[j := free_slot]> (cache s)) s s'.
Proof.
  intros Hj. apply lookup_lt_is_Some in Hj as [w Hw]. unfold markCacheSlotEmpty.
  erewrite run_bind by (by apply slot_at_run).
  edestruct logMessage_run as (s1 & Hl & Hq). erewrite run_bind by exact Hl.
  destruct (set_slot_run j free_slot s1) as (s2 & H2 & Hb).
  exists s2. split; [done|]. rewrite (becomes_cache _ _ _ Hq) in Hb.
  by eapply becomes_trans.
Qed.

Lemma mark_from_run n (pre suf : list watch) (s : st) :
  cache s = pre ++ suf → length suf = n →
  ∃ s', mark_from (Z.of_nat (length pre)) n s = (Ok tt, s') ∧
        becomes (pre ++ replicate n free_slot) s s'.
Proof.
  revert pre suf s. induction n as [|n IH]; intros pre suf s Hc Hn; cbn [mark_from].
  - destruct suf; [|done]. exists s. split; [done|].
    change (replicate 0 free_slot) with (@nil watch). rewrite <- Hc. apply becomes_self.
  - destruct suf as [|x suf]; [done|].
    destruct (mark_run (length pre) s) as (s1 & H1 & B1).
    { rewrite Hc, length_app. simpl. lia. }
    erewrite run_bind by exact H1.
    rewrite Hc, (insert_app_r_alt _ _ (length pre)), Nat.sub_diag in B1 by lia.
    cbn [insert list_insert] in B1.
    destruct (IH (pre ++ [free_slot]) suf s1) as (s2 & H2 & B2).
    + rewrite (becomes_cache _ _ _ B1), <- app_assoc. done.
    + simpl in Hn. lia.
    + exists s2. split; [|rewrite <- app_assoc in B2; by eapply becomes_trans].
      rewrite <- H2. f_equal. rewrite length_app; simpl. lia.
Qed.

(** *** Searching *)

Lemma find_slot_found (p : watch → bool) l k j :
  find_slot p k l = j → k <= j → 0 <= k →
  ∃ w, l !! Z.to_nat (j - k) = Some w ∧ p w = true.
Proof.
  revert k. induction l as [|w l IH]; intros k Hf Hj Hk; simpl in Hf; [lia|].
  destruct (p w) eqn:Ep.
  - subst. replace (j - j) with 0 by lia. by exists w.
  - destruct (decide (k + 1 <= j)) as [Hlt|].
    + destruct (IH (k + 1) Hf) as (w' & Hw & Hp); [lia|lia|].
      exists w'. split; [|done].
      replace (Z.to_nat (j - k)) with (S (Z.to_nat (j - (k + 1)))) by lia. done.
    + (* the search goes on from [k + 1], so it cannot return [k] *)
      exfalso. clear IH. assert (find_slot p (k + 1) l = -1 ∨ k + 1 <= find_slot p (k + 1) l) as [|]; [|lia|lia].
      clear. revert k. induction l as [|w l IH]; intros k; simpl; [by left|].
      destruct (p w); [right; lia|]. destruct (IH (k + 1)); [by left|right; lia].
Qed.

Lemma find_slot_none (p : watch → bool) l k :
  0 <= k → (find_slot p k l < 0 ↔ Forall (λ w, p w = false) l).
Proof.
  revert k. induction l as [|w l IH]; intros k Hk; simpl.
  - split; [constructor|lia].
  - rewrite Forall_cons. destruct (p w) eqn:Ep; [split; [lia|naive_solver]|].
    rewrite IH by lia. naive_solver.
Qed.

(** A slot number the search returns is the index of a matching slot. *)
Lemma find_slot_index (p : watch → bool) l :
  0 <= find_slot p 0 l →
  ∃ k w, find_slot p 0 l = Z.of_nat k ∧ l !! k = Some w ∧ p w = true.
Proof.
  intros H. destruct (find_slot_found p l 0 _ eq_refl) as (w & Hw & Hp); [done|lia|].
  rewrite Z.sub_0_r in Hw. exists (Z.to_nat (find_slot p 0 l)), w.
  split_and!; [lia|done|done].
Qed.

(** *** Getting a free slot *)

(** The cache in which a free slot is at index [k]: the old one, or the old
    one with free slots added at its end. *)
Definition roomy (c c' : list watch) (k : nat) : Prop :=
  c' !! k = Some free_slot ∧
  (c' = c ∨ (Forall (λ w, w_wd w ≠ -1) c ∧ k = length c ∧ c' = c ++ replicate ALLOC_INCR free_slot)).

Definition slots_wf (c : list watch) : Prop := Forall (λ w, live w = true ∨ w = free_slot) c.

Lemma findEmptyCacheSlot_run (s : st) :
  slots_wf (cache s) →
  match findEmptyCacheSlot s with
  | (Ok j, s') => ∃ k c', j = Z.of_nat k ∧ roomy (cache s) c' k ∧ cache s' = c' ∧
      rootDirPaths (vars s') = rootDirPaths (vars s) ∧
      ((s' = s) ∨ trace s' = trace s ++ [IRealloc (length (cache s) + ALLOC_INCR)])
  | (Halt h, s') => h = HExit EXIT_FAILURE ∧ cache s' = [] ∧
      Forall (λ w, w_wd w ≠ -1) (cache s)
  end.
Proof.
  intros Hwf. unfold findEmptyCacheSlot. erewrite run_bind by apply var_run.
  destruct (0 <=? find_slot (λ w, w_wd w =? -1) 0 (cache s)) eqn:E; bool_facts.
  - apply find_slot_index in E as (k & w & Hk & Hw & Hp). bool_facts.
    exists k, (cache s). split_and!; auto. split; [|by left]. rewrite Hw. f_equal.
    unfold slots_wf in Hwf. rewrite Forall_lookup in Hwf.
    destruct (Hwf k w Hw) as [Hl|]; [|done].
    unfold live in Hl. lia.
  - apply find_slot_none in E; [|done].
    assert (Forall (λ w, w_wd w ≠ -1) (cache s)) as Hfull.
    { eapply Forall_impl; [exact E|]. simpl. intros x Hx. by bool_facts. }
    set (n := (length (cache s) + ALLOC_INCR)%nat).
    destruct (sys_realloc n (world s)) as [[e|fresh] w] eqn:Er.
    + unfold mbind, M_bind, call. rewrite Er. done.
    + erewrite run_bind by (unfold call; rewrite Er; reflexivity). cbv beta iota.
      erewrite run_bind by reflexivity.
      apply realloc_len in Er.
      match goal with |- context [(mark_from _ _ ≫= _) ?s1] =>
        destruct (mark_from_run ALLOC_INCR (cache s) (drop (length (cache s)) fresh) s1)
          as (s2 & H2 & B2); [reflexivity|rewrite length_drop; lia|] end.
      erewrite run_bind by exact H2.
      exists (length (cache s)), (cache s ++ replicate ALLOC_INCR free_slot).
      rewrite (becomes_trace _ _ _ B2), (becomes_cache _ _ _ B2).
      destruct B2 as (p2 & l2 & -> & _).
      split_and!; auto. split; [by rewrite lookup_app_r, Nat.sub_diag by lia|].
      right. by split_and!.
Qed.

(** *** The optional checks *)

Lemma fprintf_log_none t (s : st) :
  logfp (vars s) = None → fprintf_log t s = (Halt HUndef, s).
Proof. intros H. unfold fprintf_log. erewrite run_bind by apply var_run. by rewrite H. Qed.

(** The optional checks are not safe to turn on.  [checkCacheConsistency]
    tests the type of a file in the branch for unused slots, so with an unused
    slot before every used one it inspects a [stat] structure that was never
    filled; conversely a used slot whose path is no longer a directory passes.
    [dumpCacheToLog] writes to the log file even when none was opened. *)
Theorem optional_checks_undefined (s : st) rest :
  (cache s = free_slot :: rest → (checkCacheConsistency s).1 = Halt HUndef) ∧
  (∀ w x w', cache s = [w] → live w = true → sys_lstat (w_path w) (world s) = (inr x, w') →
     (checkCacheConsistency s).1 = Ok tt) ∧
  (logfp (vars s) = None → (dumpCacheToLog s).1 = Halt HUndef).
Proof.
  split_and!.
  - intros Hc. unfold checkCacheConsistency. erewrite run_bind by apply var_run. by rewrite Hc.
  - intros w x w' Hc Hl Hx. unfold checkCacheConsistency.
    erewrite run_bind by apply var_run. rewrite Hc. cbn [check_slots]. rewrite Hl.
    erewrite run_bind by (erewrite run_bind by (unfold call; rewrite Hx; reflexivity); reflexivity).
    done.
  - intros Hn. unfold dumpCacheToLog. erewrite run_bind by apply var_run.
    assert (∀ l j, (dump_slots j l s).1 = Halt HUndef ∨ dump_slots j l s = (Ok tt, s)) as Hd.
    { induction l as [|w l IH]; intros j; [by right|]. cbn [dump_slots].
      destruct (live w); cbn [when].
      - left. by rewrite (run_bind_halt _ _ _ _ _ (fprintf_log_none _ s Hn)).
      - erewrite run_bind by reflexivity. apply IH. }
    destruct (Hd (cache s) 0) as [H|H].
    + destruct (dump_slots 0 (cache s) s) as [[[]|h] s1] eqn:E; [done|].
      rewrite (run_bind_halt _ _ _ _ _ E). exact H.
    + by rewrite (run_bind _ _ _ _ _ H), (fprintf_log_none _ s Hn).
Qed.
End runs.
