(* ===== verification/InotifyCache.v ===== *)
(** Correctness of the cache operations of [inotify/inotify_dtree.c]: the
    invariant of the cache, what each operation does to it, and that building
    and rebuilding the cache keep the invariant. *)
From S2P Require Import Prelude CLib ErrorFunctions Proc Inotify.
Local Open Scope Z_scope.

(** ** The invariant

    Every slot is either free or holds a nonnegative watch descriptor and a
    terminated path, and no descriptor is in two slots. *)
Definition unique_wds (c : list watch) : Prop := ∀ i j wi wj,
  c !! i = Some wi → c !! j = Some wj → live wi = true → w_wd wi = w_wd wj → i = j.

Definition cache_wf (c : list watch) : Prop :=
  slots_wf c ∧ unique_wds c ∧ Forall (λ w, (String.length (w_path w) < PATH_MAX)%nat) c.

Lemma PATH_MAX_pos : (0 < PATH_MAX)%nat.
Proof. unfold PATH_MAX. lia. Qed.

Lemma cache_wf_nil : cache_wf [].
Proof. split_and!; [constructor|by intros|constructor]. Qed.

Lemma insert_lookup_cases (c : list watch) k w i wi :
  <[k := w]> c !! i = Some wi → (i = k ∧ wi = w) ∨ (i ≠ k ∧ c !! i = Some wi).
Proof. rewrite list_lookup_insert_Some. naive_solver. Qed.

Lemma cache_wf_free c k : cache_wf c → cache_wf (<[k := free_slot]> c).
Proof.
  intros (Hs & Hu & Hp). split_and!.
  - apply Forall_insert; auto.
  - intros i j wi wj Hi Hj Hl He.
    apply insert_lookup_cases in Hi as [[-> ->]|[Hi Hi']]; [done|].
    apply insert_lookup_cases in Hj as [[-> ->]|[Hj Hj']].
    + unfold live in Hl. rewrite He in Hl. done.
    + by eapply Hu.
  - apply Forall_insert; [done|]. apply PATH_MAX_pos.
Qed.

Lemma cache_wf_app_free c n : cache_wf c → cache_wf (c ++ replicate n free_slot).
Proof.
  intros (Hs & Hu & Hp). split_and!.
  - apply Forall_app. split; [done|]. apply Forall_replicate. by right.
  - assert (∀ i w, (c ++ replicate n free_slot) !! i = Some w → live w = true → c !! i = Some w) as Hin.
    { intros i w [?|[_ Hr]]%lookup_app_Some Hl; [done|].
      apply lookup_replicate in Hr as [-> _]. done. }
    intros i j wi wj Hi Hj Hl He. eapply Hu; eauto. apply Hin; [done|].
    unfold live in *. by rewrite <- He.
  - apply Forall_app. split; [done|]. apply Forall_replicate. apply PATH_MAX_pos.
Qed.

Lemma cache_wf_roomy c c' k : cache_wf c → roomy c c' k → cache_wf c'.
Proof. intros H [_ [->|(_ & _ & ->)]]; [done|by apply cache_wf_app_free]. Qed.

Lemma cache_wf_add c k wd path :
  cache_wf c → 0 <= wd → Forall (λ w, w_wd w ≠ wd) c → (String.length path < PATH_MAX)%nat →
  cache_wf (<[k := Watch wd path]> c).
Proof.
  intros (Hs & Hu & Hp) Hwd Hnew Hpath. rewrite Forall_lookup in Hnew. split_and!.
  - apply Forall_insert; [done|]. left. unfold live; simpl. lia.
  - intros i j wi wj Hi Hj Hl He.
    apply insert_lookup_cases in Hi as [[-> ->]|[Hi Hi']];
      apply insert_lookup_cases in Hj as [[-> ->]|[Hj Hj']]; [done| | |by eapply Hu].
    + exfalso. by apply (Hnew j wj Hj').
    + exfalso. by apply (Hnew i wi Hi').
  - by apply Forall_insert.
Qed.

(** A change of paths that keeps free slots free. *)
Lemma cache_wf_repath (f : watch → watch) c :
  cache_wf c → (∀ w, w_wd (f w) = w_wd w) → f free_slot = free_slot →
  (∀ w, (String.length (w_path w) < PATH_MAX → String.length (w_path (f w)) < PATH_MAX)%nat) →
  cache_wf (map f c).
Proof.
  intros (Hs & Hu & Hp) Hwd Hfree Hlen. split_and!.
  - unfold slots_wf. rewrite Forall_map. eapply Forall_impl; [exact Hs|].
    simpl. intros w [Hl| ->]; [left|by right]. unfold live in *. by rewrite Hwd.
  - intros i j wi wj Hi Hj Hl He. rewrite list_lookup_fmap in Hi, Hj.
    apply fmap_Some in Hi as (wi' & Hi & ->), Hj as (wj' & Hj & ->).
    rewrite !Hwd in He. unfold live in Hl. rewrite Hwd in Hl. by eapply Hu.
  - rewrite Forall_map. eapply Forall_impl; [exact Hp|]. done.
Qed.

(** Runs the message at the head of the program. *)
Ltac log_step s1 B1 :=
  match goal with |- context [(logMessage ?vb ?t ≫= _) ?s] =>
    let H := fresh in
    destruct (logMessage_run vb t s) as (s1 & H & B1);
    rewrite (run_bind _ _ _ _ _ H); clear H; cbv beta iota
  end.

Section cache.
Context {L : Libc} {W : Type} `{!InotifySys W, !InotifyLaws W}.
Local Abbreviation st := (pst ivars icall W).
Local Abbreviation cache s := (wlCache (vars s)).

(** The invariant on program states. *)
Definition inv (s : st) : Prop := cache_wf (cache s).

Lemma becomes_inv c (s s' : st) : becomes c s s' → cache_wf c → inv s'.
Proof. intros H Hc. unfold inv. by rewrite (becomes_cache _ _ _ H). Qed.

Lemma quiet_inv (s s' : st) : quiet s s' → inv s → inv s'.
Proof. intros H Hc. by eapply becomes_inv. Qed.

(** *** Finding and adding *)

Lemma findWatch_run wd (s : st) :
  findWatch wd s = (Ok (find_slot (λ w, w_wd w =? wd) 0 (cache s)), s).
Proof. done. Qed.

(** What [addWatchToCache] does when it returns. *)
Lemma addWatchToCache_run wd pathname (s : st) :
  slots_wf (cache s) →
  match addWatchToCache wd pathname s with
  | (Ok j, s') => ∃ k c', j = Z.of_nat k ∧ roomy (cache s) c' k ∧
      cache s' = <[k := Watch wd (strncpy pathname PATH_MAX)]> c' ∧
      rootDirPaths (vars s') = rootDirPaths (vars s)
  | (Halt h, s') =>
      h = HExit EXIT_FAILURE ∧ cache s' = [] ∧ Forall (λ w, w_wd w ≠ -1) (cache s)
  end.
Proof.
  intros Hwf. unfold addWatchToCache, mbind, M_bind.
  pose proof (findEmptyCacheSlot_run s Hwf) as H.
  destruct (findEmptyCacheSlot s) as [[j|h] s1]; [|done].
  destruct H as (k & c' & -> & Hr & Hc & Hroots & _). simpl.
  exists k, c'. rewrite Nat2Z.id, Hc. split_and!; auto.
Qed.

(** C35: adding a watch to a well-formed cache succeeds whenever a slot is
    free.  The watch is then found under its descriptor, every other entry
    keeps its slot, and the cache stays well-formed; the array grows, by 200
    slots, only when no slot was free.  If it has to grow and cannot, the
    program exits. *)
Theorem addWatchToCache_spec wd pathname (s : st) :
  cache_wf (cache s) → 0 <= wd → Forall (λ w, w_wd w ≠ wd) (cache s) →
  (String.length pathname < PATH_MAX)%nat →
  let full := Forall (λ w, w_wd w ≠ -1) (cache s) in
  match addWatchToCache wd pathname s with
  | (Ok j, s') =>
      cache_wf (cache s') ∧
      findWatch wd s' = (Ok j, s') ∧
      cache s' !! Z.to_nat j = Some (Watch wd pathname) ∧
      (∀ i w, cache s !! i = Some w → live w = true → cache s' !! i = Some w) ∧
      (length (cache s') = length (cache s) ∨
       (length (cache s') = length (cache s) + ALLOC_INCR)%nat ∧ full)
  | (Halt h, s') => h = HExit EXIT_FAILURE ∧ full
  end.
Proof.
  intros Hwf Hwd Hnew Hpath full.
  pose proof (addWatchToCache_run wd pathname s (proj1 Hwf)) as H.
  destruct (addWatchToCache wd pathname s) as [[j|h] s'];
    [|by destruct H as (-> & _ & ?)].
  destruct H as (k & c' & -> & Hr & Hc & _).
  unfold strncpy in Hc. rewrite take_str_ge in Hc by lia.
  assert (Forall (λ w, w_wd w ≠ wd) c') as Hnew'.
  { destruct Hr as [_ [->|(_ & _ & ->)]]; [done|]. apply Forall_app. split; [done|].
    apply Forall_replicate. simpl. lia. }
  assert (k < length c')%nat as Hk by (destruct Hr as [Hr _]; by apply lookup_lt_Some in Hr).
  split_and!.
  - rewrite Hc. apply cache_wf_add; auto. by eapply cache_wf_roomy.
  - rewrite findWatch_run, Hc. f_equal. f_equal.
    destruct (Z_lt_le_dec (find_slot (λ w, w_wd w =? wd) 0 (<[k:=Watch wd pathname]> c')) 0) as [Hn|Hn].
    + apply find_slot_none in Hn; [|done]. rewrite Forall_lookup in Hn.
      specialize (Hn k (Watch wd pathname)). rewrite list_lookup_insert_eq in Hn by done.
      specialize (Hn eq_refl). simpl in Hn. lia.
    + apply find_slot_index in Hn as (i & w & -> & Hi & Hp). bool_facts. f_equal.
      apply insert_lookup_cases in Hi as [[-> _]|[_ Hi]]; [done|].
      rewrite Forall_lookup in Hnew'. by destruct (Hnew' i w Hi).
  - rewrite Nat2Z.id, Hc. by apply list_lookup_insert_eq.
  - intros i w Hi Hl. rewrite Hc. destruct Hr as [Hfree Hr].
    assert (c' !! i = Some w) as Hi'.
    { destruct Hr as [->|(_ & _ & ->)]; [done|]. by apply lookup_app_l_Some. }
    rewrite list_lookup_insert_ne; [done|]. intros ->. by simplify_eq.
  - rewrite Hc, length_insert. destruct Hr as [_ [->|(Hf & _ & ->)]]; [by left|right].
    by rewrite length_app, length_replicate.
Qed.

(** *** Removing and renaming *)

(** As [becomes], but system calls may have been made. *)
Definition vars_become (c : list watch) (s s' : st) : Prop :=
  ∃ l, vars s' = set_cache c (set_log l (vars s)) ∧ (is_Some l ↔ is_Some (logfp (vars s))).

Lemma becomes_vars c s s' : becomes c s s' → vars_become c s s'.
Proof. intros (p & l & -> & Hl). by exists l. Qed.

Lemma vars_become_trans c c' s s' s'' :
  vars_become c s s' → vars_become c' s' s'' → vars_become c' s s''.
Proof.
  intros (l & H & Hl) (l' & H' & Hl'). exists l'. rewrite H', H. split; [done|].
  by rewrite Hl', H.
Qed.

Lemma vars_become_cache c s s' : vars_become c s s' → cache s' = c.
Proof. by intros (l & -> & _). Qed.

(** The entries a removal of [pn] concerns, and what becomes of an entry. *)
Definition doomed (pn : string) (w : watch) : bool := live w && in_subtree pn (w_path w).
Definition zapped (pn : string) (w : watch) : watch := if doomed pn w then free_slot else w.
Definition rm_calls (fd : Z) (pn : string) (l : list watch) : list icall :=
  map (λ w, IRmWatch fd (w_wd w)) (filter (λ w, doomed pn w = true) l).
Definition count_doomed (pn : string) (l : list watch) : Z :=
  Z.of_nat (length (filter (λ w, doomed pn w = true) l)).

Lemma rm_calls_cons fd pn w l :
  rm_calls fd pn (w :: l) =
    (if doomed pn w then [IRmWatch fd (w_wd w)] else []) ++ rm_calls fd pn l.
Proof. unfold rm_calls. rewrite filter_cons. by destruct (doomed pn w). Qed.

Lemma count_doomed_cons pn w l :
  count_doomed pn (w :: l) = (if doomed pn w then 1 else 0) + count_doomed pn l.
Proof.
  unfold count_doomed. rewrite filter_cons. destruct (doomed pn w); simpl length; lia.
Qed.

(** Either all slots were scanned, or the scan stopped at the slot whose watch
    could not be removed. *)
Definition zap_outcome (fd : Z) (pn : string) (pre l : list watch) (cnt : Z)
    (s : st) (r : Z) (s' : st) : Prop :=
  (r = cnt + count_doomed pn l ∧ vars_become (pre ++ map (zapped pn) l) s s' ∧
   trace s' = trace s ++ rm_calls fd pn l) ∨
  (∃ done w rest w1 e w2, l = done ++ w :: rest ∧ doomed pn w = true ∧
     sys_rm_watch fd (w_wd w) w1 = (inl e, w2) ∧
     r = -1 ∧ vars_become (pre ++ map (zapped pn) done ++ w :: rest) s s' ∧
     trace s' = trace s ++ rm_calls fd pn done ++ [IRmWatch fd (w_wd w)]).

Lemma zap_skip fd pn pre w l cnt (s : st) r s' :
  doomed pn w = false → zap_outcome fd pn (pre ++ [w]) l cnt s r s' →
  zap_outcome fd pn pre (w :: l) cnt s r s'.
Proof.
  intros Hd [(-> & Hv & Ht)|(dn & x & rest & w1 & e & w2 & -> & Hx & He & -> & Hv & Ht)].
  - left. rewrite count_doomed_cons, rm_calls_cons, Hd. rewrite <- app_assoc in Hv.
    split_and!; [lia| |done]. simpl. unfold zapped at 1. by rewrite Hd.
  - right. exists (w :: dn), x, rest, w1, e, w2. rewrite rm_calls_cons, Hd.
    rewrite <- app_assoc in Hv. split_and!; auto. simpl. unfold zapped at 1. by rewrite Hd.
Qed.

Lemma zap_remove fd pn pre w l cnt (s s1 : st) r s' :
  doomed pn w = true → vars_become (pre ++ free_slot :: l) s s1 →
  trace s1 = trace s ++ [IRmWatch fd (w_wd w)] →
  zap_outcome fd pn (pre ++ [free_slot]) l (cnt + 1) s1 r s' →
  zap_outcome fd pn pre (w :: l) cnt s r s'.
Proof.
  intros Hd Hv1 Ht1 [(-> & Hv & Ht)|(dn & x & rest & w1 & e & w2 & -> & Hx & He & -> & Hv & Ht)].
  - left. rewrite count_doomed_cons, rm_calls_cons, Hd. rewrite <- app_assoc in Hv.
    split_and!; [lia| |rewrite Ht, Ht1; by rewrite <- app_assoc].
    simpl. unfold zapped at 1. rewrite Hd. by eapply vars_become_trans.
  - right. exists (w :: dn), x, rest, w1, e, w2. rewrite rm_calls_cons, Hd.
    rewrite <- app_assoc in Hv.
    split_and!; auto; [|rewrite Ht, Ht1; by rewrite <- !app_assoc].
    simpl. unfold zapped at 1. rewrite Hd. by eapply vars_become_trans.
Qed.

Lemma zap_slots_run fd pn pre l cnt (s : st) :
  cache s = pre ++ l →
  ∃ r s', zap_slots fd pn (Z.of_nat (length pre)) l cnt s = (Ok r, s') ∧
          zap_outcome fd pn pre l cnt s r s'.
Proof.
  revert pre cnt s. induction l as [|w l IH]; intros pre cnt s Hc.
  { exists cnt, s. split; [done|]. left. simpl in *. rewrite app_nil_r. split_and!.
    - unfold count_doomed; simpl. lia.
    - rewrite app_nil_r in Hc. rewrite <- Hc. apply becomes_vars, becomes_self.
    - unfold rm_calls; simpl. by rewrite app_nil_r. }
  cbn [zap_slots]. fold (doomed pn w).
  replace (Z.of_nat (length pre) + 1) with (Z.of_nat (length (pre ++ [free_slot])))
    by (rewrite length_app; simpl; lia).
  destruct (doomed pn w) eqn:Hd.
  2:{ destruct (IH (pre ++ [w]) cnt s) as (r & s' & Hr & Ho); [by rewrite Hc, <- app_assoc|].
      exists r, s'. split; [|by apply zap_skip]. rewrite <- Hr. f_equal.
      rewrite !length_app. done. }
  log_step s1 B1.
  assert (cache s1 = pre ++ w :: l) as Hc1 by (rewrite (becomes_cache _ _ _ B1); done).
  destruct (sys_rm_watch fd (w_wd w) (world s1)) as [[e|[]] w2] eqn:Er.
  - erewrite run_bind by (unfold call; rewrite Er; reflexivity). cbv beta iota.
    log_step s2 B2.
    do 2 eexists. split; [reflexivity|]. right.
    exists [], w, l, (world s1), e, w2. split_and!; auto.
    + simpl. eapply vars_become_trans; [apply becomes_vars, B1|].
      apply becomes_vars in B2. simpl in B2. by rewrite Hc1 in B2.
    + apply becomes_trace in B1, B2. rewrite B2. simpl. by rewrite B1.
  - erewrite run_bind by (unfold call; rewrite Er; reflexivity). cbv beta iota.
    match goal with |- context [(markCacheSlotEmpty _ ≫= _) ?s2] =>
      destruct (mark_run (length pre) s2) as (s3 & H3 & B3);
      [simpl; rewrite Hc1, length_app; simpl; lia|] end.
    erewrite run_bind by exact H3. simpl in B3.
    rewrite Hc1, (insert_app_r_alt _ _ (length pre)), Nat.sub_diag in B3 by lia.
    cbn [insert list_insert] in B3.
    destruct (IH (pre ++ [free_slot]) (cnt + 1) s3) as (r & s' & Hr & Ho).
    { rewrite (becomes_cache _ _ _ B3), <- app_assoc. done. }
    exists r, s'. split; [done|]. eapply zap_remove; [done| | |exact Ho].
    + eapply vars_become_trans; [apply becomes_vars, B1|].
      destruct B3 as (p3 & l3 & -> & Hl3). by exists l3.
    + apply becomes_trace in B1, B3. rewrite B3. simpl. by rewrite B1.
Qed.

(** The size of the copy [zapSubtree] makes of its argument. *)
Definition copy_size (path : string) : Z := Z.of_nat (String.length path) + 1.

(** [zapSubtree] when the copy can be made: the scan starts in [s1]. *)
Lemma zapSubtree_run fd path (s : st) w :
  sys_alloc (copy_size path) (world s) = (inr tt, w) →
  ∃ r s1 s', zapSubtree fd path s = (Ok r, s') ∧
    vars_become (cache s) s s1 ∧ trace s1 = trace s ++ [IAlloc (copy_size path)] ∧
    zap_outcome fd path [] (cache s) 0 s1 r s'.
Proof.
  intros Ha. unfold zapSubtree. log_step s1 B1.
  rewrite <- (becomes_world _ _ _ B1) in Ha.
  erewrite run_bind by (unfold strdup; erewrite run_bind
    by (unfold call, copy_size in *; rewrite Ha; reflexivity); reflexivity).
  cbv beta iota. erewrite run_bind by apply var_run.
  match goal with |- context [zap_slots _ _ _ _ _ ?s2] =>
    destruct (zap_slots_run fd path [] (cache s2) 0 s2 eq_refl) as (r & s' & Hr & Ho);
    exists r, s2, s' end.
  simpl in Ho. rewrite (becomes_cache _ _ _ B1) in Ho.
  split_and!; [exact Hr| | |exact Ho].
  - destruct B1 as (p1 & l1 & -> & Hl1). by exists l1.
  - simpl. by rewrite (becomes_trace _ _ _ B1).
Qed.

(** [zapSubtree] when it cannot: nothing changes. *)
Lemma zapSubtree_nomem fd path (s : st) e w :
  sys_alloc (copy_size path) (world s) = (inl e, w) →
  ∃ r s', zapSubtree fd path s = (r, s') ∧ cache s' = cache s.
Proof.
  intros Ha. unfold zapSubtree. log_step s1 B1.
  rewrite <- (becomes_world _ _ _ B1) in Ha.
  erewrite run_bind by (unfold strdup; erewrite run_bind
    by (unfold call, copy_size in *; rewrite Ha; reflexivity); reflexivity).
  cbv beta iota. erewrite run_bind by apply var_run. apply becomes_cache in B1.
  destruct (existsb _ _); by do 2 eexists.
Qed.

Lemma cache_wf_zap pn c1 c2 : cache_wf (c1 ++ c2) → cache_wf (map (zapped pn) c1 ++ c2).
Proof.
  revert c2. induction c1 as [|w c1 IH] using rev_ind; intros c2 H; [done|].
  rewrite map_app, <- app_assoc. apply IH. rewrite <- app_assoc in H. simpl in *.
  unfold zapped. destruct (doomed pn w); [|done].
  apply (cache_wf_free _ (length c1)) in H.
  by rewrite (insert_app_r_alt _ _ (length c1)), Nat.sub_diag in H by lia.
Qed.

Lemma zap_outcome_wf fd pn (s : st) r s' :
  cache_wf (cache s) → zap_outcome fd pn [] (cache s) 0 s r s' → cache_wf (cache s').
Proof.
  intros Hwf [(-> & Hv & Ht)|(dn & x & rest & w1 & e & w2 & Hl & Hx & He & -> & Hv & Ht)];
    rewrite (vars_become_cache _ _ _ Hv); simpl.
  - rewrite <- (app_nil_r (map _ _)). apply cache_wf_zap. by rewrite app_nil_r.
  - apply cache_wf_zap. by rewrite <- Hl.
Qed.

Lemma zapped_not_doomed pn w : doomed pn (zapped pn w) = false.
Proof. unfold zapped. by destruct (doomed pn w) eqn:E. Qed.

(** [zapSubtree] returns whenever it can copy its argument.  Unless the kernel refuses to remove a
    watch, afterwards no cached entry is the given directory or lies below it,
    every other slot is untouched, the watches removed are exactly those of
    the vanished entries, in slot order, and the result is their number.  If
    a removal fails the result is -1, and the slots from the failing one on
    are untouched.  In both cases the cache stays well-formed. *)
Theorem zapSubtree_spec fd path (s : st) w0 :
  cache_wf (cache s) → sys_alloc (copy_size path) (world s) = (inr tt, w0) →
  let copied := trace s ++ [IAlloc (copy_size path)] in
  ∃ r s', zapSubtree fd path s = (Ok r, s') ∧ cache_wf (cache s') ∧
    rootDirPaths (vars s') = rootDirPaths (vars s) ∧
    ((r = count_doomed path (cache s) ∧
      Forall (λ w, doomed path w = false) (cache s') ∧
      (∀ i w, cache s !! i = Some w → doomed path w = false → cache s' !! i = Some w) ∧
      trace s' = copied ++ rm_calls fd path (cache s)) ∨
     (∃ k w, r = -1 ∧ cache s !! k = Some w ∧ doomed path w = true ∧
        drop k (cache s') = drop k (cache s) ∧
        Forall (λ w, doomed path w = false) (take k (cache s')) ∧
        trace s' = copied ++ rm_calls fd path (take k (cache s)) ++ [IRmWatch fd (w_wd w)])).
Proof.
  intros Hwf Ha copied.
  destruct (zapSubtree_run fd path s w0 Ha) as (r & s1 & s' & Hr & V1 & T1 & Ho).
  exists r, s'. split; [done|]. unfold copied. rewrite <- T1.
  rewrite <- (vars_become_cache _ _ _ V1) in *.
  replace (rootDirPaths (vars s)) with (rootDirPaths (vars s1)) by (by destruct V1 as (? & -> & _)).
  clear V1 T1 Hr Ha copied. split; [by eapply zap_outcome_wf|].
  assert (∀ l, Forall (λ w, doomed path w = false) (map (zapped path) l)) as Hz.
  { intros l. apply Forall_map, Forall_true. intros w. apply zapped_not_doomed. }
  destruct Ho as [(-> & Hv & Ht)|(dn & x & rest & w1 & e & w2 & Hl & Hx & He & -> & Hv & Ht)].
  - pose proof (vars_become_cache _ _ _ Hv) as Hc. simpl in Hc.
    destruct Hv as (l & Hv & _). split; [by rewrite Hv|]. left. rewrite Hc.
    split_and!; [lia|done| |done].
    intros i w Hi Hd. rewrite list_lookup_fmap, Hi. simpl. unfold zapped. by rewrite Hd.
  - pose proof (vars_become_cache _ _ _ Hv) as Hc. simpl in Hc.
    destruct Hv as (l & Hv & _). split; [by rewrite Hv|]. right.
    assert (length (map (zapped path) dn) = length dn) as Hlen by apply length_map.
    exists (length dn), x. rewrite Hc, Hl. split_and!.
    + done.
    + by rewrite lookup_app_r, Nat.sub_diag by lia.
    + done.
    + rewrite drop_app_length. rewrite <- Hlen at 1. by rewrite drop_app_length.
    + rewrite <- Hlen, take_app_length. apply Hz.
    + by rewrite take_app_length.
Qed.

(** The entry after the directory [full] was renamed to [new]. *)
Definition moved (full new : string) (w : watch) : watch :=
  if in_subtree full (w_path w) then Watch (w_wd w) (renamed full new (w_path w)) else w.

Lemma rewrite_slots_run full new pre l (s : st) :
  cache s = pre ++ l →
  ∃ s', rewrite_slots full new (Z.of_nat (length pre)) l s = (Ok tt, s') ∧
        becomes (pre ++ map (moved full new) l) s s'.
Proof.
  revert pre s. induction l as [|w l IH]; intros pre s Hc; cbn [rewrite_slots].
  { exists s. split; [done|]. simpl map. rewrite <- Hc. apply becomes_self. }
  assert (∃ s1, when (in_subtree full (w_path w)) (
      when (Z.of_nat PATH_MAX <? Z.of_nat (String.length (new +:+ drop_str (String.length full) (w_path w))))
        (logMessage VB_BASIC ("Truncated pathname: " +:+ renamed full new (w_path w) +:+ nl));;
      set_slot (Z.of_nat (length pre)) (Watch (w_wd w) (renamed full new (w_path w)));;
      logMessage VB_NOISY ("    wd " +:+ fmt_d (w_wd w) +:+ " [cache slot " +:+
        fmt_d (Z.of_nat (length pre)) +:+ "] ==> " +:+ renamed full new (w_path w) +:+ nl)) s =
      (Ok tt, s1) ∧ becomes (pre ++ moved full new w :: l) s s1) as (s1 & H1 & B1).
  { unfold moved. destruct (in_subtree full (w_path w)); cbn [when].
    2:{ exists s. split; [done|]. rewrite <- Hc. apply becomes_self. }
    assert (∃ s0, when (Z.of_nat PATH_MAX <? Z.of_nat (String.length (new +:+ drop_str (String.length full) (w_path w))))
        (logMessage VB_BASIC ("Truncated pathname: " +:+ renamed full new (w_path w) +:+ nl)) s = (Ok tt, s0)
        ∧ quiet s s0) as (s0 & H0 & Q0).
    { destruct (_ <? _); [apply logMessage_run|]. exists s. split; [done|apply quiet_refl]. }
    erewrite run_bind by exact H0.
    destruct (set_slot_run (length pre) (Watch (w_wd w) (renamed full new (w_path w))) s0)
      as (s2 & H2 & B2).
    erewrite run_bind by exact H2.
    match goal with |- context [logMessage ?vb ?t s2] =>
      destruct (logMessage_run vb t s2) as (s3 & H3 & Q3) end.
    exists s3. split; [exact H3|]. eapply becomes_quiet; [|exact Q3].
    rewrite (becomes_cache _ _ _ Q0), Hc, (insert_app_r_alt _ _ (length pre)), Nat.sub_diag in B2 by lia.
    by eapply becomes_trans. }
  erewrite run_bind by exact H1.
  destruct (IH (pre ++ [moved full new w]) s1) as (s2 & H2 & B2).
  { rewrite (becomes_cache _ _ _ B1), <- app_assoc. done. }
  exists s2. split.
  - rewrite <- H2. f_equal. rewrite length_app; simpl. lia.
  - rewrite <- app_assoc in B2. by eapply becomes_trans.
Qed.

Lemma rewriteCachedPaths_run op on np nn (s : st) :
  let full := snprintf PATH_MAX (op +:+ "/" +:+ on) in
  let new := snprintf PATH_MAX (np +:+ "/" +:+ nn) in
  ∃ s', rewriteCachedPaths op on np nn s = (Ok tt, s') ∧
        becomes (map (moved full new) (cache s)) s s'.
Proof.
  intros full new. unfold rewriteCachedPaths. log_step s1 B1.
  erewrite run_bind by apply var_run.
  destruct (rewrite_slots_run full new [] (cache s1) s1 eq_refl) as (s2 & H2 & B2).
  exists s2. split; [exact H2|]. rewrite (becomes_cache _ _ _ B1) in B2.
  by eapply becomes_trans.
Qed.

Lemma take_str_app_le n s t :
  (n <= String.length s)%nat → take_str n (s +:+ t) = take_str n s.
Proof.
  intros H. unfold take_str. rewrite chars_app, take_app_le; [done|].
  by rewrite length_chars.
Qed.

Lemma full_path_nonempty op on : in_subtree (snprintf PATH_MAX (op +:+ "/" +:+ on)) "" = false.
Proof.
  destruct (in_subtree _ _) eqn:E; [exfalso|done]. apply in_subtree_spec in E.
  assert (String.length (snprintf PATH_MAX (op +:+ "/" +:+ on)) ≠ 0%nat) as Hne.
  { unfold snprintf. rewrite length_take_str, !length_append. cbn [String.length].
    unfold PATH_MAX. lia. }
  destruct E as [E|[r E]].
  - by rewrite <- E in Hne.
  - apply (f_equal String.length) in E. rewrite !length_append in E. cbn [String.length] in E. lia.
Qed.

Lemma cache_wf_moved op on new c :
  cache_wf c → cache_wf (map (moved (snprintf PATH_MAX (op +:+ "/" +:+ on)) new) c).
Proof.
  intros Hwf. apply cache_wf_repath; [done| | |].
  - intros w. unfold moved. by destruct (in_subtree _ _).
  - unfold moved. cbn [w_path free_slot]. by rewrite full_path_nonempty.
  - intros w Hw. unfold moved. destruct (in_subtree _ _); [|done]. simpl.
    unfold renamed. apply snprintf_bound, PATH_MAX_pos.
Qed.

(** When the directory [op/on] becomes [np/nn], [rewriteCachedPaths]
    gives the directory its new path and every path below it the new prefix,
    as long as the paths fit; it touches no other entry, no watch descriptor
    and no watch, and keeps the cache well-formed. *)
Theorem rewriteCachedPaths_spec op on np nn (s : st) :
  cache_wf (cache s) →
  let full := op +:+ "/" +:+ on in
  let new := np +:+ "/" +:+ nn in
  (String.length full < PATH_MAX)%nat → (String.length new < PATH_MAX)%nat →
  ∃ s', rewriteCachedPaths op on np nn s = (Ok tt, s') ∧
    cache_wf (cache s') ∧ trace s' = trace s ∧ world s' = world s ∧
    length (cache s') = length (cache s) ∧
    ∀ i w, cache s !! i = Some w →
      ∃ w', cache s' !! i = Some w' ∧ w_wd w' = w_wd w ∧
        (w_path w = full → w_path w' = new) ∧
        (∀ r, w_path w = full +:+ "/" +:+ r →
           (String.length (new +:+ "/" +:+ r) < PATH_MAX)%nat →
           w_path w' = new +:+ "/" +:+ r) ∧
        (in_subtree full (w_path w) = false → w' = w).
Proof.
  intros Hwf full new Hf Hn. destruct (rewriteCachedPaths_run op on np nn s) as (s' & Hr & B).
  exists s'. split; [done|].
  pose proof (cache_wf_moved op on (snprintf PATH_MAX (np +:+ "/" +:+ nn)) _ Hwf) as Hwf'.
  fold full in Hwf', B. fold new in Hwf', B.
  rewrite !snprintf_fits in Hwf', B by done.
  rewrite (becomes_cache _ _ _ B), (becomes_trace _ _ _ B), (becomes_world _ _ _ B), length_map.
  split_and!; [done..|]. intros i w Hi. rewrite list_lookup_fmap, Hi. simpl.
  eexists. split; [done|]. unfold moved, renamed.
  split_and!.
  - by destruct (in_subtree _ _).
  - intros ->. rewrite (proj2 (in_subtree_spec full full)) by auto. simpl.
    rewrite <- (append_nil_r full) at 2. rewrite drop_str_app.
    rewrite append_nil_r. by apply snprintf_fits.
  - intros r -> Hlen. rewrite (proj2 (in_subtree_spec full _)) by eauto. simpl w_path.
    rewrite drop_str_app. by apply snprintf_fits.
  - by intros ->.
Qed.

(** *** The invariant is kept while the cache is built *)

Lemma inv_same (s s' : st) : cache s' = cache s → inv s → inv s'.
Proof. unfold inv. by intros ->. Qed.

Lemma preserves_log vb t : preserves inv (logMessage vb t : M st unit).
Proof. intros s Hs. destruct (logMessage_run vb t s) as (s' & -> & Q). by eapply quiet_inv. Qed.

Lemma preserves_call {A} c (f : W → (Z + A) * W) : preserves inv (call c f : M st _).
Proof. intros s Hs. unfold call. by destruct (f (world s)) as [[e|a] w]. Qed.

Lemma preserves_var {A} (f : ivars → A) : preserves inv (var f : M st A).
Proof. by intros s. Qed.

Lemma preserves_upd f :
  (∀ v, cache_wf (wlCache v) → cache_wf (wlCache (f v))) → preserves inv (upd f : M st unit).
Proof. intros Hf s Hs. by apply Hf. Qed.

Lemma preserves_lift {A} (m : M proc A) : preserves inv (lift m : M st A).
Proof.
  intros s Hs. destruct (lift m s) as [r s'] eqn:E. apply lift_same in E as (Hv & _).
  assert (inv s') by (apply (inv_same s); [by rewrite Hv|done]). by destruct r.
Qed.

Lemma preserves_get_errno : preserves inv (get_errno : M st Z).
Proof. by intros s. Qed.

Lemma preserves_perror_exit {A} t : preserves inv (perror_exit t : M st A).
Proof. apply preserves_bind; [apply preserves_bind|]; intros; try apply preserves_lift.
  apply preserves_get_errno. Qed.
Lemma preserves_exit {A} z : preserves inv (p_exit z : M st A).
Proof. apply preserves_lift. Qed.
Lemma preserves_eprintf t : preserves inv (eprintf t : M st unit).
Proof. apply preserves_lift. Qed.
Lemma preserves_printf t : preserves inv (printf t : M st unit).
Proof. apply preserves_lift. Qed.
Lemma preserves_put_errno e : preserves inv (put_errno e : M st unit).
Proof. apply preserves_lift. Qed.

Lemma preserves_slot_at j : preserves inv (slot_at j : M st watch).
Proof.
  unfold slot_at. apply preserves_bind; [apply preserves_var|intros c].
  destruct (if 0 <=? j then c !! Z.to_nat j else None); [apply preserves_ret|apply preserves_stop].
Qed.

Lemma preserves_mark j : preserves inv (markCacheSlotEmpty j : M st unit).
Proof.
  unfold markCacheSlotEmpty. apply preserves_bind; [apply preserves_slot_at|intros w].
  apply preserves_bind; [apply preserves_log|intros _].
  intros s Hs. by apply cache_wf_free.
Qed.

Lemma preserves_addWatch wd pathname :
  0 <= wd → (String.length pathname < PATH_MAX)%nat →
  triple (λ s, inv s ∧ Forall (λ w, w_wd w ≠ wd) (cache s))
    (addWatchToCache wd pathname : M st Z) (λ _, inv) (λ _, inv).
Proof.
  intros Hwd Hlen s [Hs Hnew]. pose proof (addWatchToCache_run wd pathname s (proj1 Hs)) as H.
  destruct (addWatchToCache wd pathname s) as [[j|h] s'].
  - destruct H as (k & c' & _ & Hr & Hc & _). unfold inv. rewrite Hc.
    unfold strncpy. rewrite take_str_ge by lia.
    apply cache_wf_add; auto; [by eapply cache_wf_roomy|].
    destruct Hr as [_ [->|(_ & _ & ->)]]; [done|]. apply Forall_app. split; [done|].
    apply Forall_replicate. simpl. lia.
  - destruct H as (_ & Hc & _). unfold inv. rewrite Hc. apply cache_wf_nil.
Qed.

Lemma preserves_traverse pathname isdir : preserves inv (traverseTree pathname isdir : M st unit).
Proof.
  unfold traverseTree. destruct isdir; [|apply preserves_skip]. cbn [negb].
  apply preserves_bind; [by intros s|intros root].
  apply preserves_bind; [apply preserves_var|intros fd].
  intros s Hs. unfold mbind at 1, M_bind at 1, call.
  destruct (sys_add_watch _ _ _ (world s)) as [[e|wd] w] eqn:Ea.
  { apply (preserves_bind inv (logMessage _ _) _ (preserves_log _ _)); [|done].
    intros _. apply preserves_bind; [apply preserves_get_errno|intros e'].
    destruct (e' =? ENOENT); [apply preserves_skip|apply preserves_exit]. }
  pose proof (add_watch_short _ _ _ _ _ _ Ea) as Hshort. apply add_watch_nonneg in Ea. rewrite (run_bind _ _ _ _ _ (findWatch_run _ _)).
  destruct (0 <=? _) eqn:Ef; [by apply preserves_log|]. bool_facts.
  apply find_slot_none in Ef; [|done]. erewrite run_bind by reflexivity.
  match goal with |- context [(addWatchToCache _ _ ≫= _) ?s1] =>
    apply (triple_bind (λ s, inv s ∧ Forall (λ w, w_wd w ≠ wd) (cache s))
      (addWatchToCache wd pathname) (λ _, inv)) with (s := s1) end.
  - by apply preserves_addWatch.
  - intros j. apply preserves_log.
  - split; [done|]. eapply Forall_impl; [exact Ef|]. simpl. intros x Hx. by bool_facts.
Qed.

Lemma preserves_watchDir fd p : preserves inv (watchDir fd p : M st Z).
Proof.
  unfold watchDir. apply preserves_bind; [by apply preserves_upd|intros _].
  apply preserves_bind; [by apply preserves_upd|intros _].
  apply preserves_bind; [apply preserves_call|intros [e|[visited err]]; [apply preserves_stop|]].
  apply preserves_bind; [apply preserves_for_each; intros; apply preserves_traverse|intros _].
  apply preserves_bind; [|intros _; apply preserves_var].
  destruct err; [|apply preserves_skip].
  apply preserves_bind; [apply preserves_put_errno|intros _; apply preserves_log].
Qed.

Lemma preserves_watchSubtree fd p : preserves inv (watchSubtree fd p : M st unit).
Proof. apply preserves_bind; [apply preserves_watchDir|intros n; apply preserves_log]. Qed.

Lemma preserves_zapSubtree fd p : preserves inv (zapSubtree fd p : M st Z).
Proof.
  intros s Hs. destruct (sys_alloc (copy_size p) (world s)) as [[e|[]] w] eqn:Ha.
  - destruct (zapSubtree_nomem fd p s e w Ha) as ([r|h] & s' & -> & Hc); by apply (inv_same s).
  - destruct (zapSubtree_run fd p s w Ha) as (r & s1 & s' & -> & V1 & _ & Ho).
    unfold inv in *. rewrite <- (vars_become_cache _ _ _ V1) in *. by eapply zap_outcome_wf.
Qed.

Lemma preserves_rewrite op on np nn : preserves inv (rewriteCachedPaths op on np nn : M st unit).
Proof.
  intros s Hs. destruct (rewriteCachedPaths_run op on np nn s) as (s' & -> & B).
  eapply becomes_inv; [exact B|]. by apply cache_wf_moved.
Qed.

Lemma preserves_reinitialize fd : preserves inv (reinitialize fd : M st Z).
Proof.
  unfold reinitialize. apply preserves_bind.
  { destruct (0 <=? fd).
    - apply preserves_bind; [apply preserves_bind; [apply preserves_call|intros; apply preserves_skip]|intros _].
      apply preserves_bind; [by apply preserves_upd|intros _].
      apply preserves_bind; [apply preserves_var|intros n; apply preserves_log].
    - apply preserves_bind; [apply preserves_log|intros _; by apply preserves_upd]. }
  intros _. apply preserves_bind; [apply preserves_call|intros [e|nfd]; [apply preserves_perror_exit|]].
  apply preserves_bind; [apply preserves_log|intros _].
  apply preserves_bind; [apply preserves_upd; intros; apply cache_wf_nil|intros _].
  apply preserves_bind; [apply preserves_var|intros roots].
  apply preserves_bind; [apply preserves_for_each; intros [p|]; [apply preserves_watchSubtree|apply preserves_skip]|intros _].
  apply preserves_bind; [apply preserves_var|intros c].
  apply preserves_bind; [apply preserves_when, preserves_log|intros _; apply preserves_ret].
Qed.

Lemma preserves_zapRoot p : preserves inv (zapRootDirPath p : M st unit).
Proof.
  unfold zapRootDirPath. apply preserves_bind; [apply preserves_printf|intros _].
  apply preserves_bind; [by intros s|intros [k|]].
  - apply preserves_bind; [by apply preserves_upd|intros _].
    apply preserves_bind; [by intros s|intros v]. apply preserves_when.
    apply preserves_bind; [apply preserves_eprintf|intros _; apply preserves_exit].
  - apply preserves_bind; [apply preserves_eprintf|intros _; apply preserves_exit].
Qed.
End cache.

#[export] Hint Resolve preserves_log preserves_call preserves_var preserves_lift
  preserves_get_errno preserves_perror_exit preserves_exit preserves_eprintf preserves_printf
  preserves_put_errno preserves_slot_at preserves_mark preserves_watchSubtree preserves_zapSubtree
  preserves_rewrite preserves_reinitialize preserves_zapRoot : presv.
