(* ===== verification/InotifyEvents.v ===== *)
(** The event loop of [inotify/inotify_dtree.c]: [processNextInotifyEvent] and
    [processInotifyEvents].

    The read buffer is the list of the events from [evp] on, together with the
    number of bytes the program believes are left.  An event of [ev_len] name
    bytes occupies [16 + ev_len] bytes. *)
From S2P Require Import Prelude CLib ErrorFunctions Proc Inotify InotifyCache.
Local Open Scope Z_scope.

Definition event_size (ev : event) : Z := 16 + ev_len ev.

Definition total_size (evs : list event) : Z := foldr (λ ev n, event_size ev + n) 0 evs.

(** [evp += n] *)
Fixpoint drop_bytes (n : Z) (evs : list event) : list event :=
  match evs with
  | [] => []
  | ev :: evs' => if 0 <? n then drop_bytes (n - event_size ev) evs' else evs
  end.

Section events.
Context {L : Libc} {W : Type} `{!InotifySys W}.
Local Abbreviation P := (M (pst ivars icall W)).

(** One message per bit of the mask. *)
Definition mask_names : list (Z * string) :=
  [(IN_ISDIR, "IN_ISDIR "); (IN_CREATE, "IN_CREATE "); (IN_DELETE_SELF, "IN_DELETE_SELF ");
   (IN_MOVE_SELF, "IN_MOVE_SELF "); (IN_MOVED_FROM, "IN_MOVED_FROM ");
   (IN_MOVED_TO, "IN_MOVED_TO "); (IN_IGNORED, "IN_IGNORED ");
   (IN_Q_OVERFLOW, "IN_Q_OVERFLOW "); (IN_UNMOUNT, "IN_UNMOUNT ")].

Definition displayInotifyEvent (ev : event) : P unit :=
  logMessage VB_NOISY ("==> wd = " +:+ fmt_d (ev_wd ev) +:+ "; ");;
  when (0 <? ev_cookie ev)
    (logMessage VB_NOISY ("cookie = " +:+ pad_left 4 (fmt_d (to_signed 32 (ev_cookie ev))) +:+ "; "));;
  logMessage VB_NOISY "mask = ";;
  for_each mask_names (λ b, when (has (ev_mask ev) b.1) (logMessage VB_NOISY b.2));;
  logMessage VB_NOISY nl;;
  when (0 <? ev_len ev) (logMessage VB_NOISY ("        name = " +:+ ev_name ev +:+ nl)).

(** [wlCache[evCacheSlot].path], where the slot may never have been set. *)
Definition slot_path (slot : option Z) : P string :=
  match slot with
  | None => stop HUndef
  | Some j => w ← slot_at j; mret (w_path w)
  end.

Definition clear_slot (slot : option Z) : P unit :=
  match slot with
  | None => stop HUndef
  | Some j => markCacheSlotEmpty j
  end.

(** [ev->name]: only an event with name bytes has one. *)
Definition name_of (ev : event) : P string :=
  if 0 <? ev_len ev then mret (ev_name ev) else stop HUndef.

(** Discards the descriptor and the rest of the buffer. *)
Definition start_over (inotifyFd : Z) : P (Z * Z) :=
  fd ← reinitialize inotifyFd; mret (fd, INOTIFY_READ_BUF_LEN).

(** The checks at the end of a normally processed event. *)
Definition finish_event (inotifyFd evLen : Z) : P (Z * Z) :=
  c ← var cfg;
  when (checkCache c) checkCacheConsistency;;
  when (dumpCache c) dumpCacheToLog;;
  mret (inotifyFd, evLen).

(** A directory was created in, or moved into, a watched one. *)
Definition on_create (inotifyFd : Z) (ev : event) (slot : option Z) : P unit :=
  dir ← slot_path slot;
  name ← name_of ev;
  let fullPath := snprintf (PATH_MAX + NAME_MAX) (dir +:+ "/" +:+ name) in
  logMessage VB_BASIC ("Directory creation on wd " +:+ fmt_d (ev_wd ev) +:+ ": " +:+ fullPath +:+ nl);;
  cached ← pathnameInCache fullPath;
  when (negb cached) (watchSubtree inotifyFd fullPath).

Definition on_delete_self (ev : event) (slot : option Z) : P unit :=
  dir ← slot_path slot;
  logMessage VB_BASIC ("Clearing watchlist item " +:+ fmt_d (ev_wd ev) +:+ " (" +:+ dir +:+ ")" +:+ nl);;
  root ← isRootDirPath dir;
  when root (zapRootDirPath dir);;
  clear_slot slot.

(** The event after [ev] in the buffer, if the program looks at it. *)
Definition next_event (rest : list event) (evLen bufSize : Z) : P (option event) :=
  if evLen <? bufSize then
    match rest with
    | next :: _ => mret (Some next)
    | [] => stop HUndef
    end
  else mret None.

Definition pairs_with (ev next : event) : bool :=
  has (ev_mask next) IN_MOVED_TO && (ev_cookie next =? ev_cookie ev).

(** A directory left the monitored trees. *)
Definition moved_out (inotifyFd : Z) (ev : event) (slot : option Z)
    (evLen bufSize : Z) (firstTry : bool) : P (Z * Z) :=
  w ← gets world;
  logMessage VB_NOISY ("MOVED_OUT: " +:+ ptr_text w +:+ nl);;
  logMessage VB_NOISY ("firstTry = " +:+ fmt_d (if firstTry then 1 else 0) +:+
    "; remaining bytes = " +:+ fmt_d (bufSize - evLen) +:+ nl);;
  dir ← slot_path slot;
  name ← name_of ev;
  let fullPath := snprintf (PATH_MAX + NAME_MAX) (dir +:+ "/" +:+ name) in
  r ← zapSubtree inotifyFd fullPath;
  if r =? -1 then start_over inotifyFd else finish_event inotifyFd evLen.

(** Both halves of a rename inside the monitored trees. *)
Definition moved_within (inotifyFd : Z) (ev nextEv : event) (slot : option Z) (evLen : Z)
    : P (Z * Z) :=
  nextSlot ← findWatchChecked (ev_wd nextEv);
  if nextSlot =? -1 then start_over inotifyFd else
  old ← slot_path slot;
  oldName ← name_of ev;
  new ← slot_path (Some nextSlot);
  newName ← name_of nextEv;
  rewriteCachedPaths old oldName new newName;;
  finish_event inotifyFd (evLen + event_size nextEv).

Definition on_moved_from (inotifyFd : Z) (ev : event) (rest : list event)
    (slot : option Z) (evLen bufSize : Z) (firstTry : bool) : P (Z * Z) :=
  next ← next_event rest evLen bufSize;
  match next with
  | Some nextEv =>
      if pairs_with ev nextEv then moved_within inotifyFd ev nextEv slot evLen
      else moved_out inotifyFd ev slot evLen bufSize firstTry
  | None =>
      if firstTry then
        logMessage VB_NOISY ("HANGING IN_MOVED_FROM" +:+ nl);;
        mret (inotifyFd, -1)
      else moved_out inotifyFd ev slot evLen bufSize firstTry
  end.

Definition on_overflow (inotifyFd : Z) : P (Z * Z) :=
  upd (set_cnts (λ c, set_overflowCnt (overflowCnt c + 1) c));;
  c ← var cnts;
  logMessage 0 ("Queue overflow (" +:+ fmt_d (overflowCnt c) +:+ ") (inotifyReadCnt = " +:+
    fmt_d (inotifyReadCnt c) +:+ ")" +:+ nl);;
  fd ← reinitialize inotifyFd;
  finish_event fd INOTIFY_READ_BUF_LEN.

Definition on_unmount (slot : option Z) : P unit :=
  dir ← slot_path slot;
  logMessage 0 ("Filesystem unmounted: " +:+ dir +:+ nl);;
  clear_slot slot.

(** [IN_MOVE_SELF] of a root directory; of any other directory it is ignored. *)
Definition on_move_self (inotifyFd : Z) (slot : option Z) (evLen : Z) : P (Z * Z) :=
  dir ← slot_path slot;
  root ← isRootDirPath dir;
  if (root : bool) then
    logMessage 0 ("Root path moved: " +:+ dir +:+ nl);;
    zapRootDirPath dir;;
    r ← zapSubtree inotifyFd dir;
    if r =? -1 then start_over inotifyFd else finish_event inotifyFd evLen
  else finish_event inotifyFd evLen.

(** The whole dispatch on the mask. *)
Definition dispatch (inotifyFd : Z) (ev : event) (rest : list event) (slot : option Z)
    (bufSize : Z) (firstTry : bool) : P (Z * Z) :=
  let mask := ev_mask ev in
  let evLen := event_size ev in
  let from_dir := Z.lor IN_MOVED_FROM IN_ISDIR in
  if has mask IN_ISDIR && has mask (Z.lor IN_CREATE IN_MOVED_TO) then
    on_create inotifyFd ev slot;; finish_event inotifyFd evLen
  else if has mask IN_DELETE_SELF then
    on_delete_self ev slot;; finish_event inotifyFd evLen
  else if Z.land mask from_dir =? from_dir then
    on_moved_from inotifyFd ev rest slot evLen bufSize firstTry
  else if has mask IN_Q_OVERFLOW then on_overflow inotifyFd
  else if has mask IN_UNMOUNT then
    on_unmount slot;; finish_event inotifyFd evLen
  else if has mask IN_MOVE_SELF then on_move_self inotifyFd slot evLen
  else finish_event inotifyFd evLen.

(** The result is the descriptor, possibly a new one, and the number of bytes
    consumed, or -1 to ask for another read. *)
Definition processNextInotifyEvent (inotifyFd : Z) (buf : list event) (bufSize : Z)
    (firstTry : bool) : P (Z * Z) :=
  match buf with
  | [] => stop HUndef
  | ev :: rest =>
      displayInotifyEvent ev;;
      if negb (ev_wd ev =? -1) && negb (has (ev_mask ev) IN_IGNORED) then
        slot ← findWatchChecked (ev_wd ev);
        if slot =? -1 then start_over inotifyFd
        else dispatch inotifyFd ev rest (Some slot) bufSize firstTry
      else dispatch inotifyFd ev rest None bufSize firstTry
  end.

(** ** Reading and processing a block *)

(** The loop's variables: the descriptor, the events from [evp] on, the bytes
    left in the buffer, and [firstTry]. *)
Record pass := Pass { ps_fd : Z; ps_evs : list event; ps_left : Z; ps_first : bool }.

(** The second read, for an [IN_MOVED_FROM] at the end of the buffer. *)
Definition read_more (fd : Z) (evs : list event) (numRead : Z) : P pass :=
  if negb (total_size evs =? numRead) then stop HUndef else
  call (IUalarm 2000) sys_misc;;
  let room := INOTIFY_READ_BUF_LEN - numRead in
  r ← call (IRead fd room) (sys_read_events fd room);
  savedErrno ← get_errno;
  call (IUalarm 0) sys_misc;;
  put_errno savedErrno;;
  errno ← get_errno;
  match r with
  | inl _ =>
      if negb (errno =? EINTR) then perror_exit "read" else
      if negb (errno =? -1) then
        upd (set_cnts (λ c, set_inotifyReadCnt (inotifyReadCnt c + 1) c));;
        c ← var cnts;
        logMessage VB_NOISY (nl +:+ "==========> SECONDARY Read " +:+
          fmt_d (inotifyReadCnt c) +:+ ": got -1 bytes" +:+ nl);;
        mret (Pass fd evs (numRead - 1) false)
      else
        logMessage VB_NOISY (nl +:+ "==========> SECONDARY Read got nothing" +:+ nl);;
        mret (Pass fd evs numRead false)
  | inr [] =>
      eprintf "read() from inotify fd returned 0!";; p_exit EXIT_FAILURE
  | inr more =>
      if room <? total_size more then stop HUndef else
      if negb (errno =? -1) then
        upd (set_cnts (λ c, set_inotifyReadCnt (inotifyReadCnt c + 1) c));;
        c ← var cnts;
        logMessage VB_NOISY (nl +:+ "==========> SECONDARY Read " +:+
          fmt_d (inotifyReadCnt c) +:+ ": got " +:+ fmt_d (total_size more) +:+ " bytes" +:+ nl);;
        mret (Pass fd (evs ++ more) (numRead + total_size more) false)
      else
        logMessage VB_NOISY (nl +:+ "==========> SECONDARY Read got nothing" +:+ nl);;
        mret (Pass fd evs numRead false)
  end.

Definition process_body (p : pass) : P (pass + Z) :=
  if 0 <? ps_left p then
    r ← processNextInotifyEvent (ps_fd p) (ps_evs p) (ps_left p) (ps_first p);
    let '(fd, evLen) := r in
    if 0 <? evLen then
      mret (inl (Pass fd (drop_bytes evLen (ps_evs p)) (ps_left p - evLen) true))
    else
      p' ← read_more fd (ps_evs p) (ps_left p); mret (inl p')
  else mret (inr (ps_fd p)).

Definition processInotifyEvents (fuel : nat) (inotifyFd : Z) : P Z :=
  a ← call ISigaction sys_misc;
  match a with
  | inl _ => perror_exit "sigaction"
  | inr _ =>
      c ← var cfg;
      let cnt := if 0 <? readBufferSize c then readBufferSize c else INOTIFY_READ_BUF_LEN in
      r ← call (IRead inotifyFd cnt) (sys_read_events inotifyFd cnt);
      match r with
      | inl _ => perror_exit "read"
      | inr [] => eprintf "read() from inotify fd returned 0!";; p_exit EXIT_FAILURE
      | inr evs =>
          if INOTIFY_READ_BUF_LEN <? total_size evs then stop HUndef else
          upd (set_cnts (λ c, set_inotifyReadCnt (inotifyReadCnt c + 1) c));;
          c ← var cnts;
          logMessage VB_NOISY (nl +:+ "==========> Read " +:+ fmt_d (inotifyReadCnt c) +:+
            ": got " +:+ fmt_d (total_size evs) +:+ " bytes" +:+ nl);;
          loop fuel process_body (Pass inotifyFd evs (total_size evs) true)
      end
  end.
End events.

(** ** The invariant of the cache *)

Section invariant.
Context {L : Libc} {W : Type} `{!InotifySys W, !InotifyLaws W}.
Local Abbreviation st := (pst ivars icall W).
Local Abbreviation inv := (inv (W:=W)).

Lemma preserves_get_vars : preserves inv get_vars.
Proof. by intros s. Qed.

Lemma preserves_upd_cnts f : preserves inv (upd (set_cnts f)).
Proof. by intros s. Qed.

Lemma preserves_fprintf_log t : preserves inv (fprintf_log t).
Proof.
  unfold fprintf_log. apply preserves_bind; [apply preserves_var|intros [old|]];
    [|apply preserves_stop]. by intros s.
Qed.

Lemma preserves_perror t : preserves inv (perror t).
Proof. apply preserves_bind; [apply preserves_get_errno|intros; apply preserves_eprintf]. Qed.

Hint Resolve preserves_get_vars preserves_upd_cnts preserves_fprintf_log preserves_perror : presv.

Lemma preserves_dump : preserves inv dumpCacheToLog.
Proof.
  unfold dumpCacheToLog. apply preserves_bind; [apply preserves_var|intros c].
  apply preserves_bind; [|intros; apply preserves_fprintf_log].
  generalize 0 as j. induction c; intros j; simpl; presv.
Qed.

Lemma preserves_check_slots j c sb n : preserves inv (check_slots j c sb n).
Proof.
  revert j sb n. induction c as [|w c IH]; intros j sb n; simpl; [apply preserves_ret|].
  destruct (live w).
  - apply preserves_bind; [apply preserves_call|intros [e|x]; [|apply IH]].
    apply preserves_bind; [apply preserves_log|intros _; apply IH].
  - destruct sb as [[|]|]; [apply IH| |apply preserves_stop]. presv.
Qed.

Lemma preserves_check : preserves inv checkCacheConsistency.
Proof. unfold checkCacheConsistency. pose proof preserves_check_slots. presv. Qed.

Lemma preserves_findWatchChecked wd : preserves inv (findWatchChecked wd).
Proof.
  unfold findWatchChecked, createStopFileAndAbort. pose proof preserves_dump.
  apply preserves_bind; [by intros s|intros j]. presv.
Qed.

Hint Resolve preserves_dump preserves_check preserves_findWatchChecked : presv.

Lemma preserves_finish fd n : preserves inv (finish_event fd n).
Proof. unfold finish_event. presv. Qed.

Lemma preserves_start_over fd : preserves inv (start_over fd).
Proof. unfold start_over. presv. Qed.

Lemma preserves_slot_path slot : preserves inv (slot_path slot).
Proof. unfold slot_path. presv. Qed.

Lemma preserves_clear slot : preserves inv (clear_slot slot).
Proof. unfold clear_slot. presv. Qed.

Lemma preserves_isRoot p : preserves inv (isRootDirPath p).
Proof. by intros s. Qed.

Lemma preserves_inCache p : preserves inv (pathnameInCache p).
Proof. by intros s. Qed.

Lemma preserves_name ev : preserves inv (name_of ev).
Proof. unfold name_of. presv. Qed.

Lemma preserves_next rest a b : preserves inv (next_event rest a b).
Proof. unfold next_event. presv. Qed.

Lemma preserves_display ev : preserves inv (displayInotifyEvent ev).
Proof. unfold displayInotifyEvent. presv. Qed.

Hint Resolve preserves_finish preserves_start_over preserves_slot_path preserves_clear
  preserves_isRoot preserves_inCache preserves_name preserves_next preserves_display : presv.

Lemma preserves_moved_out fd ev slot a b f : preserves inv (moved_out fd ev slot a b f).
Proof. unfold moved_out. presv. Qed.

Lemma preserves_moved_within fd ev next slot a : preserves inv (moved_within fd ev next slot a).
Proof. unfold moved_within. presv. Qed.

Hint Resolve preserves_moved_out preserves_moved_within : presv.

Lemma preserves_dispatch fd ev rest slot b f : preserves inv (dispatch fd ev rest slot b f).
Proof.
  unfold dispatch, on_create, on_delete_self, on_moved_from, on_overflow, on_unmount, on_move_self.
  presv.
Qed.

Lemma preserves_processNext fd buf b f : preserves inv (processNextInotifyEvent fd buf b f).
Proof. unfold processNextInotifyEvent. pose proof preserves_dispatch. presv. Qed.

Lemma preserves_read_more fd evs n : preserves inv (read_more fd evs n).
Proof. unfold read_more. presv. Qed.

Lemma preserves_process_body p : preserves inv (process_body p).
Proof.
  unfold process_body. pose proof preserves_processNext. pose proof preserves_read_more. presv.
Qed.
End invariant.

(** ** What an event consumes *)

Section consume.
Context {L : Libc} {W : Type} `{!InotifySys W}.
Local Abbreviation st := (pst ivars icall W).
Local Abbreviation P := (M st).

(** The possible results for an event [ev] followed by [rest]. *)
Definition consumed (ev : event) (rest : list event) (bufSize : Z) (firstTry : bool) (n : Z) : Prop :=
  n = event_size ev ∨
  (∃ next rest', rest = next :: rest' ∧ event_size ev < bufSize ∧ pairs_with ev next = true ∧
     n = event_size ev + event_size next) ∨
  n = INOTIFY_READ_BUF_LEN ∨
  (n = -1 ∧ firstTry = true ∧ bufSize <= event_size ev).

Lemma finish_returns (Q : Z * Z → Prop) fd n : Q (fd, n) → returns Q (finish_event fd n : P _).
Proof. intros HQ. unfold finish_event. repeat (apply returns_bind; intros). by apply returns_ret. Qed.

Lemma start_over_returns (Q : Z * Z → Prop) fd :
  (∀ fd', Q (fd', INOTIFY_READ_BUF_LEN)) → returns Q (start_over fd : P _).
Proof. intros HQ. unfold start_over. apply returns_bind; intros. by apply returns_ret. Qed.

Lemma next_event_returns rest n bufSize :
  returns (λ o, match o with
                | Some next => ∃ rest', rest = next :: rest' ∧ n < bufSize
                | None => bufSize <= n
                end) (next_event rest n bufSize : P _).
Proof.
  unfold next_event. destruct (n <? bufSize) eqn:E; bool_facts.
  - destruct rest; [apply returns_stop|]. apply returns_ret. eauto.
  - by apply returns_ret.
Qed.

Ltac rets :=
  repeat first
    [ match goal with
      | |- returns _ (finish_event _ _) => apply finish_returns
      | |- returns _ (start_over _) => apply start_over_returns; intros
      | |- returns _ (stop _) => apply returns_stop
      | |- returns _ (_ ≫= _) => apply returns_bind; intros
      | |- returns _ (if ?x then _ else _) => destruct x eqn:?
      | |- returns _ (match ?x with _ => _ end) => destruct x eqn:?
      end ].

Lemma dispatch_returns fd ev rest slot bufSize firstTry :
  returns (λ r, consumed ev rest bufSize firstTry r.2)
    (dispatch fd ev rest slot bufSize firstTry : P _).
Proof.
  unfold dispatch. unfold consumed. rets; simpl; auto.
  - unfold on_moved_from. eapply returns_bind_with; [apply next_event_returns|].
    intros [next|] Hn.
    + destruct Hn as (rest' & -> & Hlt).
      destruct (pairs_with ev next) eqn:Hp; unfold moved_within, moved_out; rets; simpl; auto.
      right; left. exists next, rest'. auto.
    + destruct firstTry; unfold moved_out; rets; simpl; auto.
      apply returns_ret. simpl. auto 6.
  - unfold on_overflow. rets. auto.
  - unfold on_move_self. rets; simpl; auto.
Qed.

Lemma processNext_returns fd ev rest bufSize firstTry :
  returns (λ r, consumed ev rest bufSize firstTry r.2)
    (processNextInotifyEvent fd (ev :: rest) bufSize firstTry : P _).
Proof.
  unfold processNextInotifyEvent. pose proof dispatch_returns.
  apply returns_bind; intros _. destruct (_ && _); [|done].
  apply returns_bind; intros j. destruct (j =? -1); [|done].
  apply start_over_returns. intros fd'. right; right; by left.
Qed.

(** Processing an event consumes exactly that event, or it and the
    following one when they are the two halves of a rename, or the whole
    buffer after a rebuild of the cache; another read is asked for only when
    nothing follows the event and only on the first try, so the same event
    never asks twice. *)
Theorem processNextInotifyEvent_consumes fd ev rest bufSize firstTry (s : st) fd' n s' :
  processNextInotifyEvent fd (ev :: rest) bufSize firstTry s = (Ok (fd', n), s') →
  n = event_size ev ∨
  (∃ next rest', rest = next :: rest' ∧ event_size ev < bufSize ∧ pairs_with ev next = true ∧
     n = event_size ev + event_size next) ∨
  n = INOTIFY_READ_BUF_LEN ∨
  (n = -1 ∧ firstTry = true ∧ bufSize <= event_size ev).
Proof. intros H. exact (processNext_returns _ _ _ _ _ _ _ _ H). Qed.

(** *** The buffer stays aligned *)

Definition sizes_ok (evs : list event) : Prop := Forall (λ ev, 0 <= ev_len ev) evs.

(** The byte count is that of the events; after a secondary read that was
    interrupted it is one short, which the single event left in the buffer
    does not notice. *)
Definition aligned (p : pass) : Prop :=
  sizes_ok (ps_evs p) ∧ ps_left p <= INOTIFY_READ_BUF_LEN ∧
  (ps_left p = total_size (ps_evs p) ∨
   ps_left p <= 0 ∨
   (ps_first p = false ∧ ∃ ev, ps_evs p = [ev] ∧ ps_left p = event_size ev - 1)).

(** Reads deliver events of nonnegative size. *)
Class EventLaws : Prop :=
  read_sizes fd n w evs w' : sys_read_events fd n w = (inr evs, w') → sizes_ok evs.

Lemma total_size_nonneg evs : sizes_ok evs → 0 <= total_size evs.
Proof. induction 1; simpl; unfold event_size in *; lia. Qed.

Lemma total_size_app a b : total_size (a ++ b) = total_size a + total_size b.
Proof. induction a; simpl; lia. Qed.

Lemma drop_bytes_one ev rest :
  sizes_ok (ev :: rest) → drop_bytes (event_size ev) (ev :: rest) = rest.
Proof.
  intros H. apply Forall_cons in H as [H _]. simpl. unfold event_size in *.
  rewrite (proj2 (Z.ltb_lt _ _)) by lia. destruct rest as [|x rest]; simpl; [done|].
  by rewrite (proj2 (Z.ltb_ge _ _)) by lia.
Qed.

Lemma drop_bytes_two ev next rest :
  sizes_ok (ev :: next :: rest) →
  drop_bytes (event_size ev + event_size next) (ev :: next :: rest) = rest.
Proof.
  intros H. pose proof (drop_bytes_one next rest) as H1. apply Forall_cons in H as [H Hr].
  specialize (H1 Hr). change (drop_bytes ?n (ev :: ?l)) with
    (if 0 <? n then drop_bytes (n - event_size ev) l else ev :: l).
  apply Forall_cons in Hr as [H2 _]. simpl in H2. simpl in H.
  rewrite (proj2 (Z.ltb_lt _ _)) by (unfold event_size; lia).
  replace (event_size ev + event_size next - event_size ev) with (event_size next) by lia. done.
Qed.

Lemma drop_bytes_sizes n evs : sizes_ok evs → sizes_ok (drop_bytes n evs).
Proof.
  intros H. revert n. induction H as [|ev evs H Hs IH]; intros n; simpl; [constructor|].
  destruct (0 <? n); [apply IH|by constructor].
Qed.

Lemma aligned_consume fd ev rest left first n :
  aligned (Pass fd (ev :: rest) left first) → 0 < left →
  consumed ev rest left first n → 0 < n →
  ∀ fd', aligned (Pass fd' (drop_bytes n (ev :: rest)) (left - n) true).
Proof.
  intros (Hs & Hb & Ha) Hl Hc Hn fd'. cbn [ps_evs ps_left ps_first] in *.
  pose proof (drop_bytes_sizes n _ Hs) as Hd.
  split_and!; [done|cbn [ps_left]; lia|]. cbn [ps_evs ps_left ps_first].
  destruct Hc as [->|[(next & rest' & -> & Hlt & _ & ->)|[->|(-> & _)]]]; [| |right; left; lia|lia].
  - rewrite drop_bytes_one by done.
    destruct Ha as [Ha|[Ha|(_ & x & Hx & Ha)]]; [left|lia|right; left].
    + simpl in Ha. lia.
    + injection Hx as -> _. lia.
  - rewrite drop_bytes_two by done.
    destruct Ha as [Ha|[Ha|(_ & x & Hx & Ha)]]; [left|lia|done]. simpl in Ha. lia.
Qed.

Lemma aligned_hanging fd ev rest left :
  aligned (Pass fd (ev :: rest) left true) → 0 < left → left <= event_size ev →
  rest = [] ∧ left = event_size ev.
Proof.
  intros (Hs & _ & [Ha|[Ha|(? & _)]]) Hl Hle; cbn [ps_evs ps_left ps_first] in *; [|lia|done].
  destruct rest as [|x rest]; simpl in Ha; [split; [done|lia]|].
  apply Forall_cons in Hs as [_ Hs]. apply Forall_cons in Hs as [Hx Hs].
  apply total_size_nonneg in Hs. simpl in Hx. unfold event_size in *. lia.
Qed.

Lemma read_more_aligned {HE : EventLaws} fd ev (s : st) p' s' :
  0 <= ev_len ev → event_size ev <= INOTIFY_READ_BUF_LEN →
  read_more fd [ev] (event_size ev) s = (Ok p', s') → aligned p'.
Proof.
  intros Hev Hle H. unfold read_more in H. cbn [total_size foldr] in H.
  rewrite Z.add_0_r, Z.eqb_refl in H. cbn [negb] in H.
  apply bind_Ok in H as (a & s1 & _ & H). apply bind_Ok in H as (r & s2 & Hr & H).
  apply bind_Ok in H as (e & s3 & _ & H). apply bind_Ok in H as (b & s4 & _ & H).
  apply bind_Ok in H as ([] & s5 & _ & H). apply bind_Ok in H as (e' & s6 & _ & H).
  assert (aligned (Pass fd [ev] (event_size ev) false)) as Hsame.
  { split_and!; [by repeat constructor|done|left; simpl; lia]. }
  destruct r as [e0|[|x more]].
  - destruct (negb (e' =? EINTR)); [done|]. destruct (negb (e' =? -1)).
    + do 3 (apply bind_Ok in H as (? & ? & _ & H)). injection H as <- <-.
      split_and!; [by repeat constructor|simpl; lia|].
      right; right. split; [done|]. by exists ev.
    + apply bind_Ok in H as (? & ? & _ & H). by injection H as <- <-.
  - by apply bind_Ok in H as (? & ? & _ & H).
  - assert (sizes_ok (x :: more)) as Hsz.
    { unfold call in Hr. destruct (sys_read_events _ _ _) as [[e0|evs] w] eqn:Er; [done|].
      injection Hr as -> <-. by eapply read_sizes. }
    destruct (_ <? total_size (x :: more)) eqn:Et; [done|]. bool_facts.
    destruct (negb (e' =? -1)).
    + do 3 (apply bind_Ok in H as (? & ? & _ & H)). injection H as <- <-.
      cbn [total_size foldr] in Et. split_and!; [|cbn [ps_left]; unfold total_size; lia|left].
      * constructor; [done|exact Hsz].
      * cbn [ps_left ps_evs]. change ([ev] ++ x :: more) with (ev :: x :: more). simpl. lia.
    + apply bind_Ok in H as (? & ? & _ & H). by injection H as <- <-.
Qed.

(** The byte count of the read buffer stays in step with its events.  A
    hanging [IN_MOVED_FROM] is always the only event left when more is read,
    and although an interrupted secondary read makes the count one too small,
    the next pass still consumes that event whole and the loop ends. *)
Theorem process_body_aligned {HE : EventLaws} p (s : st) :
  aligned p →
  (∀ p' s', process_body p s = (Ok (inl p'), s') → aligned p') ∧
  (∀ fd' s', 0 < ps_left p →
     processNextInotifyEvent (ps_fd p) (ps_evs p) (ps_left p) (ps_first p) s = (Ok (fd', -1), s') →
     total_size (ps_evs p) = ps_left p ∧ ∃ ev, ps_evs p = [ev]).
Proof.
  intros Ha. destruct p as [fd [|ev rest] left first]; cbn [ps_fd ps_evs ps_left ps_first] in *.
  { split.
    - intros p' s'. unfold process_body; cbn [ps_fd ps_evs ps_left ps_first].
      destruct (0 <? left); [|done]. by intros (? & ? & ? & _)%bind_Ok.
    - done. }
  assert (∀ fd' s', 0 < left →
     processNextInotifyEvent fd (ev :: rest) left first s = (Ok (fd', -1), s') →
     rest = [] ∧ left = event_size ev) as Hh.
  { intros fd' s' Hl H. apply (processNext_returns _ _ _ _ _ _ _ _) in H.
    destruct Ha as (Hs & Hb & Ha). pose proof (Forall_inv Hs) as Hev. simpl in Hev.
    destruct H as [H|[(next & rest' & -> & _ & _ & H)|[H|(_ & -> & Hle)]]]; cbn [snd] in *.
    - unfold event_size in H. lia.
    - apply Forall_cons in Hs as [_ Hs]. pose proof (Forall_inv Hs) as Hx. simpl in Hx.
      unfold event_size in H. lia.
    - done.
    - by apply (aligned_hanging fd ev rest left). }
  split.
  - intros p' s' H. unfold process_body in H; cbn [ps_fd ps_evs ps_left ps_first] in H.
    destruct (0 <? left) eqn:El; [|done]. bool_facts.
    apply bind_Ok in H as ([fd' n] & s1 & Hp & H).
    destruct (0 <? n) eqn:En; bool_facts.
    + injection H as <- <-. apply (processNext_returns _ _ _ _ _ _ _ _) in Hp.
      by eapply aligned_consume.
    + assert (n = -1) as ->.
      { pose proof (processNext_returns _ _ _ _ _ _ _ _ Hp) as Hc.
        destruct Ha as (Hs & _). pose proof (Forall_inv Hs) as Hev. simpl in Hev.
        destruct Hc as [Hc|[(next & rest' & -> & _ & _ & Hc)|[Hc|(Hc & _)]]]; cbn [snd] in Hc;
          [unfold event_size in Hc; lia| |rewrite Hc in En; done|done].
        apply Forall_cons in Hs as [_ Hs]. pose proof (Forall_inv Hs) as Hx. simpl in Hx.
        unfold event_size in Hc. lia. }
      destruct (Hh _ _ El Hp) as [-> ->]. apply bind_Ok in H as (p0 & s2 & Hr & H).
      injection H as <- <-. destruct Ha as (Hs & Hb & _).
      eapply read_more_aligned; [by apply Forall_inv in Hs|done|exact Hr].
  - intros fd' s' Hl H. destruct (Hh _ _ Hl H) as [-> ->]. split; [simpl; lia|by exists ev].
Qed.
End consume.

(** ** Termination *)

(** The events the kernel will still deliver are finite in number: no call adds
    to [supply] and a read takes the events it returns from it. *)
Class InotifySupply (W : Type) `{!InotifySys W} (supply : W → nat) : Prop := {
  sup_add fd p m w : (supply (sys_add_watch fd p m w).2 <= supply w)%nat;
  sup_rm fd wd w : (supply (sys_rm_watch fd wd w).2 <= supply w)%nat;
  sup_init w : (supply (sys_inotify_init w).2 <= supply w)%nat;
  sup_close fd w : (supply (sys_close fd w).2 <= supply w)%nat;
  sup_lstat p w : (supply (sys_lstat p w).2 <= supply w)%nat;
  sup_nftw p w : (supply (sys_nftw p w).2 <= supply w)%nat;
  sup_realloc n w : (supply (sys_realloc n w).2 <= supply w)%nat;
  sup_alloc n w : (supply (sys_alloc n w).2 <= supply w)%nat;
  sup_creat p w : (supply (sys_creat p w).2 <= supply w)%nat;
  sup_misc w : (supply (sys_misc w).2 <= supply w)%nat;
  sup_read fd n w :
    match sys_read_events fd n w with
    | (inr evs, w') => (length evs + supply w' <= supply w)%nat
    | (inl _, w') => (supply w' <= supply w)%nat
    end
}.

Section termination.
Context {L : Libc} {W : Type} `{!InotifySys W} (supply : W → nat) `{!InotifySupply W supply}.
Local Abbreviation st := (pst ivars icall W).
Local Abbreviation P := (M st).

(** The computation ends by itself and takes no event out of thin air. *)
Definition wsafe {A} (n : nat) (m : P A) : Prop :=
  triple (λ s, (supply (world s) <= n)%nat) m (λ _ s, (supply (world s) <= n)%nat)
    (λ h _, h ≠ HFuel).

Lemma wsafe_bind {A B} n (m : P A) (k : A → P B) :
  wsafe n m → (∀ a, wsafe n (k a)) → wsafe n (m ≫= k).
Proof. intros Hm Hk. unfold wsafe. eapply triple_bind; [exact Hm|exact Hk]. Qed.
Lemma wsafe_ret {A} n (a : A) : wsafe n (mret a).
Proof. by intros s. Qed.
Lemma wsafe_skip n : wsafe n skip.
Proof. by intros s. Qed.
Lemma wsafe_undef {A} n : wsafe n (stop HUndef : P A).
Proof. by intros s. Qed.
Lemma wsafe_abort {A} n : wsafe n (stop HAbort : P A).
Proof. by intros s. Qed.
Lemma wsafe_when n b m : wsafe n m → wsafe n (when b m).
Proof. destruct b; [done|intros _; apply wsafe_skip]. Qed.
Lemma wsafe_var {A} n (f : ivars → A) : wsafe n (var f).
Proof. by intros s. Qed.
Lemma wsafe_get_vars n : wsafe n get_vars.
Proof. by intros s. Qed.
Lemma wsafe_get_errno n : wsafe n get_errno.
Proof. by intros s. Qed.
Lemma wsafe_world n : wsafe n (gets world).
Proof. by intros s. Qed.
Lemma wsafe_upd n f : wsafe n (upd f).
Proof. by intros s. Qed.
Lemma wsafe_printf n t : wsafe n (printf t).
Proof. by intros s. Qed.
Lemma wsafe_eprintf n t : wsafe n (eprintf t).
Proof. by intros s. Qed.
Lemma wsafe_put_errno n e : wsafe n (put_errno e).
Proof. by intros s. Qed.
Lemma wsafe_exit {A} n z : wsafe n (p_exit z : P A).
Proof. by intros s. Qed.
Lemma wsafe_perror_exit {A} n t : wsafe n (perror_exit t : P A).
Proof. by intros s. Qed.
Lemma wsafe_log n vb t : wsafe n (logMessage vb t).
Proof.
  intros s Hs. destruct (logMessage_run vb t s) as (s' & -> & Q).
  by rewrite (becomes_world _ _ _ Q).
Qed.
Lemma wsafe_call {A} n c (f : W → (Z + A) * W) :
  (∀ w, (supply (f w).2 <= supply w)%nat) → wsafe n (call c f).
Proof.
  intros Hf s Hs. unfold call. specialize (Hf (world s)).
  destruct (f (world s)) as [[e|a] w]; simpl in *; lia.
Qed.
Lemma wsafe_for_each {A} n (l : list A) body :
  (∀ x, wsafe n (body x)) → wsafe n (for_each l body).
Proof. intros Hb. induction l; simpl; [apply wsafe_skip|by apply wsafe_bind]. Qed.

Lemma wsafe_fprintf_log n t : wsafe n (fprintf_log t).
Proof. apply wsafe_bind; [apply wsafe_var|intros [|]; [apply wsafe_upd|apply wsafe_undef]]. Qed.
Lemma wsafe_slot_at n j : wsafe n (slot_at j).
Proof.
  apply wsafe_bind; [apply wsafe_var|intros c].
  destruct (if 0 <=? j then c !! Z.to_nat j else None); [apply wsafe_ret|apply wsafe_undef].
Qed.

Create HintDb wsafe discriminated.
Hint Resolve wsafe_ret wsafe_skip wsafe_undef wsafe_abort wsafe_var wsafe_get_vars wsafe_get_errno
  wsafe_world wsafe_upd wsafe_printf wsafe_eprintf wsafe_put_errno wsafe_exit wsafe_perror_exit
  wsafe_log wsafe_fprintf_log wsafe_slot_at : wsafe.

Ltac wsafe :=
  repeat first
    [ progress intros
    | solve [eauto 3 with wsafe]
    | match goal with
      | |- wsafe _ (_ ≫= _) => apply wsafe_bind
      | |- wsafe _ (when _ _) => apply wsafe_when
      | |- wsafe _ (for_each _ _) => apply wsafe_for_each
      | |- wsafe _ (call _ _) => apply wsafe_call; intros;
          first [apply sup_add|apply sup_rm|apply sup_init|apply sup_close|apply sup_lstat
                |apply sup_realloc|apply sup_alloc|apply sup_creat|apply sup_misc]
      | |- wsafe _ (match ?x with _ => _ end) => destruct x eqn:?
      | |- wsafe _ (if ?x then _ else _) => destruct x eqn:?
      end ].

Lemma wsafe_mark n j : wsafe n (markCacheSlotEmpty j).
Proof. unfold markCacheSlotEmpty, set_slot. wsafe. Qed.

Lemma wsafe_mark_from n j k : wsafe n (mark_from j k).
Proof.
  revert j. induction k; intros j; simpl; [apply wsafe_skip|].
  apply wsafe_bind; [apply wsafe_mark|done].
Qed.

Hint Resolve wsafe_mark wsafe_mark_from : wsafe.

Lemma wsafe_addWatch n wd p : wsafe n (addWatchToCache wd p).
Proof. unfold addWatchToCache, findEmptyCacheSlot, set_slot. wsafe. Qed.

Lemma wsafe_isRoot n p : wsafe n (isRootDirPath p).
Proof. by intros s. Qed.
Lemma wsafe_findWatch n wd : wsafe n (findWatch wd).
Proof. by intros s. Qed.
Lemma wsafe_inCache n p : wsafe n (pathnameInCache p).
Proof. by intros s. Qed.
Lemma wsafe_findRoot n p : wsafe n (findRootDirPath p).
Proof. by intros s. Qed.

Hint Resolve wsafe_addWatch wsafe_isRoot wsafe_findWatch wsafe_inCache wsafe_findRoot : wsafe.

Lemma wsafe_traverse n p d : wsafe n (traverseTree p d).
Proof. unfold traverseTree. wsafe. Qed.

Lemma wsafe_watchSubtree n fd p : wsafe n (watchSubtree fd p).
Proof.
  pose proof wsafe_traverse. unfold watchSubtree, watchDir.
  apply wsafe_bind; [|wsafe]. apply wsafe_bind; [wsafe|intros _].
  apply wsafe_bind; [wsafe|intros _].
  apply wsafe_bind; [apply wsafe_call; intros w|intros [e|[vis err]]; wsafe].
  pose proof (sup_nftw p w). by destruct (sys_nftw p w).
Qed.

Hint Resolve wsafe_watchSubtree : wsafe.

Lemma wsafe_reinit n fd : wsafe n (reinitialize fd).
Proof. unfold reinitialize, close_fd, freeCache. wsafe. Qed.

Lemma wsafe_zap n fd p : wsafe n (zapSubtree fd p).
Proof.
  unfold zapSubtree, strdup. apply wsafe_bind; [wsafe|intros _]. apply wsafe_bind; [wsafe|intros pn].
  apply wsafe_bind; [wsafe|intros c]. destruct pn as [pn|]; [|destruct (existsb _ _); wsafe].
  generalize 0 at 2 as cnt. generalize 0 as j.
  induction c as [|w c IH]; intros j cnt; cbn [zap_slots]; wsafe.
Qed.

Lemma wsafe_rewrite n a b c d : wsafe n (rewriteCachedPaths a b c d).
Proof.
  unfold rewriteCachedPaths. apply wsafe_bind; [wsafe|intros _]. apply wsafe_bind; [wsafe|intros l].
  generalize 0 as j. induction l as [|w l IH]; intros j; cbn [rewrite_slots]; unfold set_slot; wsafe.
Qed.

Lemma wsafe_zapRoot n p : wsafe n (zapRootDirPath p).
Proof. unfold zapRootDirPath. wsafe. Qed.

Lemma wsafe_dump n : wsafe n dumpCacheToLog.
Proof.
  unfold dumpCacheToLog. apply wsafe_bind; [wsafe|intros c]. apply wsafe_bind; [|wsafe].
  generalize 0 as j. induction c; intros j; simpl; wsafe.
Qed.

Lemma wsafe_check n : wsafe n checkCacheConsistency.
Proof.
  unfold checkCacheConsistency. apply wsafe_bind; [wsafe|intros c]. apply wsafe_bind; [|wsafe].
  generalize 0 at 2 as k. generalize 0 as j. generalize (@None bool) as sb.
  induction c as [|w c IH]; intros sb j k; simpl; wsafe.
Qed.

Hint Resolve wsafe_reinit wsafe_zap wsafe_rewrite wsafe_zapRoot wsafe_dump wsafe_check : wsafe.

Lemma wsafe_findWatchChecked n wd : wsafe n (findWatchChecked wd).
Proof. unfold findWatchChecked, createStopFileAndAbort. wsafe. Qed.

Hint Resolve wsafe_findWatchChecked : wsafe.

Lemma wsafe_processNext n fd buf b f : wsafe n (processNextInotifyEvent fd buf b f).
Proof.
  unfold processNextInotifyEvent, displayInotifyEvent, dispatch, on_create, on_delete_self,
    on_moved_from, moved_within, moved_out, on_overflow, on_unmount, on_move_self, next_event,
    finish_event, start_over, slot_path, clear_slot, name_of.
  wsafe.
Qed.

(** How much work is left: two passes per event, and one retry. *)
Definition work (p : pass) (s : st) : nat :=
  2 * (length (ps_evs p) + supply (world s)) + (if ps_first p then 1 else 0).

Lemma drop_bytes_shorter n ev rest :
  0 < n → (length (drop_bytes n (ev :: rest)) <= length rest)%nat.
Proof.
  intros Hn. cbn [drop_bytes]. rewrite (proj2 (Z.ltb_lt _ _)) by lia.
  generalize (n - event_size ev) as m. induction rest as [|x rest IH]; intros m; simpl; [lia|].
  destruct (0 <? m); [|simpl; lia]. specialize (IH (m - event_size x)). lia.
Qed.

Lemma read_more_work {HE : EventLaws} fd evs left (s : st) :
  sizes_ok evs →
  match read_more fd evs left s with
  | (Ok p', s') => sizes_ok (ps_evs p') ∧ ps_first p' = false ∧
      (length (ps_evs p') + supply (world s') <= length evs + supply (world s))%nat
  | (Halt h, _) => h ≠ HFuel
  end.
Proof.
  intros Hs. unfold read_more. destruct (negb _); [done|].
  assert (∀ c (s : st), ∃ a s', call c sys_misc s = (Ok a, s') ∧
    (supply (world s') <= supply (world s))%nat) as Hmisc.
  { intros c s0. unfold call. pose proof (sup_misc (world s0)).
    destruct (sys_misc (world s0)) as [[e|a] w]; do 2 eexists; by (split; [reflexivity|]). }
  destruct (Hmisc (IUalarm 2000) s) as (a & s1 & H1 & L1). erewrite run_bind by exact H1.
  set (room := INOTIFY_READ_BUF_LEN - left). cbv zeta.
  pose proof (sup_read fd room (world s1)) as Hr.
  destruct (sys_read_events fd room (world s1)) as [[e|more] w2] eqn:Er;
    (erewrite run_bind by (unfold call; rewrite Er; reflexivity));
    (erewrite run_bind by reflexivity);
    (match goal with |- context [(call (IUalarm 0) sys_misc ≫= _) ?s2] =>
       destruct (Hmisc (IUalarm 0) s2) as (b & s3 & H3 & L3) end);
    (erewrite run_bind by exact H3); simpl in L3;
    (erewrite run_bind by reflexivity); (erewrite run_bind by reflexivity); cbv beta iota;
    cbn [world pr errno set_errno].
  - destruct (negb _); [done|]. destruct (negb _).
    + erewrite run_bind by reflexivity. erewrite run_bind by apply var_run.
      log_step s4 B4. apply becomes_world in B4. simpl in *. rewrite B4.
      split_and!; [done|done|lia].
    + log_step s4 B4. apply becomes_world in B4. simpl in *. rewrite B4.
      split_and!; [done|done|lia].
  - destruct more as [|x more]; [done|]. destruct (_ <? _); [done|]. destruct (negb _).
    + erewrite run_bind by reflexivity. erewrite run_bind by apply var_run.
      log_step s4 B4. apply becomes_world in B4. simpl in *. rewrite B4.
      split_and!; [|done|rewrite length_app; simpl; lia].
      apply Forall_app. split; [done|]. by eapply read_sizes.
    + log_step s4 B4. apply becomes_world in B4. simpl in *. rewrite B4.
      split_and!; [done|done|lia].
Qed.

Lemma process_body_work {HE : EventLaws} p (s : st) :
  sizes_ok (ps_evs p) →
  match process_body p s with
  | (Ok (inl p'), s') => sizes_ok (ps_evs p') ∧ (work p' s' < work p s)%nat
  | (Ok (inr _), _) => True
  | (Halt h, _) => h ≠ HFuel
  end.
Proof.
  destruct p as [fd evs left first]. unfold process_body, work.
  cbn [ps_fd ps_evs ps_left ps_first]. intros Hs. destruct (0 <? left); [|done].
  pose proof (wsafe_processNext (supply (world s)) fd evs left first s (le_n _)) as Hw.
  destruct (processNextInotifyEvent fd evs left first s) as [[[fd' n]|h] s1] eqn:Ep.
  2:{ by rewrite (run_bind_halt _ _ _ _ _ Ep). }
  rewrite (run_bind _ _ _ _ _ Ep). cbv beta iota.
  destruct evs as [|ev rest]; [done|].
  destruct (0 <? n) eqn:En; bool_facts.
  - simpl. split; [by apply (drop_bytes_sizes n (ev :: rest))|].
    pose proof (drop_bytes_shorter n ev rest En) as Hd. simpl in Hd. destruct first; lia.
  - assert (first = true) as ->.
    { apply (processNext_returns _ _ _ _ _ _ _ _) in Ep.
      pose proof (Forall_inv Hs) as Hev. simpl in Hev.
      destruct Ep as [Ec|[(next & rest' & -> & _ & _ & Ec)|[Ec|(_ & ? & _)]]]; cbn [snd] in *.
      - unfold event_size in Ec. lia.
      - apply Forall_cons in Hs as [_ Hs]. pose proof (Forall_inv Hs) as Hx. simpl in Hx.
        unfold event_size in Ec. lia.
      - rewrite Ec in En. done.
      - done. }
    pose proof (read_more_work fd' (ev :: rest) left s1 Hs) as Hr.
    destruct (read_more fd' (ev :: rest) left s1) as [[p'|h] s2] eqn:Er.
    + rewrite (run_bind _ _ _ _ _ Er). destruct Hr as (Hs' & Hf & Hle). simpl in *.
      rewrite Hf. split; [done|lia].
    + by rewrite (run_bind_halt _ _ _ _ _ Er).
Qed.

Lemma process_loop {HE : EventLaws} fuel p (s : st) :
  sizes_ok (ps_evs p) → (work p s < fuel)%nat →
  (loop fuel process_body p s).1 ≠ Halt HFuel.
Proof.
  revert p s. induction fuel as [|fuel IH]; intros p s Hs Hw; [lia|]. cbn [loop].
  pose proof (process_body_work p s Hs) as Hb.
  destruct (process_body p s) as [[[p'|fd]|h] s1] eqn:Eb.
  - rewrite (run_bind _ _ _ _ _ Eb). destruct Hb. apply IH; [done|lia].
  - by rewrite (run_bind _ _ _ _ _ Eb).
  - rewrite (run_bind_halt _ _ _ _ _ Eb). simpl. congruence.
Qed.

(** C38: a round of event handling terminates: when the kernel has finitely
    many events left to deliver, the loop over the buffer, with its secondary
    reads and rebuilds of the cache, ends after at most two passes per
    event. *)
Theorem processInotifyEvents_terminates {HE : EventLaws} fuel fd (s : st) :
  (2 * supply (world s) + 1 < fuel)%nat →
  (processInotifyEvents fuel fd s).1 ≠ Halt HFuel.
Proof.
  intros Hf. unfold processInotifyEvents.
  pose proof (sup_misc (world s)) as Hm.
  destruct (sys_misc (world s)) as [[e|a] w] eqn:Em;
    (erewrite run_bind by (unfold call; rewrite Em; reflexivity)); cbv beta iota; [by intros [=]|].
  erewrite run_bind by apply var_run. cbv zeta. simpl in Hm.
  set (cnt := if 0 <? _ then _ else _). pose proof (sup_read fd cnt w) as Hr.
  destruct (sys_read_events fd cnt w) as [[e|evs] w2] eqn:Er;
    (erewrite run_bind by (unfold call; cbn [world]; rewrite Er; reflexivity)); cbv beta iota;
    [by intros [=]|].
  destruct evs as [|ev evs]; [by intros [=]|].
  destruct (INOTIFY_READ_BUF_LEN <? total_size (ev :: evs)); [by intros [=]|].
  erewrite run_bind by reflexivity. erewrite run_bind by apply var_run.
  log_step s3 B3. apply becomes_world in B3. apply process_loop.
  - by eapply read_sizes.
  - unfold work. cbn [ps_evs ps_first]. rewrite B3. simpl in *. lia.
Qed.
End termination.

(** ** Renames inside the monitored trees *)

Lemma find_slot_unique c i w :
  unique_wds c → c !! i = Some w → live w = true →
  find_slot (λ x, w_wd x =? w_wd w) 0 c = Z.of_nat i.
Proof.
  intros Hu Hi Hl.
  destruct (Z_lt_le_dec (find_slot (λ x, w_wd x =? w_wd w) 0 c) 0) as [Hn|Hn].
  - apply find_slot_none in Hn; [|done]. rewrite Forall_lookup in Hn.
    specialize (Hn i w Hi). simpl in Hn. lia.
  - apply find_slot_index in Hn as (k & x & -> & Hk & Hx). bool_facts. f_equal.
    symmetry. by eapply Hu.
Qed.

Section rename.
Context {L : Libc} {W : Type} `{!InotifySys W}.
Local Abbreviation st := (pst ivars icall W).
Local Abbreviation cache s := (wlCache (vars s)).

Lemma findWatchChecked_run c i w (s : st) :
  cache s = c → unique_wds c → c !! i = Some w → live w = true →
  findWatchChecked (w_wd w) s = (Ok (Z.of_nat i), s).
Proof.
  intros Hc Hu Hi Hl. unfold findWatchChecked.
  rewrite (run_bind _ _ _ _ _ (findWatch_run _ _)), Hc, (find_slot_unique c i w) by done.
  by rewrite (proj2 (Z.leb_le _ _)) by lia.
Qed.

Lemma slot_path_run (i : nat) w (s : st) :
  cache s !! i = Some w → slot_path (Some (Z.of_nat i)) s = (Ok (w_path w), s).
Proof. intros H. unfold slot_path. by erewrite run_bind by (by apply slot_at_run). Qed.

Lemma name_of_run ev (s : st) : 0 < ev_len ev → name_of ev s = (Ok (ev_name ev), s).
Proof. intros H. unfold name_of. by rewrite (proj2 (Z.ltb_lt _ _)). Qed.

Lemma finish_run fd n (s : st) :
  checkCache (cfg (vars s)) = false → dumpCache (cfg (vars s)) = false →
  finish_event fd n s = (Ok (fd, n), s).
Proof.
  intros H1 H2. unfold finish_event. erewrite run_bind by apply var_run. by rewrite H1, H2.
Qed.

Lemma when_log_run b vb t (s : st) :
  ∃ s', when b (logMessage vb t) s = (Ok tt, s') ∧ quiet s s'.
Proof. destruct b; [apply logMessage_run|]. exists s. split; [done|apply quiet_refl]. Qed.

Lemma quiet_trans (s s' s'' : st) : quiet s s' → quiet s' s'' → quiet s s''.
Proof. apply becomes_quiet. Qed.

Lemma display_run ev (s : st) :
  ∃ s', displayInotifyEvent ev s = (Ok tt, s') ∧ quiet s s'.
Proof.
  unfold displayInotifyEvent. log_step s1 B1.
  match goal with |- context [(when ?b (logMessage ?v ?t) ≫= _) ?s0] =>
    destruct (when_log_run b v t s0) as (s2 & H2 & B2) end.
  erewrite run_bind by exact H2. log_step s3 B3.
  assert (∀ l (s0 : st), ∃ s', for_each l (λ b, when (has (ev_mask ev) b.1) (logMessage VB_NOISY b.2)) s0
    = (Ok tt, s') ∧ quiet s0 s') as Hfor.
  { induction l as [|x l IH]; intros s0; simpl; [exists s0; split; [done|apply quiet_refl]|].
    destruct (when_log_run (has (ev_mask ev) x.1) VB_NOISY x.2 s0) as (sa & Ha & Qa).
    erewrite run_bind by exact Ha. destruct (IH sa) as (sb & Hb & Qb).
    exists sb. split; [done|by eapply quiet_trans]. }
  destruct (Hfor mask_names s3) as (s4 & H4 & B4). erewrite run_bind by exact H4.
  log_step s5 B5.
  match goal with |- context [when ?b (logMessage ?v ?t) s5] =>
    destruct (when_log_run b v t s5) as (s6 & H6 & B6) end.
  exists s6. split; [exact H6|]. eauto 8 using quiet_trans.
Qed.

Lemma quiet_cache (s s' : st) : quiet s s' → cache s' = cache s.
Proof. apply becomes_cache. Qed.

Lemma quiet_cfg (s s' : st) : quiet s s' → cfg (vars s') = cfg (vars s).
Proof. by intros (p & l & -> & _). Qed.

(** When a directory is renamed inside the monitored trees and both
    events are in the buffer, they are consumed together without touching the
    kernel's watches: the cached path of the directory and of everything
    below it gets the new prefix, and every watch descriptor keeps its
    slot. *)
Theorem rename_within_spec fd ev next rest bufSize firstTry i j d1 d2 (s : st) :
  cache_wf (cache s) →
  checkCache (cfg (vars s)) = false → dumpCache (cfg (vars s)) = false →
  cache s !! i = Some (Watch (ev_wd ev) d1) → cache s !! j = Some (Watch (ev_wd next) d2) →
  0 <= ev_wd ev → 0 <= ev_wd next → 0 < ev_len ev → 0 < ev_len next →
  ev_mask ev = Z.lor IN_MOVED_FROM IN_ISDIR → pairs_with ev next = true →
  event_size ev < bufSize →
  ∃ s', processNextInotifyEvent fd (ev :: next :: rest) bufSize firstTry s =
      (Ok (fd, event_size ev + event_size next), s') ∧
    trace s' = trace s ∧
    cache s' = map (moved (snprintf PATH_MAX (d1 +:+ "/" +:+ ev_name ev))
                          (snprintf PATH_MAX (d2 +:+ "/" +:+ ev_name next))) (cache s).
Proof.
  intros Hwf Hck Hdp Hi Hj Hw1 Hw2 Hl1 Hl2 Hm Hp Hb.
  unfold processNextInotifyEvent.
  destruct (display_run ev s) as (s1 & H1 & Q1). erewrite run_bind by exact H1.
  pose proof (quiet_cache _ _ Q1) as Hc1. pose proof (quiet_cfg _ _ Q1) as Hf1.
  rewrite Hm. change (has (Z.lor IN_MOVED_FROM IN_ISDIR) IN_IGNORED) with false.
  rewrite (proj2 (Z.eqb_neq _ _)) by lia. cbn [negb andb].
  destruct Hwf as (_ & Hu & _).
  rewrite (run_bind _ _ _ _ _ (findWatchChecked_run _ i (Watch (ev_wd ev) d1) s1 Hc1 Hu Hi
    ltac:(unfold live; simpl; lia))).
  rewrite (proj2 (Z.eqb_neq _ _)) by lia.
  unfold dispatch. rewrite Hm.
  change (has (Z.lor IN_MOVED_FROM IN_ISDIR) IN_ISDIR) with true.
  change (has (Z.lor IN_MOVED_FROM IN_ISDIR) (Z.lor IN_CREATE IN_MOVED_TO)) with false.
  change (has (Z.lor IN_MOVED_FROM IN_ISDIR) IN_DELETE_SELF) with false.
  rewrite Z.land_diag, Z.eqb_refl. cbn [andb].
  unfold on_moved_from, next_event. rewrite (proj2 (Z.ltb_lt _ _)) by lia.
  erewrite run_bind by reflexivity. cbv beta iota. rewrite Hp. unfold moved_within.
  rewrite (run_bind _ _ _ _ _ (findWatchChecked_run _ j (Watch (ev_wd next) d2) s1 Hc1 Hu Hj
    ltac:(unfold live; simpl; lia))).
  rewrite (proj2 (Z.eqb_neq _ _)) by lia.
  rewrite (run_bind _ _ _ _ _ (slot_path_run i (Watch (ev_wd ev) d1) s1 ltac:(by rewrite Hc1))).
  rewrite (run_bind _ _ _ _ _ (name_of_run ev s1 Hl1)).
  rewrite (run_bind _ _ _ _ _ (slot_path_run j (Watch (ev_wd next) d2) s1 ltac:(by rewrite Hc1))).
  rewrite (run_bind _ _ _ _ _ (name_of_run next s1 Hl2)). cbn [w_path].
  destruct (rewriteCachedPaths_run d1 (ev_name ev) d2 (ev_name next) s1) as (s2 & H2 & B2).
  rewrite (run_bind _ _ _ _ _ H2).
  assert (cfg (vars s2) = cfg (vars s)) as Hf2
    by (rewrite <- Hf1; by destruct B2 as (p & l & -> & _)).
  rewrite finish_run by (by rewrite Hf2). exists s2. split_and!; [done| |].
  - by rewrite (becomes_trace _ _ _ B2), (becomes_trace _ _ _ Q1).
  - by rewrite (becomes_cache _ _ _ B2), Hc1.
Qed.
End rename.
