(* ===== verification/InotifyMain.v ===== *)
(** The interactive commands and the main loop of [inotify/inotify_dtree.c]. *)
From S2P Require Import Prelude CLib ErrorFunctions Proc Inotify InotifyCache InotifyEvents.
Local Open Scope Z_scope.

Definition MAX_LINE : Z := 100.

(** [sscanf(line, "%c %s\n", &cmd, arg)] of a non-empty line: the argument is
    the run of non-blank characters after the first character and any blanks;
    [None] when there is none, and [arg] is then not written. *)
Fixpoint word (s : string) : string :=
  match s with
  | EmptyString => ""
  | String c s => if isspace c then "" else String c (word s)
  end.

Definition scan_arg (rest : string) : option string :=
  match skip_spaces rest with
  | EmptyString => None
  | s => Some (word s)
  end.

Section commands.
Context {L : Libc} {W : Type} `{!InotifySys W}.
Local Abbreviation P := (M (pst ivars icall W)).

Definition command_list : list string :=
  ["Commands:"; "0        Rebuild cache"; "a path   Add/refresh pathname watches and cache";
   "c        Verify cached pathnames"; "d        Toggle cache dumping";
   "l        List cached pathnames"; "q        Quit";
   "v [n]    Toggle/set verbose level for messages to stderr";
   "             0 = no messages"; "             1 = basic messages";
   "             2 = verbose messages"; "             3 = basic and verbose messages";
   "w file   Write directory list to file"; "x        Toggle cache checking";
   "z path   Zap pathname and watches from cache"].

Definition displayCommandList : P unit := for_each command_list (λ t, printf (t +:+ nl)).

Fixpoint verify_slots (cmd : ascii) (j : Z) (l : list watch) (cnt failures : Z) : P (Z * Z) :=
  match l with
  | [] => mret (cnt, failures)
  | w :: l =>
      if live w then
        r ← call (ILstat (w_path w)) (sys_lstat (w_path w));
        let where_ := "[slot = " +:+ fmt_d j +:+ "; wd = " +:+ fmt_d (w_wd w) +:+ "] " +:+ w_path w in
        match r with
        | inl e =>
            when (bool_decide (cmd = "c"%char))
              (logMessage VB_BASIC ("stat: " +:+ where_ +:+ ": " +:+ strerror e +:+ nl));;
            verify_slots cmd (j + 1) l cnt (failures + 1)
        | inr x =>
            if negb (st_isdir x) then
              when (bool_decide (cmd = "c"%char)) (logMessage 0 (w_path w +:+ " is not a directory" +:+ nl));;
              p_exit EXIT_FAILURE
            else
              when (bool_decide (cmd = "c"%char)) (logMessage VB_NOISY ("OK: " +:+ where_ +:+ nl));;
              verify_slots cmd (j + 1) l (cnt + 1) failures
        end
      else verify_slots cmd (j + 1) l cnt failures
  end.

Definition checkAllCachedPathnamesExist (cmd : ascii) : P unit :=
  c ← var wlCache;
  r ← verify_slots cmd 0 c 0 0;
  logMessage 0 ("Successfully verified " +:+ fmt_d r.1 +:+ " entries" +:+ nl);;
  logMessage 0 ("Failures: " +:+ fmt_d r.2 +:+ nl).

Fixpoint list_slots (j : Z) (l : list watch) : P unit :=
  match l with
  | [] => skip
  | w :: l =>
      when (live w) (logMessage 0 (fmt_d j +:+ ": " +:+ fmt_d (w_wd w) +:+ " " +:+ w_path w +:+ nl));;
      list_slots (j + 1) l
  end.

Fixpoint write_slots (file : string) (l : list watch) : P unit :=
  match l with
  | [] => skip
  | w :: l =>
      when (live w) (call (IFputs file (w_path w +:+ nl)) sys_misc;; skip);;
      write_slots file l
  end.

(** A use of [arg], which [sscanf] may not have written. *)
Definition need (arg : option string) : P string :=
  match arg with Some a => mret a | None => stop HUndef end.

Definition on_off (b : bool) : string := if b then "on" else "off".

Definition cmd_add (inotifyFd : Z) (arg : option string) : P unit :=
  a ← need arg;
  cnt ← zapSubtree inotifyFd a;
  (if cnt =? 0 then logMessage VB_BASIC ("Adding new subtree: " +:+ a +:+ nl)
   else logMessage VB_BASIC ("Zapped: " +:+ a +:+ ", " +:+ fmt_d cnt +:+ " entries" +:+ nl));;
  watchSubtree inotifyFd a.

Definition cmd_verbose (arg : option string) : P unit :=
  c ← var cfg;
  let set v := Config v c.(checkCache) c.(dumpCache) c.(readBufferSize) c.(stopFile)
                 c.(abortOnCacheProblem) in
  match arg with
  | Some a => upd (set_cfg (set (atoi a)))
  | None =>
      let v := if c.(verboseMask) =? 0 then 1 else 0 in
      upd (set_cfg (set v));; printf (on_off (negb (v =? 0)) +:+ nl)
  end.

Definition cmd_dump : P unit :=
  c ← var cfg;
  let b := negb c.(dumpCache) in
  upd (set_cfg (Config c.(verboseMask) c.(checkCache) b c.(readBufferSize) c.(stopFile)
    c.(abortOnCacheProblem)));;
  printf (on_off b +:+ nl).

Definition cmd_check : P unit :=
  c ← var cfg;
  let b := negb c.(checkCache) in
  upd (set_cfg (Config c.(verboseMask) b c.(dumpCache) c.(readBufferSize) c.(stopFile)
    c.(abortOnCacheProblem)));;
  printf (on_off b +:+ nl).

Definition cmd_write (arg : option string) : P unit :=
  a ← need arg;
  r ← call (IFopen a) sys_misc;
  match r with
  | inl _ => perror "fopen";; stop HUndef          (* goes on with a null stream *)
  | inr _ =>
      c ← var wlCache;
      write_slots a c;;
      call (IFclose a) sys_misc;; skip
  end.

Definition cmd_zap (inotifyFd : Z) (arg : option string) : P unit :=
  a ← need arg;
  cnt ← zapSubtree inotifyFd a;
  logMessage VB_BASIC ("Zapped: " +:+ a +:+ ", " +:+ fmt_d cnt +:+ " entries" +:+ nl).

Definition run_command (inotifyFd : Z) (cmd : ascii) (arg : option string) : P Z :=
  if decide (cmd = "a"%char) then cmd_add inotifyFd arg;; mret inotifyFd
  else if decide (cmd = "c"%char ∨ cmd = "C"%char) then
    checkAllCachedPathnamesExist cmd;; mret inotifyFd
  else if decide (cmd = "l"%char) then
    c ← var wlCache;
    list_slots 0 c;;
    logMessage VB_BASIC ("Total entries: " +:+ fmt_d (count_live c) +:+ nl);;
    mret inotifyFd
  else if decide (cmd = "q"%char) then p_exit EXIT_SUCCESS
  else if decide (cmd = "v"%char) then cmd_verbose arg;; mret inotifyFd
  else if decide (cmd = "d"%char) then cmd_dump;; mret inotifyFd
  else if decide (cmd = "x"%char) then cmd_check;; mret inotifyFd
  else if decide (cmd = "w"%char) then cmd_write arg;; mret inotifyFd
  else if decide (cmd = "z"%char) then cmd_zap inotifyFd arg;; mret inotifyFd
  else if decide (cmd = "0"%char) then close_fd inotifyFd;; reinitialize (-1)
  else
    printf ("Unrecognized command: " +:+ String cmd nl);;
    displayCommandList;;
    mret inotifyFd.

(** The result is the inotify descriptor, which command "0" replaces. *)
Definition executeCommand (inotifyFd : Z) : P Z :=
  r ← call (IStdin MAX_LINE) (sys_read_stdin MAX_LINE);
  match r with
  | inl _ | inr EmptyString => printf ("bye!" +:+ nl);; p_exit EXIT_FAILURE
  | inr bytes =>
      (* the last byte becomes the terminator *)
      let line := before (take_str (String.length bytes - 1) bytes) (Ascii.ascii_of_nat 0) in
      match line with
      | EmptyString => mret inotifyFd
      | String cmd rest => run_command inotifyFd cmd (scan_arg rest)
      end
  end.

(** ** [main] *)

Definition usageError {A} (pname : string) : P A :=
  eprintf ("Usage: " +:+ pname +:+ " [options] directory-path..." +:+ nl +:+ nl);;
  eprintf ("    -v lvl   Display logging information" +:+ nl);;
  eprintf ("    -l file  Send logging information to a file" +:+ nl);;
  eprintf ("    -x       Check cache consistency after each operation" +:+ nl);;
  eprintf ("    -d       Dump cache to log after every operation" +:+ nl);;
  eprintf ("    -b size  Set buffer size for read() from inotify FD" +:+ nl);;
  eprintf ("    -a file  Abort when cache inconsistency detected, and create 'stop' file" +:+ nl);;
  p_exit EXIT_FAILURE.

(** One option, as [getopt] delivers it with its argument. *)
Definition set_option (pname : string) (o : ascii * string) : P unit :=
  let '(opt, optarg) := o in
  c ← var cfg;
  if decide (opt = "a"%char) then
    upd (set_cfg (Config c.(verboseMask) c.(checkCache) c.(dumpCache) c.(readBufferSize) (Some optarg) true))
  else if decide (opt = "x"%char) then
    upd (set_cfg (Config c.(verboseMask) true c.(dumpCache) c.(readBufferSize) c.(stopFile) c.(abortOnCacheProblem)))
  else if decide (opt = "d"%char) then
    upd (set_cfg (Config c.(verboseMask) c.(checkCache) true c.(readBufferSize) c.(stopFile) c.(abortOnCacheProblem)))
  else if decide (opt = "v"%char) then
    upd (set_cfg (Config (atoi optarg) c.(checkCache) c.(dumpCache) c.(readBufferSize) c.(stopFile) c.(abortOnCacheProblem)))
  else if decide (opt = "b"%char) then
    upd (set_cfg (Config c.(verboseMask) c.(checkCache) c.(dumpCache) (atoi optarg) c.(stopFile) c.(abortOnCacheProblem)))
  else if decide (opt = "l"%char) then
    r ← call (IFopen optarg) sys_misc;
    match r with
    | inl _ => perror_exit "fopen"
    | inr _ => upd (set_log (Some ""))
    end
  else usageError pname.

Definition prompt (pname : string) : P unit :=
  printf (pname +:+ "> ");; lift (fflush_stdout io_errno).

(** One turn of the main loop.  [FD_ISSET] is asked about the descriptor in
    force after the command, of the set [select] filled for the old one. *)
Definition main_body (fuel : nat) (pname : string) (inotifyFd : Z) : P (Z + unit) :=
  r ← call (ISelect (inotifyFd + 1)) (sys_select (inotifyFd + 1));
  match r with
  | inl _ => perror_exit "select"
  | inr (stdin_ready, events_ready) =>
      fd ← (if (stdin_ready : bool)
            then fd ← executeCommand inotifyFd; prompt pname;; mret fd
            else mret inotifyFd);
      fd ← (if (events_ready : bool) && (fd =? inotifyFd)
            then processInotifyEvents fuel fd else mret fd);
      mret (inl fd)
  end.

(** [options] is what [getopt] returns in turn, [dirs] the other arguments. *)
Definition main (fuel : nat) (pname : string) (options : list (ascii * string))
    (dirs : list string) : P unit :=
  upd (set_cfg (Config 0 false false 0 None false));;
  for_each options (set_option pname);;
  match dirs with
  | [] => usageError pname
  | _ =>
      copyRootDirPaths dirs;;
      inotifyFd ← reinitialize (-1);
      prompt pname;;
      loop fuel (main_body fuel pname) inotifyFd
  end.
End commands.

(** ** The events that take a directory out of the cache *)

(** The events the kernel sends, with a watch descriptor, when the directory was
    deleted or its filesystem unmounted. *)
Definition reports_gone (ev : event) : Prop :=
  0 <= ev_wd ev ∧
  (ev_mask ev = IN_DELETE_SELF ∨ ev_mask ev = Z.lor IN_DELETE_SELF IN_ISDIR ∨
   ev_mask ev = IN_UNMOUNT ∨ ev_mask ev = Z.lor IN_UNMOUNT IN_ISDIR).

Section gone.
Context {L : Libc} {W : Type} `{!InotifySys W}.
Local Abbreviation st := (pst ivars icall W).
Local Abbreviation cache s := (wlCache (vars s)).

(** [m] does not change the cache when it is [c]. *)
Local Abbreviation kept c := (preserves (λ s : st, cache s = c)).

Lemma kept_call c {A} i (f : W → (Z + A) * W) : kept c (call i f).
Proof. intros s Hs. unfold call. by destruct (f (world s)) as [[e|a] w]. Qed.
Lemma kept_var c {A} (f : ivars → A) : kept c (var f).
Proof. by intros s. Qed.
Lemma kept_get_vars c : kept c get_vars.
Proof. by intros s. Qed.
Lemma kept_upd c f : (∀ v, wlCache (f v) = wlCache v) → kept c (upd f).
Proof. intros Hf s <-. apply Hf. Qed.
Lemma kept_lift c {A} (m : M proc A) : kept c (lift m).
Proof.
  intros s Hs. destruct (lift m s) as [r s'] eqn:E. apply lift_same in E as (Hv & _).
  destruct r; by rewrite Hv.
Qed.
Lemma kept_log c vb t : kept c (logMessage vb t).
Proof.
  intros s Hs. destruct (logMessage_run vb t s) as (s' & -> & Q).
  by rewrite (becomes_cache _ _ _ Q).
Qed.

Hint Resolve kept_call kept_var kept_get_vars kept_lift kept_log : presv.
Hint Extern 1 (preserves _ (upd _)) => (by apply kept_upd) : presv.

Ltac kept := unfold eprintf, printf, p_exit in *; presv.

Lemma kept_fprintf_log c t : kept c (fprintf_log t).
Proof. unfold fprintf_log. kept. Qed.
Lemma kept_dump c : kept c dumpCacheToLog.
Proof.
  pose proof (kept_fprintf_log c). unfold dumpCacheToLog. apply preserves_bind; [apply kept_var|intros l].
  apply preserves_bind; [|intros; apply kept_fprintf_log].
  generalize 0 as j. induction l; intros j; simpl; kept.
Qed.
Lemma kept_check c : kept c checkCacheConsistency.
Proof.
  assert (H : ∀ l j sb n, kept c (check_slots j l sb n)).
  { induction l as [|w l IH]; intros j sb n; simpl; kept. }
  unfold checkCacheConsistency. kept.
Qed.
Lemma kept_finish c fd n : kept c (finish_event fd n).
Proof. pose proof (kept_check c). pose proof (kept_dump c). unfold finish_event. kept. Qed.
Lemma kept_display c ev : kept c (displayInotifyEvent ev).
Proof. unfold displayInotifyEvent. kept. Qed.
Lemma kept_isRoot c p : kept c (isRootDirPath p).
Proof. by intros s. Qed.
Lemma kept_zapRoot c p : kept c (zapRootDirPath p).
Proof. unfold zapRootDirPath, findRootDirPath. kept. Qed.
Lemma kept_slot_path c slot : kept c (slot_path slot).
Proof. unfold slot_path, slot_at. kept. Qed.

Lemma kept_Ok {A} (m : M st A) s a s' :
  (∀ c, kept c m) → m s = (Ok a, s') → cache s' = cache s.
Proof. intros H E. specialize (H (cache s) s eq_refl). by rewrite E in H. Qed.

(** Clearing a slot, after steps that leave the cache as it is. *)
Lemma clear_Ok (k : nat) (s : st) u s' :
  clear_slot (Some (Z.of_nat k)) s = (Ok u, s') → cache s' = <[k := free_slot]> (cache s).
Proof.
  intros H. destruct (decide (k < length (cache s))%nat) as [Hk|Hk].
  - destruct (mark_run k s Hk) as (s1 & H1 & B). cbn [clear_slot] in H.
    rewrite H1 in H. injection H as <- <-. by apply becomes_cache in B.
  - cbn [clear_slot] in H. apply bind_Ok in H as (w & s1 & H & _). unfold slot_at in H.
    erewrite run_bind in H by apply var_run. rewrite (proj2 (Z.leb_le _ _)), Nat2Z.id in H by lia.
    by rewrite (lookup_ge_None_2 (cache s) k) in H by lia.
Qed.

(** The handler of such an event. *)
Definition on_gone (ev : event) (slot : option Z) : M st unit :=
  if has (ev_mask ev) IN_DELETE_SELF then on_delete_self ev slot else on_unmount slot.

Lemma dispatch_gone fd ev rest slot b f :
  reports_gone ev →
  dispatch fd ev rest slot b f = (on_gone ev slot;; finish_event fd (event_size ev)) ∧
  has (ev_mask ev) IN_IGNORED = false.
Proof.
  intros [_ [H|[H|[H|H]]]]; unfold dispatch, on_gone; rewrite H; by split.
Qed.

Lemma on_gone_Ok ev (k : nat) s u s' :
  on_gone ev (Some (Z.of_nat k)) s = (Ok u, s') → cache s' = <[k := free_slot]> (cache s).
Proof.
  unfold on_gone, on_delete_self, on_unmount. intros H. destruct (has _ _).
  - apply bind_Ok in H as (dir & s1 & H1 & H). apply bind_Ok in H as (? & s2 & H2 & H).
    apply bind_Ok in H as (root & s3 & H3 & H). apply bind_Ok in H as (? & s4 & H4 & H).
    apply kept_Ok in H1; [|intros; apply kept_slot_path]. apply kept_Ok in H2; [|intros; apply kept_log].
    apply kept_Ok in H3; [|intros; apply kept_isRoot].
    apply kept_Ok in H4; [|intros; apply preserves_when, kept_zapRoot].
    apply clear_Ok in H. congruence.
  - apply bind_Ok in H as (dir & s1 & H1 & H). apply bind_Ok in H as (? & s2 & H2 & H).
    apply kept_Ok in H1; [|intros; apply kept_slot_path]. apply kept_Ok in H2; [|intros; apply kept_log].
    apply clear_Ok in H. congruence.
Qed.

(** The slot of a descriptor in a well-formed cache. *)
Lemma find_unique c k w :
  cache_wf c → c !! k = Some w → 0 <= w_wd w →
  find_slot (λ x, w_wd x =? w_wd w) 0 c = Z.of_nat k.
Proof.
  intros (_ & Hu & _) Hk Hw.
  destruct (Z_lt_le_dec (find_slot (λ x, w_wd x =? w_wd w) 0 c) 0) as [Hn|Hn].
  - apply find_slot_none in Hn; [|done]. rewrite Forall_lookup in Hn.
    specialize (Hn k w Hk). simpl in Hn. lia.
  - apply find_slot_index in Hn as (i & x & -> & Hi & Hp). bool_facts. f_equal.
    eapply (Hu i k x w); [done|done|unfold live; lia|done].
Qed.

Lemma gone_clears fd ev rest left first k w (s : st) r s' :
  cache_wf (cache s) → cache s !! k = Some w → w_wd w = ev_wd ev → reports_gone ev →
  processNextInotifyEvent fd (ev :: rest) left first s = (Ok r, s') →
  r = (fd, event_size ev) ∧ cache s' = <[k := free_slot]> (cache s).
Proof.
  intros Hwf Hk Hwd Hg H. pose proof (proj1 Hg) as Hpos.
  unfold processNextInotifyEvent in H. apply bind_Ok in H as (? & s1 & H1 & H).
  apply kept_Ok in H1; [|intros; apply kept_display].
  destruct (dispatch_gone fd ev rest (Some (Z.of_nat k)) left first Hg) as [Hd Hi].
  rewrite Hi, (proj2 (Z.eqb_neq _ _)) in H by lia. cbn [negb andb] in H.
  apply bind_Ok in H as (j & s2 & H2 & H).
  assert (j = Z.of_nat k ∧ s2 = s1) as [-> ->].
  { unfold findWatchChecked in H2. erewrite run_bind in H2 by reflexivity.
    rewrite H1, <- Hwd, (find_unique _ k w Hwf Hk) in H2 by lia.
    rewrite (proj2 (Z.leb_le _ _)) in H2 by lia. by injection H2 as <- <-. }
  rewrite (proj2 (Z.eqb_neq _ _)), Hd in H by lia.
  apply bind_Ok in H as (? & s3 & H3 & H). apply on_gone_Ok in H3.
  pose proof (kept_Ok _ _ _ _ (λ c, kept_finish c fd (event_size ev)) H) as Hf.
  split; [|congruence]. unfold finish_event in H.
  do 3 (apply bind_Ok in H as (? & ? & _ & H)). by injection H as <- <-.
Qed.
End gone.

(** ** The invariant over the whole program *)

Section program.
Context {L : Libc} {W : Type} `{!InotifySys W, !InotifyLaws W}.
Local Abbreviation st := (pst ivars icall W).
Local Abbreviation inv := (inv (W:=W)).

Lemma preserves_upd_cfg c : preserves inv (upd (set_cfg c)).
Proof. by intros s. Qed.
Lemma preserves_upd_log l : preserves inv (upd (set_log l)).
Proof. by intros s. Qed.
Lemma preserves_upd_roots f g : preserves inv (upd (λ v, set_roots (f v) (g v) v)).
Proof. by intros s. Qed.

Hint Resolve preserves_upd_cfg preserves_upd_log preserves_upd_roots preserves_upd_cnts preserves_perror
  preserves_dump preserves_check : presv.

Lemma preserves_verify cmd j l a b : preserves inv (verify_slots cmd j l a b).
Proof. revert j a b. induction l; intros; simpl; presv. Qed.

Lemma preserves_list j l : preserves inv (list_slots j l).
Proof. revert j. induction l; intros; simpl; presv. Qed.

Lemma preserves_write f l : preserves inv (write_slots f l).
Proof. induction l; simpl; presv. Qed.

Hint Resolve preserves_verify preserves_list preserves_write : presv.

Lemma preserves_command fd cmd arg : preserves inv (run_command fd cmd arg).
Proof.
  unfold run_command, cmd_add, cmd_verbose, cmd_dump, cmd_check, cmd_write, cmd_zap, need,
    checkAllCachedPathnamesExist, displayCommandList, close_fd.
  presv.
Qed.

Lemma preserves_executeCommand fd : preserves inv (executeCommand fd).
Proof. unfold executeCommand. pose proof preserves_command. presv. Qed.

Lemma preserves_usage {A} p : preserves inv (usageError p : M st A).
Proof. unfold usageError. presv. Qed.

Lemma preserves_option p o : preserves inv (set_option p o).
Proof. pose proof (@preserves_usage unit). unfold set_option. presv. Qed.

Lemma preserves_count l : preserves inv (count_roots l).
Proof. induction l; simpl; presv. Qed.

Lemma preserves_dup p x l : preserves inv (check_duplicates p x l).
Proof. induction l as [|[]]; simpl; presv. Qed.

Lemma preserves_copy l seen : preserves inv (copy_roots l seen).
Proof. pose proof preserves_dup. revert seen. induction l; intros; simpl; presv. Qed.

Lemma preserves_events fuel fd : preserves inv (processInotifyEvents fuel fd).
Proof. unfold processInotifyEvents. pose proof preserves_process_body. presv. Qed.

Hint Resolve preserves_executeCommand preserves_usage preserves_option preserves_count
  preserves_copy preserves_events : presv.

Lemma preserves_main fuel p opts dirs : preserves inv (main fuel p opts dirs).
Proof. unfold main, main_body, copyRootDirPaths, prompt. presv. Qed.

(** C39: whatever options, directories, commands and events it is given, the
    program never leaves the watch cache ill-formed: started with an empty
    cache, after any number of turns, or at the end of the process, no
    descriptor is in two slots, and every slot is free or holds a nonnegative
    descriptor and a terminated path, as [inotify_add_watch] refuses the paths
    that do not fit.  And the cache follows the deletion and the unmounting of
    directories: when it has processed an event that reports one, of a
    descriptor in the (well-formed) cache, and goes on, it has consumed this
    event alone, freed the slot of this descriptor, and changed no other. *)
Theorem main_inv fuel p opts dirs (s : st) :
  (wlCache (vars s) = [] → cache_wf (wlCache (vars (main fuel p opts dirs s).2))) ∧
  (∀ fd ev rest left first k w r s',
     cache_wf (wlCache (vars s)) → wlCache (vars s) !! k = Some w → w_wd w = ev_wd ev →
     reports_gone ev → processNextInotifyEvent fd (ev :: rest) left first s = (Ok r, s') →
     r = (fd, event_size ev) ∧ wlCache (vars s') = <[k := free_slot]> (wlCache (vars s))).
Proof.
  split; [|by eauto using gone_clears].
  intros Hs. assert (inv s) as Hi by (unfold inv; rewrite Hs; apply cache_wf_nil).
  pose proof (preserves_main fuel p opts dirs s Hi) as H.
  by destruct (main fuel p opts dirs s) as [[r|h] s'].
Qed.
End program.
