(* ===== verification/InotifyToy.v ===== *)
(** A concrete machine for the directory monitor: watch descriptors are handed
    out in increasing order, a walk of a directory visits that directory only,
    and events are delivered from a finite list of batches.  It satisfies all
    the laws the theorems assume; the examples run them on it. *)
From S2P Require Import Prelude CLib ErrorFunctions Proc Inotify InotifyCache InotifyEvents InotifyMain.
Local Open Scope Z_scope.

Record machine := Machine { next_wd : nat; batches : list (list event) }.

Definition sane (evs : list event) : list event := filter (λ ev, 0 <= ev_len ev) evs.

#[export] Instance machine_inotify : InotifySys machine := {|
  sys_add_watch _ p _ m :=
    if Z.of_nat (String.length p) <? Z.of_nat PATH_MAX
    then (inr (Z.of_nat (next_wd m)), Machine (S (next_wd m)) (batches m))
    else (inl ENAMETOOLONG, m);
  sys_rm_watch _ _ m := (inr tt, m);
  sys_inotify_init m := (inr 3, m);
  sys_close _ m := (inr tt, m);
  sys_lstat _ m := (inr (Stat true 1 1), m);
  sys_nftw p m := ([(p, true)], None, m);
  sys_realloc n m := (inr (replicate n (Watch 77 "garbage")), m);
  sys_alloc _ m := (inr tt, m);
  sys_read_events _ _ m :=
    match batches m with
    | [] => (inl EINTR, m)
    | b :: bs => (inr (sane b), Machine (next_wd m) bs)
    end;
  sys_read_stdin _ m := (inl EINTR, m);
  sys_creat _ m := (inr 4, m);
  sys_select _ m := (inr (false, true), m);
  sys_misc m := (inr tt, m);
  ptr_text _ := "0x1 0x2" |}.

#[export] Instance machine_laws : InotifyLaws machine.
Proof.
  split.
  - intros fd p m w wd w'. simpl. destruct (_ <? _); [|done]. intros [= <- <-]. lia.
  - intros fd p m w wd w'. simpl. destruct (_ <? _) eqn:E; [|done]. bool_facts. lia.
  - intros n w fresh w' [= <- <-]. apply length_replicate.
Qed.

#[export] Instance machine_events : EventLaws (W:=machine).
Proof.
  intros fd n w evs w'. simpl. destruct (batches w); [done|]. intros [= <- <-].
  unfold sizes_ok, sane. apply Forall_forall. intros ev [H _]%list_elem_of_filter. done.
Qed.

Definition pending (m : machine) : nat := length (concat (batches m)).

#[export] Instance machine_supply : InotifySupply machine pending.
Proof.
  split; try by intros.
  { intros fd p m w. simpl. by destruct (_ <? _). }
  intros fd n w. simpl. destruct (batches w) as [|b bs] eqn:E; [done|].
  unfold pending. rewrite E. simpl. rewrite length_app.
  pose proof (length_filter (λ ev, 0 <= ev_len ev) b) as H. unfold sane. lia.
Qed.

#[export] Instance quiet_libc : Libc := {| strerror _ := "error"; io_errno e := e |}.

Definition toy_vars (c : list watch) : ivars :=
  IVars (Config 0 false false 0 None false) None c [Some "/r"] 0 3 (Counters 0 0 0 0).
Definition toy_state (c : list watch) (m : machine) : pst ivars icall machine :=
  Pst (Proc 0 [] "" "" []) (toy_vars c) [] m.

Definition toy_cache : list watch := [Watch 1 "/r"; Watch 2 "/r/a"; Watch 4 "/r/a/b"; free_slot].

Lemma below_PATH_MAX n : (Z.of_nat n <? 4096) = true → (n < PATH_MAX)%nat.
Proof. unfold PATH_MAX. intros H. bool_facts. lia. Qed.

Lemma toy_cache_wf : cache_wf toy_cache.
Proof.
  split_and!.
  - unfold slots_wf, toy_cache. repeat (apply Forall_cons; split); [by left..|by right|done].
  - intros i j wi wj Hi Hj _ He. unfold toy_cache in *.
    do 4 (destruct i as [|i];
      [injection Hi as <-; do 4 (destruct j as [|j]; [injection Hj as <-; (done || simpl in He; lia)|]); done|]).
    done.
  - unfold toy_cache. by repeat (apply Forall_cons; split); try (apply below_PATH_MAX; reflexivity).
Qed.

Lemma addWatchToCache_spec_witness :
  ∃ j s', addWatchToCache 9 "/r/c" (toy_state toy_cache (Machine 9 [])) = (Ok j, s') ∧
    findWatch 9 s' = (Ok j, s').
Proof.
  pose proof (addWatchToCache_spec 9 "/r/c" (toy_state toy_cache (Machine 9 [])) toy_cache_wf) as H.
  do 2 eexists. split; [vm_compute; reflexivity|].
  refine (proj1 (proj2 (H _ _ _))).
  - lia.
  - repeat constructor; done.
  - apply below_PATH_MAX. vm_compute. reflexivity.
Defined.

Lemma zapSubtree_spec_witness :
  ∃ r s', zapSubtree 3 "/r/a" (toy_state toy_cache (Machine 9 [])) = (Ok r, s') ∧
    cache_wf (wlCache (vars s')).
Proof.
  destruct (zapSubtree_spec 3 "/r/a" (toy_state toy_cache (Machine 9 [])) (Machine 9 [])
    toy_cache_wf) as (r & s' & H & Hw & _); [reflexivity|].
  by exists r, s'.
Defined.

Lemma rewriteCachedPaths_spec_witness :
  ∃ s', rewriteCachedPaths "/r" "a" "/r" "z" (toy_state toy_cache (Machine 9 [])) = (Ok tt, s') ∧
    cache_wf (wlCache (vars s')).
Proof.
  destruct (rewriteCachedPaths_spec "/r" "a" "/r" "z" (toy_state toy_cache (Machine 9 [])) toy_cache_wf)
    as (s' & H & Hw & _).
  - apply below_PATH_MAX. reflexivity.
  - apply below_PATH_MAX. reflexivity.
  - by exists s'.
Defined.

(** A rename of "/r/a" to "/r/z", in one batch. *)
Definition toy_from : event := Event 1 (Z.lor IN_MOVED_FROM IN_ISDIR) 7 16 "a".
Definition toy_to : event := Event 1 (Z.lor IN_MOVED_TO IN_ISDIR) 7 16 "z".
Definition toy_machine : machine := Machine 9 [[toy_from; toy_to]].

Lemma processNextInotifyEvent_consumes_witness :
  ∃ fd n s', processNextInotifyEvent 3 [toy_from] 32 true (toy_state toy_cache toy_machine) =
      (Ok (fd, n), s') ∧
    consumed toy_from [] 32 true n.
Proof.
  do 3 eexists. split; [vm_compute; reflexivity|].
  eapply (processNextInotifyEvent_consumes 3 toy_from [] 32 true (toy_state toy_cache toy_machine)).
  vm_compute. reflexivity.
Defined.

Lemma process_body_aligned_witness :
  ∃ p' s', process_body (Pass 3 [toy_from] 32 true) (toy_state toy_cache (Machine 9 [])) =
      (Ok (inl p'), s') ∧ aligned p' ∧ ps_left p' = 31.
Proof.
  do 2 eexists. split; [vm_compute; reflexivity|]. split; [|reflexivity].
  eapply (process_body_aligned (Pass 3 [toy_from] 32 true) (toy_state toy_cache (Machine 9 []))).
  - split_and!; [by repeat constructor|done|by left].
  - vm_compute. reflexivity.
Defined.

Lemma processInotifyEvents_terminates_witness :
  (processInotifyEvents 6 3 (toy_state toy_cache toy_machine)).1 ≠ Halt HFuel.
Proof.
  apply (processInotifyEvents_terminates pending 6 3 (toy_state toy_cache toy_machine)).
  vm_compute. lia.
Defined.

Lemma rename_within_spec_witness :
  ∃ s', processNextInotifyEvent 3 [toy_from; toy_to] 64 true (toy_state toy_cache toy_machine) =
      (Ok (3, 64), s') ∧
    wlCache (vars s') = [Watch 1 "/r"; Watch 2 "/r/z"; Watch 4 "/r/z/b"; free_slot].
Proof.
  destruct (rename_within_spec 3 toy_from toy_to [] 64 true 0 0 "/r" "/r"
    (toy_state toy_cache toy_machine)) as (s' & H & _ & Hc);
    [exact toy_cache_wf|done..|].
  exists s'. split; [exact H|]. rewrite Hc. vm_compute. reflexivity.
Defined.

Lemma optional_checks_undefined_witness :
  (checkCacheConsistency (toy_state [free_slot] toy_machine)).1 = Halt HUndef.
Proof. apply (optional_checks_undefined (toy_state [free_slot] toy_machine) []). reflexivity. Defined.

(** The directory "/r/a/b" was deleted. *)
Definition toy_gone : event := Event 4 IN_DELETE_SELF 0 0 "".

Lemma main_inv_witness :
  cache_wf (wlCache (vars (main 5 "inotify_dtree" [("x"%char, "")] ["/r"]
    (toy_state [] toy_machine)).2)) ∧
  ∃ s', processNextInotifyEvent 3 [toy_gone] 16 true (toy_state toy_cache toy_machine) =
      (Ok (3, 16), s') ∧
    wlCache (vars s') = [Watch 1 "/r"; Watch 2 "/r/a"; free_slot; free_slot].
Proof.
  split; [by apply main_inv|]. eexists. split; [vm_compute; reflexivity|].
  refine (proj2 (proj2 (main_inv 0 "" [] [] (toy_state toy_cache toy_machine))
    3 toy_gone [] 16 true 2%nat (Watch 4 "/r/a/b") (3, 16) _ toy_cache_wf eq_refl eq_refl _ _)).
  - split; [done|by left].
  - vm_compute. reflexivity.
Defined.
